(* ===== verification/_CoqProject ===== *)
-Q . S2P
Prelude.v
Effects.v
BaseUint.v
Serializer.v
STAmount.v
STAmountMath.v
Book.v
Resource.v
FeeTrack.v
Consensus.v
PeerCache.v
PeerSlots.v
RangeSet.v
TaggedCache.v
KeyCache.v
SHAMapNode.v
SHAMapSpec.v
SHAMap.v
SHAMapRep.v
SHAMapReads.v
SHAMapWrites.v
SHAMapAdd.v
SHAMapDel.v
SHAMapLaws.v
SHAMapSnapshot.v
SHAMapTyping.v
SHAMapDelta.v
SHAMapSync.v
SyncNodes.v
SyncLaws.v
LedgerEntrySet.v
LedgerLaws.v
Directory.v
LedgerNext.v
TrustLines.v
TrustLaws.v
TxMeta.v
TxEngine.v
Transactors.v
MetaLaws.v
EngineFrame.v
OpenLedger.v
Supply.v
EngineLaws.v
EngineClaims.v
OrderedMap.v
HashRouter.v
CanonicalTXSet.v
CloseLedger.v
CloseLaws.v
CloseClaims.v
LocalTxs.v
FeeVote.v
AmendmentTable.v
