(* ===== verification/Prelude.v ===== *)
(** * Stellard: a verification library

    stellard is the server of the Stellar network as forked from rippled: it
    keeps a ledger of accounts, trust lines and offers, agrees with its peers on
    the next ledger, and serves clients.  This library models the numeric and
    algorithmic core of the server in Gallina and proves it correct.

    ** The program's parts and the files that model them

    - [BaseUint.v], module [BaseUint]: the fixed-width integers [uint160] and
      [uint256] ([src/src/ripple/types/api/base_uint.h]).  State: the list of the
      32-bit words.  One definition per member function: [incr], [decr], [add],
      the bitwise operators, [compare], [SetHex], [to_string].
    - [Serializer.v], module [Serializer]: the byte buffer of the wire protocol
      and its read cursor ([src/src/ripple_data/protocol/Serializer.h] and
      [.cpp]): the [add...] and [get...] functions, [chop], variable-length
      prefixes, field identifiers, [SerializerIterator].
    - [STAmount.v], module [STAmount]: the amounts of the ledger
      ([SerializedTypes.h], [STAmount.cpp] in [src/src/ripple_data/protocol]):
      constructors, [canonicalize], comparison, sums, the wire format ([serialize]
      is [add], [construct] reads).  It uses [BaseUint] for currency and issuer
      and [Serializer] for the bytes.
    - [STAmountMath.v], module [STAmountMath]: [multiply], [divide], [getRate],
      [setRate], [getPay] and the directed rounding of [STAmountRound.cpp], over
      OpenSSL's big numbers as an interface.
    - [Book.v], module [Book]: offer crossing ([Amounts.h], [Quality.h],
      [Offer.h], [Taker.h] in [src/src/ripple_app/book]), a client of the
      arithmetic and of the ledger view.
    - [Resource.v], module [Resource]: the resource manager
      ([src/src/ripple/resource]), which charges peers and clients for load,
      warns and disconnects them, and exchanges balances with the cluster.
    - [FeeTrack.v], module [FeeTrack]: the load fee multipliers
      ([src/src/ripple_core/functional/LoadFeeTrackImp.h]).
    - [Consensus.v], module [Consensus]: ledger timing and the votes on disputed
      transactions ([src/src/ripple_app/ledger/LedgerTiming.cpp],
      [src/src/ripple_app/consensus/DisputedTx.cpp]).
    - [PeerCache.v] and [PeerSlots.v]: the PeerFinder
      ([src/src/ripple/peerfinder/impl]).  [PeerCache] has the live cache, the
      boot cache, the fixed peers and the distribution of endpoints; [PeerSlots],
      on top of it, the slots, their counters and the connection logic, as a
      state machine over the calls of the overlay.
    - [RangeSet.v], module [RangeSet]: the set of ledger numbers a server has, as
      sorted ranges ([src/src/ripple_basics/containers/RangeSet.h/.cpp]).
    - [TaggedCache.v] and [KeyCache.v]: the caches of objects and of keys
      ([src/src/ripple/common]).
    - SHAMap, the Merkle radix tree that holds the state and the transactions of
      a ledger ([src/src/ripple_app/shamap]).  [SHAMapNode.v]: positions
      ([SHAMapNodeID]), tree nodes ([SHAMapTreeNode]) with their hashes, and the
      wire and storage formats.  [SHAMap.v]: the operations of [SHAMap.cpp] on a
      store of node cells that all maps of the process share, and on the node
      database.  [SHAMapDelta.v]: [compare] of [SHAMapDelta.cpp].
      [SHAMapSpec.v]: the abstract side, finite maps from keys to data with
      their canonical hash.  [SHAMapRep.v] relates store and finite map;
      [SHAMapReads.v], [SHAMapWrites.v], [SHAMapAdd.v] and [SHAMapDel.v] verify
      the operations against it; [SHAMapLaws.v], [SHAMapSnapshot.v] and
      [SHAMapTyping.v] draw the conclusions.  [SHAMapSync.v]: acquiring a tree
      from peers node by node ([SHAMapSync.cpp], the sync filters, the fetch pack,
      the full-below cache, [walkMap]); [SyncNodes.v] and [SyncLaws.v] verify it
      against the canonical tree of the root hash.
    - LedgerEntrySet, the modifiable view of a ledger that transactions work on
      ([src/src/ripple_app/ledger/LedgerEntrySet.cpp]).  [LedgerEntrySet.v]: the
      cached entries and their actions, checkpoints, the ledger indexes, and the
      owner and book directories with their pages.  [LedgerLaws.v]: the abstract
      side, a finite map from indexes to entries, and its refinement.
      [Directory.v]: a directory as a list of indexes over chained pages.
      [LedgerNext.v]: the search for the next index.  [TrustLines.v]: owner
      counts, offers, balances, trust lines and payments, with the arithmetic of
      [STAmount] and [STAmountMath]; [TrustLaws.v]: what a payment does to the
      balances.
    - Transactions.  [TxMeta.v]: the metadata of a transaction and the threads it
      leaves in entries ([calcRawMeta] and [threadTx] of [LedgerEntrySet.cpp],
      [src/src/ripple_app/tx/TransactionMeta.cpp]); [MetaLaws.v]: its
      completeness.  [TxEngine.v]: the base class of transactors and the engine
      ([src/src/ripple_app/transactors/Transactor.cpp],
      [src/src/ripple_app/tx/TransactionEngine.cpp]), with the ledger header and
      the members of transactor and engine as state.  [Transactors.v]: the
      transactor of each type ([src/src/ripple_app/transactors]).
      [EngineFrame.v]: what no transactor may change (classes [Fixes] and
      [TransactorFixes]), and that the engine is all or nothing.
      [OpenLedger.v]: transactions of an open ledger.  [Supply.v]: the sum of all
      balances.  [EngineLaws.v]: the engine against the interface [Lawful] of a
      transactor; [EngineClaims.v]: conservation, no replay, claimed fees.
    - Closing a ledger.  [OrderedMap.v]: [std::map].  [HashRouter.v]: what the server
      knows of hashes ([src/src/ripple_app/misc/HashRouter.cpp]).
      [CanonicalTXSet.v]: the order in which transactions are applied
      ([src/src/ripple_app/misc/CanonicalTXSet.cpp]).  [CloseLedger.v]: the agreed
      set applied to the closing ledger ([applyTransactions] of
      [src/src/ripple_app/consensus/LedgerConsensus.cpp]), on top of the engine, the
      router and the canonical set; [CloseLaws.v]: its loops against the contract of
      the engine ([EngineContract]); [CloseClaims.v]: the two instances of the contract
      and what follows.  [LocalTxs.v]: the transactions carried over to the next open
      ledger ([src/src/ripple_app/tx/LocalTxs.cpp], the held transactions of
      [LedgerMaster.cpp], the end of [accept]).
    - Voting on the rules, in the validations of a flag ledger.  [FeeVote.v]: fees
      and reserves ([src/src/ripple_app/misc/FeeVoteImpl.cpp]), whose proposals the
      engine of [TxEngine] carries out.  [AmendmentTable.v]: amendments, their
      majorities and vetoes ([src/src/ripple_app/misc/AmendmentTableImpl.cpp]).

    [Effects.v] has the state and exception monad of the last groups, with the
    rules of its weakest preconditions.  This file is the shared layer: exceptions
    as values ([result] with its monad), machine integers ([u64], [i64], ...), loops with fuel ([while],
    [while_r]), powers of ten, bit fields, digit lists and counting.

    ** How code becomes definitions

    A [w]-bit integer is a [Z] with its wrap-around written out ([uwrap],
    [swrap]); a function that throws returns a [result]; a function that reports
    failure in a [bool] returns an [option]; in [Resource] and [Consensus], [None]
    is undefined behaviour of the C++ code.  Mutation is explicit state passing.
    Operations that can interleave are the constructors of an inductive type of
    events with an executable step ([exec]) and its transition relation.
    Assertions that only log are left out; calls that only log are left out.

    Code outside the repository is a parameter: OpenSSL's [BN_*] functions
    (class [OpenSSL] with the laws [OpenSSLSpec] of its manual), the
    classification and printing of network addresses (class [Endpoints]), the
    SHA-512 digest (class [SHA512]: a function to 32 bytes).  That the digest has
    no collision is never assumed of the function: a theorem that needs it says
    so of the finitely many byte strings the trees at hand hash
    ([no_collision]), or of the indexes of accounts ([DistinctRoots]).  The ledger
    the taker works on is the class [LedgerView].  What peers send and when reads
    complete is the class [Server] of [SHAMapSync].  Public keys and signatures are
    the class [Keys]; the server a transaction is applied by (fee table, configured
    fee, supported amendments) is [Application]; the rows the database answers to
    the inflation query are [Votes]; the clock, the database of transactions and the
    decoding of a transaction from its bytes are [Node].  Payments through paths
    ([rippleCalc]) and [doApply] of new offers ([createOffer]), which are in the
    repository and not modelled, are the class [Paths]: computations on the table of
    entries, [createOffer] with the members of the transactor and the header of the
    ledger to read, as its code has it.  Theorems that need something of them say so
    ([PathsFix]: the ledger under the table is left alone).  Every theorem over
    an interface has a witness at a concrete instance.

    ** What the theorems show

    - Amounts: [canonicalize] equals a closed form on all 64-bit inputs and
      establishes the representation invariant; comparison is the order of the
      denoted numbers; native sums are exact and issued sums have a stated
      error, zeros included; the wire format and the canonical amounts are in bijection
      as far as the format reaches; products and quotients are within one unit of the
      last place, up to underflow to zero and overflow; rates round-trip and sort by price; rounding down is sound.
    - Offer crossing: capping and filling never exceed the offer or the funds of
      the taker, processing keeps the books of both sides.
    - Resource manager: an inductive invariant of the whole state machine, from
      which no reachable operation is undefined; expiry; dispositions; decay.
    - Fees: bounds under every sequence of operations, recovery, scaling error.
    - Consensus: the 80% rule, its uniqueness, the vote tally, the avalanche
      rule, the resolution walk.
    - PeerFinder: an inductive invariant of the whole state machine, for connections
      that follow their life cycle and as long as none of three defects of the code is
      triggered (they are spelled out, [PeerSlots.defect]); admission of connections
      within the slots, termination and completeness of the handout
      of endpoints, the caches' bookkeeping.
    - RangeSet: any sequence of operations against the set of integers they are
      documented to build: nothing else is held, and everything is unless a [setRange]
      fell into the defect [setRange_drops_last].
    - SHAMap: any sequence of operations refines the finite map from keys to
      data, traversal order included; the root hash depends on the contents
      alone; a snapshot and its original are isolated from each other; every node
      of the store and the database keeps its shape and its hash under any calls of
      [SHAMap.cpp] (not so under nodes from peers, [poisoned_branch_accepted]); nodes
      survive their formats,
      and exactly the malformed ones are refused.
    - LedgerEntrySet: any sequence of its operations refines a finite map from
      indexes to entries; a checkpoint is isolated from what is done on a copy;
      adding to, deleting from, walking and counting a directory act on the list
      of its entries; the next index is the least one above in the view.
    - Payments: a native payment moves exactly the amount; a credit on a trust
      line moves it between the two ends, and which flags, limits and balances release a
      reserve or delete the line is stated apart from the code's own test;
      paying and paying back restores the line.
    - Caches: any calls on a [TaggedCache] refine a list in order of use, as long as
      its size is not set below what it holds; which keys a sweep of a [KeyCache] keeps.
    - Synchronization: whatever peers send, an acquired map never answers a lookup
      wrongly, and when nothing is missing everything is there.
    - Transactions: the metadata lists every entry that changes, where account roots
      have a thread; a transaction is applied as a whole or not at all, whatever its
      type; one that is applied with a [tec] code costs exactly its fee, header
      included; on an open ledger it is only listed, and entries do not change but for
      a [tec] code; the
      balances of all accounts keep adding up to the coins of the ledger over any
      history of native payments and settings, and nothing in it is applied twice.
    - Closing a ledger: the canonical order keeps the transactions of an account
      together and in sequence, and depends on the set alone; whatever is in the agreed
      set, every transaction of it ends in the ledger, failed or left for later, and
      nothing but undefined behaviour of the engine itself gets out; no coin
      is made or lost; the hash router keeps a flag for its hold time; a local
      transaction is dropped for a stated reason, and only for one.
    - Voting: the fee proposed is the one with most votes between what is set and what
      the server wants; an amendment is voted for only after it has held a majority
      for the required time.
    - Encodings: round trips of integers, field identifiers, variable-length
      blobs and hexadecimal text; word arithmetic against arithmetic modulo
      [2^n].
    - Theorems named [..._gaps], [..._artifacts], [..._breaks],
      [underflow_zero_offset], [addVL_string_no_prefix], [getPrev_wrong],
      [setRange_drops_last], [id_order_swapped], [empty_snapshot_aliased],
      [compare_reports_equal_item], [duplicate_shares], [empty_but_not_empty],
      [direct_send_hides_failure], [count_not_clamped], [frozen_is_native],
      [shrink_undefined], [insert_answers], [poisoned_branch_accepted],
      [unlisted_thread], [quirks_live], [merged_replay],
      [inflation_charges_anyone], [issued_fee_throws], [open_merge_claims],
      [no_final_pass], [forged_applied], [nothing_expires_alone],
      [reserve_scaled], [majority_gap], [three_of_five], [zero_entry] and the last
      section of [PeerSlots] evaluate the model at inputs where the code does
      not do what its comments say.

    ** Fuel

    [while] returns the last state when its fuel ends, so each use is paired with
    a lemma that its condition is false at the end.  The scaling loops of
    [canonicalize] move a 64-bit mantissa one decimal digit at a time and stop at
    16 digits: at most 16 steps, and their fuel is 20.  The native loops and the
    alignment loops of a sum run once per unit of offset and take the absolute
    offset as fuel, so the fuel depends on the input and always suffices
    ([native_loops], [align_spec], [canonicalize_iou]).  Walks down a SHAMap have
    fuel 66 for the 64 levels of a 256-bit key, and running out of it is an
    [undefined] outcome, which the theorems exclude.  The explicit stack of
    [walkSubTree] is a recursion over the depth of the tree.  [compare] takes its
    fuel as an argument, an upper bound for the nodes it visits.  Loops over the
    pages of a directory and over the indexes of a ledger take their fuel as an
    argument too, and their theorems hold for every fuel above the number of
    pages, or of deleted entries.  The visit of an account's items
    ([visit_pages]) has the number of entries of the ledger as fuel.

    ** What is not modelled

    JSON and human-readable text, signatures (calls to OpenSSL), property streams
    and logging (output only), storage back ends, sockets and RPC (I/O), the copy
    of the ledger in SQL.  The node database is a finite map from hashes to bytes
    that is always reachable.  Of the transactors, [doApply] of new offers
    ([CreateOffer*.cpp]; its checks are those of the base class), and the path search and liquidity of [RippleCalc.cpp]
    and [Pathfinder.cpp], which payments in issued currencies go through, are
    parameters: they are some four thousand lines over [TrustLines] and book
    iteration that nothing modelled here depends on but through the interface
    [Paths].  [AddWallet.cpp] has no transaction format, so no such transaction
    exists.  Book iteration ([BookTip.h], [OfferStream.h]) is left out with its
    only user, [doApply] of new offers.  The rest of [LedgerConsensus.cpp],
    [NetworkOPs.cpp] and the lists of trusted validators are threads, timers and messages around the
    rules in [Consensus] and [CloseLedger].  Vendored libraries (beast, the databases, protobuf, websocketpp)
    are outside the model. *)

From Stdlib Require Import ZArith Lia.
From stdpp Require Export base list gmap strings numbers.

#[global] Set Default Goal Selector "!".
Open Scope Z_scope.

(** ** C++ exceptions as values *)

(** [undefined] is not an exception of the program: it is the outcome the model
    gives to a step the language leaves undefined (a null pointer dereferenced,
    an index outside an array), so that a theorem can say it does not happen. *)
Inductive exn : Type :=
| runtime_error (what : string)
| overflow_error (what : string)
| SHAMapMissingNode (hash : list Z)
| undefined (what : string).

Inductive result (A : Type) : Type :=
| Ok (a : A)
| Throw (e : exn).
Arguments Ok {A} a.
Arguments Throw {A} e.

#[export] Instance exn_eq_dec : EqDecision exn.
Proof. solve_decision. Defined.

#[export] Instance result_ret : MRet result := fun A a => Ok a.
#[export] Instance result_bind : MBind result :=
  fun A B f m => match m with Ok a => f a | Throw e => Throw e end.
#[export] Instance result_fmap : FMap result :=
  fun A B f m => match m with Ok a => Ok (f a) | Throw e => Throw e end.

Definition is_ok {A} (r : result A) : bool :=
  match r with Ok _ => true | Throw _ => false end.

Lemma bind_Ok {A B} (f : A -> result B) (m : result A) b :
  m ≫= f = Ok b <-> exists a, m = Ok a /\ f a = Ok b.
Proof.
  unfold mbind, result_bind. destruct m; split; naive_solver.
Qed.

Lemma bind_Throw {A B} (f : A -> result B) (m : result A) e :
  m ≫= f = Throw e <-> m = Throw e \/ exists a, m = Ok a /\ f a = Throw e.
Proof. unfold mbind, result_bind. destruct m; naive_solver. Qed.

(** ** Machine integers *)

(** The value a [w]-bit unsigned register holds after computing [z]. *)
Definition uwrap (w z : Z) : Z := z mod 2 ^ w.
Abbreviation u8 := (uwrap 8).
Abbreviation u16 := (uwrap 16).
Abbreviation u32 := (uwrap 32).
Abbreviation u64 := (uwrap 64).

(** The value a [w]-bit two's-complement register holds after computing [z]. *)
Definition swrap (w z : Z) : Z := (z + 2 ^ (w - 1)) mod 2 ^ w - 2 ^ (w - 1).
Abbreviation i32 := (swrap 32).
Abbreviation i64 := (swrap 64).

(** Ranges of the machine types. *)
Definition in_u (w z : Z) : Prop := 0 <= z < 2 ^ w.
Definition in_s (w z : Z) : Prop := - 2 ^ (w - 1) <= z < 2 ^ (w - 1).
Abbreviation is_u8 := (in_u 8).
Abbreviation is_u32 := (in_u 32).
Abbreviation is_u64 := (in_u 64).
Abbreviation is_i32 := (in_s 32).
Abbreviation is_i64 := (in_s 64).

#[export] Instance in_u_dec w z : Decision (in_u w z).
Proof. unfold in_u. apply _. Defined.
#[export] Instance in_s_dec w z : Decision (in_s w z).
Proof. unfold in_s. apply _. Defined.

Lemma uwrap_id w z : in_u w z -> uwrap w z = z.
Proof. unfold uwrap, in_u. intros. by apply Z.mod_small. Qed.

Lemma uwrap_range w z : 0 <= w -> in_u w (uwrap w z).
Proof. intros. apply Z.mod_pos_bound. by apply Z.pow_pos_nonneg. Qed.

Lemma swrap_id w z : 0 < w -> in_s w z -> swrap w z = z.
Proof.
  unfold swrap, in_s. intros Hw H.
  assert (2 ^ w = 2 * 2 ^ (w - 1)).
  { rewrite <- Z.pow_succ_r by lia. f_equal. lia. }
  rewrite Z.mod_small; lia.
Qed.

Lemma swrap_mod w z : swrap w z mod 2 ^ w = z mod 2 ^ w.
Proof.
  unfold swrap. rewrite Zminus_mod_idemp_l. f_equal. lia.
Qed.

(** Wrapping an intermediate result changes nothing. *)
Lemma swrap_add w a b : swrap w (swrap w a + b) = swrap w (a + b).
Proof.
  unfold swrap at 1 3. f_equal.
  rewrite <- (Z.add_assoc (swrap w a)), <- (Z.add_assoc a).
  by rewrite <- Zplus_mod_idemp_l, swrap_mod, Zplus_mod_idemp_l.
Qed.

Lemma u64_id z : 0 <= z < 18446744073709551616 -> u64 z = z.
Proof. intros. by apply uwrap_id. Qed.
Lemma u32_id z : 0 <= z < 4294967296 -> u32 z = z.
Proof. intros. by apply uwrap_id. Qed.
Lemma u8_id z : 0 <= z < 256 -> u8 z = z.
Proof. intros. by apply uwrap_id. Qed.
Lemma i64_id z : -9223372036854775808 <= z < 9223372036854775808 -> i64 z = z.
Proof. intros. by apply swrap_id. Qed.

(** ** Loops *)

(** [while fuel cond body s] runs a C++ [while (cond) body] loop for at most
    [fuel] iterations.  Every use comes with a proof that its fuel suffices
    (through [while_done] below). *)
Fixpoint while {S} (fuel : nat) (cond : S -> bool) (body : S -> S) (s : S) : S :=
  match fuel with
  | O => s
  | S fuel => if cond s then while fuel cond body (body s) else s
  end.

Section While.
Context {S : Type} (cond : S -> bool) (body : S -> S).

(** A loop whose measure is within the fuel ends because its condition fails. *)
Lemma while_done (P : S -> Prop) (measure : S -> nat) :
  (forall s, P s -> cond s = true -> P (body s)) ->
  (forall s, P s -> cond s = true -> (measure (body s) < measure s)%nat) ->
  forall fuel s, P s -> (measure s <= fuel)%nat ->
    cond (while fuel cond body s) = false /\ P (while fuel cond body s).
Proof.
  intros Hinv Hdec fuel. induction fuel as [|fuel IH]; intros s HP Hm; simpl.
  - destruct (cond s) eqn:E; [|done]. specialize (Hdec s HP E). lia.
  - destruct (cond s) eqn:E; [|done].
    apply IH; [by apply Hinv|]. specialize (Hdec s HP E). lia.
Qed.

(** Invariant rule. *)
Lemma while_inv (P : S -> Prop) :
  (forall s, P s -> cond s = true -> P (body s)) ->
  forall fuel s, P s -> P (while fuel cond body s).
Proof.
  intros Hinv fuel. induction fuel as [|fuel IH]; intros s HP; simpl; [done|].
  destruct (cond s) eqn:E; [|done]. by apply IH, Hinv.
Qed.

Lemma while_false fuel s : cond s = false -> while fuel cond body s = s.
Proof. intros H. destruct fuel; simpl; [done|]. by rewrite H. Qed.

(** More fuel than needed changes nothing. *)
Lemma while_more n m s :
  cond (while n cond body s) = false -> (n <= m)%nat ->
  while m cond body s = while n cond body s.
Proof.
  revert m s. induction n as [|n IH]; intros m s H Hle; simpl in *.
  - by apply while_false.
  - destruct m as [|m]; [lia|]. simpl.
    destruct (cond s) eqn:E; [|done]. apply IH; [done|lia].
Qed.
End While.

(** A loop whose body can throw. *)
Fixpoint while_r {S} (fuel : nat) (cond : S -> bool) (body : S -> result S) (s : S) : result S :=
  match fuel with
  | O => Ok s
  | S fuel => if cond s then body s ≫= while_r fuel cond body else Ok s
  end.

Section Counted.
Context {S : Type} (cond : S -> bool) (f : nat -> S).

(** A loop whose successive states are [f 0, f 1, ...] and whose condition
    first fails at [f j] ends in [f j]. *)
Lemma while_count (body : S -> S) j fuel :
  (forall i, (i < j)%nat -> cond (f i) = true /\ body (f i) = f (Datatypes.S i)) ->
  cond (f j) = false -> (j <= fuel)%nat -> while fuel cond body (f 0%nat) = f j.
Proof.
  intros Hstep Hend Hle.
  assert (forall i k, (i + k = j)%nat -> forall n, (k <= n)%nat ->
            while n cond body (f i) = f j) as H.
  { intros i k. revert i. induction k as [|k IH]; intros i Hik n Hn.
    - replace i with j by lia. by apply while_false.
    - destruct n as [|n]; [lia|]. simpl.
      destruct (Hstep i ltac:(lia)) as [-> ->]. apply IH; lia. }
  apply (H 0%nat j); lia.
Qed.

Lemma while_r_count (body : S -> result S) j fuel :
  (forall i, (i < j)%nat -> cond (f i) = true /\ body (f i) = Ok (f (Datatypes.S i))) ->
  cond (f j) = false -> (j <= fuel)%nat -> while_r fuel cond body (f 0%nat) = Ok (f j).
Proof.
  intros Hstep Hend Hle.
  assert (forall i k, (i + k = j)%nat -> forall n, (k <= n)%nat ->
            while_r n cond body (f i) = Ok (f j)) as H.
  { intros i k. revert i. induction k as [|k IH]; intros i Hik n Hn.
    - replace i with j by lia. destruct n; simpl; [done|]. by rewrite Hend.
    - destruct n as [|n]; [lia|]. simpl.
      destruct (Hstep i ltac:(lia)) as [-> ->]. simpl. apply IH; lia. }
  apply (H 0%nat j); lia.
Qed.

(** The same loop when the body throws at [f j]. *)
Lemma while_r_throw (body : S -> result S) j fuel e :
  (forall i, (i < j)%nat -> cond (f i) = true /\ body (f i) = Ok (f (Datatypes.S i))) ->
  cond (f j) = true -> body (f j) = Throw e -> (j < fuel)%nat ->
  while_r fuel cond body (f 0%nat) = Throw e.
Proof.
  intros Hstep Hend Hthrow Hlt.
  assert (forall i k, (i + k = j)%nat -> forall n, (k < n)%nat ->
            while_r n cond body (f i) = Throw e) as H.
  { intros i k. revert i. induction k as [|k IH]; intros i Hik n Hn;
      (destruct n as [|n]; [lia|]); simpl.
    - replace i with j by lia. by rewrite Hend, Hthrow.
    - destruct (Hstep i ltac:(lia)) as [-> ->]. simpl. apply IH; lia. }
  apply (H 0%nat j); lia.
Qed.
End Counted.

(** ** Automation *)

(** Case analysis on the boolean tests the code branches on, turning each into
    the proposition it decides. *)
Ltac bool_cases :=
  repeat match goal with
  | H : (_ && _)%bool = true |- _ => apply andb_true_iff in H as [? ?]
  | H : (_ || _)%bool = false |- _ => apply orb_false_iff in H as [? ?]
  | H : (_ && _)%bool = false |- _ => apply andb_false_iff in H
  | H : (_ || _)%bool = true |- _ => apply orb_true_iff in H
  | H : negb _ = true |- _ => apply negb_true_iff in H
  | H : negb _ = false |- _ => apply negb_false_iff in H
  | H : (_ <? _) = true |- _ => apply Z.ltb_lt in H
  | H : (_ <? _) = false |- _ => apply Z.ltb_ge in H
  | H : (_ <=? _) = true |- _ => apply Z.leb_le in H
  | H : (_ <=? _) = false |- _ => apply Z.leb_gt in H
  | H : (_ =? _) = true |- _ => apply Z.eqb_eq in H
  | H : (_ =? _) = false |- _ => apply Z.eqb_neq in H
  | H : bool_decide _ = true |- _ => apply bool_decide_eq_true in H
  | H : bool_decide _ = false |- _ => apply bool_decide_eq_false in H
  end.

(** Open every [if] and [match] of the goal, then clean up the tests. *)
Ltac split_ifs := repeat (case_match; bool_cases); simplify_eq/=.

(** Unfold a chain of [result] binds in a hypothesis [H : m = Ok _]. *)
Ltac inv_ok H :=
  repeat match type of H with
  | _ ≫= _ = Ok _ => apply bind_Ok in H; destruct H as (? & ? & H)
  end.

(** Prove a concrete decidable proposition by evaluating its decision. *)
Ltac by_decide :=
  lazymatch goal with |- ?P => refine (@bool_decide_unpack P _ _); vm_compute; exact I end.

Create HintDb stellard.
#[export] Hint Resolve uwrap_id uwrap_range u64_id u32_id u8_id : stellard.

(** ** Arithmetic on powers of ten *)

Lemma pow10_pos n : 0 <= n -> 0 < 10 ^ n.
Proof. intros. by apply Z.pow_pos_nonneg. Qed.

Lemma pow10_add a b : 0 <= a -> 0 <= b -> 10 ^ (a + b) = 10 ^ a * 10 ^ b.
Proof. intros. by apply Z.pow_add_r. Qed.

Lemma pow10_succ a : 0 <= a -> 10 ^ (a + 1) = 10 * 10 ^ a.
Proof. intros. rewrite pow10_add by lia. lia. Qed.

Lemma div_div10 v a : 0 <= a -> v / 10 ^ a / 10 = v / 10 ^ (a + 1).
Proof.
  intros. rewrite pow10_succ by lia. rewrite Z.mul_comm.
  by rewrite Z.div_div by (try lia; pose proof (pow10_pos a); lia).
Qed.
#[export] Hint Resolve pow10_pos : stellard.

(** ** Bit fields *)

Lemma land_mask x n m : 0 <= n -> m = 2 ^ n - 1 -> Z.land x m = x mod 2 ^ n.
Proof. intros Hn ->. rewrite <- Z.land_ones by lia. by rewrite Z.ones_equiv, Z.sub_1_r. Qed.

Lemma land_255 x : Z.land x 255 = x mod 256.
Proof. by apply (land_mask x 8). Qed.

Lemma shiftr_div x n : 0 <= n -> Z.shiftr x n = x / 2 ^ n.
Proof. apply Z.shiftr_div_pow2. Qed.

(** A number below [2^n] shares no bit with one shifted left by [n]. *)
Lemma land_shiftl_small hi lo n :
  0 <= n -> 0 <= lo < 2 ^ n -> Z.land (Z.shiftl hi n) lo = 0.
Proof.
  intros Hn Hlo. destruct (decide (lo = 0)) as [->|]; [apply Z.land_0_r|].
  apply Z.bits_inj'. intros i Hi.
  rewrite Z.land_spec, Z.bits_0, Z.shiftl_spec by lia.
  destruct (decide (i < n)); [by rewrite Z.testbit_neg_r by lia|].
  rewrite (Z.bits_above_log2 lo i); [apply andb_false_r|lia|].
  apply Z.log2_lt_pow2; [lia|]. apply Z.lt_le_trans with (2 ^ n); [lia|].
  apply Z.pow_le_mono_r; lia.
Qed.

(** Disjoint fields: [hi << n | lo] with [lo] below bit [n] is [hi * 2^n + lo]. *)
Lemma lor_shiftl_add hi lo n :
  0 <= n -> 0 <= lo < 2 ^ n -> Z.lor (Z.shiftl hi n) lo = hi * 2 ^ n + lo.
Proof.
  intros Hn Hlo. rewrite <- Z.shiftl_mul_pow2 by lia.
  pose proof (land_shiftl_small hi lo n Hn Hlo) as H0.
  rewrite Z.add_nocarry_lxor by done. by rewrite Z.lxor_lor.
Qed.

(** [hi * 2^n] and [lo < 2^n] combine with [|] in either order. *)
Lemma lor_add_disjoint hi lo n :
  0 <= n -> 0 <= lo < 2 ^ n -> Z.lor lo (hi * 2 ^ n) = hi * 2 ^ n + lo.
Proof.
  intros. rewrite Z.lor_comm, <- Z.shiftl_mul_pow2 by lia.
  rewrite lor_shiftl_add, Z.shiftl_mul_pow2 by lia. done.
Qed.

(** Testing the top bit of an [n+1]-bit number. *)
Lemma land_top w n :
  0 <= n -> 0 <= w < 2 * 2 ^ n -> Z.land w (2 ^ n) = if w <? 2 ^ n then 0 else 2 ^ n.
Proof.
  intros Hn Hw. rewrite <- (Z.mul_1_l (2 ^ n)) at 1. rewrite <- Z.shiftl_mul_pow2 by lia.
  destruct (Z.ltb_spec w (2 ^ n)).
  - rewrite Z.land_comm. apply land_shiftl_small; lia.
  - replace w with (1 * 2 ^ n + (w - 2 ^ n)) by lia.
    rewrite <- lor_shiftl_add by lia. rewrite Z.land_lor_distr_l, Z.land_diag.
    rewrite (Z.land_comm (w - _)), land_shiftl_small by lia.
    by rewrite Z.lor_0_r, Z.shiftl_1_l.
Qed.

(** A mask of [n] bits sees the low [n] bits only. *)
Lemma land_low hi x m n :
  0 <= n -> 0 <= m < 2 ^ n -> Z.land (hi * 2 ^ n + x) m = Z.land x m.
Proof.
  intros Hn Hm. rewrite <- (Z.mod_small m (2 ^ n)) by done. rewrite <- !Z.land_ones by lia.
  rewrite (Z.land_comm m), !Z.land_assoc. f_equal. rewrite !Z.land_ones by lia.
  by rewrite Z.add_comm, Z.mod_add by lia.
Qed.

Lemma in_u_lor w a b : 0 <= w -> in_u w a -> in_u w b -> in_u w (Z.lor a b).
Proof.
  unfold in_u. intros Hw Ha Hb. assert (0 <= Z.lor a b) by (apply Z.lor_nonneg; lia).
  split; [done|]. destruct (decide (Z.lor a b = 0)) as [->|]; [lia|].
  apply Z.log2_lt_pow2; [lia|]. rewrite Z.log2_lor by lia.
  destruct (decide (a = 0)) as [->|], (decide (b = 0)) as [->|];
    try (rewrite Z.lor_0_l in *); try lia; simpl Z.log2.
  - rewrite Z.max_r by (apply Z.log2_nonneg). apply Z.log2_lt_pow2; lia.
  - rewrite Z.max_l by (apply Z.log2_nonneg). apply Z.log2_lt_pow2; lia.
  - apply Z.max_lub_lt; apply Z.log2_lt_pow2; lia.
Qed.

(** ** Numbers from digits, most significant first *)

Section Digits.
Context (B : Z).

Fixpoint be_val (l : list Z) : Z :=
  match l with
  | [] => 0
  | d :: l => d * B ^ Z.of_nat (length l) + be_val l
  end.

Lemma be_val_app l k : be_val (l ++ k) = be_val l * B ^ Z.of_nat (length k) + be_val k.
Proof.
  induction l as [|d l IH]; cbn [be_val app]; [lia|].
  rewrite IH, length_app, Nat2Z.inj_add, Z.pow_add_r by lia. ring.
Qed.

Lemma be_val_range l :
  0 < B -> Forall (fun d => 0 <= d < B) l -> 0 <= be_val l < B ^ Z.of_nat (length l).
Proof.
  intros HB. induction 1 as [|d l Hd _ IH]; simpl; [rewrite Z.pow_0_r; lia|].
  rewrite Nat2Z.inj_succ, Z.pow_succ_r by lia.
  assert (0 < B ^ Z.of_nat (length l)) by (apply Z.pow_pos_nonneg; lia). nia.
Qed.

Lemma be_val_inj l k :
  0 < B -> length l = length k ->
  Forall (fun d => 0 <= d < B) l -> Forall (fun d => 0 <= d < B) k ->
  be_val l = be_val k -> l = k.
Proof.
  intros HB Hlen Hl. revert k Hlen. induction Hl as [|d l Hd Hl IH]; intros k Hlen Hk Heq.
  - by destruct k.
  - destruct k as [|e k]; [done|]. apply Forall_cons_1 in Hk as [He Hk].
    simpl in *. injection Hlen as Hlen. rewrite <- Hlen in Heq.
    pose proof (be_val_range l HB Hl) as R1. pose proof (be_val_range k HB Hk) as R2.
    rewrite <- Hlen in R2.
    assert (d = e) by nia. subst e. f_equal. apply IH; [lia|done|lia].
Qed.
End Digits.

(** ** Filters *)

Lemma filter_all {A} (P : A -> Prop) `{!forall x, Decision (P x)} l :
  Forall P l -> filter P l = l.
Proof. induction 1; [done|]. rewrite filter_cons, decide_True by done. by f_equal. Qed.

(** ** Counting *)

(** How often [k] occurs in [l]. *)
Definition cnt {A} `{EqDecision A} (k : A) (l : list A) : Z :=
  Z.of_nat (length (filter (fun x => x = k) l)).

Section Count.
Context {A : Type} `{EqDecision A}.
Implicit Types (k x : A) (l : list A).

Lemma cnt_nil k : cnt k [] = 0.
Proof. done. Qed.

Lemma cnt_cons k x l : cnt k (x :: l) = (if decide (x = k) then 1 else 0) + cnt k l.
Proof. unfold cnt. rewrite filter_cons. destruct (decide (x = k)); simpl; lia. Qed.

Lemma cnt_app k l l' : cnt k (l ++ l') = cnt k l + cnt k l'.
Proof. unfold cnt. rewrite list.filter_app, length_app. lia. Qed.

Lemma cnt_nonneg k l : 0 <= cnt k l.
Proof. unfold cnt. lia. Qed.

Lemma cnt_pos k l : 0 < cnt k l <-> k ∈ l.
Proof.
  induction l as [|x l IH]; [rewrite cnt_nil, elem_of_nil; lia|].
  rewrite cnt_cons, elem_of_cons, <- IH. pose proof (cnt_nonneg k l).
  destruct (decide (x = k)); [subst|]; split; intros; try lia; auto.
  destruct H0; [congruence|]. lia.
Qed.

Lemma cnt_zero k l : cnt k l = 0 <-> k ∉ l.
Proof. rewrite <- cnt_pos. pose proof (cnt_nonneg k l). lia. Qed.

Lemma cnt_length k l : cnt k l <= Z.of_nat (length l).
Proof. induction l as [|x l IH]; [rewrite cnt_nil; cbn; lia|]. rewrite cnt_cons. cbn [length]. case_decide; lia. Qed.

#[export] Instance cnt_perm k : Proper ((≡ₚ) ==> (=)) (cnt k).
Proof. intros l l' E. unfold cnt. by rewrite E. Qed.
End Count.

(** ** Erasing one element of a multiset *)

Fixpoint erase_one {A} `{EqDecision A} (x : A) (l : list A) : option (list A) :=
  match l with
  | [] => None
  | y :: l => if decide (y = x) then Some l else cons y <$> erase_one x l
  end.

Lemma erase_one_perm {A} `{EqDecision A} (x : A) l :
  x ∈ l -> exists l', erase_one x l = Some l' /\ l ≡ₚ x :: l'.
Proof.
  induction l as [|y l IH]; [by intros ?%elem_of_nil|]. cbn [erase_one].
  destruct (decide (y = x)) as [->|]; [eauto|]. intros [->|H]%elem_of_cons; [done|].
  destruct (IH H) as (l' & -> & Hp). exists (y :: l'). split; [done|]. rewrite Hp. apply Permutation_swap.
Qed.

(** ** Counting the entries of a map *)

Definition map_count {K A} `{Countable K} (P : A -> bool) (m : gmap K A) : Z :=
  Z.of_nat (size (filter (fun '(_, v) => P v = true) m)).

Section MapCount.
Context {K A : Type} `{Countable K}.
Implicit Types (P : A -> bool) (m : gmap K A).

Lemma map_count_insert P m k v :
  m !! k = None -> map_count P (<[k := v]> m) = map_count P m + Z.b2z (P v).
Proof.
  intros Hk. unfold map_count. rewrite map_filter_insert. case_decide as Hd; simpl in Hd.
  - rewrite map_size_insert_None by (by apply map_lookup_filter_None_2; left). rewrite Hd. simpl. lia.
  - rewrite delete_id by done. destruct (P v); [done|]. simpl. lia.
Qed.

Lemma map_count_delete P m k v :
  m !! k = Some v -> map_count P (delete k m) = map_count P m - Z.b2z (P v).
Proof.
  intros Hk. rewrite <- (insert_id m k v Hk) at 2. rewrite <- insert_delete_eq.
  rewrite map_count_insert by apply lookup_delete_eq. lia.
Qed.

Lemma map_count_update P m k v old :
  m !! k = Some old -> map_count P (<[k := v]> m) = map_count P m - Z.b2z (P old) + Z.b2z (P v).
Proof.
  intros Hk. rewrite <- insert_delete_eq, map_count_insert by apply lookup_delete_eq.
  by rewrite (map_count_delete P m k old).
Qed.

Lemma map_count_nonneg P m : 0 <= map_count P m.
Proof. unfold map_count. lia. Qed.

Lemma map_count_empty P : map_count P (empty : gmap K A) = 0.
Proof. unfold map_count. by rewrite map_filter_empty, map_size_empty. Qed.

End MapCount.

(** The count depends on the values of the predicate only. *)
Lemma map_count_via {K A} `{Countable K} (P : A -> bool) (m : gmap K A) : map_count P m = map_count (fun b : bool => b) (P <$> m).
Proof.
  induction m as [|k v m Hk IH] using map_ind.
  - by rewrite fmap_empty, !map_count_empty.
  - rewrite fmap_insert, !map_count_insert, IH; [done| |done]. by rewrite lookup_fmap, Hk.
Qed.
