(* ===== verification/Effects.v ===== *)
(** * Computations with state and exceptions

    A member function that mutates objects and may throw is a state-passing
    computation that keeps the state it reached when it throws.  This file has
    the monad, the two primitive ways to touch the state, and the rules of its
    weakest preconditions: [wpe c s Q] says that [c] run in [s] returns (it does
    not throw) and that result and state satisfy [Q]. *)
From Stdlib Require Import ZArith Lia.
From S2P Require Import Prelude.
From stdpp Require Import base list.

Module Effects.

Definition Eff (S A : Type) : Type := S -> result A * S.

#[export] Instance Eff_ret S : MRet (Eff S) := fun A a s => (Ok a, s).
#[export] Instance Eff_bind S : MBind (Eff S) := fun A B f c s =>
  match c s with
  | (Ok a, s') => f a s'
  | (Throw e, s') => (Throw e, s')
  end.

Definition raise {S A} (e : exn) : Eff S A := fun s => (Throw e, s).
Definition pure_result {S A} (r : result A) : Eff S A := fun s => (r, s).
Definition reads {S A} (f : S -> A) : Eff S A := fun s => (Ok (f s), s).
Definition modifies {S} (f : S -> S) : Eff S unit := fun s => (Ok tt, f s).

(** The result of running a computation and discarding the state. *)
Definition result_of {S A} (c : Eff S A) (s : S) : result A := fst (c s).
Definition state_of {S A} (c : Eff S A) (s : S) : S := snd (c s).

Section Rules.
Context {S : Type}.

Definition wpe {A} (c : Eff S A) (s : S) (Q : A -> S -> Prop) : Prop :=
  match c s with
  | (Ok a, s') => Q a s'
  | (Throw _, _) => False
  end.

Lemma wpe_ret {A} (a : A) s (Q : A -> S -> Prop) : Q a s -> wpe (mret a) s Q.
Proof. done. Qed.

Lemma wpe_bind {A B} (c : Eff S A) (f : A -> Eff S B) s (Q : B -> S -> Prop) :
  wpe c s (fun a s' => wpe (f a) s' Q) -> wpe (c ≫= f) s Q.
Proof. unfold wpe, mbind, Eff_bind. destruct (c s) as [[a|e] s']; done. Qed.

Lemma wpe_mono {A} (c : Eff S A) s (Q Q' : A -> S -> Prop) :
  wpe c s Q -> (forall a s', Q a s' -> Q' a s') -> wpe c s Q'.
Proof. unfold wpe. destruct (c s) as [[a|e] s']; auto. Qed.

Lemma wpe_assoc {A B C} (c : Eff S A) (f : A -> Eff S B) (k : B -> Eff S C) s (Q : C -> S -> Prop) :
  wpe ((c ≫= f) ≫= k) s Q -> wpe (c ≫= fun a => f a ≫= k) s Q.
Proof. unfold wpe, mbind, Eff_bind. by destruct (c s) as [[a|e] s']. Qed.

Lemma wpe_pure {A} (r : result A) a s (Q : A -> S -> Prop) : r = Ok a -> Q a s -> wpe (pure_result r) s Q.
Proof. by intros ->. Qed.

Lemma wpe_reads {A} (f : S -> A) s (Q : A -> S -> Prop) : Q (f s) s -> wpe (reads f) s Q.
Proof. done. Qed.

Lemma wpe_modifies (f : S -> S) s (Q : unit -> S -> Prop) : Q tt (f s) -> wpe (modifies f) s Q.
Proof. done. Qed.

Lemma wpe_elim {A} (c : Eff S A) s (Q : A -> S -> Prop) :
  wpe c s Q <-> exists a s', c s = (Ok a, s') /\ Q a s'.
Proof.
  unfold wpe. destruct (c s) as [[a|e] s']; split; [|by intros (? & ? & [= <- <-] & ?)|done|by intros (? & ? & ? & ?)].
  intros HQ. by exists a, s'.
Qed.

(** The same with a condition on the state an exception leaves. *)
Definition wpx {A} (c : Eff S A) (s : S) (Q : A -> S -> Prop) (E : S -> Prop) : Prop :=
  match c s with
  | (Ok a, s') => Q a s'
  | (Throw _, s') => E s'
  end.

Lemma wpx_bind {A B} (c : Eff S A) (f : A -> Eff S B) s (Q : B -> S -> Prop) (E : S -> Prop) :
  wpx c s (fun a s' => wpx (f a) s' Q E) E -> wpx (c ≫= f) s Q E.
Proof. unfold wpx, mbind, Eff_bind. destruct (c s) as [[a|e] s']; done. Qed.

Lemma wpx_mono {A} (c : Eff S A) s (Q Q' : A -> S -> Prop) (E : S -> Prop) :
  wpx c s Q E -> (forall a s', Q a s' -> Q' a s') -> wpx c s Q' E.
Proof. unfold wpx. destruct (c s) as [[a|e] s']; auto. Qed.

Lemma wpx_wpe {A} (c : Eff S A) s (Q : A -> S -> Prop) (E : S -> Prop) : wpe c s Q -> wpx c s Q E.
Proof. unfold wpe, wpx. by destruct (c s) as [[a|e] s']. Qed.
End Rules.

(** One step of symbolic execution. *)
Ltac wpe_step :=
  match goal with
  | |- wpe (mbind _ _) _ _ => apply wpe_bind
  | |- wpe (mret _) _ _ => apply wpe_ret
  | |- wpe (reads _) _ _ => apply wpe_reads
  | |- wpe (modifies _) _ _ => apply wpe_modifies
  end.
Ltac wpe_steps := repeat wpe_step.

End Effects.
