(* ===== verification/BaseUint.v ===== *)
(** * [base_uint]: fixed-width big-endian integers

    Models [src/src/ripple/types/api/base_uint.h] and the hexadecimal printing
    of [strHex.h]/[strHex.cpp].

    The C++ class keeps [WIDTH] 32-bit words whose bytes are stored in
    big-endian order; each arithmetic loop converts a word with [be32toh] before
    and [htobe32] after.  The model keeps the list of the {e host-order} words
    ([be32toh (pn[i])]), most significant first.  Byte swapping is a bijection
    that fixes 0 and commutes with the bitwise operators, so the tests against 0
    and the bitwise loops read the same on both forms.  The byte view
    ([begin()..end()]) is [to_bytes].

    [toZ] is the abstract value; the theorems show that [++], [--] and [+=]
    are arithmetic modulo [2^Bits], that [compare] is numeric order, and that
    [SetHex] inverts [to_string]. *)

From Stdlib Require Import ZArith Lia.
From S2P Require Import Prelude.

Module BaseUint.

(** [pn]: the words of the number, most significant first. *)
Definition base_uint : Type := list Z.

(** A number of [n] words. *)
Definition wf (n : nat) (a : base_uint) : Prop :=
  length a = n /\ Forall is_u32 a.

#[export] Instance wf_dec n a : Decision (wf n a).
Proof. unfold wf. apply _. Defined.

(** [uint160], [uint256]: their widths in words. *)
Abbreviation W160 := 5%nat.
Abbreviation W256 := 8%nat.

(** ** Operations *)

Definition zero (n : nat) : base_uint := replicate n 0.

Fixpoint isZero (a : base_uint) : bool :=
  match a with
  | [] => true
  | w :: a => if negb (w =? 0) then false else isZero a
  end.

Definition lnot (a : base_uint) : base_uint := map (fun w => u32 (Z.lnot w)) a.
Definition lxor (a b : base_uint) : base_uint := zip_with Z.lxor a b.
Definition land (a b : base_uint) : base_uint := zip_with Z.land a b.
Definition lor (a b : base_uint) : base_uint := zip_with Z.lor a b.

(** [operator= (std::uint64_t)]: the two least significant words. *)
Definition of_u64 (n : nat) (uHost : Z) : base_uint :=
  replicate (n - 2) 0 ++ [Z.shiftr uHost 32; Z.land uHost 4294967295].

(** The loops of [++], [--] and [+=] run from [pn[WIDTH-1]] down to [pn[0]],
    that is over the reversed list. *)
Fixpoint incr_loop (r : list Z) : list Z :=
  match r with
  | [] => []
  | w :: r =>
      let w' := u32 (w + 1) in
      if negb (w' =? 0) then w' :: r else w' :: incr_loop r
  end.
Definition incr (a : base_uint) : base_uint := reverse (incr_loop (reverse a)).

Fixpoint decr_loop (r : list Z) : list Z :=
  match r with
  | [] => []
  | prev :: r =>
      let w' := u32 (prev - 1) in
      if negb (prev =? 0) then w' :: r else w' :: decr_loop r
  end.
Definition decr (a : base_uint) : base_uint := reverse (decr_loop (reverse a)).

Fixpoint add_loop (carry : Z) (r s : list Z) : list Z :=
  match r, s with
  | w :: r, v :: s =>
      let n := u64 (u64 (carry + w) + v) in
      Z.land n 4294967295 :: add_loop (Z.shiftr n 32) r s
  | _, _ => []
  end.
Definition add (a b : base_uint) : base_uint := reverse (add_loop 0 (reverse a) (reverse b)).

(** ** The byte view *)

Definition word_bytes (w : Z) : list Z :=
  [Z.shiftr w 24; Z.land (Z.shiftr w 16) 255; Z.land (Z.shiftr w 8) 255; Z.land w 255].

Definition to_bytes (a : base_uint) : list Z := a ≫= word_bytes.

(** Reading words back out of memory ([memcpy] into [pn]). *)
Fixpoint of_bytes (bs : list Z) : base_uint :=
  match bs with
  | b0 :: b1 :: b2 :: b3 :: bs =>
      Z.lor (Z.shiftl b0 24) (Z.lor (Z.shiftl b1 16) (Z.lor (Z.shiftl b2 8) b3))
        :: of_bytes bs
  | _ => []
  end.

(** [compare]: [std::mismatch] on the bytes, then the first differing pair. *)
Fixpoint mismatch (a b : list Z) : option (Z * Z) :=
  match a, b with
  | x :: a, y :: b => if x =? y then mismatch a b else Some (x, y)
  | _, _ => None
  end.

Definition compare (a b : base_uint) : Z :=
  match mismatch (to_bytes a) (to_bytes b) with
  | None => 0
  | Some (x, y) => if y <? x then 1 else -1
  end.

Definition ltb (a b : base_uint) : bool := compare a b <? 0.
Definition leb (a b : base_uint) : bool := compare a b <=? 0.
Definition gtb (a b : base_uint) : bool := 0 <? compare a b.
Definition geb (a b : base_uint) : bool := 0 <=? compare a b.
Definition eqb (a b : base_uint) : bool := compare a b =? 0.

(** ** Hexadecimal *)

(** [charHex]: the digit's character code; 0 on failure. *)
Definition charHex (iDigit : Z) : Z :=
  if 0 <=? iDigit then
    if iDigit <? 10 then 48 + iDigit
    else if iDigit <? 16 then 65 - 10 + iDigit
    else 0
  else 0.

(** [strHex (a.begin (), a.size ())]. *)
Definition strHex (bs : list Z) : list Z :=
  bs ≫= (fun c => [charHex (Z.shiftr c 4); charHex (Z.land c 15)]).

Definition to_string (a : base_uint) : list Z := strHex (to_bytes a).

(** The table [phexdigit]; a C string is the list of its characters before the
    terminating NUL, which reads as 0 past the end. *)
Definition phexdigit (c : Z) : Z :=
  if (48 <=? c) && (c <=? 57) then c - 48
  else if (65 <=? c) && (c <=? 70) then c - 55
  else if (97 <=? c) && (c <=? 102) then c - 87
  else -1.

Definition isspace (c : Z) : bool := (c =? 32) || ((9 <=? c) && (c <=? 13)).

Fixpoint skip_spaces (psz : list Z) : list Z :=
  match psz with
  | c :: rest => if isspace c then skip_spaces rest else psz
  | [] => []
  end.

Definition skip_0x (psz : list Z) : list Z :=
  match psz with
  | c0 :: c1 :: rest => if (c0 =? 48) && ((c1 =? 120) || (c1 =? 88)) then rest else psz
  | _ => psz
  end.

(** "Find end": the run of hex digits and what follows it. *)
Fixpoint span_hex (psz : list Z) : list Z * list Z :=
  match psz with
  | c :: rest =>
      if 0 <=? phexdigit c
      then let '(ds, tl) := span_hex rest in (c :: ds, tl)
      else ([], psz)
  | [] => ([], [])
  end.

(** The output loop, two digits a byte. *)
Fixpoint hex_pairs (ds : list Z) : list Z :=
  match ds with
  | hi :: lo :: ds => Z.lor (u8 (Z.shiftl (phexdigit hi) 4)) (phexdigit lo) :: hex_pairs ds
  | [hi] => [u8 (Z.shiftl (phexdigit hi) 4)]
  | [] => []
  end.

(** [SetHex (psz, bStrict)] for a number of [size] bytes: the new value's bytes
    and the returned flag. *)
Definition SetHex (size : nat) (psz : list Z) (bStrict : bool) : list Z * bool :=
  let psz := if bStrict then psz else skip_0x (skip_spaces psz) in
  let '(ds, tl) := span_hex psz in
  let ds := if (2 * size <? length ds)%nat
            then drop (length ds - 2 * size) ds else ds in
  let n := length ds in
  let out :=
    match ds with
    | d :: ds' => if Nat.odd n then phexdigit d :: hex_pairs ds' else hex_pairs ds
    | [] => []
    end in
  (replicate (size - (n + 1) / 2)%nat 0 ++ out,
   match tl with [] => true | c :: _ => c =? 0 end).

(** ** The abstract value *)

Definition toZ (a : base_uint) : Z := be_val (2 ^ 32) a.

(** Value of a reversed (least significant first) word list. *)
Fixpoint le_val (r : list Z) : Z :=
  match r with
  | [] => 0
  | w :: r => w + 2 ^ 32 * le_val r
  end.

Lemma le_val_reverse r : le_val r = toZ (reverse r).
Proof.
  induction r as [|w r IH]; [done|]. rewrite reverse_cons. unfold toZ in *.
  rewrite be_val_app. cbn [le_val be_val length]. rewrite <- IH. lia.
Qed.

Lemma toZ_le_val a : toZ a = le_val (reverse a).
Proof. by rewrite le_val_reverse, reverse_involutive. Qed.

Lemma toZ_range n a : wf n a -> 0 <= toZ a < 2 ^ (32 * Z.of_nat n).
Proof.
  intros [<- H]. rewrite Z.pow_mul_r by lia. by apply be_val_range.
Qed.

Lemma toZ_inj n a b : wf n a -> wf n b -> toZ a = toZ b -> a = b.
Proof. intros [Ha ?] [Hb ?]. apply be_val_inj; [lia|congruence|done|done]. Qed.

Lemma wf_reverse n a : wf n a -> wf n (reverse a).
Proof. intros [? ?]. split; [by rewrite length_reverse|by apply Forall_reverse]. Qed.

(** The modulus grows by one word with each loop iteration. *)
Lemma pow_words_S n : 2 ^ (32 * Z.of_nat (S n)) = 2 ^ 32 * 2 ^ (32 * Z.of_nat n).
Proof. rewrite <- Z.pow_add_r by lia. f_equal. lia. Qed.

Lemma le_val_range r :
  Forall is_u32 r -> 0 <= le_val r < 2 ^ (32 * Z.of_nat (length r)).
Proof.
  induction 1 as [|w r Hw _ IH]; [done|].
  cbn [length le_val]. rewrite pow_words_S. unfold in_u in Hw. nia.
Qed.

(** [w + 2^32 * x] modulo one more word. *)
Lemma mod_words w x m :
  0 <= w < 2 ^ 32 -> 0 < m -> w + 2 ^ 32 * (x mod m) = (w + 2 ^ 32 * x) mod (2 ^ 32 * m).
Proof.
  intros Hw Hm. rewrite Z.rem_mul_r by lia.
  rewrite (Z.mul_comm (2 ^ 32) x), Z.mod_add, Z.div_add by lia.
  by rewrite (Z.mod_small w), (Z.div_small w) by lia.
Qed.

Lemma incr_loop_spec r :
  Forall is_u32 r ->
  length (incr_loop r) = length r /\ Forall is_u32 (incr_loop r) /\
  le_val (incr_loop r) = (le_val r + 1) mod 2 ^ (32 * Z.of_nat (length r)).
Proof.
  induction 1 as [|w r Hw Hr (IHl & IHw & IHv)]; [done|].
  pose proof (le_val_range r Hr) as R. unfold in_u in Hw.
  assert (0 < 2 ^ (32 * Z.of_nat (length r))) by (apply Z.pow_pos_nonneg; lia).
  cbn [incr_loop]. destruct (Z.eqb_spec (u32 (w + 1)) 0) as [E|E]; cbn [negb le_val length].
  - assert (w = 2 ^ 32 - 1) as ->.
    { unfold uwrap in E. destruct (decide (w + 1 = 2 ^ 32)); [lia|].
      rewrite Z.mod_small in E; lia. }
    rewrite E, IHl, IHv, pow_words_S. split; [done|]. split; [by constructor|].
    rewrite mod_words by lia. f_equal. lia.
  - assert (w + 1 < 2 ^ 32).
    { destruct (decide (w + 1 = 2 ^ 32)) as [E'|]; [|lia]. by rewrite E' in E. }
    rewrite u32_id, pow_words_S by lia. split; [done|]. split.
    + constructor; [unfold in_u; lia|done].
    + rewrite Z.mod_small; [lia|nia].
Qed.

Lemma decr_loop_spec r :
  Forall is_u32 r ->
  length (decr_loop r) = length r /\ Forall is_u32 (decr_loop r) /\
  le_val (decr_loop r) = (le_val r - 1) mod 2 ^ (32 * Z.of_nat (length r)).
Proof.
  induction 1 as [|w r Hw Hr (IHl & IHw & IHv)]; [done|].
  pose proof (le_val_range r Hr) as R. unfold in_u in Hw.
  assert (0 < 2 ^ (32 * Z.of_nat (length r))) by (apply Z.pow_pos_nonneg; lia).
  cbn [decr_loop]. destruct (Z.eqb_spec w 0) as [->|E]; cbn [negb le_val length].
  - change (u32 (0 - 1)) with (2 ^ 32 - 1).
    rewrite IHl, IHv, pow_words_S. split; [done|]. split; [by constructor|].
    rewrite mod_words by lia. f_equal. lia.
  - rewrite u32_id, pow_words_S by lia. split; [done|]. split.
    + constructor; [unfold in_u; lia|done].
    + rewrite Z.mod_small; [lia|nia].
Qed.

Lemma add_loop_spec r s carry :
  Forall is_u32 r -> Forall is_u32 s -> length r = length s -> 0 <= carry <= 1 ->
  length (add_loop carry r s) = length r /\ Forall is_u32 (add_loop carry r s) /\
  le_val (add_loop carry r s) =
    (carry + le_val r + le_val s) mod 2 ^ (32 * Z.of_nat (length r)).
Proof.
  intros Hr. revert s carry. induction Hr as [|w r Hw Hr IH]; intros s carry Hs Hlen Hc.
  - destruct s; [|done]. simpl. rewrite Z.mod_1_r. done.
  - destruct s as [|v s]; [done|]. apply Forall_cons_1 in Hs as [Hv Hs].
    unfold in_u in Hw, Hv.
    cbn [add_loop length le_val]. rewrite (u64_id (carry + w)), u64_id by lia.
    rewrite (land_mask _ 32), shiftr_div by lia.
    set (n := carry + w + v) in *.
    assert (0 <= n / 2 ^ 32 <= 1).
    { split; [apply Z.div_pos; lia|]. apply Z.lt_succ_r, Z.div_lt_upper_bound; lia. }
    destruct (IH s (n / 2 ^ 32)) as (IHl & IHw & IHv); [done|simpl in Hlen; lia|done|].
    rewrite IHl, IHv, pow_words_S. split; [done|].
    pose proof (Z.mod_pos_bound n (2 ^ 32) ltac:(lia)). split.
    + by constructor.
    + rewrite mod_words by (auto using Z.pow_pos_nonneg with lia).
      f_equal. pose proof (Z.div_mod n (2 ^ 32) ltac:(lia)). lia.
Qed.

(** ** Arithmetic theorems *)

Lemma incr_wf n a : wf n a -> wf n (incr a).
Proof.
  intros Ha. pose proof (wf_reverse n a Ha) as [Hl Hw].
  destruct (incr_loop_spec (reverse a) Hw) as (H1 & H2 & _).
  apply wf_reverse. split; [congruence|done].
Qed.

Lemma decr_wf n a : wf n a -> wf n (decr a).
Proof.
  intros Ha. pose proof (wf_reverse n a Ha) as [Hl Hw].
  destruct (decr_loop_spec (reverse a) Hw) as (H1 & H2 & _).
  apply wf_reverse. split; [congruence|done].
Qed.

Lemma add_wf n a b : wf n a -> wf n b -> wf n (add a b).
Proof.
  intros Ha Hb. apply wf_reverse in Ha as [Hl Hw], Hb as [Hl' Hw'].
  destruct (add_loop_spec (reverse a) (reverse b) 0 Hw Hw') as (H1 & H2 & _);
    [congruence|lia|]. apply wf_reverse. split; [congruence|done].
Qed.

Lemma toZ_incr n a : wf n a -> toZ (incr a) = (toZ a + 1) mod 2 ^ (32 * Z.of_nat n).
Proof.
  intros Ha. apply wf_reverse in Ha as [Hl Hw]. unfold incr.
  rewrite <- le_val_reverse, toZ_le_val.
  by destruct (incr_loop_spec (reverse a) Hw) as (_ & _ & ->); rewrite Hl.
Qed.

Lemma toZ_decr n a : wf n a -> toZ (decr a) = (toZ a - 1) mod 2 ^ (32 * Z.of_nat n).
Proof.
  intros Ha. apply wf_reverse in Ha as [Hl Hw]. unfold decr.
  rewrite <- le_val_reverse, toZ_le_val.
  by destruct (decr_loop_spec (reverse a) Hw) as (_ & _ & ->); rewrite Hl.
Qed.

Lemma toZ_add n a b :
  wf n a -> wf n b -> toZ (add a b) = (toZ a + toZ b) mod 2 ^ (32 * Z.of_nat n).
Proof.
  intros Ha Hb. apply wf_reverse in Ha as [Hl Hw], Hb as [Hl' Hw']. unfold add.
  rewrite <- le_val_reverse, (toZ_le_val a), (toZ_le_val b).
  destruct (add_loop_spec (reverse a) (reverse b) 0 Hw Hw') as (_ & _ & ->);
    [congruence|lia|]. by rewrite Hl.
Qed.

Lemma isZero_spec n a : wf n a -> (isZero a = true <-> a = zero n).
Proof.
  intros [<- Ha]. induction Ha as [|w a Hw _ IH]; [done|].
  cbn [isZero length zero replicate]. destruct (Z.eqb_spec w 0) as [->|E]; cbn [negb].
  - rewrite IH. split; [intros E; by f_equal|by intros [= ?]].
  - split; [done|]. by intros [= ? ?].
Qed.

(** ** Bytes *)

Lemma length_to_bytes a : length (to_bytes a) = (4 * length a)%nat.
Proof.
  induction a as [|w a IH]; [done|].
  change (to_bytes (w :: a)) with (word_bytes w ++ to_bytes a).
  rewrite length_app, IH. simpl. lia.
Qed.

Lemma word_bytes_u8 w : is_u32 w -> Forall is_u8 (word_bytes w).
Proof.
  unfold in_u. intros Hw. unfold word_bytes. rewrite !land_255, !shiftr_div by lia.
  pose proof (Z.mod_pos_bound (w / 2 ^ 16) 256 ltac:(lia)).
  pose proof (Z.mod_pos_bound (w / 2 ^ 8) 256 ltac:(lia)).
  pose proof (Z.mod_pos_bound w 256 ltac:(lia)).
  repeat constructor; try lia.
  - apply Z.div_pos; lia.
  - apply Z.div_lt_upper_bound; lia.
Qed.

Lemma to_bytes_u8 a : Forall is_u32 a -> Forall is_u8 (to_bytes a).
Proof.
  induction 1 as [|w a Hw _ IH]; [constructor|].
  change (to_bytes (w :: a)) with (word_bytes w ++ to_bytes a).
  apply Forall_app. split; [by apply word_bytes_u8|done].
Qed.

Lemma word_bytes_val w : is_u32 w -> be_val 256 (word_bytes w) = w.
Proof.
  unfold in_u. intros Hw. unfold word_bytes. rewrite !land_255, !shiftr_div by lia.
  cbn [be_val length]. change (256 ^ Z.of_nat 3) with 16777216.
  change (256 ^ Z.of_nat 2) with 65536. change (256 ^ Z.of_nat 1) with 256.
  change (256 ^ Z.of_nat 0) with 1. Z.to_euclidean_division_equations. lia.
Qed.

Lemma to_bytes_val a : Forall is_u32 a -> be_val 256 (to_bytes a) = toZ a.
Proof.
  induction 1 as [|w a Hw _ IH]; [done|].
  change (to_bytes (w :: a)) with (word_bytes w ++ to_bytes a).
  rewrite be_val_app, IH, word_bytes_val, length_to_bytes by done.
  unfold toZ. cbn [be_val]. do 2 f_equal.
  change 256 with (2 ^ 8). rewrite <- !Z.pow_mul_r by lia. f_equal. lia.
Qed.

Lemma of_bytes_word b0 b1 b2 b3 :
  is_u8 b0 -> is_u8 b1 -> is_u8 b2 -> is_u8 b3 ->
  Z.lor (Z.shiftl b0 24) (Z.lor (Z.shiftl b1 16) (Z.lor (Z.shiftl b2 8) b3)) =
    be_val 256 [b0; b1; b2; b3].
Proof.
  unfold in_u. intros. rewrite (lor_shiftl_add b2) by lia.
  rewrite (lor_shiftl_add b1), (lor_shiftl_add b0) by lia. cbn. lia.
Qed.

Lemma of_to_bytes a : Forall is_u32 a -> of_bytes (to_bytes a) = a.
Proof.
  induction 1 as [|w a Hw _ IH]; [done|].
  change (to_bytes (w :: a)) with (word_bytes w ++ to_bytes a).
  pose proof (word_bytes_u8 w Hw) as H8. pose proof (word_bytes_val w Hw) as Hv.
  unfold word_bytes in *. cbn [app of_bytes].
  rewrite !Forall_cons_iff in H8. destruct_and!.
  rewrite of_bytes_word, Hv by done. by f_equal.
Qed.

Lemma to_of_bytes n bs :
  length bs = (4 * n)%nat -> Forall is_u8 bs ->
  wf n (of_bytes bs) /\ to_bytes (of_bytes bs) = bs.
Proof.
  revert bs. induction n as [|n IH]; intros bs Hl Hb.
  - destruct bs; [|simpl in Hl; lia]. by repeat constructor.
  - destruct bs as [|b0 [|b1 [|b2 [|b3 bs]]]]; simpl in Hl; try lia.
    rewrite !Forall_cons_iff in Hb. destruct_and!.
    destruct (IH bs) as [[Hn Hw] Hbs]; [lia|done|].
    cbn [of_bytes]. rewrite of_bytes_word by done.
    set (w := be_val 256 [b0; b1; b2; b3]).
    assert (is_u32 w) as Hw32.
    { unfold w, in_u in *. cbn. lia. }
    split; [split; [simpl; lia|by constructor]|].
    change (to_bytes (w :: of_bytes bs)) with (word_bytes w ++ to_bytes (of_bytes bs)).
    rewrite Hbs. change (b0 :: b1 :: b2 :: b3 :: bs) with ([b0; b1; b2; b3] ++ bs).
    f_equal. apply (be_val_inj 256); [lia|done|by apply word_bytes_u8| |by rewrite word_bytes_val].
    rewrite !Forall_cons_iff. done.
Qed.

(** ** Order *)

Lemma mismatch_spec B a b :
  0 < B -> length a = length b ->
  Forall (fun d => 0 <= d < B) a -> Forall (fun d => 0 <= d < B) b ->
  match mismatch a b with
  | None => a = b
  | Some (x, y) =>
      (x < y /\ be_val B a < be_val B b) \/ (y < x /\ be_val B b < be_val B a)
  end.
Proof.
  intros HB Hlen Ha. revert b Hlen. induction Ha as [|x a Hx Ha IH]; intros b Hlen Hb.
  - by destruct b.
  - destruct b as [|y b]; [done|]. apply Forall_cons_1 in Hb as [Hy Hb].
    simpl in Hlen. injection Hlen as Hlen. cbn [mismatch be_val]. rewrite <- Hlen.
    pose proof (be_val_range B a HB Ha) as Ra. pose proof (be_val_range B b HB Hb) as Rb.
    rewrite <- Hlen in Rb. destruct (Z.eqb_spec x y) as [->|Hne].
    + specialize (IH b Hlen Hb). destruct (mismatch a b) as [[u v]|]; [lia|by subst].
    + destruct (Z.lt_total x y) as [?|[?|?]]; [left|done|right]; split; nia.
Qed.

Lemma compare_spec n a b :
  wf n a -> wf n b ->
  compare a b = match Z.compare (toZ a) (toZ b) with Lt => -1 | Eq => 0 | Gt => 1 end.
Proof.
  intros [La Ha] [Lb Hb]. unfold compare.
  pose proof (mismatch_spec 256 (to_bytes a) (to_bytes b)) as M.
  rewrite !length_to_bytes, !to_bytes_val in M by done.
  specialize (M ltac:(lia) ltac:(lia) (to_bytes_u8 a Ha) (to_bytes_u8 b Hb)).
  destruct (mismatch (to_bytes a) (to_bytes b)) as [[x y]|].
  - destruct (Z.compare_spec (toZ a) (toZ b)), (Z.ltb_spec y x); lia.
  - rewrite <- (of_to_bytes a), <- (of_to_bytes b), M by done. by rewrite Z.compare_refl.
Qed.

Lemma eqb_spec n a b : wf n a -> wf n b -> (eqb a b = true <-> a = b).
Proof.
  intros Ha Hb. unfold eqb. rewrite (compare_spec n), Z.eqb_eq by done. split.
  - destruct (Z.compare_spec (toZ a) (toZ b)); [|done|done].
    intros _. by apply (toZ_inj n).
  - intros ->. by rewrite Z.compare_refl.
Qed.

(** ** Hexadecimal *)

Lemma charHex_digit d : 0 <= d < 16 -> phexdigit (charHex d) = d.
Proof. intros. unfold charHex, phexdigit. split_ifs; lia. Qed.

(** The characters [charHex] yields are neither blanks nor an [x]. *)
Lemma charHex_plain d :
  0 <= d < 16 -> isspace (charHex d) = false /\ charHex d <> 120 /\ charHex d <> 88.
Proof. intros. unfold charHex, isspace. split_ifs; lia. Qed.

Lemma nibbles c : is_u8 c -> 0 <= Z.shiftr c 4 < 16 /\ 0 <= Z.land c 15 < 16 /\
  Z.lor (u8 (Z.shiftl (Z.shiftr c 4) 4)) (Z.land c 15) = c.
Proof.
  unfold in_u. intros Hc. rewrite (land_mask c 4), shiftr_div by lia.
  assert (0 <= c / 2 ^ 4 < 16).
  { split; [apply Z.div_pos; lia|apply Z.div_lt_upper_bound; lia]. }
  pose proof (Z.mod_pos_bound c (2 ^ 4) ltac:(lia)).
  split; [done|]. split; [done|].
  rewrite u8_id by (rewrite Z.shiftl_mul_pow2; lia).
  rewrite lor_shiftl_add by lia. pose proof (Z.div_mod c (2 ^ 4)). lia.
Qed.

Lemma strHex_cons c bs :
  strHex (c :: bs) = charHex (Z.shiftr c 4) :: charHex (Z.land c 15) :: strHex bs.
Proof. done. Qed.

Lemma length_strHex bs : length (strHex bs) = (2 * length bs)%nat.
Proof. induction bs as [|c bs IH]; [done|]. rewrite strHex_cons. simpl. lia. Qed.

Lemma span_strHex bs : Forall is_u8 bs -> span_hex (strHex bs) = (strHex bs, []).
Proof.
  induction 1 as [|c bs Hc _ IH]; [done|].
  destruct (nibbles c Hc) as (H1 & H2 & _). rewrite strHex_cons. cbn [span_hex].
  rewrite !charHex_digit, IH by done.
  destruct (Z.leb_spec 0 (Z.shiftr c 4)); [|lia].
  destruct (Z.leb_spec 0 (Z.land c 15)); [done|lia].
Qed.

Lemma hex_pairs_strHex bs : Forall is_u8 bs -> hex_pairs (strHex bs) = bs.
Proof.
  induction 1 as [|c bs Hc _ IH]; [done|].
  destruct (nibbles c Hc) as (H1 & H2 & H3). rewrite strHex_cons. cbn [hex_pairs].
  by rewrite !charHex_digit, H3, IH by done.
Qed.

(** Printed digits pass through the lenient prefix handling unchanged. *)
Lemma skip_strHex bs : Forall is_u8 bs -> skip_0x (skip_spaces (strHex bs)) = strHex bs.
Proof.
  destruct 1 as [|c bs Hc _]; [done|].
  destruct (nibbles c Hc) as (H1 & H2 & _). rewrite strHex_cons.
  cbn [skip_spaces]. destruct (charHex_plain _ H1) as [-> _].
  cbn [skip_0x]. destruct (charHex_plain _ H2) as (_ & Hx & HX).
  destruct (Z.eqb_spec (charHex (Z.land c 15)) 120); [done|].
  destruct (Z.eqb_spec (charHex (Z.land c 15)) 88); [done|]. by rewrite andb_false_r.
Qed.

Lemma SetHex_strHex bs strict :
  Forall is_u8 bs -> SetHex (length bs) (strHex bs) strict = (bs, true).
Proof.
  intros Hbs. unfold SetHex.
  replace (if strict then strHex bs else skip_0x (skip_spaces (strHex bs)))
    with (strHex bs) by (destruct strict; [done|by rewrite skip_strHex]).
  rewrite span_strHex, length_strHex by done.
  rewrite (proj2 (Nat.ltb_ge _ _)) by lia.
  replace (Nat.odd (length (strHex bs))) with false.
  2: { rewrite length_strHex, Nat.odd_mul. done. }
  rewrite length_strHex. replace ((2 * length bs + 1) / 2)%nat with (length bs).
  2: { apply Nat.div_unique with 1%nat; lia. }
  rewrite Nat.sub_diag. simpl. f_equal. rewrite <- (hex_pairs_strHex bs) at 2 by done.
  by destruct (strHex bs).
Qed.

(** The prefix operators [++] and [--] and the operator [+=] of [base_uint]
    compute addition and subtraction modulo [2^Bits] of the number the stored
    words denote, and keep the words well formed. *)
Theorem base_uint_arith (n : nat) (a b : base_uint) :
  wf n a -> wf n b ->
  (wf n (incr a) /\ toZ (incr a) = (toZ a + 1) mod 2 ^ (32 * Z.of_nat n)) /\
  (wf n (decr a) /\ toZ (decr a) = (toZ a - 1) mod 2 ^ (32 * Z.of_nat n)) /\
  (wf n (add a b) /\ toZ (add a b) = (toZ a + toZ b) mod 2 ^ (32 * Z.of_nat n)).
Proof.
  intros Ha Hb.
  auto using incr_wf, toZ_incr, decr_wf, toZ_decr, add_wf, toZ_add.
Qed.

Lemma base_uint_arith_witness :
  toZ (incr [0; 0; 0; 7; 4294967295]) = 8 * 2 ^ 32 /\
  toZ (decr [0; 0; 0; 0; 0]) = 2 ^ 160 - 1 /\
  toZ (add [0; 0; 0; 7; 4294967295] [0; 0; 0; 0; 1]) = 8 * 2 ^ 32.
Proof.
  destruct (base_uint_arith 5 [0; 0; 0; 7; 4294967295] [0; 0; 0; 0; 1])
    as ((_ & E1) & _ & (_ & E3)); [by_decide|by_decide|].
  destruct (base_uint_arith 5 [0; 0; 0; 0; 0] [0; 0; 0; 0; 0])
    as (_ & (_ & E2) & _); [by_decide|by_decide|].
  rewrite E1, E2, E3. by vm_compute.
Defined.

(** [compare], and with it the six comparison operators of [base_uint], is
    the order of the denoted numbers; in particular [==] is equality. *)
Theorem base_uint_order (n : nat) (a b : base_uint) :
  wf n a -> wf n b ->
  (ltb a b = true <-> toZ a < toZ b) /\ (leb a b = true <-> toZ a <= toZ b) /\
  (gtb a b = true <-> toZ a > toZ b) /\ (geb a b = true <-> toZ a >= toZ b) /\
  (eqb a b = true <-> a = b).
Proof.
  intros Ha Hb. split_and!; [| | | |by apply (eqb_spec n)];
    unfold ltb, leb, gtb, geb; rewrite (compare_spec n) by done;
    destruct (Z.compare_spec (toZ a) (toZ b)); split; lia.
Qed.

Lemma base_uint_order_witness : ltb [0; 1; 0; 0; 0] [1; 0; 0; 0; 0] = true.
Proof.
  apply (base_uint_order 5 [0; 1; 0; 0; 0] [1; 0; 0; 0; 0]);
    [by_decide|by_decide|by vm_compute].
Defined.

(** parsing the printed form of a [base_uint] with [SetHex] gives the same
    number back and reports success, in strict and in lenient mode. *)
Theorem base_uint_hex_roundtrip (n : nat) (a : base_uint) (strict : bool) :
  wf n a ->
  let '(bs, ok) := SetHex (4 * n) (to_string a) strict in
  of_bytes bs = a /\ ok = true.
Proof.
  intros [<- Ha]. unfold to_string. rewrite <- length_to_bytes.
  rewrite SetHex_strHex by (by apply to_bytes_u8). by rewrite of_to_bytes.
Qed.

Lemma base_uint_hex_roundtrip_witness :
  to_string [1; 171] = [48; 48; 48; 48; 48; 48; 48; 49; 48; 48; 48; 48; 48; 48; 65; 66] /\
  let '(bs, ok) := SetHex 8 (to_string [1; 171]) false in of_bytes bs = [1; 171] /\ ok = true.
Proof.
  split; [by vm_compute|].
  apply (base_uint_hex_roundtrip 2 [1; 171] false). by_decide.
Defined.

End BaseUint.
