(* ===== verification/Serializer.v ===== *)
(** * [Serializer] and [SerializerIterator]

    Models [src/src/ripple_data/protocol/Serializer.h] and [Serializer.cpp]: the
    byte buffer every ledger object, transaction and validation is written to,
    and the cursor it is read back with.

    A buffer is the list of its bytes.  An [add...] member function returns the
    offset it wrote at together with the new buffer; a [get...] member function
    of [Serializer], which reports failure through a [bool], returns an
    [option]; the iterator's functions, which throw, return a [result].
    Offsets are the non-negative [int]s the program uses, kept as [nat].

    The theorems are the round trips of the fixed-width integers, the field
    identifiers and the variable-length blobs, and what [addVL (std::string)]
    really writes. *)

From Stdlib Require Import ZArith Lia.
From S2P Require Import Prelude.
From S2P Require Import BaseUint.

Module Serializer.
Import BaseUint.

Abbreviation Blob := (list Z).

(** ** Assembling *)

Definition addZeros (uBytes : nat) (mData : Blob) : nat * Blob :=
  (length mData, mData ++ replicate uBytes 0).

Definition add8 (byte : Z) (mData : Blob) : nat * Blob :=
  (length mData, mData ++ [byte]).

Definition add16 (i : Z) (mData : Blob) : nat * Blob :=
  (length mData, mData ++ [u8 (Z.shiftr i 8); u8 (Z.land i 255)]).

Definition add32 (i : Z) (mData : Blob) : nat * Blob :=
  (length mData,
   mData ++ [u8 (Z.shiftr i 24); u8 (Z.land (Z.shiftr i 16) 255);
             u8 (Z.land (Z.shiftr i 8) 255); u8 (Z.land i 255)]).

Definition add64 (i : Z) (mData : Blob) : nat * Blob :=
  (length mData,
   mData ++ [u8 (Z.shiftr i 56); u8 (Z.land (Z.shiftr i 48) 255);
             u8 (Z.land (Z.shiftr i 40) 255); u8 (Z.land (Z.shiftr i 32) 255);
             u8 (Z.land (Z.shiftr i 24) 255); u8 (Z.land (Z.shiftr i 16) 255);
             u8 (Z.land (Z.shiftr i 8) 255); u8 (Z.land i 255)]).

(** [add128], [add160], [add256]: the bytes [i.begin () .. i.end ()]. *)
Definition add_uint (i : base_uint) (mData : Blob) : nat * Blob :=
  (length mData, mData ++ to_bytes i).

(** [addRaw] of a blob, of another serializer and of a pointer and length. *)
Definition addRaw (vector : Blob) (mData : Blob) : nat * Blob :=
  (length mData, mData ++ vector).

Definition addFieldID (type name : Z) (mData : Blob) : nat * Blob :=
  (length mData,
   mData ++
   if type <? 16 then
     if name <? 16 then [u8 (Z.lor (Z.shiftl type 4) name)]
     else [u8 (Z.shiftl type 4); u8 name]
   else if name <? 16 then [u8 name; u8 type]
   else [u8 0; u8 type; u8 name]).

(** ** Variable-length prefixes *)

Definition encodeVL (len : Z) : result Blob :=
  if len <=? 192 then Ok [u8 len]
  else if len <=? 12480 then
    let len := len - 193 in
    Ok [u8 (193 + u8 (Z.shiftr len 8)); u8 (Z.land len 255)]
  else if len <=? 918744 then
    let len := len - 12481 in
    Ok [u8 (241 + u8 (Z.shiftr len 16)); u8 (Z.land (Z.shiftr len 8) 255);
        u8 (Z.land len 255)]
  else Throw (overflow_error "lenlen").

Definition encodeLengthLength (len : Z) : result Z :=
  if len <? 0 then Throw (overflow_error "len<0")
  else if len <=? 192 then Ok 1
  else if len <=? 12480 then Ok 2
  else if len <=? 918744 then Ok 3
  else Throw (overflow_error "len>918744").

(** [lengthVL]: bytes a blob of that length takes with its prefix. *)
Definition lengthVL (len : Z) : result Z :=
  l ← encodeLengthLength len; mret (len + l).

Definition decodeLengthLength (b1 : Z) : result Z :=
  if b1 <? 0 then Throw (overflow_error "b1<0")
  else if b1 <=? 192 then Ok 1
  else if b1 <=? 240 then Ok 2
  else if b1 <=? 254 then Ok 3
  else Throw (overflow_error "b1>254").

Definition decodeVLLength1 (b1 : Z) : result Z :=
  if b1 <? 0 then Throw (overflow_error "b1<0")
  else if 254 <? b1 then Throw (overflow_error "b1>254")
  else Ok b1.

Definition decodeVLLength2 (b1 b2 : Z) : result Z :=
  if b1 <? 193 then Throw (overflow_error "b1<193")
  else if 240 <? b1 then Throw (overflow_error "b1>240")
  else Ok (193 + (b1 - 193) * 256 + b2).

Definition decodeVLLength3 (b1 b2 b3 : Z) : result Z :=
  if b1 <? 241 then Throw (overflow_error "b1<241")
  else if 254 <? b1 then Throw (overflow_error "b1>254")
  else Ok (12481 + (b1 - 241) * 65536 + b2 * 256 + b3).

(** [addVL (Blob const&)]: the prefix, then the bytes. *)
Definition addVL (vector : Blob) (mData : Blob) : result (nat * Blob) :=
  lenBytes ← encodeVL (Z.of_nat (length vector));
  let '(ret, mData) := addRaw lenBytes mData in
  let '(_, mData) := addRaw vector mData in
  mret (ret, mData).

(** [addVL (const void*, int)]. *)
Definition addVL_ptr (bytes : Blob) (mData : Blob) : result (nat * Blob) :=
  let len := Z.of_nat (length bytes) in
  lenBytes ← encodeVL len;
  let '(ret, mData) := addRaw lenBytes mData in
  mret (ret, if negb (len =? 0) then snd (addRaw bytes mData) else mData).

(** [addVL (const std::string&)] calls [addRaw (string.size ())].  The only
    [addRaw] that accepts an integer takes a [const Serializer&], through the
    converting constructor [Serializer (int n)], which reserves [n] bytes and
    holds none: an empty buffer is appended. *)
Definition serializer_of_int (n : Z) : Blob := [].

Definition addVL_string (str : Blob) (mData : Blob) : nat * Blob :=
  let '(ret, mData) := addRaw (serializer_of_int (Z.of_nat (length str))) mData in
  (ret, match str with [] => mData | _ => snd (addRaw str mData) end).

(** ** Disassembling *)

(** Shifting bytes into a [w]-bit accumulator: [o <<= 8; o |= *ptr++]. *)
Definition get_be (w : Z) (bs : Blob) : Z :=
  fold_left (fun o b => Z.lor (uwrap w (Z.shiftl o 8)) b) bs 0.

(** The [n] bytes at [offset], when they are inside the buffer. *)
Definition bytes_at (offset n : nat) (mData : Blob) : option Blob :=
  if (length mData <? offset + n)%nat then None
  else Some (take n (drop offset mData)).

Definition get8 (offset : nat) (mData : Blob) : option Z :=
  if (length mData <=? offset)%nat then None else Some (mData !!! offset).

Definition get16 (offset : nat) (mData : Blob) : option Z :=
  get_be 16 <$> bytes_at offset 2 mData.
Definition get32 (offset : nat) (mData : Blob) : option Z :=
  get_be 32 <$> bytes_at offset 4 mData.
Definition get64 (offset : nat) (mData : Blob) : option Z :=
  get_be 64 <$> bytes_at offset 8 mData.

(** [get128], [get160], [get256]: a [memcpy] of [4 * n] bytes. *)
Definition get_uint (n offset : nat) (mData : Blob) : option base_uint :=
  of_bytes <$> bytes_at offset (4 * n) mData.

Definition getRaw (offset len : nat) (mData : Blob) : option Blob :=
  bytes_at offset len mData.

Definition getFieldID (offset : nat) (mData : Blob) : option (Z * Z) :=
  type ← get8 offset mData;
  let name := Z.land type 15 in
  let type := Z.shiftr type 4 in
  '(type, offset) ← (if type =? 0
    then type ← get8 (S offset) mData;
         (if (type =? 0) || (type <? 16) then None else Some (type, S offset))
    else Some (type, offset));
  (if name =? 0
   then name ← get8 (S offset) mData;
        (if (name =? 0) || (name <? 16) then None else Some (type, name))
   else Some (type, name)).

(** The shared prefix parser of [getVL] and [getVLLength]: the data length, the
    prefix length and the offset after the prefix.  An overflow thrown by
    [decodeVLLength] is caught ([None] inside [Ok]); one thrown by
    [decodeLengthLength], which is outside the [try], escapes. *)
Definition caught {A} (r : result A) : option A :=
  match r with Ok a => Some a | Throw _ => None end.

Definition readVLLength (offset : nat) (mData : Blob) : result (option (Z * Z * nat)) :=
  match get8 offset mData with
  | None => Ok None
  | Some b1 =>
      lenLen ← decodeLengthLength b1;
      mret (
        if lenLen =? 1 then
          datLen ← caught (decodeVLLength1 b1); Some (datLen, lenLen, S offset)
        else if lenLen =? 2 then
          b2 ← get8 (S offset) mData;
          datLen ← caught (decodeVLLength2 b1 b2); Some (datLen, lenLen, S (S offset))
        else if lenLen =? 3 then
          b2 ← get8 (S offset) mData;
          b3 ← get8 (S (S offset)) mData;
          datLen ← caught (decodeVLLength3 b1 b2 b3);
          Some (datLen, lenLen, S (S (S offset)))
        else None)
  end.

Definition getVLLength (offset : nat) (mData : Blob) : result (option Z) :=
  o ← readVLLength offset mData; mret (('(datLen, _, _) ← o; Some datLen)).

(** [getVL]: the blob and the total length it occupies. *)
Definition getVL (offset : nat) (mData : Blob) : result (option (Blob * Z)) :=
  o ← readVLLength offset mData;
  mret ('(datLen, lenLen, offset) ← o;
        objectVL ← getRaw offset (Z.to_nat datLen) mData;
        Some (objectVL, lenLen + datLen)).

(** [chop] drops the last bytes; [removeLastByte] also returns the byte. *)
Definition chop (bytes : nat) (mData : Blob) : bool * Blob :=
  if (length mData <? bytes)%nat then (false, mData)
  else (true, take (length mData - bytes) mData).

Definition removeLastByte (mData : Blob) : Z * Blob :=
  match length mData with
  | O => (-1, mData)
  | S size => (mData !!! size, take size mData)
  end.

(** ** The iterator *)

Record SerializerIterator := { mSerializer : Blob; mPos : nat }.

Definition at_pos (it : SerializerIterator) (p : nat) : SerializerIterator :=
  {| mSerializer := mSerializer it; mPos := p |}.

(** A read that throws on failure and advances by [n] on success. *)
Definition it_read {A} (what : string) (n : nat) (r : option A) (it : SerializerIterator)
    : result (A * SerializerIterator) :=
  match r with
  | None => Throw (runtime_error what)
  | Some a => Ok (a, at_pos it (mPos it + n)%nat)
  end.

Definition it_getBytesLeft (it : SerializerIterator) : Z :=
  Z.of_nat (length (mSerializer it)) - Z.of_nat (mPos it).

Definition it_empty (it : SerializerIterator) : bool :=
  (mPos it =? length (mSerializer it))%nat.

Definition it_get8 (it : SerializerIterator) :=
  it_read "invalid serializer get8" 1 (get8 (mPos it) (mSerializer it)) it.
Definition it_get16 (it : SerializerIterator) :=
  it_read "invalid serializer get16" 2 (get16 (mPos it) (mSerializer it)) it.
Definition it_get32 (it : SerializerIterator) :=
  it_read "invalid serializer get32" 4 (get32 (mPos it) (mSerializer it)) it.
Definition it_get64 (it : SerializerIterator) :=
  it_read "invalid serializer get64" 8 (get64 (mPos it) (mSerializer it)) it.
Definition it_get160 (it : SerializerIterator) :=
  it_read "invalid serializer get160" 20 (get_uint W160 (mPos it) (mSerializer it)) it.
Definition it_get256 (it : SerializerIterator) :=
  it_read "invalid serializer get256" 32 (get_uint W256 (mPos it) (mSerializer it)) it.

Definition it_getFieldID (it : SerializerIterator) : result (Z * Z * SerializerIterator) :=
  match getFieldID (mPos it) (mSerializer it) with
  | None => Throw (runtime_error "invalid serializer getFieldID")
  | Some (type, field) =>
      let pos := S (mPos it) in
      let pos := if 16 <=? type then S pos else pos in
      let pos := if 16 <=? field then S pos else pos in
      Ok (type, field, at_pos it pos)
  end.

Definition it_getVL (it : SerializerIterator) : result (Blob * SerializerIterator) :=
  o ← getVL (mPos it) (mSerializer it);
  match o with
  | None => Throw (runtime_error "invalid serializer getVL")
  | Some (vl, len) => Ok (vl, at_pos it (mPos it + Z.to_nat len)%nat)
  end.

(** [getRaw (iLength)] moves the cursor even when the range is not available,
    and then returns an empty blob. *)
Definition it_getRaw (iLength : nat) (it : SerializerIterator) : Blob * SerializerIterator :=
  (default [] (getRaw (mPos it) iLength (mSerializer it)),
   at_pos it (mPos it + iLength)%nat).

(** ** Big-endian integers *)

(** The [n] low bytes of [v], most significant first. *)
Fixpoint be_split (n : nat) (v : Z) : Blob :=
  match n with
  | O => []
  | S n => (v / 256 ^ Z.of_nat n) mod 256 :: be_split n v
  end.

Lemma length_be_split n v : length (be_split n v) = n.
Proof. induction n; simpl; auto. Qed.

Lemma be_split_u8 n v : Forall is_u8 (be_split n v).
Proof.
  induction n; constructor; [|done]. by apply (uwrap_range 8).
Qed.

Lemma be_val_split n v : be_val 256 (be_split n v) = v mod 256 ^ Z.of_nat n.
Proof.
  induction n as [|n IH]; [by rewrite Z.mod_1_r|].
  cbn [be_split be_val]. rewrite IH, length_be_split.
  rewrite Nat2Z.inj_succ, Z.pow_succ_r by lia. rewrite (Z.mul_comm 256).
  rewrite (Z.rem_mul_r v) by (try apply Z.pow_nonzero; lia). lia.
Qed.

Lemma be_split_val n bs :
  Forall is_u8 bs -> length bs = n -> be_split n (be_val 256 bs) = bs.
Proof.
  intros Hb <-. apply (be_val_inj 256); [done|apply length_be_split|apply be_split_u8|done|].
  rewrite be_val_split. by apply Z.mod_small, be_val_range.
Qed.

Lemma add16_split i d : add16 i d = (length d, d ++ be_split 2 i).
Proof.
  unfold add16, be_split. rewrite land_255, shiftr_div by lia. unfold uwrap.
  change (256 ^ Z.of_nat 1) with (2 ^ 8). change (256 ^ Z.of_nat 0) with 1.
  rewrite Z.div_1_r. change (2 ^ 8) with 256. by rewrite Z.mod_mod by lia.
Qed.

Lemma add32_split i d : add32 i d = (length d, d ++ be_split 4 i).
Proof.
  unfold add32, be_split. rewrite !land_255, !shiftr_div by lia. unfold uwrap.
  change (256 ^ Z.of_nat 3) with (2 ^ 24). change (256 ^ Z.of_nat 2) with (2 ^ 16).
  change (256 ^ Z.of_nat 1) with (2 ^ 8). change (256 ^ Z.of_nat 0) with 1.
  rewrite Z.div_1_r. change (_ mod 2 ^ 8) with (i / 2 ^ 24 mod 256) at 1.
  change (2 ^ 8) with 256. by rewrite !Z.mod_mod by lia.
Qed.

Lemma add64_split i d : add64 i d = (length d, d ++ be_split 8 i).
Proof.
  unfold add64, be_split. rewrite !land_255, !shiftr_div by lia. unfold uwrap.
  change (256 ^ Z.of_nat 7) with (2 ^ 56). change (256 ^ Z.of_nat 6) with (2 ^ 48).
  change (256 ^ Z.of_nat 5) with (2 ^ 40). change (256 ^ Z.of_nat 4) with (2 ^ 32).
  change (256 ^ Z.of_nat 3) with (2 ^ 24). change (256 ^ Z.of_nat 2) with (2 ^ 16).
  change (256 ^ Z.of_nat 1) with (2 ^ 8). change (256 ^ Z.of_nat 0) with 1.
  rewrite Z.div_1_r. change (2 ^ 8) with 256. by rewrite !Z.mod_mod by lia.
Qed.

Lemma get_be_acc w bs o :
  Forall is_u8 bs -> 0 <= o -> 0 <= w ->
  (o + 1) * 256 ^ Z.of_nat (length bs) <= 2 ^ w ->
  fold_left (fun o b => Z.lor (uwrap w (Z.shiftl o 8)) b) bs o =
    o * 256 ^ Z.of_nat (length bs) + be_val 256 bs.
Proof.
  intros Hbs. revert o. induction Hbs as [|b bs Hb _ IH]; intros o Ho Hw Hle.
  - cbn [fold_left length be_val]. change (256 ^ Z.of_nat 0) with 1. lia.
  - cbn [fold_left length be_val] in *. unfold in_u in Hb.
    rewrite Nat2Z.inj_succ, Z.pow_succ_r in * by lia.
    assert (0 < 256 ^ Z.of_nat (length bs)) by (apply Z.pow_pos_nonneg; lia).
    rewrite uwrap_id by (unfold in_u; rewrite Z.shiftl_mul_pow2; nia).
    rewrite lor_shiftl_add by lia. rewrite IH by nia. nia.
Qed.

Lemma get_be_val w bs :
  Forall is_u8 bs -> 8 * Z.of_nat (length bs) <= w -> get_be w bs = be_val 256 bs.
Proof.
  intros Hbs Hw. unfold get_be. rewrite get_be_acc; [lia|done|lia|lia|].
  change 256 with (2 ^ 8). rewrite <- Z.pow_mul_r by lia.
  rewrite Z.mul_1_l. apply Z.pow_le_mono_r; lia.
Qed.

Lemma bytes_at_app pre mid post :
  bytes_at (length pre) (length mid) (pre ++ mid ++ post) = Some mid.
Proof.
  unfold bytes_at. rewrite !length_app, (proj2 (Nat.ltb_ge _ _)) by lia.
  by rewrite drop_app_length, take_app_length.
Qed.

Lemma get_be_split w n v :
  8 * Z.of_nat n <= w -> 0 <= v < 256 ^ Z.of_nat n -> get_be w (be_split n v) = v.
Proof.
  intros Hw Hv. rewrite get_be_val; [|apply be_split_u8|by rewrite length_be_split].
  by rewrite be_val_split, Z.mod_small.
Qed.

Lemma get64_app pre i post :
  is_u64 i -> get64 (length pre) (pre ++ be_split 8 i ++ post) = Some i.
Proof.
  intros Hi. unfold get64. rewrite <- (length_be_split 8 i) at 1.
  rewrite bytes_at_app. simpl. f_equal. by apply (get_be_split 64 8).
Qed.

(** Reading backwards: what a successful read says of the buffer. *)
Lemma bytes_at_inv p n d bs :
  bytes_at p n d = Some bs ->
  exists pre post, d = pre ++ bs ++ post /\ length pre = p /\ length bs = n.
Proof.
  unfold bytes_at. case_match eqn:E; [done|]. apply Nat.ltb_ge in E. intros [= <-].
  exists (take p d), (drop n (drop p d)).
  rewrite take_drop, take_drop, !length_take, length_drop. split_and!; [done|lia|lia].
Qed.

Lemma get64_inv p d w :
  Forall is_u8 d -> get64 p d = Some w ->
  is_u64 w /\ exists pre post, d = pre ++ be_split 8 w ++ post /\ length pre = p.
Proof.
  intros Hd. unfold get64. destruct (bytes_at p 8 d) as [bs|] eqn:E; [|done].
  intros [= <-]. apply bytes_at_inv in E as (pre & post & -> & Hp & Hl).
  rewrite !Forall_app in Hd. destruct Hd as (_ & Hb & _).
  rewrite get_be_val by (done || by rewrite Hl).
  split; [pose proof (be_val_range 256 bs ltac:(lia) Hb) as R; by rewrite Hl in R|].
  exists pre, post. by rewrite be_split_val.
Qed.

Lemma get_uint_inv n p d a :
  Forall is_u8 d -> get_uint n p d = Some a ->
  wf n a /\ exists pre post, d = pre ++ to_bytes a ++ post /\ length pre = p.
Proof.
  intros Hd. unfold get_uint. destruct (bytes_at p (4 * n) d) as [bs|] eqn:E; [|done].
  intros [= <-]. apply bytes_at_inv in E as (pre & post & -> & Hp & Hl).
  rewrite !Forall_app in Hd. destruct Hd as (_ & Hb & _).
  destruct (to_of_bytes n bs Hl Hb) as [Hw Ht]. split; [done|]. exists pre, post. by rewrite Ht.
Qed.

Lemma get_uint_app n pre a post :
  wf n a -> get_uint n (length pre) (pre ++ to_bytes a ++ post) = Some a.
Proof.
  intros [<- Ha]. unfold get_uint. rewrite <- length_to_bytes, bytes_at_app.
  simpl. by rewrite of_to_bytes.
Qed.

(** integers of 16, 32 and 64 bits and [uint]s of any width read back, at
    the offset the write returned, as they were written, whatever follows. *)
Theorem serializer_int_roundtrip (d post : Blob) (i16 i32 i64 : Z) (n : nat) (a : base_uint) :
  0 <= i16 < 2 ^ 16 -> is_u32 i32 -> is_u64 i64 -> wf n a ->
  (let '(off, d') := add16 i16 d in get16 off (d' ++ post) = Some i16) /\
  (let '(off, d') := add32 i32 d in get32 off (d' ++ post) = Some i32) /\
  (let '(off, d') := add64 i64 d in get64 off (d' ++ post) = Some i64) /\
  (let '(off, d') := add_uint a d in get_uint n off (d' ++ post) = Some a).
Proof.
  intros H16 H32 H64 Ha. rewrite add16_split, add32_split, add64_split. unfold add_uint.
  rewrite <- !app_assoc. split_and!; [| |by apply get64_app|by apply get_uint_app].
  - unfold get16. rewrite <- (length_be_split 2 i16) at 1. rewrite bytes_at_app.
    simpl. f_equal. by apply (get_be_split 16 2).
  - unfold get32. rewrite <- (length_be_split 4 i32) at 1. rewrite bytes_at_app.
    simpl. f_equal. by apply (get_be_split 32 4).
Qed.

Lemma serializer_int_roundtrip_witness :
  get64 2 ([9; 9] ++ [0; 0; 0; 0; 0; 0; 1; 2] ++ [7]) = Some 258.
Proof.
  destruct (serializer_int_roundtrip [9; 9] [7] 0 0 258 0 []) as (_ & _ & H & _);
    [lia|by_decide|by_decide|by_decide|]. exact H.
Defined.

(** ** Single bytes *)

Lemma get8_app pre b post : get8 (length pre) (pre ++ b :: post) = Some b.
Proof.
  unfold get8. rewrite length_app. simpl.
  rewrite (proj2 (Nat.leb_gt _ _)) by lia. by rewrite list_lookup_total_middle.
Qed.

Lemma get8_app1 pre b0 b post : get8 (S (length pre)) (pre ++ b0 :: b :: post) = Some b.
Proof.
  pose proof (get8_app (pre ++ [b0]) b post) as H.
  rewrite length_app, Nat.add_1_r, <- app_assoc in H. exact H.
Qed.

Lemma get8_app2 pre b0 b1 b post :
  get8 (S (S (length pre))) (pre ++ b0 :: b1 :: b :: post) = Some b.
Proof.
  pose proof (get8_app1 (pre ++ [b0]) b1 b post) as H.
  rewrite length_app, Nat.add_1_r, <- app_assoc in H. exact H.
Qed.

Lemma addRaw_eq v d : addRaw v d = (length d, d ++ v).
Proof. done. Qed.

(** ** Field identifiers *)

(** The packed byte of a common type and a common name. *)
Lemma field_byte type name :
  0 <= type < 16 -> 0 <= name < 16 ->
  u8 (Z.lor (Z.shiftl type 4) name) = type * 16 + name /\
  Z.land (type * 16 + name) 15 = name /\ Z.shiftr (type * 16 + name) 4 = type.
Proof.
  intros Ht Hn. rewrite lor_shiftl_add by lia. change (2 ^ 4) with 16.
  rewrite u8_id by lia. rewrite (land_mask _ 4), shiftr_div by lia. change (2 ^ 4) with 16.
  rewrite Z.add_comm, Z.mod_add, Z.div_add by lia.
  by rewrite Z.mod_small, Z.div_small by lia.
Qed.

Definition field_bytes (type name : Z) : Blob :=
  if type <? 16 then
    if name <? 16 then [type * 16 + name] else [type * 16; name]
  else if name <? 16 then [name; type]
  else [0; type; name].

Lemma addFieldID_bytes type name d :
  0 < type < 256 -> 0 < name < 256 ->
  addFieldID type name d = (length d, d ++ field_bytes type name).
Proof.
  intros Ht Hn. unfold addFieldID, field_bytes.
  destruct (Z.ltb_spec type 16), (Z.ltb_spec name 16); do 2 f_equal.
  - by destruct (field_byte type name) as [-> _]; [lia|lia|].
  - rewrite Z.shiftl_mul_pow2, !u8_id by lia. done.
  - by rewrite !u8_id by lia.
  - by rewrite !u8_id by lia.
Qed.

Lemma getFieldID_app pre post type name :
  0 < type < 256 -> 0 < name < 256 ->
  getFieldID (length pre) (pre ++ field_bytes type name ++ post) = Some (type, name).
Proof.
  intros Ht Hn. unfold getFieldID, field_bytes.
  destruct (Z.ltb_spec type 16), (Z.ltb_spec name 16); cbn [app]; rewrite get8_app; simpl.
  - destruct (field_byte type name) as (_ & -> & ->); [lia|lia|].
    destruct (Z.eqb_spec type 0); [lia|]. simpl. by destruct (Z.eqb_spec name 0); [lia|].
  - destruct (field_byte type 0) as (_ & E1 & E2); [lia|lia|].
    rewrite Z.add_0_r in E1, E2. rewrite E1, E2.
    destruct (Z.eqb_spec type 0); [lia|]. simpl. rewrite get8_app1. simpl.
    destruct (Z.eqb_spec name 0), (Z.ltb_spec name 16); (lia || done).
  - destruct (field_byte 0 name) as (_ & E1 & E2); [lia|lia|].
    rewrite Z.mul_0_l, Z.add_0_l in E1, E2. rewrite E1, E2. simpl. rewrite get8_app1. simpl.
    destruct (Z.eqb_spec type 0), (Z.ltb_spec type 16); try lia. simpl.
    by destruct (Z.eqb_spec name 0); [lia|].
  - rewrite get8_app1. simpl.
    destruct (Z.eqb_spec type 0), (Z.ltb_spec type 16); try lia. simpl.
    rewrite get8_app2. simpl.
    destruct (Z.eqb_spec name 0), (Z.ltb_spec name 16); (lia || done).
Qed.

(** a field identifier written by [addFieldID] is read back by the
    iterator's [getFieldID], which leaves the cursor right after it. *)
Theorem fieldID_roundtrip (d post : Blob) (type name : Z) :
  0 < type < 256 -> 0 < name < 256 ->
  let '(off, d') := addFieldID type name d in
  it_getFieldID {| mSerializer := d' ++ post; mPos := off |} =
    Ok (type, name, {| mSerializer := d' ++ post; mPos := length d' |}).
Proof.
  intros Ht Hn. rewrite addFieldID_bytes by done. unfold it_getFieldID. cbn [mSerializer mPos].
  rewrite <- app_assoc, getFieldID_app by done. unfold at_pos. cbn [mSerializer].
  do 3 f_equal. rewrite length_app. unfold field_bytes.
  destruct (Z.leb_spec 16 type), (Z.leb_spec 16 name),
    (Z.ltb_spec type 16), (Z.ltb_spec name 16); simpl; lia.
Qed.

Lemma fieldID_roundtrip_witness :
  it_getFieldID {| mSerializer := [5; 0; 17; 200; 1]; mPos := 1 |} =
    Ok (17, 200, {| mSerializer := [5; 0; 17; 200; 1]; mPos := 4 |}).
Proof. apply (fieldID_roundtrip [5] [1] 17 200); lia. Defined.

(** ** Variable-length blobs *)

(** The three shapes of a prefix, as the reader decodes them. *)
Lemma readVL_one pre b1 post :
  0 <= b1 <= 192 ->
  readVLLength (length pre) (pre ++ b1 :: post) = Ok (Some (b1, 1, (length pre + 1)%nat)).
Proof.
  intros Hb. unfold readVLLength, decodeLengthLength, decodeVLLength1. rewrite get8_app.
  rewrite (proj2 (Z.ltb_ge b1 0)), (proj2 (Z.leb_le b1 192)) by lia. simpl.
  rewrite (proj2 (Z.ltb_ge 254 b1)) by lia. by rewrite Nat.add_1_r.
Qed.

Lemma readVL_two pre b1 b2 post :
  193 <= b1 <= 240 ->
  readVLLength (length pre) (pre ++ b1 :: b2 :: post) =
    Ok (Some (193 + (b1 - 193) * 256 + b2, 2, (length pre + 2)%nat)).
Proof.
  intros Hb. unfold readVLLength, decodeLengthLength, decodeVLLength2. rewrite get8_app.
  rewrite (proj2 (Z.ltb_ge b1 0)), (proj2 (Z.leb_gt b1 192)), (proj2 (Z.leb_le b1 240)) by lia.
  simpl. rewrite get8_app1. simpl.
  rewrite (proj2 (Z.ltb_ge b1 193)), (proj2 (Z.ltb_ge 240 b1)) by lia. simpl.
  by replace (length pre + 2)%nat with (S (S (length pre))) by lia.
Qed.

Lemma readVL_three pre b1 b2 b3 post :
  241 <= b1 <= 254 ->
  readVLLength (length pre) (pre ++ b1 :: b2 :: b3 :: post) =
    Ok (Some (12481 + (b1 - 241) * 65536 + b2 * 256 + b3, 3, (length pre + 3)%nat)).
Proof.
  intros Hb. unfold readVLLength, decodeLengthLength, decodeVLLength3. rewrite get8_app.
  rewrite (proj2 (Z.ltb_ge b1 0)), (proj2 (Z.leb_gt b1 192)), (proj2 (Z.leb_gt b1 240)),
    (proj2 (Z.leb_le b1 254)) by lia.
  simpl. rewrite get8_app1. simpl. rewrite get8_app2. simpl.
  rewrite (proj2 (Z.ltb_ge b1 241)), (proj2 (Z.ltb_ge 254 b1)) by lia. simpl.
  by replace (length pre + 3)%nat with (S (S (S (length pre)))) by lia.
Qed.

(** The two- and three-byte splittings of a length, without wrap-around. *)
Lemma split2 l : 0 <= l < 48 * 256 ->
  0 <= l / 2 ^ 8 <= 47 /\ 0 <= l mod 256 < 256 /\ l = l / 2 ^ 8 * 256 + l mod 256.
Proof. intros. change (2 ^ 8) with 256. Z.to_euclidean_division_equations. lia. Qed.

Lemma split3 l : 0 <= l < 14 * 65536 ->
  0 <= l / 2 ^ 16 <= 13 /\ 0 <= (l / 2 ^ 8) mod 256 < 256 /\ 0 <= l mod 256 < 256 /\
  l = l / 2 ^ 16 * 65536 + (l / 2 ^ 8) mod 256 * 256 + l mod 256.
Proof.
  intros. change (2 ^ 16) with 65536. change (2 ^ 8) with 256.
  Z.to_euclidean_division_equations. lia.
Qed.

(** The length prefix decodes to the length it encodes. *)
Lemma readVLLength_encode len pre post lenBytes :
  0 <= len -> encodeVL len = Ok lenBytes ->
  encodeLengthLength len = Ok (Z.of_nat (length lenBytes)) /\
  readVLLength (length pre) (pre ++ lenBytes ++ post) =
    Ok (Some (len, Z.of_nat (length lenBytes), (length pre + length lenBytes)%nat)).
Proof.
  intros H0. unfold encodeVL, encodeLengthLength. rewrite (proj2 (Z.ltb_ge len 0)) by lia.
  destruct (Z.leb_spec len 192); [intros [= <-]|].
  { rewrite u8_id by lia. split; [done|]. by apply readVL_one. }
  destruct (Z.leb_spec len 12480); [intros [= <-]|].
  { rewrite land_255, shiftr_div by lia.
    destruct (split2 (len - 193)) as (? & ? & E); [lia|].
    rewrite (u8_id ((len - 193) / 2 ^ 8)), !u8_id by lia. split; [done|].
    cbn [app]. rewrite readVL_two by lia. do 4 f_equal. lia. }
  destruct (Z.leb_spec len 918744); [intros [= <-]|done].
  rewrite !land_255, !shiftr_div by lia.
  destruct (split3 (len - 12481)) as (? & ? & ? & E); [lia|].
  rewrite (u8_id ((len - 12481) / 2 ^ 16)), !u8_id by lia. split; [done|].
  cbn [app]. rewrite readVL_three by lia. do 4 f_equal. lia.
Qed.

(** [encodeVL] succeeds exactly up to the largest encodable length. *)
Lemma encodeVL_total len :
  len <= 918744 -> exists bs, encodeVL len = Ok bs /\ (length bs <= 3)%nat.
Proof.
  intros. unfold encodeVL. split_ifs; try lia; eexists; (split; [done|simpl; lia]).
Qed.

(** A blob of at most 918744 bytes written with [addVL] is read back by the
    iterator's [getVL], which leaves the cursor right after it; a longer one
    makes [addVL] throw before anything is written. *)
Theorem VL_roundtrip (d v post : Blob) :
  (Z.of_nat (length v) <= 918744 ->
   exists d', addVL v d = Ok (length d, d') /\
     it_getVL {| mSerializer := d' ++ post; mPos := length d |} =
       Ok (v, {| mSerializer := d' ++ post; mPos := length d' |})) /\
  (918744 < Z.of_nat (length v) -> addVL v d = Throw (overflow_error "lenlen")).
Proof.
  split; intros Hlen.
  - destruct (encodeVL_total _ Hlen) as (bs & Hbs & _).
    destruct (readVLLength_encode (Z.of_nat (length v)) d (v ++ post) bs) as [_ HR]; [lia|done|].
    exists ((d ++ bs) ++ v). unfold addVL. rewrite Hbs. split; [done|].
    unfold it_getVL, getVL. cbn [mSerializer mPos]. rewrite <- !app_assoc, HR. simpl.
    unfold getRaw. rewrite Nat2Z.id, (app_assoc d), <- length_app, bytes_at_app. simpl.
    unfold at_pos. cbn [mSerializer]. do 3 f_equal. rewrite !length_app. lia.
  - unfold addVL, encodeVL. split_ifs; try lia. done.
Qed.

Lemma VL_roundtrip_witness :
  it_getVL {| mSerializer := [5; 3; 10; 20; 30; 99]; mPos := 1 |} =
    Ok ([10; 20; 30], {| mSerializer := [5; 3; 10; 20; 30; 99]; mPos := 5 |}).
Proof.
  destruct (VL_roundtrip [5] [10; 20; 30] [99]) as [H _].
  destruct (H ltac:(simpl; lia)) as (d' & E & R). injection E as <-. exact R.
Defined.

(** [addVL (const std::string&)] writes no length prefix: it appends the
    bytes of the string alone, so what it writes for a non-empty string is not
    what [addVL (Blob const&)] writes for the same bytes. *)
Lemma addVL_string_no_prefix (d str : Blob) :
  addVL_string str d = (length d, d ++ str) /\
  (forall d', addVL str d = Ok (length d, d') -> length d' <> length (snd (addVL_string str d))).
Proof.
  assert (addVL_string str d = (length d, d ++ str)) as E.
  { unfold addVL_string, serializer_of_int, addRaw. rewrite !app_nil_r.
    by destruct str; rewrite ?app_nil_r. }
  split; [done|]. rewrite E. intros d' H. unfold addVL in H.
  apply bind_Ok in H as (bs & Hbs & H). simpl in H. injection H as <-.
  assert (1 <= length bs)%nat.
  { unfold encodeVL in Hbs. by split_ifs; simpl; lia. }
  simpl. rewrite !length_app. lia.
Qed.

End Serializer.
