(* ===== verification/STAmount.v ===== *)
(** * [STAmount]: representation, ordering, sums and the wire format

    Models the class [STAmount] of
    [src/src/ripple_data/protocol/SerializedTypes.h] and the non-multiplicative
    part of [STAmount.cpp].  An amount is native (STR: a signed count of
    millionths) or an issued currency held as a decimal float
    [mValue * 10^mOffset].  The [SField] name of a field takes no part in any
    operation and is left out.

    [mValue] is a [uint64_t]: it wraps at [2^64] ([u64]).  [mOffset] is an
    [int].  Signed 64-bit results are written with [i64] (wrap-around), which is
    what the conversions do and what a signed overflow gives on the supported
    machines.  A C++ [throw] is a [Throw].

    The theorems: [canonicalize] against a closed form, the representation
    invariant, the order as order of the denoted numbers, error bounds of the
    sum, and the wire format as a bijection with the amounts it can carry. *)

From Stdlib Require Import ZArith Lia.
From S2P Require Import Prelude.
From S2P Require Import BaseUint.
From S2P Require Import Serializer.

Module STAmount.
Import BaseUint Serializer.

Abbreviation uint160 := base_uint.

Record STAmount := MkSTAmount {
  mCurrency : uint160;
  mIssuer : uint160;
  mValue : Z;
  mOffset : Z;
  mIsNative : bool;
  mIsNegative : bool;
}.

#[export] Instance STAmount_eq_dec : EqDecision STAmount.
Proof. solve_decision. Defined.

Definition cMinOffset : Z := -96.
Definition cMaxOffset : Z := 80.
Definition cMinValue : Z := 1000000000000000.
Definition cMaxValue : Z := 9999999999999999.
Definition cMaxNative : Z := 9000000000000000000.
Definition cMaxNativeN : Z := 100000000000000000.
Definition cNotNative : Z := 9223372036854775808.  (* 0x8000000000000000 *)
Definition cPosNative : Z := 4611686018427387904.  (* 0x4000000000000000 *)

Definition u160_zero : uint160 := zero W160.
(** [CURRENCY_ONE] and [ACCOUNT_ONE]. *)
Definition u160_one : uint160 := of_u64 W160 1.

(** ** Canonical form *)

(** [while (mOffset < 0) { mValue /= 10; ++mOffset; }] *)
Definition native_down (s : Z * Z) : Z * Z :=
  while (Z.to_nat (- snd s)) (fun '(v, off) => off <? 0)
    (fun '(v, off) => (v / 10, off + 1)) s.

(** [while (mOffset > 0) { mValue *= 10; --mOffset; }] *)
Definition native_up (s : Z * Z) : Z * Z :=
  while (Z.to_nat (snd s)) (fun '(v, off) => 0 <? off)
    (fun '(v, off) => (u64 (v * 10), off - 1)) s.

(** [while ((mValue < cMinValue) && (mOffset > cMinOffset)) { mValue *= 10; --mOffset; }] *)
Definition iou_up (s : Z * Z) : Z * Z :=
  while 20 (fun '(v, off) => (v <? cMinValue) && (cMinOffset <? off))
    (fun '(v, off) => (u64 (v * 10), off - 1)) s.

(** [while (mValue > cMaxValue) { if (mOffset >= cMaxOffset) throw; mValue /= 10; ++mOffset; }] *)
Definition iou_down (s : Z * Z) : result (Z * Z) :=
  while_r 20 (fun '(v, off) => cMaxValue <? v)
    (fun '(v, off) =>
       if cMaxOffset <=? off then Throw (runtime_error "value overflow")
       else Ok (v / 10, off + 1)) s.

Definition canonicalize (a : STAmount) : result STAmount :=
  let '(MkSTAmount cur iss v off _ neg) := a in
  if isZero cur then
    if v =? 0 then Ok (MkSTAmount cur iss v 0 true false)
    else
      let '(v, off) := native_up (native_down (v, off)) in
      if cMaxNative <? v then Throw (runtime_error "Native currency amount out of range")
      else Ok (MkSTAmount cur iss v off true neg)
  else
    if v =? 0 then Ok (MkSTAmount cur iss v (-100) false false)
    else
      '(v, off) ← iou_down (iou_up (v, off));
      let '(v, off, neg) :=
        if (off <? cMinOffset) || (v <? cMinValue) then (0, 0, false) else (v, off, neg) in
      if cMaxOffset <? off then Throw (runtime_error "value overflow")
      else Ok (MkSTAmount cur iss v off false neg).

(** ** Constructors *)

(** [STAmount (std::uint64_t v, bool isNeg)]. *)
Definition mk_native (v : Z) (isNeg : bool) : STAmount :=
  MkSTAmount u160_zero u160_zero v 0 true (if v =? 0 then false else isNeg).

(** [STAmount (SField::ref, std::uint64_t v, bool isNeg)]: the sign is kept as given. *)
Definition mk_native_field (v : Z) (isNeg : bool) : STAmount :=
  MkSTAmount u160_zero u160_zero v 0 true isNeg.

(** [set (std::int64_t)]: sign and magnitude. *)
Definition set_i64 (v : Z) : bool * Z :=
  if v <? 0 then (true, u64 (i64 (- v))) else (false, u64 v).

(** [STAmount (SField::ref, std::int64_t)]. *)
Definition mk_native_i64 (v : Z) : STAmount :=
  let '(neg, m) := set_i64 v in MkSTAmount u160_zero u160_zero m 0 true neg.

(** [STAmount (currency, issuer, value, offset, negative)]. *)
Definition mk_iou (cur iss : uint160) (v off : Z) (neg : bool) : result STAmount :=
  canonicalize (MkSTAmount cur iss v off false neg).

(** [STAmount (currency, issuer)]: zero of that currency. *)
Definition mk_zero (cur iss : uint160) : result STAmount := mk_iou cur iss 0 0 false.

(** [createFromInt64]. *)
Definition createFromInt64 (v : Z) : STAmount :=
  if 0 <=? v then mk_native_field (u64 v) false else mk_native_field (u64 (i64 (- v))) true.

(** [saFromRate]: a transfer rate in billionths. *)
Definition saFromRate (uRate : Z) : result STAmount :=
  mk_iou u160_one u160_one uRate (-9) false.

(** ** Accessors and small mutators *)

Definition signum (a : STAmount) : Z :=
  if mValue a =? 0 then 0 else if mIsNegative a then -1 else 1.

(** [a == zero]. *)
Definition is_zero (a : STAmount) : bool := signum a =? 0.

Definition isLegalNet (a : STAmount) : bool :=
  negb (mIsNative a) || (mValue a <=? cMaxNativeN).

Definition with_value (a : STAmount) (v off : Z) (neg : bool) : STAmount :=
  MkSTAmount (mCurrency a) (mIssuer a) v off (mIsNative a) neg.

Definition negate (a : STAmount) : STAmount :=
  if negb (is_zero a) then with_value a (mValue a) (mOffset a) (negb (mIsNegative a)) else a.

Definition clear (a : STAmount) : STAmount :=
  with_value a 0 (if mIsNative a then 0 else -100) false.

Definition clear_to (cur iss : uint160) (a : STAmount) : STAmount :=
  clear (MkSTAmount cur iss (mValue a) (mOffset a) (isZero cur) (mIsNegative a)).

(** [operator- (void)]. *)
Definition opp (a : STAmount) : STAmount :=
  if mValue a =? 0 then a else with_value a (mValue a) (mOffset a) (negb (mIsNegative a)).

Definition getSNValue (a : STAmount) : result Z :=
  if negb (mIsNative a) then Throw (runtime_error "not native")
  else if mIsNegative a then Ok (i64 (- i64 (mValue a)))
  else Ok (i64 (mValue a)).

Definition getNValue (a : STAmount) : result Z :=
  if negb (mIsNative a) then Throw (runtime_error "not native") else Ok (mValue a).

(** [setNValue] replaces the magnitude and keeps the sign. *)
Definition setNValue (v : Z) (a : STAmount) : result STAmount :=
  if negb (mIsNative a) then Throw (runtime_error "not native")
  else Ok (with_value a v (mOffset a) (mIsNegative a)).

Definition setSNValue (v : Z) (a : STAmount) : result STAmount :=
  if negb (mIsNative a) then Throw (runtime_error "not native")
  else if 0 <? v then Ok (with_value a (u64 v) (mOffset a) false)
  else Ok (with_value a (u64 (i64 (- v))) (mOffset a) true).

(** [operator+= (std::uint64_t)] and [operator-= (std::uint64_t)]. *)
Definition add_u64 (a : STAmount) (v : Z) : result STAmount :=
  sn ← getSNValue a; setSNValue (i64 (sn + i64 v)) a.
Definition sub_u64 (a : STAmount) (v : Z) : result STAmount :=
  sn ← getSNValue a; setSNValue (i64 (sn - i64 v)) a.

(** ** Comparison *)

Definition isComparable (a t : STAmount) : bool :=
  if mIsNative a then mIsNative t
  else if mIsNative t then false
  else BaseUint.eqb (mCurrency a) (mCurrency t).

Definition throwComparable (a t : STAmount) : result unit :=
  if negb (isComparable a t) then Throw (runtime_error "amounts are not comparable")
  else Ok tt.

Definition compare (this a : STAmount) : Z :=
  if negb (Bool.eqb (mIsNegative this) (mIsNegative a)) then (if mIsNegative this then -1 else 1)
  else if mValue this =? 0 then
    (if mIsNegative a then 1 else if negb (mValue a =? 0) then -1 else 0)
  else if mValue a =? 0 then 1
  else if mOffset a <? mOffset this then (if mIsNegative this then -1 else 1)
  else if mOffset this <? mOffset a then (if mIsNegative this then 1 else -1)
  else if mValue a <? mValue this then (if mIsNegative this then -1 else 1)
  else if mValue this <? mValue a then (if mIsNegative this then 1 else -1)
  else 0.

(** [operator==]; [isEquivalent] computes the same. *)
Definition eqb (this a : STAmount) : bool :=
  isComparable this a && Bool.eqb (mIsNegative this) (mIsNegative a) &&
  (mOffset this =? mOffset a) && (mValue this =? mValue a).

Definition neqb (this a : STAmount) : bool :=
  negb (mOffset this =? mOffset a) || negb (mValue this =? mValue a) ||
  negb (Bool.eqb (mIsNegative this) (mIsNegative a)) || negb (isComparable this a).

(** The ordering operators throw on incomparable amounts. *)
Definition ltb (a b : STAmount) : result bool :=
  _ ← throwComparable a b; mret (compare a b <? 0).
Definition gtb (a b : STAmount) : result bool :=
  _ ← throwComparable a b; mret (0 <? compare a b).
Definition leb (a b : STAmount) : result bool :=
  _ ← throwComparable a b; mret (compare a b <=? 0).
Definition geb (a b : STAmount) : result bool :=
  _ ← throwComparable a b; mret (0 <=? compare a b).

(** ** Sums *)

(** [while (ov1 < ov2) { vv1 /= 10; ++ov1; }] on signed values. *)
Definition align (vv ov target : Z) : Z * Z :=
  while (Z.to_nat (target - ov)) (fun '(_, ov) => ov <? target)
    (fun '(vv, ov) => (Z.quot vv 10, ov + 1)) (vv, ov).

(** The signed mantissa [vv]. *)
Definition signed_value (a : STAmount) : Z :=
  let vv := i64 (mValue a) in if mIsNegative a then i64 (- vv) else vv.

(** The tail of both operators: near-zero results become zero. *)
Definition mk_sum (v1 : STAmount) (fv ov1 : Z) : result STAmount :=
  if (-10 <=? fv) && (fv <=? 10) then mk_zero (mCurrency v1) (mIssuer v1)
  else if 0 <=? fv then mk_iou (mCurrency v1) (mIssuer v1) (u64 fv) ov1 false
  else mk_iou (mCurrency v1) (mIssuer v1) (u64 (i64 (- fv))) ov1 true.

Definition add (v1 v2 : STAmount) : result STAmount :=
  _ ← throwComparable v1 v2;
  if is_zero v2 then mret v1
  else if is_zero v1 then
    mk_iou (mCurrency v1) (mIssuer v1) (mValue v2) (mOffset v2) (mIsNegative v2)
  else if mIsNative v1 then
    sn1 ← getSNValue v1; sn2 ← getSNValue v2; mret (mk_native_i64 (i64 (sn1 + sn2)))
  else
    let '(vv1, ov1) := align (signed_value v1) (mOffset v1) (mOffset v2) in
    let '(vv2, _) := align (signed_value v2) (mOffset v2) ov1 in
    mk_sum v1 (i64 (vv1 + vv2)) ov1.

Definition sub (v1 v2 : STAmount) : result STAmount :=
  _ ← throwComparable v1 v2;
  if is_zero v2 then mret v1
  else if mIsNative v2 then
    sn1 ← getSNValue v1; sn2 ← getSNValue v2; mret (createFromInt64 (i64 (sn1 - sn2)))
  else
    let '(vv1, ov1) := align (signed_value v1) (mOffset v1) (mOffset v2) in
    let '(vv2, _) := align (signed_value v2) (mOffset v2) ov1 in
    mk_sum v1 (i64 (vv1 - vv2)) ov1.

(** [getRound] and [roundSelf]: repair a last-digit artefact of a division. *)
Definition getRound (a : STAmount) : result STAmount :=
  if mIsNative a then Ok a
  else
    let valueDigits := mValue a mod 1000000000 in
    if valueDigits =? 1 then
      mk_iou (mCurrency a) (mIssuer a) (u64 (mValue a - 1)) (mOffset a) (mIsNegative a)
    else if valueDigits =? 999999999 then
      mk_iou (mCurrency a) (mIssuer a) (u64 (mValue a + 1)) (mOffset a) (mIsNegative a)
    else Ok a.

Definition roundSelf (a : STAmount) : result STAmount :=
  if mIsNative a then Ok a
  else
    let valueDigits := mValue a mod 1000000000 in
    if valueDigits =? 1 then
      let a := with_value a (u64 (mValue a - 1)) (mOffset a) (mIsNegative a) in
      if mValue a <? cMinValue then canonicalize a else Ok a
    else if valueDigits =? 999999999 then
      let a := with_value a (u64 (mValue a + 1)) (mOffset a) (mIsNegative a) in
      if cMaxValue <? mValue a then canonicalize a else Ok a
    else Ok a.

(** ** The wire format *)

Definition serialize (a : STAmount) (s : Blob) : Blob :=
  if mIsNative a then
    if negb (mIsNegative a) then snd (add64 (Z.lor (mValue a) cPosNative) s)
    else snd (add64 (mValue a) s)
  else
    let s :=
      if is_zero a then snd (add64 cNotNative s)
      else if mIsNegative a then
        snd (add64 (Z.lor (mValue a) (u64 (Z.shiftl (u64 (mOffset a + 512 + 97)) 54))) s)
      else
        snd (add64 (Z.lor (mValue a) (u64 (Z.shiftl (u64 (mOffset a + 512 + 256 + 97)) 54))) s)
    in
    snd (add_uint (mIssuer a) (snd (add_uint (mCurrency a) s))).

(** [construct]: reads one amount at the cursor. *)
Definition construct (sit : SerializerIterator) : result (STAmount * SerializerIterator) :=
  '(value, sit) ← it_get64 sit;
  if Z.land value cNotNative =? 0 then
    if negb (Z.land value cPosNative =? 0) then
      mret (mk_native_field (Z.land value (u64 (Z.lnot cPosNative))) false, sit)
    else if value =? 0 then Throw (runtime_error "negative zero is not canonical")
    else mret (mk_native_field value true, sit)
  else
    '(uCurrencyID, sit) ← it_get160 sit;
    if isZero uCurrencyID then Throw (runtime_error "invalid non-native currency")
    else
      '(uIssuerID, sit) ← it_get160 sit;
      let offset := Z.shiftr value 54 in
      let value := Z.land value (u64 (Z.lnot (Z.shiftl 1023 54))) in
      if negb (value =? 0) then
        let isNegative := Z.land offset 256 =? 0 in
        let offset := Z.land offset 255 - 97 in
        if (value <? cMinValue) || (cMaxValue <? value) ||
           (offset <? cMinOffset) || (cMaxOffset <? offset)
        then Throw (runtime_error "invalid currency value")
        else
          a ← mk_iou uCurrencyID uIssuerID value offset isNegative; mret (a, sit)
      else if negb (offset =? 512) then Throw (runtime_error "invalid currency value")
      else
        a ← mk_zero uCurrencyID uIssuerID; mret (a, sit).

(** ** Checks on concrete inputs *)

Example canonicalize_ex1 :
  mk_iou u160_one u160_one 31 1 false =
    Ok (MkSTAmount u160_one u160_one 3100000000000000 (-13) false false).
Proof. by vm_compute. Qed.

Example canonicalize_ex2 :
  mk_iou u160_one u160_one 12345678901234567 0 true =
    Ok (MkSTAmount u160_one u160_one 1234567890123456 1 false true).
Proof. by vm_compute. Qed.

(** ** [canonicalize] in closed form *)

(** [v] has [d] decimal digits. *)
Definition digits (d v : Z) : Prop := 1 <= d /\ 10 ^ (d - 1) <= v < 10 ^ d.

Lemma digits_pos d v : digits d v -> 0 < v.
Proof. intros [Hd [H _]]. pose proof (pow10_pos (d - 1)). lia. Qed.

(** A 64-bit value has at most twenty digits. *)
Lemma digits_u64 d v : digits d v -> is_u64 v -> d <= 20.
Proof.
  intros [Hd [H _]] [_ Hv]. destruct (decide (d <= 20)); [done|].
  assert (10 ^ 20 <= 10 ^ (d - 1)) by (apply Z.pow_le_mono_r; lia). lia.
Qed.

Lemma digits_exist v : 0 < v -> exists d, digits d v.
Proof.
  intros Hv. assert (forall n : nat, v < 10 ^ Z.of_nat n -> exists d, digits d v) as H.
  { induction n as [|n IH]; intros Hlt; [rewrite Z.pow_0_r in Hlt; lia|].
    destruct (decide (v < 10 ^ Z.of_nat n)); [auto|].
    exists (Z.of_nat (S n)). split; [lia|].
    replace (Z.of_nat (S n) - 1) with (Z.of_nat n) by lia. lia. }
  apply (H (Z.to_nat v)). rewrite Z2Nat.id by lia. apply Z.pow_gt_lin_r; lia.
Qed.

(** Scaling a [d]-digit number by [10^i]. *)
Lemma digits_mul d v i : digits d v -> 0 <= i -> 10 ^ (d - 1 + i) <= v * 10 ^ i < 10 ^ (d + i).
Proof.
  intros [Hd H] Hi. rewrite !pow10_add by lia. pose proof (pow10_pos i Hi). nia.
Qed.

Lemma digits_div d v i :
  digits d v -> 0 <= i < d -> 10 ^ (d - 1 - i) <= v / 10 ^ i < 10 ^ (d - i).
Proof.
  intros [Hd H] Hi. pose proof (pow10_pos i ltac:(lia)). split.
  - apply Z.div_le_lower_bound; [lia|]. rewrite <- pow10_add by lia.
    replace (i + (d - 1 - i)) with (d - 1) by lia. lia.
  - apply Z.div_lt_upper_bound; [lia|]. rewrite <- pow10_add by lia.
    replace (i + (d - i)) with d by lia. lia.
Qed.

Lemma iou_up_small d v off :
  digits d v -> d <= 16 ->
  let j := Z.min (16 - d) (Z.max 0 (off + 96)) in
  iou_up (v, off) = (v * 10 ^ j, off - j).
Proof.
  intros Hv Hd j. pose proof (digits_pos d v Hv). pose proof (proj1 Hv).
  unfold iou_up. set (f := fun i : nat => (v * 10 ^ Z.of_nat i, off - Z.of_nat i)).
  replace (v, off) with (f 0%nat).
  2: { unfold f. f_equal; lia. }
  assert (0 <= j <= 15) by lia.
  rewrite (while_count _ f _ (Z.to_nat j)); [|intros i Hi| |lia].
  - unfold f. by rewrite Z2Nat.id by lia.
  - unfold f. destruct (digits_mul d v (Z.of_nat i)) as [_ HU]; [done|lia|].
    assert (10 ^ (d + Z.of_nat i) <= 10 ^ 15) by (apply Z.pow_le_mono_r; lia).
    split.
    + apply andb_true_iff. unfold cMinValue, cMinOffset. split; apply Z.ltb_lt; lia.
    + rewrite Nat2Z.inj_succ, Z.pow_succ_r by lia.
      rewrite u64_id by (pose proof (pow10_pos (Z.of_nat i)); nia). f_equal; lia.
  - unfold f. rewrite Z2Nat.id by lia. apply andb_false_iff. unfold cMinValue, cMinOffset.
    rewrite !Z.ltb_ge. destruct (decide (j = 16 - d)) as [->|]; [left|right; lia].
    destruct (digits_mul d v (16 - d)) as [HL _]; [done|lia|].
    replace (d - 1 + (16 - d)) with 15 in HL by lia. lia.
Qed.

Lemma iou_up_large d v off : digits d v -> 17 <= d -> iou_up (v, off) = (v, off).
Proof.
  intros [Hd Hv] H17. apply while_false. apply andb_false_iff. left.
  apply Z.ltb_ge. unfold cMinValue.
  assert (10 ^ 16 <= 10 ^ (d - 1)) by (apply Z.pow_le_mono_r; lia). lia.
Qed.

Lemma iou_down_small v off : v <= cMaxValue -> iou_down (v, off) = Ok (v, off).
Proof. intros H. unfold iou_down. simpl. by rewrite (proj2 (Z.ltb_ge _ _) H). Qed.

(** The dividing loop: each pass drops a digit until sixteen are left, unless
    the exponent has no room. *)
Lemma iou_down_large d v off :
  digits d v -> 17 <= d <= 20 ->
  iou_down (v, off) =
    if cMaxOffset <? off + d - 16 then Throw (runtime_error "value overflow")
    else Ok (v / 10 ^ (d - 16), off + d - 16).
Proof.
  intros Hv Hd. unfold iou_down.
  set (f := fun i : nat => (v / 10 ^ Z.of_nat i, off + Z.of_nat i)).
  replace (v, off) with (f 0%nat) by (unfold f; rewrite Z.div_1_r; f_equal; lia).
  assert (forall i : nat, Z.of_nat i < d - 16 -> (cMaxValue <? v / 10 ^ Z.of_nat i) = true) as Hc.
  { intros i Hi. apply Z.ltb_lt. unfold cMaxValue.
    destruct (digits_div d v (Z.of_nat i)) as [HL _]; [done|lia|].
    assert (10 ^ 16 <= 10 ^ (d - 1 - Z.of_nat i)) by (apply Z.pow_le_mono_r; lia). lia. }
  assert (forall i : nat, (Z.of_nat i < d - 16) -> off + Z.of_nat i < cMaxOffset ->
     (if cMaxOffset <=? off + Z.of_nat i then Throw (runtime_error "value overflow")
      else Ok (v / 10 ^ Z.of_nat i / 10, off + Z.of_nat i + 1)) = Ok (f (S i))) as Hb.
  { intros i Hi Ho. rewrite (proj2 (Z.leb_gt _ _)) by done. unfold f.
    rewrite div_div10 by lia. replace (Z.of_nat (S i)) with (Z.of_nat i + 1) by lia.
    by rewrite Z.add_assoc. }
  destruct (Z.ltb_spec cMaxOffset (off + d - 16)).
  - (* the first pass with no room throws *)
    apply (while_r_throw _ f _ (Z.to_nat (Z.max 0 (cMaxOffset - off)))); [|by apply Hc; lia| |lia].
    + intros i Hi. split; [by apply Hc; lia|]. apply Hb; lia.
    + unfold f. by rewrite (proj2 (Z.leb_le _ _)) by lia.
  - rewrite (while_r_count _ f _ (Z.to_nat (d - 16))); [|intros i Hi| |lia].
    + unfold f. rewrite Z2Nat.id by lia. do 2 f_equal. lia.
    + split; [by apply Hc; lia|]. apply Hb; lia.
    + unfold f. rewrite Z2Nat.id by lia. apply Z.ltb_ge. unfold cMaxValue.
      destruct (digits_div d v (d - 16)) as [_ HU]; [done|lia|].
      replace (d - (d - 16)) with 16 in HU by lia. lia.
Qed.

(** The sixteen leading digits of a [d]-digit mantissa. *)
Definition mantissa16 (d v : Z) : Z := if d <=? 16 then v * 10 ^ (16 - d) else v / 10 ^ (d - 16).

Lemma mantissa16_range d v : digits d v -> cMinValue <= mantissa16 d v <= cMaxValue.
Proof.
  intros Hv. unfold mantissa16, cMinValue, cMaxValue. pose proof (proj1 Hv).
  destruct (Z.leb_spec d 16).
  - destruct (digits_mul d v (16 - d)); [done|lia|].
    replace (d - 1 + (16 - d)) with 15 in * by lia. replace (d + (16 - d)) with 16 in * by lia. lia.
  - destruct (digits_div d v (d - 16)); [done|lia|].
    replace (d - 1 - (d - 16)) with 15 in * by lia. replace (d - (d - 16)) with 16 in * by lia. lia.
Qed.

(** [canonicalize] on a non-zero issued amount, in one step: with [d] digits
    and the exponent [e] that puts the point after sixteen of them, the amount
    overflows when [e] is above [cMaxOffset], vanishes when [e] is below
    [cMinOffset], and otherwise keeps its sixteen leading digits. *)
Definition canon_iou (d : Z) (cur iss : uint160) (v off : Z) (neg : bool) : result STAmount :=
  let e := off + d - 16 in
  if cMaxOffset <? e then Throw (runtime_error "value overflow")
  else if e <? cMinOffset then Ok (MkSTAmount cur iss 0 0 false false)
  else Ok (MkSTAmount cur iss (mantissa16 d v) e false neg).

Lemma canonicalize_iou d cur iss v off nat neg :
  isZero cur = false -> is_u64 v -> digits d v ->
  canonicalize (MkSTAmount cur iss v off nat neg) = canon_iou d cur iss v off neg.
Proof.
  intros Hcur Hu Hv. pose proof (digits_pos d v Hv). pose proof (digits_u64 d v Hv Hu).
  pose proof (mantissa16_range d v Hv) as HM. pose proof (proj1 Hv).
  unfold canonicalize, canon_iou. rewrite Hcur, (proj2 (Z.eqb_neq v 0)) by lia.
  destruct (decide (d <= 16)) as [Hd|Hd].
  - rewrite (iou_up_small d) by done.
    set (j := Z.min (16 - d) (Z.max 0 (off + 96))).
    assert (v * 10 ^ j <= cMaxValue).
    { destruct (digits_mul d v j) as [_ HU]; [done|lia|].
      assert (10 ^ (d + j) <= 10 ^ 16) by (apply Z.pow_le_mono_r; lia). unfold cMaxValue. lia. }
    rewrite iou_down_small by done. simpl. unfold cMinOffset, cMaxOffset in *.
    unfold mantissa16 in *. rewrite (proj2 (Z.leb_le d 16)) in * by done.
    destruct (decide (j = 16 - d)) as [E|E].
    + rewrite E. replace (off - (16 - d)) with (off + d - 16) by lia.
      rewrite (proj2 (Z.ltb_ge _ cMinValue)) by lia. rewrite orb_false_r.
      destruct (Z.ltb_spec (off + d - 16) (-96)), (Z.ltb_spec 80 (off + d - 16)); (lia || done).
    + assert (v * 10 ^ j < cMinValue \/ off - j < -96).
      { destruct (decide (off < -96)); [right; lia|left].
        destruct (digits_mul d v j) as [_ HU]; [done|lia|].
        assert (10 ^ (d + j) <= 10 ^ 15) by (apply Z.pow_le_mono_r; lia).
        unfold cMinValue. lia. }
      replace ((off - j <? -96) || (v * 10 ^ j <? cMinValue)) with true.
      2: { symmetry. apply orb_true_iff. rewrite !Z.ltb_lt. tauto. }
      simpl. rewrite (proj2 (Z.ltb_ge 80 _)), (proj2 (Z.ltb_lt _ (-96))) by lia. done.
  - rewrite (iou_up_large d), (iou_down_large d) by (done || lia).
    unfold cMaxOffset, cMinOffset. destruct (Z.ltb_spec 80 (off + d - 16)); [done|]. simpl.
    unfold mantissa16 in *. rewrite (proj2 (Z.leb_gt d 16)) in * by lia.
    rewrite (proj2 (Z.ltb_ge _ cMinValue)), orb_false_r by lia.
    by destruct (Z.ltb_spec (off + d - 16) (-96)); [|rewrite (proj2 (Z.ltb_ge 80 _)) by lia].
Qed.

(** On a non-zero native amount: the value scaled to offset zero, with the
    multiplication's wrap-around at [2^64]. *)
Definition native_value (v off : Z) : Z :=
  if off <=? 0 then v / 10 ^ (- off) else u64 (v * 10 ^ off).

Lemma native_loops v off :
  is_u64 v -> native_up (native_down (v, off)) = (native_value v off, 0).
Proof.
  intros Hv. unfold native_value. destruct (Z.leb_spec off 0).
  - assert (native_down (v, off) = (v / 10 ^ (- off), 0)) as ->.
    { unfold native_down.
      set (f := fun i : nat => (v / 10 ^ Z.of_nat i, off + Z.of_nat i)).
      replace (v, off) with (f 0%nat) by (unfold f; rewrite Z.div_1_r; f_equal; lia).
      simpl snd. rewrite (while_count _ f _ (Z.to_nat (- off))); [|intros i Hi| |lia].
      - unfold f. rewrite Z2Nat.id by lia. f_equal. lia.
      - unfold f. split; [apply Z.ltb_lt; lia|]. rewrite div_div10 by lia.
        replace (Z.of_nat (S i)) with (Z.of_nat i + 1) by lia. by rewrite Z.add_assoc.
      - unfold f. apply Z.ltb_ge. lia. }
    by apply while_false.
  - assert (native_down (v, off) = (v, off)) as -> by (apply while_false, Z.ltb_ge; lia).
    unfold native_up.
    set (f := fun i : nat => (u64 (v * 10 ^ Z.of_nat i), off - Z.of_nat i)).
    replace (v, off) with (f 0%nat).
    2: { unfold f. rewrite Z.mul_1_r, uwrap_id by done. f_equal. lia. }
    simpl snd. rewrite Z.sub_0_r.
    rewrite (while_count _ f _ (Z.to_nat off)); [|intros i Hi| |lia].
    + unfold f. rewrite Z2Nat.id by lia. f_equal. lia.
    + unfold f. split; [apply Z.ltb_lt; lia|].
      rewrite Nat2Z.inj_succ, Z.pow_succ_r by lia. unfold uwrap.
      rewrite Z.mul_mod_idemp_l by done. f_equal; [f_equal; lia|lia].
    + unfold f. apply Z.ltb_ge. lia.
Qed.

Lemma canonicalize_native cur iss v off nat neg :
  isZero cur = true -> is_u64 v -> v <> 0 ->
  canonicalize (MkSTAmount cur iss v off nat neg) =
    if cMaxNative <? native_value v off
    then Throw (runtime_error "Native currency amount out of range")
    else Ok (MkSTAmount cur iss (native_value v off) 0 true neg).
Proof.
  intros Hcur Hu Hv. unfold canonicalize.
  by rewrite Hcur, (proj2 (Z.eqb_neq v 0)), native_loops by done.
Qed.

Lemma canonicalize_cases (cur iss : uint160) (v off : Z) (nat neg : bool) :
  is_u64 v ->
  let a := MkSTAmount cur iss v off nat neg in
  (v = 0 -> canonicalize a =
     Ok (MkSTAmount cur iss 0 (if isZero cur then 0 else -100) (isZero cur) false)) /\
  (v <> 0 -> isZero cur = true -> canonicalize a =
     if cMaxNative <? native_value v off
     then Throw (runtime_error "Native currency amount out of range")
     else Ok (MkSTAmount cur iss (native_value v off) 0 true neg)) /\
  (v <> 0 -> isZero cur = false -> exists d, digits d v /\
     canonicalize a = canon_iou d cur iss v off neg).
Proof.
  intros Hu a. split_and!.
  - intros ->. unfold a, canonicalize. by destruct (isZero cur).
  - intros. by apply canonicalize_native.
  - intros Hv Hc. destruct (digits_exist v) as [d Hd]; [unfold in_u in Hu; lia|].
    exists d. split; [done|]. by apply canonicalize_iou.
Qed.

(** C2: [STAmount::canonicalize] in closed form, for every 64-bit mantissa and
    every offset.  A native amount is scaled to offset zero (truncating when the
    offset is negative, wrapping at [2^64] when it is positive) and rejected
    above [cMaxNative]; an issued amount of [d] digits overflows, underflows to
    zero, or keeps its sixteen leading digits, according to the exponent
    [off + d - 16].  The loops always end. *)
Theorem canonicalize_closed_form (cur iss : uint160) (v off : Z) (nat neg : bool) :
  is_u64 v ->
  let a := MkSTAmount cur iss v off nat neg in
  (v = 0 -> canonicalize a =
     Ok (MkSTAmount cur iss 0 (if isZero cur then 0 else -100) (isZero cur) false)) /\
  (v <> 0 -> isZero cur = true -> canonicalize a =
     if cMaxNative <? native_value v off
     then Throw (runtime_error "Native currency amount out of range")
     else Ok (MkSTAmount cur iss (native_value v off) 0 true neg)) /\
  (v <> 0 -> isZero cur = false -> exists d, digits d v /\
     canonicalize a = canon_iou d cur iss v off neg).
Proof. exact (canonicalize_cases cur iss v off nat neg). Qed.

Lemma canonicalize_closed_form_witness :
  canonicalize (MkSTAmount u160_zero u160_zero 123456 (-3) false false) =
    Ok (MkSTAmount u160_zero u160_zero 123 0 true false) /\
  exists d, digits d 31 /\
    canonicalize (MkSTAmount u160_one u160_one 31 1 false false) =
    canon_iou d u160_one u160_one 31 1 false.
Proof.
  split.
  - destruct (canonicalize_closed_form u160_zero u160_zero 123456 (-3) false false)
      as (_ & H & _); [by_decide|]. rewrite H; [by vm_compute|lia|by vm_compute].
  - apply (canonicalize_closed_form u160_one u160_one 31 1 false false);
      [by_decide|lia|by vm_compute].
Defined.

(** ** The representation invariant *)

(** What the class promises of a stored amount. *)
Definition canonical (a : STAmount) : Prop :=
  wf W160 (mCurrency a) /\ wf W160 (mIssuer a) /\ mIsNative a = isZero (mCurrency a) /\
  if mIsNative a then mOffset a = 0 /\ 0 <= mValue a <= cMaxNative
  else
    (mValue a = 0 /\ mIsNegative a = false /\ (mOffset a = -100 \/ mOffset a = 0)) \/
    (cMinValue <= mValue a <= cMaxValue /\ cMinOffset <= mOffset a <= cMaxOffset).

#[export] Instance canonical_dec a : Decision (canonical a).
Proof. unfold canonical. destruct (mIsNative a); apply _. Defined.

Lemma canonical_u64 a : canonical a -> is_u64 (mValue a).
Proof.
  intros (_ & _ & _ & H). unfold in_u.
  destruct (mIsNative a); unfold cMaxNative, cMinValue, cMaxValue in H; lia.
Qed.

Lemma native_value_nonneg v off : is_u64 v -> 0 <= native_value v off.
Proof.
  intros [Hv _]. unfold native_value. destruct (Z.leb_spec off 0).
  - apply Z.div_pos; [done|]. apply pow10_pos. lia.
  - by apply (uwrap_range 64).
Qed.

Lemma canonicalize_canonical a b :
  is_u64 (mValue a) -> wf W160 (mCurrency a) -> wf W160 (mIssuer a) ->
  canonicalize a = Ok b ->
  canonical b /\ mCurrency b = mCurrency a /\ mIssuer b = mIssuer a.
Proof.
  destruct a as [cur iss v off nat neg]. cbn [mValue mCurrency mIssuer]. intros Hu Hcur Hiss.
  destruct (canonicalize_cases cur iss v off nat neg Hu) as (H0 & H1 & H2).
  destruct (decide (v = 0)) as [Hv|Hv].
  - rewrite H0 by done. intros [= <-]. unfold canonical. cbn. split; [|done].
    split_and!; [done..|]. destruct (isZero cur); unfold cMaxNative; auto with lia.
  - destruct (isZero cur) eqn:Hc.
    + rewrite H1 by done. case_match; intros [= <-]. bool_cases. split; [|done].
      pose proof (native_value_nonneg v off Hu). by split_and!; cbn; auto with lia.
    + destruct (H2 Hv eq_refl) as (d & Hd & ->). unfold canon_iou.
      destruct (Z.ltb_spec cMaxOffset (off + d - 16)); [done|].
      destruct (Z.ltb_spec (off + d - 16) cMinOffset); intros [= <-];
        (split; [|done]); (split_and!; cbn; [done..|]).
      * left. auto.
      * right. pose proof (mantissa16_range d v Hd). lia.
Qed.

(** A canonical issued amount has sixteen digits. *)
Lemma canonical_digits v : cMinValue <= v <= cMaxValue -> digits 16 v.
Proof. intros. split; [lia|]. unfold cMinValue, cMaxValue in *. simpl. lia. Qed.

(** [canonicalize] establishes the representation invariant whenever it
    returns, keeps currency and issuer, and leaves alone an amount that already
    satisfies the invariant (an underflowed zero excepted, whose offset 0 becomes -100). *)
Theorem canonicalize_invariant (a b : STAmount) :
  is_u64 (mValue a) -> wf W160 (mCurrency a) -> wf W160 (mIssuer a) ->
  (canonicalize a = Ok b ->
   canonical b /\ mCurrency b = mCurrency a /\ mIssuer b = mIssuer a) /\
  (canonical a -> mValue a <> 0 -> canonicalize a = Ok a).
Proof.
  intros Hu Hc Hi. split; [by apply canonicalize_canonical|].
  destruct a as [cur iss v off nat neg]. intros (_ & _ & E & H) Hv.
  cbn [mCurrency mIssuer mValue mOffset mIsNative mIsNegative] in *. subst nat.
  destruct (canonicalize_cases cur iss v off (isZero cur) neg Hu) as (_ & H1 & _).
  destruct (isZero cur) eqn:Ec.
  - destruct H as [-> Hr]. rewrite H1 by done. unfold native_value. simpl.
    rewrite Z.div_1_r. by rewrite (proj2 (Z.ltb_ge _ _)) by lia.
  - destruct H as [(-> & _)|[Hm Ho]]; [done|].
    rewrite (canonicalize_iou 16) by (done || by apply canonical_digits).
    unfold canon_iou. replace (off + 16 - 16) with off by lia.
    rewrite (proj2 (Z.ltb_ge _ off)), (proj2 (Z.ltb_ge off _)) by lia.
    unfold mantissa16. simpl. by rewrite Z.mul_1_r.
Qed.

Lemma canonicalize_invariant_witness :
  canonical (MkSTAmount u160_one u160_one 3100000000000000 (-13) false false).
Proof.
  apply (canonicalize_invariant (MkSTAmount u160_one u160_one 31 1 false false));
    [by_decide|by_decide|by_decide|by vm_compute].
Defined.

(** ** The numbers amounts denote, and their order *)

(** The denoted number in units of [10^-100], the smallest a stored offset can
    express: [+-mValue * 10^mOffset] scaled to an integer. *)
Definition val (a : STAmount) : Z :=
  (if mIsNegative a then -1 else 1) * (mValue a * 10 ^ (mOffset a + 100)).

(** Zero carries no sign. *)
Definition unsigned_zero (a : STAmount) : Prop := mValue a = 0 -> mIsNegative a = false.

#[export] Instance unsigned_zero_dec a : Decision (unsigned_zero a).
Proof. unfold unsigned_zero. apply _. Defined.

Lemma canonical_offset a : canonical a -> 0 <= mOffset a + 100.
Proof.
  intros (_ & _ & _ & H). unfold cMinOffset in H. destruct (mIsNative a); lia.
Qed.

(** What the comparison needs of two amounts of one currency: magnitudes are
    ordered by offset first, value second. *)
Lemma magnitude_lt v1 v2 o1 o2 :
  cMinValue <= v1 <= cMaxValue -> cMinValue <= v2 <= cMaxValue -> 0 <= o1 < o2 ->
  v1 * 10 ^ o1 < v2 * 10 ^ o2.
Proof.
  intros H1 H2 Ho. unfold cMinValue, cMaxValue in *.
  replace o2 with (o1 + 1 + (o2 - o1 - 1)) by lia. rewrite pow10_add, pow10_succ by lia.
  pose proof (pow10_pos o1 ltac:(lia)) as P1. pose proof (pow10_pos (o2 - o1 - 1) ltac:(lia)) as P2.
  apply Z.lt_le_trans with (10 * v2 * 10 ^ o1); [apply Z.mul_lt_mono_pos_r; lia|].
  replace (v2 * (10 * 10 ^ o1 * 10 ^ (o2 - o1 - 1)))
    with (10 * v2 * 10 ^ o1 * 10 ^ (o2 - o1 - 1)) by ring.
  rewrite <- (Z.mul_1_r (10 * v2 * 10 ^ o1)) at 1. apply Z.mul_le_mono_nonneg_l; [|lia].
  apply Z.mul_nonneg_nonneg; lia.
Qed.

Lemma isComparable_native a b : isComparable a b = true -> mIsNative a = mIsNative b.
Proof. unfold isComparable. by destruct (mIsNative a), (mIsNative b). Qed.

(** The magnitudes of two non-zero comparable amounts compare lexicographically. *)
Lemma magnitude_cmp a b :
  canonical a -> canonical b -> isComparable a b = true -> mValue a <> 0 -> mValue b <> 0 ->
  mOffset a < mOffset b ->
  mValue a * 10 ^ (mOffset a + 100) < mValue b * 10 ^ (mOffset b + 100).
Proof.
  intros Ha Hb Hc H1 H2 Ho. pose proof (canonical_offset a Ha).
  apply isComparable_native in Hc. destruct Ha as (_ & _ & _ & Ha), Hb as (_ & _ & _ & Hb).
  rewrite <- Hc in Hb. destruct (mIsNative a); [lia|].
  apply magnitude_lt; lia.
Qed.

Lemma compare_val a b :
  canonical a -> canonical b -> unsigned_zero a -> unsigned_zero b -> isComparable a b = true ->
  compare a b = Z.sgn (val a - val b).
Proof.
  intros Ha Hb Za Zb Hc.
  assert (isComparable b a = true) as Hc'.
  { revert Hc. unfold isComparable. destruct (mIsNative a), (mIsNative b); try done.
    destruct Ha as (? & _), Hb as (? & _).
    rewrite (BaseUint.eqb_spec W160), (BaseUint.eqb_spec W160) by done. done. }
  pose proof (magnitude_cmp a b Ha Hb Hc) as M1. pose proof (magnitude_cmp b a Hb Ha Hc') as M2.
  pose proof (canonical_u64 a Ha) as [Ra _]. pose proof (canonical_u64 b Hb) as [Rb _].
  pose proof (pow10_pos _ (canonical_offset a Ha)) as Pa.
  pose proof (pow10_pos _ (canonical_offset b Hb)) as Pb.
  unfold compare, val, unsigned_zero in *.
  destruct (mIsNegative a), (mIsNegative b); cbn [Bool.eqb negb];
  destruct (Z.eqb_spec (mValue a) 0) as [Ea|Ea]; try (specialize (Za Ea); done);
  destruct (Z.eqb_spec (mValue b) 0) as [Eb|Eb]; try (specialize (Zb Eb); done);
  cbn [negb]; try (symmetry; first [apply Z.sgn_neg; nia | apply Z.sgn_pos; nia | apply Z.sgn_null; nia]);
  specialize (M1 Ea Eb); specialize (M2 Eb Ea);
  (destruct (Z.ltb_spec (mOffset b) (mOffset a));
   [specialize (M2 ltac:(done)); symmetry; first [apply Z.sgn_neg; lia | apply Z.sgn_pos; lia]|]);
  (destruct (Z.ltb_spec (mOffset a) (mOffset b));
   [specialize (M1 ltac:(done)); symmetry; first [apply Z.sgn_neg; lia | apply Z.sgn_pos; lia]|]);
  (replace (mOffset b) with (mOffset a) in * by lia);
  (destruct (Z.ltb_spec (mValue b) (mValue a));
   [symmetry; first [apply Z.sgn_neg; nia | apply Z.sgn_pos; nia]|]);
  (destruct (Z.ltb_spec (mValue a) (mValue b));
   [symmetry; first [apply Z.sgn_neg; nia | apply Z.sgn_pos; nia]|]);
  (replace (mValue b) with (mValue a) in * by lia); by rewrite Z.sub_diag.
Qed.

(** C25: on canonical amounts of one currency (no signed zero), [STAmount::compare]
    is the order of the denoted numbers, and so are the four ordering operators;
    on incomparable amounts each of them throws. *)
Theorem compare_is_order (a b : STAmount) :
  canonical a -> canonical b -> unsigned_zero a -> unsigned_zero b ->
  (isComparable a b = true ->
     compare a b = Z.sgn (val a - val b) /\
     ltb a b = Ok (val a <? val b) /\ leb a b = Ok (val a <=? val b) /\
     gtb a b = Ok (val b <? val a) /\ geb a b = Ok (val b <=? val a)) /\
  (isComparable a b = false ->
     let e := Throw (runtime_error "amounts are not comparable") in
     ltb a b = e /\ leb a b = e /\ gtb a b = e /\ geb a b = e).
Proof.
  intros Ha Hb Za Zb. unfold ltb, leb, gtb, geb, throwComparable. split; intros Hc; rewrite Hc.
  - rewrite (compare_val a b) by done. cbn [negb mbind result_bind mret result_ret].
    destruct (Z.sgn_spec (val a - val b)) as [[H ->]|[[H ->]|[H ->]]];
      split_and!; try done; f_equal; symmetry;
      first [apply Z.ltb_lt; lia | apply Z.leb_le; lia | apply Z.ltb_ge; lia | apply Z.leb_gt; lia].
  - done.
Qed.

Lemma compare_is_order_witness :
  let a := MkSTAmount u160_one u160_one 3100000000000000 (-13) false true in
  let b := MkSTAmount u160_one u160_one 1000000000000000 (-12) false false in
  compare a b = -1 /\ ltb a b = Ok true.
Proof.
  intros a b. destruct (compare_is_order a b) as [H _]; [by_decide..|].
  destruct H as (H1 & H2 & _); [by vm_compute|]. rewrite H1, H2. by split; vm_compute.
Defined.


(** ** Sums *)

Lemma align_spec vv ov target :
  let k := Z.max 0 (target - ov) in
  align vv ov target = (Z.quot vv (10 ^ k), ov + k).
Proof.
  intros k. unfold align. set (f := fun i : nat => (Z.quot vv (10 ^ Z.of_nat i), ov + Z.of_nat i)).
  replace (vv, ov) with (f 0%nat) by (unfold f; rewrite Z.quot_1_r; f_equal; lia).
  rewrite (while_count _ f _ (Z.to_nat k)); [|intros i Hi| |lia].
  - unfold f. by rewrite Z2Nat.id by lia.
  - unfold f. split; [apply Z.ltb_lt; lia|]. pose proof (pow10_pos (Z.of_nat i) ltac:(lia)).
    rewrite Z.quot_quot by lia. f_equal; [|lia]. f_equal.
    rewrite Nat2Z.inj_succ, Z.pow_succ_r by lia. ring.
  - unfold f. apply Z.ltb_ge. lia.
Qed.

(** Dropping [k] digits of a signed mantissa loses less than a unit of the new last place. *)
Lemma quot_pow_err m k :
  0 <= k -> Z.abs (m - Z.quot m (10 ^ k) * 10 ^ k) < 10 ^ k /\ Z.abs (Z.quot m (10 ^ k)) <= Z.abs m.
Proof.
  intros Hk. pose proof (pow10_pos k Hk). pose proof (Z.quot_rem' m (10 ^ k)).
  pose proof (Z.rem_bound_abs m (10 ^ k)). split; [lia|].
  rewrite <- Z.quot_abs, (Z.abs_eq (10 ^ k)) by lia. apply Z.quot_le_upper_bound; nia.
Qed.

(** A non-zero issued amount, as the sums see it. *)
Lemma iou_nonzero a :
  canonical a -> mIsNative a = false -> mValue a <> 0 ->
  cMinValue <= mValue a <= cMaxValue /\ cMinOffset <= mOffset a <= cMaxOffset /\
  isZero (mCurrency a) = false /\
  signed_value a = (if mIsNegative a then -1 else 1) * mValue a /\
  val a = signed_value a * 10 ^ (mOffset a + 100).
Proof.
  intros (_ & _ & HN & H) Hnat Hv. rewrite Hnat in *.
  destruct H as [(? & _)|[Hm Ho]]; [done|]. split_and!; try done; try lia.
  all: assert (signed_value a = (if mIsNegative a then -1 else 1) * mValue a) as E by
    (unfold signed_value; unfold cMinValue, cMaxValue in *; rewrite (i64_id (mValue a)) by lia;
     destruct (mIsNegative a); [rewrite i64_id by lia; lia|lia]).
  - done.
  - rewrite E. unfold val. ring.
Qed.

(** Away from zero, [mk_sum] canonicalizes the magnitude with the sign of [fv]. *)
Lemma mk_sum_canon d v1 fv ov :
  isZero (mCurrency v1) = false -> 10 < Z.abs fv <= 2 * cMaxValue -> digits d (Z.abs fv) ->
  mk_sum v1 fv ov = canon_iou d (mCurrency v1) (mIssuer v1) (Z.abs fv) ov (fv <? 0).
Proof.
  intros Hc Hf Hd. unfold cMaxValue in Hf. unfold mk_sum, mk_iou.
  destruct (Z.leb_spec (-10) fv), (Z.leb_spec fv 10); try lia; cbn [andb];
  destruct (Z.leb_spec 0 fv); try lia.
  - rewrite Z.abs_eq in * by lia. rewrite u64_id, (proj2 (Z.ltb_ge fv 0)) by lia.
    apply canonicalize_iou; [done| |done]. unfold in_u. lia.
  - rewrite Z.abs_neq in * by lia. rewrite i64_id, u64_id, (proj2 (Z.ltb_lt fv 0)) by lia.
    apply canonicalize_iou; [done| |done]. unfold in_u. lia.
Qed.

(** [canon_iou] on at most seventeen digits is exact up to the seventeenth
    digit and to underflow; it throws only when the magnitude does not fit. *)
Lemma canon_iou_err d cur iss v ov neg :
  digits d v -> d <= 17 -> cMinOffset <= ov <= cMaxOffset ->
  (exists c, canon_iou d cur iss v ov neg = Ok c /\ mCurrency c = cur /\ mIssuer c = iss /\
    (Z.abs (val c - (if neg then -1 else 1) * v * 10 ^ (ov + 100)) <= 10 * 10 ^ (ov + 100) \/
     mValue c = 0 /\ v * 10 ^ (ov + 100) < 10 ^ 19)) \/
  (canon_iou d cur iss v ov neg = Throw (runtime_error "value overflow") /\
   ov = cMaxOffset /\ cMaxValue < v).
Proof.
  intros Hd H17 Ho. unfold cMaxValue, cMinOffset, cMaxOffset in *.
  pose proof (pow10_pos (ov + 100) ltac:(lia)) as HP. unfold canon_iou, cMinOffset, cMaxOffset.
  destruct Hd as [Hd1 Hd]. destruct (Z.ltb_spec 80 (ov + d - 16)).
  { right. assert (d = 17) as -> by lia. split_and!; [done|lia|simpl in Hd; lia]. }
  left. destruct (Z.ltb_spec (ov + d - 16) (-96)); eexists; (split_and!; [done..|]).
  - right. split; [done|].
    apply Z.lt_le_trans with (10 ^ d * 10 ^ (ov + 100)); [apply Z.mul_lt_mono_pos_r; lia|].
    rewrite <- pow10_add by lia. apply Z.pow_le_mono_r; lia.
  - left. unfold val, mantissa16; cbn [mValue mIsNegative mOffset].
    destruct (Z.leb_spec d 16).
    + replace (ov + 100) with (16 - d + (ov + d - 16 + 100)) by lia.
      rewrite (pow10_add (16 - d)) by lia. pose proof (pow10_pos (ov + d - 16 + 100) ltac:(lia)).
      pose proof (pow10_pos (16 - d) ltac:(lia)).
      match goal with |- Z.abs ?x <= _ => replace x with 0 by ring end. simpl. nia.
    + assert (d = 17) as -> by lia. replace (ov + 17 - 16 + 100) with (ov + 100 + 1) by lia.
      rewrite pow10_succ by lia. change (10 ^ (17 - 16)) with 10.
      pose proof (Z.div_mod v 10 ltac:(lia)). pose proof (Z.mod_pos_bound v 10 ltac:(lia)).
      match goal with |- Z.abs ?x <= _ =>
        replace x with ((if neg then 1 else -1) * (v mod 10) * 10 ^ (ov + 100)) end.
      * rewrite Z.abs_mul, (Z.abs_eq (10 ^ _)) by lia.
        apply Z.mul_le_mono_nonneg_r; [lia|]. destruct neg; lia.
      * rewrite (Z.div_mod v 10) at 3 by lia. destruct neg; ring.
Qed.

Lemma mk_sum_spec v1 fv ov :
  isZero (mCurrency v1) = false -> Z.abs fv <= 2 * cMaxValue -> cMinOffset <= ov <= cMaxOffset ->
  (exists c, mk_sum v1 fv ov = Ok c /\ mCurrency c = mCurrency v1 /\ mIssuer c = mIssuer v1 /\
    (Z.abs (val c - fv * 10 ^ (ov + 100)) <= 10 * 10 ^ (ov + 100) \/
     mValue c = 0 /\ Z.abs fv * 10 ^ (ov + 100) < 10 ^ 19)) \/
  (mk_sum v1 fv ov = Throw (runtime_error "value overflow") /\
   ov = cMaxOffset /\ cMaxValue < Z.abs fv).
Proof.
  intros Hc Hf Ho. destruct (decide (Z.abs fv <= 10)) as [H10|H10].
  - left. exists (MkSTAmount (mCurrency v1) (mIssuer v1) 0 (-100) false false).
    pose proof (pow10_pos (ov + 100) ltac:(unfold cMinOffset in *; lia)).
    unfold mk_sum. rewrite (proj2 (Z.leb_le _ _)), (proj2 (Z.leb_le fv _)) by lia.
    unfold mk_zero, mk_iou, canonicalize. rewrite Hc. split_and!; [done..|].
    left. unfold val; cbn. nia.
  - destruct (digits_exist (Z.abs fv) ltac:(lia)) as [d Hd].
    assert (d <= 17).
    { destruct (decide (d <= 17)); [done|]. destruct Hd as [_ [Hd _]].
      assert (10 ^ 17 <= 10 ^ (d - 1)) by (apply Z.pow_le_mono_r; lia). unfold cMaxValue in *. lia. }
    rewrite (mk_sum_canon d) by (done || lia).
    destruct (canon_iou_err d (mCurrency v1) (mIssuer v1) (Z.abs fv) ov (fv <? 0))
      as [(c & Hok & H1 & H2 & H3)|Hthrow]; [done..| |by right].
    left. exists c. split_and!; [done..|].
    replace ((if fv <? 0 then -1 else 1) * Z.abs fv) with fv in H3; [done|].
    destruct (Z.ltb_spec fv 0); lia.
Qed.

(** The exact sum of the mantissas aligned to [ov], against the denoted numbers. *)
Lemma align_err a b sg :
  canonical a -> canonical b -> mIsNative a = false -> mIsNative b = false ->
  mValue a <> 0 -> mValue b <> 0 -> Z.abs sg = 1 ->
  let ov := Z.max (mOffset a) (mOffset b) in
  let vv1 := fst (align (signed_value a) (mOffset a) (mOffset b)) in
  let vv2 := fst (align (signed_value b) (mOffset b) ov) in
  snd (align (signed_value a) (mOffset a) (mOffset b)) = ov /\
  Z.abs (vv1 + sg * vv2) <= 2 * cMaxValue /\ cMinOffset <= ov <= cMaxOffset /\
  Z.abs (val a + sg * val b - (vv1 + sg * vv2) * 10 ^ (ov + 100)) < 10 ^ (ov + 100).
Proof.
  intros Ha Hb Na Nb Za Zb Hsg ov.
  destruct (iou_nonzero a Ha Na Za) as (Ma & Oa & _ & Sa & Va).
  destruct (iou_nonzero b Hb Nb Zb) as (Mb & Ob & _ & Sb & Vb).
  unfold cMinValue, cMaxValue, cMinOffset, cMaxOffset in *.
  assert (Z.abs (signed_value a) <= 9999999999999999) by (destruct (mIsNegative a); lia).
  assert (Z.abs (signed_value b) <= 9999999999999999) by (destruct (mIsNegative b); lia).
  rewrite !align_spec. cbn [fst snd].
  pose proof (quot_pow_err (signed_value a) (Z.max 0 (mOffset b - mOffset a)) ltac:(lia)) as [E1 B1].
  pose proof (quot_pow_err (signed_value b) (Z.max 0 (ov - mOffset b)) ltac:(lia)) as [E2 B2].
  split_and!; [lia|destruct sg as [|[]|[]]; lia|lia|lia|].
  rewrite Va, Vb. unfold ov in *. destruct (Z.max_spec (mOffset a) (mOffset b)) as [[HO HM]|[HO HM]];
    rewrite HM in *; clear HM.
  - rewrite Z.sub_diag in *. rewrite Z.max_id, Z.quot_1_r in *.
    rewrite (Z.max_r 0) in * by lia.
    replace (mOffset b + 100) with (mOffset b - mOffset a + (mOffset a + 100)) by lia.
    rewrite (pow10_add (mOffset b - mOffset a)) by lia. pose proof (pow10_pos (mOffset a + 100) ltac:(lia)).
    match goal with |- Z.abs ?x < _ => replace x with ((signed_value a - signed_value a ÷ 10 ^ (mOffset b - mOffset a) *
       10 ^ (mOffset b - mOffset a)) * 10 ^ (mOffset a + 100)) by ring end.
    rewrite Z.abs_mul, (Z.abs_eq (10 ^ (mOffset a + 100))) by lia. by apply Z.mul_lt_mono_pos_r.
  - rewrite (Z.max_l 0 (mOffset b - mOffset a)), Z.quot_1_r in * by lia.
    rewrite (Z.max_r 0) in * by lia.
    replace (mOffset a + 100) with (mOffset a - mOffset b + (mOffset b + 100)) by lia.
    rewrite (pow10_add (mOffset a - mOffset b)) by lia. pose proof (pow10_pos (mOffset b + 100) ltac:(lia)).
    match goal with |- Z.abs ?x < _ => replace x with (sg * (signed_value b - signed_value b ÷ 10 ^ (mOffset a - mOffset b) *
       10 ^ (mOffset a - mOffset b)) * 10 ^ (mOffset b + 100)) by ring end.
    rewrite !Z.abs_mul, Hsg, (Z.abs_eq (10 ^ (mOffset b + 100))) by lia. rewrite Z.mul_1_l.
    by apply Z.mul_lt_mono_pos_r.
Qed.

Lemma mk_iou_canonical cur iss v off neg c :
  is_u64 v -> wf W160 cur -> wf W160 iss -> mk_iou cur iss v off neg = Ok c ->
  canonical c /\ mCurrency c = cur /\ mIssuer c = iss.
Proof. intros. by apply (canonicalize_canonical (MkSTAmount cur iss v off false neg) c). Qed.

Lemma mk_sum_canonical v1 fv ov c :
  canonical v1 -> mk_sum v1 fv ov = Ok c -> canonical c.
Proof.
  intros (Hc & Hi & _). unfold mk_sum, mk_zero.
  repeat case_match; intros Hm; apply mk_iou_canonical in Hm; try tauto;
    first [by apply (uwrap_range 64) | by_decide].
Qed.

Lemma is_zero_spec a : is_zero a = (mValue a =? 0).
Proof. unfold is_zero, signum. by destruct (mValue a =? 0), (mIsNegative a). Qed.

Lemma sum_err a b sg :
  canonical a -> canonical b -> mIsNative a = false -> mIsNative b = false ->
  mValue a <> 0 -> mValue b <> 0 -> Z.abs sg = 1 ->
  let ov := Z.max (mOffset a) (mOffset b) in
  let '(vv1, ov1) := align (signed_value a) (mOffset a) (mOffset b) in
  let '(vv2, _) := align (signed_value b) (mOffset b) ov1 in
  let r := mk_sum a (i64 (vv1 + sg * vv2)) ov1 in
  let exact := val a + sg * val b in
  (exists c, r = Ok c /\ canonical c /\ mCurrency c = mCurrency a /\ mIssuer c = mIssuer a /\
     (Z.abs (val c - exact) < 11 * 10 ^ (ov + 100) \/ mValue c = 0 /\ Z.abs exact < 2 * 10 ^ 19)) \/
  (r = Throw (runtime_error "value overflow") /\
   cMaxValue * 10 ^ (cMaxOffset + 100) < Z.abs exact).
Proof.
  intros Ha Hb Na Nb Za Zb Hsg ov.
  destruct (align_err a b sg Ha Hb Na Nb Za Zb Hsg) as (Hov & Hf & Ho & He). fold ov in Hov, Hf, Ho, He.
  destruct (align (signed_value a) (mOffset a) (mOffset b)) as [vv1 ov1]. cbn [fst snd] in *.
  subst ov1. destruct (align (signed_value b) (mOffset b) ov) as [vv2 ov2]. cbn [fst] in *.
  cbv zeta. set (exact := val a + sg * val b) in *. rewrite i64_id by (unfold cMaxValue in *; lia).
  assert (0 <= ov + 100) as Hpos by (unfold cMinOffset in *; lia).
  pose proof (pow10_pos (ov + 100) Hpos).
  destruct (iou_nonzero a Ha Na Za) as (_ & _ & Hcur & _).
  destruct (mk_sum_spec a (vv1 + sg * vv2) ov Hcur Hf Ho)
    as [(c & Hok & Hc1 & Hc2 & Hc3)|(Hth & Ht1 & Ht2)]; [left|right].
  - exists c. split_and!; [done|exact (mk_sum_canonical _ _ _ _ Ha Hok)|done..|].
    destruct Hc3 as [Hc3|[Hz Hc3]]; [left; lia|].
    destruct (decide (vv1 + sg * vv2 = 0)) as [E|E].
    + left. rewrite E in *. unfold val at 1. rewrite Hz. lia.
    + right. split; [done|]. nia.
  - split; [done|]. rewrite Ht1 in *.
    set (P := 10 ^ (cMaxOffset + 100)) in *. nia.
Qed.

(** What a sum or difference [r] of the left operand [a] must be, given the exact
    result: near it, zero when it is too small, or an overflow when it is too large. *)
Definition sum_near (a : STAmount) (ulp : Z) (r : result STAmount) (exact : Z) : Prop :=
  (exists c, r = Ok c /\ canonical c /\ mCurrency c = mCurrency a /\ mIssuer c = mIssuer a /\
     (Z.abs (val c - exact) < 11 * ulp \/ mValue c = 0 /\ Z.abs exact < 2 * 10 ^ 19)) \/
  (r = Throw (runtime_error "value overflow") /\
   cMaxValue * 10 ^ (cMaxOffset + 100) < Z.abs exact).

Lemma sum_same a ulp exact : canonical a -> 0 < ulp -> val a = exact -> sum_near a ulp (Ok a) exact.
Proof. intros Ha Hu <-. left. exists a. split_and!; try done. left. lia. Qed.

(** Adding to zero. *)
Lemma add_to_zero a b ulp : canonical a -> canonical b -> isComparable a b = true -> mIsNative a = false ->
  mValue a = 0 -> mValue b <> 0 -> 0 < ulp -> sum_near a ulp (add a b) (val a + val b).
Proof.
  intros Ha Hb Hc Na Za Zb Hu. pose proof (isComparable_native a b Hc) as Nb. rewrite Na in Nb. symmetry in Nb.
  destruct (iou_nonzero b Hb Nb Zb) as (Mb & Ob & _). pose proof Ha as (Wa & Wi & Ea & _). rewrite Na in Ea.
  unfold add, throwComparable. rewrite Hc, !is_zero_spec, (proj2 (Z.eqb_neq _ _) Zb), (proj2 (Z.eqb_eq _ _) Za). cbn [negb mbind result_bind].
  set (c := MkSTAmount (mCurrency a) (mIssuer a) (mValue b) (mOffset b) false (mIsNegative b)).
  assert (Hcc : canonical c) by (split_and!; [done..|cbn; by right]).
  assert (mk_iou (mCurrency a) (mIssuer a) (mValue b) (mOffset b) (mIsNegative b) = Ok c) as ->.
  { apply (canonicalize_invariant c c); [by apply canonical_u64|done..]. }
  left. exists c. split_and!; try done. left. unfold val. cbn. rewrite Za. lia.
Qed.

(** Subtracting from a zero that was made as such. *)
Lemma sub_from_zero a b : canonical a -> canonical b -> isComparable a b = true -> mIsNative a = false ->
  mValue a = 0 -> mOffset a = -100 -> mValue b <> 0 -> sum_near a (10 ^ (Z.max (mOffset a) (mOffset b) + 100)) (sub a b) (val a - val b).
Proof.
  intros Ha Hb Hc Na Za Oa Zb. pose proof (isComparable_native a b Hc) as Nb. rewrite Na in Nb. symmetry in Nb.
  destruct (iou_nonzero b Hb Nb Zb) as (Mb & Ob & _ & Sb & Vb). pose proof Ha as (Wa & Wi & Ea & _). rewrite Na in Ea. symmetry in Ea.
  unfold sub, throwComparable. rewrite Hc, !is_zero_spec, (proj2 (Z.eqb_neq _ _) Zb), Nb. cbn [negb mbind result_bind].
  assert (Hs : signed_value a = 0) by (unfold signed_value; rewrite Za; by destruct (mIsNegative a)).
  unfold cMinOffset, cMaxOffset, cMinValue, cMaxValue in *. rewrite align_spec, Hs, Z.quot_0_l by (pose proof (pow10_pos (Z.max 0 (mOffset b - mOffset a)) ltac:(lia)); lia).
  rewrite align_spec, Oa. rewrite !Z.max_r by lia. replace (-100 + (mOffset b - -100)) with (mOffset b) by lia. rewrite Z.sub_diag. change (10 ^ 0) with 1. rewrite Z.quot_1_r.
  assert (Hab : Z.abs (signed_value b) <= 9999999999999999) by (destruct (mIsNegative b); lia). rewrite i64_id by lia.
  assert (val a = 0) as -> by (unfold val; rewrite Za; lia).
  destruct (mk_sum_spec a (0 - signed_value b) (mOffset b) Ea) as [(c & Hok & H1 & H2 & H3)|(_ & _ & H3)]; [unfold cMaxValue; lia|unfold cMinOffset, cMaxOffset; lia| |unfold cMaxValue in *; lia].
  left. exists c. split_and!; [done|exact (mk_sum_canonical _ _ _ _ Ha Hok)|done|done|]. rewrite Vb. pose proof (pow10_pos (mOffset b + 100) ltac:(lia)).
  destruct H3 as [H3|[H3 H4]]; [left; lia|right; split; [done|lia]].
Qed.

(** C23: the sum and the difference of two issued amounts of one currency.  The result
    is canonical, keeps the left operand's currency and issuer, and differs from the
    exact result by less than 11 units of the last place of the larger operand, or it
    is zero and the exact result was below [2 * 10^-81].  The only failure is an
    overflow, reported only when the exact result is beyond the largest representable
    amount: no other error, and no 64-bit wrap-around, can occur.  Either operand may
    be zero, but for a difference from the zero an underflow leaves, whose offset is
    not that of other zeros ([underflow_zero_offset]). *)
Theorem iou_sum_error (a b : STAmount) :
  canonical a -> canonical b -> isComparable a b = true -> mIsNative a = false ->
  let ulp := 10 ^ (Z.max (mOffset a) (mOffset b) + 100) in
  sum_near a ulp (add a b) (val a + val b) /\
  ((mValue a = 0 -> mOffset a = -100) -> sum_near a ulp (sub a b) (val a - val b)).
Proof.
  intros Ha Hb Hc Na ulp. pose proof (isComparable_native a b Hc) as Nb. rewrite Na in Nb. symmetry in Nb.
  assert (Hulp : 0 < ulp).
  { apply pow10_pos. destruct Ha as (_ & _ & _ & Ha). rewrite Na in Ha. unfold cMinOffset in Ha. lia. }
  destruct (decide (mValue b = 0)) as [Zb|Zb].
  { assert (Hv : val b = 0) by (unfold val; rewrite Zb; lia).
    unfold add, sub, throwComparable. rewrite Hc, !is_zero_spec, (proj2 (Z.eqb_eq _ _) Zb). cbn [negb mbind result_bind].
    split; [|intros _]; apply sum_same; (done || lia). }
  destruct (decide (mValue a = 0)) as [Za|Za]; [split; [by apply add_to_zero|intros Oa; by apply sub_from_zero; [..|apply Oa|]]|].
  apply Z.eqb_neq in Za as Za', Zb as Zb'. unfold add, sub, throwComparable. rewrite Hc, !is_zero_spec, Za', Zb', Na, Nb. cbn [negb mbind result_bind].
  split; [|intros _].
  - pose proof (sum_err a b 1 Ha Hb Na Nb Za Zb eq_refl) as H. repeat case_match. by rewrite !Z.mul_1_l in H.
  - pose proof (sum_err a b (-1) Ha Hb Na Nb Za Zb eq_refl) as H.
    assert (forall x y, x + -1 * y = x - y) as E by lia. repeat case_match. by rewrite !E in H.
Qed.

Lemma iou_sum_error_witness :
  let a := MkSTAmount u160_one u160_one 1234567890123456 3 false false in
  let b := MkSTAmount u160_one u160_one 9999999999999999 0 false true in
  let zero := MkSTAmount u160_one u160_one 0 (-100) false false in
  Forall (fun r => exists c, r = Ok c /\ canonical c) [add a b; sub a b; sub zero b].
Proof.
  intros a b zero. destruct (iou_sum_error a b) as [Hadd Hsub]; [by_decide|by_decide|by vm_compute|done|].
  destruct (iou_sum_error zero b) as [_ Hz]; [by_decide|by_decide|by vm_compute|done|]. specialize (Hsub ltac:(done)). specialize (Hz ltac:(done)).
  repeat (apply Forall_cons_2; [|]); [..|constructor].
  - destruct Hadd as [(c & ? & ? & _)|[E _]]; [by exists c|by vm_compute in E].
  - destruct Hsub as [(c & ? & ? & _)|[E _]]; [by exists c|by vm_compute in E].
  - destruct Hz as [(c & ? & ? & _)|[E _]]; [by exists c|by vm_compute in E].
Defined.

(** The signed count of a native amount. *)
Definition drops (a : STAmount) : Z := (if mIsNegative a then -1 else 1) * mValue a.

Lemma getSNValue_drops a :
  mIsNative a = true -> 0 <= mValue a <= cMaxNative -> getSNValue a = Ok (drops a).
Proof.
  intros Hn Hv. unfold getSNValue, drops, cMaxNative in *. rewrite Hn.
  destruct (mIsNegative a); cbn; rewrite ?(i64_id (mValue a)), ?i64_id by lia; f_equal; lia.
Qed.

(** Both constructors from a signed count. *)
Lemma mk_native_i64_spec n :
  Z.abs n <= cMaxNative ->
  mk_native_i64 n = MkSTAmount u160_zero u160_zero (Z.abs n) 0 true (n <? 0) /\
  createFromInt64 n = MkSTAmount u160_zero u160_zero (Z.abs n) 0 true (n <? 0).
Proof.
  intros H. unfold cMaxNative in H.
  unfold mk_native_i64, createFromInt64, set_i64, mk_native_field.
  destruct (Z.ltb_spec n 0), (Z.leb_spec 0 n); try lia.
  - by rewrite i64_id, u64_id, Z.abs_neq by lia.
  - by rewrite u64_id, Z.abs_eq by lia.
Qed.

Lemma wf_u160_zero : wf W160 u160_zero.
Proof. by_decide. Qed.

Lemma mk_native_i64_canonical n :
  Z.abs n <= cMaxNative ->
  let c := MkSTAmount u160_zero u160_zero (Z.abs n) 0 true (n <? 0) in
  canonical c /\ unsigned_zero c /\ drops c = n.
Proof.
  intros H c. split_and!.
  - split_and!; [apply wf_u160_zero..|done|cbn; lia].
  - unfold unsigned_zero; cbn. intros. apply Z.ltb_ge. lia.
  - unfold drops; cbn. destruct (Z.ltb_spec n 0); lia.
Qed.

(** The native branches of the two operators, zero operands included. *)
Lemma native_sum a b :
  canonical a -> canonical b -> mIsNative a = true -> mIsNative b = true ->
  isLegalNet a = true -> isLegalNet b = true -> unsigned_zero a -> unsigned_zero b ->
  (exists c, add a b = Ok c /\ canonical c /\ unsigned_zero c /\ drops c = drops a + drops b) /\
  (exists c, sub a b = Ok c /\ canonical c /\ unsigned_zero c /\ drops c = drops a - drops b).
Proof.
  intros Ha Hb Na Nb La Lb Ua Ub.
  pose proof Ha as (wa & wi & Ca & Ra). pose proof Hb as (_ & _ & _ & Rb). rewrite Na in Ra, Ca. rewrite Nb in Rb.
  unfold isLegalNet in La, Lb. rewrite Na in La. rewrite Nb in Lb. cbn in La, Lb.
  apply Z.leb_le in La, Lb. unfold cMaxNativeN in *.
  assert (Z.abs (drops a) <= 100000000000000000 /\ Z.abs (drops b) <= 100000000000000000) as [Da Db].
  { unfold drops. destruct (mIsNegative a), (mIsNegative b); lia. }
  unfold add, sub, throwComparable, isComparable. rewrite Na, Nb. cbn [negb mbind result_bind].
  rewrite !is_zero_spec, !getSNValue_drops by (done || lia). cbn [mret result_ret mbind result_bind].
  rewrite !i64_id by lia.
  destruct (mk_native_i64_spec (drops a + drops b)) as [-> _]; [unfold cMaxNative; lia|].
  destruct (mk_native_i64_spec (drops a - drops b)) as [_ ->]; [unfold cMaxNative; lia|].
  pose proof (mk_native_i64_canonical (drops a + drops b) ltac:(unfold cMaxNative; lia)).
  pose proof (mk_native_i64_canonical (drops a - drops b) ltac:(unfold cMaxNative; lia)).
  destruct (Z.eqb_spec (mValue b) 0) as [Eb|Eb].
  { assert (drops b = 0) as -> by (unfold drops; rewrite Eb; lia).
    split; exists a; split_and!; (done || lia). }
  split; [|by eauto]. destruct (Z.eqb_spec (mValue a) 0) as [Ea|Ea]; [|by eauto].
  assert (drops a = 0) as -> by (unfold drops; rewrite Ea; lia).
  unfold mk_iou. rewrite (canonicalize_native _ _ (mValue b) (mOffset b)) by (done || by apply canonical_u64).
  destruct Rb as [-> Rb]. unfold native_value. simpl. rewrite Z.div_1_r, (proj2 (Z.ltb_ge _ _)) by lia.
  eexists. split; [done|]. split_and!; try done; cbn; lia.
Qed.

(** Sums and differences of native amounts that exist on the network
    ([isLegalNet]: at most [cMaxNativeN] millionths) are exact, canonical and
    never carry a signed zero: the 64-bit arithmetic cannot overflow. *)
Theorem native_sum_exact (a b : STAmount) :
  canonical a -> canonical b -> mIsNative a = true -> mIsNative b = true ->
  isLegalNet a = true -> isLegalNet b = true -> unsigned_zero a -> unsigned_zero b ->
  (exists c, add a b = Ok c /\ canonical c /\ unsigned_zero c /\ drops c = drops a + drops b) /\
  (exists c, sub a b = Ok c /\ canonical c /\ unsigned_zero c /\ drops c = drops a - drops b).
Proof. exact (native_sum a b). Qed.

Lemma native_sum_exact_witness :
  exists c, sub (mk_native 5 false) (mk_native 100000000000000000 false) = Ok c /\
    canonical c /\ unsigned_zero c /\ drops c = -99999999999999995.
Proof.
  apply (native_sum_exact (mk_native 5 false) (mk_native 100000000000000000 false));
    (done || by_decide).
Defined.

(** Subtracting from a zero that [canonicalize] made by underflow loses the
    other operand.  Such a zero has offset 0 where every other issued zero has
    offset -100, and the difference aligns the right operand to it: [0 - 1.5]
    is then [0], while it is [-1.5] from a zero built as such; the two zeros
    also differ for [operator==]. *)
Lemma underflow_zero_offset :
  let tiny := MkSTAmount u160_one u160_one 1 (-200) false false in
  let three_halves := MkSTAmount u160_one u160_one 1500000000000000 (-15) false false in
  exists z z' zero_result, canonicalize tiny = Ok z /\ mk_zero u160_one u160_one = Ok z' /\
    val z = val z' /\ eqb z z' = false /\
    sub z' three_halves = Ok (opp three_halves) /\
    sub z three_halves = Ok zero_result /\ mValue zero_result = 0.
Proof.
  exists (MkSTAmount u160_one u160_one 0 0 false false).
  exists (MkSTAmount u160_one u160_one 0 (-100) false false).
  exists (MkSTAmount u160_one u160_one 0 (-100) false false).
  split_and!; by vm_compute.
Qed.


(** ** The wire format *)

(** The 64-bit header word of an amount, as arithmetic: bit 63 marks an issued
    amount, bit 62 a non-negative one, bits 54 to 61 hold [mOffset + 97]. *)
Definition wire_word (a : STAmount) : Z :=
  let sign := if mIsNegative a then 0 else 1 in
  if mIsNative a then sign * 2 ^ 62 + mValue a
  else if mValue a =? 0 then 2 ^ 63
  else (512 + 256 * sign + (mOffset a + 97)) * 2 ^ 54 + mValue a.

Definition wire_bytes (a : STAmount) : Blob :=
  be_split 8 (wire_word a) ++
  (if mIsNative a then [] else to_bytes (mCurrency a) ++ to_bytes (mIssuer a)).

(** The amounts the format can carry. *)
Definition wire_ok (a : STAmount) : Prop :=
  canonical a /\
  if mIsNative a then
    mCurrency a = u160_zero /\ mIssuer a = u160_zero /\ mValue a < 2 ^ 62 /\ unsigned_zero a
  else mValue a = 0 -> mOffset a = -100.

#[export] Instance wire_ok_dec a : Decision (wire_ok a).
Proof. unfold wire_ok. destruct (mIsNative a); apply _. Defined.

Lemma serialize_bytes a s : wire_ok a -> serialize a s = s ++ wire_bytes a.
Proof.
  intros [(_ & _ & _ & HC) HW]. unfold serialize, wire_bytes, wire_word, add_uint.
  destruct (mIsNative a).
  - destruct HW as (_ & _ & HV & _). rewrite app_nil_r.
    destruct (mIsNegative a); cbn [negb]; rewrite add64_split; [done|]. cbn [snd].
    change cPosNative with (1 * 2 ^ 62). by rewrite lor_add_disjoint by lia.
  - rewrite is_zero_spec. cbn [snd]. rewrite !app_assoc.
    f_equal. f_equal.
    destruct (Z.eqb_spec (mValue a) 0) as [E|E]; [by rewrite add64_split|].
    unfold cMinValue, cMaxValue, cMinOffset, cMaxOffset in HC.
    destruct (mIsNegative a); rewrite add64_split; cbn [snd]; do 2 f_equal;
      rewrite (u64_id (_ + 97)), Z.shiftl_mul_pow2, u64_id, lor_add_disjoint by lia;
      do 2 f_equal; lia.
Qed.

Lemma wire_word_u64 a : wire_ok a -> is_u64 (wire_word a).
Proof.
  intros [(_ & _ & _ & HC) HW]. unfold wire_word, in_u.
  unfold cMinValue, cMaxValue, cMinOffset, cMaxOffset in HC.
  destruct (mIsNative a), (mIsNegative a), (Z.eqb_spec (mValue a) 0); lia.
Qed.

(** What [construct] computes from the header word, by the format's fields. *)
Lemma word_fields w :
  is_u64 w ->
  (Z.land w cNotNative =? 0) = (w <? 2 ^ 63) /\
  (w < 2 ^ 63 -> (Z.land w cPosNative =? 0) = (w <? 2 ^ 62) /\
                 Z.land w (u64 (Z.lnot cPosNative)) = w mod 2 ^ 62) /\
  Z.shiftr w 54 = w / 2 ^ 54 /\ Z.land w (u64 (Z.lnot (Z.shiftl 1023 54))) = w mod 2 ^ 54.
Proof.
  intros Hw. unfold in_u in Hw. change cNotNative with (2 ^ 63). change cPosNative with (2 ^ 62).
  split_and!.
  - rewrite land_top by lia. by destruct (w <? 2 ^ 63).
  - intros Hlt. split; [rewrite land_top by lia; by destruct (w <? 2 ^ 62)|].
    change (u64 (Z.lnot (2 ^ 62))) with (Z.lor (2 ^ 63) (2 ^ 62 - 1)).
    rewrite Z.land_lor_distr_r, land_top, (land_mask w 62) by (done || lia).
    by rewrite (proj2 (Z.ltb_lt w _)).
  - by apply shiftr_div.
  - by apply (land_mask w 54).
Qed.

(** The exponent field: its low eight bits and the sign bit above them. *)
Lemma exponent_fields e :
  512 <= e < 1024 ->
  Z.land e 255 = (e - 512) mod 256 /\ (Z.land e 256 =? 0) = (e <? 768).
Proof.
  intros He. split.
  - rewrite land_255. replace e with (e - 512 + 2 * 256) at 1 by lia. by rewrite Z.mod_add by lia.
  - replace e with (1 * 2 ^ 9 + (e - 512)) at 1 by lia. rewrite land_low by lia.
    change 256 with (2 ^ 8) at 1. rewrite land_top by lia.
    by destruct (Z.ltb_spec (e - 512) (2 ^ 8)), (Z.ltb_spec e 768); try lia.
Qed.

(** [construct] on a header word [w] followed by what the word announces. *)
Lemma construct_native pre w post :
  is_u64 w -> w < 2 ^ 63 -> w <> 0 ->
  construct {| mSerializer := pre ++ be_split 8 w ++ post; mPos := length pre |} =
  Ok (mk_native_field (w mod 2 ^ 62) (w <? 2 ^ 62),
      {| mSerializer := pre ++ be_split 8 w ++ post; mPos := length pre + 8 |}).
Proof.
  intros Hw H63 H0. unfold construct, it_get64. cbn [mPos mSerializer].
  rewrite get64_app by done. cbn [it_read mbind result_bind at_pos mSerializer mPos].
  destruct (word_fields w Hw) as (E1 & E2 & _). destruct (E2 H63) as [E3 E4].
  rewrite E1, E3, E4, (proj2 (Z.ltb_lt w _) H63). cbn [negb].
  destruct (Z.ltb_spec w (2 ^ 62)); cbn [negb]; [|done].
  rewrite (proj2 (Z.eqb_neq w 0)) by done. rewrite Z.mod_small; [done|]. unfold in_u in Hw. lia.
Qed.

Lemma construct_iou pre w cur iss post :
  is_u64 w -> 2 ^ 63 <= w -> wf W160 cur -> wf W160 iss -> isZero cur = false ->
  let d := pre ++ be_split 8 w ++ to_bytes cur ++ to_bytes iss ++ post in
  construct {| mSerializer := d; mPos := length pre |} =
  let v := w mod 2 ^ 54 in
  let e := w / 2 ^ 54 in
  let off := (e - 512) mod 256 - 97 in
  if v =? 0 then
    if e =? 512 then Ok (MkSTAmount cur iss 0 (-100) false false, {| mSerializer := d; mPos := length pre + 48 |})
    else Throw (runtime_error "invalid currency value")
  else if (v <? cMinValue) || (cMaxValue <? v) || (off <? cMinOffset) || (cMaxOffset <? off)
  then Throw (runtime_error "invalid currency value")
  else Ok (MkSTAmount cur iss v off false (e <? 768), {| mSerializer := d; mPos := length pre + 48 |}).
Proof.
  intros Hw H63 Hc Hi H0 d. pose proof Hw as [Hw0 Hw1].
  assert (get64 (length pre) d = Some w) as E0 by (by apply get64_app).
  unfold construct, it_get64, it_get160, it_read, at_pos. cbn [mPos mSerializer].
  rewrite E0. cbn [mbind result_bind mSerializer mPos].
  destruct (word_fields w Hw) as (-> & _ & -> & ->).
  rewrite (proj2 (Z.ltb_ge w _) H63). cbn [mPos mSerializer].
  assert (get_uint W160 (length (pre ++ be_split 8 w)) d = Some cur) as E1.
  { unfold d. rewrite app_assoc. by apply get_uint_app. }
  assert (get_uint W160 (length ((pre ++ be_split 8 w) ++ to_bytes cur)) d = Some iss) as E2.
  { unfold d. rewrite !app_assoc, <- (app_assoc _ (to_bytes iss)). by apply get_uint_app. }
  replace (length pre + 8)%nat with (length (pre ++ be_split 8 w))
    by (by rewrite length_app, length_be_split).
  rewrite E1.
  cbn [it_read mbind result_bind at_pos mSerializer mPos]. rewrite H0.
  replace (length (pre ++ be_split 8 w) + 20)%nat with (length ((pre ++ be_split 8 w) ++ to_bytes cur)).
  2: { destruct Hc as [Hc _]. by rewrite (length_app _ (to_bytes cur)), length_to_bytes, Hc. }
  rewrite E2.
  cbn [it_read mbind result_bind at_pos mSerializer mPos].
  replace (length ((pre ++ be_split 8 w) ++ to_bytes cur) + 20)%nat with (length pre + 48)%nat.
  2: { destruct Hc as [Hc _]. rewrite !length_app, length_be_split, length_to_bytes, Hc. lia. }
  assert (512 <= w / 2 ^ 54 < 1024) as He.
  { split; [apply Z.div_le_lower_bound; lia|apply Z.div_lt_upper_bound; lia]. }
  destruct (exponent_fields _ He) as [-> ->].
  destruct (Z.eqb_spec (w mod 2 ^ 54) 0) as [Ev|Ev]; cbn [negb].
  - destruct (Z.eqb_spec (w / 2 ^ 54) 512); cbn [negb]; [|done].
    unfold mk_zero, mk_iou, canonicalize. by rewrite H0.
  - case_match eqn:Er; [done|]. bool_cases. unfold mk_iou.
    rewrite (canonicalize_iou 16); [|done| |by apply canonical_digits].
    2: { unfold in_u, cMaxValue in *. pose proof (Z.mod_pos_bound w (2 ^ 54)). lia. }
    unfold canon_iou. rewrite Z.add_simpl_r, !(proj2 (Z.ltb_ge _ _)) by lia.
    unfold mantissa16. simpl. by rewrite Z.mul_1_r.
Qed.


(** Reading what [serialize] wrote. *)
Lemma construct_wire_bytes a pre post :
  wire_ok a ->
  construct {| mSerializer := pre ++ wire_bytes a ++ post; mPos := length pre |} =
  Ok (a, {| mSerializer := pre ++ wire_bytes a ++ post;
            mPos := length pre + length (wire_bytes a) |}).
Proof.
  intros Ha. pose proof (wire_word_u64 a Ha) as Hw. unfold wire_bytes.
  rewrite (length_app (be_split 8 _)), length_be_split, <- !app_assoc.
  destruct Ha as [(Wc & Wi & HN & HC) HW].
  unfold cMinValue, cMaxValue, cMinOffset, cMaxOffset, unsigned_zero in *.
  destruct a as [cur iss v off nat neg]. cbn [mCurrency mIssuer mValue mOffset mIsNative mIsNegative] in *.
  destruct nat.
  - destruct HW as (-> & -> & HV & HU). destruct HC as [-> HC]. cbn [length app].
    assert (wire_word (MkSTAmount u160_zero u160_zero v 0 true neg) =
            (if neg then 0 else 1) * 2 ^ 62 + v) as E by done. rewrite E in *. clear E.
    rewrite construct_native; [|done|destruct neg; lia|].
    2: { destruct neg; [|lia]. destruct (decide (v = 0)); [|lia]. by specialize (HU e). }
    do 2 f_equal. unfold mk_native_field.
    rewrite Z.add_comm, Z.mod_add, Z.mod_small by lia. f_equal.
    destruct neg; [apply Z.ltb_lt|apply Z.ltb_ge]; lia.
  - rewrite <- app_assoc.
    assert (length (to_bytes cur ++ to_bytes iss) = 40%nat) as ->.
    { destruct Wc as [L1 _], Wi as [L2 _]. by rewrite length_app, !length_to_bytes, L1, L2. }
    unfold wire_word in *; cbn [mIsNative mValue mIsNegative mOffset] in *.
    destruct (Z.eqb_spec v 0) as [->|Ev].
    + rewrite construct_iou by done. cbv zeta. change (2 ^ 63 mod 2 ^ 54) with 0.
      change (2 ^ 63 / 2 ^ 54) with 512. simpl. rewrite HW by done.
      destruct HC as [(_ & -> & _)|]; [|lia]. done.
    + destruct HC as [(? & _)|[Hv Ho]]; [done|].
      set (s := 256 * (if neg then 0 else 1)) in *.
      assert (s = 256 /\ neg = false \/ s = 0 /\ neg = true) as Hs by (unfold s; destruct neg; auto).
      rewrite construct_iou by (done || lia). cbv zeta.
      rewrite (Z.add_comm _ v), Z.mod_add, Z.mod_small by lia.
      rewrite Z.div_add, Z.div_small by lia. rewrite Z.add_0_l.
      rewrite (proj2 (Z.eqb_neq v 0)) by done.
      assert ((512 + s + (off + 97) - 512) mod 256 = off + 97) as ->.
      { destruct Hs as [[-> _]|[-> _]]; [|rewrite Z.mod_small; lia].
        replace (512 + 256 + (off + 97) - 512) with (off + 97 + 1 * 256) by lia.
        rewrite Z.mod_add, Z.mod_small; lia. }
      rewrite Z.add_simpl_r. unfold cMinValue, cMaxValue, cMinOffset, cMaxOffset.
      rewrite !(proj2 (Z.ltb_ge _ _)) by lia. cbn [orb]. do 4 f_equal.
      destruct Hs as [[-> ->]|[-> ->]]; [apply Z.ltb_ge|apply Z.ltb_lt]; lia.
Qed.

(** Every native amount [construct] can return is one the format carries. *)
Lemma native_wire_ok w :
  is_u64 w -> w < 2 ^ 63 -> w <> 0 ->
  let a := mk_native_field (w mod 2 ^ 62) (w <? 2 ^ 62) in wire_ok a /\ wire_word a = w.
Proof.
  intros [H0 _] H1 H2 a. pose proof (Z.mod_pos_bound w (2 ^ 62) ltac:(lia)).
  pose proof (Z.div_mod w (2 ^ 62) ltac:(lia)) as E.
  assert (w / 2 ^ 62 = if w <? 2 ^ 62 then 0 else 1) as Q.
  { destruct (Z.ltb_spec w (2 ^ 62)); [by apply Z.div_small|].
    symmetry. apply Z.div_unique with (w - 2 ^ 62); lia. }
  split.
  - split.
    + refine (conj wf_u160_zero (conj wf_u160_zero (conj eq_refl _))).
      cbn. unfold cMaxNative. lia.
    + cbn. split_and!; [done..|lia|]. unfold unsigned_zero; cbn. intros E'.
      destruct (Z.ltb_spec w (2 ^ 62)); [|done]. lia.
  - unfold a, wire_word, mk_native_field; cbn [mIsNative mIsNegative mValue].
    destruct (w <? 2 ^ 62); lia.
Qed.

(** ... and so is every issued amount. *)
Lemma iou_wire_ok cur iss w :
  is_u64 w -> 2 ^ 63 <= w -> wf W160 cur -> wf W160 iss -> isZero cur = false ->
  let v := w mod 2 ^ 54 in
  let e := w / 2 ^ 54 in
  let off := (e - 512) mod 256 - 97 in
  (v = 0 -> e = 512 -> wire_ok (MkSTAmount cur iss 0 (-100) false false) /\ w = 2 ^ 63) /\
  (cMinValue <= v <= cMaxValue -> cMinOffset <= off <= cMaxOffset ->
   let a := MkSTAmount cur iss v off false (e <? 768) in wire_ok a /\ wire_word a = w).
Proof.
  intros [Hw0 Hw1] H63 Hc Hi H0 v e off.
  pose proof (Z.div_mod w (2 ^ 54) ltac:(lia)) as E. fold v e in E.
  assert (512 <= e < 1024) as He.
  { split; [apply Z.div_le_lower_bound; lia|apply Z.div_lt_upper_bound; lia]. }
  split.
  - intros Ev Ee. split; [|lia]. split; [|done].
    refine (conj Hc (conj Hi (conj (eq_sym H0) _))). by left; auto.
  - intros Hv Ho a. split.
    + split; [refine (conj Hc (conj Hi (conj (eq_sym H0) _))); by right|].
      cbn. unfold cMinValue in Hv. lia.
    + unfold a, wire_word; cbn [mIsNative mIsNegative mValue mOffset].
      unfold cMinValue in Hv. rewrite (proj2 (Z.eqb_neq v 0)) by lia.
      pose proof (Z.div_mod (e - 512) 256 ltac:(lia)) as E'.
      assert ((e - 512) / 256 = if e <? 768 then 0 else 1) as Q.
      { destruct (Z.ltb_spec e 768); [apply Z.div_small; lia|].
        symmetry. apply Z.div_unique with (e - 768); lia. }
      rewrite Q in E'. destruct (e <? 768); lia.
Qed.


(** The three reads of an issued amount that succeeded. *)
Lemma construct_iou_inv d p w r :
  Forall is_u8 d -> is_u64 w -> 2 ^ 63 <= w ->
  get64 p d = Some w -> construct {| mSerializer := d; mPos := p |} = Ok r ->
  exists pre cur iss post,
    d = pre ++ be_split 8 w ++ to_bytes cur ++ to_bytes iss ++ post /\ length pre = p /\
    wf W160 cur /\ wf W160 iss /\ isZero cur = false.
Proof.
  intros Hd Hw H63 Hg. destruct (get64_inv p d w Hd Hg) as (_ & pre & post0 & Ed & Hp).
  unfold construct, it_get64, it_get160, it_read, at_pos. cbn [mPos mSerializer]. rewrite Hg.
  cbn [mbind result_bind mSerializer mPos].
  destruct (word_fields w Hw) as (-> & _). rewrite (proj2 (Z.ltb_ge w _) H63).
  destruct (get_uint W160 (p + 8) d) as [cur|] eqn:E1; [|done].
  cbn [mbind result_bind mSerializer mPos]. destruct (isZero cur) eqn:H0; [done|].
  destruct (get_uint W160 (p + 8 + 20) d) as [iss|] eqn:E2; [|done]. intros _.
  apply get_uint_inv in E1 as (Wc & pre1 & post1 & Ed1 & Hp1); [|done].
  apply get_uint_inv in E2 as (Wi & pre2 & post2 & Ed2 & Hp2); [|done].
  exists pre, cur, iss, post2. split_and!; try done.
  rewrite Ed in Ed1. rewrite app_assoc in Ed1. apply app_inj_1 in Ed1 as [E3 E4].
  2: { rewrite length_app, length_be_split. lia. }
  rewrite Ed, E4 in Ed2. rewrite !app_assoc in Ed2. rewrite <- (app_assoc _ (to_bytes iss)) in Ed2.
  apply app_inj_1 in Ed2 as [E5 E6].
  2: { destruct Wc as [L _]. rewrite !length_app, length_be_split, length_to_bytes, L. lia. }
  by rewrite Ed, E4, E6.
Qed.

Lemma construct_inv d p a it :
  Forall is_u8 d -> construct {| mSerializer := d; mPos := p |} = Ok (a, it) ->
  wire_ok a /\ exists pre post, d = pre ++ wire_bytes a ++ post /\ length pre = p /\
    it = {| mSerializer := d; mPos := p + length (wire_bytes a) |}.
Proof.
  intros Hd Hc. destruct (get64 p d) as [w|] eqn:Hg.
  2: { revert Hc. unfold construct, it_get64. cbn [mPos mSerializer]. by rewrite Hg. }
  destruct (get64_inv p d w Hd Hg) as (Hw & pre & post & Ed & Hp).
  assert (forall b pre post, wire_ok b -> d = pre ++ wire_bytes b ++ post -> length pre = p -> a = b ->
    wire_ok a /\ exists pre post, d = pre ++ wire_bytes a ++ post /\ length pre = p /\
    it = {| mSerializer := d; mPos := p + length (wire_bytes a) |}) as Hend.
  { intros b pre' post' Hb Ed' Hp' ->. split; [done|]. exists pre', post'. split_and!; [done..|].
    pose proof (construct_wire_bytes b pre' post' Hb) as H. rewrite <- Ed', Hp', Hc in H. by injection H. }
  destruct (Z.ltb_spec w (2 ^ 63)) as [H63|H63].
  - destruct (decide (w = 0)) as [->|H0].
    { revert Hc. unfold construct, it_get64. cbn [mPos mSerializer]. by rewrite Hg. }
    destruct (native_wire_ok w Hw H63 H0) as [Hok Hword].
    apply (Hend _ pre post Hok); [|done|].
    + unfold wire_bytes. rewrite Hword. by rewrite app_nil_r.
    + rewrite Ed, <- Hp, construct_native in Hc by done. by injection Hc.
  - destruct (construct_iou_inv d p w _ Hd Hw H63 Hg Hc) as (pre' & cur & iss & post' & Ed' & Hp' & Wc & Wi & H0).
    destruct (iou_wire_ok cur iss w Hw H63 Wc Wi H0) as [Hz Hnz].
    assert (forall v off neg, let b := MkSTAmount cur iss v off false neg in
      wire_ok b -> wire_word b = w -> d = pre' ++ wire_bytes b ++ post') as Hd'.
    { intros v off neg b _ Hb. unfold wire_bytes, b in *. rewrite Hb, Ed'. cbn. by rewrite <- !app_assoc. }
    rewrite Ed', <- Hp', construct_iou in Hc by done. cbv zeta in Hc.
    destruct (Z.eqb_spec (w mod 2 ^ 54) 0) as [E|E].
    + destruct (Z.eqb_spec (w / 2 ^ 54) 512) as [E'|]; [|done].
      destruct (Hz E E') as [Hok Hword]. apply (Hend _ pre' post' Hok); [|done|by injection Hc].
      by apply Hd'; [|cbn].
    + case_match eqn:Er; [done|]. bool_cases.
      destruct Hnz as [Hok Hword]; [done..|]. apply (Hend _ pre' post' Hok); [|done|by injection Hc].
      by apply Hd'.
Qed.

(** The wire format of amounts.  [construct] reads back, at any position
    and whatever follows, exactly the amount [serialize] (the method [add])
    wrote, for every amount the format can carry, and stops right after it. *)
Theorem amount_wire_roundtrip (a : STAmount) (pre post : Blob) :
  wire_ok a ->
  construct {| mSerializer := serialize a pre ++ post; mPos := length pre |} =
  Ok (a, {| mSerializer := serialize a pre ++ post; mPos := length (serialize a pre) |}).
Proof.
  intros Ha. rewrite !serialize_bytes, <- app_assoc, length_app by done.
  by apply construct_wire_bytes.
Qed.

Lemma amount_wire_roundtrip_witness :
  let a := MkSTAmount u160_one u160_one 1234567890123456 (-20) false true in
  construct {| mSerializer := serialize a [7; 7] ++ [9]; mPos := 2 |} =
  Ok (a, {| mSerializer := serialize a [7; 7] ++ [9]; mPos := 50 |}).
Proof.
  intros a. refine (amount_wire_roundtrip a [7; 7] [9] _). by_decide.
Defined.

(** C17: the wire format is canonical.  Whatever bytes [construct] accepts, the
    amount it returns is a canonical one and serializes back to exactly the
    bytes consumed: no two encodings denote one amount, and a peer cannot
    introduce a non-canonical amount. *)
Theorem amount_wire_canonical (d : Blob) (p : nat) (a : STAmount) (it : SerializerIterator) :
  Forall is_u8 d -> construct {| mSerializer := d; mPos := p |} = Ok (a, it) ->
  wire_ok a /\ mSerializer it = d /\
  exists pre post, d = serialize a pre ++ post /\ length pre = p /\
    mPos it = length (serialize a pre).
Proof.
  intros Hd Hc. destruct (construct_inv d p a it Hd Hc) as (Hok & pre & post & Ed & Hp & ->).
  split_and!; [done..|]. exists pre, post.
  rewrite serialize_bytes, <- app_assoc, length_app by done. by subst p.
Qed.

Lemma amount_wire_canonical_witness :
  wire_ok (mk_native_field 5 false).
Proof.
  apply (amount_wire_canonical [64; 0; 0; 0; 0; 0; 0; 5] 0 (mk_native_field 5 false)
    {| mSerializer := [64; 0; 0; 0; 0; 0; 0; 5]; mPos := 8 |}); [by_decide|by vm_compute].
Defined.

(** Native amounts the constructors accept but the wire format cannot
    carry.  [setSNValue (0)] makes a negative zero, whose encoding [construct]
    rejects; and an amount of [2^62] millionths, within [cMaxNative], loses bit
    62 to the sign flag and reads back as zero. *)
Lemma native_wire_gaps :
  let a := mk_native 7 false in
  let b := mk_native (2 ^ 62) false in
  (exists z, sub_u64 a 7 = Ok z /\ mValue z = 0 /\ mIsNegative z = true /\
     construct {| mSerializer := serialize z []; mPos := 0 |} =
       Throw (runtime_error "negative zero is not canonical")) /\
  (canonical b /\ exists it, construct {| mSerializer := serialize b []; mPos := 0 |} =
     Ok (mk_native 0 false, it)).
Proof.
  intros a b. split.
  - exists (MkSTAmount u160_zero u160_zero 0 0 true true). split_and!; by vm_compute.
  - split; [by_decide|]. exists {| mSerializer := serialize b []; mPos := 8 |}. by vm_compute.
Qed.


End STAmount.
