(* ===== verification/STAmountMath.v ===== *)
(** * [STAmount]: products, quotients, rates and directed rounding

    Models the multiplicative part of
    [src/src/ripple_data/protocol/STAmount.cpp] ([divide], [multiply],
    [getRate], [setRate], [getPay]) and [STAmountRound.cpp].

    Intermediate products are OpenSSL [BIGNUM]s.  OpenSSL is not part of the
    repository: its five functions are the operations of the class [OpenSSL],
    and [OpenSSLSpec] states what its manual says of them (exact arithmetic,
    status 1 when memory is available, [BN_get_word] saturating at all ones).
    The theorems hold for every implementation that meets it; the witnesses
    use the instance [Z_bignum]. *)

From Stdlib Require Import ZArith Lia.
From S2P Require Import Prelude.
From S2P Require Import BaseUint.
From S2P Require Import Serializer.
From S2P Require Import STAmount.

Module STAmountMath.
Import BaseUint Serializer STAmount.

(** ** OpenSSL *)

Class OpenSSL := {
  BIGNUM : Type;
  BN_new : BIGNUM;
  BN_add_word : BIGNUM -> Z -> Z * BIGNUM;  (** status, updated number *)
  BN_mul_word : BIGNUM -> Z -> Z * BIGNUM;
  BN_div_word : BIGNUM -> Z -> Z * BIGNUM;  (** remainder or all ones, quotient *)
  BN_get_word : BIGNUM -> Z;
}.

Definition word_max : Z := 18446744073709551615.

(** The documented behaviour, for a number read as an integer by [bn_val]. *)
Class OpenSSLSpec (S : OpenSSL) := {
  bn_val : BIGNUM -> Z;
  bn_new_val : bn_val BN_new = 0;
  bn_add_spec a w : is_u64 w -> 0 <= bn_val a ->
    fst (BN_add_word a w) = 1 /\ bn_val (snd (BN_add_word a w)) = bn_val a + w;
  bn_mul_spec a w : is_u64 w -> 0 <= bn_val a ->
    fst (BN_mul_word a w) = 1 /\ bn_val (snd (BN_mul_word a w)) = bn_val a * w;
  bn_div_spec a w : 0 < w <= word_max -> 0 <= bn_val a ->
    fst (BN_div_word a w) = bn_val a mod w /\ bn_val (snd (BN_div_word a w)) = bn_val a / w;
  bn_get_spec a : 0 <= bn_val a -> BN_get_word a = Z.min (bn_val a) word_max;
  bn_word_u64 a : is_u64 (BN_get_word a);
}.

(** Unbounded integers as an implementation. *)
Definition Z_bignum : OpenSSL := {|
  BIGNUM := Z;
  BN_new := 0;
  BN_add_word a w := (1, a + w);
  BN_mul_word a w := (1, a * w);
  BN_div_word a w := (a mod w, a / w);
  BN_get_word a := Z.max 0 (Z.min a word_max);
|}.

#[export] Instance Z_bignum_spec : OpenSSLSpec Z_bignum.
Proof.
  refine {| bn_val := (fun a => a) : @BIGNUM Z_bignum -> Z |}; try done.
  - intros a Ha. apply Z.max_r. unfold word_max. lia.
  - intros a. unfold in_u. cbn. unfold word_max. lia.
Defined.

Definition tenTo14 : Z := 100000000000000.
Definition tenTo14m1 : Z := tenTo14 - 1.
Definition tenTo17 : Z := tenTo14 * 1000.

(** ** Shared steps *)

(** [while (value < cMinValue) { value *= 10; --offset; }], for a native operand. *)
Definition into_range (isNative : bool) (value offset : Z) : Z * Z :=
  if isNative then
    while 20 (fun '(v, _) => v <? cMinValue) (fun '(v, off) => (u64 (v * 10), off - 1)) (value, offset)
  else (value, offset).

Definition internal_bn_error {A} : result A := Throw (runtime_error "internal bn error").

(** A native product, guarded against overflow. *)
Definition multiply_native (v1 v2 : STAmount) : result STAmount :=
  sn1 ← getSNValue v1;
  sn2 ← getSNValue v2;
  let minV := u64 (if sn1 <? sn2 then sn1 else sn2) in
  let maxV := u64 (if sn1 <? sn2 then sn2 else sn1) in
  if 3000000000 <? minV then Throw (runtime_error "Native value overflow")
  else if 2095475792 <? u64 (Z.shiftr maxV 32 * minV)
  then Throw (runtime_error "Native value overflow")
  else mret (mk_native_field (u64 (minV * maxV)) false).

Section Operations.
Context {S : OpenSSL}.

Definition divide (num den : STAmount) (uCurrencyID uIssuerID : uint160) : result STAmount :=
  if is_zero den then Throw (runtime_error "division by zero")
  else if is_zero num then mk_zero uCurrencyID uIssuerID
  else
    let '(numVal, numOffset) := into_range (mIsNative num) (mValue num) (mOffset num) in
    let '(denVal, denOffset) := into_range (mIsNative den) (mValue den) (mOffset den) in
    let '(st1, v) := BN_add_word BN_new numVal in
    if negb (st1 =? 1) then internal_bn_error else
    let '(st2, v) := BN_mul_word v tenTo17 in
    if negb (st2 =? 1) then internal_bn_error else
    let '(rem, v) := BN_div_word v denVal in
    if rem =? word_max then internal_bn_error else
    mk_iou uCurrencyID uIssuerID (u64 (BN_get_word v + 5)) (numOffset - denOffset - 17)
      (negb (Bool.eqb (mIsNegative num) (mIsNegative den))).

Definition multiply (v1 v2 : STAmount) (uCurrencyID uIssuerID : uint160) : result STAmount :=
  if is_zero v1 || is_zero v2 then mk_zero uCurrencyID uIssuerID
  else if mIsNative v1 && mIsNative v2 && isZero uCurrencyID then multiply_native v1 v2
  else
    let '(value1, offset1) := into_range (mIsNative v1) (mValue v1) (mOffset v1) in
    let '(value2, offset2) := into_range (mIsNative v2) (mValue v2) (mOffset v2) in
    let '(st1, v) := BN_add_word BN_new value1 in
    if negb (st1 =? 1) then internal_bn_error else
    let '(st2, v) := BN_mul_word v value2 in
    if negb (st2 =? 1) then internal_bn_error else
    let '(rem, v) := BN_div_word v tenTo14 in
    if rem =? word_max then internal_bn_error else
    mk_iou uCurrencyID uIssuerID (u64 (BN_get_word v + 7)) (offset1 + offset2 + 14)
      (negb (Bool.eqb (mIsNegative v1) (mIsNegative v2))).

(** The quality of an offer, packed so that integers sort by rate. *)
Definition getRate (offerOut offerIn : STAmount) : Z :=
  if is_zero offerOut then 0
  else
    match divide offerIn offerOut u160_one u160_one with
    | Throw _ => 0
    | Ok r =>
        if is_zero r then 0
        else
          let ret := u64 (mOffset r + 100) in
          Z.lor (u64 (Z.shiftl ret (64 - 8))) (mValue r)
    end.

Definition setRate (rate : Z) : result STAmount :=
  if rate =? 0 then mk_zero u160_one u160_one
  else
    let mantissa := Z.land rate (u64 (Z.lnot (Z.shiftl 255 (64 - 8)))) in
    let exponent := i32 (Z.shiftr rate (64 - 8)) - 100 in
    mk_iou u160_one u160_one mantissa exponent false.

Definition getPay (offerOut offerIn needed : STAmount) : result STAmount :=
  if is_zero offerOut then mk_zero (mCurrency offerIn) (mIssuer offerIn)
  else
    full ← geb needed offerOut;
    if full : bool then mret needed
    else
      m ← multiply needed offerIn u160_one u160_one;
      ret ← divide m offerOut (mCurrency offerIn) (mIssuer offerIn);
      more ← gtb ret offerIn;
      mret (if more : bool then offerIn else ret).

End Operations.

(** ** Directed rounding *)

(** Rounds the magnitude up before [canonicalize] truncates it. *)
Definition canonicalizeRound (isNative : bool) (value offset : Z) (roundUp : bool) : Z * Z :=
  if negb roundUp then (value, offset)
  else if isNative then
    if offset <? 0 then
      let '(value, offset, loops) :=
        while (Z.to_nat (- offset)) (fun '(_, off, _) => off <? -1)
          (fun '(v, off, loops) => (v / 10, off + 1, loops + 1)) (value, offset, 0) in
      let value := u64 (value + (if 2 <=? loops then 9 else 10)) in
      (value / 10, offset + 1)
    else (value, offset)
  else if cMaxValue <? value then
    let '(value, offset) :=
      while 20 (fun '(v, _) => 10 * cMaxValue <? v) (fun '(v, off) => (v / 10, off + 1)) (value, offset) in
    let value := u64 (value + 9) in
    (value / 10, offset + 1)
  else (value, offset).

(** Aligning the mantissa [vv] at [ov] to the larger offset [target]. *)
Definition align_round (vv ov target : Z) (roundUp : bool) : Z * Z :=
  if ov <? target then
    let '(vv, ov) := align vv ov (target - 1) in
    let vv := if roundUp then i64 (vv + 9) else vv in
    (Z.quot vv 10, ov + 1)
  else (vv, ov).

(** The common tail of [addRound] and [subRound]. *)
Definition mk_sum_round (v1 : STAmount) (fv ov1 : Z) (roundUp : bool) : result STAmount :=
  if (-10 <=? fv) && (fv <=? 10) then mk_zero (mCurrency v1) (mIssuer v1)
  else if 0 <=? fv then
    let '(v, ov1) := canonicalizeRound false (u64 fv) ov1 roundUp in
    mk_iou (mCurrency v1) (mIssuer v1) v ov1 false
  else
    let '(v, ov1) := canonicalizeRound false (u64 (i64 (- fv))) ov1 (negb roundUp) in
    mk_iou (mCurrency v1) (mIssuer v1) v ov1 true.

Definition addRound (v1 v2 : STAmount) (roundUp : bool) : result STAmount :=
  _ ← throwComparable v1 v2;
  if mValue v2 =? 0 then mret v1
  else if mValue v1 =? 0 then
    mk_iou (mCurrency v1) (mIssuer v1) (mValue v2) (mOffset v2) (mIsNegative v2)
  else if mIsNative v1 then
    sn1 ← getSNValue v1; sn2 ← getSNValue v2; mret (mk_native_i64 (i64 (sn1 + sn2)))
  else
    let '(vv1, ov1) := align_round (signed_value v1) (mOffset v1) (mOffset v2) roundUp in
    let '(vv2, _) := align_round (signed_value v2) (mOffset v2) ov1 roundUp in
    mk_sum_round v1 (i64 (vv1 + vv2)) ov1 roundUp.

Definition subRound (v1 v2 : STAmount) (roundUp : bool) : result STAmount :=
  _ ← throwComparable v1 v2;
  if mValue v2 =? 0 then mret v1
  else if mValue v1 =? 0 then
    mk_iou (mCurrency v1) (mIssuer v1) (mValue v2) (mOffset v2) (negb (mIsNegative v2))
  else if mIsNative v1 then
    sn1 ← getSNValue v1; sn2 ← getSNValue v2; mret (mk_native_i64 (i64 (sn1 - sn2)))
  else
    let vv2 := i64 (mValue v2) in
    let vv2 := if negb (mIsNegative v2) then i64 (- vv2) else vv2 in
    let '(vv1, ov1) := align_round (signed_value v1) (mOffset v1) (mOffset v2) roundUp in
    let '(vv2, _) := align_round vv2 (mOffset v2) ov1 roundUp in
    mk_sum_round v1 (i64 (vv1 + vv2)) ov1 roundUp.

Section RoundOperations.
Context {S : OpenSSL}.

(** In both, the status of the rounding [BN_add_word64] is ignored. *)
Definition mulRound (v1 v2 : STAmount) (uCurrencyID uIssuerID : uint160) (roundUp : bool)
    : result STAmount :=
  if is_zero v1 || is_zero v2 then mk_zero uCurrencyID uIssuerID
  else if mIsNative v1 && mIsNative v2 && isZero uCurrencyID then multiply_native v1 v2
  else
    let '(value1, offset1) := into_range (mIsNative v1) (mValue v1) (mOffset v1) in
    let '(value2, offset2) := into_range (mIsNative v2) (mValue v2) (mOffset v2) in
    let resultNegative := negb (Bool.eqb (mIsNegative v1) (mIsNegative v2)) in
    let up := negb (Bool.eqb resultNegative roundUp) in
    let '(st1, v) := BN_add_word BN_new value1 in
    if negb (st1 =? 1) then internal_bn_error else
    let '(st2, v) := BN_mul_word v value2 in
    if negb (st2 =? 1) then internal_bn_error else
    let v := if up then snd (BN_add_word v tenTo14m1) else v in
    let '(rem, v) := BN_div_word v tenTo14 in
    if rem =? word_max then internal_bn_error else
    let '(amount, offset) :=
      canonicalizeRound (isZero uCurrencyID) (BN_get_word v) (offset1 + offset2 + 14) up in
    mk_iou uCurrencyID uIssuerID amount offset resultNegative.

Definition divRound (num den : STAmount) (uCurrencyID uIssuerID : uint160) (roundUp : bool)
    : result STAmount :=
  if is_zero den then Throw (runtime_error "division by zero")
  else if is_zero num then mk_zero uCurrencyID uIssuerID
  else
    let '(numVal, numOffset) := into_range (mIsNative num) (mValue num) (mOffset num) in
    let '(denVal, denOffset) := into_range (mIsNative den) (mValue den) (mOffset den) in
    let resultNegative := negb (Bool.eqb (mIsNegative num) (mIsNegative den)) in
    let up := negb (Bool.eqb resultNegative roundUp) in
    let '(st1, v) := BN_add_word BN_new numVal in
    if negb (st1 =? 1) then internal_bn_error else
    let '(st2, v) := BN_mul_word v tenTo17 in
    if negb (st2 =? 1) then internal_bn_error else
    let v := if up then snd (BN_add_word v (u64 (denVal - 1))) else v in
    let '(rem, v) := BN_div_word v denVal in
    if rem =? word_max then internal_bn_error else
    let '(amount, offset) :=
      canonicalizeRound (isZero uCurrencyID) (BN_get_word v) (numOffset - denOffset - 17) up in
    mk_iou uCurrencyID uIssuerID amount offset resultNegative.

End RoundOperations.

(** ** Checks on concrete inputs, from the unit tests *)

Example getRate_ex1 :
  getRate (S := Z_bignum) (mk_native 1 false) (mk_native 10 false) =
  Z.lor (Z.shiftl (100 - 14) 56) 1000000000000000.
Proof. by vm_compute. Qed.

Example getRate_ex2 :
  getRate (S := Z_bignum) (mk_native 10 false) (mk_native 1 false) =
  Z.lor (Z.shiftl (100 - 16) 56) 1000000000000000.
Proof. by vm_compute. Qed.

(** ** Operands *)

Lemma into_range_native v off :
  1 <= v <= cMaxNativeN ->
  exists m j, into_range true v off = (m, off - j) /\ 0 <= j <= 15 /\
    m = v * 10 ^ j /\ cMinValue <= m <= cMaxNativeN.
Proof.
  intros Hv. unfold cMaxNativeN, cMinValue in *.
  destruct (digits_exist v ltac:(lia)) as [d Hd]. pose proof (proj1 Hd).
  unfold into_range. destruct (Z.leb_spec d 15).
  - exists (v * 10 ^ (16 - d)), (16 - d).
    set (f := fun i : nat => (v * 10 ^ Z.of_nat i, off - Z.of_nat i)).
    replace (v, off) with (f 0%nat) by (unfold f; f_equal; lia).
    assert (forall i : nat, Z.of_nat i < 16 - d -> v * 10 ^ Z.of_nat i < 10 ^ 15) as Hlt.
    { intros i Hi. destruct (digits_mul d v (Z.of_nat i) Hd ltac:(lia)) as [_ HU].
      assert (10 ^ (d + Z.of_nat i) <= 10 ^ 15) by (apply Z.pow_le_mono_r; lia). lia. }
    destruct (digits_mul d v (16 - d) Hd ltac:(lia)) as [HL HU].
    replace (d - 1 + (16 - d)) with 15 in HL by lia. replace (d + (16 - d)) with 16 in HU by lia.
    rewrite (while_count _ f _ (Z.to_nat (16 - d))); [|intros i Hi| |lia].
    + unfold f. rewrite Z2Nat.id by lia. split_and!; try done; lia.
    + unfold f. specialize (Hlt i ltac:(lia)). pose proof (pow10_pos (Z.of_nat i) ltac:(lia)).
      split; [apply Z.ltb_lt; unfold cMinValue; lia|].
      rewrite Nat2Z.inj_succ, Z.pow_succ_r by lia. rewrite u64_id by nia. f_equal; lia.
    + unfold f. rewrite Z2Nat.id by lia. apply Z.ltb_ge. unfold cMinValue. lia.
  - exists v, 0. assert (10 ^ 15 <= 10 ^ (d - 1)) by (apply Z.pow_le_mono_r; lia).
    destruct Hd as [_ Hd].
    split_and!; try lia. rewrite Z.sub_0_r. apply while_false, Z.ltb_ge. unfold cMinValue. lia.
Qed.

(** What [multiply] and [divide] use of a non-zero amount: a mantissa of at
    least sixteen digits and its exponent, denoting the same number. *)
Lemma operand a :
  canonical a -> isLegalNet a = true -> mValue a <> 0 ->
  exists m o, into_range (mIsNative a) (mValue a) (mOffset a) = (m, o) /\
    cMinValue <= m <= (if mIsNative a then cMaxNativeN else cMaxValue) /\
    cMinOffset <= o <= cMaxOffset /\
    val a = (if mIsNegative a then -1 else 1) * (m * 10 ^ (o + 100)).
Proof.
  intros (_ & _ & _ & HC) HL Hv. unfold isLegalNet in HL. unfold val.
  destruct (mIsNative a); cbn [negb orb] in HL.
  - apply Z.leb_le in HL. destruct HC as [-> HC].
    destruct (into_range_native (mValue a) 0 ltac:(lia)) as (m & j & -> & Hj & -> & Hm).
    do 2 eexists. split_and!; [done|lia..|unfold cMinOffset; lia|unfold cMaxOffset; lia|].
    replace (0 + 100) with (j + (0 - j + 100)) by lia. rewrite (pow10_add j) by lia. ring.
  - destruct HC as [(? & _)|[Hm Ho]]; [done|]. do 2 eexists. split_and!; (done || lia).
Qed.

(** ** Building an amount from a rounded quotient *)

(** [q + r] for the floor [q] of [X / D], canonicalized: the sixteen leading
    digits stay within a unit of the last place of [X / D] (within [r + 1] units
    when nothing is cut off); otherwise the amount underflows or overflows, and
    then [X / D] is that small or that large. *)
Lemma quotient_iou cur iss X D r o neg :
  wf W160 cur -> wf W160 iss -> isZero cur = false -> 0 < D -> 1 <= r <= 9 ->
  let q := X / D in
  10 ^ 15 <= q -> q + r < 2 ^ 64 ->
  (exists c k, mk_iou cur iss (q + r) o neg = Ok c /\ canonical c /\
     mCurrency c = cur /\ mIssuer c = iss /\ mIsNegative c = neg /\ mOffset c = o + k /\
     0 <= k <= 4 /\ (10 ^ 16 <= q -> 1 <= k) /\
     Z.abs (mValue c * 10 ^ k * D - X) < Z.max (10 ^ k) (r + 1) * D) \/
  (exists c d, mk_iou cur iss (q + r) o neg = Ok c /\ canonical c /\
     mCurrency c = cur /\ mIssuer c = iss /\ mValue c = 0 /\
     0 <= d /\ o + d < -80 /\ X <= 10 ^ d * D) \/
  (mk_iou cur iss (q + r) o neg = Throw (runtime_error "value overflow") /\
   exists k, 0 <= k /\ cMaxOffset < o + k /\ (10 ^ 15 - r) * 10 ^ k * D <= X).
Proof.
  intros Wc Wi H0 HD Hr q Hq Hmax.
  pose proof (Z.div_mod X D ltac:(lia)) as HX. pose proof (Z.mod_pos_bound X D HD) as HM. fold q in HX.
  destruct (digits_exist (q + r) ltac:(lia)) as [d Hd].
  assert (is_u64 (q + r)) as Hu by (unfold in_u; lia).
  pose proof (digits_u64 d _ Hd Hu) as H20. pose proof Hd as [_ Hd'].
  assert (forall n, 0 <= n -> 10 ^ n <= q + r -> n + 1 <= d) as Hge.
  { intros n Hn Hle. destruct (decide (n + 1 <= d)); [done|].
    assert (10 ^ d <= 10 ^ n) by (apply Z.pow_le_mono_r; lia). lia. }
  pose proof (Hge 15 ltac:(lia) ltac:(lia)) as H16.
  pose proof (mantissa16_range d (q + r) Hd) as Hmr.
  set (k := d - 16) in *. assert (mantissa16 d (q + r) = (q + r) / 10 ^ k) as Em.
  { unfold mantissa16. destruct (Z.leb_spec d 16); [|done].
    unfold k. replace d with 16 by lia. by rewrite Z.div_1_r, Z.mul_1_r. }
  pose proof (pow10_pos k ltac:(lia)) as HK.
  pose proof (Z.div_mod (q + r) (10 ^ k) ltac:(lia)) as Hw.
  pose proof (Z.mod_pos_bound (q + r) (10 ^ k) HK) as Hwm.
  unfold mk_iou. rewrite (canonicalize_iou d) by done. unfold canon_iou.
  replace (o + d - 16) with (o + k) by lia.
  destruct (Z.ltb_spec cMaxOffset (o + k)); [right; right|].
  - split; [done|]. exists k. split_and!; [lia..|].
    assert (10 ^ (d - 1) = 10 ^ 15 * 10 ^ k) by (rewrite <- pow10_add by lia; f_equal; lia). nia.
  - destruct (Z.ltb_spec (o + k) cMinOffset); [right; left|left].
    + exists (MkSTAmount cur iss 0 0 false false), d. unfold cMinOffset in *.
      split_and!; try done; try lia; [|nia].
      refine (conj Wc (conj Wi (conj (eq_sym H0) _))). by left; auto.
    + eexists _, k. split_and!; try done; try lia.
      * refine (conj Wc (conj Wi (conj (eq_sym H0) _))). by right.
      * intros H16'. specialize (Hge 16 ltac:(lia) ltac:(lia)). lia.
      * cbn [mValue]. rewrite Em. nia.
Qed.


(** ** Products and quotients *)

Section Accuracy.
Context {S : OpenSSL} {Spec : OpenSSLSpec S}.

(** [v = m; v *= n; v /= D] and the word read from it. *)
Lemma bn_quotient {A} m n D (k : Z -> result A) :
  is_u64 m -> is_u64 n -> 0 < D < word_max -> m * n / D <= word_max ->
  (let '(st1, v) := BN_add_word BN_new m in
   if negb (st1 =? 1) then internal_bn_error else
   let '(st2, v) := BN_mul_word v n in
   if negb (st2 =? 1) then internal_bn_error else
   let '(rem, v) := BN_div_word v D in
   if rem =? word_max then internal_bn_error else k (BN_get_word v)) = k (m * n / D).
Proof.
  intros Hm Hn HD Hmax.
  destruct (bn_add_spec BN_new m Hm) as [E1 V1]; [by rewrite bn_new_val|].
  destruct (BN_add_word BN_new m) as [st1 v1]. cbn [fst snd] in *. subst st1. cbn [negb Z.eqb Pos.eqb].
  rewrite bn_new_val in V1. destruct (bn_mul_spec v1 n Hn) as [E2 V2]; [unfold in_u in *; lia|].
  destruct (BN_mul_word v1 n) as [st2 v2]. cbn [fst snd] in *. subst st2. cbn [negb Z.eqb Pos.eqb].
  assert (0 <= m * n) by (unfold in_u in *; nia).
  destruct (bn_div_spec v2 D) as [E3 V3]; [lia|lia|].
  destruct (BN_div_word v2 D) as [rem v3]. cbn [fst snd] in *. rewrite V2, V1, Z.add_0_l in *.
  pose proof (Z.mod_pos_bound (m * n) D ltac:(lia)). pose proof (Z.div_pos (m * n) D ltac:(lia) ltac:(lia)).
  rewrite (proj2 (Z.eqb_neq rem _)) by lia. by rewrite bn_get_spec, V3, Z.min_l by lia.
Qed.

Lemma sign_mul a b :
  (if mIsNegative a then -1 else 1) * (if mIsNegative b then -1 else 1) =
  (if negb (Bool.eqb (mIsNegative a) (mIsNegative b)) then -1 else 1).
Proof. by destruct (mIsNegative a), (mIsNegative b). Qed.

Lemma signed_abs (neg : bool) x p :
  0 <= x -> 0 < p -> Z.abs ((if neg then -1 else 1) * x * p) = x * p.
Proof.
  intros Hx Hp. assert (0 <= x * p) by (apply Z.mul_nonneg_nonneg; lia).
  destruct neg; rewrite <- Z.mul_assoc; lia.
Qed.

(** Two numbers of one sign and exponent differ by their mantissas. *)
Lemma signed_err (neg : bool) x y b p :
  0 < p -> Z.abs (x - y) < b ->
  Z.abs ((if neg then -1 else 1) * x * p - (if neg then -1 else 1) * y * p) < b * p.
Proof.
  intros Hp H. rewrite <- Z.mul_sub_distr_r, <- Z.mul_sub_distr_l, !Z.abs_mul, (Z.abs_eq p) by lia.
  apply Z.mul_lt_mono_pos_r; [done|]. destruct neg; lia.
Qed.

Lemma multiply_quotient v1 v2 cur iss :
  canonical v1 -> canonical v2 -> isLegalNet v1 = true -> isLegalNet v2 = true ->
  mValue v1 <> 0 -> mValue v2 <> 0 -> mIsNative v1 && mIsNative v2 = false ->
  exists m1 o1 m2 o2, let q := m1 * m2 / tenTo14 in
    multiply v1 v2 cur iss = mk_iou cur iss (q + 7) (o1 + o2 + 14)
      (negb (Bool.eqb (mIsNegative v1) (mIsNegative v2))) /\
    10 ^ 16 <= q < 18 * 10 ^ 18 /\ -96 <= o1 <= 80 /\ -96 <= o2 <= 80 /\
    val v1 = (if mIsNegative v1 then -1 else 1) * (m1 * 10 ^ (o1 + 100)) /\
    val v2 = (if mIsNegative v2 then -1 else 1) * (m2 * 10 ^ (o2 + 100)).
Proof.
  intros H1 H2 L1 L2 Z1 Z2 HN.
  destruct (operand v1 H1 L1 Z1) as (m1 & o1 & E1 & M1 & O1 & V1).
  destruct (operand v2 H2 L2 Z2) as (m2 & o2 & E2 & M2 & O2 & V2).
  exists m1, o1, m2, o2. intros q. unfold cMinValue, cMaxValue, cMaxNativeN, cMinOffset, cMaxOffset in *.
  assert (10 ^ 16 <= q < 18 * 10 ^ 18) as Hq.
  { unfold q, tenTo14. split; [apply Z.div_le_lower_bound|apply Z.div_lt_upper_bound]; try lia;
    destruct (mIsNative v1), (mIsNative v2); try done; nia. }
  split; [|split_and!; (done || lia)].
  unfold multiply. rewrite !is_zero_spec, !(proj2 (Z.eqb_neq _ 0)), HN, E1, E2 by done.
  cbn [andb orb]. etrans; [apply (bn_quotient m1 m2 tenTo14 (fun x =>
    mk_iou cur iss (u64 (x + 7)) (o1 + o2 + 14)
      (negb (Bool.eqb (mIsNegative v1) (mIsNegative v2)))))|].
  5: { cbv beta. fold q. by rewrite u64_id by lia. }
  all: fold q; unfold in_u, word_max, tenTo14 in *; destruct (mIsNative v1), (mIsNative v2); lia.
Qed.

(** The product of two amounts that are not zero. *)
Lemma product_accuracy (v1 v2 : STAmount) (cur iss : uint160) :
  canonical v1 -> canonical v2 -> isLegalNet v1 = true -> isLegalNet v2 = true ->
  mValue v1 <> 0 -> mValue v2 <> 0 -> mIsNative v1 && mIsNative v2 = false ->
  wf W160 cur -> wf W160 iss -> isZero cur = false ->
  (exists c, multiply v1 v2 cur iss = Ok c /\ canonical c /\ mCurrency c = cur /\ mIssuer c = iss /\
     (Z.abs (val c * 10 ^ 100 - val v1 * val v2) < 10 ^ (mOffset c + 100) * 10 ^ 100 \/
      mValue c = 0 /\ Z.abs (val v1 * val v2) < 10 ^ 120)) \/
  (multiply v1 v2 cur iss = Throw (runtime_error "value overflow") /\
   (10 ^ 15 - 7) * 10 ^ 281 <= Z.abs (val v1 * val v2)).
Proof.
  intros H1 H2 L1 L2 Z1 Z2 HN Wc Wi H0.
  destruct (multiply_quotient v1 v2 cur iss H1 H2 L1 L2 Z1 Z2 HN)
    as (m1 & o1 & m2 & o2 & -> & Hq & O1 & O2 & V1 & V2).
  assert (val v1 * val v2 = (if negb (Bool.eqb (mIsNegative v1) (mIsNegative v2)) then -1 else 1) *
    (m1 * m2) * 10 ^ (o1 + o2 + 200)) as EV.
  { rewrite V1, V2, <- sign_mul. replace (o1 + o2 + 200) with (o1 + 100 + (o2 + 100)) by lia.
    rewrite (pow10_add (o1 + 100)) by lia. ring. }
  set (neg := negb (Bool.eqb (mIsNegative v1) (mIsNegative v2))) in *.
  pose proof (pow10_pos (o1 + o2 + 200) ltac:(lia)) as HP.
  set (P := 10 ^ (o1 + o2 + 200)) in *.
  assert (0 <= m1 * m2) as HX.
  { destruct (Z.leb_spec 0 (m1 * m2)); [done|].
    assert (m1 * m2 / tenTo14 < 1) by (apply Z.div_lt_upper_bound; unfold tenTo14; lia). lia. }
  assert (Z.abs (val v1 * val v2) = m1 * m2 * P) as EA by (rewrite EV; by apply signed_abs).
  destruct (quotient_iou cur iss (m1 * m2) tenTo14 7 (o1 + o2 + 14) neg Wc Wi H0)
    as [(c & k & E & Hc & Ec & Ei & En & Eo & Hk & Hk1 & Herr)|[(c & d & E & Hc & Ec & Ei & Ev & Hd & Ho & HX')|(E & k & Hk & Ho & HX')]];
    [unfold tenTo14; lia|lia|lia|lia|left|left|right].
  - exists c. split_and!; [done..|]. left. pose proof (canonical_offset c Hc).
    assert (10 ^ (mOffset c + 100) * 10 ^ 100 = 10 ^ k * tenTo14 * P) as EU.
    { change tenTo14 with (10 ^ 14). unfold P. rewrite <- !pow10_add by lia. f_equal. lia. }
    assert (val c * 10 ^ 100 = (if neg then -1 else 1) * (mValue c * 10 ^ k * tenTo14) * P) as EC.
    { unfold val. rewrite En, <- !Z.mul_assoc, EU. ring. }
    rewrite EU, EC, EV. specialize (Hk1 ltac:(lia)).
    assert (10 <= 10 ^ k) by (change 10 with (10 ^ 1) at 1; apply Z.pow_le_mono_r; lia).
    rewrite Z.max_l in Herr by lia. by apply signed_err.
  - exists c. split_and!; [done..|]. right. split; [done|]. rewrite EA.
    apply Z.le_lt_trans with (10 ^ d * tenTo14 * P); [by apply Z.mul_le_mono_nonneg_r; [lia|]|].
    change tenTo14 with (10 ^ 14). unfold P. rewrite <- !pow10_add by lia. apply Z.pow_lt_mono_r; lia.
  - split; [done|]. rewrite EA.
    apply Z.le_trans with ((10 ^ 15 - 7) * 10 ^ k * tenTo14 * P); [|by apply Z.mul_le_mono_nonneg_r; [lia|]].
    rewrite <- !Z.mul_assoc. apply Z.mul_le_mono_nonneg_l; [lia|].
    change tenTo14 with (10 ^ 14). unfold P, cMaxOffset in *. rewrite <- !pow10_add by lia.
    apply Z.pow_le_mono_r; lia.
Qed.

(** C24: the product of two amounts that exist on the network ([isLegalNet]), not
    both native, in an issued currency.  Whatever correct bignum library computes
    it, one of three things happens: the result is canonical and within one unit of
    its last place of the exact product (a zero operand gives zero); or the result
    is zero and the exact product is below [10^-80]; or an overflow is reported, and
    then the exact product is at least [(10^15 - 7) * 10^81] (the largest amount is
    [10^80] below [10^15 * 10^81]).  No other error occurs, and nothing wraps. *)
Theorem multiply_accuracy (v1 v2 : STAmount) (cur iss : uint160) :
  canonical v1 -> canonical v2 -> isLegalNet v1 = true -> isLegalNet v2 = true ->
  mIsNative v1 && mIsNative v2 = false ->
  wf W160 cur -> wf W160 iss -> isZero cur = false ->
  (exists c, multiply v1 v2 cur iss = Ok c /\ canonical c /\ mCurrency c = cur /\ mIssuer c = iss /\
     (Z.abs (val c * 10 ^ 100 - val v1 * val v2) < 10 ^ (mOffset c + 100) * 10 ^ 100 \/
      mValue c = 0 /\ Z.abs (val v1 * val v2) < 10 ^ 120)) \/
  (multiply v1 v2 cur iss = Throw (runtime_error "value overflow") /\
   (10 ^ 15 - 7) * 10 ^ 281 <= Z.abs (val v1 * val v2)).
Proof.
  intros H1 H2 L1 L2 HN Wc Wi H0. destruct (decide (mValue v1 = 0 \/ mValue v2 = 0)) as [Hz|Hz]; [|apply product_accuracy; tauto].
  left. exists (MkSTAmount cur iss 0 (-100) false false).
  assert (val v1 * val v2 = 0) as -> by (unfold val; destruct Hz as [-> | ->]; lia).
  split_and!; [|split_and!; [done|done|symmetry; exact H0|cbn; left; split_and!; auto]|done|done|by left].
  unfold multiply. rewrite !is_zero_spec.
  assert ((mValue v1 =? 0) || (mValue v2 =? 0) = true) as -> by (apply orb_true_iff; rewrite !Z.eqb_eq; done).
  unfold mk_zero, mk_iou, canonicalize. by rewrite H0.
Qed.

Lemma divide_quotient num den cur iss :
  canonical num -> canonical den -> isLegalNet num = true -> isLegalNet den = true ->
  mValue num <> 0 -> mValue den <> 0 ->
  exists m1 o1 m2 o2, let q := m1 * tenTo17 / m2 in
    divide num den cur iss = mk_iou cur iss (q + 5) (o1 - o2 - 17)
      (negb (Bool.eqb (mIsNegative num) (mIsNegative den))) /\
    (if mIsNative den then 10 ^ 15 else 10 ^ 16) <= q <= 10 ^ 19 /\
    0 < m1 /\ 0 < m2 /\ -96 <= o1 <= 80 /\ -96 <= o2 <= 80 /\
    val num = (if mIsNegative num then -1 else 1) * (m1 * 10 ^ (o1 + 100)) /\
    val den = (if mIsNegative den then -1 else 1) * (m2 * 10 ^ (o2 + 100)).
Proof.
  intros H1 H2 L1 L2 Z1 Z2.
  destruct (operand num H1 L1 Z1) as (m1 & o1 & E1 & M1 & O1 & V1).
  destruct (operand den H2 L2 Z2) as (m2 & o2 & E2 & M2 & O2 & V2).
  exists m1, o1, m2, o2. intros q. unfold cMinValue, cMaxValue, cMaxNativeN, cMinOffset, cMaxOffset in *.
  assert ((if mIsNative den then 10 ^ 15 else 10 ^ 16) <= q <= 10 ^ 19) as Hq.
  { unfold q, tenTo17, tenTo14. split; [apply Z.div_le_lower_bound|apply Z.div_le_upper_bound]; try lia;
    destruct (mIsNative num), (mIsNative den); lia. }
  split; [|split_and!; (done || lia)].
  unfold divide. rewrite !is_zero_spec, !(proj2 (Z.eqb_neq _ 0)), E1, E2 by done.
  etrans; [apply (bn_quotient m1 tenTo17 m2 (fun x =>
    mk_iou cur iss (u64 (x + 5)) (o1 - o2 - 17)
      (negb (Bool.eqb (mIsNegative num) (mIsNegative den)))))|].
  5: { cbv beta. fold q. destruct (mIsNative den); by rewrite u64_id by lia. }
  all: fold q; unfold in_u, word_max, tenTo17, tenTo14 in *;
    destruct (mIsNative num), (mIsNative den); lia.
Qed.

Lemma pow_scale_lt m a b c d :
  0 < m -> 0 <= a -> 0 <= b -> 0 <= c -> 0 <= d -> a + b < c + d ->
  10 ^ a * m * 10 ^ b < 10 ^ c * (m * 10 ^ d).
Proof.
  intros. replace (10 ^ a * m * 10 ^ b) with (m * (10 ^ a * 10 ^ b)) by ring.
  replace (10 ^ c * (m * 10 ^ d)) with (m * (10 ^ c * 10 ^ d)) by ring.
  apply Z.mul_lt_mono_pos_l; [done|]. rewrite <- !pow10_add by lia. apply Z.pow_lt_mono_r; lia.
Qed.

Lemma pow_scale_le m a b c d :
  0 < m -> 0 <= a -> 0 <= b -> 0 <= c -> 0 <= d -> a + b <= c + d ->
  10 ^ a * (m * 10 ^ b) <= 10 ^ c * (m * 10 ^ d).
Proof.
  intros. replace (10 ^ a * (m * 10 ^ b)) with (m * (10 ^ a * 10 ^ b)) by ring.
  replace (10 ^ c * (m * 10 ^ d)) with (m * (10 ^ c * 10 ^ d)) by ring.
  apply Z.mul_le_mono_nonneg_l; [lia|]. rewrite <- !pow10_add by lia. apply Z.pow_le_mono_r; lia.
Qed.

(** The three outcomes of [divide] in an issued currency. *)
Lemma divide_outcome num den cur iss :
  canonical num -> canonical den -> isLegalNet num = true -> isLegalNet den = true ->
  mValue num <> 0 -> mValue den <> 0 -> wf W160 cur -> wf W160 iss -> isZero cur = false ->
  (exists c, divide num den cur iss = Ok c /\ canonical c /\ mCurrency c = cur /\ mIssuer c = iss /\
     mIsNegative c = negb (Bool.eqb (mIsNegative num) (mIsNegative den)) /\
     Z.abs (val c * val den - val num * 10 ^ 100) <
       (if mIsNative den then 6 else 1) * 10 ^ (mOffset c + 100) * Z.abs (val den)) \/
  (exists c, divide num den cur iss = Ok c /\ canonical c /\ mCurrency c = cur /\ mIssuer c = iss /\
     mValue c = 0 /\ Z.abs (val num) * 10 ^ 100 < 10 ^ 20 * Z.abs (val den)) \/
  (divide num den cur iss = Throw (runtime_error "value overflow") /\
   (10 ^ 15 - 5) * 10 ^ 181 * Z.abs (val den) <= Z.abs (val num) * 10 ^ 100).
Proof.
  intros H1 H2 L1 L2 Z1 Z2 Wc Wi H0.
  destruct (divide_quotient num den cur iss H1 H2 L1 L2 Z1 Z2)
    as (m1 & o1 & m2 & o2 & -> & Hq & Hm1 & Hm2 & O1 & O2 & V1 & V2).
  set (neg := negb (Bool.eqb (mIsNegative num) (mIsNegative den))) in *.
  pose proof (pow10_pos (o1 + 183) ltac:(lia)) as HP. set (P := 10 ^ (o1 + 183)) in *.
  assert (val num * 10 ^ 100 = (if mIsNegative num then -1 else 1) * (m1 * tenTo17) * P) as EN.
  { rewrite V1. change tenTo17 with (10 ^ 17). unfold P. rewrite <- !Z.mul_assoc, <- !pow10_add by lia.
    do 3 f_equal. lia. }
  assert (Z.abs (val num) * 10 ^ 100 = m1 * tenTo17 * P) as EN'.
  { rewrite <- (Z.abs_eq (10 ^ 100)), <- Z.abs_mul, EN by lia.
    apply signed_abs; [unfold tenTo17, tenTo14; lia|done]. }
  assert (Z.abs (val den) = m2 * 10 ^ (o2 + 100)) as ED.
  { rewrite V2, Z.mul_assoc. apply signed_abs; [lia|apply pow10_pos; lia]. }
  destruct (quotient_iou cur iss (m1 * tenTo17) m2 5 (o1 - o2 - 17) neg Wc Wi H0 Hm2 ltac:(lia))
    as [(c & k & E & Hc & Ec & Ei & En & Eo & Hk & Hk1 & Herr)|[(c & d & E & Hc & Ec & Ei & Ev & Hd & Ho & HX')|(E & k & Hk & Ho & HX')]];
    [destruct (mIsNative den); lia|lia|left|right; left|right; right].
  - exists c. split_and!; [done..|]. pose proof (canonical_offset c Hc).
    assert (10 ^ (mOffset c + 100) * 10 ^ (o2 + 100) = 10 ^ k * P) as EU.
    { unfold P. rewrite <- !pow10_add by lia. f_equal. lia. }
    assert (val c * val den = (if mIsNegative num then -1 else 1) * (mValue c * 10 ^ k * m2) * P) as EC.
    { unfold val at 1. rewrite V2, En.
      transitivity ((if neg then -1 else 1) * (if mIsNegative den then -1 else 1) * mValue c * m2 *
         (10 ^ (mOffset c + 100) * 10 ^ (o2 + 100))); [ring|]. rewrite EU.
      replace ((if neg then -1 else 1) * (if mIsNegative den then -1 else 1))
        with (if mIsNegative num then -1 else 1); [ring|].
      unfold neg. by destruct (mIsNegative num), (mIsNegative den). }
    rewrite EN, EC, ED. set (f := if mIsNative den then 6 else 1) in *.
    replace (f * 10 ^ (mOffset c + 100) * (m2 * 10 ^ (o2 + 100))) with (f * 10 ^ k * m2 * P)
      by (transitivity (f * m2 * (10 ^ (mOffset c + 100) * 10 ^ (o2 + 100))); [rewrite EU; ring|ring]).
    apply signed_err; [done|]. eapply Z.lt_le_trans; [done|]. apply Z.mul_le_mono_nonneg_r; [lia|].
    pose proof (pow10_pos k ltac:(lia)). unfold f. destruct (mIsNative den); [lia|].
    assert (10 ^ 1 <= 10 ^ k) by (apply Z.pow_le_mono_r; lia). lia.
  - exists c. split_and!; [done..|]. rewrite EN', ED.
    apply Z.le_lt_trans with (10 ^ d * m2 * P); [by apply Z.mul_le_mono_nonneg_r; [lia|]|].
    apply pow_scale_lt; lia.
  - split; [done|]. rewrite EN', ED.
    eapply Z.le_trans; [|apply Z.mul_le_mono_nonneg_r; [lia|exact HX']].
    rewrite <- !Z.mul_assoc. apply Z.mul_le_mono_nonneg_l; [lia|].
    unfold cMaxOffset in Ho. apply pow_scale_le; lia.
Qed.


(** The quotient of two non-zero amounts in an issued currency.  Whatever
    correct bignum library computes it, the result is canonical, has the sign of
    the quotient, and is within one unit of its last place of the exact quotient
    (six units when the denominator is native, where the quotient may keep all
    its digits), or it is zero and the exact quotient is below [10^-80]; the only
    error is an overflow, and then the quotient is at least [(10^15 - 5) * 10^81].
    A zero denominator throws, a zero numerator gives zero. *)
Theorem divide_accuracy (num den : STAmount) (cur iss : uint160) :
  canonical num -> canonical den -> isLegalNet num = true -> isLegalNet den = true ->
  wf W160 cur -> wf W160 iss -> isZero cur = false ->
  (mValue den = 0 -> divide num den cur iss = Throw (runtime_error "division by zero")) /\
  (mValue den <> 0 -> mValue num = 0 ->
     divide num den cur iss = Ok (MkSTAmount cur iss 0 (-100) false false)) /\
  (mValue den <> 0 -> mValue num <> 0 ->
   (exists c, divide num den cur iss = Ok c /\ canonical c /\ mCurrency c = cur /\ mIssuer c = iss /\
      mIsNegative c = negb (Bool.eqb (mIsNegative num) (mIsNegative den)) /\
      Z.abs (val c * val den - val num * 10 ^ 100) <
        (if mIsNative den then 6 else 1) * 10 ^ (mOffset c + 100) * Z.abs (val den)) \/
   (exists c, divide num den cur iss = Ok c /\ canonical c /\ mCurrency c = cur /\ mIssuer c = iss /\
      mValue c = 0 /\ Z.abs (val num) * 10 ^ 100 < 10 ^ 20 * Z.abs (val den)) \/
   (divide num den cur iss = Throw (runtime_error "value overflow") /\
    (10 ^ 15 - 5) * 10 ^ 181 * Z.abs (val den) <= Z.abs (val num) * 10 ^ 100)).
Proof.
  intros H1 H2 L1 L2 Wc Wi H0. split_and!.
  - intros E. unfold divide. by rewrite is_zero_spec, E.
  - intros E1 E2. unfold divide. rewrite !is_zero_spec, (proj2 (Z.eqb_neq _ 0) E1), E2.
    unfold mk_zero, mk_iou, canonicalize. by rewrite H0.
  - intros Z1 Z2. by apply divide_outcome.
Qed.

(** ** Rates *)

(** A rate amount: what [getRate] packs. *)
Definition is_rate (r : STAmount) : Prop :=
  canonical r /\ mCurrency r = u160_one /\ mIssuer r = u160_one /\
  mIsNative r = false /\ mIsNegative r = false /\ mValue r <> 0.

Definition pack_rate (r : STAmount) : Z := (mOffset r + 100) * 2 ^ 56 + mValue r.

Lemma rate_fields r :
  is_rate r -> cMinValue <= mValue r <= cMaxValue /\ cMinOffset <= mOffset r <= cMaxOffset /\
    isZero (mCurrency r) = false.
Proof.
  intros ((_ & _ & HN & HC) & _ & _ & Hn & _ & Hv). rewrite Hn in *.
  destruct HC as [(? & _)|HC]; [done|]. split_and!; tauto || done || lia.
Qed.

Lemma setRate_pack r : is_rate r -> setRate (pack_rate r) = Ok r.
Proof.
  intros Hr. destruct (rate_fields r Hr) as (Hv & Ho & _).
  destruct Hr as (_ & Ec & Ei & En & Eneg & _). destruct r as [cur iss v off nat neg].
  cbn [mCurrency mIssuer mValue mOffset mIsNative mIsNegative] in *. subst.
  unfold setRate, pack_rate. cbn [mValue mOffset]. unfold cMinValue, cMaxValue, cMinOffset, cMaxOffset in *.
  rewrite (proj2 (Z.eqb_neq _ 0)) by lia.
  change (u64 (Z.lnot (Z.shiftl 255 (64 - 8)))) with (2 ^ 56 - 1).
  rewrite (land_mask _ 56), shiftr_div by (done || lia). change (64 - 8) with 56.
  rewrite Z.add_comm, Z.mod_add, Z.mod_small, Z.div_add, Z.div_small by lia.
  rewrite Z.add_0_l, (swrap_id 32), Z.add_simpl_r by (unfold in_s; lia).
  unfold mk_iou. rewrite (canonicalize_iou 16); [|by vm_compute|unfold in_u; lia|].
  2: { apply canonical_digits. unfold cMinValue, cMaxValue. lia. }
  unfold canon_iou, cMaxOffset, cMinOffset. rewrite Z.add_simpl_r, !(proj2 (Z.ltb_ge _ _)) by lia.
  unfold mantissa16. simpl. by rewrite Z.mul_1_r.
Qed.

Lemma getRate_pack offerOut offerIn :
  canonical offerOut -> canonical offerIn -> isLegalNet offerOut = true -> isLegalNet offerIn = true ->
  mValue offerOut <> 0 -> mValue offerIn <> 0 ->
  mIsNegative offerOut = false -> mIsNegative offerIn = false ->
  getRate offerOut offerIn = 0 \/
  exists r, divide offerIn offerOut u160_one u160_one = Ok r /\ is_rate r /\
    getRate offerOut offerIn = pack_rate r.
Proof.
  intros H1 H2 L1 L2 Z1 Z2 N1 N2. unfold getRate.
  rewrite is_zero_spec, (proj2 (Z.eqb_neq _ 0) Z1).
  destruct (divide_outcome offerIn offerOut u160_one u160_one H2 H1 L2 L1 Z2 Z1)
    as [(c & -> & Hc & Ec & Ei & En & _)|[(c & -> & _ & _ & _ & Ev & _)|[-> _]]]; try by_decide.
  - rewrite is_zero_spec. destruct (Z.eqb_spec (mValue c) 0) as [|Ez]; [by left|right].
    exists c. rewrite N1, N2 in En. assert (is_rate c) as Hr.
    { refine (conj Hc (conj Ec (conj Ei (conj _ (conj En Ez))))).
      destruct Hc as (_ & _ & -> & _). by rewrite Ec. }
    split_and!; [done..|]. destruct (rate_fields c Hr) as (Hv & Ho & _).
    unfold pack_rate, cMinValue, cMaxValue, cMinOffset, cMaxOffset in *. change (64 - 8) with 56.
    rewrite (u64_id (_ + 100)), Z.shiftl_mul_pow2, u64_id by lia.
    by rewrite Z.lor_comm, lor_add_disjoint by lia.
  - left. by rewrite is_zero_spec, Ev.
  - by left.
Qed.

(** Packed rates sort as the rates they pack. *)
Lemma pack_rate_order r s : is_rate r -> is_rate s -> (pack_rate r < pack_rate s <-> val r < val s).
Proof.
  intros Hr Hs. destruct (rate_fields r Hr) as (Vr & Or & _), (rate_fields s Hs) as (Vs & Os & _).
  destruct Hr as (_ & _ & _ & _ & Nr & _), Hs as (_ & _ & _ & _ & Ns & _).
  unfold val, pack_rate. rewrite Nr, Ns, !Z.mul_1_l.
  pose proof (magnitude_lt (mValue r) (mValue s) (mOffset r + 100) (mOffset s + 100) Vr Vs) as A.
  pose proof (magnitude_lt (mValue s) (mValue r) (mOffset s + 100) (mOffset r + 100) Vs Vr) as B.
  unfold cMinValue, cMaxValue, cMinOffset, cMaxOffset in *.
  destruct (Z.lt_trichotomy (mOffset r) (mOffset s)) as [H|[H|H]].
  - split; intros; [apply A|]; lia.
  - rewrite H. pose proof (pow10_pos (mOffset s + 100) ltac:(lia)). split; nia.
  - split; intros; [lia|]. specialize (B ltac:(lia)). lia.
Qed.

(** The rate of an offer of positive amounts.  Unless the quotient is out
    of range (rate 0), [setRate] recovers from [getRate]'s 64-bit integer the
    very quotient [divide] computed, and comparing two such integers compares
    the two quotients: a directory keyed by rate is sorted by price. *)
Theorem rate_roundtrip_order (out1 in1 out2 in2 : STAmount) :
  Forall (fun a => canonical a /\ isLegalNet a = true /\ mValue a <> 0 /\ mIsNegative a = false)
    [out1; in1; out2; in2] ->
  getRate out1 in1 <> 0 -> getRate out2 in2 <> 0 ->
  exists r1 r2,
    divide in1 out1 u160_one u160_one = Ok r1 /\ divide in2 out2 u160_one u160_one = Ok r2 /\
    setRate (getRate out1 in1) = Ok r1 /\ setRate (getRate out2 in2) = Ok r2 /\
    (getRate out1 in1 < getRate out2 in2 <-> val r1 < val r2).
Proof.
  rewrite !Forall_cons_iff. intros (H1 & H2 & H3 & H4 & _) R1 R2. destruct_and!.
  destruct (getRate_pack out1 in1) as [|(r1 & D1 & Hr1 & E1)]; [done..|].
  destruct (getRate_pack out2 in2) as [|(r2 & D2 & Hr2 & E2)]; [done..|].
  exists r1, r2. rewrite E1, E2. split_and!; [done|done|by apply setRate_pack..|by apply pack_rate_order].
Qed.

End Accuracy.

Lemma multiply_accuracy_witness :
  let a := MkSTAmount u160_one u160_one 3100000000000000 (-13) false true in
  exists c, multiply (S := Z_bignum) a (mk_native 20 false) u160_one u160_one = Ok c /\ canonical c.
Proof.
  intros a. destruct (multiply_accuracy (S := Z_bignum) a (mk_native 20 false) u160_one u160_one)
    as [(c & H & Hc & _)|[E _]]; try (done || by_decide).
  by exists c.
Defined.

Lemma divide_accuracy_witness :
  let a := MkSTAmount u160_one u160_one 3100000000000000 (-13) false true in
  divide (S := Z_bignum) a (mk_native 0 false) u160_one u160_one = Throw (runtime_error "division by zero").
Proof.
  intros a. apply (divide_accuracy (S := Z_bignum) a (mk_native 0 false) u160_one u160_one);
    (done || by_decide).
Defined.

Lemma rate_roundtrip_order_witness :
  exists r1 r2,
    setRate (getRate (S := Z_bignum) (mk_native 1 false) (mk_native 10 false)) = Ok r1 /\
    setRate (getRate (S := Z_bignum) (mk_native 10 false) (mk_native 1 false)) = Ok r2 /\ val r2 < val r1.
Proof.
  destruct (rate_roundtrip_order (S := Z_bignum) (mk_native 10 false) (mk_native 1 false)
    (mk_native 1 false) (mk_native 10 false)) as (r2 & r1 & _ & _ & E2 & E1 & H); [by_decide|by vm_compute..|].
  exists r1, r2. split_and!; [done..|]. apply H. by vm_compute.
Defined.


(** ** Rounding down *)

Section RoundDown.
Context {S : OpenSSL} {Spec : OpenSSLSpec S}.

(** Truncation: [mk_iou] on a floor never exceeds the fraction. *)
Lemma floor_iou cur iss X D o c :
  isZero cur = false -> 0 < D -> 0 <= X -> is_u64 (X / D) ->
  mk_iou cur iss (X / D) o false = Ok c -> 
  mIsNegative c = false /\
  (mValue c = 0 \/ exists k, 0 <= k /\ (mOffset c = o + k /\ mValue c * 10 ^ k * D <= X \/
                         mOffset c = o - k /\ mValue c * D <= X * 10 ^ k)).
Proof.
  intros H0 HD HX Hu. pose proof (Z.mul_div_le X D HD) as Hle. unfold mk_iou.
  destruct (decide (X / D = 0)) as [E|E].
  { rewrite E. unfold canonicalize. rewrite H0. cbn. intros [= <-]. auto. }
  destruct (digits_exist (X / D)) as [d Hd]; [unfold in_u in Hu; lia|].
  rewrite (canonicalize_iou d) by done. unfold canon_iou.
  destruct (cMaxOffset <? o + d - 16); [done|].
  destruct (o + d - 16 <? cMinOffset); intros [= <-]; (split; [done|]); [by left|right]. cbn [mOffset mValue].
  unfold mantissa16. destruct (Z.leb_spec d 16); [exists (16 - d)|exists (d - 16)]; (split; [lia|]).
  - right. split; [lia|]. pose proof (pow10_pos (16 - d) ltac:(lia)). nia.
  - left. split; [lia|]. pose proof (pow10_pos (d - 16) ltac:(lia)) as HP.
    pose proof (Z.mul_div_le (X / D) _ HP). nia.
Qed.

(** The bound of [floor_iou] in denoted numbers: [X / D] scaled by [10^(o + e)]. *)
Lemma floor_iou_val cur iss X D o e c :
  wf W160 cur -> wf W160 iss ->
  isZero cur = false -> 0 < D -> 0 <= X -> is_u64 (X / D) -> 0 <= o + e -> 100 <= e ->
  mk_iou cur iss (X / D) o false = Ok c ->
  val c * 10 ^ (e - 100) * D <= X * 10 ^ (o + e).
Proof.
  intros Wc Wi H0 HD HX Hu Ho He Hc.
  destruct (mk_iou_canonical cur iss _ _ _ _ Hu Wc Wi Hc) as [Hcan _].
  pose proof (canonical_offset c Hcan) as Hoff. pose proof (canonical_u64 c Hcan) as [Hv _].
  destruct (floor_iou cur iss X D o c H0 HD HX Hu Hc) as [En H]. unfold val. rewrite En, Z.mul_1_l.
  pose proof (pow10_pos (o + e) Ho). rewrite <- (Z.mul_assoc (mValue c)), <- pow10_add by lia.
  destruct H as [Hz|(k & Hk & [[Eo Hle]|[Eo Hle]])].
  - rewrite Hz. nia.
  - replace (mOffset c + 100 + (e - 100)) with (k + (o + e)) by lia. rewrite pow10_add by lia.
    transitivity (mValue c * 10 ^ k * D * 10 ^ (o + e)); [lia|]. by apply Z.mul_le_mono_nonneg_r; [lia|].
  - replace (o + e) with (k + (mOffset c + 100 + (e - 100))) by lia. rewrite (pow10_add k) by lia.
    pose proof (pow10_pos (mOffset c + 100 + (e - 100)) ltac:(lia)).
    transitivity (mValue c * D * 10 ^ (mOffset c + 100 + (e - 100))); [lia|].
    rewrite Z.mul_assoc. by apply Z.mul_le_mono_nonneg_r; [lia|].
Qed.

(** Rounding down rounds down.  For positive operands and an issued result
    currency, [mulRound] and [divRound] called with [roundUp = false] never
    return more than the exact product or quotient. *)
Theorem round_down_sound (a b : STAmount) (cur iss : uint160) :
  Forall (fun x => canonical x /\ isLegalNet x = true /\ mValue x <> 0 /\ mIsNegative x = false) [a; b] ->
  wf W160 cur -> wf W160 iss -> isZero cur = false ->
  (forall c, mIsNative a && mIsNative b = false -> mulRound a b cur iss false = Ok c ->
     val c * 10 ^ 100 <= val a * val b) /\
  (forall c, divRound a b cur iss false = Ok c -> val c * val b <= val a * 10 ^ 100).
Proof.
  rewrite !Forall_cons_iff. intros ((Ha & La & Za & Na) & (Hb & Lb & Zb & Nb) & _) Wc Wi H0.
  destruct (operand a Ha La Za) as (m1 & o1 & E1 & M1 & O1 & V1).
  destruct (operand b Hb Lb Zb) as (m2 & o2 & E2 & M2 & O2 & V2).
  rewrite Na, Z.mul_1_l in V1. rewrite Nb, Z.mul_1_l in V2.
  unfold cMinValue, cMaxValue, cMaxNativeN, cMinOffset, cMaxOffset in *.
  assert (m1 <= 10 ^ 17 /\ m2 <= 10 ^ 17) as [B1 B2] by (destruct (mIsNative a), (mIsNative b); lia).
  assert (0 <= m1 * m2) by nia.
  split; intros c.
  - intros HN. assert (0 <= m1 * m2 / tenTo14 < 18 * 10 ^ 18) as Hq.
    { unfold tenTo14. split; [apply Z.div_pos; lia|apply Z.div_lt_upper_bound; [lia|]].
      destruct (mIsNative a), (mIsNative b); try done; nia. }
    unfold mulRound. rewrite !is_zero_spec, (proj2 (Z.eqb_neq _ 0) Za), (proj2 (Z.eqb_neq _ 0) Zb).
    cbn [orb]. rewrite HN, E1, E2, Na, Nb, H0. cbn [andb Bool.eqb negb canonicalizeRound].
    rewrite (bn_quotient m1 m2 tenTo14 (fun x => mk_iou cur iss x (o1 + o2 + 14) false))
      by (unfold in_u, word_max, tenTo14 in *; lia).
    intros Hc. apply (floor_iou_val cur iss (m1 * m2) tenTo14 _ 186) in Hc;
      [|done|done|done|done|done|unfold in_u; lia|lia|lia].
    rewrite V1, V2. change tenTo14 with (10 ^ 14) in Hc. change (186 - 100) with 86 in Hc.
    rewrite <- Z.mul_assoc, <- pow10_add in Hc by lia. etrans; [exact Hc|].
    replace (o1 + o2 + 14 + 186) with (o1 + 100 + (o2 + 100)) by lia.
    rewrite (pow10_add (o1 + 100)) by lia. lia.
  - assert (0 <= m1 * tenTo17 / m2 <= 10 ^ 19) as Hq.
    { unfold tenTo17, tenTo14. split; [apply Z.div_pos; lia|apply Z.div_le_upper_bound; lia]. }
    unfold divRound. rewrite !is_zero_spec, (proj2 (Z.eqb_neq _ 0) Za), (proj2 (Z.eqb_neq _ 0) Zb).
    rewrite E1, E2, Na, Nb, H0. cbn [Bool.eqb negb canonicalizeRound].
    rewrite (bn_quotient m1 tenTo17 m2 (fun x => mk_iou cur iss x (o1 - o2 - 17) false))
      by (unfold in_u, word_max, tenTo17, tenTo14 in *; lia).
    intros Hc. apply (floor_iou_val cur iss (m1 * tenTo17) m2 _ (o2 + 200)) in Hc;
      [|done|done|done|lia|unfold tenTo17, tenTo14; lia|unfold in_u; lia|lia|lia].
    rewrite V1, V2. replace (o2 + 200 - 100) with (o2 + 100) in Hc by lia. etrans; [|etrans; [exact Hc|]]; [lia|].
    change tenTo17 with (10 ^ 17). rewrite <- !Z.mul_assoc, <- !pow10_add by lia.
    apply Z.eq_le_incl. do 2 f_equal. lia.
Qed.
End RoundDown.

Lemma round_down_sound_witness :
  let a := MkSTAmount u160_one u160_one 2000000000000000 0 false false in
  let b := MkSTAmount u160_one u160_one 3000000000000000 0 false false in
  let c := MkSTAmount u160_one u160_one 6666666666666666 (-16) false false in
  divRound (S := Z_bignum) a b u160_one u160_one false = Ok c /\ val c * val b <= val a * 10 ^ 100.
Proof.
  intros a b c. split; [by vm_compute|].
  apply (round_down_sound (S := Z_bignum) a b u160_one u160_one); [by_decide..|by vm_compute].
Defined.

(** Rounding up does not always round up, nor rounding down down.
    [canonicalizeRound] and the alignment loops truncate all but the last
    dropped digit: a product whose last non-zero digit lies further right comes
    out below the exact value with [roundUp], and [subRound] without [roundUp]
    truncates the subtrahend, so the difference comes out above the exact value.
    In particular a tiny [d] leaves [X] unchanged in both [addRound X d true] and
    [subRound X d false], which the comment on these functions excludes. *)
Lemma directed_rounding_artifacts :
  let a := MkSTAmount u160_one u160_one 9999999999999999 0 false false in
  let b := MkSTAmount u160_one u160_one 1000000000000000 0 false false in
  let c := MkSTAmount u160_one u160_one 1000000000000001 (-1) false false in
  (exists r, mulRound (S := Z_bignum) a a u160_one u160_one true = Ok r /\
     val r * 10 ^ 100 < val a * val a) /\
  (exists r, subRound b c false = Ok r /\ val b - val c < val r) /\
  (let d := MkSTAmount u160_one u160_one 1000000000000000 (-20) false false in
   addRound b d true = Ok b /\ subRound b d false = Ok b).
Proof.
  intros a b c. split; [|split]; [| |split; by vm_compute].
  - exists (MkSTAmount u160_one u160_one 9999999999999998 16 false false). split; by vm_compute.
  - exists (MkSTAmount u160_one u160_one 9000000000000000 (-1) false false). split; by vm_compute.
Qed.


(** ** Native products *)

Lemma multiply_native_exact v1 v2 c :
  mIsNative v1 = true -> mIsNative v2 = true ->
  0 < mValue v1 <= cMaxNative -> 0 < mValue v2 <= cMaxNative ->
  multiply_native v1 v2 = Ok c ->
  mIsNegative v1 = false /\ mIsNegative v2 = false /\ mIsNative c = true /\ mIsNegative c = false /\
  mValue c = mValue v1 * mValue v2.
Proof.
  intros N1 N2 H1 H2. unfold multiply_native.
  rewrite !getSNValue_drops by (done || lia). cbn [mbind result_bind mret result_ret].
  set (x := if drops v1 <? drops v2 then drops v1 else drops v2).
  set (y := if drops v1 <? drops v2 then drops v2 else drops v1).
  assert (x * y = drops v1 * drops v2 /\ x <= y /\ x <= drops v1 /\ x <= drops v2 /\ y <= cMaxNative) as (Exy & Hxy & Hx1 & Hx2 & Hy).
  { unfold x, y, drops, cMaxNative in *.
    destruct (Z.ltb_spec ((if mIsNegative v1 then -1 else 1) * mValue v1)
                         ((if mIsNegative v2 then -1 else 1) * mValue v2));
      destruct (mIsNegative v1), (mIsNegative v2); lia. }
  assert (- 9000000000000000000 <= x) as Hlow by
    (unfold x, drops, cMaxNative in *; case_match; destruct (mIsNegative v1), (mIsNegative v2); lia).
  unfold cMaxNative in *. destruct (Z.ltb_spec x 0) as [Hneg|Hpos].
  { replace (u64 x) with (x + 2 ^ 64) by (unfold uwrap; rewrite <- (Z.mod_add x 1), Z.mod_small; lia).
    by rewrite (proj2 (Z.ltb_lt 3000000000 _)) by lia. }
  rewrite (u64_id x), (u64_id y) by lia. destruct (Z.ltb_spec 3000000000 x); [done|].
  rewrite shiftr_div by lia. pose proof (Z.div_mod y (2 ^ 32) ltac:(lia)) as Ey.
  pose proof (Z.mod_pos_bound y (2 ^ 32) ltac:(lia)). set (hi := y / 2 ^ 32) in *.
  assert (0 <= hi < 2 ^ 32) as Hhi.
  { split; [apply Z.div_pos; lia|]. apply Z.div_lt_upper_bound; lia. }
  rewrite (u64_id (hi * x)) by nia. destruct (Z.ltb_spec 2095475792 (hi * x)) as [|Hg]; [done|].
  intros [= <-]. unfold mk_native_field; cbn [mIsNative mIsNegative mValue].
  assert (mIsNegative v1 = false /\ mIsNegative v2 = false) as [E1 E2].
  { unfold drops in Hx1, Hx2. destruct (mIsNegative v1), (mIsNegative v2); lia || done. }
  unfold drops in Exy. rewrite E1, E2, !Z.mul_1_l in Exy. rewrite <- Exy.
  split_and!; try done. apply u64_id. split; [nia|].
  assert (hi = 0 \/ x <= 2095475792) by nia. nia.
Qed.

(** A native product is exact.  When [multiply] of two non-zero native
    amounts in the native currency returns, both operands were positive and the
    result is their exact product: the two guards exclude every 64-bit wrap. *)
Lemma native_product_exact {S : OpenSSL} (v1 v2 c : STAmount) (cur iss : uint160) :
  canonical v1 -> canonical v2 -> mIsNative v1 = true -> mIsNative v2 = true ->
  mValue v1 <> 0 -> mValue v2 <> 0 -> isZero cur = true ->
  multiply v1 v2 cur iss = Ok c ->
  mIsNegative v1 = false /\ mIsNegative v2 = false /\ mIsNative c = true /\ mIsNegative c = false /\
  mValue c = mValue v1 * mValue v2.
Proof.
  intros (_ & _ & _ & H1) (_ & _ & _ & H2) N1 N2 Z1 Z2 Hc.
  unfold multiply. rewrite !is_zero_spec, (proj2 (Z.eqb_neq _ 0) Z1), (proj2 (Z.eqb_neq _ 0) Z2).
  rewrite N1, N2, Hc in *. cbn [orb andb]. apply multiply_native_exact; (done || lia).
Qed.

Lemma native_product_exact_witness :
  mValue (mk_native_field 6000000 false) = 2000 * 3000.
Proof.
  apply (native_product_exact (S := Z_bignum) (mk_native 2000 false) (mk_native 3000 false)
    (mk_native_field 6000000 false) u160_zero u160_zero); (done || by_decide || by vm_compute).
Defined.

(** Three places where the native range check does not hold.
    [canonicalize] multiplies by ten without looking for wrap-around, so an
    amount far above [cMaxNative] is accepted as 4; the guards of [multiply]
    admit products above [cMaxNative]; and [getPay] hands back [needed], an
    amount of the currency the offer sells, as what to pay. *)
Lemma native_range_gaps :
  canonicalize (MkSTAmount u160_zero u160_zero 1844674407370955162 1 true false) =
    Ok (MkSTAmount u160_zero u160_zero 4 0 true false) /\
  (exists c, multiply (S := Z_bignum) (mk_native 3000000000 false) (mk_native 4294967295 false)
      u160_zero u160_zero = Ok c /\ cMaxNative < mValue c) /\
  (let offerOut := mk_native 10 false in
   let offerIn := MkSTAmount u160_one u160_one 5000000000000000 (-15) false false in
   let needed := mk_native 20 false in
   getPay (S := Z_bignum) offerOut offerIn needed = Ok needed /\
   isComparable needed offerIn = false).
Proof.
  split; [by vm_compute|]. split; [|by vm_compute].
  exists (mk_native_field (3000000000 * 4294967295) false). split; by vm_compute.
Qed.


(** ** Results are canonical *)

Lemma in_u_div w v n : in_u w v -> 0 < n -> in_u w (v / n).
Proof.
  unfold in_u. intros Hv Hn. split; [apply Z.div_pos; lia|].
  apply Z.le_lt_trans with v; [|lia]. apply Z.div_le_upper_bound; nia.
Qed.

Lemma canonicalizeRound_u64 nat v o up : is_u64 v -> is_u64 (fst (canonicalizeRound nat v o up)).
Proof.
  intros Hv. unfold canonicalizeRound. destruct up; cbn [negb]; [|done]. destruct nat.
  - destruct (o <? 0); [|done]. destruct (while _ _ _ _) as [[v' o'] n]. cbn [fst].
    apply in_u_div; [by apply uwrap_range|lia].
  - destruct (cMaxValue <? v); [|done]. destruct (while _ _ _ _) as [v' o']. cbn [fst].
    apply in_u_div; [by apply uwrap_range|lia].
Qed.

(** An amount that is canonical and not negative. *)
Definition nonneg (a : STAmount) : Prop := canonical a /\ mIsNegative a = false.

#[export] Instance nonneg_dec a : Decision (nonneg a).
Proof. unfold nonneg. apply _. Defined.

Lemma nonneg_unsigned a : nonneg a -> unsigned_zero a.
Proof. intros [_ H] _. done. Qed.

Lemma mk_iou_nonneg cur iss v o c :
  is_u64 v -> wf W160 cur -> wf W160 iss -> mk_iou cur iss v o false = Ok c ->
  nonneg c /\ mCurrency c = cur /\ mIssuer c = iss.
Proof.
  intros Hv Wc Wi H. destruct (mk_iou_canonical _ _ _ _ _ _ Hv Wc Wi H) as (Hc & E1 & E2).
  split_and!; try done. revert H. unfold mk_iou.
  destruct (canonicalize_cases cur iss v o false false Hv) as (H0 & H1 & H2).
  destruct (decide (v = 0)) as [Ez|Ez]; [rewrite H0 by done; by intros [= <-]|].
  destruct (isZero cur) eqn:E.
  - rewrite H1 by done. case_match; [done|]. by intros [= <-].
  - destruct (H2 Ez eq_refl) as (d & _ & ->). unfold canon_iou.
    destruct (cMaxOffset <? _); [done|]. by destruct (_ <? cMinOffset); intros [= <-].
Qed.

Section Results.
Context {S : OpenSSL} {Spec : OpenSSLSpec S}.

(** The tail of [mulRound] and [divRound]. *)
Lemma rounded_nonneg cur iss v o up c :
  wf W160 cur -> wf W160 iss ->
  (let '(amount, offset) := canonicalizeRound (isZero cur) (BN_get_word v) o up in
   mk_iou cur iss amount offset false) = Ok c ->
  nonneg c /\ mCurrency c = cur /\ mIssuer c = iss.
Proof.
  intros Wc Wi. pose proof (canonicalizeRound_u64 (isZero cur) (BN_get_word v) o up (bn_word_u64 v)).
  destruct (canonicalizeRound _ _ _ _) as [a off]. by apply mk_iou_nonneg.
Qed.

Lemma divRound_nonneg n d cur iss up c :
  nonneg n -> nonneg d -> wf W160 cur -> wf W160 iss -> divRound n d cur iss up = Ok c ->
  nonneg c /\ mCurrency c = cur /\ mIssuer c = iss.
Proof.
  intros [_ Nn] [_ Nd] Wc Wi. unfold divRound, internal_bn_error, mk_zero. rewrite Nn, Nd. cbn [Bool.eqb negb].
  destruct (is_zero d); [done|]. destruct (is_zero n); [by apply mk_iou_nonneg|].
  destruct (into_range _ _ _), (into_range _ _ _), (BN_add_word _ _).
  case_match; [done|]. destruct (BN_mul_word _ _). case_match; [done|].
  destruct (BN_div_word _ _). case_match; [done|]. by apply rounded_nonneg.
Qed.

(** The same for [mulRound] when the second operand is issued (a rate). *)
Lemma mulRound_nonneg a r cur iss up c :
  nonneg a -> nonneg r -> mIsNative r = false -> wf W160 cur -> wf W160 iss ->
  mulRound a r cur iss up = Ok c -> nonneg c /\ mCurrency c = cur /\ mIssuer c = iss.
Proof.
  intros [_ Nn] [_ Nd] Nat Wc Wi. unfold mulRound, internal_bn_error, mk_zero. rewrite Nn, Nd, Nat.
  cbn [Bool.eqb negb]. rewrite andb_false_r. cbn [andb].
  destruct (is_zero a || is_zero r); [by apply mk_iou_nonneg|].
  destruct (into_range _ _ _), (into_range _ _ _), (BN_add_word _ _).
  case_match; [done|]. destruct (BN_mul_word _ _). case_match; [done|].
  destruct (BN_div_word _ _). case_match; [done|]. by apply rounded_nonneg.
Qed.

Lemma divide_nonneg n d cur iss c :
  nonneg n -> nonneg d -> wf W160 cur -> wf W160 iss -> divide n d cur iss = Ok c ->
  nonneg c /\ mCurrency c = cur /\ mIssuer c = iss.
Proof.
  intros [_ Nn] [_ Nd] Wc Wi. unfold divide, internal_bn_error, mk_zero. rewrite Nn, Nd. cbn [Bool.eqb negb].
  destruct (is_zero d); [done|]. destruct (is_zero n); [by apply mk_iou_nonneg|].
  destruct (into_range _ _ _), (into_range _ _ _), (BN_add_word _ _).
  case_match; [done|]. destruct (BN_mul_word _ _). case_match; [done|].
  destruct (BN_div_word _ _). case_match; [done|].
  by apply mk_iou_nonneg; [apply uwrap_range|..].
Qed.

Lemma getRate_u64 o i : is_u64 (getRate o i).
Proof.
  assert (is_u64 0) by by_decide. unfold getRate. destruct (is_zero o); [done|].
  destruct (divide _ _ _ _) as [r|] eqn:E; [|done]. destruct (is_zero r); [done|].
  apply in_u_lor; [lia|by apply uwrap_range|].
  assert (wf W160 u160_one) as W by by_decide.
  assert (forall v o n, is_u64 v -> mk_iou u160_one u160_one v o n = Ok r -> is_u64 (mValue r)) as H1.
  { intros v o' n Hv Hm. by destruct (mk_iou_canonical _ _ _ _ _ _ Hv W W Hm) as [?%canonical_u64 _]. }
  revert E. unfold divide, internal_bn_error, mk_zero. destruct (is_zero o); [done|].
  destruct (is_zero i); [by apply H1|]. destruct (into_range _ _ _), (into_range _ _ _), (BN_add_word _ _).
  case_match; [done|]. destruct (BN_mul_word _ _). case_match; [done|].
  destruct (BN_div_word _ _). case_match; [done|]. by apply H1, uwrap_range.
Qed.

Lemma setRate_nonneg q c :
  is_u64 q -> setRate q = Ok c -> nonneg c /\ mIsNative c = false.
Proof.
  intros Hq. assert (wf W160 u160_one) as W1 by by_decide.
  assert (forall v o, is_u64 v -> mk_iou u160_one u160_one v o false = Ok c ->
    nonneg c /\ mIsNative c = false) as H.
  { intros v o Hv Hc. destruct (mk_iou_nonneg _ _ _ _ _ Hv W1 W1 Hc) as (Hn & Ec & _).
    split; [done|]. destruct Hn as [(_ & _ & -> & _) _]. by rewrite Ec. }
  unfold setRate, mk_zero. destruct (q =? 0); apply H; [by_decide|].
  change (u64 (Z.lnot (Z.shiftl 255 (64 - 8)))) with (2 ^ 56 - 1).
  rewrite (land_mask _ 56) by done. pose proof (Z.mod_pos_bound q (2 ^ 56)). unfold in_u. lia.
Qed.
End Results.


End STAmountMath.
