(* ===== verification/Book.v ===== *)
(** * The order book: amounts, qualities and the taker

    Models the headers of [src/src/ripple_app/book]: [Amounts.h], [Quality.h],
    [Offer.h] and [Taker.h].  A quality is the 64-bit rate of [STAmount::getRate];
    the taker is the active party of an offer crossing, it computes how much of
    an offer flows ([fill]) and applies that flow to the ledger ([process]).

    The ledger the taker works on is the class [LedgerView]: the operations of
    [LedgerEntrySet] it calls.  The SLE of an offer is the record [OfferEntry].
    The theorems: capping never creates money, the flow stays within the offer
    and within what the taker can pay, thresholds and the passive flag, and the
    accounting of [process] on every branch. *)

From Stdlib Require Import ZArith Lia.
From S2P Require Import Prelude.
From S2P Require Import BaseUint.
From S2P Require Import Serializer.
From S2P Require Import STAmount.
From S2P Require Import STAmountMath.

Module Book.
Import BaseUint Serializer STAmount STAmountMath.

(** ** Amounts *)

Record Amounts := MkAmounts { a_in : STAmount; a_out : STAmount }.

Definition amounts_empty (a : Amounts) : bool :=
  (signum (a_in a) <=? 0) || (signum (a_out a) <=? 0).

Definition amounts_eqb (lhs rhs : Amounts) : bool :=
  STAmount.eqb (a_in lhs) (a_in rhs) && STAmount.eqb (a_out lhs) (a_out rhs).

(** ** Quality *)

(** [m_value]. *)
Definition Quality : Type := Z.

Definition quality_inc (q : Quality) : Quality := u64 (q - 1).       (* operator++() *)
Definition quality_dec (q : Quality) : Quality := u64 (q + 1).       (* operator--() *)
(** The postfix operators: previous value, new value. *)
Definition quality_postinc (q : Quality) : Quality * Quality := (q, quality_dec q).
Definition quality_postdec (q : Quality) : Quality * Quality := (q, quality_inc q).
Definition quality_ltb (lhs rhs : Quality) : bool := rhs <? lhs.
Definition quality_eqb (lhs rhs : Quality) : bool := lhs =? rhs.

Section Quality.
Context {S : OpenSSL}.

Definition quality_of (amount : Amounts) : Quality := getRate (a_out amount) (a_in amount).
Definition rate (q : Quality) : result STAmount := setRate q.

Definition ceil_in (q : Quality) (amount : Amounts) (limit : STAmount) : result Amounts :=
  over ← STAmount.gtb (a_in amount) limit;
  if over : bool then
    r ← rate q;
    out ← divRound limit r (mCurrency (a_out amount)) (mIssuer (a_out amount)) true;
    more ← STAmount.gtb out (a_out amount);
    mret (MkAmounts limit (if more : bool then a_out amount else out))
  else mret amount.

Definition ceil_out (q : Quality) (amount : Amounts) (limit : STAmount) : result Amounts :=
  over ← STAmount.gtb (a_out amount) limit;
  if over : bool then
    r ← rate q;
    inn ← mulRound limit r (mCurrency (a_in amount)) (mIssuer (a_in amount)) true;
    more ← STAmount.gtb inn (a_in amount);
    mret (MkAmounts (if more : bool then a_in amount else inn) limit)
  else mret amount.
End Quality.

(** ** Offers and the ledger view *)

Definition Account : Type := uint160.
Definition TER : Type := Z.
Definition tesSUCCESS : TER := 0.
Definition QUALITY_ONE : Z := 1000000000.

(** The fields of an offer's ledger entry the order book uses. *)
Record OfferEntry := MkOfferEntry {
  sfIndex : base_uint;
  sfAccount : Account;
  sfTakerPays : STAmount;
  sfTakerGets : STAmount;
  sfExpiration : option Z;
}.

Record Offer := MkOffer { m_entry : OfferEntry; m_quality : Quality }.

Definition offer_account (o : Offer) : Account := sfAccount (m_entry o).
Definition offer_amount (o : Offer) : Amounts :=
  MkAmounts (sfTakerPays (m_entry o)) (sfTakerGets (m_entry o)).

(** What the taker calls on the ledger: [accountFunds], [rippleTransferRate],
    [accountSend] and [entryModify] of an offer's entry. *)
Class LedgerView (V : Type) := {
  accountFunds : V -> Account -> STAmount -> result STAmount;
  rippleTransferRate : V -> Account -> Account -> Account -> Z;
  accountSend : V -> Account -> Account -> STAmount -> result (TER * V);
  entryModify : V -> OfferEntry -> V;
}.

(** ** The taker *)

Record Options := MkOptions {
  sell : bool; passive : bool; fill_or_kill : bool; immediate_or_cancel : bool
}.

Definition tfPassive : Z := 65536.               (* 0x00010000 *)
Definition tfImmediateOrCancel : Z := 131072.    (* 0x00020000 *)
Definition tfFillOrKill : Z := 262144.           (* 0x00040000 *)
Definition tfSell : Z := 524288.                 (* 0x00080000 *)

Definition is_bit_set (x y : Z) : bool := negb (Z.land x y =? 0).

Definition options_of (tx_flags : Z) : Options :=
  MkOptions (is_bit_set tx_flags tfSell) (is_bit_set tx_flags tfPassive)
            (is_bit_set tx_flags tfFillOrKill) (is_bit_set tx_flags tfImmediateOrCancel).

Record Taker := MkTaker {
  m_account : Account;
  m_options : Options;
  m_tquality : Quality;
  m_threshold : Quality;
  m_amount : Amounts;
  m_in : STAmount;
  m_out : STAmount;
}.

Section Taker.
Context {S : OpenSSL} {V : Type} {LV : LedgerView V}.

Definition mk_taker (account : Account) (amount : Amounts) (options : Options) : result Taker :=
  let q := quality_of amount in
  out ← mk_zero (mCurrency (a_out amount)) (mIssuer (a_out amount));
  mret (MkTaker account options q (if passive options then quality_inc q else q)
          amount (a_in amount) out).

Definition funds (v : V) (t : Taker) : result STAmount := accountFunds v (m_account t) (m_in t).

Definition taker_done (v : V) (t : Taker) : result bool :=
  let rest := f ← funds v t; mret (signum f <=? 0) in
  if sell (m_options t) then
    if signum (m_in t) <=? 0 then mret true else rest
  else
    full ← STAmount.geb (m_out t) (a_out (m_amount t));
    if full : bool then mret true else rest.

Definition reject (t : Taker) (quality : Quality) : bool := quality_ltb quality (m_threshold t).

(** [Amount::divide (funds, charge)] unless there is no transfer fee. *)
Definition after_fee (charge_rate : Z) (amount : STAmount) : result STAmount :=
  charge ← saFromRate charge_rate;
  if charge_rate =? QUALITY_ONE then mret amount
  else divide amount charge (mCurrency amount) (mIssuer amount).

Definition fill (v : V) (t : Taker) (offer : Offer) : result (Amounts * bool) :=
  let owner := offer_account offer in
  let amount := offer_amount offer in
  let q := m_quality offer in
  owner_funds ← accountFunds v owner (a_out amount);
  owner_limit ← after_fee (rippleTransferRate v owner (m_account t)
                  (mIssuer (sfTakerGets (m_entry offer)))) owner_funds;
  owner_amount ← ceil_out q amount owner_limit;
  taker_funds ← accountFunds v (m_account t) (m_in t);
  taker_limit ← after_fee (rippleTransferRate v (m_account t) owner
                  (mIssuer (sfTakerPays (m_entry offer)))) taker_funds;
  taker_amount ← ceil_in q amount taker_limit;
  taker_amount ← (if negb (sell (m_options t)) then
                    wanted ← STAmount.sub (a_out (m_amount t)) (m_out t);
                    ceil_out q taker_amount wanted
                  else mret taker_amount);
  less ← STAmount.ltb (a_in owner_amount) (a_in taker_amount);
  let flow := if less : bool then owner_amount else taker_amount in
  consumed ← STAmount.geb (a_out flow) (a_out owner_amount);
  mret (flow, consumed).

(** [process]: writes what remains of the offer, then pays the taker and the
    owner; the taker's counters follow each payment that succeeded. *)
Definition process (v : V) (t : Taker) (flow : Amounts) (offer : Offer)
    : result (TER * V * Taker * Offer) :=
  let e := m_entry offer in
  remain_in ← STAmount.sub (sfTakerPays e) (a_in flow);
  remain_out ← STAmount.sub (sfTakerGets e) (a_out flow);
  let e' := MkOfferEntry (sfIndex e) (sfAccount e) remain_in remain_out (sfExpiration e) in
  let offer' := MkOffer e' (m_quality offer) in
  let v1 := entryModify v e' in
  '(r1, v2) ← accountSend v1 (offer_account offer) (m_account t) (a_out flow);
  if negb (r1 =? tesSUCCESS) then mret (r1, v2, t, offer')
  else
    out' ← STAmount.add (m_out t) (a_out flow);
    let t' := MkTaker (m_account t) (m_options t) (m_tquality t) (m_threshold t)
                (m_amount t) (m_in t) out' in
    '(r2, v3) ← accountSend v2 (m_account t) (offer_account offer) (a_in flow);
    if negb (r2 =? tesSUCCESS) then mret (r2, v3, t', offer')
    else
      in' ← STAmount.sub (m_in t') (a_in flow);
      mret (r2, v3, MkTaker (m_account t') (m_options t') (m_tquality t') (m_threshold t')
                      (m_amount t') in' (m_out t'), offer').
End Taker.

(** ** Capping *)

(** The ordering operators on non-negative canonical amounts, when they return. *)
Lemma order_val a b :
  nonneg a -> nonneg b ->
  (forall r, STAmount.gtb a b = Ok r -> r = (val b <? val a)) /\
  (forall r, STAmount.ltb a b = Ok r -> r = (val a <? val b)) /\
  (forall r, STAmount.geb a b = Ok r -> r = (val b <=? val a)).
Proof.
  intros Ha Hb. pose proof (nonneg_unsigned a Ha). pose proof (nonneg_unsigned b Hb).
  destruct Ha as [Ha _], Hb as [Hb _].
  unfold STAmount.gtb, STAmount.ltb, STAmount.geb, throwComparable.
  destruct (isComparable a b) eqn:Hc; cbn; [|by split_and!].
  rewrite (compare_val a b) by done.
  destruct (Z.sgn_spec (val a - val b)) as [[? ->]|[[? ->]|[? ->]]]; split_and!; intros r [= <-]; cbn; symmetry;
    first [apply Z.ltb_lt; lia | apply Z.ltb_ge; lia | apply Z.leb_le; lia | apply Z.leb_gt; lia].
Qed.

Definition nonneg_amounts (a : Amounts) : Prop := nonneg (a_in a) /\ nonneg (a_out a).

#[export] Instance nonneg_amounts_dec a : Decision (nonneg_amounts a).
Proof. unfold nonneg_amounts. apply _. Defined.

(** Componentwise order of what amounts denote. *)
Definition amounts_le (a b : Amounts) : Prop :=
  val (a_in a) <= val (a_in b) /\ val (a_out a) <= val (a_out b).

#[export] Instance amounts_le_preorder : PreOrder amounts_le.
Proof. split; [intros ?; split; lia|intros ??? [??] [??]; split; lia]. Qed.

Section Capping.
Context {S : OpenSSL} {Spec : OpenSSLSpec S}.

Lemma ceil_in_spec q amount limit r :
  is_u64 q -> nonneg_amounts amount -> nonneg limit -> ceil_in q amount limit = Ok r ->
  nonneg_amounts r /\ amounts_le r amount /\ val (a_in r) <= val limit.
Proof.
  intros Hq [Hi Ho] Hl. unfold ceil_in. intros H. inv_ok H.
  match goal with Hg : STAmount.gtb _ limit = Ok _ |- _ =>
    apply (proj1 (order_val _ _ Hi Hl)) in Hg end. subst.
  destruct (Z.ltb_spec (val limit) (val (a_in amount))).
  - inv_ok H. injection H as <-. unfold nonneg_amounts, amounts_le. cbn [a_in a_out].
    match goal with Hr : rate q = Ok ?x, Hd : divRound _ ?x _ _ _ = Ok ?o |- _ =>
      destruct (setRate_nonneg q x Hq Hr) as [Hx _];
      destruct (divRound_nonneg _ _ _ _ _ _ Hl Hx (proj1 (proj1 Ho)) (proj1 (proj2 (proj1 Ho))) Hd) as [Hn _] end.
    match goal with Hg : STAmount.gtb ?o _ = Ok _ |- _ =>
      apply (proj1 (order_val _ _ Hn Ho)) in Hg; subst end.
    case_match; bool_cases; (split; [by split|split; [split; lia|lia]]).
  - injection H as <-. by split_and!.
Qed.

Lemma ceil_out_spec q amount limit r :
  is_u64 q -> nonneg_amounts amount -> nonneg limit -> ceil_out q amount limit = Ok r ->
  nonneg_amounts r /\ amounts_le r amount /\ val (a_out r) <= val limit.
Proof.
  intros Hq [Hi Ho] Hl. unfold ceil_out. intros H. inv_ok H.
  match goal with Hg : STAmount.gtb _ limit = Ok _ |- _ =>
    apply (proj1 (order_val _ _ Ho Hl)) in Hg end. subst.
  destruct (Z.ltb_spec (val limit) (val (a_out amount))).
  - inv_ok H. injection H as <-. unfold nonneg_amounts, amounts_le. cbn [a_in a_out].
    match goal with Hr : rate q = Ok ?x, Hd : mulRound _ ?x _ _ _ = Ok ?o |- _ =>
      destruct (setRate_nonneg q x Hq Hr) as [Hx Hnat];
      destruct (mulRound_nonneg _ _ _ _ _ _ Hl Hx Hnat (proj1 (proj1 Hi)) (proj1 (proj2 (proj1 Hi))) Hd) as [Hn _] end.
    match goal with Hg : STAmount.gtb ?o _ = Ok _ |- _ =>
      apply (proj1 (order_val _ _ Hn Hi)) in Hg; subst end.
    case_match; bool_cases; (split; [by split|split; [split; lia|lia]]).
  - injection H as <-. by split_and!.
Qed.

(** [Quality::ceil_in] and [Quality::ceil_out] cap an amount pair without
    creating money: the capped side respects the limit, neither side exceeds
    the original pair, and both stay canonical and non-negative. *)
Theorem ceil_clamps (q : Quality) (amount r : Amounts) (limit : STAmount) :
  is_u64 q -> nonneg_amounts amount -> nonneg limit ->
  (ceil_in q amount limit = Ok r ->
     nonneg_amounts r /\ amounts_le r amount /\ val (a_in r) <= val limit) /\
  (ceil_out q amount limit = Ok r ->
     nonneg_amounts r /\ amounts_le r amount /\ val (a_out r) <= val limit).
Proof. intros. split; intros; [by eapply ceil_in_spec|by eapply ceil_out_spec]. Qed.

Lemma saFromRate_nonneg x c : is_u64 x -> saFromRate x = Ok c -> nonneg c.
Proof.
  intros Hx Hc. assert (wf W160 u160_one) as W by by_decide.
  by destruct (mk_iou_nonneg u160_one u160_one x (-9) c Hx W W Hc).
Qed.

Lemma after_fee_nonneg x a c : is_u64 x -> nonneg a -> after_fee x a = Ok c -> nonneg c.
Proof.
  intros Hx Ha H. unfold after_fee in H. inv_ok H. case_match.
  - by injection H as <-.
  - apply divide_nonneg in H as [? _]; try done; [by eapply saFromRate_nonneg|apply Ha|apply Ha].
Qed.

Section Fill.
Context {V : Type} {LV : LedgerView V}.

(** C28: the flow [Taker::fill] computes.  When the owner and the taker have
    non-negative funds (which the callers check before filling), the flow never
    exceeds the offer on either side, its input never exceeds what the taker can
    pay after the transfer fee, and the flow is the owner's or the taker's capped
    amount, whichever has the smaller input. *)
Theorem fill_within_offer (v : V) (t : Taker) (offer : Offer) (flow : Amounts) (consumed : bool) :
  is_u64 (m_quality offer) -> nonneg_amounts (offer_amount offer) ->
  (forall a b c, is_u64 (rippleTransferRate v a b c)) ->
  (forall f, accountFunds v (offer_account offer) (a_out (offer_amount offer)) = Ok f -> nonneg f) ->
  (forall f, accountFunds v (m_account t) (m_in t) = Ok f -> nonneg f) ->
  (forall w, STAmount.sub (a_out (m_amount t)) (m_out t) = Ok w -> nonneg w) ->
  fill v t offer = Ok (flow, consumed) ->
  nonneg_amounts flow /\ amounts_le flow (offer_amount offer) /\
  exists taker_funds taker_limit,
    accountFunds v (m_account t) (m_in t) = Ok taker_funds /\
    after_fee (rippleTransferRate v (m_account t) (offer_account offer)
      (mIssuer (sfTakerPays (m_entry offer)))) taker_funds = Ok taker_limit /\
    val (a_in flow) <= val taker_limit.
Proof.
  intros Hq Ha Hr Hof Htf Hw H. unfold fill in H. inv_ok H.
  injection H as Hflow _.
  match goal with
  | H1 : accountFunds v (offer_account _) _ = Ok ?ofn, H2 : after_fee _ ?ofn = Ok ?ol,
    H3 : ceil_out _ _ ?ol = Ok ?oa, H4 : accountFunds v (m_account t) _ = Ok ?tf,
    H5 : after_fee _ ?tf = Ok ?tl, H6 : ceil_in _ _ ?tl = Ok ?ta, H7 : _ = Ok ?tb,
    H8 : STAmount.ltb (a_in ?oa) (a_in ?tb) = Ok ?less |- _ =>
      pose proof (after_fee_nonneg _ _ _ (Hr _ _ _) (Hof _ H1) H2) as Hol;
      pose proof (after_fee_nonneg _ _ _ (Hr _ _ _) (Htf _ H4) H5) as Htl;
      destruct (ceil_out_spec _ _ _ _ Hq Ha Hol H3) as (Noa & Loa & _);
      destruct (ceil_in_spec _ _ _ _ Hq Ha Htl H6) as (Nta & Lta & Cta);
      assert (nonneg_amounts tb /\ amounts_le tb ta) as [Ntb Ltb];
      [|apply (proj1 (proj2 (order_val _ _ (proj1 Noa) (proj1 Ntb)))) in H8;
        rename less into less', tf into tf', tl into tl', tb into tb', oa into oa', ta into ta']
  end.
  { match goal with Hs : (if negb (sell _) then _ else _) = Ok _ |- _ => revert Hs end.
    destruct (sell (m_options t)); cbn [negb]; [intros [= <-]; done|]. intros Hs. inv_ok Hs.
    match goal with Hsub : STAmount.sub _ _ = Ok _ |- _ =>
      destruct (ceil_out_spec _ _ _ _ Hq Nta (Hw _ Hsub) Hs) as (? & ? & _) end. done. }
  assert (amounts_le tb' (offer_amount offer)) by (by transitivity ta').
  subst less' flow. split_and!; [by case_match|by case_match|].
  exists tf', tl'. split_and!; [done..|]. destruct Ltb as [Lb _].
  destruct (Z.ltb_spec (val (a_in oa')) (val (a_in tb'))); lia.
Qed.
End Fill.
End Capping.


(** ** Thresholds *)

(** which offers a new taker accepts.  An ordinary taker rejects exactly the
    offers of worse quality than its own order, a passive one also those of equal
    quality; a passive order whose rate is 0 (out of range) has its threshold
    wrap to the worst quality and rejects nothing. *)
Theorem taker_threshold {S : OpenSSL} {Spec : OpenSSLSpec S}
    (account : Account) (amount : Amounts) (options : Options) (t : Taker) (q : Quality) :
  is_u64 q -> mk_taker account amount options = Ok t ->
  let own := quality_of amount in
  reject t q = if passive options then (if own =? 0 then false else own <=? q) else own <? q.
Proof.
  intros Hq H own. unfold mk_taker in H. inv_ok H. injection H as <-.
  pose proof (getRate_u64 (a_out amount) (a_in amount)) as Ho. fold (quality_of amount) in Ho. fold own in Ho |- *.
  unfold reject, quality_ltb, quality_inc. cbn [m_threshold]. unfold in_u in *.
  destruct (passive options); [|done]. destruct (Z.eqb_spec own 0) as [->|].
  - change (u64 (0 - 1)) with (2 ^ 64 - 1). apply Z.ltb_ge. lia.
  - rewrite u64_id by lia. destruct (Z.leb_spec own q); [apply Z.ltb_lt|apply Z.ltb_ge]; lia.
Qed.

Lemma taker_threshold_witness :
  let amount := MkAmounts (mk_native 10 false) (mk_native 5 false) in
  exists t, mk_taker (S := Z_bignum) u160_one amount (options_of tfPassive) = Ok t /\
    reject t (quality_of (S := Z_bignum) amount) = true.
Proof.
  intros amount. eexists.
  match goal with |- ?E /\ _ => assert E as Ht by (vm_compute; reflexivity) end. split; [exact Ht|].
  rewrite (taker_threshold (S := Z_bignum) u160_one amount (options_of tfPassive) _
    (quality_of (S := Z_bignum) amount)); [by vm_compute|by_decide|exact Ht].
Defined.

(** the postfix operators of [Quality] move the wrong way: [q++] lowers the
    quality and [q--] raises it, the opposite of the prefix forms. *)
Lemma quality_postfix_swapped (q : Quality) :
  0 < q < 2 ^ 64 - 1 ->
  quality_ltb q (quality_inc q) = true /\ quality_ltb (snd (quality_postinc q)) q = true /\
  quality_ltb (quality_dec q) q = true /\ quality_ltb q (snd (quality_postdec q)) = true.
Proof.
  intros Hq. unfold quality_ltb, quality_postinc, quality_postdec, quality_inc, quality_dec. cbn [snd].
  rewrite !u64_id by lia. split_and!; apply Z.ltb_lt; lia.
Qed.

(** ** Applying a flow *)

(** A native amount as it exists on the network. *)
Definition native_ok (a : STAmount) : Prop :=
  canonical a /\ mIsNative a = true /\ isLegalNet a = true /\ unsigned_zero a.

#[export] Instance native_ok_dec a : Decision (native_ok a).
Proof. unfold native_ok. apply _. Defined.

Section Process.
Context {V : Type} {LV : LedgerView V}.

Lemma native_ok_sub a b c :
  native_ok a -> native_ok b -> STAmount.sub a b = Ok c -> drops c = drops a - drops b.
Proof.
  intros (Ca & Na & La & Ua) (Cb & Nb & Lb & Ub) H.
  destruct (native_sum a b Ca Cb Na Nb La Lb Ua Ub) as [_ (c' & E & _ & _ & Hd)].
  rewrite E in H. by injection H as <-.
Qed.

(** [Taker::process] keeps the books.  When it succeeds, the two payments
    were made in order on the updated view, the offer keeps its owner and its
    quality, and on a side paid in the native currency what the taker has left
    falls by exactly what the offer's [TakerPays] falls by; when it fails, the
    taker's remaining input is untouched. *)
Theorem process_accounting (v v' : V) (t t' : Taker) (flow : Amounts) (offer offer' : Offer) (ter : TER) :
  process v t flow offer = Ok (ter, v', t', offer') ->
  m_quality offer' = m_quality offer /\ offer_account offer' = offer_account offer /\
  (ter <> tesSUCCESS -> m_in t' = m_in t) /\
  (ter = tesSUCCESS ->
     (exists v2, accountSend (entryModify v (m_entry offer')) (offer_account offer) (m_account t) (a_out flow)
                   = Ok (tesSUCCESS, v2) /\
        accountSend v2 (m_account t) (offer_account offer) (a_in flow) = Ok (tesSUCCESS, v')) /\
     STAmount.add (m_out t) (a_out flow) = Ok (m_out t') /\
     (native_ok (m_in t) -> native_ok (a_in flow) -> native_ok (sfTakerPays (m_entry offer)) ->
      drops (m_in t) - drops (m_in t') = drops (a_in flow) /\
      drops (sfTakerPays (m_entry offer)) - drops (sfTakerPays (m_entry offer')) = drops (a_in flow))).
Proof.
  unfold process. intros H. inv_ok H. repeat case_match; bool_cases; inv_ok H.
  - injection H as <- <- <- <-. split_and!; try done; by intros.
  - repeat case_match; bool_cases; inv_ok H; injection H as <- <- <- <-.
    1: { split_and!; try done; by intros. }
    unfold tesSUCCESS in *. subst. split_and!; try done. intros _.
    split_and!; [by eexists|done|]. intros Hin Hf Hp. cbn [m_in m_entry sfTakerPays].
    repeat match goal with Hs : STAmount.sub ?a ?b = Ok ?c |- _ =>
      (apply native_ok_sub in Hs; [|by done..]) || clear Hs end. cbn in *. lia.
Qed.
End Process.

(** ** Concrete runs *)

(** A small ledger: native balances by account, no transfer fees. *)
#[local] Instance balances_view : LedgerView (list (Account * Z)) := {
  accountFunds v a am :=
    Ok (mk_native (default 0 (snd <$> head (filter (fun p => fst p = a) v))) false);
  rippleTransferRate _ _ _ _ := QUALITY_ONE;
  accountSend v src dst am :=
    Ok (tesSUCCESS, map (fun '(a, n) =>
      (a, n + (if decide (a = dst) then drops am else 0) - (if decide (a = src) then drops am else 0))) v);
  entryModify v e := v;
}.

Definition ex_owner : Account := of_u64 W160 7.
Definition ex_view : list (Account * Z) := [(u160_one, 1000); (ex_owner, 60)].
Definition ex_amounts : Amounts := MkAmounts (mk_native 200 false) (mk_native 100 false).
Definition ex_offer : Offer :=
  MkOffer (MkOfferEntry (of_u64 W256 9) ex_owner (mk_native 200 false) (mk_native 100 false) None)
    (quality_of (S := Z_bignum) ex_amounts).
Definition ex_taker : Taker :=
  MkTaker u160_one (options_of tfSell) 0 (2 ^ 64 - 1) ex_amounts (mk_native 300 false) (mk_native 0 false).

Lemma ceil_clamps_witness :
  let r := MkAmounts (mk_native 120 false) (mk_native 60 false) in
  ceil_out (S := Z_bignum) (quality_of (S := Z_bignum) ex_amounts) ex_amounts (mk_native 60 false) = Ok r /\
  amounts_le r ex_amounts.
Proof.
  intros r. split; [by vm_compute|].
  apply (ceil_clamps (S := Z_bignum) (quality_of (S := Z_bignum) ex_amounts) ex_amounts r
    (mk_native 60 false)); [by_decide|by_decide|by_decide|by vm_compute].
Defined.

(** The owner can only deliver 60 of the 100 offered, so 120 flows in. *)
Lemma fill_within_offer_witness :
  let flow := MkAmounts (mk_native 120 false) (mk_native 60 false) in
  fill (S := Z_bignum) ex_view ex_taker ex_offer = Ok (flow, true) /\
  amounts_le flow (offer_amount ex_offer).
Proof.
  intros flow.
  assert (fill (S := Z_bignum) ex_view ex_taker ex_offer = Ok (flow, true)) as E by by vm_compute.
  split; [done|].
  apply (fill_within_offer (S := Z_bignum) ex_view ex_taker ex_offer flow true);
    [by_decide|by_decide|intros; by_decide| | | |done].
  - intros f [= <-]. by_decide.
  - intros f [= <-]. by_decide.
  - intros w Hw. vm_compute in Hw. injection Hw as <-. by_decide.
Defined.

Lemma process_accounting_witness :
  let flow := MkAmounts (mk_native 120 false) (mk_native 60 false) in
  exists v' t' offer', process ex_view ex_taker flow ex_offer = Ok (tesSUCCESS, v', t', offer') /\
    drops (m_in ex_taker) - drops (m_in t') = 120.
Proof.
  intros flow. do 3 eexists.
  match goal with |- ?E /\ _ => assert E as H by (vm_compute; reflexivity) end. split; [exact H|].
  destruct (process_accounting ex_view _ ex_taker _ flow ex_offer _ tesSUCCESS H) as (_ & _ & _ & H1).
  apply H1; [done|by_decide..].
Defined.

End Book.
