(* ===== verification/Resource.v ===== *)
(** * The resource manager

    Models [src/src/ripple/resource]: the table of consumers ([Entry], [Key]),
    its four intrusive lists, reference counts, exponentially decaying balances
    ([DecayingSample.h]) and the gossip imports of [Logic.h], with the reference
    semantics of [Consumer.cpp].

    An [Entry&] is the key of its table slot.  [None] is undefined behaviour:
    a reference to an erased entry, or unlinking an entry from an intrusive list
    it is not on.  The state machine [step] interleaves the operations of
    [Logic] at a monotone clock; its ghost component [held] lists the consumers
    handed out.  The theorems show that no reachable operation is undefined, that
    the lists partition the table by reference count, that remote balances are
    the sums of the live imports, and what charging does.  Addresses are the
    interface [Endpoints]: classification and printing belong to the network
    library. *)

From Stdlib Require Import ZArith Lia Sorted.
From S2P Require Import Prelude.
From stdpp Require Import sorting list.
Open Scope Z_scope.

Module Resource.

(** ** Decaying samples *)

(** [DecayingSample<Window, int, int>]. *)
Record DecayingSample := MkSample { m_value : Z; m_when : Z }.

Definition decayWindowSeconds : Z := 32.

Definition decay_once (v : Z) : Z :=
  i32 (v - Z.quot (i32 (v + decayWindowSeconds - 1)) decayWindowSeconds).

(** [while (n--)]: [n] times; a negative [n] counts down through the wrap. *)
Definition decay (now : Z) (s : DecayingSample) : DecayingSample :=
  if now =? m_when s then s
  else
    let v := m_value s in
    let v :=
      if negb (v =? 0) then
        let n := i32 (now - m_when s) in
        if 4 * decayWindowSeconds <? n then 0
        else Nat.iter (Z.to_nat (u32 n)) decay_once v
      else v in
    MkSample v now.

Definition sample_add (value now : Z) (s : DecayingSample) : Z * DecayingSample :=
  let s := decay now s in
  let s := MkSample (i32 (m_value s + value)) (m_when s) in
  (Z.quot (m_value s) decayWindowSeconds, s).

Definition sample_value (now : Z) (s : DecayingSample) : Z * DecayingSample :=
  let s := decay now s in (Z.quot (m_value s) decayWindowSeconds, s).

(** ** Keys and entries *)

(** Address and port. *)
Definition Endpoint : Type := Z * Z.

Definition at_port (e : Endpoint) (port : Z) : Endpoint := (fst e, port).

Class Endpoints := {
  is_public : Endpoint -> bool;
  endpoint_to_string : Endpoint -> string;
}.

Inductive Kind := kindInbound | kindOutbound | kindAdmin.

(** Keys up to [key_equal], which compares the address or the name by kind. *)
Inductive Key :=
| InboundKey (address : Endpoint)
| OutboundKey (address : Endpoint)
| AdminKey (name : string).

#[export] Instance Kind_eq_dec : EqDecision Kind.
Proof. solve_decision. Defined.
#[export] Instance Key_eq_dec : EqDecision Key.
Proof. solve_decision. Defined.
#[export] Instance Key_countable : Countable Key.
Proof.
  refine (inj_countable'
    (fun k => match k with InboundKey a => inl a | OutboundKey a => inr (inl a) | AdminKey n => inr (inr n) end)
    (fun s => match s with inl a => InboundKey a | inr (inl a) => OutboundKey a | inr (inr n) => AdminKey n end) _).
  by intros [].
Defined.

Definition kind (k : Key) : Kind :=
  match k with InboundKey _ => kindInbound | OutboundKey _ => kindOutbound | AdminKey _ => kindAdmin end.

Record Entry := MkEntry {
  refcount : Z;
  local_balance : DecayingSample;
  remote_balance : Z;
  lastWarningTime : Z;
  whenExpires : Z;
}.

(** [Entry (int)]. *)
Definition new_entry : Entry := MkEntry 0 (MkSample 0 0) 0 0 0.

Definition set_refcount (n : Z) (e : Entry) : Entry :=
  MkEntry n (local_balance e) (remote_balance e) (lastWarningTime e) (whenExpires e).
Definition set_local (s : DecayingSample) (e : Entry) : Entry :=
  MkEntry (refcount e) s (remote_balance e) (lastWarningTime e) (whenExpires e).
Definition set_remote (b : Z) (e : Entry) : Entry :=
  MkEntry (refcount e) (local_balance e) b (lastWarningTime e) (whenExpires e).
Definition set_warned (t : Z) (e : Entry) : Entry :=
  MkEntry (refcount e) (local_balance e) (remote_balance e) t (whenExpires e).
Definition set_expires (t : Z) (e : Entry) : Entry :=
  MkEntry (refcount e) (local_balance e) (remote_balance e) (lastWarningTime e) t.

(** [Entry::balance] and [Entry::add]: the decayed local balance plus imports. *)
Definition entry_balance (now : Z) (e : Entry) : Z * Entry :=
  let '(v, s) := sample_value now (local_balance e) in (i32 (v + remote_balance e), set_local s e).
Definition entry_add (charge now : Z) (e : Entry) : Z * Entry :=
  let '(v, s) := sample_add charge now (local_balance e) in (i32 (v + remote_balance e), set_local s e).

(** ** The manager's state *)

Record Item := MkItem { it_balance : Z; it_consumer : Key }.
Record Import := MkImport { imp_whenExpires : Z; imp_items : list Item }.

Record State := MkState {
  table : gmap Key Entry;
  inbound : list Key;
  outbound : list Key;
  admin : list Key;
  inactive : list Key;
  import_table : list (string * Import);
}.

Definition empty_state : State := MkState ∅ [] [] [] [] [].

Definition warningThreshold : Z := 500.
Definition dropThreshold : Z := 1500.
Definition secondsUntilExpiration : Z := 300.
Definition minimumGossipBalance : Z := 100.
Definition gossipExpirationSeconds : Z := 30.

Definition feeWarning : Z := 200.
Definition feeDrop : Z := 300.

(** The active list of a kind. *)
Definition active (k : Kind) (st : State) : list Key :=
  match k with kindInbound => inbound st | kindOutbound => outbound st | kindAdmin => admin st end.

Definition set_active (k : Kind) (l : list Key) (st : State) : State :=
  match k with
  | kindInbound => MkState (table st) l (outbound st) (admin st) (inactive st) (import_table st)
  | kindOutbound => MkState (table st) (inbound st) l (admin st) (inactive st) (import_table st)
  | kindAdmin => MkState (table st) (inbound st) (outbound st) l (inactive st) (import_table st)
  end.

Definition set_inactive (l : list Key) (st : State) : State :=
  MkState (table st) (inbound st) (outbound st) (admin st) l (import_table st).
Definition set_table (t : gmap Key Entry) (st : State) : State :=
  MkState t (inbound st) (outbound st) (admin st) (inactive st) (import_table st).
Definition set_imports (i : list (string * Import)) (st : State) : State :=
  MkState (table st) (inbound st) (outbound st) (admin st) (inactive st) i.

(** [list.erase (list.iterator_to (entry))]: undefined when not linked. *)
Definition unlink (k : Key) (l : list Key) : option (list Key) :=
  if decide (k ∈ l) then Some (filter (fun x => x <> k) l) else None.

(** ** Reference counting *)

(** The body the four endpoint constructors share: [table.emplace], count the
    reference, and on the first one move the entry to the active list of its kind. *)
Definition new_endpoint (k : Key) (st : State) : option State :=
  let '(e, inserted) :=
    match table st !! k with Some e => (e, false) | None => (new_entry, true) end in
  let e := set_refcount (refcount e + 1) e in
  let st := set_table (<[k := e]> (table st)) st in
  if refcount e =? 1 then
    inactive' ← (if (inserted : bool) then Some (inactive st) else unlink k (inactive st));
    let st := set_inactive inactive' st in
    Some (set_active (kind k) (active (kind k) st ++ [k]) st)
  else Some st.

Definition acquire (k : Key) (st : State) : option State :=
  e ← table st !! k;
  Some (set_table (<[k := set_refcount (refcount e + 1) e]> (table st)) st).

Definition release (now : Z) (k : Key) (st : State) : option State :=
  e ← table st !! k;
  let e := set_refcount (refcount e - 1) e in
  if refcount e =? 0 then
    l ← unlink k (active (kind k) st);
    let e := set_expires (now + secondsUntilExpiration) e in
    let st := set_active (kind k) l st in
    let st := set_inactive (inactive st ++ [k]) st in
    Some (set_table (<[k := e]> (table st)) st)
  else Some (set_table (<[k := e]> (table st)) st).

(** [Consumer::operator=]: drops the old reference, then takes the new one. *)
Definition consumer_assign (now : Z) (self other : Key) (st : State) : option State :=
  st ← release now self st; acquire other st.

Section Logic.
Context {EP : Endpoints}.

Definition isWhitelisted (address : Endpoint) : bool := negb (is_public address).

Definition newAdminEndpoint (name : string) (st : State) : option (Key * State) :=
  st ← new_endpoint (AdminKey name) st; Some (AdminKey name, st).

Definition newInboundEndpoint (address : Endpoint) (st : State) : option (Key * State) :=
  if isWhitelisted address then newAdminEndpoint (endpoint_to_string address) st
  else
    let k := InboundKey (at_port address 0) in st ← new_endpoint k st; Some (k, st).

Definition newOutboundEndpoint (address : Endpoint) (st : State) : option (Key * State) :=
  if isWhitelisted address then newAdminEndpoint (endpoint_to_string address) st
  else
    let k := OutboundKey address in st ← new_endpoint k st; Some (k, st).

Definition elevateToAdminEndpoint (now : Z) (prior : Key) (name : string) (st : State)
    : option (Key * State) :=
  '(k, st) ← newAdminEndpoint name st;
  st ← release now prior st;
  Some (k, st).

(** ** Gossip *)

Record GossipItem := MkGossipItem { g_balance : Z; g_address : Endpoint }.

Definition add_remote (b : Z) (k : Key) (st : State) : option State :=
  e ← table st !! k;
  Some (set_table (<[k := set_remote (i32 (remote_balance e + b)) e]> (table st)) st).

(** One imported item: the copies of its [Consumer] leave one reference. *)
Definition import_item (g : GossipItem) (st : State) : option (Item * State) :=
  '(k, st) ← newInboundEndpoint (g_address g) st;
  st ← add_remote (g_balance g) k st;
  Some (MkItem (g_balance g) k, st).

Fixpoint import_items (gs : list GossipItem) (st : State) : option (list Item * State) :=
  match gs with
  | [] => Some ([], st)
  | g :: gs =>
      '(i, st) ← import_item g st;
      '(items, st) ← import_items gs st;
      Some (i :: items, st)
  end.

(** Deducting the balances of an import, then dropping its references. *)
Fixpoint deduct_items (items : list Item) (st : State) : option State :=
  match items with
  | [] => Some st
  | i :: items => st ← add_remote (- it_balance i) (it_consumer i) st; deduct_items items st
  end.

Fixpoint release_items (now : Z) (items : list Item) (st : State) : option State :=
  match items with
  | [] => Some st
  | i :: items => st ← release now (it_consumer i) st; release_items now items st
  end.

Fixpoint find_import (origin : string) (l : list (string * Import)) : option Import :=
  match l with
  | [] => None
  | (o, i) :: l => if decide (o = origin) then Some i else find_import origin l
  end.

Fixpoint replace_import (origin : string) (next : Import) (l : list (string * Import)) :=
  match l with
  | [] => []
  | (o, i) :: l => if decide (o = origin) then (o, next) :: l else (o, i) :: replace_import origin next l
  end.

Definition importConsumers (now : Z) (origin : string) (gossip : list GossipItem) (st : State)
    : option State :=
  match find_import origin (import_table st) with
  | None =>
      '(items, st) ← import_items gossip st;
      let next := MkImport (now + gossipExpirationSeconds) items in
      Some (set_imports (import_table st ++ [(origin, next)]) st)
  | Some prev =>
      '(items, st) ← import_items gossip st;
      let next := MkImport (now + gossipExpirationSeconds) items in
      st ← deduct_items (imp_items prev) st;
      let st := set_imports (replace_import origin next (import_table st)) st in
      release_items now (imp_items prev) st
  end.

Definition exportConsumers (now : Z) (st : State) : list GossipItem :=
  omap (fun k =>
    e ← table st !! k;
    let b := fst (sample_value now (local_balance e)) in
    if minimumGossipBalance <=? b then
      match k with InboundKey a => Some (MkGossipItem b a) | _ => None end
    else None) (inbound st).

End Logic.

(** ** Periodic activity *)

(** [erase (table_iter)]: the entry leaves the inactive list and the table. *)
Definition erase (k : Key) (st : State) : option State :=
  l ← unlink k (inactive st);
  Some (set_table (delete k (table st)) (set_inactive l st)).

(** The loop over a snapshot of [inactive]: stops at the first live entry. *)
Fixpoint expire_inactive (now : Z) (l : list Key) (st : State) : option State :=
  match l with
  | [] => Some st
  | k :: l =>
      e ← table st !! k;
      if whenExpires e <=? now then st ← erase k st; expire_inactive now l st
      else Some st
  end.

(** The loop over [import_table]: [done] are the entries already passed. *)
Fixpoint expire_imports (now : Z) (done l : list (string * Import)) (st : State) : option State :=
  match l with
  | [] => Some st
  | (o, i) :: l =>
      if imp_whenExpires i <=? now then
        st ← deduct_items (imp_items i) st;
        let st := set_imports (done ++ l) st in
        st ← release_items now (imp_items i) st;
        expire_imports now done l st
      else expire_imports now (done ++ [(o, i)]) l st
  end.

Definition periodicActivity (now : Z) (st : State) : option State :=
  st ← expire_inactive now (inactive st) st;
  expire_imports now [] (import_table st) st.

(** ** Charging *)

Inductive Disposition := ok | warn_ | drop_.

Definition disposition (balance : Z) : Disposition :=
  if dropThreshold <=? balance then drop_
  else if warningThreshold <=? balance then warn_ else ok.

Definition charge (now fee : Z) (k : Key) (st : State) : option (Disposition * State) :=
  e ← table st !! k;
  let '(b, e) := entry_add fee now e in
  Some (disposition b, set_table (<[k := e]> (table st)) st).

Definition warn (now : Z) (k : Key) (st : State) : option (bool * State) :=
  if decide (kind k = kindAdmin) then Some (false, st)
  else
    e ← table st !! k;
    let '(b, e) := entry_balance now e in
    let st := set_table (<[k := e]> (table st)) st in
    if (warningThreshold <=? b) && negb (now =? lastWarningTime e) then
      '(_, st) ← charge now feeWarning k st;
      e ← table st !! k;
      Some (true, set_table (<[k := set_warned now e]> (table st)) st)
    else Some (false, st).

Definition disconnect (now : Z) (k : Key) (st : State) : option (bool * State) :=
  if decide (kind k = kindAdmin) then Some (false, st)
  else
    e ← table st !! k;
    let '(b, e) := entry_balance now e in
    let st := set_table (<[k := e]> (table st)) st in
    if dropThreshold <=? b then
      '(_, st) ← charge now feeDrop k st; Some (true, st)
    else Some (false, st).

Definition balance (now : Z) (k : Key) (st : State) : option (Z * State) :=
  e ← table st !! k;
  let '(b, e) := entry_balance now e in
  Some (b, set_table (<[k := e]> (table st)) st).

(** [getJson (threshold)]: the entries at or above the threshold, with the
    [type] each list is reported under. *)
Definition json_list (now threshold : Z) (type : string) (st : State) (l : list Key)
    : list (Key * Z * Z * string) :=
  omap (fun k =>
    e ← table st !! k;
    let localBalance := fst (sample_value now (local_balance e)) in
    if threshold <=? i32 (localBalance + remote_balance e)
    then Some (k, localBalance, remote_balance e, type) else None) l.

Definition getJson (now threshold : Z) (st : State) : list (Key * Z * Z * string) :=
  json_list now threshold "outbound" st (inbound st) ++
  json_list now threshold "outbound" st (outbound st) ++
  json_list now threshold "admin" st (admin st).

(** ** The invariant *)

(** The imported balances of [k]. *)
Fixpoint bal (k : Key) (l : list Item) : Z :=
  match l with
  | [] => 0
  | i :: l => (if decide (it_consumer i = k) then it_balance i else 0) + bal k l
  end.

Lemma bal_app k l l' : bal k (l ++ l') = bal k l + bal k l'.
Proof. induction l as [|i l IH]; simpl; [done|]. rewrite IH. lia. Qed.

Lemma bal_absent k l : k ∉ map it_consumer l -> bal k l = 0.
Proof.
  induction l as [|i l IH]; simpl; [done|]. rewrite not_elem_of_cons. intros [H1 H2].
  rewrite decide_False by done. by rewrite IH.
Qed.

#[export] Instance bal_perm k : Proper ((≡ₚ) ==> (=)) (bal k).
Proof. intros l l' E. induction E; simpl; lia. Qed.

Definition expires (st : State) (k : Key) : Z := default 0 (whenExpires <$> table st !! k).

(** [refs] are all the references that exist, [bals] all the balances imported:
    reference counts and remote balances match them, the active lists hold the
    referenced entries by kind, the inactive list the others in order of expiry. *)
Record Inv (refs : list Key) (bals : list Item) (now : Z) (st : State) : Prop := {
  inv_table k : match table st !! k with
                | Some e => refcount e = cnt k refs /\ remote_balance e = i32 (bal k bals)
                | None => cnt k refs = 0
                end;
  inv_bals : map it_consumer bals ⊆ refs;
  inv_active kd : NoDup (active kd st);
  inv_active_iff kd k : k ∈ active kd st <-> kind k = kd /\ k ∈ refs;
  inv_inactive : NoDup (inactive st);
  inv_inactive_iff k : k ∈ inactive st <-> is_Some (table st !! k) /\ k ∉ refs;
  inv_sorted : StronglySorted Z.le (map (expires st) (inactive st));
  inv_latest : Forall (fun k => expires st k <= now + secondsUntilExpiration) (inactive st);
}.

Lemma inv_lookup refs bals now st k :
  Inv refs bals now st -> k ∈ refs -> exists e, table st !! k = Some e /\
    refcount e = cnt k refs /\ remote_balance e = i32 (bal k bals).
Proof.
  intros HI Hk. pose proof (inv_table _ _ _ _ HI k) as H. destruct (table st !! k) as [e|]; [eauto|].
  by apply cnt_zero in H.
Qed.

Lemma inv_empty : Inv [] [] 0 empty_state.
Proof.
  split; simpl.
  - intros k. by rewrite lookup_empty.
  - done.
  - intros []; constructor.
  - intros [] k; simpl; rewrite !elem_of_nil; tauto.
  - constructor.
  - intros k. rewrite lookup_empty, elem_of_nil. split; [done|]. by intros [[? ?] _].
  - constructor.
  - constructor.
Qed.

Lemma inv_perm refs refs' bals bals' now st :
  refs ≡ₚ refs' -> bals ≡ₚ bals' -> Inv refs bals now st -> Inv refs' bals' now st.
Proof.
  intros Er Eb HI. destruct HI; split; try done.
  - intros k. specialize (inv_table0 k). destruct (table st !! k); by rewrite <- Er, <- ?Eb.
  - intros k Hk. rewrite <- Er. apply inv_bals0. by rewrite Eb.
  - intros kd k. by rewrite <- Er.
  - intros k. by rewrite <- Er.
Qed.

Lemma inv_time refs bals now now' st :
  now <= now' -> Inv refs bals now st -> Inv refs bals now' st.
Proof.
  intros Hle HI. destruct HI; split; try done.
  eapply Forall_impl; [exact inv_latest0|]. simpl. intros. lia.
Qed.

Lemma inv_imports refs bals now st i :
  Inv refs bals now (set_imports i st) <-> Inv refs bals now st.
Proof. split; intros []; split; try done; intros []; (apply inv_active0 || apply inv_active_iff0). Qed.

(** Rewriting an entry in place: charges and imported balances. *)
Lemma inv_set_entry refs bals bals' now st k e e' :
  Inv refs bals now st -> table st !! k = Some e ->
  refcount e' = refcount e -> whenExpires e' = whenExpires e ->
  remote_balance e' = i32 (bal k bals') -> (forall k', k' <> k -> bal k' bals' = bal k' bals) ->
  map it_consumer bals' ⊆ refs ->
  Inv refs bals' now (set_table (<[k := e']> (table st)) st).
Proof.
  intros HI He Hr Hw Hb Hb' Hsub.
  assert (forall k', expires (set_table (<[k := e']> (table st)) st) k' = expires st k') as Hex.
  { intros k'. unfold expires; simpl. destruct (decide (k' = k)) as [->|].
    - by rewrite lookup_insert_eq, He; simpl; rewrite Hw.
    - by rewrite lookup_insert_ne. }
  destruct HI; split; try done.
  - intros k'. specialize (inv_table0 k'). simpl. destruct (decide (k' = k)) as [->|].
    + rewrite lookup_insert_eq. rewrite He in inv_table0. split; [|done]. destruct inv_table0. congruence.
    + rewrite lookup_insert_ne by done. destruct (table st !! k'); [|done]. by rewrite Hb'.
  - intros k'. rewrite inv_inactive_iff0. simpl. destruct (decide (k' = k)) as [->|].
    + rewrite lookup_insert_eq, He. split; intros [_ ?]; split; eauto.
    + by rewrite lookup_insert_ne.
  - simpl. erewrite map_ext; [done|]. done.
  - simpl. eapply Forall_impl; [exact inv_latest0|]. simpl. intros x. by rewrite Hex.
Qed.


Lemma set_active_proj kd l st :
  table (set_active kd l st) = table st /\ inactive (set_active kd l st) = inactive st /\
  import_table (set_active kd l st) = import_table st /\
  forall kd', active kd' (set_active kd l st) = if decide (kd' = kd) then l else active kd' st.
Proof. split_and!; try (by destruct kd). by destruct kd; intros []. Qed.

Lemma expires_other st st' k' :
  table st' !! k' = table st !! k' -> expires st' k' = expires st k'.
Proof. unfold expires. by intros ->. Qed.

(** Dropping one element keeps a mapped list sorted and bounded. *)
Lemma sorted_filter (P : Key -> Prop) `{forall x, Decision (P x)} (f : Key -> Z) l :
  StronglySorted Z.le (map f l) -> StronglySorted Z.le (map f (filter P l)).
Proof.
  induction l as [|x l IH]; [done|]. cbn [map]. intros [Hs Hf]%StronglySorted_inv.
  rewrite filter_cons. destruct (decide (P x)); [|auto]. cbn [map]. constructor; [auto|].
  rewrite Forall_forall in Hf |- *. intros y (z & -> & Hz)%list_elem_of_fmap.
  apply Hf, list_elem_of_fmap. exists z. split; [done|]. by apply list_elem_of_filter in Hz as [_ ?].
Qed.

Lemma sorted_snoc (f : Key -> Z) l x b :
  StronglySorted Z.le (map f l) -> Forall (fun k => f k <= b) l -> b <= f x ->
  StronglySorted Z.le (map f (l ++ [x])).
Proof.
  intros Hs Hf Hb. induction l as [|y l IH]; cbn [map app] in *; [repeat constructor|].
  apply StronglySorted_inv in Hs as [Hs Hy]. apply Forall_cons_1 in Hf as [Hfy Hf].
  constructor; [by apply IH|]. rewrite map_app. apply Forall_app. split; [done|].
  repeat constructor. simpl. lia.
Qed.

Lemma map_expires_ext st st' l :
  (forall k, k ∈ l -> table st' !! k = table st !! k) -> map (expires st') l = map (expires st) l.
Proof.
  intros H. apply map_ext_in. intros k Hk. apply expires_other, H. by apply list_elem_of_In.
Qed.

(** Linking [k] at the end of an active list, when it was not referenced. *)
Lemma inv_activate refs bals now st k e :
  Inv refs bals now st -> k ∉ refs -> refcount e = 1 -> remote_balance e = 0 ->
  let st1 := set_inactive (filter (fun x => x <> k) (inactive st)) (set_table (<[k := e]> (table st)) st) in
  Inv (k :: refs) bals now (set_active (kind k) (active (kind k) st1 ++ [k]) st1).
Proof.
  intros HI Hk Hr Hrem st1.
  destruct (set_active_proj (kind k) (active (kind k) st1 ++ [k]) st1) as (Et & Ei & _ & Ea).
  assert (forall kd, active kd st1 = active kd st) as Ea1 by (by intros []).
  pose proof (inv_bals _ _ _ _ HI) as Hsub.
  destruct HI; split.
  - intros k'. rewrite Et. simpl. specialize (inv_table0 k'). rewrite cnt_cons.
    destruct (decide (k' = k)) as [->|].
    + rewrite lookup_insert_eq. rewrite decide_True by done. apply cnt_zero in Hk as Hk0.
      split; [lia|]. rewrite Hrem, bal_absent; [done|]. by intros ?%Hsub.
    + rewrite lookup_insert_ne, decide_False by done. by rewrite Z.add_0_l.
  - intros x Hx. right. by apply Hsub.
  - intros kd. rewrite Ea, !Ea1. destruct (decide (kd = kind k)) as [->|]; [|done].
    apply NoDup_app. split_and!; [done| |apply NoDup_singleton].
    by intros x [_ Hx]%inv_active_iff0 ->%list_elem_of_singleton.
  - intros kd k'. rewrite Ea, !Ea1. destruct (decide (kd = kind k)) as [->|];
      rewrite ?elem_of_app, inv_active_iff0, ?list_elem_of_singleton, elem_of_cons; naive_solver.
  - rewrite Ei. simpl. by apply NoDup_filter.
  - intros k'. rewrite Ei, Et. cbn [inactive st1 set_inactive set_table table].
    rewrite list_elem_of_filter, inv_inactive_iff0, elem_of_cons.
    destruct (decide (k' = k)) as [->|]; [naive_solver|]. rewrite lookup_insert_ne by done. naive_solver.
  - rewrite Ei. cbn [inactive st1 set_inactive]. erewrite map_expires_ext; [by apply sorted_filter|].
    intros k' [Hne _]%list_elem_of_filter. rewrite Et. simpl. by rewrite lookup_insert_ne.
  - rewrite Ei. cbn [inactive st1 set_inactive]. rewrite Forall_forall in inv_latest0 |- *.
    intros k' [Hne Hin]%list_elem_of_filter. erewrite expires_other; [by apply inv_latest0|].
    rewrite Et. simpl. by rewrite lookup_insert_ne.
Qed.


Lemma unlink_some k l : k ∈ l -> unlink k l = Some (filter (fun x => x <> k) l).
Proof. intros. unfold unlink. by rewrite decide_True. Qed.

Lemma filter_absent (k : Key) (l : list Key) : k ∉ l -> filter (fun x => x <> k) l = l.
Proof.
  induction l as [|x l IH]; [done|]. rewrite not_elem_of_cons, filter_cons. intros [H1 H2].
  rewrite decide_True by done. by rewrite IH.
Qed.

(** Counting a reference up or down while the entry stays referenced. *)
Lemma inv_recount refs refs' bals now st k e n :
  Inv refs bals now st -> table st !! k = Some e -> k ∈ refs -> k ∈ refs' ->
  (forall k', k' <> k -> cnt k' refs' = cnt k' refs) -> cnt k refs' = n ->
  map it_consumer bals ⊆ refs' ->
  Inv refs' bals now (set_table (<[k := set_refcount n e]> (table st)) st).
Proof.
  intros HI He Hk Hk' Hcnt Hn Hsub.
  assert (forall x, x ∈ refs' <-> x ∈ refs) as Hiff.
  { intros x. destruct (decide (x = k)) as [->|]; [done|]. by rewrite <- !cnt_pos, Hcnt. }
  assert (forall x, x ∈ inactive st ->
    table (set_table (<[k := set_refcount n e]> (table st)) st) !! x = table st !! x) as Hlk.
  { intros x [_ Hx]%(inv_inactive_iff _ _ _ _ HI). simpl. rewrite lookup_insert_ne; [done|]. by intros ->. }
  destruct HI; split; try done.
  - intros x. specialize (inv_table0 x). simpl. destruct (decide (x = k)) as [->|].
    + rewrite lookup_insert_eq. rewrite He in inv_table0. simpl. split; [done|]. by destruct inv_table0.
    + rewrite lookup_insert_ne by done. by rewrite Hcnt.
  - intros kd x. by rewrite Hiff, <- inv_active_iff0.
  - intros x. rewrite inv_inactive_iff0, Hiff. simpl. destruct (decide (x = k)) as [->|].
    + naive_solver.
    + by rewrite lookup_insert_ne.
  - by erewrite map_expires_ext.
  - rewrite Forall_forall in inv_latest0 |- *. intros x Hx.
    erewrite expires_other; [by apply inv_latest0|]. by apply Hlk.
Qed.

(** [refs] is the references before, [k :: refs] after. *)
Lemma new_endpoint_inv refs bals now st k :
  Inv refs bals now st ->
  exists st', new_endpoint k st = Some st' /\ Inv (k :: refs) bals now st' /\
    import_table st' = import_table st.
Proof.
  intros HI. pose proof (inv_table _ _ _ _ HI k) as Ht.
  pose proof (inv_inactive_iff _ _ _ _ HI k) as Hin. unfold new_endpoint.
  destruct (decide (k ∈ refs)) as [Hk|Hk].
  - destruct (inv_lookup _ _ _ _ k HI Hk) as (e & He & Hr & Hb). rewrite He. cbn [refcount set_refcount].
    apply cnt_pos in Hk as Hk'. rewrite (proj2 (Z.eqb_neq _ 1)) by lia.
    eexists. split_and!; [done| |done].
    apply (inv_recount refs); try done; [left| |by rewrite cnt_cons, decide_True by done; lia|].
    + intros k' Hne. by rewrite cnt_cons, decide_False by done.
    + intros x Hx. right. by apply (inv_bals _ _ _ _ HI).
  - apply cnt_zero in Hk as Hk0. pose proof (inv_bals _ _ _ _ HI) as Hsub.
    assert (bal k bals = 0) as Hb0 by (apply bal_absent; by intros ?%Hsub).
    destruct (table st !! k) as [e|] eqn:He; cbn [refcount set_refcount].
    + destruct Ht as [Hr Hb]. rewrite Hr, Hk0. cbn [Z.add Z.eqb Pos.eqb].
      assert (k ∈ inactive st) as Hki by naive_solver.
      rewrite (unlink_some k) by done. eexists. split_and!; [done| |].
      * apply (inv_activate refs bals now st k _ HI Hk); simpl; [lia|]. by rewrite Hb, Hb0.
      * by destruct (kind k).
    + cbn [Z.add Z.eqb Pos.eqb]. eexists. split_and!; [done| |by destruct (kind k)].
      assert (k ∉ inactive st) as Hki by (intros [[? ?] _]%Hin; done).
      pose proof (inv_activate refs bals now st k (set_refcount 1 new_entry) HI Hk eq_refl eq_refl) as H.
      by rewrite (filter_absent k (inactive st)) in H.
Qed.

(** Unlinking [k] from its active list when its last reference goes. *)
Lemma inv_deactivate refs bals now st k e :
  Inv (k :: refs) bals now st -> k ∉ refs -> map it_consumer bals ⊆ refs ->
  refcount e = 0 -> remote_balance e = 0 -> whenExpires e = now + secondsUntilExpiration ->
  let st1 := set_active (kind k) (filter (fun x => x <> k) (active (kind k) st)) st in
  let st2 := set_inactive (inactive st1 ++ [k]) st1 in
  Inv refs bals now (set_table (<[k := e]> (table st2)) st2).
Proof.
  intros HI Hk Hsub Hr Hb Hw st1 st2.
  destruct (set_active_proj (kind k) (filter (fun x => x <> k) (active (kind k) st)) st) as (Et & Ei & _ & Ea).
  fold st1 in Et, Ei, Ea.
  assert (k ∉ inactive st) as Hki by (intros [_ Hn]%(inv_inactive_iff _ _ _ _ HI); apply Hn; left).
  assert (forall x, x ∈ inactive st -> table (set_table (<[k := e]> (table st2)) st2) !! x = table st !! x) as Hlk.
  { intros x Hx. simpl. rewrite Et, lookup_insert_ne; [done|]. by intros ->. }
  assert (Forall (fun x => expires (set_table (<[k := e]> (table st2)) st2) x <= now + secondsUntilExpiration)
            (inactive st)) as Hlate.
  { pose proof (inv_latest _ _ _ _ HI) as Hl. rewrite Forall_forall in Hl |- *. intros x Hx.
    erewrite expires_other; [by apply Hl|by apply Hlk]. }
  assert (expires (set_table (<[k := e]> (table st2)) st2) k = now + secondsUntilExpiration) as Hexp.
  { unfold expires. simpl. by rewrite lookup_insert_eq. }
  destruct HI; split.
  - intros x. simpl. rewrite Et. specialize (inv_table0 x). rewrite cnt_cons in inv_table0.
    destruct (decide (x = k)) as [->|].
    + rewrite lookup_insert_eq, Hr, Hb, bal_absent; [|by intros ?%Hsub]. split; [|done].
      symmetry. by apply cnt_zero.
    + rewrite lookup_insert_ne by done. by rewrite decide_False in inv_table0.
  - done.
  - intros kd. change (NoDup (active kd st1)). rewrite Ea.
    destruct (decide (kd = kind k)) as [->|]; [by apply NoDup_filter|done].
  - intros kd x. change (x ∈ active kd st1 <-> kind x = kd /\ x ∈ refs). rewrite Ea.
    destruct (decide (kd = kind k)) as [->|].
    + rewrite list_elem_of_filter, inv_active_iff0, elem_of_cons. naive_solver.
    + rewrite inv_active_iff0, elem_of_cons. naive_solver.
  - simpl. rewrite Ei. apply NoDup_app. split_and!; [done| |apply NoDup_singleton].
    by intros x Hx ->%list_elem_of_singleton.
  - intros x. simpl. rewrite Et, Ei, elem_of_app, list_elem_of_singleton, inv_inactive_iff0, elem_of_cons.
    destruct (decide (x = k)) as [->|].
    + rewrite lookup_insert_eq. naive_solver.
    + rewrite lookup_insert_ne by done. naive_solver.
  - cbn [inactive st2 set_inactive set_table]. rewrite Ei.
    eapply sorted_snoc; [|exact Hlate|by rewrite Hexp]. by erewrite map_expires_ext.
  - cbn [inactive st2 set_inactive set_table]. rewrite Ei. apply Forall_app. split; [exact Hlate|].
    repeat constructor. by rewrite Hexp.
Qed.

(** [k :: refs] before, [refs] after; the imports must not need the reference. *)
Lemma release_inv refs bals now st k :
  Inv (k :: refs) bals now st -> map it_consumer bals ⊆ refs ->
  exists st', release now k st = Some st' /\ Inv refs bals now st' /\
    import_table st' = import_table st.
Proof.
  intros HI Hsub. destruct (inv_lookup _ _ _ _ k HI) as (e & He & Hr & Hb); [left|].
  rewrite cnt_cons, decide_True in Hr by done.
  unfold release. rewrite He. cbn [mbind option_bind refcount set_refcount].
  replace (refcount e - 1) with (cnt k refs) by lia.
  destruct (Z.eqb_spec (cnt k refs) 0) as [E|E].
  - apply cnt_zero in E as Hk. rewrite (unlink_some k).
    2: { apply (inv_active_iff _ _ _ _ HI). split; [done|left]. }
    cbn [mbind option_bind]. eexists. split_and!; [done| |by destruct (kind k)].
    apply inv_deactivate; try done. simpl. rewrite Hb, bal_absent; [done|]. by intros ?%Hsub.
  - eexists. split_and!; [done| |done].
    assert (k ∈ refs) as Hk by (apply cnt_pos; pose proof (cnt_nonneg k refs); lia).
    apply (inv_recount (k :: refs)); try done; [left|].
    intros k' Hne. by rewrite cnt_cons, decide_False by done.
Qed.

Lemma acquire_inv refs bals now st k :
  Inv refs bals now st -> k ∈ refs ->
  exists st', acquire k st = Some st' /\ Inv (k :: refs) bals now st' /\
    import_table st' = import_table st.
Proof.
  intros HI Hk. destruct (inv_lookup _ _ _ _ k HI Hk) as (e & He & Hr & _).
  unfold acquire. rewrite He. eexists. split_and!; [done| |done].
  apply (inv_recount refs); try done; [left| |by rewrite cnt_cons, decide_True by done; lia|].
  - intros k' Hne. by rewrite cnt_cons, decide_False by done.
  - intros x Hx. right. by apply (inv_bals _ _ _ _ HI).
Qed.

Lemma erase_inv refs bals now st k :
  Inv refs bals now st -> k ∈ inactive st ->
  exists st', erase k st = Some st' /\ Inv refs bals now st' /\
    import_table st' = import_table st /\ inactive st' = filter (fun x => x <> k) (inactive st) /\
    (forall x, x <> k -> table st' !! x = table st !! x).
Proof.
  intros HI Hk. unfold erase. rewrite (unlink_some k) by done. cbn [mbind option_bind].
  eexists. split_and!; [done| |done|done|by intros; simpl; apply lookup_delete_ne].
  assert (forall x, x ∈ filter (fun x => x <> k) (inactive st) ->
    table (set_table (delete k (table st)) st) !! x = table st !! x) as Hlk.
  { intros x [Hx _]%list_elem_of_filter. simpl. by apply lookup_delete_ne. }
  apply (inv_inactive_iff _ _ _ _ HI) in Hk as [_ Hk].
  destruct HI; split; try done.
  - intros x. specialize (inv_table0 x). simpl. destruct (decide (x = k)) as [->|].
    + rewrite lookup_delete_eq. by apply cnt_zero.
    + by rewrite lookup_delete_ne.
  - simpl. by apply NoDup_filter.
  - intros x. simpl. rewrite list_elem_of_filter, inv_inactive_iff0. destruct (decide (x = k)) as [->|].
    + rewrite lookup_delete_eq. split; [naive_solver|]. by intros [[? ?] _].
    + rewrite lookup_delete_ne by done. naive_solver.
  - simpl. erewrite map_expires_ext; [by apply sorted_filter|exact Hlk].
  - simpl. rewrite Forall_forall in inv_latest0 |- *. intros x Hx.
    erewrite expires_other; [|by apply Hlk]. apply inv_latest0. by apply list_elem_of_filter in Hx as [_ ?].
Qed.

Lemma add_remote_inv refs bals now st k b :
  Inv refs bals now st -> k ∈ refs ->
  exists st', add_remote b k st = Some st' /\ Inv refs (MkItem b k :: bals) now st' /\
    import_table st' = import_table st.
Proof.
  intros HI Hk. destruct (inv_lookup _ _ _ _ k HI Hk) as (e & He & _ & Hb).
  unfold add_remote. rewrite He. eexists. split_and!; [done| |done].
  eapply inv_set_entry; try done; simpl.
  - rewrite decide_True by done. rewrite Hb, swrap_add. f_equal. lia.
  - intros k' Hne. by rewrite decide_False by done.
  - intros x [->|Hx]%elem_of_cons; [done|]. by apply (inv_bals _ _ _ _ HI).
Qed.

(** Deducting a balance that was added. *)
Lemma sub_remote_inv refs bals now st k b :
  Inv refs (MkItem b k :: bals) now st ->
  exists st', add_remote (- b) k st = Some st' /\ Inv refs bals now st' /\
    import_table st' = import_table st.
Proof.
  intros HI. assert (k ∈ refs) as Hk by (apply (inv_bals _ _ _ _ HI); left).
  destruct (inv_lookup _ _ _ _ k HI Hk) as (e & He & _ & Hb).
  unfold add_remote. rewrite He. eexists. split_and!; [done| |done].
  simpl in Hb. rewrite decide_True in Hb by done.
  eapply inv_set_entry; try done; simpl.
  - rewrite Hb, swrap_add. f_equal. lia.
  - intros k' Hne. by rewrite decide_False by done.
  - intros x Hx. apply (inv_bals _ _ _ _ HI). by right.
Qed.

Section Operations.
Context {EP : Endpoints}.

Lemma newInbound_inv refs bals now st a :
  Inv refs bals now st ->
  exists k st', newInboundEndpoint a st = Some (k, st') /\ Inv (k :: refs) bals now st' /\
    import_table st' = import_table st.
Proof.
  intros HI. unfold newInboundEndpoint, newAdminEndpoint. destruct (isWhitelisted a).
  - destruct (new_endpoint_inv _ _ _ _ (AdminKey (endpoint_to_string a)) HI) as (st' & -> & ? & ?). eauto.
  - destruct (new_endpoint_inv _ _ _ _ (InboundKey (at_port a 0)) HI) as (st' & -> & ? & ?). eauto.
Qed.

Lemma newOutbound_inv refs bals now st a :
  Inv refs bals now st ->
  exists k st', newOutboundEndpoint a st = Some (k, st') /\ Inv (k :: refs) bals now st' /\
    import_table st' = import_table st.
Proof.
  intros HI. unfold newOutboundEndpoint, newAdminEndpoint. destruct (isWhitelisted a).
  - destruct (new_endpoint_inv _ _ _ _ (AdminKey (endpoint_to_string a)) HI) as (st' & -> & ? & ?). eauto.
  - destruct (new_endpoint_inv _ _ _ _ (OutboundKey a) HI) as (st' & -> & ? & ?). eauto.
Qed.

Lemma import_items_inv gs refs bals now st :
  Inv refs bals now st ->
  exists items st', import_items gs st = Some (items, st') /\
    Inv (map it_consumer items ++ refs) (items ++ bals) now st' /\ import_table st' = import_table st.
Proof.
  revert refs bals st. induction gs as [|g gs IH]; intros refs bals st HI.
  - exists [], st. done.
  - cbn [import_items]. unfold import_item.
    destruct (newInbound_inv _ _ _ _ (g_address g) HI) as (k & st1 & -> & HI1 & E1).
    cbn [mbind option_bind].
    destruct (add_remote_inv _ _ _ _ k (g_balance g) HI1) as (st2 & -> & HI2 & E2); [left|].
    cbn [mbind option_bind].
    destruct (IH _ _ _ HI2) as (items & st3 & -> & HI3 & E3). cbn [mbind option_bind].
    do 2 eexists. split_and!; [done| |congruence].
    eapply inv_perm; [| |exact HI3]; simpl; by rewrite <- Permutation_middle.
Qed.

Lemma deduct_items_inv items refs bals now st :
  Inv refs (items ++ bals) now st ->
  exists st', deduct_items items st = Some st' /\ Inv refs bals now st' /\
    import_table st' = import_table st.
Proof.
  revert st. induction items as [|[b k] items IH]; intros st HI; [by eauto|].
  cbn [deduct_items it_balance it_consumer].
  destruct (sub_remote_inv _ _ _ _ _ _ HI) as (st1 & -> & HI1 & E1). cbn [mbind option_bind].
  destruct (IH _ HI1) as (st2 & -> & HI2 & E2). eexists. split_and!; [done|done|congruence].
Qed.

Lemma release_items_inv items refs bals now st :
  Inv (map it_consumer items ++ refs) bals now st -> map it_consumer bals ⊆ refs ->
  exists st', release_items now items st = Some st' /\ Inv refs bals now st' /\
    import_table st' = import_table st.
Proof.
  revert st. induction items as [|[b k] items IH]; intros st HI Hsub; [by eauto|].
  cbn [release_items it_consumer map app] in *.
  destruct (release_inv _ _ _ _ _ HI) as (st1 & -> & HI1 & E1).
  { intros x Hx. apply elem_of_app. right. by apply Hsub. }
  cbn [mbind option_bind]. destruct (IH _ HI1 Hsub) as (st2 & -> & HI2 & E2).
  eexists. split_and!; [done|done|congruence].
Qed.
End Operations.


(** ** The system *)

(** The items of the live imports. *)
Definition import_bals (l : list (string * Import)) : list Item := l ≫= (fun p => imp_items (snd p)).

(** All references are the consumers held outside and those of the imports. *)
Definition SysInv (held : list Key) (now : Z) (st : State) : Prop :=
  let bals := import_bals (import_table st) in Inv (held ++ map it_consumer bals) bals now st.

Lemma replace_import_bals o next l prev :
  find_import o l = Some prev ->
  exists rest, import_bals l ≡ₚ imp_items prev ++ rest /\
    import_bals (replace_import o next l) ≡ₚ imp_items next ++ rest.
Proof.
  induction l as [|[o' i] l IH]; [done|]. cbn [find_import replace_import].
  destruct (decide (o' = o)) as [->|]; [intros [= ->]; by exists (import_bals l)|].
  intros H. destruct (IH H) as (rest & E1 & E2). exists (imp_items i ++ rest).
  change (import_bals ((o', ?x) :: ?l)) with (imp_items x ++ import_bals l).
  rewrite E1, E2. split; by rewrite !app_assoc, (Permutation_app_comm (imp_items i)).
Qed.

Section System.
Context {EP : Endpoints}.

Lemma import_inv held now origin gossip st :
  SysInv held now st ->
  exists st', importConsumers now origin gossip st = Some st' /\ SysInv held now st'.
Proof.
  unfold SysInv. intros HI. unfold importConsumers.
  destruct (import_items_inv gossip _ _ _ _ HI) as (items & st1 & Es & HI1 & E1).
  destruct (find_import origin (import_table st)) as [prev|] eqn:Hf; rewrite Es; cbn [mbind option_bind].
  - destruct (replace_import_bals origin (MkImport (now + gossipExpirationSeconds) items) _ _ Hf)
      as (rest & P1 & P2). cbn [imp_items] in P2.
    assert (Inv (map it_consumer (imp_items prev) ++ held ++ map it_consumer (items ++ rest))
              (imp_items prev ++ items ++ rest) now st1) as HI2.
    { eapply inv_perm; [| |exact HI1].
      - rewrite P1, !map_app. solve_Permutation.
      - rewrite P1. solve_Permutation. }
    destruct (deduct_items_inv _ _ _ _ _ HI2) as (st2 & -> & HI3 & E2). cbn [mbind option_bind].
    rewrite E2, E1. set (it' := replace_import _ _ _) in *.
    destruct (release_items_inv (imp_items prev) (held ++ map it_consumer (items ++ rest)) (items ++ rest)
      now (set_imports it' st2)) as (st3 & -> & HI4 & E3).
    { by apply inv_imports. }
    { intros x Hx. apply elem_of_app. by right. }
    eexists. split; [done|]. rewrite E3. simpl.
    eapply inv_perm; [| |exact HI4]; by rewrite P2.
  - eexists. split; [done|]. cbn [import_table set_imports]. apply inv_imports. rewrite E1.
    assert (import_bals (import_table st ++ [(origin, MkImport (now + gossipExpirationSeconds) items)])
            = import_bals (import_table st) ++ items) as ->.
    { unfold import_bals. rewrite bind_app. simpl. by rewrite app_nil_r. }
    eapply inv_perm; [| |exact HI1]; rewrite ?map_app; solve_Permutation.
Qed.

(** Expiry of the inactive list removes every entry whose time has come. *)
Lemma expire_inactive_inv l refs bals now st :
  Inv refs bals now st -> inactive st = l ->
  exists st', expire_inactive now l st = Some st' /\ Inv refs bals now st' /\
    import_table st' = import_table st /\ Forall (fun k => now < expires st' k) (inactive st').
Proof.
  revert st. induction l as [|k l IH]; intros st HI Hl.
  - exists st. split_and!; [done|done|done|]. rewrite Hl. constructor.
  - cbn [expire_inactive]. assert (k ∈ inactive st) as Hk by (rewrite Hl; left).
    pose proof Hk as [[e He] _]%(inv_inactive_iff _ _ _ _ HI). rewrite He. cbn [mbind option_bind].
    destruct (Z.leb_spec (whenExpires e) now).
    + destruct (erase_inv _ _ _ _ k HI Hk) as (st1 & -> & HI1 & E1 & E2 & _). cbn [mbind option_bind].
      pose proof (inv_inactive _ _ _ _ HI) as Hnd. rewrite Hl in Hnd. apply NoDup_cons in Hnd as [Hnk _].
      rewrite Hl, filter_cons, decide_False in E2 by tauto. rewrite (filter_absent k l) in E2 by done.
      destruct (IH _ HI1 E2) as (st2 & -> & HI2 & E3 & Hf). eexists. split_and!; [done|done|congruence|done].
    + exists st. split_and!; [done|done|done|]. pose proof (inv_sorted _ _ _ _ HI) as Hs.
      rewrite Hl in Hs |- *. cbn [map] in Hs. apply StronglySorted_inv in Hs as [_ Hge].
      assert (expires st k = whenExpires e) as Ee by (unfold expires; by rewrite He).
      constructor; [lia|]. rewrite Forall_forall in Hge. rewrite Forall_forall. intros x Hx.
      enough (expires st k <= expires st x) by lia. apply Hge, list_elem_of_fmap. eauto.
Qed.

(** Every inactive entry expires later than now. *)
Definition late (now : Z) (st : State) : Prop := Forall (fun k => now < expires st k) (inactive st).

Lemma add_remote_late b k now st st' : late now st -> add_remote b k st = Some st' -> late now st'.
Proof.
  unfold late, add_remote. intros Hl H. destruct (table st !! k) as [e|] eqn:He; [|done].
  injection H as <-. simpl. eapply Forall_impl; [exact Hl|]. intros x. unfold expires. simpl.
  destruct (decide (x = k)) as [->|]; [by rewrite lookup_insert_eq, He|by rewrite lookup_insert_ne].
Qed.

Lemma release_late k now st st' : late now st -> release now k st = Some st' -> late now st'.
Proof.
  unfold late, release. intros Hl H. destruct (table st !! k) as [e|] eqn:He; [|done].
  cbn [mbind option_bind refcount set_refcount] in H. case_match.
  - destruct (unlink k (active (kind k) st)) as [l|]; [|done]. injection H as <-.
    destruct (set_active_proj (kind k) l st) as (Et & Ei & _ & _).
    cbn [inactive set_table set_inactive]. rewrite Ei. apply Forall_app. split.
    + eapply Forall_impl; [exact Hl|]. intros x. unfold expires. simpl. rewrite Et.
      destruct (decide (x = k)) as [->|]; [|by rewrite lookup_insert_ne].
      rewrite lookup_insert_eq. simpl. unfold secondsUntilExpiration. lia.
    + repeat constructor. unfold expires. simpl. rewrite lookup_insert_eq. simpl.
      unfold secondsUntilExpiration. lia.
  - injection H as <-. simpl. eapply Forall_impl; [exact Hl|]. intros x. unfold expires. simpl.
    destruct (decide (x = k)) as [->|]; [by rewrite lookup_insert_eq, He|by rewrite lookup_insert_ne].
Qed.

Lemma deduct_items_late items now st st' : late now st -> deduct_items items st = Some st' -> late now st'.
Proof.
  revert st. induction items as [|i items IH]; intros st Hl; cbn [deduct_items]; [by intros [= <-]|].
  destruct (add_remote _ _ st) as [st1|] eqn:E; [|done]. by apply IH, (add_remote_late _ _ _ _ _ Hl E).
Qed.

Lemma release_items_late items now st st' : late now st -> release_items now items st = Some st' -> late now st'.
Proof.
  revert st. induction items as [|i items IH]; intros st Hl; cbn [release_items]; [by intros [= <-]|].
  destruct (release _ _ st) as [st1|] eqn:E; [|done]. by apply IH, (release_late _ _ _ _ Hl E).
Qed.

Lemma expire_imports_late l dn now st st' : late now st -> expire_imports now dn l st = Some st' -> late now st'.
Proof.
  revert dn st. induction l as [|[o i] l IH]; intros dn st Hl; cbn [expire_imports]; [by intros [= <-]|].
  case_match; [|by apply IH]. destruct (deduct_items _ st) as [st1|] eqn:E1; [|done]. cbn [mbind option_bind].
  destruct (release_items _ _ _) as [st2|] eqn:E2; [|done]. cbn [mbind option_bind]. apply IH.
  eapply release_items_late; [|exact E2]. by apply (deduct_items_late _ _ _ _ Hl E1).
Qed.

Lemma expire_imports_inv l held done now st :
  import_table st = done ++ l -> SysInv held now st ->
  Forall (fun p => now < imp_whenExpires (snd p)) done ->
  exists st', expire_imports now done l st = Some st' /\ SysInv held now st' /\
    Forall (fun p => now < imp_whenExpires (snd p)) (import_table st').
Proof.
  revert done st. induction l as [|[o i] l IH]; intros dn st Et HI Hd; cbn [expire_imports].
  - exists st. rewrite app_nil_r in Et. by rewrite Et.
  - destruct (Z.leb_spec (imp_whenExpires i) now).
    + unfold SysInv in HI. rewrite Et in HI.
      assert (import_bals (dn ++ (o, i) :: l) ≡ₚ imp_items i ++ import_bals (dn ++ l)) as P.
      { unfold import_bals. rewrite !bind_app. simpl. solve_Permutation. }
      set (rest := import_bals (dn ++ l)) in *.
      assert (Inv (map it_consumer (imp_items i) ++ held ++ map it_consumer rest) (imp_items i ++ rest) now st) as HI1.
      { eapply inv_perm; [| |exact HI]; rewrite P, ?map_app; [solve_Permutation|done]. }
      destruct (deduct_items_inv _ _ _ _ _ HI1) as (st1 & -> & HI2 & _). cbn [mbind option_bind].
      destruct (release_items_inv (imp_items i) (held ++ map it_consumer rest) rest now
        (set_imports (dn ++ l) st1)) as (st2 & -> & HI3 & E2).
      { by apply inv_imports. }
      { intros x Hx. apply elem_of_app. by right. }
      cbn [mbind option_bind]. apply IH; [by rewrite E2| |done]. unfold SysInv. by rewrite E2.
    + apply IH; [by rewrite Et, <- app_assoc|done|]. apply Forall_app. split; [done|]. by repeat constructor.
Qed.

Lemma periodic_inv held now st :
  SysInv held now st ->
  exists st', periodicActivity now st = Some st' /\ SysInv held now st' /\ late now st' /\
    Forall (fun p => now < imp_whenExpires (snd p)) (import_table st').
Proof.
  intros HI. unfold periodicActivity.
  destruct (expire_inactive_inv (inactive st) _ _ _ _ HI eq_refl) as (st1 & -> & HI1 & E1 & Hl).
  cbn [mbind option_bind]. destruct (expire_imports_inv (import_table st1) held [] now st1)
    as (st2 & E2 & HI2 & Hf); [done| |constructor|].
  - unfold SysInv. by rewrite E1.
  - exists st2. split_and!; [done|done| |done]. by apply (expire_imports_late _ _ _ _ _ Hl E2).
Qed.
End System.


(** ** The state machine *)

Section Machine.
Context {EP : Endpoints}.

(** The clock, the consumers handed out, and the manager's state. *)
Record Sys := MkSys { clock : Z; held : list Key; state : State }.

Definition init : Sys := MkSys 0 [] empty_state.

(** What the rest of the server can do, at any moment and in any order. *)
Inductive op :=
| OpTick (dt : Z)
| OpInbound (a : Endpoint)
| OpOutbound (a : Endpoint)
| OpAdmin (name : string)
| OpCopy (k : Key)
| OpRelease (k : Key)
| OpElevate (k : Key) (name : string)
| OpCharge (fee : Z) (k : Key)
| OpWarn (k : Key)
| OpDisconnect (k : Key)
| OpBalance (k : Key)
| OpImport (origin : string) (gossip : list GossipItem)
| OpPeriodic.

(** Time moves forward, and a consumer is only used while it is held. *)
Definition client_ok (o : op) (s : Sys) : Prop :=
  match o with
  | OpTick dt => 0 <= dt
  | OpCopy k | OpRelease k | OpElevate k _ | OpCharge _ k
  | OpWarn k | OpDisconnect k | OpBalance k => k ∈ held s
  | _ => True
  end.

#[export] Instance client_ok_dec o s : Decision (client_ok o s).
Proof. destruct o; simpl; apply _. Defined.

(** Forgets one occurrence of [k]. *)
Fixpoint drop_ref (k : Key) (l : list Key) : list Key :=
  match l with
  | [] => []
  | x :: l => if decide (x = k) then l else x :: drop_ref k l
  end.

Definition exec (o : op) (s : Sys) : option Sys :=
  let '(MkSys now h st) := s in
  match o with
  | OpTick dt => Some (MkSys (now + dt) h st)
  | OpInbound a => '(k, st) ← newInboundEndpoint a st; Some (MkSys now (k :: h) st)
  | OpOutbound a => '(k, st) ← newOutboundEndpoint a st; Some (MkSys now (k :: h) st)
  | OpAdmin name => '(k, st) ← newAdminEndpoint name st; Some (MkSys now (k :: h) st)
  | OpCopy k => st ← acquire k st; Some (MkSys now (k :: h) st)
  | OpRelease k => st ← release now k st; Some (MkSys now (drop_ref k h) st)
  | OpElevate k name =>
      '(k', st) ← elevateToAdminEndpoint now k name st; Some (MkSys now (k' :: drop_ref k h) st)
  | OpCharge fee k => '(_, st) ← charge now fee k st; Some (MkSys now h st)
  | OpWarn k => '(_, st) ← warn now k st; Some (MkSys now h st)
  | OpDisconnect k => '(_, st) ← disconnect now k st; Some (MkSys now h st)
  | OpBalance k => '(_, st) ← balance now k st; Some (MkSys now h st)
  | OpImport origin gossip => st ← importConsumers now origin gossip st; Some (MkSys now h st)
  | OpPeriodic => st ← periodicActivity now st; Some (MkSys now h st)
  end.

Definition step (s s' : Sys) : Prop := exists o, client_ok o s /\ exec o s = Some s'.

Definition sys_inv (s : Sys) : Prop := SysInv (held s) (clock s) (state s).

Lemma drop_ref_perm k l : k ∈ l -> l ≡ₚ k :: drop_ref k l.
Proof.
  induction l as [|x l IH]; [by intros ?%elem_of_nil|]. cbn [drop_ref]. destruct (decide (x = k)) as [->|]; [done|].
  intros [->|H]%elem_of_cons; [done|]. rewrite (IH H) at 1. by rewrite Permutation_swap.
Qed.

(** Charging and reading a balance leave references and imports alone. *)
Lemma touch_inv h now st k e s t :
  SysInv h now st -> table st !! k = Some e ->
  SysInv h now (set_table (<[k := set_warned t (set_local s e)]> (table st)) st).
Proof.
  intros HI He. unfold SysInv in *. pose proof (inv_table _ _ _ _ HI k) as Ht. rewrite He in Ht.
  eapply inv_set_entry; try done; [apply Ht|]. apply (inv_bals _ _ _ _ HI).
Qed.

Lemma touch_local_inv h now st k e s :
  SysInv h now st -> table st !! k = Some e ->
  SysInv h now (set_table (<[k := set_local s e]> (table st)) st).
Proof.
  intros HI He. unfold SysInv in *. pose proof (inv_table _ _ _ _ HI k) as Ht. rewrite He in Ht.
  eapply inv_set_entry; try done; [apply Ht|]. apply (inv_bals _ _ _ _ HI).
Qed.

Lemma held_lookup h now st k : SysInv h now st -> k ∈ h -> exists e, table st !! k = Some e.
Proof.
  intros HI Hk. destruct (inv_lookup _ _ _ _ k HI) as (e & ? & _); [|eauto].
  apply elem_of_app. by left.
Qed.

Lemma charge_inv h now st fee k :
  SysInv h now st -> k ∈ h -> exists d st', charge now fee k st = Some (d, st') /\ SysInv h now st' /\
    exists e, table st' !! k = Some e.
Proof.
  intros HI Hk. destruct (held_lookup _ _ _ _ HI Hk) as [e He]. unfold charge, entry_add. rewrite He.
  cbn [mbind option_bind]. destruct (sample_add fee now (local_balance e)) as [v s].
  do 2 eexists. split_and!; [done|by apply touch_local_inv|]. simpl. rewrite lookup_insert_eq. eauto.
Qed.

Lemma release_held h now st k :
  SysInv h now st -> k ∈ h ->
  exists st', release now k st = Some st' /\ SysInv (drop_ref k h) now st'.
Proof.
  unfold SysInv. intros HI Hk. set (b := import_bals (import_table st)) in *.
  destruct (release_inv (drop_ref k h ++ map it_consumer b) b now st k) as (st' & -> & HI' & E).
  - eapply inv_perm; [|done|exact HI]. by rewrite (drop_ref_perm k h) at 1.
  - intros x Hx. apply elem_of_app. by right.
  - eexists. split; [done|]. by rewrite E.
Qed.

Lemma admin_inv h now st name :
  SysInv h now st ->
  exists st', new_endpoint (AdminKey name) st = Some st' /\ SysInv (AdminKey name :: h) now st'.
Proof.
  unfold SysInv. intros HI. destruct (new_endpoint_inv _ _ _ _ (AdminKey name) HI) as (st' & -> & HI' & E).
  eexists. split; [done|]. by rewrite E.
Qed.


Lemma warn_inv h now st k :
  SysInv h now st -> k ∈ h -> exists b st', warn now k st = Some (b, st') /\ SysInv h now st'.
Proof.
  intros HI Hk. unfold warn. destruct (decide (kind k = kindAdmin)); [eauto|].
  destruct (held_lookup _ _ _ _ HI Hk) as [e He]. rewrite He. cbn [mbind option_bind].
  unfold entry_balance. destruct (sample_value now (local_balance e)) as [v s].
  pose proof (touch_local_inv _ _ _ _ _ s HI He) as HI1. case_match; [|eauto].
  destruct (charge_inv _ _ _ feeWarning _ HI1 Hk) as (d & st2 & -> & HI2 & e2 & He2).
  cbn [mbind option_bind]. rewrite He2. cbn [mbind option_bind]. do 2 eexists. split; [done|].
  pose proof (touch_inv _ _ _ _ _ (local_balance e2) now HI2 He2) as HI3. by destruct e2.
Qed.

Lemma disconnect_inv h now st k :
  SysInv h now st -> k ∈ h -> exists b st', disconnect now k st = Some (b, st') /\ SysInv h now st'.
Proof.
  intros HI Hk. unfold disconnect. destruct (decide (kind k = kindAdmin)); [eauto|].
  destruct (held_lookup _ _ _ _ HI Hk) as [e He]. rewrite He. cbn [mbind option_bind].
  unfold entry_balance. destruct (sample_value now (local_balance e)) as [v s].
  pose proof (touch_local_inv _ _ _ _ _ s HI He) as HI1. case_match; [|eauto].
  destruct (charge_inv _ _ _ feeDrop _ HI1 Hk) as (d & st2 & -> & HI2 & _). eauto.
Qed.

(** Every operation a client may perform is defined and keeps the invariant. *)
Lemma exec_inv o s :
  sys_inv s -> client_ok o s -> exists s', exec o s = Some s' /\ sys_inv s'.
Proof.
  destruct s as [now h st]. unfold sys_inv. cbn [held clock state]. intros HI Hok.
  destruct o as [dt|a|a|name|k|k|k name|fee k|k|k|k|origin gossip|]; cbn [exec client_ok held] in *.
  - eexists. split; [done|]. eapply inv_time; [|exact HI]. simpl. lia.
  - destruct (newInbound_inv _ _ _ _ a HI) as (k & st' & -> & HI' & E). eexists. split; [done|].
    unfold SysInv; cbn [state]. by rewrite E.
  - destruct (newOutbound_inv _ _ _ _ a HI) as (k & st' & -> & HI' & E). eexists. split; [done|].
    unfold SysInv; cbn [state]. by rewrite E.
  - unfold newAdminEndpoint. destruct (admin_inv _ _ _ name HI) as (st' & -> & HI'). eauto.
  - destruct (acquire_inv _ _ _ _ k HI) as (st' & -> & HI' & E); [by apply elem_of_app; left|].
    eexists. split; [done|]. unfold SysInv; cbn [state]. by rewrite E.
  - destruct (release_held _ _ _ _ HI Hok) as (st' & -> & HI'). eauto.
  - unfold elevateToAdminEndpoint, newAdminEndpoint.
    destruct (admin_inv _ _ _ name HI) as (st1 & -> & HI1). cbn [mbind option_bind].
    destruct (release_inv (AdminKey name :: drop_ref k h ++ map it_consumer (import_bals (import_table st1)))
      (import_bals (import_table st1)) now st1 k) as (st2 & -> & HI2 & E).
    { eapply inv_perm; [|done|exact HI1]. rewrite (drop_ref_perm k h Hok) at 1. simpl. by rewrite Permutation_swap. }
    { intros x Hx. right. apply elem_of_app. by right. }
    eexists. split; [done|]. unfold SysInv; cbn [held state]. by rewrite E.
  - destruct (charge_inv _ _ _ fee k HI Hok) as (d & st' & -> & HI' & _). eauto.
  - destruct (warn_inv _ _ _ k HI Hok) as (d & st' & -> & HI'). eauto.
  - destruct (disconnect_inv _ _ _ k HI Hok) as (d & st' & -> & HI'). eauto.
  - unfold balance. destruct (held_lookup _ _ _ _ HI Hok) as [e He]. rewrite He. unfold entry_balance.
    cbn [mbind option_bind]. destruct (sample_value now (local_balance e)) as [v s].
    eexists. split; [done|]. by apply touch_local_inv.
  - destruct (import_inv _ _ origin gossip _ HI) as (st' & -> & HI'). eauto.
  - destruct (periodic_inv _ _ _ HI) as (st' & -> & HI' & _ & _). eauto.
Qed.

(** C3: the resource manager is memory-safe and keeps its books.  In every state
    reachable by any interleaving of operations on held consumers, the invariant
    holds (reference counts equal the references that exist, referenced entries
    are on the active list of their kind and the others on the inactive list in
    order of expiry, remote balances are the sums of the live imports), and no
    further operation can touch an erased entry or unlink one from a list it is
    not on. *)
Theorem resource_safety (s : Sys) :
  rtc step init s ->
  sys_inv s /\ forall o, client_ok o s -> exists s', exec o s = Some s'.
Proof.
  intros Hr. assert (sys_inv s) as HI.
  { remember init as s0 eqn:E. assert (sys_inv s0) as H0 by (subst; exact inv_empty). clear E.
    induction Hr as [|s1 s2 s3 (o & Hok & Hex) _ IH]; [done|].
    apply IH. destruct (exec_inv o s1 H0 Hok) as (s' & Hs & HI). congruence. }
  split; [done|]. intros o Hok. destruct (exec_inv o s HI Hok) as (s' & ? & _). eauto.
Qed.

(** periodic activity removes everything that is due.  After it runs in a
    state satisfying the invariant, every inactive entry and every import left
    expires later than now. *)
Theorem periodic_expires (s : Sys) :
  sys_inv s ->
  exists st', periodicActivity (clock s) (state s) = Some st' /\
    Forall (fun k => clock s < expires st' k) (inactive st') /\
    Forall (fun p => clock s < imp_whenExpires (snd p)) (import_table st').
Proof.
  intros HI. destruct (periodic_inv _ _ _ HI) as (st' & ? & _ & ? & ?). eauto.
Qed.

End Machine.


(** ** Balances *)

Lemma decay_once_range v : 0 <= v < 2 ^ 31 - 32 -> 0 <= decay_once v <= v /\ (0 < v -> decay_once v < v).
Proof.
  intros Hv. unfold decay_once, decayWindowSeconds. rewrite (swrap_id 32 (v + 32 - 1)) by (unfold in_s; lia).
  rewrite Z.quot_div_nonneg by lia.
  pose proof (Z.div_mod (v + 32 - 1) 32 ltac:(lia)). pose proof (Z.mod_pos_bound (v + 32 - 1) 32 ltac:(lia)).
  rewrite swrap_id by (unfold in_s; lia). lia.
Qed.

Lemma decay_iter_range n v : 0 <= v < 2 ^ 31 - 32 -> 0 <= Nat.iter n decay_once v <= v.
Proof.
  intros Hv. induction n as [|n IH]; simpl; [lia|].
  destruct (decay_once_range (Nat.iter n decay_once v)); lia.
Qed.

Lemma decay_iter_zero n : Nat.iter n decay_once 0 = 0.
Proof. induction n as [|n IH]; [done|]. simpl. by rewrite IH. Qed.

(** The decayed value after [n] seconds inside the window. *)
Lemma decay_within t s :
  m_when s <= t <= m_when s + 4 * decayWindowSeconds ->
  decay t s = MkSample (Nat.iter (Z.to_nat (t - m_when s)) decay_once (m_value s)) t.
Proof.
  unfold decayWindowSeconds. intros Ht. unfold decay, decayWindowSeconds.
  destruct (Z.eqb_spec t (m_when s)) as [->|].
  - rewrite Z.sub_diag. simpl. by destruct s.
  - destruct (Z.eqb_spec (m_value s) 0) as [->|]; cbn [negb]; [by rewrite decay_iter_zero|].
    rewrite (swrap_id 32) by (unfold in_s; lia). rewrite (proj2 (Z.ltb_ge _ _)) by lia.
    by rewrite (uwrap_id 32) by (unfold in_u; lia).
Qed.

(** exponential decay.  A non-negative balance never grows and never becomes
    negative by ageing; reading it in between does not change what a later
    reading sees, within the window of four decay periods; and after more than
    that it is zero. *)
Theorem decay_sound (s : DecayingSample) (t1 t2 : Z) :
  0 <= m_value s < 2 ^ 31 - 32 -> m_when s <= t1 <= t2 -> t2 - m_when s < 2 ^ 31 ->
  0 <= m_value (decay t2 s) <= m_value s /\
  (t2 - m_when s <= 4 * decayWindowSeconds -> decay t2 (decay t1 s) = decay t2 s) /\
  (4 * decayWindowSeconds < t2 - m_when s -> m_value (decay t2 s) = 0).
Proof.
  intros Hv Ht Hb. unfold decayWindowSeconds in *.
  assert (4 * 32 < t2 - m_when s -> m_value (decay t2 s) = 0) as Hfar.
  { intros Hfar. unfold decay, decayWindowSeconds. rewrite (proj2 (Z.eqb_neq t2 _)) by lia. simpl.
    destruct (Z.eqb_spec (m_value s) 0); cbn [negb]; [done|].
    rewrite (swrap_id 32) by (unfold in_s; lia). by rewrite (proj2 (Z.ltb_lt _ _)) by lia. }
  split_and!; try done.
  - destruct (Z.leb_spec (t2 - m_when s) 128); [|rewrite Hfar; lia].
    rewrite decay_within by (unfold decayWindowSeconds; lia). simpl. by apply decay_iter_range.
  - destruct (Z.leb_spec (t2 - m_when s) 128); [|rewrite Hfar; lia].
    rewrite decay_within by (unfold decayWindowSeconds; lia). simpl. by apply decay_iter_range.
  - intros Hw. rewrite (decay_within t1 s), (decay_within t2 s) by (unfold decayWindowSeconds; lia).
    rewrite decay_within by (simpl; unfold decayWindowSeconds; lia). simpl. f_equal.
    rewrite <- Nat.iter_add. f_equal. lia.
Qed.

Lemma decay_sound_witness :
  decay 50 (decay 20 (MkSample 6400 10)) = decay 50 (MkSample 6400 10).
Proof.
  apply (decay_sound (MkSample 6400 10) 20 50); simpl; unfold decayWindowSeconds; lia.
Defined.

(** charging.  Charging a held consumer adds the fee to its decayed balance
    and reports the disposition of the normalized total, remote contributions
    included; it reports at least a warning exactly from 500 on and a drop
    exactly from 1500 on.  Privileged (admin) consumers are never warned or
    disconnected. *)
Theorem charge_disposition (now fee : Z) (k : Key) (st : State) (e : Entry) :
  table st !! k = Some e ->
  0 <= m_value (decay now (local_balance e)) + fee < 2 ^ 31 ->
  -2 ^ 30 <= remote_balance e < 2 ^ 30 ->
  let total := (m_value (decay now (local_balance e)) + fee) / 32 + remote_balance e in
  (exists st', charge now fee k st =
     Some (if dropThreshold <=? total then drop_ else if warningThreshold <=? total then warn_ else ok, st')) /\
  (kind k = kindAdmin -> warn now k st = Some (false, st) /\ disconnect now k st = Some (false, st)).
Proof.
  intros He Hv Hr total. split.
  - unfold charge. rewrite He. cbn [mbind option_bind]. unfold entry_add, sample_add.
    rewrite (swrap_id 32 (_ + fee)) by (unfold in_s; lia). cbn [m_value m_when].
    unfold decayWindowSeconds. rewrite Z.quot_div_nonneg by lia.
    assert (0 <= (m_value (decay now (local_balance e)) + fee) / 32 < 2 ^ 26).
    { split; [apply Z.div_pos; lia|apply Z.div_lt_upper_bound; lia]. }
    rewrite swrap_id by (unfold in_s; lia). eauto.
  - intros Hk. unfold warn, disconnect. by rewrite !decide_True.
Qed.

Lemma charge_disposition_witness :
  let st := set_table {[AdminKey "a" := new_entry]} empty_state in
  warn 5 (AdminKey "a") st = Some (false, st).
Proof.
  intros st. apply (charge_disposition 5 100 (AdminKey "a") st new_entry); [by vm_compute..|by simpl|done].
Defined.

(** ** Concrete runs *)

#[local] Instance all_public : Endpoints := {| is_public _ := true; endpoint_to_string _ := "endpoint" |}.

Definition ex_key : Key := InboundKey (1, 0).

(** A consumer arrives, is charged, leaves, and its entry's time runs out. *)
Definition ex_ops : list op :=
  [OpInbound (1, 9000); OpCharge 20000 ex_key; OpImport "peer" [MkGossipItem 300 (1, 7)];
   OpRelease ex_key; OpTick 31; OpPeriodic; OpTick 300].

Fixpoint run (os : list op) (s : Sys) : option Sys :=
  match os with
  | [] => Some s
  | o :: os => if decide (client_ok o s) then s ← exec o s; run os s else None
  end.

Lemma run_rtc os s s' : run os s = Some s' -> rtc step s s'.
Proof.
  revert s. induction os as [|o os IH]; intros s; simpl; [by intros [= ->]|].
  destruct (decide (client_ok o s)); [|done]. destruct (exec o s) as [s1|] eqn:E; [|done].
  intros H. eapply rtc_l; [by exists o|]. by apply IH.
Qed.

Lemma run_inv os s s' : sys_inv s -> run os s = Some s' -> sys_inv s'.
Proof.
  revert s. induction os as [|o os IH]; intros s HI; simpl; [by intros [= ->]|].
  destruct (decide (client_ok o s)) as [Hok|]; [|done].
  destruct (exec_inv o s HI Hok) as (s1 & -> & HI1). by apply IH.
Qed.

Lemma resource_safety_witness :
  exists s, run ex_ops init = Some s /\ inactive (state s) = [ex_key] /\ sys_inv s.
Proof.
  destruct (run ex_ops init) as [s|] eqn:E; [|by vm_compute in E].
  exists s. split_and!; [done| |apply (resource_safety s); by apply (run_rtc ex_ops)].
  vm_compute in E. injection E as <-. by vm_compute.
Defined.

Lemma periodic_expires_witness :
  exists s st', run ex_ops init = Some s /\ periodicActivity (clock s) (state s) = Some st' /\
    Forall (fun k => clock s < expires st' k) (inactive st').
Proof.
  destruct (run ex_ops init) as [s|] eqn:E; [|by vm_compute in E].
  destruct (periodic_expires s) as (st' & Hp & Hf & _).
  - by apply (run_inv ex_ops init s inv_empty).
  - by exists s, st'.
Defined.

(** Assigning a consumer to itself corrupts the manager.
    [Consumer::operator=] drops the old reference before taking the new one: with
    a single reference the entry goes to the inactive list and is counted again
    without leaving it, so the next release unlinks it from a list it is not on. *)
Lemma self_assignment_breaks :
  exists st1 st2, new_endpoint ex_key empty_state = Some st1 /\
    consumer_assign 0 ex_key ex_key st1 = Some st2 /\
    inbound st2 = [] /\ inactive st2 = [ex_key] /\
    (refcount <$> table st2 !! ex_key) = Some 1 /\
    release 0 ex_key st2 = None.
Proof.
  destruct (new_endpoint ex_key empty_state) as [st1|] eqn:E1; [|by vm_compute in E1].
  destruct (consumer_assign 0 ex_key ex_key st1) as [st2|] eqn:E2.
  2: { vm_compute in E1. injection E1 as <-. by vm_compute in E2. }
  exists st1, st2. split_and!; try done;
    vm_compute in E1; injection E1 as <-; vm_compute in E2; injection E2 as <-; by vm_compute.
Qed.


End Resource.
