(* ===== verification/FeeTrack.v ===== *)
(** * The load fee tracker

    Models [src/src/ripple_core/functional/LoadFeeTrackImp.h]: the server's
    transaction cost multipliers (local, remote, cluster; 256 is normal), how the
    local one is raised and lowered, and how fees are scaled.  The mutex makes
    each method one step, except [scaleFeeLoad], which reads the multipliers
    outside the lock; a call is modelled on one reading of them.

    The theorems: the local multiplier stays within its bounds whatever the order
    of operations, lowering brings it back to normal in a bounded number of steps,
    and [mulDiv] computes its fraction within a stated error when nothing
    overflows. *)

From Stdlib Require Import ZArith Lia.
From S2P Require Import Prelude.

Module FeeTrack.

Definition lftNormalFee : Z := 256.
Definition lftFeeIncFraction : Z := 4.
Definition lftFeeDecFraction : Z := 4.
Definition lftFeeMax : Z := lftNormalFee * 1000000.

(** [mLocalTxnLoadFee], [mRemoteTxnLoadFee], [mClusterTxnLoadFee], [raiseCount]. *)
Record LoadFeeTrack := MkTrack {
  mLocal : Z; mRemote : Z; mCluster : Z; raiseCount : Z
}.

Definition new_track : LoadFeeTrack := MkTrack lftNormalFee lftNormalFee lftNormalFee 0.

(** [value * mul / div], dividing first when [value] is above 32 bits.  A zero
    [div] is undefined. *)
Definition mulDiv (value mul div : Z) : option Z :=
  if div =? 0 then None
  else if 4294967295 <? value then Some (u64 (value / div * mul))
  else Some (u64 (value * mul) / div).

Definition scaleFeeLoad (t : LoadFeeTrack) (fee baseFee referenceFeeUnits : Z) (bAdmin : bool) : option Z :=
  let big := 4294967295 <? fee in
  fee ← (if big then (if baseFee =? 0 then None else Some (fee / baseFee))
         else Some (u64 (fee * referenceFeeUnits)));
  let feeFactor := Z.max (mLocal t) (mRemote t) in
  let uRemFee := Z.max (mRemote t) (mCluster t) in
  let feeFactor :=
    if bAdmin && (uRemFee <? feeFactor) && (feeFactor <? u32 (4 * uRemFee)) then uRemFee else feeFactor in
  fee ← mulDiv fee feeFactor lftNormalFee;
  if big then Some (u64 (fee * referenceFeeUnits))
  else if baseFee =? 0 then None else Some (fee / baseFee).

Definition scaleFeeBase (fee baseFee referenceFeeUnits : Z) : option Z :=
  mulDiv fee referenceFeeUnits baseFee.

Definition getLoadFactor (t : LoadFeeTrack) : Z := Z.max (mCluster t) (Z.max (mLocal t) (mRemote t)).

Definition isLoadedLocal (t : LoadFeeTrack) : bool :=
  negb (raiseCount t =? 0) || negb (mLocal t =? lftNormalFee).
Definition isLoadedCluster (t : LoadFeeTrack) : bool :=
  isLoadedLocal t || negb (mCluster t =? lftNormalFee).

Definition setClusterFee (fee : Z) (t : LoadFeeTrack) : LoadFeeTrack :=
  MkTrack (mLocal t) (mRemote t) fee (raiseCount t).
Definition setRemoteFee (f : Z) (t : LoadFeeTrack) : LoadFeeTrack :=
  MkTrack (mLocal t) f (mCluster t) (raiseCount t).

Definition raiseLocalFee (t : LoadFeeTrack) : bool * LoadFeeTrack :=
  let count := i32 (raiseCount t + 1) in
  if count <? 2 then (false, MkTrack (mLocal t) (mRemote t) (mCluster t) count)
  else
    let origFee := mLocal t in
    let l := if mLocal t <? mRemote t then mRemote t else mLocal t in
    let l := u32 (l + l / lftFeeIncFraction) in
    let l := if lftFeeMax <? l then lftFeeMax else l in
    (negb (origFee =? l), MkTrack l (mRemote t) (mCluster t) count).

Definition lowerLocalFee (t : LoadFeeTrack) : bool * LoadFeeTrack :=
  let origFee := mLocal t in
  let l := u32 (mLocal t - mLocal t / lftFeeDecFraction) in
  let l := if l <? lftNormalFee then lftNormalFee else l in
  (negb (origFee =? l), MkTrack l (mRemote t) (mCluster t) 0).

(** ** The local multiplier *)

Inductive op := Raise | Lower | SetRemote (f : Z) | SetCluster (f : Z).

Definition exec (o : op) (t : LoadFeeTrack) : LoadFeeTrack :=
  match o with
  | Raise => snd (raiseLocalFee t)
  | Lower => snd (lowerLocalFee t)
  | SetRemote f => setRemoteFee f t
  | SetCluster f => setClusterFee f t
  end.

(** The largest multiplier that can be raised by a quarter within 32 bits. *)
Definition max_raisable : Z := 3435973836.

Definition op_ok (o : op) : Prop :=
  match o with SetRemote f => lftNormalFee <= f <= max_raisable | SetCluster f => is_u32 f | _ => True end.

Definition track_inv (t : LoadFeeTrack) : Prop :=
  lftNormalFee <= mLocal t <= lftFeeMax /\ lftNormalFee <= mRemote t <= max_raisable.

Lemma lower_range l : lftNormalFee <= l <= lftFeeMax -> u32 (l - l / lftFeeDecFraction) = l - l / 4.
Proof.
  unfold lftFeeMax, lftFeeDecFraction, lftNormalFee. intros.
  pose proof (Z.div_mod l 4 ltac:(lia)). pose proof (Z.mod_pos_bound l 4 ltac:(lia)). apply u32_id. lia.
Qed.

Lemma exec_track o t : track_inv t -> op_ok o -> track_inv (exec o t).
Proof.
  unfold track_inv, lftFeeMax, max_raisable, lftNormalFee. intros [Hl Hr] Hok.
  destruct o; simpl in *; unfold lftNormalFee, max_raisable in *.
  - unfold raiseLocalFee, lftFeeIncFraction, lftFeeMax, lftNormalFee.
    destruct (i32 (raiseCount t + 1) <? 2); simpl; [done|]. split; [|done].
    set (l := if mLocal t <? mRemote t then mRemote t else mLocal t).
    assert (256 <= l <= 3435973836) as Hll by (unfold l; case_match; bool_cases; lia).
    pose proof (Z.div_mod l 4 ltac:(lia)). pose proof (Z.mod_pos_bound l 4 ltac:(lia)).
    rewrite u32_id by lia. case_match; bool_cases; lia.
  - unfold lowerLocalFee. rewrite lower_range by done. unfold lftNormalFee. simpl. split; [|done].
    pose proof (Z.div_mod (mLocal t) 4 ltac:(lia)). pose proof (Z.mod_pos_bound (mLocal t) 4 ltac:(lia)).
    case_match; bool_cases; lia.
  - done.
  - done.
Qed.

(** the local fee multiplier stays within its bounds.  Whatever the order of
    raising, lowering and setting the other multipliers (remote multipliers up to
    the largest that a quarter raise keeps within 32 bits), it is never below
    normal nor above a million times normal. *)
Theorem local_fee_bounds (os : list op) :
  Forall op_ok os ->
  let t := fold_left (fun t o => exec o t) os new_track in
  lftNormalFee <= mLocal t <= lftFeeMax /\ lftNormalFee <= getLoadFactor t.
Proof.
  intros Hos. assert (forall t, track_inv t -> track_inv (fold_left (fun t o => exec o t) os t)) as H.
  { induction Hos as [|o os Ho _ IH]; simpl; [done|]. intros t Ht. by apply IH, exec_track. }
  destruct (H new_track) as [Hl _]; [by_decide|]. cbv zeta. unfold getLoadFactor. lia.
Qed.

Lemma local_fee_bounds_witness :
  let t := fold_left (fun t o => exec o t) [SetRemote 5000; Raise; Raise; Lower; SetCluster 7] new_track in
  lftNormalFee <= mLocal t <= lftFeeMax.
Proof.
  apply (local_fee_bounds [SetRemote 5000; Raise; Raise; Lower; SetCluster 7]).
  repeat constructor; by_decide.
Defined.

(** One [lowerLocalFee] on the multiplier alone. *)
Definition lowered (l : Z) : Z := Z.max lftNormalFee (l - l / 4).

Lemma lower_lowered t : lftNormalFee <= mLocal t <= lftFeeMax ->
  mLocal (snd (lowerLocalFee t)) = lowered (mLocal t).
Proof.
  intros H. unfold lowerLocalFee, lowered. rewrite lower_range by done. simpl.
  case_match; bool_cases; lia.
Qed.

Lemma lowered_mono a b : lftNormalFee <= a <= b -> lftNormalFee <= lowered a <= lowered b.
Proof.
  unfold lowered, lftNormalFee. intros H.
  pose proof (Z.div_mod a 4 ltac:(lia)). pose proof (Z.mod_pos_bound a 4 ltac:(lia)).
  pose proof (Z.div_mod b 4 ltac:(lia)). pose proof (Z.mod_pos_bound b 4 ltac:(lia)). lia.
Qed.

(** C32: when the load goes away the fee does too: from any reachable multiplier,
    49 consecutive [lowerLocalFee] bring it back to exactly normal, and it is
    then reported as not loaded. *)
Theorem local_fee_recovers (t : LoadFeeTrack) :
  lftNormalFee <= mLocal t <= lftFeeMax ->
  let t' := Nat.iter 49 (exec Lower) t in
  mLocal t' = lftNormalFee /\ isLoadedLocal t' = false.
Proof.
  intros Ht.
  assert (forall n, mLocal (Nat.iter n (exec Lower) t) = Nat.iter n lowered (mLocal t) /\
            lftNormalFee <= Nat.iter n lowered (mLocal t) <= Nat.iter n lowered lftFeeMax /\
            Nat.iter n lowered lftFeeMax <= lftFeeMax) as H.
  { induction n as [|n (E & R & B)]; [simpl; lia|]. rewrite !Nat.iter_succ.
    change (exec Lower ?y) with (snd (lowerLocalFee y)) at 1.
    rewrite lower_lowered by (rewrite E; lia). rewrite E. split; [done|].
    split; [by apply lowered_mono|]. set (x := Nat.iter n lowered lftFeeMax) in *.
    assert (0 <= lftNormalFee <= lftFeeMax) by by_decide.
    pose proof (Z.div_pos x 4 ltac:(lia) ltac:(lia)). unfold lowered. lia. }
  destruct (H 49%nat) as (E & R & _). intros t'.
  assert (Nat.iter 49 lowered lftFeeMax = lftNormalFee) as E49 by by vm_compute.
  rewrite E49 in R. assert (mLocal t' = lftNormalFee) as El by (unfold t'; lia).
  split; [done|]. unfold isLoadedLocal. rewrite El. unfold t'. simpl. done.
Qed.

Lemma local_fee_recovers_witness :
  mLocal (Nat.iter 49 (exec Lower) (MkTrack lftFeeMax 256 256 9)) = lftNormalFee.
Proof.
  apply (local_fee_recovers (MkTrack lftFeeMax 256 256 9)). by_decide.
Defined.

(** fee scaling.  When the product fits in 64 bits, [mulDiv] returns the
    exact floor for values up to 32 bits and, dividing first for larger ones, at
    most that and at most [mul] below it; with the normal load factor
    [scaleFeeLoad] and [scaleFeeBase] agree when the product is within 32 bits. *)
Theorem mulDiv_accuracy (value mul div : Z) :
  is_u64 value -> is_u32 mul -> 0 < div < 2 ^ 64 -> value * mul < 2 ^ 64 ->
  exists r, mulDiv value mul div = Some r /\
    value * mul / div - mul <= r <= value * mul / div /\
    (value <= 4294967295 -> r = value * mul / div) /\
    (value * mul <= 4294967295 -> value <= 4294967295 ->
     scaleFeeLoad new_track value div mul false = scaleFeeBase value div mul).
Proof.
  intros Hv Hm Hd Hp. unfold in_u in *. unfold scaleFeeBase, scaleFeeLoad, mulDiv.
  rewrite (proj2 (Z.eqb_neq div 0)) by lia.
  pose proof (Z.div_mod value div ltac:(lia)) as E1. pose proof (Z.mod_pos_bound value div ltac:(lia)).
  pose proof (Z.div_mod (value * mul) div ltac:(lia)) as E2. pose proof (Z.mod_pos_bound (value * mul) div ltac:(lia)).
  destruct (Z.ltb_spec 4294967295 value).
  - exists (value / div * mul).
    assert (0 <= value / div <= value) by (split; [apply Z.div_pos; lia|apply Z.div_le_upper_bound; nia]).
    rewrite u64_id by nia.
    assert (value * mul / div = value / div * mul + value mod div * mul / div) as ->.
    { rewrite E1 at 1. rewrite <- Z.div_add_l by lia. f_equal. ring. }
    assert (0 <= value mod div * mul / div <= mul).
    { split; [apply Z.div_pos; nia|apply Z.div_le_upper_bound; nia]. }
    split_and!; try done; lia.
  - exists (value * mul / div). rewrite !(u64_id (value * mul)) by nia. cbn [mbind option_bind].
    split_and!; try done; try lia. intros Hs _. change (Z.max (mLocal new_track) (mRemote new_track)) with 256.
    cbn [andb]. unfold lftNormalFee. rewrite (proj2 (Z.ltb_ge _ (value * mul))) by lia. cbn [Z.eqb].
    rewrite (u64_id (value * mul * 256)) by nia. cbn [mbind option_bind]. by rewrite Z.div_mul by lia.
Qed.

Lemma mulDiv_accuracy_witness :
  exists r, mulDiv 10000 10 10 = Some r /\ r = 10000 * 10 / 10.
Proof.
  destruct (mulDiv_accuracy 10000 10 10) as (r & E & _ & H & _); [by_decide|by_decide|lia|lia|].
  exists r. split; [done|]. apply H. lia.
Defined.

(** a remote multiplier above that bound defeats the local one: raising adopts
    it, adds a quarter in 32 bits and wraps, so that the local multiplier becomes
    zero instead of the maximum. *)
Lemma raise_wraps :
  let t := setRemoteFee 3435973837 new_track in
  let t := snd (raiseLocalFee (snd (raiseLocalFee t))) in
  mLocal t = 0.
Proof. by vm_compute. Qed.

End FeeTrack.
