(* ===== verification/Consensus.v ===== *)
(** * Consensus: ledger timing and disputed transactions

    Models [src/src/ripple_app/ledger/LedgerTiming.cpp] (when to close a ledger,
    when a position has consensus, how the close-time resolution moves) and
    [src/src/ripple_app/consensus/DisputedTx.cpp] (the votes on a transaction and
    the avalanche rule that moves our own vote).

    Counters are [int]s.  [None] is undefined behaviour: a division by zero, or
    reading past the resolution table.  The global [gFORCE_CLOSE] is an argument.
    The theorems: two disjoint groups of proposers cannot both see consensus, the
    80% rule in exact arithmetic, the vote tally against the vote table, what the
    avalanche rule requires of a switch, and the resolution table walk. *)

From Stdlib Require Import ZArith Lia.
From S2P Require Import Prelude.
From S2P Require Import BaseUint.

Module Consensus.
Import BaseUint.

(** ** Ledger timing *)

Definition LEDGER_MIN_CLOSE : Z := 2000.
Definition LEDGER_RES_INCREASE : Z := 8.
Definition LEDGER_RES_DECREASE : Z := 1.
Definition LedgerTimeResolution : list Z := [10; 10; 20; 30; 60; 90; 120; 120].

Definition shouldClose (gFORCE_CLOSE anyTransactions : bool)
    (targetProposers proposersClosed sinceLastCloseMSeconds currentMSeconds idleInterval : Z) : option bool :=
  if gFORCE_CLOSE then Some true
  else if targetProposers =? 0 then None
  else if 75 <=? Z.quot (i32 (proposersClosed * 100)) targetProposers then Some true
  else if currentMSeconds <=? LEDGER_MIN_CLOSE then Some false
  else if negb anyTransactions then Some (i32 (idleInterval * 1000) <=? sinceLastCloseMSeconds)
  else Some true.

(** The result, the new value of [failed] when it is assigned, and the new
    [gFORCE_CLOSE]. *)
Definition haveConsensus (gFORCE_CLOSE : bool) (targetProposers currentProposers currentAgree : Z)
    (failed : bool) : option (bool * bool * bool) :=
  if gFORCE_CLOSE then Some (true, failed, false)
  else if i32 (currentProposers + 1) <? targetProposers then Some (false, failed, gFORCE_CLOSE)
  else if i32 (currentProposers + 1) =? 0 then None
  else
    let inConsensus := Z.quot (i32 (i32 (currentAgree * 100) + 100)) (i32 (currentProposers + 1)) in
    if 80 <=? inConsensus then Some (true, false, gFORCE_CLOSE) else Some (false, failed, gFORCE_CLOSE).

(** [int i = 1; while (LedgerTimeResolution[i] != previousResolution) ++i;] *)
Definition find_resolution (previousResolution : Z) : option nat :=
  match list_find (fun r => r = previousResolution) (drop 1 LedgerTimeResolution) with
  | Some (i, _) => Some (S i)
  | None => None
  end.

Definition getNextLedgerTimeResolution (previousResolution : Z) (previousAgree : bool) (ledgerSeq : Z) : option Z :=
  if negb previousAgree && (Z.rem ledgerSeq LEDGER_RES_DECREASE =? 0) then
    i ← find_resolution previousResolution; LedgerTimeResolution !! (i + 1)%nat
  else if previousAgree && (Z.rem ledgerSeq LEDGER_RES_INCREASE =? 0) then
    i ← find_resolution previousResolution; LedgerTimeResolution !! (i - 1)%nat
  else Some previousResolution.

(** ** Disputed transactions *)

Definition AV_INIT_CONSENSUS_PCT : Z := 50.
Definition AV_MID_CONSENSUS_TIME : Z := 50.
Definition AV_MID_CONSENSUS_PCT : Z := 65.
Definition AV_LATE_CONSENSUS_TIME : Z := 85.
Definition AV_LATE_CONSENSUS_PCT : Z := 70.
Definition AV_STUCK_CONSENSUS_TIME : Z := 200.
Definition AV_STUCK_CONSENSUS_PCT : Z := 95.

(** Vote state; the transaction itself plays no part in voting. *)
Record DisputedTx := MkDisputed {
  mYays : Z;
  mNays : Z;
  mOurVote : bool;
  mVotes : gmap base_uint bool;
}.

Definition new_disputed (ourVote : bool) : DisputedTx := MkDisputed 0 0 ourVote ∅.

Definition setOurVote (o : bool) (d : DisputedTx) : DisputedTx :=
  MkDisputed (mYays d) (mNays d) o (mVotes d).

Definition setVote (peer : base_uint) (votesYes : bool) (d : DisputedTx) : DisputedTx :=
  match mVotes d !! peer with
  | None =>
      if votesYes then MkDisputed (mYays d + 1) (mNays d) (mOurVote d) (<[peer := votesYes]> (mVotes d))
      else MkDisputed (mYays d) (mNays d + 1) (mOurVote d) (<[peer := votesYes]> (mVotes d))
  | Some old =>
      if votesYes && negb old
      then MkDisputed (mYays d + 1) (mNays d - 1) (mOurVote d) (<[peer := true]> (mVotes d))
      else if negb votesYes && old
      then MkDisputed (mYays d - 1) (mNays d + 1) (mOurVote d) (<[peer := false]> (mVotes d))
      else d
  end.

Definition unVote (peer : base_uint) (d : DisputedTx) : DisputedTx :=
  match mVotes d !! peer with
  | None => d
  | Some v =>
      if (v : bool) then MkDisputed (mYays d - 1) (mNays d) (mOurVote d) (delete peer (mVotes d))
      else MkDisputed (mYays d) (mNays d - 1) (mOurVote d) (delete peer (mVotes d))
  end.

(** The share of yes votes, ours included, in percent. *)
Definition weight (d : DisputedTx) : Z :=
  Z.quot (mYays d * 100 + (if mOurVote d then 100 else 0)) (mNays d + mYays d + 1).

(** The share needed, which rises with the time spent. *)
Definition needed_pct (percentTime : Z) : Z :=
  if percentTime <? AV_MID_CONSENSUS_TIME then AV_INIT_CONSENSUS_PCT
  else if percentTime <? AV_LATE_CONSENSUS_TIME then AV_MID_CONSENSUS_PCT
  else if percentTime <? AV_STUCK_CONSENSUS_TIME then AV_LATE_CONSENSUS_PCT
  else AV_STUCK_CONSENSUS_PCT.

Definition updateVote (percentTime : Z) (proposing : bool) (d : DisputedTx) : bool * DisputedTx :=
  if mOurVote d && (mNays d =? 0) then (false, d)
  else if negb (mOurVote d) && (mYays d =? 0) then (false, d)
  else
    let newPosition :=
      if proposing then needed_pct percentTime <? weight d else mNays d <? mYays d in
    if Bool.eqb newPosition (mOurVote d) then (false, d)
    else (true, setOurVote newPosition d).

(** ** Timing theorems *)

Lemma haveConsensus_spec target n agree failed :
  0 <= agree <= n -> n < 2 ^ 24 ->
  haveConsensus false target n agree failed =
    Some (if n + 1 <? target then (false, failed, false)
          else if 80 * (n + 1) <=? 100 * (agree + 1) then (true, false, false) else (false, failed, false)).
Proof.
  intros Ha Hn. unfold haveConsensus.
  rewrite (swrap_id 32 (agree * 100)), !(swrap_id 32) by (unfold in_s; lia).
  destruct (n + 1 <? target); [done|]. rewrite (proj2 (Z.eqb_neq _ 0)) by lia.
  rewrite Z.quot_div_nonneg by lia.
  pose proof (Z.div_mod (agree * 100 + 100) (n + 1) ltac:(lia)).
  pose proof (Z.mod_pos_bound (agree * 100 + 100) (n + 1) ltac:(lia)).
  destruct (Z.leb_spec 80 ((agree * 100 + 100) / (n + 1))), (Z.leb_spec (80 * (n + 1)) (100 * (agree + 1)));
    (done || nia).
Qed.

(** the consensus rule.  Without a forced close, [haveConsensus] answers yes
    exactly when the target number of proposers (ourselves included) has been
    heard and at least 80% of them, ourselves included, agree with us: the
    integer division loses nothing. *)
Theorem consensus_rule (target n agree : Z) (failed : bool) :
  0 <= agree <= n -> n < 2 ^ 24 ->
  haveConsensus false target n agree failed =
    Some (if n + 1 <? target then (false, failed, false)
          else if 80 * (n + 1) <=? 100 * (agree + 1) then (true, false, false) else (false, failed, false)).
Proof. exact (haveConsensus_spec target n agree failed). Qed.

Lemma consensus_rule_witness : haveConsensus false 5 4 3 true = Some (true, false, false).
Proof. rewrite (consensus_rule 5 4 3 true); [by vm_compute|lia|lia]. Defined.

(** C31: consensus is unique among a set of proposers.  Two nodes that count the
    same [n + 1] participants, fewer than [2^24], and hold different positions cannot
    both have consensus, since no participant agrees with both; unless the
    administrator forces the close ([gFORCE_CLOSE]). *)
Theorem consensus_unique (t1 t2 n a1 a2 : Z) (f1 f2 f1' f2' : bool) :
  0 <= a1 -> 0 <= a2 -> (a1 + 1) + (a2 + 1) <= n + 1 -> n < 2 ^ 24 ->
  haveConsensus false t1 n a1 f1 = Some (true, f1', false) ->
  haveConsensus false t2 n a2 f2 = Some (true, f2', false) -> False.
Proof.
  intros H1 H2 Hdis Hn. rewrite !haveConsensus_spec by lia.
  destruct (n + 1 <? t1), (n + 1 <? t2); try done.
  destruct (Z.leb_spec (80 * (n + 1)) (100 * (a1 + 1))), (Z.leb_spec (80 * (n + 1)) (100 * (a2 + 1))); try done.
  lia.
Qed.

Lemma consensus_unique_witness :
  haveConsensus false 3 9 7 false = Some (true, false, false) /\
  ~ (exists f, haveConsensus false 3 9 1 false = Some (true, f, false)).
Proof.
  split; [by vm_compute|]. intros [f Hf].
  apply (consensus_unique 3 3 9 7 1 false false false f); (lia || exact Hf || by vm_compute).
Defined.

(** The close-time resolution stays on the table.  From a resolution of the
    table, the next one is on the table too, coarser or equal when the last close
    times disagreed, finer or equal when they agreed, and at most one entry away. *)
Lemma resolution_walk (prev : Z) (agree : bool) (seq : Z) :
  prev ∈ LedgerTimeResolution ->
  exists next, getNextLedgerTimeResolution prev agree seq = Some next /\
    next ∈ LedgerTimeResolution /\
    (if agree then next <= prev else prev <= next) /\
    exists i j, LedgerTimeResolution !! i = Some prev /\ LedgerTimeResolution !! j = Some next /\
      (i <= j + 1 /\ j <= i + 1)%nat.
Proof.
  intros Hin. unfold getNextLedgerTimeResolution.
  assert (Z.rem seq LEDGER_RES_DECREASE = 0) as -> by apply Z.rem_1_r.
  assert (exists i, find_resolution prev = Some i /\ LedgerTimeResolution !! i = Some prev /\
    exists up down, LedgerTimeResolution !! (i + 1)%nat = Some up /\ LedgerTimeResolution !! (i - 1)%nat = Some down /\
      (0 < i)%nat /\ down <= prev <= up) as (i & Hf & Hi & up & down & Hup & Hdown & Hi0 & Hle).
  { rewrite list_elem_of_lookup in Hin. destruct Hin as [i Hi].
    do 8 (destruct i as [|i]; [simpl in Hi; injection Hi as <-; eexists; split; [by vm_compute|];
      split; [done|]; do 2 eexists; split_and!; [done|done|lia|lia|lia]|]). done. }
  destruct agree; cbn [negb andb].
  - destruct (Z.rem seq LEDGER_RES_INCREASE =? 0).
    + rewrite Hf. cbn [mbind option_bind]. exists down. split_and!; [done| |lia|].
      * rewrite list_elem_of_lookup. eauto.
      * exists i, (i - 1)%nat. split_and!; [done|done|lia|lia].
    + exists prev. split_and!; [done|done|lia|]. exists i, i. split_and!; [done|done|lia|lia].
  - rewrite Z.eqb_refl, Hf. cbn [mbind option_bind]. exists up. split_and!; [done| |lia|].
    + rewrite list_elem_of_lookup. eauto.
    + exists i, (i + 1)%nat. split_and!; [done|done|lia|lia].
Qed.

Lemma resolution_walk_witness :
  exists next, getNextLedgerTimeResolution 30 false 5 = Some next /\ next ∈ LedgerTimeResolution.
Proof.
  destruct (resolution_walk 30 false 5) as (next & ? & ? & _); [by_decide|]. eauto.
Defined.

(** ** Votes *)

(** The votes for [b] in the table. *)
Definition tally (b : bool) (m : gmap base_uint bool) : Z := map_count (Bool.eqb b) m.

(** The counters count the table. *)
Definition tally_inv (d : DisputedTx) : Prop :=
  mYays d = tally true (mVotes d) /\ mNays d = tally false (mVotes d).

Inductive vote_op := SetVote (peer : base_uint) (yes : bool) | UnVote (peer : base_uint)
  | UpdateVote (percentTime : Z) (proposing : bool) | SetOurVote (o : bool).

Definition vote_exec (o : vote_op) (d : DisputedTx) : DisputedTx :=
  match o with
  | SetVote p y => setVote p y d
  | UnVote p => unVote p d
  | UpdateVote t pr => snd (updateVote t pr d)
  | SetOurVote o => setOurVote o d
  end.

Lemma vote_exec_inv o d : tally_inv d -> tally_inv (vote_exec o d).
Proof.
  intros [Hy Hn]. destruct o as [p y|p|t pr|o]; simpl; [| | |done].
  - unfold setVote. destruct (mVotes d !! p) as [old|] eqn:E.
    + destruct y, old; cbn [negb andb]; try done;
        split; simpl; unfold tally in *; rewrite (map_count_update _ _ _ _ _ E); simpl; lia.
    + destruct y; split; simpl; unfold tally in *; rewrite map_count_insert by done; simpl; lia.
  - unfold unVote. destruct (mVotes d !! p) as [[]|] eqn:E; [| |done];
      split; simpl; unfold tally in *; rewrite (map_count_delete _ _ _ _ E); simpl; lia.
  - unfold updateVote. by repeat case_match.
Qed.

(** The vote counters never drift from the votes.  After any sequence of votes,
    changed votes, withdrawn votes and updates of our own, the yes and no counters
    of a disputed transaction equal the yes and no entries of its vote table. *)
Theorem votes_counted (ours : bool) (os : list vote_op) :
  let d := fold_left (fun d o => vote_exec o d) os (new_disputed ours) in
  mYays d = tally true (mVotes d) /\ mNays d = tally false (mVotes d).
Proof.
  assert (forall d, tally_inv d -> tally_inv (fold_left (fun d o => vote_exec o d) os d)) as H.
  { induction os as [|o os IH]; simpl; [done|]. intros d Hd. by apply IH, vote_exec_inv. }
  by apply H.
Qed.

(** what moves our vote.  When we propose and the avalanche rule switches our
    vote to yes, more than half of the participants (ourselves at our old vote)
    vote yes, and more than 95% once the round is stuck; a switch to no means that
    the share required at that time was not reached.  When we only observe, we
    follow the strict majority.  A unanimous position is never left. *)
Theorem updateVote_sound (d d' : DisputedTx) (percentTime : Z) (proposing : bool) :
  0 <= mYays d -> 0 <= mNays d -> updateVote percentTime proposing d = (true, d') ->
  let total := mNays d + mYays d + 1 in
  let yes := mYays d + (if mOurVote d then 1 else 0) in
  mOurVote d' = negb (mOurVote d) /\ (0 < mYays d \/ mOurVote d = true) /\ (0 < mNays d \/ mOurVote d = false) /\
  (if proposing then
     if mOurVote d' then total < 2 * yes /\ (200 <= percentTime -> 95 * total < 100 * yes)
     else 100 * yes < (needed_pct percentTime + 1) * total
   else mOurVote d' = (mNays d <? mYays d)).
Proof.
  intros Hy Hn. unfold updateVote.
  destruct (mOurVote d && (mNays d =? 0)) eqn:E1; [done|].
  destruct (negb (mOurVote d) && (mYays d =? 0)) eqn:E2; [done|].
  case_match eqn:E3; [done|]. intros [= <-]. cbv zeta.
  apply eqb_false_iff in E3. cbn [mOurVote setOurVote].
  split_and!.
  - destruct proposing, (mOurVote d); try (by case_match).
    all: match goal with |- ?b = _ => destruct b; simpl; congruence end.
  - destruct (mOurVote d); [by right|]. left. simpl in E2. apply Z.eqb_neq in E2. lia.
  - destruct (mOurVote d); [|by right]. left. simpl in E1. apply Z.eqb_neq in E1. lia.
  - destruct proposing; [|done]. unfold weight in *.
    set (yes := mYays d + (if mOurVote d then 1 else 0)) in *.
    replace (mYays d * 100 + (if mOurVote d then 100 else 0)) with (100 * yes) in *
      by (unfold yes; destruct (mOurVote d); lia).
    assert (0 <= yes) by (unfold yes; destruct (mOurVote d); lia).
    rewrite Z.quot_div_nonneg in * by lia.
    set (total := mNays d + mYays d + 1) in *.
    pose proof (Z.div_mod (100 * yes) total ltac:(lia)). pose proof (Z.mod_pos_bound (100 * yes) total ltac:(lia)).
    destruct (Z.ltb_spec (needed_pct percentTime) (100 * yes / total)); [|nia].
    assert (50 <= needed_pct percentTime) by (unfold needed_pct; repeat case_match; by_decide).
    split; [nia|]. intros Ht. assert (needed_pct percentTime = 95) as E95.
    { unfold needed_pct, AV_MID_CONSENSUS_TIME, AV_LATE_CONSENSUS_TIME, AV_STUCK_CONSENSUS_TIME.
      by rewrite !(proj2 (Z.ltb_ge _ _)) by lia. }
    nia.
Qed.

Lemma updateVote_sound_witness :
  let d := MkDisputed 6 1 false ∅ in
  updateVote 10 true d = (true, setOurVote true d) /\ 6 + 1 + 1 < 2 * (6 + 0).
Proof.
  intros d. split; [by vm_compute|].
  destruct (updateVote_sound d (setOurVote true d) 10 true) as (_ & _ & _ & H & _);
    [by_decide|by_decide|by vm_compute|exact H].
Defined.

End Consensus.
