(* ===== verification/PeerCache.v ===== *)
(** * PeerFinder: addresses and the caches that hold them

    Models the containers of [src/src/ripple/peerfinder/impl]: the livecache of
    endpoints heard from peers ([Livecache.h]), the boot cache ([Bootcache.cpp]),
    the back-off of fixed peers ([Fixed.h]), the per-slot table of recent
    endpoints ([SlotImp::recent_t]) and the distribution of endpoints to targets
    ([handout.h] with [ConnectHandouts], [RedirectHandouts], [SlotHandouts]),
    over the aged containers and IPv4 addresses of beast.

    The clock is an argument [now] (seconds).  [None] is undefined behaviour or a
    failed [assert]: an index outside an array, unlinking an element from an
    intrusive list it is not on, reading an element that was erased.  An element
    of an intrusive list is identified by its address.  [std::random_shuffle] is
    the class [Shuffler]: any permutation, chosen by a seed.  IPv6 addresses are a
    stub in beast, nothing creates one; an address is the 32-bit value of
    [AddressV4].

    The theorems: the livecache's table, its lists by hops and its histogram
    always agree, expiry is exact, the boot cache is sorted, bounded and free of
    duplicates, and the handout loop ends with nothing left that a target would
    take. *)

From Stdlib Require Import ZArith Lia Sorted.
From S2P Require Import Prelude.
From stdpp Require Import sorting list.
Open Scope Z_scope.

Module PeerCache.

(** ** Addresses (beast::IP) *)

(** [AddressV4::value]. *)
Definition Address : Type := Z.

Definition get_class (addr : Address) : nat :=
  match Z.shiftr (Z.land addr 3758096384) 29 with          (* 0xE0000000 *)
  | 0 | 1 | 2 | 3 => 0%nat | 4 | 5 => 1%nat | 6 => 2%nat | _ => 3%nat
  end.

Definition netmask (address_class : nat) : Address :=
  match address_class with
  | 0%nat => 4278190080 | 1%nat => 4294901760 | 2%nat => 4294967040 | _ => 4294967295
  end.

Definition broadcast_address (address mask : Address) : Address :=
  Z.lor address (Z.lxor mask 4294967295).

Definition is_loopback (addr : Address) : bool := Z.land addr 4278190080 =? 2130706432.
Definition is_unspecified (addr : Address) : bool := addr =? 0.
Definition is_multicast (addr : Address) : bool := Z.land addr 4026531840 =? 3758096384.

Definition is_private (addr : Address) : bool :=
  (Z.land addr 4278190080 =? 167772160) ||       (* 10.0.0.0/8 *)
  (Z.land addr 4293918720 =? 2886729728) ||      (* 172.16.0.0/12 *)
  (Z.land addr 4294901760 =? 3232235520) ||      (* 192.168.0.0/16 *)
  is_loopback addr.

Definition is_public (addr : Address) : bool :=
  negb (is_private addr) && negb (is_multicast addr) &&
  negb (addr =? broadcast_address addr (netmask (get_class addr))).

(** [beast::IP::Endpoint]. *)
Record IPEndpoint := MkIP { address : Address; port : Z }.

#[export] Instance IPEndpoint_eq_dec : EqDecision IPEndpoint.
Proof. solve_decision. Defined.
#[export] Instance IPEndpoint_countable : Countable IPEndpoint.
Proof.
  refine (inj_countable' (fun e => (address e, port e)) (fun '(a, p) => MkIP a p) _).
  by intros [].
Defined.

Definition at_port (e : IPEndpoint) (p : Z) : IPEndpoint := MkIP (address e) p.

(** [PeerSlotLogic::is_valid_address]. *)
Definition is_valid_address (e : IPEndpoint) : bool :=
  if is_unspecified (address e) then false
  else if negb (is_public (address e)) then false
  else negb (port e =? 0).

(** [PeerFinder::Endpoint]. *)
Record Endpoint := MkEndpoint { hops : Z; ep_address : IPEndpoint }.

#[export] Instance Endpoint_eq_dec : EqDecision Endpoint.
Proof. solve_decision. Defined.

(** ** Tuning *)

Definition maxHops : Z := 6.
Definition numberOfEndpoints : nat := 12.
Definition redirectEndpointCount : nat := 10.
Definition liveCacheSecondsToLive : Z := 30.
Definition recentAttemptDuration : Z := 60.
Definition secondsPerMessage : Z := 5.
Definition bootcacheSize : nat := 1000.
Definition bootcachePrunePercent : nat := 10.
Definition bootcacheCooldownTime : Z := 60.
Definition connectionBackoff : list Z := [1; 1; 2; 3; 5; 8; 13; 21; 34; 55].

(** ** Aged containers *)

(** The elements in chronological order. *)
Record aged_elt (K V : Type) := MkElt { elt_key : K; elt_val : V; elt_when : Z }.
Arguments MkElt {K V} _ _ _.
Arguments elt_key {K V} _.
Arguments elt_val {K V} _.
Arguments elt_when {K V} _.

Abbreviation aged K V := (list (aged_elt K V)).

Section Aged.
Context {K V : Type} `{EqDecision K}.
Implicit Types (c : aged K V) (k : K).

Definition aged_find k c : option (aged_elt K V) :=
  snd <$> list_find (fun e => elt_key e = k) c.

(** A key that is present keeps its value and its time. *)
Definition aged_emplace (now : Z) k (v : V) c : aged K V * bool :=
  match aged_find k c with
  | Some _ => (c, false)
  | None => (c ++ [MkElt k v now], true)
  end.

Definition aged_erase k c : aged K V := filter (fun e => elt_key e <> k) c.

Definition aged_touch (now : Z) k c : aged K V :=
  match aged_find k c with
  | Some e => aged_erase k c ++ [MkElt k (elt_val e) now]
  | None => c
  end.

(** Assignment through an iterator. *)
Definition aged_assign k (v : V) c : aged K V :=
  map (fun e => if decide (elt_key e = k) then MkElt k v (elt_when e) else e) c.

(** [beast::expire]. *)
Fixpoint aged_expire (now age : Z) c : aged K V :=
  match c with
  | [] => []
  | e :: c' => if elt_when e <=? now - age then aged_expire now age c' else c
  end.

End Aged.

(** ** The livecache *)

(** [m_cache], and [hops]: [m_lists], [m_hist]. *)
Record Livecache := MkLivecache {
  m_cache : aged IPEndpoint Endpoint;
  m_lists : list (list Endpoint);
  m_hist : list Z;
}.

Definition hop_count : nat := 8.           (* 1 + maxHops + 1 *)

Definition empty_livecache : Livecache :=
  MkLivecache [] (replicate hop_count []) (replicate hop_count 0).

(** [hops.begin () .. hops.end ()] and [hops.rbegin () .. hops.rend ()]: the hop
    lists, nearest first and farthest first. *)
Definition hops_seq (lc : Livecache) : list (list Endpoint) := m_lists lc.
Definition hops_rseq (lc : Livecache) : list (list Endpoint) := reverse (m_lists lc).

(** The index of an array; [None] is outside the array. *)
Definition hop_index (h : Z) : option nat :=
  if decide (0 <= h <= maxHops + 1) then Some (Z.to_nat h) else None.

(** [hops_t::insert]. *)
Definition hops_insert (e : Endpoint) (lc : Livecache) : option Livecache :=
  i ← hop_index (hops e);
  Some (MkLivecache (m_cache lc) (alter (cons e) i (m_lists lc)) (alter Z.succ i (m_hist lc))).

(** Unlinks [e] from the list of its hops and lowers the histogram. *)
Definition hops_remove (e : Endpoint) (lc : Livecache) : option Livecache :=
  i ← hop_index (hops e);
  l ← m_lists lc !! i;
  if decide (e ∈ (l : list Endpoint)) then
    Some (MkLivecache (m_cache lc) (alter (filter (fun x => x <> e)) i (m_lists lc))
            (alter Z.pred i (m_hist lc)))
  else None.

(** [hops_t::reinsert]; the element is shared with the table. *)
Definition hops_reinsert (e : Endpoint) (h : Z) (lc : Livecache) : option Livecache :=
  lc ← hops_remove e lc;
  let e' := MkEndpoint h (ep_address e) in
  hops_insert e' (MkLivecache (aged_assign (ep_address e) e' (m_cache lc)) (m_lists lc) (m_hist lc)).

Definition livecache_insert (now : Z) (ep : Endpoint) (lc : Livecache) : option Livecache :=
  if maxHops + 1 <? hops ep then None
  else
    match aged_find (ep_address ep) (m_cache lc) with
    | None =>
        hops_insert ep (MkLivecache (fst (aged_emplace now (ep_address ep) ep (m_cache lc)))
                          (m_lists lc) (m_hist lc))
    | Some x =>
        let e := elt_val x in
        if hops e <? hops ep then Some lc
        else
          let lc := MkLivecache (aged_touch now (ep_address ep) (m_cache lc)) (m_lists lc) (m_hist lc) in
          if hops ep <? hops e then hops_reinsert e (hops ep) lc else Some lc
    end.

(** The loop of [Livecache::expire] over the chronological list [c]. *)
Fixpoint livecache_expire_loop (now : Z) (c : aged IPEndpoint Endpoint) (lc : Livecache)
    : option Livecache :=
  match c with
  | [] => Some lc
  | x :: c =>
      if elt_when x <=? now - liveCacheSecondsToLive then
        lc ← hops_remove (elt_val x) lc;
        livecache_expire_loop now c
          (MkLivecache (aged_erase (elt_key x) (m_cache lc)) (m_lists lc) (m_hist lc))
      else Some lc
  end.

Definition livecache_expire (now : Z) (lc : Livecache) : option Livecache :=
  livecache_expire_loop now (m_cache lc) lc.

(** [std::random_shuffle]: a permutation that depends on the state of the
    generator. *)
Class Shuffler := {
  random_shuffle : forall {A : Type}, Z -> list A -> list A;
  random_shuffle_perm : forall (A : Type) seed (l : list A), random_shuffle seed l ≡ₚ l;
}.

(** [hops_t::shuffle]. *)
Definition hops_shuffle `{Shuffler} (seed : Z) (lc : Livecache) : Livecache :=
  MkLivecache (m_cache lc) (imap (fun i l => random_shuffle (seed + Z.of_nat i) l) (m_lists lc))
    (m_hist lc).

(** ** The boot cache *)

(** The right view of the bimap: the entries by decreasing valence, equal
    valences in order of insertion. *)
Record Bootcache := MkBootcache {
  m_map : list (IPEndpoint * Z);
  m_whenUpdate : Z;
  m_needsUpdate : bool;
  saved : option (list (IPEndpoint * Z));        (* the last [m_store.save] *)
}.

(** The constructor leaves [m_needsUpdate] uninitialised. *)
Definition new_bootcache (now : Z) (uninitialised : bool) : Bootcache :=
  MkBootcache [] now uninitialised None.

Definition set_map (m : list (IPEndpoint * Z)) (b : Bootcache) : Bootcache :=
  MkBootcache m (m_whenUpdate b) (m_needsUpdate b) (saved b).

(** Position of a new entry among the others: after its equals. *)
Fixpoint ordered_insert (x : IPEndpoint * Z) (m : list (IPEndpoint * Z)) : list (IPEndpoint * Z) :=
  match m with
  | [] => [x]
  | y :: m' => if snd y <? snd x then x :: m else y :: ordered_insert x m'
  end.

Definition boot_find (e : IPEndpoint) (m : list (IPEndpoint * Z)) : option Z :=
  snd <$> (snd <$> list_find (fun x => fst x = e) m).

(** [m_map.insert]: the left view is a set. *)
Definition map_insert (x : IPEndpoint * Z) (m : list (IPEndpoint * Z)) : list (IPEndpoint * Z) * bool :=
  match boot_find (fst x) m with
  | Some _ => (m, false)
  | None => (ordered_insert x m, true)
  end.

Definition map_erase (e : IPEndpoint) (m : list (IPEndpoint * Z)) : list (IPEndpoint * Z) :=
  filter (fun x => fst x <> e) m.

(** [prune]: drops the last tenth when over the limit. *)
Definition prune (m : list (IPEndpoint * Z)) : list (IPEndpoint * Z) :=
  if (length m <=? bootcacheSize)%nat then m
  else take (length m - (length m * bootcachePrunePercent) / 100) m.

Definition boot_update (now : Z) (b : Bootcache) : Bootcache :=
  if negb (m_needsUpdate b) then b
  else MkBootcache (m_map b) (now + bootcacheCooldownTime) false (Some (m_map b)).

Definition checkUpdate (now : Z) (b : Bootcache) : Bootcache :=
  if m_needsUpdate b && (m_whenUpdate b <? now) then boot_update now b else b.

Definition flagForUpdate (now : Z) (b : Bootcache) : Bootcache :=
  checkUpdate now (MkBootcache (m_map b) (m_whenUpdate b) true (saved b)).

Definition boot_insert (now : Z) (e : IPEndpoint) (b : Bootcache) : Bootcache * bool :=
  let '(m, inserted) := map_insert (e, 0) (m_map b) in
  if inserted : bool then (flagForUpdate now (set_map (prune m) b), true) else (b, false).

(** The common body of [on_success] and [on_failure]: a new entry with valence
    [v0], or [next] of the old valence.  Both read the entry afterwards. *)
Definition boot_record (v0 : Z) (next : Z -> Z) (now : Z) (e : IPEndpoint) (b : Bootcache)
    : option Bootcache :=
  let '(m, inserted) := map_insert (e, v0) (m_map b) in
  let m :=
    if inserted : bool then prune m
    else ordered_insert (e, next (default 0 (boot_find e m))) (map_erase e m) in
  _ ← boot_find e m;
  Some (flagForUpdate now (set_map m b)).

Definition on_success : Z -> IPEndpoint -> Bootcache -> option Bootcache :=
  boot_record 1 (fun v => i32 ((if v <? 0 then 0 else v) + 1)).

Definition on_failure : Z -> IPEndpoint -> Bootcache -> option Bootcache :=
  boot_record (-1) (fun v => i32 ((if 0 <? v then 0 else v) - 1)).

(** [clear] and [load]: the store's rows in the order it returns them. *)
Definition boot_load (stored : list (IPEndpoint * Z)) (b : Bootcache) : Bootcache :=
  let m := foldl (fun m x => fst (map_insert x m)) [] stored in
  MkBootcache (if (0 <? length stored)%nat then prune m else m) (m_whenUpdate b) true (saved b).

(** ** Fixed peers *)

Record Fixed := MkFixed { f_when : Z; f_failures : nat }.

Definition new_fixed (now : Z) : Fixed := MkFixed now 0.

Definition fixed_failure (now : Z) (f : Fixed) : option Fixed :=
  let n := Nat.min (f_failures f + 1) (length connectionBackoff - 1) in
  m ← connectionBackoff !! n;
  Some (MkFixed (now + 60 * m) n).

Definition fixed_success (now : Z) (f : Fixed) : Fixed := MkFixed now 0.

(** ** Recent endpoints of a slot *)

Abbreviation recent_t := (aged IPEndpoint Z).

Definition recent_insert (now : Z) (ep : IPEndpoint) (h : Z) (r : recent_t) : recent_t :=
  match aged_find ep r with
  | None => fst (aged_emplace now ep h r)
  | Some x => if h <=? elt_val x then aged_touch now ep (aged_assign ep h r) else r
  end.

Definition recent_filter (ep : IPEndpoint) (h : Z) (r : recent_t) : bool :=
  match aged_find ep r with
  | None => false
  | Some x => elt_val x <=? h
  end.

Definition recent_expire (now : Z) (r : recent_t) : recent_t :=
  aged_expire now liveCacheSecondsToLive r.

(** ** Handouts *)

(** A target of [handout]: [try_insert] is [None] where the code returns
    [false].  [room] counts the insertions left, it bounds the loop. *)
Class Target (T : Type) := {
  full : T -> bool;
  try_insert : Endpoint -> T -> option T;
  room : T -> nat;
}.

Class TargetSpec (T : Type) `{Target T} := {
  full_room (t : T) : full t = true <-> room t = 0%nat;
  full_refuses (t : T) e : full t = true -> try_insert e t = None;
  insert_room (t t' : T) e : try_insert e t = Some t' -> room t = S (room t');
}.

Section Handout.
Context {T : Type} `{Target T}.

(** [handout_one]: the first endpoint the target takes moves to the back. *)
Fixpoint handout_one (t : T) (h : list Endpoint) : option (T * list Endpoint) :=
  match h with
  | [] => None
  | e :: h =>
      match try_insert e t with
      | Some t' => Some (t', h ++ [e])
      | None => '(t', h') ← handout_one t h; Some (t', e :: h')
      end
  end.

(** The loop over the targets: number handed out, [all_full]. *)
Fixpoint handout_targets (c : list Endpoint) (ts : list T) : nat * bool * list Endpoint * list T :=
  match ts with
  | [] => (0%nat, true, c, [])
  | t :: ts =>
      if full t then
        let '(n, af, c, ts) := handout_targets c ts in (n, af, c, t :: ts)
      else
        match handout_one t c with
        | Some (t', c') => let '(n, _, c, ts) := handout_targets c' ts in (S n, false, c, t' :: ts)
        | None => let '(n, _, c, ts) := handout_targets c ts in (n, false, c, t :: ts)
        end
  end.

(** The loop over the hops: number handed out, whether it returned. *)
Fixpoint handout_round (seqs : list (list Endpoint)) (ts : list T)
    : nat * bool * list (list Endpoint) * list T :=
  match seqs with
  | [] => (0%nat, false, [], ts)
  | c :: seqs =>
      let '(n, af, c, ts) := handout_targets c ts in
      if af : bool then (n, true, c :: seqs, ts)
      else
        let '(m, ret, seqs, ts) := handout_round seqs ts in ((n + m)%nat, ret, c :: seqs, ts)
  end.

Fixpoint handout_loop (fuel : nat) (seqs : list (list Endpoint)) (ts : list T)
    : option (list (list Endpoint) * list T) :=
  match fuel with
  | O => None
  | S fuel =>
      let '(n, ret, seqs, ts) := handout_round seqs ts in
      if (ret : bool) || (n =? 0)%nat then Some (seqs, ts) else handout_loop fuel seqs ts
  end.

Definition total_room (ts : list T) : nat := list_sum (map room ts).

(** Each round but the last hands out at least one endpoint. *)
Definition handout (seqs : list (list Endpoint)) (ts : list T)
    : option (list (list Endpoint) * list T) :=
  handout_loop (S (total_room ts)) seqs ts.

End Handout.

(** [ConnectHandouts]: addresses for automatic connections. *)
Abbreviation Squelches := (aged Address unit).

Record ConnectHandouts := MkConnect {
  ch_now : Z; ch_needed : nat; ch_squelches : Squelches; ch_list : list IPEndpoint
}.

Definition ch_full (t : ConnectHandouts) : bool := (ch_needed t <=? length (ch_list t))%nat.

Definition ch_try_insert (endpoint : IPEndpoint) (t : ConnectHandouts) : option ConnectHandouts :=
  if ch_full t then None
  else if existsb (fun other => address other =? address endpoint) (ch_list t) then None
  else
    let '(s, inserted) := aged_emplace (ch_now t) (address endpoint) tt (ch_squelches t) in
    if negb inserted then None
    else Some (MkConnect (ch_now t) (ch_needed t) s (ch_list t ++ [endpoint])).

#[export] Instance connect_target : Target ConnectHandouts := {
  full := ch_full;
  try_insert e := ch_try_insert (ep_address e);
  room t := (ch_needed t - length (ch_list t))%nat;
}.

(** [RedirectHandouts]: addresses for a peer we have no slot for. *)
Record RedirectHandouts := MkRedirect { rh_remote : IPEndpoint; rh_list : list Endpoint }.

Definition rh_full (t : RedirectHandouts) : bool := (redirectEndpointCount <=? length (rh_list t))%nat.

(** "The address is already in our list": ports are ignored. *)
Definition listed (ep : Endpoint) (l : list Endpoint) : bool :=
  existsb (fun other => address (ep_address other) =? address (ep_address ep)) l.

Definition rh_try_insert (ep : Endpoint) (t : RedirectHandouts) : option RedirectHandouts :=
  if rh_full t then None
  else if maxHops <? hops ep then None
  else if hops ep =? 0 then None
  else if address (rh_remote t) =? address (ep_address ep) then None
  else if listed ep (rh_list t) then None
  else Some (MkRedirect (rh_remote t) (rh_list t ++ [ep])).

#[export] Instance redirect_target : Target RedirectHandouts := {
  full := rh_full;
  try_insert := rh_try_insert;
  room t := (redirectEndpointCount - length (rh_list t))%nat;
}.

(** [SlotHandouts]: endpoints for an active peer; [sh_recent] is the slot's
    recent table. *)
Record SlotHandouts := MkSlotHandouts {
  sh_now : Z; sh_remote : IPEndpoint; sh_recent : recent_t; sh_list : list Endpoint
}.

Definition sh_full (t : SlotHandouts) : bool := (numberOfEndpoints <=? length (sh_list t))%nat.

Definition sh_insert (ep : Endpoint) (t : SlotHandouts) : SlotHandouts :=
  MkSlotHandouts (sh_now t) (sh_remote t) (sh_recent t) (sh_list t ++ [ep]).

Definition sh_try_insert (ep : Endpoint) (t : SlotHandouts) : option SlotHandouts :=
  if sh_full t then None
  else if maxHops <? hops ep then None
  else if recent_filter (ep_address ep) (hops ep) (sh_recent t) then None
  else if address (sh_remote t) =? address (ep_address ep) then None
  else if listed ep (sh_list t) then None
  else Some (MkSlotHandouts (sh_now t) (sh_remote t)
               (recent_insert (sh_now t) (ep_address ep) (hops ep) (sh_recent t)) (sh_list t ++ [ep])).

#[export] Instance slot_target : Target SlotHandouts := {
  full := sh_full;
  try_insert := sh_try_insert;
  room t := (numberOfEndpoints - length (sh_list t))%nat;
}.

(** * Aged containers: time order *)

Record aged_ok {K V : Type} (now : Z) (c : aged K V) : Prop := {
  aged_nodup : NoDup (map elt_key c);
  aged_sorted : StronglySorted Z.le (map elt_when c);
  aged_past : Forall (fun e => elt_when e <= now) c;
}.

Section AgedLemmas.
Context {K V : Type} `{EqDecision K}.
Implicit Types (c : aged K V) (k : K) (e : aged_elt K V).

Lemma aged_find_Some k c e : aged_find k c = Some e -> e ∈ c /\ elt_key e = k.
Proof.
  unfold aged_find. intros ([i x] & H & ->)%fmap_Some.
  apply list_find_Some in H as (H & ? & _). split; [|done]. by eapply list_elem_of_lookup_2.
Qed.

Lemma aged_find_None k c : aged_find k c = None <-> k ∉ map elt_key c.
Proof.
  unfold aged_find. rewrite fmap_None, list_find_None, Forall_forall.
  rewrite list_elem_of_fmap. split; [|naive_solver].
  intros H (e & -> & He). by apply (H e).
Qed.

Lemma aged_find_elem c e : NoDup (map elt_key c) -> e ∈ c -> aged_find (elt_key e) c = Some e.
Proof.
  intros HN He. destruct (aged_find (elt_key e) c) as [e'|] eqn:E.
  - apply aged_find_Some in E as [He' Heq]. f_equal.
    induction c as [|x c IH]; [by apply elem_of_nil in He|]. cbn [map] in HN.
    apply NoDup_cons in HN as [Hx HN]. rewrite elem_of_cons in He, He'.
    destruct He as [->|He], He' as [->|He']; [done| | |by apply IH]; exfalso; apply Hx.
    + rewrite <- Heq. by apply list_elem_of_fmap_2.
    + rewrite Heq. by apply list_elem_of_fmap_2.
  - apply aged_find_None in E. destruct E. by apply list_elem_of_fmap_2.
Qed.

Lemma aged_ok_filter now c (P : aged_elt K V -> Prop) `{!forall e, Decision (P e)} :
  aged_ok now c -> aged_ok now (filter P c).
Proof.
  intros [HN HS HP]. split.
  - clear HS HP. induction c as [|e c IH]; [constructor|]. cbn [map] in HN.
    apply NoDup_cons in HN as [He HN]. rewrite filter_cons. case_decide; [|by apply IH].
    cbn [map]. apply NoDup_cons. split; [|by apply IH]. intros (x & Hx & Hin)%list_elem_of_fmap.
    apply list_elem_of_filter in Hin as [_ Hin]. apply He. rewrite Hx. by apply list_elem_of_fmap_2.
  - clear HN HP. induction c as [|e c IH]; [constructor|]. cbn [map] in HS.
    apply StronglySorted_inv in HS as [HS He]. rewrite filter_cons. case_decide; [|by apply IH].
    cbn [map]. constructor; [by apply IH|]. rewrite Forall_fmap, Forall_forall in He |- *.
    intros x [_ Hx]%list_elem_of_filter. by apply He.
  - rewrite Forall_forall in HP |- *. intros x [_ Hx]%list_elem_of_filter. by apply HP.
Qed.

Lemma aged_ok_snoc now c k (v : V) :
  aged_ok now c -> k ∉ map elt_key c -> aged_ok now (c ++ [MkElt k v now]).
Proof.
  intros [HN HS HP] Hk. split.
  - rewrite map_app. apply NoDup_app. split_and!; [done| |apply NoDup_singleton].
    intros x Hx ->%list_elem_of_singleton. by apply Hk.
  - rewrite map_app. clear HN Hk. induction c as [|e c IH]; cbn [map app].
    + repeat constructor.
    + cbn [map] in HS. apply StronglySorted_inv in HS as [HS He]. apply Forall_cons_1 in HP as [HP1 HP].
      constructor; [by apply IH|]. apply Forall_app. split; [done|by repeat constructor].
  - apply Forall_app. split; [done|by repeat constructor].
Qed.

Lemma aged_ok_erase now c k : aged_ok now c -> aged_ok now (aged_erase k c).
Proof. apply aged_ok_filter. Qed.

Lemma aged_erase_absent c k : k ∉ map elt_key (aged_erase k c).
Proof.
  intros (e & -> & He)%list_elem_of_fmap. by apply list_elem_of_filter in He as [? _].
Qed.

Lemma aged_ok_emplace now c k (v : V) : aged_ok now c -> aged_ok now (fst (aged_emplace now k v c)).
Proof.
  intros Hc. unfold aged_emplace. destruct (aged_find k c) eqn:E; [done|].
  apply aged_ok_snoc; [done|]. by apply aged_find_None.
Qed.

Lemma aged_ok_touch now c k : aged_ok now c -> aged_ok now (aged_touch now k c).
Proof.
  intros Hc. unfold aged_touch. destruct (aged_find k c) eqn:E; [|done].
  apply aged_ok_snoc; [by apply aged_ok_erase|apply aged_erase_absent].
Qed.

Lemma aged_assign_keys k (v : V) c : map elt_key (aged_assign k v c) = map elt_key c.
Proof.
  unfold aged_assign. rewrite map_map. apply map_ext. intros e. by case_decide.
Qed.

Lemma aged_ok_assign now c k (v : V) : aged_ok now c -> aged_ok now (aged_assign k v c).
Proof.
  intros [HN HS HP]. split.
  - by rewrite aged_assign_keys.
  - replace (map elt_when (aged_assign k v c)) with (map elt_when c); [done|].
    unfold aged_assign. rewrite map_map. apply map_ext. intros e. by case_decide.
  - rewrite Forall_forall in HP |- *. intros x (e & -> & He)%list_elem_of_fmap.
    case_decide; cbn [elt_when]; by apply (HP e).
Qed.

Lemma aged_ok_later now now' c : aged_ok now c -> now <= now' -> aged_ok now' c.
Proof.
  intros [HN HS HP] Hle. split; [done|done|]. eapply Forall_impl; [done|]. simpl. lia.
Qed.

Lemma aged_expire_filter now age t c :
  aged_ok t c -> aged_expire now age c = filter (fun e => now - age < elt_when e) c.
Proof.
  intros [_ HS _]. induction c as [|e c IH]; [done|]. cbn [map] in HS.
  apply StronglySorted_inv in HS as [HS He]. cbn [aged_expire]. rewrite filter_cons.
  destruct (Z.leb_spec (elt_when e) (now - age)).
  - rewrite decide_False by lia. by apply IH.
  - rewrite decide_True by lia. f_equal. symmetry. apply filter_all.
    rewrite Forall_fmap, Forall_forall in He.
    rewrite Forall_forall. intros x Hx. specialize (He x Hx). simpl in He. lia.
Qed.

Lemma aged_ok_expire now age t c : aged_ok t c -> aged_ok t (aged_expire now age c).
Proof. intros H. rewrite (aged_expire_filter now age t) by done. by apply aged_ok_filter. Qed.

End AgedLemmas.

#[export] Hint Resolve aged_ok_emplace aged_ok_touch aged_ok_assign aged_ok_erase aged_ok_expire : stellard.


Section AgedLookup.
Context {K V : Type} `{EqDecision K}.
Implicit Types (c : aged K V) (k : K) (e : aged_elt K V).

Lemma aged_find_app k c c' :
  aged_find k (c ++ c') = match aged_find k c with Some e => Some e | None => aged_find k c' end.
Proof.
  unfold aged_find. induction c as [|e c IH]; simpl; [done|].
  case_decide; [done|]. rewrite <- !option_fmap_compose in *.
  destruct (list_find _ (c ++ c')), (list_find _ c), (list_find _ c'); simpl in *; naive_solver.
Qed.

Lemma aged_find_cons k c e : aged_find k (e :: c) = if decide (elt_key e = k) then Some e else aged_find k c.
Proof.
  unfold aged_find. simpl. case_decide; [done|]. by destruct (list_find _ c).
Qed.

Lemma aged_find_erase k k' c : aged_find k (aged_erase k' c) = if decide (k = k') then None else aged_find k c.
Proof.
  induction c as [|e c IH]; [by case_decide|]. unfold aged_erase. rewrite filter_cons.
  fold (aged_erase k' c). rewrite aged_find_cons. destruct (decide (elt_key e <> k')) as [Hk|Hk].
  - rewrite aged_find_cons, IH. repeat case_decide; naive_solver.
  - apply dec_stable in Hk. rewrite IH. repeat case_decide; naive_solver.
Qed.

Lemma aged_find_touch now k k' c :
  aged_find k (aged_touch now k' c) =
    if decide (k = k') then (fun e => MkElt k (elt_val e) now) <$> aged_find k c else aged_find k c.
Proof.
  unfold aged_touch. destruct (aged_find k' c) as [e|] eqn:E.
  - rewrite aged_find_app, aged_find_erase, aged_find_cons. simpl.
    case_decide; subst; [by rewrite E, decide_True|].
    destruct (aged_find k c); [done|]. by rewrite decide_False.
  - case_decide; subst; [by rewrite E|done].
Qed.

Lemma aged_find_assign k k' v c :
  aged_find k (aged_assign k' v c) =
    if decide (k = k') then (fun e => MkElt k v (elt_when e)) <$> aged_find k c else aged_find k c.
Proof.
  induction c as [|e c IH]; [by case_decide|]. unfold aged_assign in *. cbn [map].
  rewrite !aged_find_cons, IH. repeat (case_decide; simplify_eq/=); naive_solver.
Qed.

Lemma aged_assign_absent k v c : k ∉ map elt_key c -> aged_assign k v c = c.
Proof.
  induction c as [|e c IH]; [done|]. unfold aged_assign in *. cbn [map].
  rewrite not_elem_of_cons. intros [H1 H2]. rewrite decide_False by done. by rewrite IH.
Qed.

Lemma aged_erase_not c k : k ∉ map elt_key c -> aged_erase k c = c.
Proof.
  intros H. apply filter_all, Forall_forall. intros e He <-. apply H. by apply list_elem_of_fmap_2.
Qed.

Lemma aged_erase_head c e : NoDup (map elt_key (e :: c)) -> aged_erase (elt_key e) (e :: c) = c.
Proof.
  cbn [map]. intros [H _]%NoDup_cons. unfold aged_erase. rewrite filter_cons, decide_False by naive_solver.
  by apply aged_erase_not.
Qed.

Lemma aged_erase_perm c k e :
  NoDup (map elt_key c) -> aged_find k c = Some e -> c ≡ₚ e :: aged_erase k c.
Proof.
  intros HN. induction c as [|x c IH]; [done|]. rewrite aged_find_cons.
  case_decide as Hk; intros E.
  - injection E as <-. subst k. by rewrite (aged_erase_head _ _ HN).
  - cbn [map] in HN. apply NoDup_cons in HN as [_ HN]. unfold aged_erase. rewrite filter_cons, decide_True by done.
    fold (aged_erase k c). rewrite (IH HN E) at 1. apply Permutation_swap.
Qed.

End AgedLookup.

(** * The livecache: table, lists and histogram agree *)

(** The lists of [hops] hold exactly the endpoints [es], by their hops. *)
Record hops_ok (es : list Endpoint) (lc : Livecache) : Prop := {
  hops_len : length (m_lists lc) = hop_count;
  hops_lists i l : m_lists lc !! i = Some l -> l ≡ₚ filter (fun e => hops e = Z.of_nat i) es;
  hops_hist : m_hist lc = map (fun l => Z.of_nat (length l)) (m_lists lc);
}.

Definition in_hops (e : Endpoint) : Prop := 0 <= hops e <= maxHops + 1.

Record live_ok (now : Z) (lc : Livecache) : Prop := {
  live_aged : aged_ok now (m_cache lc);
  live_elts : Forall (fun x => ep_address (elt_val x) = elt_key x /\ in_hops (elt_val x)) (m_cache lc);
  live_hops : hops_ok (map elt_val (m_cache lc)) lc;
}.

#[export] Instance hops_ok_perm : Proper ((≡ₚ) ==> (=) ==> iff) hops_ok.
Proof.
  intros es es' E lc _ <-. split; intros [H1 H2 H3]; split; [done| |done|done| |done];
    intros i l Hl; [rewrite <- E|rewrite E]; by apply H2.
Qed.

Lemma hop_index_in e : in_hops e -> hop_index (hops e) = Some (Z.to_nat (hops e)).
Proof. intros H. unfold hop_index. by rewrite decide_True. Qed.

Lemma map_alter_len (f : list Endpoint -> list Endpoint) (g : Z -> Z) i ls :
  (forall l, ls !! i = Some l -> Z.of_nat (length (f l)) = g (Z.of_nat (length l))) ->
  alter g i (map (fun l => Z.of_nat (length l)) ls) = map (fun l => Z.of_nat (length l)) (alter f i ls).
Proof.
  intros H. apply list_eq. intros j. change @map with (fun A B f => @fmap list _ A B f). cbn beta.
  rewrite list_lookup_fmap, !list_lookup_alter, !list_lookup_fmap.
  case_decide; [subst|done]. destruct (ls !! j) as [l|] eqn:E; simpl; [|done]. by rewrite H.
Qed.

Lemma hops_insert_ok es e lc :
  hops_ok es lc -> in_hops e ->
  exists lc', hops_insert e lc = Some lc' /\ m_cache lc' = m_cache lc /\ hops_ok (e :: es) lc'.
Proof.
  intros [H1 H2 H3] He. unfold hops_insert. rewrite (hop_index_in e He). simpl.
  eexists. split_and!; [done|done|]. split; simpl.
  - by rewrite length_alter.
  - intros i l. rewrite list_lookup_alter. unfold in_hops in He. rewrite filter_cons. case_decide as Hi.
    + intros (l0 & Hl & ->)%fmap_Some. rewrite decide_True by lia. f_equiv.
      apply H2. by rewrite <- Hi.
    + intros Hl. rewrite decide_False by lia. by apply H2.
  - rewrite H3. apply map_alter_len. intros l _. simpl. lia.
Qed.

Lemma hops_remove_ok es e lc :
  hops_ok (e :: es) lc -> e ∉ es -> in_hops e ->
  exists lc', hops_remove e lc = Some lc' /\ m_cache lc' = m_cache lc /\ hops_ok es lc'.
Proof.
  intros [H1 H2 H3] Hes He. unfold hops_remove. rewrite (hop_index_in e He). cbn [mbind option_bind].
  pose proof He as He'. unfold in_hops, maxHops in He'.
  destruct (lookup_lt_is_Some_2 (m_lists lc) (Z.to_nat (hops e))) as [l Hl].
  { rewrite H1. unfold hop_count. lia. }
  rewrite Hl. cbn [mbind option_bind]. pose proof (H2 _ _ Hl) as Hp. rewrite Z2Nat.id in Hp by lia.
  rewrite filter_cons, decide_True in Hp by done.
  assert (Hel : e ∈ l) by (rewrite Hp; apply elem_of_cons; by left).
  rewrite (decide_True _ _ Hel).
  assert (Hf : filter (fun x => x <> e) l ≡ₚ filter (fun x => hops x = hops e) es).
  { rewrite Hp, filter_cons, decide_False by naive_solver. rewrite filter_all; [done|].
    apply Forall_forall. intros x [_ Hx]%list_elem_of_filter ->. done. }
  eexists. split_and!; [done|done|]. split; simpl.
  - by rewrite length_alter.
  - intros i k. rewrite list_lookup_alter. case_decide as Hi.
    + rewrite Hl. intros [= <-]. by rewrite Hf, <- Hi, Z2Nat.id by lia.
    + intros Hk. rewrite (H2 _ _ Hk), filter_cons, decide_False by lia. done.
  - rewrite H3. apply map_alter_len. intros l' Hl'. simplify_eq. rewrite Hf, Hp. simpl. lia.
Qed.


Lemma live_ok_later now now' lc : live_ok now lc -> now <= now' -> live_ok now' lc.
Proof. intros [H1 H2 H3] ?. split; [by eapply aged_ok_later|done|done]. Qed.

(** The lists may be reordered freely. *)
Lemma live_ok_lists now lc ls :
  live_ok now lc -> Forall2 (≡ₚ) (m_lists lc) ls ->
  live_ok now (MkLivecache (m_cache lc) ls (m_hist lc)).
Proof.
  intros [H1 H2 [H3 H4 H5]] HF. split; [done|done|]. split; simpl.
  - by rewrite <- (Forall2_length _ _ _ HF).
  - intros i l Hl. destruct (Forall2_lookup_r _ _ _ _ _ HF Hl) as (l' & Hl' & <-). by apply H4.
  - rewrite H5. clear -HF. induction HF as [|l l' ls ls' Hp _ IH]; simpl; [done|]. by rewrite Hp, IH.
Qed.

Lemma live_ok_shuffle `{Shuffler} now seed lc : live_ok now lc -> live_ok now (hops_shuffle seed lc).
Proof.
  intros Hlc. apply live_ok_lists; [done|]. apply Forall2_same_length_lookup_2.
  - by rewrite length_imap.
  - intros i x y Hx. rewrite list_lookup_imap, Hx. intros [= <-]. symmetry. apply random_shuffle_perm.
Qed.

(** An element and the others. *)
Lemma live_split now lc k x :
  live_ok now lc -> aged_find k (m_cache lc) = Some x ->
  let es := map elt_val (aged_erase k (m_cache lc)) in
  elt_key x = k /\ ep_address (elt_val x) = k /\ in_hops (elt_val x) /\
  hops_ok (elt_val x :: es) lc /\ elt_val x ∉ es.
Proof.
  intros [H1 H2 H3] Hx es. destruct (aged_find_Some _ _ _ Hx) as [Hin Hk].
  rewrite Forall_forall in H2. destruct (H2 _ Hin) as [Ha Hh].
  split_and!; [done|congruence|done| |].
  - pose proof (aged_erase_perm _ _ _ (aged_nodup _ _ H1) Hx) as Hp. rewrite Hp in H3. exact H3.
  - intros (y & Hy & Hyin)%list_elem_of_fmap. apply list_elem_of_filter in Hyin as [Hne Hyin].
    destruct (H2 _ Hyin) as [Ha' _]. congruence.
Qed.

Lemma live_elts_erase now lc k :
  live_ok now lc ->
  Forall (fun x => ep_address (elt_val x) = elt_key x /\ in_hops (elt_val x)) (aged_erase k (m_cache lc)).
Proof. intros [_ H _]. apply Forall_forall. intros x [_ Hx]%list_elem_of_filter. by eapply Forall_forall in H. Qed.

(** What the table holds for an address after [ep] was inserted. *)
Definition live_merge (now : Z) (ep : Endpoint) (old : option (aged_elt IPEndpoint Endpoint))
    : aged_elt IPEndpoint Endpoint :=
  match old with
  | Some x => if hops (elt_val x) <? hops ep then x else MkElt (ep_address ep) ep now
  | None => MkElt (ep_address ep) ep now
  end.

Lemma livecache_insert_new now ep lc :
  live_ok now lc -> in_hops ep -> aged_find (ep_address ep) (m_cache lc) = None ->
  exists lc', livecache_insert now ep lc = Some lc' /\ live_ok now lc' /\
    m_cache lc' = m_cache lc ++ [MkElt (ep_address ep) ep now].
Proof.
  intros Hlc He Hf. unfold livecache_insert, aged_emplace. rewrite Hf.
  pose proof He as He'. unfold in_hops in He'. destruct (Z.ltb_spec (maxHops + 1) (hops ep)); [lia|].
  pose proof (live_hops _ _ Hlc) as Hh. cbn [fst].
  destruct (hops_insert_ok _ ep (MkLivecache (m_cache lc ++ [MkElt (ep_address ep) ep now])
              (m_lists lc) (m_hist lc)) ltac:(destruct Hh; by split) He) as (lc' & -> & Hc & Hok).
  simpl in Hc. eexists. split_and!; [done| |done]. split; rewrite Hc.
  - apply aged_ok_snoc; [apply Hlc|]. by apply aged_find_None.
  - apply Forall_app. split; [apply Hlc|]. by apply Forall_singleton.
  - rewrite map_app. simpl. by rewrite (Permutation_app_comm _ [ep]).
Qed.

Lemma livecache_insert_update now ep lc x :
  live_ok now lc -> in_hops ep -> aged_find (ep_address ep) (m_cache lc) = Some x ->
  hops (elt_val x) <? hops ep = false ->
  exists lc', livecache_insert now ep lc = Some lc' /\ live_ok now lc' /\
    m_cache lc' = aged_erase (ep_address ep) (m_cache lc) ++ [MkElt (ep_address ep) ep now].
Proof.
  intros Hlc He Hf Hlt. set (k := ep_address ep) in *. unfold livecache_insert. fold k.
  rewrite Hf, Hlt. unfold in_hops in He. destruct (Z.ltb_spec (maxHops + 1) (hops ep)); [lia|].
  destruct (live_split _ _ _ _ Hlc Hf) as (Hk & Ha & Hin & Hh & Hni).
  set (c := aged_erase k (m_cache lc)) in *.
  assert (Hc : aged_ok now (c ++ [MkElt k ep now])).
  { apply aged_ok_snoc; [apply aged_ok_erase, Hlc|apply aged_erase_absent]. }
  assert (Hel : Forall (fun x => ep_address (elt_val x) = elt_key x /\ in_hops (elt_val x))
                  (c ++ [MkElt k ep now])).
  { apply Forall_app. split; [by eapply live_elts_erase|by apply Forall_singleton]. }
  unfold aged_touch. rewrite Hf. fold c. destruct (Z.ltb_spec (hops ep) (hops (elt_val x))) as [Hl|Hl].
  - unfold hops_reinsert.
    destruct (hops_remove_ok _ _ (MkLivecache (c ++ [MkElt k (elt_val x) now]) (m_lists lc) (m_hist lc))
                ltac:(destruct Hh; by split) Hni Hin) as (l1 & -> & Hc1 & Hok1).
    cbn [mbind option_bind]. rewrite Ha, Hc1. cbn [m_cache]. unfold aged_assign at 1.
    rewrite map_app. fold (aged_assign k (MkEndpoint (hops ep) k) c).
    rewrite aged_assign_absent by apply aged_erase_absent. cbn [map elt_key elt_when].
    rewrite decide_True by done. replace (MkEndpoint (hops ep) k) with ep by (by destruct ep).
    destruct (hops_insert_ok _ ep (MkLivecache (c ++ [MkElt k ep now]) (m_lists l1) (m_hist l1))
                ltac:(destruct Hok1; by split) He) as (l2 & -> & Hc2 & Hok2).
    simpl in Hc2. eexists. split_and!; [done| |done]. split; rewrite Hc2; [done|done|].
    rewrite map_app. simpl. by rewrite (Permutation_app_comm _ [ep]).
  - assert (elt_val x = ep) as Heq.
    { destruct (elt_val x) as [h a] eqn:Ex, ep as [h' a']. simpl in *.
      apply Z.ltb_ge in Hlt. subst k. simpl in Ha. f_equal; [lia|done]. }
    rewrite Heq in *. eexists. split_and!; [done| |done]. split; simpl; [done|done|]. rewrite map_app. simpl.
    rewrite (Permutation_app_comm _ [ep]). destruct Hh; by split.
Qed.

(** Inserting an endpoint with legal hops is defined, keeps the structures in
    agreement and records the smallest hops, refreshed unless they grew. *)
Lemma livecache_insert_ok now ep lc :
  live_ok now lc -> in_hops ep ->
  exists lc', livecache_insert now ep lc = Some lc' /\ live_ok now lc' /\
    forall k, aged_find k (m_cache lc') =
      if decide (k = ep_address ep) then Some (live_merge now ep (aged_find k (m_cache lc)))
      else aged_find k (m_cache lc).
Proof.
  intros Hlc He. destruct (aged_find (ep_address ep) (m_cache lc)) as [x|] eqn:Hf.
  - destruct (hops (elt_val x) <? hops ep) eqn:Hlt.
    + exists lc. split_and!; [|done|].
      * unfold livecache_insert. rewrite Hf, Hlt. unfold in_hops in He.
        by destruct (Z.ltb_spec (maxHops + 1) (hops ep)); [lia|].
      * intros k. case_decide; [subst; rewrite Hf; simpl; by rewrite Hlt|done].
    + destruct (livecache_insert_update _ _ _ _ Hlc He Hf Hlt) as (lc' & -> & Hok & Hc).
      exists lc'. split_and!; [done|done|]. intros k. rewrite Hc, aged_find_app, aged_find_erase, aged_find_cons.
      simpl. case_decide as Hk; [subst; rewrite Hf, decide_True by done; simpl; by rewrite Hlt|].
      destruct (aged_find k (m_cache lc)); [done|]. by rewrite decide_False by naive_solver.
  - destruct (livecache_insert_new _ _ _ Hlc He Hf) as (lc' & -> & Hok & Hc).
    exists lc'. split_and!; [done|done|]. intros k. rewrite Hc, aged_find_app, aged_find_cons.
    simpl. case_decide as Hk; [subst; by rewrite Hf, decide_True by done|].
    destruct (aged_find k (m_cache lc)); [by rewrite decide_False|]. by rewrite decide_False by naive_solver.
Qed.

Lemma livecache_expire_loop_ok now t lc :
  live_ok t lc ->
  exists lc', livecache_expire_loop now (m_cache lc) lc = Some lc' /\ live_ok t lc' /\
    m_cache lc' = aged_expire now liveCacheSecondsToLive (m_cache lc).
Proof.
  remember (m_cache lc) as c eqn:Hc. revert lc Hc. induction c as [|x c IH]; intros lc Hc Hlc; [by exists lc|].
  cbn [livecache_expire_loop aged_expire]. case_match; [|exists lc; by rewrite Hc].
  assert (Hf : aged_find (elt_key x) (m_cache lc) = Some x).
  { rewrite <- Hc, aged_find_cons. by rewrite decide_True. }
  destruct (live_split _ _ _ _ Hlc Hf) as (_ & _ & Hin & Hh & Hni).
  assert (Her : aged_erase (elt_key x) (m_cache lc) = c).
  { rewrite <- Hc. apply aged_erase_head. rewrite Hc. apply Hlc. }
  destruct (hops_remove_ok _ _ _ Hh Hni Hin) as (l1 & -> & Hc1 & Hok1). cbn [mbind option_bind].
  rewrite Hc1, Her in *. apply (IH (MkLivecache c (m_lists l1) (m_hist l1)) eq_refl).
  split; simpl.
  - rewrite <- Her. apply aged_ok_erase, Hlc.
  - rewrite <- Her. by eapply live_elts_erase.
  - destruct Hok1; by split.
Qed.


(** * Handouts *)

Section HandoutLemmas.
Context {T : Type} `{TargetSpec T}.
(** [E] holds of what is handed out, [R] relates a target before and after. *)
Context (E : Endpoint -> Prop) (R : T -> T -> Prop) `{!PreOrder R}.
Context (Hins : forall e t t', E e -> try_insert e t = Some t' -> R t t').

Definition refuses (c : list Endpoint) (t : T) : Prop := Forall (fun e => try_insert e t = None) c.

Lemma handout_one_Some t h t' h' :
  handout_one t h = Some (t', h') -> h' ≡ₚ h /\ exists e, e ∈ h /\ try_insert e t = Some t'.
Proof.
  revert h'. induction h as [|e h IH]; intros h' Heq; simpl in Heq; [done|].
  destruct (try_insert e t) as [t1|] eqn:Ht.
  - simplify_eq. split; [by rewrite (Permutation_app_comm h)|].
    exists e. split; [apply elem_of_cons; by left|done].
  - apply bind_Some in Heq as ([t1 h1] & Hone & [= <- <-]).
    destruct (IH _ Hone) as (Hp & e1 & He1 & Ht1). split; [by rewrite Hp|].
    exists e1. split; [apply elem_of_cons; by right|done].
Qed.

Lemma handout_one_None t h : handout_one t h = None -> refuses h t.
Proof.
  induction h as [|e h IH]; intros Heq; simpl in Heq; [constructor|].
  destruct (try_insert e t) eqn:Ht; [done|]. constructor; [done|]. apply IH.
  by destruct (handout_one t h) as [[]|].
Qed.

Lemma handout_targets_spec c ts n af c' ts' :
  handout_targets c ts = (n, af, c', ts') -> Forall E c ->
  c' ≡ₚ c /\ Forall2 R ts ts' /\ total_room ts = (n + total_room ts')%nat /\
  (af = true -> Forall (fun t => full t = true) ts') /\
  (n = 0%nat -> c' = c /\ ts' = ts /\ Forall (refuses c) ts).
Proof.
  revert c n af c' ts'. induction ts as [|t ts IH]; intros c n af c' ts' Heq Hc; simpl in Heq.
  { simplify_eq. split_and!; [done|constructor|done|done|]. intros _. by split_and!. }
  destruct (full t) eqn:Hft; [|destruct (handout_one t c) as [[t1 c1]|] eqn:Hone].
  - destruct (handout_targets c ts) as [[[n1 af1] c1] ts1] eqn:Hr. simplify_eq.
    destruct (IH _ _ _ _ _ Hr Hc) as (H1 & H2 & H3 & H4 & H5).
    split_and!; [done|by constructor| | |].
    + unfold total_room in *. simpl. lia.
    + intros ->. constructor; [done|auto].
    + intros ->. destruct (H5 eq_refl) as (-> & -> & ?). split_and!; [done|done|].
      constructor; [|done]. apply Forall_forall. intros e _. by apply full_refuses.
  - destruct (handout_one_Some _ _ _ _ Hone) as (Hp & e & He & Ht).
    destruct (handout_targets c1 ts) as [[[n1 af1] c2] ts1] eqn:Hr. simplify_eq.
    destruct (IH _ _ _ _ _ Hr ltac:(by rewrite Hp)) as (H1 & H2 & H3 & H4 & H5).
    split_and!; [by rewrite H1| |  |done|done].
    + constructor; [|done]. eapply Hins; [|done]. by eapply Forall_forall in Hc.
    + pose proof (insert_room _ _ _ Ht). unfold total_room in *. simpl. lia.
  - destruct (handout_targets c ts) as [[[n1 af1] c2] ts1] eqn:Hr. simplify_eq.
    destruct (IH _ _ _ _ _ Hr Hc) as (H1 & H2 & H3 & H4 & H5).
    split_and!; [done|by constructor| |done|].
    + unfold total_room in *. simpl. lia.
    + intros ->. destruct (H5 eq_refl) as (-> & -> & ?). split_and!; [done|done|].
      constructor; [by apply handout_one_None|done].
Qed.

Lemma handout_round_spec seqs ts n ret seqs' ts' :
  handout_round seqs ts = (n, ret, seqs', ts') -> Forall (Forall E) seqs ->
  Forall2 (≡ₚ) seqs seqs' /\ Forall2 R ts ts' /\ total_room ts = (n + total_room ts')%nat /\
  (ret = true -> Forall (fun t => full t = true) ts') /\
  (n = 0%nat -> seqs' = seqs /\ ts' = ts /\ (ret = false -> Forall (fun c => Forall (refuses c) ts) seqs)).
Proof.
  revert ts n ret seqs' ts'. induction seqs as [|c seqs IH]; intros ts n ret seqs' ts' Heq Hc; simpl in Heq.
  { simplify_eq. split_and!; [done|reflexivity|done|done|]. intros _. by split_and!. }
  apply Forall_cons_1 in Hc as [Hc Hseqs].
  destruct (handout_targets c ts) as [[[n1 af] c1] ts1] eqn:Ht.
  destruct (handout_targets_spec _ _ _ _ _ _ Ht Hc) as (H1 & H2 & H3 & H4 & H5).
  destruct af.
  - simplify_eq. split_and!; [constructor; [by symmetry|reflexivity]|done|done|done|].
    intros ->. destruct (H5 eq_refl) as (-> & -> & ?). by split_and!.
  - destruct (handout_round seqs ts1) as [[[m ret1] seqs1] ts2] eqn:Hr. simplify_eq.
    destruct (IH _ _ _ _ _ Hr Hseqs) as (G1 & G2 & G3 & G4 & G5).
    split_and!; [constructor; [by symmetry|done]|by etrans|lia|done|].
    intros Hn. destruct (H5 ltac:(lia)) as (-> & -> & Hc1). destruct (G5 ltac:(lia)) as (-> & -> & Hc2).
    split_and!; [done|done|]. intros Hret. constructor; [done|auto].
Qed.

Lemma handout_loop_spec fuel seqs ts :
  (total_room ts < fuel)%nat -> Forall (Forall E) seqs ->
  exists seqs' ts', handout_loop fuel seqs ts = Some (seqs', ts') /\
    Forall2 (≡ₚ) seqs seqs' /\ Forall2 R ts ts' /\ Forall (fun c => Forall (refuses c) ts') seqs'.
Proof.
  revert seqs ts. induction fuel as [|fuel IH]; intros seqs ts Hlt HE; [lia|]. cbn [handout_loop].
  destruct (handout_round seqs ts) as [[[n ret] seqs1] ts1] eqn:Hr.
  destruct (handout_round_spec _ _ _ _ _ _ Hr HE) as (H1 & H2 & H3 & H4 & H5).
  destruct ret; cbn [orb].
  - exists seqs1, ts1. split_and!; [done|done|done|]. apply Forall_forall. intros c _.
    eapply Forall_impl; [by apply H4|]. intros t Ht. apply Forall_forall. intros e _. by apply full_refuses.
  - destruct (Nat.eqb_spec n 0) as [->|Hn].
    + destruct (H5 eq_refl) as (-> & -> & Hc). exists seqs, ts. split_and!; [done|done|done|auto].
    + destruct (IH seqs1 ts1) as (seqs2 & ts2 & -> & G1 & G2 & G3); [lia| |].
      { apply Forall_forall. intros c Hc. apply list_elem_of_lookup in Hc as [i Hi].
        destruct (Forall2_lookup_r _ _ _ _ _ H1 Hi) as (c0 & Hc0 & <-).
        by eapply Forall_lookup_1 in HE. }
      exists seqs2, ts2. split_and!; [done|by etrans|by etrans|done].
Qed.

End HandoutLemmas.

Ltac target_spec := split;
  [intros t; cbn [full room]; rewrite Nat.leb_le; lia
  |intros t e Hf; cbn [full try_insert] in *; by rewrite Hf
  |].

#[export] Instance connect_target_spec : TargetSpec ConnectHandouts.
Proof.
  unfold connect_target, ch_try_insert, ch_full. target_spec.
  intros t t' e. cbn [try_insert room]. intros Heq. split_ifs. destruct (aged_emplace _ _ _ _) as [s []]; simplify_eq/=.
  rewrite length_app. simpl. apply Nat.leb_gt in H. lia.
Qed.

#[export] Instance redirect_target_spec : TargetSpec RedirectHandouts.
Proof.
  unfold redirect_target, rh_try_insert, rh_full. target_spec.
  intros t t' e. cbn [try_insert room]. intros Heq.
  destruct (Nat.leb_spec redirectEndpointCount (length (rh_list t))); [done|]. split_ifs.
  cbn [rh_list]. rewrite length_app. cbn [length]. unfold redirectEndpointCount in *. lia.
Qed.

#[export] Instance slot_target_spec : TargetSpec SlotHandouts.
Proof.
  unfold slot_target, sh_try_insert, sh_full. target_spec.
  intros t t' e. cbn [try_insert room]. intros Heq.
  destruct (Nat.leb_spec numberOfEndpoints (length (sh_list t))); [done|]. split_ifs.
  cbn [sh_list]. rewrite length_app. cbn [length]. unfold numberOfEndpoints in *. lia.
Qed.


(** ** What a slot receives *)

Lemma recent_insert_mono now ep h r ep' h' :
  recent_filter ep' h' r = true -> recent_filter ep' h' (recent_insert now ep h r) = true.
Proof.
  unfold recent_filter, recent_insert, aged_emplace. intros Hf.
  destruct (aged_find ep' r) as [x|] eqn:E'; [|done].
  destruct (aged_find ep r) as [y|] eqn:E; cbn [fst].
  - destruct (h <=? elt_val y) eqn:Hh; [|by rewrite E'].
    rewrite aged_find_touch, !aged_find_assign. case_decide as Hk; [|by rewrite E'].
    subst ep'. rewrite E. simpl. simplify_eq. lia.
  - rewrite aged_find_app, E'. done.
Qed.

Lemma recent_insert_filter now ep h r : recent_filter ep h (recent_insert now ep h r) = true.
Proof.
  unfold recent_filter, recent_insert, aged_emplace.
  destruct (aged_find ep r) as [y|] eqn:E; cbn [fst].
  - destruct (h <=? elt_val y) eqn:Hh.
    + rewrite aged_find_touch, !aged_find_assign, !decide_True, E by done. simpl. lia.
    + rewrite E. lia.
  - rewrite aged_find_app, E, aged_find_cons, decide_True by done. simpl. lia.
Qed.

Lemma recent_insert_ok t now ep h r : aged_ok now r -> t = now -> aged_ok now (recent_insert t ep h r).
Proof.
  intros Hr ->. unfold recent_insert. destruct (aged_find ep r); [|by apply aged_ok_emplace].
  case_match; [|done]. by apply aged_ok_touch, aged_ok_assign.
Qed.

Definition host (e : Endpoint) : Address := address (ep_address e).

Lemma listed_spec e l : listed e l = true <-> host e ∈ map host l.
Proof.
  unfold listed. rewrite existsb_exists. unfold host.
  split.
  - intros (x & Hx & Heq%Z.eqb_eq). rewrite <- Heq.
    apply (list_elem_of_fmap_2 (fun y => address (ep_address y))). by apply list_elem_of_In.
  - intros (x & Heq & Hx)%list_elem_of_fmap. exists x. split; [by apply list_elem_of_In|].
    by apply Z.eqb_eq.
Qed.

(** What [try_insert] may add to a target, in one or several calls. *)
Record sh_adds (E : Endpoint -> Prop) (t t' : SlotHandouts) (added : list Endpoint) : Prop := {
  adds_now : sh_now t' = sh_now t;
  adds_remote : sh_remote t' = sh_remote t;
  adds_list : sh_list t' = sh_list t ++ added;
  adds_from : Forall E added;
  adds_hops : Forall (fun e => hops e <= maxHops) added;
  adds_other : Forall (fun e => host e <> address (sh_remote t)) added;
  adds_fresh : Forall (fun e => recent_filter (ep_address e) (hops e) (sh_recent t) = false) added;
  adds_distinct : Forall (fun e => host e ∉ map host (sh_list t)) added /\ NoDup (map host added);
  adds_room : added = [] \/ (length (sh_list t') <= numberOfEndpoints)%nat;
  adds_mono ep h : recent_filter ep h (sh_recent t) = true -> recent_filter ep h (sh_recent t') = true;
  adds_recent : Forall (fun e => recent_filter (ep_address e) (hops e) (sh_recent t') = true) added;
  adds_aged : aged_ok (sh_now t) (sh_recent t) -> aged_ok (sh_now t) (sh_recent t');
}.

Definition sh_grows (E : Endpoint -> Prop) (t t' : SlotHandouts) : Prop := exists l, sh_adds E t t' l.

Lemma sh_adds_trans E t1 t2 t3 l k : sh_adds E t1 t2 l -> sh_adds E t2 t3 k -> sh_adds E t1 t3 (l ++ k).
Proof.
  intros [A1 A2 A3 A4 A5 A6 A7 [A8 A8'] A9 A10 A11 A12] [B1 B2 B3 B4 B5 B6 B7 [B8 B8'] B9 B10 B11 B12].
  rewrite A3 in B8. rewrite A2 in B6. rewrite A1 in B12.
  split; try (apply Forall_app; split; done).
  - congruence.
  - congruence.
  - by rewrite B3, A3, app_assoc.
  - apply Forall_app. split; [done|]. eapply Forall_impl; [exact B7|]. intros e He. cbn beta in He.
    destruct (recent_filter _ _ (sh_recent t1)) eqn:F; [|done]. apply A10 in F. congruence.
  - split.
    + apply Forall_app. split; [done|]. eapply Forall_impl; [exact B8|]. intros e He. cbn beta in He.
      rewrite map_app, not_elem_of_app in He. tauto.
    + rewrite map_app. apply NoDup_app. split_and!; [done| |done]. intros x Hx (e & -> & He)%list_elem_of_fmap.
      eapply Forall_forall in B8; [|done]. rewrite map_app, not_elem_of_app in B8. tauto.
  - destruct B9 as [->|B9]; [|by right]. rewrite B3, !app_nil_r. destruct A9; auto.
  - eauto.
  - apply Forall_app. split; [|done]. eapply Forall_impl; [exact A11|]. simpl. eauto.
  - eauto.
Qed.

#[export] Instance sh_grows_preorder E : PreOrder (sh_grows E).
Proof.
  split.
  - intros t. exists []. split; rewrite ?app_nil_r; try done; solve [by constructor|by left|split; constructor].
  - intros t1 t2 t3 [l Hl] [k Hk]. exists (l ++ k). by eapply sh_adds_trans.
Qed.

Lemma sh_try_grows (E : Endpoint -> Prop) e t t' : E e -> try_insert e t = Some t' -> sh_grows E t t'.
Proof.
  intros HE Ht. exists [e]. cbn [try_insert slot_target] in Ht. unfold sh_try_insert, sh_full in Ht.
  destruct (Nat.leb_spec numberOfEndpoints (length (sh_list t))); [done|].
  destruct (Z.ltb_spec maxHops (hops e)); [done|].
  destruct (recent_filter (ep_address e) (hops e) (sh_recent t)) eqn:Hf; [done|].
  destruct (Z.eqb_spec (address (sh_remote t)) (address (ep_address e))); [done|].
  destruct (listed e (sh_list t)) eqn:Hl; [done|]. injection Ht as <-.
  split; cbn [sh_now sh_remote sh_recent sh_list]; try match goal with |- Forall _ [_] => apply Forall_singleton end; try done.
  - split; [apply Forall_singleton|by apply NoDup_singleton]. rewrite <- listed_spec. by rewrite Hl.
  - right. rewrite length_app. simpl. lia.
  - intros ep h. apply recent_insert_mono.
  - apply recent_insert_filter.
  - intros Ha. by apply recent_insert_ok.
Qed.


(** * The boot cache *)

Definition by_valence (x y : IPEndpoint * Z) : Prop := snd y <= snd x.

Record boot_ok (m : list (IPEndpoint * Z)) : Prop := {
  boot_nodup : NoDup (map fst m);
  boot_sorted : StronglySorted by_valence m;
  boot_size : (length m <= bootcacheSize)%nat;
}.

Lemma boot_find_None e m : boot_find e m = None <-> e ∉ map fst m.
Proof.
  unfold boot_find. rewrite !fmap_None, list_find_None, Forall_forall, list_elem_of_fmap.
  split; [|naive_solver]. intros H (x & -> & Hx). by apply (H x).
Qed.

Lemma boot_find_Some e v m : NoDup (map fst m) -> boot_find e m = Some v <-> (e, v) ∈ m.
Proof.
  unfold boot_find. intros HN. induction m as [|[e' v'] m IH]; cbn [list_find].
  { rewrite elem_of_nil. done. }
  cbn [map] in HN. apply NoDup_cons in HN as [Hx HN]. rewrite elem_of_cons. cbn [fst] in *.
  case_decide as Hk; cbn.
  - subst. split; [naive_solver|]. intros [[=]|Hin]; [by subst|]. destruct Hx.
    apply list_elem_of_fmap. by exists (e, v).
  - rewrite <- IH by done. rewrite <- !option_fmap_compose. destruct (list_find _ m); naive_solver.
Qed.

Lemma ordered_insert_perm x m : ordered_insert x m ≡ₚ x :: m.
Proof.
  induction m as [|y m IH]; simpl; [done|]. case_match; [done|]. rewrite IH. apply Permutation_swap.
Qed.

Lemma ordered_insert_sorted x m : StronglySorted by_valence m -> StronglySorted by_valence (ordered_insert x m).
Proof.
  induction m as [|y m IH]; simpl; intros HS; [repeat constructor|].
  apply StronglySorted_inv in HS as [HS Hy]. destruct (Z.ltb_spec (snd y) (snd x)).
  - constructor; [by constructor|]. unfold by_valence in *. constructor; [lia|].
    eapply Forall_impl; [done|]. simpl. lia.
  - constructor; [by apply IH|]. rewrite ordered_insert_perm. constructor; [done|done].
Qed.

Lemma sorted_sublist m m' : sublist m' m -> StronglySorted by_valence m -> StronglySorted by_valence m'.
Proof.
  induction 1 as [|x m' m Hs IH|x m' m Hs IH]; intros HS; [constructor| |];
    apply StronglySorted_inv in HS as [HS Hx]; [|by apply IH].
  constructor; [by apply IH|]. rewrite Forall_forall in Hx |- *. intros y Hy. apply Hx.
  by eapply elem_of_sublist.
Qed.

Lemma prune_sublist m : sublist (prune m) m.
Proof. unfold prune. case_match; [done|]. apply sublist_take. Qed.

Lemma prune_size m : (length m <= 1111)%nat -> (length (prune m) <= bootcacheSize)%nat.
Proof.
  intros H. unfold prune. destruct (Nat.leb_spec (length m) bootcacheSize) as [|Hlt]; [done|].
  rewrite length_take. unfold bootcacheSize, bootcachePrunePercent in *.
  pose proof (Nat.div_mod (length m * 10) 100). pose proof (Nat.mod_upper_bound (length m * 10) 100). lia.
Qed.

Lemma prune_small m : (length m <= bootcacheSize)%nat -> prune m = m.
Proof. intros H. unfold prune. by rewrite (proj2 (Nat.leb_le _ _) H). Qed.

Lemma boot_ok_prune m :
  NoDup (map fst m) -> StronglySorted by_valence m -> (length m <= 1111)%nat -> boot_ok (prune m).
Proof.
  intros HN HS Hl. split; [|by eapply sorted_sublist, HS; apply prune_sublist|by apply prune_size].
  eapply sublist_NoDup; [done|]. apply fmap_sublist, prune_sublist.
Qed.

Lemma boot_ok_insert x m :
  boot_ok m -> boot_find (fst x) m = None ->
  NoDup (map fst (ordered_insert x m)) /\ StronglySorted by_valence (ordered_insert x m) /\
  length (ordered_insert x m) = S (length m).
Proof.
  intros [HN HS Hl] Hf. pose proof (ordered_insert_perm x m) as Hp. split_and!.
  - change @map with (fun A B f => @fmap list _ A B f) in *. cbn beta in *. rewrite Hp. cbn.
    apply NoDup_cons. split; [by apply boot_find_None|done].
  - by apply ordered_insert_sorted.
  - by rewrite Hp.
Qed.

Lemma boot_ok_erase e m : boot_ok m -> boot_ok (map_erase e m).
Proof.
  intros [HN HS Hl]. assert (Hs : sublist (map_erase e m) m) by apply sublist_filter. split.
  - eapply sublist_NoDup; [done|]. by apply fmap_sublist.
  - by eapply sorted_sublist.
  - etrans; [|done]. by apply sublist_length.
Qed.

Lemma boot_find_inserted x m k :
  boot_ok m -> boot_find (fst x) m = None ->
  boot_find k (ordered_insert x m) = if decide (k = fst x) then Some (snd x) else boot_find k m.
Proof.
  intros Hm Hf. destruct (boot_ok_insert x m Hm Hf) as (HN & _ & _). pose proof (boot_nodup _ Hm) as HN'.
  apply option_eq. intros v. rewrite boot_find_Some by done. rewrite ordered_insert_perm, elem_of_cons.
  case_decide as Hk.
  - subst k. apply boot_find_None in Hf. destruct x as [k w]; simpl in *. split; [|naive_solver].
    intros [[=]|Hin]; [by subst|]. destruct Hf. apply list_elem_of_fmap. by exists (k, v).
  - rewrite boot_find_Some by done. destruct x; naive_solver.
Qed.

Lemma boot_find_erased k e m : boot_ok m ->
  boot_find k (map_erase e m) = if decide (k = e) then None else boot_find k m.
Proof.
  intros Hm. pose proof (boot_nodup _ (boot_ok_erase e m Hm)). pose proof (boot_nodup _ Hm).
  apply option_eq. intros v. rewrite boot_find_Some by done. unfold map_erase.
  rewrite list_elem_of_filter. simpl. case_decide; [naive_solver|]. rewrite boot_find_Some by done. naive_solver.
Qed.

Lemma flag_map now b : m_map (flagForUpdate now b) = m_map b.
Proof. unfold flagForUpdate, checkUpdate, boot_update. simpl. by repeat (case_match; simpl). Qed.

(** Recording an outcome is defined whenever the address is known or there is
    room for it, and changes the valence of that address only. *)
Lemma boot_record_ok v0 next now e b :
  boot_ok (m_map b) ->
  boot_find e (m_map b) <> None \/ (length (m_map b) < bootcacheSize)%nat ->
  exists b', boot_record v0 next now e b = Some b' /\ boot_ok (m_map b') /\
    forall k, boot_find k (m_map b') =
      if decide (k = e) then Some (match boot_find e (m_map b) with Some v => next v | None => v0 end)
      else boot_find k (m_map b).
Proof.
  intros Hm Hroom. unfold boot_record, map_insert. cbn [fst].
  destruct (boot_find e (m_map b)) as [v|] eqn:Hf.
  - rewrite Hf. change (default 0 (Some v)) with v. set (m := map_erase e (m_map b)).
    assert (Hm' : boot_ok m) by by apply boot_ok_erase.
    assert (Hn : boot_find (fst (e, next v)) m = None).
    { subst m. rewrite boot_find_erased by done. by rewrite decide_True. }
    destruct (boot_ok_insert _ _ Hm' Hn) as (H1 & H2 & H3).
    rewrite (boot_find_inserted _ _ _ Hm' Hn), decide_True by done. cbn [mbind option_bind].
    eexists. split; [done|]. rewrite flag_map. cbn [m_map set_map]. split.
    + split; [done|done|]. rewrite H3. enough (length m < length (m_map b))%nat as ?.
      { pose proof (boot_size _ Hm). lia. }
      subst m. apply boot_find_Some in Hf; [|apply Hm]. apply list_elem_of_split in Hf as (l1 & l2 & ->).
      unfold map_erase. rewrite filter_app, filter_cons, decide_False by (simpl; naive_solver).
      rewrite !length_app. simpl. pose proof (length_filter (fun x : IPEndpoint * Z => fst x <> e) l1).
      pose proof (length_filter (fun x : IPEndpoint * Z => fst x <> e) l2). lia.
    + intros k. rewrite (boot_find_inserted _ _ _ Hm' Hn). cbn [fst snd]. case_decide; [done|].
      subst m. rewrite boot_find_erased by done. by rewrite decide_False.
  - destruct Hroom as [|Hroom]; [done|].
    destruct (boot_ok_insert (e, v0) _ Hm Hf) as (H1 & H2 & H3).
    rewrite prune_small by lia.
    rewrite (boot_find_inserted (e, v0) _ _ Hm Hf), decide_True by done. cbn [mbind option_bind].
    eexists. split; [done|]. rewrite flag_map. cbn [m_map set_map]. split; [split; [done|done|lia]|].
    intros k. by rewrite (boot_find_inserted (e, v0) _ _ Hm Hf).
Qed.

Lemma boot_insert_ok now e b : boot_ok (m_map b) -> boot_ok (m_map (fst (boot_insert now e b))).
Proof.
  intros Hm. unfold boot_insert, map_insert. cbn [fst].
  destruct (boot_find e (m_map b)) eqn:Hf; [done|]. cbn [fst]. rewrite flag_map. cbn [m_map set_map].
  destruct (boot_ok_insert (e, 0) _ Hm Hf) as (H1 & H2 & H3). apply boot_ok_prune; [done|done|].
  pose proof (boot_size _ Hm). unfold bootcacheSize in *. lia.
Qed.


Lemma live_ok_empty now : live_ok now empty_livecache.
Proof.
  split; [split; constructor|constructor|]. split; [done| |done].
  intros i l Hl. by apply lookup_replicate in Hl as [-> _].
Qed.

Lemma livecache_expire_ok now t lc :
  live_ok t lc ->
  exists lc', livecache_expire now lc = Some lc' /\ live_ok t lc' /\
    m_cache lc' = filter (fun x => now - liveCacheSecondsToLive < elt_when x) (m_cache lc).
Proof.
  intros Hlc. destruct (livecache_expire_loop_ok now t lc Hlc) as (lc' & H1 & H2 & H3).
  exists lc'. split_and!; [done|done|]. rewrite H3. by eapply aged_expire_filter, Hlc.
Qed.

Definition failures_ok (f : Fixed) : Prop := (f_failures f < length connectionBackoff)%nat.

(** A failure is always defined and delays the next attempt by one minute to
    fifty-five. *)
Lemma fixed_failure_ok now f :
  exists f', fixed_failure now f = Some f' /\ failures_ok f' /\ now + 60 <= f_when f' <= now + 3300.
Proof.
  unfold fixed_failure, failures_ok. set (n := Nat.min _ _).
  assert (Hn : (n < length connectionBackoff)%nat) by (subst n; simpl; lia).
  clearbody n. destruct (lookup_lt_is_Some_2 _ _ Hn) as [m Hm]. rewrite Hm. cbn [mbind option_bind].
  eexists. split; [done|]. split; [done|]. cbn [f_when].
  enough (1 <= m <= 55) by lia.
  assert (Forall (fun m => 1 <= m <= 55) connectionBackoff) as HF by by_decide.
  by eapply Forall_lookup_1 in HF.
Qed.

(** ** Claims *)

(** C26: The loop of [handout] ends, and it ends with nothing left to do: for
    every kind of target, it returns, the hop lists are only reordered, no target
    is lost, and no target would take any endpoint of any list. *)
Theorem handout_complete {T : Type} `{TargetSpec T} (seqs : list (list Endpoint)) (ts : list T) :
  exists seqs' ts', handout seqs ts = Some (seqs', ts') /\
    Forall2 (≡ₚ) seqs seqs' /\ length ts' = length ts /\
    forall c t e, c ∈ seqs' -> t ∈ ts' -> e ∈ c -> try_insert e t = None.
Proof.
  assert (PreOrder (fun _ _ : T => True)) by by split.
  destruct (handout_loop_spec (fun _ => True) (fun _ _ => True) ltac:(done) (S (total_room ts)) seqs ts)
    as (seqs' & ts' & Heq & G1 & G2 & G3); [lia|by apply Forall_true; intros; apply Forall_true|].
  exists seqs', ts'. split_and!; [done|done|symmetry; by eapply Forall2_length|].
  intros c t e Hc Ht He. eapply Forall_forall in G3; [|done]. cbn beta in G3.
  eapply Forall_forall in G3; [|done]. by eapply Forall_forall in G3.
Qed.

Definition ex_ep (a h : Z) : Endpoint := MkEndpoint h (MkIP a 6561).

Lemma handout_complete_witness :
  let seqs := [[ex_ep 167772161 1; ex_ep 167772162 1]; [ex_ep 167772163 2]] in
  exists seqs' ts', handout seqs [MkRedirect (MkIP 167772161 1) []] = Some (seqs', ts') /\
    Forall2 (≡ₚ) seqs seqs' /\ length ts' = 1%nat /\
    forall c t e, c ∈ seqs' -> t ∈ ts' -> e ∈ c -> try_insert e t = None.
Proof.
  exact (handout_complete (T := RedirectHandouts) (H0 := redirect_target_spec)
    [[ex_ep 167772161 1; ex_ep 167772162 1]; [ex_ep 167772163 2]] [MkRedirect (MkIP 167772161 1) []]).
Defined.

(** What peers are sent.  For any hop lists and any target slots, each slot's
    message grows only by endpoints of the lists that are within [maxHops], are
    not the slot's own address nor already in the message (ports ignored), were
    not seen or sent recently at the same or fewer hops, and are remembered so
    that they are not sent again; a message that grew has at most
    [numberOfEndpoints] entries. *)
Theorem slot_handouts_rules (seqs : list (list Endpoint)) (ts : list SlotHandouts) :
  exists seqs' ts', handout seqs ts = Some (seqs', ts') /\
    Forall2 (fun t t' => exists added,
      sh_remote t' = sh_remote t /\ sh_list t' = sh_list t ++ added /\
      NoDup (map host added) /\
      (added = [] \/ (length (sh_list t') <= numberOfEndpoints)%nat) /\
      Forall (fun e =>
        (exists c, c ∈ seqs /\ e ∈ c) /\ hops e <= maxHops /\ host e <> address (sh_remote t) /\
        host e ∉ map host (sh_list t) /\
        recent_filter (ep_address e) (hops e) (sh_recent t) = false /\
        recent_filter (ep_address e) (hops e) (sh_recent t') = true) added) ts ts'.
Proof.
  set (E := fun e => exists c, c ∈ seqs /\ e ∈ c).
  destruct (handout_loop_spec E (sh_grows E) (sh_try_grows E) (S (total_room ts)) seqs ts)
    as (seqs' & ts' & Heq & _ & H2 & _); [lia| |].
  { apply Forall_forall. intros c Hc. apply Forall_forall. intros e He. by exists c. }
  exists seqs', ts'. split; [done|]. eapply Forall2_impl; [done|]. intros t t' [l Hl]. exists l.
  destruct Hl as [A1 A2 A3 A4 A5 A6 A7 [A8 A8'] A9 A10 A11 A12]. split_and!; [done|done|done|done|].
  repeat (apply Forall_and; split); done.
Qed.

(** The livecache.  Inserting an endpoint whose hops are within range and
    expiring are always defined and keep the table, the eight hop lists and the
    histogram in agreement.  Insertion records the endpoint with the fewest hops
    and refreshes it unless its hops grew, and touches no other address; expiry
    removes exactly the elements older than thirty seconds. *)
Theorem livecache_sound (now t : Z) (lc : Livecache) (ep : Endpoint) :
  live_ok t lc -> t <= now -> 0 <= hops ep <= maxHops + 1 ->
  (exists lc', livecache_insert now ep lc = Some lc' /\ live_ok now lc' /\
     forall k, aged_find k (m_cache lc') =
       if decide (k = ep_address ep) then Some (live_merge now ep (aged_find k (m_cache lc)))
       else aged_find k (m_cache lc)) /\
  (exists lc', livecache_expire now lc = Some lc' /\ live_ok t lc' /\
     m_cache lc' = filter (fun x => now - liveCacheSecondsToLive < elt_when x) (m_cache lc)).
Proof.
  intros Hlc Ht He. split; [|by apply livecache_expire_ok].
  apply livecache_insert_ok; [by eapply live_ok_later|done].
Qed.

Definition ex_live : Livecache :=
  default empty_livecache (livecache_insert 5 (ex_ep 134744072 3) empty_livecache).

Lemma ex_live_ok : live_ok 5 ex_live.
Proof.
  destruct (livecache_insert_ok 5 (ex_ep 134744072 3) empty_livecache (live_ok_empty 5)) as (lc' & H1 & H2 & _);
    [by_decide|]. unfold ex_live. by rewrite H1.
Qed.

Lemma livecache_sound_witness :
  (exists lc', livecache_insert 40 (ex_ep 134744072 1) ex_live = Some lc' /\ live_ok 40 lc' /\
     forall k, aged_find k (m_cache lc') =
       if decide (k = MkIP 134744072 6561)
       then Some (live_merge 40 (ex_ep 134744072 1) (aged_find k (m_cache ex_live)))
       else aged_find k (m_cache ex_live)) /\
  (exists lc', livecache_expire 40 ex_live = Some lc' /\ live_ok 5 lc' /\
     m_cache lc' = filter (fun x => 40 - liveCacheSecondsToLive < elt_when x) (m_cache ex_live)).
Proof.
  apply (livecache_sound 40 5 ex_live (ex_ep 134744072 1) ex_live_ok); [lia|simpl; unfold maxHops; lia].
Defined.

(** The boot cache.  In a cache sorted by valence, without duplicates and
    within its size, recording the outcome of a connection to a known address, or
    to a new one when there is room, is defined and keeps the cache so; a success
    counts up from zero, a failure counts down from zero, and no other address is
    affected.  Adding an address keeps the cache within its size always. *)
Theorem bootcache_sound (now : Z) (e : IPEndpoint) (b : Bootcache) :
  boot_ok (m_map b) ->
  boot_find e (m_map b) <> None \/ (length (m_map b) < bootcacheSize)%nat ->
  let old := default 0 (boot_find e (m_map b)) in
  (exists b', on_success now e b = Some b' /\ boot_ok (m_map b') /\
     forall k, boot_find k (m_map b') =
       if decide (k = e) then Some (i32 (Z.max old 0 + 1)) else boot_find k (m_map b)) /\
  (exists b', on_failure now e b = Some b' /\ boot_ok (m_map b') /\
     forall k, boot_find k (m_map b') =
       if decide (k = e) then Some (i32 (Z.min old 0 - 1)) else boot_find k (m_map b)) /\
  boot_ok (m_map (fst (boot_insert now e b))).
Proof.
  intros Hb Hroom old. split_and!; [| |by apply boot_insert_ok].
  - destruct (boot_record_ok 1 (fun v => i32 ((if v <? 0 then 0 else v) + 1)) now e b Hb Hroom)
      as (b' & H1 & H2 & H3). exists b'. split_and!; [done|done|]. intros k. rewrite H3.
    case_decide; [|done]. f_equal. subst old. destruct (boot_find e (m_map b)) as [v|]; [|done].
    simpl. f_equal. f_equal. case_match; lia.
  - destruct (boot_record_ok (-1) (fun v => i32 ((if 0 <? v then 0 else v) - 1)) now e b Hb Hroom)
      as (b' & H1 & H2 & H3). exists b'. split_and!; [done|done|]. intros k. rewrite H3.
    case_decide; [|done]. f_equal. subst old. destruct (boot_find e (m_map b)) as [v|]; [|done].
    simpl. f_equal. f_equal. case_match; lia.
Qed.

Definition ex_boot : Bootcache := MkBootcache [(MkIP 1 1, 4); (MkIP 2 1, -3)] 0 false None.

Lemma ex_boot_ok : boot_ok (m_map ex_boot).
Proof. split; [by_decide| |simpl; unfold bootcacheSize; lia]. repeat constructor; unfold by_valence; simpl; lia. Qed.

Lemma bootcache_sound_witness :
  (exists b', on_success 9 (MkIP 2 1) ex_boot = Some b' /\ boot_ok (m_map b') /\
     forall k, boot_find k (m_map b') =
       if decide (k = MkIP 2 1) then Some (i32 (Z.max (-3) 0 + 1)) else boot_find k (m_map ex_boot)) /\
  (exists b', on_failure 9 (MkIP 2 1) ex_boot = Some b' /\ boot_ok (m_map b') /\
     forall k, boot_find k (m_map b') =
       if decide (k = MkIP 2 1) then Some (i32 (Z.min (-3) 0 - 1)) else boot_find k (m_map ex_boot)) /\
  boot_ok (m_map (fst (boot_insert 9 (MkIP 2 1) ex_boot))).
Proof.
  apply (bootcache_sound 9 (MkIP 2 1) ex_boot ex_boot_ok). left. by vm_compute.
Defined.

(** A failure reported for an unknown address when the cache is full: the new
    entry has the lowest valence, [prune] drops it, and [on_failure] then reads
    the erased entry. *)
Lemma on_failure_dangling :
  let m := map (fun i => (MkIP (Z.of_nat i) 1, 0)) (seq 1 1000) in
  on_failure 0 (MkIP 0 1) (MkBootcache m 0 false None) = None.
Proof. by vm_compute. Qed.

End PeerCache.
