(* ===== verification/PeerSlots.v ===== *)
(** * PeerFinder: slots, counts and the connection logic

    Models [PeerSlotLogic.h]/[.cpp], [SlotImp.h]/[.cpp] and [Counts.h]/[.cpp] of
    [src/src/ripple/peerfinder/impl]: the table of connections of the overlay,
    the counters that decide which connections may become active, and the choice
    of addresses to connect to, to redirect to and to broadcast.

    A [SlotImp::ptr] is the remote endpoint under which the slot is in the table.
    The calls the logic makes on its [Callback] and on the [Checker] are returned
    as a list of [Action]s.  The mutex makes each operation one step.  [None] is a
    failed [assert] or undefined behaviour.  The configuration is a parameter.

    The theorems: in every reachable state the counters, the key set, the address
    multiset, the livecache and the boot cache agree with the slots, and no
    operation fails an assertion as long as callers respect the life cycle of a
    connection; when a connection is admitted; and inputs that break the logic. *)

From Stdlib Require Import ZArith Lia.
From S2P Require Import Prelude.
From S2P Require Import PeerCache.
From stdpp Require Import sorting gmap.
Open Scope Z_scope.

Module PeerSlots.
Import PeerCache.

(** ** Slots *)

Inductive SlotState := accept | connect | connected | active | closing.

#[export] Instance SlotState_eq_dec : EqDecision SlotState.
Proof. solve_decision. Defined.

Definition PublicKey : Type := list Z.

Record Slot := MkSlot {
  s_inbound : bool;
  s_fixed : bool;
  s_cluster : bool;
  s_state : SlotState;
  s_remote : IPEndpoint;
  s_local : option IPEndpoint;
  s_key : option PublicKey;
  s_recent : recent_t;
  s_checked : bool;
  s_canAccept : bool;
  s_checkInProgress : bool;
  s_whenAccept : option Z;               (* unset until the slot is active *)
}.

Definition new_inbound (local remote : IPEndpoint) (fixed : bool) : Slot :=
  MkSlot true fixed false accept remote (Some local) None [] false false false None.

Definition new_outbound (remote : IPEndpoint) (fixed : bool) : Slot :=
  MkSlot false fixed false connect remote None None [] true true false None.

Definition set_local (e : IPEndpoint) (s : Slot) : Slot :=
  MkSlot (s_inbound s) (s_fixed s) (s_cluster s) (s_state s) (s_remote s) (Some e) (s_key s)
    (s_recent s) (s_checked s) (s_canAccept s) (s_checkInProgress s) (s_whenAccept s).

Definition set_key (k : PublicKey) (cluster : bool) (s : Slot) : Slot :=
  MkSlot (s_inbound s) (s_fixed s) cluster (s_state s) (s_remote s) (s_local s) (Some k)
    (s_recent s) (s_checked s) (s_canAccept s) (s_checkInProgress s) (s_whenAccept s).

Definition set_recent (r : recent_t) (s : Slot) : Slot :=
  MkSlot (s_inbound s) (s_fixed s) (s_cluster s) (s_state s) (s_remote s) (s_local s) (s_key s)
    r (s_checked s) (s_canAccept s) (s_checkInProgress s) (s_whenAccept s).

Definition set_check (checked canAccept inProgress : bool) (s : Slot) : Slot :=
  MkSlot (s_inbound s) (s_fixed s) (s_cluster s) (s_state s) (s_remote s) (s_local s) (s_key s)
    (s_recent s) checked canAccept inProgress (s_whenAccept s).

Definition set_state_when (st : SlotState) (w : option Z) (s : Slot) : Slot :=
  MkSlot (s_inbound s) (s_fixed s) (s_cluster s) st (s_remote s) (s_local s) (s_key s)
    (s_recent s) (s_checked s) (s_canAccept s) (s_checkInProgress s) w.

(** [SlotImp::state (State)] with its assertions. *)
Definition set_state (st : SlotState) (s : Slot) : option Slot :=
  if bool_decide (st <> active) && bool_decide (st <> s_state s) &&
     bool_decide (st <> accept) && bool_decide (st <> connect) &&
     (bool_decide (st <> connected) || (negb (s_inbound s) && bool_decide (s_state s = connect))) &&
     (bool_decide (st <> closing) || bool_decide (s_state s <> connect))
  then Some (set_state_when st (s_whenAccept s) s)
  else None.

Definition activate (now : Z) (s : Slot) : option Slot :=
  if bool_decide (s_state s = accept) || bool_decide (s_state s = connected)
  then Some (set_state_when active (Some now) s)
  else None.

(** ** Counts *)

Record Config := MkConfig {
  PEER_PRIVATE : bool;
  PEERS_MAX : Z;                (* unsigned int *)
  PEERS_RESERVE_OUT : Z;        (* unsigned int *)
  RUN_STANDALONE : bool;
  peerListeningPort : Z;
}.

Record Counts := MkCounts {
  m_attempts : Z;          (* int *)
  m_active : Z;            (* size_t *)
  m_in_max : Z;            (* size_t *)
  m_in_active : Z;         (* size_t *)
  m_out_active : Z;        (* size_t *)
  m_fixed : Z;             (* size_t *)
  m_fixed_active : Z;      (* size_t *)
  m_cluster : Z;           (* size_t *)
  m_acceptCount : Z;       (* int *)
  m_closingCount : Z;      (* int *)
}.

Definition empty_counts : Counts := MkCounts 0 0 0 0 0 0 0 0 0 0.

(** Which slots each counter counts. *)
Definition is_state (st : SlotState) (s : Slot) : bool := bool_decide (s_state s = st).
Definition is_attempt (s : Slot) : bool := is_state connect s || is_state connected s.
Definition is_plain_active (s : Slot) : bool := is_state active s && negb (s_fixed s) && negb (s_cluster s).
Definition is_in_active (s : Slot) : bool := is_plain_active s && s_inbound s.
Definition is_out_active (s : Slot) : bool := is_plain_active s && negb (s_inbound s).
Definition is_fixed_active (s : Slot) : bool := is_state active s && s_fixed s.

(** [adjust], with the assertions of its switch. *)
Definition adjust (s : Slot) (n : Z) (c : Counts) : option Counts :=
  let size (b : bool) x := if b then u64 (x + n) else x in
  let int (b : bool) x := if b then i32 (x + n) else x in
  if is_state accept s && negb (s_inbound s) then None
  else if is_attempt s && s_inbound s then None
  else Some (MkCounts
    (int (is_attempt s) (m_attempts c))
    (size (is_state active s) (m_active c))
    (m_in_max c)
    (size (is_in_active s) (m_in_active c))
    (size (is_out_active s) (m_out_active c))
    (size (s_fixed s) (m_fixed c))
    (size (is_fixed_active s) (m_fixed_active c))
    (size (s_cluster s) (m_cluster c))
    (int (is_state accept s) (m_acceptCount c))
    (int (is_state closing s) (m_closingCount c))).

Definition counts_add (s : Slot) (c : Counts) : option Counts := adjust s 1 c.
Definition counts_remove (s : Slot) (c : Counts) : option Counts := adjust s (-1) c.

Definition can_activate (cfg : Config) (s : Slot) (c : Counts) : option bool :=
  if negb (is_state connected s || is_state accept s) then None
  else if s_fixed s || s_cluster s then Some true
  else if s_inbound s then Some (m_in_active c <? m_in_max c)
  else Some (m_out_active c <? PEERS_MAX cfg).

Definition onConfig (cfg : Config) (c : Counts) : Counts :=
  MkCounts (m_attempts c) (m_active c)
    (if PEER_PRIVATE cfg then 0 else u32 (PEERS_MAX cfg - PEERS_RESERVE_OUT cfg))
    (m_in_active c) (m_out_active c) (m_fixed c) (m_fixed_active c) (m_cluster c)
    (m_acceptCount c) (m_closingCount c).

Definition attempts_needed (c : Counts) : Z :=
  if 20 <=? m_attempts c then 0 else u64 (20 - m_attempts c).

(** Accessors: counters returned at another width. *)
Definition attempts (c : Counts) : Z := u64 (m_attempts c).
Definition out_active (c : Counts) : Z := i32 (m_out_active c).
Definition fixed_active (c : Counts) : Z := m_fixed_active c.
Definition inboundActive (c : Counts) : Z := i32 (m_in_active c).

Definition outboundSlotsFree (cfg : Config) (c : Counts) : Z :=
  if m_out_active c <? PEERS_MAX cfg then i32 (PEERS_MAX cfg - m_out_active c) else 0.

Definition inboundSlotsFree (c : Counts) : Z :=
  if m_in_active c <? m_in_max c then i32 (m_in_max c - m_in_active c) else 0.

Definition totalActive (c : Counts) : Z := i32 (u64 (m_in_active c + m_out_active c)).

Definition inboundSlots (c : Counts) : Z := i32 (m_in_max c).

(** ** The state *)

Record State := MkState {
  stopping : bool;
  fetchSource : bool;                                 (* a fetch is in progress *)
  counts : Counts;
  fixed : gmap IPEndpoint Fixed;
  livecache : Livecache;
  bootcache : Bootcache;
  slots : gmap IPEndpoint Slot;
  connected_addresses : list IPEndpoint;              (* a multiset *)
  keys : gset PublicKey;
  m_whenBroadcast : Z;
  m_squelches : Squelches;
}.

Definition set_counts (x : Counts) (st : State) : State :=
  MkState (stopping st) (fetchSource st) x (fixed st) (livecache st) (bootcache st) (slots st)
    (connected_addresses st) (keys st) (m_whenBroadcast st) (m_squelches st).
Definition set_fixed (x : gmap IPEndpoint Fixed) (st : State) : State :=
  MkState (stopping st) (fetchSource st) (counts st) x (livecache st) (bootcache st) (slots st)
    (connected_addresses st) (keys st) (m_whenBroadcast st) (m_squelches st).
Definition set_livecache (x : Livecache) (st : State) : State :=
  MkState (stopping st) (fetchSource st) (counts st) (fixed st) x (bootcache st) (slots st)
    (connected_addresses st) (keys st) (m_whenBroadcast st) (m_squelches st).
Definition set_bootcache (x : Bootcache) (st : State) : State :=
  MkState (stopping st) (fetchSource st) (counts st) (fixed st) (livecache st) x (slots st)
    (connected_addresses st) (keys st) (m_whenBroadcast st) (m_squelches st).
Definition set_slots (x : gmap IPEndpoint Slot) (st : State) : State :=
  MkState (stopping st) (fetchSource st) (counts st) (fixed st) (livecache st) (bootcache st) x
    (connected_addresses st) (keys st) (m_whenBroadcast st) (m_squelches st).
Definition set_connected (x : list IPEndpoint) (st : State) : State :=
  MkState (stopping st) (fetchSource st) (counts st) (fixed st) (livecache st) (bootcache st)
    (slots st) x (keys st) (m_whenBroadcast st) (m_squelches st).
Definition set_keys (x : gset PublicKey) (st : State) : State :=
  MkState (stopping st) (fetchSource st) (counts st) (fixed st) (livecache st) (bootcache st)
    (slots st) (connected_addresses st) x (m_whenBroadcast st) (m_squelches st).
Definition set_whenBroadcast (x : Z) (st : State) : State :=
  MkState (stopping st) (fetchSource st) (counts st) (fixed st) (livecache st) (bootcache st)
    (slots st) (connected_addresses st) (keys st) x (m_squelches st).
Definition set_squelches (x : Squelches) (st : State) : State :=
  MkState (stopping st) (fetchSource st) (counts st) (fixed st) (livecache st) (bootcache st)
    (slots st) (connected_addresses st) (keys st) (m_whenBroadcast st) x.
Definition set_fetch (stop fetch : bool) (st : State) : State :=
  MkState stop fetch (counts st) (fixed st) (livecache st) (bootcache st)
    (slots st) (connected_addresses st) (keys st) (m_whenBroadcast st) (m_squelches st).

(** What the logic asks of the overlay and of the checker. *)
Inductive Action :=
| Connect (l : list IPEndpoint)
| Disconnect (slot : IPEndpoint) (graceful : bool)
| Activate (slot : IPEndpoint)
| Send (slot : IPEndpoint) (l : list Endpoint)
| AsyncTest (address : IPEndpoint) (slot : IPEndpoint).

(** The iteration order of [std::map <IP::Endpoint, ...>]. *)
Definition ep_le (a b : IPEndpoint) : Prop :=
  address a < address b \/ (address a = address b /\ port a <= port b).

Definition in_order {A : Type} (m : gmap IPEndpoint A) : list (IPEndpoint * A) :=
  merge_sort (fun x y => ep_le (fst x) (fst y)) (map_to_list m).

Section Logic.
Context (cfg : Config) `{SH : Shuffler}.

(** The constructors; [uninitialised] is the boot cache's flag. *)
Definition initial (now : Z) (uninitialised : bool) : State :=
  MkState false false (onConfig cfg empty_counts) ∅ empty_livecache (new_bootcache now uninitialised)
    ∅ [] ∅ now [].

Definition setConfig (st : State) : State := set_counts (onConfig cfg (counts st)) st.

Definition load (stored : list (IPEndpoint * Z)) (st : State) : State :=
  set_bootcache (boot_load stored (bootcache st)) st.

Definition stop (st : State) : State := set_fetch true (fetchSource st) st.

(** Adds the first address that is not fixed yet. *)
Fixpoint addFixedPeer (now : Z) (addresses : list IPEndpoint) (st : State) : State :=
  match addresses with
  | [] => st
  | a :: addresses =>
      match fixed st !! a with
      | None => set_fixed (<[a := new_fixed now]> (fixed st)) st
      | Some _ => addFixedPeer now addresses st
      end
  end.

Definition is_fixed_endpoint (e : IPEndpoint) (st : State) : bool := bool_decide (is_Some (fixed st !! e)).

Definition is_fixed_address (a : Address) (st : State) : bool :=
  existsb (fun p => address (fst p) =? a) (map_to_list (fixed st)).

(** Adds a slot to the three tables. *)
Definition add_slot (s : Slot) (st : State) : option State :=
  match slots st !! s_remote s with
  | Some _ => None
  | None =>
      c ← counts_add s (counts st);
      Some (set_counts c (set_connected (at_port (s_remote s) 0 :: connected_addresses st)
              (set_slots (<[s_remote s := s]> (slots st)) st)))
  end.

Definition new_inbound_slot (local remote : IPEndpoint) (st : State) : option (option IPEndpoint * State) :=
  match slots st !! local with
  | Some self =>
      if bool_decide (s_local self = None \/ s_local self = Some remote) then Some (None, st) else None
  | None =>
      st ← add_slot (new_inbound local remote (is_fixed_address (address remote) st)) st;
      Some (Some remote, st)
  end.

Definition new_outbound_slot (remote : IPEndpoint) (st : State) : option (option IPEndpoint * State) :=
  match slots st !! remote with
  | Some _ => Some (None, st)
  | None =>
      st ← add_slot (new_outbound remote (is_fixed_endpoint remote st)) st;
      Some (Some remote, st)
  end.

(** Replaces a slot by its changed version, adjusting the counts before and
    after. *)
Definition recount (k : IPEndpoint) (s s' : Slot) (st : State) : option State :=
  c ← counts_remove s (counts st);
  c ← counts_add s' c;
  Some (set_counts c (set_slots (<[k := s']> (slots st)) st)).

Definition on_connected (k local : IPEndpoint) (st : State) : option (State * list Action) :=
  s ← slots st !! k;
  let s := set_local local s in
  let st := set_slots (<[k := s]> (slots st)) st in
  match slots st !! local with
  | Some self =>
      if bool_decide (s_local self = Some k) then Some (st, [Disconnect k false]) else None
  | None =>
      s' ← set_state connected s;
      st ← recount k s s' st;
      Some (st, [])
  end.

(** [redirect]. *)
Definition redirect (seed : Z) (k : IPEndpoint) (st : State) : option (State * list Action) :=
  s ← slots st !! k;
  let lc := hops_shuffle seed (livecache st) in
  '(lists, ts) ← handout (hops_seq lc) [MkRedirect (s_remote s) []];
  let st := set_livecache (MkLivecache (m_cache lc) lists (m_hist lc)) st in
  Some (st, match ts with
            | t :: _ => if (0 <? length (rh_list t))%nat then [Send k (rh_list t)] else []
            | [] => []
            end).

Definition on_handshake (now seed : Z) (k : IPEndpoint) (key : PublicKey) (cluster : bool) (st : State)
    : option (State * list Action) :=
  s ← slots st !! k;
  if negb (is_state accept s || is_state connected s) then None
  else if bool_decide (key ∈ keys st) then Some (st, [Disconnect k true])
  else
    ok ← can_activate cfg s (counts st);
    if ok : bool then
      let s1 := set_key key cluster s in
      st ← recount k s s1 st;
      let st := set_keys ({[key]} ∪ keys st) st in
      s2 ← activate now s1;
      st ← recount k s1 s2 st;
      b ← (if s_inbound s then Some (bootcache st) else on_success now k (bootcache st));
      let st := set_bootcache b st in
      if s_fixed s && negb (s_inbound s) then
        f ← fixed st !! k;
        Some (set_fixed (<[k := fixed_success now f]> (fixed st)) st, [Activate k])
      else Some (st, [Activate k])
    else
      b ← (if s_inbound s then Some (bootcache st) else on_success now k (bootcache st));
      let st := set_bootcache b st in
      '(st, acts) ← (if s_inbound s then redirect seed k st else Some (st, []));
      Some (st, acts ++ [Disconnect k true]).

(** [preprocess]: [acc] holds the entries kept so far. *)
Fixpoint preprocess (remote : IPEndpoint) (neighbor : bool) (acc l : list Endpoint) : list Endpoint :=
  match l with
  | [] => acc
  | ep :: l =>
      if maxHops <? hops ep then preprocess remote neighbor acc l
      else if (hops ep =? 0) && neighbor then preprocess remote neighbor acc l
      else
        let neighbor := neighbor || (hops ep =? 0) in
        let ep := if hops ep =? 0 then MkEndpoint 0 (at_port remote (port (ep_address ep))) else ep in
        if negb (is_valid_address (ep_address ep)) then preprocess remote neighbor acc l
        else if existsb (fun other => bool_decide (ep_address ep = ep_address other)) acc
        then preprocess remote neighbor acc l
        else preprocess remote neighbor (acc ++ [MkEndpoint (hops ep + 1) (ep_address ep)]) l
  end.

(** The loop of [on_endpoints] over the preprocessed list. *)
Fixpoint endpoints_loop (now : Z) (l : list Endpoint) (s : Slot) (lc : Livecache) (b : Bootcache)
    : option (Slot * Livecache * Bootcache * list Action) :=
  match l with
  | [] => Some (s, lc, b, [])
  | ep :: l =>
      if hops ep =? 0 then None
      else
        let s := set_recent (recent_insert now (ep_address ep) (hops ep) (s_recent s)) s in
        if (hops ep =? 1) && s_checkInProgress s then endpoints_loop now l s lc b
        else if (hops ep =? 1) && negb (s_checked s) then
          let s := set_check (s_checked s) (s_canAccept s) true s in
          '(s, lc, b, acts) ← endpoints_loop now l s lc b;
          Some (s, lc, b, AsyncTest (ep_address ep) (s_remote s) :: acts)
        else if (hops ep =? 1) && negb (s_canAccept s) then endpoints_loop now l s lc b
        else
          lc ← livecache_insert now ep lc;
          endpoints_loop now l s lc (fst (boot_insert now (ep_address ep) b))
  end.

Definition on_endpoints (now : Z) (k : IPEndpoint) (l : list Endpoint) (st : State)
    : option (State * list Action) :=
  s ← slots st !! k;
  if negb (is_state active s) then None
  else
    '(s, lc, b, acts) ← endpoints_loop now (preprocess (s_remote s) false [] l) s (livecache st) (bootcache st);
    let s := set_state_when (s_state s) (Some (now + secondsPerMessage)) s in
    Some (set_bootcache b (set_livecache lc (set_slots (<[k := s]> (slots st)) st)), acts).

Definition addBootcacheAddresses (now : Z) (l : list IPEndpoint) (st : State) : State :=
  set_bootcache (foldl (fun b e => fst (boot_insert now e b)) (bootcache st) l) st.

Definition on_legacy_endpoints (now : Z) (l : list IPEndpoint) (st : State) : State :=
  addBootcacheAddresses now l st.

(** [remove]: the slot leaves every table. *)
Definition remove (k : IPEndpoint) (st : State) : option (Slot * State) :=
  s ← slots st !! k;
  let st := set_slots (delete k (slots st)) st in
  st ← match s_key s with
       | None => Some st
       | Some key => if bool_decide (key ∈ keys st) then Some (set_keys (keys st ∖ {[key]}) st) else None
       end;
  l ← erase_one (at_port k 0) (connected_addresses st);
  c ← counts_remove s (counts st);
  Some (s, set_counts c (set_connected l st)).

Definition on_cancel (k : IPEndpoint) (st : State) : option State := snd <$> remove k st.

Definition on_closed (now : Z) (k : IPEndpoint) (st : State) : option State :=
  '(s, st) ← remove k st;
  st ← (if s_fixed s && negb (s_inbound s) && negb (is_state active s) then
          f ← fixed st !! k;
          f ← fixed_failure now f;
          Some (set_fixed (<[k := f]> (fixed st)) st)
        else Some st);
  if is_attempt s then
    b ← on_failure now k (bootcache st);
    Some (set_bootcache b st)
  else Some st.

(** [Checker::Result]. *)
Inductive CheckResult := Aborted | CheckError | Checked (canAccept : bool).

#[export] Instance CheckResult_eq_dec : EqDecision CheckResult.
Proof. solve_decision. Defined.

(** [checkComplete]: the slot is dereferenced before the test that it exists. *)
Definition checkComplete (now : Z) (k : IPEndpoint) (r : CheckResult) (st : State) : option State :=
  match r with
  | Aborted => Some st
  | _ =>
      s ← slots st !! k;
      let ok := match r with Checked b => b | _ => false end in
      let st := set_slots (<[k := set_check true ok false s]> (slots st)) st in
      if ok then Some st
      else b ← on_failure now k (bootcache st); Some (set_bootcache b st)
  end.

(** ** Messages from peers *)

(** [ntohl] on a little-endian machine. *)
Definition ntohl (x : Z) : Z :=
  Z.land x 255 * 2 ^ 24 + Z.land (Z.shiftr x 8) 255 * 2 ^ 16 +
  Z.land (Z.shiftr x 16) 255 * 2 ^ 8 + Z.land (Z.shiftr x 24) 255.

(** [TMEndpoint]: an address in network order, a port and the hops, unsigned. *)
Record TMEndpoint := MkTM { tm_ipv4 : Z; tm_ipv4port : Z; tm_hops : Z }.

(** [PeerImp::recvEndpoints]: the message as a list of endpoints; [None] when
    there are none and the logic is not called. *)
Definition recvEndpoints (remote : IPEndpoint) (packet : list TMEndpoint) : option (list Endpoint) :=
  let endpoints := map (fun tm =>
    let h := i32 (tm_hops tm) in
    MkEndpoint h (if 0 <? h then MkIP (ntohl (tm_ipv4 tm)) (u16 (tm_ipv4port tm))
                  else at_port remote (u16 (tm_ipv4port tm)))) packet in
  if (length endpoints =? 0)%nat then None else Some endpoints.

(** [PeerImp::recvPeers]. *)
Definition recvPeers (packet : list (Z * Z)) : option (list IPEndpoint) :=
  let list := map (fun '(ipv4, port) => MkIP (ntohl ipv4) (u16 port)) packet in
  if (length list =? 0)%nat then None else Some list.

(** ** Connection strategy *)

(** The eligible fixed peers among [l], at most [needed]. *)
Fixpoint get_fixed (now : Z) (needed : nat) (l : list (IPEndpoint * Fixed)) (st : State) : list IPEndpoint :=
  match needed, l with
  | O, _ | _, [] => []
  | S n, (e, f) :: l =>
      if (f_when f <=? now) &&
         negb (existsb (fun p => address e =? address (fst p)) (map_to_list (slots st)))
      then e :: get_fixed now n l st
      else get_fixed now needed l st
  end.

Definition squelch_slots (now : Z) (st : State) : State :=
  set_squelches (foldl (fun sq p =>
      let '(sq, inserted) := aged_emplace now (address (s_remote (snd p))) tt sq in
      if inserted : bool then sq else aged_touch now (address (s_remote (snd p))) sq)
    (m_squelches st) (in_order (slots st))) st.

(** The loop over the boot cache. *)
Fixpoint boot_handout (l : list IPEndpoint) (h : ConnectHandouts) : ConnectHandouts :=
  match l with
  | [] => h
  | e :: l => if ch_full h then h else boot_handout l (default h (ch_try_insert e h))
  end.

Definition autoconnect (now seed : Z) (st : State) : option (State * list Action) :=
  let needed := Z.to_nat (attempts_needed (counts st)) in
  if (needed =? 0)%nat then Some (st, [])
  else
    let st := squelch_slots now st in
    let use_fixed := fixed_active (counts st) <? Z.of_nat (size (fixed st)) in
    let fl := if use_fixed then get_fixed now needed (in_order (fixed st)) st else [] in
    if (0 <? length fl)%nat then Some (st, [Connect fl])
    else if use_fixed && (0 <? attempts (counts st)) then Some (st, [])
    else if RUN_STANDALONE cfg || PEER_PRIVATE cfg ||
            (PEERS_MAX cfg <=? u32 (out_active (counts st))) then Some (st, [])
    else
      let lc := hops_shuffle seed (livecache st) in
      '(lists, ts) ← handout (hops_rseq lc) [MkConnect now needed (m_squelches st) []];
      h ← head ts;
      let st := set_squelches (ch_squelches h)
                  (set_livecache (MkLivecache (m_cache lc) (reverse lists) (m_hist lc)) st) in
      if (0 <? length (ch_list h))%nat then Some (st, [Connect (ch_list h)])
      else if 0 <? attempts (counts st) then Some (st, [])
      else
        let h := boot_handout (map fst (m_map (bootcache st))) h in
        let st := set_squelches (ch_squelches h) st in
        Some (st, if (0 <? length (ch_list h))%nat then [Connect (ch_list h)] else []).

Definition expire (now : Z) (st : State) : option State :=
  lc ← livecache_expire now (livecache st);
  Some (set_squelches (aged_expire now recentAttemptDuration (m_squelches st))
    (set_slots ((fun s => set_recent (recent_expire now (s_recent s)) s) <$> slots st)
      (set_livecache lc st))).

(** Writes the recent tables of the targets back to their slots. *)
Definition store_recent (ts : list SlotHandouts) (m : gmap IPEndpoint Slot) : gmap IPEndpoint Slot :=
  foldl (fun m t => alter (set_recent (sh_recent t)) (sh_remote t) m) m ts.

Definition broadcast (now seed : Z) (st : State) : option (State * list Action) :=
  let active_slots := filter (fun p => is_state active (snd p) = true) (in_order (slots st)) in
  let ts := map (fun p => MkSlotHandouts now (s_remote (snd p)) (s_recent (snd p)) [])
              (random_shuffle (seed - 1) active_slots) in
  let ts :=
    if negb (PEER_PRIVATE cfg) && (0 <? inboundSlots (counts st)) then
      map (sh_insert (MkEndpoint 0 (MkIP 0 (u16 (peerListeningPort cfg))))) ts
    else ts in
  let lc := hops_shuffle seed (livecache st) in
  '(lists, ts) ← handout (hops_seq lc) ts;
  Some (set_slots (store_recent ts (slots st))
          (set_livecache (MkLivecache (m_cache lc) lists (m_hist lc)) st),
        map (fun t => Send (sh_remote t) (sh_list t)) ts).

(** [OverlayImpl::connect]: the overlay reacts to [Connect] at once by asking
    for outbound slots, unless it is stopping. *)
Fixpoint overlay_connect (l : list IPEndpoint) (st : State) : option State :=
  match l with
  | [] => Some st
  | e :: l => '(_, st) ← new_outbound_slot e st; overlay_connect l st
  end.

Fixpoint perform (overlay_stopping : bool) (acts : list Action) (st : State) : option State :=
  match acts with
  | [] => Some st
  | Connect l :: acts =>
      st ← (if overlay_stopping then Some st else overlay_connect l st);
      perform overlay_stopping acts st
  | _ :: acts => perform overlay_stopping acts st
  end.

Definition periodicActivity (overlay_stopping : bool) (now seed : Z) (st : State)
    : option (State * list Action) :=
  '(st, acts) ← autoconnect now seed st;
  st ← perform overlay_stopping acts st;
  st ← expire now st;
  let st := set_bootcache (checkUpdate now (bootcache st)) st in
  if m_whenBroadcast st <=? now then
    '(st, acts') ← broadcast now (seed + 100) st;
    Some (set_whenBroadcast (now + secondsPerMessage) st, acts ++ acts')
  else Some (st, acts).

(** ** Fetching addresses: two critical sections around the request *)

Definition fetch_begin (st : State) : State :=
  if stopping st then st else set_fetch (stopping st) true st.

Definition fetch_end (now : Z) (results : option (list IPEndpoint)) (st : State) : State :=
  if stopping st then st
  else
    let st := set_fetch (stopping st) false st in
    match results with
    | Some l => addBootcacheAddresses now l st
    | None => st
    end.

End Logic.

(** * Invariant *)

(** A slot of the wrong direction fails an assertion of [adjust]. *)
Definition slot_shape (s : Slot) : Prop :=
  (s_state s = accept -> s_inbound s = true) /\
  (s_state s = connect \/ s_state s = connected -> s_inbound s = false).

Record counts_ok (m : gmap IPEndpoint Slot) (c : Counts) : Prop := {
  ok_attempts : m_attempts c = i32 (map_count is_attempt m);
  ok_active : m_active c = u64 (map_count (is_state active) m);
  ok_in_active : m_in_active c = u64 (map_count is_in_active m);
  ok_out_active : m_out_active c = u64 (map_count is_out_active m);
  ok_fixed : m_fixed c = u64 (map_count s_fixed m);
  ok_fixed_active : m_fixed_active c = u64 (map_count is_fixed_active m);
  ok_cluster : m_cluster c = u64 (map_count s_cluster m);
  ok_accept : m_acceptCount c = i32 (map_count (is_state accept) m);
  ok_closing : m_closingCount c = i32 (map_count (is_state closing) m);
}.

Record slot_ok (now : Z) (fx : gmap IPEndpoint Fixed) (k : IPEndpoint) (s : Slot) : Prop := {
  slot_key_remote : s_remote s = k;
  slot_is_shape : slot_shape s;
  slot_not_closing : s_state s <> closing;
  slot_key_active : s_key s <> None <-> s_state s = active;
  slot_fixed : s_fixed s = true -> s_inbound s = false -> fx !! k <> None;
  slot_recent : aged_ok now (s_recent s);
  slot_cluster : s_state s <> active -> s_cluster s = false;
}.

Record Inv (now : Z) (st : State) : Prop := {
  inv_counts : counts_ok (slots st) (counts st);
  inv_slots : map_Forall (slot_ok now (fixed st)) (slots st);
  inv_keys key : key ∈ keys st <-> exists k s, slots st !! k = Some s /\ s_key s = Some key;
  inv_unique k1 s1 k2 s2 key :
    slots st !! k1 = Some s1 -> slots st !! k2 = Some s2 ->
    s_key s1 = Some key -> s_key s2 = Some key -> k1 = k2;
  inv_connected : connected_addresses st ≡ₚ (fun k => at_port k 0) <$> elements (dom (slots st));
  inv_live : live_ok now (livecache st);
  inv_boot : boot_ok (m_map (bootcache st));
  inv_squelch : aged_ok now (m_squelches st);
}.

Lemma bump_size P (m : gmap IPEndpoint Slot) (s : Slot) n x :
  x = u64 (map_count P m) -> (if P s : bool then u64 (x + n) else x) = u64 (map_count P m + n * Z.b2z (P s)).
Proof.
  intros ->. destruct (P s); simpl; [|f_equal; lia]. rewrite Z.mul_1_r.
  unfold uwrap. by rewrite Z.add_mod_idemp_l.
Qed.

Lemma bump_int P (m : gmap IPEndpoint Slot) (s : Slot) n x :
  x = i32 (map_count P m) -> (if P s : bool then i32 (x + n) else x) = i32 (map_count P m + n * Z.b2z (P s)).
Proof.
  intros ->. destruct (P s); simpl; [|f_equal; lia]. rewrite Z.mul_1_r. apply swrap_add.
Qed.

Lemma adjust_ok (m m' : gmap IPEndpoint Slot) c s n :
  counts_ok m c -> slot_shape s ->
  (forall P, map_count P m' = map_count P m + n * Z.b2z (P s)) ->
  exists c', adjust s n c = Some c' /\ counts_ok m' c' /\ m_in_max c' = m_in_max c.
Proof.
  intros Hc [Hs1 Hs2] Hm. unfold adjust.
  replace (is_state accept s && negb (s_inbound s)) with false.
  2: { unfold is_state. case_bool_decide; [|done]. by rewrite Hs1. }
  replace (is_attempt s && s_inbound s) with false.
  2: { unfold is_attempt, is_state. repeat case_bool_decide; simpl; try done; rewrite Hs2; auto. }
  eexists. split_and!; [done| |done].
  destruct Hc; split; cbn -[is_attempt is_state is_in_active is_out_active is_fixed_active]; rewrite Hm;
    first [by apply (bump_size _ m)|by apply (bump_int _ m)].
Qed.

Lemma counts_add_ok m c k s :
  counts_ok m c -> slot_shape s -> m !! k = None ->
  exists c', counts_add s c = Some c' /\ counts_ok (<[k := s]> m) c' /\ m_in_max c' = m_in_max c.
Proof.
  intros Hc Hs Hk. apply (adjust_ok m); [done|done|]. intros P. rewrite map_count_insert by done. lia.
Qed.

Lemma counts_remove_ok m c k s :
  counts_ok m c -> slot_shape s -> m !! k = Some s ->
  exists c', counts_remove s c = Some c' /\ counts_ok (delete k m) c' /\ m_in_max c' = m_in_max c.
Proof.
  intros Hc Hs Hk. apply (adjust_ok m); [done|done|]. intros P. rewrite (map_count_delete P m k s) by done. lia.
Qed.

Lemma recount_ok k s s' st :
  counts_ok (slots st) (counts st) -> slots st !! k = Some s -> slot_shape s -> slot_shape s' ->
  exists c, recount k s s' st = Some (set_counts c (set_slots (<[k := s']> (slots st)) st)) /\
    counts_ok (<[k := s']> (slots st)) c /\ m_in_max c = m_in_max (counts st).
Proof.
  intros Hc Hk Hs Hs'. unfold recount.
  destruct (counts_remove_ok _ _ _ _ Hc Hs Hk) as (c1 & -> & Hc1 & Hm1). cbn [mbind option_bind].
  destruct (counts_add_ok _ _ k s' Hc1 Hs') as (c2 & -> & Hc2 & Hm2); [apply lookup_delete_eq|].
  cbn [mbind option_bind]. exists c2. rewrite insert_delete_eq in Hc2. split_and!; [done|done|congruence].
Qed.

(** ** Slots that keep their class *)

Record like (now : Z) (s s' : Slot) : Prop := {
  like_inbound : s_inbound s' = s_inbound s;
  like_fixed : s_fixed s' = s_fixed s;
  like_cluster : s_cluster s' = s_cluster s;
  like_state : s_state s' = s_state s;
  like_remote : s_remote s' = s_remote s;
  like_key : s_key s' = s_key s;
  like_recent : aged_ok now (s_recent s) -> aged_ok now (s_recent s');
}.

#[export] Instance like_preorder now : PreOrder (like now).
Proof.
  split; [by intros s; split|]. intros s1 s2 s3 [] []. split; try congruence. auto.
Qed.

Definition slots_like (now : Z) (m m' : gmap IPEndpoint Slot) : Prop :=
  forall k, option_Forall2 (like now) (m !! k) (m' !! k).

#[export] Instance slots_like_preorder now : PreOrder (slots_like now).
Proof.
  split.
  - intros m k. destruct (m !! k); by constructor.
  - intros m1 m2 m3 H1 H2 k. specialize (H1 k). specialize (H2 k).
    destruct H1 as [s1 s2 H1|]; inversion H2; subst; constructor. by etrans.
Qed.

Lemma slots_like_insert now m k s s' :
  m !! k = Some s -> like now s s' -> slots_like now m (<[k := s']> m).
Proof.
  intros Hk Hl j. destruct (decide (k = j)) as [<-|Hj].
  - rewrite lookup_insert_eq, Hk. by constructor.
  - rewrite lookup_insert_ne by done. destruct (m !! j); by constructor.
Qed.

Lemma slots_like_dom now m m' : slots_like now m m' -> dom m' = dom m.
Proof.
  intros H. apply set_eq. intros k. rewrite !elem_of_dom. destruct (H k); split; intros [? [=]]; eauto.
Qed.

Lemma slots_like_lookup now m m' k s' :
  slots_like now m m' -> m' !! k = Some s' -> exists s, m !! k = Some s /\ like now s s'.
Proof. intros H Hk. specialize (H k). rewrite Hk in H. inversion H; subst; eauto. Qed.

Lemma slots_like_lookup_l now m m' k s :
  slots_like now m m' -> m !! k = Some s -> exists s', m' !! k = Some s' /\ like now s s'.
Proof. intros H Hk. specialize (H k). rewrite Hk in H. inversion H; subst; eauto. Qed.

Lemma counts_like now m m' c : slots_like now m m' -> counts_ok m c -> counts_ok m' c.
Proof.
  intros Hl Hc. assert (HP : forall P, (forall s s', like now s s' -> P s' = P s) -> map_count P m' = map_count P m).
  { intros P HP. rewrite (map_count_via P m), (map_count_via P m'). f_equal. apply map_eq. intros k.
    rewrite !lookup_fmap. destruct (Hl k); simpl; [|done]. f_equal. auto. }
  destruct Hc. split; (etrans; [eassumption|]); f_equal; symmetry; apply HP;
    intros s s' [L1 L2 L3 L4 _ _ _];
    unfold is_attempt, is_in_active, is_out_active, is_plain_active, is_fixed_active, is_state;
    by rewrite ?L1, ?L2, ?L3, ?L4.
Qed.

Lemma inv_like now st m :
  Inv now st -> slots_like now (slots st) m -> Inv now (set_slots m st).
Proof.
  intros [H1 H2 H3 H4 H5 H6 H7 H8] Hl. split; cbn; [by eapply counts_like| | | | |done|done|done].
  - intros k s' Hk. destruct (slots_like_lookup _ _ _ _ _ Hl Hk) as (s & Hs & [L1 L2 L3 L4 L5 L6 L7]).
    destruct (H2 _ _ Hs) as [G1 [G2 G2'] G3 G4 G5 G6 G7].
    split; unfold slot_shape; rewrite ?L1, ?L2, ?L3, ?L4, ?L5, ?L6; auto.
  - intros key. rewrite H3. split; intros (k & s & Hk & Hkey).
    + destruct (slots_like_lookup_l _ _ _ _ _ Hl Hk) as (s' & Hs' & []). exists k, s'. split; congruence.
    + destruct (slots_like_lookup _ _ _ _ _ Hl Hk) as (s' & Hs' & []). exists k, s'. split; congruence.
  - intros k1 s1 k2 s2 key Hk1 Hk2 E1 E2.
    destruct (slots_like_lookup _ _ _ _ _ Hl Hk1) as (s1' & Hs1 & []).
    destruct (slots_like_lookup _ _ _ _ _ Hl Hk2) as (s2' & Hs2 & []).
    eapply (H4 k1 s1' k2 s2' key); congruence.
  - by rewrite (slots_like_dom _ _ _ Hl).
Qed.


Lemma inv_later now now' st : Inv now st -> now <= now' -> Inv now' st.
Proof.
  intros [H1 H2 H3 H4 H5 H6 H7 H8] Hle.
  split; try done; [|by eapply live_ok_later|by eapply aged_ok_later].
  intros k s Hk. destruct (H2 _ _ Hk). split; try done. by eapply aged_ok_later.
Qed.

Lemma inv_livecache now st lc : Inv now st -> live_ok now lc -> Inv now (set_livecache lc st).
Proof. intros [] ?. by split. Qed.

Lemma inv_bootcache now st b : Inv now st -> boot_ok (m_map b) -> Inv now (set_bootcache b st).
Proof. intros [] ?. by split. Qed.

Lemma inv_squelches now st s : Inv now st -> aged_ok now s -> Inv now (set_squelches s st).
Proof. intros [] ?. by split. Qed.

Lemma inv_fetch now st a b : Inv now st -> Inv now (set_fetch a b st).
Proof. intros []. by split. Qed.

Lemma inv_when now st t : Inv now st -> Inv now (set_whenBroadcast t st).
Proof. intros []. by split. Qed.

Lemma inv_fixed now st fx : Inv now st -> dom (fixed st) ⊆ dom fx -> Inv now (set_fixed fx st).
Proof.
  intros [H1 H2 H3 H4 H5 H6 H7 H8] Hd. split; try done. cbn. intros k s Hk.
  destruct (H2 _ _ Hk) as [G1 G2 G3 G4 G5 G6 G7]. split; try done. intros Hf Hi. specialize (G5 Hf Hi).
  apply not_eq_None_Some in G5. apply elem_of_dom in G5. apply not_eq_None_Some, elem_of_dom. set_solver.
Qed.

Lemma add_slot_inv now st s :
  Inv now st -> slots st !! s_remote s = None -> slot_ok now (fixed st) (s_remote s) s -> s_key s = None ->
  exists st', add_slot s st = Some st' /\ Inv now st'.
Proof.
  intros [H1 H2 H3 H4 H5 H6 H7 H8] Hn Hs Hkey. unfold add_slot. rewrite Hn.
  destruct (counts_add_ok _ _ _ s H1 (slot_is_shape _ _ _ _ Hs) Hn) as (c & -> & Hc & _). cbn [mbind option_bind].
  eexists. split; [done|]. split; cbn; [done| | | | |done|done|done].
  - by apply map_Forall_insert_2.
  - intros key. rewrite H3. split.
    + intros (k & s' & Hk & E). exists k, s'. rewrite lookup_insert_ne; [done|]. congruence.
    + intros (k & s' & Hk & E). apply lookup_insert_Some in Hk as [[<- <-]|[_ Hk]]; [congruence|eauto].
  - intros k1 s1 k2 s2 key Hk1 Hk2 E1 E2.
    apply lookup_insert_Some in Hk1 as [[<- <-]|[_ Hk1]]; [congruence|].
    apply lookup_insert_Some in Hk2 as [[<- <-]|[_ Hk2]]; [congruence|]. by eapply H4.
  - rewrite dom_insert_L, elements_union_singleton by by apply not_elem_of_dom. cbn. by rewrite H5.
Qed.

Lemma new_slot_ok now fx k s :
  s_remote s = k -> s_key s = None -> s_recent s = [] -> s_cluster s = false ->
  (s_state s = accept /\ s_inbound s = true \/ s_state s = connect /\ s_inbound s = false /\
     (s_fixed s = true -> fx !! k <> None)) ->
  slot_ok now fx k s.
Proof.
  intros H1 H2 H3 H0 H4. split; [done| | | | |rewrite H3; split; constructor|done].
  - destruct H4 as [[E1 E2]|(E1 & E2 & E3)]; split; rewrite ?E1, ?E2; naive_solver.
  - destruct H4 as [[E1 E2]|(E1 & E2 & E3)]; by rewrite E1.
  - destruct H4 as [[E1 E2]|(E1 & E2 & E3)]; rewrite E1, H2; naive_solver.
  - destruct H4 as [[E1 E2]|(E1 & E2 & E3)]; rewrite E2; naive_solver.
Qed.

Lemma new_outbound_inv now st remote :
  Inv now st -> exists r st', new_outbound_slot remote st = Some (r, st') /\ Inv now st'.
Proof.
  intros HI. unfold new_outbound_slot. destruct (slots st !! remote) as [s|] eqn:E; [eauto|].
  destruct (add_slot_inv now st (new_outbound remote (is_fixed_endpoint remote st)) HI) as (st' & -> & HI');
    [done| |done|eauto].
  apply new_slot_ok; [done|done|done|done|]. right. cbn. split_and!; [done|done|]. unfold is_fixed_endpoint.
  intros H. apply bool_decide_eq_true in H. by apply not_eq_None_Some.
Qed.

Lemma new_inbound_inv now st local remote :
  Inv now st -> slots st !! remote = None ->
  (forall self, slots st !! local = Some self -> s_local self = None \/ s_local self = Some remote) ->
  exists r st', new_inbound_slot local remote st = Some (r, st') /\ Inv now st'.
Proof.
  intros HI Hr Hl. unfold new_inbound_slot. destruct (slots st !! local) as [self|] eqn:E.
  { rewrite bool_decide_true by auto. eauto. }
  destruct (add_slot_inv now st (new_inbound local remote (is_fixed_address (address remote) st)) HI)
    as (st' & -> & HI'); [done| |done|eauto].
  apply new_slot_ok; [done|done|done|done|]. by left.
Qed.

(** A slot changes class but not its key. *)
Lemma inv_reclass now st k s s' c :
  Inv now st -> slots st !! k = Some s -> slot_ok now (fixed st) k s' -> s_key s' = s_key s ->
  counts_ok (<[k := s']> (slots st)) c ->
  Inv now (set_counts c (set_slots (<[k := s']> (slots st)) st)).
Proof.
  intros [H1 H2 H3 H4 H5 H6 H7 H8] Hk Hs Hkey Hc. split; cbn; [done| | | | |done|done|done].
  - by apply map_Forall_insert_2.
  - intros key. rewrite H3. split; intros (j & t & Hj & E).
    + destruct (decide (k = j)) as [<-|Hkj].
      * exists k, s'. rewrite lookup_insert_eq. split; [done|]. congruence.
      * exists j, t. by rewrite lookup_insert_ne.
    + apply lookup_insert_Some in Hj as [[<- <-]|[_ Hj]]; [exists k, s|exists j, t]; split; congruence.
  - assert (Hback : forall j t key, <[k := s']> (slots st) !! j = Some t -> s_key t = Some key ->
              exists t', slots st !! j = Some t' /\ s_key t' = Some key).
    { intros j t key Hj E. apply lookup_insert_Some in Hj as [[<- <-]|[_ Hj]]; [exists s|exists t]; split; congruence. }
    intros k1 s1 k2 s2 key Hk1 Hk2 E1 E2.
    destruct (Hback _ _ _ Hk1 E1) as (t1 & ? & ?). destruct (Hback _ _ _ Hk2 E2) as (t2 & ? & ?). by eapply H4.
  - rewrite dom_insert_lookup_L by done. done.
Qed.

Lemma on_connected_inv now st k s local :
  Inv now st -> slots st !! k = Some s -> s_state s = connect ->
  (forall self, slots st !! local = Some self -> local <> k -> s_local self = Some k) ->
  exists st' acts, on_connected k local st = Some (st', acts) /\ Inv now st'.
Proof.
  intros HI Hk Hst Hself. unfold on_connected. rewrite Hk. cbn [mbind option_bind].
  set (s1 := set_local local s). set (st1 := set_slots (<[k := s1]> (slots st)) st).
  assert (HI1 : Inv now st1).
  { apply inv_like; [done|]. apply (slots_like_insert _ _ _ s); [done|]. by split. }
  assert (Hk1 : slots st1 !! k = Some s1) by apply lookup_insert_eq.
  destruct (slots st1 !! local) as [self|] eqn:E.
  - rewrite bool_decide_true; [eauto|]. destruct (decide (local = k)) as [->|Hne].
    + rewrite Hk1 in E. by simplify_eq.
    + cbn in E. rewrite lookup_insert_ne in E by done. by apply Hself.
  - pose proof (inv_slots _ _ HI1 _ _ Hk1) as Hs1. pose proof Hs1 as [G1 [G2 G2'] G3 G4 G5 G6 G7].
    assert (Hin : s_inbound s1 = false) by (apply G2'; left; done).
    assert (set_state connected s1 = Some (set_state_when connected (s_whenAccept s1) s1)) as ->.
    { unfold set_state. change (s_state s1) with (s_state s). by rewrite Hst, Hin. }
    cbn [mbind option_bind].
    assert (Hs2 : slot_ok now (fixed st1) k (set_state_when connected (s_whenAccept s1) s1)).
    { split; cbn; [done|split; [done|by intros]|done| |done|done|by intros; apply G7; cbn; rewrite Hst].
      cbn in G4. by rewrite G4, Hst. }
    destruct (recount_ok k s1 _ st1 (inv_counts _ _ HI1) Hk1 (slot_is_shape _ _ _ _ Hs1) (slot_is_shape _ _ _ _ Hs2))
      as (c & -> & Hc & _). cbn [mbind option_bind]. eexists _, _. split; [done|].
    by apply (inv_reclass _ _ _ s1).
Qed.


Definition boot_room (e : IPEndpoint) (b : Bootcache) : Prop :=
  boot_find e (m_map b) <> None \/ (length (m_map b) < bootcacheSize)%nat.

Lemma on_success_ok now e b :
  boot_ok (m_map b) -> boot_room e b -> exists b', on_success now e b = Some b' /\ boot_ok (m_map b').
Proof. intros Hb Hr. edestruct boot_record_ok as (b' & H1 & H2 & _); [exact Hb|exact Hr|eauto]. Qed.

Lemma on_failure_ok now e b :
  boot_ok (m_map b) -> boot_room e b -> exists b', on_failure now e b = Some b' /\ boot_ok (m_map b').
Proof. intros Hb Hr. edestruct boot_record_ok as (b' & H1 & H2 & _); [exact Hb|exact Hr|eauto]. Qed.

(** A handshaked slot takes its key and becomes active. *)
Definition activated (now : Z) (key : PublicKey) (cluster : bool) (s : Slot) : Slot :=
  set_state_when active (Some now) (set_key key cluster s).

Lemma activate_inv now st k s key cluster c :
  Inv now st -> slots st !! k = Some s -> s_key s = None -> key ∉ keys st ->
  counts_ok (<[k := activated now key cluster s]> (slots st)) c ->
  Inv now (set_counts c (set_slots (<[k := activated now key cluster s]> (slots st))
             (set_keys ({[key]} ∪ keys st) st))).
Proof.
  intros [H1 H2 H3 H4 H5 H6 H7 H8] Hk Hkey Hnew Hc.
  assert (Hno : forall j t, slots st !! j = Some t -> s_key t <> Some key).
  { intros j t Hj E. apply Hnew, H3. eauto. }
  split; cbn; [done| | | | |done|done|done].
  - apply map_Forall_insert_2; [|done]. destruct (H2 _ _ Hk) as [G1 G2 G3 G4 G5 G6 G7].
    split; cbn; [done|split; [done|by intros [|]]|done|done|done|done|done].
  - intros key'. rewrite elem_of_union, elem_of_singleton, H3. split.
    + intros [->|(j & t & Hj & E)]; [exists k; rewrite lookup_insert_eq; eauto|].
      exists j, t. rewrite lookup_insert_ne; [done|]. congruence.
    + intros (j & t & Hj & E). apply lookup_insert_Some in Hj as [[<- <-]|[_ Hj]]; [left|right; eauto].
      cbn in E. congruence.
  - intros k1 s1 k2 s2 key' Hk1 Hk2 E1 E2.
    apply lookup_insert_Some in Hk1 as [[<- <-]|[_ Hk1]]; apply lookup_insert_Some in Hk2 as [[<- <-]|[_ Hk2]];
      [done| | |by eapply H4]; exfalso; cbn in *; simplify_eq; by eapply Hno.
  - by rewrite dom_insert_lookup_L by done.
Qed.

Lemma hops_handout now lc {T} `{TargetSpec T} (R : T -> T -> Prop) `{!PreOrder R} (ts : list T) :
  live_ok now lc ->
  (forall e t t', try_insert e t = Some t' -> R t t') ->
  exists lists ts', handout (hops_seq lc) ts = Some (lists, ts') /\ Forall2 R ts ts' /\
    live_ok now (MkLivecache (m_cache lc) lists (m_hist lc)).
Proof.
  intros Hlc HR.
  destruct (handout_loop_spec (fun _ => True) R (fun e t t' _ => HR e t t') (S (total_room ts)) (m_lists lc) ts)
    as (lists & ts' & Heq & G1 & G2 & _); [lia|by apply Forall_true; intros; apply Forall_true|].
  exists lists, ts'. split_and!; [done|done|]. by apply live_ok_lists.
Qed.

Section Operations.
Context (cfg : Config) `{SH : Shuffler}.

Lemma redirect_inv now seed k s st :
  Inv now st -> slots st !! k = Some s ->
  exists st' acts, redirect seed k st = Some (st', acts) /\ Inv now st'.
Proof.
  intros HI Hk. unfold redirect. rewrite Hk. cbn [mbind option_bind].
  assert (PreOrder (fun _ _ : RedirectHandouts => True)) by by split.
  destruct (hops_handout now (hops_shuffle seed (livecache st)) (fun _ _ => True)
              [MkRedirect (s_remote s) []]) as (lists & ts & -> & _ & Hok);
    [by apply live_ok_shuffle, HI|done|].
  cbn [mbind option_bind]. eexists _, _. split; [done|]. by apply inv_livecache.
Qed.

Lemma handshake_state s : negb (is_state accept s || is_state connected s) = false ->
  s_state s = accept \/ s_state s = connected.
Proof. unfold is_state. repeat case_bool_decide; simpl; auto; done. Qed.

Lemma can_activate_defined s c :
  s_state s = accept \/ s_state s = connected -> exists b, can_activate cfg s c = Some b.
Proof.
  intros H. unfold can_activate, is_state. destruct H as [-> | ->]; simpl; repeat case_match; eauto.
Qed.

(** The activation itself: both recounts and the new key. *)
Lemma activation_ok now st k s key cluster :
  Inv now st -> slots st !! k = Some s -> s_state s = accept \/ s_state s = connected -> key ∉ keys st ->
  exists st1 c, recount k s (set_key key cluster s) st = Some st1 /\
    activate now (set_key key cluster s) = Some (activated now key cluster s) /\
    recount k (set_key key cluster s) (activated now key cluster s) (set_keys ({[key]} ∪ keys st1) st1) =
      Some (set_counts c (set_slots (<[k := activated now key cluster s]> (slots st))
              (set_keys ({[key]} ∪ keys st) st))) /\
    m_in_max c = m_in_max (counts st) /\
    Inv now (set_counts c (set_slots (<[k := activated now key cluster s]> (slots st))
               (set_keys ({[key]} ∪ keys st) st))).
Proof.
  intros HI Hk Hst Hnew. pose proof (inv_slots _ _ HI _ _ Hk) as [G1 G2 G3 G4 G5 G6 G7].
  assert (G2' : slot_shape (activated now key cluster s)) by (split; cbn; [done|by intros [|]]).
  destruct (recount_ok k s (set_key key cluster s) st (inv_counts _ _ HI) Hk G2 G2) as (c1 & E1 & Hc1 & Hm1).
  set (st1 := set_counts c1 _) in E1.
  destruct (recount_ok k (set_key key cluster s) (activated now key cluster s)
              (set_keys ({[key]} ∪ keys st1) st1) Hc1 ltac:(apply lookup_insert_eq) G2 G2')
    as (c2 & E2 & Hc2 & Hm2).
  cbn in Hc2, Hm2. rewrite insert_insert_eq in Hc2.
  exists st1, c2. split_and!; [done| |rewrite E2; cbn; by rewrite insert_insert_eq|congruence|].
  - unfold activate. cbn [s_state set_key]. by destruct Hst as [-> | ->].
  - apply (activate_inv _ st k s); try done. destruct (s_key s) eqn:E; [|done].
    exfalso. assert (s_state s = active) as Ha by by apply G4. destruct Hst; congruence.
Qed.

Lemma on_handshake_inv now seed st k s key cluster :
  Inv now st -> slots st !! k = Some s -> s_state s = accept \/ s_state s = connected ->
  (s_inbound s = false -> boot_room k (bootcache st)) ->
  exists st' acts, on_handshake cfg now seed k key cluster st = Some (st', acts) /\ Inv now st'.
Proof.
  intros HI Hk Hst Hroom. unfold on_handshake. rewrite Hk. cbn [mbind option_bind].
  replace (negb _) with false by (unfold is_state; by destruct Hst as [-> | ->]).
  case_bool_decide as Hkey; [eauto|].
  assert (Hboot : exists b, (if s_inbound s then Some (bootcache st) else on_success now k (bootcache st)) = Some b
            /\ boot_ok (m_map b)).
  { destruct (s_inbound s) eqn:E; [eexists; split; [done|apply HI]|]. apply on_success_ok; [apply HI|auto]. }
  destruct Hboot as (b & Hb & Hbok).
  destruct (can_activate_defined s (counts st) Hst) as [[] ->]; cbn [mbind option_bind].
  - destruct (activation_ok now st k s key cluster HI Hk Hst Hkey) as (st1 & c & -> & E2 & E3 & _ & HI').
    cbn [mbind option_bind]. rewrite E2. cbn [mbind option_bind]. rewrite E3. cbn [mbind option_bind bootcache set_counts set_slots set_keys].
    rewrite Hb. cbn [mbind option_bind]. destruct (s_fixed s && negb (s_inbound s)) eqn:Hf.
    + apply andb_true_iff in Hf as [Hf1 Hf2%negb_true_iff].
      pose proof (slot_fixed _ _ _ _ (inv_slots _ _ HI _ _ Hk) Hf1 Hf2) as Hfx. cbn [fixed set_bootcache set_counts set_slots set_keys].
      destruct (fixed st !! k) as [f|] eqn:E; [|done]. cbn [mbind option_bind]. eexists _, _. split; [done|].
      apply (inv_fixed _ (set_bootcache _ _)); [by apply inv_bootcache|]. cbn. set_solver.
    + eexists _, _. split; [done|]. by apply inv_bootcache.
  - rewrite Hb. cbn [mbind option_bind]. destruct (s_inbound s) eqn:Hin.
    + destruct (redirect_inv now seed k s (set_bootcache b st)) as (st' & acts & -> & HI');
        [by apply inv_bootcache|done|]. cbn [mbind option_bind]. eauto.
    + cbn [mbind option_bind]. eexists _, _. split; [done|]. by apply inv_bootcache.
Qed.

End Operations.


(** ** Endpoint messages *)

(** What [preprocess] leaves: legal hops, valid and distinct addresses. *)
Lemma preprocess_ok remote neighbor acc l :
  Forall (fun e => 0 <= hops e) l ->
  Forall (fun e => 1 <= hops e <= maxHops + 1 /\ is_valid_address (ep_address e) = true) acc ->
  NoDup (map ep_address acc) ->
  let r := preprocess remote neighbor acc l in
  Forall (fun e => 1 <= hops e <= maxHops + 1 /\ is_valid_address (ep_address e) = true) r /\
  NoDup (map ep_address r).
Proof.
  intros Hl. revert neighbor acc. induction Hl as [|ep l Hep Hl IH]; intros neighbor acc Hacc HN; [done|].
  cbn [preprocess]. destruct (Z.ltb_spec maxHops (hops ep)); [by apply IH|].
  destruct ((hops ep =? 0) && neighbor) eqn:Hself; [by apply IH|].
  set (ep' := if hops ep =? 0 then _ else ep).
  assert (Hh : hops ep' = hops ep) by (subst ep'; destruct (Z.eqb_spec (hops ep) 0); simpl; lia).
  destruct (is_valid_address (ep_address ep')) eqn:Hv; cbn [negb]; [|by apply IH].
  destruct (existsb _ acc) eqn:Hd; [by apply IH|]. apply IH.
  - apply Forall_app. split; [done|]. apply Forall_singleton. cbn. rewrite Hh. split; [lia|done].
  - rewrite map_app. apply NoDup_app. split_and!; [done| |apply NoDup_singleton].
    intros x Hx ->%list_elem_of_singleton. cbn in Hx.
    apply list_elem_of_fmap in Hx as (o & Ho & Hin).
    enough (existsb (fun other => bool_decide (ep_address ep' = ep_address other)) acc = true) by congruence.
    apply existsb_exists. exists o. split; [by apply list_elem_of_In|]. by apply bool_decide_eq_true.
Qed.

Lemma endpoints_loop_inv now l s lc b :
  Forall (fun e => 1 <= hops e <= maxHops + 1) l -> live_ok now lc -> boot_ok (m_map b) ->
  exists s' lc' b' acts, endpoints_loop now l s lc b = Some (s', lc', b', acts) /\
    like now s s' /\ live_ok now lc' /\ boot_ok (m_map b').
Proof.
  intros Hl. revert s lc b. induction Hl as [|ep l Hep Hl IH]; intros s lc b Hlc Hb; cbn [endpoints_loop].
  { eexists _, _, _, _. split; [done|]. split; [done|done]. }
  destruct (Z.eqb_spec (hops ep) 0); [lia|]. set (s1 := set_recent _ s).
  assert (L1 : like now s s1) by (split; try done; intros; by apply recent_insert_ok).
  assert (Hrec : forall s2 lc b, like now s1 s2 -> live_ok now lc -> boot_ok (m_map b) ->
            exists s' lc' b' acts, endpoints_loop now l s2 lc b = Some (s', lc', b', acts) /\
              like now s s' /\ live_ok now lc' /\ boot_ok (m_map b')).
  { intros s2 lc' b' L2 H1 H2. destruct (IH s2 lc' b' H1 H2) as (s' & ? & ? & ? & ? & ? & ? & ?).
    eexists _, _, _, _. split; [done|]. split; [|done]. by etrans; [|etrans]. }
  destruct ((hops ep =? 1) && s_checkInProgress s1); [by apply Hrec|].
  destruct ((hops ep =? 1) && negb (s_checked s1)).
  { destruct (Hrec (set_check (s_checked s1) (s_canAccept s1) true s1) lc b) as (s' & lc' & b' & acts & -> & ? & ? & ?);
      [by split|done|done|]. cbn [mbind option_bind]. eexists _, _, _, _. by split. }
  destruct ((hops ep =? 1) && negb (s_canAccept s1)); [by apply Hrec|].
  destruct (livecache_insert_ok now ep lc Hlc) as (lc' & -> & Hlc' & _); [unfold in_hops; lia|].
  cbn [mbind option_bind]. apply Hrec; [done|done|by apply boot_insert_ok].
Qed.

Lemma on_endpoints_inv now st k s l :
  Inv now st -> slots st !! k = Some s -> s_state s = active -> Forall (fun e => 0 <= hops e) l ->
  exists st' acts, on_endpoints now k l st = Some (st', acts) /\ Inv now st'.
Proof.
  intros HI Hk Hst Hl. unfold on_endpoints. rewrite Hk. cbn [mbind option_bind].
  replace (negb (is_state active s)) with false by (unfold is_state; by rewrite Hst).
  destruct (preprocess_ok (s_remote s) false [] l Hl ltac:(constructor) ltac:(constructor)) as [Hp _].
  destruct (endpoints_loop_inv now _ s (livecache st) (bootcache st)
              ltac:(eapply Forall_impl; [exact Hp|]; cbn; tauto) (inv_live _ _ HI) (inv_boot _ _ HI))
    as (s' & lc & b & acts & -> & L & Hlc & Hb). cbn [mbind option_bind]. eexists _, _. split; [done|].
  apply inv_bootcache; [|done]. apply inv_livecache; [|done]. apply inv_like; [done|].
  apply (slots_like_insert _ _ _ s); [done|]. etrans; [done|]. by split.
Qed.

Lemma add_boot_inv now now' l st : Inv now st -> Inv now (addBootcacheAddresses now' l st).
Proof.
  intros HI. apply inv_bootcache; [done|]. pose proof (inv_boot _ _ HI) as Hb. revert Hb.
  generalize (bootcache st). induction l as [|e l IH]; intros b Hb; cbn; [done|]. by apply IH, boot_insert_ok.
Qed.

(** ** Closing *)

Lemma remove_inv now st k s :
  Inv now st -> slots st !! k = Some s ->
  exists st', remove k st = Some (s, st') /\ Inv now st' /\
    fixed st' = fixed st /\ bootcache st' = bootcache st.
Proof.
  intros [H1 H2 H3 H4 H5 H6 H7 H8] Hk. unfold remove. rewrite Hk. cbn [mbind option_bind].
  destruct (counts_remove_ok _ _ _ _ H1 (slot_is_shape _ _ _ _ (H2 _ _ Hk)) Hk) as (c & Hc & Hc' & _).
  assert (Hd : dom (slots st) = {[k]} ∪ dom (delete k (slots st))).
  { rewrite dom_delete_L. apply set_eq. intros j. rewrite elem_of_union, elem_of_difference, elem_of_singleton.
    destruct (decide (j = k)) as [->|]; [|tauto]. split; [auto|]. intros _. apply elem_of_dom. eauto. }
  assert (Hp : connected_addresses st ≡ₚ at_port k 0 :: ((fun k => at_port k 0) <$> elements (dom (delete k (slots st))))).
  { rewrite H5, Hd, elements_union_singleton; [done|]. rewrite dom_delete_L. set_solver. }
  destruct (erase_one_perm (at_port k 0) (connected_addresses st)) as (l & Hl & Hl').
  { rewrite Hp. apply elem_of_cons. by left. }
  rewrite Hp in Hl'. apply (inj (cons _)) in Hl'.
  set (ks := match s_key s with None => keys st | Some key => keys st ∖ {[key]} end).
  exists (set_counts c (set_connected l (set_keys ks (set_slots (delete k (slots st)) st)))).
  split_and!; [| |done|done].
  - subst ks. destruct (s_key s) as [key|] eqn:Hkey; cbn [keys set_slots].
    + rewrite bool_decide_true by (apply H3; eauto). cbn -[erase_one counts_remove].
      rewrite Hl. cbn -[counts_remove]. by rewrite Hc.
    + cbn -[erase_one counts_remove]. rewrite Hl. cbn -[counts_remove]. rewrite Hc. done.
  - split; cbn; [done|by apply map_Forall_delete| | | |done|done|done].
    + intros key. subst ks. assert (key ∈ (match s_key s with None => keys st | Some key => keys st ∖ {[key]} end)
        <-> key ∈ keys st /\ s_key s <> Some key) as ->.
      { destruct (s_key s); set_unfold; naive_solver. }
      rewrite H3. split.
      * intros ((j & t & Hj & E) & Hne). exists j, t. rewrite lookup_delete_ne; [done|]. intros <-. congruence.
      * intros (j & t & Hj & E). apply lookup_delete_Some in Hj as [Hne Hj]. split; [eauto|]. intros E'.
        apply Hne. by eapply (H4 k s j t).
    + intros k1 s1 k2 s2 key [_ Hk1]%lookup_delete_Some [_ Hk2]%lookup_delete_Some. by eapply H4.
    + by symmetry.
Qed.

Lemma on_closed_inv now st k s :
  Inv now st -> slots st !! k = Some s ->
  (is_attempt s = true -> boot_room k (bootcache st)) ->
  exists st', on_closed now k st = Some st' /\ Inv now st'.
Proof.
  intros HI Hk Hroom. unfold on_closed.
  destruct (remove_inv now st k s HI Hk) as (st1 & -> & HI1 & Hf1 & Hb1). cbn [mbind option_bind].
  assert (H : exists st2, (if s_fixed s && negb (s_inbound s) && negb (is_state active s) then
          f ← fixed st1 !! k; f ← fixed_failure now f; Some (set_fixed (<[k := f]> (fixed st1)) st1)
        else Some st1) = Some st2 /\ Inv now st2 /\ bootcache st2 = bootcache st).
  { destruct (s_fixed s && negb (s_inbound s) && negb (is_state active s)) eqn:Hf; [|by exists st1].
    apply andb_true_iff in Hf as [[Hf Hi%negb_true_iff]%andb_true_iff _].
    pose proof (slot_fixed _ _ _ _ (inv_slots _ _ HI _ _ Hk) Hf Hi) as Hfx. rewrite Hf1.
    destruct (fixed st !! k) as [f|]; [|done]. cbn [mbind option_bind].
    destruct (fixed_failure_ok now f) as (f' & -> & _). cbn [mbind option_bind]. eexists. split_and!; [done| |done].
    apply inv_fixed; [done|]. rewrite Hf1. set_solver. }
  destruct H as (st2 & -> & HI2 & Hb2). cbn [mbind option_bind]. destruct (is_attempt s) eqn:Ha; [|eauto].
  rewrite Hb2. destruct (on_failure_ok now k (bootcache st) (inv_boot _ _ HI) (Hroom eq_refl)) as (b & -> & Hb).
  cbn [mbind option_bind]. eexists. split; [done|]. by apply inv_bootcache.
Qed.

Lemma check_inv now st k r :
  Inv now st -> r = Aborted \/ slots st !! k <> None ->
  (r <> Aborted -> r <> Checked true -> boot_room k (bootcache st)) ->
  exists st', checkComplete now k r st = Some st' /\ Inv now st'.
Proof.
  intros HI Hk Hroom. destruct (decide (r = Aborted)) as [->|Hr]; [cbn; eauto|].
  destruct Hk as [|Hk]; [done|]. destruct (slots st !! k) as [s|] eqn:E; [|done].
  assert (HI' : forall ok, Inv now (set_slots (<[k := set_check true ok false s]> (slots st)) st)).
  { intros ok. apply inv_like; [done|]. apply (slots_like_insert _ _ _ s); [done|]. by split. }
  assert (Hfail : r <> Checked true -> exists b, on_failure now k (bootcache st) = Some b /\ boot_ok (m_map b)).
  { intros. apply on_failure_ok; [apply HI|auto]. }
  destruct r as [| |[]]; [done| | |]; cbn -[on_failure boot_room]; rewrite E; cbn -[on_failure].
  - destruct Hfail as (b & -> & Hb); [done|]. eexists. split; [done|]. by apply inv_bootcache.
  - eauto.
  - destruct Hfail as (b & -> & Hb); [done|]. eexists. split; [done|]. by apply inv_bootcache.
Qed.


(** ** Connection strategy *)

(** What [try_insert] may do to the handouts for connections. *)
Record ch_grows (t t' : ConnectHandouts) : Prop := {
  grows_now : ch_now t' = ch_now t;
  grows_needed : ch_needed t' = ch_needed t;
  grows_aged : aged_ok (ch_now t) (ch_squelches t) -> aged_ok (ch_now t) (ch_squelches t');
  grows_squelches a : a ∈ map elt_key (ch_squelches t) -> a ∈ map elt_key (ch_squelches t');
  grows_list : exists added, ch_list t' = ch_list t ++ added /\
    Forall (fun e => address e ∉ map elt_key (ch_squelches t)) added;
  grows_room : (length (ch_list t') <= Nat.max (ch_needed t) (length (ch_list t)))%nat;
}.

#[export] Instance ch_grows_preorder : PreOrder ch_grows.
Proof.
  split.
  - intros t. split; try done; [|lia]. exists []. by rewrite app_nil_r.
  - intros t1 t2 t3 [A1 A2 A3 A4 (l & A5 & A6) A7] [B1 B2 B3 B4 (k & B5 & B6) B7].
    rewrite A1 in *. split; [done|congruence|auto|auto| |lia].
    exists (l ++ k). rewrite B5, A5, app_assoc. split; [done|]. apply Forall_app. split; [done|].
    eapply Forall_impl; [exact B6|]. cbn. auto.
Qed.

Lemma ch_try_grows e t t' : ch_try_insert e t = Some t' -> ch_grows t t'.
Proof.
  unfold ch_try_insert, ch_full. destruct (Nat.leb_spec (ch_needed t) (length (ch_list t))); [done|].
  destruct (existsb _ _); [done|]. unfold aged_emplace.
  destruct (aged_find (address e) (ch_squelches t)) eqn:E; cbn [negb]; [done|]. intros [= <-].
  apply aged_find_None in E. split; cbn; [done|done| | | |].
  - intros Ha. by apply aged_ok_snoc.
  - intros a Ha. rewrite map_app, elem_of_app. by left.
  - exists [e]. split; [done|]. by apply Forall_singleton.
  - rewrite length_app. cbn. lia.
Qed.

Lemma connect_try_grows e (t t' : ConnectHandouts) : try_insert e t = Some t' -> ch_grows t t'.
Proof. apply ch_try_grows. Qed.

Lemma boot_handout_grows l h : ch_grows h (boot_handout l h).
Proof.
  revert h. induction l as [|e l IH]; intros h; cbn; [done|]. destruct (ch_full h); [done|].
  destruct (ch_try_insert e h) as [h'|] eqn:E; cbn; [|done]. etrans; [by eapply ch_try_grows|done].
Qed.

Lemma squelch_slots_ok now st :
  aged_ok now (m_squelches st) -> aged_ok now (m_squelches (squelch_slots now st)).
Proof.
  cbn. generalize (m_squelches st). generalize (in_order (slots st)).
  intros l. induction l as [|p l IH]; intros sq Hsq; cbn; [done|]. apply IH. unfold aged_emplace.
  destruct (aged_find _ sq) eqn:E; [by apply aged_ok_touch|]. apply aged_ok_snoc; [done|].
  by apply aged_find_None.
Qed.

Lemma squelch_fold_in now (l : list (IPEndpoint * Slot)) (sq : Squelches) a :
  a ∈ map elt_key sq \/ (exists p, p ∈ l /\ address (s_remote (snd p)) = a) ->
  a ∈ map elt_key (foldl (fun sq p =>
      let '(sq, inserted) := aged_emplace now (address (s_remote (snd p))) tt sq in
      if inserted : bool then sq else aged_touch now (address (s_remote (snd p))) sq) sq l).
Proof.
  revert sq. induction l as [|p l IH]; intros sq H; cbn.
  { destruct H as [|(p & Hp & _)]; [done|]. by apply elem_of_nil in Hp. }
  apply IH. unfold aged_emplace.
  assert (Hin : (a ∈ map elt_key sq \/ a = address (s_remote (snd p))) \/
    exists p, p ∈ l /\ address (s_remote (snd p)) = a).
  { destruct H as [|(q & [->|Hq]%elem_of_cons & <-)]; eauto. }
  destruct Hin as [Hin|]; [left|by right].
  destruct (aged_find (address (s_remote (snd p))) sq) as [x|] eqn:E.
  - unfold aged_touch. rewrite E. rewrite map_app, elem_of_app. cbn.
    destruct (decide (a = address (s_remote (snd p)))) as [->|Hne].
    + right. by apply list_elem_of_singleton.
    + left. destruct Hin as [Hin|]; [|done]. apply list_elem_of_fmap in Hin as (y & -> & Hy).
      apply list_elem_of_fmap_2. by apply list_elem_of_filter.
  - rewrite map_app, elem_of_app. cbn. destruct Hin as [Hin|Hin]; [by left|right; rewrite Hin]. by apply list_elem_of_singleton.
Qed.

Lemma in_order_perm {A} (m : gmap IPEndpoint A) : in_order m ≡ₚ map_to_list m.
Proof. apply merge_sort_Permutation. Qed.

(** After squelching, the address of every slot is squelched. *)
Lemma squelch_slots_in now st k s :
  slots st !! k = Some s -> address (s_remote s) ∈ map elt_key (m_squelches (squelch_slots now st)).
Proof.
  intros Hk. apply squelch_fold_in. right. exists (k, s). split; [|done].
  rewrite in_order_perm. by apply elem_of_map_to_list.
Qed.

Lemma get_fixed_ok now needed l st :
  (length (get_fixed now needed l st) <= needed)%nat /\
  Forall (fun e => forall k s, slots st !! k = Some s -> address k <> address e) (get_fixed now needed l st).
Proof.
  revert needed. induction l as [|[e f] l IH]; intros [|n]; cbn -[existsb]; try (split; [lia|constructor]).
  destruct ((f_when f <=? now) && _) eqn:E; [|apply IH].
  apply andb_true_iff in E as [_ E%negb_true_iff]. destruct (IH n) as [H1 H2]. cbn. split; [lia|].
  constructor; [|done]. intros k s Hk Heq.
  enough (existsb (fun p : IPEndpoint * Slot => address e =? address (fst p)) (map_to_list (slots st)) = true) by congruence.
  apply existsb_exists. exists (k, s). split; [|cbn; lia]. by apply list_elem_of_In, elem_of_map_to_list.
Qed.

(** What [autoconnect] asks for: few enough connections, to addresses no slot is
    connected to. *)
Definition connects_ok (st : State) (a : Action) : Prop :=
  match a with
  | Connect l => (Z.of_nat (length l) <= attempts_needed (counts st)) /\
      Forall (fun e => forall k s, slots st !! k = Some s -> address k <> address e) l
  | _ => False
  end.

Section Strategy.
Context (cfg : Config) `{SH : Shuffler}.

Lemma handouts_connect now st h :
  Inv now st ->
  ch_grows (MkConnect now (Z.to_nat (attempts_needed (counts st))) (m_squelches (squelch_slots now st)) []) h ->
  0 <= attempts_needed (counts st) -> connects_ok st (Connect (ch_list h)).
Proof.
  intros HI [_ _ _ _ (l & Hl & Hf) Hroom] Hn. cbn in *. split; [lia|]. rewrite Hl.
  eapply Forall_impl; [exact Hf|]. cbn. intros e He k s Hk Heq. apply He.
  rewrite <- Heq, <- (slot_key_remote _ _ _ _ (inv_slots _ _ HI _ _ Hk)). by eapply squelch_slots_in.
Qed.

Lemma autoconnect_inv now seed st :
  Inv now st ->
  exists st' acts, autoconnect cfg now seed st = Some (st', acts) /\ Inv now st' /\
    slots st' = slots st /\ counts st' = counts st /\ Forall (connects_ok st) acts.
Proof.
  intros HI. unfold autoconnect. set (needed := attempts_needed (counts st)).
  assert (Hneeded : 0 <= needed).
  { subst needed. unfold attempts_needed. case_match; [lia|]. apply uwrap_range. lia. }
  destruct (Z.to_nat needed =? 0)%nat; [eexists _, _; split; [done|by split_and!]|].
  set (st1 := squelch_slots now st).
  assert (HI1 : Inv now st1) by (apply inv_squelches; [done|apply squelch_slots_ok, HI]).
  set (use_fixed := fixed_active (counts st1) <? _).
  set (fl := if use_fixed then _ else []).
  assert (Hfl : connects_ok st (Connect fl)).
  { subst fl. destruct use_fixed; [|split; [cbn; lia|constructor]].
    destruct (get_fixed_ok now (Z.to_nat needed) (in_order (fixed st1)) st1) as [G1 G2].
    unfold connects_ok. split; [fold needed; lia|exact G2]. }
  destruct (0 <? length fl)%nat; [eexists _, _; split; [done|split_and!; try done; by apply Forall_singleton]|].
  destruct (use_fixed && _); [eexists _, _; split; [done|by split_and!]|].
  destruct (RUN_STANDALONE cfg || _ || _); [eexists _, _; split; [done|by split_and!]|].
  set (lc := hops_shuffle seed (livecache st1)).
  assert (Hlc : live_ok now lc) by (apply live_ok_shuffle, HI1).
  destruct (handout_loop_spec (fun _ => True) ch_grows (fun e t t' _ => connect_try_grows e t t')
     (S (total_room [MkConnect now (Z.to_nat needed) (m_squelches st1) []])) (hops_rseq lc)
     [MkConnect now (Z.to_nat needed) (m_squelches st1) []])
    as (lists & ts & Heq & G1 & G2 & _); [lia|by apply Forall_true; intros; apply Forall_true|].
  unfold handout. rewrite Heq. cbn [mbind option_bind].
  destruct ts as [|h ts]; [by apply Forall2_nil_inv_r in G2|]. cbn [head mbind option_bind].
  apply Forall2_cons in G2 as [Hh _].
  set (st2 := set_squelches (ch_squelches h) _).
  assert (HI2 : Inv now st2).
  { apply inv_squelches; [|by apply (grows_aged _ _ Hh), HI1]. apply inv_livecache; [done|].
    apply live_ok_lists; [done|]. unfold hops_rseq in G1. apply Forall2_reverse in G1. by rewrite reverse_involutive in G1. }
  destruct (0 <? length (ch_list h))%nat.
  { eexists _, _. split; [done|]. split_and!; try done. apply Forall_singleton. by apply (handouts_connect now). }
  destruct (0 <? attempts _); [eexists _, _; split; [done|by split_and!]|].
  set (h' := boot_handout _ h). assert (Hh' : ch_grows h h') by apply boot_handout_grows.
  eexists _, _. split; [done|]. split_and!; [|done|done|].
  - apply inv_squelches; [done|]. pose proof (grows_now _ _ Hh) as Hnow. cbn in Hnow.
    pose proof (grows_aged _ _ Hh') as Haged. rewrite Hnow in Haged. apply Haged, HI2.
  - destruct (0 <? length (ch_list h'))%nat; [|constructor]. apply Forall_singleton.
    apply (handouts_connect now); [done| |done]. by etrans.
Qed.

End Strategy.


(** ** Periodic work *)

Lemma expire_inv now st : Inv now st -> exists st', expire now st = Some st' /\ Inv now st'.
Proof.
  intros HI. unfold expire.
  destruct (livecache_expire_ok now now _ (inv_live _ _ HI)) as (lc & -> & Hlc & _). cbn [mbind option_bind].
  eexists. split; [done|]. apply inv_squelches; [|by apply aged_ok_expire, HI].
  apply inv_like; [by apply inv_livecache|]. intros k. cbn. rewrite lookup_fmap.
  destruct (slots st !! k); constructor. split; try done. intros. by apply aged_ok_expire.
Qed.

Lemma store_recent_like now ts m :
  Forall (fun t => aged_ok now (sh_recent t)) ts -> slots_like now m (store_recent ts m).
Proof.
  intros H. revert m. unfold store_recent. induction H as [|t ts Ht _ IH]; intros m; cbn; [done|].
  etrans; [|apply IH]. intros k. destruct (decide (sh_remote t = k)) as [<-|Hne].
  - rewrite lookup_alter_eq. destruct (m !! sh_remote t); constructor. by split.
  - rewrite lookup_alter_ne by done. by destruct (m !! k); constructor.
Qed.

Lemma overlay_connect_inv now l st : Inv now st -> exists st', overlay_connect l st = Some st' /\ Inv now st'.
Proof.
  revert st. induction l as [|e l IH]; intros st HI; cbn; [eauto|].
  destruct (new_outbound_inv now st e HI) as (r & st' & -> & HI'). cbn [mbind option_bind]. by apply IH.
Qed.

Lemma perform_inv now b acts st : Inv now st -> exists st', perform b acts st = Some st' /\ Inv now st'.
Proof.
  revert st. induction acts as [|a acts IH]; intros st HI; cbn; [eauto|].
  destruct a as [l| | | |]; try by apply IH. destruct b; cbn [mbind option_bind]; [by apply IH|].
  destruct (overlay_connect_inv now l st HI) as (st' & -> & HI'). cbn [mbind option_bind]. by apply IH.
Qed.

Section Periodic.
Context (cfg : Config) `{SH : Shuffler}.

Lemma broadcast_inv now seed st :
  Inv now st -> exists st' acts, broadcast cfg now seed st = Some (st', acts) /\ Inv now st'.
Proof.
  intros HI. unfold broadcast. set (l := random_shuffle (seed - 1) _).
  set (ts0 := map (fun p : IPEndpoint * Slot => MkSlotHandouts now (s_remote (snd p)) (s_recent (snd p)) []) l).
  set (ts := if negb (PEER_PRIVATE cfg) && _ then _ else ts0).
  assert (H0 : Forall (fun t => sh_now t = now /\ aged_ok now (sh_recent t)) ts0).
  { apply Forall_forall. intros t (p & -> & Hp)%list_elem_of_fmap. cbn. split; [done|].
    subst l. rewrite random_shuffle_perm in Hp. apply list_elem_of_filter in Hp as [_ Hp].
    rewrite in_order_perm in Hp. destruct p as [k s]. apply elem_of_map_to_list in Hp.
    by destruct (inv_slots _ _ HI _ _ Hp). }
  assert (Hts : Forall (fun t => sh_now t = now /\ aged_ok now (sh_recent t)) ts).
  { subst ts. destruct (negb (PEER_PRIVATE cfg) && _); [|done]. apply Forall_fmap.
    eapply Forall_impl; [exact H0|]. done. }
  clearbody ts. clear H0 ts0 l.
  destruct (hops_handout now (hops_shuffle seed (livecache st)) (sh_grows (fun _ => True)) ts)
    as (lists & ts' & -> & HR & Hok); [by apply live_ok_shuffle, HI|intros; by eapply sh_try_grows|].
  cbn [mbind option_bind]. eexists _, _. split; [done|].
  apply inv_like; [by apply inv_livecache|]. apply store_recent_like.
  clear -HR Hts. induction HR as [|t t' ts ts' [l Hl] _ IH]; [constructor|].
  apply Forall_cons_1 in Hts as [[Hn Ha] Hts]. constructor; [|by apply IH].
  pose proof (adds_aged _ _ _ _ Hl) as Haged. rewrite Hn in Haged. by apply Haged.
Qed.

Lemma checkUpdate_map now b : m_map (checkUpdate now b) = m_map b.
Proof. unfold checkUpdate, boot_update. by repeat (case_match; cbn). Qed.

Lemma periodicActivity_inv stopping now seed st :
  Inv now st -> exists st' acts, periodicActivity cfg stopping now seed st = Some (st', acts) /\ Inv now st'.
Proof.
  intros HI. unfold periodicActivity.
  destruct (autoconnect_inv cfg now seed st HI) as (st1 & acts & -> & HI1 & _). cbn [mbind option_bind].
  destruct (perform_inv now stopping acts st1 HI1) as (st2 & -> & HI2). cbn [mbind option_bind].
  destruct (expire_inv now st2 HI2) as (st3 & -> & HI3). cbn [mbind option_bind].
  set (st4 := set_bootcache _ st3).
  assert (HI4 : Inv now st4) by (apply inv_bootcache; [done|rewrite checkUpdate_map; apply HI3]).
  destruct (m_whenBroadcast st4 <=? now); [|eauto].
  destruct (broadcast_inv now (seed + 100) st4 HI4) as (st5 & acts' & -> & HI5). cbn [mbind option_bind].
  eexists _, _. split; [done|]. by apply inv_when.
Qed.

End Periodic.

Lemma addFixed_inv now t l st : Inv now st -> Inv now (addFixedPeer t l st).
Proof.
  intros HI. induction l as [|a l IH]; cbn; [done|]. destruct (fixed st !! a); [done|].
  apply inv_fixed; [done|]. set_solver.
Qed.

Lemma boot_load_ok stored b : (length stored <= 1111)%nat -> boot_ok (m_map (boot_load stored b)).
Proof.
  intros Hl. unfold boot_load. cbn.
  assert (H : forall l m, NoDup (map fst m) -> StronglySorted by_valence m ->
    let m' := foldl (fun m x => fst (map_insert x m)) m l in
    NoDup (map fst m') /\ StronglySorted by_valence m' /\ (length m' <= length m + length l)%nat).
  { intros l. induction l as [|x l IH]; intros m HN HS; cbn; [by rewrite Nat.add_0_r|].
    unfold map_insert at 2 4 6. destruct (boot_find (fst x) m) eqn:E; cbn [fst].
    - destruct (IH m HN HS) as (? & ? & ?). split_and!; [done|done|lia].
    - pose proof (ordered_insert_perm x m) as Hp.
      destruct (IH (ordered_insert x m)) as (? & ? & Hlen); [|by apply ordered_insert_sorted|].
      { rewrite (Permutation_map fst Hp). cbn. apply NoDup_cons. split; [by apply boot_find_None|done]. }
      pose proof (Permutation_length Hp) as Hpl. cbn in Hpl. split_and!; [done|done|lia]. }
  destruct (H stored [] ltac:(constructor) ltac:(constructor)) as (H1 & H2 & H3). cbn in H3.
  assert (Hok : boot_ok (prune (foldl (fun m x => fst (map_insert x m)) [] stored)))
    by (apply boot_ok_prune; [done|done|lia]).
  destruct stored as [|x stored]; [exact Hok|exact Hok].
Qed.


(** * The state machine *)

Section Machine.
Context (cfg : Config) `{SH : Shuffler}.

Record Sys := MkSys { clock : Z; logic : State }.

Definition init (t : Z) (uninitialised : bool) : Sys := MkSys t (initial cfg t uninitialised).

(** What the overlay, the timer, the checker and the sources can do. *)
Inductive op :=
| OpTick (dt : Z)
| OpSetConfig
| OpLoad (stored : list (IPEndpoint * Z))
| OpStop
| OpAddFixed (l : list IPEndpoint)
| OpInbound (local remote : IPEndpoint)
| OpOutbound (remote : IPEndpoint)
| OpConnected (k local : IPEndpoint)
| OpHandshake (seed : Z) (k : IPEndpoint) (key : PublicKey) (cluster : bool)
| OpEndpoints (k : IPEndpoint) (l : list Endpoint)
| OpLegacy (l : list IPEndpoint)
| OpClosed (k : IPEndpoint)
| OpCancel (k : IPEndpoint)
| OpCheck (k : IPEndpoint) (r : CheckResult)
| OpPeriodic (overlay_stopping : bool) (seed : Z)
| OpFetchBegin
| OpFetchEnd (results : option (list IPEndpoint)).

(** What the code asserts of its callers, the life cycle of a connection: a slot is
    used between its creation and its close; an outbound one connects before the
    handshake, an endpoint message follows it; sockets have distinct remote endpoints,
    and a connection to ourselves shows as two slots with swapped endpoints.  Time
    does not go back, and the stored boot cache is not larger than a boot cache gets. *)
Definition life_cycle (o : op) (s : Sys) : Prop :=
  let st := logic s in
  match o with
  | OpTick dt => 0 <= dt
  | OpLoad stored => (length stored <= 1111)%nat
  | OpInbound local remote =>
      slots st !! remote = None /\
      match slots st !! local with
      | Some self => s_local self = None \/ s_local self = Some remote
      | None => True
      end
  | OpConnected k local =>
      match slots st !! k with Some s => s_state s = connect | None => False end /\
      match slots st !! local with Some self => local = k \/ s_local self = Some k | None => True end
  | OpHandshake _ k _ _ =>
      match slots st !! k with
      | Some s => s_state s = accept \/ s_state s = connected
      | None => False
      end
  | OpEndpoints k _ => match slots st !! k with Some s => s_state s = active | None => False end
  | OpClosed k | OpCancel k => slots st !! k <> None
  | _ => True
  end.

(** The three defects of the code, which a peer or bad timing can trigger: an endpoint
    message with a negative number of hops ([negative_hops_out_of_bounds]), a check
    that ends after its slot was closed ([check_after_close]), and the outcome of an
    outbound attempt or of a check reported to a full boot cache that does not know
    the address ([on_failure_dangling]). *)
Definition defect (o : op) (s : Sys) : Prop :=
  let st := logic s in
  match o with
  | OpHandshake _ k _ _ =>
      match slots st !! k with Some s => s_inbound s = false /\ ~ boot_room k (bootcache st) | None => False end
  | OpEndpoints _ l => Exists (fun e => hops e < 0) l
  | OpClosed k => match slots st !! k with Some s => is_attempt s = true /\ ~ boot_room k (bootcache st) | None => False end
  | OpCheck k r => r <> Aborted /\ (slots st !! k = None \/ r <> Checked true /\ ~ boot_room k (bootcache st))
  | _ => False
  end.

(** The two together. *)
Definition client_ok (o : op) (s : Sys) : Prop :=
  let st := logic s in
  match o with
  | OpTick dt => 0 <= dt
  | OpLoad stored => (length stored <= 1111)%nat
  | OpInbound local remote =>
      slots st !! remote = None /\
      match slots st !! local with
      | Some self => s_local self = None \/ s_local self = Some remote
      | None => True
      end
  | OpConnected k local =>
      match slots st !! k with Some s => s_state s = connect | None => False end /\
      match slots st !! local with Some self => local = k \/ s_local self = Some k | None => True end
  | OpHandshake _ k _ _ =>
      match slots st !! k with
      | Some s => (s_state s = accept \/ s_state s = connected) /\
                  (s_inbound s = true \/ boot_room k (bootcache st))
      | None => False
      end
  | OpEndpoints k l =>
      match slots st !! k with Some s => s_state s = active | None => False end /\
      Forall (fun e => 0 <= hops e) l
  | OpClosed k =>
      match slots st !! k with
      | Some s => is_attempt s = false \/ boot_room k (bootcache st)
      | None => False
      end
  | OpCancel k => slots st !! k <> None
  | OpCheck k r =>
      r = Aborted \/ (slots st !! k <> None /\ (r = Checked true \/ boot_room k (bootcache st)))
  | _ => True
  end.

Definition exec (o : op) (s : Sys) : option (Sys * list Action) :=
  let '(MkSys now st) := s in
  let quiet st := Some (MkSys now st, []) in
  let loud (r : option (State * list Action)) := '(st, acts) ← r; Some (MkSys now st, acts) in
  match o with
  | OpTick dt => Some (MkSys (now + dt) st, [])
  | OpSetConfig => quiet (setConfig cfg st)
  | OpLoad stored => quiet (load stored st)
  | OpStop => quiet (stop st)
  | OpAddFixed l => quiet (addFixedPeer now l st)
  | OpInbound local remote => '(_, st) ← new_inbound_slot local remote st; quiet st
  | OpOutbound remote => '(_, st) ← new_outbound_slot remote st; quiet st
  | OpConnected k local => loud (on_connected k local st)
  | OpHandshake seed k key cluster => loud (on_handshake cfg now seed k key cluster st)
  | OpEndpoints k l => loud (on_endpoints now k l st)
  | OpLegacy l => quiet (on_legacy_endpoints now l st)
  | OpClosed k => st ← on_closed now k st; quiet st
  | OpCancel k => st ← on_cancel k st; quiet st
  | OpCheck k r => st ← checkComplete now k r st; quiet st
  | OpPeriodic b seed => loud (periodicActivity cfg b now seed st)
  | OpFetchBegin => quiet (fetch_begin st)
  | OpFetchEnd results => quiet (fetch_end now results st)
  end.

Definition step (s s' : Sys) : Prop := exists o acts, (life_cycle o s /\ ~ defect o s) /\ exec o s = Some (s', acts).

#[export] Instance boot_room_dec e b : Decision (boot_room e b).
Proof. unfold boot_room. apply _. Defined.

Lemma client_ok_iff o s : client_ok o s <-> life_cycle o s /\ ~ defect o s.
Proof.
  destruct o; cbn; try tauto.
  - destruct (slots (logic s) !! k) as [x|]; [|tauto]. destruct (s_inbound x); [naive_solver|].
    destruct (decide (boot_room k (bootcache (logic s)))); naive_solver.
  - rewrite <- Forall_Exists_neg. destruct (slots (logic s) !! k); [|tauto]. split; (intros [? H]; split; [done|]); (eapply Forall_impl; [exact H|]); intros e ?; cbn in *; lia.
  - destruct (slots (logic s) !! k) as [x|]; [|naive_solver]. destruct (is_attempt x); [|naive_solver].
    destruct (decide (boot_room k (bootcache (logic s)))); naive_solver.
  - destruct (decide (r = Aborted)) as [->|Hr]; [naive_solver|]. destruct (decide (slots (logic s) !! k = None)) as [->|Hk]; [naive_solver|].
    destruct (decide (r = Checked true)) as [->|]; [naive_solver|]. destruct (decide (boot_room k (bootcache (logic s)))); naive_solver.
Qed.

Definition sys_inv (s : Sys) : Prop := Inv (clock s) (logic s).

Lemma init_inv t g : sys_inv (init t g).
Proof.
  split; cbn.
  - split; cbn; by rewrite map_count_empty.
  - apply map_Forall_empty.
  - intros key. split; [set_solver|]. intros (k & s & Hk & _). by rewrite lookup_empty in Hk.
  - intros k1 s1 k2 s2 key Hk. by rewrite lookup_empty in Hk.
  - by rewrite dom_empty_L, elements_empty.
  - apply live_ok_empty.
  - split; [constructor|constructor|cbn; lia].
  - split; constructor.
Qed.

Lemma logic_exec_inv o s : sys_inv s -> client_ok o s -> exists s' acts, exec o s = Some (s', acts) /\ sys_inv s'.
Proof.
  destruct s as [now st]. intros HI Hok. unfold sys_inv in *. cbn [clock logic] in HI.
  destruct o; cbn [client_ok logic] in Hok; cbn [exec].
  - eexists _, _. split; [done|]. cbn. eapply inv_later; [done|]. lia.
  - eexists _, _. split; [done|]. destruct HI as [[] ? ? ? ? ? ? ?]. by split.
  - eexists _, _. split; [done|]. apply inv_bootcache; [done|by apply boot_load_ok].
  - eexists _, _. split; [done|]. by apply inv_fetch.
  - eexists _, _. split; [done|]. by apply addFixed_inv.
  - destruct Hok as [H1 H2]. destruct (new_inbound_inv now st local remote HI H1) as (r & st' & -> & HI').
    { intros self E. by rewrite E in H2. } eexists _, _. by split.
  - destruct (new_outbound_inv now st remote HI) as (r & st' & -> & HI'). eexists _, _. by split.
  - destruct Hok as [H1 H2]. destruct (slots st !! k) as [s|] eqn:E; [|done].
    destruct (on_connected_inv now st k s local HI E H1) as (st' & acts & -> & HI').
    { intros self Hself Hne. rewrite Hself in H2. by destruct H2. } eexists _, _. by split.
  - destruct (slots st !! k) as [s|] eqn:E; [|done]. destruct Hok as [H1 H2].
    destruct (on_handshake_inv cfg now seed st k s key cluster HI E H1) as (st' & acts & -> & HI').
    { intros Hin. destruct H2; [congruence|done]. } eexists _, _. by split.
  - destruct Hok as [H1 H2]. destruct (slots st !! k) as [s|] eqn:E; [|done].
    destruct (on_endpoints_inv now st k s l HI E H1 H2) as (st' & acts & -> & HI'). eexists _, _. by split.
  - eexists _, _. split; [done|]. by apply add_boot_inv.
  - destruct (slots st !! k) as [s|] eqn:E; [|done].
    destruct (on_closed_inv now st k s HI E) as (st' & -> & HI').
    { intros Ha. destruct Hok; [congruence|done]. } eexists _, _. by split.
  - destruct (slots st !! k) as [s|] eqn:E; [|done]. unfold on_cancel.
    destruct (remove_inv now st k s HI E) as (st' & -> & HI' & _). eexists _, _. by split.
  - destruct (check_inv now st k r HI) as (st' & -> & HI').
    { destruct Hok as [|[]]; auto. } { intros Hr1 Hr2. by destruct Hok as [|[_ []]]. }
    eexists _, _. by split.
  - destruct (periodicActivity_inv cfg overlay_stopping now seed st HI) as (st' & acts & -> & HI'). eexists _, _. by split.
  - eexists _, _. split; [done|]. unfold fetch_begin. case_match; [done|]. by apply inv_fetch.
  - eexists _, _. split; [done|]. unfold fetch_end. case_match; [done|].
    destruct results; [apply add_boot_inv|]; by apply inv_fetch.
Qed.

Lemma reach_inv s s' : sys_inv s -> rtc step s s' -> sys_inv s'.
Proof.
  intros H0 Hr. induction Hr as [|s1 s2 s3 (o & acts & Hok & Hex) _ IH]; [done|].
  apply IH. destruct (logic_exec_inv o s1 H0 (proj2 (client_ok_iff o s1) Hok)) as (s' & a & Hs & HI). congruence.
Qed.


(** What automatic connection asks for.  It is always defined, changes
    neither slots nor counts, and every connection it requests is within the
    number of attempts still allowed and goes to a host no slot is connected
    to. *)
Theorem autoconnect_sound (now seed : Z) (st : State) :
  Inv now st ->
  exists st' acts, autoconnect cfg now seed st = Some (st', acts) /\
    slots st' = slots st /\ counts st' = counts st /\
    Forall (fun a => exists l, a = Connect l /\ Z.of_nat (length l) <= attempts_needed (counts st) /\
      Forall (fun e => forall k s, slots st !! k = Some s -> address k <> address e) l) acts.
Proof.
  intros HI. destruct (autoconnect_inv cfg now seed st HI) as (st' & acts & H1 & _ & H2 & H3 & H4).
  exists st', acts. split_and!; [done|done|done|]. eapply Forall_impl; [exact H4|].
  intros [l| | | |] Ha; try done. exists l. by destruct Ha.
Qed.

End Machine.


Lemma redirect_keeps `{SH : Shuffler} seed k st st' acts :
  redirect seed k st = Some (st', acts) ->
  counts st' = counts st /\ slots st' = slots st /\ Activate k ∉ acts.
Proof.
  unfold redirect. destruct (slots st !! k) as [s|]; [|done]. cbn [mbind option_bind].
  destruct (handout _ _) as [[lists ts]|]; [|done]. cbn [mbind option_bind]. intros [= <- <-].
  split_and!; [done|done|]. repeat case_match; rewrite ?elem_of_cons; set_solver.
Qed.

Lemma u64_count_grows (P : Slot -> bool) (m m' : gmap IPEndpoint Slot) k s s' limit :
  m !! k = Some s -> m' = <[k := s']> m -> P s = false ->
  (P s' = true -> u64 (map_count P m) < limit) ->
  u64 (map_count P m') <= Z.max (u64 (map_count P m)) limit.
Proof.
  intros Hk -> Hs Hlim. rewrite (map_count_update _ _ _ _ _ Hk), Hs.
  destruct (P s'); simpl; [|replace (map_count P m - 0 + 0) with (map_count P m) by lia; lia].
  specialize (Hlim eq_refl). unfold uwrap in *. pose proof (map_count_nonneg P m).
  replace (map_count P m - 0 + 1) with (map_count P m + 1) by lia.
  rewrite <- (Z.add_mod_idemp_l _ 1) by done.
  pose proof (Z.mod_le (map_count P m mod 2 ^ 64 + 1) (2 ^ 64)).
  pose proof (Z.mod_pos_bound (map_count P m) (2 ^ 64)). lia.
Qed.

(** Once the handshake is done, a slot can be activated exactly when it is fixed
    or its direction has room. *)
Lemma can_activate_iff (cfg : Config) now st k s b :
  Inv now st -> slots st !! k = Some s -> s_state s = accept \/ s_state s = connected ->
  can_activate cfg s (counts st) = Some b ->
  b = true <->
    (s_fixed s = true \/
      (if s_inbound s then m_in_active (counts st) < m_in_max (counts st)
       else m_out_active (counts st) < PEERS_MAX cfg)).
Proof.
  intros HI Hk Hneg. unfold can_activate. destruct (negb _); [done|].
  rewrite (slot_cluster _ _ _ _ (inv_slots _ _ HI _ _ Hk)) by (destruct Hneg; congruence).
  destruct (s_fixed s), (s_inbound s); cbn; intros [= <-]; rewrite ?Z.ltb_lt; naive_solver.
Qed.

(** Admission.  A handshake activates the connection exactly when its key is
    not connected already and it is fixed or finds a free slot of its direction,
    whatever its cluster flag; a connection that is not fixed never takes the inbound
    actives beyond the inbound slots nor the outbound actives beyond the peer
    limit; an activated slot has its key, and any other outcome leaves slots and
    counts as they were. *)
Theorem admission_control (cfg : Config) `{SH : Shuffler} (now seed : Z) (st st' : State)
    (k : IPEndpoint) (s : Slot) (key : PublicKey) (cluster : bool) (acts : list Action) :
  Inv now st -> slots st !! k = Some s ->
  on_handshake cfg now seed k key cluster st = Some (st', acts) ->
  (Activate k ∈ acts <->
     key ∉ keys st /\ (s_fixed s = true \/
       (if s_inbound s then m_in_active (counts st) < m_in_max (counts st)
        else m_out_active (counts st) < PEERS_MAX cfg))) /\
  m_in_active (counts st') <= Z.max (m_in_active (counts st)) (m_in_max (counts st)) /\
  m_out_active (counts st') <= Z.max (m_out_active (counts st)) (PEERS_MAX cfg) /\
  (Activate k ∈ acts -> slots st' = <[k := activated now key cluster s]> (slots st)) /\
  (Activate k ∉ acts -> slots st' = slots st /\ counts st' = counts st).
Proof.
  intros HI Hk. unfold on_handshake. rewrite Hk. cbn [mbind option_bind].
  destruct (negb _) eqn:Hneg; [done|]. apply handshake_state in Hneg.
  case_bool_decide as Hkey.
  { intros [= <- <-]. assert (Activate k ∉ [Disconnect k true]) by set_solver.
    split_and!; [naive_solver|lia|lia|done|done]. }
  destruct (can_activate_defined cfg s (counts st) Hneg) as [b Hb]. rewrite Hb.
  pose proof (can_activate_iff cfg now st k s b HI Hk Hneg Hb) as Hact.
  destruct b; cbn [mbind option_bind].
  - destruct (activation_ok now st k s key cluster HI Hk Hneg Hkey) as (st1 & c & -> & E2 & E3 & _ & HI').
    cbn [mbind option_bind]. rewrite E2. cbn [mbind option_bind]. rewrite E3. cbn [mbind option_bind].
    intros Heq.
    assert (slots st' = <[k := activated now key cluster s]> (slots st) /\ counts st' = c /\ acts = [Activate k])
      as (Hs' & Hc' & ->).
    { destruct (if s_inbound s then _ else _) as [b|]; [|done]. cbn [mbind option_bind] in Heq.
      destruct (s_fixed s && negb (s_inbound s)).
      - destruct (_ !! k) in Heq; [|done]. cbn in Heq. by injection Heq as <- <-.
      - by injection Heq as <- <-. }
    destruct HI as [Hcounts _ _ _ _ _ _ _]. pose proof (inv_counts _ _ HI') as Hc. cbn in Hc.
    rewrite Hc', (ok_in_active _ _ Hc), (ok_out_active _ _ Hc), (ok_in_active _ _ Hcounts), (ok_out_active _ _ Hcounts).
    rewrite (ok_in_active _ _ Hcounts), (ok_out_active _ _ Hcounts) in Hact.
    assert (Hpre : is_in_active s = false /\ is_out_active s = false).
    { unfold is_in_active, is_out_active, is_plain_active, is_state. by destruct Hneg as [-> | ->]. }
    split_and!; [set_solver| | |done|intros []; set_solver].
    + eapply (u64_count_grows _ _ _ k s); [done|done|apply Hpre|]. unfold is_in_active, is_plain_active. cbn.
      destruct (proj1 Hact eq_refl) as [Hf|Hlim]; [by rewrite Hf|].
      destruct (s_inbound s); [done|]. by rewrite andb_false_r.
    + eapply (u64_count_grows _ _ _ k s); [done|done|apply Hpre|]. unfold is_out_active, is_plain_active. cbn.
      destruct (proj1 Hact eq_refl) as [Hf|Hlim]; [by rewrite Hf|].
      destruct (s_inbound s); [by rewrite andb_false_r|done].
  - destruct (if s_inbound s then _ else _) as [b|]; [|done]. cbn [mbind option_bind]. intros Heq.
    assert (slots st' = slots st /\ counts st' = counts st /\ Activate k ∉ acts) as (Hs' & Hc' & Hna).
    { destruct (s_inbound s).
      - destruct (redirect seed k _) as [[st1 a]|] eqn:Hr; [|done]. apply redirect_keeps in Hr as (H1 & H2 & H3).
        simplify_eq/=. split_and!; [done|done|]. set_solver.
      - simplify_eq/=. split_and!; [done|done|set_solver]. }
    rewrite Hs', Hc'. split_and!; [naive_solver|lia|lia|naive_solver|done].
Qed.


(** ** Endpoint messages: what survives the filter *)

Definition selfs (l : list Endpoint) : list Endpoint := filter (fun e => hops e = 1) l.

Lemma preprocess_selfs remote neighbor acc l :
  Forall (fun e => 0 <= hops e) l ->
  (length (selfs acc) <= 1)%nat -> (neighbor = false -> selfs acc = []) ->
  Forall (fun e => host e = address remote) (selfs acc) ->
  let r := selfs (preprocess remote neighbor acc l) in
  (length r <= 1)%nat /\ Forall (fun e => host e = address remote) r.
Proof.
  intros Hl. revert neighbor acc. induction Hl as [|ep l Hep Hl IH]; intros neighbor acc H1 H2 H3; [done|].
  cbn [preprocess]. destruct (maxHops <? hops ep); [by apply IH|].
  destruct ((hops ep =? 0) && neighbor) eqn:Hself; [by apply IH|].
  set (ep' := if hops ep =? 0 then _ else ep).
  assert (Hskip : neighbor || (hops ep =? 0) = false -> selfs acc = []).
  { intros [? _]%orb_false_iff. auto. }
  destruct (is_valid_address (ep_address ep')); cbn [negb]; [|by apply IH].
  destruct (existsb _ acc); [by apply IH|].
  unfold selfs in *. destruct (Z.eqb_spec (hops ep) 0) as [H0|H0].
  - cbn [andb] in Hself. subst neighbor. rewrite (H2 eq_refl) in *. subst ep'.
    apply IH; rewrite filter_app, (H2 eq_refl), filter_cons, decide_True by done;
      [cbn; lia|done|by apply Forall_singleton].
  - subst ep'. apply IH; rewrite filter_app, filter_cons, decide_False, app_nil_r by (cbn; lia); [done| |done].
    rewrite orb_false_r. done.
Qed.

(** The endpoint filter.  Of a message with non-negative hops, [preprocess]
    keeps entries whose address is valid (public, with a port) and occurs once,
    stores them one hop further and never beyond [maxHops + 1]; at most one of
    them describes the sender, and that one carries the address seen on the
    socket. *)
Theorem preprocess_sound (remote : IPEndpoint) (l : list Endpoint) :
  Forall (fun e => 0 <= hops e) l ->
  let r := preprocess remote false [] l in
  Forall (fun e => 1 <= hops e <= maxHops + 1 /\ is_valid_address (ep_address e) = true) r /\
  NoDup (map ep_address r) /\
  (length (filter (fun e => (hops e = 1)%Z) r) <= 1)%nat /\
  Forall (fun e => hops e = 1 -> host e = address remote) r.
Proof.
  intros Hl r. destruct (preprocess_ok remote false [] l Hl) as [H1 H2]; [constructor|constructor|].
  destruct (preprocess_selfs remote false [] l Hl) as [H3 H4]; [cbn; lia|done|constructor|].
  split_and!; [done|done|done|]. apply Forall_forall. intros e He H.
  eapply Forall_forall in H4; [exact H4|]. by apply list_elem_of_filter.
Qed.

Lemma preprocess_sound_witness :
  let l := [ex_ep 134744072 0; ex_ep 134744073 0; ex_ep 134744074 6; ex_ep 134744074 2; ex_ep 134744075 7;
            ex_ep 167772161 1] in
  let r := preprocess (MkIP 134743044 51234) false [] l in
  length r = 2%nat /\
  Forall (fun e => 1 <= hops e <= maxHops + 1 /\ is_valid_address (ep_address e) = true) r /\
  NoDup (map ep_address r) /\
  (length (filter (fun e => (hops e = 1)%Z) r) <= 1)%nat /\
  Forall (fun e => hops e = 1 -> host e = 134743044) r.
Proof.
  split; [vm_compute; reflexivity|].
  apply (preprocess_sound (MkIP 134743044 51234)). by_decide.
Defined.

(** ** A run *)

#[export] Instance client_ok_dec o s : Decision (client_ok o s).
Proof. unfold client_ok, boot_room. destruct o; repeat case_match; apply _. Defined.

Fixpoint run (cfg : Config) `{SH : Shuffler} (os : list op) (s : Sys) : option Sys :=
  match os with
  | [] => Some s
  | o :: os => if decide (client_ok o s) then '(s', _) ← exec cfg o s; run cfg os s' else None
  end.

Lemma run_reaches cfg `{SH : Shuffler} os s s' : run cfg os s = Some s' -> rtc (step cfg) s s'.
Proof.
  revert s. induction os as [|o os IH]; intros s; cbn [run]; [by intros [= ->]|].
  destruct (decide (client_ok o s)); [|done]. destruct (exec cfg o s) as [[s1 acts]|] eqn:E; [|done].
  cbn [mbind option_bind]. intros Hr. eapply rtc_l; [|by apply IH]. exists o, acts. by rewrite <- client_ok_iff.
Qed.

#[local] Instance id_shuffler : Shuffler := {| random_shuffle A _ l := l; random_shuffle_perm A _ l := reflexivity l |}.

Definition ex_cfg : Config := MkConfig false 21 3 false 51234.
Definition ex_peer (n : Z) : IPEndpoint := MkIP (134744072 + n) 6561.
Definition ex_self : IPEndpoint := MkIP 134743044 51234.

(** An inbound peer connects and sends its endpoints, a fixed one is dialled and
    closed again. *)
Definition ex_ops : list op :=
  [OpAddFixed [ex_peer 1]; OpInbound ex_self (ex_peer 2); OpHandshake 0 (ex_peer 2) [1] false;
   OpEndpoints (ex_peer 2) [MkEndpoint 0 (ex_peer 2); MkEndpoint 1 (ex_peer 3)];
   OpCheck (ex_peer 2) (Checked true); OpTick 6; OpPeriodic false 0;
   OpConnected (ex_peer 1) (MkIP 134743044 40000); OpHandshake 0 (ex_peer 1) [2] false;
   OpEndpoints (ex_peer 2) [MkEndpoint 0 (ex_peer 2)]; OpTick 6; OpPeriodic false 1; OpClosed (ex_peer 1)].

Definition ex_sys : Sys := default (init ex_cfg 100 true) (run ex_cfg ex_ops (init ex_cfg 100 true)).

Lemma ex_sys_reached : rtc (step ex_cfg) (init ex_cfg 100 true) ex_sys.
Proof. apply (run_reaches ex_cfg ex_ops). by vm_compute. Qed.


Lemma ex_inv : Inv (clock ex_sys) (logic ex_sys).
Proof. exact (reach_inv ex_cfg _ _ (init_inv ex_cfg 100 true) ex_sys_reached). Qed.

Lemma autoconnect_sound_witness :
  exists st' acts, autoconnect ex_cfg 200 0 (logic ex_sys) = Some (st', acts) /\
    slots st' = slots (logic ex_sys) /\ counts st' = counts (logic ex_sys) /\
    Forall (fun a => exists l, a = Connect l /\ Z.of_nat (length l) <= attempts_needed (counts (logic ex_sys)) /\
      Forall (fun e => forall k s, slots (logic ex_sys) !! k = Some s -> address k <> address e) l) acts.
Proof.
  apply (autoconnect_sound ex_cfg 200 0 (logic ex_sys)).
  apply (inv_later (clock ex_sys)); [exact ex_inv|by vm_compute].
Defined.


(** A peer waiting for its handshake, and what the handshake leads to. *)
Definition ex_wait : Sys :=
  default ex_sys (run ex_cfg (ex_ops ++ [OpInbound ex_self (ex_peer 7)]) (init ex_cfg 100 true)).

Definition ex_slot : Slot := new_inbound ex_self (ex_peer 7) false.

Definition ex_after : State :=
  default (logic ex_wait) (fst <$> on_handshake ex_cfg 112 0 (ex_peer 7) [7] true (logic ex_wait)).

Lemma ex_wait_inv : Inv 112 (logic ex_wait).
Proof.
  assert (Hr : rtc (step ex_cfg) (init ex_cfg 100 true) ex_wait).
  { apply (run_reaches ex_cfg (ex_ops ++ [OpInbound ex_self (ex_peer 7)])). by vm_compute. }
  exact (reach_inv ex_cfg _ _ (init_inv ex_cfg 100 true) Hr).
Qed.

Lemma admission_control_witness :
  let st := logic ex_wait in
  let acts := [Activate (ex_peer 7)] in
  (Activate (ex_peer 7) ∈ acts <->
     [7] ∉ keys st /\ (s_fixed ex_slot = true \/ m_in_active (counts st) < m_in_max (counts st))) /\
  m_in_active (counts ex_after) <= Z.max (m_in_active (counts st)) (m_in_max (counts st)) /\
  m_out_active (counts ex_after) <= Z.max (m_out_active (counts st)) 21 /\
  (Activate (ex_peer 7) ∈ acts -> slots ex_after = <[ex_peer 7 := activated 112 [7] true ex_slot]> (slots st)) /\
  (Activate (ex_peer 7) ∉ acts -> slots ex_after = slots st /\ counts ex_after = counts st).
Proof.
  apply (admission_control ex_cfg 112 0 (logic ex_wait) ex_after (ex_peer 7) ex_slot [7] true
           [Activate (ex_peer 7)] ex_wait_inv); vm_compute; reflexivity.
Defined.

(** ** Inputs that break the logic *)

(** The hops of a message are an [uint32] read into an [int]; only the upper
    limit is tested.  Hops of [2^32 - 5] pass the filter and index the hop lists
    at [-4]. *)
Lemma negative_hops_out_of_bounds :
  exists l, recvEndpoints (ex_peer 2) [MkTM 0 6561 4294967291] = Some l /\
    on_endpoints 112 (ex_peer 2) l (logic ex_sys) = None.
Proof. eexists. split; [by vm_compute|by vm_compute]. Qed.

(** A check that completes after its connection closed dereferences the end of
    the slot table, although the next lines handle that case. *)
Lemma check_after_close :
  slots (logic ex_sys) !! ex_peer 9 = None /\
  checkComplete 112 (ex_peer 9) (Checked true) (logic ex_sys) = None.
Proof. by vm_compute. Qed.

Definition ex_full_cfg : Config := MkConfig false 3 3 false 51234.

(** Cluster connections are exempt from the limits in [can_activate], but the flag
    is stored after the test: a cluster peer is turned away when the server is
    full. *)
Lemma cluster_peer_refused :
  let st := default (initial ex_full_cfg 0 false)
              (snd <$> new_inbound_slot ex_self (ex_peer 1) (initial ex_full_cfg 0 false)) in
  snd <$> on_handshake ex_full_cfg 0 0 (ex_peer 1) [1] true st = Some [Disconnect (ex_peer 1) true] /\
  can_activate ex_full_cfg (set_key [1] true (new_inbound ex_self (ex_peer 1) false)) (counts st) = Some true.
Proof. by vm_compute. Qed.

(** A reserve above the peer limit makes the number of inbound slots wrap. *)
Lemma inbound_slots_wrap :
  m_in_max (onConfig (MkConfig false 2 3 false 51234) empty_counts) = 4294967295.
Proof. done. Qed.

End PeerSlots.
