(* ===== verification/RangeSet.v ===== *)
(** * RangeSet: a sparse set of 32-bit integers

    [src/src/ripple_basics/containers/RangeSet.h] and [.cpp].  The server keeps
    the sequence numbers of the ledgers it holds in such a set.  The C++ object
    is one [std::map] from the first to the last value of each closed range; it
    is the list of its entries in key order here, with the map's own [operator[]]
    and [erase].  The queries scan the map forwards or backwards as the source
    does; [setRange] is a [while] loop and carries fuel, shown to suffice.

    The abstract object is a finite set of integers, with the operations the header
    file documents.  [rangeset_refines] relates every sequence of updates to it:
    nothing is ever held that was not added, and everything that was added is held
    unless [setRange] was asked for a range of which only the last value was
    missing ([overlooked], [setRange_drops_last]).  [range_queries] gives the
    meaning of the observers; [getPrev] is right away from the set only ([getPrev_outside]),
    and [getPrev_wrong] shows what it does elsewhere. *)
From Stdlib Require Import ZArith Lia.
From stdpp Require Import base numbers list gmap sets.
From S2P Require Import Prelude.
Local Open Scope Z_scope.

Module RangeSet.

(** ** The object *)

(** [std::map <std::uint32_t, std::uint32_t>]: first value to last value, in
    increasing order of the first. *)
Abbreviation Ranges := (list (Z * Z)).

(** [absent]: the largest 32-bit value stands for no value. *)
Definition absent : Z := u32 (-1).

Definition contains (it : Z * Z) (v : Z) : bool := (it.1 <=? v) && (it.2 >=? v).

(** [mRanges[k] = v]. *)
Fixpoint map_set (k v : Z) (m : Ranges) : Ranges :=
  match m with
  | [] => [(k, v)]
  | it :: rest =>
      if k <? it.1 then (k, v) :: m
      else if k =? it.1 then (k, v) :: rest
      else it :: map_set k v rest
  end.

(** [mRanges.erase]. *)
Fixpoint map_erase (k : Z) (m : Ranges) : Ranges :=
  match m with
  | [] => []
  | it :: rest => if it.1 =? k then rest else it :: map_erase k rest
  end.

(** ** Queries *)

Definition hasValue (m : Ranges) (v : Z) : bool := existsb (fun it => contains it v) m.

Definition getFirst (m : Ranges) : Z :=
  match m with
  | [] => absent
  | it :: _ => it.1
  end.

Fixpoint getNext (m : Ranges) (v : Z) : Z :=
  match m with
  | [] => absent
  | it :: rest =>
      if it.1 >? v then it.1
      else if contains it (u32 (v + 1)) then u32 (v + 1)
      else getNext rest v
  end.

Definition getLast (m : Ranges) : Z :=
  match reverse m with
  | [] => absent
  | it :: _ => it.2
  end.

Fixpoint getPrev_loop (rm : Ranges) (v : Z) : Z :=
  match rm with
  | [] => absent
  | it :: rest =>
      if it.2 <? v then it.2
      else if contains it (u32 (v + 1)) then u32 (v - 1)
      else getPrev_loop rest v
  end.

Definition getPrev (m : Ranges) (v : Z) : Z := getPrev_loop (reverse m) v.

Definition prevMissing (m : Ranges) (v : Z) : Z :=
  if negb (v =? 0) then
    let result := u32 (v - 1) in
    match find (fun cur => contains cur result) (reverse m) with
    | Some cur => u32 (cur.1 - 1)
    | None => result
    end
  else absent.

(** ** Updates *)

(** The loop of [simplify] from the entry [it], the entries after it in [rest]. *)
Fixpoint simplify_from (it : Z * Z) (rest : Ranges) : Ranges :=
  match rest with
  | [] => [it]
  | nit :: rest =>
      if it.2 >=? u32 (nit.1 - 1) then simplify_from (it.1, Z.max it.2 nit.2) rest
      else it :: simplify_from nit rest
  end.

(** [simplify] steps past [begin] before it tests for the end: it is called on a
    map with an entry only. *)
Definition simplify (m : Ranges) : option Ranges :=
  match m with
  | [] => None
  | it :: rest => Some (simplify_from it rest)
  end.

Definition setValue (v : Z) (m : Ranges) : option Ranges :=
  if negb (hasValue m v) then simplify (map_set v v m) else Some m.

(** The [while] of [setRange]: the value of [minV] it ends with, or [None] for
    the early return; the outer [None] is fuel running out. *)
Fixpoint setRange_loop (fuel : nat) (m : Ranges) (minV maxV : Z) : option (option Z) :=
  match fuel with
  | O => None
  | S fuel =>
      if hasValue m minV then
        let minV := u32 (minV + 1) in
        if minV >=? maxV then Some None else setRange_loop fuel m minV maxV
      else Some (Some minV)
  end.

Definition setRange_fuel (maxV : Z) : nat := S (S (Z.to_nat maxV)).

Definition setRange (minV maxV : Z) (m : Ranges) : option Ranges :=
  o ← setRange_loop (setRange_fuel maxV) m minV maxV;
  match o with
  | None => Some m
  | Some minV => simplify (map_set minV maxV m)
  end.

Definition clearValue (v : Z) (m : Ranges) : Ranges :=
  match find (fun it => contains it v) m with
  | None => m
  | Some it =>
      if it.1 =? v then
        if it.2 =? v then map_erase it.1 m
        else map_set (u32 (v + 1)) it.2 (map_erase it.1 m)
      else if it.2 =? v then map_set it.1 (u32 (it.2 - 1)) m
      else map_set (u32 (v + 1)) it.2 (map_set it.1 (u32 (v - 1)) m)
  end.

(** [checkInternalConsistency]: what the debug build asserts of the map. *)
Fixpoint consistent_from (cur : Z * Z) (rest : Ranges) : bool :=
  match rest with
  | [] => true
  | next :: rest =>
      (cur.1 <=? cur.2) && (next.1 <=? next.2) && (u32 (cur.2 + 1) <? next.1) && consistent_from next rest
  end.

Definition checkInternalConsistency (m : Ranges) : bool :=
  match m with
  | [] => true
  | [it] => it.1 <=? it.2
  | cur :: rest => consistent_from cur rest
  end.

(** ** Shape *)

(** Ranges that start at [lo] or later, in order, with a gap between any two. *)
Fixpoint ranges_from (lo : Z) (m : Ranges) : Prop :=
  match m with
  | [] => True
  | it :: rest => lo <= it.1 /\ it.1 <= it.2 < absent /\ ranges_from (it.2 + 2) rest
  end.

(** Ranges in order of their first value, possibly overlapping: what [simplify]
    is given. *)
Fixpoint starts_from (lo : Z) (m : Ranges) : Prop :=
  match m with
  | [] => True
  | it :: rest => lo <= it.1 /\ it.1 <= it.2 < absent /\ starts_from (it.1 + 1) rest
  end.

Definition wf (m : Ranges) : Prop := ranges_from 0 m.

Abbreviation within a x b := (a <= x <= b).

Lemma absent_val : absent = 4294967295.
Proof. reflexivity. Qed.

Lemma contains_spec it v : contains it v = true <-> within it.1 v it.2.
Proof. unfold contains. rewrite andb_true_iff, Z.geb_leb, !Z.leb_le. lia. Qed.

Lemma hasValue_cons it m v : hasValue (it :: m) v = true <-> within it.1 v it.2 \/ hasValue m v = true.
Proof. unfold hasValue. cbn [existsb]. by rewrite orb_true_iff, contains_spec. Qed.

Lemma hasValue_cons_false it m v :
  hasValue (it :: m) v = false <-> ~ within it.1 v it.2 /\ hasValue m v = false.
Proof. rewrite <- !not_true_iff_false, hasValue_cons. tauto. Qed.

Lemma ranges_starts lo lo' m : lo' <= lo -> ranges_from lo m -> starts_from lo' m.
Proof.
  revert lo lo'. induction m as [|it m IH]; intros lo lo' Hlo; [done|]. cbn.
  intros (? & ? & H). split_and!; try lia. eapply IH, H. lia.
Qed.

Lemma ranges_weaken lo lo' m : lo' <= lo -> ranges_from lo m -> ranges_from lo' m.
Proof. destruct m; cbn; [done|]. intros. intuition lia. Qed.

Lemma starts_weaken lo lo' m : lo' <= lo -> starts_from lo m -> starts_from lo' m.
Proof. destruct m; cbn; [done|]. intros. intuition lia. Qed.

Lemma ranges_above lo m v : ranges_from lo m -> hasValue m v = true -> lo <= v < absent.
Proof.
  revert lo. induction m as [|it m IH]; intros lo; [done|].
  cbn [ranges_from]. rewrite hasValue_cons. intros (? & ? & Hm) [?|?]; [lia|].
  pose proof (IH _ Hm H1). lia.
Qed.

Lemma ranges_below lo m v : ranges_from lo m -> v < lo -> hasValue m v = false.
Proof.
  intros Hm Hv. destruct (hasValue m v) eqn:E; [|done]. pose proof (ranges_above _ _ _ Hm E). lia.
Qed.

(** ** What the map operations do to the set *)

Lemma map_set_starts lo k v m :
  starts_from lo m -> lo <= k -> k <= v < absent -> starts_from lo (map_set k v m).
Proof.
  revert lo. induction m as [|it m IH]; intros lo Hm Hk Hv; cbn in *; [lia|].
  destruct Hm as (? & ? & Hm). destruct (Z.ltb_spec k it.1); [cbn; intuition lia|].
  destruct (Z.eqb_spec k it.1) as [->|]; cbn; [intuition lia|].
  split_and!; try lia. apply IH; [done|lia|lia].
Qed.

Lemma map_set_mem lo k v m x :
  starts_from lo m -> hasValue m k = false ->
  hasValue (map_set k v m) x = true <-> within k x v \/ hasValue m x = true.
Proof.
  revert lo. induction m as [|it m IH]; intros lo; [intros _ _; cbn [map_set]; by rewrite hasValue_cons|].
  cbn [starts_from map_set]. intros (? & ? & Hm) [Hk Hkm]%hasValue_cons_false.
  destruct (Z.ltb_spec k it.1); [by rewrite (hasValue_cons (k, v))|].
  destruct (Z.eqb_spec k it.1); [lia|].
  rewrite !(hasValue_cons it), (IH _ Hm Hkm). tauto.
Qed.

Lemma map_set_nonempty k v m : exists it rest, map_set k v m = it :: rest.
Proof. destruct m; cbn; [eauto|]. repeat case_match; eauto. Qed.

(** Merging leaves the values as they are and separates the ranges. *)
Lemma simplify_from_ok lo it rest :
  0 <= lo <= it.1 -> it.1 <= it.2 < absent -> starts_from (it.1 + 1) rest ->
  ranges_from lo (simplify_from it rest) /\
  (forall x, hasValue (simplify_from it rest) x = true <-> hasValue (it :: rest) x = true).
Proof.
  revert lo it. induction rest as [|nit rest IH]; intros lo it Hlo Hit Hrest; cbn [simplify_from].
  - split; [cbn; lia|done].
  - cbn [starts_from] in Hrest. destruct Hrest as (Hn1 & Hn2 & Hrest).
    rewrite absent_val in *. rewrite u32_id, Z.geb_leb by lia. destruct (Z.leb_spec (nit.1 - 1) it.2).
    + destruct (IH lo (it.1, Z.max it.2 nit.2)) as [IHr IHm]; cbn [fst snd]; try rewrite absent_val; try lia.
      { eapply starts_weaken, Hrest. lia. }
      split; [done|]. intros x. rewrite IHm, !hasValue_cons. cbn [fst snd]. intuition lia.
    + destruct (IH (it.2 + 2) nit) as [IHr IHm]; try rewrite absent_val; try lia; [done|].
      split; [cbn [ranges_from]; rewrite absent_val; intuition lia|].
      intros x. rewrite (hasValue_cons it _ x), IHm. by rewrite (hasValue_cons it _ x).
Qed.

(** Adding a closed range whose first value is new, and merging. *)
Lemma add_range_ok k v m :
  wf m -> hasValue m k = false -> 0 <= k -> k <= v < absent ->
  exists m', simplify (map_set k v m) = Some m' /\ wf m' /\
    forall x, hasValue m' x = true <-> within k x v \/ hasValue m x = true.
Proof.
  intros Hm Hk Hk0 Hv.
  assert (Hs : starts_from 0 m) by (by apply (ranges_starts 0)).
  pose proof (map_set_starts 0 k v m Hs Hk0 Hv) as Hs'.
  pose proof (fun x => map_set_mem 0 k v m x Hs Hk) as Hmem.
  destruct (map_set_nonempty k v m) as (it & rest & E). rewrite E in *. cbn [starts_from] in Hs'.
  destruct (simplify_from_ok 0 it rest) as [Hr Hx]; [lia|lia|apply Hs'|].
  eexists. split_and!; [done|done|]. intros x. by rewrite Hx.
Qed.

Lemma setValue_ok v m :
  wf m -> 0 <= v < absent ->
  exists m', setValue v m = Some m' /\ wf m' /\
    forall x, hasValue m' x = true <-> x = v \/ hasValue m x = true.
Proof.
  intros Hm Hv. unfold setValue. destruct (hasValue m v) eqn:E; cbn [negb].
  - exists m. split_and!; [done|done|]. intros x. split; [auto|]. by intros [-> |].
  - destruct (add_range_ok v v m Hm E) as (m' & -> & Hm' & Hx); [lia|lia|].
    exists m'. split_and!; [done|done|]. intros x. rewrite Hx. intuition lia.
Qed.

(** *** [setRange] *)

(** With [n] values left below [maxV], the loop ends at the first missing value
    of [[minV, maxV)], at [maxV] itself when [minV] starts there, or returns. *)
Lemma setRange_loop_ok m maxV n fuel minV :
  (n < fuel)%nat -> Z.of_nat n = Z.max 0 (maxV - minV) -> 0 <= minV <= maxV -> maxV < absent ->
  exists o, setRange_loop fuel m minV maxV = Some o /\
  match o with
  | Some k => minV <= k < Z.max maxV (minV + 1) /\ hasValue m k = false /\
              (forall x, minV <= x < k -> hasValue m x = true)
  | None => hasValue m minV = true /\ forall x, minV <= x < maxV -> hasValue m x = true
  end.
Proof.
  revert fuel minV. induction n as [|n IH]; intros fuel minV Hf Hn Hmin Hmax;
    (destruct fuel as [|fuel]; [lia|]); cbn [setRange_loop]; destruct (hasValue m minV) eqn:E;
    try (eexists; split; [done|]; cbn; split_and!; [lia|lia|done|intros ? ?; lia]);
    rewrite absent_val in *; rewrite u32_id, Z.geb_leb by lia.
  - rewrite (proj2 (Z.leb_le _ _)) by lia. eexists. split; [done|]. split; [done|]. intros; lia.
  - destruct (Z.leb_spec maxV (minV + 1)).
    + eexists. split; [done|]. split; [done|]. intros x Hx. by replace x with minV by lia.
    + destruct (IH fuel (minV + 1)) as (o & -> & Ho); [lia..|]. eexists. split; [done|].
      assert (Hx : forall x, x = minV -> hasValue m x = true) by (by intros x ->).
      destruct o as [k|].
      * destruct Ho as (? & ? & Ho). split_and!; [lia|lia|done|]. intros x ?.
        destruct (decide (x = minV)); [auto|apply Ho; lia].
      * destruct Ho as (? & Ho). split; [done|]. intros x ?.
        destruct (decide (x = minV)); [auto|apply Ho; lia].
Qed.

(** The updates a client asks for: the range is added, except that nothing
    happens when every value of it but the last is already there. *)
Lemma setRange_ok minV maxV m :
  wf m -> 0 <= minV <= maxV -> maxV < absent ->
  exists m', setRange minV maxV m = Some m' /\ wf m' /\
    ((minV < maxV /\ (forall x, minV <= x < maxV -> hasValue m x = true) /\ m' = m) \/
     (~ (minV < maxV /\ forall x, minV <= x < maxV -> hasValue m x = true) /\
      forall x, hasValue m' x = true <-> within minV x maxV \/ hasValue m x = true)).
Proof.
  intros Hm Hmin Hmax. unfold setRange.
  destruct (setRange_loop_ok m maxV (Z.to_nat (maxV - minV)) (setRange_fuel maxV) minV) as (o & -> & Ho);
    [unfold setRange_fuel; lia|lia|lia|lia|].
  cbn [mbind option_bind]. destruct o as [k|].
  - destruct Ho as (Hk & Hkm & Hbelow).
    destruct (add_range_ok k maxV m Hm Hkm) as (m' & -> & Hm' & Hx); [lia|lia|].
    exists m'. split_and!; [done|done|]. right. split.
    + intros [Hlt Hall]. rewrite Hall in Hkm by lia. done.
    + intros x. rewrite Hx. split; [intros [?|?]; [left; lia|auto]|].
      intros [?|?]; [|auto]. destruct (decide (x < k)); [right; apply Hbelow; lia|left; lia].
  - destruct Ho as (Hk & Hall). exists m. split_and!; [done|done|].
    destruct (decide (minV < maxV)); [by left|]. right. split; [lia|]. intros x.
    split; [auto|]. intros [?|?]; [|done]. by replace x with minV by lia.
Qed.

(** The fuel suffices for any two 32-bit arguments on any map, also when the
    arguments are inverted or [minV] wraps around. *)
Lemma setRange_loop_total m fuel minV maxV :
  0 <= minV -> maxV - minV < Z.of_nat fuel -> minV <= maxV < absent \/ (maxV < minV < absent /\ (0 < fuel)%nat) ->
  setRange_loop fuel m minV maxV <> None.
Proof.
  revert minV. induction fuel as [|fuel IH]; intros minV H0 Hf Hm; [lia|]. cbn [setRange_loop].
  destruct (hasValue m minV); [|done]. rewrite absent_val in *. rewrite u32_id, Z.geb_leb by lia.
  destruct (Z.leb_spec maxV (minV + 1)); [done|]. apply IH; lia.
Qed.

Lemma setRange_terminates minV maxV m :
  0 <= minV <= absent -> 0 <= maxV < absent ->
  setRange_loop (setRange_fuel maxV) m minV maxV <> None.
Proof.
  intros Hmin Hmax. unfold setRange_fuel. destruct (decide (minV = absent)) as [->|].
  - remember (S (Z.to_nat maxV)) as n eqn:Hn. cbn [setRange_loop]. destruct (hasValue m absent); [|done].
    change (u32 (absent + 1)) with 0. destruct (0 >=? maxV); [done|].
    apply setRange_loop_total; lia.
  - apply setRange_loop_total; lia.
Qed.

(** *** [clearValue] *)

Lemma map_set_head k v lo m : ranges_from lo m -> k < lo -> map_set k v m = (k, v) :: m.
Proof. destruct m as [|it m]; [done|]. cbn. intros (? & _) ?. by rewrite (proj2 (Z.ltb_lt _ _)) by lia. Qed.

Lemma map_set_past k v it m : it.1 < k -> map_set k v (it :: m) = it :: map_set k v m.
Proof. intros. cbn. rewrite (proj2 (Z.ltb_ge _ _)), (proj2 (Z.eqb_neq _ _)) by lia. done. Qed.

Lemma map_erase_past k it m : it.1 < k -> map_erase k (it :: m) = it :: map_erase k m.
Proof. intros. cbn. by rewrite (proj2 (Z.eqb_neq _ _)) by lia. Qed.

Lemma find_range lo m v it :
  ranges_from lo m -> find (fun it => contains it v) m = Some it -> lo <= it.1 /\ within it.1 v it.2.
Proof.
  revert lo. induction m as [|it' m IH]; intros lo; [done|]. cbn [find ranges_from].
  intros (? & ? & Hm). destruct (contains it' v) eqn:E.
  - intros [= <-]. apply contains_spec in E. lia.
  - intros Hf. apply (IH _ Hm) in Hf. lia.
Qed.

Lemma find_hasValue m v it : find (fun it => contains it v) m = Some it -> hasValue m v = true.
Proof. intros [Hin Hc]%find_some. apply existsb_exists. by exists it. Qed.

(** The range that holds [v] is not the first: the first stays. *)
Lemma clearValue_past v it m lo :
  0 <= lo -> ranges_from lo (it :: m) -> contains it v = false -> clearValue v (it :: m) = it :: clearValue v m.
Proof.
  cbn [ranges_from]. intros Hlo (? & ? & Hm) E. unfold clearValue. cbn [find]. rewrite E.
  destruct (find _ m) as [r|] eqn:F; [|done]. destruct (find_range _ _ _ _ Hm F) as [Hr Hv].
  assert (Hb : v < absent) by (eapply ranges_above, find_hasValue, F; exact Hm).
  rewrite absent_val in Hb. rewrite (u32_id (v + 1)) by lia.
  repeat case_match; rewrite ?map_erase_past, ?map_set_past by lia; done.
Qed.

Lemma clearValue_ok lo v m :
  0 <= lo -> ranges_from lo m ->
  ranges_from lo (clearValue v m) /\
  forall x, hasValue (clearValue v m) x = true <-> x <> v /\ hasValue m x = true.
Proof.
  revert lo. induction m as [|[a b] m IH]; intros lo Hlo Hm; [cbn; split; [done|]; intros x; split; [done|by intros [_ ?]]|].
  destruct (contains (a, b) v) eqn:E.
  - apply contains_spec in E. cbn [ranges_from fst snd] in Hm, E. destruct Hm as (Ha & Hab & Hm).
    assert (Hge : forall x, hasValue m x = true -> b + 2 <= x) by (intros x Hx; eapply ranges_above; done).
    unfold clearValue. cbn [find]. rewrite (proj2 (contains_spec (a, b) v)) by done.
    cbn [fst snd map_erase]. rewrite Z.eqb_refl. rewrite absent_val in *.
    assert (Hset : forall w, map_set a w ((a, b) :: m) = (a, w) :: m).
    { intros w. cbn [map_set fst]. by rewrite Z.ltb_irrefl, Z.eqb_refl. }
    rewrite !Hset.
    destruct (Z.eqb_spec a v) as [->|], (Z.eqb_spec b v) as [->|]; rewrite ?u32_id by lia.
    + split; [eapply ranges_weaken, Hm; lia|]. intros x. rewrite hasValue_cons. cbn. split; [|intuition lia].
      intros Hx. specialize (Hge x Hx). split; [lia|auto].
    + rewrite (map_set_head _ _ (b + 2)) by (done || lia).
      split; [cbn [ranges_from fst snd]; rewrite absent_val; intuition lia|]. intros x.
      rewrite !hasValue_cons. cbn [fst snd]. specialize (Hge x). intuition lia.
    + split; [cbn [ranges_from fst snd]; rewrite absent_val; split_and!; try lia; eapply ranges_weaken, Hm; lia|].
      intros x. rewrite !hasValue_cons. cbn [fst snd]. specialize (Hge x). intuition lia.
    + rewrite map_set_past, (map_set_head _ _ (b + 2)) by (done || cbn; lia).
      split; [cbn [ranges_from fst snd]; rewrite absent_val; intuition lia|]. intros x.
      rewrite !hasValue_cons. cbn [fst snd]. specialize (Hge x). intuition lia.
  - rewrite (clearValue_past _ _ _ lo) by done. apply not_true_iff_false in E. rewrite contains_spec in E.
    destruct Hm as (Ha & Hab & Hm). cbn [fst snd] in *.
    destruct (IH (b + 2) ltac:(lia) Hm) as [IHr IHm].
    split; [cbn; intuition lia|]. intros x. rewrite !hasValue_cons, IHm. cbn [fst snd]. intuition lia.
Qed.

(** ** What the queries answer *)

(** [res] is the least value with [P], or [absent] when there is none. *)
Definition least (P : Z -> Prop) (res : Z) : Prop :=
  (res = absent /\ forall x, ~ P x) \/ (P res /\ forall x, P x -> res <= x).

(** [res] is the greatest value with [P], or [absent] when there is none. *)
Definition greatest (P : Z -> Prop) (res : Z) : Prop :=
  (res = absent /\ forall x, ~ P x) \/ (P res /\ forall x, P x -> x <= res).

Lemma getNext_ok lo m v :
  ranges_from lo m -> 0 <= v < absent ->
  least (fun x => hasValue m x = true /\ v < x) (getNext m v).
Proof.
  revert lo. induction m as [|it m IH]; intros lo Hm Hv; cbn [getNext].
  { left. split; [done|]. intros x [? ?]. done. }
  cbn [ranges_from] in Hm. destruct Hm as (? & ? & Hm).
  assert (Hge : forall x, hasValue m x = true -> it.2 + 2 <= x) by (intros x Hx; eapply ranges_above; done).
  rewrite Z.gtb_ltb. destruct (Z.ltb_spec v it.1).
  { right. rewrite hasValue_cons. split; [lia|]. intros x [[?|Hx]%hasValue_cons ?]; [lia|]. specialize (Hge x Hx). lia. }
  rewrite absent_val in Hv. rewrite u32_id by lia. destruct (contains it (v + 1)) eqn:E.
  { apply contains_spec in E. right. rewrite hasValue_cons. split; [lia|]. intros x ?. lia. }
  apply not_true_iff_false in E. rewrite contains_spec in E.
  destruct (IH _ Hm) as [[-> Hn]|[[Hin Hlt] Hle]]; [rewrite absent_val; lia| |].
  - left. split; [done|]. intros x [[?|Hx]%hasValue_cons ?]; [lia|]. by apply (Hn x).
  - right. rewrite hasValue_cons. split; [auto|]. intros x [[?|Hx]%hasValue_cons ?]; [lia|]. auto.
Qed.

Lemma getFirst_ok lo m : ranges_from lo m -> least (fun x => hasValue m x = true) (getFirst m).
Proof.
  destruct m as [|it m]; cbn [getFirst ranges_from].
  { intros _. left. split; [done|]. done. }
  intros (? & ? & Hm). right. rewrite hasValue_cons. split; [lia|]. intros x [?|Hx]%hasValue_cons; [lia|].
  pose proof (ranges_above _ _ _ Hm Hx). lia.
Qed.

Lemma hasValue_snoc m it v : hasValue (m ++ [it]) v = true <-> hasValue m v = true \/ within it.1 v it.2.
Proof. unfold hasValue. rewrite existsb_app, orb_true_iff. cbn. by rewrite orb_false_r, contains_spec. Qed.

Lemma ranges_snoc lo m it :
  ranges_from lo (m ++ [it]) ->
  ranges_from lo m /\ (forall x, hasValue m x = true -> x + 2 <= it.1) /\ lo <= it.1 <= it.2 /\ it.2 < absent.
Proof.
  revert lo. induction m as [|it' m IH]; intros lo; cbn [app ranges_from].
  - intros (? & ? & _). split_and!; try lia; done.
  - intros (? & ? & Hm). destruct (IH _ Hm) as (? & Hx & ?). split_and!; try lia; [done|].
    intros x [?|?]%hasValue_cons; [lia|auto].
Qed.

Lemma getLast_ok lo m : ranges_from lo m -> greatest (fun x => hasValue m x = true) (getLast m).
Proof.
  unfold getLast. destruct m as [|it m] using rev_ind; intros Hm.
  { left. split; [done|]. done. }
  rewrite reverse_snoc. apply ranges_snoc in Hm as (? & Hx & ?). right. rewrite hasValue_snoc.
  split; [lia|]. intros x [Hx'|?]%hasValue_snoc; [specialize (Hx x Hx')|]; lia.
Qed.

Lemma ranges_elem lo m it : ranges_from lo m -> it ∈ m -> lo <= it.1 <= it.2 /\ it.2 < absent.
Proof.
  revert lo. induction m as [|it' m IH]; intros lo Hm Hin; [by apply elem_of_nil in Hin|].
  cbn [ranges_from] in Hm. destruct Hm as (? & ? & Hm). apply elem_of_cons in Hin as [->|Hin]; [lia|].
  specialize (IH _ Hm Hin). lia.
Qed.

Lemma range_start_free lo m it :
  ranges_from lo m -> it ∈ m -> hasValue m (it.1 - 1) = false /\ (forall x, within it.1 x it.2 -> hasValue m x = true).
Proof.
  revert lo. induction m as [|it' m IH]; intros lo Hm Hin; [by apply elem_of_nil in Hin|].
  cbn [ranges_from] in Hm. destruct Hm as (? & ? & Hm). rewrite hasValue_cons_false.
  apply elem_of_cons in Hin as [->|Hin].
  - split; [|intros x Hx; apply hasValue_cons; auto]. split; [lia|]. eapply ranges_below; [done|lia].
  - destruct (IH _ Hm Hin) as [H1 H2]. split; [|intros x Hx; apply hasValue_cons; auto].
    pose proof (ranges_elem _ _ _ Hm Hin). split; [lia|done].
Qed.

Lemma prevMissing_ok m v :
  wf m -> 0 <= v < absent ->
  greatest (fun x => hasValue m x = false /\ 0 <= x < v) (prevMissing m v).
Proof.
  intros Hm Hv. unfold prevMissing. destruct (Z.eqb_spec v 0) as [->|]; cbn [negb].
  { left. split; [done|]. intros x [_ ?]. lia. }
  rewrite absent_val in Hv. rewrite (u32_id (v - 1)) by lia.
  destruct (find _ _) as [cur|] eqn:F.
  - apply find_some in F as [Hin Hc]. rewrite contains_spec in Hc.
    apply list_elem_of_In, elem_of_reverse in Hin. rewrite ?reverse_involutive in Hin.
    destruct (range_start_free _ _ _ Hm Hin) as [Hfree Hall].
    pose proof (ranges_above _ _ _ Hm (Hall cur.1 ltac:(lia))). destruct (decide (cur.1 = 0)) as [E|].
    + rewrite E in *. left. split; [done|]. intros x [Hx ?]. rewrite Hall in Hx by lia. done.
    + rewrite absent_val in *. rewrite u32_id by lia. right. split; [split; [done|lia]|]. intros x [Hx ?].
      destruct (decide (x <= cur.1 - 1)); [done|]. rewrite Hall in Hx by lia. done.
  - right. split; [split; [|lia]|intros; lia]. destruct (hasValue m (v - 1)) eqn:E; [|done].
    apply existsb_exists in E as (it & Hin & Hc). rewrite (find_none _ _ F it) in Hc; [done|].
    by apply list_elem_of_In, elem_of_reverse, list_elem_of_In.
Qed.

Lemma getPrev_outside m v :
  wf m -> 0 <= v < absent -> hasValue m v = false -> hasValue m (v + 1) = false ->
  greatest (fun x => hasValue m x = true /\ x < v) (getPrev m v).
Proof.
  unfold getPrev, wf. intros Hm Hv. induction m as [|it m IH] using rev_ind; intros H0 H1.
  { left. split; [done|]. intros x [? ?]. done. }
  rewrite reverse_snoc. cbn [getPrev_loop]. apply ranges_snoc in Hm as (Hm & Hx & Hit).
  apply not_true_iff_false in H0, H1. rewrite hasValue_snoc in H0, H1.
  rewrite absent_val in *. rewrite u32_id by lia. destruct (Z.ltb_spec it.2 v).
  { right. rewrite hasValue_snoc. split; [lia|]. intros x [[Hx'|?]%hasValue_snoc ?]; [specialize (Hx x Hx')|]; lia. }
  destruct (contains it (v + 1)) eqn:E; [apply contains_spec in E; tauto|].
  destruct IH as [[-> Hn]|[[Hin Hlt] Hle]]; [done|apply not_true_iff_false; tauto..| |].
  - left. split; [done|]. intros x [[?|?]%hasValue_snoc ?]; [by apply (Hn x)|]. lia.
  - right. rewrite hasValue_snoc. split; [tauto|]. intros x [[?|?]%hasValue_snoc ?]; [auto|]. lia.
Qed.

(** ** The abstract set *)

Inductive op : Type :=
| SetValue (v : Z)
| SetRange (minV maxV : Z)
| ClearValue (v : Z).

Definition op_ok (o : op) : Prop :=
  match o with
  | SetValue v | ClearValue v => 0 <= v < absent
  | SetRange minV maxV => 0 <= minV <= maxV /\ maxV < absent
  end.

Definition exec (o : op) (m : Ranges) : option Ranges :=
  match o with
  | SetValue v => setValue v m
  | SetRange minV maxV => setRange minV maxV m
  | ClearValue v => Some (clearValue v m)
  end.

Definition run (os : list op) (m : Ranges) : option Ranges :=
  foldl (fun s o => s ≫= exec o) (Some m) os.

Definition closed_range (a b : Z) : gset Z := list_to_set (seqZ a (b - a + 1)).

(** The operations as the header file documents them: an item is added to the set,
    a closed interval is added to the set, an item is removed. *)
Definition spec (s : gset Z) (o : op) : gset Z :=
  match o with
  | SetValue v => {[v]} ∪ s
  | SetRange minV maxV => closed_range minV maxV ∪ s
  | ClearValue v => s ∖ {[v]}
  end.

(** A range of which only the last value is missing. *)
Definition overlooked (s : gset Z) (o : op) : Prop :=
  match o with
  | SetRange minV maxV => minV < maxV /\ closed_range minV (maxV - 1) ⊆ s /\ maxV ∉ s
  | _ => False
  end.

#[export] Instance overlooked_dec s o : Decision (overlooked s o).
Proof. destruct o; cbn; apply _. Defined.

(** No call of the history is for such a range. *)
Fixpoint none_overlooked (s : gset Z) (os : list op) : Prop :=
  match os with
  | [] => True
  | o :: os => ~ overlooked s o /\ none_overlooked (spec s o) os
  end.

#[export] Instance none_overlooked_dec s os : Decision (none_overlooked s os).
Proof. revert s. induction os as [|o os IH]; intros s; cbn; apply _. Defined.

(** What the operations do: an overlooked call does nothing. *)
Definition effect (s : gset Z) (o : op) : gset Z := if decide (overlooked s o) then s else spec s o.

(** The map [m] stands for the set [s]. *)
Definition represents (m : Ranges) (s : gset Z) : Prop :=
  wf m /\ forall x, hasValue m x = true <-> x ∈ s.

Lemma elem_of_closed_range a b x : x ∈ closed_range a b <-> within a x b.
Proof. unfold closed_range. rewrite elem_of_list_to_set, elem_of_seqZ. lia. Qed.

Lemma exec_represents o m s :
  op_ok o -> represents m s -> exists m', exec o m = Some m' /\ represents m' (effect s o).
Proof.
  intros Hok [Hm Hs]. unfold effect. destruct o as [v|minV maxV|v]; cbn [op_ok exec spec overlooked] in *.
  - destruct (setValue_ok v m Hm Hok) as (m' & -> & Hm' & Hx). eexists. split; [done|]. split; [done|].
    intros x. rewrite decide_False by tauto. rewrite Hx, Hs. set_solver.
  - destruct (setRange_ok minV maxV m Hm) as (m' & -> & Hm' & Hx); [lia..|]. eexists. split; [done|]. split; [done|].
    assert (Hsub : closed_range minV (maxV - 1) ⊆ s <-> forall x, minV <= x < maxV -> hasValue m x = true).
    { split; intros H x Hx'; [apply Hs, H, elem_of_closed_range; lia|].
      apply Hs, H. apply elem_of_closed_range in Hx'. lia. }
    intros x. destruct (decide (minV < maxV /\ closed_range minV (maxV - 1) ⊆ s /\ maxV ∉ s)) as [Hd|Hd]; rewrite Hsub in Hd.
    + destruct Hx as [(_ & _ & ->)|[Hn _]]; [apply Hs|tauto].
    + rewrite elem_of_union, elem_of_closed_range, <- Hs. destruct Hx as [(Hlt & Hall & ->)|[_ Hx]]; [|apply Hx].
      split; [by right|]. intros [Hin|?]; [|done]. destruct (decide (x = maxV)) as [->|]; [|apply Hall; lia].
      apply Hs. destruct (decide (maxV ∈ s)); [done|tauto].
  - destruct (clearValue_ok 0 v m ltac:(lia) Hm) as [Hm' Hx]. eexists. split; [done|]. split; [done|].
    intros x. rewrite decide_False by tauto. rewrite Hx, Hs. set_solver.
Qed.

Lemma run_represents os m s :
  Forall op_ok os -> represents m s -> exists m', run os m = Some m' /\ represents m' (foldl effect s os).
Proof.
  intros Hok. revert m s. induction Hok as [|o os Ho _ IH]; intros m s Hm; [by exists m|].
  destruct (exec_represents o m s Ho Hm) as (m' & E & Hm'). unfold run. cbn [foldl mbind option_bind].
  rewrite E. by apply IH.
Qed.

Lemma empty_represents : represents [] ∅.
Proof. split; [done|]. intros x. cbn. set_solver. Qed.

Lemma wf_consistent m : wf m -> checkInternalConsistency m = true.
Proof.
  assert (H : forall m lo it, 0 <= lo -> ranges_from lo (it :: m) -> consistent_from it m = true).
  { clear m. induction m as [|n m IH]; intros lo it Hlo; [done|]. cbn [ranges_from consistent_from].
    intros (? & ? & ? & ? & Hm). rewrite (IH (it.2 + 2)) by (cbn [ranges_from]; intuition lia).
    rewrite absent_val in *. rewrite u32_id, !(proj2 (Z.leb_le _ _)), (proj2 (Z.ltb_lt _ _)) by lia. done. }
  intros Hm. destruct m as [|it [|n m]]; [done| |by apply (H _ 0)]. cbn in *. apply Z.leb_le. lia.
Qed.

(** What is held was asked for. *)
Lemma effect_sound os s s' : s ⊆ s' -> foldl effect s os ⊆ foldl spec s' os.
Proof.
  revert s s'. induction os as [|o os IH]; intros s s' Hs; [done|]. cbn [foldl]. apply IH. unfold effect.
  destruct (decide (overlooked s o)); destruct o; cbn [spec overlooked] in *; set_solver.
Qed.

Lemma effect_complete os s : none_overlooked s os -> foldl effect s os = foldl spec s os.
Proof.
  revert s. induction os as [|o os IH]; intros s; [done|]. cbn [foldl none_overlooked]. intros [Ho Hos].
  assert (effect s o = spec s o) as -> by (unfold effect; by rewrite decide_False). by apply IH.
Qed.

(** C22: RangeSet implements a set of integers, as its header file documents it.
    Any sequence of [setValue], [setRange] and [clearValue] calls on 32-bit values
    below [absent], started on the empty object, returns; the map it leaves passes
    [checkInternalConsistency] and holds no value that is not in the set the same
    calls build by adding items, adding closed intervals and removing items; and it
    holds exactly the values of that set unless some [setRange] was asked for a
    range of which only the last value was missing ([overlooked]). *)
Theorem rangeset_refines (os : list op) :
  Forall op_ok os ->
  exists m, run os [] = Some m /\ checkInternalConsistency m = true /\
    (forall x, hasValue m x = true -> x ∈ foldl spec ∅ os) /\
    (none_overlooked ∅ os -> forall x, x ∈ foldl spec ∅ os -> hasValue m x = true).
Proof.
  intros Hok. destruct (run_represents os [] ∅ Hok empty_represents) as (m & Hr & Hm & Hx).
  exists m. split_and!; [done|by apply wf_consistent| |].
  - intros x Hin%Hx. by apply (effect_sound os ∅ ∅).
  - intros Ho x Hin. apply Hx. by rewrite effect_complete.
Qed.

(** The observers of a RangeSet built by any calls on 32-bit values below
    [absent]: [getFirst] and [getLast] are the least and the greatest value of
    the set, [getNext v] the least above [v], [prevMissing v] the greatest value
    below [v] outside the set, each [absent] when there is none; and [getPrev v]
    is the greatest value below [v] when neither [v] nor [v + 1] is in the set. *)
Theorem range_queries (os : list op) (m : Ranges) (v : Z) :
  Forall op_ok os -> run os [] = Some m -> 0 <= v < absent ->
  least (fun x => hasValue m x = true) (getFirst m) /\
  greatest (fun x => hasValue m x = true) (getLast m) /\
  least (fun x => hasValue m x = true /\ v < x) (getNext m v) /\
  greatest (fun x => hasValue m x = false /\ 0 <= x < v) (prevMissing m v) /\
  (hasValue m v = false -> hasValue m (v + 1) = false ->
   greatest (fun x => hasValue m x = true /\ x < v) (getPrev m v)).
Proof.
  intros Hok Hr Hv. destruct (run_represents os [] ∅ Hok empty_represents) as (m' & Hr' & Hm & _).
  assert (m' = m) as -> by congruence.
  split_and!; eauto using getFirst_ok, getLast_ok, getNext_ok, prevMissing_ok, getPrev_outside.
Qed.

(** ** Witnesses *)

(** The set of the unit test: [0,5], [10,15], ... [90,95]. *)
Definition createPredefinedSet : list op :=
  map (fun i => SetRange (10 * i) (10 * i + 5)) [0; 1; 2; 3; 4; 5; 6; 7; 8; 9].

Definition ex_ops : list op := createPredefinedSet ++ [SetValue 6; SetRange 4 12; ClearValue 11].

Lemma ex_ops_ok : Forall op_ok ex_ops.
Proof. repeat constructor; cbn; rewrite ?absent_val; lia. Qed.

Lemma rangeset_refines_witness :
  exists m, run ex_ops [] = Some m /\ checkInternalConsistency m = true /\
    (forall x, hasValue m x = true -> x ∈ foldl spec ∅ ex_ops) /\
    (forall x, x ∈ foldl spec ∅ ex_ops -> hasValue m x = true).
Proof.
  destruct (rangeset_refines ex_ops ex_ops_ok) as (m & H1 & H2 & H3 & H4). exists m. split_and!; [exact H1|exact H2|exact H3|].
  apply H4. apply (bool_decide_unpack _). vm_compute. exact I.
Defined.

Definition ex_ranges : Ranges :=
  [(0, 10); (12, 15); (20, 25); (30, 35); (40, 45); (50, 55); (60, 65); (70, 75); (80, 85); (90, 95)].

Lemma range_queries_witness :
  run ex_ops [] = Some ex_ranges /\ prevMissing ex_ranges 14 = 11 /\ getNext ex_ranges 10 = 12 /\
  least (fun x => hasValue ex_ranges x = true) (getFirst ex_ranges).
Proof.
  split_and!; [by vm_compute..|].
  apply (range_queries ex_ops ex_ranges 14 ex_ops_ok); [by vm_compute|rewrite absent_val; lia].
Defined.

(** The expectations of the unit test of [prevMissing]. *)
Example prevMissing_unit_test :
  match run createPredefinedSet [] with
  | Some m =>
      forallb (fun i => prevMissing m i =? (if 6 <? i mod 10 then i - 1 else u32 (10 * (i / 10) - 1)))
        (map Z.of_nat (seq 0 100))
  | None => false
  end = true.
Proof. by vm_compute. Qed.

(** ** Departures *)

(** [getPrev] tests for [v + 1] where the value below [v] is meant: asked for
    the predecessor of the last value of a range it misses the range, and asked
    for that of the first value it answers a value outside the set. *)
Lemma getPrev_wrong :
  exists m, run [SetRange 5 7] [] = Some m /\
    getPrev m 7 = absent /\ hasValue m 6 = true /\
    getPrev m 5 = 4 /\ hasValue m 4 = false.
Proof. eexists. split_and!; [by vm_compute..|]. by vm_compute. Qed.

(** [setRange] returns without adding [maxV] when only that value is missing. *)
Lemma setRange_drops_last :
  exists m, run [SetRange 1 4; SetRange 1 5] [] = Some m /\ hasValue m 5 = false.
Proof. eexists. split; by vm_compute. Qed.

End RangeSet.
