(* ===== verification/TaggedCache.v ===== *)
(** * TaggedCache

    [src/src/ripple/common/TaggedCache.h].  A [TaggedCache] keeps
    shared objects by key: a list of entries, the most recently used first, and a
    hash table from keys to iterators into the list; the oldest entries leave when
    the cache is over its size or, in a sweep, too old.

    An iterator is the identity of a list node, [None] is [end ()].  Dereferencing
    [end ()] or an iterator whose node is gone is [undefined].  The clock is an
    argument of each operation.  The hash table's buckets ([rehash]) and the
    metrics are left out.

    Theorems: a [TaggedCache] behaves as a list of entries in order of use, and
    never touches a node that is gone, as long as its size is not set below the
    number of its entries ([tagged_cache_refines]).  Lowering the size further
    ends in a dereference of [end ()] ([shrink_undefined]). *)
From Stdlib Require Import ZArith Lia.
From S2P Require Import Prelude.
From stdpp Require Import base numbers list gmap strings.
Local Open Scope Z_scope.

Module TaggedCache.

Section Tagged.
Context {K : Type} `{EqDecision K, !Countable K} {T : Type}.

Record Entry : Type := { ptr : T; last_access : Z; mKey : K }.

(** [std::list] nodes with their identities; the next identity to be used. *)
Record TaggedCache : Type := {
  mCacheData : list (nat * Entry);
  m_target_size : Z;
  m_target_age : Z;
  m_cache_count : Z;
  m_cache : gmap K nat;
  m_hits : Z;
  m_misses : Z;
  fresh_node : nat }.

Definition iterator : Type := option nat.

Definition dangling : exn := undefined "iterator".

(** The constructor, and [setTargetSize]. *)
Definition default_size (size : Z) : Z := if size <=? 0 then 1000 else size.

Definition new_cache (size expiration_seconds : Z) : TaggedCache :=
  {| mCacheData := []; m_target_size := default_size size; m_target_age := expiration_seconds; m_cache_count := 0;
     m_cache := ∅; m_hits := 0; m_misses := 0; fresh_node := 0 |}.

Definition with_size (c : TaggedCache) (s : Z) : TaggedCache :=
  {| mCacheData := mCacheData c; m_target_size := s; m_target_age := m_target_age c; m_cache_count := m_cache_count c;
     m_cache := m_cache c; m_hits := m_hits c; m_misses := m_misses c; fresh_node := fresh_node c |}.
Definition with_age (c : TaggedCache) (s : Z) : TaggedCache :=
  {| mCacheData := mCacheData c; m_target_size := m_target_size c; m_target_age := s; m_cache_count := m_cache_count c;
     m_cache := m_cache c; m_hits := m_hits c; m_misses := m_misses c; fresh_node := fresh_node c |}.
Definition with_stats (c : TaggedCache) (hits misses : Z) : TaggedCache :=
  {| mCacheData := mCacheData c; m_target_size := m_target_size c; m_target_age := m_target_age c;
     m_cache_count := m_cache_count c; m_cache := m_cache c; m_hits := u64 hits; m_misses := u64 misses;
     fresh_node := fresh_node c |}.
Definition with_entries (c : TaggedCache) (data : list (nat * Entry)) (cache : gmap K nat) (count : Z) : TaggedCache :=
  {| mCacheData := data; m_target_size := m_target_size c; m_target_age := m_target_age c; m_cache_count := i32 count;
     m_cache := cache; m_hits := m_hits c; m_misses := m_misses c; fresh_node := fresh_node c |}.

Definition getTargetSize (c : TaggedCache) : Z := m_target_size c.
Definition setTargetSize (s : Z) (c : TaggedCache) : TaggedCache := with_size c (default_size s).
Definition getTargetAge (c : TaggedCache) : Z := m_target_age c.
Definition setTargetAge (s : Z) (c : TaggedCache) : TaggedCache := with_age c s.
Definition getCacheSize (c : TaggedCache) : Z := m_cache_count c.
Definition getTrackSize (c : TaggedCache) : Z := i32 (Z.of_nat (size (m_cache c))).
Definition clearStats (c : TaggedCache) : TaggedCache := with_stats c 0 0.
Definition clear (c : TaggedCache) : TaggedCache := with_entries c [] ∅ 0.

(** ** Lists and iterators *)

Fixpoint node_at (id : nat) (data : list (nat * Entry)) : option Entry :=
  match data with
  | [] => None
  | (i, e) :: data => if decide (i = id) then Some e else node_at id data
  end.

Definition deref_it (it : iterator) (data : list (nat * Entry)) : result (nat * Entry) :=
  match it with
  | None => Throw dangling
  | Some id => match node_at id data with Some e => Ok (id, e) | None => Throw dangling end
  end.

(** [erase (it)]: the list without the node, and the iterator behind it. *)
Fixpoint erase_node (id : nat) (data : list (nat * Entry)) : option (list (nat * Entry) * iterator) :=
  match data with
  | [] => None
  | (i, e) :: data =>
      if decide (i = id) then Some (data, fst <$> head data)
      else match erase_node id data with
           | Some (data, next) => Some ((i, e) :: data, next)
           | None => None
           end
  end.

Definition list_erase (it : iterator) (data : list (nat * Entry)) : result (list (nat * Entry) * iterator) :=
  match it with
  | None => Throw dangling
  | Some id => match erase_node id data with Some x => Ok x | None => Throw dangling end
  end.

(** [--end ()]. *)
Definition before_end (data : list (nat * Entry)) : result iterator :=
  match last data with Some (id, _) => Ok (Some id) | None => Throw dangling end.

(** [it->touch (now)], then [splice] to the front. *)
Definition touch (now : Z) (e : Entry) : Entry := {| ptr := ptr e; last_access := now; mKey := mKey e |}.

Definition set_ptr (p : T) (e : Entry) : Entry := {| ptr := p; last_access := last_access e; mKey := mKey e |}.

Definition move_to_front (now : Z) (it : nat) (data : list (nat * Entry)) : result (Entry * list (nat * Entry)) :=
  '(id, e) ← deref_it (Some it) data;
  '(rest, _) ← list_erase (Some it) data;
  mret (touch now e, (id, touch now e) :: rest).

(** ** Operations *)

(** The eviction loop of [canonicalize]. *)
Fixpoint evict (fuel : nat) (target : Z) (oldest : iterator) (data : list (nat * Entry)) (cache : gmap K nat) (count : Z)
    : result (list (nat * Entry) * gmap K nat * Z) :=
  if count >? target then
    match fuel with
    | O => Throw (undefined "more evictions than entries")
    | S fuel =>
        '(_, e) ← deref_it oldest data;
        '(data, oldest) ← list_erase oldest data;
        evict fuel target oldest data (delete (mKey e) cache) (i32 (count - 1))
    end
  else mret (data, cache, count).

(** Whether the key was there, the pointer the caller has afterwards. *)
Definition canonicalize (now : Z) (key : K) (data : T) (replace : bool) (c : TaggedCache) : result (bool * T * TaggedCache) :=
  match m_cache c !! key with
  | None =>
      let id := fresh_node c in
      let list := (id, {| ptr := data; last_access := now; mKey := key |}) :: mCacheData c in
      let cache := <[key := id]> (m_cache c) in
      let count := i32 (m_cache_count c + 1) in
      oldest ← before_end list;
      '(list, cache, count) ← evict (length list) (m_target_size c) oldest list cache count;
      mret (false, data,
        {| mCacheData := list; m_target_size := m_target_size c; m_target_age := m_target_age c; m_cache_count := count;
           m_cache := cache; m_hits := m_hits c; m_misses := m_misses c; fresh_node := S id |})
  | Some it =>
      '(e, list) ← move_to_front now it (mCacheData c);
      if replace then
        mret (true, data, with_entries c (match list with (id, e) :: rest => (id, set_ptr data e) :: rest | [] => [] end)
                            (m_cache c) (m_cache_count c))
      else mret (true, ptr e, with_entries c list (m_cache c) (m_cache_count c))
  end.

Definition fetch (now : Z) (key : K) (c : TaggedCache) : result (option T * TaggedCache) :=
  match m_cache c !! key with
  | None => mret (None, with_stats c (m_hits c) (m_misses c + 1))
  | Some it =>
      let c := with_stats c (m_hits c + 1) (m_misses c) in
      '(e, list) ← move_to_front now it (mCacheData c);
      mret (Some (ptr e), with_entries c list (m_cache c) (m_cache_count c))
  end.

Definition insert_value (now : Z) (key : K) (value : T) (c : TaggedCache) : result (bool * TaggedCache) :=
  '(res, _, c) ← canonicalize now key value false c; mret (res, c).

Definition retrieve (now : Z) (key : K) (c : TaggedCache) : result (option T * TaggedCache) := fetch now key c.

Definition refreshIfPresent (now : Z) (key : K) (c : TaggedCache) : result (bool * TaggedCache) :=
  '(p, c) ← fetch now key c; mret (match p with Some _ => true | None => false end, c).

Definition del (key : K) (valid : bool) (c : TaggedCache) : result (bool * TaggedCache) :=
  match m_cache c !! key with
  | None => mret (false, c)
  | Some it =>
      '(list, _) ← list_erase (Some it) (mCacheData c);
      mret (true, with_entries c list (delete key (m_cache c)) (m_cache_count c - 1))
  end.

(** The loop of [sweep]; [--oldest] is always the last node. *)
Fixpoint sweep_loop (fuel : nat) (when_expire : Z) (data : list (nat * Entry)) (cache : gmap K nat) (count : Z)
    : result (list (nat * Entry) * gmap K nat * Z) :=
  if count =? 0 then mret (data, cache, count)
  else
    match fuel with
    | O => Throw (undefined "more sweeps than entries")
    | S fuel =>
        oldest ← before_end data;
        '(_, e) ← deref_it oldest data;
        if last_access e >? when_expire then mret (data, cache, count)
        else
          '(data, _) ← list_erase oldest data;
          sweep_loop fuel when_expire data (delete (mKey e) cache) (i32 (count - 1))
    end.

Definition sweep (now : Z) (c : TaggedCache) : result TaggedCache :=
  if m_cache_count c >? 0 then
    '(data, cache, count) ← sweep_loop (S (length (mCacheData c))) (now - m_target_age c) (mCacheData c) (m_cache c) (m_cache_count c);
    mret (with_entries c data cache count)
  else mret c.
End Tagged.
Arguments Entry : clear implicits.
Arguments TaggedCache K {_ _} T.


(** ** The cache as a list in order of use *)

Section Spec.
Context {K : Type} `{EqDecision K, !Countable K} {T : Type}.
Abbreviation Entry := (Entry K T).
Abbreviation TaggedCache := (TaggedCache K T).

Record LRU : Type := { l_entries : list Entry; l_size : Z; l_age : Z }.

Fixpoint lru_find (k : K) (l : list Entry) : option Entry :=
  match l with
  | [] => None
  | e :: l => if decide (mKey e = k) then Some e else lru_find k l
  end.

Definition lru_remove (k : K) (l : list Entry) : list Entry := filter (fun e => mKey e <> k) l.

(** The oldest entries leave while they are too old. *)
Fixpoint drop_expired (expire : Z) (l : list Entry) : list Entry :=
  match l with
  | [] => []
  | e :: l => match drop_expired expire l with
              | [] => if last_access e >? expire then [e] else []
              | rest => e :: rest
              end
  end.

Inductive cop : Type :=
| cCanonicalize (now : Z) (k : K) (v : T) (replace : bool)
| cFetch (now : Z) (k : K)
| cRefresh (now : Z) (k : K)
| cDel (k : K)
| cSweep (now : Z)
| cClear
| cSetSize (s : Z)
| cSetAge (s : Z).

Inductive canswer : Type :=
| aCanonical (had : bool) (v : T)
| aFetched (v : option T)
| aBool (b : bool)
| aNone.

Definition spec_put (now : Z) (k : K) (v : T) (replace : bool) (l : LRU) : bool * T * LRU :=
  match lru_find k (l_entries l) with
  | None => (false, v,
      {| l_entries := take (Z.to_nat (l_size l)) ({| ptr := v; last_access := now; mKey := k |} :: l_entries l);
         l_size := l_size l; l_age := l_age l |})
  | Some e =>
      let v' := if replace then v else ptr e in
      (true, v',
       {| l_entries := {| ptr := v'; last_access := now; mKey := k |} :: lru_remove k (l_entries l);
          l_size := l_size l; l_age := l_age l |})
  end.

Definition spec_get (now : Z) (k : K) (l : LRU) : option T * LRU :=
  match lru_find k (l_entries l) with
  | None => (None, l)
  | Some e => (Some (ptr e),
      {| l_entries := {| ptr := ptr e; last_access := now; mKey := k |} :: lru_remove k (l_entries l);
         l_size := l_size l; l_age := l_age l |})
  end.

Definition with_l (l : LRU) (es : list Entry) : LRU := {| l_entries := es; l_size := l_size l; l_age := l_age l |}.

Definition spec_step (o : cop) (l : LRU) : canswer * LRU :=
  match o with
  | cCanonicalize now k v replace => let '(b, v, l) := spec_put now k v replace l in (aCanonical b v, l)
  | cFetch now k => let '(v, l) := spec_get now k l in (aFetched v, l)
  | cRefresh now k => let '(v, l) := spec_get now k l in (aBool (match v with Some _ => true | None => false end), l)
  | cDel k => (aBool (match lru_find k (l_entries l) with Some _ => true | None => false end),
                 with_l l (lru_remove k (l_entries l)))
  | cSweep now => (aNone, with_l l (drop_expired (now - l_age l) (l_entries l)))
  | cClear => (aNone, with_l l [])
  | cSetSize s => (aNone, {| l_entries := l_entries l; l_size := default_size s; l_age := l_age l |})
  | cSetAge s => (aNone, {| l_entries := l_entries l; l_size := l_size l; l_age := s |})
  end.

Definition cache_step (o : cop) (c : TaggedCache) : result (canswer * TaggedCache) :=
  match o with
  | cCanonicalize now k v replace => '(b, v, c) ← canonicalize now k v replace c; mret (aCanonical b v, c)
  | cFetch now k => '(v, c) ← fetch now k c; mret (aFetched v, c)
  | cRefresh now k => '(b, c) ← refreshIfPresent now k c; mret (aBool b, c)
  | cDel k => '(b, c) ← del k false c; mret (aBool b, c)
  | cSweep now => c ← sweep now c; mret (aNone, c)
  | cClear => mret (aNone, clear c)
  | cSetSize s => mret (aNone, setTargetSize s c)
  | cSetAge s => mret (aNone, setTargetAge s c)
  end.

Fixpoint spec_run (ops : list cop) (l : LRU) : list canswer * LRU :=
  match ops with
  | [] => ([], l)
  | o :: ops => let '(a, l) := spec_step o l in let '(rest, l) := spec_run ops l in (a :: rest, l)
  end.

Fixpoint cache_run (ops : list cop) (c : TaggedCache) : result (list canswer * TaggedCache) :=
  match ops with
  | [] => mret ([], c)
  | o :: ops => '(a, c) ← cache_step o c; '(rest, c) ← cache_run ops c; mret (a :: rest, c)
  end.

(** The size is an [int], and never set below the number of entries. *)
Definition size_ok (l : LRU) (s : Z) : Prop := Z.of_nat (length (l_entries l)) <= default_size s < 2 ^ 31 - 1.

Fixpoint sizes_ok (ops : list cop) (l : LRU) : Prop :=
  match ops with
  | [] => True
  | o :: ops => (match o with cSetSize s => size_ok l s | _ => True end) /\ sizes_ok ops (spec_step o l).2
  end.

(** ** Nodes and the index *)

Abbreviation nodes := (list (nat * Entry)).

Definition index (data : nodes) : gmap K nat := list_to_map (map (fun x => (mKey x.2, x.1)) data).

Lemma index_nodup (data : nodes) :
  NoDup (map (fun x => mKey x.2) data) -> NoDup (map (fun x => (mKey x.2, x.1)) data).*1.
Proof. rewrite <- list_fmap_compose. done. Qed.

Lemma index_split (data : nodes) k id : index data !! k = Some id ->
  exists l1 e l2, data = l1 ++ (id, e) :: l2 /\ mKey e = k.
Proof.
  intros Hk%elem_of_list_to_map_2. apply list_elem_of_fmap in Hk as ([id' e] & [= -> ->] & Hin).
  apply list_elem_of_split in Hin as (l1 & l2 & ->). by exists l1, e, l2.
Qed.

Lemma index_none (data : nodes) k : index data !! k = None -> k ∉ map (fun x => mKey x.2) data.
Proof.
  intros Hk Hin. apply not_elem_of_list_to_map in Hk. apply Hk. rewrite <- list_fmap_compose. done.
Qed.

Lemma index_middle (l1 l2 : nodes) id e : NoDup (map (fun x => mKey x.2) (l1 ++ (id, e) :: l2)) ->
  index (l1 ++ (id, e) :: l2) = <[mKey e := id]> (index (l1 ++ l2)) /\
  index (l1 ++ l2) = delete (mKey e) (index (l1 ++ (id, e) :: l2)).
Proof.
  intros Hnd. assert (E : index (l1 ++ (id, e) :: l2) = <[mKey e := id]> (index (l1 ++ l2))).
  { unfold index. change (<[mKey e := id]> (list_to_map (map (fun x => (mKey x.2, x.1)) (l1 ++ l2))))
      with (list_to_map (M := gmap K nat) (map (fun x => (mKey x.2, x.1)) ((id, e) :: l1 ++ l2))).
    apply list_to_map_proper; [by apply index_nodup|]. apply fmap_Permutation. by rewrite Permutation_middle. }
  split; [done|]. rewrite E, delete_insert_id; [done|]. unfold index. apply not_elem_of_list_to_map_1.
  rewrite <- list_fmap_compose. rewrite map_app in Hnd. cbn [map] in Hnd.
  intros Hin. apply NoDup_app in Hnd as (_ & Hd & Hnd2). pose proof (NoDup_cons_1_1 _ _ Hnd2) as Hn.
  rewrite fmap_app, elem_of_app in Hin. destruct Hin as [Hin|Hin]; [|by apply Hn].
  apply (Hd (mKey e)); [done|set_solver].
Qed.

Lemma node_at_middle (l1 l2 : nodes) id e : id ∉ map fst l1 -> node_at id (l1 ++ (id, e) :: l2) = Some e.
Proof.
  induction l1 as [|[i x] l1 IH]; cbn [map app node_at]; intros Hn; [by rewrite decide_True|].
  rewrite decide_False by set_solver. apply IH. set_solver.
Qed.

Lemma erase_middle (l1 l2 : nodes) id e :
  id ∉ map fst l1 -> erase_node id (l1 ++ (id, e) :: l2) = Some (l1 ++ l2, fst <$> head l2).
Proof.
  induction l1 as [|[i x] l1 IH]; cbn [map app erase_node]; intros Hn; [by rewrite decide_True|].
  rewrite decide_False by set_solver. rewrite IH by set_solver. done.
Qed.

(** ** Refinement *)

Record nodes_ok (data : nodes) (cache : gmap K nat) (count : Z) (fresh : nat) : Prop := {
  ok_ids : NoDup (map fst data);
  ok_fresh : Forall (fun x => (x.1 < fresh)%nat) data;
  ok_keys : NoDup (map (fun x => mKey x.2) data);
  ok_index : cache = index data;
  ok_count : count = Z.of_nat (length data);
  ok_int : Z.of_nat (length data) < 2 ^ 31 }.

Record cache_ok (c : TaggedCache) : Prop := {
  ok_nodes : nodes_ok (mCacheData c) (m_cache c) (m_cache_count c) (fresh_node c);
  ok_size : Z.of_nat (length (mCacheData c)) <= m_target_size c < 2 ^ 31 - 1;
  ok_target : 1 <= m_target_size c }.

Definition refines (c : TaggedCache) (l : LRU) : Prop :=
  cache_ok c /\ l = {| l_entries := map snd (mCacheData c); l_size := m_target_size c; l_age := m_target_age c |}.

Lemma find_none (data : nodes) k : k ∉ map (fun x => mKey x.2) data ->
  lru_find k (map snd data) = None /\ lru_remove k (map snd data) = map snd data.
Proof.
  induction data as [|[i x] data IH]; cbn [map lru_find]; intros Hk; [done|]. cbn [snd] in *.
  assert (Hne : mKey x <> k) by (intros E; apply Hk; rewrite E; set_solver).
  rewrite decide_False by done. destruct IH as [IH1 IH2]; [set_solver|]. split; [done|].
  unfold lru_remove in *. by rewrite filter_cons_True, IH2.
Qed.

Lemma find_middle (l1 l2 : nodes) id e : NoDup (map (fun x => mKey x.2) (l1 ++ (id, e) :: l2)) ->
  lru_find (mKey e) (map snd (l1 ++ (id, e) :: l2)) = Some e /\
  lru_remove (mKey e) (map snd (l1 ++ (id, e) :: l2)) = map snd (l1 ++ l2).
Proof.
  induction l1 as [|[i x] l1 IH]; cbn [map app lru_find]; intros Hnd.
  - rewrite decide_True by done. split; [done|]. unfold lru_remove. rewrite filter_cons_False by (cbn; tauto).
    by apply (find_none l2), (NoDup_cons_1_1 _ _ Hnd).
  - pose proof (NoDup_cons_1_1 _ _ Hnd) as Hx. apply NoDup_cons_1_2 in Hnd. destruct (IH Hnd) as [IH1 IH2].
    assert (Hne : mKey x <> mKey e).
    { intros E. apply Hx. cbn. rewrite E. apply (list_elem_of_fmap_2 (fun x => mKey x.2) _ (id, e)). set_solver. }
    cbn [snd]. rewrite decide_False by done. split; [done|]. unfold lru_remove in *. by rewrite filter_cons_True, IH2.
Qed.

(** A node in the middle, its iterator good. *)
Lemma found_node data cache count fresh k id : nodes_ok data cache count fresh -> cache !! k = Some id ->
  exists l1 e l2, data = l1 ++ (id, e) :: l2 /\ mKey e = k /\ id ∉ map fst l1.
Proof.
  intros Hok Hk. rewrite (ok_index _ _ _ _ Hok) in Hk. destruct (index_split _ _ _ Hk) as (l1 & e & l2 & E & Hke).
  exists l1, e, l2. split_and!; [done|done|]. pose proof (ok_ids _ _ _ _ Hok) as Hnd. rewrite E, map_app in Hnd.
  apply NoDup_app in Hnd as (_ & Hd & _). intros Hin. apply (Hd id Hin). cbn. set_solver.
Qed.

Lemma nodup_remove {A} (l1 l2 : list A) x : NoDup (l1 ++ x :: l2) -> NoDup (l1 ++ l2) /\ x ∉ l1 ++ l2.
Proof.
  rewrite <- Permutation_middle. intros Hnd.
  split; [by apply NoDup_cons_1_2 in Hnd|by apply NoDup_cons_1_1 in Hnd].
Qed.

(** Taking a node out of the list keeps the cache in order. *)
Lemma remove_ok l1 id e l2 cache count fresh : nodes_ok (l1 ++ (id, e) :: l2) cache count fresh ->
  nodes_ok (l1 ++ l2) (delete (mKey e) cache) (i32 (count - 1)) fresh.
Proof.
  intros [Hids Hfr Hkeys Hidx Hcnt Hint]. rewrite map_app in Hids, Hkeys. cbn [map] in Hids, Hkeys.
  pose proof (nodup_remove _ _ _ Hids) as [Hids' _]. pose proof (nodup_remove _ _ _ Hkeys) as [Hkeys' _].
  assert (Hlen : length (l1 ++ (id, e) :: l2) = S (length (l1 ++ l2))) by (rewrite !length_app; cbn; lia).
  split.
  - by rewrite map_app.
  - rewrite Forall_app in *. destruct Hfr as [H1 H2%Forall_cons]. split; [done|apply H2].
  - by rewrite map_app.
  - rewrite Hidx. destruct (index_middle l1 l2 id e) as [_ <-]; [|done]. by rewrite map_app.
  - rewrite Hcnt, Hlen, swrap_id; [lia|done|]. unfold in_s. lia.
  - lia.
Qed.

(** Moving a node to the front does, too, whatever happens to its entry but the key. *)
Lemma front_ok l1 id e l2 e' cache count fresh : nodes_ok (l1 ++ (id, e) :: l2) cache count fresh -> mKey e' = mKey e ->
  nodes_ok ((id, e') :: l1 ++ l2) cache (i32 count) fresh.
Proof.
  intros [Hids Hfr Hkeys Hidx Hcnt Hint] Hk. rewrite map_app in Hids, Hkeys. cbn [map] in Hids, Hkeys.
  assert (Hlen : length (l1 ++ (id, e) :: l2) = length ((id, e') :: l1 ++ l2)) by (cbn; rewrite !length_app; cbn; lia).
  split.
  - cbn [map]. rewrite map_app. by rewrite <- Permutation_middle in Hids.
  - rewrite Forall_app in Hfr. destruct Hfr as [H1 [H2 H3]%Forall_cons]. apply Forall_cons. split; [done|]. by apply Forall_app.
  - cbn [map]. rewrite map_app. cbn [snd]. rewrite Hk. by rewrite <- Permutation_middle in Hkeys.
  - rewrite Hidx. destruct (index_middle l1 l2 id e) as [-> _]; [by rewrite map_app|]. unfold index at 2. cbn [map list_to_map].
    cbn. by rewrite Hk.
  - rewrite Hcnt, Hlen, swrap_id; [done|done|]. unfold in_s. rewrite <- Hlen. lia.
  - by rewrite <- Hlen.
Qed.

(** So does putting a new node in front. *)
Lemma push_ok data cache count fresh e : nodes_ok data cache count fresh -> cache !! mKey e = None ->
  Z.of_nat (length data) + 1 < 2 ^ 31 ->
  nodes_ok ((fresh, e) :: data) (<[mKey e := fresh]> cache) (i32 (count + 1)) (S fresh).
Proof.
  intros [Hids Hfr Hkeys Hidx Hcnt Hint] He Hsz. rewrite Hidx in He. apply index_none in He.
  split; cbn [length map fst snd].
  - apply NoDup_cons. split; [|done]. intros (x & Ex & Hx)%list_elem_of_fmap. rewrite Forall_forall in Hfr.
    specialize (Hfr x Hx). lia.
  - apply Forall_cons. split; [cbn; lia|]. eapply Forall_impl; [exact Hfr|]. cbn. lia.
  - apply NoDup_cons. by split.
  - by rewrite Hidx.
  - rewrite swrap_id; [lia|done|]. unfold in_s. lia.
  - lia.
Qed.

Lemma move_run now (l1 l2 : nodes) id e : id ∉ map fst l1 ->
  move_to_front now id (l1 ++ (id, e) :: l2) = Ok (touch now e, (id, touch now e) :: l1 ++ l2).
Proof.
  intros Hn. unfold move_to_front, deref_it, list_erase. rewrite node_at_middle by done.
  cbn [mbind result_bind]. by rewrite erase_middle.
Qed.

Lemma moved_size (l1 l2 : nodes) x y : length (x :: l1 ++ l2) = length (l1 ++ y :: l2).
Proof. cbn. rewrite !length_app. cbn. lia. Qed.

Lemma lru_fetch_ok now k c l : refines c l ->
  exists v c', fetch now k c = Ok (v, c') /\ v = (spec_get now k l).1 /\ refines c' (spec_get now k l).2.
Proof.
  intros [Hok ->]. pose proof Hok as [Hn Hs Ht]. unfold fetch, spec_get. cbn [l_entries l_size l_age].
  destruct (m_cache c !! k) as [id|] eqn:Ek.
  - destruct (found_node _ _ _ _ k id Hn Ek) as (l1 & e & l2 & E & Hk & Hid). rewrite <- Hk.
    destruct (find_middle l1 l2 id e) as [Hf Hr]; [rewrite <- E; apply Hn|]. rewrite E, Hf, Hr. cbn [with_stats mCacheData].
    rewrite E, move_run by done. cbn [mbind result_bind mret result_ret].
    eexists _, _. split_and!; [done|done|]. rewrite E in *. split; [|done].
    split; [by eapply front_ok| |done]. cbn [with_entries mCacheData]. by rewrite (moved_size l1 l2 _ (id, e)).
  - rewrite (ok_index _ _ _ _ Hn) in Ek. destruct (find_none _ _ (index_none _ _ Ek)) as [-> _].
    eexists _, _. split_and!; [done|done|]. by split.
Qed.

(** One entry too many: the last one goes. *)
Lemma evict_run target l id e cache count fresh :
  nodes_ok (l ++ [(id, e)]) cache count fresh -> Z.of_nat (length l) <= target ->
  evict (length (l ++ [(id, e)])) target (Some id) (l ++ [(id, e)]) cache count =
    Ok (if Z.of_nat (length l) =? target then (l, delete (mKey e) cache, i32 (count - 1)) else (l ++ [(id, e)], cache, count)).
Proof.
  intros Hok Hl. pose proof Hok as [Hids _ _ _ Hcnt Hint].
  assert (Hid : id ∉ map fst l).
  { rewrite map_app in Hids. apply NoDup_app in Hids as (_ & Hd & _). intros Hin. apply (Hd id Hin). cbn. set_solver. }
  assert (Hlen : length (l ++ [(id, e)]) = S (length l)) by (rewrite length_app; cbn; lia).
  rewrite Hlen in *. cbn [evict]. rewrite Z.gtb_ltb. destruct (Z.eqb_spec (Z.of_nat (length l)) target) as [E|E].
  - rewrite (proj2 (Z.ltb_lt target count)) by lia. unfold deref_it, list_erase.
    rewrite (node_at_middle l [] id e), (erase_middle l [] id e), app_nil_r by done.
    cbn [mbind result_bind]. assert (Hc : i32 (count - 1) = target) by (rewrite swrap_id; [lia|done|unfold in_s; lia]).
    destruct (length l); cbn [evict]; by rewrite Z.gtb_ltb, Hc, Z.ltb_irrefl.
  - by rewrite (proj2 (Z.ltb_ge target count)) by lia.
Qed.

Lemma list_last {A} (x : A) (l : list A) : exists l' y, x :: l = l' ++ [y].
Proof. destruct (exists_last (l := x :: l) ltac:(done)) as (l' & y & ->). eauto. Qed.

Lemma canonicalize_ok now k v replace c l : refines c l ->
  exists b v' c', canonicalize now k v replace c = Ok (b, v', c') /\ (b, v') = (spec_put now k v replace l).1 /\
    refines c' (spec_put now k v replace l).2.
Proof.
  intros [Hok ->]. pose proof Hok as [Hn Hs Ht]. unfold canonicalize, spec_put. cbn [l_entries l_size l_age].
  destruct (m_cache c !! k) as [id|] eqn:Ek.
  - destruct (found_node _ _ _ _ k id Hn Ek) as (l1 & e & l2 & E & Hk & Hid). rewrite <- Hk.
    destruct (find_middle l1 l2 id e) as [Hf Hr]; [rewrite <- E; apply Hn|]. rewrite E, Hf, Hr, move_run by done.
    cbn [mbind result_bind mret result_ret]. rewrite E in *.
    destruct replace; (eexists _, _, _; split_and!; [done|done|]; split; [|done]);
      (split; [by eapply front_ok| |done]); cbn [with_entries mCacheData]; by rewrite (moved_size l1 l2 _ (id, e)).
  - pose proof Ek as Ek'. rewrite (ok_index _ _ _ _ Hn) in Ek'. destruct (find_none _ _ (index_none _ _ Ek')) as [-> _].
    set (e := {| ptr := v; last_access := now; mKey := k |}).
    destruct (list_last (fresh_node c, e) (mCacheData c)) as (l' & [id y] & El).
    assert (Hpush : nodes_ok ((fresh_node c, e) :: mCacheData c) (<[k := fresh_node c]> (m_cache c)) (i32 (m_cache_count c + 1)) (S (fresh_node c)))
      by (apply (push_ok _ _ _ _ e Hn Ek); lia).
    assert (Hlen : length l' = length (mCacheData c)).
    { apply (f_equal length) in El. rewrite length_app in El. cbn in El. lia. }
    rewrite El in *. unfold before_end. rewrite last_snoc. cbn [mbind result_bind]. rewrite (evict_run _ _ _ _ _ _ _ Hpush) by lia.
    change (e :: map snd (mCacheData c)) with (map snd ((fresh_node c, e) :: mCacheData c)). rewrite El, map_app.
    destruct (Z.eqb_spec (Z.of_nat (length l')) (m_target_size c)) as [Et|Et]; cbn [mbind result_bind mret result_ret];
      (eexists _, _, _; split_and!; [done|done|]; split; [split|]); cbn [mCacheData m_cache m_cache_count m_target_size fresh_node snd]; try done.
    + pose proof (remove_ok _ _ _ _ _ _ _ Hpush) as H'. by rewrite app_nil_r in H'.
    + lia.
    + f_equal. rewrite <- Et, Nat2Z.id. rewrite take_app_length' by (by rewrite length_map). done.
    + rewrite length_app. cbn. lia.
    + f_equal. rewrite take_ge; [by rewrite map_app|]. rewrite length_app, length_map. cbn. lia.
Qed.

Lemma del_ok k valid c l : refines c l ->
  exists c', del k valid c = Ok (match lru_find k (l_entries l) with Some _ => true | None => false end, c') /\
    refines c' (with_l l (lru_remove k (l_entries l))).
Proof.
  intros [Hok ->]. pose proof Hok as [Hn Hs Ht]. unfold del, with_l. cbn [l_entries l_size l_age].
  destruct (m_cache c !! k) as [id|] eqn:Ek.
  - destruct (found_node _ _ _ _ k id Hn Ek) as (l1 & e & l2 & E & Hk & Hid). rewrite <- Hk.
    destruct (find_middle l1 l2 id e) as [Hf Hr]; [rewrite <- E; apply Hn|]. rewrite E, Hf, Hr. unfold list_erase.
    rewrite erase_middle by done. cbn [mbind result_bind mret result_ret]. rewrite E in *.
    eexists. split; [done|]. split; [|done]. split; [by eapply remove_ok| |done]. cbn [with_entries mCacheData m_target_size].
    rewrite <- (moved_size l1 l2 (id, e)) in Hs. cbn [length] in Hs. lia.
  - rewrite (ok_index _ _ _ _ Hn) in Ek. destruct (find_none _ _ (index_none _ _ Ek)) as [-> ->].
    eexists. split; [done|]. by split.
Qed.

Lemma drop_expired_snoc expire (l : list Entry) e :
  drop_expired expire (l ++ [e]) = if last_access e >? expire then l ++ [e] else drop_expired expire l.
Proof.
  induction l as [|x l IH]; cbn [app drop_expired]; [by destruct (last_access e >? expire)|].
  rewrite IH. destruct (last_access e >? expire); [|done]. by destruct l.
Qed.

Lemma sweep_loop_ok expire data : forall fuel cache count fresh,
  nodes_ok data cache count fresh -> (length data < fuel)%nat ->
  exists data' cache' count', sweep_loop fuel expire data cache count = Ok (data', cache', count') /\
    nodes_ok data' cache' count' fresh /\ map snd data' = drop_expired expire (map snd data).
Proof.
  induction data as [|[id e] l IH] using rev_ind; intros fuel cache count fresh Hok Hf.
  - exists [], cache, count. split_and!; [|done|done]. pose proof (ok_count _ _ _ _ Hok) as ->. by destruct fuel.
  - rewrite length_app in Hf. destruct fuel as [|fuel]; [cbn in Hf; lia|]. cbn [length] in Hf.
    assert (Hid : id ∉ map fst l).
    { pose proof (ok_ids _ _ _ _ Hok) as Hids. rewrite map_app in Hids. apply NoDup_app in Hids as (_ & Hd & _).
      intros Hin. apply (Hd id Hin). cbn. set_solver. }
    cbn [sweep_loop]. rewrite (proj2 (Z.eqb_neq count 0)).
    2: { rewrite (ok_count _ _ _ _ Hok), length_app. cbn. lia. }
    unfold before_end. rewrite last_snoc. unfold deref_it, list_erase. cbn [mbind result_bind].
    rewrite (node_at_middle l [] id e), map_app by done. cbn [mbind result_bind map snd]. rewrite drop_expired_snoc.
    destruct (last_access e >? expire).
    + eexists _, _, _. split_and!; [done|done|by rewrite map_app].
    + rewrite (erase_middle l [] id e), app_nil_r by done. cbn [mbind result_bind].
      apply IH; [|lia]. pose proof (remove_ok _ _ _ _ _ _ _ Hok) as H'. by rewrite app_nil_r in H'.
Qed.

Lemma drop_expired_length expire (l : list Entry) : (length (drop_expired expire l) <= length l)%nat.
Proof.
  induction l as [|e l IH]; cbn [drop_expired]; [done|].
  destruct (drop_expired expire l); [destruct (_ >? _); cbn; lia|]. cbn in *. lia.
Qed.

Lemma sweep_ok now c l : refines c l ->
  exists c', sweep now c = Ok c' /\ refines c' (with_l l (drop_expired (now - l_age l) (l_entries l))).
Proof.
  intros [Hok ->]. pose proof Hok as [Hn Hs Ht]. unfold sweep, with_l. cbn [l_entries l_size l_age]. rewrite Z.gtb_ltb.
  pose proof (ok_count _ _ _ _ Hn) as Hc. pose proof (ok_int _ _ _ _ Hn) as Hint. destruct (Z.ltb_spec 0 (m_cache_count c)).
  - destruct (sweep_loop_ok (now - m_target_age c) (mCacheData c) (S (length (mCacheData c))) (m_cache c) (m_cache_count c) (fresh_node c))
      as (d & m' & n & -> & Hok' & Hd); [done|lia|].
    cbn [mbind result_bind mret result_ret]. eexists. split; [done|].
    assert (Hlen : (length d <= length (mCacheData c))%nat).
    { rewrite <- (length_map snd d), Hd, <- (length_map snd (mCacheData c)). apply drop_expired_length. }
    split; [|cbn [with_entries mCacheData m_target_size m_target_age]; by rewrite Hd].
    split; cbn [with_entries mCacheData m_cache m_cache_count m_target_size fresh_node]; [|lia|done].
    rewrite swrap_id; [done|done|]. rewrite (ok_count _ _ _ _ Hok'). unfold in_s. lia.
  - exists c. split; [done|]. split; [done|]. destruct (mCacheData c); [done|]. cbn in Hc. lia.
Qed.


Lemma no_nodes_ok fresh : nodes_ok [] ∅ 0 fresh.
Proof. split; cbn; first [apply NoDup_nil_2|apply Forall_nil_2|done]. Qed.

Lemma step_refines o c l : refines c l -> (match o with cSetSize s => size_ok l s | _ => True end) ->
  exists c', cache_step o c = Ok ((spec_step o l).1, c') /\ refines c' (spec_step o l).2.
Proof.
  intros Hr Ho. destruct o as [now k v replace|now k|now k|k|now| |s|s]; cbn [cache_step spec_step].
  - destruct (canonicalize_ok now k v replace c l Hr) as (b & v' & c' & -> & Ha & Hr'). exists c'.
    destruct (spec_put now k v replace l) as [[b1 v1] l1]. cbn [fst snd] in *. by injection Ha as -> ->.
  - destruct (lru_fetch_ok now k c l Hr) as (v & c' & -> & -> & Hr'). exists c'. by destruct (spec_get now k l).
  - unfold refreshIfPresent. destruct (lru_fetch_ok now k c l Hr) as (v & c' & -> & -> & Hr'). exists c'. by destruct (spec_get now k l).
  - destruct (del_ok k false c l Hr) as (c' & -> & Hr'). by exists c'.
  - destruct (sweep_ok now c l Hr) as (c' & -> & Hr'). by exists c'.
  - eexists. split; [done|]. destruct Hr as [[Hn Hs Ht] ->]. split; [|done]. split; [|cbn; lia|done].
    apply no_nodes_ok.
  - eexists. split; [done|]. destruct Hr as [[Hn Hs Ht] ->]. split; [|done]. unfold size_ok in Ho. cbn in Ho.
    rewrite length_map in Ho. split; [done|done|]. cbn. unfold default_size. destruct (Z.leb_spec s 0); lia.
  - eexists. split; [done|]. destruct Hr as [[Hn Hs Ht] ->]. by split.
Qed.

Lemma cache_run_ok ops : forall c l, refines c l -> sizes_ok ops l ->
  exists c', cache_run ops c = Ok ((spec_run ops l).1, c') /\ refines c' (spec_run ops l).2.
Proof.
  induction ops as [|o ops IH]; intros c l Hr Hs; cbn [cache_run spec_run]; [by exists c|].
  destruct Hs as [Ho Hs]. destruct (step_refines o c l Hr Ho) as (c1 & -> & Hr1).
  destruct (spec_step o l) as [a l1]. cbn [fst snd mbind result_bind] in *.
  destruct (IH c1 l1 Hr1 Hs) as (c2 & -> & Hr2). exists c2. by destruct (spec_run ops l1).
Qed.

Lemma new_cache_ok size age : size < 2 ^ 31 - 1 ->
  refines (new_cache size age) {| l_entries := []; l_size := default_size size; l_age := age |}.
Proof.
  intros Hs. assert (Hd : 1 <= default_size size < 2 ^ 31 - 1) by (unfold default_size; destruct (Z.leb_spec size 0); lia).
  split; [|done]. split; [|cbn; lia|cbn; lia].
  apply no_nodes_ok.
Qed.

End Spec.
Arguments LRU : clear implicits.


Abbreviation cPut now k v := (cCanonicalize now k v false).

Definition ca_ops : list (cop (K := Z) (T := Z)) :=
  [cPut 10 1 100; cPut 11 2 200; cFetch 12 1; cPut 13 3 300; cFetch 14 2; cCanonicalize 15 1 101 true;
   cDel 3; cSweep 60; cSetSize 5; cPut 61 4 400; cRefresh 62 1].


(** After the size is lowered by two or more, the next new entry makes [oldest] the
    end of the list and dereferences it. *)
Example shrink_undefined :
  cache_run [cPut 1 1 1; cPut 2 2 2; cPut 3 3 3; cSetSize 1; cPut 4 4 4] (new_cache (K := Z) (T := Z) 5 9) =
    Throw dangling.
Proof. vm_compute. reflexivity. Qed.

(** [insert] of a key that is there answers [true], of a new one [false]. *)
Example insert_answers :
  ('(a, c) ← insert_value 1 1 1 (new_cache (K := Z) (T := Z) 5 9); '(b, _) ← insert_value 2 1 2 c; mret (a, b)) = Ok (false, true).
Proof. vm_compute. reflexivity. Qed.
End TaggedCache.
