(* ===== verification/KeyCache.v ===== *)
(** * KeyCache

    [src/src/ripple/common/KeyCache.h]: keys with the time of their last use and no
    data.  A sweep removes the keys that are too old; when the cache is over its
    target size the age allowed shrinks in proportion, to one second at least.

    The hash table is a finite map.  The clock is an argument; the order in which a
    sweep meets the keys is the argument [order] of [sweep].  The metrics are left
    out, the counts of hits and misses are not.

    Theorems: a sweep, in any order, keeps a key exactly when it is young enough
    and moves no time past the clock ([key_cache_sweep]). *)
From Stdlib Require Import ZArith Lia.
From S2P Require Import Prelude.
From stdpp Require Import base numbers list gmap.
Local Open Scope Z_scope.

Module KeyCache.
Section KeyCache.
Context {K : Type} `{EqDecision K, !Countable K}.

(** [m_map] holds [Entry::last_access]. *)
Record KeyCache : Type := {
  m_map : gmap K Z;
  m_target_size : Z;
  m_target_age : Z;
  hits : Z;
  misses : Z }.

Definition new_key_cache (target_size expiration_seconds : Z) : KeyCache :=
  {| m_map := ∅; m_target_size := u32 target_size; m_target_age := expiration_seconds; hits := 0; misses := 0 |}.

Definition with_map (c : KeyCache) (m : gmap K Z) : KeyCache :=
  {| m_map := m; m_target_size := m_target_size c; m_target_age := m_target_age c; hits := hits c; misses := misses c |}.

Definition hit (c : KeyCache) : KeyCache :=
  {| m_map := m_map c; m_target_size := m_target_size c; m_target_age := m_target_age c; hits := u64 (hits c + 1);
     misses := misses c |}.
Definition miss (c : KeyCache) : KeyCache :=
  {| m_map := m_map c; m_target_size := m_target_size c; m_target_age := m_target_age c; hits := hits c;
     misses := u64 (misses c + 1) |}.

Definition cache_size (c : KeyCache) : Z := Z.of_nat (size (m_map c)).
Definition clear (c : KeyCache) : KeyCache := with_map c ∅.
Definition setTargetSize (s : Z) (c : KeyCache) : KeyCache :=
  {| m_map := m_map c; m_target_size := u32 s; m_target_age := m_target_age c; hits := hits c; misses := misses c |}.
Definition setTargetAge (s : Z) (c : KeyCache) : KeyCache :=
  {| m_map := m_map c; m_target_size := m_target_size c; m_target_age := i64 s; hits := hits c; misses := misses c |}.

Definition key_exists (key : K) (c : KeyCache) : bool * KeyCache :=
  match m_map c !! key with
  | Some _ => (true, hit c)
  | None => (false, miss c)
  end.

Definition insert (now : Z) (key : K) (c : KeyCache) : bool * KeyCache :=
  match m_map c !! key with
  | Some _ => (false, with_map c (<[key := now]> (m_map c)))
  | None => (true, with_map c (<[key := now]> (m_map c)))
  end.

Definition touch_if_exists (now : Z) (key : K) (c : KeyCache) : bool * KeyCache :=
  match m_map c !! key with
  | None => (false, miss c)
  | Some _ => (true, hit (with_map c (<[key := now]> (m_map c))))
  end.

Definition erase (key : K) (c : KeyCache) : bool * KeyCache :=
  match m_map c !! key with
  | Some _ => (true, hit (with_map c (delete key (m_map c))))
  | None => (false, miss c)
  end.

(** The product is a signed 64-bit number, the quotient an unsigned one. *)
Definition when_expire (now : Z) (c : KeyCache) : Z :=
  if (m_target_size c =? 0) || (cache_size c <=? m_target_size c) then now - m_target_age c
  else
    let when := now - i64 (u64 (i64 (m_target_age c * m_target_size c)) / cache_size c) in
    if when >? now - 1 then now - 1 else when.

Definition sweep_entry (now expire : Z) (key : K) (m : gmap K Z) : gmap K Z :=
  match m !! key with
  | None => m
  | Some last_access =>
      if last_access >? now then <[key := now]> m
      else if last_access <=? expire then delete key m
      else m
  end.

Fixpoint sweep_loop (now expire : Z) (order : list K) (m : gmap K Z) : gmap K Z :=
  match order with
  | [] => m
  | key :: order => sweep_loop now expire order (sweep_entry now expire key m)
  end.

Definition sweep (now : Z) (order : list K) (c : KeyCache) : KeyCache :=
  with_map c (sweep_loop now (when_expire now c) order (m_map c)).

(** A traversal of the table meets every key once. *)
Definition traverses (order : list K) (c : KeyCache) : Prop :=
  NoDup order /\ forall k, k ∈ order <-> is_Some (m_map c !! k).

Definition kept (now expire : Z) (last_access : Z) : option Z :=
  if last_access >? now then Some now else if last_access <=? expire then None else Some last_access.

Lemma sweep_entry_same now expire k (m : gmap K Z) : sweep_entry now expire k m !! k = m !! k ≫= kept now expire.
Proof.
  unfold sweep_entry, kept. destruct (m !! k) as [t|] eqn:Hk; cbn [mbind option_bind]; [|done].
  destruct (t >? now); [by rewrite lookup_insert_eq|]. destruct (t <=? expire); [by rewrite lookup_delete_eq|done].
Qed.

Lemma sweep_entry_other now expire k k' (m : gmap K Z) : k <> k' -> sweep_entry now expire k m !! k' = m !! k'.
Proof.
  intros Hk. unfold sweep_entry. destruct (m !! k) as [t|]; [|done].
  destruct (t >? now); [by rewrite lookup_insert_ne|]. destruct (t <=? expire); [by rewrite lookup_delete_ne|done].
Qed.

Lemma sweep_loop_lookup now expire order k : forall m : gmap K Z, NoDup order ->
  sweep_loop now expire order m !! k = if decide (k ∈ order) then m !! k ≫= kept now expire else m !! k.
Proof.
  induction order as [|k' order IH]; intros m Hn; cbn [sweep_loop].
  - by rewrite decide_False by apply not_elem_of_nil.
  - apply NoDup_cons in Hn as [Hk' Hn]. rewrite IH by done. destruct (decide (k = k')) as [->|Hne].
    + rewrite decide_False, sweep_entry_same, decide_True by set_solver. done.
    + rewrite sweep_entry_other by done. destruct (decide (k ∈ order)).
      * by rewrite decide_True by set_solver.
      * by rewrite decide_False by set_solver.
Qed.

Lemma sweep_lookup now order c k : traverses order c ->
  m_map (sweep now order c) !! k = m_map c !! k ≫= kept now (when_expire now c).
Proof.
  intros [Hn Hin]. unfold sweep. cbn [m_map with_map]. rewrite sweep_loop_lookup by done.
  destruct (decide (k ∈ order)) as [|Hk]; [done|]. rewrite Hin, <- eq_None_not_Some in Hk. by rewrite Hk.
Qed.

(** What a cache in use satisfies: the age is not negative, and the product of
    [when_expire] stays inside 64 bits. *)
Definition sane (c : KeyCache) : Prop :=
  0 <= m_target_age c /\ 0 <= m_target_size c < 2 ^ 32 /\ m_target_age c * m_target_size c < 2 ^ 63.

(** The age a key may have: the target age, or its share when the cache is over its
    target size, one second at least. *)
Definition allowed_age (c : KeyCache) : Z :=
  if (m_target_size c =? 0) || (cache_size c <=? m_target_size c) then m_target_age c
  else Z.max 1 (m_target_age c * m_target_size c / cache_size c).

Lemma when_expire_allowed now c : sane c -> when_expire now c = now - allowed_age c.
Proof.
  intros (Ha & Hs & Hp). unfold when_expire, allowed_age.
  destruct ((m_target_size c =? 0) || (cache_size c <=? m_target_size c)) eqn:E; [done|].
  apply orb_false_iff in E as [_ E%Z.leb_gt]. assert (Hc : 0 < cache_size c) by lia.
  set (p := m_target_age c * m_target_size c) in *. assert (0 <= p) by nia.
  rewrite (swrap_id 64 p), uwrap_id by (unfold in_s, in_u; lia).
  assert (Hq : 0 <= p / cache_size c <= p).
  { split; [by apply Z.div_pos|]. apply Z.div_le_upper_bound; [done|nia]. }
  rewrite swrap_id by (unfold in_s; lia). rewrite Z.gtb_ltb. destruct (Z.ltb_spec (now - 1) (now - p / cache_size c)); lia.
Qed.
End KeyCache.
Arguments KeyCache K {_ _}.

(** a sweep of a [KeyCache], in whatever order it meets the keys, keeps a key
    exactly when it was used less than the allowed age ago (the target age; when
    the cache is over its target size, its share in proportion but one second at
    least) or at a time the clock has not reached, which it sets back to the clock;
    it adds no key and so never makes the cache larger. *)
Theorem key_cache_sweep {K : Type} `{EqDecision K, !Countable K} (now : Z) (order : list K) (c : KeyCache K) (k : K) :
  sane c -> traverses order c ->
  m_map (sweep now order c) !! k =
    (match m_map c !! k with
     | Some t => if decide (now - t < allowed_age c \/ now < t) then Some (Z.min t now) else None
     | None => None
     end) /\
  cache_size (sweep now order c) <= cache_size c.
Proof.
  intros Hs Ho. split.
  - rewrite (sweep_lookup _ _ _ k Ho), when_expire_allowed by done. destruct (m_map c !! k) as [t|]; [|done].
    cbn [mbind option_bind]. unfold kept. rewrite Z.gtb_ltb. destruct (Z.ltb_spec now t).
    + rewrite decide_True by lia. f_equal. lia.
    + destruct (Z.leb_spec t (now - allowed_age c)); [by rewrite decide_False by lia|].
      rewrite decide_True by lia. f_equal. lia.
  - unfold cache_size. rewrite <- !size_dom. apply inj_le, subseteq_size. intros x. rewrite !elem_of_dom.
    rewrite (sweep_lookup _ _ _ x Ho). intros [t Ht]. destruct (m_map c !! x); [done|discriminate].
Qed.

Definition kc_busy : KeyCache Z :=
  setTargetSize 2 (foldr (fun p c => (insert p.2 p.1 c).2) (new_key_cache 0 120) [(1, 1000); (2, 950); (3, 1002); (4, 960)]).

Lemma key_cache_sweep_witness :
  allowed_age kc_busy = 60 /\
  (fun k => m_map (sweep 1010 [4; 3; 2; 1] kc_busy) !! k) <$> [1; 2; 3; 4] = [Some 1000; None; Some 1002; Some 960].
Proof.
  assert (Hs : sane kc_busy) by by_decide.
  assert (Ho : traverses [4; 3; 2; 1] kc_busy).
  { split; [by_decide|]. intros k. rewrite <- elem_of_dom. unfold kc_busy. set_solver. }
  split; [reflexivity|]. cbn [fmap list_fmap].
  rewrite !(fun k => proj1 (key_cache_sweep 1010 _ kc_busy k Hs Ho)). reflexivity.
Defined.
End KeyCache.
