(* ===== verification/SHAMapNode.v ===== *)
(** * Nodes of the SHAMap: positions, contents, wire formats

    [src/src/ripple_app/shamap/SHAMapNodeID.h/.cpp], [SHAMapTreeNode.h/.cpp],
    [SHAMapItem.h] and the prefixes of [ripple_data/protocol/HashPrefix].

    A SHAMap is a radix tree of fan-out 16 over 256-bit keys.  [SHAMapNodeID] is
    a position in it: a key prefix and its length in nibbles.  [SHAMapTreeNode]
    is a node: a leaf with an item, or an inner node with the hashes of its 16
    children, pointers to those that are loaded, and a bit per child.  A
    [uint256] is the list of its 32 bytes here ([begin()..end()]).

    SHA-512 is outside the repository: [sha512half] is a parameter, of which only
    the width of its result is assumed.

    Theorems: walking down by [selectBranch] and [getChildNodeID] visits the
    prefixes of the key ([walk_positions]); both node formats round-trip
    ([node_raw_roundtrip]); the wire format is rejected exactly in the listed
    cases, with the listed errors ([wire_errors]). *)
From Stdlib Require Import ZArith Lia.
From S2P Require Import Prelude BaseUint Serializer.
From stdpp Require Import base numbers list gmap strings.
Import BaseUint Serializer.
Local Open Scope Z_scope.

Module SHAMapNode.

(** ** Keys *)

(** A [uint256] by its bytes. *)
Abbreviation uint256 := (list Z).

Definition is_uint256 (k : uint256) : Prop := length k = 32%nat /\ Forall is_u8 k.

#[export] Instance is_uint256_dec k : Decision (is_uint256 k).
Proof. unfold is_uint256. apply _. Defined.

Definition zero256 : uint256 := replicate 32 0.

Definition isZero (k : uint256) : bool := forallb (fun b => b =? 0) k.

(** [operator <] and [operator >]: the first differing byte decides. *)
Definition key_ltb (a b : uint256) : bool :=
  match mismatch a b with
  | Some (x, y) => x <? y
  | None => false
  end.

(** ** Positions *)

Record SHAMapNodeID : Type := { mNodeID : uint256; mDepth : Z }.

#[export] Instance SHAMapNodeID_eq_dec : EqDecision SHAMapNodeID.
Proof. solve_decision. Defined.

(** The default constructor: the root. *)
Definition root_id : SHAMapNodeID := {| mNodeID := zero256; mDepth := 0 |}.

(** [masks_t]: entry [2j] selects [j] bytes, entry [2j+1] one nibble more. *)
Fixpoint masks_loop (n j : nat) (selector : uint256) : list uint256 :=
  match n with
  | O => [selector]
  | S n => selector :: <[j := 0xF0]> selector :: masks_loop n (S j) (<[j := 0xFF]> selector)
  end.

Definition Masks (depth : Z) : uint256 := masks_loop 32 0 zero256 !!! Z.to_nat depth.

Definition land256 (a b : uint256) : uint256 := zip_with Z.land a b.

(** [SHAMapNodeID (int depth, uint256 const& hash)]. *)
Definition NodeID_of (depth : Z) (hash : uint256) : SHAMapNodeID :=
  {| mNodeID := land256 hash (Masks depth); mDepth := depth |}.

(** [SHAMapNodeID (void const* ptr, int len)], on a buffer of [len] bytes. *)
Definition NodeID_raw (ptr : Blob) : SHAMapNodeID :=
  if (length ptr <? 33)%nat then {| mNodeID := zero256; mDepth := -1 |}
  else {| mNodeID := take 32 ptr; mDepth := ptr !!! 32%nat |}.

Definition addIDRaw (id : SHAMapNodeID) (s : Blob) : Blob := s ++ mNodeID id ++ [u8 (mDepth id)].

Definition isValidID (id : SHAMapNodeID) : bool := (0 <=? mDepth id) && (mDepth id <? 64).
Definition isRoot (id : SHAMapNodeID) : bool := mDepth id =? 0.

Definition getParentNodeID (id : SHAMapNodeID) : SHAMapNodeID := NodeID_of (mDepth id - 1) (mNodeID id).

(** The byte of a key a depth falls in; [None] outside the array. *)
Definition depth_byte (depth : Z) (k : uint256) : option Z :=
  if depth <? 0 then None else k !! Z.to_nat (depth / 2).

Definition getChildNodeID (id : SHAMapNodeID) (m : Z) : option SHAMapNodeID :=
  b ← depth_byte (mDepth id) (mNodeID id);
  let nibble := if negb (Z.land (mDepth id) 1 =? 0) then m else Z.shiftl m 4 in
  Some {| mNodeID := <[Z.to_nat (mDepth id / 2) := Z.lor b nibble]> (mNodeID id); mDepth := mDepth id + 1 |}.

Definition selectBranch (id : SHAMapNodeID) (hash : uint256) : option Z :=
  branch ← depth_byte (mDepth id) hash;
  Some (if negb (Z.land (mDepth id) 1 =? 0) then Z.land branch 0xf else Z.shiftr branch 4).

(** The comparisons of positions: [std::tie (mDepth, mNodeID)], and the four
    derived operators as they are written. *)
Definition id_ltb (a b : SHAMapNodeID) : bool :=
  (mDepth a <? mDepth b) || ((mDepth a =? mDepth b) && key_ltb (mNodeID a) (mNodeID b)).
Definition id_gtb (a b : SHAMapNodeID) : bool := id_ltb b a.
Definition id_leb (a b : SHAMapNodeID) : bool := negb (id_ltb a b).
Definition id_geb (a b : SHAMapNodeID) : bool := negb (id_ltb b a).
Definition id_eqb (a b : SHAMapNodeID) : bool := (mDepth a =? mDepth b) && bool_decide (mNodeID a = mNodeID b).

(** ** Nodes *)

Inductive TNType : Type :=
| tnERROR
| tnINNER
| tnTRANSACTION_NM
| tnTRANSACTION_MD
| tnACCOUNT_STATE.

Inductive SHANodeFormat : Type :=
| snfPREFIX
| snfWIRE
| snfHASH.

#[export] Instance TNType_eq_dec : EqDecision TNType.
Proof. solve_decision. Defined.

Record SHAMapItem : Type := { mTag : uint256; mData : Blob }.

#[export] Instance SHAMapItem_eq_dec : EqDecision SHAMapItem.
Proof. solve_decision. Defined.

(** A [boost::shared_ptr] to a node: the address of a cell of the store. *)
Abbreviation loc := nat.

Record InnerData : Type := {
  mHashes : list uint256;
  mChildren : list (option loc);
  mIsBranch : Z;
  mFullBelow : bool }.

Record SHAMapTreeNode : Type := {
  mHash : uint256;
  mItem : option SHAMapItem;
  mSeq : Z;
  mType : TNType;
  mInner : option InnerData }.

#[export] Instance InnerData_eq_dec : EqDecision InnerData.
Proof. solve_decision. Defined.
#[export] Instance SHAMapTreeNode_eq_dec : EqDecision SHAMapTreeNode.
Proof. solve_decision. Defined.

(** [make_unique <InnerData> ()]. *)
Definition new_inner : InnerData :=
  {| mHashes := replicate 16 zero256; mChildren := replicate 16 None; mIsBranch := 0; mFullBelow := false |}.

(** [HashPrefix]. *)
Definition hash_prefix (a b c : Z) : Z :=
  let m := u32 a in
  let m := u32 (Z.shiftl m 8 + b) in
  let m := u32 (Z.shiftl m 8 + c) in
  u32 (Z.shiftl m 8).

Definition pfx_transactionID : Z := hash_prefix 84 88 78.
Definition pfx_txNode : Z := hash_prefix 83 78 68.
Definition pfx_leafNode : Z := hash_prefix 77 76 78.
Definition pfx_innerNode : Z := hash_prefix 77 73 78.

(** SHA-512 cut to its first 256 bits. *)
Class SHA512 : Type := {
  sha512half : Blob -> uint256;
  sha512half_key : forall b, is_uint256 (sha512half b) }.

Section Node.
Context `{SHA : SHA512}.

(** [getPrefixHash]: the prefix is hashed in big-endian order before the data. *)
Definition getPrefixHash (prefix : Z) (data : Blob) : uint256 :=
  sha512half (snd (add32 prefix []) ++ data).

Definition isLeaf (n : SHAMapTreeNode) : bool :=
  match mType n with
  | tnTRANSACTION_NM | tnTRANSACTION_MD | tnACCOUNT_STATE => true
  | _ => false
  end.
Definition isInner (n : SHAMapTreeNode) : bool := bool_decide (mType n = tnINNER).
Definition hasItem (n : SHAMapTreeNode) : bool := match mItem n with Some _ => true | None => false end.

Definition is_branch (inner : InnerData) (m : Z) : bool := negb (Z.land (mIsBranch inner) (Z.shiftl 1 m) =? 0).

Definition branches : list Z := [0; 1; 2; 3; 4; 5; 6; 7; 8; 9; 10; 11; 12; 13; 14; 15].

Definition null_inner : string := "mInner is null".
Definition null_item : string := "mItem is null".

Definition inner_of (n : SHAMapTreeNode) : result InnerData :=
  match mInner n with Some i => Ok i | None => Throw (undefined null_inner) end.
Definition item_of (n : SHAMapTreeNode) : result SHAMapItem :=
  match mItem n with Some i => Ok i | None => Throw (undefined null_item) end.

Definition isEmptyBranch (n : SHAMapTreeNode) (m : Z) : result bool :=
  inner ← inner_of n; mret (negb (is_branch inner m)).
Definition isEmpty (n : SHAMapTreeNode) : result bool :=
  inner ← inner_of n; mret (mIsBranch inner =? 0).
Definition getBranchCount (n : SHAMapTreeNode) : result Z :=
  inner ← inner_of n; mret (Z.of_nat (length (filter (fun i => is_branch inner i = true) branches))).

(** The hash [updateHash] computes. *)
Definition node_hash (n : SHAMapTreeNode) : result uint256 :=
  match mType n with
  | tnINNER =>
      inner ← inner_of n;
      mret (if negb (mIsBranch inner =? 0) then getPrefixHash pfx_innerNode (concat (mHashes inner)) else zero256)
  | tnTRANSACTION_NM => item ← item_of n; mret (getPrefixHash pfx_transactionID (mData item))
  | tnACCOUNT_STATE =>
      item ← item_of n;
      mret (sha512half (snd (add32 pfx_leafNode []) ++ mData item ++ mTag item))
  | tnTRANSACTION_MD =>
      item ← item_of n;
      mret (sha512half (snd (add32 pfx_txNode []) ++ mData item ++ mTag item))
  | tnERROR => mret zero256
  end.

Definition with_hash (n : SHAMapTreeNode) (h : uint256) : SHAMapTreeNode :=
  {| mHash := h; mItem := mItem n; mSeq := mSeq n; mType := mType n; mInner := mInner n |}.

(** [updateHash]: the node with its new hash, and whether it changed. *)
Definition updateHash (n : SHAMapTreeNode) : result (SHAMapTreeNode * bool) :=
  nh ← node_hash n;
  mret (if bool_decide (nh = mHash n) then (n, false) else (with_hash n nh, true)).

(** *** Constructors *)

(** [SHAMapTreeNode (std::uint32_t seq)]. *)
Definition empty_node (seq : Z) : SHAMapTreeNode :=
  {| mHash := zero256; mItem := None; mSeq := seq; mType := tnERROR; mInner := None |}.

(** [SHAMapTreeNode (const SHAMapTreeNode& node, std::uint32_t seq)]. *)
Definition copy_node (node : SHAMapTreeNode) (seq : Z) : result SHAMapTreeNode :=
  if negb (isInner node) then
    mret {| mHash := mHash node; mItem := mItem node; mSeq := seq; mType := mType node; mInner := None |}
  else
    inner ← inner_of node;
    mret {| mHash := mHash node; mItem := None; mSeq := seq; mType := mType node;
            mInner := Some {| mHashes := mHashes inner; mChildren := mChildren inner;
                              mIsBranch := mIsBranch inner; mFullBelow := false |} |}.

(** [SHAMapTreeNode (SHAMapItem::ref item, TNType type, std::uint32_t seq)]. *)
Definition item_node (item : SHAMapItem) (type : TNType) (seq : Z) : result SHAMapTreeNode :=
  fst <$> updateHash {| mHash := zero256; mItem := Some item; mSeq := seq; mType := type; mInner := None |}.

(** *** Mutators *)

Definition setItem (n : SHAMapTreeNode) (i : SHAMapItem) (type : TNType) : result (SHAMapTreeNode * bool) :=
  updateHash {| mHash := mHash n; mItem := Some i; mSeq := mSeq n; mType := type; mInner := mInner n |}.

Definition makeInner (n : SHAMapTreeNode) : SHAMapTreeNode :=
  {| mHash := zero256; mItem := None; mSeq := mSeq n; mType := tnINNER; mInner := Some new_inner |}.

Definition setSeq (n : SHAMapTreeNode) (s : Z) : SHAMapTreeNode :=
  {| mHash := mHash n; mItem := mItem n; mSeq := s; mType := mType n; mInner := mInner n |}.

Definition with_inner (n : SHAMapTreeNode) (inner : InnerData) : SHAMapTreeNode :=
  {| mHash := mHash n; mItem := mItem n; mSeq := mSeq n; mType := mType n; mInner := Some inner |}.

Definition setChild (n : SHAMapTreeNode) (m : Z) (hash : uint256) (child : option loc)
    : result (SHAMapTreeNode * bool) :=
  inner ← inner_of n;
  if bool_decide (mHashes inner !!! Z.to_nat m = hash) then mret (n, false)
  else
    updateHash (with_inner n
      {| mHashes := <[Z.to_nat m := hash]> (mHashes inner);
         mChildren := <[Z.to_nat m := child]> (mChildren inner);
         mIsBranch := (if negb (isZero hash) then Z.lor (mIsBranch inner) (Z.shiftl 1 m)
                       else Z.land (mIsBranch inner) (Z.lnot (Z.shiftl 1 m)));
         mFullBelow := mFullBelow inner |}).

Definition set_pointer (inner : InnerData) (m : Z) (child : loc) : InnerData :=
  {| mHashes := mHashes inner; mChildren := <[Z.to_nat m := Some child]> (mChildren inner);
     mIsBranch := mIsBranch inner; mFullBelow := mFullBelow inner |}.

Definition shareChild (n : SHAMapTreeNode) (m : Z) (child : loc) : result SHAMapTreeNode :=
  inner ← inner_of n; mret (with_inner n (set_pointer inner m child)).

Definition getChild (n : SHAMapTreeNode) (branch : Z) : result (option loc) :=
  inner ← inner_of n; mret (mChildren inner !!! Z.to_nat branch).

Definition getChildHash (n : SHAMapTreeNode) (m : Z) : result uint256 :=
  inner ← inner_of n; mret (mHashes inner !!! Z.to_nat m).

(** [canonicalizeChild]: the node to use, and the parent with it hooked up. *)
Definition canonicalizeChild (n : SHAMapTreeNode) (branch : Z) (node : loc) : result (loc * SHAMapTreeNode) :=
  inner ← inner_of n;
  mret (match mChildren inner !!! Z.to_nat branch with
        | Some c => (c, n)
        | None => (node, with_inner n (set_pointer inner branch node))
        end).

(** *** Formats *)

Definition add256 (k : uint256) (s : Blob) : Blob := s ++ k.
Definition add8' (b : Z) (s : Blob) : Blob := snd (add8 b s).
Definition add32' (i : Z) (s : Blob) : Blob := snd (add32 i s).

Definition addRaw_node (n : SHAMapTreeNode) (format : SHANodeFormat) (s : Blob) : result Blob :=
  if decide (mType n = tnERROR) then Throw (runtime_error "invalid I node type")
  else match format with
  | snfHASH => mret (add256 (mHash n) s)
  | _ =>
      match mType n with
      | tnINNER =>
          inner ← inner_of n;
          match format with
          | snfPREFIX =>
              mret (fold_left (fun s k => add256 k s) (mHashes inner) (add32' pfx_innerNode s))
          | _ =>
              count ← getBranchCount n;
              mret (if count <? 12 then
                      add8' 3 (fold_left (fun s i =>
                        if is_branch inner i then add8' i (add256 (mHashes inner !!! Z.to_nat i) s) else s) branches s)
                    else add8' 2 (fold_left (fun s k => add256 k s) (mHashes inner) s))
          end
      | tnACCOUNT_STATE =>
          item ← item_of n;
          mret (match format with
                | snfPREFIX => add256 (mTag item) (add32' pfx_leafNode s ++ mData item)
                | _ => add8' 1 (add256 (mTag item) (s ++ mData item))
                end)
      | tnTRANSACTION_NM =>
          item ← item_of n;
          mret (match format with
                | snfPREFIX => add32' pfx_transactionID s ++ mData item
                | _ => add8' 0 (s ++ mData item)
                end)
      | tnTRANSACTION_MD =>
          item ← item_of n;
          mret (match format with
                | snfPREFIX => add256 (mTag item) (add32' pfx_txNode s ++ mData item)
                | _ => add8' 4 (add256 (mTag item) (s ++ mData item))
                end)
      | tnERROR => mret s
      end
  end.

(** [s.get256 (o, offset)] leaves [o] as it was when the bytes are not there. *)
Definition get256_at (offset : nat) (s : Blob) (o : uint256) : uint256 :=
  default o (bytes_at offset 32 s).

(** One step of the loops that read hashes: store at [pos], set the bit. *)
Definition read_hash (s : Blob) (inner : InnerData) (pos : Z) (offset : nat) : InnerData :=
  let h := get256_at offset s (mHashes inner !!! Z.to_nat pos) in
  {| mHashes := <[Z.to_nat pos := h]> (mHashes inner); mChildren := mChildren inner;
     mIsBranch := (if negb (isZero h) then Z.lor (mIsBranch inner) (Z.shiftl 1 pos) else mIsBranch inner);
     mFullBelow := mFullBelow inner |}.

(** The full inner node: 16 hashes in a row. *)
Definition read_full (s : Blob) : InnerData :=
  fold_left (fun inner i => read_hash s inner i (Z.to_nat i * 32)) branches new_inner.

(** The compressed inner node: entries of a hash and its position. *)
Fixpoint read_compressed (s : Blob) (n i : nat) (inner : InnerData) : result InnerData :=
  match n with
  | O => mret inner
  | S n =>
      let pos := default 0 (get8 (32 + i * 33) s) in
      if (pos <? 0) || (pos >=? 16) then Throw (runtime_error "invalid CI node")
      else read_compressed s n (S i) (read_hash s inner pos (i * 33))
  end.

(** An item whose key is the last 32 bytes of the buffer. *)
Definition tagged_item (short invalid : string) (check_zero : bool) (s : Blob) : result SHAMapItem :=
  if (length s <? 32)%nat then Throw (runtime_error short)
  else
    let u := get256_at (length s - 32) s zero256 in
    if check_zero && isZero u then Throw (runtime_error invalid)
    else mret {| mTag := u; mData := snd (chop 32 s) |}.

Definition item_contents (type : TNType) (item : SHAMapItem) (seq : Z) : SHAMapTreeNode :=
  {| mHash := zero256; mItem := Some item; mSeq := seq; mType := type; mInner := None |}.
Definition inner_contents (inner : InnerData) (seq : Z) : SHAMapTreeNode :=
  {| mHash := zero256; mItem := None; mSeq := seq; mType := tnINNER; mInner := Some inner |}.

(** What the wire form holds. *)
Definition read_wire (rawNode : Blob) (seq : Z) : result SHAMapTreeNode :=
  let '(type, s) := removeLastByte rawNode in
  if (type <? 0) || (type >? 4) then Throw (runtime_error "invalid node AW type")
  else if type =? 0 then
    mret (item_contents tnTRANSACTION_NM {| mTag := getPrefixHash pfx_transactionID s; mData := s |} seq)
  else if type =? 1 then
    item ← tagged_item "short AS node" "invalid AS node" true s; mret (item_contents tnACCOUNT_STATE item seq)
  else if type =? 2 then
    if negb (length s =? 512)%nat then Throw (runtime_error "invalid FI node")
    else mret (inner_contents (read_full s) seq)
  else if type =? 3 then
    inner ← read_compressed s (length s / 33) 0 new_inner; mret (inner_contents inner seq)
  else
    item ← tagged_item "short TM node" "invalid TM node" true s; mret (item_contents tnTRANSACTION_MD item seq).

(** What the prefixed form holds. *)
Definition read_prefix (rawNode : Blob) (seq : Z) : result SHAMapTreeNode :=
  if (length rawNode <? 4)%nat then Throw (runtime_error "invalid P node")
  else
    let prefix := get_be 32 (take 4 rawNode) in
    let s := drop 4 rawNode in
    if prefix =? pfx_transactionID then
      mret (item_contents tnTRANSACTION_NM {| mTag := sha512half rawNode; mData := s |} seq)
    else if prefix =? pfx_leafNode then
      item ← tagged_item "short PLN node" "invalid PLN node" true s; mret (item_contents tnACCOUNT_STATE item seq)
    else if prefix =? pfx_innerNode then
      if negb (length s =? 512)%nat then Throw (runtime_error "invalid PIN node")
      else mret (inner_contents (read_full s) seq)
    else if prefix =? pfx_txNode then
      item ← tagged_item "short TXN node" "" false s; mret (item_contents tnTRANSACTION_MD item seq)
    else Throw (runtime_error "invalid node prefix").

(** [SHAMapTreeNode (Blob const& rawNode, seq, format, hash, hashValid)]. *)
Definition raw_node (rawNode : Blob) (seq : Z) (format : SHANodeFormat) (hash : uint256) (hashValid : bool)
    : result SHAMapTreeNode :=
  n ← match format with
      | snfWIRE => read_wire rawNode seq
      | snfPREFIX => read_prefix rawNode seq
      | snfHASH => Throw (runtime_error "Unknown format")
      end;
  if hashValid then mret (with_hash n hash) else fst <$> updateHash n.

End Node.

(** ** Nibbles *)

(** The [d]-th nibble of a key, from the most significant. *)
Definition nib (k : uint256) (d : nat) : Z :=
  if Nat.odd d then Z.land (k !!! (d / 2)%nat) 0xf else Z.shiftr (k !!! (d / 2)%nat) 4.

Definition nibbles (k : uint256) : list Z := map (nib k) (seq 0 64).

Lemma half_nat d : Z.to_nat (Z.of_nat d / 2) = (d / 2)%nat.
Proof. change 2 with (Z.of_nat 2). by rewrite <- Nat2Z.inj_div, Nat2Z.id. Qed.

Lemma odd_land d : negb (Z.land (Z.of_nat d) 1 =? 0) = Nat.odd d.
Proof.
  change 1 with (Z.ones 1). rewrite Z.land_ones by lia. change (2 ^ 1) with (Z.of_nat 2).
  rewrite <- Nat2Z.inj_mod. rewrite <- Nat.negb_even. f_equal.
  destruct (Nat.even d) eqn:E.
  - apply Nat.even_spec in E as [x ->]. rewrite Nat.mul_comm, Nat.Div0.mod_mul. done.
  - assert (Nat.odd d = true) as [x ->]%Nat.odd_spec by (by rewrite <- Nat.negb_even, E).
    rewrite Nat.add_comm, Nat.mul_comm, Nat.Div0.mod_add. done.
Qed.

Lemma half_lt d n : (d < 2 * n)%nat -> (d / 2 < n)%nat.
Proof. intros. apply Nat.Div0.div_lt_upper_bound. lia. Qed.

Lemma key_byte k j : is_uint256 k -> (j < 32)%nat -> k !! j = Some (k !!! j) /\ is_u8 (k !!! j).
Proof.
  intros [Hl Hb] Hj. destruct (lookup_lt_is_Some_2 k j) as [x Hx]; [lia|].
  rewrite (list_lookup_total_correct _ _ _ Hx). split; [done|]. by apply (Forall_lookup_1 _ _ _ _ Hb Hx).
Qed.

Lemma nib_range k d : is_uint256 k -> (d < 64)%nat -> 0 <= nib k d < 16.
Proof.
  intros Hk Hd. destruct (key_byte k (d / 2) Hk) as [_ Hb]; [apply half_lt; lia|].
  destruct (BaseUint.nibbles _ Hb) as (? & ? & _). unfold nib. by destruct (Nat.odd d).
Qed.

Lemma depth_byte_key k d :
  is_uint256 k -> (d < 64)%nat -> depth_byte (Z.of_nat d) k = Some (k !!! (d / 2)%nat).
Proof.
  intros Hk Hd. unfold depth_byte. rewrite (proj2 (Z.ltb_ge _ _)) by lia. rewrite half_nat.
  apply key_byte; [done|]. apply half_lt. lia.
Qed.

Lemma selectBranch_nib id k d :
  mDepth id = Z.of_nat d -> is_uint256 k -> (d < 64)%nat -> selectBranch id k = Some (nib k d).
Proof.
  intros Hid Hk Hd. unfold selectBranch. rewrite Hid, depth_byte_key by done. cbn [mbind option_bind].
  by rewrite odd_land.
Qed.

Lemma nib_byte k j : is_uint256 k -> (j < 32)%nat -> k !!! j = nib k (2 * j) * 16 + nib k (2 * j + 1).
Proof.
  intros Hk Hj. destruct (key_byte k j Hk Hj) as [_ Hb].
  destruct (BaseUint.nibbles _ Hb) as (? & ? & Hn). unfold nib.
  assert (Nat.odd (2 * j) = false) as -> by (by rewrite Nat.odd_mul).
  assert (Nat.odd (2 * j + 1) = true) as -> by (by rewrite Nat.add_1_r, Nat.odd_succ, Nat.even_mul).
  replace (2 * j / 2)%nat with j by (rewrite Nat.mul_comm, Nat.div_mul; lia).
  replace ((2 * j + 1) / 2)%nat with j; [|].
  { rewrite <- Hn at 1. rewrite u8_id by (rewrite Z.shiftl_mul_pow2; lia). rewrite lor_shiftl_add by lia. lia. }
  rewrite Nat.mul_comm, Nat.div_add_l by lia. simpl. lia.
Qed.

(** A key is its nibbles. *)
Lemma nibbles_inj a b :
  is_uint256 a -> is_uint256 b -> (forall d, (d < 64)%nat -> nib a d = nib b d) -> a = b.
Proof.
  intros Ha Hb H. apply list_eq. intros j. destruct (decide (j < 32)%nat) as [Hj|].
  - destruct (key_byte a j Ha Hj) as [-> _], (key_byte b j Hb Hj) as [-> _].
    by rewrite (nib_byte a), (nib_byte b), !H by (done || lia).
  - destruct Ha, Hb. rewrite !lookup_ge_None_2 by lia. done.
Qed.

(** Two keys that agree below [d] and differ have a first differing nibble. *)
Lemma first_difference a b d :
  is_uint256 a -> is_uint256 b -> a <> b -> (forall i, (i < d)%nat -> nib a i = nib b i) ->
  exists j, (d <= j < 64)%nat /\ nib a j <> nib b j /\ forall i, (i < j)%nat -> nib a i = nib b i.
Proof.
  intros Ha Hb Hne Hpre.
  destruct (decide (Exists (fun j => nib a j <> nib b j) (seq 0 64))) as [Hex|Hno].
  - assert (H : forall n, (exists j, (j < n <= 64)%nat /\ nib a j <> nib b j) ->
      exists j, (j < n)%nat /\ nib a j <> nib b j /\ forall i, (i < j)%nat -> nib a i = nib b i).
    { induction n as [|n IH]; intros (j & Hj & Hd); [lia|].
      destruct (decide (Exists (fun i => nib a i <> nib b i) (seq 0 n))) as [(i & Hi & Hi')%Exists_exists|Hall].
      - apply elem_of_seq in Hi. destruct IH as (j' & ? & ? & ?); [exists i; split; [lia|done]|].
        exists j'. split_and!; [lia|done|done].
      - assert (forall i, (i < n)%nat -> nib a i = nib b i) as Heq.
        { intros i Hi. destruct (decide (nib a i = nib b i)); [done|]. destruct Hall. apply Exists_exists.
          exists i. split; [apply elem_of_seq; lia|done]. }
        exists j. split; [lia|]. split; [done|]. intros i Hi. apply Heq. lia. }
    apply Exists_exists in Hex as (j & Hj%elem_of_seq & Hd).
    destruct (H 64%nat) as (j' & ? & ? & ?); [exists j; split; [lia|done]|].
    exists j'. split_and!; [|lia|done|done]. destruct (decide (d <= j')%nat); [done|].
    exfalso. apply H1. apply Hpre. lia.
  - destruct Hne. apply nibbles_inj; [done|done|]. intros i Hi. destruct (decide (nib a i = nib b i)); [done|].
    destruct Hno. apply Exists_exists. exists i. split; [apply elem_of_seq; lia|done].
Qed.

(** ** Positions along a key *)

Definition mask_byte (d j : nat) : Z :=
  if (2 * j + 2 <=? d)%nat then 255 else if (2 * j + 1 =? d)%nat then 240 else 0.

Lemma Masks_byte d : (d <= 64)%nat -> Masks (Z.of_nat d) = map (mask_byte d) (seq 0 32).
Proof.
  intros Hd. assert (H : Forall (fun d => Masks (Z.of_nat d) = map (mask_byte d) (seq 0 32)) (seq 0 65)) by by_decide.
  rewrite List.Forall_forall in H. apply H, in_seq. lia.
Qed.

Lemma length_land256 a b : length (land256 a b) = (length a `min` length b)%nat.
Proof. apply length_zip_with. Qed.

(** Byte [j] of the position of depth [d] above [k]. *)
Lemma NodeID_of_byte d k j :
  is_uint256 k -> (d <= 64)%nat -> (j < 32)%nat ->
  mNodeID (NodeID_of (Z.of_nat d) k) !! j = Some (Z.land (k !!! j) (mask_byte d j)).
Proof.
  intros Hk Hd Hj. cbn [NodeID_of mNodeID]. unfold land256. rewrite Masks_byte by done.
  rewrite lookup_zip_with. destruct (key_byte k j Hk Hj) as [-> _]. cbn [mbind option_bind].
  rewrite list_lookup_fmap, lookup_seq_lt by done. done.
Qed.

Lemma NodeID_of_length d k : is_uint256 k -> (d <= 64)%nat -> length (mNodeID (NodeID_of (Z.of_nat d) k)) = 32%nat.
Proof.
  intros [Hk _] Hd. cbn [NodeID_of mNodeID]. rewrite length_land256, Masks_byte, length_map, length_seq by done. lia.
Qed.

Lemma even_half d : Nat.odd d = false -> d = (2 * (d / 2))%nat.
Proof.
  intros H. assert (Nat.even d = true) as [x ->]%Nat.even_spec by (by rewrite <- Nat.negb_odd, H).
  rewrite (Nat.mul_comm 2 x), Nat.div_mul by lia. lia.
Qed.

Lemma odd_half d : Nat.odd d = true -> d = (2 * (d / 2) + 1)%nat.
Proof.
  intros [x ->]%Nat.odd_spec. f_equal. rewrite (Nat.mul_comm 2 x) at 2. rewrite Nat.div_add_l by lia. simpl. lia.
Qed.

(** Filling in one more nibble of a byte. *)
Lemma fill_nibble b :
  is_u8 b ->
  Z.lor (Z.land b 0) (Z.shiftl (Z.shiftr b 4) 4) = Z.land b 240 /\
  Z.lor (Z.land b 240) (Z.land b 0xf) = Z.land b 255.
Proof.
  intros Hb. assert (H : Forall (fun b => Z.lor (Z.land b 0) (Z.shiftl (Z.shiftr b 4) 4) = Z.land b 240 /\
    Z.lor (Z.land b 240) (Z.land b 0xf) = Z.land b 255) (map Z.of_nat (seq 0 256))) by by_decide.
  rewrite List.Forall_forall in H. apply H, in_map_iff. exists (Z.to_nat b). unfold in_u in Hb.
  split; [lia|]. apply in_seq. lia.
Qed.

Lemma child_position d k :
  is_uint256 k -> (d < 64)%nat ->
  getChildNodeID (NodeID_of (Z.of_nat d) k) (nib k d) = Some (NodeID_of (Z.of_nat (S d)) k).
Proof.
  intros Hk Hd. pose proof (half_lt d 32 Hd) as Hh.
  unfold getChildNodeID, depth_byte. cbn [mDepth NodeID_of]. rewrite (proj2 (Z.ltb_ge _ _)), half_nat by lia.
  change (land256 k (Masks (Z.of_nat d))) with (mNodeID (NodeID_of (Z.of_nat d) k)).
  rewrite (NodeID_of_byte d k _ Hk) by lia. cbn [mbind option_bind]. rewrite odd_land. f_equal.
  unfold NodeID_of at 2. f_equal; [|lia]. change (land256 k (Masks (Z.of_nat (S d)))) with (mNodeID (NodeID_of (Z.of_nat (S d)) k)).
  apply list_eq. intros j. destruct (decide (j < 32)%nat) as [Hj|].
  2:{ rewrite !lookup_ge_None_2; [done| |]; rewrite ?length_insert, NodeID_of_length by (done || lia); lia. }
  rewrite (NodeID_of_byte (S d)) by (done || lia). destruct (key_byte k j Hk Hj) as [_ Hb].
  destruct (fill_nibble _ Hb) as [Hhi Hlo]. destruct (decide (j = (d / 2)%nat)) as [->|Hne].
  - rewrite list_lookup_insert_eq by (rewrite NodeID_of_length; [done|done|lia]). f_equal. unfold nib, mask_byte.
    destruct (Nat.odd d) eqn:E.
    + pose proof (odd_half d E). rewrite (proj2 (Nat.leb_gt _ d)), (proj2 (Nat.eqb_eq _ d)), (proj2 (Nat.leb_le _ (S d))) by lia.
      exact Hlo.
    + pose proof (even_half d E). rewrite !(proj2 (Nat.leb_gt _ _)), (proj2 (Nat.eqb_neq _ d)), (proj2 (Nat.eqb_eq _ (S d))) by lia.
      exact Hhi.
  - rewrite list_lookup_insert_ne, NodeID_of_byte by (done || lia). unfold mask_byte.
    assert (Hc : (2 * j + 2 <= d /\ 2 * j + 2 <= S d \/ (d < 2 * j + 2 /\ S d < 2 * j + 2 /\ 2 * j + 1 <> d /\ 2 * j + 1 <> S d))%nat).
    { pose proof (Nat.div_mod_eq d 2). pose proof (Nat.mod_upper_bound d 2). lia. }
    destruct Hc as [[? ?]|(? & ? & ? & ?)].
    + by rewrite !(proj2 (Nat.leb_le _ _)) by lia.
    + by rewrite !(proj2 (Nat.leb_gt _ _)), !(proj2 (Nat.eqb_neq _ _)) by lia.
Qed.

Lemma root_position k : is_uint256 k -> NodeID_of 0 k = root_id.
Proof.
  intros Hk. unfold root_id, NodeID_of. f_equal. apply list_eq. intros j.
  change (land256 k (Masks 0)) with (mNodeID (NodeID_of (Z.of_nat 0) k)).
  destruct (decide (j < 32)%nat) as [Hj|].
  - rewrite NodeID_of_byte by (done || lia). unfold zero256. rewrite lookup_replicate_2 by done.
    f_equal. unfold mask_byte. rewrite (proj2 (Nat.leb_gt _ _)), (proj2 (Nat.eqb_neq _ _)) by lia. apply Z.land_0_r.
  - rewrite !lookup_ge_None_2; [done|rewrite ?NodeID_of_length by (done || lia); simpl; lia..].
Qed.

(** The positions the loops of the map visit on the way to a key. *)
Fixpoint walk_id (k : uint256) (n : nat) (id : SHAMapNodeID) : option SHAMapNodeID :=
  match n with
  | O => Some id
  | S n => b ← selectBranch id k; id ← getChildNodeID id b; walk_id k n id
  end.

Lemma walk_id_from k n d :
  is_uint256 k -> (d + n <= 64)%nat -> walk_id k n (NodeID_of (Z.of_nat d) k) = Some (NodeID_of (Z.of_nat (d + n)) k).
Proof.
  intros Hk. revert d. induction n as [|n IH]; intros d Hd; cbn [walk_id]; [by rewrite Nat.add_0_r|].
  rewrite (selectBranch_nib _ k d) by (done || lia). cbn [mbind option_bind].
  rewrite child_position by (done || lia). cbn [mbind option_bind]. rewrite IH by lia.
  by replace (S d + n)%nat with (d + S n)%nat by lia.
Qed.

Lemma raw_position d k :
  is_uint256 k -> (d <= 64)%nat ->
  NodeID_raw (addIDRaw (NodeID_of (Z.of_nat d) k) []) = NodeID_of (Z.of_nat d) k.
Proof.
  intros Hk Hd. pose proof (NodeID_of_length d k Hk Hd) as Hl. set (id := NodeID_of (Z.of_nat d) k) in *.
  unfold NodeID_raw, addIDRaw. cbn [app]. rewrite (proj2 (Nat.ltb_ge _ _)) by (rewrite length_app, Hl; simpl; lia).
  rewrite take_app_length' by done. rewrite lookup_total_app_r by lia. rewrite Hl, Nat.sub_diag.
  destruct id as [i z] eqn:E. cbn [lookup_total list_lookup_total mNodeID mDepth].
  assert (z = Z.of_nat d) as -> by (by unfold id in E; injection E). by rewrite u8_id by lia.
Qed.

Lemma parent_position d k :
  is_uint256 k -> (d < 64)%nat -> getParentNodeID (NodeID_of (Z.of_nat (S d)) k) = NodeID_of (Z.of_nat d) k.
Proof.
  intros Hk Hd. unfold getParentNodeID. cbn [mDepth NodeID_of mNodeID].
  replace (Z.of_nat (S d) - 1) with (Z.of_nat d) by lia. unfold NodeID_of. f_equal.
  rewrite !Masks_byte by lia. unfold land256. apply list_eq. intros j. rewrite !lookup_zip_with.
  destruct (k !! j) as [b|] eqn:E; [|done]. cbn [mbind option_bind].
  rewrite !list_lookup_fmap. destruct (seq 0 32 !! j) as [j'|]; [|done]. cbn. f_equal.
  rewrite <- Z.land_assoc. f_equal. unfold mask_byte.
  destruct (Nat.leb_spec (2 * j' + 2) d), (Nat.leb_spec (2 * j' + 2) (S d)); try lia; [done| |].
  - by rewrite (proj2 (Nat.eqb_eq _ _)) by lia.
  - destruct (Nat.eqb_spec (2 * j' + 1) d), (Nat.eqb_spec (2 * j' + 1) (S d)); try lia; done.
Qed.

(** Following [selectBranch] and [getChildNodeID] from the root along a
    256-bit key for [d] levels reaches the position [SHAMapNodeID (d, key)], the
    key masked to its first [d] nibbles; [getParentNodeID] leads back one level,
    and every such position survives [addIDRaw] and the raw constructor. *)
Theorem walk_positions (k : uint256) (d : nat) :
  is_uint256 k -> (d <= 64)%nat ->
  walk_id k d root_id = Some (NodeID_of (Z.of_nat d) k) /\
  NodeID_raw (addIDRaw (NodeID_of (Z.of_nat d) k) []) = NodeID_of (Z.of_nat d) k /\
  ((d < 64)%nat -> getParentNodeID (NodeID_of (Z.of_nat (S d)) k) = NodeID_of (Z.of_nat d) k).
Proof.
  intros Hk Hd. rewrite <- (root_position k Hk). change 0 with (Z.of_nat 0).
  rewrite walk_id_from by (done || lia). split_and!; [done|by apply raw_position|].
  intros. by apply parent_position.
Qed.

Lemma walk_positions_witness : walk_id (map Z.of_nat (seq 1 32)) 5 root_id =
  Some {| mNodeID := [1; 2; 0] ++ replicate 29 0; mDepth := 5 |}.
Proof. refine (eq_trans (proj1 (walk_positions (map Z.of_nat (seq 1 32)) 5 _ _)) _); [by_decide|lia|by vm_compute]. Defined.

(** The operators [<=] and [>=] of positions are each written as the negation of
    the wrong strict order: the root is not [<=] its own child. *)
Lemma id_order_swapped :
  let child := {| mNodeID := zero256; mDepth := 1 |} in
  id_ltb root_id child = true /\ id_leb root_id child = false /\ id_geb root_id child = true.
Proof. by vm_compute. Qed.

(** ** Branch bits *)

Lemma is_branch_testbit inner i : 0 <= i -> is_branch inner i = Z.testbit (mIsBranch inner) i.
Proof.
  intros Hi. unfold is_branch. rewrite Z.shiftl_1_l.
  destruct (Z.testbit (mIsBranch inner) i) eqn:E.
  - apply negb_true_iff, Z.eqb_neq. intros H0.
    assert (H : Z.testbit (Z.land (mIsBranch inner) (2 ^ i)) i = false) by (by rewrite H0, Z.bits_0).
    rewrite Z.land_spec, E, Z.pow2_bits_true in H by lia. done.
  - apply negb_false_iff, Z.eqb_eq, Z.bits_inj'. intros j Hj. rewrite Z.land_spec, Z.bits_0.
    destruct (decide (j = i)) as [->|]; [by rewrite E|]. by rewrite Z.pow2_bits_false, andb_false_r by lia.
Qed.

(** The bits of an inner node say which hashes are not zero. *)
Definition bits_ok (hs : list uint256) (b : Z) : Prop :=
  forall i, 0 <= i -> Z.testbit b i = (i <? 16) && negb (isZero (hs !!! Z.to_nat i)).

Lemma bits_ok_inj hs b b' : bits_ok hs b -> bits_ok hs b' -> b = b'.
Proof. intros H H'. apply Z.bits_inj'. intros i Hi. by rewrite H, H'. Qed.

Lemma isZero_zero256 k : length k = 32%nat -> isZero k = true <-> k = zero256.
Proof.
  intros Hl. unfold isZero, zero256. rewrite <- Hl. clear Hl. induction k as [|b k IH]; [done|].
  cbn [forallb length replicate]. rewrite andb_true_iff, Z.eqb_eq, IH. split; [by intros [-> <-]|].
  intros [= -> H]. done.
Qed.

Lemma zero256_key : is_uint256 zero256.
Proof. by_decide. Qed.

Lemma bits_ok_insert hs b m h :
  0 <= m < 16 -> length hs = 16%nat -> bits_ok hs b ->
  bits_ok (<[Z.to_nat m := h]> hs)
    (if negb (isZero h) then Z.lor b (Z.shiftl 1 m) else Z.land b (Z.lnot (Z.shiftl 1 m))).
Proof.
  intros Hm Hl Hb i Hi. destruct (decide (i = m)) as [->|Hne].
  - rewrite list_lookup_total_insert_eq by lia. rewrite (proj2 (Z.ltb_lt _ _)) by lia. rewrite Z.shiftl_1_l.
    destruct (isZero h); cbn [negb andb].
    + by rewrite Z.land_spec, Z.lnot_spec, Z.pow2_bits_true, andb_false_r by lia.
    + by rewrite Z.lor_spec, Z.pow2_bits_true, orb_true_r by lia.
  - rewrite list_lookup_total_insert_ne by lia. rewrite <- Hb by done. rewrite Z.shiftl_1_l.
    destruct (isZero h); cbn [negb].
    + by rewrite Z.land_spec, Z.lnot_spec, Z.pow2_bits_false, andb_true_r by lia.
    + by rewrite Z.lor_spec, Z.pow2_bits_false, orb_false_r by lia.
Qed.

Lemma bits_ok_new : bits_ok (mHashes new_inner) (mIsBranch new_inner).
Proof.
  intros i Hi. cbn [new_inner mHashes mIsBranch]. rewrite Z.bits_0. destruct (Z.ltb_spec i 16) as [Hlt|]; [|done].
  by rewrite lookup_total_replicate_2 by lia.
Qed.

Definition inner_ok (inner : InnerData) : Prop :=
  length (mHashes inner) = 16%nat /\ Forall is_uint256 (mHashes inner) /\
  bits_ok (mHashes inner) (mIsBranch inner) /\ length (mChildren inner) = 16%nat.

Lemma in_branches i : i ∈ branches <-> 0 <= i < 16.
Proof.
  split; [intros H; rewrite list_elem_of_In in H; cbn in H; lia|].
  intros H. assert (Hall : Forall (fun i => Z.of_nat i ∈ branches) (seq 0 16)) by by_decide.
  rewrite List.Forall_forall in Hall. specialize (Hall (Z.to_nat i)).
  rewrite Z2Nat.id in Hall by lia. apply Hall, in_seq. lia.
Qed.

Lemma branches_lookup i : 0 <= i < 16 -> branches !! Z.to_nat i = Some i.
Proof.
  intros Hi. assert (H : Forall (fun j => branches !! j = Some (Z.of_nat j)) (seq 0 16)) by by_decide.
  rewrite Forall_forall in H. rewrite H by (apply elem_of_seq; lia). f_equal. lia.
Qed.

Lemma in_branches_all (P : Z -> Prop) i : Forall P branches -> 0 <= i < 16 -> P i.
Proof. intros H Hi. rewrite Forall_forall in H. by apply H, in_branches. Qed.

(** ** Reading back an inner node *)

(** The effect of reading the positions [ps] where position [p] holds [hs !!! p]. *)
Definition read_so_far (hs : list uint256) (ps : list Z) (inner : InnerData) : Prop :=
  length (mHashes inner) = 16%nat /\ bits_ok (mHashes inner) (mIsBranch inner) /\
  mChildren inner = replicate 16 None /\ mFullBelow inner = false /\
  forall i, 0 <= i < 16 ->
    mHashes inner !!! Z.to_nat i = if decide (i ∈ ps) then hs !!! Z.to_nat i else zero256.

Lemma read_hash_step hs ps inner s p offset :
  read_so_far hs ps inner -> 0 <= p < 16 -> bytes_at offset 32 s = Some (hs !!! Z.to_nat p) ->
  p ∉ ps -> read_so_far hs (p :: ps) (read_hash s inner p offset).
Proof.
  intros (Hl & Hb & Hc & Hf & Hh) Hp Hs Hnew. unfold read_hash, get256_at. rewrite Hs. cbn [default].
  assert (Hz : Z.land (mIsBranch inner) (Z.lnot (Z.shiftl 1 p)) = mIsBranch inner).
  { apply Z.bits_inj'. intros i Hi. rewrite Z.land_spec, Z.lnot_spec, Z.shiftl_1_l by lia.
    destruct (decide (i = p)) as [->|]; [|by rewrite Z.pow2_bits_false, andb_true_r by lia].
    rewrite Hb, Hh, decide_False by done. by rewrite andb_comm, (proj2 (Z.ltb_lt p 16)), andb_false_r by lia. }
  split_and!; cbn [mHashes mChildren mFullBelow mIsBranch]; [by rewrite length_insert| |done|done|].
  - pose proof (bits_ok_insert (mHashes inner) (mIsBranch inner) p (hs !!! Z.to_nat p) Hp Hl Hb) as H.
    by rewrite Hz in H.
  - intros i Hi. destruct (decide (i = p)) as [->|Hne].
    + rewrite list_lookup_total_insert_eq by lia. by rewrite decide_True by set_solver.
    + rewrite list_lookup_total_insert_ne, Hh by lia. repeat case_decide; set_solver.
Qed.

Lemma read_so_far_new hs : read_so_far hs [] new_inner.
Proof.
  split_and!; [done|apply bits_ok_new|done|done|]. intros i Hi. cbn [new_inner mHashes].
  by rewrite lookup_total_replicate_2 by lia.
Qed.

(** Once all the non-zero hashes are read, the node is complete. *)
Lemma read_all hs b ps inner :
  length hs = 16%nat -> Forall is_uint256 hs -> bits_ok hs b -> read_so_far hs ps inner ->
  (forall i, 0 <= i < 16 -> i ∉ ps -> hs !!! Z.to_nat i = zero256) ->
  inner = {| mHashes := hs; mChildren := replicate 16 None; mIsBranch := b; mFullBelow := false |}.
Proof.
  intros Hhs Hk Hb (Hl & Hb' & Hc & Hf & Hh) Hrest.
  assert (E : mHashes inner = hs).
  { apply list_eq_same_length with 16%nat; [done|done|]. intros i x y Hi Hx Hy.
    specialize (Hh (Z.of_nat i) ltac:(lia)). specialize (Hrest (Z.of_nat i) ltac:(lia)). rewrite Nat2Z.id in *.
    apply list_lookup_total_correct in Hx, Hy. case_decide; [congruence|]. rewrite <- Hx, <- Hy. rewrite Hh. symmetry. auto. }
  destruct inner as [h c b' f]. cbn in *. subst. f_equal. by apply (bits_ok_inj hs).
Qed.

Lemma concat_at hs i :
  Forall is_uint256 hs -> (i < length hs)%nat -> bytes_at (i * 32) 32 (concat hs) = Some (hs !!! i).
Proof.
  intros Hk. revert i. induction Hk as [|h hs [Hh _] Hk IH]; intros i Hi; cbn [length] in *; [lia|].
  destruct i as [|i].
  - unfold bytes_at. cbn [concat]. rewrite (proj2 (Nat.ltb_ge _ _)) by (rewrite length_app; lia).
    change (0 * 32)%nat with 0%nat. by rewrite drop_0, take_app_length' by done.
  - specialize (IH i ltac:(lia)). unfold bytes_at in *. cbn [concat]. rewrite length_app, Hh.
    destruct (Nat.ltb_spec (length (concat hs)) (i * 32 + 32)); [done|].
    rewrite (proj2 (Nat.ltb_ge _ _)) by lia. injection IH as IH.
    rewrite drop_app_ge by lia. rewrite Hh. by replace (S i * 32 - 32)%nat with (i * 32)%nat by lia; rewrite IH.
Qed.

Lemma read_full_concat inner :
  inner_ok inner ->
  read_full (concat (mHashes inner)) =
    {| mHashes := mHashes inner; mChildren := replicate 16 None; mIsBranch := mIsBranch inner; mFullBelow := false |}.
Proof.
  intros (Hl & Hk & Hb & _). unfold read_full.
  assert (H : forall ps done inner', read_so_far (mHashes inner) done inner' -> NoDup ps ->
    (forall p, p ∈ ps -> 0 <= p < 16 /\ p ∉ done) ->
    read_so_far (mHashes inner) (reverse ps ++ done)
      (fold_left (fun i p => read_hash (concat (mHashes inner)) i p (Z.to_nat p * 32)) ps inner')).
  { induction ps as [|p ps IH]; intros dn inner' Hr Hnd Hps; [done|]. cbn [fold_left].
    pose proof (NoDup_cons_1_1 _ _ Hnd) as Hp; apply NoDup_cons_1_2 in Hnd. rewrite reverse_cons, <- app_assoc.
    apply IH; [|done|].
    - apply read_hash_step; [done|apply Hps; set_solver| |apply Hps; set_solver].
      apply concat_at; [done|]. destruct (Hps p) as [? _]; [set_solver|lia].
    - intros q Hq. destruct (Hps q) as [? ?]; [set_solver|]. split; [done|]. set_solver. }
  eapply read_all; [done|done|done|apply (H branches []); [apply read_so_far_new|by_decide|]|].
  - intros p Hp%in_branches. split; [done|set_solver].
  - intros i Hi%in_branches Hn. destruct Hn. rewrite app_nil_r. by apply elem_of_reverse.
Qed.

(** The entries of the compressed form. *)
Definition entry (hs : list uint256) (p : Z) : Blob := (hs !!! Z.to_nat p) ++ [p].

Definition entries (hs : list uint256) (ps : list Z) : Blob := concat (map (entry hs) ps).

Lemma entry_at hs ps i p rest :
  length hs = 16%nat -> Forall is_uint256 hs -> Forall (fun p => 0 <= p < 16) ps -> ps !! i = Some p ->
  bytes_at (i * 33) 32 (entries hs ps ++ rest) = Some (hs !!! Z.to_nat p) /\
  get8 (32 + i * 33) (entries hs ps ++ rest) = Some p.
Proof.
  intros Hl Hk Hps. assert (He : forall q, 0 <= q < 16 -> length (hs !!! Z.to_nat q) = 32%nat).
  { intros q Hq. destruct (lookup_lt_is_Some_2 hs (Z.to_nat q)) as [x Hx]; [lia|].
    rewrite (list_lookup_total_correct _ _ _ Hx). by apply (Forall_lookup_1 _ _ _ _ Hk Hx). }
  revert i. induction Hps as [|q ps Hq Hps IH]; intros i Hi; [by rewrite lookup_nil in Hi|].
  change (entries hs (q :: ps)) with (entry hs q ++ entries hs ps). unfold entry. rewrite <- !app_assoc.
  destruct i as [|i].
  - injection Hi as ->. split.
    + unfold bytes_at. rewrite (proj2 (Nat.ltb_ge _ _)) by (rewrite length_app, He by done; simpl; lia).
      change (0 * 33)%nat with 0%nat. by rewrite drop_0, take_app_length' by (by rewrite He).
    + rewrite Nat.mul_0_l, Nat.add_0_r, <- (He p Hq). apply get8_app.
  - destruct (IH i Hi) as [H1 H2]. split.
    + unfold bytes_at in *. rewrite !length_app in *. cbn [length]. rewrite He by done.
      destruct (Nat.ltb_spec (length (entries hs ps) + length rest) (i * 33 + 32)); [done|]. injection H1 as H1.
      rewrite (proj2 (Nat.ltb_ge _ _)) by lia. rewrite drop_app_ge by (rewrite He; [lia|done]).
      rewrite He by done. replace (S i * 33 - 32)%nat with (S (i * 33)) by lia. cbn [app drop]. by rewrite H1.
    + unfold get8 in *. rewrite !length_app in *. cbn [length]. rewrite He by done.
      destruct (Nat.leb_spec (length (entries hs ps) + length rest) (32 + i * 33)); [done|].
      rewrite (proj2 (Nat.leb_gt _ _)) by lia. rewrite lookup_total_app_r by (rewrite He; [lia|done]).
      rewrite He by done. replace (32 + S i * 33 - 32)%nat with (S (32 + i * 33)) by lia. exact H2.
Qed.

Lemma length_entries hs ps :
  length hs = 16%nat -> Forall is_uint256 hs -> Forall (fun p => 0 <= p < 16) ps ->
  length (entries hs ps) = (length ps * 33)%nat.
Proof.
  intros Hl Hk Hps. induction Hps as [|q ps Hq Hps IH]; [done|]. unfold entries in *. cbn [map concat length].
  rewrite length_app, IH. unfold entry. rewrite length_app. cbn [length].
  destruct (lookup_lt_is_Some_2 hs (Z.to_nat q)) as [x Hx]; [lia|].
  rewrite (list_lookup_total_correct _ _ _ Hx), (proj1 (Forall_lookup_1 _ _ _ _ Hk Hx)). lia.
Qed.

Lemma read_compressed_entries hs ps todo i inner dn :
  length hs = 16%nat -> Forall is_uint256 hs -> Forall (fun p => 0 <= p < 16) ps ->
  drop i ps = todo -> NoDup todo -> (forall p, p ∈ todo -> p ∉ dn) -> read_so_far hs dn inner ->
  exists inner', read_compressed (entries hs ps) (length todo) i inner = Ok inner' /\
    read_so_far hs (reverse todo ++ dn) inner'.
Proof.
  intros Hl Hk Hps. revert i inner dn. induction todo as [|p todo IH]; intros i inner dn Hi Hnd Hnew Hr; [by eexists|].
  cbn [length read_compressed].
  assert (Hp : ps !! i = Some p) by (by rewrite <- (Nat.add_0_r i), <- lookup_drop, Hi).
  pose proof (Forall_lookup_1 _ _ _ _ Hps Hp) as Hr16; cbn beta in Hr16.
  destruct (entry_at hs ps i p [] Hl Hk Hps Hp) as [H1 H2]. rewrite app_nil_r in *. rewrite H2. change (default 0 (Some p)) with p.
  rewrite (proj2 (Z.ltb_ge p 0)), Z.geb_leb, (proj2 (Z.leb_gt 16 p)) by lia. cbn [orb].
  pose proof (NoDup_cons_1_1 _ _ Hnd) as Hpn. apply NoDup_cons_1_2 in Hnd.
  rewrite reverse_cons, <- app_assoc. apply IH; [|done| |].
  - by rewrite (drop_S _ _ _ Hp) in Hi; injection Hi.
  - intros q Hq. specialize (Hnew q). set_solver.
  - apply read_hash_step; [done|lia|done|set_solver].
Qed.

(** ** Round trips of the node formats *)

Section Formats.
Context `{SHA : SHA512}.

Lemma updateHash_fst n nh : node_hash n = Ok nh -> fst <$> updateHash n = Ok (with_hash n nh).
Proof.
  intros H. unfold updateHash. rewrite H. cbn [mbind result_bind]. case_bool_decide as E; [|done].
  cbn. rewrite E. by destruct n.
Qed.

Definition is_tagged (n : SHAMapTreeNode) : Prop :=
  exists item, mItem n = Some item /\ is_uint256 (mTag item) /\ mTag item <> zero256.

(** A node that can be written: a non-empty inner node, or a leaf whose key is
    not zero and, for a transaction without metadata, is the hash of its data. *)
Definition writable (n : SHAMapTreeNode) : Prop :=
  match mType n with
  | tnERROR => False
  | tnINNER => mItem n = None /\ exists inner, mInner n = Some inner /\ inner_ok inner /\ mIsBranch inner <> 0
  | tnTRANSACTION_NM =>
      exists item, mItem n = Some item /\ mTag item = getPrefixHash pfx_transactionID (mData item)
  | tnTRANSACTION_MD | tnACCOUNT_STATE => is_tagged n
  end.

(** The node as it is read back: no child is loaded. *)
Definition unlinked (n : SHAMapTreeNode) (seq : Z) : SHAMapTreeNode :=
  {| mHash := mHash n; mItem := mItem n; mSeq := seq; mType := mType n;
     mInner := match mType n with
               | tnINNER =>
                   (fun inner => {| mHashes := mHashes inner; mChildren := replicate 16 None;
                                    mIsBranch := mIsBranch inner; mFullBelow := false |}) <$> mInner n
               | _ => None
               end |}.

Lemma fold_add256 hs s : fold_left (fun s k => add256 k s) hs s = s ++ concat hs.
Proof.
  revert s. induction hs as [|h hs IH]; intros s; cbn [fold_left concat]; [by rewrite app_nil_r|].
  rewrite IH. unfold add256. by rewrite app_assoc.
Qed.

Lemma fold_entries inner ps s :
  fold_left (fun s i => if is_branch inner i then add8' i (add256 (mHashes inner !!! Z.to_nat i) s) else s) ps s =
  s ++ entries (mHashes inner) (filter (fun i => is_branch inner i = true) ps).
Proof.
  revert s. induction ps as [|p ps IH]; intros s; cbn [fold_left]; [by rewrite app_nil_r|].
  rewrite IH, filter_cons. destruct (is_branch inner p); [|done].
  rewrite decide_True by done. unfold entries. cbn [map concat]. unfold add8', add8, add256, entry. cbn [snd].
  by rewrite <- !app_assoc.
Qed.

Lemma removeLast_snoc s b : removeLastByte (s ++ [b]) = (b, s).
Proof.
  unfold removeLastByte. rewrite length_app. cbn [length]. rewrite Nat.add_1_r.
  rewrite lookup_total_app_r, Nat.sub_diag by lia. cbn. by rewrite take_app_length.
Qed.

Lemma tagged_roundtrip short invalid z item :
  is_uint256 (mTag item) -> mTag item <> zero256 -> tagged_item short invalid z (mData item ++ mTag item) = Ok item.
Proof.
  intros [Hl _] Hnz. unfold tagged_item, get256_at, bytes_at, chop. rewrite length_app, Hl.
  rewrite (proj2 (Nat.ltb_ge (length (mData item) + 32) 32)) by lia.
  replace (length (mData item) + 32 - 32)%nat with (length (mData item)) by lia.
  rewrite Nat.ltb_irrefl, drop_app_length, take_ge by lia. cbn [default from_option id].
  destruct (isZero (mTag item)) eqn:E; [by apply isZero_zero256 in E|]. rewrite andb_false_r.
  cbn [snd]. rewrite take_app_length. by destruct item.
Qed.

Lemma read_compressed_inner inner :
  inner_ok inner ->
  let s := entries (mHashes inner) (filter (fun i => is_branch inner i = true) branches) in
  read_compressed s (length s / 33) 0 new_inner =
    Ok {| mHashes := mHashes inner; mChildren := replicate 16 None; mIsBranch := mIsBranch inner; mFullBelow := false |}.
Proof.
  intros (Hl & Hk & Hb & _). set (ps := filter _ _). intros s.
  assert (Hps : Forall (fun p => 0 <= p < 16) ps).
  { apply Forall_forall. intros p Hp. apply list_elem_of_filter in Hp as [_ Hp].
    by apply in_branches. }
  destruct (read_compressed_entries (mHashes inner) ps ps 0 new_inner [] Hl Hk Hps) as (inner' & Hr & Hs);
    [done| |set_solver|apply read_so_far_new|].
  { apply NoDup_filter. by_decide. }
  unfold s. rewrite length_entries, Nat.div_mul by (done || lia). rewrite Hr. f_equal.
  apply (read_all _ _ _ _ Hl Hk Hb Hs). intros i Hi Hn.
  destruct (is_branch inner i) eqn:E.
  - destruct Hn. rewrite app_nil_r, elem_of_reverse. apply list_elem_of_filter. by rewrite in_branches.
  - rewrite is_branch_testbit, Hb, (proj2 (Z.ltb_lt _ _)) in E by lia. cbn [andb] in E. apply negb_false_iff in E.
    apply isZero_zero256; [|done]. destruct (lookup_lt_is_Some_2 (mHashes inner) (Z.to_nat i)) as [x Hx]; [lia|].
    rewrite (list_lookup_total_correct _ _ _ Hx). by apply (Forall_lookup_1 _ _ _ _ Hk Hx).
Qed.

Lemma length_concat_hashes inner : inner_ok inner -> length (concat (mHashes inner)) = 512%nat.
Proof.
  intros (Hl & Hk & _). assert (H : length (concat (mHashes inner)) = (length (mHashes inner) * 32)%nat).
  { clear Hl. induction Hk as [|h hs [Hh _] _ IH]; [done|]. cbn [concat length]. rewrite length_app, IH, Hh. lia. }
  by rewrite H, Hl.
Qed.
(** The reader the constructor uses for a format. *)
Definition read_raw (format : SHANodeFormat) (raw : Blob) (seq : Z) : result SHAMapTreeNode :=
  match format with snfWIRE => read_wire raw seq | _ => read_prefix raw seq end.

(** The contents of [n] read back, the hash not yet set. *)
Definition contents (n : SHAMapTreeNode) (seq : Z) : SHAMapTreeNode := with_hash (unlinked n seq) zero256.

Lemma contents_inner n inner seq :
  mType n = tnINNER -> mItem n = None -> mInner n = Some inner ->
  contents n seq = inner_contents {| mHashes := mHashes inner; mChildren := replicate 16 None;
                                     mIsBranch := mIsBranch inner; mFullBelow := false |} seq.
Proof. intros Et Hi Hn. unfold contents, with_hash, unlinked. cbn [mItem mSeq mType mInner]. by rewrite Et, Hi, Hn. Qed.

Lemma contents_item n item seq :
  mType n <> tnINNER -> mItem n = Some item -> contents n seq = item_contents (mType n) item seq.
Proof. intros Et Hi. unfold contents, with_hash, unlinked. cbn [mItem mSeq mType mInner]. rewrite Hi. by destruct (mType n). Qed.

Lemma read_wire_snoc s b seq :
  0 <= b <= 4 -> read_wire (s ++ [b]) seq =
  (if b =? 0 then mret (item_contents tnTRANSACTION_NM {| mTag := getPrefixHash pfx_transactionID s; mData := s |} seq)
   else if b =? 1 then
     item ← tagged_item "short AS node" "invalid AS node" true s; mret (item_contents tnACCOUNT_STATE item seq)
   else if b =? 2 then
     if negb (length s =? 512)%nat then Throw (runtime_error "invalid FI node")
     else mret (inner_contents (read_full s) seq)
   else if b =? 3 then
     inner ← read_compressed s (length s / 33) 0 new_inner; mret (inner_contents inner seq)
   else
     item ← tagged_item "short TM node" "invalid TM node" true s; mret (item_contents tnTRANSACTION_MD item seq)).
Proof.
  intros Hb. unfold read_wire. rewrite removeLast_snoc, Z.gtb_ltb.
  rewrite (proj2 (Z.ltb_ge b 0)), (proj2 (Z.ltb_ge 4 b)) by lia. done.
Qed.

(** A blob that starts with four given bytes. *)
Lemma read_prefix_app pre s seq :
  length pre = 4%nat ->
  read_prefix (pre ++ s) seq =
  (if get_be 32 pre =? pfx_transactionID then
     mret (item_contents tnTRANSACTION_NM {| mTag := sha512half (pre ++ s); mData := s |} seq)
   else if get_be 32 pre =? pfx_leafNode then
     item ← tagged_item "short PLN node" "invalid PLN node" true s; mret (item_contents tnACCOUNT_STATE item seq)
   else if get_be 32 pre =? pfx_innerNode then
     if negb (length s =? 512)%nat then Throw (runtime_error "invalid PIN node")
     else mret (inner_contents (read_full s) seq)
   else if get_be 32 pre =? pfx_txNode then
     item ← tagged_item "short TXN node" "" false s; mret (item_contents tnTRANSACTION_MD item seq)
   else Throw (runtime_error "invalid node prefix")).
Proof.
  intros Hl. unfold read_prefix. rewrite (proj2 (Nat.ltb_ge _ _)) by (rewrite length_app; lia).
  by rewrite take_app_length', drop_app_length' by done.
Qed.

Lemma read_inner n format seq :
  mType n = tnINNER -> writable n -> format <> snfHASH ->
  exists raw, addRaw_node n format [] = Ok raw /\ read_raw format raw seq = Ok (contents n seq).
Proof.
  unfold writable. intros Et Hw Hf. rewrite Et in Hw. destruct Hw as (Hi & inner & Hin & Hok & Hnz).
  rewrite (contents_inner n inner seq) by done. unfold addRaw_node, inner_of, getBranchCount, inner_of. rewrite Et, Hin.
  pose proof (length_concat_hashes inner Hok) as Hlen. cbn [mbind result_bind mret result_ret].
  rewrite decide_False by done. destruct format; [| |done]; cbn [read_raw].
  - eexists. split; [done|]. rewrite fold_add256, read_prefix_app by done.
    change (get_be 32 (add32' pfx_innerNode [])) with pfx_innerNode. by rewrite Hlen, read_full_concat.
  - case_match; (eexists; split; [done|]); unfold add8', add8; cbn [snd].
    + rewrite read_wire_snoc, fold_entries by lia. cbn [app Z.eqb]. by rewrite read_compressed_inner.
    + rewrite read_wire_snoc, fold_add256 by lia. cbn [app Z.eqb]. by rewrite Hlen, read_full_concat.
Qed.

Lemma read_leaf n format seq :
  mType n <> tnINNER -> writable n -> format <> snfHASH ->
  exists raw, addRaw_node n format [] = Ok raw /\ read_raw format raw seq = Ok (contents n seq).
Proof.
  unfold writable. intros Et Hw Hf. unfold addRaw_node, item_of.
  rewrite decide_False by (intros E; by rewrite E in Hw).
  destruct (mType n) eqn:E; [done|done| | |]; destruct Hw as (item & Hi & Hw);
    rewrite (contents_item n item seq), Hi, E by (done || congruence);
    (destruct format; [| |done]); cbn [mbind result_bind mret result_ret read_raw];
    (eexists; split; [done|]); unfold add8', add8, add256; cbn [snd app];
    rewrite <- ?(app_assoc (add32' _ [])), ?read_prefix_app, ?read_wire_snoc by (done || lia); cbn [Z.eqb Pos.eqb].
  - change (get_be 32 (add32' pfx_transactionID [])) with pfx_transactionID. rewrite Z.eqb_refl.
    unfold getPrefixHash in Hw. destruct item. cbn in Hw. by subst.
  - rewrite <- Hw. by destruct item.
  - change (get_be 32 (add32' pfx_txNode [])) with pfx_txNode.
    change (pfx_txNode =? pfx_transactionID) with false. change (pfx_txNode =? pfx_leafNode) with false.
    change (pfx_txNode =? pfx_innerNode) with false. change (pfx_txNode =? pfx_txNode) with true.
    cbn match. by rewrite tagged_roundtrip by (destruct Hw; done).
  - cbn match. by rewrite tagged_roundtrip by (destruct Hw; done).
  - change (get_be 32 (add32' pfx_leafNode [])) with pfx_leafNode.
    change (pfx_leafNode =? pfx_transactionID) with false. change (pfx_leafNode =? pfx_leafNode) with true.
    cbn match. by rewrite tagged_roundtrip by (destruct Hw; done).
  - by rewrite tagged_roundtrip by (destruct Hw; done).
Qed.

Lemma read_contents n format seq :
  writable n -> format <> snfHASH ->
  exists raw, addRaw_node n format [] = Ok raw /\ read_raw format raw seq = Ok (contents n seq).
Proof. destruct (decide (mType n = tnINNER)); eauto using read_inner, read_leaf. Qed.

Lemma hash_contents n seq h : writable n -> node_hash n = Ok h -> node_hash (contents n seq) = Ok h.
Proof.
  unfold writable, node_hash. intros Hw H. destruct (decide (mType n = tnINNER)) as [E|E].
  - rewrite E in *. destruct Hw as (Hi & inner & Hin & _). rewrite (contents_inner n inner) by done.
    unfold inner_of in *. cbn [inner_contents mType mInner]. by rewrite Hin in H.
  - destruct (mItem n) as [item|] eqn:Hi.
    + rewrite (contents_item n item) by done. unfold item_of, inner_of in *. cbn [item_contents mType mItem].
      rewrite Hi in H. by destruct (mType n).
    + exfalso. destruct (mType n); [done|done|..]; destruct Hw as (? & ? & _); congruence.
Qed.

(** C30: Both formats of a tree node round-trip: a non-empty inner node, or a leaf
    whose key is not zero (and is the hash of the data for a transaction without
    metadata), is written by [addRaw] without an error and read back by the raw
    constructor as the same node with no child loaded; when the hash the node
    carries is right it is restored, whether it is handed over or computed. *)
Theorem node_raw_roundtrip (n : SHAMapTreeNode) (format : SHANodeFormat) (seq : Z) (hashValid : bool) :
  writable n -> node_hash n = Ok (mHash n) -> format <> snfHASH ->
  exists raw, addRaw_node n format [] = Ok raw /\
    raw_node raw seq format (mHash n) hashValid = Ok (unlinked n seq).
Proof.
  intros Hw Hh Hf. destruct (read_contents n format seq Hw Hf) as (raw & Hraw & Hread).
  exists raw. split; [done|]. pose proof (hash_contents n seq _ Hw Hh) as Hc.
  unfold raw_node. assert ((match format with snfWIRE => read_wire raw seq | snfPREFIX => read_prefix raw seq
    | snfHASH => Throw (runtime_error "Unknown format") end) = Ok (contents n seq)) as ->.
  { by destruct format. }
  cbn [mbind result_bind]. destruct hashValid; [done|]. by rewrite (updateHash_fst _ _ Hc).
Qed.
(** ** What the wire form rejects *)

Lemma tagged_item_throw short invalid s e :
  tagged_item short invalid true s = Throw e <->
  ((length s < 32)%nat /\ e = runtime_error short) \/
  ((32 <= length s)%nat /\ drop (length s - 32) s = zero256 /\ e = runtime_error invalid).
Proof.
  unfold tagged_item, get256_at, bytes_at. destruct (Nat.ltb_spec (length s) 32) as [Hs|Hs].
  { split; [intros [= <-]; by left|]. intros [[_ ->]|(? & _)]; [done|lia]. }
  rewrite (proj2 (Nat.ltb_ge _ _)) by lia.
  assert (Hl : length (drop (length s - 32) s) = 32%nat) by (rewrite length_drop; lia).
  rewrite take_ge by lia. change (default zero256 (Some (drop (length s - 32) s))) with (drop (length s - 32) s).
  destruct (isZero (drop (length s - 32) s)) eqn:E; cbn [andb].
  - apply isZero_zero256 in E; [|done]. split; [intros [= <-]; by right|]. intros [[? _]|(_ & _ & ->)]; [lia|done].
  - assert (drop (length s - 32) s <> zero256) by (intros Hz; rewrite (proj2 (isZero_zero256 _ Hl) Hz) in E; done).
    split; [done|]. intros [[? _]|(_ & ? & _)]; [lia|done].
Qed.

Lemma read_compressed_throw s n i inner e :
  Forall is_u8 s ->
  read_compressed s n i inner = Throw e <->
  e = runtime_error "invalid CI node" /\ exists j, (i <= j < i + n)%nat /\ 16 <= default 0 (get8 (32 + j * 33) s).
Proof.
  intros Hs. revert i inner. induction n as [|n IH]; intros i inner; cbn [read_compressed].
  { split; [done|]. intros (_ & j & ? & _). lia. }
  set (pos := default 0 (get8 (32 + i * 33) s)). assert (Hpos : 0 <= pos).
  { unfold pos, get8. destruct (Nat.leb_spec (length s) (32 + i * 33)) as [|Hlt]; [done|]. cbn [default from_option id].
    destruct (lookup_lt_is_Some_2 s _ Hlt) as [x Hx]. rewrite (list_lookup_total_correct _ _ _ Hx).
    pose proof (Forall_lookup_1 _ _ _ _ Hs Hx) as []. done. }
  rewrite (proj2 (Z.ltb_ge pos 0)), Z.geb_leb by done. cbn [orb]. destruct (Z.leb_spec 16 pos) as [H16|H16].
  - split; [|by intros [-> _]]. intros [= <-]. split; [done|]. exists i. split; [lia|done].
  - rewrite IH. split; intros (-> & j & Hj & H); (split; [done|]).
    + exists j. split; [lia|done].
    + exists j. split; [|done]. destruct (decide (j = i)) as [->|]; [unfold pos in H16; lia|lia].
Qed.

(** The reasons for which a wire node with type byte [b] after [s] is refused. *)
Inductive wire_refused (s : Blob) : Z -> string -> Prop :=
| refused_type b : 4 < b -> wire_refused s b "invalid node AW type"
| refused_short_state : (length s < 32)%nat -> wire_refused s 1 "short AS node"
| refused_zero_state : (32 <= length s)%nat -> drop (length s - 32) s = zero256 -> wire_refused s 1 "invalid AS node"
| refused_full : length s <> 512%nat -> wire_refused s 2 "invalid FI node"
| refused_position j : (j < length s / 33)%nat -> 16 <= default 0 (get8 (32 + j * 33) s) ->
    wire_refused s 3 "invalid CI node"
| refused_short_md : (length s < 32)%nat -> wire_refused s 4 "short TM node"
| refused_zero_md : (32 <= length s)%nat -> drop (length s - 32) s = zero256 -> wire_refused s 4 "invalid TM node".

Lemma read_wire_throw s b seq e :
  Forall is_u8 (s ++ [b]) ->
  read_wire (s ++ [b]) seq = Throw e <-> exists what, e = runtime_error what /\ wire_refused s b what.
Proof.
  intros [Hs Hb]%Forall_app. rewrite Forall_singleton in Hb. unfold in_u in Hb.
  destruct (decide (4 < b)) as [H4|H4].
  { unfold read_wire. rewrite removeLast_snoc, Z.gtb_ltb, (proj2 (Z.ltb_lt 4 b)), orb_true_r by done.
    split; [intros [= <-]; eexists; split; [done|by constructor]|].
    intros (what & -> & Hr). inversion Hr; subst; try lia; done. }
  rewrite read_wire_snoc by lia.
  assert (Hc : b = 0 \/ b = 1 \/ b = 2 \/ b = 3 \/ b = 4) by lia.
  destruct Hc as [-> |[-> |[-> |[-> | ->]]]]; cbn [Z.eqb Pos.eqb].
  - split; [done|]. intros (what & -> & Hr). inversion Hr; subst; try lia; done.
  - rewrite bind_Throw, tagged_item_throw. split.
    + intros [[[? ->]|(? & ? & ->)]|(? & ? & ?)]; [| |done]; eexists; (split; [done|]); by constructor.
    + intros (what & -> & Hr). inversion Hr; subst; try lia; auto.
  - destruct (Nat.eqb_spec (length s) 512); cbn [negb].
    + split; [done|]. intros (what & -> & Hr). inversion Hr; subst; try lia; done.
    + split; [intros [= <-]; eexists; split; [done|by constructor]|].
      intros (what & -> & Hr). inversion Hr; subst; try lia; done.
  - rewrite bind_Throw, read_compressed_throw by done. split.
    + intros [(-> & j & ? & ?)|(? & ? & ?)]; [|done]. eexists. split; [done|]. apply (refused_position s j); [lia|done].
    + intros (what & -> & Hr). inversion Hr; subst; try lia. left. split; [done|]. exists j. split; [lia|done].
  - rewrite bind_Throw, tagged_item_throw. split.
    + intros [[[? ->]|(? & ? & ->)]|(? & ? & ?)]; [| |done]; eexists; (split; [done|]); by constructor.
    + intros (what & -> & Hr). inversion Hr; subst; try lia; auto.
Qed.

(** Whatever the wire holds, hashing what was read does not fail. *)
Lemma read_wire_hashes raw seq n : read_wire raw seq = Ok n -> exists h, node_hash n = Ok h.
Proof.
  unfold read_wire. destruct (removeLastByte raw) as [type s]. repeat case_match; try done;
    rewrite ?bind_Ok; intros H'; repeat match goal with H : exists _, _ |- _ => destruct H as (? & ? & ?) end;
    match goal with H : mret _ = Ok _ |- _ => injection H as <- end; eexists; reflexivity.
Qed.

(** C29: Reading a node from the wire fails exactly in the listed cases, with the
    listed error: an empty blob or a type byte above 4; an account-state or
    metadata leaf shorter than a key or with the zero key; a full inner node that
    is not 512 bytes; a compressed inner node with a position of 16 or more.
    Every other blob is accepted, whether its hash is given or computed. *)
Theorem wire_errors (raw : Blob) (seq : Z) (hash : uint256) (hashValid : bool) (e : exn) :
  Forall is_u8 raw ->
  raw_node raw seq snfWIRE hash hashValid = Throw e <->
  (raw = [] /\ e = runtime_error "invalid node AW type") \/
  (exists s b what, raw = s ++ [b] /\ e = runtime_error what /\ wire_refused s b what).
Proof.
  intros Hb. unfold raw_node. rewrite bind_Throw.
  assert (Hlate : forall n, read_wire raw seq = Ok n ->
    (if hashValid then mret (with_hash n hash) else fst <$> updateHash n) <> Throw e).
  { intros n Hn. destruct hashValid; [done|]. destruct (read_wire_hashes _ _ _ Hn) as [h Hh].
    by rewrite (updateHash_fst _ _ Hh). }
  destruct raw as [|b s _] using rev_ind.
  - split; [intros [[= <-]|(n & Hn & Ht)]; [by left|by apply Hlate in Ht]|].
    intros [[_ ->]|(s & b & ? & E & _)]; [by left|by destruct s].
  - rewrite read_wire_throw by done. split.
    + intros [(what & -> & Hr)|(n & Hn & Ht)]; [right; by eexists _, _, _|by apply Hlate in Ht].
    + intros [[E _]|(s' & b' & what & E & -> & Hr)]; [by destruct s|]. apply app_inj_tail in E as [-> ->].
      left. by eexists.
Qed.
End Formats.

(** ** Witnesses *)

(** A polynomial checksum in the place of SHA-512. *)
Definition checksum (b : Blob) : uint256 :=
  be_split 32 (fold_left (fun acc x => (acc * 1000003 + x + 12345) mod 2 ^ 256) b (2 ^ 255 + 19)).

Lemma checksum_key b : is_uint256 (checksum b).
Proof. split; [apply length_be_split|apply be_split_u8]. Qed.

Definition Checksum : SHA512 := {| sha512half := checksum; sha512half_key := checksum_key |}.

Definition ex_item : SHAMapItem := {| mTag := map Z.of_nat (seq 1 32); mData := replicate 12 7 |}.

Definition ex_inner : InnerData :=
  {| mHashes := [checksum [1]; zero256; checksum [2]] ++ replicate 13 zero256; mChildren := replicate 16 None;
     mIsBranch := 5; mFullBelow := true |}.

Definition ex_node : SHAMapTreeNode :=
  with_hash (inner_contents ex_inner 3) (@getPrefixHash Checksum pfx_innerNode (concat (mHashes ex_inner))).

Lemma ex_inner_ok : inner_ok ex_inner.
Proof.
  split_and!; [by vm_compute|by_decide| |by vm_compute]. intros i Hi. destruct (Z.ltb_spec i 16) as [Hlt|Hge].
  - apply (in_branches_all (fun i => Z.testbit (mIsBranch ex_inner) i =
      true && negb (isZero (mHashes ex_inner !!! Z.to_nat i)))); [by_decide|lia].
  - cbn [andb]. apply Z.bits_above_log2; [by vm_compute|]. change (Z.log2 (mIsBranch ex_inner)) with 2. lia.
Qed.

Lemma node_raw_roundtrip_witness :
  exists raw, @addRaw_node ex_node snfWIRE [] = Ok raw /\ length raw = 67%nat /\
    @raw_node Checksum raw 9 snfWIRE (mHash ex_node) false = Ok (unlinked ex_node 9).
Proof.
  destruct (@node_raw_roundtrip Checksum ex_node snfWIRE 9 false) as (raw & Hraw & Hread).
  - split; [done|]. exists ex_inner. split_and!; [done|apply ex_inner_ok|done].
  - by vm_compute.
  - done.
  - exists raw. split_and!; [done| |done]. vm_compute in Hraw. by injection Hraw as <-.
Defined.

Lemma wire_errors_witness :
  @raw_node Checksum (repeat 0 40 ++ [1]) 1 snfWIRE zero256 true = Throw (runtime_error "invalid AS node").
Proof.
  apply (@wire_errors Checksum); [by_decide|]. right. eexists _, _, _. split_and!; [done|done|].
  by apply refused_zero_state; [cbn; lia|by vm_compute].
Defined.

End SHAMapNode.
