(* ===== verification/SHAMapSpec.v ===== *)
(** * What a SHAMap stands for: a finite map and its canonical Merkle hash

    The abstract object is a finite map from 256-bit keys to blobs.  [below p m]
    is the part of [m] whose keys start with the nibbles [p]; [canon_hash] is
    the hash a tree over a map must have: zero for nothing, the hash of the leaf
    for a single item (away from the root), and the hash of the sixteen child
    hashes otherwise.

    Hashes are compared by the code in place of contents, so its correctness
    rests on SHA-512 not colliding.  A hash function of fixed width cannot be
    injective on all blobs: the hypothesis is local, [no_collision], that the
    finitely many blobs the given maps hash to build their trees have distinct
    and non-zero hashes.  Under it the canonical hash determines the map
    ([canon_hash_inj]). *)
From Stdlib Require Import ZArith Lia.
From S2P Require Import Prelude BaseUint Serializer SHAMapNode.
From stdpp Require Import base numbers list gmap strings.
Import BaseUint Serializer SHAMapNode.
Local Open Scope Z_scope.

Module SHAMapSpec.

Abbreviation kmap := (gmap uint256 Blob).
Abbreviation path := (list Z).

(** ** Parts of a map *)

(** The keys of branch [i] at depth [d]. *)
Definition sub (d : nat) (i : Z) (m : kmap) : kmap := filter (fun kv => nib kv.1 d = i) m.

(** The keys that start with the nibbles [p]. *)
Definition below (p : path) (m : kmap) : kmap := filter (fun kv => take (length p) (nibbles kv.1) = p) m.

Definition keys_ok (m : kmap) : Prop := map_Forall (fun k _ => is_uint256 k) m.

(** Every key starts with [p]. *)
Definition under (p : path) (m : kmap) : Prop :=
  map_Forall (fun k _ => is_uint256 k /\ take (length p) (nibbles k) = p) m.

Lemma length_nibbles k : length (nibbles k) = 64%nat.
Proof. done. Qed.

Lemma length_pre k d : (d <= 64)%nat -> length (take d (nibbles k)) = d.
Proof. intros. rewrite length_take, length_nibbles. lia. Qed.

Lemma nibbles_lookup k d : (d < 64)%nat -> nibbles k !! d = Some (nib k d).
Proof. intros. unfold nibbles. rewrite (list_lookup_fmap (nib k)), lookup_seq_lt by done. done. Qed.

Lemma take_nibbles_S k d : (d < 64)%nat -> take (S d) (nibbles k) = take d (nibbles k) ++ [nib k d].
Proof. intros. by apply take_S_r, nibbles_lookup. Qed.

Lemma take_nibbles_eq a b d :
  (d <= 64)%nat -> take d (nibbles a) = take d (nibbles b) <-> forall i, (i < d)%nat -> nib a i = nib b i.
Proof.
  intros Hd. split.
  - intros H i Hi. assert (E : take d (nibbles a) !! i = take d (nibbles b) !! i) by (by rewrite H).
    rewrite !lookup_take_lt, !nibbles_lookup in E by lia. by injection E.
  - intros H. induction d as [|d IH]; [done|]. rewrite !take_nibbles_S by lia.
    rewrite IH by (intros; try apply H; lia). by rewrite H by lia.
Qed.

Lemma sub_lookup d i m k v : sub d i m !! k = Some v <-> m !! k = Some v /\ nib k d = i.
Proof. unfold sub. by rewrite map_lookup_filter_Some. Qed.

Lemma below_lookup p m k v :
  below p m !! k = Some v <-> m !! k = Some v /\ take (length p) (nibbles k) = p.
Proof. unfold below. by rewrite map_lookup_filter_Some. Qed.

Lemma below_nil m : below [] m = m.
Proof. apply map_eq. intros k. apply option_eq. intros v. rewrite below_lookup. naive_solver. Qed.

Lemma snoc_path p i k : (length p < 64)%nat ->
  take (length (p ++ [i])) (nibbles k) = p ++ [i] <-> take (length p) (nibbles k) = p /\ nib k (length p) = i.
Proof.
  intros Hp. rewrite length_app. cbn [length]. rewrite Nat.add_1_r, take_nibbles_S by done. split.
  - intros [H1 H2]%app_inj_tail. done.
  - by intros [-> ->].
Qed.

Lemma sub_below p i m : (length p < 64)%nat -> sub (length p) i (below p m) = below (p ++ [i]) m.
Proof.
  intros Hp. apply map_eq. intros k. apply option_eq. intros v.
  rewrite sub_lookup, !below_lookup, snoc_path by done. naive_solver.
Qed.

Lemma under_below p m : keys_ok m -> under p (below p m).
Proof. intros Hm k v [Hk Hp]%below_lookup. split; [by apply (Hm k v)|done]. Qed.

Lemma under_keys p m : under p m -> keys_ok m.
Proof. intros H k v Hk. by apply (H k v). Qed.

Lemma below_under p m : under p m -> below p m = m.
Proof.
  intros H. apply map_eq. intros k. apply option_eq. intros v. rewrite below_lookup. split; [naive_solver|].
  intros Hk. split; [done|]. by apply (H k v).
Qed.

Lemma under_sub p i m : (length p < 64)%nat -> under p m -> under (p ++ [i]) (sub (length p) i m).
Proof.
  intros Hp H k v [Hk Hi]%sub_lookup. destruct (H k v Hk) as [? ?]. split; [done|]. by apply snoc_path.
Qed.

(** A map is the union of its branches. *)
Lemma branch_of p m k v : under p m -> (length p < 64)%nat -> m !! k = Some v ->
  0 <= nib k (length p) < 16 /\ sub (length p) (nib k (length p)) m !! k = Some v.
Proof.
  intros Hu Hp Hk. destruct (Hu k v Hk) as [Hk' _]. split; [by apply nib_range|]. by apply sub_lookup.
Qed.

Lemma map_eq_branches d m m' :
  (d < 64)%nat -> keys_ok m -> keys_ok m' -> (forall i, 0 <= i < 16 -> sub d i m = sub d i m') -> m = m'.
Proof.
  intros Hd Hm Hm' H. apply map_eq. intros k. apply option_eq. intros v. split; intros Hk.
  - destruct (sub_lookup d (nib k d) m' k v) as [Hl _]. apply Hl. rewrite <- H; [by apply sub_lookup|].
    apply nib_range; [by apply (Hm k v)|done].
  - destruct (sub_lookup d (nib k d) m k v) as [Hl _]. apply Hl. rewrite H; [by apply sub_lookup|].
    apply nib_range; [by apply (Hm' k v)|done].
Qed.

(** At the last level there is at most one key. *)
Lemma under_full p m k v : under p m -> length p = 64%nat -> m !! k = Some v -> m = {[k := v]}.
Proof.
  intros Hu Hp Hk. apply map_eq. intros k'. destruct (m !! k') as [v'|] eqn:E.
  - assert (k' = k) as ->.
    { destruct (Hu k v Hk) as [Ha Ha'], (Hu k' v' E) as [Hb Hb']. apply nibbles_inj; [done|done|].
      intros d Hd. apply (take_nibbles_eq k' k 64); [lia| |done]. rewrite Hp in *. congruence. }
    rewrite lookup_singleton_eq. congruence.
  - destruct (decide (k' = k)) as [->|]; [congruence|]. by rewrite lookup_singleton_ne.
Qed.

(** The only entry of a map. *)
Definition only (m : kmap) : option (uint256 * Blob) :=
  match map_to_list m with
  | [kv] => Some kv
  | _ => None
  end.

Lemma only_Some m k v : only m = Some (k, v) <-> m = {[k := v]}.
Proof.
  unfold only. split.
  - destruct (map_to_list m) as [|kv [|]] eqn:E; [done| |done]. intros [= ->].
    apply map_to_list_inj. by rewrite E, map_to_list_singleton.
  - intros ->. by rewrite map_to_list_singleton.
Qed.

Lemma only_None m : only m = None <-> m = ∅ \/ (2 <= size m)%nat.
Proof.
  unfold only. rewrite <- length_map_to_list. destruct (map_to_list m) as [|kv [|kv' l]] eqn:E; cbn [length].
  - apply map_to_list_empty_iff in E. naive_solver.
  - split; [done|]. intros [->|?]; [by rewrite map_to_list_empty in E|lia].
  - split; [|done]. intros _. right. lia.
Qed.

Lemma size_one (m : kmap) : size m = 1%nat -> exists k v, m = {[k := v]}.
Proof.
  intros H. destruct (only m) as [[k v]|] eqn:E; [exists k, v; by apply only_Some|].
  apply only_None in E as [->|?]; [by rewrite map_size_empty in H|lia].
Qed.

(** ** The order of keys *)

Lemma mismatch_at a b j x y :
  (forall i, (i < j)%nat -> a !! i = b !! i) -> a !! j = Some x -> b !! j = Some y -> x <> y ->
  length a = length b -> mismatch a b = Some (x, y).
Proof.
  revert a b. induction j as [|j IH]; intros [|a0 a] [|b0 b] Hpre Hx Hy Hne Hl; try done; cbn [mismatch].
  - cbn in Hx, Hy. injection Hx as ->. injection Hy as ->. by rewrite (proj2 (Z.eqb_neq _ _)).
  - pose proof (Hpre 0%nat ltac:(lia)) as [= ->]. rewrite Z.eqb_refl. apply IH; [|done|done|done|by injection Hl].
    intros i Hi. by apply (Hpre (S i) ltac:(lia)).
Qed.

Lemma mismatch_sym a b : mismatch b a = (fun '(x, y) => (y, x)) <$> mismatch a b.
Proof.
  revert b. induction a as [|x a IH]; intros [|y b]; try done. cbn [mismatch].
  rewrite Z.eqb_sym. by destruct (x =? y).
Qed.

(** The order of the code is the order of the first differing nibble. *)
Definition nib_lt (a b : uint256) : Prop :=
  exists j, (j < 64)%nat /\ (forall i, (i < j)%nat -> nib a i = nib b i) /\ nib a j < nib b j.

Lemma nib_lt_ltb a b : is_uint256 a -> is_uint256 b -> nib_lt a b -> key_ltb a b = true.
Proof.
  intros Ha Hb (j & Hj & Hpre & Hlt). unfold key_ltb. pose proof (half_lt j 32 Hj) as Hh.
  destruct (key_byte a _ Ha Hh) as [Ea _], (key_byte b _ Hb Hh) as [Eb _].
  assert (Hbyte : a !!! (j / 2)%nat < b !!! (j / 2)%nat).
  { rewrite !nib_byte by done. pose proof (nib_range a (2 * (j / 2) + 1) Ha ltac:(lia)).
    pose proof (nib_range b (2 * (j / 2) + 1) Hb ltac:(lia)). destruct (Nat.odd j) eqn:E.
    - rewrite <- (odd_half j E). rewrite Hpre by (pose proof (odd_half j E); lia). lia.
    - rewrite <- (even_half j E). pose proof (even_half j E) as Hj2.
      pose proof (nib_range a (j + 1) Ha ltac:(lia)). pose proof (nib_range b (j + 1) Hb ltac:(lia)). lia. }
  rewrite (mismatch_at a b (j / 2) (a !!! (j / 2)%nat) (b !!! (j / 2)%nat));
    [by apply Z.ltb_lt| |done|done|lia|destruct Ha, Hb; congruence].
  intros i Hi. assert (Hi32 : (i < 32)%nat) by lia.
  destruct (key_byte a i Ha Hi32) as [-> _], (key_byte b i Hb Hi32) as [-> _].
  rewrite (nib_byte a), (nib_byte b) by done. pose proof (Nat.div_mod_eq j 2). by rewrite !Hpre by lia.
Qed.

Lemma key_trichotomy a b : is_uint256 a -> is_uint256 b -> a = b \/ nib_lt a b \/ nib_lt b a.
Proof.
  intros Ha Hb. destruct (decide (a = b)) as [|Hne]; [auto|].
  destruct (first_difference a b 0 Ha Hb Hne) as (j & Hj & Hd & Hpre); [lia|].
  destruct (decide (nib a j < nib b j)); [right; left; by exists j; split_and!; [lia|..]|].
  right. right. exists j. split_and!; [lia|symmetry; auto|lia].
Qed.

Lemma key_ltb_iff a b : is_uint256 a -> is_uint256 b -> key_ltb a b = true <-> nib_lt a b.
Proof.
  intros Ha Hb. split; [|by apply nib_lt_ltb]. intros Hlt.
  assert (Hasym : key_ltb b a = false).
  { revert Hlt. unfold key_ltb. rewrite (mismatch_sym a b). destruct (mismatch a b) as [[x y]|]; [|done]. cbn.
    rewrite Z.ltb_lt, Z.ltb_ge. lia. }
  destruct (key_trichotomy a b Ha Hb) as [->|[?|Hba]]; [congruence|done|].
  rewrite (nib_lt_ltb b a) in Hasym by done. done.
Qed.

(** ** The ends of a map *)

(** [o] is the entry of [m] that comes first in the order [lt], if any. *)
Definition extreme (lt : uint256 -> uint256 -> Prop) (m : kmap) (o : option SHAMapItem) : Prop :=
  match o with
  | None => m = ∅
  | Some item => m !! mTag item = Some (mData item) /\ forall k x, m !! k = Some x -> k = mTag item \/ lt (mTag item) k
  end.

(** Comparing branches in the direction of the walk. *)
Definition branch_lt (rev : bool) (i j : Z) : Prop := if rev then j < i else i < j.
Definition key_lt (rev : bool) (a b : uint256) : Prop := if rev then nib_lt b a else nib_lt a b.

Lemma key_lt_iff rev a b :
  key_lt rev a b <-> exists j, (j < 64)%nat /\ (forall i, (i < j)%nat -> nib a i = nib b i) /\ branch_lt rev (nib a j) (nib b j).
Proof.
  destruct rev; [|done]. split; intros (j & Hj & Hp & Hl); exists j; split_and!; try done; intros; symmetry; auto.
Qed.

Lemma key_lt_branch rev p a b :
  (length p < 64)%nat -> take (length p) (nibbles a) = p -> take (length p) (nibbles b) = p ->
  branch_lt rev (nib a (length p)) (nib b (length p)) -> key_lt rev a b.
Proof.
  intros Hp Ha Hb Hlt. assert (Hpre : forall i, (i < length p)%nat -> nib a i = nib b i).
  { apply take_nibbles_eq; [lia|congruence]. }
  apply key_lt_iff. eauto.
Qed.

(** The first entry of the first non-empty branch is the first entry. *)
Lemma extreme_branch rev p m i o :
  under p m -> (length p < 64)%nat -> sub (length p) i m <> ∅ ->
  (forall j, 0 <= j < 16 -> sub (length p) j m <> ∅ -> j = i \/ branch_lt rev i j) ->
  extreme (key_lt rev) (sub (length p) i m) o -> extreme (key_lt rev) m o.
Proof.
  intros Hu Hp Hne Hfirst Ho. destruct o as [item|]; [|done]. destruct Ho as [Hin Hmin].
  apply sub_lookup in Hin as [Hin Hi]. split; [done|]. intros k x Hk.
  destruct (branch_of p m k x Hu Hp Hk) as [Hr Hs]. destruct (decide (nib k (length p) = i)) as [E|E].
  - rewrite E in Hs. by apply (Hmin k x).
  - right. destruct (Hfirst (nib k (length p)) Hr) as [|Hlt]; [|done|].
    { intros E'. by rewrite E', lookup_empty in Hs. }
    destruct (Hu _ _ Hk), (Hu _ _ Hin). apply (key_lt_branch rev p); [done|done|done|]. by rewrite Hi.
Qed.

(** ** The canonical hash *)

Section Hash.
Context `{SHA : SHA512} (ty : TNType).

Definition leaf_pre (k : uint256) (v : Blob) : Blob :=
  match ty with
  | tnTRANSACTION_NM => snd (add32 pfx_transactionID []) ++ v
  | tnTRANSACTION_MD => snd (add32 pfx_txNode []) ++ v ++ k
  | _ => snd (add32 pfx_leafNode []) ++ v ++ k
  end.

Definition inner_pre (hs : list uint256) : Blob := snd (add32 pfx_innerNode []) ++ concat hs.

Fixpoint tree_hash (fuel d : nat) (m : kmap) : uint256 :=
  match fuel with
  | O => zero256
  | S fuel =>
      if decide (m = ∅) then zero256
      else match (if (d =? 0)%nat then None else only m) with
           | Some (k, v) => sha512half (leaf_pre k v)
           | None => sha512half (inner_pre (map (fun i => tree_hash fuel (S d) (sub d i m)) branches))
           end
  end.

(** The hash of the part of a map at depth [d]. *)
Definition canon_hash (d : nat) (m : kmap) : uint256 := tree_hash (65 - d) d m.

Definition child_hashes (d : nat) (m : kmap) : list uint256 :=
  map (fun i => canon_hash (S d) (sub d i m)) branches.

(** The hash of an inner node over [m], also when a leaf would do. *)
Definition inner_hash (d : nat) (m : kmap) : uint256 :=
  if decide (m = ∅) then zero256 else sha512half (inner_pre (child_hashes d m)).

Lemma canon_hash_empty d : canon_hash d ∅ = zero256.
Proof. unfold canon_hash. by destruct (65 - d)%nat. Qed.

Lemma canon_hash_inner d m : (d <= 64)%nat -> d = 0%nat \/ only m = None -> canon_hash d m = inner_hash d m.
Proof.
  intros Hd Hm. unfold canon_hash, inner_hash, child_hashes, canon_hash.
  replace (65 - d)%nat with (S (65 - S d)) by lia. cbn [tree_hash]. case_decide; [done|].
  assert ((if (d =? 0)%nat then None else only m) = None) as ->; [|done].
  destruct Hm as [-> | ->]; [done|]. by destruct (d =? 0)%nat.
Qed.

Lemma canon_hash_leaf d k v : (0 < d <= 64)%nat -> canon_hash d {[k := v]} = sha512half (leaf_pre k v).
Proof.
  intros Hd. unfold canon_hash. replace (65 - d)%nat with (S (65 - S d)) by lia. cbn [tree_hash].
  rewrite decide_False by apply map_non_empty_singleton.
  rewrite (proj2 (Nat.eqb_neq d 0)) by lia. by rewrite (proj2 (only_Some _ k v) eq_refl).
Qed.

Lemma canon_hash_key d m : is_uint256 (canon_hash d m).
Proof.
  unfold canon_hash. destruct (65 - d)%nat; cbn [tree_hash]; [apply zero256_key|].
  case_decide; [apply zero256_key|]. destruct (d =? 0)%nat; [|destruct (only m) as [[k v]|]]; apply sha512half_key.
Qed.

Lemma inner_hash_key d m : is_uint256 (inner_hash d m).
Proof. unfold inner_hash. case_decide; [apply zero256_key|apply sha512half_key]. Qed.

Lemma child_hashes_lookup d m i : 0 <= i < 16 -> child_hashes d m !!! Z.to_nat i = canon_hash (S d) (sub d i m).
Proof.
  intros Hi. apply list_lookup_total_correct. unfold child_hashes.
  rewrite (list_lookup_fmap (fun i => canon_hash (S d) (sub d i m))), branches_lookup by done. done.
Qed.

Lemma length_child_hashes d m : length (child_hashes d m) = 16%nat.
Proof. done. Qed.

Lemma child_hashes_keys d m : Forall is_uint256 (child_hashes d m).
Proof. unfold child_hashes. apply Forall_fmap, Forall_true. intros. apply canon_hash_key. Qed.

(** ** Collisions *)

(** The blobs hashed for a tree over [m], including the inner form of a part with
    one item, which deletion hashes on its way. *)
Definition hashed (m : kmap) (x : Blob) : Prop :=
  exists p, (length p <= 64)%nat /\ below p m <> ∅ /\
    (x = inner_pre (child_hashes (length p) (below p m)) \/
     exists k v, below p m = {[k := v]} /\ x = leaf_pre k v).

Definition no_collision (ms : list kmap) : Prop :=
  (forall x y, Exists (fun m => hashed m x) ms -> Exists (fun m => hashed m y) ms ->
     sha512half x = sha512half y -> x = y) /\
  (forall x, Exists (fun m => hashed m x) ms -> isZero (sha512half x) = false).

(** A transaction without metadata is filed under the hash of its data. *)
Definition map_ok (m : kmap) : Prop :=
  map_Forall (fun k v => is_uint256 k /\ (ty = tnTRANSACTION_NM -> k = getPrefixHash pfx_transactionID v)) m.

Lemma map_ok_keys m : map_ok m -> keys_ok m.
Proof. intros H k v Hk. by apply (H k v). Qed.

Lemma inner_pre_inj hs hs' :
  length hs = length hs' -> Forall is_uint256 hs -> Forall is_uint256 hs' -> inner_pre hs = inner_pre hs' -> hs = hs'.
Proof.
  intros Hl Hk Hk' H. apply app_inv_head in H. revert hs' Hl Hk' H.
  induction Hk as [|h hs [Hh _] Hk IH]; intros [|h' hs'] Hl Hk' H; try done.
  apply Forall_cons in Hk' as [[Hh' _] Hk']. cbn [concat] in H.
  apply app_inj_1 in H as [-> H]; [|by rewrite Hh, Hh']. f_equal. apply IH; [by injection Hl|done|done].
Qed.

Lemma leaf_inner_differ k v hs : leaf_pre k v <> inner_pre hs.
Proof. unfold leaf_pre, inner_pre. destruct ty; done. Qed.

Lemma leaf_pre_inj m m' k v k' v' :
  map_ok m -> map_ok m' -> m !! k = Some v -> m' !! k' = Some v' -> leaf_pre k v = leaf_pre k' v' -> k = k' /\ v = v'.
Proof.
  intros Hm Hm' Hk Hk' H. destruct (Hm k v Hk) as [[Hl _] Hn], (Hm' k' v' Hk') as [[Hl' _] Hn'].
  unfold leaf_pre in H. destruct ty; apply app_inv_head in H;
    try (by apply app_inj_2 in H as [-> ->]; [|by rewrite Hl, Hl']).
  subst v'. by rewrite Hn, Hn'.
Qed.

Lemma hashed_inner p m :
  (length p <= 64)%nat -> below p m <> ∅ -> hashed m (inner_pre (child_hashes (length p) (below p m))).
Proof. intros. exists p. auto. Qed.

Lemma hashed_leaf p m k v : (length p <= 64)%nat -> below p m = {[k := v]} -> hashed m (leaf_pre k v).
Proof. intros Hp E. exists p. rewrite E. split_and!; [done|apply map_non_empty_singleton|eauto]. Qed.

(** What is hashed for the part of [m] at [p]. *)
Lemma canon_hash_hashed p m :
  (length p <= 64)%nat -> below p m <> ∅ ->
  exists x, hashed m x /\ canon_hash (length p) (below p m) = sha512half x /\
    ((x = inner_pre (child_hashes (length p) (below p m)) /\ (p = [] \/ (2 <= size (below p m))%nat)) \/
     exists k v, below p m = {[k := v]} /\ x = leaf_pre k v).
Proof.
  intros Hp Hne. destruct (decide (p = [] \/ only (below p m) = None)) as [Hin|Hout].
  - eexists. split; [by apply hashed_inner|]. split.
    + rewrite canon_hash_inner; [|done|destruct Hin as [->|]; auto]. unfold inner_hash. by rewrite decide_False.
    + left. split; [done|]. destruct Hin as [|Ho]; [auto|]. apply only_None in Ho. naive_solver.
  - destruct (only (below p m)) as [[k v]|] eqn:E; [|tauto]. apply only_Some in E.
    exists (leaf_pre k v). split; [by apply (hashed_leaf p)|]. split; [|eauto].
    rewrite E. apply canon_hash_leaf. destruct p; [tauto|]. cbn [length] in *. lia.
Qed.

Section NoCollision.
Context (ms : list kmap) (Hnc : no_collision ms).

Lemma in_hashed m x : m ∈ ms -> hashed m x -> Exists (fun m => hashed m x) ms.
Proof. intros. apply Exists_exists. eauto. Qed.

Lemma canon_hash_zero p m :
  m ∈ ms -> (length p <= 64)%nat -> isZero (canon_hash (length p) (below p m)) = true <-> below p m = ∅.
Proof.
  intros Hm Hp. split.
  - intros H. destruct (decide (below p m = ∅)) as [|Hne]; [done|]. exfalso.
    destruct (canon_hash_hashed p m Hp Hne) as (x & Hx & E & _). rewrite E in H.
    rewrite (proj2 Hnc x) in H; [done|]. by apply (in_hashed m).
  - intros ->. by rewrite canon_hash_empty.
Qed.

(** The canonical hash determines the part of the map below a position. *)
Lemma canon_hash_inj p m m' :
  m ∈ ms -> m' ∈ ms -> map_ok m -> map_ok m' -> (length p <= 64)%nat ->
  canon_hash (length p) (below p m) = canon_hash (length p) (below p m') -> below p m = below p m'.
Proof.
  intros Hm Hm' Hok Hok'. remember (64 - length p)%nat as n eqn:Hn. revert p Hn.
  induction n as [n IH] using lt_wf_ind; intros p Hn Hp H.
  destruct (decide (below p m = ∅)) as [E|Hne].
  { rewrite E in H. rewrite canon_hash_empty in H. symmetry. rewrite E. apply canon_hash_zero; [done|done|].
    by rewrite <- H. }
  destruct (decide (below p m' = ∅)) as [E|Hne'].
  { rewrite E in H. rewrite canon_hash_empty in H. rewrite E. apply canon_hash_zero; [done|done|]. by rewrite H. }
  destruct (canon_hash_hashed p m Hp Hne) as (x & Hx & Ex & Hx').
  destruct (canon_hash_hashed p m' Hp Hne') as (y & Hy & Ey & Hy').
  assert (x = y) as <- by (apply (proj1 Hnc); [by apply (in_hashed m)|by apply (in_hashed m')|congruence]).
  destruct Hx' as [[-> Hs]|(k & v & Ek & ->)], Hy' as [[E Hs']|(k' & v' & Ek' & E)].
  - apply inner_pre_inj in E; [|done|apply child_hashes_keys|apply child_hashes_keys].
    assert (Hp' : (length p < 64)%nat).
    { destruct (decide (length p = 64%nat)) as [E64|]; [|lia]. exfalso. destruct Hs as [->|Hs]; [done|].
      apply map_choose in Hne as (k & v & Hk).
      rewrite (under_full p (below p m) k v), map_size_singleton in Hs; [lia| |done|done].
      by apply under_below, map_ok_keys. }
    apply (map_eq_branches (length p)); [done|by eapply under_keys, under_below, map_ok_keys..|].
    intros i Hi. rewrite !sub_below by done. eapply (IH (64 - length (p ++ [i]))%nat); [|done|..].
    + rewrite length_app. cbn [length]. lia.
    + rewrite length_app. cbn [length]. lia.
    + assert (Ei : child_hashes (length p) (below p m) !!! Z.to_nat i = child_hashes (length p) (below p m') !!! Z.to_nat i)
        by (by rewrite E).
      rewrite !child_hashes_lookup, !sub_below in Ei by done. by rewrite length_app, Nat.add_1_r.
  - symmetry in E. by apply leaf_inner_differ in E.
  - by apply leaf_inner_differ in E.
  - rewrite Ek, Ek'. assert (m !! k = Some v /\ m' !! k' = Some v') as [H1 H2].
    { split; [apply (below_lookup p)|apply (below_lookup p)]; rewrite ?Ek, ?Ek'; apply lookup_singleton_eq. }
    by destruct (leaf_pre_inj m m' k v k' v' Hok Hok' H1 H2 E) as [-> ->].
Qed.
(** So does the hash of an inner node. *)
Lemma inner_hash_inj p m m' :
  m ∈ ms -> m' ∈ ms -> map_ok m -> map_ok m' -> (length p < 64)%nat ->
  inner_hash (length p) (below p m) = inner_hash (length p) (below p m') -> below p m = below p m'.
Proof.
  intros Hm Hm' Hok Hok' Hp H. unfold inner_hash in H.
  assert (Hz : forall m0, m0 ∈ ms -> below p m0 <> ∅ ->
    isZero (sha512half (inner_pre (child_hashes (length p) (below p m0)))) = false).
  { intros m0 H0 Hne. apply (proj2 Hnc), (in_hashed m0); [done|]. apply hashed_inner; [lia|done]. }
  destruct (decide (below p m = ∅)) as [E|Hne], (decide (below p m' = ∅)) as [E'|Hne']; [congruence| | |].
  - pose proof (Hz m' Hm' Hne') as H0. by rewrite <- H in H0.
  - pose proof (Hz m Hm Hne) as H0. by rewrite H in H0.
  - apply (proj1 Hnc) in H; [|apply (in_hashed m); [done|]; apply hashed_inner; [lia|done]
      |apply (in_hashed m'); [done|]; apply hashed_inner; [lia|done]].
    apply inner_pre_inj in H; [|done|apply child_hashes_keys|apply child_hashes_keys].
    apply (map_eq_branches (length p)); [done|by eapply under_keys, under_below, map_ok_keys..|].
    intros i Hi. rewrite !sub_below by done. apply canon_hash_inj; try done; [rewrite length_app; cbn; lia|].
    assert (Ei : child_hashes (length p) (below p m) !!! Z.to_nat i = child_hashes (length p) (below p m') !!! Z.to_nat i)
      by (by rewrite H).
    rewrite !child_hashes_lookup, !sub_below in Ei by done. by rewrite length_app, Nat.add_1_r.
Qed.
End NoCollision.

(** ** Checking concrete maps for collisions *)

(** The child hashes of an inner node over a single item in branch [b]. *)
Definition single_hashes (k : uint256) (v : Blob) (b : Z) : list uint256 :=
  map (fun i => if decide (b = i) then sha512half (leaf_pre k v) else zero256) branches.

(** More than the blobs hashed for [m], in a list without most of the repetitions. *)
Definition depth_blobs (m : kmap) (k : uint256) (d : nat) : list Blob :=
  let b := below (take d (nibbles k)) m in
  match only b with Some _ => [] | None => [inner_pre (child_hashes d b)] end.

Definition single_blobs (k : uint256) (v : Blob) : list Blob :=
  map (fun b => inner_pre (single_hashes k v b)) (remove_dups (nibbles k)).

Definition key_blobs (m : kmap) (k : uint256) (v : Blob) : list Blob :=
  [leaf_pre k v] ++ single_blobs k v ++ concat (map (depth_blobs m k) (seq 0 65)).

Definition hashed_list (m : kmap) : list Blob :=
  inner_pre (map (fun _ => zero256) branches) :: concat (map (uncurry (key_blobs m)) (map_to_list m)).

Lemma single_child_hashes d k v : (d < 64)%nat -> child_hashes d {[k := v]} = single_hashes k v (nib k d).
Proof.
  intros Hd. unfold child_hashes, single_hashes. apply map_ext. intros i. unfold sub. case_decide.
  - rewrite map_filter_singleton_True by done. rewrite canon_hash_leaf by lia. done.
  - rewrite map_filter_singleton_False by done. by rewrite canon_hash_empty.
Qed.

Definition collision_free (ms : list kmap) : bool :=
  let bs := map (fun x => (sha512half x, x)) (concat (map hashed_list ms)) in
  let table : gmap uint256 Blob := list_to_map bs in
  forallb (fun hx => bool_decide (table !! hx.1 = Some hx.2) && negb (isZero hx.1)) bs.

Lemma last_child_hashes m : child_hashes 64 m = map (fun _ => zero256) branches.
Proof. unfold child_hashes. apply map_ext. intros i. unfold canon_hash. by rewrite Nat.sub_diag. Qed.

Lemma single_listed k v d : (d < 64)%nat -> In (inner_pre (child_hashes d {[k := v]})) (single_blobs k v).
Proof.
  intros Hd. rewrite single_child_hashes by done. unfold single_blobs.
  apply (in_map (fun b => inner_pre (single_hashes k v b))). apply list_elem_of_In, elem_of_remove_dups.
  apply (list_elem_of_lookup_2 _ d). by apply nibbles_lookup.
Qed.

Lemma depth_listed m k d :
  (d <= 64)%nat -> only (below (take d (nibbles k)) m) = None ->
  In (inner_pre (child_hashes d (below (take d (nibbles k)) m))) (concat (map (depth_blobs m k) (seq 0 65))).
Proof.
  intros Hd Ho. apply in_concat. exists (depth_blobs m k d).
  split; [apply in_map, in_seq; lia|]. unfold depth_blobs. rewrite Ho. by left.
Qed.

Lemma hashed_listed m x : hashed m x -> In x (hashed_list m).
Proof.
  intros (p & Hp & Hne & Hx). pose proof Hne as (k & v & [Hk Hpre]%below_lookup)%map_choose.
  destruct (decide (x = inner_pre (map (fun _ => zero256) branches))) as [->|Hz]; [by left|right].
  apply in_concat. exists (key_blobs m k v).
  split; [apply (in_map (uncurry (key_blobs m)) _ (k, v)); by apply list_elem_of_In, elem_of_map_to_list|].
  unfold key_blobs. rewrite !in_app_iff. destruct (only (below p m)) as [[k0 v0]|] eqn:Eo.
  - apply only_Some in Eo. assert (E : below p m !! k = Some v) by (by apply below_lookup).
    rewrite Eo in E. apply lookup_singleton_Some in E as [-> ->].
    destruct Hx as [->|(k1 & v1 & E & ->)].
    + right. left. rewrite Eo in *. apply single_listed. destruct (decide (length p = 64%nat)) as [E|]; [|lia].
      destruct Hz. by rewrite E, last_child_hashes.
    + rewrite Eo in E. apply (map_singleton_inj k v) in E as [-> ->]. left. by left.
  - destruct Hx as [->|(k1 & v1 & E & ->)]; [|by rewrite (proj2 (only_Some _ _ _) E) in Eo].
    right. right. rewrite <- Hpre in Eo. pose proof (depth_listed m k (length p) Hp Eo) as H. by rewrite Hpre in H.
Qed.

Lemma collision_free_sound ms : collision_free ms = true -> no_collision ms.
Proof.
  unfold collision_free. set (table := list_to_map _). rewrite forallb_forall. intros H.
  assert (Hin : forall x, Exists (fun m => hashed m x) ms ->
    (table : gmap uint256 Blob) !! sha512half x = Some x /\ isZero (sha512half x) = false).
  { intros x (m & Hm & Hx)%Exists_exists. apply hashed_listed in Hx.
    specialize (H (sha512half x, x)). cbn [fst snd] in H. rewrite andb_true_iff, bool_decide_eq_true, negb_true_iff in H.
    apply H, (in_map (fun x => (sha512half x, x))), in_concat. exists (hashed_list m). split; [|done].
    by apply in_map, list_elem_of_In. }
  split; [|intros x Hx; by apply Hin]. intros x y Hx Hy E. destruct (Hin x Hx) as [H1 _], (Hin y Hy) as [H2 _]. congruence.
Qed.

End Hash.
End SHAMapSpec.
