(* ===== verification/SHAMap.v ===== *)
(** * SHAMap: the operations

    [src/src/ripple_app/shamap/SHAMap.h/.cpp].  The nodes live in a store that
    the maps of the process share: [boost::shared_ptr] copies alias the same
    node, and nodes are mutated in place.  A store is the list of node cells (a
    pointer is an index; cells are never freed) and the contents of the node
    database.  An operation is a state-passing computation over the store that
    keeps the store it reached when it throws; the members of the [SHAMap] object
    itself are passed and returned.

    The database answers [fetchNodeFromDB] only ([getCache] is compiled out:
    ENABLE_SHAMAP_CACHE is defined nowhere); the callback that asks the network
    for a missing ledger, the full-below cache and logging are left out.
    [assert] is not a test in a release build and is not one here: what the
    assertions demand appears in the theorems as hypotheses or conclusions.

    Loops that follow child pointers carry fuel of one more than the 64 levels a
    key has; [getStack] and [walkToPointer] also track the depth and stop being
    defined past the last nibble, so the fuel is not what ends them. *)
From Stdlib Require Import ZArith Lia.
From S2P Require Import Prelude BaseUint Serializer SHAMapNode.
From stdpp Require Import base numbers list gmap strings.
Import BaseUint Serializer SHAMapNode.
Local Open Scope Z_scope.

Module SHAMap.

(** ** The store *)

Record Store : Type := { cells : list SHAMapTreeNode; db : gmap uint256 Blob }.

Definition M (A : Type) : Type := Store -> result A * Store.

#[export] Instance M_ret : MRet M := fun A a s => (Ok a, s).
#[export] Instance M_bind : MBind M := fun A B f m s =>
  match m s with
  | (Ok a, s') => f a s'
  | (Throw e, s') => (Throw e, s')
  end.

Definition lift {A} (r : result A) : M A := fun s => (r, s).
Definition throw {A} (e : exn) : M A := fun s => (Throw e, s).
Definition from_option {A} (what : string) (o : option A) : M A :=
  match o with Some a => mret a | None => throw (undefined what) end.

(** Dereferencing, assigning through, and making a pointer. *)
Definition deref (l : loc) : M SHAMapTreeNode := fun s =>
  match cells s !! l with
  | Some n => (Ok n, s)
  | None => (Throw (undefined "dangling pointer"), s)
  end.
Definition assign (l : loc) (n : SHAMapTreeNode) : M unit := fun s =>
  (Ok tt, {| cells := <[l := n]> (cells s); db := db s |}).
Definition make_shared (n : SHAMapTreeNode) : M loc := fun s =>
  (Ok (length (cells s)), {| cells := cells s ++ [n]; db := db s |}).

(** ** The object *)

Inductive SHAMapState : Type :=
| smsModifying
| smsImmutable
| smsSynching
| smsFloating
| smsInvalid.

#[export] Instance SHAMapState_eq_dec : EqDecision SHAMapState.
Proof. solve_decision. Defined.

Record SHAMap : Type := { smSeq : Z; root : loc; mState : SHAMapState; mBacked : bool }.

Definition with_root (t : SHAMap) (r : loc) : SHAMap :=
  {| smSeq := smSeq t; root := r; mState := mState t; mBacked := mBacked t |}.

Definition no_branch : string := "no branch below the last nibble".
Definition no_fuel : string := "deeper than any key".

(** [SharedPtrNodeStack], the top first. *)
Abbreviation NodeStack := (list (loc * SHAMapNodeID)).

Section Operations.
Context `{SHA : SHA512}.

(** [SHAMap (SHAMapType t, FullBelowCache&, std::uint32_t seq, ...)]. *)
Definition new_map (seq : Z) : M SHAMap :=
  r ← make_shared (makeInner (empty_node seq));
  mret {| smSeq := seq; root := r; mState := smsModifying; mBacked := true |}.

(** ** Fetching *)

(** What the database holds under a hash; a blob that does not parse is as good
    as none. *)
Definition db_node (s : Store) (hash : uint256) : option SHAMapTreeNode :=
  match db s !! hash with
  | Some data =>
      match raw_node data 0 snfPREFIX hash true with
      | Ok n => Some n
      | Throw _ => None
      end
  | None => None
  end.

Definition fetchNodeFromDB (t : SHAMap) (s : Store) (hash : uint256) : option SHAMapTreeNode :=
  if mBacked t then db_node s hash else None.

Definition fetchNodeNT (t : SHAMap) (hash : uint256) : M (option loc) := fun s =>
  if mBacked t then
    match fetchNodeFromDB t s hash with
    | Some n => (o ← make_shared n; mret (Some o)) s
    | None => (Ok None, s)
    end
  else (Ok None, s).

Definition fetchNode (t : SHAMap) (hash : uint256) : M loc :=
  o ← fetchNodeNT t hash;
  match o with
  | Some l => mret l
  | None => throw (SHAMapMissingNode hash)
  end.

(** Hook a fetched node up to its parent. *)
Definition hook (parent : loc) (branch : Z) (node : loc) : M loc :=
  n ← deref parent;
  '(c, n') ← lift (canonicalizeChild n branch node);
  _ ← assign parent n';
  mret c.

(** [descend (SHAMapTreeNode* parent, int branch)]. *)
Definition descend (t : SHAMap) (parent : loc) (branch : Z) : M (option loc) :=
  n ← deref parent;
  ret ← lift (getChild n branch);
  match ret with
  | Some c => mret (Some c)
  | None =>
      if negb (mBacked t) then mret None
      else
        hash ← lift (getChildHash n branch);
        node ← fetchNodeNT t hash;
        match node with
        | None => mret None
        | Some node => c ← hook parent branch node; mret (Some c)
        end
  end.

(** [descend (SHAMapTreeNode::ref parent, int branch)]: the fetch throws. *)
Definition descend_ref (t : SHAMap) (parent : loc) (branch : Z) : M (option loc) :=
  n ← deref parent;
  ret ← lift (getChild n branch);
  match ret with
  | Some c => mret (Some c)
  | None =>
      if negb (mBacked t) then mret None
      else
        hash ← lift (getChildHash n branch);
        node ← fetchNode t hash;
        c ← hook parent branch node; mret (Some c)
  end.

(** The common end of the two [descendThrow]. *)
Definition or_missing (parent : loc) (branch : Z) (ret : option loc) : M loc :=
  match ret with
  | Some c => mret c
  | None =>
      n ← deref parent;
      e ← lift (isEmptyBranch n branch);
      if negb e then hash ← lift (getChildHash n branch); throw (SHAMapMissingNode hash)
      else throw (undefined "descent into an empty branch")
  end.

Definition descendThrow (t : SHAMap) (parent : loc) (branch : Z) : M loc :=
  ret ← descend t parent branch; or_missing parent branch ret.

Definition descendThrow_ref (t : SHAMap) (parent : loc) (branch : Z) : M loc :=
  ret ← descend_ref t parent branch; or_missing parent branch ret.

(** ** Walking *)

Fixpoint getStack_loop (t : SHAMap) (fuel : nat) (id : uint256) (include_nonmatching_leaf : bool)
    (node : loc) (nodeID : SHAMapNodeID) (stack : NodeStack) : M NodeStack :=
  match fuel with
  | O => throw (undefined no_fuel)
  | S fuel =>
      n ← deref node;
      if negb (isLeaf n) then
        let stack := (node, nodeID) :: stack in
        branch ← from_option no_branch (selectBranch nodeID id);
        e ← lift (isEmptyBranch n branch);
        if (e : bool) then mret stack
        else
          node ← descendThrow_ref t node branch;
          nodeID ← from_option no_branch (getChildNodeID nodeID branch);
          getStack_loop t fuel id include_nonmatching_leaf node nodeID stack
      else
        item ← lift (item_of n);
        mret (if include_nonmatching_leaf || bool_decide (mTag item = id) then (node, nodeID) :: stack else stack)
  end.

Definition depth_fuel : nat := 66.

Definition getStack (t : SHAMap) (id : uint256) (include_nonmatching_leaf : bool) : M NodeStack :=
  getStack_loop t depth_fuel id include_nonmatching_leaf (root t) root_id [].

Fixpoint walkToPointer_loop (t : SHAMap) (fuel : nat) (id : uint256) (inNode : loc) (nodeID : SHAMapNodeID)
    : M (option loc) :=
  match fuel with
  | O => throw (undefined no_fuel)
  | S fuel =>
      n ← deref inNode;
      if isInner n then
        branch ← from_option no_branch (selectBranch nodeID id);
        e ← lift (isEmptyBranch n branch);
        if (e : bool) then mret None
        else
          inNode ← descendThrow t inNode branch;
          nodeID ← from_option no_branch (getChildNodeID nodeID branch);
          walkToPointer_loop t fuel id inNode nodeID
      else
        item ← lift (item_of n);
        mret (if bool_decide (mTag item = id) then Some inNode else None)
  end.

Definition walkToPointer (t : SHAMap) (id : uint256) : M (option loc) :=
  walkToPointer_loop t depth_fuel id (root t) root_id.

(** [firstBelow] and [lastBelow] differ in the order of the branches. *)
Fixpoint find_branch (n : SHAMapTreeNode) (order : list Z) : result (option Z) :=
  match order with
  | [] => mret None
  | i :: order => e ← isEmptyBranch n i; if (e : bool) then find_branch n order else mret (Some i)
  end.

Fixpoint below_loop (t : SHAMap) (fuel : nat) (order : list Z) (node : loc) : M (option loc) :=
  match fuel with
  | O => throw (undefined no_fuel)
  | S fuel =>
      n ← deref node;
      if hasItem n then mret (Some node)
      else
        o ← lift (find_branch n order);
        match o with
        | None => mret None
        | Some i => node ← descendThrow t node i; below_loop t fuel order node
        end
  end.

Definition firstBelow (t : SHAMap) (node : loc) : M (option loc) := below_loop t depth_fuel branches node.
Definition lastBelow (t : SHAMap) (node : loc) : M (option loc) := below_loop t depth_fuel (reverse branches) node.

(** The scan of [onlyBelow] over one inner node: [None] for a second branch. *)
Fixpoint only_scan (t : SHAMap) (node : loc) (order : list Z) (nextNode : option loc)
    : M (option (option loc)) :=
  match order with
  | [] => mret (Some nextNode)
  | i :: order =>
      n ← deref node;
      e ← lift (isEmptyBranch n i);
      if (e : bool) then only_scan t node order nextNode
      else match nextNode with
           | Some _ => mret None
           | None => c ← descendThrow t node i; only_scan t node order (Some c)
           end
  end.

Fixpoint onlyBelow_loop (t : SHAMap) (fuel : nat) (node : loc) : M (option SHAMapItem) :=
  match fuel with
  | O => throw (undefined no_fuel)
  | S fuel =>
      n ← deref node;
      if negb (isLeaf n) then
        o ← only_scan t node branches None;
        match o with
        | None => mret None
        | Some None => mret None
        | Some (Some next) => onlyBelow_loop t fuel next
        end
      else mret (mItem n)
  end.

Definition onlyBelow (t : SHAMap) (node : loc) : M (option SHAMapItem) := onlyBelow_loop t depth_fuel node.

(** ** Reading *)

Definition peek_at (o : option loc) : M (option SHAMapItem) :=
  match o with
  | None => mret None
  | Some l => n ← deref l; mret (mItem n)
  end.

Definition peekFirstItem (t : SHAMap) : M (option SHAMapItem) := o ← firstBelow t (root t); peek_at o.
Definition peekLastItem (t : SHAMap) : M (option SHAMapItem) := o ← lastBelow t (root t); peek_at o.
Definition peekItem (t : SHAMap) (id : uint256) : M (option SHAMapItem) := o ← walkToPointer t id; peek_at o.

Definition hasItem_map (t : SHAMap) (id : uint256) : M bool :=
  o ← walkToPointer t id; mret (match o with Some _ => true | None => false end).

(** [peekItem (id, type)] and [peekItem (id, hash)]: also the type or the hash of
    the leaf. *)
Definition peekItem_type (t : SHAMap) (id : uint256) : M (option (SHAMapItem * TNType)) :=
  o ← walkToPointer t id;
  match o with
  | None => mret None
  | Some l => n ← deref l; item ← lift (item_of n); mret (Some (item, mType n))
  end.

Definition peekItem_hash (t : SHAMap) (id : uint256) : M (option (SHAMapItem * uint256)) :=
  o ← walkToPointer t id;
  match o with
  | None => mret None
  | Some l => n ← deref l; item ← lift (item_of n); mret (Some (item, mHash n))
  end.

(** The branches [peekNextItem] and [peekPrevItem] try beside [b]. *)
Definition branches_after (b : Z) : list Z := filter (fun i => b < i) branches.
Definition branches_before (b : Z) : list Z := filter (fun i => i < b) (reverse branches).

Fixpoint peekNext_loop (t : SHAMap) (id : uint256) (stack : NodeStack) : M (option (SHAMapItem * TNType)) :=
  match stack with
  | [] => mret None
  | (node, nodeID) :: stack =>
      n ← deref node;
      if isLeaf n then
        item ← lift (item_of n);
        if key_ltb id (mTag item) then mret (Some (item, mType n)) else peekNext_loop t id stack
      else
        b ← from_option no_branch (selectBranch nodeID id);
        o ← lift (find_branch n (branches_after b));
        match o with
        | None => peekNext_loop t id stack
        | Some i =>
            node ← descendThrow t node i;
            o ← firstBelow t node;
            match o with
            | None => throw (runtime_error "missing/corrupt node")
            | Some l =>
                n ← deref l;
                if isInner n then throw (runtime_error "missing/corrupt node")
                else item ← lift (item_of n); mret (Some (item, mType n))
            end
        end
  end.

Definition peekNextItem (t : SHAMap) (id : uint256) : M (option (SHAMapItem * TNType)) :=
  stack ← getStack t id true; peekNext_loop t id stack.

Fixpoint peekPrev_loop (t : SHAMap) (id : uint256) (stack : NodeStack) : M (option SHAMapItem) :=
  match stack with
  | [] => mret None
  | (node, nodeID) :: stack =>
      n ← deref node;
      if isLeaf n then
        item ← lift (item_of n);
        if key_ltb (mTag item) id then mret (Some item) else peekPrev_loop t id stack
      else
        b ← from_option no_branch (selectBranch nodeID id);
        o ← lift (find_branch n (branches_before b));
        match o with
        | None => peekPrev_loop t id stack
        | Some i =>
            node ← descendThrow t node i;
            o ← lastBelow t node;
            l ← from_option "null node" o;
            n ← deref l;
            mret (mItem n)
        end
  end.

Definition peekPrevItem (t : SHAMap) (id : uint256) : M (option SHAMapItem) :=
  stack ← getStack t id true; peekPrev_loop t id stack.

Definition getHash (t : SHAMap) : M uint256 := n ← deref (root t); mret (mHash n).

(** ** Writing *)

(** [unshareNode]: the node to modify, and the map with its new root. *)
Definition unshareNode (t : SHAMap) (node : loc) (nodeID : SHAMapNodeID) : M (loc * SHAMap) :=
  n ← deref node;
  if negb (mSeq n =? smSeq t) then
    n' ← lift (copy_node n (smSeq t));
    node' ← make_shared n';
    mret (node', if isRoot nodeID then with_root t node' else t)
  else mret (node, t).

(** [node->setChild (branch, hash, child)] through the pointer. *)
Definition set_child (node : loc) (branch : Z) (hash : uint256) (child : option loc) : M bool :=
  n ← deref node;
  '(n', changed) ← lift (setChild n branch hash child);
  _ ← assign node n';
  mret changed.

Definition set_item (node : loc) (item : SHAMapItem) (type : TNType) : M bool :=
  n ← deref node;
  '(n', changed) ← lift (setItem n item type);
  _ ← assign node n';
  mret changed.

Fixpoint dirtyUp (t : SHAMap) (stack : NodeStack) (target : uint256) (child : loc) : M SHAMap :=
  match stack with
  | [] => mret t
  | (node, nodeID) :: stack =>
      branch ← from_option no_branch (selectBranch nodeID target);
      '(node, t) ← unshareNode t node nodeID;
      c ← deref child;
      changed ← set_child node branch (mHash c) (Some child);
      if negb changed then mret t else dirtyUp t stack target node
  end.

(** The loop of [addGiveItem] that makes a leaf into a chain of inner nodes down
    to where the two keys part: the last node, its position, the two branches. *)
Fixpoint split_loop (t : SHAMap) (fuel : nat) (tag other : uint256) (node : loc) (nodeID : SHAMapNodeID)
    (stack : NodeStack) : M (loc * Z * Z * NodeStack) :=
  match fuel with
  | O => throw (undefined no_fuel)
  | S fuel =>
      b1 ← from_option no_branch (selectBranch nodeID tag);
      b2 ← from_option no_branch (selectBranch nodeID other);
      if b1 =? b2 then
        let stack := (node, nodeID) :: stack in
        nodeID ← from_option no_branch (getChildNodeID nodeID b1);
        node ← make_shared (makeInner (empty_node (smSeq t)));
        split_loop t fuel tag other node nodeID stack
      else mret (node, b1, b2, stack)
  end.

Definition leaf_type (isTransaction hasMeta : bool) : TNType :=
  if negb isTransaction then tnACCOUNT_STATE else if hasMeta then tnTRANSACTION_MD else tnTRANSACTION_NM.

Definition missing_node_error : exn := runtime_error "missing node".

(** [addGiveItem] where the walk ended on an inner node: "easy case". *)
Definition add_at_inner (t : SHAMap) (item : SHAMapItem) (type : TNType) (node : loc) (nodeID : SHAMapNodeID)
    (stack : NodeStack) : M SHAMap :=
  branch ← from_option no_branch (selectBranch nodeID (mTag item));
  leaf ← lift (item_node item type (smSeq t));
  newNode ← make_shared leaf;
  _ ← set_child node branch (mHash leaf) (Some newNode);
  dirtyUp t stack (mTag item) node.

(** [addGiveItem] where it ended on the leaf of another key. *)
Definition add_at_leaf (t : SHAMap) (item : SHAMapItem) (type : TNType) (node : loc) (nodeID : SHAMapNodeID)
    (stack : NodeStack) : M SHAMap :=
  n ← deref node;
  otherItem ← lift (item_of n);
  _ ← assign node (makeInner n);
  '(node, b1, b2, stack) ← split_loop t depth_fuel (mTag item) (mTag otherItem) node nodeID stack;
  leaf1 ← lift (item_node item type (smSeq t));
  newNode ← make_shared leaf1;
  _ ← set_child node b1 (mHash leaf1) (Some newNode);
  leaf2 ← lift (item_node otherItem type (smSeq t));
  newNode ← make_shared leaf2;
  _ ← set_child node b2 (mHash leaf2) (Some newNode);
  dirtyUp t stack (mTag item) node.

Definition addGiveItem (t : SHAMap) (item : SHAMapItem) (isTransaction hasMeta : bool) : M (bool * SHAMap) :=
  let tag := mTag item in
  let type := leaf_type isTransaction hasMeta in
  stack ← getStack t tag true;
  match stack with
  | [] => throw missing_node_error
  | (node, nodeID) :: stack =>
      n ← deref node;
      if isLeaf n && match mItem n with Some i => bool_decide (mTag i = tag) | None => false end
      then mret (false, t)
      else
        '(node, t) ← unshareNode t node nodeID;
        n ← deref node;
        t ← (if isInner n then add_at_inner t item type node nodeID stack
             else add_at_leaf t item type node nodeID stack);
        mret (true, t)
  end.

Definition updateGiveItem (t : SHAMap) (item : SHAMapItem) (isTransaction hasMeta : bool) : M (bool * SHAMap) :=
  let tag := mTag item in
  stack ← getStack t tag true;
  match stack with
  | [] => throw missing_node_error
  | (node, nodeID) :: stack =>
      n ← deref node;
      if negb (isLeaf n) || negb (match mItem n with Some i => bool_decide (mTag i = tag) | None => false end)
      then mret (false, t)
      else
        '(node, t) ← unshareNode t node nodeID;
        changed ← set_item node item (leaf_type isTransaction hasMeta);
        if negb changed then mret (true, t)
        else t ← dirtyUp t stack tag node; mret (true, t)
  end.

(** The branch [delItem] clears when it pulls an item up. *)
Fixpoint clear_first (node : loc) (order : list Z) : M unit :=
  match order with
  | [] => mret tt
  | i :: order =>
      n ← deref node;
      e ← lift (isEmptyBranch n i);
      if (e : bool) then clear_first node order
      else _ ← set_child node i zero256 None; mret tt
  end.

(** The walk up of [delItem]: [prevHash] and [prevNode] are what gets attached. *)
Fixpoint delItem_loop (t : SHAMap) (id : uint256) (type : TNType) (stack : NodeStack)
    (prevHash : uint256) (prevNode : option loc) : M SHAMap :=
  match stack with
  | [] => mret t
  | (node, nodeID) :: stack =>
      '(node, t) ← unshareNode t node nodeID;
      branch ← from_option no_branch (selectBranch nodeID id);
      changed ← set_child node branch prevHash prevNode;
      if negb changed then mret t
      else if negb (isRoot nodeID) then
        n ← deref node;
        bc ← lift (getBranchCount n);
        if bc =? 0 then delItem_loop t id type stack zero256 None
        else if bc =? 1 then
          item ← onlyBelow t node;
          _ ← match item with
              | Some item => _ ← clear_first node branches; _ ← set_item node item type; mret tt
              | None => mret tt
              end;
          n ← deref node;
          delItem_loop t id type stack (mHash n) (Some node)
        else
          n ← deref node;
          delItem_loop t id type stack (mHash n) (Some node)
      else delItem_loop t id type stack prevHash prevNode
  end.

Definition delItem (t : SHAMap) (id : uint256) : M (bool * SHAMap) :=
  stack ← getStack t id true;
  match stack with
  | [] => throw missing_node_error
  | (leaf, _) :: stack =>
      n ← deref leaf;
      match mItem n with
      | Some item =>
          if bool_decide (mTag item = id) then
            t ← delItem_loop t id (mType n) stack zero256 None; mret (true, t)
          else mret (false, t)
      | None => mret (false, t)
      end
  end.

(** ** Sharing nodes *)

Definition preFlushNode (t : SHAMap) (node : loc) : M loc :=
  n ← deref node;
  if negb (mSeq n =? smSeq t) then n' ← lift (copy_node n (smSeq t)); make_shared n' else mret node.

(** [getNodeStore().store (t, seq, data, hash)]. *)
Definition db_store (hash : uint256) (data : Blob) : M unit := fun s =>
  (Ok tt, {| cells := cells s; db := <[hash := data]> (db s) |}).

Definition writeNode (node : loc) : M unit :=
  n ← deref node;
  let n := setSeq n 0 in
  _ ← assign node n;
  raw ← lift (addRaw_node n snfPREFIX []);
  db_store (mHash n) raw.

Definition share_child (node : loc) (branch : Z) (child : loc) : M unit :=
  n ← deref node;
  n' ← lift (shareChild n branch child);
  assign node n'.

(** The loop of [walkSubTree] over the branches of an inner node that is ours; an
    inner child goes to [flush]. *)
Fixpoint flush_branches (t : SHAMap) (doWrite : bool) (flush : loc -> M Z) (node : loc) (order : list Z) (flushed : Z)
    : M Z :=
  match order with
  | [] => mret flushed
  | pos :: order =>
      n ← deref node;
      e ← lift (isEmptyBranch n pos);
      if (e : bool) then flush_branches t doWrite flush node order flushed
      else
        child ← lift (getChild n pos);
        match child with
        | None => flush_branches t doWrite flush node order flushed
        | Some child =>
            c ← deref child;
            if mSeq c =? 0 then flush_branches t doWrite flush node order flushed
            else if isInner c then
              child ← preFlushNode t child;
              below ← flush child;
              _ ← share_child node pos child;
              flush_branches t doWrite flush node order (flushed + below)
            else
              child ← preFlushNode t child;
              _ ← (if doWrite && mBacked t then writeNode child else mret tt);
              _ ← share_child node pos child;
              flush_branches t doWrite flush node order (flushed + 1)
        end
  end.

(** The explicit stack of nodes in progress is the stack of the recursion here: a
    child is made ours before it is worked on, flushed after its own children,
    then hooked to its parent. *)
Fixpoint flush_node (t : SHAMap) (doWrite : bool) (fuel : nat) (node : loc) : M Z :=
  match fuel with
  | O => throw (undefined no_fuel)
  | S fuel =>
      flushed ← flush_branches t doWrite (flush_node t doWrite fuel) node branches 0;
      _ ← (if doWrite && mBacked t then writeNode node else mret tt);
      mret (flushed + 1)
  end.

Definition walkSubTree (t : SHAMap) (doWrite : bool) : M (Z * SHAMap) :=
  n ← deref (root t);
  if mSeq n =? 0 then mret (0, t)
  else
    e ← lift (isEmpty n);
    if (e : bool) then mret (0, t)
    else if isLeaf n then
      node ← preFlushNode t (root t);
      _ ← (if doWrite && mBacked t then writeNode node else mret tt);
      mret (1, with_root t node)
    else
      node ← preFlushNode t (root t);
      flushed ← flush_node t doWrite depth_fuel node;
      mret (flushed, with_root t node).

Definition unshare (t : SHAMap) : M (Z * SHAMap) := walkSubTree t false.
Definition flushDirty (t : SHAMap) : M (Z * SHAMap) := walkSubTree t true.

(** [snapShot]: the constructor's own root is replaced at once. *)
Definition snapShot (t : SHAMap) (isMutable : bool) : M SHAMap :=
  ret ← new_map 1;
  let newMap := {| smSeq := u32 (smSeq t + 1); root := root t;
                   mState := if isMutable then mState ret else smsImmutable; mBacked := mBacked ret |} in
  if negb (bool_decide (mState t = smsImmutable)) || negb isMutable then '(_, newMap) ← unshare newMap; mret newMap
  else mret newMap.

(** ** Status *)

Definition with_state (t : SHAMap) (st : SHAMapState) : SHAMap :=
  {| smSeq := smSeq t; root := root t; mState := st; mBacked := mBacked t |}.
Definition setImmutable (t : SHAMap) : SHAMap := with_state t smsImmutable.
Definition isImmutable (t : SHAMap) : bool := bool_decide (mState t = smsImmutable).
Definition isSynching (t : SHAMap) : bool := bool_decide (mState t = smsFloating \/ mState t = smsSynching).
Definition setSynching (t : SHAMap) : SHAMap := with_state t smsSynching.
Definition setFloating (t : SHAMap) : SHAMap := with_state t smsFloating.
Definition clearSynching (t : SHAMap) : SHAMap := with_state t smsModifying.
Definition isValid (t : SHAMap) : bool := negb (bool_decide (mState t = smsInvalid)).
Definition setUnbacked (t : SHAMap) : SHAMap :=
  {| smSeq := smSeq t; root := root t; mState := mState t; mBacked := false |}.

(** [fetchRoot] without a filter. *)
Definition fetchRoot (t : SHAMap) (hash : uint256) : M (bool * SHAMap) :=
  n ← deref (root t);
  if bool_decide (hash = mHash n) then mret (true, t)
  else
    newRoot ← fetchNodeNT t hash;
    match newRoot with
    | Some r => mret (true, with_root t r)
    | None => mret (false, t)
    end.

(** [getPath]: whether the item is there, and the nodes on the way. *)
Fixpoint getPath_loop (t : SHAMap) (fuel : nat) (index : uint256) (format : SHANodeFormat) (inNode : loc)
    (nodeID : SHAMapNodeID) (nodes : list Blob) : M (bool * list Blob) :=
  match fuel with
  | O => throw (undefined no_fuel)
  | S fuel =>
      n ← deref inNode;
      if isInner n then
        raw ← lift (addRaw_node n format []);
        let nodes := nodes ++ [raw] in
        branch ← from_option no_branch (selectBranch nodeID index);
        e ← lift (isEmptyBranch n branch);
        if (e : bool) then mret (false, nodes)
        else
          inNode ← descendThrow t inNode branch;
          nodeID ← from_option no_branch (getChildNodeID nodeID branch);
          getPath_loop t fuel index format inNode nodeID nodes
      else
        item ← lift (item_of n);
        if negb (bool_decide (mTag item = index)) then mret (false, nodes)
        else raw ← lift (addRaw_node n format []); mret (true, nodes ++ [raw])
  end.

Definition getPath (t : SHAMap) (index : uint256) (format : SHANodeFormat) : M (bool * list Blob) :=
  getPath_loop t depth_fuel index format (root t) root_id [].


End Operations.

End SHAMap.
