(* ===== verification/SHAMapRep.v ===== *)
(** * How a store represents a map

    A tree in the store is related to the finite map it stands for by [rep], an
    inductive predicate over the nodes reachable through child pointers and
    through the database.  Two ghost facts are kept per cell: the position (the
    path of nibbles) of its node, and the map that may still write to it, if any.
    They are what makes in-place updates safe: a map writes only cells it owns,
    and cells at different positions are different.  [lrep] is the same for the
    node behind a pointer.

    [grows] relates the stores before and after a read: reading may hook nodes of
    the database up to their parents, and changes nothing else. *)
From Stdlib Require Import ZArith Lia.
From S2P Require Import Prelude BaseUint Serializer SHAMapNode SHAMapSpec SHAMap.
From stdpp Require Import base numbers list gmap strings.
Import BaseUint Serializer SHAMapNode SHAMapSpec SHAMap.
Local Open Scope Z_scope.

Module SHAMapRep.

(** ** Ghost state *)

(** Per cell: where the node sits, and the owner. *)
Abbreviation ghost := (list (path * option nat)).

(** A map as its readers see it: its identity and sequence number, whether it is
    frozen (never written again), whether it is backed, the type of its leaves. *)
Record view : Type := { v_id : nat; v_seq : Z; v_frozen : bool; v_backed : bool; v_type : TNType }.

Definition leafy (ty : TNType) : Prop := ty = tnTRANSACTION_NM \/ ty = tnTRANSACTION_MD \/ ty = tnACCOUNT_STATE.

Section Rep.
Context `{SHA : SHA512}.

Implicit Types (s : Store) (g : ghost) (v : view) (n : SHAMapTreeNode) (l c : loc) (p : path) (m : kmap) (i : Z).

(** A cell a map may follow: at the right position, not newer than the map, and
    either its own or no one's. *)
Definition usable s g v l p : Prop :=
  exists o n, g !! l = Some (p, o) /\ cells s !! l = Some n /\ 0 <= mSeq n <= v_seq v /\
    (if v_frozen v then o = None else o = Some (v_id v) \/ (o = None /\ mSeq n <> v_seq v)).

(** The child of an inner node: loaded, or in the database. *)
Definition resolve s v (inner : InnerData) i : option SHAMapTreeNode :=
  match mChildren inner !!! Z.to_nat i with
  | Some c => cells s !! c
  | None => if v_backed v then db_node s (mHashes inner !!! Z.to_nat i) else None
  end.

Inductive rep s g v : SHAMapTreeNode -> path -> kmap -> Prop :=
| rep_leaf n p item :
    mType n = v_type v -> mItem n = Some item -> p <> [] -> (length p <= 64)%nat ->
    under p {[mTag item := mData item]} ->
    mHash n = sha512half (leaf_pre (v_type v) (mTag item) (mData item)) ->
    rep s g v n p {[mTag item := mData item]}
| rep_inner n p m inner :
    mType n = tnINNER -> mItem n = None -> mInner n = Some inner -> (length p < 64)%nat -> under p m ->
    p = [] \/ (2 <= size m)%nat ->
    mHash n = inner_hash (v_type v) (length p) m ->
    mHashes inner = child_hashes (v_type v) (length p) m ->
    bits_ok (mHashes inner) (mIsBranch inner) -> length (mChildren inner) = 16%nat ->
    (forall i, 0 <= i < 16 -> isZero (mHashes inner !!! Z.to_nat i) = true <-> sub (length p) i m = ∅) ->
    (forall i c, 0 <= i < 16 -> mChildren inner !!! Z.to_nat i = Some c ->
       usable s g v c (p ++ [i]) /\ sub (length p) i m <> ∅) ->
    (forall i, 0 <= i < 16 -> sub (length p) i m <> ∅ -> is_Some (resolve s v inner i)) ->
    (forall i nc, 0 <= i < 16 -> sub (length p) i m <> ∅ -> resolve s v inner i = Some nc ->
       rep s g v nc (p ++ [i]) (sub (length p) i m)) ->
    rep s g v n p m.

(** The node behind a pointer. *)
Definition lrep s g v l p m : Prop :=
  usable s g v l p /\ exists n, cells s !! l = Some n /\ rep s g v n p m.

(** ** Inner nodes piece by piece *)

(** The parts of an inner node that do not depend on the map. *)
Record skeleton n p (inner : InnerData) : Prop := {
  sk_type : mType n = tnINNER;
  sk_item : mItem n = None;
  sk_inner : mInner n = Some inner;
  sk_len : (length p < 64)%nat;
  sk_hashes : length (mHashes inner) = 16%nat;
  sk_keys : Forall is_uint256 (mHashes inner);
  sk_bits : bits_ok (mHashes inner) (mIsBranch inner);
  sk_children : length (mChildren inner) = 16%nat }.

(** Branch [i] of an inner node at [p] over the map [m]. *)
Record branch_ok s g v (inner : InnerData) p m i : Prop := {
  bo_hash : mHashes inner !!! Z.to_nat i = canon_hash (v_type v) (S (length p)) (sub (length p) i m);
  bo_zero : isZero (mHashes inner !!! Z.to_nat i) = true <-> sub (length p) i m = ∅;
  bo_child : forall c, mChildren inner !!! Z.to_nat i = Some c ->
    usable s g v c (p ++ [i]) /\ sub (length p) i m <> ∅;
  bo_rep : sub (length p) i m <> ∅ ->
    exists nc, resolve s v inner i = Some nc /\ rep s g v nc (p ++ [i]) (sub (length p) i m) }.

(** An inner node over [m], whatever the size of [m]. *)
Definition inner_rep s g v n p m : Prop :=
  exists inner, skeleton n p inner /\ under p m /\ mHash n = inner_hash (v_type v) (length p) m /\
    forall i, 0 <= i < 16 -> branch_ok s g v inner p m i.

Definition leaf_rep v n p m : Prop :=
  exists item, mType n = v_type v /\ mItem n = Some item /\ p <> [] /\ (length p <= 64)%nat /\
    m = {[mTag item := mData item]} /\ under p m /\
    mHash n = sha512half (leaf_pre (v_type v) (mTag item) (mData item)).

Lemma hashes_eq (inner : InnerData) ty p m :
  length (mHashes inner) = 16%nat ->
  (forall i, 0 <= i < 16 -> mHashes inner !!! Z.to_nat i = canon_hash ty (S (length p)) (sub (length p) i m)) ->
  mHashes inner = child_hashes ty (length p) m.
Proof.
  intros Hl H. apply (list_eq_same_length _ _ 16); [done|done|]. intros j x y Hj Hx Hy.
  apply list_lookup_total_correct in Hx, Hy. rewrite <- Hx, <- Hy.
  rewrite <- (Nat2Z.id j), H, child_hashes_lookup by lia. done.
Qed.

Lemma rep_inv s g v n p m :
  rep s g v n p m -> leaf_rep v n p m \/ (inner_rep s g v n p m /\ (p = [] \/ (2 <= size m)%nat)).
Proof.
  intros H. destruct H as [n p item|n p m inner Ht Hi Hn Hl Hu Hs Hh Hhs Hb Hc Hz Hp Hr Hrep].
  - left. by exists item.
  - right. split; [|done]. exists inner. split_and!; [|done|done|].
    + split; try done; rewrite Hhs; [done|apply child_hashes_keys].
    + intros i Hi'. split; [by rewrite Hhs, child_hashes_lookup|by apply Hz|by intros; apply Hp|].
      intros Hne. destruct (Hr i Hi' Hne) as [nc Hnc]. eauto.
Qed.

Lemma rep_intro_inner s g v n p m :
  inner_rep s g v n p m -> p = [] \/ (2 <= size m)%nat -> rep s g v n p m.
Proof.
  intros (inner & Hsk & Hu & Hh & Hb) Hs. destruct Hsk.
  apply rep_inner with inner; try done.
  - by apply hashes_eq; [|intros; apply Hb].
  - intros i Hi. by apply Hb.
  - intros i c Hi. by apply Hb.
  - intros i Hi Hne. destruct (bo_rep _ _ _ _ _ _ _ (Hb i Hi) Hne) as (nc & -> & _). eauto.
  - intros i nc Hi Hne Hnc. destruct (bo_rep _ _ _ _ _ _ _ (Hb i Hi) Hne) as (nc' & E & Hrep). congruence.
Qed.

Lemma rep_intro_leaf s g v n p m : leaf_rep v n p m -> rep s g v n p m.
Proof. intros (item & ? & ? & ? & ? & -> & ? & ?). by apply rep_leaf. Qed.

Lemma rep_under s g v n p m : rep s g v n p m -> under p m.
Proof. by intros [(? & ? & ? & ? & ? & ? & ? & ?)|[(? & ? & ? & ?) _]]%rep_inv. Qed.

(** A node's hash is the canonical hash of what it stands for. *)
Lemma rep_hash s g v n p m : rep s g v n p m -> mHash n = canon_hash (v_type v) (length p) m.
Proof.
  intros [(item & ? & ? & Hp & ? & -> & ? & ->)|[(inner & Hsk & ? & -> & ?) Hs]]%rep_inv.
  - rewrite canon_hash_leaf; [done|]. destruct p; [done|]. cbn [length] in *. lia.
  - destruct Hsk. rewrite canon_hash_inner; [done|lia|]. destruct Hs as [->|]; [by left|right]. apply only_None. auto.
Qed.

(** ** Framing *)

(** Only the cells at positions below [p] matter to a tree at [p]. *)
Lemma rep_frame s g v s' g' v' n p m :
  v_backed v' = v_backed v -> v_type v' = v_type v -> db s ⊆ db s' ->
  (forall l p', p `prefix_of` p' -> p <> p' -> usable s g v l p' ->
     usable s' g' v' l p' /\ cells s' !! l = cells s !! l) ->
  rep s g v n p m -> rep s' g' v' n p m.
Proof.
  intros Hbk Hty Hdb Hcells Hrep. revert Hcells.
  assert (Hstep : forall p i, p `prefix_of` p ++ [i]) by (intros; by apply prefix_app_r).
  assert (Hne : forall p i, p <> p ++ [i]) by (intros p0 i0 E; apply (f_equal length) in E; rewrite length_app in E; cbn in E; lia).
  induction Hrep as [n p item Ht|n p m inner Ht Hi Hn Hl Hu Hs Hh Hhs Hb Hc Hz Hp Hr Hrep IH]; intros Hcells.
  { apply rep_leaf; by rewrite ?Hty. }
  assert (Hres : forall i, 0 <= i < 16 -> sub (length p) i m <> ∅ ->
    resolve s' v' inner i = resolve s v inner i).
  { intros i Hi' Hsub. unfold resolve. destruct (mChildren inner !!! Z.to_nat i) as [c|] eqn:E.
    - apply (Hcells c (p ++ [i])); [done|done|]. by apply Hp.
    - rewrite Hbk. destruct (v_backed v) eqn:Eb; [|done]. destruct (Hr i Hi' Hsub) as [nc Hnc].
      unfold resolve in Hnc. rewrite E, Eb in Hnc. unfold db_node in *.
      destruct (db s !! (mHashes inner !!! Z.to_nat i)) as [data|] eqn:Ed; [|done].
      by rewrite (lookup_weaken _ _ _ _ Ed Hdb). }
  apply rep_inner with inner; rewrite ?Hty; try done.
  - intros i c Hi' Hc'. destruct (Hp i c Hi' Hc') as [Hu' ?]. split; [|done]. by apply Hcells.
  - intros i Hi' Hsub. rewrite Hres by done. by apply Hr.
  - intros i nc Hi' Hsub Hnc. rewrite Hres in Hnc by done. apply (IH i nc Hi' Hsub Hnc).
    intros l p' Hpre Hne' Hu'. apply Hcells; [by trans (p ++ [i])| |done].
    intros <-. apply prefix_length in Hpre. rewrite length_app in Hpre. cbn in Hpre. lia.
Qed.

Lemma lrep_frame s g v s' g' v' l p m :
  v_backed v' = v_backed v -> v_type v' = v_type v -> db s ⊆ db s' ->
  (forall l p', p `prefix_of` p' -> usable s g v l p' -> usable s' g' v' l p' /\ cells s' !! l = cells s !! l) ->
  lrep s g v l p m -> lrep s' g' v' l p m.
Proof.
  intros Hbk Hty Hdb Hcells [Hu (n & Hn & Hrep)]. destruct (Hcells l p) as [Hu' E]; [done|done|].
  split; [done|]. exists n. split; [congruence|]. eapply rep_frame, Hrep; try done. intros. by apply Hcells.
Qed.
(** ** Weakest preconditions *)

(** The computation returns and its result and store satisfy [Q]. *)
Definition wp {A} (c : M A) s (Q : A -> Store -> Prop) : Prop :=
  match c s with
  | (Ok a, s') => Q a s'
  | (Throw _, _) => False
  end.

Lemma wp_bind {A B} (c : M A) (f : A -> M B) s (Q : B -> Store -> Prop) :
  wp c s (fun a s' => wp (f a) s' Q) -> wp (c ≫= f) s Q.
Proof. unfold wp, mbind, M_bind. destruct (c s) as [[a|e] s']; done. Qed.

Lemma wp_ret {A} (a : A) s (Q : A -> Store -> Prop) : Q a s -> wp (mret a) s Q.
Proof. done. Qed.

Lemma wp_lift {A} (r : result A) a s (Q : A -> Store -> Prop) : r = Ok a -> Q a s -> wp (lift r) s Q.
Proof. by intros ->. Qed.

Lemma wp_option {A} what (o : option A) a s (Q : A -> Store -> Prop) :
  o = Some a -> Q a s -> wp (from_option what o) s Q.
Proof. by intros ->. Qed.

Lemma wp_deref l n s (Q : _ -> Store -> Prop) : cells s !! l = Some n -> Q n s -> wp (deref l) s Q.
Proof. unfold wp, deref. by intros ->. Qed.

Lemma wp_mono {A} (c : M A) s (Q Q' : A -> Store -> Prop) :
  wp c s Q -> (forall a s', Q a s' -> Q' a s') -> wp c s Q'.
Proof. unfold wp. destruct (c s) as [[a|e] s']; auto. Qed.

(** ** Hooking *)

(** The node with more children loaded. *)
Definition hooked n n' : Prop :=
  mHash n' = mHash n /\ mItem n' = mItem n /\ mSeq n' = mSeq n /\ mType n' = mType n /\
  match mInner n, mInner n' with
  | Some inner, Some inner' =>
      mHashes inner' = mHashes inner /\ mIsBranch inner' = mIsBranch inner /\
      length (mChildren inner') = length (mChildren inner) /\
      forall j c, mChildren inner !!! j = Some c -> mChildren inner' !!! j = Some c
  | None, None => True
  | _, _ => False
  end.

Lemma hooked_refl n : hooked n n.
Proof. unfold hooked. split_and!; try done. by destruct (mInner n). Qed.

Lemma hooked_trans n1 n2 n3 : hooked n1 n2 -> hooked n2 n3 -> hooked n1 n3.
Proof.
  unfold hooked. intros (?&?&?&?&Ha) (?&?&?&?&Hb). split_and!; try congruence.
  destruct (mInner n1), (mInner n2), (mInner n3); try done. destruct Ha as (?&?&?&Ha), Hb as (?&?&?&Hb).
  split_and!; try congruence. auto.
Qed.

(** [v] is the view of some map: sequence numbers are positive. *)
Definition view_ok v : Prop := 0 < v_seq v /\ leafy (v_type v).

Definition ghost_ok s g : Prop := length g = length (cells s).

(** Nodes with sequence number 0 are shared by all maps: no map may write them,
    and the nodes they point to are shared too. *)
Definition shared_node s n : Prop :=
  forall inner j c, mType n = tnINNER -> mInner n = Some inner -> mChildren inner !!! j = Some c ->
    exists nc, cells s !! c = Some nc /\ mSeq nc = 0.

Record clean s g : Prop := {
  cl_owner : forall l p o n, g !! l = Some (p, o) -> cells s !! l = Some n -> mSeq n = 0 -> o = None;
  cl_below : forall l n, cells s !! l = Some n -> mSeq n = 0 -> shared_node s n }.

Lemma shared_node_mono s s' n :
  (forall l n, cells s !! l = Some n -> exists n', cells s' !! l = Some n' /\ mSeq n' = mSeq n) ->
  shared_node s n -> shared_node s' n.
Proof.
  intros Hs Hn inner j c Ht Hi Hc. destruct (Hn inner j c Ht Hi Hc) as (nc & Hnc & E).
  destruct (Hs c nc Hnc) as (nc' & ? & ?). exists nc'. split; [done|congruence].
Qed.

(** What a read does to the store. *)
Record grows s g s' g' : Prop := {
  gr_ghost : ghost_ok s' g';
  gr_prefix : g `prefix_of` g';
  gr_db : db s' = db s;
  gr_cells : forall l n, cells s !! l = Some n -> exists n', cells s' !! l = Some n' /\ hooked n n';
  gr_clean : clean s g -> clean s' g';
  gr_rep : forall v l p m, view_ok v -> lrep s g v l p m -> lrep s' g' v l p m;
  gr_branches : forall v l n p m inner (P : Z -> Prop),
    view_ok v -> cells s !! l = Some n -> usable s g v l p -> skeleton n p inner ->
    (forall i, 0 <= i < 16 -> P i -> branch_ok s g v inner p m i) ->
    exists n' inner', cells s' !! l = Some n' /\ usable s' g' v l p /\ skeleton n' p inner' /\
      mHashes inner' = mHashes inner /\ mHash n' = mHash n /\ mSeq n' = mSeq n /\
      forall i, 0 <= i < 16 -> P i -> branch_ok s' g' v inner' p m i }.

Lemma grows_refl s g : ghost_ok s g -> grows s g s g.
Proof. intros. split; eauto using hooked_refl. intros v l n p m inner P Hv Hn Hu Hsk Hb. exists n, inner. by split_and!. Qed.

Lemma grows_trans s1 g1 s2 g2 s3 g3 : grows s1 g1 s2 g2 -> grows s2 g2 s3 g3 -> grows s1 g1 s3 g3.
Proof.
  intros [? ? ? Ha ? Ra Ba] [? ? ? Hb ? Rb Bb]. split; [done|by trans g2|congruence| |by eauto|by eauto|].
  - intros l n Hn. destruct (Ha l n Hn) as (n2 & Hn2 & ?). destruct (Hb l n2 Hn2) as (n3 & Hn3 & ?).
    exists n3. eauto using hooked_trans.
  - intros v l n p m inner P Hv Hn Hu Hsk Hbr.
    destruct (Ba v l n p m inner P Hv Hn Hu Hsk Hbr) as (n2 & inner2 & Hn2 & Hu2 & Hsk2 & E1 & E2 & E3 & Hbr2).
    destruct (Bb v l n2 p m inner2 P Hv Hn2 Hu2 Hsk2 Hbr2) as (n3 & inner3 & Hn3 & Hu3 & Hsk3 & E4 & E5 & E6 & Hbr3).
    exists n3, inner3. split_and!; try done; congruence.
Qed.

(** Setting the pointer of an unloaded child to a cell that holds what the
    database has. *)
Lemma branch_hook s g v (inner : InnerData) i c nc p m j :
  branch_ok s g v inner p m j -> 0 <= i < 16 -> 0 <= j < 16 -> length (mChildren inner) = 16%nat ->
  mChildren inner !!! Z.to_nat i = None -> isZero (mHashes inner !!! Z.to_nat i) = false ->
  db_node s (mHashes inner !!! Z.to_nat i) = Some nc -> cells s !! c = Some nc -> usable s g v c (p ++ [i]) ->
  branch_ok s g v (set_pointer inner i c) p m j.
Proof.
  intros [H1 H2 H3 H4] Hi Hj Hlen Hnone Hnz Hdb Hc Huse. destruct (decide (j = i)) as [->|Hne].
  - assert (Hsub : sub (length p) i m <> ∅) by (intros E; apply H2 in E; congruence).
    split; try done; cbn [set_pointer mChildren mHashes].
    + intros c'. rewrite list_lookup_total_insert_eq by lia. by intros [= <-].
    + intros _. destruct (H4 Hsub) as (nc' & Hres & Hrep). exists nc. unfold resolve in *. cbn [set_pointer mChildren].
      rewrite list_lookup_total_insert_eq by lia. split; [done|]. rewrite Hnone in Hres.
      destruct (v_backed v); [|done]. congruence.
  - assert (Hnj : Z.to_nat i <> Z.to_nat j) by lia.
    split; try done; cbn [set_pointer mChildren mHashes].
    + intros c'. rewrite list_lookup_total_insert_ne by done. apply H3.
    + intros Hne'. destruct (H4 Hne') as (nc' & Hres & Hrep). exists nc'. split; [|done]. unfold resolve in *.
      cbn [set_pointer mChildren mHashes]. by rewrite list_lookup_total_insert_ne.
Qed.

Lemma skeleton_hook n p (inner : InnerData) i c :
  skeleton n p inner -> skeleton (with_inner n (set_pointer inner i c)) p (set_pointer inner i c).
Proof. intros []. split; try done. cbn. by rewrite length_insert. Qed.

Section HookStep.
Context s g l n (inner : InnerData) i (nc : SHAMapTreeNode) p (o : option nat).
Context (Hg : ghost_ok s g) (Hl : cells s !! l = Some n) (Hinner : mInner n = Some inner) (Ht : mType n = tnINNER).
Context (Hi : 0 <= i < 16) (Hnone : mChildren inner !!! Z.to_nat i = None).
Context (Hnz : isZero (mHashes inner !!! Z.to_nat i) = false).
Context (Hdb : db_node s (mHashes inner !!! Z.to_nat i) = Some nc) (Hseq : mSeq nc = 0) (Hgl : g !! l = Some (p, o)).
Context (Hlink : forall x j, mInner nc = Some x -> mChildren x !!! j = None).

Let n' := with_inner n (set_pointer inner i (length (cells s))).
Let s' := {| cells := <[l := n']> (cells s ++ [nc]); db := db s |}.
Let g' := g ++ [(p ++ [i], None)].

Lemma hook_lt : (l < length (cells s))%nat.
Proof. by apply lookup_lt_Some in Hl. Qed.

Lemma hook_cell_self : cells s' !! l = Some n'.
Proof. cbn. apply list_lookup_insert_eq. rewrite length_app. pose proof hook_lt. lia. Qed.

Lemma hook_cell_new : cells s' !! length (cells s) = Some nc.
Proof.
  cbn. rewrite list_lookup_insert_ne by (pose proof hook_lt; lia). by rewrite lookup_app_r, Nat.sub_diag by done.
Qed.

Lemma hook_cell_old c x : c <> l -> cells s !! c = Some x -> cells s' !! c = Some x.
Proof. intros Hne Hc. cbn. rewrite list_lookup_insert_ne by done. by apply lookup_app_l_Some. Qed.

Lemma hook_usable v c q : usable s g v c q -> usable s' g' v c q.
Proof.
  intros (o' & x & H1 & H2 & H3). destruct (decide (c = l)) as [->|Hne].
  - exists o', n'. assert (x = n) as -> by congruence.
    split_and!; [by apply lookup_app_l_Some|apply hook_cell_self|apply H3|apply H3|apply H3].
  - exists o', x. split_and!; [by apply lookup_app_l_Some|by apply hook_cell_old|apply H3|apply H3|apply H3].
Qed.

Lemma hook_usable_new v : view_ok v -> usable s' g' v (length (cells s)) (p ++ [i]).
Proof.
  intros [Hv _]. exists None, nc. split_and!; [|apply hook_cell_new|lia|lia|].
  - unfold g'. rewrite <- Hg. by rewrite lookup_app_r, Nat.sub_diag by done.
  - destruct (v_frozen v); [done|]. right. split; [done|lia].
Qed.

(** A node that does not load the hooked child stays right when it does. *)
Lemma hook_branch_self v q m j :
  view_ok v -> q = p -> 0 <= j < 16 -> length (mChildren inner) = 16%nat ->
  branch_ok s' g' v inner q m j -> branch_ok s' g' v (set_pointer inner i (length (cells s))) q m j.
Proof.
  intros Hv -> Hj Hlen Hb. eapply branch_hook; try done; [apply hook_cell_new|by apply hook_usable_new].
Qed.

Lemma hook_rep_self v q m : view_ok v -> q = p -> rep s' g' v n q m -> rep s' g' v n' q m.
Proof.
  intros Hv Hq Hrep. apply rep_inv in Hrep as [(item & E & _)|[(inner' & Hsk & Hu & Hh & Hb) Hs]].
  { exfalso. rewrite Ht in E. destruct Hv as [_ [E'|[E'|E']]]; congruence. }
  assert (inner' = inner) as -> by (pose proof (sk_inner _ _ _ Hsk); congruence).
  apply rep_intro_inner; [|done]. eexists. split_and!; [by apply skeleton_hook|done|done|].
  intros j Hj. apply hook_branch_self; [done|done|done|apply Hsk|by apply Hb].
Qed.

Lemma hook_resolve v xi q m j y :
  view_ok v -> (forall c, mChildren xi !!! Z.to_nat j = Some c -> usable s g v c (q ++ [j])) ->
  resolve s v xi j = Some y -> rep s' g' v y (q ++ [j]) m ->
  exists y', resolve s' v xi j = Some y' /\ rep s' g' v y' (q ++ [j]) m.
Proof.
  intros Hv Hc Hy Hy'. unfold resolve in *. destruct (mChildren xi !!! Z.to_nat j) as [c|] eqn:E; [|by exists y].
  destruct (decide (c = l)) as [->|Hcl]; [|exists y; split; [by apply hook_cell_old|done]].
  exists n'. split; [apply hook_cell_self|]. assert (y = n) as -> by congruence.
  apply hook_rep_self; [done| |done]. destruct (Hc l eq_refl) as (o' & ? & Hgo & _). congruence.
Qed.

Lemma hook_rep v x q m : view_ok v -> rep s g v x q m -> rep s' g' v x q m.
Proof.
  intros Hv Hrep. induction Hrep as [x q item|x q m xi Hxt Hxi Hxn Hl' Hu Hs Hh Hhs Hb Hc Hz Hp Hr Hrep IH].
  { by apply rep_leaf. }
  assert (Hres : forall j y, 0 <= j < 16 -> sub (length q) j m <> ∅ -> resolve s v xi j = Some y ->
    exists y', resolve s' v xi j = Some y' /\ rep s' g' v y' (q ++ [j]) (sub (length q) j m)).
  { intros j y Hj Hne Hy. eapply hook_resolve; [done| |done|by apply IH]. intros c Hc'. by apply Hp. }
  apply rep_inner with xi; try done.
  - intros j c Hj Hc'. destruct (Hp j c Hj Hc'). split; [by apply hook_usable|done].
  - intros j Hj Hne. destruct (Hr j Hj Hne) as [y Hy]. destruct (Hres j y Hj Hne Hy) as (y' & -> & _). eauto.
  - intros j y' Hj Hne Hy'. destruct (Hr j Hj Hne) as [y Hy].
    destruct (Hres j y Hj Hne Hy) as (y'' & E & Hrep'). congruence.
Qed.

Lemma hook_branch v xi q m j : view_ok v -> branch_ok s g v xi q m j -> branch_ok s' g' v xi q m j.
Proof.
  intros Hv [H1 H2 H3 H4]. split; [done|done| |].
  - intros c Hc. destruct (H3 c Hc). split; [by apply hook_usable|done].
  - intros Hne. destruct (H4 Hne) as (nc' & Hres & Hrep).
    eapply hook_resolve; [done| |done|by apply hook_rep]. intros c Hc. by apply H3.
Qed.

Lemma hook_hooked c x : cells s !! c = Some x -> exists x', cells s' !! c = Some x' /\ hooked x x'.
Proof.
  intros Hx. destruct (decide (c = l)) as [->|Hne]; [|exists x; split; [by apply hook_cell_old|apply hooked_refl]].
  assert (x = n) as -> by congruence. exists n'. split; [apply hook_cell_self|].
  unfold hooked, n'. cbn [with_inner mHash mItem mSeq mType mInner]. rewrite Hinner. split_and!; try done.
  - cbn. by rewrite length_insert.
  - intros j c Hc. cbn [set_pointer mChildren]. destruct (decide (j = Z.to_nat i)) as [->|]; [congruence|].
    by rewrite list_lookup_total_insert_ne.
Qed.

Lemma hook_lrep v c q m : view_ok v -> lrep s g v c q m -> lrep s' g' v c q m.
Proof.
  intros Hv [Hu (x & Hx & Hrep)]. split; [by apply hook_usable|]. destruct (decide (c = l)) as [->|Hne].
  - exists n'. split; [apply hook_cell_self|]. assert (x = n) as -> by congruence.
    apply hook_rep_self; [done| |by apply hook_rep]. destruct Hu as (? & ? & Hgo & _). congruence.
  - exists x. split; [by apply hook_cell_old|by apply hook_rep].
Qed.

Lemma hook_seqs c x : cells s !! c = Some x -> exists x', cells s' !! c = Some x' /\ mSeq x' = mSeq x.
Proof. intros Hx. destruct (hook_hooked c x Hx) as (x' & ? & (_ & _ & ? & _)). eauto. Qed.

(** The cells after hooking: the hooked one, the new one, the others. *)
Lemma hook_cell_cases c x : cells s' !! c = Some x ->
  (c = l /\ x = n') \/ (c = length (cells s) /\ x = nc) \/ (c <> l /\ cells s !! c = Some x).
Proof.
  intros Hx. destruct (decide (c = l)) as [->|Hne]; [left; pose proof hook_cell_self; split; congruence|right].
  cbn in Hx. rewrite list_lookup_insert_ne in Hx by done. apply lookup_app_Some in Hx as [|[Hge Hx]]; [auto|left].
  destruct (c - length (cells s))%nat as [|[|]] eqn:E; [|done..]. injection Hx as <-. split; [lia|done].
Qed.

Lemma hook_clean : clean s g -> clean s' g'.
Proof.
  intros [Ho Hb]. split.
  - intros c q o' x Hc Hx H0. destruct (hook_cell_cases c x Hx) as [[-> ->]|[[-> ->]|[Hne Hx']]].
    + unfold g' in Hc. rewrite lookup_app_l in Hc by (eapply lookup_lt_Some, Hgl). by eapply (Ho l q o' n).
    + unfold g' in Hc. rewrite lookup_app_r, Hg, Nat.sub_diag in Hc by (by rewrite Hg). by injection Hc as _ <-.
    + unfold g' in Hc. rewrite lookup_app_l in Hc by (rewrite Hg; eapply lookup_lt_Some, Hx'). by eapply (Ho c q o' x).
  - intros c x Hx H0. destruct (hook_cell_cases c x Hx) as [[-> ->]|[[-> ->]|[Hne Hx']]].
    + intros xi j d Ht' [= <-] Hd. cbn [set_pointer mChildren] in Hd. destruct (decide (j = Z.to_nat i)) as [->|Hj].
      * destruct (decide (Z.to_nat i < length (mChildren inner))%nat).
        -- rewrite list_lookup_total_insert_eq in Hd by done. injection Hd as <-. exists nc. split; [apply hook_cell_new|done].
        -- rewrite list_insert_ge in Hd by lia. congruence.
      * rewrite list_lookup_total_insert_ne in Hd by done.
        destruct (Hb l n Hl H0 inner j d Ht Hinner Hd) as (nd & Hnd & Ed).
        destruct (hook_seqs d nd Hnd) as (nd' & ? & ?). exists nd'. split; [done|congruence].
    + intros xi j d _ Hxi Hd. by rewrite (Hlink xi j Hxi) in Hd.
    + eapply shared_node_mono; [apply hook_seqs|by eapply Hb].
Qed.

Lemma hook_grows : grows s g s' g'.
Proof.
  split.
  - unfold ghost_ok, g', s'. cbn. rewrite length_insert, !length_app, Hg. done.
  - by apply prefix_app_r.
  - done.
  - apply hook_hooked.
  - apply hook_clean.
  - intros v c q m Hv. by apply hook_lrep.
  - intros v c x q m xi P Hv Hx Hu Hsk Hb. destruct (decide (c = l)) as [->|Hne].
    + assert (x = n) as -> by congruence. assert (xi = inner) as -> by (pose proof (sk_inner _ _ _ Hsk); congruence).
      eexists _, _. split_and!; [apply hook_cell_self|by apply hook_usable|by apply skeleton_hook|done|done|done|].
      intros j Hj HP. apply hook_branch_self; [done| |done|apply Hsk|by apply hook_branch, Hb].
      destruct Hu as (? & ? & Hgo & _). congruence.
    + exists x, xi. split_and!; [by apply hook_cell_old|by apply hook_usable|done|done|done|done|].
      intros j Hj HP. by apply hook_branch, Hb.
Qed.
End HookStep.

(** ** Descending *)

Lemma raw_node_seq raw seq format hash n : raw_node raw seq format hash true = Ok n -> mSeq n = seq.
Proof.
  unfold raw_node. intros (x & Hx & [= <-])%bind_Ok. cbn [with_hash mSeq].
  destruct format; [| |done]; revert Hx; unfold read_prefix, read_wire;
    repeat case_match; try done; rewrite ?bind_Ok; intros Hx';
    repeat match goal with H : exists _, _ |- _ => destruct H as (? & ? & ?) end;
    match goal with H : mret _ = Ok _ |- _ => by injection H as <- end.
Qed.

Lemma db_node_seq s hash n : db_node s hash = Some n -> mSeq n = 0.
Proof.
  unfold db_node. destruct (db s !! hash) as [data|]; [|done].
  destruct (raw_node data 0 snfPREFIX hash true) eqn:E; [|done]. intros [= <-]. by eapply raw_node_seq.
Qed.

Lemma read_full_children (raw : Blob) : mChildren (read_full raw) = replicate 16 None.
Proof.
  unfold read_full. change (replicate 16 None) with (mChildren new_inner).
  generalize new_inner. induction branches as [|i l IH]; intros inner; [done|]. cbn [fold_left]. by rewrite IH.
Qed.

Lemma db_node_links s hash n (x : InnerData) j : db_node s hash = Some n -> mInner n = Some x -> mChildren x !!! j = None.
Proof.
  unfold db_node. destruct (db s !! hash) as [data|]; [|done].
  destruct (raw_node data 0 snfPREFIX hash true) as [n'|] eqn:E; [|done]. intros [= <-] Hx.
  assert (mChildren x = replicate 16 None) as ->.
  { revert E. unfold raw_node. intros (y & Hy & [= <-])%bind_Ok. cbn [with_hash mInner] in Hx. revert Hy Hx. unfold read_prefix.
    repeat case_match; try done; rewrite ?bind_Ok; intros Hy Hx;
      repeat match goal with H : exists _, _ |- _ => destruct H as (? & ? & ?) end;
      match goal with H : mret _ = Ok _ |- _ => injection H as <- end; try done.
    injection Hx as <-. apply read_full_children. }
  destruct (decide (j < 16)%nat).
  - apply list_lookup_total_correct. by apply lookup_replicate_2.
  - rewrite list_lookup_total_alt, lookup_ge_None_2; [done|]. rewrite length_replicate. lia.
Qed.

(** The cell of an inner node, opened. *)
Lemma lrep_inner s g v l p m n :
  view_ok v -> lrep s g v l p m -> cells s !! l = Some n -> mType n = tnINNER ->
  (p = [] \/ (2 <= size m)%nat) /\ usable s g v l p /\
  exists inner, skeleton n p inner /\ under p m /\ mHash n = inner_hash (v_type v) (length p) m /\
    forall i, 0 <= i < 16 -> branch_ok s g v inner p m i.
Proof.
  intros Hv [Hu (x & Hx & Hrep)] Hn Ht. assert (x = n) as -> by congruence.
  apply rep_inv in Hrep as [(item & E & _)|[Hi Hs]]; [|done].
  exfalso. rewrite Ht in E. destruct Hv as [_ [E'|[E'|E']]]; congruence.
Qed.

(** An inner node behind a pointer, whatever the size of what it stands for. *)
Definition irep s g v l p m : Prop := usable s g v l p /\ exists n, cells s !! l = Some n /\ inner_rep s g v n p m.

Lemma lrep_irep s g v l p m n :
  view_ok v -> lrep s g v l p m -> cells s !! l = Some n -> mType n = tnINNER -> irep s g v l p m.
Proof.
  intros Hv Hrep Hn Ht. destruct (lrep_inner s g v l p m n Hv Hrep Hn Ht) as (_ & Hu & inner & H).
  split; [done|]. exists n. split; [done|by exists inner].
Qed.

Lemma grows_irep s g s' g' v l p m : grows s g s' g' -> view_ok v -> irep s g v l p m -> irep s' g' v l p m.
Proof.
  intros Hgr Hv [Hu (n & Hn & inner & Hsk & Hun & Hh & Hb)].
  destruct (gr_branches _ _ _ _ Hgr v l n p m inner (fun _ => True) Hv Hn Hu Hsk) as
    (n' & inner' & Hn' & Hu' & Hsk' & _ & Eh & _ & Hb'); [intros; by apply Hb|].
  split; [done|]. exists n'. split; [done|]. exists inner'. split_and!; [done|done|congruence|]. intros. by apply Hb'.
Qed.

(** After descending, the pointer is loaded and leads to the child. *)
Definition descended s g v l p m i c s' : Prop :=
  exists g', grows s g s' g' /\ lrep s' g' v c (p ++ [i]) (sub (length p) i m) /\
    exists n' inner', cells s' !! l = Some n' /\ mInner n' = Some inner' /\ mChildren inner' !!! Z.to_nat i = Some c.

Lemma loaded_child s g v l p m n inner i c :
  ghost_ok s g -> cells s !! l = Some n -> mInner n = Some inner -> branch_ok s g v inner p m i ->
  mChildren inner !!! Z.to_nat i = Some c -> descended s g v l p m i c s.
Proof.
  intros Hg Hn Hinner [_ _ Hc Hr] E. exists g. split; [by apply grows_refl|]. split; [|by eauto].
  destruct (Hc c E) as [Hu Hne]. split; [done|]. destruct (Hr Hne) as (nc & Hres & Hrep).
  unfold resolve in Hres. rewrite E in Hres. eauto.
Qed.

(** Loading an unloaded child. *)
Lemma hook_ok s g v l p m n inner i nc :
  ghost_ok s g -> view_ok v -> irep s g v l p m -> cells s !! l = Some n -> skeleton n p inner ->
  branch_ok s g v inner p m i -> 0 <= i < 16 -> sub (length p) i m <> ∅ ->
  mChildren inner !!! Z.to_nat i = None -> db_node s (mHashes inner !!! Z.to_nat i) = Some nc ->
  wp (hook l i (length (cells s))) {| cells := cells s ++ [nc]; db := db s |}
    (descended s g v l p m i).
Proof.
  intros Hg Hv Hrep Hn Hsk Hb Hi Hne Hnone Hdb. destruct Hsk as [Ht _ Hin _ _ _ _ Hlen].
  destruct Hrep as [(o & x & Hgl & Hx & Hrest) Hrep]. assert (x = n) as -> by congruence.
  assert (Hnz : isZero (mHashes inner !!! Z.to_nat i) = false).
  { destruct (isZero _) eqn:E; [|done]. by apply (bo_zero _ _ _ _ _ _ _ Hb) in E. }
  pose proof (hook_grows s g l n inner i nc p o Hg Hn Hin Ht Hi Hnone Hnz Hdb (db_node_seq _ _ _ Hdb) Hgl
    (fun x j => db_node_links _ _ _ x j Hdb)) as Hgr.
  unfold hook. apply wp_bind, (wp_deref _ n); [cbn; by apply lookup_app_l_Some|].
  apply wp_bind. eapply wp_lift; [unfold canonicalizeChild, inner_of; rewrite Hin; cbn; by rewrite Hnone|].
  cbn match. unfold wp, mbind, M_bind, assign, mret, M_ret. cbn.
  eexists. split; [exact Hgr|].
  assert (Hl' : irep _ _ v l p m) by (apply (grows_irep _ _ _ _ v l p m Hgr Hv); split; [by exists o, n|done]).
  pose proof (hook_cell_self s l n inner i nc Hn) as Hself.
  assert (Hptr : mChildren (set_pointer inner i (length (cells s))) !!! Z.to_nat i = Some (length (cells s)))
    by (cbn; apply list_lookup_total_insert_eq; lia).
  split; [|by eexists _, _].
  destruct Hl' as (_ & n1 & Hn1 & inner' & Hsk' & _ & _ & Hb'). rewrite Hself in Hn1. injection Hn1 as <-.
  pose proof (sk_inner _ _ _ Hsk') as [= <-]. destruct (Hb' i Hi) as [_ _ Hc Hr].
  destruct (Hc _ Hptr) as [Hu' _]. split; [exact Hu'|]. destruct (Hr Hne) as (nc' & Hres & Hrep').
  unfold resolve in Hres. rewrite Hptr in Hres. eauto.
Qed.

Section Descend.
Context (t : SHAMap) s g v l p m n i.
Context (Hg : ghost_ok s g) (Hv : view_ok v) (Hbk : mBacked t = v_backed v).
Context (Hrep : irep s g v l p m) (Hn : cells s !! l = Some n).
Context (Hi : 0 <= i < 16) (Hne : sub (length p) i m <> ∅).

(** The child is loaded, or the database has it. *)
Lemma child_cases : exists inner, skeleton n p inner /\ branch_ok s g v inner p m i /\
  ((exists c, mChildren inner !!! Z.to_nat i = Some c) \/
   (mChildren inner !!! Z.to_nat i = None /\ mBacked t = true /\
    exists nc, db_node s (mHashes inner !!! Z.to_nat i) = Some nc)).
Proof.
  destruct Hrep as (_ & n0 & Hn0 & inner & Hsk & _ & _ & Hb). assert (n0 = n) as -> by congruence.
  exists inner. split_and!; [done|by apply Hb|]. destruct (mChildren inner !!! Z.to_nat i) as [c|] eqn:E; [eauto|].
  right. destruct (bo_rep _ _ _ _ _ _ _ (Hb i Hi) Hne) as (nc & Hres & _). unfold resolve in Hres. rewrite E in Hres.
  rewrite Hbk. destruct (v_backed v); [|done]. eauto.
Qed.

Lemma fetch_ok inner nc :
  mBacked t = true -> db_node s (mHashes inner !!! Z.to_nat i) = Some nc ->
  fetchNodeNT t (mHashes inner !!! Z.to_nat i) s =
    (Ok (Some (length (cells s))), {| cells := cells s ++ [nc]; db := db s |}).
Proof. intros Hb Hdb. unfold fetchNodeNT, fetchNodeFromDB. by rewrite Hb, Hdb. Qed.

Lemma descend_inner_ok : wp (descendThrow t l i) s (descended s g v l p m i).
Proof.
  destruct child_cases as (inner & Hsk & Hb & Hcase). pose proof (sk_inner _ _ _ Hsk) as Hin.
  unfold descendThrow, descend. apply wp_bind, wp_bind, (wp_deref _ n); [done|]. apply wp_bind.
  eapply wp_lift; [unfold getChild, inner_of; by rewrite Hin|].
  destruct Hcase as [[c Hc]|(Hc & Hback & nc & Hdb)]; rewrite Hc; cbn match.
  - apply wp_ret. cbn. by eapply loaded_child.
  - rewrite Hback. cbn [negb]. apply wp_bind. eapply wp_lift; [unfold getChildHash, inner_of; by rewrite Hin|].
    apply wp_bind. unfold wp at 1. rewrite (fetch_ok inner nc) by done. cbn match. apply wp_bind.
    eapply wp_mono; [by apply (hook_ok s g v l p m n inner i nc)|]. done.
Qed.

Lemma descend_ref_inner_ok : wp (descendThrow_ref t l i) s (descended s g v l p m i).
Proof.
  destruct child_cases as (inner & Hsk & Hb & Hcase). pose proof (sk_inner _ _ _ Hsk) as Hin.
  unfold descendThrow_ref, descend_ref. apply wp_bind, wp_bind, (wp_deref _ n); [done|]. apply wp_bind.
  eapply wp_lift; [unfold getChild, inner_of; by rewrite Hin|].
  destruct Hcase as [[c Hc]|(Hc & Hback & nc & Hdb)]; rewrite Hc; cbn match.
  - apply wp_ret. cbn. by eapply loaded_child.
  - rewrite Hback. cbn [negb]. apply wp_bind. eapply wp_lift; [unfold getChildHash, inner_of; by rewrite Hin|].
    apply wp_bind. unfold fetchNode. apply wp_bind. unfold wp at 1. rewrite (fetch_ok inner nc) by done.
    cbn match. apply wp_ret, wp_bind.
    eapply wp_mono; [by apply (hook_ok s g v l p m n inner i nc)|]. done.
Qed.
End Descend.

Lemma descendThrow_ok (t : SHAMap) s g v l p m n i :
  ghost_ok s g -> view_ok v -> mBacked t = v_backed v -> lrep s g v l p m -> cells s !! l = Some n -> mType n = tnINNER ->
  0 <= i < 16 -> sub (length p) i m <> ∅ -> wp (descendThrow t l i) s (descended s g v l p m i).
Proof. intros. apply (descend_inner_ok t s g v l p m n); try done. by apply (lrep_irep s g v l p m n). Qed.

Lemma descendThrow_ref_ok (t : SHAMap) s g v l p m n i :
  ghost_ok s g -> view_ok v -> mBacked t = v_backed v -> lrep s g v l p m -> cells s !! l = Some n -> mType n = tnINNER ->
  0 <= i < 16 -> sub (length p) i m <> ∅ -> wp (descendThrow_ref t l i) s (descended s g v l p m i).
Proof. intros. apply (descend_ref_inner_ok t s g v l p m n); try done. by apply (lrep_irep s g v l p m n). Qed.
End Rep.
End SHAMapRep.
