(* ===== verification/SHAMapReads.v ===== *)
(** * SHAMap: what the reads answer

    For a map whose root represents the finite map [m], loading nodes from the
    database as needed: [peekItem] and [hasItem] look a key up, [peekFirstItem]
    and [peekLastItem] find the ends, [peekNextItem] and [peekPrevItem] the
    neighbours of a key that need not be present, all in the order of the keys.
    Every read returns (no exception, no undefined step, enough fuel), and leaves
    every map of the store representing what it did. *)
From Stdlib Require Import ZArith Lia Sorted.
From S2P Require Import Prelude BaseUint Serializer SHAMapNode SHAMapSpec SHAMap SHAMapRep.
From stdpp Require Import base numbers list gmap strings.
Import BaseUint Serializer SHAMapNode SHAMapSpec SHAMap SHAMapRep.
Local Open Scope Z_scope.

Module SHAMapReads.

Section Reads.
Context `{SHA : SHA512}.
Implicit Types (s : Store) (g : ghost) (v : view) (n : SHAMapTreeNode) (l c : loc) (p : path) (m : kmap) (i : Z).

(** The object [t] has [v]'s backing. *)
Context (t : SHAMap) (v : view) (Hv : view_ok v) (Hbk : mBacked t = v_backed v).

(** The first [d] nibbles of a key. *)
Abbreviation pre k d := (take d (nibbles k)).

Lemma pre_S k d : (d < 64)%nat -> pre k (S d) = pre k d ++ [nib k d].
Proof. apply take_nibbles_S. Qed.

Lemma leafy_leaf n p m : leaf_rep v n p m -> isLeaf n = true /\ isInner n = false /\ hasItem n = true.
Proof.
  intros (item & Ht & Hi & _). unfold isLeaf, isInner, hasItem. rewrite Ht, Hi.
  destruct Hv as [_ [-> |[-> | ->]]]; done.
Qed.

Lemma inner_not_leaf s g n p m : inner_rep s g v n p m -> isLeaf n = false /\ isInner n = true /\ hasItem n = false.
Proof. intros (inner & [Ht Hi _ _ _ _ _ _] & _). unfold isLeaf, isInner, hasItem. by rewrite Ht, Hi. Qed.

Lemma empty_branch s g n p m i :
  inner_rep s g v n p m -> 0 <= i < 16 -> isEmptyBranch n i = Ok (bool_decide (sub (length p) i m = ∅)).
Proof.
  intros (inner & Hsk & _ & _ & Hb) Hi. unfold isEmptyBranch, inner_of. rewrite (sk_inner _ _ _ Hsk). cbn. f_equal.
  rewrite is_branch_testbit, (sk_bits _ _ _ Hsk), (proj2 (Z.ltb_lt _ _)) by lia. cbn [andb].
  rewrite negb_involutive. destruct (isZero _) eqn:E.
  - symmetry. apply bool_decide_eq_true. by apply (Hb i Hi).
  - symmetry. apply bool_decide_eq_false. intros Hz. apply (Hb i Hi) in Hz. congruence.
Qed.

(** The two shapes of the node behind a pointer. *)
Lemma lrep_cases s g l p m :
  lrep s g v l p m -> exists n, cells s !! l = Some n /\
    (leaf_rep v n p m \/ (mType n = tnINNER /\ inner_rep s g v n p m)).
Proof.
  intros [_ (n & Hn & Hrep)]. exists n. split; [done|]. apply rep_inv in Hrep as [|[Hi _]]; [auto|right].
  split; [|done]. by destruct Hi as (inner & [] & _).
Qed.

Lemma position_step id k d :
  is_uint256 k -> (d < 64)%nat -> mDepth id = Z.of_nat d -> length (mNodeID id) = 32%nat ->
  exists id', getChildNodeID id (nib k d) = Some id' /\ mDepth id' = Z.of_nat (S d) /\ length (mNodeID id') = 32%nat.
Proof.
  intros Hk Hd Hid Hl. unfold getChildNodeID, depth_byte. rewrite Hid, (proj2 (Z.ltb_ge _ _)), half_nat by lia.
  destruct (lookup_lt_is_Some_2 (mNodeID id) (d / 2)) as [b ->]; [rewrite Hl; by apply half_lt|].
  cbn [mbind option_bind]. eexists. split; [done|]. cbn. rewrite length_insert. split; [lia|done].
Qed.

Definition id_at (id : SHAMapNodeID) (d : nat) : Prop := mDepth id = Z.of_nat d /\ length (mNodeID id) = 32%nat.

Lemma root_id_at : id_at root_id 0.
Proof. by split. Qed.

(** ** The stack *)

(** The entries of a stack along the key [k], the deepest first: entry [j] is the
    node at depth [j]. *)
Fixpoint stack_ok s g m (k : uint256) (st : NodeStack) (d : nat) : Prop :=
  match st with
  | [] => d = 0%nat
  | (l, id) :: st =>
      match d with
      | O => False
      | S j => id_at id j /\ lrep s g v l (pre k j) (below (pre k j) m) /\ stack_ok s g m k st j
      end
  end.

Lemma stack_grows s g s' g' m k st d : grows s g s' g' -> stack_ok s g m k st d -> stack_ok s' g' m k st d.
Proof.
  intros Hgr. revert d. induction st as [|[l id] st IH]; intros [|d]; cbn [stack_ok]; try done.
  intros (? & ? & ?). split_and!; [done|by apply (gr_rep _ _ _ _ Hgr)|by apply IH].
Qed.

(** The entries the walk went through: inner nodes with something below on [k]'s
    path, the last of them the root. *)
Fixpoint path_stack s g m (k : uint256) (st : NodeStack) (d : nat) : Prop :=
  match st with
  | [] => d = 0%nat
  | (l, id) :: st =>
      match d with
      | O => False
      | S j => id_at id j /\ lrep s g v l (pre k j) (below (pre k j) m) /\
          (exists n, cells s !! l = Some n /\ mType n = tnINNER) /\ below (pre k (S j)) m <> ∅ /\
          (j = 0%nat -> l = root t) /\ path_stack s g m k st j
      end
  end.

Lemma path_stack_ok s g m k st d : path_stack s g m k st d -> stack_ok s g m k st d.
Proof.
  revert d. induction st as [|[l id] st IH]; intros [|d]; cbn [stack_ok path_stack]; try done.
  intros (? & ? & ? & ? & ? & ?). auto.
Qed.

Lemma path_stack_grows s g s' g' m k st d : grows s g s' g' -> path_stack s g m k st d -> path_stack s' g' m k st d.
Proof.
  intros Hgr. revert d. induction st as [|[l id] st IH]; intros [|d]; cbn [path_stack]; try done.
  intros (? & ? & (n & Hn & Ht) & ? & ? & ?). split_and!; [done|by apply (gr_rep _ _ _ _ Hgr)| |done|done|by apply IH].
  destruct (gr_cells _ _ _ _ Hgr l n Hn) as (n' & ? & (_ & _ & _ & E & _)). exists n'. split; [done|congruence].
Qed.

(** How a stack made with [include_nonmatching_leaf] ends. *)
Definition stack_end s g m (k : uint256) (l : loc) (d : nat) : Prop :=
  exists n, cells s !! l = Some n /\
    (leaf_rep v n (pre k d) (below (pre k d) m) \/
     (mType n = tnINNER /\ inner_rep s g v n (pre k d) (below (pre k d) m) /\ below (pre k (S d)) m = ∅)).

(** The stack [getStack] returns. *)
Definition got_stack s g m (k : uint256) (st : NodeStack) (s' : Store) : Prop :=
  exists g' d l id tl, grows s g s' g' /\ st = (l, id) :: tl /\ (d <= 64)%nat /\ id_at id d /\
    lrep s' g' v l (pre k d) (below (pre k d) m) /\ (d = 0%nat -> l = root t) /\
    path_stack s' g' m k tl d /\ stack_end s' g' m k l d.

Lemma getStack_loop_ok k m fuel s g d l id st :
  is_uint256 k -> ghost_ok s g -> lrep s g v l (pre k d) (below (pre k d) m) -> id_at id d ->
  (d = 0%nat -> l = root t) -> path_stack s g m k st d -> (d <= 64)%nat -> (65 <= d + fuel)%nat ->
  wp (getStack_loop t fuel k true l id st) s (got_stack s g m k).
Proof.
  intros Hk. revert s g d l id st. induction fuel as [|fuel IH]; intros s g d l id st Hg Hrep Hid Hroot Hst Hd Hf; [lia|].
  cbn [getStack_loop]. destruct (lrep_cases _ _ _ _ _ Hrep) as (n & Hn & Hcase).
  apply wp_bind, (wp_deref _ n); [done|]. destruct Hcase as [Hleaf|[Ht Hin]].
  - destruct (leafy_leaf _ _ _ Hleaf) as (-> & _ & _). cbn [negb]. pose proof Hleaf as (item & _ & Hitem & _).
    apply wp_bind. eapply wp_lift; [unfold item_of; by rewrite Hitem|]. apply wp_ret. cbn [orb].
    exists g, d, l, id, st. split_and!; try done; [by apply grows_refl|]. exists n. auto.
  - destruct (inner_not_leaf _ _ _ _ _ Hin) as (-> & _ & _). cbn [negb].
    assert (Hd' : (d < 64)%nat).
    { destruct Hin as (inner & [_ _ _ Hl _ _ _ _] & _). by rewrite length_pre in Hl. }
    pose proof (nib_range k d Hk Hd') as Hb.
    apply wp_bind. eapply wp_option; [by apply (selectBranch_nib _ _ d); [apply Hid|..]|].
    apply wp_bind. eapply wp_lift; [by apply (empty_branch _ _ _ _ _ _ Hin)|].
    rewrite sub_below, <- pre_S by (rewrite ?length_pre; lia). case_bool_decide as Hsub.
    + apply wp_ret. exists g, d, l, id, st.
      split_and!; try done; [by apply grows_refl|]. exists n. auto.
    + assert (Hne : sub (length (pre k d)) (nib k d) (below (pre k d) m) <> ∅).
      { rewrite sub_below, <- pre_S by (rewrite ?length_pre; lia). done. }
      apply wp_bind. eapply wp_mono; [by apply (descendThrow_ref_ok t s g v l (pre k d) (below (pre k d) m) n)|].
      intros c s' (g' & Hgr & Hc & _). rewrite sub_below, <- pre_S in Hc by (rewrite ?length_pre; lia).
      pose proof Hid as [Hid1 Hid2]. destruct (position_step id k d Hk Hd' Hid1 Hid2) as (id' & Hid' & Hid'').
      apply wp_bind. eapply wp_option; [exact Hid'|]. eapply wp_mono.
      * apply (IH s' g' (S d)); [apply Hgr|exact Hc|exact Hid''|done| |lia|lia].
        eapply path_stack_grows; [exact Hgr|]. cbn [path_stack]. split_and!; eauto.
      * intros st' s'' (g'' & d' & l' & id'' & tl & ? & ?). exists g'', d', l', id'', tl. split; [|done].
        by eapply grows_trans.
Qed.

Lemma getStack_ok k m s g :
  is_uint256 k -> ghost_ok s g -> lrep s g v (root t) [] m -> wp (getStack t k true) s (got_stack s g m k).
Proof.
  intros Hk Hg Hrep. apply (getStack_loop_ok k m _ s g 0); [done|done| |apply root_id_at|done|done|lia|].
  - cbn [take]. by rewrite below_nil.
  - unfold depth_fuel. lia.
Qed.

(** ** Lookup *)

(** A key is among those that share its own nibbles. *)
Lemma below_own m k d : (d <= 64)%nat -> below (pre k d) m !! k = m !! k.
Proof.
  intros Hd. apply option_eq. intros x. rewrite below_lookup, length_pre by done. naive_solver.
Qed.

(** The leaf of a key, if the map has it. *)
Definition leaf_for s m (k : uint256) (o : option loc) : Prop :=
  match o with
  | None => m !! k = None
  | Some l => exists n x, cells s !! l = Some n /\ mType n = v_type v /\ m !! k = Some x /\
      mItem n = Some {| mTag := k; mData := x |} /\ mHash n = sha512half (leaf_pre (v_type v) k x)
  end.

Lemma walkToPointer_loop_ok k m fuel s g d l id :
  is_uint256 k -> ghost_ok s g -> lrep s g v l (pre k d) (below (pre k d) m) -> id_at id d ->
  (d <= 64)%nat -> (65 <= d + fuel)%nat ->
  wp (walkToPointer_loop t fuel k l id) s (fun o s' => exists g', grows s g s' g' /\ leaf_for s' m k o).
Proof.
  intros Hk. revert s g d l id. induction fuel as [|fuel IH]; intros s g d l id Hg Hrep Hid Hd Hf; [lia|].
  cbn [walkToPointer_loop]. destruct (lrep_cases _ _ _ _ _ Hrep) as (n & Hn & Hcase).
  apply wp_bind, (wp_deref _ n); [done|]. destruct Hcase as [Hleaf|[Ht Hin]].
  - destruct (leafy_leaf _ _ _ Hleaf) as (_ & -> & _). destruct Hleaf as (item & Ht & Hitem & _ & _ & E & _ & Hh).
    apply wp_bind. eapply wp_lift; [unfold item_of; by rewrite Hitem|]. apply wp_ret.
    exists g. split; [by apply grows_refl|].
    case_bool_decide as Etag; unfold leaf_for; rewrite <- (below_own m k d Hd), E.
    + exists n, (mData item). rewrite <- Etag, lookup_singleton_eq. split_and!; try done. rewrite Hitem. by destruct item.
    + by apply lookup_singleton_ne.
  - destruct (inner_not_leaf _ _ _ _ _ Hin) as (_ & -> & _).
    assert (Hd' : (d < 64)%nat).
    { destruct Hin as (inner & [_ _ _ Hl _ _ _ _] & _). by rewrite length_pre in Hl. }
    apply wp_bind. eapply wp_option; [by apply (selectBranch_nib _ _ d); [apply Hid|..]|].
    apply wp_bind. eapply wp_lift; [apply (empty_branch _ _ _ _ _ _ Hin), nib_range; done|].
    pose proof (nib_range k d Hk Hd') as Hb. rewrite sub_below, <- pre_S by (rewrite ?length_pre; lia).
    case_bool_decide as Hsub.
    + apply wp_ret. exists g. split; [by apply grows_refl|]. cbn [leaf_for].
      by rewrite <- (below_own m k (S d)), Hsub, lookup_empty by lia.
    + assert (Hne : sub (length (pre k d)) (nib k d) (below (pre k d) m) <> ∅).
      { rewrite sub_below, <- pre_S by (rewrite ?length_pre; lia). done. }
      apply wp_bind. eapply wp_mono; [by apply (descendThrow_ok t s g v l (pre k d) (below (pre k d) m) n)|].
      intros c s' (g' & Hgr & Hc & _). rewrite sub_below, <- pre_S in Hc by (rewrite ?length_pre; lia).
      destruct Hid as [Hid1 Hid2]. destruct (position_step id k d Hk Hd' Hid1 Hid2) as (id' & Hid' & Hid'').
      apply wp_bind. eapply wp_option; [exact Hid'|]. eapply wp_mono; [apply (IH s' g' (S d)); try done; [apply Hgr|lia]|].
      intros o s'' (g'' & ? & ?). exists g''. split; [by eapply grows_trans|done].
Qed.

Lemma walkToPointer_ok k m s g :
  is_uint256 k -> ghost_ok s g -> lrep s g v (root t) [] m ->
  wp (walkToPointer t k) s (fun o s' => exists g', grows s g s' g' /\ leaf_for s' m k o).
Proof.
  intros Hk Hg Hrep. apply (walkToPointer_loop_ok k m _ s g 0); [done|done| |apply root_id_at|lia|unfold depth_fuel; lia].
  cbn [take]. by rewrite below_nil.
Qed.

Lemma peekItem_ok k m s g :
  is_uint256 k -> ghost_ok s g -> lrep s g v (root t) [] m ->
  wp (peekItem t k) s (fun o s' => exists g', grows s g s' g' /\
    o = (fun x => {| mTag := k; mData := x |}) <$> m !! k).
Proof.
  intros Hk Hg Hrep. unfold peekItem. apply wp_bind. eapply wp_mono; [by apply (walkToPointer_ok k m s g)|].
  intros o s' (g' & Hgr & Ho). destruct o as [l|]; cbn [peek_at leaf_for] in *.
  - destruct Ho as (n & x & Hn & _ & -> & Hi & _). apply wp_bind. eapply wp_deref; [done|]. apply wp_ret. eauto.
  - apply wp_ret. exists g'. by rewrite Ho.
Qed.

(** ** The ends *)

Definition direction (rev : bool) : list Z := if rev then reverse branches else branches.

Definition ordered (rev : bool) (order : list Z) : Prop :=
  StronglySorted (branch_lt rev) order /\ Forall (fun i => 0 <= i < 16) order.

#[global] Instance branch_lt_dec rev i j : Decision (branch_lt rev i j).
Proof. unfold branch_lt. destruct rev; apply _. Defined.

Lemma direction_ordered rev : ordered rev (direction rev).
Proof. split; [|by destruct rev; by_decide]. destruct rev; cbn; repeat (constructor; [|by_decide]); constructor. Qed.

Lemma in_direction rev i : 0 <= i < 16 -> i ∈ direction rev.
Proof. intros Hi. destruct rev; cbn [direction]; rewrite ?elem_of_reverse; by apply in_branches. Qed.

(** [find_branch] picks the first non-empty branch of the order. *)
Lemma find_branch_ok rev s g n p m order :
  inner_rep s g v n p m -> ordered rev order ->
  exists o, find_branch n order = Ok o /\
    match o with
    | None => forall j, j ∈ order -> sub (length p) j m = ∅
    | Some i => i ∈ order /\ sub (length p) i m <> ∅ /\
        forall j, j ∈ order -> sub (length p) j m <> ∅ -> j = i \/ branch_lt rev i j
    end.
Proof.
  intros Hin [Hsort Hrange]. induction Hsort as [|i order Hsort IH Hfirst]; cbn [find_branch].
  { eexists. split; [done|]. set_solver. }
  apply Forall_cons in Hrange as [Hi Hrange]. rewrite (empty_branch _ _ _ _ _ _ Hin Hi). cbn [mbind result_bind].
  case_bool_decide as Hsub.
  - destruct (IH Hrange) as (o & -> & Ho). exists o. split; [done|]. destruct o as [j|].
    + destruct Ho as (? & ? & Ho). split_and!; [set_solver|done|]. intros j' [->|?]%elem_of_cons; [done|auto].
    + intros j [->|?]%elem_of_cons; auto.
  - exists (Some i). split; [done|]. split_and!; [set_solver|done|]. intros j [->|Hj]%elem_of_cons _; [auto|].
    right. rewrite Forall_forall in Hfirst. auto.
Qed.
(** The leaf found at one end of a tree. *)
Definition end_leaf (rev : bool) s m (o : option loc) : Prop :=
  match o with
  | None => m = ∅
  | Some l => exists n item, cells s !! l = Some n /\ mType n = v_type v /\ mItem n = Some item /\
      isInner n = false /\ extreme (key_lt rev) m (Some item)
  end.

Lemma below_loop_ok rev fuel s g l p m :
  ghost_ok s g -> lrep s g v l p m -> (65 <= length p + fuel)%nat ->
  wp (below_loop t fuel (direction rev) l) s (fun o s' => exists g', grows s g s' g' /\ end_leaf rev s' m o).
Proof.
  revert s g l p m. induction fuel as [|fuel IH]; intros s g l p m Hg Hrep Hf.
  { destruct (lrep_cases _ _ _ _ _ Hrep) as (n & _ & [(item & _ & _ & _ & ? & _)|[_ (inner & [] & _)]]); lia. }
  cbn [below_loop]. destruct (lrep_cases _ _ _ _ _ Hrep) as (n & Hn & Hcase).
  apply wp_bind, (wp_deref _ n); [done|]. destruct Hcase as [Hleaf|[Ht Hin]].
  - destruct (leafy_leaf _ _ _ Hleaf) as (_ & Hni & ->). apply wp_ret. exists g. split; [by apply grows_refl|].
    destruct Hleaf as (item & ? & ? & _ & _ & -> & _). exists n, item. split_and!; try done.
    cbn [extreme]. split; [apply lookup_singleton_eq|]. intros k x [<- _]%lookup_singleton_Some. auto.
  - destruct (inner_not_leaf _ _ _ _ _ Hin) as (_ & _ & ->).
    destruct (find_branch_ok rev s g n p m (direction rev) Hin (direction_ordered rev)) as (o & Ho & Hb).
    apply wp_bind. eapply wp_lift; [exact Ho|].
    pose proof Hin as (inner & Hsk & Hu & _). pose proof (sk_len _ _ _ Hsk) as Hp. destruct o as [i|].
    + destruct Hb as (Hi & Hne & Hfirst). pose proof (direction_ordered rev) as [_ Hr].
      rewrite Forall_forall in Hr. specialize (Hr i Hi).
      apply wp_bind. eapply wp_mono; [by apply (descendThrow_ok t s g v l p m n)|].
      intros c s' (g' & Hgr & Hc & _).
      eapply wp_mono; [apply (IH s' g' c _ _ (gr_ghost _ _ _ _ Hgr) Hc); rewrite length_app; cbn; lia|].
      intros o s'' (g'' & Hgr' & Ho'). exists g''. split; [by eapply grows_trans|].
      destruct o as [l'|]; [|by cbn in Ho'].
      destruct Ho' as (n' & item & ? & ? & ? & ? & He). exists n', item. split_and!; try done.
      apply (extreme_branch rev p m i); [done|done|done| |done]. intros j Hj. by apply Hfirst, in_direction.
    + apply wp_ret. exists g. split; [by apply grows_refl|]. cbn. apply map_empty. intros k.
      destruct (m !! k) as [x|] eqn:E; [|done]. destruct (branch_of p m k x Hu Hp E) as [Hr Hs].
      rewrite (Hb (nib k (length p))), lookup_empty in Hs by (by apply in_direction). done.
Qed.

Lemma peek_end_ok rev s m o :
  end_leaf rev s m o -> wp (peek_at o) s (fun o' s' => s' = s /\ extreme (key_lt rev) m o').
Proof.
  destruct o as [l|]; cbn [peek_at end_leaf].
  - intros (n & item & Hn & _ & Hi & _ & He). apply wp_bind. eapply wp_deref; [done|]. apply wp_ret. by rewrite Hi.
  - intros ->. apply wp_ret. done.
Qed.

Lemma peekFirstItem_ok m s g :
  ghost_ok s g -> lrep s g v (root t) [] m ->
  wp (peekFirstItem t) s (fun o s' => exists g', grows s g s' g' /\ extreme nib_lt m o).
Proof.
  intros Hg Hrep. unfold peekFirstItem, firstBelow. apply wp_bind. eapply wp_mono.
  { by apply (below_loop_ok false depth_fuel s g (root t) [] m Hg Hrep); unfold depth_fuel; cbn; lia. }
  intros o s' (g' & Hgr & Ho). eapply wp_mono; [by apply (peek_end_ok false)|]. intros o' s'' [-> ?]. eauto.
Qed.

Lemma peekLastItem_ok m s g :
  ghost_ok s g -> lrep s g v (root t) [] m ->
  wp (peekLastItem t) s (fun o s' => exists g', grows s g s' g' /\ extreme (fun a b => nib_lt b a) m o).
Proof.
  intros Hg Hrep. unfold peekLastItem, lastBelow. apply wp_bind. eapply wp_mono.
  { by apply (below_loop_ok true depth_fuel s g (root t) [] m Hg Hrep); unfold depth_fuel; cbn; lia. }
  intros o s' (g' & Hgr & Ho). eapply wp_mono; [by apply (peek_end_ok true)|]. intros o' s'' [-> ?]. eauto.
Qed.

(** ** The neighbours of a key *)

(** The entries on the far side of [k]. *)
Definition beyond (rev : bool) (k : uint256) m : kmap :=
  filter (fun kv => (if rev then key_ltb kv.1 k else key_ltb k kv.1) = true) m.

Lemma beyond_lookup rev k m k' x :
  is_uint256 k -> keys_ok m -> beyond rev k m !! k' = Some x <-> m !! k' = Some x /\ key_lt rev k k'.
Proof.
  intros Hk Hm. unfold beyond. rewrite map_lookup_filter_Some. cbn [fst]. split; intros [H1 H2]; (split; [done|]);
    specialize (Hm k' x H1); cbn in Hm; destruct rev; cbn [key_lt] in *; by apply key_ltb_iff.
Qed.

(** Nothing on the far side of [k] below depth [d] of its path. *)
Definition none_beyond (rev : bool) (k : uint256) m (d : nat) : Prop :=
  forall k' x, below (pre k d) m !! k' = Some x -> ~ key_lt rev k k'.

Lemma key_lt_branch_inv rev k k' d :
  key_lt rev k k' -> (d < 64)%nat -> pre k d = pre k' d -> nib k d = nib k' d \/ branch_lt rev (nib k d) (nib k' d).
Proof.
  intros Hlt Hd Hpre. rewrite take_nibbles_eq in Hpre by lia.
  apply key_lt_iff in Hlt as (j & Hj & Hp & Hl). destruct (decide (j < d)%nat).
  - rewrite Hpre in Hl by lia. destruct rev; cbn in Hl; lia.
  - destruct (decide (j = d)) as [->|]; [auto|]. left. apply Hp. lia.
Qed.

(** The far side of [k] in a branch beside its path. *)
Lemma beyond_branch rev k m d i o :
  is_uint256 k -> keys_ok m -> (d < 64)%nat -> none_beyond rev k m (S d) -> branch_lt rev (nib k d) i ->
  sub d i (below (pre k d) m) <> ∅ ->
  (forall j, 0 <= j < 16 -> branch_lt rev (nib k d) j -> sub d j (below (pre k d) m) <> ∅ -> j = i \/ branch_lt rev i j) ->
  extreme (key_lt rev) (sub d i (below (pre k d) m)) o ->
  extreme (key_lt rev) (beyond rev k (below (pre k d) m)) o.
Proof.
  intros Hk Hm Hd Hnone Hi Hne Hfirst Ho. destruct o as [item|]; [|done]. destruct Ho as [Hin Hmin].
  assert (Hkb : keys_ok (below (pre k d) m)) by (eapply under_keys, under_below, Hm).
  apply sub_lookup in Hin as [Hin Hnib]. pose proof Hin as Hin'. apply below_lookup in Hin' as [_ Hp].
  rewrite length_pre in Hp by lia.
  split.
  { apply beyond_lookup; [done|done|]. split; [done|]. apply (key_lt_branch rev (pre k d));
      rewrite ?length_pre by lia; [done|done|done|]. by rewrite Hnib. }
  intros k' x [Hk' Hlt]%beyond_lookup; [|done|done]. pose proof Hk' as Hk''. apply below_lookup in Hk'' as [Hm' Hp'].
  rewrite length_pre in Hp' by lia.
  assert (Hr : 0 <= nib k' d < 16) by (apply nib_range; [by apply (Hm k' x)|done]).
  assert (Hs : sub d (nib k' d) (below (pre k d) m) !! k' = Some x) by (by apply sub_lookup).
  destruct (key_lt_branch_inv rev k k' d Hlt Hd (eq_sym Hp')) as [E|Hbr].
  { exfalso. apply (Hnone k' x); [|done]. rewrite pre_S, <- sub_below, length_pre, E by (rewrite ?length_pre; lia).
    exact Hs. }
  destruct (Hfirst (nib k' d) Hr Hbr) as [E|Hbr'].
  - intros E. by rewrite E, lookup_empty in Hs.
  - rewrite E in Hs. by apply (Hmin k' x).
  - right. apply (key_lt_branch rev (pre k d)); rewrite ?length_pre by lia; [done|done|done|]. by rewrite Hnib.
Qed.

(** The nearest entry below a position of [k]'s path is the nearest of all. *)
Lemma beyond_up rev k m d item :
  is_uint256 k -> keys_ok m -> (d <= 64)%nat ->
  extreme (key_lt rev) (beyond rev k (below (pre k d) m)) (Some item) ->
  extreme (key_lt rev) (beyond rev k m) (Some item).
Proof.
  intros Hk Hm Hd [Hin Hmin]. assert (Hkb : keys_ok (below (pre k d) m)) by (eapply under_keys, under_below, Hm).
  apply beyond_lookup in Hin as [Hin Hlt]; [|done|done]. apply below_lookup in Hin as [Hin Hp].
  rewrite length_pre in Hp by done. split; [by apply beyond_lookup|].
  intros k' x [Hk' Hlt']%beyond_lookup; [|done|done].
  destruct (decide (pre k' d = pre k d)) as [E|Hne].
  { apply (Hmin k' x), beyond_lookup; [done|done|]. split; [|done]. apply below_lookup. by rewrite length_pre. }
  right. apply key_lt_iff in Hlt' as (j & Hj & Hpre & Hl). rewrite take_nibbles_eq in Hp by done.
  assert (Hjd : (j < d)%nat).
  { destruct (decide (j < d)%nat); [done|]. destruct Hne. apply take_nibbles_eq; [done|].
    intros i Hi. symmetry. apply Hpre. lia. }
  apply key_lt_iff. exists j. split_and!; [done| |by rewrite Hp].
  intros i Hi. rewrite Hp by lia. by apply Hpre.
Qed.

Lemma filter_ordered {A} (R : A -> A -> Prop) (P : A -> Prop) `{!forall x, Decision (P x)} (l : list A) :
  StronglySorted R l -> StronglySorted R (filter P l).
Proof.
  induction 1 as [|x l Hs IH Hx]; [constructor|]. rewrite filter_cons. case_decide; [|done]. constructor; [done|].
  rewrite Forall_forall in *. intros y [_ Hy]%list_elem_of_filter. auto.
Qed.

(** The branches [peekNextItem] or [peekPrevItem] scan at a node. *)
Definition side (rev : bool) (b : Z) : list Z := if rev then branches_before b else branches_after b.

Lemma in_side rev b i : i ∈ side rev b <-> 0 <= i < 16 /\ branch_lt rev b i.
Proof.
  destruct rev; cbn [side branch_lt]; unfold branches_before, branches_after;
    rewrite list_elem_of_filter, ?elem_of_reverse, in_branches; tauto.
Qed.

Lemma side_ordered rev b : ordered rev (side rev b).
Proof.
  split; [|apply Forall_forall; intros i [Hi _]%in_side; done].
  destruct rev; apply filter_ordered; [apply (direction_ordered true)|apply (direction_ordered false)].
Qed.

(** One entry of the stack: what lies beyond [k] below it. *)
Lemma none_beyond_leaf (rev : bool) k m d n item :
  is_uint256 k -> (d <= 64)%nat -> leaf_rep v n (pre k d) (below (pre k d) m) -> mItem n = Some item ->
  (if rev then key_ltb (mTag item) k else key_ltb k (mTag item)) = false -> none_beyond rev k m d.
Proof.
  intros Hk Hd (item' & _ & Hi & _ & _ & E & Hu & _) Hitem Hf k' x Hk' Hlt. assert (item' = item) as -> by congruence.
  destruct (Hu k' x Hk') as [Hkey _]. rewrite E in Hk'. apply lookup_singleton_Some in Hk' as [<- _].
  destruct rev; cbn [key_lt] in Hlt; apply key_ltb_iff in Hlt; congruence || done.
Qed.

Lemma none_beyond_inner rev k m d :
  is_uint256 k -> keys_ok m -> (d < 64)%nat -> none_beyond rev k m (S d) ->
  (forall j, j ∈ side rev (nib k d) -> sub d j (below (pre k d) m) = ∅) -> none_beyond rev k m d.
Proof.
  intros Hk Hm Hd Hnone Hside k' x Hk' Hlt. pose proof Hk' as Hb. apply below_lookup in Hb as [Hm' Hp].
  rewrite length_pre in Hp by lia. destruct (key_lt_branch_inv rev k k' d Hlt Hd (eq_sym Hp)) as [E|Hbr].
  - apply (Hnone k' x); [|done]. rewrite pre_S, <- sub_below, length_pre by (rewrite ?length_pre; lia).
    by apply sub_lookup.
  - assert (Hs : sub d (nib k' d) (below (pre k d) m) !! k' = Some x) by (by apply sub_lookup).
    rewrite Hside, lookup_empty in Hs; [done|]. apply in_side. split; [|done]. apply nib_range; [by apply (Hm k' x)|done].
Qed.

Lemma none_beyond_start k m d rev :
  keys_ok m -> below (pre k d) m = ∅ -> none_beyond rev k m d.
Proof. intros _ E k' x Hk'. by rewrite E, lookup_empty in Hk'. Qed.
(** The leaf found when the walk turns off [k]'s path into branch [i]. *)
Definition near_leaf (rev : bool) s m (k : uint256) (o : option loc) : Prop :=
  exists l n item, o = Some l /\ cells s !! l = Some n /\ mType n = v_type v /\ mItem n = Some item /\
    isInner n = false /\ extreme (key_lt rev) (beyond rev k m) (Some item).

Lemma turn_ok rev k m s g l n d i :
  is_uint256 k -> keys_ok m -> ghost_ok s g -> lrep s g v l (pre k d) (below (pre k d) m) ->
  cells s !! l = Some n -> mType n = tnINNER -> (d < 64)%nat -> none_beyond rev k m (S d) ->
  i ∈ side rev (nib k d) -> sub d i (below (pre k d) m) <> ∅ ->
  (forall j, j ∈ side rev (nib k d) -> sub d j (below (pre k d) m) <> ∅ -> j = i \/ branch_lt rev i j) ->
  wp (c ← descendThrow t l i; below_loop t depth_fuel (direction rev) c) s (fun o s' =>
    exists g', grows s g s' g' /\ near_leaf rev s' m k o).
Proof.
  intros Hk Hm Hg Hrep Hn Ht Hd Hnone Hi Hne Hfirst. apply in_side in Hi as [Hr Hbr].
  assert (Hne' : sub (length (pre k d)) i (below (pre k d) m) <> ∅) by (rewrite length_pre; [done|lia]).
  apply wp_bind. eapply wp_mono; [by apply (descendThrow_ok t s g v l (pre k d) (below (pre k d) m) n)|].
  intros c s' (g' & Hgr & Hc & _). rewrite length_pre in Hc by lia.
  eapply wp_mono; [apply (below_loop_ok rev depth_fuel s' g' c _ _ (gr_ghost _ _ _ _ Hgr) Hc)|].
  { rewrite length_app, length_pre by lia. unfold depth_fuel. cbn. lia. }
  intros o s'' (g'' & Hgr' & Ho). exists g''. split; [by eapply grows_trans|]. destruct o as [l'|]; [|done].
  destruct Ho as (n' & item & ? & ? & ? & ? & He). exists l', n', item. split_and!; try done.
  apply (beyond_up rev k m d); [done|done|lia|]. apply (beyond_branch rev k m d i); try done.
  intros j Hj Hbj. by apply Hfirst, in_side.
Qed.

Lemma keys_ok_root s g l m : lrep s g v l [] m -> keys_ok m.
Proof. intros [_ (n & _ & Hrep)]. by eapply under_keys, rep_under. Qed.

Lemma beyond_none rev k m : is_uint256 k -> keys_ok m -> none_beyond rev k m 0 -> beyond rev k m = ∅.
Proof.
  intros Hk Hm Hnone. apply map_empty. intros k'. destruct (beyond rev k m !! k') as [x|] eqn:E; [|done].
  apply beyond_lookup in E as [E Hlt]; [|done|done]. exfalso. apply (Hnone k' x); [|done].
  cbn [take]. by rewrite below_nil.
Qed.

Lemma leaf_beyond rev k m d n item :
  is_uint256 k -> keys_ok m -> (d <= 64)%nat -> leaf_rep v n (pre k d) (below (pre k d) m) -> mItem n = Some item ->
  key_lt rev k (mTag item) -> extreme (key_lt rev) (beyond rev k m) (Some item).
Proof.
  intros Hk Hm Hd (item' & _ & Hi & _ & _ & E & Hu & _) Hitem Hlt. assert (item' = item) as -> by congruence.
  apply (beyond_up rev k m d); [done|done|done|]. rewrite E in *. split.
  - apply beyond_lookup; [done|by eapply under_keys|]. split; [apply lookup_singleton_eq|done].
  - intros k' x [[<- _]%lookup_singleton_Some _]%beyond_lookup; [auto|done|by eapply under_keys].
Qed.

(** The first entry of the stack is a leaf, or nothing beyond [k] is below it. *)
Definition fresh_top (rev : bool) s m (k : uint256) (st : NodeStack) (d : nat) : Prop :=
  none_beyond rev k m d \/ exists l id tl n, st = (l, id) :: tl /\ cells s !! l = Some n /\ isLeaf n = true.

(** What the loops do with one entry of the stack. *)
Lemma entry_cases rev k m s g l id st d :
  is_uint256 k -> keys_ok m -> ghost_ok s g -> stack_ok s g m k ((l, id) :: st) (S d) -> (d <= 64)%nat ->
  fresh_top rev s m k ((l, id) :: st) (S d) ->
  exists n, cells s !! l = Some n /\
    ((isLeaf n = true /\ exists item, mItem n = Some item /\ mType n = v_type v /\
        (if (if rev then key_ltb (mTag item) k else key_ltb k (mTag item))
         then extreme (key_lt rev) (beyond rev k m) (Some item) else none_beyond rev k m d)) \/
     (isLeaf n = false /\ selectBranch id k = Some (nib k d) /\
      exists o, find_branch n (side rev (nib k d)) = Ok o /\
        match o with
        | None => none_beyond rev k m d
        | Some i => wp (c ← descendThrow t l i; below_loop t depth_fuel (direction rev) c) s (fun o s' =>
            exists g', grows s g s' g' /\ near_leaf rev s' m k o)
        end)).
Proof.
  intros Hk Hm Hg (Hid & Hrep & Hst) Hd Hfresh.
  destruct (lrep_cases _ _ _ _ _ Hrep) as (n & Hn & Hcase). exists n. split; [done|].
  destruct Hcase as [Hleaf|[Ht Hin]]; [left|right].
  - destruct (leafy_leaf _ _ _ Hleaf) as (-> & _ & _). pose proof Hleaf as (item & Ht & Hitem & _ & _ & E & Hu & _).
    split; [done|]. exists item. split_and!; [done|done|]. case_match eqn:Elt.
    + apply (leaf_beyond rev k m d n); try done. rewrite E in Hu.
      destruct (Hu (mTag item) (mData item)) as [? _]; [apply lookup_singleton_eq|]. by destruct rev; apply key_ltb_iff.
    + by apply (none_beyond_leaf rev k m d n item).
  - destruct (inner_not_leaf _ _ _ _ _ Hin) as (Hl & _ & _). rewrite Hl. split; [done|].
    assert (Hd' : (d < 64)%nat) by (destruct Hin as (inner & [_ _ _ Hlen _ _ _ _] & _); by rewrite length_pre in Hlen).
    split; [by apply selectBranch_nib; [apply Hid|..]|].
    destruct (find_branch_ok rev s g n _ _ (side rev (nib k d)) Hin (side_ordered rev (nib k d))) as (o & Ho & Hb).
    rewrite length_pre in Hb by lia. exists o. split; [done|].
    assert (Hnone : none_beyond rev k m (S d)).
    { destruct Hfresh as [|(? & ? & ? & n' & [= <- <- <-] & Hn' & Hl')]; [done|]. congruence. }
    destruct o as [i|]; [|by apply none_beyond_inner]. destruct Hb as (Hi & Hne & Hfirst). by apply (turn_ok rev k m s g l n d i).
Qed.

Lemma peekNext_loop_ok k m st : forall s g d,
  is_uint256 k -> keys_ok m -> ghost_ok s g -> stack_ok s g m k st d -> (d <= 65)%nat -> fresh_top false s m k st d ->
  wp (peekNext_loop t k st) s (fun o s' => exists g', grows s g s' g' /\
    extreme nib_lt (beyond false k m) (fst <$> o) /\ (forall x, o = Some x -> x.2 = v_type v)).
Proof.
  induction st as [|[l id] st IH]; intros s g d Hk Hm Hg Hst Hd Hnone; cbn [peekNext_loop].
  { cbn in Hst. subst d. apply wp_ret. exists g. split; [by apply grows_refl|]. split; [|done].
    destruct Hnone as [Hnone|(? & ? & ? & ? & ? & _)]; [|done]. cbn. by apply beyond_none. }
  destruct d as [|d]; [done|].
  destruct (entry_cases false k m s g l id st d Hk Hm Hg Hst ltac:(lia) Hnone) as (n & Hn & Hcase).
  destruct Hst as (_ & _ & Hst). apply wp_bind, (wp_deref _ n); [done|].
  destruct Hcase as [(-> & item & Hi & Ht & Hb)|(-> & Hsel & o & Ho & Hb)].
  - apply wp_bind. eapply wp_lift; [unfold item_of; by rewrite Hi|]. destruct (key_ltb k (mTag item)).
    + apply wp_ret. exists g. split; [by apply grows_refl|]. split; [exact Hb|]. by intros x [= <-].
    + apply (IH s g d); try done; [lia|by left].
  - apply wp_bind. eapply wp_option; [done|]. apply wp_bind. eapply wp_lift; [exact Ho|]. destruct o as [i|].
    + unfold firstBelow. unfold wp, mbind, M_bind in *. destruct (descendThrow t l i s) as [[c|e] s']; [|done].
      destruct (below_loop t depth_fuel (direction false) c s') as [[o'|e] s''] eqn:Eb; [|done].
      destruct Hb as (g' & Hgr & l' & n' & item & -> & Hn' & Ht' & Hi' & Hni & He).
      cbn [direction] in Eb. rewrite Eb. unfold deref, lift, item_of, mret, M_ret. rewrite Hn', Hni, Hi'.
      exists g'. split; [done|]. split; [done|]. by intros x [= <-].
    + apply (IH s g d); try done; [lia|by left].
Qed.

Lemma peekPrev_loop_ok k m st : forall s g d,
  is_uint256 k -> keys_ok m -> ghost_ok s g -> stack_ok s g m k st d -> (d <= 65)%nat -> fresh_top true s m k st d ->
  wp (peekPrev_loop t k st) s (fun o s' => exists g', grows s g s' g' /\
    extreme (fun a b => nib_lt b a) (beyond true k m) o).
Proof.
  induction st as [|[l id] st IH]; intros s g d Hk Hm Hg Hst Hd Hnone; cbn [peekPrev_loop].
  { cbn in Hst. subst d. apply wp_ret. exists g. split; [by apply grows_refl|].
    destruct Hnone as [Hnone|(? & ? & ? & ? & ? & _)]; [|done]. cbn. by apply beyond_none. }
  destruct d as [|d]; [done|].
  destruct (entry_cases true k m s g l id st d Hk Hm Hg Hst ltac:(lia) Hnone) as (n & Hn & Hcase).
  destruct Hst as (_ & _ & Hst). apply wp_bind, (wp_deref _ n); [done|].
  destruct Hcase as [(-> & item & Hi & Ht & Hb)|(-> & Hsel & o & Ho & Hb)].
  - apply wp_bind. eapply wp_lift; [unfold item_of; by rewrite Hi|]. destruct (key_ltb (mTag item) k).
    + apply wp_ret. exists g. split; [by apply grows_refl|exact Hb].
    + apply (IH s g d); try done; [lia|by left].
  - apply wp_bind. eapply wp_option; [done|]. apply wp_bind. eapply wp_lift; [exact Ho|]. destruct o as [i|].
    + unfold lastBelow. unfold wp, mbind, M_bind in *. destruct (descendThrow t l i s) as [[c|e] s']; [|done].
      destruct (below_loop t depth_fuel (direction true) c s') as [[o'|e] s''] eqn:Eb; [|done].
      destruct Hb as (g' & Hgr & l' & n' & item & -> & Hn' & Ht' & Hi' & Hni & He).
      cbn [direction] in Eb. rewrite Eb. unfold from_option, deref, mret, M_ret. rewrite Hn', Hi'. eauto.
    + apply (IH s g d); try done; [lia|by left].
Qed.

Lemma start_fresh rev s g m k l id tl d :
  keys_ok m -> stack_end s g m k l d -> fresh_top rev s m k ((l, id) :: tl) (S d).
Proof.
  intros Hm (n & Hn & [Hleaf|(_ & _ & E)]); [right|left; by apply none_beyond_start].
  exists l, id, tl, n. split_and!; [done|done|]. by eapply leafy_leaf.
Qed.

Lemma peekNextItem_ok k m s g :
  is_uint256 k -> ghost_ok s g -> lrep s g v (root t) [] m ->
  wp (peekNextItem t k) s (fun o s' => exists g', grows s g s' g' /\
    extreme nib_lt (beyond false k m) (fst <$> o) /\ (forall x, o = Some x -> x.2 = v_type v)).
Proof.
  intros Hk Hg Hrep. pose proof (keys_ok_root _ _ _ _ Hrep) as Hm. unfold peekNextItem. apply wp_bind.
  eapply wp_mono; [by apply (getStack_ok k m s g)|]. intros st s' (g' & d & l & id & tl & Hgr & -> & Hd & Hid & Hl & _ & Htl & Hend).
  assert (Hst : stack_ok s' g' m k ((l, id) :: tl) (S d)) by (cbn; auto using path_stack_ok).
  eapply wp_mono; [apply (peekNext_loop_ok k m _ s' g' (S d) Hk Hm (gr_ghost _ _ _ _ Hgr) Hst); [lia|]|].
  - by eapply start_fresh.
  - intros o s'' (g'' & ? & ? & ?). exists g''. split; [by eapply grows_trans|done].
Qed.

Lemma peekPrevItem_ok k m s g :
  is_uint256 k -> ghost_ok s g -> lrep s g v (root t) [] m ->
  wp (peekPrevItem t k) s (fun o s' => exists g', grows s g s' g' /\
    extreme (fun a b => nib_lt b a) (beyond true k m) o).
Proof.
  intros Hk Hg Hrep. pose proof (keys_ok_root _ _ _ _ Hrep) as Hm. unfold peekPrevItem. apply wp_bind.
  eapply wp_mono; [by apply (getStack_ok k m s g)|]. intros st s' (g' & d & l & id & tl & Hgr & -> & Hd & Hid & Hl & _ & Htl & Hend).
  assert (Hst : stack_ok s' g' m k ((l, id) :: tl) (S d)) by (cbn; auto using path_stack_ok).
  eapply wp_mono; [apply (peekPrev_loop_ok k m _ s' g' (S d) Hk Hm (gr_ghost _ _ _ _ Hgr) Hst); [lia|]|].
  - by eapply start_fresh.
  - intros o s'' (g'' & ? & ?). exists g''. split; [by eapply grows_trans|done].
Qed.
End Reads.
End SHAMapReads.
