(* ===== verification/SHAMapWrites.v ===== *)
(** * SHAMap: what the writes do

    For a map that may be written and whose root represents [m]: [addGiveItem]
    and [updateGiveItem] lead to a root that represents [m] with the item,
    [delItem] to one that represents [m] without the key, and the answers say
    whether the key was there.  The nodes on the path to the key are copied when
    they are not the map's own and written in place when they are; every other
    map of the store keeps representing what it did.

    The proof follows the code: the walk down leaves a stack of inner nodes
    ([path_stack]); with the new contents in place at the bottom, each of them
    is right except for the branch of the key ([hole]); [dirtyUp] and the loop of
    [delItem] fill the holes from the bottom up. *)
From Stdlib Require Import ZArith Lia.
From S2P Require Import Prelude BaseUint Serializer SHAMapNode SHAMapSpec SHAMap SHAMapRep SHAMapReads.
From stdpp Require Import base numbers list gmap strings.
Import BaseUint Serializer SHAMapNode SHAMapSpec SHAMap SHAMapRep SHAMapReads.
Local Open Scope Z_scope.

Module SHAMapWrites.

Abbreviation pre k d := (take d (nibbles k)).

Section Writes.
Context `{SHA : SHA512}.
Implicit Types (s : Store) (g : ghost) (w : view) (n : SHAMapTreeNode) (l c : loc) (p : path) (m : kmap) (i : Z) (d : nat) (t : SHAMap).

Context (v : view) (Hv : view_ok v) (Hmut : v_frozen v = false).

(** The object is the map [v] describes. *)
Definition object_ok t : Prop := mBacked t = v_backed v /\ smSeq t = v_seq v.

(** ** Writing to own cells *)

(** The positions of depth [d] and more on the path of [k]. *)
Definition on_path (k : uint256) d p : Prop := p `prefix_of` nibbles k /\ (d <= length p)%nat.

(** A step of a write at depth [d] or more of [k]'s path. *)
Record edits (k : uint256) d s g s' g' : Prop := {
  ed_ghost : ghost_ok s' g';
  ed_prefix : g `prefix_of` g';
  ed_db : db s' = db s;
  ed_clean : clean s g -> clean s' g';
  ed_seq : forall l n, cells s !! l = Some n -> exists n', cells s' !! l = Some n' /\ mSeq n' = mSeq n;
  ed_same : forall l p o, g !! l = Some (p, o) -> o <> Some (v_id v) \/ ~ on_path k d p ->
    cells s' !! l = cells s !! l }.

Lemma edits_refl k d s g : ghost_ok s g -> edits k d s g s g.
Proof. intros. split; eauto. Qed.

Lemma edits_trans k d d' s1 g1 s2 g2 s3 g3 :
  (d' <= d)%nat -> edits k d s1 g1 s2 g2 -> edits k d' s2 g2 s3 g3 -> edits k d' s1 g1 s3 g3.
Proof.
  intros Hd [G1 P1 D1 C1 S1 E1] [G2 P2 D2 C2 S2 E2]. split; [done|by trans g2|congruence|auto| |].
  - intros l n Hn. destruct (S1 l n Hn) as (n2 & Hn2 & ?). destruct (S2 l n2 Hn2) as (n3 & Hn3 & ?).
    exists n3. split; [done|congruence].
  - intros l p o Hl Ho. rewrite (E2 l p o); [|by eapply prefix_lookup_Some|done]. apply (E1 l p o); [done|].
    destruct Ho as [|Hn]; [auto|right]. intros [? ?]. apply Hn. split; [done|lia].
Qed.

Lemma usable_edits k d s g s' g' w l p : edits k d s g s' g' -> usable s g w l p -> usable s' g' w l p.
Proof.
  intros [G P D C Hs E] (o & n & Hl & Hn & Hseq & Ho). destruct (Hs l n Hn) as (n' & Hn' & E').
  exists o, n'. rewrite E'. split_and!; try done; [by eapply prefix_lookup_Some|apply Hseq|apply Hseq].
Qed.

(** The views a write leaves alone. *)
Definition apart w : Prop := v_frozen w = true \/ v_id w <> v_id v.

Lemma lrep_apart k d s g s' g' w l p m : edits k d s g s' g' -> apart w -> lrep s g w l p m -> lrep s' g' w l p m.
Proof.
  intros He Ha. apply lrep_frame; [done|done|by rewrite (ed_db _ _ _ _ _ _ He)|].
  intros l' p' _ Hu. split; [by eapply usable_edits|]. destruct Hu as (o & n & Hl & _ & _ & Ho).
  apply (ed_same _ _ _ _ _ _ He l' p' o Hl). left. intros ->. destruct Ha as [Hf|Hid].
  - by rewrite Hf in Ho.
  - destruct (v_frozen w); [done|]. destruct Ho as [[= ?]|[? _]]; [congruence|done].
Qed.

(** A tree of the map itself away from the written positions. *)
Lemma rep_off k d s g s' g' n p m :
  edits k d s g s' g' -> (forall p', p `prefix_of` p' -> p <> p' -> ~ on_path k d p') ->
  rep s g v n p m -> rep s' g' v n p m.
Proof.
  intros He Hoff. apply rep_frame; [done|done|by rewrite (ed_db _ _ _ _ _ _ He)|].
  intros l' p' Hp Hne Hu. split; [by eapply usable_edits|]. destruct Hu as (o & n' & Hl & _).
  apply (ed_same _ _ _ _ _ _ He l' p' o Hl). right. by apply Hoff.
Qed.

(** Two positions of the same depth on one path are the same. *)
Lemma prefix_pre p k : p `prefix_of` nibbles k -> p = pre k (length p).
Proof. intros [q Hq]. rewrite Hq. by rewrite take_app_length. Qed.

Lemma branch_off k d j i p' :
  (j < 64)%nat -> i <> nib k j -> pre k j ++ [i] `prefix_of` p' -> ~ on_path k d p'.
Proof.
  intros Hj Hi Hp [Hon _]. assert (Hpre : pre k j ++ [i] `prefix_of` nibbles k) by (by trans p').
  apply prefix_pre in Hpre. rewrite length_app, length_take, length_nibbles in Hpre. cbn [length] in Hpre.
  replace (j `min` 64 + 1)%nat with (S j) in Hpre by lia. rewrite take_nibbles_S in Hpre by done.
  apply app_inj_tail in Hpre as [_ E]. done.
Qed.

Lemma branch_ok_off k d s g s' g' (inner : InnerData) j m i :
  edits k d s g s' g' -> (j < 64)%nat -> 0 <= i < 16 -> i <> nib k j ->
  branch_ok s g v inner (pre k j) m i -> branch_ok s' g' v inner (pre k j) m i.
Proof.
  intros He Hj Hr Hi [H1 H2 H3 H4]. split; [done|done| |].
  - intros c Hc. destruct (H3 c Hc). split; [by eapply usable_edits|done].
  - intros Hne. destruct (H4 Hne) as (nc & Hres & Hrep). exists nc. split.
    + unfold resolve in *. destruct (mChildren inner !!! Z.to_nat i) as [c|] eqn:Ec.
      * destruct (H3 c eq_refl) as [(o & n' & Hl & _) _]. rewrite (ed_same _ _ _ _ _ _ He c _ o Hl); [done|].
        right. by eapply branch_off.
      * unfold db_node in *. by rewrite (ed_db _ _ _ _ _ _ He).
    + eapply rep_off; [done| |done]. intros p' Hp _. by eapply branch_off.
Qed.

(** *** Single steps *)

Definition store_write s l n : Store := {| cells := <[l := n]> (cells s); db := db s |}.
Definition store_alloc s n : Store := {| cells := cells s ++ [n]; db := db s |}.

Definition owned g l p : Prop := g !! l = Some (p, Some (v_id v)).

Lemma write_seqs s l n n' : cells s !! l = Some n -> mSeq n' = mSeq n ->
  forall c x, cells s !! c = Some x -> exists x', cells (store_write s l n') !! c = Some x' /\ mSeq x' = mSeq x.
Proof.
  intros Hn Hs c x Hx. cbn. destruct (decide (c = l)) as [->|]; [|rewrite list_lookup_insert_ne by done; eauto].
  rewrite list_lookup_insert_eq by (by eapply lookup_lt_Some). exists n'. split; [done|congruence].
Qed.

Lemma write_clean s g l n n' p :
  cells s !! l = Some n -> owned g l p -> mSeq n' = mSeq n -> clean s g -> clean (store_write s l n') g.
Proof.
  intros Hn Ho Hs [H1 H2]. assert (H0 : mSeq n <> 0) by (intros E; by specialize (H1 l p _ n Ho Hn E)).
  assert (Hold : forall c x, cells (store_write s l n') !! c = Some x -> mSeq x = 0 -> cells s !! c = Some x).
  { intros c x Hx Ex. cbn in Hx. destruct (decide (c = l)) as [->|]; [|by rewrite list_lookup_insert_ne in Hx].
    rewrite list_lookup_insert_eq in Hx by (by eapply lookup_lt_Some). injection Hx as <-. congruence. }
  split.
  - intros c q o x Hc Hx Ex. eapply H1; [exact Hc|by apply Hold|done].
  - intros c x Hx Ex. eapply shared_node_mono; [by eapply write_seqs|]. by eapply H2; [apply Hold|].
Qed.

Lemma write_edits k d s g l n n' p :
  ghost_ok s g -> cells s !! l = Some n -> owned g l p -> on_path k d p -> mSeq n' = mSeq n ->
  edits k d s g (store_write s l n') g.
Proof.
  intros Hg Hn Ho Hp Hs. split.
  - unfold ghost_ok. cbn. by rewrite length_insert.
  - done.
  - done.
  - by eapply write_clean.
  - by eapply write_seqs.
  - intros l' p' o Hl Hor. cbn. destruct (decide (l' = l)) as [->|]; [|by rewrite list_lookup_insert_ne].
    unfold owned in Ho. rewrite Ho in Hl. injection Hl as <- <-. destruct Hor; done.
Qed.

Lemma alloc_clean s g n x : ghost_ok s g -> mSeq n <> 0 -> clean s g -> clean (store_alloc s n) (g ++ [x]).
Proof.
  intros Hg Hne [H1 H2].
  assert (Hold : forall c y, cells (store_alloc s n) !! c = Some y -> mSeq y = 0 -> cells s !! c = Some y).
  { intros c y Hy Ey. cbn in Hy. apply lookup_app_Some in Hy as [|[_ Hy]]; [done|].
    apply list_lookup_singleton_Some in Hy as [_ <-]. done. }
  split.
  - intros c q o y Hc Hy Ey. apply Hold in Hy; [|done]. eapply H1; [|exact Hy|done].
    rewrite lookup_app_l in Hc; [done|]. rewrite Hg. by eapply lookup_lt_Some.
  - intros c y Hy Ey. apply (shared_node_mono s); [|by eapply H2; [apply Hold|]].
    intros l z Hz. exists z. split; [by apply lookup_app_l_Some|done].
Qed.

Lemma alloc_edits k d s g n x : ghost_ok s g -> mSeq n <> 0 -> edits k d s g (store_alloc s n) (g ++ [x]).
Proof.
  intros Hg Hne. split; cbn [cells db store_alloc].
  - unfold ghost_ok. cbn. by rewrite !length_app, Hg.
  - by apply prefix_app_r.
  - done.
  - by apply alloc_clean.
  - intros l y Hy. exists y. split; [by apply lookup_app_l_Some|done].
  - intros l p o Hl _. rewrite lookup_app_l; [done|]. rewrite <- Hg. by eapply lookup_lt_Some.
Qed.

Lemma seq_nonzero n : mSeq n = v_seq v -> mSeq n <> 0.
Proof. destruct Hv. lia. Qed.

Lemma alloc_cell s n : cells (store_alloc s n) !! length (cells s) = Some n.
Proof. cbn. by rewrite lookup_app_r, Nat.sub_diag by done. Qed.

Lemma alloc_ghost s g x : ghost_ok s g -> (g ++ [x]) !! length (cells s) = Some x.
Proof. intros <-. by rewrite lookup_app_r, Nat.sub_diag by done. Qed.

Lemma alloc_lrep s g w n x l p m :
  ghost_ok s g -> mSeq n <> 0 -> lrep s g w l p m -> lrep (store_alloc s n) (g ++ [x]) w l p m.
Proof.
  intros Hg Hne. apply lrep_frame; [done|done|done|]. intros l' p' _ Hu.
  split; [eapply usable_edits; [by apply (alloc_edits [] 0)|done]|].
  destruct Hu as (o & n' & _ & Hn & _). rewrite Hn. by apply lookup_app_l_Some.
Qed.

(** A write at [p] does not touch the map's trees that are not above [p]. *)
Lemma write_lrep k d s g l n n' p c q m :
  ghost_ok s g -> cells s !! l = Some n -> owned g l p -> on_path k d p -> mSeq n' = mSeq n ->
  ~ q `prefix_of` p -> lrep s g v c q m -> lrep (store_write s l n') g v c q m.
Proof.
  intros Hg Hn Ho Hp Hs Hq. apply lrep_frame; [done|done|done|]. intros l' p' Hpre Hu.
  split; [eapply usable_edits; [by eapply write_edits|done]|]. destruct Hu as (o & x & Hl & _).
  cbn. apply list_lookup_insert_ne. intros ->. unfold owned in Ho. rewrite Ho in Hl. injection Hl as <- _. done.
Qed.

(** A map's own node at a position is usable. *)
Lemma owned_usable s g l p n :
  owned g l p -> cells s !! l = Some n -> mSeq n = v_seq v -> usable s g v l p.
Proof.
  intros Ho Hn Hs. destruct Hv as [Hpos _]. exists (Some (v_id v)), n. split_and!; try done; [lia|lia|]. rewrite Hmut. auto.
Qed.
(** ** Setting a child *)

(** The hash of an inner node whose child hashes are right. *)
Lemma inner_node_hash n p m (inner : InnerData) :
  skeleton n p inner -> under p m -> mHashes inner = child_hashes (v_type v) (length p) m ->
  (forall i, 0 <= i < 16 -> isZero (mHashes inner !!! Z.to_nat i) = true <-> sub (length p) i m = ∅) ->
  node_hash n = Ok (inner_hash (v_type v) (length p) m).
Proof.
  intros [Ht Hi Hin Hl Hh Hk Hb Hc] Hu Hhs Hz. unfold node_hash, inner_of. rewrite Ht, Hin. cbn. f_equal.
  unfold inner_hash, getPrefixHash, inner_pre. destruct (decide (m = ∅)) as [->|Hne].
  - assert (mIsBranch inner = 0) as ->; [|done]. apply Z.bits_inj'. intros i Hi'. rewrite Hb, Z.bits_0 by done.
    destruct (Z.ltb_spec i 16); [|done]. cbn [andb]. apply negb_false_iff, Hz; [lia|].
    apply map_empty. intros k. destruct (sub _ _ _ !! k) eqn:E; [|done]. apply sub_lookup in E as [E _]. done.
  - destruct (Z.eqb_spec (mIsBranch inner) 0) as [E|]; [|by rewrite <- Hhs]. exfalso.
    apply map_choose in Hne as (k & x & Hk'). destruct (branch_of p m k x Hu Hl Hk') as [Hr Hs].
    assert (E' : Z.testbit (mIsBranch inner) (nib k (length p)) = false) by (by rewrite E, Z.bits_0).
    rewrite Hb, (proj2 (Z.ltb_lt _ _)) in E' by lia. cbn [andb] in E'. apply negb_false_iff, Hz in E'; [|done].
    by rewrite E', lookup_empty in Hs.
Qed.

(** What is attached at branch [b] for the contents of [m] there. *)
Definition attached s g (child : option loc) (h : uint256) p (b : Z) m : Prop :=
  match child with
  | Some c => lrep s g v c (p ++ [b]) (sub (length p) b m) /\ sub (length p) b m <> ∅ /\
      exists nc, cells s !! c = Some nc /\ mHash nc = h
  | None => sub (length p) b m = ∅ /\ h = zero256
  end.

Lemma attached_hash s g child h p b m :
  (length p < 64)%nat -> attached s g child h p b m -> h = canon_hash (v_type v) (S (length p)) (sub (length p) b m).
Proof.
  intros Hp. destruct child as [c|]; cbn [attached].
  - intros ([_ (n & Hn & Hrep)] & _ & nc & Hnc & <-). assert (nc = n) as -> by congruence.
    apply rep_hash in Hrep. by rewrite Hrep, length_app, Nat.add_1_r.
  - intros [-> ->]. by rewrite canon_hash_empty.
Qed.

(** An inner node at [p] that is right for [m] but for branch [b], which differs. *)
Definition gap s g n p (b : Z) m : Prop :=
  exists inner, skeleton n p inner /\ under p m /\
    (forall i, 0 <= i < 16 -> i <> b -> branch_ok s g v inner p m i) /\
    mHashes inner !!! Z.to_nat b <> canon_hash (v_type v) (S (length p)) (sub (length p) b m).

(** The same where the hash of the node differs too. *)
Definition hole s g n p (b : Z) m : Prop := gap s g n p b m /\ mHash n <> inner_hash (v_type v) (length p) m.

Definition zero_ok p m i : Prop :=
  isZero (canon_hash (v_type v) (S (length p)) (sub (length p) i m)) = true <-> sub (length p) i m = ∅.

(** The inner data after [setChild]. *)
Definition new_child (inner : InnerData) (b : Z) (h : uint256) (child : option loc) : InnerData :=
  {| mHashes := <[Z.to_nat b := h]> (mHashes inner); mChildren := <[Z.to_nat b := child]> (mChildren inner);
     mIsBranch := (if negb (isZero h) then Z.lor (mIsBranch inner) (Z.shiftl 1 b)
                   else Z.land (mIsBranch inner) (Z.lnot (Z.shiftl 1 b)));
     mFullBelow := mFullBelow inner |}.

Lemma new_child_skeleton n p inner b h child :
  skeleton n p inner -> 0 <= b < 16 -> is_uint256 h ->
  skeleton (with_inner n (new_child inner b h child)) p (new_child inner b h child).
Proof.
  intros [Ht Hi Hin Hl Hh Hk Hb Hc] Hr Hkey. split; try done; cbn [new_child mHashes mChildren mIsBranch].
  - by rewrite length_insert.
  - by apply Forall_insert.
  - by apply bits_ok_insert.
  - by rewrite length_insert.
Qed.

Lemma new_child_other s g inner b h child p m i :
  0 <= b < 16 -> 0 <= i < 16 -> i <> b -> branch_ok s g v inner p m i -> branch_ok s g v (new_child inner b h child) p m i.
Proof.
  intros Hb Hi Hne [H1 H2 H3 H4]. assert (Z.to_nat b <> Z.to_nat i) by lia.
  split; unfold resolve in *; cbn [new_child mHashes mChildren]; rewrite ?list_lookup_total_insert_ne by done; done.
Qed.

Lemma new_child_same s g inner n b h child p m :
  skeleton n p inner -> 0 <= b < 16 -> attached s g child h p b m -> zero_ok p m b ->
  branch_ok s g v (new_child inner b h child) p m b.
Proof.
  intros [Ht Hi Hin Hl Hh Hk Hbits Hc] Hb Hatt Hz. pose proof (attached_hash _ _ _ _ _ _ _ Hl Hatt) as ->.
  split; unfold resolve; cbn [new_child mHashes mChildren];
    rewrite ?list_lookup_total_insert_eq by lia; [done|exact Hz| |].
  - intros c ->. destruct Hatt as ([Hu _] & Hne & _). done.
  - intros Hne. destruct child as [c|]; [|by destruct Hatt]. destruct Hatt as ([_ Hrep] & _). done.
Qed.

(** [setChild] where the branch differs: the node is right for [m]; it reports a
    change when its hash was another one. *)
Lemma setChild_gap s g n p b m h child :
  gap s g n p b m -> 0 <= b < 16 -> attached s g child h p b m -> zero_ok p m b ->
  exists n' changed, setChild n b h child = Ok (n', changed) /\ mSeq n' = mSeq n /\ inner_rep s g v n' p m /\
    (mHash n <> inner_hash (v_type v) (length p) m -> changed = true).
Proof.
  intros (inner & Hsk & Hu & Hother & Hold) Hb Hatt Hz. pose proof (sk_len _ _ _ Hsk) as Hl.
  pose proof (attached_hash _ _ _ _ _ _ _ Hl Hatt) as Eh.
  set (n1 := with_inner n (new_child inner b h child)).
  assert (Hsk1 : skeleton n1 p (new_child inner b h child)).
  { apply new_child_skeleton; [done|done|]. rewrite Eh. apply canon_hash_key. }
  assert (Hall : forall i, 0 <= i < 16 -> branch_ok s g v (new_child inner b h child) p m i).
  { intros i Hi. destruct (decide (i = b)) as [->|]; [by eapply new_child_same|]. apply new_child_other; auto. }
  assert (Hnh : node_hash n1 = Ok (inner_hash (v_type v) (length p) m)).
  { eapply inner_node_hash; [done|done| |intros; by apply Hall].
    apply hashes_eq; [apply Hsk1|]. intros i Hi. by apply Hall. }
  unfold setChild, inner_of. rewrite (sk_inner _ _ _ Hsk). cbn [mbind result_bind].
  rewrite bool_decide_eq_false_2 by congruence. fold (new_child inner b h child). fold n1.
  unfold updateHash. rewrite Hnh. cbn [mbind result_bind]. case_bool_decide as E.
  - exists n1, false. split_and!; [done|done| |]; [|intros Hd; by destruct Hd].
    exists (new_child inner b h child). by split_and!.
  - eexists _, true. split_and!; [done|done| |done]. exists (new_child inner b h child). split_and!; [|done|done|done].
    by destruct Hsk1.
Qed.

Lemma usable_other_path s g l c p q : owned g l p -> usable s g v c q -> p <> q -> c <> l.
Proof. intros Ho (o & n & Hc & _) Hne ->. unfold owned in Ho. congruence. Qed.

Lemma snoc_not_prefix p i p' : p ++ [i] `prefix_of` p' -> p <> p'.
Proof. intros H ->. apply prefix_length in H. rewrite length_app in H. cbn in H. lia. Qed.

(** Overwriting the node at [p] keeps what its children are. *)
Lemma branch_write s g l n0 n p (inner : InnerData) m i :
  cells s !! l = Some n0 -> owned g l p -> mSeq n = mSeq n0 ->
  branch_ok s g v inner p m i -> branch_ok (store_write s l n) g v inner p m i.
Proof.
  intros Hn0 Ho Hs [H1 H2 H3 H4].
  assert (Huse : forall c q, usable s g v c q -> usable (store_write s l n) g v c q).
  { intros c q (o & x & Hc & Hx & Hq & Hor). destruct (write_seqs s l n0 n Hn0 Hs c x Hx) as (x' & Hx' & E).
    exists o, x'. rewrite E. split_and!; try done; apply Hq. }
  split; [done|done| |].
  - intros c Hc. destruct (H3 c Hc). split; [by apply Huse|done].
  - intros Hne. destruct (H4 Hne) as (nc & Hres & Hrep). exists nc. split.
    + unfold resolve in *. destruct (mChildren inner !!! Z.to_nat i) as [c|] eqn:Ec; [|done].
      cbn. rewrite list_lookup_insert_ne; [done|]. apply not_eq_sym. destruct (H3 c eq_refl) as [Hc _].
      eapply usable_other_path; [done|done|]. by eapply snoc_not_prefix.
    + apply (rep_frame s g v); [done|done|done| |done]. intros l' p' Hp' _ Hu'.
      split; [by apply Huse|]. cbn. apply list_lookup_insert_ne, not_eq_sym.
      eapply usable_other_path; [done|done|]. by eapply snoc_not_prefix.
Qed.

Lemma inner_rep_write s g l n0 n p m :
  cells s !! l = Some n0 -> owned g l p -> mSeq n = mSeq n0 ->
  inner_rep s g v n p m -> inner_rep (store_write s l n) g v n p m.
Proof.
  intros Hn0 Ho Hs (inner & Hsk & Hu & Hh & Hb). exists inner. split_and!; [done|done|done|].
  intros i Hi. by eapply branch_write; [..|apply Hb].
Qed.

Lemma set_child_gap_ok k d s g l n p b m h child :
  ghost_ok s g -> cells s !! l = Some n -> owned g l p -> on_path k d p ->
  gap s g n p b m -> 0 <= b < 16 -> attached s g child h p b m -> zero_ok p m b ->
  wp (set_child l b h child) s (fun changed s' => (mHash n <> inner_hash (v_type v) (length p) m -> changed = true) /\
    exists n', s' = store_write s l n' /\ mSeq n' = mSeq n /\ inner_rep s' g v n' p m).
Proof.
  intros Hg Hn Ho Hon Hh Hb Hatt Hz.
  destruct (setChild_gap s g n p b m h child Hh Hb Hatt Hz) as (n' & changed & Hset & Hs & Hrep & Hch).
  unfold set_child. apply wp_bind, (wp_deref _ n); [done|]. apply wp_bind. eapply wp_lift; [exact Hset|].
  unfold wp, mbind, M_bind, assign, mret, M_ret. cbn. split; [done|]. exists n'. split_and!; [done|done|].
  by apply (inner_rep_write s g l n n').
Qed.

Lemma set_child_ok k d s g l n p b m h child :
  ghost_ok s g -> cells s !! l = Some n -> owned g l p -> on_path k d p ->
  hole s g n p b m -> 0 <= b < 16 -> attached s g child h p b m -> zero_ok p m b ->
  wp (set_child l b h child) s (fun changed s' => changed = true /\ exists n', s' = store_write s l n' /\
    mSeq n' = mSeq n /\ inner_rep s' g v n' p m).
Proof.
  intros Hg Hn Ho Hon [Hh Hd] Hb Hatt Hz.
  eapply wp_mono; [by apply (set_child_gap_ok k d s g l n p b m)|]. intros changed s' [Hc ?]. auto.
Qed.

(** ** Copy on write *)

(** A node and its copy agree on everything but the sequence number. *)
Definition content_eq n n' : Prop :=
  mHash n' = mHash n /\ mType n' = mType n /\ mItem n' = mItem n /\
  (mType n = tnINNER -> exists inner inner', mInner n = Some inner /\ mInner n' = Some inner' /\
     mHashes inner' = mHashes inner /\ mChildren inner' = mChildren inner /\ mIsBranch inner' = mIsBranch inner).

Lemma hole_content s g n n' p b m : content_eq n n' -> hole s g n p b m -> hole s g n' p b m.
Proof.
  intros (Eh & Et & Ei & Hi) [(inner & Hsk & Hu & Hother & Hold) Hhash]. split; [|congruence]. destruct Hsk as [Ht Hit Hin Hl Hh Hk Hb Hc].
  destruct (Hi Ht) as (inner0 & inner' & E0 & E' & Ehs & Ecs & Ebs). assert (inner0 = inner) as -> by congruence.
  exists inner'. split_and!; [|done| |congruence].
  - split; rewrite ?Ehs, ?Ecs, ?Ebs; try done; congruence.
  - intros i Hi' Hne. destruct (Hother i Hi' Hne) as [H1 H2 H3 H4].
    split; unfold resolve in *; rewrite ?Ehs, ?Ecs; done.
Qed.

Lemma leaf_content n n' p m : content_eq n n' -> leaf_rep v n p m -> leaf_rep v n' p m.
Proof.
  intros (Eh & Et & Ei & _) (item & ? & ? & ? & ? & ? & ? & ?). exists item. split_and!; first [done|congruence].
Qed.

Definition copyable n : Prop := mType n = tnINNER -> mItem n = None /\ is_Some (mInner n).

Lemma content_refl n : copyable n -> content_eq n n.
Proof.
  intros Hc. split_and!; [done|done|done|]. intros Ht. destruct (Hc Ht) as [_ [inner Hin]]. eexists _, _. by split_and!.
Qed.

Lemma copy_content n : copyable n -> exists n', copy_node n (v_seq v) = Ok n' /\ mSeq n' = v_seq v /\ content_eq n n'.
Proof.
  intros Hc. unfold copy_node, isInner. case_bool_decide as Ht; cbn [negb].
  - destruct (Hc Ht) as [Hi [inner Hin]]. unfold inner_of. rewrite Hin. eexists. split; [done|]. split; [done|].
    split_and!; [done|done|done|]. intros _. eexists _, _. split_and!; [done|reflexivity|done..].
  - eexists. split; [done|]. split; [done|]. split_and!; try done.
Qed.

Lemma unshareNode_ok k t s g l id n p :
  object_ok t -> ghost_ok s g -> cells s !! l = Some n -> usable s g v l p -> copyable n ->
  (isRoot id = true -> l = root t) ->
  wp (unshareNode t l id) s (fun '(l', t') s' => exists g' n',
    (forall d, edits k d s g s' g') /\ cells s' !! l' = Some n' /\ owned g' l' p /\ mSeq n' = v_seq v /\
    content_eq n n' /\ t' = (if isRoot id then with_root t l' else t) /\
    (forall w c q m, lrep s g w c q m -> lrep s' g' w c q m)).
Proof.
  intros [_ Hseq] Hg Hn Hu Hc Hroot. unfold unshareNode. apply wp_bind, (wp_deref _ n); [done|]. rewrite Hseq.
  destruct (Z.eqb_spec (mSeq n) (v_seq v)) as [E|E]; cbn [negb].
  - apply wp_ret. exists g, n. split; [intros d; by apply edits_refl|]. split; [done|].
    split; [|split; [done|split; [by apply content_refl|split; [|done]]]].
    + destruct Hu as (o & n0 & Hl & Hn0 & _ & Ho). rewrite Hmut in Ho. assert (n0 = n) as -> by congruence.
      destruct Ho as [->|[_ Ho]]; [done|congruence].
    + destruct (isRoot id); [|done]. rewrite Hroot by done. by destruct t.
  - destruct (copy_content n Hc) as (n' & Hcopy & Hs & Hcont).
    apply wp_bind. eapply wp_lift; [exact Hcopy|]. unfold wp, mbind, M_bind, make_shared, mret, M_ret.
    exists (g ++ [(p, Some (v_id v))]), n'. split; [intros d; by apply alloc_edits, seq_nonzero|]. split; [apply alloc_cell|].
    split; [by apply alloc_ghost|]. split; [done|]. split; [done|]. split; [done|].
    intros w c q m. by apply alloc_lrep, seq_nonzero.
Qed.

(** ** Filling the holes *)

Section Target.
Context (k : uint256) (Hk : is_uint256 k) (m' : kmap) (ms : list kmap).
Context (Hnc : no_collision (v_type v) ms) (Hms : m' ∈ ms) (Hok : map_ok (v_type v) m').

Lemma on_path_pre d j : (d <= j)%nat -> (j <= 64)%nat -> on_path k d (pre k j).
Proof. intros. split; [apply prefix_take|]. by rewrite length_pre. Qed.

Lemma zero_ok_target j i : (j < 64)%nat -> zero_ok (pre k j) (below (pre k j) m') i.
Proof.
  intros Hj. unfold zero_ok. rewrite sub_below by (rewrite length_pre; lia).
  pose proof (canon_hash_zero (v_type v) ms Hnc (pre k j ++ [i]) m' Hms) as H.
  rewrite length_app, Nat.add_1_r in H. apply H. rewrite length_pre; lia.
Qed.

(** The part of the target below the next position of the path. *)
Lemma sub_target j : (j < 64)%nat -> sub (length (pre k j)) (nib k j) (below (pre k j) m') = below (pre k (S j)) m'.
Proof. intros. by rewrite sub_below, <- take_nibbles_S by (rewrite ?length_pre; lia). Qed.

(** Every entry of the stack is right for the target but for the key's branch. *)
Fixpoint holes (rt : loc) s g (st : NodeStack) d : Prop :=
  match st with
  | [] => d = 0%nat
  | (l, id) :: st =>
      match d with
      | O => False
      | S j => id_at id j /\ (j < 64)%nat /\ usable s g v l (pre k j) /\ (j = 0%nat -> l = rt) /\
          (exists n, cells s !! l = Some n /\ hole s g n (pre k j) (nib k j) (below (pre k j) m')) /\
          holes rt s g st j
      end
  end.

Lemma hole_edits d s g s' g' n j :
  edits k d s g s' g' -> (j < 64)%nat ->
  hole s g n (pre k j) (nib k j) (below (pre k j) m') -> hole s' g' n (pre k j) (nib k j) (below (pre k j) m').
Proof.
  intros He Hj [(inner & Hsk & Hu & Hother & Hold) Hhash]. split; [|done]. exists inner. split_and!; try done.
  intros i Hi Hne. by eapply branch_ok_off; [done|done|done|done|apply Hother].
Qed.

Lemma holes_edits rt s g s' g' st : forall d d0,
  (d <= d0)%nat -> edits k d0 s g s' g' -> holes rt s g st d -> holes rt s' g' st d.
Proof.
  induction st as [|[l id] st IH]; intros [|j] d0 Hd He; cbn [holes]; try done.
  intros (? & ? & Hu & ? & (n & Hn & Hh) & ?). split_and!; [done|done|by eapply usable_edits|done| |].
  - exists n. split; [|by eapply hole_edits]. destruct Hu as (o & _ & Hl & _).
    rewrite (ed_same _ _ _ _ _ _ He l _ o Hl); [done|]. right. intros [_ Hlen]. rewrite length_pre in Hlen; lia.
  - apply (IH j d0); [lia|done|done].
Qed.

Lemma hole_copyable s g n p b m : hole s g n p b m -> copyable n.
Proof. intros [(inner & [] & _) _] _. eauto. Qed.

Lemma root_depth id j : id_at id j -> isRoot id = (j =? 0)%nat.
Proof.
  intros [Hd _]. unfold isRoot. rewrite Hd. destruct (Nat.eqb_spec j 0) as [->|]; [done|]. apply Z.eqb_neq. lia.
Qed.

(** An entry ready to be written: own, with a hole at the key's branch. *)
Definition ready s g l j : Prop :=
  exists n, cells s !! l = Some n /\ owned g l (pre k j) /\ mSeq n = v_seq v /\
    hole s g n (pre k j) (nib k j) (below (pre k j) m').

Lemma cell_kept s g s' g' l p n d :
  edits k d s g s' g' -> usable s g v l p -> (length p < d)%nat -> cells s !! l = Some n -> cells s' !! l = Some n.
Proof.
  intros He (o & _ & Hl & _) Hp Hn. rewrite (ed_same _ _ _ _ _ _ He l p o Hl); [done|]. right. intros [_ ?]. lia.
Qed.

Lemma unshare_entry_ok t rt s g l id n j :
  object_ok t -> ghost_ok s g -> root t = rt -> id_at id j -> (j < 64)%nat ->
  usable s g v l (pre k j) -> (j = 0%nat -> l = rt) -> cells s !! l = Some n ->
  hole s g n (pre k j) (nib k j) (below (pre k j) m') ->
  wp (unshareNode t l id) s (fun '(l', t') s' => exists g',
    (forall d, edits k d s g s' g') /\ ready s' g' l' j /\ t' = (if (j =? 0)%nat then with_root t l' else t) /\
    (forall w c q m, lrep s g w c q m -> lrep s' g' w c q m)).
Proof.
  intros Ht Hg Hrt Hid Hj Hu Hl Hn Hh. eapply wp_mono.
  { apply (unshareNode_ok k t s g l id n (pre k j)); try done; [by eapply hole_copyable|].
    rewrite (root_depth id j Hid). intros E%Nat.eqb_eq. rewrite Hrt. auto. }
  intros [l' t'] s1 (g1 & n1 & He & Hn1 & Ho & Hs & Hcont & Et & Hkeep). exists g1. split_and!; [done| | |done].
  - exists n1. split_and!; try done. eapply hole_content; [exact Hcont|]. eapply hole_edits; [apply (He 0%nat)|done|done].
  - by rewrite Et, (root_depth id j Hid).
Qed.

(** Writing a child into a ready entry. *)
Lemma fill_ok s g l j child h :
  ghost_ok s g -> (j < 64)%nat -> ready s g l j ->
  attached s g child h (pre k j) (nib k j) (below (pre k j) m') ->
  wp (set_child l (nib k j) h child) s (fun changed s' => changed = true /\ edits k j s g s' g /\
    exists n', s' = store_write s l n' /\ cells s' !! l = Some n' /\ owned g l (pre k j) /\ mSeq n' = v_seq v /\
      inner_rep s' g v n' (pre k j) (below (pre k j) m')).
Proof.
  intros Hg Hj (n & Hn & Ho & Hs & Hh) Hatt. eapply wp_mono.
  { apply (set_child_ok k j s g l n (pre k j) (nib k j) (below (pre k j) m') h child); try done;
      [apply on_path_pre; lia|by apply nib_range|by apply zero_ok_target]. }
  intros changed s' (-> & n' & -> & Hs' & Hrep). split; [done|].
  split; [eapply write_edits; [done|done|done|apply on_path_pre; lia|done]|].
  exists n'. split_and!; try done; [|congruence]. cbn. apply list_lookup_insert_eq. by eapply lookup_lt_Some.
Qed.

Lemma dirtyUp_ok rt st : forall t s g d c,
  object_ok t -> ghost_ok s g -> (st <> [] -> root t = rt) -> (st = [] -> root t = c) -> holes rt s g st d ->
  lrep s g v c (pre k d) (below (pre k d) m') -> (forall j, (0 < j < d)%nat -> (2 <= size (below (pre k j) m'))%nat) ->
  below (pre k d) m' <> ∅ -> (d <= 64)%nat ->
  wp (dirtyUp t st k c) s (fun t' s' => exists g', edits k 0 s g s' g' /\ t' = with_root t (root t') /\
    lrep s' g' v (root t') [] m').
Proof.
  induction st as [|[l id] st IH]; intros t s g d c Ht Hg Hrt Hrc Hh Hc Hsize Hne Hd; cbn [dirtyUp].
  { cbn in Hh. subst d. apply wp_ret. exists g. split_and!; [by apply edits_refl|by destruct t|].
    rewrite Hrc by done. cbn [take] in Hc. by rewrite below_nil in Hc. }
  destruct d as [|j]; [done|]. cbn [holes] in Hh. destruct Hh as (Hid & Hj & Hu & Hl & (n & Hn & Hhole) & Hh).
  apply wp_bind. eapply wp_option; [by apply (selectBranch_nib _ _ j); [apply Hid|..]|].
  apply wp_bind. eapply wp_mono; [by apply (unshare_entry_ok t rt s g l id n j); auto|].
  intros [l' t'] s1 (g1 & He & Hready & Et & Hkeep). pose proof (Hkeep v _ _ _ Hc) as Hc1.
  pose proof Hc1 as [_ (nc & Hcell & _)]. apply wp_bind. eapply wp_deref; [exact Hcell|].
  apply wp_bind. eapply wp_mono; [apply (fill_ok s1 g1 l' j (Some c) (mHash nc)); [apply (He 0%nat)|done|done|]|].
  { cbn [attached]. rewrite sub_target, <- take_nibbles_S by done. split_and!; [done|done|eauto]. }
  intros changed s2 (-> & He2 & n' & _ & Hn' & Ho & Hs' & Hrep). cbn [negb].
  assert (Hne' : below (pre k j) m' <> ∅).
  { intros E. rewrite <- sub_target in Hne by done. destruct Hne. rewrite E. apply map_empty. intros x.
    destruct (sub _ _ _ !! x) eqn:E'; [|done]. by apply sub_lookup in E' as [? _]. }
  eapply wp_mono; [apply (IH t' s2 g1 j l')|].
  - rewrite Et. by destruct (j =? 0)%nat.
  - apply He2.
  - intros Hst. destruct (Nat.eqb_spec j 0) as [E|E]; rewrite Et; [|by apply Hrt].
    exfalso. subst j. destruct st as [|[? ?] ?]; [done|]. by cbn in Hh.
  - intros ->. cbn in Hh. subst j. by rewrite Et.
  - eapply (holes_edits rt s1 g1 s2 g1 st j j); [done|done|].
    by apply (holes_edits rt s g s1 g1 st j j); [done|apply He|].
  - split; [by eapply owned_usable|]. exists n'. split; [done|]. apply rep_intro_inner; [done|].
    destruct (decide (j = 0%nat)) as [->|]; [by left|right]. apply Hsize. lia.
  - intros j' Hj'. apply Hsize. lia.
  - done.
  - lia.
  - intros t'' s3 (g3 & He3 & Et'' & Hfin). exists g3. split_and!; [| |done].
    + eapply edits_trans; [|apply (He 0%nat)|]; [lia|]. eapply edits_trans; [|exact He2|exact He3]. lia.
    + rewrite Et'' at 1. rewrite Et. by destruct (j =? 0)%nat.
Qed.
(** ** From the walk to the holes *)

Section Change.
Context (m : kmap) (Hm : m ∈ ms) (Hok0 : map_ok (v_type v) m).
Context (Hagree : forall k', k' <> k -> m' !! k' = m !! k') (Hdiff : m' !! k <> m !! k).

Lemma below_agree q : take (length q) (nibbles k) <> q -> below q m' = below q m.
Proof.
  intros Hq. apply map_eq. intros k'. apply option_eq. intros x. rewrite !below_lookup.
  destruct (decide (k' = k)) as [->|]; [naive_solver|by rewrite Hagree].
Qed.

Lemma below_differ j : (j <= 64)%nat -> below (pre k j) m' <> below (pre k j) m.
Proof. intros Hj E. apply Hdiff. by rewrite <- (below_own m' k j), <- (below_own m k j), E. Qed.

Lemma entry_hole s g l n j :
  lrep s g v l (pre k j) (below (pre k j) m) -> cells s !! l = Some n -> mType n = tnINNER -> (j < 64)%nat ->
  hole s g n (pre k j) (nib k j) (below (pre k j) m').
Proof.
  intros Hrep Hn Ht Hj. destruct (lrep_inner s g v l _ _ n Hv Hrep Hn Ht) as (_ & _ & inner & Hsk & Hu & Hh & Hb).
  split.
  - exists inner. split_and!; [done|by apply under_below, map_ok_keys with (v_type v)| |].
    + intros i Hi Hne. assert (E : sub (length (pre k j)) i (below (pre k j) m') = sub (length (pre k j)) i (below (pre k j) m)).
      { rewrite !sub_below by (rewrite length_pre; lia). apply below_agree. rewrite snoc_path by (rewrite length_pre; lia).
        rewrite length_pre by lia. naive_solver. }
      destruct (Hb i Hi) as [H1 H2 H3 H4]. split; rewrite E; done.
    + rewrite (bo_hash _ _ _ _ _ _ _ (Hb _ (nib_range k j Hk Hj))), !sub_below, <- take_nibbles_S by (rewrite ?length_pre; lia).
      intros E. apply (below_differ (S j)); [lia|]. symmetry. apply (canon_hash_inj (v_type v) ms); try done; rewrite !length_pre in * by lia; [lia|done].
  - rewrite Hh. intros E. apply (below_differ j); [lia|]. symmetry.
    apply (inner_hash_inj (v_type v) ms); try done. rewrite length_pre; lia.
Qed.

Lemma path_holes t s g st : forall d, path_stack t v s g m k st d -> (d <= 64)%nat -> holes (root t) s g st d.
Proof.
  induction st as [|[l id] st IH]; intros [|j]; cbn [path_stack holes]; try done.
  intros (? & Hl & (n & Hn & Ht) & ? & ? & ?) Hd. split_and!; [done|lia|by destruct Hl|done| |apply IH; [done|lia]].
  exists n. split; [done|]. by eapply entry_hole.
Qed.
End Change.
End Target.

End Writes.
End SHAMapWrites.
