(* ===== verification/SHAMapAdd.v ===== *)
(** * SHAMap: adding and updating an item

    [addGiveItem] on a map that represents [m]: when the key is there the map is
    left alone and the answer is [false]; otherwise the root comes to represent
    [m] with the item.  The new leaf goes to an empty branch, or the leaf found in
    its place becomes a chain of inner nodes down to where the two keys part.
    [updateGiveItem] replaces the data of a key that is there. *)
From Stdlib Require Import ZArith Lia.
From S2P Require Import Prelude BaseUint Serializer SHAMapNode SHAMapSpec SHAMap SHAMapRep SHAMapReads SHAMapWrites.
From stdpp Require Import base numbers list gmap strings.
Import BaseUint Serializer SHAMapNode SHAMapSpec SHAMap SHAMapRep SHAMapReads SHAMapWrites.
Local Open Scope Z_scope.

Module SHAMapAdd.

Section Add.
Context `{SHA : SHA512}.
Implicit Types (s : Store) (g : ghost) (w : view) (n : SHAMapTreeNode) (l c : loc) (p : path) (m : kmap) (i : Z) (d j : nat) (t : SHAMap).

Context (v : view) (Hv : view_ok v) (Hmut : v_frozen v = false).

(** What an operation that writes does to the store, as the other maps see it. *)
Record evolves s g s' g' : Prop := {
  ev_ghost : ghost_ok s' g';
  ev_prefix : g `prefix_of` g';
  ev_db : db s' = db s;
  ev_clean : clean s g -> clean s' g';
  ev_rep : forall w l p m, view_ok w -> apart v w -> lrep s g w l p m -> lrep s' g' w l p m }.

Lemma grows_evolves s g s' g' : grows s g s' g' -> evolves s g s' g'.
Proof. intros [? ? ? ? ? ? _]. split; auto. Qed.

Lemma edits_evolves k d s g s' g' : edits v k d s g s' g' -> evolves s g s' g'.
Proof. intros He. pose proof He as [? ? ? ? ? ?]. split; try done. intros. by eapply lrep_apart. Qed.

Lemma evolves_trans s1 g1 s2 g2 s3 g3 : evolves s1 g1 s2 g2 -> evolves s2 g2 s3 g3 -> evolves s1 g1 s3 g3.
Proof. intros [? ? ? ? ?] [? ? ? ? ?]. split; [done|by trans g2|congruence|auto|auto]. Qed.

Lemma edits_weaken k d d' s g s' g' : (d' <= d)%nat -> edits v k d s g s' g' -> edits v k d' s g s' g'.
Proof. intros Hd He. eapply edits_trans; [exact Hd|exact He|]. apply edits_refl, He. Qed.

Lemma wp_make_shared n s (Q : loc -> Store -> Prop) : Q (length (cells s)) (store_alloc s n) -> wp (make_shared n) s Q.
Proof. done. Qed.

Lemma wp_assign l n s (Q : unit -> Store -> Prop) : Q tt (store_write s l n) -> wp (assign l n) s Q.
Proof. done. Qed.

(** ** Leaves *)

Lemma leaf_node_hash n item :
  mType n = v_type v -> mItem n = Some item -> node_hash n = Ok (sha512half (leaf_pre (v_type v) (mTag item) (mData item))).
Proof.
  intros Ht Hi. unfold node_hash, item_of. rewrite Ht, Hi. destruct Hv as [_ [-> |[-> | ->]]]; done.
Qed.

(** A new leaf of the map [v] describes. *)
Definition leaf_of item : SHAMapTreeNode :=
  {| mHash := sha512half (leaf_pre (v_type v) (mTag item) (mData item)); mItem := Some item; mSeq := v_seq v;
     mType := v_type v; mInner := None |}.

Lemma item_node_ok item : item_node item (v_type v) (v_seq v) = Ok (leaf_of item).
Proof. unfold item_node. by erewrite updateHash_fst by (by apply leaf_node_hash). Qed.

Lemma leaf_of_rep item p :
  p <> [] -> (length p <= 64)%nat -> under p {[mTag item := mData item]} ->
  leaf_rep v (leaf_of item) p {[mTag item := mData item]}.
Proof. intros. by exists item. Qed.

(** The store with a new leaf for position [p]. *)
Definition add_ghost g p : ghost := g ++ [(p, Some (v_id v))].

Lemma new_leaf s g item p :
  ghost_ok s g -> p <> [] -> (length p <= 64)%nat -> under p {[mTag item := mData item]} ->
  lrep (store_alloc s (leaf_of item)) (add_ghost g p) v (length (cells s)) p {[mTag item := mData item]}.
Proof.
  intros Hg Hp Hl Hu. split.
  - eapply owned_usable; [done|done|by apply alloc_ghost|apply alloc_cell|done].
  - eexists. split; [apply alloc_cell|]. by apply rep_intro_leaf, leaf_of_rep.
Qed.

(** ** Counting *)

Lemma size_two m k1 k2 x1 x2 : k1 <> k2 -> m !! k1 = Some x1 -> m !! k2 = Some x2 -> (2 <= size m)%nat.
Proof.
  intros Hne H1 H2. rewrite <- (insert_delete_id m k1 x1 H1), map_size_insert_None by apply lookup_delete_eq.
  assert (size (delete k1 m) <> 0%nat); [|lia]. intros E%map_size_empty_iff.
  assert (delete k1 m !! k2 = Some x2) as E2 by (by rewrite lookup_delete_ne). by rewrite E, lookup_empty in E2.
Qed.

Lemma path_sizes t s g m k st : forall d, path_stack t v s g m k st d ->
  forall j, (0 < j < d)%nat -> (2 <= size (below (take j (nibbles k)) m))%nat.
Proof.
  induction st as [|[l id] st IH]; intros [|d]; cbn [path_stack]; try done; [intros _; lia|].
  intros (_ & Hl & (n & Hn & Ht) & _ & _ & Hst) j Hj. destruct (decide (j = d)) as [->|]; [|apply (IH d Hst); lia].
  destruct (lrep_inner _ _ v l _ _ n Hv Hl Hn Ht) as ([E|?] & _); [|done]. destruct d; [lia|done].
Qed.

Lemma size_agree m m' k d :
  m !! k = None \/ is_Some (m' !! k) -> (forall k', k' <> k -> m' !! k' = m !! k') ->
  (size (below (take d (nibbles k)) m) <= size (below (take d (nibbles k)) m'))%nat.
Proof.
  intros Hk Hag. rewrite <- !size_dom. apply subseteq_size. intros k' Hk'. apply elem_of_dom in Hk' as [x Hx].
  apply elem_of_dom. apply below_lookup in Hx as [Hx Hp].
  assert (is_Some (m' !! k')) as [y Hy].
  { destruct (decide (k' = k)) as [->|]; [|rewrite Hag by done; eauto]. destruct Hk; [congruence|done]. }
  exists y. by apply below_lookup.
Qed.

(** ** Into an empty branch *)

Section Insert.
Context (item : SHAMapItem) (m : kmap) (ms : list kmap).
Let k := mTag item.
Let m' := <[mTag item := mData item]> m.
Context (Hk : is_uint256 (mTag item)) (Hnew : m !! mTag item = None).
Context (Hnc : no_collision (v_type v) ms) (Hm : m ∈ ms) (Hm' : m' ∈ ms).
Context (Hok : map_ok (v_type v) m) (Hok' : map_ok (v_type v) m').

Lemma add_agree k' : k' <> k -> m' !! k' = m !! k'.
Proof. intros. by apply lookup_insert_ne. Qed.

Lemma add_differ : m' !! k <> m !! k.
Proof. unfold m', k. by rewrite lookup_insert_eq, Hnew. Qed.

Lemma add_nonempty d : (d <= 64)%nat -> below (pre k d) m' <> ∅.
Proof.
  intros Hd E. assert (H : below (pre k d) m' !! k = Some (mData item)) by (rewrite below_own by done; apply lookup_insert_eq).
  by rewrite E, lookup_empty in H.
Qed.

(** Where nothing else shares the prefix, the part of the target is the item. *)
Lemma add_alone d : (d <= 64)%nat -> below (pre k d) m = ∅ -> below (pre k d) m' = {[mTag item := mData item]}.
Proof.
  intros Hd E. apply map_eq. intros k'. destruct (decide (k' = k)) as [->|Hne].
  - rewrite below_own by done. unfold m', k. by rewrite lookup_insert_eq, lookup_singleton_eq.
  - rewrite lookup_singleton_ne by done. destruct (below _ m' !! k') as [x|] eqn:Ex; [|done]. exfalso.
    apply below_lookup in Ex as [Ex Hp]. rewrite add_agree in Ex by done.
    assert (H : below (pre k d) m !! k' = Some x) by (by apply below_lookup). by rewrite E, lookup_empty in H.
Qed.

Lemma item_under d : (d <= 64)%nat -> under (pre k d) {[mTag item := mData item]}.
Proof. intros Hd k' x [<- _]%lookup_singleton_Some. split; [done|]. by rewrite length_pre. Qed.

Lemma ready_edits s g s' g' l j d0 :
  edits v k d0 s g s' g' -> (j < d0)%nat -> (j < 64)%nat -> ready v k m' s g l j -> ready v k m' s' g' l j.
Proof.
  intros He Hd Hj (n & Hn & Ho & Hs & Hh). exists n. split_and!; [|by eapply prefix_lookup_Some, ed_prefix|done|].
  - eapply (cell_kept v k s g s' g' l (pre k j)); [exact He| |rewrite length_pre; lia|done]. by eapply owned_usable.
  - by eapply hole_edits.
Qed.

(** The end of an addition: the entry at depth [j] has become right. *)
Lemma finish_ok t0 t s g st j l n :
  object_ok v t -> ghost_ok s g -> (st <> [] -> root t = root t0) -> (st = [] -> root t = l) -> (j < 64)%nat ->
  holes v k m' (root t0) s g st j -> cells s !! l = Some n -> owned v g l (pre k j) -> mSeq n = v_seq v ->
  inner_rep s g v n (pre k j) (below (pre k j) m') ->
  (forall j', (0 < j' <= j)%nat -> (2 <= size (below (pre k j') m'))%nat) ->
  wp (dirtyUp t st k l) s (fun t' s' => exists g', edits v k 0 s g s' g' /\ t' = with_root t (root t') /\
    lrep s' g' v (root t') [] m').
Proof.
  intros Ht Hg Hrt Hrl Hj Hst Hn Ho Hs Hrep Hsize.
  eapply (dirtyUp_ok v Hv Hmut k Hk m' ms Hnc Hm' (root t0) st t s g j l); try done.
  - split; [by eapply owned_usable|]. exists n. split; [done|]. apply rep_intro_inner; [done|].
    destruct (decide (j = 0%nat)) as [->|]; [by left|right]. apply Hsize. lia.
  - intros j' Hj'. apply Hsize. lia.
  - apply add_nonempty. lia.
  - lia.
Qed.

Lemma add_at_inner_ok t0 t s g st d l id :
  object_ok v t -> ghost_ok s g -> (st <> [] -> root t = root t0) -> (st = [] -> root t = l) -> id_at id d ->
  (d < 64)%nat -> ready v k m' s g l d -> holes v k m' (root t0) s g st d ->
  below (pre k (S d)) m = ∅ ->
  (forall j', (0 < j' <= d)%nat -> (2 <= size (below (pre k j') m'))%nat) ->
  wp (add_at_inner t item (v_type v) l id st) s (fun t' s' => exists g', edits v k 0 s g s' g' /\
    t' = with_root t (root t') /\ lrep s' g' v (root t') [] m').
Proof.
  intros Ht Hg Hrt Hrl Hid Hd Hready Hst Hempty Hsize. pose proof Ht as [_ Eseq]. unfold add_at_inner.
  apply wp_bind. eapply wp_option; [by apply (selectBranch_nib _ _ d); [apply Hid|..]|].
  apply wp_bind. eapply wp_lift; [rewrite Eseq; apply item_node_ok|]. apply wp_bind.
  set (s1 := store_alloc s (leaf_of item)). set (g1 := add_ghost g (pre k (S d))).
  assert (He : forall d0, edits v k d0 s g s1 g1) by (intros; by apply alloc_edits, (seq_nonzero v Hv)).
  apply wp_make_shared. fold s1. apply wp_bind. eapply wp_mono.
  { apply (fill_ok v k Hk m' ms Hnc Hm' s1 g1 l d); [apply (He 0%nat)|done| |].
    - by apply (ready_edits s g s1 g1 l d (S d)); [apply He|lia|..].
    - cbn [attached]. rewrite sub_target, add_alone by (done || lia). rewrite <- take_nibbles_S by done.
      split_and!; [|apply map_non_empty_singleton|exists (leaf_of item); split; [apply alloc_cell|done]].
      apply new_leaf; [done|by destruct d|rewrite length_pre; lia|apply item_under; lia]. }
  intros changed s2 (_ & He2 & n' & _ & Hn' & Ho & Hs' & Hrep). eapply wp_mono.
  { apply (finish_ok t0 t s2 g1 st d l n'); try done; [apply He2|].
    apply (holes_edits v k m' _ s1 g1 s2 g1 st d d); [done|done|].
    by apply (holes_edits v k m' _ s g s1 g1 st d d); [|apply He|]. }
  intros t' s3 (g3 & He3 & Et & Hfin). exists g3. split_and!; [|done|done].
  eapply edits_trans; [|apply (He 0%nat)|]; [lia|]. eapply edits_trans; [|exact He2|exact He3]. lia.
Qed.

(** ** Splitting a leaf *)

Section Split.
Context (other : SHAMapItem).
Context (Ho : is_uint256 (mTag other)) (Hne : mTag other <> k) (Hold : m !! mTag other = Some (mData other)).

Definition blank : SHAMapTreeNode := makeInner (empty_node (v_seq v)).

(** The leaf of [other] is all there is where the key goes. *)
Definition shared j : Prop :=
  pre (mTag other) j = pre k j /\ below (pre k j) m = {[mTag other := mData other]}.

Lemma shared_S j : (j < 64)%nat -> shared j -> nib (mTag other) j = nib k j -> shared (S j).
Proof.
  intros Hj [Hp Hb] Hn. split.
  - by rewrite !take_nibbles_S, Hp, Hn by done.
  - rewrite take_nibbles_S by done. rewrite <- (sub_below (pre k j)), Hb by (rewrite length_pre; lia).
    rewrite length_pre by lia. unfold sub. by rewrite map_filter_singleton_True.
Qed.

Lemma shared_pair j : (j <= 64)%nat -> shared j ->
  below (pre k j) m' = <[mTag item := mData item]> {[mTag other := mData other]}.
Proof.
  intros Hj [Hp Hb]. apply map_eq. intros k'. destruct (decide (k' = k)) as [->|Hk'].
  - rewrite below_own by done. unfold m', k. by rewrite !lookup_insert_eq.
  - rewrite lookup_insert_ne by done. rewrite <- Hb. apply option_eq. intros x.
    by rewrite !below_lookup, add_agree.
Qed.

Lemma shared_size j : (j <= 64)%nat -> shared j -> (2 <= size (below (pre k j) m'))%nat.
Proof.
  intros Hj Hs. rewrite (shared_pair j Hj Hs). rewrite map_size_insert_None, map_size_singleton; [done|].
  by apply lookup_singleton_ne.
Qed.

Lemma blank_skeleton j : (j < 64)%nat -> skeleton blank (pre k j) new_inner.
Proof. intros Hj. split; try done; [rewrite length_pre; lia|by_decide|apply bits_ok_new]. Qed.

Lemma blank_branch s g p m0 i : 0 <= i < 16 -> sub (length p) i m0 = ∅ -> branch_ok s g v new_inner p m0 i.
Proof.
  intros Hi E. assert (Hz : mHashes new_inner !!! Z.to_nat i = zero256)
    by (apply list_lookup_total_correct, lookup_replicate; split; [done|lia]).
  assert (Hc : mChildren new_inner !!! Z.to_nat i = None)
    by (apply list_lookup_total_correct, lookup_replicate; split; [done|lia]).
  split; rewrite ?Hz, ?Hc, ?E; try done. by rewrite canon_hash_empty.
Qed.

Lemma target_nonzero q : (length q <= 64)%nat -> below q m' <> ∅ -> zero256 <> canon_hash (v_type v) (length q) (below q m').
Proof.
  intros Hq Hb E. apply Hb, (canon_hash_zero (v_type v) ms Hnc q m' Hm' Hq). by rewrite <- E.
Qed.

Lemma blank_hole s g j : (j < 64)%nat -> shared (S j) -> nib (mTag other) j = nib k j -> shared j ->
  hole v s g blank (pre k j) (nib k j) (below (pre k j) m').
Proof.
  intros Hj Hs1 Hn Hs. assert (Hl : length (pre k j) = j) by (apply length_pre; lia). split.
  - exists new_inner. split_and!; [by apply blank_skeleton|by apply under_below, map_ok_keys with (v_type v)| |].
    + intros i Hi Hni. apply blank_branch; [done|]. rewrite (shared_pair j), Hl by (done || lia).
      apply map_empty. intros k'. destruct (sub _ _ _ !! k') as [x|] eqn:E; [|done]. exfalso.
      apply sub_lookup in E as [E Hi']. apply lookup_insert_Some in E as [[<- _]|[_ [<- _]%lookup_singleton_Some]].
      * by apply Hni.
      * congruence.
    + rewrite sub_target, Hl by done. replace (S j) with (length (pre k (S j))) at 1 by (rewrite length_pre; lia).
      replace (mHashes new_inner !!! Z.to_nat (nib k j)) with zero256.
      * apply target_nonzero; [rewrite length_pre; lia|apply add_nonempty; lia].
      * symmetry. apply list_lookup_total_correct, lookup_replicate. split; [done|].
        pose proof (nib_range k j Hk Hj). lia.
  - cbn [blank makeInner mHash]. unfold inner_hash. rewrite decide_False by (apply add_nonempty; lia). intros E.
    assert (Hz : isZero (sha512half (inner_pre (child_hashes (v_type v) (length (pre k j)) (below (pre k j) m')))) = false).
    { apply (proj2 Hnc), (in_hashed _ ms m'); [done|]. apply hashed_inner; [lia|apply add_nonempty; lia]. }
    by rewrite <- E in Hz.
Qed.

(** The chain of inner nodes, down to a blank one where the keys part. *)
Definition parted rt s g j0 '(l, b1, b2, st) s' : Prop :=
  exists g' j, (j0 <= j < 64)%nat /\ edits v k j0 s g s' g' /\ b1 = nib k j /\ b2 = nib (mTag other) j /\ b1 <> b2 /\
    cells s' !! l = Some blank /\ owned v g' l (pre k j) /\ holes v k m' rt s' g' st j /\ shared j /\
    (forall j', (j0 <= j' <= j)%nat -> shared j').

Lemma keys_part j : (j <= 64)%nat -> shared j -> (j < 64)%nat.
Proof.
  intros Hj [Hp _]. destruct (decide (j = 64%nat)) as [->|]; [|lia]. exfalso. apply Hne.
  apply nibbles_inj; [done|done|]. intros d Hd. by apply (take_nibbles_eq (mTag other) k 64).
Qed.

Lemma split_loop_ok rt fuel : forall t s g l id st j,
  object_ok v t -> ghost_ok s g -> id_at id j -> (0 < j < 64)%nat -> (65 <= j + fuel)%nat ->
  cells s !! l = Some blank -> owned v g l (pre k j) -> holes v k m' rt s g st j -> shared j ->
  wp (split_loop t fuel k (mTag other) l id st) s (parted rt s g j).
Proof.
  induction fuel as [|fuel IH]; intros t s g l id st j Ht Hg Hid Hj Hf Hl Hown Hst Hs; [lia|]. cbn [split_loop].
  pose proof Ht as [_ Eseq]. pose proof Hid as [Hid1 Hid2].
  apply wp_bind. eapply wp_option; [apply (selectBranch_nib _ _ j); [done|exact Hk|lia]|].
  apply wp_bind. eapply wp_option; [apply (selectBranch_nib _ _ j); [done|exact Ho|lia]|].
  change (mTag item) with k. destruct (Z.eqb_spec (nib k j) (nib (mTag other) j)) as [E|E].
  - pose proof (shared_S j ltac:(lia) Hs (eq_sym E)) as Hs1. pose proof (keys_part (S j) ltac:(lia) Hs1) as Hj1.
    destruct (position_step id k j Hk ltac:(lia) Hid1 Hid2) as (id' & Hid' & Hid'').
    apply wp_bind. eapply wp_option; [exact Hid'|]. rewrite Eseq. apply wp_bind.
    assert (He : forall d0, edits v k d0 s g (store_alloc s blank) (add_ghost g (pre k (S j)))) by (intros; by apply alloc_edits, (seq_nonzero v Hv)).
    assert (Hc : cells (store_alloc s blank) !! l = Some blank) by (by apply lookup_app_l_Some).
    apply wp_make_shared. fold blank. eapply wp_mono; [apply (IH t (store_alloc s blank) (add_ghost g (pre k (S j))) _ id' _ (S j)); try done|].
    + apply (He 0%nat).
    + lia.
    + lia.
    + apply alloc_cell.
    + by apply alloc_ghost.
    + cbn [holes]. split_and!; [done|lia| |lia| |apply (holes_edits v k m' rt s g _ _ st j j); [done|apply He|done]].
      * eapply owned_usable; [done|done|by eapply prefix_lookup_Some, (ed_prefix _ _ _ _ _ _ _ (He 0%nat))|exact Hc|done].
      * exists blank. split; [done|]. by apply blank_hole; [lia|..].
    + intros [[[l' b1] b2] st'] s' (g' & j' & Hj' & He' & ? & ? & ? & ? & ? & ? & ? & Hall).
      exists g', j'. split_and!; try done; [lia|lia| |].
      * eapply (edits_trans v k j j); [lia|apply (He j)|]. apply (edits_weaken k (S j)); [lia|done].
      * intros j0 Hj0. destruct (decide (j0 = j)) as [->|]; [done|]. apply Hall. lia.
  - apply wp_ret. exists g, j. split_and!; try done; [lia|by apply edits_refl|].
    intros j' Hj'. by assert (j' = j) as -> by lia.
Qed.


(** ** The two leaves *)

Lemma single_sub p i (it : SHAMapItem) :
  sub (length p) i {[mTag it := mData it]} =
    if decide (nib (mTag it) (length p) = i) then {[mTag it := mData it]} else ∅.
Proof. unfold sub. case_decide; [by rewrite map_filter_singleton_True|by rewrite map_filter_singleton_False]. Qed.

(** Below the branches where the keys part there is one item each. *)
Lemma parted_sub j i :
  (j < 64)%nat -> shared j -> nib k j <> nib (mTag other) j -> 0 <= i < 16 ->
  sub j i (below (pre k j) m') =
    if decide (i = nib k j) then {[mTag item := mData item]}
    else if decide (i = nib (mTag other) j) then {[mTag other := mData other]} else ∅.
Proof.
  intros Hj Hs Hd Hi. rewrite (shared_pair j) by (done || lia). apply map_eq. intros k'. apply option_eq. intros x.
  rewrite sub_lookup, lookup_insert_Some, lookup_singleton_Some.
  repeat case_decide; rewrite ?lookup_singleton_Some, ?lookup_empty; clear Hok Hok' Hnc Hm Hm' Hv Hs; naive_solver.
Qed.

Lemma leaf_nonzero j (it : SHAMapItem) i :
  (j < 64)%nat -> below (pre k j ++ [i]) m' = {[mTag it := mData it]} ->
  isZero (canon_hash (v_type v) (S j) {[mTag it := mData it]}) = false.
Proof.
  intros Hj E. destruct (isZero _) eqn:Ez; [|done]. exfalso.
  pose proof (canon_hash_zero (v_type v) ms Hnc (pre k j ++ [i]) m' Hm') as H.
  rewrite E, length_app, length_pre, Nat.add_1_r in H by lia. apply H in Ez; [|lia].
  by apply map_non_empty_singleton in Ez.
Qed.

Lemma parted_below j i : (j < 64)%nat -> sub j i (below (pre k j) m') = below (pre k j ++ [i]) m'.
Proof. intros Hj. rewrite <- sub_below by (rewrite length_pre; lia). by rewrite length_pre by lia. Qed.

(** The first leaf goes into the blank node. *)
Lemma first_gap s g j :
  (j < 64)%nat -> shared j -> nib k j <> nib (mTag other) j ->
  gap v s g blank (pre k j) (nib k j) {[mTag item := mData item]} /\
  zero_ok v (pre k j) {[mTag item := mData item]} (nib k j).
Proof.
  intros Hj Hs Hd. pose proof (nib_range k j Hk Hj) as Hr.
  assert (Hl : length (pre k j) = j) by (apply length_pre; lia).
  assert (Hself : sub j (nib k j) {[mTag item := mData item]} = {[mTag item := mData item]}).
  { rewrite <- Hl at 1. rewrite single_sub, Hl. by rewrite decide_True. }
  assert (Hz : isZero (canon_hash (v_type v) (S j) {[mTag item := mData item]}) = false).
  { apply (leaf_nonzero j item (nib k j)); [done|]. rewrite <- parted_below, parted_sub by done. by rewrite decide_True. }
  split.
  - exists new_inner. split_and!; [by apply blank_skeleton|apply item_under; lia| |].
    + intros i Hi Hni. apply blank_branch; [done|]. rewrite single_sub, Hl, decide_False; [done|]. by apply not_eq_sym.
    + rewrite Hl, Hself. intros E. rewrite <- E in Hz.
      rewrite (list_lookup_total_correct _ _ zero256) in Hz; [done|]. apply lookup_replicate. split; [done|lia].
  - unfold zero_ok. rewrite Hl, Hself, Hz. split; [done|]. by intros ?%map_non_empty_singleton.
Qed.

(** The second one then makes it right for the target. *)
Lemma second_gap s g n j :
  (j < 64)%nat -> shared j -> nib k j <> nib (mTag other) j ->
  inner_rep s g v n (pre k j) {[mTag item := mData item]} ->
  gap v s g n (pre k j) (nib (mTag other) j) (below (pre k j) m').
Proof.
  intros Hj Hs Hd (inner & Hsk & Hu & Hh & Hb). assert (Hl : length (pre k j) = j) by (apply length_pre; lia).
  pose proof (nib_range (mTag other) j Ho Hj) as Hr.
  exists inner. split_and!; [done|by apply under_below, map_ok_keys with (v_type v)| |].
  - intros i Hi Hni. assert (E : sub (length (pre k j)) i (below (pre k j) m') = sub (length (pre k j)) i {[mTag item := mData item]}).
    { rewrite single_sub, Hl, parted_sub by done. change (mTag item) with k. repeat case_decide; congruence. }
    destruct (Hb i Hi) as [H1 H2 H3 H4]. split; rewrite E; done.
  - destruct (Hb _ Hr) as [-> _ _ _]. rewrite single_sub, Hl, decide_False by done. rewrite canon_hash_empty.
    intros E. assert (Hz : isZero (canon_hash (v_type v) (S j) (sub j (nib (mTag other) j) (below (pre k j) m'))) = true) by (by rewrite <- E).
    rewrite parted_sub, decide_False, decide_True in Hz by congruence.
    rewrite (leaf_nonzero j other (nib (mTag other) j)) in Hz; [done|done|].
    rewrite <- parted_below, parted_sub, decide_False, decide_True by congruence. done.
Qed.


Lemma alloc_gap s g n0 x n p b m0 :
  ghost_ok s g -> mSeq n0 <> 0 -> gap v s g n p b m0 -> gap v (store_alloc s n0) (g ++ [x]) n p b m0.
Proof.
  intros Hg H0 (inner & Hsk & Hu & Hb & Hd). exists inner. split_and!; [done|done| |done].
  pose proof (alloc_edits v [] 0 s g n0 x Hg H0) as He.
  intros i Hi Hib. destruct (Hb i Hi Hib) as [H1 H2 H3 H4]. split; [done|done| |].
  - intros c Hc. destruct (H3 c Hc). split; [by eapply usable_edits|done].
  - intros Hs. destruct (H4 Hs) as (nc & Hres & Hrep). exists nc. split.
    + unfold resolve in *. destruct (mChildren inner !!! Z.to_nat i); [by apply lookup_app_l_Some|done].
    + apply (rep_frame s g v); try done. intros l' p' _ _ Hu'. split; [by eapply usable_edits|].
      destruct Hu' as (o & n' & _ & Hn & _). rewrite Hn. by apply lookup_app_l_Some.
Qed.

(** Making a leaf and setting it as a child. *)
Lemma put_leaf_ok {A} (rest : M A) (Q : A -> Store -> Prop) t s g l n j m0 (it : SHAMapItem) :
  object_ok v t -> ghost_ok s g -> (j < 64)%nat -> is_uint256 (mTag it) ->
  cells s !! l = Some n -> owned v g l (pre k j) -> mSeq n = v_seq v -> pre (mTag it) j = pre k j ->
  gap v s g n (pre k j) (nib (mTag it) j) m0 -> zero_ok v (pre k j) m0 (nib (mTag it) j) ->
  sub j (nib (mTag it) j) m0 = {[mTag it := mData it]} ->
  (forall s' g' n', edits v k j s g s' g' -> cells s' !! l = Some n' -> owned v g' l (pre k j) -> mSeq n' = v_seq v ->
     inner_rep s' g' v n' (pre k j) m0 -> wp rest s' Q) ->
  wp (leaf ← lift (item_node it (v_type v) (smSeq t)); newNode ← make_shared leaf;
      _ ← set_child l (nib (mTag it) j) (mHash leaf) (Some newNode); rest) s Q.
Proof.
  intros [_ Eseq] Hg Hj Hit Hn Hown Hs Hp Hgap Hz Hsub Hrest. assert (Hl : length (pre k j) = j) by (apply length_pre; lia).
  apply wp_bind. eapply wp_lift; [rewrite Eseq; apply item_node_ok|]. apply wp_bind, wp_make_shared.
  set (p1 := pre k j ++ [nib (mTag it) j]). set (s1 := store_alloc s (leaf_of it)). set (g1 := add_ghost g p1).
  assert (He : edits v k j s g s1 g1) by (by apply alloc_edits, (seq_nonzero v Hv)).
  assert (Hown1 : owned v g1 l (pre k j)) by (by eapply prefix_lookup_Some, ed_prefix).
  assert (Hn1 : cells s1 !! l = Some n) by (by apply lookup_app_l_Some). apply wp_bind. eapply wp_mono.
  { apply (set_child_gap_ok v k j s1 g1 l n (pre k j) (nib (mTag it) j) m0); try done.
    - apply He.
    - apply on_path_pre; lia.
    - by apply alloc_gap; [..|apply (seq_nonzero v Hv)|].
    - by apply nib_range.
    - cbn [attached]. rewrite Hl, Hsub. split_and!; [|apply map_non_empty_singleton|exists (leaf_of it); split; [apply alloc_cell|done]].
      apply new_leaf; [done|by destruct (pre k j)|unfold p1; rewrite length_app, Hl; cbn; lia|].
      intros k' x [<- _]%lookup_singleton_Some. split; [done|]. apply snoc_path; rewrite Hl; done. }
  intros changed s2 (_ & n' & -> & Hs' & Hrep). apply (Hrest _ g1 n').
  - eapply (edits_trans v k j j); [lia|exact He|]. eapply write_edits; [apply He|done|done|apply on_path_pre; lia|done].
  - cbn. apply list_lookup_insert_eq. by eapply lookup_lt_Some.
  - done.
  - congruence.
  - done.
Qed.

Lemma add_at_leaf_ok t0 t s g st d l id n :
  object_ok v t -> ghost_ok s g -> (st <> [] -> root t = root t0) -> id_at id d -> (0 < d <= 64)%nat ->
  cells s !! l = Some n -> owned v g l (pre k d) -> mSeq n = v_seq v -> mItem n = Some other ->
  holes v k m' (root t0) s g st d -> shared d ->
  (forall j', (0 < j' < d)%nat -> (2 <= size (below (pre k j') m'))%nat) ->
  wp (add_at_leaf t item (v_type v) l id st) s (fun t' s' => exists g', edits v k 0 s g s' g' /\
    t' = with_root t (root t') /\ lrep s' g' v (root t') [] m').
Proof.
  intros Ht Hg Hrt Hid Hd Hn Hown Hs Hi Hst Hsh Hsize. unfold add_at_leaf.
  pose proof (keys_part d ltac:(lia) Hsh) as Hd64.
  apply wp_bind, (wp_deref _ n); [done|]. apply wp_bind. eapply wp_lift; [unfold item_of; by rewrite Hi|].
  assert (makeInner n = blank) as -> by (unfold blank, makeInner; by rewrite Hs).
  apply wp_bind, wp_assign.
  assert (He : edits v k d s g (store_write s l blank) g) by (eapply write_edits; [done|done|done|apply on_path_pre; lia|done]).
  apply wp_bind. eapply wp_mono.
  { apply (split_loop_ok (root t0) depth_fuel t _ g l id st d); try done; [apply He|lia|unfold depth_fuel; lia| |].
    - cbn. apply list_lookup_insert_eq. by eapply lookup_lt_Some.
    - by eapply (holes_edits v k m' _ s g _ g st d d); [|exact He|]. }
  intros [[[l1 b1] b2] st1] s1 (g1 & j & Hj & He1 & -> & -> & Hb & Hl1 & Ho1 & Hst1 & Hshj & Hall).
  assert (Hj64 : (j < 64)%nat) by lia. destruct (first_gap s1 g1 j Hj64 Hshj Hb) as [Hg1 Hz1].
  eapply (put_leaf_ok _ _ t s1 g1 l1 blank j {[mTag item := mData item]} item); try done; [apply He1| |].
  { replace j with (length (pre k j)) at 1 by (apply length_pre; lia). rewrite single_sub, length_pre by lia. by rewrite decide_True. }
  intros s2 g2 n2 He2 Hn2 Ho2 Hs2 Hrep2.
  eapply (put_leaf_ok _ _ t s2 g2 l1 n2 j (below (pre k j) m') other); try done; [apply He2|apply Hshj|by apply second_gap| | |].
  { by apply (zero_ok_target v k m' ms Hnc Hm'). }
  { rewrite parted_sub, decide_False, decide_True; try done; by apply nib_range. }
  intros s3 g3 n3 He3 Hn3 Ho3 Hs3 Hrep3. eapply wp_mono.
  { apply (finish_ok t0 t s3 g3 st1 j l1 n3); try done; [apply He3| | | |].
    - intros Hne1. apply Hrt. intros ->. cbn in Hst. lia.
    - intros ->. cbn in Hst1. lia.
    - eapply holes_edits; [done|exact He3|]. by eapply holes_edits; [done|exact He2|].
    - intros j' Hj'. destruct (decide (j' < d)%nat); [apply Hsize; lia|]. apply shared_size; [lia|]. apply Hall. lia. }
  intros t' s4 (g4 & He4 & Et & Hfin). exists g4. split_and!; [|done|done].
  eapply edits_trans; [|exact He|]; [lia|]. eapply edits_trans; [|exact He1|]; [lia|].
  eapply edits_trans; [|exact He2|]; [lia|]. eapply edits_trans; [|exact He3|exact He4]. lia.
Qed.

End Split.


(** ** The whole operation *)

(** The map [t'] is [t] with a root that represents [mn]. *)
Definition wrote s g t t' mn s' : Prop :=
  exists g', evolves s g s' g' /\ t' = with_root t (root t') /\ lrep s' g' v (root t') [] mn.

Lemma wrote_after s g s1 g1 t t1 t' mn s' :
  evolves s g s1 g1 -> t1 = with_root t (root t1) ->
  (exists g', edits v k 0 s1 g1 s' g' /\ t' = with_root t1 (root t') /\ lrep s' g' v (root t') [] mn) ->
  wrote s g t t' mn s'.
Proof.
  intros He Et1 (g' & He' & Et & Hrep). exists g'. split_and!; [|by rewrite Et, Et1 at 1|done].
  eapply evolves_trans; [exact He|by eapply edits_evolves].
Qed.

Lemma target_sizes t s g st d :
  path_stack t v s g m k st d -> forall j, (0 < j < d)%nat -> (2 <= size (below (pre k j) m'))%nat.
Proof.
  intros Hst j Hj. etrans; [by eapply (path_sizes t s g m k st d)|]. apply size_agree; [by left|apply add_agree].
Qed.

Lemma add_leaf_case t s g st d l id n isTransaction hasMeta :
  object_ok v t -> ghost_ok s g -> id_at id d -> (d <= 64)%nat -> lrep s g v l (pre k d) (below (pre k d) m) ->
  (d = 0%nat -> l = root t) -> path_stack t v s g m k st d -> cells s !! l = Some n ->
  leaf_rep v n (pre k d) (below (pre k d) m) -> leaf_type isTransaction hasMeta = v_type v ->
  wp ('(node, t) ← unshareNode t l id; n ← deref node;
      t ← (if isInner n then add_at_inner t item (leaf_type isTransaction hasMeta) node id st
           else add_at_leaf t item (leaf_type isTransaction hasMeta) node id st);
      mret (true, t)) s (fun '(b, t') s' => b = true /\ wrote s g t t' m' s').
Proof.
  intros Ht Hg Hid Hd Hrep Hroot Hst Hn Hleaf ->.
  pose proof Hleaf as (other & Hty & Hi & Hp & _ & Hb & Hu & _).
  assert (Hd0 : (0 < d)%nat) by (destruct d; [by destruct Hp|lia]).
  assert (Hin : below (pre k d) m !! mTag other = Some (mData other)) by (rewrite Hb; apply lookup_singleton_eq).
  destruct (Hu _ _ Hin) as [Hkey Hpre]. rewrite length_pre in Hpre by done.
  apply below_lookup in Hin as [Hin _]. assert (Hne : mTag other <> k) by (intros E; unfold k in E; congruence).
  destruct (leafy_leaf v Hv _ _ _ Hleaf) as (_ & Hni & _).
  apply wp_bind. eapply wp_mono.
  { apply (unshareNode_ok v Hv Hmut k t s g l id n (pre k d)); try done; [apply Hrep| |].
    - intros E. unfold isInner in Hni. by rewrite bool_decide_eq_true_2 in Hni.
    - rewrite (root_depth _ _ Hid), Nat.eqb_eq. auto. }
  intros [l1 t1] s1 (g1 & n1 & He & Hn1 & Ho1 & Hs1 & Hc & -> & Hkeep).
  rewrite (root_depth _ _ Hid), (proj2 (Nat.eqb_neq d 0)) by lia.
  pose proof Hc as (_ & Et1 & Ei1 & _). apply wp_bind, (wp_deref _ n1); [done|].
  assert (isInner n1 = false) as -> by (unfold isInner in *; by rewrite Et1).
  apply wp_bind. eapply wp_mono.
  { apply (add_at_leaf_ok other Hkey Hne t t s1 g1 st d l1 id n1); try done; [apply (He 0%nat)|congruence| |].
    - eapply (holes_edits v k m' _ s g s1 g1 st d d); [done|apply He|].
      by apply (path_holes v Hv k Hk m' ms Hnc Hm' Hok' m Hm Hok add_agree add_differ).
    - by eapply target_sizes. }
  intros t' s2 Hw. apply wp_ret. split; [done|]. eapply (wrote_after s g s1 g1 t t); [by eapply edits_evolves, (He 0%nat)|by destruct t|done].
Qed.

Lemma add_inner_case t s g st d l id n isTransaction hasMeta :
  object_ok v t -> ghost_ok s g -> id_at id d -> (d <= 64)%nat -> lrep s g v l (pre k d) (below (pre k d) m) ->
  (d = 0%nat -> l = root t) -> path_stack t v s g m k st d -> cells s !! l = Some n ->
  mType n = tnINNER -> below (pre k (S d)) m = ∅ -> leaf_type isTransaction hasMeta = v_type v ->
  wp ('(node, t) ← unshareNode t l id; n ← deref node;
      t ← (if isInner n then add_at_inner t item (leaf_type isTransaction hasMeta) node id st
           else add_at_leaf t item (leaf_type isTransaction hasMeta) node id st);
      mret (true, t)) s (fun '(b, t') s' => b = true /\ wrote s g t t' m' s').
Proof.
  intros Ht Hg Hid Hd Hrep Hroot Hst Hn Hty Hb ->.
  destruct (lrep_inner _ _ v l _ _ n Hv Hrep Hn Hty) as (Hsz & Hu & inner & Hsk & _).
  assert (Hd64 : (d < 64)%nat) by (pose proof (sk_len _ _ _ Hsk) as H; by rewrite length_pre in H).
  pose proof (path_holes v Hv k Hk m' ms Hnc Hm' Hok' m Hm Hok add_agree add_differ t s g st d Hst Hd) as Hh.
  apply wp_bind. eapply wp_mono.
  { apply (unshare_entry_ok v Hv Hmut k m' t (root t) s g l id n d); try done.
    by eapply (entry_hole v Hv k Hk m' ms Hnc Hm' Hok' m Hm Hok add_agree add_differ). }
  intros [l1 t1] s1 (g1 & He & Hready & Et1 & Hkeep). pose proof Hready as (n1 & Hn1 & _ & _ & (inner1 & Hsk1 & _) & _).
  apply wp_bind, (wp_deref _ n1); [done|].
  assert (isInner n1 = true) as -> by (unfold isInner; by rewrite bool_decide_eq_true_2 by apply Hsk1).
  apply wp_bind. eapply wp_mono.
  { apply (add_at_inner_ok t t1 s1 g1 st d l1 id); try done.
    - rewrite Et1. by destruct (d =? 0)%nat.
    - apply (He 0%nat).
    - intros Hst0. rewrite Et1. destruct (Nat.eqb_spec d 0) as [->|]; [|done]. destruct st as [|[? ?] ?]; done.
    - intros ->. cbn in Hst. rewrite Et1, Hst. done.
    - eapply (holes_edits v k m' _ s g s1 g1 st d d); [done|apply He|done].
    - intros j Hj. destruct (decide (j = d)) as [->|]; [|eapply target_sizes; [exact Hst|lia]].
      etrans; [|apply size_agree; [by left|apply add_agree]]. destruct Hsz as [E|?]; [|done]. destruct d; [lia|done]. }
  intros t' s2 Hw. apply wp_ret. split; [done|]. eapply (wrote_after s g s1 g1 t t1); [by eapply edits_evolves, (He 0%nat)| |done].
  rewrite Et1. destruct t. by destruct (d =? 0)%nat.
Qed.

Lemma addGiveItem_new t s g isTransaction hasMeta :
  object_ok v t -> ghost_ok s g -> lrep s g v (root t) [] m -> leaf_type isTransaction hasMeta = v_type v ->
  wp (addGiveItem t item isTransaction hasMeta) s (fun '(b, t') s' => b = true /\ wrote s g t t' m' s').
Proof.
  intros Ht Hg Hrep Hty. unfold addGiveItem. apply wp_bind.
  eapply wp_mono; [by apply (getStack_ok t v Hv (proj1 Ht) k m s g)|].
  intros st s1 (g1 & d & l & id & tl & Hgr & -> & Hd & Hid & Hl & Hroot & Htl & n & Hn & Hend).
  apply wp_bind, (wp_deref _ n); [done|]. eapply wp_mono with (Q := fun '(b, t') s' => b = true /\ wrote s1 g1 t t' m' s').
  - destruct Hend as [Hleaf|(Hin & Hrepn & Hb)].
    + destruct (leafy_leaf v Hv _ _ _ Hleaf) as (-> & _). pose proof Hleaf as (other & _ & -> & _ & _ & E & _).
      assert (mTag other <> k) as Hne.
      { intros E'. pose proof (below_own m k d Hd) as H. rewrite E, <- E', lookup_singleton_eq in H. unfold k in E'. congruence. }
      rewrite bool_decide_eq_false_2 by done. cbn [andb]. apply (add_leaf_case t s1 g1 tl d l id n); try done. apply Hgr.
    + destruct (inner_not_leaf v _ _ _ _ _ Hrepn) as (-> & _). cbn [andb].
      apply (add_inner_case t s1 g1 tl d l id n); try done. apply Hgr.
  - intros [b t'] s2 (-> & g2 & Hev & Et & Hfin). split; [done|]. exists g2. split_and!; try done.
    eapply evolves_trans; [by apply grows_evolves|done].
Qed.

End Insert.


(** The stack of a key that is, or is not, in the map. *)
Definition same_key (n : SHAMapTreeNode) (k : uint256) : bool :=
  match mItem n with Some i => bool_decide (mTag i = k) | None => false end.

Lemma stack_top m s g k l d n :
  (d <= 64)%nat -> stack_end v s g m k l d -> cells s !! l = Some n ->
  (isLeaf n = true /\ mItem n = Some {| mTag := k; mData := default [] (m !! k) |} /\ same_key n k = true /\
     mType n = v_type v /\ leaf_rep v n (pre k d) (below (pre k d) m) /\ is_Some (m !! k)) \/
  ((isLeaf n = false \/ same_key n k = false) /\ m !! k = None).
Proof.
  intros Hd (n' & Hn' & Hend) Hn. assert (n' = n) as -> by congruence. destruct Hend as [Hleaf|(_ & Hin & Hb)].
  - pose proof Hleaf as (item & Ht & Hi & _ & _ & E & _). destruct (leafy_leaf v Hv _ _ _ Hleaf) as (Hl & _).
    unfold same_key. rewrite Hi. pose proof (below_own m k d Hd) as H. rewrite E in H. case_bool_decide as Etag.
    + subst k. rewrite lookup_singleton_eq in H. left. rewrite <- H. split_and!; try done. by destruct item.
    + right. split; [auto|]. by rewrite <- H, lookup_singleton_ne.
  - right. destruct (inner_not_leaf v _ _ _ _ _ Hin) as (? & _). split; [auto|].
    assert (Hd64 : (S d <= 64)%nat).
    { destruct Hin as (inner & [_ _ _ Hlen _ _ _ _] & _). rewrite length_pre in Hlen; lia. }
    by rewrite <- (below_own m k (S d) Hd64), Hb, lookup_empty.
Qed.

Lemma wrote_same s g s1 g1 t m :
  grows s g s1 g1 -> lrep s g v (root t) [] m -> wrote s g t t m s1.
Proof.
  intros Hgr Hrep. exists g1. split_and!; [by apply grows_evolves|by destruct t|by apply (gr_rep _ _ _ _ Hgr)].
Qed.

Lemma addGiveItem_present item m t s g isTransaction hasMeta :
  object_ok v t -> ghost_ok s g -> lrep s g v (root t) [] m -> is_uint256 (mTag item) -> is_Some (m !! mTag item) ->
  wp (addGiveItem t item isTransaction hasMeta) s (fun '(b, t') s' => b = false /\ t' = t /\ wrote s g t t' m s').
Proof.
  intros Ht Hg Hrep Hk [y Hy]. unfold addGiveItem. apply wp_bind.
  eapply wp_mono; [by apply (getStack_ok t v Hv (proj1 Ht) (mTag item) m s g)|].
  intros st s1 (g1 & d & l & id & tl & Hgr & -> & Hd & Hid & Hl & Hroot & Htl & Hend).
  pose proof Hend as (n & Hn & _). apply wp_bind, (wp_deref _ n); [done|].
  destruct (stack_top m s1 g1 (mTag item) l d n Hd Hend Hn) as [(-> & _ & Hsame & _)|[_ E]]; [|congruence].
  unfold same_key in Hsame. rewrite Hsame. cbn [andb]. apply wp_ret. split_and!; [done|done|]. by eapply wrote_same.
Qed.


Lemma updateGiveItem_absent item m t s g isTransaction hasMeta :
  object_ok v t -> ghost_ok s g -> lrep s g v (root t) [] m -> is_uint256 (mTag item) -> m !! mTag item = None ->
  wp (updateGiveItem t item isTransaction hasMeta) s (fun '(b, t') s' => b = false /\ t' = t /\ wrote s g t t' m s').
Proof.
  intros Ht Hg Hrep Hk Hnone. unfold updateGiveItem. apply wp_bind.
  eapply wp_mono; [by apply (getStack_ok t v Hv (proj1 Ht) (mTag item) m s g)|].
  intros st s1 (g1 & d & l & id & tl & Hgr & -> & Hd & Hid & Hl & Hroot & Htl & Hend).
  pose proof Hend as (n & Hn & _). apply wp_bind, (wp_deref _ n); [done|].
  destruct (stack_top m s1 g1 (mTag item) l d n Hd Hend Hn) as [(_ & _ & _ & _ & _ & [x E])|[Hno _]]; [congruence|].
  assert (negb (isLeaf n) || negb (same_key n (mTag item)) = true) as E.
  { destruct Hno as [-> | ->]; [done|apply orb_true_r]. }
  unfold same_key in E. rewrite E. apply wp_ret. split_and!; [done|done|]. by eapply wrote_same.
Qed.


(** ** Updating *)

Section Update.
Context (item : SHAMapItem) (m : kmap) (ms : list kmap) (y : Blob).
Let k := mTag item.
Let m' := <[mTag item := mData item]> m.
Context (Hk : is_uint256 (mTag item)) (Hold : m !! mTag item = Some y).
Context (Hnc : no_collision (v_type v) ms) (Hm : m ∈ ms) (Hm' : m' ∈ ms).
Context (Hok : map_ok (v_type v) m) (Hok' : map_ok (v_type v) m').

Lemma below_update d : (d <= 64)%nat -> below (pre k d) m = {[k := y]} -> below (pre k d) m' = {[k := mData item]}.
Proof.
  intros Hd E. apply map_eq. intros k'. destruct (decide (k' = k)) as [->|Hne].
  - rewrite below_own by done. unfold m', k. by rewrite lookup_insert_eq, lookup_singleton_eq.
  - rewrite lookup_singleton_ne by done. rewrite <- (lookup_singleton_ne k k' y), <- E by done.
    apply option_eq. intros x. unfold m'. by rewrite !below_lookup, lookup_insert_ne.
Qed.

(** The leaf with its new item. *)
Definition new_item n : SHAMapTreeNode :=
  {| mHash := sha512half (leaf_pre (v_type v) (mTag item) (mData item)); mItem := Some item; mSeq := mSeq n;
     mType := v_type v; mInner := mInner n |}.

Lemma setItem_ok n : setItem n item (v_type v) = Ok (new_item n, negb (bool_decide (mHash (new_item n) = mHash n))).
Proof.
  unfold setItem, updateHash. rewrite (leaf_node_hash _ item) by done. cbn [mbind result_bind mHash new_item].
  case_bool_decide as E; [|done]. unfold new_item. by rewrite E.
Qed.

Lemma set_item_ok l n s (Q : bool -> Store -> Prop) :
  cells s !! l = Some n -> Q (negb (bool_decide (mHash (new_item n) = mHash n))) (store_write s l (new_item n)) ->
  wp (set_item l item (v_type v)) s Q.
Proof.
  intros Hn HQ. unfold set_item. apply wp_bind, (wp_deref _ n); [done|].
  apply wp_bind. eapply wp_lift; [apply setItem_ok|]. exact HQ.
Qed.

Lemma leaf_hash_differs d : (0 < d <= 64)%nat -> below (pre k d) m = {[k := y]} -> mData item <> y ->
  sha512half (leaf_pre (v_type v) k (mData item)) <> sha512half (leaf_pre (v_type v) k y).
Proof.
  intros Hd E Hne H. pose proof (below_update d ltac:(lia) E) as E'.
  rewrite <- !(canon_hash_leaf (v_type v) d) in H by done.
  assert (Hl : length (pre k d) = d) by (apply length_pre; lia).
  pose proof (canon_hash_inj (v_type v) ms Hnc (pre k d) m' m Hm' Hm Hok' Hok ltac:(lia)) as Hinj.
  rewrite E, E', Hl in Hinj. specialize (Hinj H). apply (f_equal (fun M : kmap => M !! k)) in Hinj.
  rewrite !lookup_singleton_eq in Hinj. congruence.
Qed.

Lemma new_item_rep n p : p <> [] -> (length p <= 64)%nat -> under p {[mTag item := mData item]} ->
  leaf_rep v (new_item n) p {[mTag item := mData item]}.
Proof. intros. by exists item. Qed.

Lemma update_up t s1 g1 s2 g2 tl d l1 n2 :
  object_ok v t -> path_stack t v s1 g1 m k tl d -> (forall d, edits v k d s1 g1 s2 g2) -> (0 < d)%nat -> (d <= 64)%nat ->
  cells s2 !! l1 = Some n2 -> owned v g2 l1 (pre k d) -> mSeq n2 = v_seq v ->
  below (pre k d) m = {[k := y]} -> mData item <> y ->
  wp (dirtyUp t tl k l1) (store_write s2 l1 (new_item n2)) (fun t' s' => exists g', edits v k 0 s2 g2 s' g' /\
    t' = with_root t (root t') /\ lrep s' g' v (root t') [] m').
Proof.
  intros Ht Htl He Hd0 Hd Hn2 Ho2 Hs2 Hb Ey. pose proof (below_update d Hd Hb) as Hb'.
  assert (He2 : edits v k d s2 g2 (store_write s2 l1 (new_item n2)) g2)
    by (eapply write_edits; [apply (He 0%nat)|done|done|apply on_path_pre; lia|done]).
  assert (Hcell : cells (store_write s2 l1 (new_item n2)) !! l1 = Some (new_item n2))
    by (cbn; apply list_lookup_insert_eq; by eapply lookup_lt_Some).
  assert (Hag : forall k', k' <> k -> m' !! k' = m !! k') by (intros; by apply lookup_insert_ne).
  assert (Hm'k : m' !! k = Some (mData item)) by apply lookup_insert_eq.
  eapply wp_mono; [apply (dirtyUp_ok v Hv Hmut k Hk m' ms Hnc Hm' (root t) tl t _ g2 d l1); try done|].
  - apply He2.
  - intros ->. cbn in Htl. lia.
  - eapply (holes_edits v k m' _ s2 g2 _ _ tl d d); [done|exact He2|].
    eapply (holes_edits v k m' _ s1 g1 _ _ tl d d); [done|apply He|].
    apply (path_holes v Hv k Hk m' ms Hnc Hm' Hok' m Hm Hok); try done. rewrite Hm'k. unfold k. congruence.
  - rewrite Hb'. split; [by eapply (owned_usable v Hv Hmut)|]. exists (new_item n2). split; [done|].
    apply rep_intro_leaf, new_item_rep; [by destruct d; [lia|]|rewrite length_pre; lia|].
    intros k' x [<- _]%lookup_singleton_Some. split; [done|]. by rewrite length_pre.
  - intros j Hj. etrans; [by eapply (path_sizes t s1 g1 m k tl d)|]. apply size_agree; [rewrite Hm'k; eauto|done].
  - rewrite Hb'. apply map_non_empty_singleton.
  - intros t' s3 (g3 & He3 & Et3 & Hfin). exists g3. split_and!; [|done|done].
    eapply edits_trans; [|exact He2|exact He3]. lia.
Qed.

Lemma updateGiveItem_present t s g isTransaction hasMeta :
  object_ok v t -> ghost_ok s g -> lrep s g v (root t) [] m -> leaf_type isTransaction hasMeta = v_type v ->
  wp (updateGiveItem t item isTransaction hasMeta) s (fun '(b, t') s' => b = true /\ wrote s g t t' m' s').
Proof.
  intros Ht Hg Hrep Hty. unfold updateGiveItem. apply wp_bind.
  eapply wp_mono; [by apply (getStack_ok t v Hv (proj1 Ht) (mTag item) m s g)|].
  intros st s1 (g1 & d & l & id & tl & Hgr & -> & Hd & Hid & Hl & Hroot & Htl & Hend).
  pose proof Hend as (n & Hn & _). apply wp_bind, (wp_deref _ n); [done|].
  destruct (stack_top m s1 g1 (mTag item) l d n Hd Hend Hn) as [(Hlf & Hi & Hsame & Htn & Hleaf & _)|[_ E]]; [|congruence].
  rewrite Hold in Hi. unfold same_key in Hsame. rewrite Hlf, Hsame, Hty. cbn [negb orb].
  pose proof Hleaf as (item0 & _ & Hi0 & Hp & _ & Hb & _ & Hhn). rewrite Hi in Hi0. injection Hi0 as <-. cbn [mTag mData default] in *.
  assert (Hd0 : (0 < d)%nat) by (destruct d; [by destruct Hp|lia]).
  apply wp_bind. eapply wp_mono.
  { apply (unshareNode_ok v Hv Hmut k t s1 g1 l id n (pre k d)); try done; [apply Hgr|apply Hl| |].
    - intros E. destruct (leafy_leaf v Hv _ _ _ Hleaf) as (_ & Hni & _). unfold isInner in Hni. by rewrite bool_decide_eq_true_2 in Hni.
    - rewrite (root_depth _ _ Hid), Nat.eqb_eq. auto. }
  intros [l1 t1] s2 (g2 & n2 & He & Hn2 & Ho2 & Hs2 & (Eh & Et & Ei & _) & -> & Hkeep).
  rewrite (root_depth _ _ Hid), (proj2 (Nat.eqb_neq d 0)) by lia.
  assert (Hev : evolves s g s2 g2) by (eapply evolves_trans; [by apply grows_evolves|by eapply edits_evolves, (He 0%nat)]).
  apply wp_bind, (set_item_ok l1 n2); [done|]. rewrite Eh, Hhn. cbn [mHash new_item].
  destruct (decide (mData item = y)) as [Ey|Ey].
  - rewrite bool_decide_eq_true_2 by (by rewrite <- Ey). cbn [negb]. apply wp_ret. split; [done|].
    assert (new_item n2 = n2) as ->.
    { unfold new_item. destruct n2 as [h2 i2 q2 ty2 in2]. cbn in *. rewrite Eh, Et, Ei, Hhn, Hi, Htn, <- Ey. by destruct item. }
    assert (store_write s2 l1 n2 = s2) as -> by (unfold store_write; rewrite list_insert_id by done; by destruct s2).
    exists g2. split_and!; [done|by destruct t|]. unfold m'. rewrite Ey, insert_id by done.
    apply Hkeep. by apply (gr_rep _ _ _ _ Hgr).
  - rewrite bool_decide_eq_false_2 by (apply (leaf_hash_differs d); [lia|done|done]). cbn [negb].
    apply wp_bind. eapply wp_mono; [by apply (update_up t s1 g1 s2 g2 tl d l1 n2)|].
    intros t' s3 (g3 & He3 & Et3 & Hfin). apply wp_ret. split; [done|].
    exists g3. split_and!; [|done|done]. eapply evolves_trans; [exact Hev|by eapply edits_evolves].
Qed.
End Update.

End Add.
End SHAMapAdd.
