(* ===== verification/SHAMapDel.v ===== *)
(** * SHAMap: deleting an item

    [delItem] takes the leaf out and walks up its stack.  An inner node that is
    left with nothing below it goes too, and one that is left with a single item
    (which [onlyBelow] finds, loading nodes as needed) becomes the leaf of that
    item: the tree over the smaller map is again the canonical one. *)
From Stdlib Require Import ZArith Lia.
From S2P Require Import Prelude BaseUint Serializer SHAMapNode SHAMapSpec SHAMap SHAMapRep SHAMapReads SHAMapWrites SHAMapAdd.
From stdpp Require Import base numbers list gmap strings.
Import BaseUint Serializer SHAMapNode SHAMapSpec SHAMap SHAMapRep SHAMapReads SHAMapWrites SHAMapAdd.
Local Open Scope Z_scope.

Module SHAMapDel.

Section Del.
Context `{SHA : SHA512}.
Implicit Types (s : Store) (g : ghost) (w : view) (n : SHAMapTreeNode) (l c : loc) (p : path) (m : kmap) (i : Z) (d : nat) (t : SHAMap).

Context (v : view) (Hv : view_ok v) (Hmut : v_frozen v = false).

(** ** The only item below a node *)

Lemma sub_choose (d : nat) i m : sub d i m <> ∅ -> exists k x, m !! k = Some x /\ nib k d = i.
Proof. intros (k & x & Hx)%map_choose. exists k, x. by apply sub_lookup. Qed.

Lemma two_branches (d : nat) (i j : Z) m : i <> j -> sub d i m <> ∅ -> sub d j m <> ∅ -> (2 <= size m)%nat.
Proof.
  intros Hij (k1 & x1 & H1 & E1)%sub_choose (k2 & x2 & H2 & E2)%sub_choose.
  eapply (size_two m k1 k2); [congruence|done|done].
Qed.

Lemma one_branch p i m :
  under p m -> (length p < 64)%nat -> (forall j, 0 <= j < 16 -> j <> i -> sub (length p) j m = ∅) -> sub (length p) i m = m.
Proof.
  intros Hu Hp Hone. apply map_eq. intros k. apply option_eq. intros x. rewrite sub_lookup. split; [naive_solver|].
  intros Hk. split; [done|]. destruct (branch_of p m k x Hu Hp Hk) as [Hr Hs].
  destruct (decide (nib k (length p) = i)) as [|Hne]; [done|]. by rewrite Hone, lookup_empty in Hs.
Qed.

Lemma no_branch_empty p m :
  under p m -> (length p < 64)%nat -> (forall j, 0 <= j < 16 -> sub (length p) j m = ∅) -> m = ∅.
Proof. intros Hu Hp Hno. rewrite <- (one_branch p 0 m Hu Hp); [by apply Hno|auto]. Qed.

Section Only.
Context (t : SHAMap) (Hbk : mBacked t = v_backed v).

Lemma only_scan_some order s g l p m c :
  irep s g v l p m -> Forall (fun i => 0 <= i < 16) order ->
  wp (only_scan t l order (Some c)) s (fun o s' => s' = s /\
    match o with
    | None => exists j, j ∈ order /\ sub (length p) j m <> ∅
    | Some r => r = Some c /\ forall j, j ∈ order -> sub (length p) j m = ∅
    end).
Proof.
  intros [Hu (n & Hn & Hin)] Hr. induction Hr as [|i order Hi Hr IH]; cbn [only_scan].
  { apply wp_ret. split; [done|]. split; [done|]. set_solver. }
  apply wp_bind, (wp_deref _ n); [done|]. apply wp_bind. eapply wp_lift; [by apply (empty_branch v _ _ _ _ _ _ Hin)|].
  case_bool_decide as Hsub.
  - eapply wp_mono; [exact IH|]. intros o s' [-> Ho]. split; [done|]. destruct o as [r|].
    + destruct Ho as [-> Ho]. split; [done|]. intros j [->|?]%elem_of_cons; auto.
    + destruct Ho as (j & ? & ?). exists j. split; [set_solver|done].
  - apply wp_ret. split; [done|]. exists i. split; [set_solver|done].
Qed.

Lemma only_scan_none order : forall s g l p m,
  ghost_ok s g -> irep s g v l p m -> NoDup order -> Forall (fun i => 0 <= i < 16) order ->
  wp (only_scan t l order None) s (fun o s' => exists g', grows s g s' g' /\
    match o with
    | None => exists i j, i <> j /\ sub (length p) i m <> ∅ /\ sub (length p) j m <> ∅
    | Some None => forall j, j ∈ order -> sub (length p) j m = ∅
    | Some (Some c) => exists i, lrep s' g' v c (p ++ [i]) (sub (length p) i m) /\ 
        forall j, j ∈ order -> j <> i -> sub (length p) j m = ∅
    end).
Proof.
  induction order as [|i order IH]; intros s g l p m Hg Hrep Hnd Hr; cbn [only_scan].
  { apply wp_ret. exists g. split; [by apply grows_refl|]. set_solver. }
  apply NoDup_cons in Hnd as [Hni Hnd]. apply Forall_cons in Hr as [Hi Hr].
  pose proof Hrep as [_ (n & Hn & Hin)]. apply wp_bind, (wp_deref _ n); [done|].
  apply wp_bind. eapply wp_lift; [by apply (empty_branch v _ _ _ _ _ _ Hin)|]. case_bool_decide as Hsub.
  - eapply wp_mono; [by apply (IH s g l p m)|]. intros o s' (g' & Hgr & Ho). exists g'. split; [done|].
    destruct o as [[c|]|]; [|intros j [->|?]%elem_of_cons; auto|done].
    destruct Ho as (i0 & ? & Ho). exists i0. split; [done|]. intros j [->|?]%elem_of_cons; auto.
  - apply wp_bind. eapply wp_mono; [by apply (descend_inner_ok t s g v l p m n)|].
    intros c s1 (g1 & Hgr & Hc & _). eapply wp_mono.
    { apply (only_scan_some order s1 g1 l p m c); [by eapply grows_irep|done]. }
    intros o s2 [-> Ho]. exists g1. split; [done|]. destruct o as [r|].
    + destruct Ho as [-> Ho]. exists i. split; [done|]. intros j [->|?]%elem_of_cons; [done|auto].
    + destruct Ho as (j & Hj & ?). exists i, j. split_and!; [|done|done]. intros ->. done.
Qed.

Lemma branches_range : NoDup branches /\ Forall (fun i => 0 <= i < 16) branches.
Proof. split; by_decide. Qed.

(** The item of a map that has one. *)
Definition only_item m : option SHAMapItem := (fun kx => {| mTag := kx.1; mData := kx.2 |}) <$> only m.

Lemma only_item_two m : (2 <= size m)%nat -> only_item m = None.
Proof. intros H. unfold only_item. by rewrite (proj2 (only_None m)) by auto. Qed.

Lemma onlyBelow_loop_ok fuel : forall s g l p m,
  ghost_ok s g -> irep s g v l p m \/ lrep s g v l p m -> (65 <= length p + fuel)%nat ->
  wp (onlyBelow_loop t fuel l) s (fun o s' => exists g', grows s g s' g' /\ o = only_item m).
Proof.
  induction fuel as [|fuel IH]; intros s g l p m Hg Hrep Hf.
  { exfalso. destruct Hrep as [[_ (n & _ & inner & [] & _)]|Hrep]; [lia|].
    destruct (lrep_cases v _ _ _ _ _ Hrep) as (n & _ & [(item & _ & _ & _ & ? & _)|[_ (inner & [] & _)]]); lia. }
  cbn [onlyBelow_loop].
  assert (Hcase : exists n, cells s !! l = Some n /\ (leaf_rep v n p m \/ irep s g v l p m /\ inner_rep s g v n p m)).
  { destruct Hrep as [Hrep|Hrep]; [pose proof Hrep as [_ (n & Hn & Hin)]; eauto|].
    destruct (lrep_cases v _ _ _ _ _ Hrep) as (n & Hn & [?|[Ht Hin]]); [eauto|]. exists n. split; [done|right].
    split; [by apply (lrep_irep s g v l p m n)|done]. }
  destruct Hcase as (n & Hn & Hcase). apply wp_bind, (wp_deref _ n); [done|]. destruct Hcase as [Hleaf|[Hir Hin]].
  - destruct (leafy_leaf v Hv _ _ _ Hleaf) as (-> & _). cbn [negb]. apply wp_ret. exists g. split; [by apply grows_refl|].
    destruct Hleaf as (item & _ & -> & _ & _ & -> & _). unfold only_item. rewrite (proj2 (only_Some _ _ _) eq_refl).
    cbn. by destruct item.
  - destruct (inner_not_leaf v _ _ _ _ _ Hin) as (-> & _). cbn [negb]. pose proof branches_range as [Hnd Hr].
    pose proof Hin as (inner & Hsk & Hu & _). pose proof (sk_len _ _ _ Hsk) as Hp.
    apply wp_bind. eapply wp_mono; [by apply (only_scan_none branches s g l p m)|].
    intros o s1 (g1 & Hgr & Ho). destruct o as [[c|]|].
    + destruct Ho as (i & Hc & Hone). rewrite (one_branch p i m Hu Hp) in Hc by (intros; apply Hone; [by apply in_branches|done]).
      eapply wp_mono; [apply (IH s1 g1 c (p ++ [i]) m); [apply Hgr|by right|rewrite length_app; cbn; lia]|].
      intros o s2 (g2 & ? & ?). exists g2. split; [by eapply grows_trans|done].
    + apply wp_ret. exists g1. split; [done|].
      rewrite (no_branch_empty p m Hu Hp) by (intros; by apply Ho, in_branches). done.
    + apply wp_ret. exists g1. split; [done|]. destruct Ho as (i & j & Hij & H1 & H2).
      by rewrite only_item_two by (by eapply two_branches).
Qed.

Lemma onlyBelow_ok s g l p m :
  ghost_ok s g -> irep s g v l p m -> wp (onlyBelow t l) s (fun o s' => exists g', grows s g s' g' /\ o = only_item m).
Proof. intros Hg Hrep. apply (onlyBelow_loop_ok depth_fuel s g l p m); [done|by left|unfold depth_fuel; lia]. Qed.
End Only.

(** ** Counting branches *)

Lemma branch_count_ok s g n p m :
  inner_rep s g v n p m -> exists (bc : Z), getBranchCount n = Ok bc /\ (bc = 0 <-> m = ∅) /\ (2 <= bc -> (2 <= size m)%nat).
Proof.
  intros Hin. pose proof Hin as (inner & Hsk & Hu & _). pose proof (sk_len _ _ _ Hsk) as Hp.
  unfold getBranchCount, inner_of. rewrite (sk_inner _ _ _ Hsk). cbn [mbind result_bind]. eexists. split; [done|].
  assert (Hbr : forall i, 0 <= i < 16 -> is_branch inner i = true <-> sub (length p) i m <> ∅).
  { intros i Hi. pose proof (empty_branch v s g n p m i Hin Hi) as H. unfold isEmptyBranch, inner_of in H.
    rewrite (sk_inner _ _ _ Hsk) in H. cbn in H. injection H as H. destruct (is_branch inner i); cbn in H.
    - symmetry in H. apply bool_decide_eq_false in H. done.
    - symmetry in H. apply bool_decide_eq_true in H. naive_solver. }
  pose proof branches_range as [Hnd _]. apply (NoDup_filter (fun i => is_branch inner i = true)) in Hnd.
  assert (Hel : forall i, i ∈ filter (fun i => is_branch inner i = true) branches <-> 0 <= i < 16 /\ sub (length p) i m <> ∅).
  { intros i. rewrite list_elem_of_filter, in_branches. split; [intros [? ?]|intros [? ?]]; split; try done; by apply Hbr. }
  destruct (filter _ branches) as [|a [|b rest]]; cbn [length].
  - split; [|lia]. split; [|done]. intros _. apply (no_branch_empty p m Hu Hp). intros j Hj.
    destruct (decide (sub (length p) j m = ∅)) as [|Hne]; [done|]. pose proof (proj2 (Hel j) (conj Hj Hne)) as Hin'. by apply not_elem_of_nil in Hin'.
  - split; [|lia]. split; [lia|]. intros ->. destruct (proj1 (Hel a)) as [_ []]; [set_solver|]. apply map_filter_empty.
  - assert (Ha : sub (length p) a m <> ∅) by (apply Hel; set_solver).
    assert (Hb : sub (length p) b m <> ∅) by (apply Hel; set_solver).
    split; [split; [lia|]|].
    + intros ->. destruct Ha. apply map_filter_empty.
    + intros _. eapply two_branches; [|exact Ha|exact Hb]. apply NoDup_cons in Hnd as [Hnd _]. set_solver.
Qed.

(** ** Pulling an item up *)

Lemma setChild_total n (inner : InnerData) b h child :
  mType n = tnINNER -> mInner n = Some inner ->
  exists n' changed, setChild n b h child = Ok (n', changed) /\ mSeq n' = mSeq n.
Proof.
  intros Ht Hin. unfold setChild, inner_of. rewrite Hin. cbn [mbind result_bind].
  case_bool_decide; [eauto|]. unfold updateHash, node_hash. cbn [with_inner mType]. rewrite Ht.
  unfold inner_of. cbn. case_bool_decide; eexists _, _; done.
Qed.

Lemma clear_first_ok order s g l p m n :
  cells s !! l = Some n -> inner_rep s g v n p m -> Forall (fun i => 0 <= i < 16) order ->
  wp (clear_first l order) s (fun _ s' => exists n', s' = store_write s l n' /\ mSeq n' = mSeq n).
Proof.
  intros Hn Hin Hr. induction Hr as [|i order Hi Hr IH]; cbn [clear_first].
  { apply wp_ret. exists n. split; [|done]. unfold store_write. rewrite list_insert_id by done. by destruct s. }
  apply wp_bind, (wp_deref _ n); [done|]. apply wp_bind. eapply wp_lift; [by apply (empty_branch v _ _ _ _ _ _ Hin)|].
  case_bool_decide; [done|]. pose proof Hin as (inner & Hsk & _).
  destruct (setChild_total n inner i zero256 None) as (n' & ch & Hset & Hs); [apply Hsk|apply Hsk|].
  unfold set_child. apply wp_bind, wp_bind, (wp_deref _ n); [done|]. apply wp_bind. eapply wp_lift; [exact Hset|].
  exists n'. done.
Qed.

Lemma store_write_twice s l n n' : store_write (store_write s l n) l n' = store_write s l n'.
Proof. unfold store_write. cbn. by rewrite list_insert_insert_eq. Qed.

(** The inner node [l] becomes the leaf of the only item below it. *)
Lemma pull_up_ok s g k d l n p (item : SHAMapItem) :
  ghost_ok s g -> cells s !! l = Some n -> owned v g l p -> on_path k d p -> mSeq n = v_seq v ->
  inner_rep s g v n p {[mTag item := mData item]} -> p <> [] ->
  wp (_ ← clear_first l branches; _ ← set_item l item (v_type v); mret tt) s (fun _ s' => edits v k d s g s' g /\
    lrep s' g v l p {[mTag item := mData item]}).
Proof.
  intros Hg Hn Ho Hp Hs Hin Hne. pose proof branches_range as [_ Hr].
  pose proof Hin as (inner & Hsk & Hu & _). pose proof (sk_len _ _ _ Hsk) as Hl.
  apply wp_bind. eapply wp_mono; [by apply (clear_first_ok branches s g l p {[mTag item := mData item]} n)|]. intros [] s1 (n1 & -> & Hs1).
  assert (Hc : cells (store_write s l n1) !! l = Some n1) by (cbn; apply list_lookup_insert_eq; by eapply lookup_lt_Some).
  apply wp_bind, (set_item_ok v Hv item l n1); [done|]. apply wp_ret. rewrite store_write_twice.
  assert (Hw : edits v k d s g (store_write s l (new_item v item n1)) g) by (by eapply write_edits).
  split; [done|].
  assert (Hc2 : cells (store_write s l (new_item v item n1)) !! l = Some (new_item v item n1))
    by (cbn; apply list_lookup_insert_eq; by eapply lookup_lt_Some).
  split; [eapply (owned_usable v Hv Hmut); [done|done|cbn; congruence]|].
  eexists. split; [done|]. apply rep_intro_leaf, new_item_rep; [done|lia|done].
Qed.

Lemma only_item_Some m item : only_item m = Some item -> m = {[mTag item := mData item]}.
Proof.
  unfold only_item. destruct (only m) as [[k x]|] eqn:E; [|done]. intros [= <-]. by apply only_Some.
Qed.

(** One entry of the walk up, not the root, after its branch was set. *)
Lemma settle_ok t s g k d l p m n :
  object_ok v t -> ghost_ok s g -> cells s !! l = Some n -> owned v g l p -> on_path k d p -> mSeq n = v_seq v ->
  inner_rep s g v n p m -> p <> [] -> m <> ∅ ->
  wp (item ← onlyBelow t l;
      match item with
      | Some item => _ ← clear_first l branches; _ ← set_item l item (v_type v); mret tt
      | None => mret tt
      end) s (fun _ s' => exists s1 g1, grows s g s1 g1 /\ edits v k d s1 g1 s' g1 /\ lrep s' g1 v l p m).
Proof.
  intros [Hbk _] Hg Hn Ho Hp Hs Hin Hpne Hmne.
  assert (Hir : irep s g v l p m) by (split; [by eapply (owned_usable v Hv Hmut)|eauto]).
  apply wp_bind. eapply wp_mono; [by apply (onlyBelow_ok t Hbk s g l p m)|]. intros o s1 (g1 & Hgr & ->).
  destruct (gr_cells _ _ _ _ Hgr l n Hn) as (n1 & Hn1 & (_ & _ & Hs1 & _)).
  assert (Ho1 : owned v g1 l p) by (by eapply prefix_lookup_Some, gr_prefix).
  pose proof (grows_irep _ _ _ _ v l p m Hgr Hv Hir) as [Hu1 (n1' & Hn1' & Hin1)]. assert (n1' = n1) as -> by congruence.
  destruct (only_item m) as [item|] eqn:E.
  - apply only_item_Some in E as ->. eapply wp_mono; [eapply (pull_up_ok s1 g1 k d l n1 p item); try done; [apply Hgr|congruence]|].
    intros _ s2 [? ?]. exists s1, g1. done.
  - apply wp_ret. exists s1, g1. split_and!; [done|by apply edits_refl, Hgr|]. split; [done|]. exists n1. split; [done|].
    apply rep_intro_inner; [done|]. right. unfold only_item in E. apply fmap_None, only_None in E as [?|?]; done.
Qed.

(** ** The walk up *)

Lemma wp_assoc {A B C} (c : M A) (f : A -> M B) (h : B -> M C) s (Q : C -> Store -> Prop) :
  wp (c ≫= f) s (fun b s' => wp (h b) s' Q) -> wp (a ← c; b ← f a; h b) s Q.
Proof. unfold wp, mbind, M_bind. destruct (c s) as [[a|e] s']; [|done]. by destruct (f a s') as [[b|e] s'']. Qed.

Lemma holes_grows k m' rt s g s' g' st : forall d,
  grows s g s' g' -> holes v k m' rt s g st d -> holes v k m' rt s' g' st d.
Proof.
  induction st as [|[l id] st IH]; intros [|d] Hgr; cbn [holes]; try done.
  intros (? & ? & Hu & ? & (n & Hn & (inner & Hsk & Hun & Hb & Hd) & Hh) & Hst).
  destruct (gr_branches _ _ _ _ Hgr v l n _ _ inner (fun i => i <> nib k d) Hv Hn Hu Hsk Hb)
    as (n' & inner' & Hn' & Hu' & Hsk' & E1 & E2 & _ & Hb').
  split_and!; [done|done|done|done| |by apply IH]. exists n'. split; [done|]. split; [|congruence].
  exists inner'. split_and!; [done|done|done|congruence].
Qed.

Section Delete.
Context (k : uint256) (Hk : is_uint256 k) (m : kmap) (ms : list kmap) (y : Blob).
Let m' := delete k m.
Context (Hold : m !! k = Some y).
Context (Hnc : no_collision (v_type v) ms) (Hm : m ∈ ms) (Hm' : m' ∈ ms).
Context (Hok : map_ok (v_type v) m) (Hok' : map_ok (v_type v) m').

(** What the next entry up is given to attach. *)
Definition offered s g (prevNode : option loc) (prevHash : uint256) d : Prop :=
  match prevNode with
  | Some c => lrep s g v c (pre k d) (below (pre k d) m') /\ below (pre k d) m' <> ∅ /\
      exists nc, cells s !! c = Some nc /\ mHash nc = prevHash
  | None => below (pre k d) m' = ∅ /\ prevHash = zero256
  end.

Lemma offered_attached s g prevNode prevHash j :
  (j < 64)%nat -> offered s g prevNode prevHash (S j) ->
  attached v s g prevNode prevHash (pre k j) (nib k j) (below (pre k j) m').
Proof.
  intros Hj. unfold offered, attached. by rewrite sub_target, <- take_nibbles_S.
Qed.

(** The walk from depth [d] on reaches a root for the target. *)
Definition walks_up rt st d : Prop :=
  forall t s g prevHash prevNode, object_ok v t -> ghost_ok s g -> (st <> [] -> root t = rt) -> holes v k m' rt s g st d ->
    (0 < d <= 64)%nat -> offered s g prevNode prevHash d ->
    wp (delItem_loop t k (v_type v) st prevHash prevNode) s (fun t' s' => wrote v s g t t' m' s').

Lemma wrote_later s g s1 g1 t t1 mn t' s' :
  evolves v s g s1 g1 -> t1 = with_root t (root t1) -> wrote v s1 g1 t1 t' mn s' -> wrote v s g t t' mn s'.
Proof.
  intros He Et (g' & He' & Et' & Hrep). exists g'. split_and!; [by eapply evolves_trans| |done].
  rewrite Et' at 1. by rewrite Et.
Qed.

(** An entry with [mn] below it that is not the root. *)
Lemma del_entry_ok rt st j t s g l n :
  walks_up rt st j -> object_ok v t -> ghost_ok s g -> (st <> [] -> root t = rt) -> holes v k m' rt s g st j ->
  (0 < j < 64)%nat -> cells s !! l = Some n -> owned v g l (pre k j) -> mSeq n = v_seq v ->
  inner_rep s g v n (pre k j) (below (pre k j) m') ->
  wp (n ← deref l; bc ← lift (getBranchCount n);
      if bc =? 0 then delItem_loop t k (v_type v) st zero256 None
      else if bc =? 1 then
        item ← onlyBelow t l;
        _ ← match item with
            | Some item => _ ← clear_first l branches; _ ← set_item l item (v_type v); mret tt
            | None => mret tt
            end;
        n ← deref l;
        delItem_loop t k (v_type v) st (mHash n) (Some l)
      else
        n ← deref l;
        delItem_loop t k (v_type v) st (mHash n) (Some l)) s (fun t' s' => wrote v s g t t' m' s').
Proof.
  intros IH Ht Hg Hrt Hst Hj Hn Ho Hs Hin. apply wp_bind, (wp_deref _ n); [done|].
  destruct (branch_count_ok _ _ _ _ _ Hin) as (bc & Hbc & Hz & H2). apply wp_bind. eapply wp_lift; [exact Hbc|].
  destruct (Z.eqb_spec bc 0) as [E|E]; [|destruct (Z.eqb_spec bc 1) as [E1|E1]].
  - apply IH; try done; [lia|]. split; [by apply Hz|done].
  - assert (Hpne : pre k j <> []) by (destruct j; [lia|done]).
    apply wp_assoc. eapply wp_mono.
    { apply (settle_ok t s g k j l (pre k j) (below (pre k j) m') n); try done; [apply on_path_pre; lia|].
      intros E'. by apply Hz in E'. }
    intros _ s2 (s1 & g1 & Hgr & He & Hrep). pose proof Hrep as [_ (n2 & Hn2 & _)].
    apply wp_bind, (wp_deref _ n2); [done|]. eapply wp_mono.
    { apply (IH t s2 g1 (mHash n2) (Some l)); try done; [apply He| |lia|].
      - eapply (holes_edits v k m' rt s1 g1 s2 g1 st j j); [done|done|]. by apply (holes_grows k m' rt s g).
      - split_and!; [done| |eauto]. intros E'. by apply Hz in E'. }
    intros t' s3 Hw. eapply (wrote_later s g s2 g1 t t); [|by destruct t|done].
    eapply evolves_trans; [by apply grows_evolves|by eapply edits_evolves].
  - apply wp_bind, (wp_deref _ n); [done|]. apply IH; try done; [lia|].
    assert (Hne : below (pre k j) m' <> ∅) by (intros E'; by apply Hz in E').
    split_and!; [|done|eauto]. split; [by eapply (owned_usable v Hv Hmut)|]. exists n. split; [done|].
    apply rep_intro_inner; [done|]. right. apply H2. unfold getBranchCount in Hbc.
    apply bind_Ok in Hbc as (inner & _ & [= <-]). lia.
Qed.

Lemma delItem_loop_ok rt st : forall d, walks_up rt st d.
Proof.
  induction st as [|[l id] st IH]; intros d t s g prevHash prevNode Ht Hg Hrt Hst Hd Hoff; [cbn in Hst; lia|].
  destruct d as [|j]; [lia|]. cbn [holes] in Hst. destruct Hst as (Hid & Hj & Hu & Hl & (n & Hn & Hhole) & Hst).
  cbn [delItem_loop]. apply wp_bind. eapply wp_mono; [by apply (unshare_entry_ok v Hv Hmut k m' t rt s g l id n j); auto|].
  intros [l1 t1] s1 (g1 & He & Hready & Et1 & Hkeep).
  apply wp_bind. eapply wp_option; [by apply (selectBranch_nib _ _ j); [apply Hid|..]|].
  assert (Hoff1 : offered s1 g1 prevNode prevHash (S j)).
  { destruct prevNode as [c|]; [|done]. destruct Hoff as (Hc & Hne & nc & Hnc' & <-). destruct Hc as [Hc (nc0 & Hnc0 & Hrepc)].
    pose proof (Hkeep v c _ _ (conj Hc (ex_intro _ nc0 (conj Hnc0 Hrepc)))) as Hc1.
    split_and!; [done|done|]. pose proof Hc1 as [_ (nc1 & Hnc1 & Hrep1)]. exists nc1. split; [done|].
    apply rep_hash in Hrep1, Hrepc. rewrite Hrep1, <- Hrepc. congruence. }
  apply wp_bind. eapply wp_mono.
  { apply (fill_ok v k Hk m' ms Hnc Hm' s1 g1 l1 j prevNode prevHash); [apply (He 0%nat)|done|done|by apply offered_attached]. }
  intros changed s2 (-> & He2 & n2 & _ & Hn2 & Ho2 & Hs2 & Hrep2). cbn [negb]. rewrite (root_depth _ _ Hid).
  assert (Hev : evolves v s g s2 g1) by (eapply evolves_trans; [eapply edits_evolves, (He 0%nat)|by eapply edits_evolves]).
  assert (Ht1 : object_ok v t1) by (rewrite Et1; by destruct (j =? 0)%nat).
  assert (Et1' : t1 = with_root t (root t1)) by (rewrite Et1; destruct t; by destruct (j =? 0)%nat).
  destruct (Nat.eqb_spec j 0) as [->|Hj0]; cbn [negb].
  - destruct st as [|[? ?] ?]; [|done]. apply wp_ret. exists g1. split_and!; [done|done|]. rewrite Et1. cbn [with_root root].
    cbn [take] in Hrep2. rewrite below_nil in Hrep2. cbn [take] in Ho2.
    split; [by eapply (owned_usable v Hv Hmut)|]. exists n2. split; [done|]. apply rep_intro_inner; auto.
  - eapply wp_mono.
    { apply (del_entry_ok rt st j t1 s2 g1 l1 n2); try done; [apply He2| | |lia].
      - intros Hne. rewrite Et1. auto.
      - eapply (holes_edits v k m' rt s1 g1 s2 g1 st j j); [done|done|].
        by apply (holes_edits v k m' rt s g s1 g1 st j j); [|apply He|]. }
    intros t' s3 Hw. by eapply (wrote_later s g s2 g1 t t1).
Qed.

Lemma delItem_present t s g :
  object_ok v t -> ghost_ok s g -> lrep s g v (root t) [] m ->
  wp (delItem t k) s (fun '(b, t') s' => b = true /\ wrote v s g t t' m' s').
Proof.
  intros Ht Hg Hrep. unfold delItem. apply wp_bind.
  eapply wp_mono; [by apply (getStack_ok t v Hv (proj1 Ht) k m s g)|].
  intros st s1 (g1 & d & l & id & tl & Hgr & -> & Hd & Hid & Hl & Hroot & Htl & Hend).
  pose proof Hend as (n & Hn & _). apply wp_bind, (wp_deref _ n); [done|].
  destruct (stack_top v Hv m s1 g1 k l d n Hd Hend Hn) as [(_ & -> & _ & -> & Hleaf & _)|[_ E]]; [|congruence].
  cbn [mTag]. rewrite bool_decide_eq_true_2 by done.
  pose proof Hleaf as (item & _ & _ & Hp & _ & Hb & _). assert (Hd0 : (0 < d)%nat) by (destruct d; [by destruct Hp|lia]).
  apply wp_bind. eapply wp_mono.
  { apply (delItem_loop_ok (root t) tl d t s1 g1 zero256 None); try done; [apply Hgr| |].
    - apply (path_holes v Hv k Hk m' ms Hnc Hm' Hok' m Hm Hok); try done; [intros; by apply lookup_delete_ne|].
      unfold m'. by rewrite lookup_delete_eq, Hold.
    - split; [|done]. apply map_empty. intros k'. destruct (below (pre k d) m' !! k') as [x|] eqn:E; [|done]. exfalso.
      apply below_lookup in E as [E Hpre]. apply lookup_delete_Some in E as [Hne E].
      assert (H1 : below (pre k d) m !! k' = Some x) by (by apply below_lookup).
      pose proof (below_own m k d Hd) as H2. rewrite Hb in H1, H2. rewrite Hold in H2.
      apply lookup_singleton_Some in H1 as [H1 _], H2 as [H2 _]. congruence. }
  intros t' s2 Hw. apply wp_ret. split; [done|]. eapply (wrote_later s g s1 g1 t t); [by apply grows_evolves|by destruct t|done].
Qed.
End Delete.

Lemma delItem_absent k m t s g :
  is_uint256 k -> object_ok v t -> ghost_ok s g -> lrep s g v (root t) [] m -> m !! k = None ->
  wp (delItem t k) s (fun '(b, t') s' => b = false /\ t' = t /\ wrote v s g t t' m s').
Proof.
  intros Hk Ht Hg Hrep Hnone. unfold delItem. apply wp_bind.
  eapply wp_mono; [by apply (getStack_ok t v Hv (proj1 Ht) k m s g)|].
  intros st s1 (g1 & d & l & id & tl & Hgr & -> & Hd & Hid & Hl & Hroot & Htl & Hend).
  pose proof Hend as (n & Hn & Hn'). apply wp_bind, (wp_deref _ n); [done|].
  assert (Hw : wrote v s g t t m s1) by (by eapply wrote_same).
  destruct (stack_top v Hv m s1 g1 k l d n Hd Hend Hn) as [(_ & _ & _ & _ & _ & [x E])|[Hs _]]; [congruence|].
  destruct (mItem n) as [item|] eqn:Ei; [|by apply wp_ret].
  destruct Hn' as [Hleaf|(_ & (inner & [_ E _ _ _ _ _ _] & _) & _)]; [|congruence].
  destruct (leafy_leaf v Hv _ _ _ Hleaf) as (Hlf & _). destruct Hs as [|Hs]; [congruence|].
  unfold same_key in Hs. rewrite Ei in Hs. rewrite Hs. by apply wp_ret.
Qed.

End Del.
End SHAMapDel.
