(* ===== verification/SHAMapLaws.v ===== *)
(** * SHAMap: the operations refine a finite map

    A map object that starts empty is driven by any sequence of operations,
    reads and writes mixed.  Against the abstract object, a finite map from keys
    to blobs, every operation returns and gives the answer the finite map gives:
    lookups, the order of traversal, whether a key was added, updated or deleted,
    and a root hash that depends on nothing but the contents. *)
From Stdlib Require Import ZArith Lia.
From S2P Require Import Prelude BaseUint Serializer SHAMapNode SHAMapSpec SHAMap SHAMapRep SHAMapReads SHAMapWrites SHAMapAdd SHAMapDel.
From stdpp Require Import base numbers list gmap strings.
Import BaseUint Serializer SHAMapNode SHAMapSpec SHAMap SHAMapRep SHAMapReads SHAMapWrites SHAMapAdd SHAMapDel.
Local Open Scope Z_scope.

Module SHAMapLaws.

(** ** Operations and answers *)

Inductive op : Type :=
| opAdd (item : SHAMapItem)
| opUpdate (item : SHAMapItem)
| opDel (k : uint256)
| opPeek (k : uint256)
| opHas (k : uint256)
| opFirst
| opLast
| opNext (k : uint256)
| opPrev (k : uint256)
| opHash.

Inductive answer : Type :=
| ansBool (b : bool)
| ansItem (o : option SHAMapItem)
| ansHash (h : uint256).

Section Exec.
Context `{SHA : SHA512}.

(** One call on the object; [isTransaction] and [hasMeta] are the same throughout
    the life of a map. *)
Definition exec (isTransaction hasMeta : bool) (o : op) (t : SHAMap) : M (answer * SHAMap) :=
  match o with
  | opAdd item => '(b, t) ← addGiveItem t item isTransaction hasMeta; mret (ansBool b, t)
  | opUpdate item => '(b, t) ← updateGiveItem t item isTransaction hasMeta; mret (ansBool b, t)
  | opDel k => '(b, t) ← delItem t k; mret (ansBool b, t)
  | opPeek k => r ← peekItem t k; mret (ansItem r, t)
  | opHas k => b ← hasItem_map t k; mret (ansBool b, t)
  | opFirst => r ← peekFirstItem t; mret (ansItem r, t)
  | opLast => r ← peekLastItem t; mret (ansItem r, t)
  | opNext k => r ← peekNextItem t k; mret (ansItem (fst <$> r), t)
  | opPrev k => r ← peekPrevItem t k; mret (ansItem r, t)
  | opHash => h ← getHash t; mret (ansHash h, t)
  end.

Fixpoint run (isTransaction hasMeta : bool) (ops : list op) (t : SHAMap) : M (list answer * SHAMap) :=
  match ops with
  | [] => mret ([], t)
  | o :: ops =>
      '(a, t) ← exec isTransaction hasMeta o t;
      '(rest, t) ← run isTransaction hasMeta ops t;
      mret (a :: rest, t)
  end.

(** ** The abstract object *)

Definition after (o : op) (m : kmap) : kmap :=
  match o with
  | opAdd item => match m !! mTag item with None => <[mTag item := mData item]> m | Some _ => m end
  | opUpdate item => match m !! mTag item with Some _ => <[mTag item := mData item]> m | None => m end
  | opDel k => delete k m
  | _ => m
  end.

Fixpoint states (ops : list op) (m : kmap) : list kmap :=
  m :: match ops with [] => [] | o :: ops => states ops (after o m) end.

Lemma states_head ops m : m ∈ states ops m.
Proof. destruct ops; apply list_elem_of_here. Qed.

Definition final (ops : list op) (m : kmap) : kmap := fold_left (fun m o => after o m) ops m.

(** The item of [m] that comes first in the order [lt] among those with [P]. *)
Definition nearest (lt : uint256 -> uint256 -> bool) (P : uint256 -> bool) (m : kmap) (o : option SHAMapItem) : Prop :=
  match o with
  | None => forall k x, m !! k = Some x -> P k = false
  | Some item => m !! mTag item = Some (mData item) /\ P (mTag item) = true /\
      forall k x, m !! k = Some x -> P k = true -> k = mTag item \/ lt (mTag item) k = true
  end.

Definition key_gtb (a b : uint256) : bool := key_ltb b a.

(** What the abstract object answers; the order of keys is that of 256-bit
    numbers. *)
Definition answers (ty : TNType) (m : kmap) (o : op) (a : answer) : Prop :=
  match o, a with
  | opAdd item, ansBool b => b = bool_decide (m !! mTag item = None)
  | opUpdate item, ansBool b => b = bool_decide (is_Some (m !! mTag item))
  | opDel k, ansBool b => b = bool_decide (is_Some (m !! k))
  | opPeek k, ansItem r => r = (fun x => {| mTag := k; mData := x |}) <$> m !! k
  | opHas k, ansBool b => b = bool_decide (is_Some (m !! k))
  | opFirst, ansItem r => nearest key_ltb (fun _ => true) m r
  | opLast, ansItem r => nearest key_gtb (fun _ => true) m r
  | opNext k, ansItem r => nearest key_ltb (fun x => key_ltb k x) m r
  | opPrev k, ansItem r => nearest key_gtb (fun x => key_gtb k x) m r
  | opHash, ansHash h => h = canon_hash ty 0 m
  | _, _ => False
  end.

Fixpoint trace (ty : TNType) (m : kmap) (ops : list op) (as_ : list answer) : Prop :=
  match ops, as_ with
  | [], [] => True
  | o :: ops, a :: as_ => answers ty m o a /\ trace ty (after o m) ops as_
  | _, _ => False
  end.

Definition op_ok (o : op) : Prop :=
  match o with
  | opAdd item | opUpdate item => is_uint256 (mTag item)
  | opDel k | opPeek k | opHas k | opNext k | opPrev k => is_uint256 k
  | _ => True
  end.

#[export] Instance op_ok_dec o : Decision (op_ok o).
Proof. destruct o; cbn; apply _. Defined.

(** ** One operation *)

Section Step.
Context (v : view) (Hv : view_ok v) (Hmut : v_frozen v = false).
Implicit Types (s : Store) (g : ghost) (m : kmap) (t : SHAMap).

Lemma first_nearest m o : keys_ok m -> extreme nib_lt m o -> nearest key_ltb (fun _ => true) m o.
Proof.
  intros Hm. destruct o as [item|]; cbn [extreme nearest].
  - intros [Hin Hmin]. split_and!; [done|done|]. intros k x Hk _. destruct (Hmin k x Hk) as [|Hlt]; [auto|right].
    apply key_ltb_iff; [by apply (Hm _ _ Hin)|by apply (Hm _ _ Hk)|done].
  - intros ->. intros k x. by rewrite lookup_empty.
Qed.

Lemma last_nearest m o : keys_ok m -> extreme (fun a b => nib_lt b a) m o -> nearest key_gtb (fun _ => true) m o.
Proof.
  intros Hm. destruct o as [item|]; cbn [extreme nearest].
  - intros [Hin Hmin]. split_and!; [done|done|]. intros k x Hk _. destruct (Hmin k x Hk) as [|Hlt]; [auto|right].
    apply key_ltb_iff; [by apply (Hm _ _ Hk)|by apply (Hm _ _ Hin)|done].
  - intros ->. intros k x. by rewrite lookup_empty.
Qed.

Lemma beyond_key rev k m k' x :
  is_uint256 k -> keys_ok m -> beyond rev k m !! k' = Some x <->
  m !! k' = Some x /\ (if rev : bool then key_gtb k k' else key_ltb k k') = true.
Proof.
  intros Hk Hm. rewrite beyond_lookup by done. split; intros [Hk' Hlt]; (split; [done|]); pose proof (Hm _ _ Hk');
    destruct rev; cbn [key_lt] in *; by apply key_ltb_iff.
Qed.

Lemma beyond_nearest (rev : bool) k m o :
  is_uint256 k -> keys_ok m ->
  nearest (if rev then key_gtb else key_ltb) (fun _ => true) (beyond rev k m) o ->
  nearest (if rev then key_gtb else key_ltb) (fun x => if rev then key_gtb k x else key_ltb k x) m o.
Proof.
  intros Hk Hm. destruct o as [item|]; cbn [nearest].
  - intros (Hin & _ & Hmin). apply beyond_key in Hin as [Hin Hlt]; [|done|done]. split_and!; [done|done|].
    intros k' x Hk' Hlt'. apply (Hmin k' x); [|done]. by apply beyond_key.
  - intros Hno k' x Hk'. destruct (if rev then key_gtb k k' else key_ltb k k') eqn:E; [|done].
    assert (H : beyond rev k m !! k' = Some x) by (by apply beyond_key). by apply Hno in H.
Qed.

Lemma beyond_keys rev k m : is_uint256 k -> keys_ok m -> keys_ok (beyond rev k m).
Proof. intros Hk Hm k' x [Hx _]%beyond_key; [by apply (Hm k' x)|done|done]. Qed.

(** The map object [t] stands for [m]. *)
Definition serves s g t m : Prop := ghost_ok s g /\ object_ok v t /\ lrep s g v (root t) [] m.

(** An operation's end: its answer, the object, the other maps. *)
Definition served s g t m o '(a, t') s' : Prop :=
  answers (v_type v) m o a /\ exists g', evolves v s g s' g' /\ t' = with_root t (root t') /\ serves s' g' t' (after o m).

Lemma serves_root s g t t' m : object_ok v t -> t' = with_root t (root t') ->
  ghost_ok s g -> lrep s g v (root t') [] m -> serves s g t' m.
Proof. intros Ht Et Hg Hrep. split_and!; [done| |done]. by rewrite Et. Qed.

Lemma read_ok {A} (c : M A) (f : A -> answer) (P : A -> Prop) o t s g m :
  serves s g t m -> after o m = m ->
  wp c s (fun a s' => exists g', grows s g s' g' /\ P a) -> (forall a, P a -> answers (v_type v) m o (f a)) ->
  wp (a ← c; mret (f a, t)) s (served s g t m o).
Proof.
  intros (Hg & Ht & Hrep) Ho Hc Hans. apply wp_bind. eapply wp_mono; [exact Hc|]. intros a s' (g' & Hgr & HP). apply wp_ret.
  split; [by apply Hans|]. exists g'. rewrite Ho.
  split_and!; [by apply grows_evolves|by destruct t|]. split; [apply Hgr|split; [done|by apply (gr_rep _ _ _ _ Hgr)]].
Qed.

Lemma write_ok (c : M (bool * SHAMap)) o t s g m b :
  serves s g t m -> wp c s (fun '(r, t') s' => r = b /\ wrote v s g t t' (after o m) s') ->
  answers (v_type v) m o (ansBool b) ->
  wp ('(b, t) ← c; mret (ansBool b, t)) s (served s g t m o).
Proof.
  intros (Hg & Ht & Hrep) Hc Hans. apply wp_bind. eapply wp_mono; [exact Hc|].
  intros [r t'] s' (-> & g' & Hev & Et & Hfin). apply wp_ret. split; [done|]. exists g'.
  split_and!; [done|done|]. eapply serves_root; [exact Ht|done|apply Hev|done].
Qed.

Section Write.
Context (ms : list kmap) (Hnc : no_collision (v_type v) ms).
Context (isTransaction hasMeta : bool) (Hty : leaf_type isTransaction hasMeta = v_type v).

Lemma exec_write_ok o t s g m :
  m ∈ ms -> after o m ∈ ms -> map_ok (v_type v) m -> map_ok (v_type v) (after o m) -> op_ok o -> serves s g t m ->
  match o with opAdd _ | opUpdate _ | opDel _ => True | _ => False end ->
  wp (exec isTransaction hasMeta o t) s (served s g t m o).
Proof.
  intros Hm Hm' Hok Hok' Ho Hs Hw. pose proof Hs as (Hg & Ht & Hrep).
  destruct o as [item|item|k| | | | | | |]; try done; cbn [exec op_ok after] in *.
  - eapply (write_ok _ _ _ _ _ _ (bool_decide (m !! mTag item = None))); [done| |done]. cbn [after].
    destruct (m !! mTag item) as [y|] eqn:E.
    + eapply wp_mono; [by apply (addGiveItem_present v Hv item m)|]. intros [b t'] s' (-> & _ & ?). done.
    + by apply (addGiveItem_new v Hv Hmut item m ms).
  - eapply (write_ok _ _ _ _ _ _ (bool_decide (is_Some (m !! mTag item)))); [done| |done]. cbn [after].
    destruct (m !! mTag item) as [y|] eqn:E.
    + rewrite bool_decide_eq_true_2 by done. by apply (updateGiveItem_present v Hv Hmut item m ms y).
    + eapply wp_mono; [by apply (updateGiveItem_absent v Hv item m)|]. intros [b t'] s' (-> & _ & ?). done.
  - eapply (write_ok _ _ _ _ _ _ (bool_decide (is_Some (m !! k)))); [done| |done]. cbn [after].
    destruct (m !! k) as [y|] eqn:E.
    + rewrite bool_decide_eq_true_2 by done. by apply (delItem_present v Hv Hmut k Ho m ms y).
    + rewrite delete_id by done. eapply wp_mono; [by apply (delItem_absent v Hv k m)|]. intros [b t'] s' (-> & _ & ?). done.
Qed.

Lemma exec_read_ok o t s g m :
  op_ok o -> serves s g t m -> match o with opAdd _ | opUpdate _ | opDel _ => False | _ => True end ->
  wp (exec isTransaction hasMeta o t) s (served s g t m o).
Proof.
  intros Ho Hs Hr. pose proof Hs as (Hg & [Hbk Hseq] & Hrep). pose proof (keys_ok_root _ _ _ _ _ Hrep) as Hkeys.
  destruct o as [| | |k|k| | |k|k|]; try done; cbn [exec op_ok] in *.
  - eapply read_ok; [done|done|by apply (peekItem_ok t v Hv Hbk k m)|]. by intros r ->.
  - eapply (read_ok _ _ (fun b => b = bool_decide (is_Some (m !! k)))); [done|done| |by intros b ->].
    unfold hasItem_map. apply wp_bind. eapply wp_mono; [by apply (walkToPointer_ok t v Hv Hbk k m s g)|].
    intros r s' (g' & Hgr & Hl). apply wp_ret. exists g'. split; [done|].
    destruct r as [l|]; cbn [leaf_for] in Hl; [destruct Hl as (n & x & _ & _ & -> & _)|rewrite Hl]; done.
  - eapply read_ok; [done|done|by apply (peekFirstItem_ok t v Hv Hbk m)|]. intros r. by apply first_nearest.
  - eapply read_ok; [done|done|by apply (peekLastItem_ok t v Hv Hbk m)|]. intros r. by apply last_nearest.
  - eapply (read_ok _ _ (fun r => extreme nib_lt (beyond false k m) (fst <$> r))); [done|done| |].
    + eapply wp_mono; [by apply (peekNextItem_ok t v Hv Hbk k m)|]. intros r s' (g' & ? & ? & _). eauto.
    + intros r He. apply (beyond_nearest false k m); [done|done|]. by apply first_nearest; [apply beyond_keys|].
  - eapply read_ok; [done|done|by apply (peekPrevItem_ok t v Hv Hbk k m)|].
    intros r He. apply (beyond_nearest true k m); [done|done|]. by apply last_nearest; [apply beyond_keys|].
  - eapply (read_ok _ _ (fun h => h = canon_hash (v_type v) 0 m)); [done|done| |done].
    unfold getHash. destruct Hrep as [_ (n & Hn & Hrep)]. apply wp_bind, (wp_deref _ n); [done|]. apply wp_ret.
    exists g. split; [by apply grows_refl|]. by apply rep_hash in Hrep.
Qed.

Lemma exec_ok o t s g m :
  m ∈ ms -> after o m ∈ ms -> map_ok (v_type v) m -> map_ok (v_type v) (after o m) -> op_ok o -> serves s g t m ->
  wp (exec isTransaction hasMeta o t) s (served s g t m o).
Proof.
  intros. destruct o; first [by apply exec_write_ok|by apply exec_read_ok].
Qed.

(** ** Sequences of operations *)

Lemma run_ok ops : forall t s g m,
  (forall m', m' ∈ states ops m -> m' ∈ ms /\ map_ok (v_type v) m') -> Forall op_ok ops -> serves s g t m ->
  wp (run isTransaction hasMeta ops t) s (fun '(as_, t') s' => trace (v_type v) m ops as_ /\
    exists g', evolves v s g s' g' /\ t' = with_root t (root t') /\ serves s' g' t' (final ops m)).
Proof.
  induction ops as [|o ops IH]; intros t s g m Hms Hops Hs; cbn [run].
  { apply wp_ret. split; [done|]. exists g. split_and!; [|by destruct t|done]. by apply grows_evolves, grows_refl, Hs. }
  apply Forall_cons in Hops as [Ho Hops]. destruct (Hms m) as [Hm Hok]; [apply states_head|].
  destruct (Hms (after o m)) as [Hm' Hok']; [cbn; apply list_elem_of_further, states_head|].
  apply wp_bind. eapply wp_mono; [by apply (exec_ok o t s g m)|].
  intros [a t1] s1 (Ha & g1 & Hev & Et & Hs1). apply wp_bind. eapply wp_mono.
  { apply (IH t1 s1 g1 (after o m)); [|done|done]. intros m0 H0. apply Hms. cbn. by apply list_elem_of_further. }
  intros [rest t2] s2 (Hrest & g2 & Hev2 & Et2 & Hs2). apply wp_ret. split; [done|]. exists g2.
  split_and!; [by eapply evolves_trans| |done]. rewrite Et2 at 1. by rewrite Et.
Qed.
End Write.

End Step.

(** ** From the empty map *)

Definition fresh_view (id : nat) (seq : Z) (ty : TNType) : view :=
  {| v_id := id; v_seq := seq; v_frozen := false; v_backed := true; v_type := ty |}.

Lemma leaf_type_leafy isTransaction hasMeta : leafy (leaf_type isTransaction hasMeta).
Proof. unfold leafy. destruct isTransaction, hasMeta; cbn; auto. Qed.

Lemma fresh_view_ok id seq isTransaction hasMeta :
  0 < seq -> view_ok (fresh_view id seq (leaf_type isTransaction hasMeta)).
Proof. intros Hs. split; [done|apply leaf_type_leafy]. Qed.

Lemma blank_root v s g : view_ok v -> inner_rep s g v (blank v) [] ∅.
Proof.
  intros Hv. exists new_inner. split_and!; [apply (blank_skeleton v {| mTag := zero256; mData := [] |} 0); lia|done|done|].
  intros i Hi. apply blank_branch; [done|]. apply map_filter_empty.
Qed.

Lemma new_map_ok id seq ty s g :
  0 < seq -> leafy ty -> ghost_ok s g ->
  wp (new_map seq) s (fun t s' => exists g', evolves (fresh_view id seq ty) s g s' g' /\
    serves (fresh_view id seq ty) s' g' t ∅ /\ mState t = smsModifying).
Proof.
  intros Hseq Hty Hg. set (v := fresh_view id seq ty). unfold new_map. apply wp_bind, wp_make_shared, wp_ret.
  assert (Hv : view_ok v) by (by split).
  exists (add_ghost v g []). split; [by eapply (edits_evolves v [] 0), alloc_edits, (seq_nonzero v Hv)|].
  split; [|done]. split; [by apply (alloc_edits v [] 0 s g), (seq_nonzero v Hv)|]. split; [done|]. cbn [root]. split.
  - eapply (owned_usable v Hv); [done|by apply alloc_ghost|apply alloc_cell|done].
  - exists (blank v). split; [apply alloc_cell|]. apply rep_intro_inner; [by apply blank_root|by left].
Qed.

(** A ghost for a store of which nothing is known. *)
Definition any_ghost (s : Store) : ghost := replicate (length (cells s)) ([], None).

Lemma any_ghost_ok s : ghost_ok s (any_ghost s).
Proof. apply length_replicate. Qed.

Lemma no_collision_mono ty ms ms' : (forall m, m ∈ ms -> m ∈ ms') -> no_collision ty ms' -> no_collision ty ms.
Proof.
  intros Hsub [Hinj Hz]. assert (H : forall x, Exists (fun m => hashed ty m x) ms -> Exists (fun m => hashed ty m x) ms').
  { intros x (m & Hm & Hx)%Exists_exists. apply Exists_exists. eauto. }
  split; [intros x y Hx Hy; apply Hinj; by apply H|intros x Hx; apply Hz; by apply H].
Qed.

Lemma fresh_run_ok isTransaction hasMeta seq ops s ms :
  0 < seq -> Forall op_ok ops -> no_collision (leaf_type isTransaction hasMeta) ms ->
  Forall (map_ok (leaf_type isTransaction hasMeta)) (states ops ∅) -> (forall m, m ∈ states ops ∅ -> m ∈ ms) ->
  wp (t ← new_map seq; run isTransaction hasMeta ops t) s (fun '(as_, t') s' =>
    trace (leaf_type isTransaction hasMeta) ∅ ops as_ /\
    exists g', serves (fresh_view 0 seq (leaf_type isTransaction hasMeta)) s' g' t' (final ops ∅)).
Proof.
  intros Hseq Hops Hnc Hok Hms. apply wp_bind.
  eapply wp_mono; [by apply (new_map_ok 0 seq (leaf_type isTransaction hasMeta) s (any_ghost s)); [done|apply leaf_type_leafy|apply any_ghost_ok]|].
  intros t s1 (g1 & _ & Hs1 & _). eapply wp_mono; [apply (run_ok _ (fresh_view_ok 0 seq isTransaction hasMeta Hseq) eq_refl ms); try done|].
  - intros m' Hm'. split; [by apply Hms|]. rewrite Forall_forall in Hok. by apply Hok.
  - intros [as_ t'] s' (Htr & g' & _ & _ & Hs'). eauto.
Qed.

(** C1: on a new map, whatever the nodes of other maps in the store and whatever
    is in the database, any sequence of additions, updates, deletions, lookups,
    ordered traversals and hash requests returns without an exception, and every
    answer is the one a finite map from keys to blobs gives, provided the blobs
    hashed on the way do not collide. *)
Theorem shamap_refines (isTransaction hasMeta : bool) (seq : Z) (ops : list op) (s : Store) :
  0 < seq -> Forall op_ok ops -> Forall (map_ok (leaf_type isTransaction hasMeta)) (states ops ∅) ->
  no_collision (leaf_type isTransaction hasMeta) (states ops ∅) ->
  wp (t ← new_map seq; run isTransaction hasMeta ops t) s (fun '(as_, _) _ =>
    trace (leaf_type isTransaction hasMeta) ∅ ops as_).
Proof.
  intros Hseq Hops Hok Hnc. eapply wp_mono; [by apply (fresh_run_ok isTransaction hasMeta seq ops s (states ops ∅))|].
  intros [as_ t'] s' [Htr _]. done.
Qed.

(** The root hash after a history. *)
Definition hash_after (isTransaction hasMeta : bool) (seq : Z) (ops : list op) : M uint256 :=
  '(_, t) ← (t ← new_map seq; run isTransaction hasMeta ops t); getHash t.

Lemma hash_after_ok isTransaction hasMeta seq ops s ms :
  0 < seq -> Forall op_ok ops -> no_collision (leaf_type isTransaction hasMeta) ms ->
  Forall (map_ok (leaf_type isTransaction hasMeta)) (states ops ∅) -> (forall m, m ∈ states ops ∅ -> m ∈ ms) ->
  wp (hash_after isTransaction hasMeta seq ops) s (fun h _ =>
    h = canon_hash (leaf_type isTransaction hasMeta) 0 (final ops ∅)).
Proof.
  intros. unfold hash_after. apply wp_bind. eapply wp_mono; [by apply (fresh_run_ok isTransaction hasMeta seq ops s ms)|].
  intros [as_ t'] s' (_ & g' & _ & _ & _ & n & Hn & Hrep). unfold getHash. apply wp_bind, (wp_deref _ n); [done|].
  apply wp_ret. by apply rep_hash in Hrep.
Qed.

Lemma final_in_states ops : forall m, final ops m ∈ states ops m.
Proof.
  induction ops as [|o ops IH]; intros m; cbn; [set_solver|]. apply list_elem_of_further, IH.
Qed.

Lemma wp_result {A} (c : M A) s (Q : A -> Store -> Prop) : wp c s Q -> exists a s', c s = (Ok a, s') /\ Q a s'.
Proof. unfold wp. destruct (c s) as [[a|e] s']; [eauto|done]. Qed.

(** C16: the root hash is a fingerprint of the contents.  Two maps built by any
    two histories, in any two stores and with any two sequence numbers, end with
    the same root hash exactly when they hold the same items: the order of the
    operations, items that came and went, and which nodes were loaded leave no
    trace in it. *)
Theorem root_hash_canonical (isTransaction hasMeta : bool) (seq1 seq2 : Z) (ops1 ops2 : list op) (s1 s2 : Store) :
  0 < seq1 -> 0 < seq2 -> Forall op_ok (ops1 ++ ops2) ->
  Forall (map_ok (leaf_type isTransaction hasMeta)) (states ops1 ∅ ++ states ops2 ∅) ->
  no_collision (leaf_type isTransaction hasMeta) (states ops1 ∅ ++ states ops2 ∅) ->
  exists h1 h2 s1' s2',
    hash_after isTransaction hasMeta seq1 ops1 s1 = (Ok h1, s1') /\
    hash_after isTransaction hasMeta seq2 ops2 s2 = (Ok h2, s2') /\
    (h1 = h2 <-> final ops1 ∅ = final ops2 ∅).
Proof.
  intros Hs1 Hs2 [Ho1 Ho2]%Forall_app Hall Hnc. pose proof Hall as [Hok1 Hok2]%Forall_app.
  destruct (wp_result _ _ _ (hash_after_ok isTransaction hasMeta seq1 ops1 s1 _ Hs1 Ho1 Hnc Hok1
    ltac:(intros; apply elem_of_app; auto))) as (h1 & s1' & E1 & ->).
  destruct (wp_result _ _ _ (hash_after_ok isTransaction hasMeta seq2 ops2 s2 _ Hs2 Ho2 Hnc Hok2
    ltac:(intros; apply elem_of_app; auto))) as (h2 & s2' & E2 & ->).
  eexists _, _, s1', s2'. split_and!; [done|done|]. split; [|by intros ->]. intros E. rewrite Forall_forall in Hall.
  assert (H1 : final ops1 ∅ ∈ states ops1 ∅ ++ states ops2 ∅) by (apply elem_of_app; left; apply final_in_states).
  assert (H2 : final ops2 ∅ ∈ states ops1 ∅ ++ states ops2 ∅) by (apply elem_of_app; right; apply final_in_states).
  rewrite <- (below_nil (final ops1 ∅)), <- (below_nil (final ops2 ∅)).
  apply (canon_hash_inj _ _ Hnc []); [done|done|by apply Hall|by apply Hall|cbn; lia|]. by rewrite !below_nil.
Qed.

End Exec.

(** ** Witnesses *)

(** A 64-bit hash in the place of SHA-512, quick to evaluate. *)
Definition tiny_hash (b : Blob) : uint256 :=
  be_split 32 (fold_left (fun acc x => Z.land (Z.shiftl acc 3 + Z.shiftr acc 11 + x + 1) (Z.ones 64)) b 104729).

Lemma tiny_hash_key b : is_uint256 (tiny_hash b).
Proof. split; [apply length_be_split|apply be_split_u8]. Qed.

Definition Tiny : SHA512 := {| sha512half := tiny_hash; sha512half_key := tiny_hash_key |}.

(** Two keys that part at the third nibble. *)
Definition ex_key (x y : Z) : uint256 := [x; y] ++ replicate 30 17.
Definition ex_a : SHAMapItem := {| mTag := ex_key 17 17; mData := [1; 2; 3] |}.
Definition ex_b : SHAMapItem := {| mTag := ex_key 17 33; mData := [4; 5] |}.

Definition ex_ops : list op := [opAdd ex_b; opAdd ex_a; opFirst; opDel (mTag ex_b); opHas (mTag ex_b)].
Definition ex_ops' : list op := [opAdd ex_a].

Definition ex_states : list kmap :=
  [∅; {[mTag ex_b := mData ex_b]}; {[mTag ex_b := mData ex_b; mTag ex_a := mData ex_a]}; {[mTag ex_a := mData ex_a]}].

Lemma ex_no_collision : @no_collision Tiny tnACCOUNT_STATE ex_states.
Proof. apply collision_free_sound. by vm_compute. Qed.

Lemma ex_states_in m : m ∈ states ex_ops ∅ ++ states ex_ops' ∅ -> m ∈ ex_states.
Proof.
  intros H. assert (Hall : Forall (fun m => m ∈ ex_states) (states ex_ops ∅ ++ states ex_ops' ∅)) by by_decide.
  rewrite Forall_forall in Hall. by apply Hall.
Qed.

Lemma ex_states_ok : Forall (@map_ok Tiny tnACCOUNT_STATE) (states ex_ops ∅ ++ states ex_ops' ∅).
Proof.
  apply Forall_forall. intros m Hm%ex_states_in k x Hk. split; [|done].
  assert (Hall : Forall (map_Forall (fun k _ => is_uint256 k)) ex_states) by by_decide.
  rewrite Forall_forall in Hall. by apply (Hall m Hm k x).
Qed.

Definition empty_store : Store := {| cells := []; db := ∅ |}.

Lemma shamap_refines_witness :
  @no_collision Tiny tnACCOUNT_STATE (states ex_ops ∅) /\
  wp (t ← new_map 1; @run Tiny false false ex_ops t) empty_store (fun '(as_, _) _ =>
    @trace Tiny tnACCOUNT_STATE ∅ ex_ops as_).
Proof.
  assert (Hnc : @no_collision Tiny tnACCOUNT_STATE (states ex_ops ∅)).
  { eapply no_collision_mono, ex_no_collision. intros m Hm. apply ex_states_in, elem_of_app. auto. }
  split; [done|]. pose proof ex_states_ok as [Hok _]%Forall_app.
  apply (@shamap_refines Tiny false false 1 ex_ops empty_store); [lia|by_decide|done|done].
Defined.

Lemma root_hash_canonical_witness :
  exists h s1 s2, @hash_after Tiny false false 1 ex_ops empty_store = (Ok h, s1) /\
    @hash_after Tiny false false 7 ex_ops' empty_store = (Ok h, s2).
Proof.
  destruct (@root_hash_canonical Tiny false false 1 7 ex_ops ex_ops' empty_store empty_store) as
    (h1 & h2 & s1 & s2 & E1 & E2 & Hiff); [lia|lia|by_decide|apply ex_states_ok| |].
  - eapply no_collision_mono, ex_no_collision. apply ex_states_in.
  - exists h1, s1, s2. split; [done|]. rewrite (proj2 Hiff); [done|]. by_decide.
Defined.

End SHAMapLaws.
