(* ===== verification/SHAMapSnapshot.v ===== *)
(** * SHAMap: snapshots

    [snapShot] makes a map that shares nothing it may write with the original:
    [unshare] copies every loaded node that is not already shared by all maps.
    The new map stands for the same contents, and from then on the two are
    independent: whatever is done to one, in whatever order, the other answers as
    if it were alone.  An empty map is the exception ([empty_snapshot_aliased]):
    [walkSubTree] returns before it copies the root. *)
From Stdlib Require Import ZArith Lia.
From S2P Require Import Prelude BaseUint Serializer SHAMapNode SHAMapSpec SHAMap SHAMapRep SHAMapReads SHAMapWrites SHAMapAdd SHAMapDel SHAMapLaws.
From stdpp Require Import base numbers list gmap strings.
Import BaseUint Serializer SHAMapNode SHAMapSpec SHAMap SHAMapRep SHAMapReads SHAMapWrites SHAMapAdd SHAMapDel SHAMapLaws.
Local Open Scope Z_scope.

Module SHAMapSnapshot.

Section Snapshot.
Context `{SHA : SHA512}.
Implicit Types (s : Store) (g : ghost) (w : view) (n : SHAMapTreeNode) (l c : loc) (p q : path) (m : kmap) (i : Z) (t : SHAMap).

(** [v] is the view of the original, [v'] that of the snapshot. *)
Context (v v' : view) (Hv : view_ok v) (Hv' : view_ok v') (Hmut : v_frozen v' = false).
Context (Hseq : v_seq v < v_seq v') (Hty : v_type v' = v_type v) (Hbk : v_backed v' = v_backed v) (Hid : v_id v' <> v_id v).

(** ** What copying does to the store *)

(** Only cells of the new map at [p] and below are written. *)
Record copies p s g s' g' : Prop := {
  cp_ghost : ghost_ok s' g';
  cp_prefix : g `prefix_of` g';
  cp_db : db s' = db s;
  cp_clean : clean s g -> clean s' g';
  cp_seq : forall l n, cells s !! l = Some n -> exists n', cells s' !! l = Some n' /\ mSeq n' = mSeq n;
  cp_same : forall l q o, g !! l = Some (q, o) -> o <> Some (v_id v') \/ ~ p `prefix_of` q ->
    cells s' !! l = cells s !! l }.

Lemma copies_refl p s g : ghost_ok s g -> copies p s g s g.
Proof. intros. split; eauto. Qed.

Lemma copies_trans p p' s1 g1 s2 g2 s3 g3 :
  p' `prefix_of` p -> copies p s1 g1 s2 g2 -> copies p' s2 g2 s3 g3 -> copies p' s1 g1 s3 g3.
Proof.
  intros Hp [G1 P1 D1 C1 S1 E1] [G2 P2 D2 C2 S2 E2]. split; [done|by trans g2|congruence|auto| |].
  - intros l n Hn. destruct (S1 l n Hn) as (n2 & Hn2 & ?). destruct (S2 l n2 Hn2) as (n3 & Hn3 & ?).
    exists n3. split; [done|congruence].
  - intros l q o Hl Ho. rewrite (E2 l q o); [|by eapply prefix_lookup_Some|done]. apply (E1 l q o); [done|].
    destruct Ho as [|Hn]; [auto|right]. intros Hq. apply Hn. by trans p.
Qed.

Lemma write_copies p s g l n n' :
  ghost_ok s g -> cells s !! l = Some n -> owned v' g l p -> mSeq n' = mSeq n -> copies p s g (store_write s l n') g.
Proof.
  intros Hg Hn Ho Hs. split; [|done|done|by eapply write_clean|by eapply write_seqs|].
  - unfold ghost_ok. cbn. by rewrite length_insert.
  - intros l' q o Hl Hor. cbn. destruct (decide (l' = l)) as [->|]; [|by rewrite list_lookup_insert_ne].
    unfold owned in Ho. rewrite Ho in Hl. injection Hl as <- <-. by destruct Hor.
Qed.

Lemma alloc_copies p s g n x : ghost_ok s g -> mSeq n <> 0 -> copies p s g (store_alloc s n) (g ++ [x]).
Proof.
  intros Hg Hne. destruct (alloc_edits v' [] 0 s g n x Hg Hne) as [? ? ? ? ? _]. split; try done.
  intros l q o Hl _. cbn. rewrite lookup_app_l; [done|]. rewrite <- Hg. by eapply lookup_lt_Some.
Qed.

Lemma usable_copies p s g s' g' w l q : copies p s g s' g' -> usable s g w l q -> usable s' g' w l q.
Proof.
  intros [G P D C Hs E] (o & n & Hl & Hn & Hq & Ho). destruct (Hs l n Hn) as (n' & Hn' & E').
  exists o, n'. rewrite E'. split_and!; try done; [by eapply prefix_lookup_Some|apply Hq|apply Hq].
Qed.

(** The original and every other map keep their cells. *)
Lemma not_mine s g w l q o n :
  apart v' w -> g !! l = Some (q, o) -> usable s g w l q -> o <> Some (v_id v').
Proof.
  intros Ha Hl (o' & n' & Hl' & _ & _ & Ho) ->. rewrite Hl in Hl'. injection Hl' as <-.
  destruct Ha as [Hf|Hne].
  - by rewrite Hf in Ho.
  - destruct (v_frozen w); [done|]. destruct Ho as [[= ?]|[? _]]; [congruence|done].
Qed.

Lemma rep_copies p s g s' g' w n q m : copies p s g s' g' -> apart v' w -> rep s g w n q m -> rep s' g' w n q m.
Proof.
  intros He Ha. apply rep_frame; [done|done|by rewrite (cp_db _ _ _ _ _ He)|].
  intros l' p' _ _ Hu. split; [by eapply usable_copies|]. pose proof Hu as (o & n' & Hl & _).
  apply (cp_same _ _ _ _ _ He l' p' o Hl). left. by eapply (not_mine s g w l' p' o n').
Qed.

Lemma lrep_copies p s g s' g' w l q m : copies p s g s' g' -> apart v' w -> lrep s g w l q m -> lrep s' g' w l q m.
Proof.
  intros He Ha [Hu (n & Hn & Hrep)]. split; [by eapply usable_copies|]. exists n.
  split; [|by eapply rep_copies]. pose proof Hu as (o & n' & Hl & _).
  rewrite (cp_same _ _ _ _ _ He l q o Hl); [done|]. left. by eapply (not_mine s g w l q o n').
Qed.

Lemma copies_evolves p s g s' g' : copies p s g s' g' -> evolves v' s g s' g'.
Proof. intros He. pose proof He as [? ? ? ? ? ?]. split; try done. intros. by eapply lrep_copies. Qed.

Lemma apart_original : apart v' v.
Proof. right. auto. Qed.

(** ** Shared nodes *)

Lemma shared_usable s g c q nc : clean s g -> usable s g v c q -> cells s !! c = Some nc -> mSeq nc = 0 -> usable s g v' c q.
Proof.
  intros [Ho _] (o & n & Hl & Hn & _) Hnc E. assert (n = nc) as -> by congruence.
  rewrite (Ho c q o nc Hl Hn E) in Hl. destruct Hv' as [? _]. exists None, nc. rewrite Hmut, E.
  split_and!; [done|done|lia|lia|]. right. split; [done|lia].
Qed.

(** A tree below a shared node serves the new map as it is. *)
Lemma shared_rep s g n q m : clean s g -> rep s g v n q m -> shared_node s n -> rep s g v' n q m.
Proof.
  intros Hc Hrep. induction Hrep as [n q item|n q m inner Ht Hi Hn Hl Hu Hs Hh Hhs Hb Hcl Hz Hp Hr Hrep IH]; intros Hsh.
  { apply rep_leaf; by rewrite ?Hty. }
  assert (Hres : forall i, resolve s v' inner i = resolve s v inner i) by (intros i; unfold resolve; by rewrite Hbk).
  apply rep_inner with inner; rewrite ?Hty; try done.
  - intros i c Hi' Hc'. destruct (Hp i c Hi' Hc') as [Huc Hne]. split; [|done].
    destruct (Hsh inner _ c Ht Hn Hc') as (nc & Hnc & E). by eapply shared_usable.
  - intros i Hi' Hne. rewrite Hres. by apply Hr.
  - intros i nc Hi' Hne Hnc. rewrite Hres in Hnc. apply (IH i nc Hi' Hne Hnc). unfold resolve in Hnc.
    destruct (mChildren inner !!! Z.to_nat i) as [c|] eqn:E.
    + destruct (Hsh inner _ c Ht Hn E) as (nc' & Hnc' & E0). assert (nc' = nc) as -> by congruence. by eapply (cl_below s g Hc).
    + destruct (v_backed v); [|done]. intros x j c' _ Hx Hc'. by rewrite (db_node_links _ _ _ x j Hnc Hx) in Hc'.
Qed.

(** ** One inner node *)

Lemma todo_branch r s g s' g' (inner : InnerData) p m i :
  copies r s g s' g' -> branch_ok s g v inner p m i -> branch_ok s' g' v inner p m i.
Proof.
  intros He [H1 H2 H3 H4]. split; [done|done| |].
  - intros c Hc. destruct (H3 c Hc). split; [by eapply usable_copies|done].
  - intros Hne. destruct (H4 Hne) as (nc & Hres & Hrep). exists nc. split; [|by eapply rep_copies, Hrep; [done|apply apart_original]].
    unfold resolve in *. destruct (mChildren inner !!! Z.to_nat i) as [c|]; [|unfold db_node in *; by rewrite (cp_db _ _ _ _ _ He)].
    destruct (H3 c eq_refl) as [Hu _]. pose proof Hu as (o & x & Hl & _). rewrite (cp_same _ _ _ _ _ He c _ o Hl); [done|].
    left. by eapply (not_mine s g v c _ o x); [apply apart_original|..].
Qed.

Lemma snoc_apart p i j q : p ++ [j] `prefix_of` q -> p ++ [i] `prefix_of` q -> j = i.
Proof.
  intros [a ->] [b E]. rewrite <- !app_assoc in E. apply app_inv_head in E. by injection E.
Qed.

Lemma done_branch s g s' g' (inner : InnerData) p m i j :
  copies (p ++ [i]) s g s' g' -> j <> i -> branch_ok s g v' inner p m j -> branch_ok s' g' v' inner p m j.
Proof.
  intros He Hne [H1 H2 H3 H4].
  assert (Hout : forall q, p ++ [j] `prefix_of` q -> ~ p ++ [i] `prefix_of` q) by (intros q Hj Hi; by eapply Hne, snoc_apart).
  split; [done|done| |].
  - intros c Hc. destruct (H3 c Hc). split; [by eapply usable_copies|done].
  - intros Hs. destruct (H4 Hs) as (nc & Hres & Hrep). exists nc. split.
    + unfold resolve in *. destruct (mChildren inner !!! Z.to_nat j) as [c|]; [|unfold db_node in *; by rewrite (cp_db _ _ _ _ _ He)].
      destruct (H3 c eq_refl) as [(o & x & Hl & _) _]. rewrite (cp_same _ _ _ _ _ He c _ o Hl); [done|]. right. by apply Hout.
    + apply (rep_frame s g v'); [done|done|by rewrite (cp_db _ _ _ _ _ He)| |done].
      intros l' q Hq _ Hu. split; [by eapply usable_copies|]. destruct Hu as (o & x & Hl & _).
      apply (cp_same _ _ _ _ _ He l' q o Hl). right. by apply Hout.
Qed.

(** A copy in progress: the branches of [order] are still the original's. *)
Definition half s g n p m (order : list Z) : Prop :=
  exists inner, skeleton n p inner /\ under p m /\ mHash n = inner_hash (v_type v) (length p) m /\
    forall i, 0 <= i < 16 -> if decide (i ∈ order) then branch_ok s g v inner p m i else branch_ok s g v' inner p m i.

(** The new map's copy of the inner node at [p]. *)
Definition working s g l p m order : Prop :=
  owned v' g l p /\ exists n, cells s !! l = Some n /\ mSeq n = v_seq v' /\ half s g n p m order.

Lemma half_start s g n p m : inner_rep s g v n p m -> half s g n p m branches.
Proof.
  intros (inner & ? & ? & ? & Hb). exists inner. split_and!; try done. intros i Hi.
  rewrite decide_True by (by apply in_branches). by apply Hb.
Qed.

Lemma half_end s g n p m : half s g n p m [] -> inner_rep s g v' n p m.
Proof.
  intros (inner & ? & ? & ? & Hb). exists inner. by rewrite Hty.
Qed.

(** A branch that needs no copy: nothing there, not loaded, or shared. *)
Lemma keep_branch s g (inner : InnerData) p m i :
  clean s g -> branch_ok s g v inner p m i ->
  (forall c nc, mChildren inner !!! Z.to_nat i = Some c -> cells s !! c = Some nc -> mSeq nc = 0) ->
  branch_ok s g v' inner p m i.
Proof.
  intros Hc [H1 H2 H3 H4] Hsh. split; rewrite ?Hty; [done|done| |].
  - intros c Hc'. destruct (H3 c Hc') as [Hu Hne]. split; [|done]. pose proof Hu as (o & nc & _ & Hnc & _).
    eapply shared_usable; [done|done|done|by eapply Hsh].
  - intros Hne. destruct (H4 Hne) as (nc & Hres & Hrep). exists nc. unfold resolve in *. rewrite Hbk. split; [done|].
    apply shared_rep; [done|done|]. destruct (mChildren inner !!! Z.to_nat i) as [c|] eqn:E.
    + eapply (cl_below s g Hc); [done|by eapply Hsh].
    + destruct (v_backed v); [|done]. intros x j c' _ Hx Hc'. by rewrite (db_node_links _ _ _ x j Hres Hx) in Hc'.
Qed.

Lemma keep_step s g l p m i order n (inner : InnerData) :
  clean s g -> working s g l p m (i :: order) -> cells s !! l = Some n -> mInner n = Some inner -> 0 <= i < 16 ->
  (forall c nc, mChildren inner !!! Z.to_nat i = Some c -> cells s !! c = Some nc -> mSeq nc = 0) ->
  working s g l p m order.
Proof.
  intros Hc (Ho & n0 & Hn0 & Hs & x & Hsk & Hu & Hh & Hb) Hn Hin Hi Hsh. assert (n0 = n) as -> by congruence.
  assert (x = inner) as -> by (pose proof (sk_inner _ _ _ Hsk); congruence).
  split; [done|]. exists n. split_and!; [done|done|]. exists inner. split_and!; try done. intros j Hj.
  pose proof (Hb j Hj) as H. destruct (decide (j ∈ order)) as [Hd|Hd], (decide (j ∈ i :: order)) as [Hd'|Hd'];
    [done|set_solver| |done]. apply keep_branch; [done|done|]. by assert (j = i) as -> by set_solver.
Qed.


Lemma snoc_neq p i : p <> p ++ [i].
Proof. intros E. apply (f_equal length) in E. rewrite length_app in E. cbn in E. lia. Qed.

Lemma snoc_longer p i : ~ p ++ [i] `prefix_of` p.
Proof. intros H%prefix_length. rewrite length_app in H. cbn in H. lia. Qed.

Lemma working_copies s g s' g' l p m i order :
  copies (p ++ [i]) s g s' g' -> working s g l p m (i :: order) -> working s' g' l p m (i :: order).
Proof.
  intros He (Ho & n & Hn & Hs & inner & Hsk & Hu & Hh & Hb). split; [by eapply prefix_lookup_Some, cp_prefix|].
  exists n. split_and!; [|done|].
  - rewrite (cp_same _ _ _ _ _ He l p _ Ho); [done|]. right. apply snoc_longer.
  - exists inner. split_and!; try done. intros j Hj. pose proof (Hb j Hj) as H.
    destruct (decide (j ∈ i :: order)) as [|Hni]; [by eapply todo_branch|]. eapply done_branch; [done|set_solver|done].
Qed.

(** Hooking the copy of a child to its parent. *)
Lemma attach_ok s g l p m i order c :
  ghost_ok s g -> working s g l p m (i :: order) -> i ∉ order -> 0 <= i < 16 ->
  lrep s g v' c (p ++ [i]) (sub (length p) i m) -> sub (length p) i m <> ∅ ->
  wp (share_child l i c) s (fun _ s' => copies p s g s' g /\ working s' g l p m order).
Proof.
  intros Hg (Ho & n & Hn & Hs & inner & Hsk & Hu & Hh & Hb) Hni Hi [Hc (nc & Hnc & Hrep)] Hne.
  unfold share_child. apply wp_bind, (wp_deref _ n); [done|]. apply wp_bind.
  eapply wp_lift; [unfold shareChild, inner_of; by rewrite (sk_inner _ _ _ Hsk)|]. apply wp_assign.
  set (n' := with_inner n (set_pointer inner i c)).
  assert (Hw : copies p s g (store_write s l n') g) by (by eapply write_copies).
  split; [done|]. split; [done|]. exists n'. split_and!; [cbn; apply list_lookup_insert_eq; by eapply lookup_lt_Some|done|].
  exists (set_pointer inner i c). split_and!; [by apply skeleton_hook|done|done|]. intros j Hj. pose proof (Hb j Hj) as H.
  pose proof (sk_children _ _ _ Hsk) as Hlen. destruct (decide (j = i)) as [->|Hji].
  - rewrite decide_False by done. rewrite decide_True in H by set_solver. destruct H as [H1 H2 _ _].
    eapply branch_write; [exact Hn|done|done|]. split; rewrite ?Hty; [done|done| |]; cbn [set_pointer mChildren mHashes].
    + intros c'. rewrite list_lookup_total_insert_eq by lia. by intros [= <-].
    + intros _. exists nc. split; [|done]. unfold resolve. cbn [set_pointer mChildren].
      by rewrite list_lookup_total_insert_eq by lia.
  - assert (Hp : forall w, branch_ok s g w inner p m j -> branch_ok s g w (set_pointer inner i c) p m j).
    { intros w [H1 H2 H3 H4]. assert (Z.to_nat i <> Z.to_nat j) by lia.
      split; unfold resolve in *; cbn [set_pointer mChildren mHashes]; rewrite ?list_lookup_total_insert_ne by done; done. }
    destruct (decide (j ∈ order)) as [Hd|Hd], (decide (j ∈ i :: order)) as [Hd'|Hd']; [|set_solver|set_solver|].
    + eapply todo_branch; [done|]. by apply Hp.
    + eapply branch_write; [exact Hn|done|done|]. by apply Hp.
Qed.

(** The copy of a child that is not shared. *)
Lemma preFlushNode_ok t s g c nc q :
  smSeq t = v_seq v' -> ghost_ok s g -> usable s g v c q -> cells s !! c = Some nc -> copyable nc ->
  wp (preFlushNode t c) s (fun c' s' => exists n', content_eq nc n' /\ mSeq n' = v_seq v' /\
    s' = store_alloc s n' /\ c' = length (cells s) /\ copies q s g s' (add_ghost v' g q) /\
    owned v' (add_ghost v' g q) c' q).
Proof.
  intros Ht Hg (o & n & Hl & Hn & Hq & _) Hnc Hc. assert (n = nc) as -> by congruence.
  unfold preFlushNode. apply wp_bind, (wp_deref _ nc); [done|]. rewrite Ht, (proj2 (Z.eqb_neq _ _)) by lia. cbn [negb].
  destruct (copy_content v' nc Hc) as (n' & Hcopy & Hs & Hcont). apply wp_bind. eapply wp_lift; [exact Hcopy|].
  apply wp_make_shared. exists n'. split_and!; try done; [by apply alloc_copies, (seq_nonzero v' Hv')|by apply alloc_ghost].
Qed.

Lemma inner_content s g n n' p m : content_eq n n' -> inner_rep s g v n p m -> inner_rep s g v n' p m.
Proof.
  intros (Eh & Et & Ei & Hin) (inner & [Ht Hit Hi Hl Hhs Hk Hb Hcl] & Hu & Hh & Hbr).
  destruct (Hin Ht) as (x & inner' & Ex & Ei' & E1 & E2 & E3). assert (x = inner) as -> by congruence.
  exists inner'. split_and!; [|done|congruence|].
  - split; rewrite ?E1, ?E2, ?E3; try done; congruence.
  - intros i Hi'. destruct (Hbr i Hi') as [H1 H2 H3 H4]. split; unfold resolve in *; rewrite ?E1, ?E2; done.
Qed.

Lemma inner_copies r s g s' g' n p m : copies r s g s' g' -> inner_rep s g v n p m -> inner_rep s' g' v n p m.
Proof.
  intros He (inner & ? & ? & ? & Hb). exists inner. split_and!; try done. intros i Hi. by eapply todo_branch, Hb.
Qed.


(** ** The walk *)

Section Walk.
Context (t : SHAMap) (Ht : smSeq t = v_seq v').

(** [flush] copies everything below a copied inner node at [q]. *)
Definition flushes (flush : loc -> M Z) q : Prop :=
  forall s g c m, ghost_ok s g -> clean s g -> working s g c q m branches ->
    wp (flush c) s (fun _ s' => exists g', copies q s g s' g' /\ working s' g' c q m []).

Lemma working_rep s g c q m : working s g c q m [] -> q = [] \/ (2 <= size m)%nat -> lrep s g v' c q m.
Proof.
  intros (Ho & n & Hn & Hs & Hh) Hsz. split; [by eapply (owned_usable v' Hv' Hmut)|].
  exists n. split; [done|]. apply rep_intro_inner; [by apply half_end|done].
Qed.

(** A loaded child that is not shared: its copy, with everything below. *)
Lemma copy_inner_ok {A} (k : loc -> Z -> M A) (Q : A -> Store -> Prop) flush s g c nc q m :
  flushes flush q -> ghost_ok s g -> clean s g -> usable s g v c q -> cells s !! c = Some nc ->
  inner_rep s g v nc q m -> q = [] \/ (2 <= size m)%nat ->
  (forall c' below s' g', copies q s g s' g' -> lrep s' g' v' c' q m -> wp (k c' below) s' Q) ->
  wp (child ← preFlushNode t c; below ← flush child; k child below) s Q.
Proof.
  intros Hfl Hg Hcl Hu Hnc Hin Hsz Hk. apply wp_bind. eapply wp_mono.
  { apply (preFlushNode_ok t s g c nc q); try done. intros _. destruct Hin as (inner & [] & _). eauto. }
  intros c1 s1 (n1 & Hcont & Hs1 & -> & -> & Hcp & Ho1). apply wp_bind.
  assert (Hw : working (store_alloc s n1) (add_ghost v' g q) (length (cells s)) q m branches).
  { split; [done|]. exists n1. split_and!; [apply alloc_cell|done|]. apply half_start. eapply inner_content; [exact Hcont|].
    by eapply inner_copies. }
  eapply wp_mono; [apply (Hfl _ _ _ m (cp_ghost _ _ _ _ _ Hcp) (cp_clean _ _ _ _ _ Hcp Hcl) Hw)|].
  intros below s2 (g2 & Hcp2 & Hw2). apply (Hk _ below s2 g2); [by eapply copies_trans|by apply working_rep].
Qed.

Lemma copy_leaf_ok {A} (k : loc -> M A) (Q : A -> Store -> Prop) s g c nc q m :
  ghost_ok s g -> usable s g v c q -> cells s !! c = Some nc -> leaf_rep v nc q m ->
  (forall c' s' g', copies q s g s' g' -> lrep s' g' v' c' q m -> wp (k c') s' Q) ->
  wp (child ← preFlushNode t c; _ ← (if false && mBacked t then writeNode child else mret tt); k child) s Q.
Proof.
  intros Hg Hu Hnc Hleaf Hk. apply wp_bind. eapply wp_mono.
  { apply (preFlushNode_ok t s g c nc q); try done. intros E. destruct Hleaf as (item & E' & _).
    rewrite E in E'. by destruct Hv as [_ [E0|[E0|E0]]]; rewrite E0 in E'. }
  intros c1 s1 (n1 & Hcont & Hs1 & -> & -> & Hcp & Ho1). cbn [andb]. apply wp_bind, wp_ret.
  apply (Hk _ _ _ Hcp). split; [eapply (owned_usable v' Hv' Hmut); [done|apply alloc_cell|done]|].
  exists n1. split; [apply alloc_cell|]. apply rep_intro_leaf. apply (leaf_content v _ _ _ _ Hcont) in Hleaf.
  destruct Hleaf as (item & ? & ? & ? & ? & ? & ? & ?). exists item. rewrite Hty. done.
Qed.

Lemma flush_branches_ok flush l p m order : forall s g flushed,
  (forall i, flushes flush (p ++ [i])) -> ghost_ok s g -> clean s g -> working s g l p m order ->
  NoDup order -> Forall (fun i => 0 <= i < 16) order ->
  wp (flush_branches t false flush l order flushed) s (fun _ s' => exists g', copies p s g s' g' /\ working s' g' l p m []).
Proof.
  induction order as [|i order IH]; intros s g flushed Hfl Hg Hcl Hw Hnd Hr; cbn [flush_branches].
  { apply wp_ret. exists g. split; [by apply copies_refl|done]. }
  apply NoDup_cons in Hnd as [Hni Hnd]. apply Forall_cons in Hr as [Hi Hr].
  pose proof Hw as (Ho & n & Hn & Hs & inner & Hsk & Hu & Hh & Hb). pose proof (sk_inner _ _ _ Hsk) as Hin.
  pose proof (Hb i Hi) as Hbi. rewrite decide_True in Hbi by set_solver.
  assert (Hkeep : (forall c nc, mChildren inner !!! Z.to_nat i = Some c -> cells s !! c = Some nc -> mSeq nc = 0) ->
    wp (flush_branches t false flush l order flushed) s (fun _ s' => exists g', copies p s g s' g' /\ working s' g' l p m [])).
  { intros Hsh. apply (IH s g flushed); try done. by eapply keep_step. }
  assert (Hattach : forall f c s1 g1, copies (p ++ [i]) s g s1 g1 -> lrep s1 g1 v' c (p ++ [i]) (sub (length p) i m) ->
    sub (length p) i m <> ∅ -> wp (_ ← share_child l i c; flush_branches t false flush l order f) s1
      (fun _ s' => exists g', copies p s g s' g' /\ working s' g' l p m [])).
  { intros f c s1 g1 Hcp Hc Hne. apply wp_bind. eapply wp_mono.
    { apply (attach_ok s1 g1 l p m i order c); try done; [apply Hcp|by eapply working_copies]. }
    intros _ s2 [Hcp2 Hw2]. eapply wp_mono; [apply (IH s2 g1 f); try done; [apply Hcp2|by apply Hcp2, Hcp]|].
    intros _ s3 (g3 & Hcp3 & Hw3). exists g3. split; [|done].
    eapply (copies_trans (p ++ [i]) p); [by apply prefix_app_r|exact Hcp|]. by eapply (copies_trans p p). }
  apply wp_bind, (wp_deref _ n); [done|]. apply wp_bind.
  eapply wp_lift; [unfold isEmptyBranch, inner_of; by rewrite Hin|]. destruct (negb (is_branch inner i)) eqn:Eb.
  { apply Hkeep. intros c nc Hc _. exfalso. destruct (bo_child _ _ _ _ _ _ _ Hbi c Hc) as [_ Hne]. apply Hne.
    apply (bo_zero _ _ _ _ _ _ _ Hbi). apply negb_true_iff in Eb.
    rewrite is_branch_testbit, (sk_bits _ _ _ Hsk), (proj2 (Z.ltb_lt _ _)) in Eb by lia. by apply negb_false_iff in Eb. }
  apply wp_bind. eapply wp_lift; [unfold getChild, inner_of; by rewrite Hin|].
  destruct (mChildren inner !!! Z.to_nat i) as [c|] eqn:Ec; [|by apply Hkeep; intros].
  destruct (bo_child _ _ _ _ _ _ _ Hbi c Ec) as [Huc Hne]. destruct (bo_rep _ _ _ _ _ _ _ Hbi Hne) as (nc & Hres & Hrep).
  unfold resolve in Hres. rewrite Ec in Hres. apply wp_bind, (wp_deref _ nc); [done|].
  destruct (Z.eqb_spec (mSeq nc) 0) as [E0|E0]; [apply Hkeep; congruence|].
  apply rep_inv in Hrep as [Hleaf|[Hinn Hsz]].
  - destruct (leafy_leaf v Hv _ _ _ Hleaf) as (_ & -> & _).
    eapply (copy_leaf_ok (fun child => _ ← share_child l i child; flush_branches t false flush l order (flushed + 1))); try done.
    intros. by eapply Hattach.
  - destruct (inner_not_leaf v _ _ _ _ _ Hinn) as (_ & -> & _).
    eapply (copy_inner_ok (fun child below => _ ← share_child l i child; flush_branches t false flush l order (flushed + below)));
      try done. intros. by eapply Hattach.
Qed.

Lemma flush_node_ok fuel : forall q, (65 <= length q + fuel)%nat -> flushes (flush_node t false fuel) q.
Proof.
  induction fuel as [|fuel IH]; intros q Hf s g c m Hg Hcl Hw.
  { exfalso. destruct Hw as (_ & n & _ & _ & inner & [] & _). lia. }
  pose proof branches_range as [Hnd Hr]. cbn [flush_node andb]. apply wp_bind. eapply wp_mono.
  { apply (flush_branches_ok _ c q m branches s g 0); try done. intros i. apply IH. rewrite length_app. cbn. lia. }
  intros flushed s' (g' & Hcp & Hw'). apply wp_bind, wp_ret, wp_ret. eauto.
Qed.
End Walk.


(** ** The whole operation *)

Lemma root_not_empty s g n m : inner_rep s g v n [] m -> m <> ∅ -> isEmpty n = Ok false.
Proof.
  intros Hin Hne. pose proof Hin as (inner & Hsk & Hu & _ & Hb). unfold isEmpty, inner_of.
  rewrite (sk_inner _ _ _ Hsk). cbn. f_equal. apply Z.eqb_neq. intros E. apply Hne.
  apply (no_branch_empty [] m Hu); [cbn; lia|]. intros j Hj. apply (Hb j Hj).
  pose proof (sk_bits _ _ _ Hsk j ltac:(lia)) as H. rewrite E, Z.bits_0, (proj2 (Z.ltb_lt _ _)) in H by lia.
  cbn [andb] in H. symmetry in H. by apply negb_false_iff in H.
Qed.

Lemma unshare_ok t s g m :
  smSeq t = v_seq v' -> ghost_ok s g -> clean s g -> lrep s g v (root t) [] m -> m <> ∅ ->
  wp (unshare t) s (fun '(_, t') s' => exists g', copies [] s g s' g' /\ t' = with_root t (root t') /\
    lrep s' g' v' (root t') [] m).
Proof.
  intros Ht Hg Hcl [Hu (n & Hn & Hrep)] Hne. unfold unshare, walkSubTree. apply wp_bind, (wp_deref _ n); [done|].
  destruct (Z.eqb_spec (mSeq n) 0) as [E0|E0].
  { apply wp_ret. exists g. split_and!; [by apply copies_refl|by destruct t|]. split; [by eapply shared_usable|].
    exists n. split; [done|]. apply shared_rep; [done|done|by eapply (cl_below s g Hcl)]. }
  pose proof (rep_inv _ _ _ _ _ _ Hrep) as [(? & _ & _ & [] & _)|[Hin Hsz]]; [done|].
  apply wp_bind. eapply wp_lift; [by eapply root_not_empty|]. cbn match.
  destruct (inner_not_leaf v _ _ _ _ _ Hin) as (-> & _).
  eapply (copy_inner_ok t Ht (fun child below => mret (below, with_root t child))); try done.
  - apply (flush_node_ok t Ht depth_fuel []). unfold depth_fuel. cbn. lia.
  - intros c' below s' g' Hcp Hc. apply wp_ret. exists g'. split_and!; done.
Qed.

Lemma snapShot_copy t s g m isMutable :
  object_ok v t -> v_seq v' = u32 (v_seq v + 1) -> v_backed v' = true -> ghost_ok s g -> clean s g ->
  lrep s g v (root t) [] m -> m <> ∅ -> mState t <> smsImmutable \/ isMutable = false ->
  wp (snapShot t isMutable) s (fun t' s' => exists g', evolves v' s g s' g' /\ serves v' s' g' t' m).
Proof.
  intros [_ Es] Es' Eb Hg Hcl Hrep Hne Hst. unfold snapShot, new_map. apply wp_bind, wp_bind, wp_make_shared, wp_ret.
  set (s1 := store_alloc s _). set (g1 := g ++ [([], None)]).
  assert (Hcp : copies [] s g s1 g1) by (by apply alloc_copies).
  assert (negb (bool_decide (mState t = smsImmutable)) || negb isMutable = true) as ->.
  { destruct Hst as [H| ->]; [by rewrite bool_decide_eq_false_2|apply orb_true_r]. }
  cbn [mState mBacked]. apply wp_bind. eapply wp_mono.
  { apply (unshare_ok {| smSeq := u32 (smSeq t + 1); root := root t;
      mState := if isMutable then smsModifying else smsImmutable; mBacked := true |} s1 g1 m); cbn [smSeq root].
    - by rewrite Es, Es'.
    - apply Hcp.
    - by apply Hcp.
    - eapply lrep_copies; [exact Hcp|apply apart_original|exact Hrep].
    - done. }
  intros [k t'] s2 (g2 & Hcp2 & Et & Hrep2). apply wp_ret. exists g2.
  assert (Hall : copies [] s g s2 g2) by (by eapply (copies_trans [] [])).
  split; [by eapply copies_evolves|]. split; [apply Hall|]. split; [|done]. rewrite Et. split; cbn; [done|by rewrite Es].
Qed.


(** ** A mutable snapshot of an immutable map *)

(** The cells a map gives up when it will not be written any more. *)
Definition release (id : nat) g : ghost := (fun x => (x.1, if decide (x.2 = Some id) then None else x.2)) <$> g.

Definition frozen (w : view) : view :=
  {| v_id := v_id w; v_seq := v_seq w; v_frozen := true; v_backed := v_backed w; v_type := v_type w |}.

Lemma release_usable s g l q :
  usable s g v l q -> usable s (release (v_id v) g) (frozen v) l q /\ usable s (release (v_id v) g) v' l q.
Proof.
  intros (o & n & Hl & Hn & Hq & Ho).
  assert (Hg : release (v_id v) g !! l = Some (q, None)).
  { unfold release. rewrite list_lookup_fmap, Hl. cbn. do 2 f_equal. case_decide as E; [done|].
    destruct (v_frozen v); [done|]. destruct Ho as [|[? _]]; done. }
  split; exists None, n; (split; [done|]); (split; [done|]); split; [done|done|lia|]. rewrite Hmut. right. split; [done|lia].
Qed.

Lemma release_lrep s g l m : lrep s g v l [] m ->
  lrep s (release (v_id v) g) (frozen v) l [] m /\ lrep s (release (v_id v) g) v' l [] m.
Proof.
  intros Hrep. split; eapply lrep_frame, Hrep; try done; intros l' p' _ Hu; (split; [by apply release_usable|done]).
Qed.

Lemma snapShot_share t s g m :
  object_ok v t -> v_seq v' = u32 (v_seq v + 1) -> v_backed v' = true -> ghost_ok s g ->
  lrep s g v (root t) [] m -> mState t = smsImmutable ->
  wp (snapShot t true) s (fun t' s' => exists g', serves (frozen v) s' g' t m /\ serves v' s' g' t' m).
Proof.
  intros Ht Es' Eb Hg Hrep Hst. pose proof Ht as [Hbt Es]. unfold snapShot, new_map. apply wp_bind, wp_bind, wp_make_shared, wp_ret.
  set (s1 := store_alloc s _). set (g1 := g ++ [([], None)]). rewrite bool_decide_eq_true_2 by done. cbn [negb orb mState mBacked].
  assert (Hcp : copies [] s g s1 g1) by (by apply alloc_copies).
  assert (Hrep1 : lrep s1 g1 v (root t) [] m) by (eapply lrep_copies; [exact Hcp|apply apart_original|exact Hrep]).
  assert (Hg1 : ghost_ok s1 (release (v_id v) g1)).
  { unfold ghost_ok, release. rewrite length_fmap. apply Hcp. }
  destruct (release_lrep _ _ _ _ Hrep1) as [H1 H2]. apply wp_ret. exists (release (v_id v) g1). split.
  - split; [done|]. split; [done|exact H1].
  - split; [done|]. split; [|exact H2]. split; cbn; [done|by rewrite Es].
Qed.

End Snapshot.

(** ** Two maps side by side *)

Section Pair.
Context `{SHA : SHA512} (isTransaction hasMeta : bool).
Let ty := leaf_type isTransaction hasMeta.
Implicit Types (s : Store) (g : ghost) (m : kmap) (t : SHAMap).

(** Operations on the original ([false]) and on the snapshot ([true]), in the order
    they happen; the answers of each, in order. *)
Fixpoint run2 (ops : list (bool * op)) (t1 t2 : SHAMap) : M (list answer * list answer) :=
  match ops with
  | [] => mret ([], [])
  | (false, o) :: ops =>
      '(a, t1) ← exec isTransaction hasMeta o t1;
      '(as1, as2) ← run2 ops t1 t2;
      mret (a :: as1, as2)
  | (true, o) :: ops =>
      '(a, t2) ← exec isTransaction hasMeta o t2;
      '(as1, as2) ← run2 ops t1 t2;
      mret (as1, a :: as2)
  end.

Fixpoint side (b : bool) (ops : list (bool * op)) : list op :=
  match ops with
  | [] => []
  | (b', o) :: ops => if Bool.eqb b b' then o :: side b ops else side b ops
  end.

Definition is_read (o : op) : Prop := match o with opAdd _ | opUpdate _ | opDel _ => False | _ => True end.

Lemma serves_other v w s g s' g' t m :
  view_ok w -> v_id w <> v_id v -> evolves v s g s' g' -> serves w s g t m -> serves w s' g' t m.
Proof.
  intros Hw Hid Hev (Hg & Ht & Hrep). split; [apply Hev|]. split; [done|]. apply (ev_rep _ _ _ _ _ Hev); [done|by right|done].
Qed.

Section Run2.
Context (v1 v2 : view) (Hv1 : view_ok v1) (Hv2 : view_ok v2) (Hid : v_id v1 <> v_id v2).
Context (Hty1 : v_type v1 = ty) (Hty2 : v_type v2 = ty) (Hmut2 : v_frozen v2 = false).
Context (ms : list kmap) (Hnc : no_collision ty ms).

Definition known (ops : list op) m : Prop := forall m', m' ∈ states ops m -> m' ∈ ms /\ map_ok ty m'.

Lemma known_head o ops m : known (o :: ops) m ->
  m ∈ ms /\ map_ok ty m /\ after o m ∈ ms /\ map_ok ty (after o m) /\ known ops (after o m).
Proof.
  intros H. destruct (H m) as [? ?]; [apply states_head|].
  destruct (H (after o m)) as [? ?]; [cbn; apply list_elem_of_further, states_head|].
  split_and!; try done. intros m' Hm'. apply H. cbn. by apply list_elem_of_further.
Qed.

Lemma original_step o t s g m :
  (v_frozen v1 = true -> is_read o) -> known [o] m -> op_ok o -> serves v1 s g t m ->
  wp (exec isTransaction hasMeta o t) s (served v1 s g t m o).
Proof.
  intros Hread Hkn Ho Hs. destruct (known_head _ _ _ Hkn) as (? & ? & ? & ? & _). destruct (v_frozen v1) eqn:E.
  - apply exec_read_ok; [done|done|done|]. specialize (Hread eq_refl). by destruct o.
  - eapply exec_ok; rewrite ?Hty1; done.
Qed.

Lemma run2_ok ops : forall t1 t2 s g m1 m2,
  (v_frozen v1 = true -> Forall is_read (side false ops)) -> Forall (fun x => op_ok x.2) ops ->
  known (side false ops) m1 -> known (side true ops) m2 -> serves v1 s g t1 m1 -> serves v2 s g t2 m2 ->
  wp (run2 ops t1 t2) s (fun '(as1, as2) _ => trace ty m1 (side false ops) as1 /\ trace ty m2 (side true ops) as2).
Proof.
  induction ops as [|[b o] ops IH]; intros t1 t2 s g m1 m2 Hread Hops Hk1 Hk2 Hs1 Hs2; [done|].
  apply Forall_cons in Hops as [Ho Hops]. cbn [snd] in Ho. destruct b; cbn [run2 side Bool.eqb] in *.
  - destruct (known_head _ _ _ Hk2) as (Hm & Hok & Hm' & Hok' & Hk2'). apply wp_bind. eapply wp_mono.
    { apply (exec_ok v2 Hv2 Hmut2 ms ltac:(by rewrite Hty2) isTransaction hasMeta (eq_sym Hty2) o t2 s g m2);
        rewrite ?Hty2; done. }
    intros [a t2'] s1 (Ha & g1 & Hev & _ & Hs2'). apply wp_bind. eapply wp_mono.
    { apply (IH t1 t2' s1 g1 m1 (after o m2)); try done. by eapply (serves_other v2 v1). }
    intros [as1 as2] s2 [? ?]. apply wp_ret. rewrite Hty2 in Ha. done.
  - destruct (known_head _ _ _ Hk1) as (Hm & Hok & Hm' & Hok' & Hk1'). apply wp_bind. eapply wp_mono.
    { apply (original_step o t1 s g m1); try done.
      - intros E. by apply Forall_cons in Hread as [? _].
      - intros m' Hm0. apply Hk1. cbn in Hm0 |- *. apply elem_of_cons in Hm0 as [->|Hm0]; [apply list_elem_of_here|].
        apply list_elem_of_singleton in Hm0 as ->. apply list_elem_of_further, states_head. }
    intros [a t1'] s1 (Ha & g1 & Hev & _ & Hs1'). apply wp_bind. eapply wp_mono.
    { apply (IH t1' t2 s1 g1 (after o m1) m2); try done; [intros E; by apply Forall_cons in Hread as [_ ?]|].
      by eapply (serves_other v1 v2); [..|]. }
    intros [as1 as2] s2 [? ?]. apply wp_ret. rewrite Hty1 in Ha. done.
Qed.
End Run2.

(** ** A map and its snapshot *)

(** A map is built, possibly made immutable, a snapshot is taken, and operations
    on the two follow in any order. *)
Definition with_snapshot (seq : Z) (build : list op) (freeze isMutable : bool) (ops : list (bool * op))
    : M (list answer * list answer) :=
  '(_, t) ← (t ← new_map seq; run isTransaction hasMeta build t);
  let t := if freeze then setImmutable t else t in
  t2 ← snapShot t isMutable;
  run2 ops t t2.

Definition start (d : gmap uint256 Blob) : Store := {| cells := []; db := d |}.

Lemma start_clean d : clean (start d) [].
Proof. split; [intros l p o n Hl; by rewrite lookup_nil in Hl|intros l n Hl; cbn in Hl; by rewrite lookup_nil in Hl]. Qed.

Lemma build_ok seq build d ms :
  0 < seq -> Forall op_ok build -> no_collision ty ms -> known ms build ∅ ->
  wp (t ← new_map seq; run isTransaction hasMeta build t) (start d) (fun '(_, t) s => exists g, clean s g /\
    serves (fresh_view 0 seq ty) s g t (final build ∅) /\ mState t = smsModifying).
Proof.
  intros Hseq Hops Hnc Hkn. apply wp_bind.
  eapply wp_mono; [by apply (new_map_ok 0 seq ty (start d) []); [|apply leaf_type_leafy|]|].
  intros t s1 (g1 & Hev1 & Hs1 & Hst). eapply wp_mono.
  { by apply (run_ok _ (fresh_view_ok 0 seq isTransaction hasMeta Hseq) eq_refl ms Hnc isTransaction hasMeta eq_refl build t s1 g1 ∅). }
  intros [as_ t'] s2 (_ & g2 & Hev2 & Et & Hs2). exists g2. split_and!; [|done|by rewrite Et].
  apply Hev2, Hev1, start_clean.
Qed.

Lemma known_app ms build ops1 ops2 :
  (forall m', m' ∈ states build ∅ ++ states ops1 (final build ∅) ++ states ops2 (final build ∅) -> m' ∈ ms /\ map_ok ty m') ->
  known ms build ∅ /\ known ms ops1 (final build ∅) /\ known ms ops2 (final build ∅).
Proof. intros H. split_and!; intros m' Hm'; apply H; rewrite !elem_of_app; auto. Qed.

(** C12: a snapshot is independent of its original.  A map is built by any
    operations, possibly made immutable, and a snapshot is taken (of a map that
    is not empty, or a mutable one of an immutable map); then operations on the
    two are interleaved in any order (an immutable map shared with a mutable
    snapshot is only read).  All of them return, and each map answers as a finite
    map of its own that started from the contents at the time of the snapshot. *)
Theorem snapshot_isolated (seq : Z) (build : list op) (freeze isMutable : bool) (ops : list (bool * op))
    (d : gmap uint256 Blob) :
  0 < seq -> seq + 1 < 2 ^ 32 -> Forall op_ok build -> Forall (fun x => op_ok x.2) ops ->
  (if freeze && isMutable then Forall is_read (side false ops) else final build ∅ <> ∅) ->
  Forall (map_ok ty) (states build ∅ ++ states (side false ops) (final build ∅) ++ states (side true ops) (final build ∅)) ->
  no_collision ty (states build ∅ ++ states (side false ops) (final build ∅) ++ states (side true ops) (final build ∅)) ->
  wp (with_snapshot seq build freeze isMutable ops) (start d) (fun '(as1, as2) _ =>
    trace ty (final build ∅) (side false ops) as1 /\ trace ty (final build ∅) (side true ops) as2).
Proof.
  intros Hseq Hmax Hbuild Hops Hcase Hok Hnc. rewrite Forall_forall in Hok.
  destruct (known_app _ build (side false ops) (side true ops) (fun m' Hm' => conj Hm' (Hok m' Hm'))) as (Hk0 & Hk1 & Hk2).
  set (v1 := fresh_view 0 seq ty). set (v2 := fresh_view 1 (seq + 1) ty).
  assert (Hv1 : view_ok v1) by (by apply fresh_view_ok). assert (Hv2 : view_ok v2) by (apply fresh_view_ok; lia).
  assert (Hs2 : v_seq v2 = u32 (v_seq v1 + 1)) by (cbn; rewrite u32_id; lia).
  assert (Hlt : v_seq v1 < v_seq v2) by (cbn; lia).
  unfold with_snapshot. apply wp_bind. eapply wp_mono; [by apply (build_ok seq build d _ Hseq Hbuild Hnc Hk0)|].
  intros [as0 t] s (g & Hcl & (Hg & Ht & Hrep) & Hst). fold v1 in Ht, Hrep. apply wp_bind.
  destruct (freeze && isMutable) eqn:Efm.
  - apply andb_true_iff in Efm as [-> ->]. eapply wp_mono.
    { by apply (snapShot_share v1 v2 eq_refl Hlt eq_refl eq_refl ltac:(done) (setImmutable t) s g (final build ∅)). }
    intros t2 s1 (g1 & Hs1 & Hs2'). eapply (run2_ok (frozen v1) v2); done.
  - eapply wp_mono.
    { apply (snapShot_copy v1 v2 Hv1 Hv2 eq_refl Hlt eq_refl eq_refl ltac:(done) (if freeze then setImmutable t else t) s g (final build ∅));
        try done; [by destruct freeze|by destruct freeze|].
      destruct freeze; [right; by destruct isMutable|left; by rewrite Hst]. }
    intros t2 s1 (g1 & Hev & Hs2'). eapply (run2_ok v1 v2); try done.
    eapply (serves_other v2 v1); try done. split; [done|]. split; [by destruct freeze|by destruct freeze].
Qed.

End Pair.


(** ** The empty map *)

(** A snapshot of an empty map shares its root with the original: an item added
    to the original later shows up in the snapshot, immutable or not. *)
Definition empty_snapshot (isMutable : bool) : M (option SHAMapItem) :=
  t ← new_map 1;
  t2 ← snapShot t isMutable;
  '(_, _) ← @addGiveItem Tiny t ex_a false false;
  @peekFirstItem Tiny t2.

Lemma empty_snapshot_aliased : forall isMutable, fst (empty_snapshot isMutable empty_store) = Ok (Some ex_a).
Proof. by intros []; vm_compute. Qed.

(** ** Witness *)

Definition ex_sides : list (bool * op) :=
  [(false, opAdd ex_a); (true, opHas (mTag ex_a)); (false, opDel (mTag ex_b)); (true, opHash); (false, opFirst)].

Definition ex_all : list kmap :=
  states [opAdd ex_b] ∅ ++ states (side false ex_sides) (final [opAdd ex_b] ∅) ++
  states (side true ex_sides) (final [opAdd ex_b] ∅).

Lemma ex_all_in m : m ∈ ex_all -> m ∈ ex_states.
Proof.
  intros H. assert (Hall : Forall (fun m => m ∈ ex_states) ex_all) by by_decide.
  rewrite Forall_forall in Hall. by apply Hall.
Qed.

Lemma snapshot_isolated_witness :
  @no_collision Tiny tnACCOUNT_STATE ex_all /\
  wp (@with_snapshot Tiny false false 1 [opAdd ex_b] false false ex_sides) (start ∅) (fun '(as1, as2) _ =>
    @trace Tiny tnACCOUNT_STATE (final [opAdd ex_b] ∅) (side false ex_sides) as1 /\
    @trace Tiny tnACCOUNT_STATE (final [opAdd ex_b] ∅) (side true ex_sides) as2).
Proof.
  assert (Hnc : @no_collision Tiny tnACCOUNT_STATE ex_all) by (eapply no_collision_mono, ex_no_collision; apply ex_all_in).
  split; [done|]. apply (@snapshot_isolated Tiny false false 1 [opAdd ex_b] false false ex_sides ∅);
    [lia|lia|by_decide|by_decide|by_decide| |done].
  apply Forall_forall. intros m Hm%ex_all_in k x Hk. split; [|done].
  assert (Hall : Forall (map_Forall (fun k _ => is_uint256 k)) ex_states) by by_decide.
  rewrite Forall_forall in Hall. by apply (Hall m Hm k x).
Defined.

End SHAMapSnapshot.
