(* ===== verification/SHAMapTyping.v ===== *)
(** * SHAMap: nodes keep their types

    Whatever the calls of SHAMap.cpp a process makes on its maps, and whether a
    call returns or throws, the nodes in the store and those the database gives
    back stay well formed: an inner node has sixteen hashes, a
    bitmap that says which of them are not zero, sixteen child slots whose
    pointers lead to nodes, and no item; a leaf has an item with a 256-bit key;
    and every node carries the hash of its contents.  Nothing is assumed of the
    hash function, of how the nodes hang together, or of the keys they sit at. *)
From Stdlib Require Import ZArith Lia.
From S2P Require Import Prelude BaseUint Serializer SHAMapNode SHAMapSpec SHAMap SHAMapRep SHAMapReads SHAMapWrites SHAMapAdd SHAMapDel SHAMapLaws.
From stdpp Require Import base numbers list gmap strings.
Import BaseUint Serializer SHAMapNode SHAMapSpec SHAMap SHAMapRep SHAMapReads SHAMapWrites SHAMapAdd SHAMapDel SHAMapLaws.
Local Open Scope Z_scope.

Module SHAMapTyping.

Section Typing.
Context `{SHA : SHA512}.
Implicit Types (s : Store) (n : SHAMapTreeNode) (l c : loc) (i : Z) (t : SHAMap).

(** ** Well-formed nodes *)

(** The inner data a node has, whatever its type: sixteen of everything, and no
    pointer past the [N] cells of the store. *)
Definition links_ok (N : nat) (inner : InnerData) : Prop :=
  inner_ok inner /\ forall j c, mChildren inner !!! j = Some c -> (c < N)%nat.

Definition shaped (N : nat) n : Prop :=
  (forall inner, mInner n = Some inner -> links_ok N inner) /\
  match mType n with
  | tnERROR => False
  | tnINNER => mItem n = None /\ is_Some (mInner n)
  | _ => exists item, mItem n = Some item /\ is_uint256 (mTag item)
  end.

Definition typed (N : nat) n : Prop := node_hash n = Ok (mHash n) /\ shaped N n.

Record store_typed s : Prop := {
  st_cells : forall l n, cells s !! l = Some n -> typed (length (cells s)) n;
  st_db : forall hash n, db_node s hash = Some n -> typed 0 n /\ mHash n = hash }.

Lemma shaped_mono N N' n : (N <= N')%nat -> shaped N n -> shaped N' n.
Proof.
  intros HN [Hl Ht]. split; [|done]. intros inner Hi. destruct (Hl inner Hi) as [? Hc]. split; [done|].
  intros j c Hj. specialize (Hc j c Hj). lia.
Qed.

Lemma typed_mono N N' n : (N <= N')%nat -> typed N n -> typed N' n.
Proof. intros HN [Hh Ht]. split; [done|by eapply shaped_mono]. Qed.

Lemma node_hash_key n h : node_hash n = Ok h -> is_uint256 h.
Proof.
  unfold node_hash. destruct (mType n); rewrite ?bind_Ok.
  - intros [= <-]. apply zero256_key.
  - intros (inner & _ & [= <-]). case_match; [apply sha512half_key|apply zero256_key].
  - intros (item & _ & [= <-]). apply sha512half_key.
  - intros (item & _ & [= <-]). apply sha512half_key.
  - intros (item & _ & [= <-]). apply sha512half_key.
Qed.

Lemma typed_key N n : typed N n -> is_uint256 (mHash n).
Proof. intros [H _]. by eapply node_hash_key. Qed.

Lemma typed_item N n item : typed N n -> mItem n = Some item -> is_uint256 (mTag item).
Proof.
  intros (_ & _ & Ht) Hi. destruct (mType n); try done; [by destruct Ht; congruence|..];
    destruct Ht as (x & Hx & ?); congruence.
Qed.

Lemma typed_links N n inner : typed N n -> inner_of n = Ok inner -> mInner n = Some inner /\ links_ok N inner.
Proof. intros (_ & Hl & _) Hi. unfold inner_of in Hi. destruct (mInner n) as [x|] eqn:E; [|done]. injection Hi as <-. auto. Qed.

(** *** What the node operations make *)

Lemma updateHash_typed N n n' ch : updateHash n = Ok (n', ch) -> shaped N n -> typed N n'.
Proof.
  unfold updateHash. intros (nh & Hnh & [= E])%bind_Ok Ht. case_bool_decide as Eh; injection E as <- _.
  - split; [congruence|done].
  - split; [|exact Ht]. unfold node_hash, inner_of, item_of in *. exact Hnh.
Qed.

Lemma new_inner_ok N : links_ok N new_inner.
Proof.
  split; [split_and!; [done|by_decide|apply bits_ok_new|done]|]. intros j c Hc. unfold new_inner in Hc. cbn [mChildren] in Hc.
  destruct (decide (j < 16)%nat).
  - rewrite lookup_total_replicate_2 in Hc by done. done.
  - rewrite list_lookup_total_alt, lookup_ge_None_2 in Hc; [done|]. rewrite length_replicate. lia.
Qed.

Lemma makeInner_typed N n : typed N (makeInner n).
Proof. split; [done|]. split; [|done]. intros inner [= <-]. apply new_inner_ok. Qed.

Lemma leafy_shaped N ty item h seq inn :
  leafy ty -> is_uint256 (mTag item) -> (forall inner, inn = Some inner -> links_ok N inner) ->
  shaped N {| mHash := h; mItem := Some item; mSeq := seq; mType := ty; mInner := inn |}.
Proof. intros Hty Hk Hl. split; [done|]. cbn [mType mItem]. destruct Hty as [-> |[-> | ->]]; by exists item. Qed.

Lemma item_node_typed N item ty seq n :
  leafy ty -> is_uint256 (mTag item) -> item_node item ty seq = Ok n -> typed N n.
Proof.
  intros Hty Hk. unfold item_node. destruct (updateHash _) as [[n' ch]|] eqn:E; [|done]. intros [= <-].
  eapply updateHash_typed; [exact E|]. by apply leafy_shaped.
Qed.

Lemma setItem_typed N n item ty n' ch :
  typed N n -> leafy ty -> is_uint256 (mTag item) -> setItem n item ty = Ok (n', ch) -> typed N n'.
Proof.
  intros (_ & Hl & _) Hty Hk E. eapply updateHash_typed; [exact E|]. by apply leafy_shaped.
Qed.

Lemma copy_node_typed N n seq n' : typed N n -> copy_node n seq = Ok n' -> typed N n'.
Proof.
  intros Hn. pose proof Hn as (Hh & Hl & Ht). unfold copy_node, isInner. case_bool_decide as E; cbn [negb].
  - rewrite E in Ht. destruct Ht as (Hi & inner & Hin). destruct (Hl inner Hin) as [Hok Hc]. unfold inner_of. rewrite Hin.
    intros [= <-]. split; [unfold node_hash, inner_of in *; cbn [mType mInner mHash]; rewrite E in *; by rewrite Hin in Hh|].
    split; cbn [mType mItem mInner]; [by intros x [= <-]|]. rewrite E. eauto.
  - intros [= <-]. split; [unfold node_hash, item_of in *; cbn [mType mItem mHash]; by destruct (mType n)|].
    split; cbn [mType mItem mInner]; [done|]. by destruct (mType n).
Qed.

Lemma with_inner_shaped N n inner inner' :
  typed N n -> mInner n = Some inner -> links_ok N inner' -> shaped N (with_inner n inner').
Proof.
  intros (_ & _ & Ht) Hin Hl. split; cbn [with_inner mInner mType mItem]; [by intros x [= <-]|].
  destruct (mType n); try done. destruct Ht. eauto.
Qed.

Lemma insert_pointer N (cs : list (option loc)) b child :
  (forall j c, cs !!! j = Some c -> (c < N)%nat) -> (forall c, child = Some c -> (c < N)%nat) ->
  forall j c, <[b := child]> cs !!! j = Some c -> (c < N)%nat.
Proof.
  intros Hcs Hch j c Hj. destruct (decide (j = b)) as [->|]; [|rewrite list_lookup_total_insert_ne in Hj by done; eauto].
  destruct (decide (b < length cs)%nat); [rewrite list_lookup_total_insert_eq in Hj by done; eauto|].
  rewrite list_insert_ge in Hj by lia. eauto.
Qed.

Lemma setChild_typed N n b h child n' ch :
  typed N n -> 0 <= b < 16 -> is_uint256 h -> (forall c, child = Some c -> (c < N)%nat) ->
  setChild n b h child = Ok (n', ch) -> typed N n'.
Proof.
  intros Hn Hb Hh Hch. unfold setChild. intros (inner & Hin & E)%bind_Ok.
  destruct (typed_links N n inner Hn Hin) as [Hin' [(Hl & Hk & Hbits & Hc) Hp]].
  case_bool_decide; [injection E as <- _; done|]. eapply updateHash_typed; [exact E|].
  apply (with_inner_shaped N n inner); [done|done|]. split; [|by apply insert_pointer].
  split_and!; cbn [mHashes mChildren mIsBranch]; [by rewrite length_insert|by apply Forall_insert|by apply bits_ok_insert|by rewrite length_insert].
Qed.

Lemma set_pointer_typed N n inner b c :
  typed N n -> mInner n = Some inner -> (c < N)%nat -> typed N (with_inner n (set_pointer inner b c)).
Proof.
  intros Hn Hin Hc. pose proof Hn as (Hh & Hl & Ht). destruct (Hl inner Hin) as [(Hl1 & Hk & Hbits & Hlc) Hp].
  split.
  - unfold node_hash, inner_of, item_of in *. cbn [with_inner mType mItem mInner mHash set_pointer mIsBranch mHashes].
    by rewrite Hin in Hh.
  - apply (with_inner_shaped N n inner); [done|done|]. split.
    + split_and!; cbn [set_pointer mHashes mChildren mIsBranch]; try done. by rewrite length_insert.
    + apply insert_pointer; [done|]. by intros x [= <-].
Qed.

(** ** Computations that keep the store well formed *)

Definition ext s s' : Prop := (length (cells s) <= length (cells s'))%nat.
Definition valid s l : Prop := (l < length (cells s))%nat.

(** Whether it returns or throws, the store stays well formed; a result has [Q]. *)
Definition safe {A} (c : M A) s (Q : A -> Store -> Prop) : Prop :=
  let '(r, s') := c s in
  store_typed s' /\ ext s s' /\ match r with Ok a => Q a s' | Throw _ => True end.

Lemma safe_bind {A B} (c : M A) (f : A -> M B) s (Q : B -> Store -> Prop) :
  safe c s (fun a s' => store_typed s' -> ext s s' -> safe (f a) s' Q) -> safe (c ≫= f) s Q.
Proof.
  unfold safe, mbind, M_bind. destruct (c s) as [[a|e] s']; intros (Hs & He & Hf); [|done].
  specialize (Hf Hs He). destruct (f a s') as [r s'']. destruct Hf as (? & ? & ?). split_and!; try done. unfold ext in *. lia.
Qed.

Lemma safe_mono {A} (c : M A) s (Q Q' : A -> Store -> Prop) :
  safe c s Q -> (forall a s', Q a s' -> Q' a s') -> safe c s Q'.
Proof. unfold safe. destruct (c s) as [[a|e] s']; intros (? & ? & ?) HQ; split_and!; auto. Qed.

Section Steps.
Context (s : Store) (Hs : store_typed s).

Lemma safe_ret {A} (a : A) (Q : A -> Store -> Prop) : Q a s -> safe (mret a) s Q.
Proof. intros. split; [done|]. split; [unfold ext; lia|done]. Qed.

Lemma safe_throw {A} e (Q : A -> Store -> Prop) : safe (throw e) s Q.
Proof. split; [done|]. split; [unfold ext; lia|done]. Qed.

Lemma safe_lift {A} (r : result A) (Q : A -> Store -> Prop) : (forall a, r = Ok a -> Q a s) -> safe (lift r) s Q.
Proof. intros H. split; [done|]. split; [unfold ext; lia|]. destruct r; auto. Qed.

Lemma safe_option {A} what (o : option A) (Q : A -> Store -> Prop) : (forall a, o = Some a -> Q a s) -> safe (from_option what o) s Q.
Proof. intros H. destruct o; [apply safe_ret; auto|apply safe_throw]. Qed.

Lemma safe_deref l (Q : SHAMapTreeNode -> Store -> Prop) :
  (forall n, valid s l -> typed (length (cells s)) n -> Q n s) -> safe (deref l) s Q.
Proof.
  intros H. unfold safe, deref. destruct (cells s !! l) as [n|] eqn:E; (split; [done|]); (split; [unfold ext; lia|]); [|done].
  apply H; [by eapply lookup_lt_Some|by eapply st_cells].
Qed.

Lemma safe_assign l n (Q : unit -> Store -> Prop) :
  typed (length (cells s)) n -> Q tt (store_write s l n) -> safe (assign l n) s Q.
Proof.
  intros Hn HQ. unfold safe, assign. split_and!; [|unfold ext; cbn; by rewrite length_insert|done]. split; [|apply Hs].
  cbn. intros l' x Hx. rewrite length_insert. destruct (decide (l' = l)) as [->|]; [|rewrite list_lookup_insert_ne in Hx by done; by eapply st_cells].
  apply list_lookup_insert_Some in Hx as [(_ & <- & _)|[? _]]; done.
Qed.

Lemma safe_make_shared n (Q : loc -> Store -> Prop) :
  typed (length (cells s)) n -> (valid (store_alloc s n) (length (cells s)) -> Q (length (cells s)) (store_alloc s n)) ->
  safe (make_shared n) s Q.
Proof.
  intros Hn HQ. assert (Hl : length (cells (store_alloc s n)) = S (length (cells s))) by (cbn; rewrite length_app; cbn; lia).
  unfold safe, make_shared. split_and!; [|unfold ext; cbn [cells]; rewrite length_app; lia|apply HQ; unfold valid; lia].
  split; [|apply Hs]. intros l x Hx. change (length _) with (length (cells (store_alloc s n))). rewrite Hl.
  apply (typed_mono (length (cells s))); [lia|]. cbn in Hx. apply lookup_app_Some in Hx as [|[_ Hx]]; [by eapply st_cells|].
  by apply list_lookup_singleton_Some in Hx as [_ <-].
Qed.
End Steps.

Lemma typed_ext s s' n : ext s s' -> typed (length (cells s)) n -> typed (length (cells s')) n.
Proof. apply typed_mono. Qed.

Lemma valid_ext s s' l : ext s s' -> valid s l -> valid s' l.
Proof. unfold ext, valid. lia. Qed.

Lemma selectBranch_range id k b : is_uint256 k -> selectBranch id k = Some b -> 0 <= b < 16.
Proof.
  intros [_ Hk]. unfold selectBranch. intros (x & Hx & [= <-])%bind_Some. unfold depth_byte in Hx.
  case_match; [done|]. rewrite Forall_lookup in Hk. pose proof (Hk _ _ Hx) as Hb. case_match.
  - change 15 with (Z.ones 4). rewrite Z.land_ones by lia. apply Z.mod_pos_bound. lia.
  - unfold is_u8 in Hb. rewrite Z.shiftr_div_pow2 by lia. split; [apply Z.div_pos; lia|]. apply Z.div_lt_upper_bound; lia.
Qed.

Definition anything {A} : A -> Store -> Prop := fun _ _ => True.

(** ** Reading *)

Section Reading.
Context (t : SHAMap).

Lemma fetchNodeNT_safe s hash : store_typed s -> safe (fetchNodeNT t hash) s (fun o s' => forall l, o = Some l -> valid s' l).
Proof.
  intros Hs. unfold fetchNodeNT, fetchNodeFromDB, safe. destruct (mBacked t); [|split_and!; [done|unfold ext; lia|done]].
  destruct (db_node s hash) as [n|] eqn:E; [|split_and!; [done|unfold ext; lia|done]].
  change (safe (o ← make_shared n; mret (Some o)) s (fun o s' => forall l, o = Some l -> valid s' l)).
  apply safe_bind, safe_make_shared; [done|eapply typed_mono; [|by eapply st_db]; lia|].
  intros Hl Hs' _. apply safe_ret; [done|]. by intros l [= <-].
Qed.

Lemma fetchNode_safe s hash : store_typed s -> safe (fetchNode t hash) s (fun l s' => valid s' l).
Proof.
  intros Hs. unfold fetchNode. apply safe_bind. eapply safe_mono; [by apply fetchNodeNT_safe|].
  intros [l|] s' Hl Hs' _; [by apply safe_ret; [|apply Hl]|by apply safe_throw].
Qed.

Lemma hook_safe s parent b node : store_typed s -> valid s node -> safe (hook parent b node) s anything.
Proof.
  intros Hs Hl. unfold hook. apply safe_bind, safe_deref; [done|]. intros n _ Hn _ _.
  apply safe_bind, safe_lift; [done|]. intros [c n'] E _ _. unfold canonicalizeChild in E.
  apply bind_Ok in E as (inner & Hin & [= E]). destruct (typed_links _ _ _ Hn Hin) as [Hin' Hlk].
  apply safe_bind, safe_assign; [done| |intros Hs' _; by apply safe_ret].
  destruct (mChildren inner !!! Z.to_nat b); injection E as <- <-; [done|]. by apply set_pointer_typed.
Qed.

Lemma or_missing_safe s parent b o : store_typed s -> safe (or_missing parent b o) s anything.
Proof.
  intros Hs. unfold or_missing. destruct o; [by apply safe_ret|].
  apply safe_bind, safe_deref; [done|]. intros n _ _ _ _. apply safe_bind, safe_lift; [done|]. intros e _ _ _.
  destruct e; cbn [negb]; [by apply safe_throw|]. apply safe_bind, safe_lift; [done|]. intros. by apply safe_throw.
Qed.

Lemma descendThrow_safe s parent b : store_typed s -> safe (descendThrow t parent b) s anything.
Proof.
  intros Hs. unfold descendThrow, descend. apply safe_bind. eapply safe_mono with (Q := anything).
  - apply safe_bind, safe_deref; [done|]. intros n _ _ _ _. apply safe_bind, safe_lift; [done|]. intros [c|] _ _ _; [by apply safe_ret|].
    destruct (mBacked t) eqn:Eb; cbn [negb]; [|by apply safe_ret].
    apply safe_bind, safe_lift; [done|]. intros hash _ _ _. apply safe_bind. eapply safe_mono; [by apply fetchNodeNT_safe|].
    intros [l|] s' Hl Hs' _; [|by apply safe_ret]. apply safe_bind. eapply safe_mono; [by apply hook_safe, Hl|].
    intros. by apply safe_ret.
  - intros o s' _ Hs' _. by apply or_missing_safe.
Qed.

Lemma descendThrow_ref_safe s parent b : store_typed s -> safe (descendThrow_ref t parent b) s anything.
Proof.
  intros Hs. unfold descendThrow_ref, descend_ref. apply safe_bind. eapply safe_mono with (Q := anything).
  - apply safe_bind, safe_deref; [done|]. intros n _ _ _ _. apply safe_bind, safe_lift; [done|]. intros [c|] _ _ _; [by apply safe_ret|].
    destruct (mBacked t) eqn:Eb; cbn [negb]; [|by apply safe_ret].
    apply safe_bind, safe_lift; [done|]. intros hash _ _ _. apply safe_bind. eapply safe_mono; [by apply fetchNode_safe|].
    intros l s' Hl Hs' _. apply safe_bind. eapply safe_mono; [by apply hook_safe|]. intros. by apply safe_ret.
  - intros o s' _ Hs' _. by apply or_missing_safe.
Qed.
End Reading.

(** One step of a computation; [tac] knows the calls. *)
Ltac safe_step tac :=
  lazymatch goal with
  | |- safe (mret _) _ _ => apply safe_ret; [assumption|try done]
  | |- safe (throw _) _ _ => by apply safe_throw
  | |- safe (mbind _ (mret _)) _ _ => apply safe_bind, safe_ret; [assumption|]; intros ? _
  | |- safe (mbind _ (deref _)) _ _ => apply safe_bind, safe_deref; [assumption|]; intros ? ? ? ? _
  | |- safe (mbind _ (lift _)) _ _ => apply safe_bind, safe_lift; [assumption|]; intros ? ? ? _
  | |- safe (mbind _ (from_option _ _)) _ _ => apply safe_bind, safe_option; [assumption|]; intros ? ? ? _
  | |- safe (mbind _ (match _ with _ => _ end)) _ _ => apply safe_bind
  | |- safe (mbind _ _) _ _ => apply safe_bind; eapply safe_mono; [solve [tac]|]; intros ? ? ? ? ?
  | |- safe (match ?x with _ => _ end) _ _ => destruct x eqn:?
  | |- safe _ _ _ => eapply safe_mono; [solve [tac]|]; intros ? ? ?; try done
  end.
Ltac safe_steps tac := repeat (cbn beta iota zeta; safe_step tac).

(** ** Walks and lookups *)

Section Walks.
Context (t : SHAMap).

Ltac call := first [by apply descendThrow_safe|by apply descendThrow_ref_safe].

Lemma getStack_safe k b s : store_typed s -> safe (getStack t k b) s anything.
Proof.
  unfold getStack. generalize (@nil (loc * SHAMapNodeID)), (root t), root_id. generalize depth_fuel.
  intros fuel. revert s. induction fuel as [|fuel IH]; intros s st l id Hs; cbn [getStack_loop]; [by apply safe_throw|].
  safe_steps ltac:(first [call|by apply IH]).
Qed.

Lemma walkToPointer_safe k s : store_typed s -> safe (walkToPointer t k) s anything.
Proof.
  unfold walkToPointer. generalize (root t), root_id. generalize depth_fuel.
  intros fuel. revert s. induction fuel as [|fuel IH]; intros s l id Hs; cbn [walkToPointer_loop]; [by apply safe_throw|].
  safe_steps ltac:(first [call|by apply IH]).
Qed.

Lemma below_loop_safe order fuel : forall l s, store_typed s -> safe (below_loop t fuel order l) s anything.
Proof.
  induction fuel as [|fuel IH]; intros l s Hs; cbn [below_loop]; [by apply safe_throw|].
  safe_steps ltac:(first [call|by apply IH]).
Qed.

Lemma only_scan_safe l order : forall next s, store_typed s -> safe (only_scan t l order next) s anything.
Proof.
  induction order as [|i order IH]; intros next s Hs; cbn [only_scan]; [by apply safe_ret|].
  safe_steps ltac:(first [call|by apply IH]).
Qed.

(** [onlyBelow] answers with the item of a node. *)
Lemma onlyBelow_safe l s : store_typed s ->
  safe (onlyBelow t l) s (fun o _ => forall item, o = Some item -> is_uint256 (mTag item)).
Proof.
  unfold onlyBelow. generalize depth_fuel. intros fuel. revert l s.
  induction fuel as [|fuel IH]; intros l s Hs; cbn [onlyBelow_loop]; [by apply safe_throw|].
  safe_steps ltac:(first [by apply only_scan_safe|by apply IH]).
  intros item. by eapply typed_item.
Qed.

Lemma peek_at_safe o s : store_typed s -> safe (peek_at o) s anything.
Proof. intros Hs. unfold peek_at. safe_steps idtac. Qed.

Lemma peekNext_loop_safe k st : forall s, store_typed s -> safe (peekNext_loop t k st) s anything.
Proof.
  induction st as [|[l id] st IH]; intros s Hs; cbn [peekNext_loop]; [by apply safe_ret|].
  safe_steps ltac:(first [call|by apply below_loop_safe|by apply IH]).
Qed.

Lemma peekPrev_loop_safe k st : forall s, store_typed s -> safe (peekPrev_loop t k st) s anything.
Proof.
  induction st as [|[l id] st IH]; intros s Hs; cbn [peekPrev_loop]; [by apply safe_ret|].
  safe_steps ltac:(first [call|by apply below_loop_safe|by apply IH]).
Qed.
End Walks.

(** ** Writes *)

Lemma unshareNode_safe t l id s : store_typed s -> safe (unshareNode t l id) s (fun x s' => valid s' x.1).
Proof.
  intros Hs. unfold unshareNode. apply safe_bind, safe_deref; [done|]. intros n Hl Hn _ _.
  destruct (negb _); [|by apply safe_ret]. apply safe_bind, safe_lift; [done|]. intros n' E _ _.
  apply safe_bind, safe_make_shared; [done|by eapply copy_node_typed|]. intros Hl' Hs' _. by apply safe_ret.
Qed.

Lemma set_child_safe l b h child s :
  store_typed s -> 0 <= b < 16 -> is_uint256 h -> (forall c, child = Some c -> valid s c) ->
  safe (set_child l b h child) s anything.
Proof.
  intros Hs Hb Hh Hc. unfold set_child. apply safe_bind, safe_deref; [done|]. intros n _ Hn _ _.
  apply safe_bind, safe_lift; [done|]. intros [n' ch] E _ _. apply safe_bind, safe_assign; [done|by eapply setChild_typed|].
  intros Hs' _. by apply safe_ret.
Qed.

Lemma set_item_safe l item ty s :
  store_typed s -> leafy ty -> is_uint256 (mTag item) -> safe (set_item l item ty) s anything.
Proof.
  intros Hs Hty Hk. unfold set_item. apply safe_bind, safe_deref; [done|]. intros n _ Hn _ _.
  apply safe_bind, safe_lift; [done|]. intros [n' ch] E _ _. apply safe_bind, safe_assign; [done|by eapply setItem_typed|].
  intros Hs' _. by apply safe_ret.
Qed.

Lemma dirtyUp_safe k st : is_uint256 k -> forall t c s, store_typed s -> valid s c -> safe (dirtyUp t st k c) s anything.
Proof.
  intros Hk. induction st as [|[l id] st IH]; intros t c s Hs Hc; cbn [dirtyUp]; [by apply safe_ret|].
  apply safe_bind, safe_option; [done|]. intros b Hb _ _. apply safe_bind. eapply safe_mono; [by apply unshareNode_safe|].
  intros [l' t'] s1 Hl' Hs1 He1. cbn [fst] in Hl'. apply safe_bind, safe_deref; [done|]. intros n Hvc Hn _ _.
  apply safe_bind. eapply safe_mono; [apply set_child_safe; [done|by eapply selectBranch_range|by eapply typed_key|by intros x [= <-]]|].
  intros ch s2 _ Hs2 He2. destruct (negb ch); [by apply safe_ret|]. apply IH; [done|by eapply valid_ext].
Qed.

(** A new leaf set as a child. *)
Lemma put_leaf_safe {A} item ty seq l b (rest : M A) s :
  store_typed s -> leafy ty -> is_uint256 (mTag item) -> 0 <= b < 16 -> 
  (forall s', store_typed s' -> ext s s' -> safe rest s' anything) ->
  safe (leaf ← lift (item_node item ty seq); newNode ← make_shared leaf;
        _ ← set_child l b (mHash leaf) (Some newNode); rest) s anything.
Proof.
  intros Hs Hty Hk Hb Hrest. apply safe_bind, safe_lift; [done|]. intros leaf Hleaf _ _.
  assert (Hn : forall N, typed N leaf) by (intros; by eapply item_node_typed).
  apply safe_bind, safe_make_shared; [done|done|]. intros Hl Hs1 He1. apply safe_bind.
  eapply safe_mono; [apply set_child_safe; [done|done|by eapply typed_key, (Hn 0%nat)|by intros x [= <-]]|].
  intros ch s2 _ Hs2 He2. apply Hrest; [done|]. unfold ext in *. lia.
Qed.

Lemma split_loop_safe tag other fuel :
  is_uint256 tag -> is_uint256 other -> forall t l id st s, store_typed s -> valid s l ->
  safe (split_loop t fuel tag other l id st) s (fun '(l', b1, b2, _) s' => valid s' l' /\ 0 <= b1 < 16 /\ 0 <= b2 < 16).
Proof.
  intros H1 H2. induction fuel as [|fuel IH]; intros t l id st s Hs Hl; cbn [split_loop]; [by apply safe_throw|].
  apply safe_bind, safe_option; [done|]. intros b1 Hb1 _ _. apply safe_bind, safe_option; [done|]. intros b2 Hb2 _ _.
  pose proof (selectBranch_range _ _ _ H1 Hb1). pose proof (selectBranch_range _ _ _ H2 Hb2).
  destruct (b1 =? b2); [|by apply safe_ret].
  apply safe_bind, safe_option; [done|]. intros id' _ _ _.
  apply safe_bind, safe_make_shared; [done|apply makeInner_typed|]. intros Hl' Hs' _. by apply IH.
Qed.

Lemma add_at_leaf_safe t item ty l id st s :
  store_typed s -> leafy ty -> is_uint256 (mTag item) -> safe (add_at_leaf t item ty l id st) s anything.
Proof.
  intros Hs Hty Hk. unfold add_at_leaf. apply safe_bind, safe_deref; [done|]. intros n Hl Hn _ _.
  apply safe_bind, safe_lift; [done|]. intros other Hother _ _.
  assert (Ho : is_uint256 (mTag other)).
  { unfold item_of in Hother. destruct (mItem n) eqn:E; [|done]. injection Hother as ->. by eapply typed_item. }
  apply safe_bind, safe_assign; [done|apply makeInner_typed|]. intros Hs1 He1. apply safe_bind.
  eapply safe_mono; [by apply (split_loop_safe _ _ _ Hk Ho); [|by eapply valid_ext]|].
  intros [[[l' b1] b2] st'] s2 (Hl2 & Hb1 & Hb2) Hs2 He2. apply put_leaf_safe; try done. intros s3 Hs3 He3.
  apply put_leaf_safe; try done. intros s4 Hs4 He4. apply dirtyUp_safe; [done|done|].
  eapply valid_ext; [exact He4|]. by eapply valid_ext.
Qed.

Lemma add_at_inner_safe t item ty l id st s :
  store_typed s -> leafy ty -> is_uint256 (mTag item) -> valid s l -> safe (add_at_inner t item ty l id st) s anything.
Proof.
  intros Hs Hty Hk Hl. unfold add_at_inner. apply safe_bind, safe_option; [done|]. intros b Hb _ _.
  apply put_leaf_safe; [done|done|done|by eapply selectBranch_range|]. intros s1 Hs1 He1.
  apply dirtyUp_safe; [done|done|by eapply valid_ext].
Qed.

Lemma addGiveItem_safe t item isTransaction hasMeta s :
  store_typed s -> is_uint256 (mTag item) -> safe (addGiveItem t item isTransaction hasMeta) s anything.
Proof.
  intros Hs Hk. pose proof (leaf_type_leafy isTransaction hasMeta) as Hty. unfold addGiveItem.
  apply safe_bind. eapply safe_mono; [by apply getStack_safe|]. intros [|[l id] st] s1 _ Hs1 _; [by apply safe_throw|].
  apply safe_bind, safe_deref; [done|]. intros n _ _ _ _. case_match; [by apply safe_ret|].
  apply safe_bind. eapply safe_mono; [by apply unshareNode_safe|]. intros [l' t'] s2 Hl' Hs2 _. cbn [fst] in Hl'.
  apply safe_bind, safe_deref; [done|]. intros n' _ _ _ _. apply safe_bind. eapply safe_mono with (Q := anything).
  - destruct (isInner n'); [by apply add_at_inner_safe|by apply add_at_leaf_safe].
  - intros. by apply safe_ret.
Qed.

Lemma updateGiveItem_safe t item isTransaction hasMeta s :
  store_typed s -> is_uint256 (mTag item) -> safe (updateGiveItem t item isTransaction hasMeta) s anything.
Proof.
  intros Hs Hk. pose proof (leaf_type_leafy isTransaction hasMeta) as Hty. unfold updateGiveItem.
  apply safe_bind. eapply safe_mono; [by apply getStack_safe|]. intros [|[l id] st] s1 _ Hs1 _; [by apply safe_throw|].
  apply safe_bind, safe_deref; [done|]. intros n _ _ _ _. case_match; [by apply safe_ret|].
  apply safe_bind. eapply safe_mono; [by apply unshareNode_safe|]. intros [l' t'] s2 Hl' Hs2 _. cbn [fst] in Hl'.
  apply safe_bind. eapply safe_mono; [by apply set_item_safe|]. intros ch s3 _ Hs3 He3.
  destruct (negb ch); [by apply safe_ret|]. apply safe_bind. eapply safe_mono; [apply dirtyUp_safe; [done|done|by eapply valid_ext]|].
  intros. by apply safe_ret.
Qed.

Lemma clear_first_safe l order : Forall (fun i => 0 <= i < 16) order -> forall s, store_typed s -> safe (clear_first l order) s anything.
Proof.
  induction 1 as [|i order Hi _ IH]; intros s Hs; cbn [clear_first]; [by apply safe_ret|].
  apply safe_bind, safe_deref; [done|]. intros n _ _ _ _. apply safe_bind, safe_lift; [done|]. intros e _ _ _.
  destruct e; [by apply IH|]. apply safe_bind. eapply safe_mono; [apply set_child_safe; [done|done|apply zero256_key|done]|].
  intros. by apply safe_ret.
Qed.

Lemma delItem_loop_safe k ty st : is_uint256 k -> leafy ty -> forall t prevHash prevNode s,
  store_typed s -> is_uint256 prevHash -> (forall c, prevNode = Some c -> valid s c) ->
  safe (delItem_loop t k ty st prevHash prevNode) s anything.
Proof.
  intros Hk Hty. induction st as [|[l id] st IH]; intros t h prev s Hs Hh Hp; cbn [delItem_loop]; [by apply safe_ret|].
  apply safe_bind. eapply safe_mono; [by apply unshareNode_safe|]. intros [l' t'] s1 Hl' Hs1 He1. cbn [fst] in Hl'.
  apply safe_bind, safe_option; [done|]. intros b Hb _ _.
  assert (Hp1 : forall c, prev = Some c -> valid s1 c) by (intros; eapply valid_ext; eauto).
  apply safe_bind. eapply safe_mono; [apply set_child_safe; [done|by apply (selectBranch_range id k)|done|done]|].
  intros ch s2 _ Hs2 He2. destruct (negb ch); [by apply safe_ret|].
  assert (Hgo : forall s', store_typed s' -> ext s2 s' -> safe (n ← deref l'; delItem_loop t' k ty st (mHash n) (Some l')) s' anything).
  { intros s' Hs' He'. apply safe_bind, safe_deref; [done|]. intros n Hl Hn _ _.
    apply IH; [done|by eapply typed_key|by intros x [= <-]]. }
  destruct (negb (isRoot id)); [|apply IH; [done|done|]; intros; eapply valid_ext; eauto].
  apply safe_bind, safe_deref; [done|]. intros n _ _ _ _. apply safe_bind, safe_lift; [done|]. intros bc _ _ _.
  destruct (bc =? 0); [apply IH; [done|apply zero256_key|done]|].
  destruct (bc =? 1); [|apply Hgo; [done|unfold ext; lia]].
  apply safe_bind. eapply safe_mono; [by apply onlyBelow_safe|]. intros o s3 Ho Hs3 He3. apply safe_bind.
  eapply safe_mono with (Q := anything); [|intros [] s4 _ Hs4 He4; apply Hgo; [done|unfold ext in *; lia]].
  destruct o as [item|]; [|by apply safe_ret]. apply safe_bind.
  eapply safe_mono; [by apply clear_first_safe; [apply branches_range|]|]. intros _ s4 _ Hs4 _.
  apply safe_bind. eapply safe_mono; [by apply set_item_safe; [..|apply Ho]|]. intros. by apply safe_ret.
Qed.

Lemma delItem_safe t k s : store_typed s -> is_uint256 k -> safe (delItem t k) s anything.
Proof.
  intros Hs Hk. unfold delItem. apply safe_bind. eapply safe_mono; [by apply getStack_safe|].
  intros [|[l id] st] s1 _ Hs1 _; [by apply safe_throw|]. apply safe_bind, safe_deref; [done|]. intros n _ Hn _ _.
  destruct (mItem n) as [item|] eqn:Ei; [|by apply safe_ret]. case_bool_decide; [|by apply safe_ret]. apply safe_bind.
  assert (Hty : leafy (mType n)).
  { destruct Hn as (_ & _ & Ht). unfold leafy. destruct (mType n); [done|by destruct Ht; congruence|auto..]. }
  eapply safe_mono; [by apply delItem_loop_safe; [..|apply zero256_key|]|]. intros. by apply safe_ret.
Qed.

(** ** Snapshots and roots *)

Lemma preFlushNode_safe t l s : store_typed s -> safe (preFlushNode t l) s (fun l' s' => valid s' l').
Proof.
  intros Hs. unfold preFlushNode. apply safe_bind, safe_deref; [done|]. intros n Hl Hn _ _.
  destruct (negb _); [|by apply safe_ret]. apply safe_bind, safe_lift; [done|]. intros n' E _ _.
  apply safe_make_shared; [done|by eapply copy_node_typed|done].
Qed.

Lemma share_child_safe l b c s : store_typed s -> valid s c -> safe (share_child l b c) s anything.
Proof.
  intros Hs Hc. unfold share_child. apply safe_bind, safe_deref; [done|]. intros n _ Hn _ _.
  apply safe_bind, safe_lift; [done|]. intros n' E _ _. unfold shareChild in E. apply bind_Ok in E as (inner & Hin & [= <-]).
  destruct (typed_links _ _ _ Hn Hin) as [Hin' _]. apply safe_assign; [done|by apply set_pointer_typed|done].
Qed.

(** A well-formed node that is written to the database is read from there well formed,
    under its hash, or not at all (a state item with a zero key). *)
Lemma tagged_any short invalid z item item' :
  is_uint256 (mTag item) -> tagged_item short invalid z (mData item ++ mTag item) = Ok item' -> item' = item.
Proof.
  intros [Hl _]. unfold tagged_item, get256_at, bytes_at, chop. rewrite length_app, Hl.
  rewrite (proj2 (Nat.ltb_ge (length (mData item) + 32) 32)) by lia.
  replace (length (mData item) + 32 - 32)%nat with (length (mData item)) by lia.
  rewrite Nat.ltb_irrefl, drop_app_length, take_ge by lia. cbn [default from_option id].
  destruct (z && isZero (mTag item)); [done|]. cbn [snd]. rewrite take_app_length. intros [= <-]. by destruct item.
Qed.

Lemma leaf_back N n item ty item' :
  leafy ty -> mType n = ty -> typed N n -> mItem n = Some item -> mData item' = mData item ->
  (ty = tnTRANSACTION_NM \/ mTag item' = mTag item) -> is_uint256 (mTag item') ->
  typed 0 (with_hash (item_contents ty item' 0) (mHash n)).
Proof.
  intros Hty Et [Hh _] Hi Hd Ht Hk. split; [|by apply leafy_shaped]. unfold node_hash, item_of in *. cbn [with_hash item_contents mType mItem mHash].
  rewrite Et, Hi in Hh. destruct Hty as [-> |[-> | ->]]; cbn [mbind result_bind] in *; rewrite ?Hd; [done|..]; destruct Ht as [|Ht]; [done| |done|]; by rewrite ?Ht.
Qed.

Lemma fresh_links inner f : inner_ok inner -> links_ok 0 {| mHashes := mHashes inner; mChildren := replicate 16 None; mIsBranch := mIsBranch inner; mFullBelow := f |}.
Proof. intros (? & ? & ? & ?). split; [split_and!; try done; by_decide|]. apply (new_inner_ok 0). Qed.

Lemma read_back N n raw n' :
  typed N n -> addRaw_node n snfPREFIX [] = Ok raw -> raw_node raw 0 snfPREFIX (mHash n) true = Ok n' -> typed 0 n' /\ mHash n' = mHash n.
Proof.
  intros Hn. pose proof Hn as (Hh & Hl & Ht). unfold addRaw_node. case_decide as Ee; [done|]. unfold raw_node, inner_of, item_of.
  destruct (mType n) eqn:Et; [done|..].
  - destruct Ht as (Hi & inner & Hin). destruct (Hl inner Hin) as [Hok _]. rewrite Hin. cbn [mbind result_bind mret result_ret]. intros [= <-].
    rewrite fold_add256, read_prefix_app by done. change (get_be 32 (add32' pfx_innerNode [])) with pfx_innerNode.
    change (pfx_innerNode =? pfx_transactionID) with false. change (pfx_innerNode =? pfx_leafNode) with false. rewrite Z.eqb_refl.
    rewrite (length_concat_hashes inner Hok), read_full_concat by done. cbn. intros [= <-]. split; [|done]. split.
    + unfold node_hash, inner_of in *. rewrite Et, Hin in Hh. exact Hh.
    + split; [|cbn; eauto]. cbn. intros x [= <-]. by apply fresh_links.
  - destruct Ht as (item & Hi & Hk). rewrite Hi. intros Hr.
    assert (raw = add32' pfx_transactionID [] ++ mData item) as -> by (symmetry; by injection Hr).
    rewrite read_prefix_app by done. change (get_be 32 (add32' pfx_transactionID [])) with pfx_transactionID.
    rewrite Z.eqb_refl. intros [= <-]. split; [|done]. eapply leaf_back; eauto; [by left|apply sha512half_key].
  - destruct Ht as (item & Hi & Hk). rewrite Hi. intros Hr.
    assert (raw = add32' pfx_txNode [] ++ (mData item ++ mTag item)) as -> by (rewrite app_assoc; symmetry; by injection Hr).
    rewrite read_prefix_app by done. change (get_be 32 (add32' pfx_txNode [])) with pfx_txNode.
    cbn [Z.eqb Pos.eqb pfx_leafNode pfx_txNode pfx_transactionID pfx_innerNode]. intros (m & (x & Hx & [= <-])%bind_Ok & [= <-])%bind_Ok.
    split; [|done]. apply tagged_any in Hx as ->; [|done]. eapply leaf_back; eauto; unfold leafy; auto.
  - destruct Ht as (item & Hi & Hk). rewrite Hi. intros Hr.
    assert (raw = add32' pfx_leafNode [] ++ (mData item ++ mTag item)) as -> by (rewrite app_assoc; symmetry; by injection Hr).
    rewrite read_prefix_app by done. change (get_be 32 (add32' pfx_leafNode [])) with pfx_leafNode.
    cbn [Z.eqb Pos.eqb pfx_leafNode pfx_txNode pfx_transactionID pfx_innerNode]. intros (m & (x & Hx & [= <-])%bind_Ok & [= <-])%bind_Ok.
    split; [|done]. apply tagged_any in Hx as ->; [|done]. eapply leaf_back; eauto; unfold leafy; auto.
Qed.





Lemma db_store_safe N n raw s :
  store_typed s -> typed N n -> addRaw_node n snfPREFIX [] = Ok raw -> safe (db_store (mHash n) raw) s anything.
Proof.
  intros Hs Hn Hr. unfold safe, db_store. split_and!; [|unfold ext; cbn; lia|done]. split; [apply Hs|].
  intros hash m. unfold db_node. cbn [db]. destruct (decide (hash = mHash n)) as [-> |Hne].
  - rewrite lookup_insert_eq. destruct (raw_node _ _ _ _ _) eqn:E; [|done]. intros [= ->]. by eapply read_back.
  - rewrite lookup_insert_ne by done. apply Hs.
Qed.

Lemma writeNode_safe l s : store_typed s -> safe (writeNode l) s anything.
Proof.
  intros Hs. unfold writeNode. apply safe_bind, safe_deref; [done|]. intros n _ Hn _ _.
  assert (Hz : typed (length (cells s)) (setSeq n 0)) by exact Hn.
  apply safe_bind, safe_assign; [done|done|]. intros Hs1 _. apply safe_bind, safe_lift; [done|]. intros raw Hr _ _.
  by eapply db_store_safe.
Qed.

Lemma write_if_safe (w : bool) l s : store_typed s -> safe (if w then writeNode l else mret tt) s anything.
Proof. intros Hs. destruct w; [by apply writeNode_safe|by apply safe_ret]. Qed.

Lemma flush_branches_safe t w flush l order :
  (forall c s, store_typed s -> safe (flush c) s anything) ->
  forall flushed s, store_typed s -> safe (flush_branches t w flush l order flushed) s anything.
Proof.
  intros Hf. induction order as [|i order IH]; intros flushed s Hs; cbn [flush_branches]; [by apply safe_ret|].
  apply safe_bind, safe_deref; [done|]. intros n _ _ _ _. apply safe_bind, safe_lift; [done|]. intros e _ _ _.
  destruct e; [by apply IH|]. apply safe_bind, safe_lift; [done|]. intros [c|] _ _ _; [|by apply IH].
  apply safe_bind, safe_deref; [done|]. intros cn _ _ _ _. destruct (mSeq cn =? 0); [by apply IH|].
  assert (Hend : forall c' f s', store_typed s' -> valid s' c' ->
    safe (_ ← share_child l i c'; flush_branches t w flush l order f) s' anything).
  { intros c' f s' Hs' Hc'. apply safe_bind. eapply safe_mono; [by apply share_child_safe|]. intros. by apply IH. }
  destruct (isInner cn); apply safe_bind; (eapply safe_mono; [by apply preFlushNode_safe|]); intros c' s1 Hc' Hs1 _; apply safe_bind;
    (eapply safe_mono; [first [by apply Hf|by apply write_if_safe]|]); intros below s2 _ Hs2 He2; (apply Hend; [done|by eapply valid_ext]).
Qed.

Lemma flush_node_safe t w fuel : forall c s, store_typed s -> safe (flush_node t w fuel c) s anything.
Proof.
  induction fuel as [|fuel IH]; intros c s Hs; cbn [flush_node]; [by apply safe_throw|].
  apply safe_bind. eapply safe_mono; [by apply flush_branches_safe|]. intros f s1 _ Hs1 _.
  apply safe_bind. eapply safe_mono; [by apply write_if_safe|]. intros. by apply safe_ret.
Qed.

Lemma walkSubTree_safe t w s : store_typed s -> safe (walkSubTree t w) s anything.
Proof.
  intros Hs. unfold walkSubTree. apply safe_bind, safe_deref; [done|]. intros n _ _ _ _.
  destruct (mSeq n =? 0); [by apply safe_ret|]. apply safe_bind, safe_lift; [done|]. intros e _ _ _.
  destruct e; [by apply safe_ret|]. destruct (isLeaf n); apply safe_bind;
    (eapply safe_mono; [by apply preFlushNode_safe|]); intros l s1 _ Hs1 _; apply safe_bind;
    (eapply safe_mono; [first [by apply write_if_safe|by apply flush_node_safe]|]); intros; by apply safe_ret.
Qed.

Lemma new_map_safe seq s : store_typed s -> safe (new_map seq) s anything.
Proof. intros Hs. unfold new_map. apply safe_bind, safe_make_shared; [done|apply makeInner_typed|]. intros. by apply safe_ret. Qed.

Lemma snapShot_safe t isMutable s : store_typed s -> safe (snapShot t isMutable) s anything.
Proof.
  intros Hs. unfold snapShot. apply safe_bind. eapply safe_mono; [by apply new_map_safe|]. intros r s1 _ Hs1 _.
  case_match; [|by apply safe_ret]. apply safe_bind. eapply safe_mono; [by apply walkSubTree_safe|]. intros [k t'] s2 _ Hs2 _.
  by apply safe_ret.
Qed.

Lemma fetchRoot_safe t hash s : store_typed s -> safe (fetchRoot t hash) s anything.
Proof.
  intros Hs. unfold fetchRoot. apply safe_bind, safe_deref; [done|]. intros n _ _ _ _. case_bool_decide; [by apply safe_ret|].
  apply safe_bind. eapply safe_mono; [by apply fetchNodeNT_safe|]. intros [l|] s1 _ Hs1 _; by apply safe_ret.
Qed.

Lemma then_safe {A B} (c : M A) (f : A -> M B) s :
  safe c s anything -> (forall a s', store_typed s' -> safe (f a) s' anything) -> safe (c ≫= f) s anything.
Proof. intros Hc Hf. apply safe_bind. eapply safe_mono; [exact Hc|]. intros a s' _ Hs' _. by apply Hf. Qed.

Lemma exec_safe isTransaction hasMeta o t s : store_typed s -> op_ok o -> safe (exec isTransaction hasMeta o t) s anything.
Proof.
  intros Hs Ho. destruct o as [item|item|k|k|k| | |k|k|]; cbn [exec op_ok] in *; apply then_safe.
  - by apply addGiveItem_safe.
  - intros [b t'] s' Hs'. by apply safe_ret.
  - by apply updateGiveItem_safe.
  - intros [b t'] s' Hs'. by apply safe_ret.
  - by apply delItem_safe.
  - intros [b t'] s' Hs'. by apply safe_ret.
  - apply then_safe; [by apply walkToPointer_safe|]. intros. by apply peek_at_safe.
  - intros. by apply safe_ret.
  - apply then_safe; [by apply walkToPointer_safe|]. intros. by apply safe_ret.
  - intros. by apply safe_ret.
  - apply then_safe; [by apply below_loop_safe|]. intros. by apply peek_at_safe.
  - intros. by apply safe_ret.
  - apply then_safe; [by apply below_loop_safe|]. intros. by apply peek_at_safe.
  - intros. by apply safe_ret.
  - apply then_safe; [by apply getStack_safe|]. intros. by apply peekNext_loop_safe.
  - intros. by apply safe_ret.
  - apply then_safe; [by apply getStack_safe|]. intros. by apply peekPrev_loop_safe.
  - intros. by apply safe_ret.
  - unfold getHash. apply safe_bind, safe_deref; [done|]. intros. by apply safe_ret.
  - intros. by apply safe_ret.
Qed.

(** ** A process *)

(** The map objects of a process and the store they share.  A call that throws
    leaves its object as it was and the store as far as it got. *)
Inductive call : Type :=
| callNew (seq : Z)
| callOp (i : nat) (isTransaction hasMeta : bool) (o : op)
| callSnap (i : nat) (isMutable : bool)
| callUnshare (i : nat)
| callFlush (i : nat)
| callFetchRoot (i : nat) (hash : uint256)
| callSet (i : nat) (st : SHAMapState)
| callUnbacked (i : nat).

Definition world : Type := list SHAMap * Store.

(** Put the object a call made at [i] of the list. *)
Definition with_result {A} (f : A -> list SHAMap) (objs : list SHAMap) (r : result A * Store) : world :=
  match r with
  | (Ok a, s) => (f a, s)
  | (Throw _, s) => (objs, s)
  end.

Definition perform (c : call) (w : world) : world :=
  let '(objs, s) := w in
  let on (i : nat) (f : SHAMap -> world) : world := match objs !! i with Some t => f t | None => w end in
  match c with
  | callNew seq => with_result (fun t => objs ++ [t]) objs (new_map seq s)
  | callOp i isTx meta o => on i (fun t => with_result (fun x => <[i := x.2]> objs) objs (exec isTx meta o t s))
  | callSnap i isMutable => on i (fun t => with_result (fun t' => objs ++ [t']) objs (snapShot t isMutable s))
  | callUnshare i => on i (fun t => with_result (fun x => <[i := x.2]> objs) objs (unshare t s))
  | callFlush i => on i (fun t => with_result (fun x => <[i := x.2]> objs) objs (flushDirty t s))
  | callFetchRoot i hash => on i (fun t => with_result (fun x => <[i := x.2]> objs) objs (fetchRoot t hash s))
  | callSet i st => on i (fun t => (<[i := with_state t st]> objs, s))
  | callUnbacked i => on i (fun t => (<[i := setUnbacked t]> objs, s))
  end.

Definition call_ok (c : call) : Prop := match c with callOp _ _ _ o => op_ok o | _ => True end.

Lemma safe_result {A} (f : A -> list SHAMap) objs (c : M A) s :
  safe c s anything -> store_typed (with_result f objs (c s)).2.
Proof. unfold safe. destruct (c s) as [[a|e] s']; intros (? & _); done. Qed.

Lemma perform_typed (c : call) (w : world) : store_typed w.2 -> call_ok c -> store_typed (perform c w).2.
Proof.
  destruct w as [objs s]. cbn [snd]. intros Hs Hc. destruct c as [seq|i isTx meta o|i mu|i|i|i hash|i st|i]; cbn [perform call_ok] in *;
    [by apply safe_result, new_map_safe|..]; destruct (objs !! i) as [t|]; try done; apply safe_result.
  - by apply exec_safe.
  - by apply snapShot_safe.
  - by apply walkSubTree_safe.
  - by apply walkSubTree_safe.
  - by apply fetchRoot_safe.
Qed.

(** C18: nodes keep their types under the calls of SHAMap.cpp.  Starting from a
    well-formed store, over a database whose blobs read as well-formed nodes filed
    under their hashes, any sequence of calls on any number of map objects that
    share the nodes (new maps, additions, updates, deletions, lookups, traversals,
    snapshots, unsharing, flushes of dirty nodes to the database, roots fetched by
    hash, changes of state and of backing), including calls that end in an
    exception part of the way, leaves the store well formed: every node has the
    right parts for its type, a bitmap that agrees with the child hashes, child
    pointers that lead to nodes, and the hash of its contents, and so has every
    node the database gives back.  Nodes that peers send ([addRootNode],
    [addKnownNode] of SHAMapSync.cpp) are not among the calls: the wire reader can
    accept a node whose bitmap is wrong ([poisoned_branch_accepted]). *)
Theorem nodes_well_typed (calls : list call) (w : world) :
  store_typed w.2 -> Forall call_ok calls -> store_typed (fold_left (fun (w : world) (c : call) => perform c w) calls w).2.
Proof.
  intros Hw Hcalls. revert w Hw. induction Hcalls as [|c calls Hc _ IH]; intros w Hw; [done|].
  apply IH. by apply perform_typed.
Qed.
End Typing.

(** ** Witness *)

Definition ex_calls : list call :=
  [callNew 1; callOp 0 false false (opAdd ex_a); callOp 0 false false (opAdd ex_b); callSnap 0 true;
   callOp 1 false false (opDel (mTag ex_a)); callFlush 1; callUnbacked 0; callFetchRoot 0 zero256].

Lemma empty_store_typed : @store_typed Tiny empty_store.
Proof. split; [intros l n Hl; cbn in Hl; by rewrite lookup_nil in Hl|intros h n Hn; unfold db_node, empty_store in Hn; cbn [db] in Hn; by rewrite lookup_empty in Hn]. Qed.

Lemma nodes_well_typed_witness :
  @store_typed Tiny (fold_left (fun w c => @perform Tiny c w) ex_calls ([], empty_store)).2 /\
  length (cells (fold_left (fun w c => @perform Tiny c w) ex_calls ([], empty_store)).2) = 11%nat /\
  size (db (fold_left (fun w c => @perform Tiny c w) ex_calls ([], empty_store)).2) = 2%nat.
Proof.
  split; [|split; by vm_compute]. apply (@nodes_well_typed Tiny ex_calls ([], empty_store)); [apply empty_store_typed|].
  repeat constructor; by_decide.
Defined.
End SHAMapTyping.
