(* ===== verification/SHAMapDelta.v ===== *)
(** * SHAMap: comparing two maps

    [src/src/ripple_app/shamap/SHAMapDelta.cpp].  [compare] walks two trees in
    step and collects the items that differ; where one tree has a leaf or nothing
    and the other a whole branch, [walkBranch] goes through the branch.  Both keep
    explicit stacks; the loops here carry fuel for the number of nodes they pop.

    [compare_reports_equal_item] records what the model shows: [walkBranch] meets
    the leaves in descending order of their keys (the children are pushed in
    ascending order on a stack), while its test whether the single item of the
    other map "comes before" the leaf at hand assumes ascending order, so that an
    item both maps hold can be reported as a difference. *)
From Stdlib Require Import ZArith Lia.
From S2P Require Import Prelude BaseUint Serializer SHAMapNode SHAMapSpec SHAMap SHAMapLaws.
From stdpp Require Import base numbers list gmap strings.
Import BaseUint Serializer SHAMapNode SHAMapSpec SHAMap SHAMapLaws.
Local Open Scope Z_scope.

Module SHAMapDelta.

(** [Delta]: per key the item of the first and of the second map; [std::map::insert]
    keeps an entry that is there. *)
Abbreviation Delta := (gmap uint256 (option SHAMapItem * option SHAMapItem)).

Definition delta_insert (k : uint256) (x : option SHAMapItem * option SHAMapItem) (d : Delta) : Delta :=
  match d !! k with Some _ => d | None => <[k := x]> d end.

Section Compare.
Context `{SHA : SHA512}.

(** An item of one map and its counterpart, in the order of the maps. *)
Definition delta_pair (isFirstMap : bool) (mine other : option SHAMapItem) : option SHAMapItem * option SHAMapItem :=
  if isFirstMap then (mine, other) else (other, mine).

(** The children of an inner node, pushed in the order of the branches. *)
Fixpoint push_children (t : SHAMap) (node : loc) (order : list Z) (stack : list loc) : M (list loc) :=
  match order with
  | [] => mret stack
  | i :: order =>
      n ← deref node;
      e ← lift (isEmptyBranch n i);
      if (e : bool) then push_children t node order stack
      else c ← descendThrow t node i; push_children t node order (c :: stack)
  end.

(** [None] stands for the early returns with [false]. *)
Fixpoint walkBranch_loop (t : SHAMap) (fuel : nat) (otherMapItem : option SHAMapItem) (isFirstMap : bool)
    (stack : list loc) (emptyBranch : bool) (differences : Delta) (maxCount : Z) : M (option (bool * Delta * Z) * Delta) :=
  match stack with
  | [] => mret (Some (emptyBranch, differences, maxCount), differences)
  | node :: stack =>
      match fuel with
      | O => throw (undefined no_fuel)
      | S fuel =>
          n ← deref node;
          if isInner n then
            stack ← push_children t node branches stack;
            walkBranch_loop t fuel otherMapItem isFirstMap stack emptyBranch differences maxCount
          else
            item ← lift (item_of n);
            let before :=
              match otherMapItem with
              | Some other => negb emptyBranch && key_ltb (mTag other) (mTag item)
              | None => false
              end in
            let differences :=
              match otherMapItem with
              | Some other => if before then delta_insert (mTag other) (delta_pair isFirstMap None (Some other)) differences else differences
              | None => differences
              end in
            let maxCount := if before then maxCount - 1 else maxCount in
            if before && (maxCount <=? 0) then mret (None, differences)
            else
              let emptyBranch := emptyBranch || before in
              let matched :=
                match otherMapItem with
                | Some other => negb emptyBranch && bool_decide (mTag item = mTag other)
                | None => false
                end in
              if negb matched then
                let differences := delta_insert (mTag item) (delta_pair isFirstMap (Some item) None) differences in
                if maxCount - 1 <=? 0 then mret (None, differences)
                else walkBranch_loop t fuel otherMapItem isFirstMap stack emptyBranch differences (maxCount - 1)
              else
                let differs :=
                  match otherMapItem with Some other => negb (bool_decide (mData item = mData other)) | None => false end in
                let differences :=
                  if differs then delta_insert (mTag item) (delta_pair isFirstMap (Some item) otherMapItem) differences else differences in
                let maxCount := if differs then maxCount - 1 else maxCount in
                if differs && (maxCount <=? 0) then mret (None, differences)
                else walkBranch_loop t fuel otherMapItem isFirstMap stack true differences maxCount
      end
  end.

(** Whether to go on, the table, and what is left of [maxCount]. *)
Definition walkBranch (t : SHAMap) (fuel : nat) (node : loc) (otherMapItem : option SHAMapItem) (isFirstMap : bool)
    (differences : Delta) (maxCount : Z) : M (bool * Delta * Z) :=
  r ← walkBranch_loop t fuel otherMapItem isFirstMap [node]
        (match otherMapItem with Some _ => false | None => true end) differences maxCount;
  match r with
  | (None, d) => mret (false, d, 0)
  | (Some (emptyBranch, d, maxCount), _) =>
      match otherMapItem with
      | Some other =>
          if (emptyBranch : bool) then mret (true, d, maxCount)
          else
            let d := delta_insert (mTag other) (delta_pair isFirstMap None (Some other)) d in
            mret (negb (maxCount - 1 <=? 0), d, maxCount - 1)
      | None => mret (true, d, maxCount)
      end
  end.

(** Two inner nodes: the pairs of children to look at, pushed on the stack. *)
Fixpoint compare_children (t other : SHAMap) (fuel : nat) (ourNode otherNode : loc) (order : list Z)
    (stack : list (loc * loc)) (differences : Delta) (maxCount : Z) : M (bool * list (loc * loc) * Delta * Z) :=
  match order with
  | [] => mret (true, stack, differences, maxCount)
  | i :: order =>
      n1 ← deref ourNode;
      n2 ← deref otherNode;
      h1 ← lift (getChildHash n1 i);
      h2 ← lift (getChildHash n2 i);
      if bool_decide (h1 = h2) then compare_children t other fuel ourNode otherNode order stack differences maxCount
      else
        e2 ← lift (isEmptyBranch n2 i);
        e1 ← lift (isEmptyBranch n1 i);
        if (e2 : bool) then
          iNode ← descendThrow t ourNode i;
          '(go, d, k) ← walkBranch t fuel iNode None true differences maxCount;
          if (go : bool) then compare_children t other fuel ourNode otherNode order stack d k else mret (false, stack, d, k)
        else if (e1 : bool) then
          iNode ← descendThrow other otherNode i;
          '(go, d, k) ← walkBranch other fuel iNode None false differences maxCount;
          if (go : bool) then compare_children t other fuel ourNode otherNode order stack d k else mret (false, stack, d, k)
        else
          c1 ← descendThrow t ourNode i;
          c2 ← descendThrow other otherNode i;
          compare_children t other fuel ourNode otherNode order ((c1, c2) :: stack) differences maxCount
  end.

Fixpoint compare_loop (t other : SHAMap) (fuel : nat) (stack : list (loc * loc)) (differences : Delta) (maxCount : Z)
    : M (bool * Delta) :=
  match stack with
  | [] => mret (true, differences)
  | (ourNode, otherNode) :: stack =>
      match fuel with
      | O => throw (undefined no_fuel)
      | S fuel =>
          n1 ← deref ourNode;
          n2 ← deref otherNode;
          if isLeaf n1 && isLeaf n2 then
            i1 ← lift (item_of n1);
            i2 ← lift (item_of n2);
            if bool_decide (mTag i1 = mTag i2) then
              if negb (bool_decide (mData i1 = mData i2)) then
                let d := delta_insert (mTag i1) (Some i1, Some i2) differences in
                if maxCount - 1 <=? 0 then mret (false, d) else compare_loop t other fuel stack d (maxCount - 1)
              else compare_loop t other fuel stack differences maxCount
            else
              let d := delta_insert (mTag i1) (Some i1, None) differences in
              if maxCount - 1 <=? 0 then mret (false, d)
              else
                let d := delta_insert (mTag i2) (None, Some i2) d in
                if maxCount - 2 <=? 0 then mret (false, d) else compare_loop t other fuel stack d (maxCount - 2)
          else if isInner n1 && isLeaf n2 then
            '(go, d, k) ← walkBranch t fuel ourNode (mItem n2) true differences maxCount;
            if (go : bool) then compare_loop t other fuel stack d k else mret (false, d)
          else if isLeaf n1 && isInner n2 then
            '(go, d, k) ← walkBranch other fuel otherNode (mItem n1) false differences maxCount;
            if (go : bool) then compare_loop t other fuel stack d k else mret (false, d)
          else if isInner n1 && isInner n2 then
            '(go, stack, d, k) ← compare_children t other fuel ourNode otherNode branches stack differences maxCount;
            if (go : bool) then compare_loop t other fuel stack d k else mret (false, d)
          else compare_loop t other fuel stack differences maxCount
      end
  end.

(** Whether the table is complete, and the table. *)
Definition compare (t other : SHAMap) (fuel : nat) (maxCount : Z) : M (bool * Delta) :=
  h1 ← getHash t;
  h2 ← getHash other;
  if bool_decide (h1 = h2) then mret (true, ∅)
  else compare_loop t other fuel [(root t, root other)] ∅ maxCount.

End Compare.

(** ** An item that is the same in both maps *)

(** Ours holds [a] and [b], the other map only [a]. *)
Definition ex_compare : M (bool * Delta) :=
  t ← new_map 1;
  '(_, t) ← @addGiveItem Tiny t ex_a false false;
  '(_, t) ← @addGiveItem Tiny t ex_b false false;
  u ← new_map 1;
  '(_, u) ← @addGiveItem Tiny u ex_a false false;
  @compare Tiny t u 100 1000.

(** The only difference is [b]; the table claims that [a] is missing from ours. *)
Lemma compare_reports_equal_item :
  match fst (ex_compare empty_store) with
  | Ok (complete, d) =>
      complete = true /\ d !! mTag ex_b = Some (Some ex_b, None) /\ d !! mTag ex_a = Some (None, Some ex_a)
  | Throw _ => False
  end.
Proof. vm_compute. by split_and!. Qed.

End SHAMapDelta.
