(* ===== verification/SHAMapSync.v ===== *)
(** * SHAMap: synchronization with peers

    [src/src/ripple_app/shamap/SHAMapSync.cpp], with the functions of
    [SHAMap.cpp] it descends by, [SHAMapSyncFilters.cpp], [SHAMapAddNode.h],
    [walkMap] of [SHAMapDelta.cpp] and the fetch pack of [NetworkOPs.cpp].

    A server that lacks a map acquires it node by node: it knows the root hash,
    asks its peers for nodes by position, and hooks what they send below the node
    whose child hash it has ([addRootNode], [addKnownNode]); [getMissingNodes]
    finds what to ask for next and whether everything is there.  A filter is
    asked for nodes the database does not have and told of the nodes received.

    The state is the store of the maps, the cache of the hashes below which
    nothing is missing, the caches of the filters (the fetch pack that peers
    fill, the nodes of transaction sets), the transactions handed to the job
    queue and the number of calls to [rand] so far.  The filters are the three
    the program has.  What the master transaction cache and the transaction
    parser answer, and the numbers [rand] returns, are parameters.  Entries of
    the caches expire: that is an operation of its own ([expire]).

    [getMissingNodes] and [visitNodes] keep an explicit stack of the inner nodes
    they are in; here that stack is the stack of a recursion over the depth.  The
    other stacks, from which nodes are popped in an order of their own, are lists
    and their loops carry fuel, an upper bound for the nodes they pop. *)
From Stdlib Require Import ZArith Lia.
From S2P Require Import Prelude Effects BaseUint Serializer SHAMapNode SHAMap.
From stdpp Require Import base numbers list gmap strings.
Import BaseUint Serializer SHAMapNode SHAMap Effects.
Local Open Scope Z_scope.

Module SHAMapSync.

(** ** Counting what was received *)

Record SHAMapAddNode : Type := { mGood : Z; mBad : Z; mDuplicate : Z }.

Definition add_none : SHAMapAddNode := {| mGood := 0; mBad := 0; mDuplicate := 0 |}.
Definition duplicate : SHAMapAddNode := {| mGood := 0; mBad := 0; mDuplicate := 1 |}.
Definition useful : SHAMapAddNode := {| mGood := 1; mBad := 0; mDuplicate := 0 |}.
Definition invalid : SHAMapAddNode := {| mGood := 0; mBad := 1; mDuplicate := 0 |}.

Definition incInvalid (n : SHAMapAddNode) : SHAMapAddNode :=
  {| mGood := mGood n; mBad := i32 (mBad n + 1); mDuplicate := mDuplicate n |}.
Definition incUseful (n : SHAMapAddNode) : SHAMapAddNode :=
  {| mGood := i32 (mGood n + 1); mBad := mBad n; mDuplicate := mDuplicate n |}.
Definition incDuplicate (n : SHAMapAddNode) : SHAMapAddNode :=
  {| mGood := mGood n; mBad := mBad n; mDuplicate := i32 (mDuplicate n + 1) |}.
Definition add_plus (a b : SHAMapAddNode) : SHAMapAddNode :=
  {| mGood := i32 (mGood a + mGood b); mBad := i32 (mBad a + mBad b); mDuplicate := i32 (mDuplicate a + mDuplicate b) |}.

Definition isInvalid (n : SHAMapAddNode) : bool := mBad n >? 0.
Definition isUseful (n : SHAMapAddNode) : bool := mGood n >? 0.
Definition isGood (n : SHAMapAddNode) : bool := i32 (mGood n + mDuplicate n) >? mBad n.

(** ** The state *)

Record Net : Type := {
  store : Store;
  fullBelowCache : gset uint256;
  nodeCache : gmap uint256 Blob;          (* of [ConsensusTransSetSF] *)
  fetchPack : gmap uint256 Blob;          (* [NetworkOPsImp::mFetchPack] *)
  submitted : list Blob;                  (* jobs "TXS->TXN" *)
  draws : nat }.

Definition N (A : Type) : Type := Eff Net A.
#[export] Instance N_ret : MRet N := Eff_ret Net.
#[export] Instance N_bind : MBind N := Eff_bind Net.

Definition with_store (f : Store -> Store) (w : Net) : Net :=
  {| store := f (store w); fullBelowCache := fullBelowCache w; nodeCache := nodeCache w;
     fetchPack := fetchPack w; submitted := submitted w; draws := draws w |}.
Definition with_fullBelow (f : gset uint256 -> gset uint256) (w : Net) : Net :=
  {| store := store w; fullBelowCache := f (fullBelowCache w); nodeCache := nodeCache w;
     fetchPack := fetchPack w; submitted := submitted w; draws := draws w |}.
Definition with_nodeCache (f : gmap uint256 Blob -> gmap uint256 Blob) (w : Net) : Net :=
  {| store := store w; fullBelowCache := fullBelowCache w; nodeCache := f (nodeCache w);
     fetchPack := fetchPack w; submitted := submitted w; draws := draws w |}.
Definition with_fetchPack (f : gmap uint256 Blob -> gmap uint256 Blob) (w : Net) : Net :=
  {| store := store w; fullBelowCache := fullBelowCache w; nodeCache := nodeCache w;
     fetchPack := f (fetchPack w); submitted := submitted w; draws := draws w |}.
Definition with_submitted (f : list Blob -> list Blob) (w : Net) : Net :=
  {| store := store w; fullBelowCache := fullBelowCache w; nodeCache := nodeCache w;
     fetchPack := fetchPack w; submitted := f (submitted w); draws := draws w |}.
Definition with_draws (f : nat -> nat) (w : Net) : Net :=
  {| store := store w; fullBelowCache := fullBelowCache w; nodeCache := nodeCache w;
     fetchPack := fetchPack w; submitted := submitted w; draws := f (draws w) |}.

(** A computation on the store of nodes. *)
Definition on_store {A} (c : M A) : N A := fun w =>
  match c (store w) with (r, s) => (r, with_store (fun _ => s) w) end.

(** [canonicalize] of a [TaggedCache] whose entries are all in use: an entry that
    is there stays. *)
Definition cache_insert (hash : uint256) (data : Blob) (c : gmap uint256 Blob) : gmap uint256 Blob :=
  match c !! hash with Some _ => c | None => <[hash := data]> c end.

(** The server around the map: [getMasterTransaction ().fetch (hash, false)] with
    the bytes [getSTransaction ()->add (s, true)] writes, whether the constructor
    of [SerializedTransaction] accepts bytes, and the numbers [rand] returns. *)
Class Server : Type := {
  known_transaction : uint256 -> option Blob;
  is_transaction : Blob -> bool;
  rand : nat -> Z }.

(** ** Sync filters *)

Inductive SHAMapSyncFilter : Type :=
| ConsensusTransSetSF
| AccountStateSF
| TransactionStateSF.

Section Operations.
Context `{SHA : SHA512} `{SRV : Server}.

Definition addFetchPack (hash : uint256) (data : Blob) : N unit := modifies (with_fetchPack (cache_insert hash data)).

Definition getFetchPack_entry (hash : uint256) : N (option Blob) :=
  ret ← reads (fun w => fetchPack w !! hash);
  match ret with
  | None => mret None
  | Some data =>
      _ ← modifies (with_fetchPack (delete hash));
      if negb (bool_decide (hash = sha512half data)) then mret None else mret (Some data)
  end.

Definition haveNode (filter : SHAMapSyncFilter) (id : SHAMapNodeID) (nodeHash : uint256) : N (option Blob) :=
  match filter with
  | ConsensusTransSetSF =>
      cached ← reads (fun w => nodeCache w !! nodeHash);
      match cached with
      | Some nodeData => mret (Some nodeData)
      | None => mret (match known_transaction nodeHash with
                      | Some txn => Some (add32' pfx_transactionID [] ++ txn)
                      | None => None
                      end)
      end
  | AccountStateSF | TransactionStateSF => getFetchPack_entry nodeHash
  end.

Definition gotNode (filter : SHAMapSyncFilter) (fromFilter : bool) (id : SHAMapNodeID) (nodeHash : uint256)
    (nodeData : Blob) (type : TNType) : N unit :=
  match filter with
  | ConsensusTransSetSF =>
      if fromFilter then mret tt
      else
        _ ← modifies (with_nodeCache (cache_insert nodeHash nodeData));
        if bool_decide (type = tnTRANSACTION_NM) && (16 <? length nodeData)%nat && is_transaction (drop 4 nodeData)
        then modifies (with_submitted (fun js => js ++ [drop 4 nodeData]))
        else mret tt
  | AccountStateSF | TransactionStateSF => on_store (db_store nodeHash nodeData)
  end.

(** ** Descending with a filter *)

Definition checkFilter (hash : uint256) (id : SHAMapNodeID) (filter : SHAMapSyncFilter) : N (option loc) :=
  have ← haveNode filter id hash;
  match have with
  | Some nodeData =>
      n ← pure_result (raw_node nodeData 0 snfPREFIX hash true);
      node ← on_store (make_shared n);
      _ ← gotNode filter true id hash nodeData (mType n);
      mret (Some node)
  | None => mret None
  end.

Definition fetchNodeNT_filter (t : SHAMap) (id : SHAMapNodeID) (hash : uint256) (filter : option SHAMapSyncFilter)
    : N (option loc) :=
  node ← (if mBacked t then on_store (fetchNodeNT t hash) else mret None);
  match node with
  | Some node => mret (Some node)
  | None => match filter with Some f => checkFilter hash id f | None => mret None end
  end.

(** [descend (parent, parentID, branch, filter)]. *)
Definition descend_filter (t : SHAMap) (parent : loc) (parentID : SHAMapNodeID) (branch : Z)
    (filter : option SHAMapSyncFilter) : N (option loc * SHAMapNodeID) :=
  childID ← on_store (from_option no_branch (getChildNodeID parentID branch));
  n ← on_store (deref parent);
  child ← pure_result (getChild n branch);
  childHash ← pure_result (getChildHash n branch);
  match child with
  | Some c => mret (Some c, childID)
  | None =>
      childNode ← fetchNodeNT_filter t childID childHash filter;
      match childNode with
      | None => mret (None, childID)
      | Some childNode => c ← on_store (hook parent branch childNode); mret (Some c, childID)
      end
  end.

Definition descendNoStore (t : SHAMap) (parent : loc) (branch : Z) : M (option loc) :=
  n ← deref parent;
  ret ← lift (getChild n branch);
  match ret with
  | Some c => mret (Some c)
  | None =>
      if mBacked t then hash ← lift (getChildHash n branch); c ← fetchNode t hash; mret (Some c)
      else mret None
  end.

(** [isInBounds], [isFullBelow] and [setFullBelow] of a node. *)
Definition isInBounds (n : SHAMapTreeNode) (id : SHAMapNodeID) : bool := negb (isInner n) || (mDepth id <? 64).

Definition isFullBelow (n : SHAMapTreeNode) : result bool := inner ← inner_of n; mret (mFullBelow inner).

Definition mark_full (inner : InnerData) : InnerData :=
  {| mHashes := mHashes inner; mChildren := mChildren inner; mIsBranch := mIsBranch inner; mFullBelow := true |}.

Definition setFullBelow (node : loc) : M unit :=
  n ← deref node;
  inner ← lift (inner_of n);
  assign node (with_inner n (mark_full inner)).

(** [m_fullBelowCache]. *)
Definition touch_if_exists (hash : uint256) : N bool := reads (fun w => bool_decide (hash ∈ fullBelowCache w)).
Definition fullBelow_insert (hash : uint256) : N unit := modifies (with_fullBelow (fun c => {[hash]} ∪ c)).

Definition next_rand : N Z :=
  k ← reads draws;
  _ ← modifies (with_draws S);
  mret (rand k).

(** ** What is missing *)

(** [missingHashes], the two result vectors, and what is left of [max]. *)
Record Hunt : Type := { missingHashes : gset uint256; nodeIDs : list SHAMapNodeID; hashes : list uint256; budget : Z }.

Definition report (id : SHAMapNodeID) (hash : uint256) (h : Hunt) : Hunt :=
  {| missingHashes := {[hash]} ∪ missingHashes h; nodeIDs := nodeIDs h ++ [id]; hashes := hashes h ++ [hash];
     budget := budget h - 1 |}.

(** What is done with a branch that is not empty and not known to be full: [None]
    for the early return, else whether nothing is missing there. [go] takes an
    inner child that is not full. *)
Definition hunt_child (go : loc -> SHAMapNodeID -> Hunt -> N (Hunt * option bool)) (t : SHAMap)
    (filter : option SHAMapSyncFilter) (node : loc) (nodeID : SHAMapNodeID) (branch : Z) (childHash : uint256) (h : Hunt)
    : N (Hunt * option bool) :=
  childID ← on_store (from_option no_branch (getChildNodeID nodeID branch));
  '(d, _) ← descend_filter t node nodeID branch filter;
  match d with
  | None =>
      if bool_decide (childHash ∈ missingHashes h) then mret (h, Some false)
      else
        let h := report childID childHash h in
        mret (h, if budget h <=? 0 then None else Some false)
  | Some d =>
      nd ← on_store (deref d);
      if isInner nd then
        full ← pure_result (isFullBelow nd);
        if (full : bool) then mret (h, Some true) else go d childID h
      else mret (h, Some true)
  end.

(** The loop over the sixteen branches, from a random one on. *)
Fixpoint hunt_children (go : loc -> SHAMapNodeID -> Hunt -> N (Hunt * option bool)) (t : SHAMap)
    (filter : option SHAMapSyncFilter) (node : loc) (nodeID : SHAMapNodeID) (firstChild : Z) (currentChild : list Z)
    (fullBelow : bool) (h : Hunt) : N (Hunt * option bool) :=
  match currentChild with
  | [] => mret (h, Some fullBelow)
  | c :: currentChild =>
      let branch := Z.rem (firstChild + c) 16 in
      n ← on_store (deref node);
      e ← pure_result (isEmptyBranch n branch);
      if (e : bool) then hunt_children go t filter node nodeID firstChild currentChild fullBelow h
      else
        childHash ← pure_result (getChildHash n branch);
        known ← (if mBacked t then touch_if_exists childHash else mret false);
        if (known : bool) then hunt_children go t filter node nodeID firstChild currentChild fullBelow h
        else
          '(h, r) ← hunt_child go t filter node nodeID branch childHash h;
          match r with
          | None => mret (h, None)
          | Some full => hunt_children go t filter node nodeID firstChild currentChild (fullBelow && full) h
          end
  end.

Fixpoint hunt_node (fuel : nat) (t : SHAMap) (filter : option SHAMapSyncFilter) (node : loc) (nodeID : SHAMapNodeID)
    (h : Hunt) : N (Hunt * option bool) :=
  match fuel with
  | O => raise (undefined no_fuel)
  | S fuel =>
      r ← next_rand;
      '(h, done) ← hunt_children (hunt_node fuel t filter) t filter node nodeID (Z.rem r 256) branches true h;
      match done with
      | Some true =>
          _ ← on_store (setFullBelow node);
          _ ← (if mBacked t then n ← on_store (deref node); fullBelow_insert (mHash n) else mret tt);
          mret (h, Some true)
      | _ => mret (h, done)
      end
  end.

Definition getMissingNodes (t : SHAMap) (ids : list SHAMapNodeID) (hs : list uint256) (max : Z)
    (filter : option SHAMapSyncFilter) : N (SHAMap * list SHAMapNodeID * list uint256) :=
  n ← on_store (deref (root t));
  full ← pure_result (isFullBelow n);
  if (full : bool) then mret (clearSynching t, ids, hs)
  else if negb (isInner n) then mret (t, ids, hs)
  else
    '(h, done) ← hunt_node depth_fuel t filter (root t) root_id
                   {| missingHashes := ∅; nodeIDs := ids; hashes := hs; budget := max |};
    match done with
    | None => mret (t, nodeIDs h, hashes h)
    | Some _ => mret (match nodeIDs h with [] => clearSynching t | _ => t end, nodeIDs h, hashes h)
    end.

Definition getNeededHashes (t : SHAMap) (max : Z) (filter : option SHAMapSyncFilter) : N (SHAMap * list uint256) :=
  '(t, _, hs) ← getMissingNodes t [] [] max filter; mret (t, hs).

(** ** Receiving nodes *)

Definition tell_filter (filter : option SHAMapSyncFilter) (id : SHAMapNodeID) (hash : uint256) (n : SHAMapTreeNode)
    : N unit :=
  match filter with
  | Some f => raw ← pure_result (addRaw_node n snfPREFIX []); gotNode f false id hash raw (mType n)
  | None => mret tt
  end.

(** The common end of the two [addRootNode]. *)
Definition adopt_root (t : SHAMap) (n : SHAMapTreeNode) (filter : option SHAMapSyncFilter) : N (SHAMapAddNode * SHAMap) :=
  r ← on_store (make_shared n);
  let t := with_root t r in
  let t := if isLeaf n then clearSynching t else t in
  _ ← tell_filter filter root_id (mHash n) n;
  mret (useful, t).

Definition addRootNode_any (t : SHAMap) (rootNode : Blob) (format : SHANodeFormat) (filter : option SHAMapSyncFilter)
    : N (SHAMapAddNode * SHAMap) :=
  r ← on_store (deref (root t));
  if negb (isZero (mHash r)) then mret (duplicate, t)
  else
    n ← pure_result (raw_node rootNode 0 format zero256 false);
    adopt_root t n filter.

Definition addRootNode (t : SHAMap) (hash : uint256) (rootNode : Blob) (format : SHANodeFormat)
    (filter : option SHAMapSyncFilter) : N (SHAMapAddNode * SHAMap) :=
  r ← on_store (deref (root t));
  if negb (isZero (mHash r)) then mret (duplicate, t)
  else
    n ← pure_result (raw_node rootNode 0 format zero256 false);
    if negb (bool_decide (mHash n = hash)) then mret (invalid, t)
    else adopt_root t n filter.

(** The node that was asked for has arrived: hook it to [prevNode]. *)
Definition add_new_node (t : SHAMap) (node : SHAMapNodeID) (rawNode : Blob) (filter : option SHAMapSyncFilter)
    (prevNode : loc) (branch : Z) (childHash : uint256) (iNodeID : SHAMapNodeID) : N (SHAMapAddNode * SHAMap) :=
  newNode ← pure_result (raw_node rawNode 0 snfWIRE zero256 false);
  if negb (isInBounds newNode iNodeID) then mret (useful, with_state t smsInvalid)
  else if negb (bool_decide (childHash = mHash newNode)) then mret (invalid, t)
  else
    l ← on_store (make_shared newNode);
    l ← on_store (hook prevNode branch l);
    newNode ← on_store (deref l);
    _ ← tell_filter filter node childHash newNode;
    mret (useful, t).

Fixpoint addKnown_loop (fuel : nat) (t : SHAMap) (node : SHAMapNodeID) (rawNode : Blob)
    (filter : option SHAMapSyncFilter) (iNode : loc) (iNodeID : SHAMapNodeID) : N (SHAMapAddNode * SHAMap) :=
  match fuel with
  | O => raise (undefined no_fuel)
  | S fuel =>
      n ← on_store (deref iNode);
      full ← (if isInner n then pure_result (isFullBelow n) else mret true);
      if negb full && (mDepth iNodeID <? mDepth node) then
        branch ← on_store (from_option no_branch (selectBranch iNodeID (mNodeID node)));
        e ← pure_result (isEmptyBranch n branch);
        if (e : bool) then mret (invalid, t)
        else
          childHash ← pure_result (getChildHash n branch);
          known ← touch_if_exists childHash;
          if (known : bool) then mret (duplicate, t)
          else
            '(next, nextID) ← descend_filter t iNode iNodeID branch filter;
            match next with
            | Some next => addKnown_loop fuel t node rawNode filter next nextID
            | None =>
                if negb (id_eqb nextID node) then mret (invalid, t)
                else add_new_node t node rawNode filter iNode branch childHash nextID
            end
      else mret (duplicate, t)
  end.

Definition addKnownNode (t : SHAMap) (node : SHAMapNodeID) (rawNode : Blob) (filter : option SHAMapSyncFilter)
    : N (SHAMapAddNode * SHAMap) :=
  if negb (isSynching t) then mret (duplicate, t)
  else addKnown_loop depth_fuel t node rawNode filter (root t) root_id.


(** ** Serving nodes to peers *)

Definition getRootNode (t : SHAMap) (format : SHANodeFormat) (s : Blob) : M Blob :=
  n ← deref (root t); lift (addRaw_node n format s).

(** The walk of [getNodeFat] to the wanted position; it does not ask whether a
    branch is empty. *)
Fixpoint fat_walk (fuel : nat) (t : SHAMap) (wanted : SHAMapNodeID) (node : loc) (nodeID : SHAMapNodeID)
    : M (loc * SHAMapNodeID) :=
  match fuel with
  | O => throw (undefined no_fuel)
  | S fuel =>
      n ← deref node;
      if isInner n && (mDepth nodeID <? mDepth wanted) then
        branch ← from_option no_branch (selectBranch nodeID (mNodeID wanted));
        node ← descendThrow t node branch;
        nodeID ← from_option no_branch (getChildNodeID nodeID branch);
        fat_walk fuel t wanted node nodeID
      else mret (node, nodeID)
  end.

(** The positions and the wire forms collected. *)
Abbreviation FatNodes := (list (SHAMapNodeID * Blob)).

(** The children of a node: the last one, their number, whether one was added. *)
Fixpoint fat_children (t : SHAMap) (wanted : SHAMapNodeID) (fatLeaves : bool) (node : loc) (order : list Z)
    (nextNode : option loc) (count : Z) (skipNode : bool) (out : FatNodes) : M (option loc * Z * bool * FatNodes) :=
  match order with
  | [] => mret (nextNode, count, skipNode, out)
  | i :: order =>
      n ← deref node;
      e ← lift (isEmptyBranch n i);
      if (e : bool) then fat_children t wanted fatLeaves node order nextNode count skipNode out
      else
        nextNodeID ← from_option no_branch (getChildNodeID wanted i);
        next ← descendThrow t node i;
        nn ← deref next;
        if fatLeaves || isInner nn then
          raw ← lift (addRaw_node nn snfWIRE []);
          fat_children t wanted fatLeaves node order (Some next) (count + 1) true (out ++ [(nextNodeID, raw)])
        else fat_children t wanted fatLeaves node order (Some next) (count + 1) skipNode out
  end.

(** One round per node of a chain.  The variable [nextNodeID] the round assigns to
    [wanted] is not the one set in the loop over the children, which hides it: it
    is the position of the root. *)
Fixpoint fat_rounds (fuel : nat) (t : SHAMap) (wanted : SHAMapNodeID) (fatRoot fatLeaves : bool) (node : loc)
    (skipNode : bool) (out : FatNodes) : M FatNodes :=
  match fuel with
  | O => throw (undefined no_fuel)
  | S fuel =>
      n ← deref node;
      out ← (if skipNode then mret out
             else raw ← lift (addRaw_node n snfWIRE []); mret (out ++ [(wanted, raw)]));
      if (negb fatRoot && isRoot wanted) || isLeaf n then mret out
      else
        '(nextNode, count, skipNode, out) ← fat_children t wanted fatLeaves node branches None 0 false out;
        if negb (count =? 1) then mret out
        else
          next ← from_option "null node" nextNode;
          nn ← deref next;
          if isInner nn then fat_rounds fuel t root_id fatRoot fatLeaves next skipNode out else mret out
  end.

(** [None] where the code returns [false]. *)
Definition getNodeFat (t : SHAMap) (wanted : SHAMapNodeID) (fatRoot fatLeaves : bool) : M (option FatNodes) :=
  '(node, nodeID) ← fat_walk depth_fuel t wanted (root t) root_id;
  if negb (id_eqb nodeID wanted) then throw (runtime_error "Peer requested node not in map")
  else
    n ← deref node;
    e ← (if isInner n then lift (isEmpty n) else mret false);
    if (e : bool) then mret None
    else out ← fat_rounds depth_fuel t wanted fatRoot fatLeaves node false []; mret (Some out).

Fixpoint hasInnerNode_loop (fuel : nat) (t : SHAMap) (targetNodeID : SHAMapNodeID) (targetNodeHash : uint256)
    (node : loc) (nodeID : SHAMapNodeID) : M bool :=
  match fuel with
  | O => throw (undefined no_fuel)
  | S fuel =>
      n ← deref node;
      if isInner n && (mDepth nodeID <? mDepth targetNodeID) then
        branch ← from_option no_branch (selectBranch nodeID (mNodeID targetNodeID));
        e ← lift (isEmptyBranch n branch);
        if (e : bool) then mret false
        else
          node ← descendThrow t node branch;
          nodeID ← from_option no_branch (getChildNodeID nodeID branch);
          hasInnerNode_loop fuel t targetNodeID targetNodeHash node nodeID
      else mret (isInner n && bool_decide (mHash n = targetNodeHash))
  end.

Definition hasInnerNode (t : SHAMap) (targetNodeID : SHAMapNodeID) (targetNodeHash : uint256) : M bool :=
  hasInnerNode_loop depth_fuel t targetNodeID targetNodeHash (root t) root_id.

Fixpoint hasLeafNode_loop (fuel : nat) (t : SHAMap) (tag targetNodeHash : uint256) (node : loc) (nodeID : SHAMapNodeID)
    : M bool :=
  match fuel with
  | O => throw (undefined no_fuel)
  | S fuel =>
      n ← deref node;
      branch ← from_option no_branch (selectBranch nodeID tag);
      e ← lift (isEmptyBranch n branch);
      if (e : bool) then mret false
      else
        childHash ← lift (getChildHash n branch);
        if bool_decide (childHash = targetNodeHash) then mret true
        else
          node ← descendThrow t node branch;
          nodeID ← from_option no_branch (getChildNodeID nodeID branch);
          n ← deref node;
          if isInner n then hasLeafNode_loop fuel t tag targetNodeHash node nodeID else mret false
  end.

Definition hasLeafNode (t : SHAMap) (tag targetNodeHash : uint256) : M bool :=
  n ← deref (root t);
  if negb (isInner n) then mret (bool_decide (mHash n = targetNodeHash))
  else hasLeafNode_loop depth_fuel t tag targetNodeHash (root t) root_id.

(** What [func] is called with. *)
Abbreviation Pack := (list (uint256 * Blob)).

(** [!have || !have->has...]. *)
Definition lacks (have : option SHAMap) (has : SHAMap -> M bool) : M bool :=
  match have with None => mret true | Some h => b ← has h; mret (negb b) end.

Fixpoint pack_children (t : SHAMap) (have : option SHAMap) (includeLeaves : bool) (node : loc) (nodeID : SHAMapNodeID)
    (order : list Z) (stack : NodeStack) (max : Z) (pack : Pack) : M (NodeStack * Z * Pack) :=
  match order with
  | [] => mret (stack, max, pack)
  | i :: order =>
      n ← deref node;
      e ← lift (isEmptyBranch n i);
      if (e : bool) then pack_children t have includeLeaves node nodeID order stack max pack
      else
        childHash ← lift (getChildHash n i);
        childID ← from_option no_branch (getChildNodeID nodeID i);
        next ← descendThrow t node i;
        nn ← deref next;
        if isInner nn then
          l ← lacks have (fun h => hasInnerNode h childID childHash);
          pack_children t have includeLeaves node nodeID order (if (l : bool) then (next, childID) :: stack else stack) max pack
        else
          l ← (if includeLeaves then lacks have (fun h => item ← lift (item_of nn); hasLeafNode h (mTag item) childHash)
               else mret false);
          if (l : bool) then
            raw ← lift (addRaw_node nn snfPREFIX []);
            pack_children t have includeLeaves node nodeID order stack (max - 1) (pack ++ [(childHash, raw)])
          else pack_children t have includeLeaves node nodeID order stack max pack
  end.

Fixpoint pack_loop (fuel : nat) (t : SHAMap) (have : option SHAMap) (includeLeaves : bool) (stack : NodeStack) (max : Z)
    (pack : Pack) : M Pack :=
  match stack with
  | [] => mret pack
  | (node, nodeID) :: stack =>
      if max >? 0 then
        match fuel with
        | O => throw (undefined no_fuel)
        | S fuel =>
            n ← deref node;
            raw ← lift (addRaw_node n snfPREFIX []);
            '(stack, max, pack) ← pack_children t have includeLeaves node nodeID branches stack (max - 1)
                                    (pack ++ [(mHash n, raw)]);
            pack_loop fuel t have includeLeaves stack max pack
        end
      else mret pack
  end.

(** Every round uses up one of [max], so [max] rounds are enough. *)
Definition getFetchPack (t : SHAMap) (have : option SHAMap) (includeLeaves : bool) (max : Z) : M Pack :=
  n ← deref (root t);
  if isZero (mHash n) then mret []
  else
    same ← match have with
           | Some h => hn ← deref (root h); mret (bool_decide (mHash n = mHash hn))
           | None => mret false
           end;
    if (same : bool) then mret []
    else if isLeaf n then
      l ← (if includeLeaves then lacks have (fun h => item ← lift (item_of n); hasLeafNode h (mTag item) (mHash n))
           else mret false);
      if (l : bool) then raw ← lift (addRaw_node n snfPREFIX []); mret [(mHash n, raw)] else mret []
    else pack_loop (Z.to_nat max) t have includeLeaves [(root t, root_id)] max [].

(** [getStack], then the wire forms from the leaf to the root. *)
Definition wire_of (x : loc * SHAMapNodeID) : M Blob := n ← deref x.1; lift (addRaw_node n snfWIRE []).

Fixpoint wires (stack : NodeStack) : M (list Blob) :=
  match stack with
  | [] => mret []
  | x :: stack => b ← wire_of x; rest ← wires stack; mret (b :: rest)
  end.

Definition getTrustedPath (t : SHAMap) (index : uint256) : M (list Blob) :=
  stack ← getStack t index false;
  match stack with
  | [] => throw (runtime_error "requested leaf not present")
  | (node, _) :: _ =>
      n ← deref node;
      if negb (isLeaf n) then throw (runtime_error "requested leaf not present") else wires stack
  end.

(** ** Going through a whole map *)

(** [visitNodes]: [f] is the callback, [a] what it has made so far. *)
Fixpoint visit_branches {A} (go : loc -> A -> M A) (t : SHAMap) (f : SHAMapTreeNode -> A -> A) (node : loc)
    (order : list Z) (a : A) : M A :=
  match order with
  | [] => mret a
  | pos :: order =>
      n ← deref node;
      e ← lift (isEmptyBranch n pos);
      if (e : bool) then visit_branches go t f node order a
      else
        o ← descendNoStore t node pos;
        child ← from_option "null child" o;
        c ← deref child;
        let a := f c a in
        a ← (if isLeaf c then mret a else go child a);
        visit_branches go t f node order a
  end.

Fixpoint visit_node {A} (fuel : nat) (t : SHAMap) (f : SHAMapTreeNode -> A -> A) (node : loc) (a : A) : M A :=
  match fuel with
  | O => throw (undefined no_fuel)
  | S fuel => visit_branches (visit_node fuel t f) t f node branches a
  end.

Definition visitNodes {A} (t : SHAMap) (f : SHAMapTreeNode -> A -> A) (a : A) : M A :=
  n ← deref (root t);
  e ← lift (isEmpty n);
  if (e : bool) then mret a
  else
    let a := f n a in
    if negb (isInner n) then mret a else visit_node depth_fuel t f (root t) a.

(** [visitLeaves] with a callback that keeps the items it is given. *)
Definition visitLeavesHelper (n : SHAMapTreeNode) (items : list (option SHAMapItem)) : list (option SHAMapItem) :=
  if negb (isInner n) then items ++ [mItem n] else items.

Definition visitLeaves (t : SHAMap) : M (list (option SHAMapItem)) := visitNodes t visitLeavesHelper [].

Fixpoint compare_branches (t other : SHAMap) (node otherNode : loc) (order : list Z) (stack : list (loc * loc))
    : M (option (list (loc * loc))) :=
  match order with
  | [] => mret (Some stack)
  | i :: order =>
      n ← deref node;
      on ← deref otherNode;
      e ← lift (isEmptyBranch n i);
      oe ← lift (isEmptyBranch on i);
      if (e : bool) then if (oe : bool) then compare_branches t other node otherNode order stack else mret None
      else if (oe : bool) then mret None
      else
        next ← descend t node i;
        otherNext ← descend other otherNode i;
        match next, otherNext with
        | Some next, Some otherNext => compare_branches t other node otherNode order ((next, otherNext) :: stack)
        | _, _ => mret None
        end
  end.

Fixpoint deepCompare_loop (fuel : nat) (t other : SHAMap) (stack : list (loc * loc)) : M bool :=
  match stack with
  | [] => mret true
  | (node, otherNode) :: stack =>
      match fuel with
      | O => throw (undefined no_fuel)
      | S fuel =>
          n ← deref node;
          on ← deref otherNode;
          if negb (bool_decide (mHash on = mHash n)) then mret false
          else if isLeaf n then
            if negb (isLeaf on) then mret false
            else
              item ← lift (item_of n);
              otherItem ← lift (item_of on);
              if negb (bool_decide (mTag item = mTag otherItem)) then mret false
              else if negb (bool_decide (mData item = mData otherItem)) then mret false
              else deepCompare_loop fuel t other stack
          else if isInner n then
            if negb (isInner on) then mret false
            else
              o ← compare_branches t other node otherNode branches stack;
              match o with None => mret false | Some stack => deepCompare_loop fuel t other stack end
          else deepCompare_loop fuel t other stack
      end
  end.

Definition deepCompare (fuel : nat) (t other : SHAMap) : M bool := deepCompare_loop fuel t other [(root t, root other)].

(** [walkMap]: the early return is [None] for the stack. *)
Fixpoint walk_branches (t : SHAMap) (node : loc) (order : list Z) (stack : list loc) (missing : list uint256)
    (maxMissing : Z) : M (option (list loc) * list uint256 * Z) :=
  match order with
  | [] => mret (Some stack, missing, maxMissing)
  | i :: order =>
      n ← deref node;
      e ← lift (isEmptyBranch n i);
      if (e : bool) then walk_branches t node order stack missing maxMissing
      else
        o ← descendNoStore t node i;
        match o with
        | Some next =>
            nn ← deref next;
            walk_branches t node order (if isInner nn then next :: stack else stack) missing maxMissing
        | None =>
            hash ← lift (getChildHash n i);
            let missing := missing ++ [hash] in
            if maxMissing - 1 <=? 0 then mret (None, missing, maxMissing - 1)
            else walk_branches t node order stack missing (maxMissing - 1)
        end
  end.

Fixpoint walkMap_loop (fuel : nat) (t : SHAMap) (stack : list loc) (missing : list uint256) (maxMissing : Z)
    : M (list uint256) :=
  match stack with
  | [] => mret missing
  | node :: stack =>
      match fuel with
      | O => throw (undefined no_fuel)
      | S fuel =>
          '(o, missing, maxMissing) ← walk_branches t node branches stack missing maxMissing;
          match o with
          | None => mret missing
          | Some stack => walkMap_loop fuel t stack missing maxMissing
          end
      end
  end.

Definition walkMap (fuel : nat) (t : SHAMap) (missing : list uint256) (maxMissing : Z) : M (list uint256) :=
  n ← deref (root t);
  if negb (isInner n) then mret missing else walkMap_loop fuel t [root t] missing maxMissing.

End Operations.

End SHAMapSync.
