(* ===== verification/SyncNodes.v ===== *)
(** * Genuine nodes

    A server that synchronizes knows the hash of a map [m] it does not have.
    This file says what the node of [m] at a position is: what it hashes to
    ([node_sum]), the bytes that are hashed ([node_pre]), and when a node in memory
    is that node ([genuine]).  A node that peers send is [genuine] as soon as its
    hash is right ([received_genuine]), under the local hypothesis [unforgeable]:
    the finitely many blobs received do not collide with those of [m], and none
    hashes to zero.  The bytes of a genuine node are [node_pre], and reading them
    back gives a genuine node.

    A genuine inner node may have more branch bits than children: the reader of
    the compressed form sets the bit of a position for each entry, also when a
    later entry for the same position overwrites the hash by zero. *)
From Stdlib Require Import ZArith Lia.
From S2P Require Import Prelude BaseUint Serializer SHAMapNode SHAMapSpec SHAMap SHAMapRep.
From stdpp Require Import base numbers list gmap strings.
Import BaseUint Serializer SHAMapNode SHAMapSpec SHAMap SHAMapRep.
Local Open Scope Z_scope.

Module SyncNodes.

(** ** Bits *)

(** The bitmap of the branches that pass [f]. *)
Definition bitmap (f : Z -> bool) (order : list Z) : Z := foldr (fun i b => if f i then Z.setbit b i else b) 0 order.

Lemma bitmap_bit f order j :
  Forall (fun i => 0 <= i) order -> 0 <= j -> Z.testbit (bitmap f order) j = bool_decide (j ∈ order) && f j.
Proof.
  intros Ho Hj. induction Ho as [|i order Hi Ho IH]; cbn [bitmap foldr]; [by rewrite Z.bits_0|].
  fold (bitmap f order). destruct (decide (j = i)) as [->|Hne].
  - rewrite (bool_decide_true (i ∈ i :: order)) by set_solver. destruct (f i) eqn:E; [by apply Z.setbit_eq|].
    by rewrite IH, andb_false_r.
  - replace (bool_decide (j ∈ i :: order)) with (bool_decide (j ∈ order)) by (apply bool_decide_ext; set_solver).
    rewrite <- IH. destruct (f i); [|done]. by rewrite Z.setbit_neq.
Qed.

(** The bitmap that goes with a list of hashes. *)
Definition bits_of (hs : list uint256) : Z := bitmap (fun i => negb (isZero (hs !!! Z.to_nat i))) branches.

Lemma bits_of_ok hs : bits_ok hs (bits_of hs).
Proof.
  intros i Hi. unfold bits_of. rewrite bitmap_bit; [|by_decide|done]. f_equal.
  destruct (Z.ltb_spec i 16); [by apply bool_decide_eq_true, in_branches|].
  apply bool_decide_eq_false. rewrite in_branches. lia.
Qed.

(** ** Nodes as they are read *)

Record fresh_inner (inner : InnerData) : Prop := {
  fr_len : length (mHashes inner) = 16%nat;
  fr_keys : Forall is_uint256 (mHashes inner);
  fr_children : mChildren inner = replicate 16 None;
  fr_flag : mFullBelow inner = false;
  fr_bits : forall i, 0 <= i < 16 -> isZero (mHashes inner !!! Z.to_nat i) = false -> is_branch inner i = true }.

Lemma new_inner_fresh : fresh_inner new_inner.
Proof.
  split; try done; [apply Forall_replicate, zero256_key|]. intros i Hi. cbn [new_inner mHashes].
  by rewrite lookup_total_replicate_2 by lia.
Qed.

Lemma bytes_at_u8 offset k s b : Forall is_u8 s -> bytes_at offset k s = Some b -> length b = k /\ Forall is_u8 b.
Proof.
  intros Hs. unfold bytes_at. destruct (Nat.ltb_spec (length s) (offset + k)) as [|Hlt]; [done|]. intros [= <-].
  split; [rewrite length_take, length_drop; lia|]. by apply Forall_take, Forall_drop.
Qed.

Lemma read_hash_fresh s inner pos offset :
  Forall is_u8 s -> 0 <= pos < 16 -> fresh_inner inner -> fresh_inner (read_hash s inner pos offset).
Proof.
  intros Hs Hp [Hl Hk Hc Hf Hb]. unfold read_hash.
  assert (Hh : is_uint256 (get256_at offset s (mHashes inner !!! Z.to_nat pos))).
  { unfold get256_at. destruct (bytes_at offset 32 s) as [b|] eqn:E; cbn [default].
    - by apply (bytes_at_u8 offset 32 s).
    - apply Forall_lookup_total_1; [done|lia]. }
  set (h := get256_at _ _ _) in *. split; cbn [mHashes mChildren mFullBelow]; try done.
  - by rewrite length_insert.
  - by apply Forall_insert.
  - intros i Hi Hz. rewrite is_branch_testbit by lia. cbn [mIsBranch]. destruct (decide (i = pos)) as [->|Hne].
    + rewrite list_lookup_total_insert_eq in Hz by lia. rewrite Hz. cbn [negb].
      rewrite Z.lor_spec, Z.shiftl_1_l, Z.pow2_bits_true by lia. apply orb_true_r.
    + rewrite list_lookup_total_insert_ne in Hz by lia. specialize (Hb i Hi Hz). rewrite is_branch_testbit in Hb by lia.
      destruct (negb (isZero h)); [|done]. by rewrite Z.lor_spec, Hb.
Qed.

Lemma read_full_fresh s : Forall is_u8 s -> fresh_inner (read_full s).
Proof.
  intros Hs. unfold read_full.
  assert (H : forall ps inner, Forall (fun p => 0 <= p < 16) ps -> fresh_inner inner ->
    fresh_inner (fold_left (fun inner i => read_hash s inner i (Z.to_nat i * 32)) ps inner)).
  { induction ps as [|p ps IH]; intros inner Hps Hi; [done|]. cbn [fold_left]. apply Forall_cons in Hps as [? ?].
    apply IH; [done|]. by apply read_hash_fresh. }
  apply H; [by_decide|apply new_inner_fresh].
Qed.

Lemma read_compressed_fresh s k : Forall is_u8 s -> forall i inner inner',
  fresh_inner inner -> read_compressed s k i inner = Ok inner' -> fresh_inner inner'.
Proof.
  intros Hs. induction k as [|k IH]; intros i inner inner' Hi; cbn [read_compressed]; [by intros [= <-]|].
  destruct (_ || _) eqn:E; [done|]. apply orb_false_iff in E as [E1%Z.ltb_ge E2].
  rewrite Z.geb_leb in E2. apply Z.leb_gt in E2. apply IH. by apply read_hash_fresh.
Qed.

Section Nodes.
Context `{SHA : SHA512}.

(** A node just read from the wire. *)
Definition fresh_node (n : SHAMapTreeNode) : Prop :=
  match mType n with
  | tnERROR => False
  | tnINNER => exists inner, mInner n = Some inner /\ fresh_inner inner
  | _ => exists item, mItem n = Some item /\ mInner n = None /\ is_uint256 (mTag item) /\
           (mType n = tnTRANSACTION_NM -> mTag item = getPrefixHash pfx_transactionID (mData item))
  end.

Lemma tagged_item_key short inv z s item :
  Forall is_u8 s -> tagged_item short inv z s = Ok item -> is_uint256 (mTag item).
Proof.
  unfold tagged_item. intros Hs. destruct (Nat.ltb_spec (length s) 32) as [|Hlen]; [done|].
  destruct (_ && _); [done|]. intros [= <-]. cbn [mTag]. unfold get256_at.
  destruct (bytes_at _ 32 s) as [b|] eqn:E; cbn [default]; [by apply (bytes_at_u8 _ 32 s) in E|apply zero256_key].
Qed.

Lemma removeLastByte_u8 raw : Forall is_u8 raw -> Forall is_u8 (removeLastByte raw).2.
Proof. intros H. unfold removeLastByte. case_match; [done|]. by apply Forall_take. Qed.

Lemma read_wire_fresh raw n : Forall is_u8 raw -> read_wire raw 0 = Ok n -> fresh_node n.
Proof.
  intros Hraw. unfold read_wire. pose proof (removeLastByte_u8 raw Hraw) as Hs.
  destruct (removeLastByte raw) as [type s]. cbn [snd] in Hs.
  destruct (_ || _); [done|]. destruct (type =? 0).
  { intros [= <-]. cbn. eexists. split_and!; [done|done|apply sha512half_key|done]. }
  destruct (type =? 1).
  { destruct (tagged_item _ _ _ s) as [item|] eqn:E; [|done]. intros [= <-]. cbn. exists item.
    split_and!; [done|done|by eapply tagged_item_key|done]. }
  destruct (type =? 2).
  { destruct (negb _); [done|]. intros [= <-]. cbn. eexists. split; [done|]. by apply read_full_fresh. }
  destruct (type =? 3).
  { destruct (read_compressed _ _ _ _) as [inner|] eqn:E; [|done]. intros [= <-]. cbn. eexists. split; [done|].
    eapply read_compressed_fresh; [done|apply new_inner_fresh|done]. }
  destruct (tagged_item _ _ _ s) as [item|] eqn:E; [|done]. intros [= <-]. cbn. exists item.
  split_and!; [done|done|by eapply tagged_item_key|done].
Qed.

(** The bytes a node is hashed by. *)
Definition blob_of (n : SHAMapTreeNode) : result Blob := addRaw_node n snfPREFIX [].

Lemma blob_leaf n item :
  leafy (mType n) -> mItem n = Some item -> blob_of n = Ok (leaf_pre (mType n) (mTag item) (mData item)).
Proof.
  intros Hl Hi. unfold blob_of, addRaw_node, item_of. rewrite Hi.
  rewrite decide_False by (intros E; rewrite E in Hl; by destruct Hl as [|[|]]).
  destruct Hl as [-> |[-> | ->]]; unfold leaf_pre, add256, add32'; cbn [mbind result_bind mret result_ret];
    [done|by rewrite <- app_assoc..].
Qed.

Lemma blob_inner n (inner : InnerData) :
  mType n = tnINNER -> mInner n = Some inner -> blob_of n = Ok (inner_pre (mHashes inner)).
Proof. intros Ht Hi. unfold blob_of, addRaw_node, inner_of. rewrite Ht, Hi. cbn. by rewrite fold_add256. Qed.

Lemma hash_leaf n item :
  leafy (mType n) -> mItem n = Some item -> node_hash n = Ok (sha512half (leaf_pre (mType n) (mTag item) (mData item))).
Proof. intros Hl Hi. unfold node_hash, item_of. rewrite Hi. by destruct Hl as [-> |[-> | ->]]. Qed.

Lemma hash_inner n (inner : InnerData) :
  mType n = tnINNER -> mInner n = Some inner ->
  node_hash n = Ok (if mIsBranch inner =? 0 then zero256 else sha512half (inner_pre (mHashes inner))).
Proof. intros Ht Hi. unfold node_hash, inner_of. rewrite Ht, Hi. cbn. by destruct (mIsBranch inner =? 0). Qed.

Lemma received_hash raw n : raw_node raw 0 snfWIRE zero256 false = Ok n -> Forall is_u8 raw ->
  fresh_node n /\ node_hash n = Ok (mHash n).
Proof.
  unfold raw_node. destruct (read_wire raw 0) as [n0|] eqn:E; [|done]. cbn [mbind result_bind]. intros H Hraw.
  pose proof (read_wire_fresh raw n0 Hraw E) as Hf. destruct (read_wire_hashes raw 0 n0 E) as [h Hh].
  rewrite (updateHash_fst n0 h Hh) in H. injection H as <-. done.
Qed.
End Nodes.

(** ** The nodes of a map *)

Section Genuine.
Context `{SHA : SHA512} (ty : TNType) (m : kmap).

(** The hash of the node at a position, and the bytes it is the hash of (for a
    position where there is nothing: those of an empty inner node, which hashes to
    zero by convention). *)
Definition node_sum (p : path) : uint256 := canon_hash ty (length p) (below p m).

Definition node_pre (p : path) : Blob :=
  match (if decide (p = []) then None else only (below p m)) with
  | Some (k, v) => leaf_pre ty k v
  | None => inner_pre (child_hashes ty (length p) (below p m))
  end.

(** The blobs [xs] do not collide with those of [m], and none hashes to zero. *)
Definition unforgeable (xs : Blob -> Prop) : Prop :=
  (forall x y, xs x \/ hashed ty m x -> hashed ty m y -> sha512half x = sha512half y -> x = y) /\
  (forall x, xs x \/ hashed ty m x -> isZero (sha512half x) = false).

(** The node [n] is the node of [m] at [p], with whatever children are loaded. *)
Inductive genuine (n : SHAMapTreeNode) (p : path) : Prop :=
| genuine_leaf k v :
    p <> [] -> below p m = {[k := v]} -> mType n = ty -> mItem n = Some {| mTag := k; mData := v |} ->
    mHash n = node_sum p -> genuine n p
| genuine_inner inner :
    mType n = tnINNER -> mInner n = Some inner -> p = [] \/ only (below p m) = None ->
    mHashes inner = child_hashes ty (length p) (below p m) -> length (mChildren inner) = 16%nat ->
    (forall i, 0 <= i < 16 -> isZero (mHashes inner !!! Z.to_nat i) = false -> is_branch inner i = true) ->
    (below p m = ∅ -> mIsBranch inner = 0) -> mHash n = node_sum p -> genuine n p.

Context (Hty : leafy ty) (Hm : map_ok ty m) (Hz : m !! zero256 = None) (xs : Blob -> Prop) (Hxs : unforgeable xs).

Lemma own_no_collision : no_collision ty [m].
Proof.
  destruct Hxs as [H1 H2]. split.
  - intros x y Hx Hy. rewrite Exists_cons, Exists_nil in Hx, Hy. destruct Hx as [Hx|[]], Hy as [Hy|[]]. eauto.
  - intros x Hx. rewrite Exists_cons, Exists_nil in Hx. destruct Hx as [Hx|[]]. eauto.
Qed.

Lemma node_sum_zero p : (length p <= 64)%nat -> isZero (node_sum p) = true <-> below p m = ∅.
Proof. intros Hp. apply (canon_hash_zero ty [m] own_no_collision); [apply list_elem_of_here|done]. Qed.

Lemma node_sum_void p : below p m = ∅ -> node_sum p = zero256.
Proof. intros E. unfold node_sum. by rewrite E, canon_hash_empty. Qed.

Lemma node_sum_child p i : 0 <= i < 16 -> (length p < 64)%nat ->
  child_hashes ty (length p) (below p m) !!! Z.to_nat i = node_sum (p ++ [i]).
Proof.
  intros Hi Hp. rewrite child_hashes_lookup, sub_below by done. unfold node_sum. by rewrite length_app, Nat.add_1_r.
Qed.

Lemma node_pre_hash p : (length p <= 64)%nat -> below p m <> ∅ ->
  hashed ty m (node_pre p) /\ sha512half (node_pre p) = node_sum p.
Proof.
  intros Hp Hne. unfold node_pre, node_sum. case_decide as Ep; [subst|destruct (only (below p m)) as [[k v]|] eqn:E].
  - split; [by apply hashed_inner|]. rewrite canon_hash_inner by (auto; cbn; lia). unfold inner_hash. by rewrite decide_False.
  - apply only_Some in E. split; [by apply (hashed_leaf ty p)|]. rewrite E, canon_hash_leaf; [done|].
    destruct p; [done|cbn [length] in *; lia].
  - split; [by apply hashed_inner|]. rewrite canon_hash_inner by auto. unfold inner_hash. by rewrite decide_False.
Qed.

(** The hash of a node of [m] determines its bytes. *)
Lemma node_pre_unique p x :
  (length p <= 64)%nat -> below p m <> ∅ -> xs x \/ hashed ty m x -> sha512half x = node_sum p -> x = node_pre p.
Proof.
  intros Hp Hne Hx Hs. destruct (node_pre_hash p Hp Hne) as [Hh Hs']. apply (proj1 Hxs); [done|done|congruence].
Qed.

(** Two positions with the same hash have the same bytes. *)
Lemma node_sum_pre p q : m <> ∅ ->
  (length p <= 64)%nat -> (length q <= 64)%nat -> node_sum p = node_sum q -> node_pre p = node_pre q.
Proof.
  intros Hne Hp Hq E. destruct (decide (below p m = ∅)) as [Ep|Ep].
  - assert (Hroot : forall r, below r m = ∅ -> r <> []) by (intros r Er ->; by rewrite below_nil in Er).
    assert (Eq : below q m = ∅) by (apply node_sum_zero; [done|]; rewrite <- E; by apply node_sum_zero).
    assert (Ho : only (∅ : kmap) = None) by (apply only_None; auto).
    unfold node_pre. rewrite !decide_False, Ep, Eq, Ho by auto. f_equal.
    unfold child_hashes. apply map_ext. intros i.
    assert (Hs : forall d, sub d i (∅ : kmap) = ∅) by (intros; apply map_filter_empty). rewrite !Hs. by rewrite !canon_hash_empty.
  - assert (Eq : below q m <> ∅) by (intros Eq; destruct Ep; apply node_sum_zero; [done|]; rewrite E; by apply node_sum_zero).
    destruct (node_pre_hash p Hp Ep) as [Hh Hs]. apply (node_pre_unique q); [done|done|auto|congruence].
Qed.

Lemma inner_depth p : (length p <= 64)%nat -> below p m <> ∅ -> p = [] \/ only (below p m) = None -> (length p < 64)%nat.
Proof.
  intros Hp Hne Ho. destruct (decide (length p = 64%nat)) as [E|]; [|lia]. exfalso.
  apply map_choose in Hne as (k & v & Hk). pose proof (under_below p m (map_ok_keys ty m Hm)) as Hu.
  destruct Ho as [->|Ho]; [done|]. rewrite (proj2 (only_Some _ k v)) in Ho; [done|]. by apply (under_full p).
Qed.

Lemma genuine_hash n p : genuine n p -> mHash n = node_sum p.
Proof. by intros []. Qed.

Lemma genuine_blob n p : genuine n p -> blob_of n = Ok (node_pre p).
Proof.
  intros [k v Hp E Ht Hi _|inner Ht Hi Ho Hh _ _ _ _]; unfold node_pre.
  - rewrite decide_False by done. rewrite (proj2 (only_Some _ k v) E). by rewrite (blob_leaf n _), Ht by (by rewrite ?Ht).
  - rewrite (blob_inner n inner), Hh by done. destruct Ho as [->|Ho]; [by rewrite decide_True|].
    case_decide; [done|]. by rewrite Ho.
Qed.

(** A node that has just been made: no child is loaded, nothing is marked. *)
Definition unhooked (n : SHAMapTreeNode) : Prop :=
  forall inner, mInner n = Some inner -> mChildren inner = replicate 16 None /\ mFullBelow inner = false.

Lemma leaf_pre_type ty' k v k' v' : leafy ty' -> leaf_pre ty' k v = leaf_pre ty k' v' -> ty' = ty.
Proof. intros Hl. unfold leafy in *. destruct Hl as [-> |[-> | ->]], Hty as [-> |[-> | ->]]; done. Qed.

Lemma void_hashes p : below p m = ∅ -> child_hashes ty (length p) (below p m) = replicate 16 zero256.
Proof.
  intros ->. change (replicate 16 zero256) with (map (fun _ => zero256) branches). unfold child_hashes. apply map_ext.
  intros i. assert (sub (length p) i ∅ = ∅) as -> by apply map_filter_empty. apply canon_hash_empty.
Qed.

Lemma no_bits_hashes (inner : InnerData) : fresh_inner inner -> mIsBranch inner = 0 -> mHashes inner = replicate 16 zero256.
Proof.
  intros [Hl Hk _ _ Hb] E. apply (list_eq_same_length _ _ 16); [done|done|]. intros j x y Hj Hx Hy.
  apply lookup_replicate in Hy as [-> _]. apply isZero_zero256; [by apply (Forall_lookup_1 _ _ _ _ Hk Hx)|].
  destruct (isZero x) eqn:Ez; [done|]. specialize (Hb (Z.of_nat j) ltac:(lia)).
  rewrite Nat2Z.id, (list_lookup_total_correct _ _ _ Hx), is_branch_testbit, E, Z.bits_0 in Hb by lia. by discriminate Hb.
Qed.

Lemma received_inner n (inner : InnerData) p :
  mType n = tnINNER -> mInner n = Some inner -> fresh_inner inner -> node_hash n = Ok (mHash n) ->
  xs (inner_pre (mHashes inner)) -> (length p <= 64)%nat -> (p = [] -> m <> ∅) -> mHash n = node_sum p -> genuine n p.
Proof.
  intros Et Hi Hf Hh Hin Hp Hroot Hsum. rewrite (hash_inner n inner), Hsum in Hh by done.
  pose proof Hf as [Hl Hk Hc _ Hb].
  assert (Hch : length (mChildren inner) = 16%nat) by (by rewrite Hc).
  destruct (decide (below p m = ∅)) as [Ev|Hne].
  - rewrite node_sum_void in Hh by done. destruct (Z.eqb_spec (mIsBranch inner) 0) as [E0|E0].
    + eapply genuine_inner; try done; [right; apply only_None; auto|].
      rewrite void_hashes by done. by apply no_bits_hashes.
    + injection Hh as Hh. pose proof (proj2 Hxs (inner_pre (mHashes inner)) (or_introl Hin)) as Hnz. by rewrite Hh in Hnz.
  - destruct (Z.eqb_spec (mIsBranch inner) 0) as [E0|E0].
    + injection Hh as Hh. destruct Hne. apply node_sum_zero; [done|]. by rewrite <- Hh.
    + injection Hh as Hh. apply node_pre_unique in Hh; [|done..|auto]. unfold node_pre in Hh.
      case_decide as Ep; [|destruct (only (below p m)) as [[k v]|] eqn:Eo].
      * eapply genuine_inner; try done; [auto|].
        by apply inner_pre_inj in Hh; [|done|done|apply child_hashes_keys].
      * symmetry in Hh. by apply leaf_inner_differ in Hh.
      * eapply genuine_inner; try done; [auto|].
        by apply inner_pre_inj in Hh; [|done|done|apply child_hashes_keys].
Qed.

Lemma received_leaf n item p :
  leafy (mType n) -> mItem n = Some item -> is_uint256 (mTag item) ->
  (mType n = tnTRANSACTION_NM -> mTag item = getPrefixHash pfx_transactionID (mData item)) ->
  node_hash n = Ok (mHash n) -> xs (leaf_pre (mType n) (mTag item) (mData item)) ->
  (length p <= 64)%nat -> (p = [] -> m <> ∅) -> mHash n = node_sum p -> genuine n p.
Proof.
  intros Hl Hi Hk Hnm Hh Hin Hp Hroot Hsum. rewrite (hash_leaf n item), Hsum in Hh by done. injection Hh as Hh.
  assert (Hne : below p m <> ∅).
  { intros E. pose proof (proj2 Hxs _ (or_introl Hin)) as Hnz. by rewrite Hh, node_sum_void in Hnz. }
  apply node_pre_unique in Hh; [|done..|auto]. unfold node_pre in Hh.
  case_decide as Ep; [by apply leaf_inner_differ in Hh|].
  destruct (only (below p m)) as [[k v]|] eqn:Eo; [|by apply leaf_inner_differ in Hh].
  apply only_Some in Eo. pose proof (leaf_pre_type _ _ _ _ _ Hl Hh) as Et. rewrite Et in *.
  assert (Hkv : m !! k = Some v) by (apply (below_lookup p); rewrite Eo; apply lookup_singleton_eq).
  apply (leaf_pre_inj ty {[mTag item := mData item]} m) in Hh as [E1 E2]; [| |done|apply lookup_singleton_eq|done].
  2: { intros k' v'. rewrite lookup_singleton_Some. intros [<- <-]. auto. }
  apply (genuine_leaf n p k v); try done. rewrite Hi, <- E1, <- E2. by destruct item.
Qed.

(** A node received is the node of the map if its hash is. *)
Lemma received_genuine raw n x p :
  raw_node raw 0 snfWIRE zero256 false = Ok n -> Forall is_u8 raw -> blob_of n = Ok x -> xs x ->
  (length p <= 64)%nat -> (p = [] -> m <> ∅) -> mHash n = node_sum p -> genuine n p /\ unhooked n.
Proof.
  intros Hraw Hu8 Hx Hin Hp Hroot Hsum. destruct (received_hash raw n Hraw Hu8) as [Hfresh Hh].
  unfold fresh_node in Hfresh. destruct (decide (mType n = tnINNER)) as [Et|Et].
  - rewrite Et in Hfresh. destruct Hfresh as (inner & Hi & Hf).
    rewrite (blob_inner n inner) in Hx by done. injection Hx as <-. split; [by apply (received_inner n inner)|].
    intros inner' Hi'. rewrite Hi in Hi'. injection Hi' as <-. by split; apply Hf.
  - assert (Hl : leafy (mType n)) by (unfold leafy; destruct (mType n); tauto).
    assert (Hleaf : exists item, mItem n = Some item /\ mInner n = None /\ is_uint256 (mTag item) /\
      (mType n = tnTRANSACTION_NM -> mTag item = getPrefixHash pfx_transactionID (mData item))).
    { destruct Hl as [E|[E|E]]; rewrite E in *; done. }
    destruct Hleaf as (item & Hi & Hn & Hk & Hnm). rewrite (blob_leaf n item) in Hx by done. injection Hx as <-.
    split; [by apply (received_leaf n item)|]. intros inner'. by rewrite Hn.
Qed.

(** The bytes of a node of the map are read back as that node. *)
Lemma stored_genuine p :
  (length p <= 64)%nat ->
  exists n, raw_node (node_pre p) 0 snfPREFIX (node_sum p) true = Ok n /\ genuine n p /\ unhooked n.
Proof.
  intros Hp. unfold node_pre. destruct (if decide (p = []) then None else only (below p m)) as [[k v]|] eqn:Eo.
  - case_decide as Ep; [done|]. apply only_Some in Eo.
    set (n := {| mHash := node_sum p; mItem := Some {| mTag := k; mData := v |}; mSeq := 0; mType := ty; mInner := None |}).
    assert (Hkv : m !! k = Some v) by (apply (below_lookup p); rewrite Eo; apply lookup_singleton_eq).
    destruct (Hm k v Hkv) as [Hk Hnm].
    assert (Hw : writable n).
    { unfold writable. cbn [mType n]. assert (Htag : is_tagged n).
      { eexists. split_and!; [done|done|]. cbn [mTag]. intros ->. by rewrite Hz in Hkv. }
      destruct Hty as [E|[E|E]]; rewrite E; try done. eexists. split; [done|]. cbn. by apply Hnm. }
    destruct (read_contents n snfPREFIX 0 Hw ltac:(done)) as (raw & Hraw & Hread).
    pose proof (blob_leaf n _ Hty eq_refl) as Hb. unfold blob_of in Hb. rewrite Hb in Hraw. injection Hraw as <-.
    exists (with_hash (contents n 0) (node_sum p)). split; [|split].
    + unfold raw_node. cbn [read_raw mTag mData n mType] in Hread |- *. by rewrite Hread.
    + rewrite (contents_item n {| mTag := k; mData := v |}) by (done || (cbn; intros E; rewrite E in Hty; by destruct Hty as [|[|]])).
      by apply (genuine_leaf _ _ k v).
    + intros inner. by rewrite (contents_item n {| mTag := k; mData := v |}) by (done || (cbn; intros E; rewrite E in Hty; by destruct Hty as [|[|]])).
  - set (hs := child_hashes ty (length p) (below p m)).
    set (inner := {| mHashes := hs; mChildren := replicate 16 None; mIsBranch := bits_of hs; mFullBelow := false |}).
    assert (Hok : inner_ok inner) by (split_and!; [done|apply child_hashes_keys|apply bits_of_ok|done]).
    exists (with_hash (inner_contents inner 0) (node_sum p)). split; [|split].
    + unfold raw_node, inner_pre. rewrite read_prefix_app by done.
      change (get_be 32 (snd (add32 pfx_innerNode []))) with pfx_innerNode.
      pose proof (length_concat_hashes inner Hok) as Hlen. cbn [mHashes inner] in Hlen. rewrite Hlen.
      pose proof (read_full_concat inner Hok) as Hr. cbn [mHashes inner] in Hr. rewrite Hr. done.
    + eapply genuine_inner; try done.
      * case_decide; [auto|]. by right.
      * intros i Hi Hnz. rewrite is_branch_testbit, (bits_of_ok hs) by lia.
        rewrite (proj2 (Z.ltb_lt i 16)) by lia. cbn [andb]. by apply negb_true_iff.
      * intros Ev. cbn [mIsBranch inner]. apply Z.bits_inj'. intros i Hi. rewrite Z.bits_0, (bits_of_ok hs) by done.
        unfold hs. rewrite void_hashes by done. destruct (Z.ltb_spec i 16) as [Hlt|]; [|done].
        by rewrite lookup_total_replicate_2 by lia.
    + by intros inner' [= <-].
Qed.

End Genuine.

End SyncNodes.
