(* ===== verification/SyncLaws.v ===== *)
(** * Synchronization is sound and complete

    The server acquires the map [m] of which it knows the root hash.  Its peers
    are not trusted: the nodes and fetch-pack entries they send are arbitrary
    bytes.  The invariant [synced] says what is known of the state all the same.
    A ghost map assigns positions to the cells of the map being built: every such
    cell is the genuine node of its position, and its child pointers lead to cells
    of the positions below.  The database, the filters' caches and the full-below
    cache are consistent with [m].  [sync_authentic] and [sync_complete] draw the
    conclusions for any sequence of operations.

    A backed map relies on its filter to write what it receives to the database:
    [strict] says that a backed map has such a filter.  Without it the full-below
    cache would claim subtrees the database does not have. *)
From Stdlib Require Import ZArith Lia.
From S2P Require Import Prelude Effects BaseUint Serializer SHAMapNode SHAMapSpec SHAMap SHAMapRep SHAMapReads.
From S2P Require Import SHAMapLaws SHAMapTyping SHAMapSync SyncNodes.
From stdpp Require Import base numbers list gmap strings.
Import BaseUint Serializer SHAMapNode SHAMapSpec SHAMap SHAMapRep SHAMapReads SHAMapLaws SHAMapTyping Effects SHAMapSync SyncNodes.
Local Open Scope Z_scope.

Module SyncLaws.

(** ** What happens to a map being acquired *)

(** Messages from peers, calls of [getMissingNodes], entries for the fetch pack,
    lookups, and the expiry of cache entries ([f] says which stay). *)
Inductive sync_op : Type :=
| syRoot (raw : Blob)
| syNode (id : SHAMapNodeID) (raw : Blob)
| syMissing (max : Z)
| syPack (hash : uint256) (data : Blob)
| syPeek (k : uint256)
| syExpire (f : uint256 -> bool).

Definition keep (f : uint256 -> bool) (K : gmap uint256 Blob) : gmap uint256 Blob := base.filter (fun kv => f kv.1 = true) K.

Definition expire (f : uint256 -> bool) (w : Net) : Net :=
  {| store := store w; fullBelowCache := base.filter (fun h => f h = true) (fullBelowCache w);
     nodeCache := keep f (nodeCache w); fetchPack := keep f (fetchPack w); submitted := submitted w; draws := draws w |}.

Section Steps.
Context `{SHA : SHA512} `{SRV : Server} (hash : uint256) (filter : option SHAMapSyncFilter).

(** The object after a call: as it was if the call threw. *)
Definition sync_step (o : sync_op) (x : SHAMap * Net) : SHAMap * Net :=
  let '(t, w) := x in
  match o with
  | syRoot raw =>
      let '(r, w') := addRootNode t hash raw snfWIRE filter w in (match r with Ok (_, t') => t' | Throw _ => t end, w')
  | syNode id raw =>
      let '(r, w') := addKnownNode t id raw filter w in (match r with Ok (_, t') => t' | Throw _ => t end, w')
  | syMissing max =>
      let '(r, w') := getMissingNodes t [] [] max filter w in (match r with Ok (t', _, _) => t' | Throw _ => t end, w')
  | syPack h data => (t, (addFetchPack h data w).2)
  | syPeek k => (t, (on_store (peekItem t k) w).2)
  | syExpire f => (t, expire f w)
  end.

Definition sync_run (ops : list sync_op) (x : SHAMap * Net) : SHAMap * Net := fold_left (fun x o => sync_step o x) ops x.
End Steps.

Section Sync.
Context `{SHA : SHA512} `{SRV : Server} (ty : TNType) (m : kmap) (xs : Blob -> Prop).
Context (Hty : leafy ty) (Hm : map_ok ty m) (Hz : m !! zero256 = None) (Hne : m <> ∅) (Hxs : unforgeable ty m xs).
Context (backed : bool) (filter : option SHAMapSyncFilter).
Context (Hknown : forall h b, known_transaction h = Some b ->
  sha512half (add32' pfx_transactionID [] ++ b) = h /\ xs (add32' pfx_transactionID [] ++ b)).
Context (Hrand : forall k, 0 <= rand k).

Abbreviation sum := (node_sum ty m).
Abbreviation blob := (node_pre ty m).
Abbreviation void p := (below p m = ∅).

Definition strict : Prop := backed = true -> filter = Some AccountStateSF \/ filter = Some TransactionStateSF.

(** ** What is complete *)

(** The database has the node at [p]. *)
Definition has (D : gmap uint256 Blob) (p : path) : Prop := D !! sum p = Some (blob p).

(** The database has everything below [p]. *)
Definition db_full (D : gmap uint256 Blob) (p : path) : Prop :=
  forall q, p `prefix_of` q -> (length q <= 64)%nat -> ~ void q -> has D q.

(** Everything below the node at [l] is in memory. *)
Inductive mem_full (C : list SHAMapTreeNode) : loc -> path -> Prop :=
| mf_void l p : void p -> mem_full C l p
| mf_leaf l p n : C !! l = Some n -> isInner n = false -> mem_full C l p
| mf_inner l p n inner :
    C !! l = Some n -> mInner n = Some inner ->
    (forall i, 0 <= i < 16 -> ~ void (p ++ [i]) -> is_Some (mChildren inner !!! Z.to_nat i)) ->
    (forall i c, 0 <= i < 16 -> ~ void (p ++ [i]) -> mChildren inner !!! Z.to_nat i = Some c -> mem_full C c (p ++ [i])) ->
    mem_full C l p.

Definition full (C : list SHAMapTreeNode) (D : gmap uint256 Blob) (l : loc) (p : path) : Prop :=
  if backed then db_full D p else mem_full C l p.

(** ** The invariant *)

Abbreviation ghost := (gmap loc path).

Record cell_ok (C : list SHAMapTreeNode) (g : ghost) (l : loc) (p : path) : Prop := {
  ce_depth : (length p <= 64)%nat;
  ce_node : exists n, C !! l = Some n /\ genuine ty m n p /\
    forall inner i c, mInner n = Some inner -> 0 <= i < 16 -> mChildren inner !!! Z.to_nat i = Some c -> g !! c = Some (p ++ [i]) }.

(** A table of blobs by hash holds nothing but the bytes of [m] under the hashes
    of [m]. *)
Definition table_ok (D : gmap uint256 Blob) : Prop :=
  forall p d, (length p <= 64)%nat -> D !! sum p = Some d -> d = blob p.

Record synced_at (C : list SHAMapTreeNode) (D K P : gmap uint256 Blob) (F : gset uint256) (g : ghost) : Prop := {
  sy_cell : forall l p, g !! l = Some p -> cell_ok C g l p;
  sy_db : table_ok D;
  sy_cache : table_ok K;
  sy_pack : forall h d, P !! h = Some d -> xs d;
  sy_known : strict -> backed = true -> forall p, (length p <= 64)%nat -> sum p ∈ F -> db_full D p;
  sy_flag : strict -> forall l p n inner,
    g !! l = Some p -> C !! l = Some n -> mInner n = Some inner -> mFullBelow inner = true -> full C D l p;
  sy_stored : strict -> backed = true -> forall l p, g !! l = Some p -> ~ void p -> has D p }.

Definition synced (w : Net) (g : ghost) : Prop :=
  synced_at (cells (store w)) (db (store w)) (nodeCache w) (fetchPack w) (fullBelowCache w) g.

(** How the state may change: cells get children, nothing is forgotten. *)
Record grown_at (C : list SHAMapTreeNode) (D : gmap uint256 Blob) (g : ghost)
    (C' : list SHAMapTreeNode) (D' : gmap uint256 Blob) (g' : ghost) : Prop := {
  gw_ghost : g ⊆ g';
  gw_cells : forall l n, C !! l = Some n -> exists n', C' !! l = Some n' /\ hooked n n';
  gw_db : forall p, (length p <= 64)%nat -> has D p -> has D' p }.

Definition grown (w : Net) (g : ghost) (w' : Net) (g' : ghost) : Prop :=
  grown_at (cells (store w)) (db (store w)) g (cells (store w')) (db (store w')) g'.

Lemma grown_refl_at C D g : grown_at C D g C D g.
Proof. split; eauto using hooked_refl. Qed.

Lemma grown_refl w g : grown w g w g.
Proof. apply grown_refl_at. Qed.

Lemma grown_trans_at C1 D1 g1 C2 D2 g2 C3 D3 g3 :
  grown_at C1 D1 g1 C2 D2 g2 -> grown_at C2 D2 g2 C3 D3 g3 -> grown_at C1 D1 g1 C3 D3 g3.
Proof.
  intros [Ha Hb Hc] [Ha' Hb' Hc']. split; [by trans g2| |by eauto].
  intros l n Hn. destruct (Hb l n Hn) as (n2 & Hn2 & ?). destruct (Hb' l n2 Hn2) as (n3 & ? & ?). eauto using hooked_trans.
Qed.

Lemma grown_trans w1 g1 w2 g2 w3 g3 : grown w1 g1 w2 g2 -> grown w2 g2 w3 g3 -> grown w1 g1 w3 g3.
Proof. apply grown_trans_at. Qed.

Lemma mem_full_grown C D g C' D' g' l p : grown_at C D g C' D' g' -> mem_full C l p -> mem_full C' l p.
Proof.
  intros Hgr H. induction H as [l p Hv|l p n Hn Hi|l p n inner Hn Hi Hs Hc IH]; [by apply mf_void| |].
  - destruct (gw_cells _ _ _ _ _ _ Hgr l n Hn) as (n' & Hn' & (_ & _ & _ & Et & _)). apply (mf_leaf _ _ _ n'); [done|].
    unfold isInner in *. by rewrite Et.
  - destruct (gw_cells _ _ _ _ _ _ Hgr l n Hn) as (n' & Hn' & (_ & _ & _ & _ & Hin)). rewrite Hi in Hin.
    destruct (mInner n') as [inner'|] eqn:Hi'; [|done]. destruct Hin as (_ & _ & _ & Hch).
    apply (mf_inner _ _ _ n' inner'); [done|done| |].
    + intros i Hr Hv. destruct (Hs i Hr Hv) as [c Hc']. rewrite (Hch _ c) by done. eauto.
    + intros i c Hr Hv Hc'. destruct (Hs i Hr Hv) as [c0 Hc0]. rewrite (Hch _ c0) in Hc' by done. injection Hc' as <-.
      by apply (IH i c0).
Qed.

Lemma db_full_grown C D g C' D' g' p : grown_at C D g C' D' g' -> db_full D p -> db_full D' p.
Proof. intros Hgr H q Hq Hl Hv. apply (gw_db _ _ _ _ _ _ Hgr); [done|]. by apply H. Qed.

Lemma full_grown C D g C' D' g' l p : grown_at C D g C' D' g' -> full C D l p -> full C' D' l p.
Proof. intros Hgr. unfold full. destruct backed; [by eapply db_full_grown|by eapply mem_full_grown]. Qed.

(** *** Positions with the same hash *)

Lemma sum_nonvoid p q : (length p <= 64)%nat -> (length q <= 64)%nat -> sum p = sum q -> void p -> void q.
Proof. intros Hp Hq E Hv. apply (node_sum_zero ty m xs Hxs); [done|]. rewrite <- E. by apply (node_sum_zero ty m xs Hxs). Qed.

Lemma table_insert D p : (length p <= 64)%nat -> table_ok D -> table_ok (<[sum p := blob p]> D).
Proof.
  intros Hp HD q d Hq. destruct (decide (sum p = sum q)) as [E|E].
  - rewrite <- E, lookup_insert_eq. intros [= <-]. by apply (node_sum_pre ty m xs Hxs).
  - rewrite lookup_insert_ne by done. by apply HD.
Qed.

(** What was hashed is what a node of the map hashes. *)
Lemma known_blob x p : (length p <= 64)%nat -> xs x -> sha512half x = sum p -> ~ void p /\ x = blob p.
Proof.
  intros Hp Hx Hs. assert (Hv : ~ void p).
  { intros Hv. pose proof (proj2 Hxs x (or_introl Hx)) as Hn. by rewrite Hs, node_sum_void in Hn. }
  split; [done|]. apply (node_pre_unique ty m xs Hxs); auto.
Qed.


Lemma void_app p s : void p -> void (p ++ s).
Proof.
  intros E. apply map_empty. intros k. apply eq_None_not_Some. intros [v [Hk Hpre]%below_lookup].
  assert (H : below p m !! k = Some v); [|by rewrite E, lookup_empty in H]. apply below_lookup. split; [done|].
  apply (f_equal (take (length p))) in Hpre. rewrite take_take, take_app_length, length_app in Hpre.
  by replace (length p `min` (length p + length s))%nat with (length p) in Hpre by lia.
Qed.

Lemma nonvoid_child p i : ~ void (p ++ [i]) -> ~ void p /\ (length p < 64)%nat /\ 0 <= i < 16.
Proof.
  intros (k & v & [Hk Hpre]%below_lookup)%map_choose.
  assert (Hl : (length p < 64)%nat).
  { apply (f_equal length) in Hpre. rewrite length_take, length_nibbles, length_app in Hpre. cbn [length] in Hpre. lia. }
  apply snoc_path in Hpre as [Hpre Hi]; [|done]. split_and!; [|done|..].
  - intros E. assert (H : below p m !! k = Some v) by (by apply below_lookup). by rewrite E, lookup_empty in H.
  - pose proof (nib_range k (length p) (map_ok_keys ty m Hm k v Hk) Hl). lia.
  - pose proof (nib_range k (length p) (map_ok_keys ty m Hm k v Hk) Hl). lia.
Qed.

Lemma leaf_below p i k v : below p m = {[k := v]} -> ~ void (p ++ [i]) -> below (p ++ [i]) m = {[k := v]}.
Proof.
  intros E Hv. destruct (nonvoid_child p i Hv) as (_ & Hl & _).
  apply map_choose in Hv as (k' & v' & Hk). pose proof Hk as Hk'. rewrite <- sub_below, E in Hk' by done.
  apply sub_lookup in Hk' as [[<- <-]%lookup_singleton_Some Hn]. rewrite <- sub_below, E by done.
  unfold sub. by apply map_filter_singleton_True.
Qed.

(** The two kinds of node a position has. *)
Lemma position_cases p :
  (p <> [] /\ exists k v, below p m = {[k := v]} /\ blob p = leaf_pre ty k v) \/
  ((p = [] \/ only (below p m) = None) /\ blob p = inner_pre (child_hashes ty (length p) (below p m))).
Proof.
  unfold node_pre. case_decide as Ep; [right; auto|]. destruct (only (below p m)) as [[k v]|] eqn:E; [left|right; auto].
  split; [done|]. exists k, v. split; [by apply only_Some|done].
Qed.

Lemma leaf_sum p k v : p <> [] -> (length p <= 64)%nat -> below p m = {[k := v]} -> sum p = sha512half (leaf_pre ty k v).
Proof.
  intros Hp Hl E. unfold node_sum. rewrite E. apply canon_hash_leaf. destruct p; [done|]. cbn [length] in *. lia.
Qed.

(** Positions with the same hash have the same nodes below. *)
Lemma db_full_walk D s : forall p q, (length p <= 64)%nat -> (length q <= 64)%nat -> sum p = sum q -> db_full D q ->
  (length (p ++ s) <= 64)%nat -> ~ void (p ++ s) -> has D (p ++ s).
Proof.
  induction s as [|i s IH]; intros p q Hp Hq E Hfull Hl Hv.
  - rewrite app_nil_r in *. unfold has. rewrite E, (node_sum_pre ty m xs Hxs p q) by done. apply Hfull; [done|done|].
    intros Hvq. by apply Hv, (sum_nonvoid q p).
  - assert (Hvi : ~ void (p ++ [i])).
    { intros Hv'. apply Hv. rewrite cons_middle, app_assoc. by apply void_app. }
    destruct (nonvoid_child p i Hvi) as (Hvp & Hlp & Hi). rewrite cons_middle, app_assoc in Hl, Hv |- *.
    assert (Hl' : (length (p ++ [i]) <= 64)%nat) by (rewrite length_app; cbn; lia).
    pose proof (node_sum_pre ty m xs Hxs p q Hne Hp Hq E) as Eb.
    destruct (position_cases p) as [(Hp0 & k & v & Ek & Ebk)|(Ho & Ebh)].
    + apply (IH (p ++ [i]) q); [done|done| |done|done|done]. rewrite <- E.
      rewrite (leaf_sum (p ++ [i]) k v), (leaf_sum p k v); [done|done|done|done|by destruct p|done|by apply leaf_below].
    + destruct (position_cases q) as [(_ & k & v & _ & Eq)|(Ho' & Ebh')].
      { rewrite Ebh, Eq in Eb. symmetry in Eb. by apply leaf_inner_differ in Eb. }
      assert (Hvq : ~ void q) by (intros Hv'; by apply Hvp, (sum_nonvoid q p)).
      pose proof (inner_depth ty m Hm q Hq Hvq Ho') as Hlq.
      apply (IH (p ++ [i]) (q ++ [i])); [done|rewrite length_app; cbn; lia| | |done|done].
      * rewrite <- !node_sum_child by done. f_equal. apply inner_pre_inj; [done|apply child_hashes_keys..|congruence].
      * intros r Hr. apply Hfull. by trans (q ++ [i]); [apply prefix_app_r|].
Qed.

Lemma db_full_sum D p q :
  (length p <= 64)%nat -> (length q <= 64)%nat -> sum p = sum q -> db_full D q -> db_full D p.
Proof. intros Hp Hq E Hf r [s ->] Hl Hv. by apply (db_full_walk D s p q). Qed.

Lemma db_full_void D p : void p -> db_full D p.
Proof. intros Hv q [s ->] _ Hq. by destruct Hq; apply void_app. Qed.

Lemma db_full_leaf D p k v :
  p <> [] -> (length p <= 64)%nat -> below p m = {[k := v]} -> has D p -> db_full D p.
Proof.
  intros Hp Hl E Hh q [s ->] Hls Hv. revert p Hp Hl E Hh Hls Hv.
  induction s as [|j s IHs]; intros p Hp Hl E Hh Hls Hv; [by rewrite app_nil_r|].
  rewrite cons_middle, app_assoc in Hls, Hv |- *.
  assert (Hvj : ~ void (p ++ [j])) by (intros Hv'; by apply Hv, void_app).
  pose proof (leaf_below p j k v E Hvj) as Ej. assert (Hlj : (length (p ++ [j]) <= 64)%nat).
  { rewrite length_app in Hls. lia. }
  apply IHs; [by destruct p|done|done| |done|done]. unfold has in *.
  assert (Es : sum (p ++ [j]) = sum p) by (rewrite (leaf_sum p k v), (leaf_sum (p ++ [j]) k v); try done; by destruct p).
  rewrite Es, Hh. f_equal. by apply (node_sum_pre ty m xs Hxs).
Qed.

Lemma db_full_children D p :
  has D p \/ void p -> (forall i, 0 <= i < 16 -> ~ void (p ++ [i]) -> db_full D (p ++ [i])) -> db_full D p.
Proof.
  intros Hh Hc q [[|i s] ->] Hl Hv.
  - rewrite app_nil_r in *. by destruct Hh.
  - rewrite cons_middle, app_assoc in Hl, Hv |- *.
    assert (Hvi : ~ void (p ++ [i])) by (intros Hv'; by apply Hv, void_app).
    destruct (nonvoid_child p i Hvi) as (_ & _ & Hi). apply (Hc i Hi Hvi); [by apply prefix_app_r|done|done].
Qed.


(** ** Steps that keep the invariant *)

Lemma cell_grown C D g C' D' g' l p n :
  grown_at C D g C' D' g' -> C !! l = Some n -> C' !! l = Some n ->
  (forall inner i c, mInner n = Some inner -> 0 <= i < 16 -> mChildren inner !!! Z.to_nat i = Some c -> g !! c = Some (p ++ [i])) ->
  (length p <= 64)%nat -> genuine ty m n p -> cell_ok C' g' l p.
Proof.
  intros Hgr Hn Hn' Hc Hp Hgen. split; [done|]. exists n. split_and!; [done|done|]. intros inner i c Hi Hr Hch.
  apply (lookup_weaken g); [by apply (Hc inner)|apply Hgr].
Qed.

(** A new cell, not yet part of the map. *)
Lemma append_cell C D K P F g n :
  synced_at C D K P F g -> synced_at (C ++ [n]) D K P F g /\ grown_at C D g (C ++ [n]) D g.
Proof.
  intros [Hcell Hdb Hk Hp Hfb Hfl Hst].
  assert (Hgr : grown_at C D g (C ++ [n]) D g).
  { split; [done| |done]. intros l n0 Hn0. exists n0. split; [by apply lookup_app_l_Some|apply hooked_refl]. }
  split; [|done]. split; try done.
  - intros l q Hq. destruct (Hcell l q Hq) as [Hlq (n0 & Hn0 & Hgen0 & Hc0)].
    apply (cell_grown C D g _ D _ l q n0); [done|done|by apply lookup_app_l_Some|done|done|done].
  - intros Hs l q n0 inner Hq Hn0 Hi Hf. destruct (Hcell l q Hq) as [_ (n1 & Hn1 & _)].
    rewrite lookup_app_l in Hn0 by (by eapply lookup_lt_Some).
    eapply full_grown; [exact Hgr|]. by apply (Hfl Hs l q n0 inner).
Qed.

(** A cell becomes part of the map. *)
Lemma adopt_cell C D K P F g l n p :
  synced_at C D K P F g -> C !! l = Some n -> g !! l = None -> genuine ty m n p -> unhooked n -> (length p <= 64)%nat ->
  (strict -> backed = true -> ~ void p -> has D p) ->
  synced_at C D K P F (<[l := p]> g) /\ grown_at C D g C D (<[l := p]> g).
Proof.
  intros [Hcell Hdb Hk Hp Hfb Hfl Hst] Hn Hfresh Hgen Hun Hl Hhas.
  assert (Hgr : grown_at C D g C D (<[l := p]> g)) by (split; [by apply insert_subseteq|eauto using hooked_refl|done]).
  split; [|done]. split; try done.
  - intros l' q [[<- <-]|[Hne' Hq]]%lookup_insert_Some.
    + split; [done|]. exists n. split_and!; [done|done|].
      intros inner i c Hi Hr. rewrite (proj1 (Hun inner Hi)), lookup_total_replicate_2 by lia. done.
    + destruct (Hcell l' q Hq) as [Hlq (n0 & Hn0 & Hgen0 & Hc0)]. by apply (cell_grown C D g _ D _ l' q n0).
  - intros Hs l' q n0 inner [[<- <-]|[Hne' Hq]]%lookup_insert_Some Hn0 Hi Hf.
    + rewrite Hn in Hn0. injection Hn0 as <-. by rewrite (proj2 (Hun inner Hi)) in Hf.
    + by apply (Hfl Hs l' q n0 inner).
  - intros Hs Hb l' q [[<- <-]|[Hne' Hq]]%lookup_insert_Some Hv; [by apply Hhas|by apply (Hst Hs Hb l' q)].
Qed.

Lemma ghost_bound C D K P F g l p : synced_at C D K P F g -> g !! l = Some p -> (l < length C)%nat.
Proof. intros Hsy Hl. destruct (ce_node _ _ _ _ (sy_cell _ _ _ _ _ _ Hsy l p Hl)) as (n & Hn & _). by eapply lookup_lt_Some. Qed.

(** A cell of the map gets more children or is marked. *)
Lemma update_cell C D K P F g l p n n' :
  synced_at C D K P F g -> g !! l = Some p -> C !! l = Some n -> hooked n n' -> genuine ty m n' p ->
  (forall inner i c, mInner n' = Some inner -> 0 <= i < 16 -> mChildren inner !!! Z.to_nat i = Some c -> g !! c = Some (p ++ [i])) ->
  (forall inner, mInner n' = Some inner -> mFullBelow inner = true ->
     (exists inner0, mInner n = Some inner0 /\ mFullBelow inner0 = true) \/ (strict -> full C D l p)) ->
  synced_at (<[l := n']> C) D K P F g /\ grown_at C D g (<[l := n']> C) D g.
Proof.
  intros [Hcell Hdb Hk Hp Hfb Hfl Hst] Hgl Hn Hh Hgen Hch Hflag. pose proof (lookup_lt_Some _ _ _ Hn) as Hlt.
  assert (Hgr : grown_at C D g (<[l := n']> C) D g).
  { split; [done| |done]. intros l0 n0 Hn0. destruct (decide (l0 = l)) as [->|Hl0].
    - exists n'. rewrite list_lookup_insert_eq by done. split; [done|congruence].
    - exists n0. rewrite list_lookup_insert_ne by done. split; [done|apply hooked_refl]. }
  split; [|done]. split; try done.
  - intros l0 q Hq. destruct (decide (l0 = l)) as [->|Hl0].
    + rewrite Hgl in Hq. injection Hq as <-. split; [by apply (Hcell l p)|]. exists n'.
      by rewrite list_lookup_insert_eq by done.
    + destruct (Hcell l0 q Hq) as [Hlq (n0 & Hn0 & Hgen0 & Hc0)].
      apply (cell_grown C D g _ D _ l0 q n0); [done|done|by rewrite list_lookup_insert_ne|done|done|done].
  - intros Hs l0 q n0 inner Hq Hn0 Hi Hf. eapply full_grown; [exact Hgr|]. destruct (decide (l0 = l)) as [->|Hl0].
    + rewrite list_lookup_insert_eq in Hn0 by done. injection Hn0 as <-. rewrite Hgl in Hq. injection Hq as <-.
      destruct (Hflag inner Hi Hf) as [(inner0 & Hi0 & Hf0)|H]; [|by apply H]. by apply (Hfl Hs l p n inner0).
    + rewrite list_lookup_insert_ne in Hn0 by done. by apply (Hfl Hs l0 q n0 inner).
Qed.

Lemma genuine_with_inner n p (inner inner' : InnerData) :
  genuine ty m n p -> mType n = tnINNER -> mInner n = Some inner -> mHashes inner' = mHashes inner ->
  mIsBranch inner' = mIsBranch inner -> length (mChildren inner') = 16%nat -> genuine ty m (with_inner n inner') p.
Proof.
  intros [k v _ _ Ht|inner0 Ht Hi Ho Hh Hl Hb Hv Hs] Et Hi' E1 E2 E3.
  { rewrite Et in Ht. rewrite <- Ht in Hty. by destruct Hty as [|[|]]. }
  rewrite Hi in Hi'. injection Hi' as ->. apply (genuine_inner ty m _ _ inner'); try done.
  - congruence.
  - rewrite E1. intros i Hr Hnz. specialize (Hb i Hr Hnz). unfold is_branch in *. by rewrite E2.
  - rewrite E2. done.
Qed.

Lemma genuine_inner_type n p (inner : InnerData) :
  genuine ty m n p -> isInner n = true -> mInner n = Some inner -> length (mChildren inner) = 16%nat /\ mType n = tnINNER.
Proof.
  unfold isInner. intros Hgen Hin%bool_decide_eq_true Hi. split; [|done].
  destruct Hgen as [k v _ _ Ht|inner0 _ Hi0 _ _ Hl _ _ _].
  - rewrite Hin in Ht. rewrite <- Ht in Hty. by destruct Hty as [|[|]].
  - congruence.
Qed.

Lemma hook_cell C D K P F g l p n (inner : InnerData) i c :
  synced_at C D K P F g -> g !! l = Some p -> C !! l = Some n -> isInner n = true -> mInner n = Some inner ->
  mChildren inner !!! Z.to_nat i = None -> 0 <= i < 16 -> g !! c = Some (p ++ [i]) ->
  synced_at (<[l := with_inner n (set_pointer inner i c)]> C) D K P F g /\
  grown_at C D g (<[l := with_inner n (set_pointer inner i c)]> C) D g.
Proof.
  intros Hsy Hgl Hn Hin Hi Hnone Hr Hc. destruct (ce_node _ _ _ _ (sy_cell _ _ _ _ _ _ Hsy l p Hgl)) as (n0 & Hn0 & Hgen & Hch).
  rewrite Hn in Hn0. injection Hn0 as <-. destruct (genuine_inner_type n p inner Hgen Hin Hi) as [Hlen Ht].
  apply (update_cell C D K P F g l p n); try done.
  - split_and!; try done. cbn [with_inner mInner]. rewrite Hi. cbn [set_pointer mHashes mIsBranch mChildren].
    split_and!; [done|done|by rewrite length_insert|]. intros j c' Hj.
    destruct (decide (j = Z.to_nat i)) as [->|]; [by rewrite Hnone in Hj|]. by rewrite list_lookup_total_insert_ne.
  - eapply genuine_with_inner; try done. cbn. by rewrite length_insert.
  - intros inner' j c' [= <-] Hj. cbn [set_pointer mChildren]. destruct (decide (j = i)) as [->|].
    + rewrite list_lookup_total_insert_eq by lia. by intros [= <-].
    + rewrite list_lookup_total_insert_ne by lia. by apply Hch.
  - intros inner' [= <-] Hf. left. by exists inner.
Qed.

Lemma mark_cell C D K P F g l p n (inner : InnerData) :
  synced_at C D K P F g -> g !! l = Some p -> C !! l = Some n -> isInner n = true -> mInner n = Some inner ->
  (strict -> full C D l p) ->
  synced_at (<[l := with_inner n (mark_full inner)]> C) D K P F g /\
  grown_at C D g (<[l := with_inner n (mark_full inner)]> C) D g.
Proof.
  intros Hsy Hgl Hn Hin Hi Hfull. destruct (ce_node _ _ _ _ (sy_cell _ _ _ _ _ _ Hsy l p Hgl)) as (n0 & Hn0 & Hgen & Hch).
  rewrite Hn in Hn0. injection Hn0 as <-. destruct (genuine_inner_type n p inner Hgen Hin Hi) as [Hlen Ht].
  apply (update_cell C D K P F g l p n); try done.
  - split_and!; try done. cbn [with_inner mInner]. by rewrite Hi.
  - by eapply genuine_with_inner.
  - intros inner' j c' [= <-] Hj Hc'. by apply (Hch inner j c').
  - auto.
Qed.

(** The database, the caches. *)
Lemma store_blob C D K P F g p : synced_at C D K P F g -> (length p <= 64)%nat ->
  synced_at C (<[sum p := blob p]> D) K P F g /\ grown_at C D g C (<[sum p := blob p]> D) g.
Proof.
  intros [Hcell Hdb Hk Hp Hfb Hfl Hst] Hl.
  assert (Hgr : grown_at C D g C (<[sum p := blob p]> D) g).
  { split; [done|eauto using hooked_refl|]. intros q Hq. unfold has. destruct (decide (sum p = sum q)) as [E|E].
    - rewrite <- E, lookup_insert_eq. intros _. f_equal. by apply (node_sum_pre ty m xs Hxs).
    - by rewrite lookup_insert_ne. }
  split; [|done]. split; try done.
  - by apply table_insert.
  - intros Hs Hb q Hq Hin. eapply db_full_grown; [exact Hgr|]. by apply Hfb.
  - intros Hs l q n inner Hq Hn Hi Hf. eapply full_grown; [exact Hgr|]. by apply (Hfl Hs l q n inner).
  - intros Hs Hb l q Hq Hv. apply (gw_db _ _ _ _ _ _ Hgr); [by apply (Hcell l q)|]. by apply (Hst Hs Hb l q).
Qed.

Lemma change_caches C D K P F g K' P' F' :
  synced_at C D K P F g -> table_ok K' -> (forall h d, P' !! h = Some d -> xs d) ->
  (strict -> backed = true -> forall p, (length p <= 64)%nat -> sum p ∈ F' -> db_full D p) -> synced_at C D K' P' F' g.
Proof. by intros []; split. Qed.


(** ** Descending *)

Lemma with_store_id w : with_store (fun _ => store w) w = w.
Proof. by destruct w. Qed.

Lemma wpe_on_store {A} (c : M A) w (Q : A -> Net -> Prop) :
  wp c (store w) (fun a s => Q a (with_store (fun _ => s) w)) -> wpe (on_store c) w Q.
Proof. unfold wp, wpe, on_store. by destruct (c (store w)) as [[a|e] s]. Qed.

Lemma cached_blob K p d : table_ok K -> (length p <= 64)%nat -> K !! sum p = Some d -> d = blob p.
Proof. intros HK Hp. by apply HK. Qed.

Lemma cache_insert_table K p : (length p <= 64)%nat -> table_ok K -> table_ok (cache_insert (sum p) (blob p) K).
Proof. intros Hp HK. unfold cache_insert. case_match; [done|]. by apply table_insert. Qed.

Lemma cache_insert_pack P h d : xs d -> (forall h' d', P !! h' = Some d' -> xs d') ->
  forall h' d', cache_insert h d P !! h' = Some d' -> xs d'.
Proof.
  intros Hd HP h' d'. unfold cache_insert. case_match; [by apply HP|].
  intros [[<- <-]|[_ H']]%lookup_insert_Some; [done|by eapply HP].
Qed.

Lemma haveNode_ok f id w g p :
  synced w g -> (length p <= 64)%nat ->
  wpe (haveNode f id (sum p)) w (fun o w' => synced w' g /\ store w' = store w /\ forall d, o = Some d -> d = blob p).
Proof.
  intros Hsy Hp. pose proof Hsy as [_ _ Hk Hpack Hfb _ _].
  assert (Hpk : wpe (getFetchPack_entry (sum p)) w
    (fun o w' => synced w' g /\ store w' = store w /\ forall d, o = Some d -> d = blob p)).
  { unfold getFetchPack_entry. apply wpe_bind, wpe_reads. destruct (fetchPack w !! sum p) as [d|] eqn:E.
    - apply wpe_bind, wpe_modifies.
      assert (Hsy' : synced (with_fetchPack (delete (sum p)) w) g).
      { eapply change_caches; [exact Hsy|done| |done]. intros h d' Hd. cbn [with_fetchPack fetchPack] in Hd.
        apply lookup_delete_Some in Hd as [_ Hd]. by apply (Hpack h). }
      case_bool_decide as Es; cbn [negb]; apply wpe_ret; (split_and!; [done|done|]); [|done].
      intros d' [= <-]. by apply known_blob; [|apply (Hpack (sum p))|].
    - apply wpe_ret. by split_and!. }
  destruct f; try exact Hpk. unfold haveNode. apply wpe_bind, wpe_reads.
  destruct (nodeCache w !! sum p) as [d|] eqn:E.
  - apply wpe_ret. split_and!; [done|done|]. intros d' [= <-]. by apply (cached_blob (nodeCache w)).
  - apply wpe_ret. split_and!; [done|done|]. intros d'. destruct (known_transaction (sum p)) as [b|] eqn:Ek; [|done].
    intros [= <-]. destruct (Hknown _ _ Ek). by apply known_blob.
Qed.

Lemma gotNode_ok f from id type w g p :
  filter = Some f -> synced w g -> (length p <= 64)%nat ->
  wpe (gotNode f from id (sum p) (blob p) type) w (fun _ w' => synced w' g /\ grown w g w' g /\
    cells (store w') = cells (store w) /\ (strict -> backed = true -> has (db (store w')) p)).
Proof.
  intros Hf Hsy Hp.
  assert (Hstore : wpe (on_store (db_store (sum p) (blob p))) w (fun _ w' => synced w' g /\ grown w g w' g /\
    cells (store w') = cells (store w) /\ (strict -> backed = true -> has (db (store w')) p))).
  { destruct (store_blob _ _ _ _ _ _ p Hsy Hp) as [Hs Hg]. apply wpe_on_store. unfold wp, db_store.
    split_and!; [exact Hs|exact Hg|done|]. intros _ _. cbn [with_store store db]. unfold has. by rewrite lookup_insert_eq. }
  destruct f; try exact Hstore. cbn [gotNode].
  assert (Hno : strict -> backed = true -> False) by (intros H1 H2; destruct (H1 H2); congruence).
  destruct from; [apply wpe_ret; split_and!; [done|apply grown_refl|done|by intros; exfalso; auto]|].
  apply wpe_bind, wpe_modifies.
  assert (Hsy' : synced (with_nodeCache (cache_insert (sum p) (blob p)) w) g).
  { eapply change_caches; [exact Hsy| |apply Hsy|apply Hsy]. apply cache_insert_table; [done|apply Hsy]. }
  case_match; [apply wpe_modifies|apply wpe_ret]; (split_and!; [exact Hsy'|apply grown_refl_at|done|by intros; exfalso; auto]).
Qed.

(** A new cell for the node of a position, told to the filter. *)
Definition fetched w g p (o : option loc) w' : Prop :=
  exists g', synced w' g' /\ grown w g w' g' /\ cells (store w) `prefix_of` cells (store w') /\
    forall c, o = Some c -> g' !! c = Some p.

Lemma fetched_none w g p w' : synced w' g -> store w' = store w -> fetched w g p None w'.
Proof.
  intros Hsy E. exists g. split_and!; [done| |by rewrite E|done]. unfold grown. rewrite E. apply grown_refl_at.
Qed.

Lemma checkFilter_ok f id w g p :
  filter = Some f -> synced w g -> (length p <= 64)%nat -> wpe (checkFilter (sum p) id f) w (fetched w g p).
Proof.
  intros Hf Hsy Hp. unfold checkFilter. apply wpe_bind. eapply wpe_mono; [by apply (haveNode_ok f id w g p)|].
  intros o w1 (Hsy1 & Ew1 & Ho). destruct o as [d|]; [|apply wpe_ret; by apply fetched_none].
  rewrite (Ho d eq_refl). destruct (stored_genuine ty m Hty Hm Hz p Hp) as (n & Hn & Hgen & Hun).
  apply wpe_bind. eapply wpe_pure; [exact Hn|]. apply wpe_bind, wpe_on_store. unfold wp, make_shared.
  set (w2 := with_store _ w1). assert (Hsy2 : synced w2 g /\ grown w1 g w2 g) by (by apply append_cell).
  destruct Hsy2 as [Hsy2 Hg2]. apply wpe_bind. eapply wpe_mono; [by apply (gotNode_ok f true id (mType n) w2 g p)|].
  intros _ w3 (Hsy3 & Hg3 & Ec & Hhas). apply wpe_ret.
  assert (Hc : cells (store w3) !! length (cells (store w1)) = Some n).
  { rewrite Ec. cbn [w2 with_store store cells]. by rewrite lookup_app_r, Nat.sub_diag. }
  assert (Hfresh : g !! length (cells (store w1)) = None).
  { apply eq_None_not_Some. intros [q Hq]. apply (ghost_bound _ _ _ _ _ _ _ _ Hsy1) in Hq. lia. }
  destruct (adopt_cell _ _ _ _ _ _ _ n p Hsy3 Hc Hfresh Hgen Hun Hp) as [Hsy4 Hg4]; [auto|].
  exists (<[length (cells (store w1)) := p]> g). split_and!; [exact Hsy4| |..].
  - eapply grown_trans; [|exact Hg4]. eapply grown_trans; [|exact Hg3]. unfold grown in *. by rewrite <- Ew1.
  - rewrite Ec, <- Ew1. cbn [w2 with_store store cells]. by apply prefix_app_r.
  - intros c [= <-]. apply lookup_insert_eq.
Qed.

Lemma fetchNodeNT_ok t w g p :
  mBacked t = backed -> synced w g -> (length p <= 64)%nat ->
  wp (fetchNodeNT t (sum p)) (store w) (fun o s => fetched w g p o (with_store (fun _ => s) w)).
Proof.
  intros Hb Hsy Hp. unfold fetchNodeNT, wp, fetchNodeFromDB, db_node. rewrite Hb.
  assert (Hnone : fetched w g p None (with_store (fun _ => store w) w)) by (apply fetched_none; by destruct w).
  destruct backed eqn:Eb; [|exact Hnone]. destruct (db (store w) !! sum p) as [d|] eqn:E; [|exact Hnone].
  pose proof (sy_db _ _ _ _ _ _ Hsy p d Hp E) as ->.
  destruct (stored_genuine ty m Hty Hm Hz p Hp) as (n & Hn & Hgen & Hun). rewrite Hn. cbn.
  destruct (append_cell _ _ _ _ _ _ n Hsy) as [Hsy1 Hg1].
  assert (Hfresh : g !! length (cells (store w)) = None).
  { apply eq_None_not_Some. intros [q Hq]. apply (ghost_bound _ _ _ _ _ _ _ _ Hsy) in Hq. lia. }
  destruct (adopt_cell _ _ _ _ _ _ (length (cells (store w))) n p Hsy1) as [Hsy2 Hg2]; try done.
  { by rewrite lookup_app_r, Nat.sub_diag. }
  exists (<[length (cells (store w)) := p]> g). split_and!; [exact Hsy2| |by apply prefix_app_r|].
  - eapply grown_trans_at; [exact Hg1|exact Hg2].
  - intros c [= <-]. apply lookup_insert_eq.
Qed.

Lemma fetchNodeNT_filter_ok t id w g p :
  mBacked t = backed -> synced w g -> (length p <= 64)%nat ->
  wpe (fetchNodeNT_filter t id (sum p) filter) w (fetched w g p).
Proof.
  intros Hb Hsy Hp. unfold fetchNodeNT_filter. apply wpe_bind.
  assert (Hfirst : wpe (if mBacked t then on_store (fetchNodeNT t (sum p)) else mret None) w
    (fun o w' => fetched w g p o w' /\ (o = None -> w' = w))).
  { destruct (mBacked t) eqn:E; [|apply wpe_ret; split; [|done]; by apply fetched_none]. apply wpe_on_store.
    pose proof (fetchNodeNT_ok t w g p ltac:(congruence) Hsy Hp) as H. unfold wp in *.
    destruct (fetchNodeNT t (sum p) (store w)) as [[o|e] s] eqn:Er; [|done]. split; [done|]. intros ->.
    unfold fetchNodeNT in Er. rewrite E in Er. destruct (fetchNodeFromDB _ _ _); [done|]. injection Er as <-. by destruct w. }
  eapply wpe_mono; [exact Hfirst|]. intros o w1 [Ho Ew]. destruct o as [c|]; [by apply wpe_ret|].
  rewrite (Ew eq_refl) in *. destruct filter as [f|] eqn:Ef; [by apply checkFilter_ok|by apply wpe_ret].
Qed.


Lemma position_child id d i : id_at id d -> (d < 64)%nat ->
  exists id', getChildNodeID id i = Some id' /\ id_at id' (S d).
Proof.
  intros [Hd Hl] Hlt. unfold getChildNodeID, depth_byte. rewrite Hd, (proj2 (Z.ltb_ge _ _)), half_nat by lia.
  destruct (lookup_lt_is_Some_2 (mNodeID id) (d / 2)) as [b ->]; [rewrite Hl; by apply half_lt|].
  cbn [mbind option_bind]. eexists. split; [done|]. split; [cbn; lia|]. cbn [mNodeID]. by rewrite length_insert.
Qed.

(** The cell at a position, when it is an inner node. *)
Record inner_cell (w : Net) (g : ghost) (l : loc) (p : path) (n : SHAMapTreeNode) (inner : InnerData) : Prop := {
  ic_ghost : g !! l = Some p;
  ic_cell : cells (store w) !! l = Some n;
  ic_type : isInner n = true;
  ic_inner : mInner n = Some inner;
  ic_genuine : genuine ty m n p;
  ic_depth : (length p <= 64)%nat;
  ic_hash : forall i, 0 <= i < 16 -> (length p < 64)%nat -> mHashes inner !!! Z.to_nat i = sum (p ++ [i]);
  ic_branch : forall i, is_branch inner i = true -> ~ void p /\ (length p < 64)%nat;
  ic_empty : forall i, 0 <= i < 16 -> is_branch inner i = false -> void (p ++ [i]) }.

Lemma is_branch_void (inner : InnerData) i : mIsBranch inner = 0 -> is_branch inner i = false.
Proof. intros E. unfold is_branch. by rewrite E. Qed.

Lemma cell_cases w g l p : synced w g -> g !! l = Some p ->
  exists n, cells (store w) !! l = Some n /\ genuine ty m n p /\
    ((isInner n = false /\ isLeaf n = true /\ p <> [] /\
      exists k v, below p m = {[k := v]} /\ mItem n = Some {| mTag := k; mData := v |}) \/
     exists inner, inner_cell w g l p n inner).
Proof.
  intros Hsy Hl. destruct (sy_cell _ _ _ _ _ _ Hsy l p Hl) as [Hp (n & Hn & Hgen & _)]. exists n. split_and!; [done|done|].
  pose proof Hgen as [k v Hp0 Hk Ht Hi _|inner Ht Hi Ho Hh Hlen Hb Hv _].
  - left. unfold isInner, isLeaf. rewrite Ht. split_and!; [by destruct Hty as [-> |[-> | ->]]..|done|by exists k, v].
  - right. exists inner. split; try done.
    + unfold isInner. by rewrite Ht.
    + intros i Hr Hlt. by rewrite Hh, node_sum_child.
    + intros i Hbit. assert (Hnv : ~ void p).
      { intros Hvp. rewrite is_branch_void in Hbit by auto. done. }
      split; [done|]. by apply (inner_depth ty m Hm).
    + intros i Hr Hbit. destruct (decide (void p)) as [|Hnv]; [by apply void_app|].
      pose proof (inner_depth ty m Hm p Hp Hnv Ho) as Hlt. apply (node_sum_zero ty m xs Hxs); [rewrite length_app; cbn; lia|].
      rewrite <- node_sum_child, <- Hh by done. destruct (isZero _) eqn:E; [done|]. by rewrite (Hb i Hr E) in Hbit.
Qed.

Lemma ic_deep w g l p n (inner : InnerData) : inner_cell w g l p n inner -> ~ void p -> (length p < 64)%nat.
Proof.
  intros [_ _ Hin _ Hgen Hp _ _ _] Hv. unfold isInner in Hin. apply bool_decide_eq_true in Hin.
  destruct Hgen as [k v _ _ Ht|inner0 _ _ Ho].
  - rewrite Hin in Ht. rewrite <- Ht in Hty. by destruct Hty as [|[|]].
  - by apply (inner_depth ty m Hm).
Qed.

(** The child below branch [i] that a descent gave, hooked to its parent. *)
Definition below_at (w' : Net) (g' : ghost) (l : loc) (i : Z) (p : path) (c : loc) : Prop :=
  g' !! c = Some (p ++ [i]) /\
  exists n inner, cells (store w') !! l = Some n /\ mInner n = Some inner /\ mChildren inner !!! Z.to_nat i = Some c.

Lemma descend_filter_ok t w g l p n (inner : InnerData) id i :
  mBacked t = backed -> synced w g -> inner_cell w g l p n inner -> 0 <= i < 16 -> is_branch inner i = true ->
  id_at id (length p) ->
  wpe (descend_filter t l id i filter) w (fun r w' => exists g', synced w' g' /\ grown w g w' g' /\
    id_at r.2 (S (length p)) /\ (forall c, r.1 = Some c -> below_at w' g' l i p c) /\
    (r.1 = None -> mChildren inner !!! Z.to_nat i = None /\ cells (store w') !! l = Some n)).
Proof.
  intros Hb Hsy Hic Hr Hbit Hid. destruct (ic_branch _ _ _ _ _ _ Hic i Hbit) as [Hnv Hlt].
  pose proof Hic as [Hg Hn Hin Hi Hgen _ Hh _ _].
  destruct (position_child id (length p) i Hid Hlt) as (id' & Eid & Hid'). unfold descend_filter.
  apply wpe_bind, wpe_on_store, (wp_option _ _ id'); [done|]. apply wpe_bind, wpe_on_store. eapply wp_deref; [exact Hn|].
  apply wpe_bind. eapply wpe_pure; [unfold getChild, inner_of; rewrite Hi; reflexivity|].
  apply wpe_bind. eapply wpe_pure; [unfold getChildHash, inner_of; rewrite Hi; reflexivity|].
  destruct (mChildren inner !!! Z.to_nat i) as [c|] eqn:Ec.
  - apply wpe_ret. exists g. split_and!; [exact Hsy|apply grown_refl_at|done| |done].
    intros c' [= <-]. split; [|by exists n, inner].
    destruct (ce_node _ _ _ _ (sy_cell _ _ _ _ _ _ Hsy l p Hg)) as (n0 & Hn0 & _ & Hch).
    rewrite Hn in Hn0. injection Hn0 as <-. by apply (Hch inner).
  - rewrite Hh by done. set (w0 := with_store _ _).
    assert (Hsy0 : synced w0 g) by exact Hsy.
    apply wpe_bind. eapply wpe_mono; [apply (fetchNodeNT_filter_ok t id' w0 g (p ++ [i])); [done|done|rewrite length_app; cbn; lia]|].
    intros o w1 (g1 & Hsy1 & Hg1 & Hpre & Ho).
    assert (Hn1 : cells (store w1) !! l = Some n) by (by eapply prefix_lookup_Some).
    destruct o as [c|]; [|apply wpe_ret; exists g1; by split_and!].
    assert (Hgl : g1 !! l = Some p) by (eapply lookup_weaken; [exact Hg|apply Hg1]).
    destruct (hook_cell _ _ _ _ _ _ l p n inner i c Hsy1 Hgl Hn1 Hin Hi Ec Hr (Ho c eq_refl)) as [Hsy2 Hg2].
    apply wpe_bind, wpe_on_store. unfold hook. apply wp_bind. eapply wp_deref; [exact Hn1|]. apply wp_bind.
    eapply wp_lift; [unfold canonicalizeChild, inner_of; rewrite Hi; cbn; rewrite Ec; reflexivity|].
    apply wp_bind. unfold wp at 1, assign. apply wp_ret, wpe_ret. exists g1. split_and!; [exact Hsy2|eapply grown_trans; [exact Hg1|exact Hg2]|done| |done].
    intros c' [= <-]. split; [by apply Ho|]. eexists _, _. cbn [with_store store cells].
    rewrite list_lookup_insert_eq by (by eapply lookup_lt_Some). split_and!; [done|done|]. cbn [set_pointer mChildren].
    apply list_lookup_total_insert_eq. destruct (genuine_inner_type n p inner Hgen Hin Hi). lia.
Qed.


(** ** Looking for missing nodes *)

(** Branch [i] of the node at [l] is complete. *)
Definition child_full (w : Net) (l : loc) (p : path) (i : Z) : Prop :=
  void (p ++ [i]) \/
  if backed then db_full (db (store w)) (p ++ [i])
  else exists n inner c, cells (store w) !! l = Some n /\ mInner n = Some inner /\
         mChildren inner !!! Z.to_nat i = Some c /\ mem_full (cells (store w)) c (p ++ [i]).

Lemma child_full_grown w g w' g' l p i : grown w g w' g' -> child_full w l p i -> child_full w' l p i.
Proof.
  intros Hgr [Hv|H]; [by left|right]. destruct backed; [by eapply db_full_grown|].
  destruct H as (n & inner & c & Hn & Hi & Hc & Hf). destruct (gw_cells _ _ _ _ _ _ Hgr l n Hn) as (n' & Hn' & (_ & _ & _ & _ & Hin)).
  rewrite Hi in Hin. destruct (mInner n') as [inner'|] eqn:Hi'; [|done]. destruct Hin as (_ & _ & _ & Hch).
  exists n', inner', c. split_and!; [done|done|by apply Hch|by eapply mem_full_grown].
Qed.

Lemma child_full_intro w g l i p c :
  below_at w g l i p c -> full (cells (store w)) (db (store w)) c (p ++ [i]) -> child_full w l p i.
Proof.
  unfold full. intros [_ (n & inner & Hn & Hi & Hc)] Hf. right. destruct backed; [done|]. by exists n, inner, c.
Qed.

Lemma full_of_children w g l p n (inner : InnerData) :
  synced w g -> inner_cell w g l p n inner -> strict -> (forall i, 0 <= i < 16 -> child_full w l p i) ->
  full (cells (store w)) (db (store w)) l p.
Proof.
  intros Hsy Hic Hs Hc. pose proof (sy_stored _ _ _ _ _ _ Hsy Hs) as Hst. unfold full, child_full in *. destruct backed.
  - apply db_full_children.
    + destruct (decide (void p)); [by right|left]. apply (Hst eq_refl l p); [apply Hic|done].
    + intros i Hr Hv. by destruct (Hc i Hr).
  - apply (mf_inner _ _ _ n inner); [apply Hic|apply Hic| |].
    + intros i Hr Hv. destruct (Hc i Hr) as [|(n' & inner' & c & Hn' & Hi' & Hc' & _)]; [done|].
      rewrite (ic_cell _ _ _ _ _ _ Hic) in Hn'. injection Hn' as <-. rewrite (ic_inner _ _ _ _ _ _ Hic) in Hi'.
      injection Hi' as <-. eauto.
    + intros i c Hr Hv Hcc. destruct (Hc i Hr) as [|(n' & inner' & c' & Hn' & Hi' & Hc' & Hf)]; [done|].
      rewrite (ic_cell _ _ _ _ _ _ Hic) in Hn'. injection Hn' as <-. rewrite (ic_inner _ _ _ _ _ _ Hic) in Hi'.
      injection Hi' as <-. congruence.
Qed.

Lemma leaf_full w g l p n :
  synced w g -> g !! l = Some p -> cells (store w) !! l = Some n -> isInner n = false -> strict ->
  full (cells (store w)) (db (store w)) l p.
Proof.
  intros Hsy Hg Hn Hin Hs. destruct (cell_cases w g l p Hsy Hg) as (n' & Hn' & _ & Hcase).
  rewrite Hn in Hn'. injection Hn' as <-. destruct Hcase as [(_ & _ & Hp & k & v & Hk & _)|(inner & Hic)].
  2: { rewrite (ic_type _ _ _ _ _ _ Hic) in Hin. done. }
  pose proof (sy_stored _ _ _ _ _ _ Hsy Hs) as Hst. unfold full. destruct backed; [|by eapply mf_leaf].
  apply (db_full_leaf _ p k v); [done|apply (sy_cell _ _ _ _ _ _ Hsy l p Hg)|done|]. apply (Hst eq_refl l p Hg).
  rewrite Hk. apply map_non_empty_singleton.
Qed.

Lemma inner_cell_grown w g w' g' l p n (inner : InnerData) :
  inner_cell w g l p n inner -> synced w' g' -> grown w g w' g' -> exists n' inner', inner_cell w' g' l p n' inner'.
Proof.
  intros Hic Hsy Hgr. assert (Hg : g' !! l = Some p) by (eapply lookup_weaken; [apply Hic|apply Hgr]).
  destruct (cell_cases w' g' l p Hsy Hg) as (n' & Hn' & _ & Hcase).
  destruct (gw_cells _ _ _ _ _ _ Hgr l n (ic_cell _ _ _ _ _ _ Hic)) as (n2 & Hn2 & (_ & _ & _ & Et & _)).
  rewrite Hn' in Hn2. injection Hn2 as <-. destruct Hcase as [(Hin & _)|(inner' & Hic')]; [|eauto].
  pose proof (ic_type _ _ _ _ _ _ Hic) as Hin'. unfold isInner in *. by rewrite Et, Hin' in Hin.
Qed.

Lemma below_at_grown w g w' g' l i p c : grown w g w' g' -> below_at w g l i p c -> below_at w' g' l i p c.
Proof.
  intros Hgr [Hg (n & inner & Hn & Hi & Hc)]. split; [eapply lookup_weaken; [exact Hg|apply Hgr]|].
  destruct (gw_cells _ _ _ _ _ _ Hgr l n Hn) as (n' & Hn' & (_ & _ & _ & _ & Hin)). rewrite Hi in Hin.
  destruct (mInner n') as [inner'|] eqn:E; [|done]. destruct Hin as (_ & _ & _ & Hch). exists n', inner'. auto.
Qed.

(** A hash was missed only if a position was reported. *)
Definition hunted (h : Hunt) : Prop := missingHashes h <> ∅ -> nodeIDs h <> [].

Definition finds (h h' : Hunt) (r : option bool) : Prop :=
  hunted h' /\ (nodeIDs h <> [] -> nodeIDs h' <> []) /\ (r <> Some true -> nodeIDs h' <> []).

Lemma finds_refl h : hunted h -> finds h h (Some true).
Proof. intros Hh. split_and!; [done|done|by intros []]. Qed.

Definition hunt_post (w : Net) (g : ghost) (h : Hunt) (P : Net -> Prop) (r : Hunt * option bool) (w' : Net) : Prop :=
  exists g', synced w' g' /\ grown w g w' g' /\ finds h r.1 r.2 /\ (r.2 = Some true -> strict -> P w').

Definition hunts (go : loc -> SHAMapNodeID -> Hunt -> N (Hunt * option bool)) (d : nat) : Prop :=
  forall w g l p n inner id h, synced w g -> inner_cell w g l p n inner -> length p = d -> id_at id d -> hunted h ->
    wpe (go l id h) w (hunt_post w g h (fun w' => full (cells (store w')) (db (store w')) l p)).

Lemma hunt_child_ok go t w g l p n (inner : InnerData) id i h :
  hunts go (S (length p)) -> mBacked t = backed -> synced w g -> inner_cell w g l p n inner -> 0 <= i < 16 ->
  is_branch inner i = true -> id_at id (length p) -> hunted h ->
  wpe (hunt_child go t filter l id i (sum (p ++ [i])) h) w (hunt_post w g h (fun w' => child_full w' l p i)).
Proof.
  intros Hgo Hb Hsy Hic Hr Hbit Hid Hh. destruct (ic_branch _ _ _ _ _ _ Hic i Hbit) as [Hnv Hlt].
  destruct (position_child id (length p) i Hid Hlt) as (id' & Eid & Hid'). unfold hunt_child.
  apply wpe_bind, wpe_on_store, (wp_option _ _ id'); [done|]. set (w0 := with_store _ w).
  assert (Hsy0 : synced w0 g) by exact Hsy. assert (Hic0 : inner_cell w0 g l p n inner) by (by destruct Hic).
  apply wpe_bind. eapply wpe_mono; [by apply (descend_filter_ok t w0 g l p n inner id i)|].
  intros [d id2] w1 (g1 & Hsy1 & Hg1 & Hid2 & Hd & _). cbn [fst snd] in *. destruct d as [c|].
  - pose proof (Hd c eq_refl) as Hat. pose proof (proj1 Hat) as Hgc. destruct (cell_cases w1 g1 c (p ++ [i]) Hsy1 Hgc) as (nc & Hnc & _ & Hcase).
    apply wpe_bind, wpe_on_store. eapply wp_deref; [exact Hnc|]. set (w2 := with_store _ w1).
    assert (Hret : (strict -> full (cells (store w1)) (db (store w1)) c (p ++ [i])) ->
      wpe (mret (h, Some true)) w2 (hunt_post w g h (fun w' => child_full w' l p i))).
    { intros Hf. apply wpe_ret. exists g1. split_and!; [exact Hsy1|exact Hg1|by apply finds_refl|].
      intros _ Hs. apply (child_full_intro w2 g1 l i p c); [done|by apply Hf]. }
    destruct Hcase as [(Hin & _)|(innerc & Hicc)].
    + rewrite Hin. apply Hret. intros Hs. by apply (leaf_full w1 g1 c (p ++ [i]) nc).
    + rewrite (ic_type _ _ _ _ _ _ Hicc). apply wpe_bind.
      eapply wpe_pure; [unfold isFullBelow, inner_of; rewrite (ic_inner _ _ _ _ _ _ Hicc); reflexivity|].
      destruct (mFullBelow innerc) eqn:Ef.
      * apply Hret. intros Hs. by apply (sy_flag _ _ _ _ _ _ Hsy1 Hs c (p ++ [i]) nc innerc); [..|apply Hicc|].
      * assert (Hicc2 : inner_cell w2 g1 c (p ++ [i]) nc innerc) by (by destruct Hicc).
        eapply wpe_mono; [apply (Hgo w2 g1 c (p ++ [i]) nc innerc); [exact Hsy1|done|rewrite length_app; cbn; lia|done|done]|].
        intros [h' r] w3 (g3 & Hsy3 & Hg3 & Hf & Hfull). exists g3. split_and!; [done|by eapply grown_trans|done|].
        cbn [fst snd] in *. intros -> Hs. apply (child_full_intro w3 g3 l i p c); [|by apply Hfull].
        by apply (below_at_grown w2 g1).
  - case_bool_decide as Emiss.
    + apply wpe_ret. exists g1. split_and!; [done|done| |done]. cbn [fst snd]. split_and!; [done|done|].
      intros _. apply Hh. set_solver.
    + apply wpe_ret. exists g1. cbn [fst snd report budget]. assert (Hids : nodeIDs h ++ [id'] <> []) by (by destruct (nodeIDs h)).
      split_and!; [done|done|by split; [intros _|split; intros _]|]. destruct (_ <=? 0); cbn; intros [=].
Qed.


Lemma touch_ok t w g l p i :
  mBacked t = backed -> synced w g -> (length (p ++ [i]) <= 64)%nat ->
  wpe (if mBacked t then touch_if_exists (sum (p ++ [i])) else mret false) w
    (fun b w' => w' = w /\ (b = true -> strict -> child_full w l p i)).
Proof.
  intros -> Hsy Hl. unfold child_full. pose proof (fun Hs => sy_known _ _ _ _ _ _ Hsy Hs) as Hkn. destruct backed.
  - apply wpe_reads. split; [done|]. intros Hin%bool_decide_eq_true Hs. right. by apply Hkn.
  - apply wpe_ret. by split.
Qed.

Lemma hunt_children_ok go t l p id f cs : forall w g n inner fb h,
  hunts go (S (length p)) -> mBacked t = backed -> synced w g -> inner_cell w g l p n inner -> id_at id (length p) ->
  0 <= f -> Forall (fun c => 0 <= c) cs -> hunted h -> (fb = false -> nodeIDs h <> []) ->
  wpe (hunt_children go t filter l id f cs fb h) w
    (hunt_post w g h (fun w' => fb = true /\ forall c, c ∈ cs -> child_full w' l p (Z.rem (f + c) 16))).
Proof.
  induction cs as [|c cs IH]; intros w g n inner fb h Hgo Hb Hsy Hic Hid Hf Hcs Hh Hfb; cbn [hunt_children].
  { apply wpe_ret. exists g. split_and!; [done|apply grown_refl| |intros [= ->] _; split; [done|intros c Hc; set_solver]].
    split_and!; [done|done|]. cbn [fst snd]. destruct fb; [done|]. auto. }
  apply Forall_cons in Hcs as [Hc Hcs]. set (i := Z.rem (f + c) 16).
  assert (Hr : 0 <= i < 16) by (unfold i; rewrite Z.rem_mod_nonneg by lia; apply Z.mod_pos_bound; lia).
  apply wpe_bind, wpe_on_store. eapply wp_deref; [apply Hic|]. set (w0 := with_store _ w).
  assert (Hsy0 : synced w0 g) by exact Hsy. assert (Hic0 : inner_cell w0 g l p n inner) by (by destruct Hic).
  assert (Hskip : forall w1 g1 fb1 h1, synced w1 g1 -> grown w0 g w1 g1 -> finds h h1 (Some fb1) ->
    (fb1 = true -> strict -> child_full w1 l p i) ->
    wpe (hunt_children go t filter l id f cs (fb && fb1) h1) w1
      (hunt_post w g h (fun w' => fb = true /\ forall c', c' ∈ c :: cs -> child_full w' l p (Z.rem (f + c') 16)))).
  { intros w1 g1 fb1 h1 Hsy1 Hg1 (Hf1 & Hf2 & Hf3) Hcf.
    destruct (inner_cell_grown w0 g w1 g1 l p n inner Hic0 Hsy1 Hg1) as (n1 & inner1 & Hic1).
    eapply wpe_mono.
    { apply (IH w1 g1 n1 inner1); try done. intros E. destruct fb; [|by apply Hf2, Hfb]. apply Hf3. by destruct fb1. }
    intros [h2 r] w2 (g2 & Hsy2 & Hg2 & (Hk1 & Hk2 & Hk3) & Hall). cbn [fst snd] in *.
    exists g2. split_and!; [done|by eapply grown_trans|split_and!; auto|]. intros Er Hs. cbn in Er.
    destruct (Hall Er Hs) as [[-> ->]%andb_true_iff Hcs']. split; [done|]. intros c' [->|Hc']%elem_of_cons; [|by apply Hcs'].
    eapply child_full_grown; [exact Hg2|]. by apply Hcf. }
  assert (Hnext : (strict -> child_full w0 l p i) -> wpe (hunt_children go t filter l id f cs fb h) w0
    (hunt_post w g h (fun w' => fb = true /\ forall c', c' ∈ c :: cs -> child_full w' l p (Z.rem (f + c') 16)))).
  { intros Hcf. pose proof (Hskip w0 g true h Hsy0 (grown_refl w0 g) (finds_refl h Hh) (fun _ => Hcf)) as H.
    by rewrite andb_true_r in H. }
  apply wpe_bind. eapply wpe_pure; [unfold isEmptyBranch, inner_of; rewrite (ic_inner _ _ _ _ _ _ Hic); reflexivity|].
  destruct (is_branch inner i) eqn:Ebit; cbn [negb]; [|apply Hnext; left; by apply (ic_empty _ _ _ _ _ _ Hic)].
  apply wpe_bind. eapply wpe_pure; [unfold getChildHash, inner_of; rewrite (ic_inner _ _ _ _ _ _ Hic); reflexivity|].
  destruct (ic_branch _ _ _ _ _ _ Hic i Ebit) as [Hnv Hlt]. rewrite (ic_hash _ _ _ _ _ _ Hic i Hr Hlt).
  assert (Hl' : (length (p ++ [i]) <= 64)%nat) by (rewrite length_app; cbn; lia).
  apply wpe_bind. eapply wpe_mono; [by apply (touch_ok t w0 g l p i)|]. intros known w1 [-> Hkn]. destruct known; [by apply Hnext; auto|].
  apply wpe_bind. eapply wpe_mono; [by apply (hunt_child_ok go t w0 g l p n inner id i h)|].
  intros [h1 r] w1 (g1 & Hsy1 & Hg1 & Hf1 & Hcf). cbn [fst snd] in *. destruct r as [fb1|].
  - apply (Hskip w1 g1 fb1 h1); try done. intros ->. auto.
  - apply wpe_ret. exists g1. by split_and!.
Qed.


Lemma all_branches f i : 0 <= f -> 0 <= i < 16 -> exists c, c ∈ branches /\ Z.rem (f + c) 16 = i.
Proof.
  intros Hf Hi. exists ((i - f) mod 16). pose proof (Z.mod_pos_bound (i - f) 16 ltac:(lia)). split; [by apply in_branches|].
  rewrite Z.rem_mod_nonneg by lia. rewrite Zplus_mod_idemp_r. replace (f + (i - f)) with i by lia. by apply Z.mod_small.
Qed.

(** The node is marked, and its hash entered in the cache. *)
Lemma mark_ok t w g l p n (inner : InnerData) (Q : Net -> Prop) :
  mBacked t = backed -> synced w g -> inner_cell w g l p n inner -> (strict -> full (cells (store w)) (db (store w)) l p) ->
  (forall w', synced w' g -> grown w g w' g -> Q w') ->
  wpe (_ ← on_store (setFullBelow l);
       if mBacked t then n ← on_store (deref l); fullBelow_insert (mHash n) else mret tt) w (fun _ w' => Q w').
Proof.
  intros Hb Hsy Hic Hfull HQ. pose proof Hic as [Hg Hn Hin Hi Hgen Hp _ _ _].
  destruct (mark_cell _ _ _ _ _ _ l p n inner Hsy Hg Hn Hin Hi Hfull) as [Hsy1 Hg1].
  apply wpe_bind, wpe_on_store. unfold setFullBelow. apply wp_bind. eapply wp_deref; [exact Hn|]. apply wp_bind.
  eapply wp_lift; [unfold inner_of; rewrite Hi; reflexivity|]. unfold wp, assign. set (w1 := with_store _ w).
  assert (Hs1 : synced w1 g) by exact Hsy1. assert (Hgr1 : grown w g w1 g) by exact Hg1.
  rewrite Hb. destruct backed eqn:Eb; [|by apply wpe_ret, HQ].
  assert (Hn1 : cells (store w1) !! l = Some (with_inner n (mark_full inner))).
  { cbn. by rewrite list_lookup_insert_eq by (by eapply lookup_lt_Some). }
  apply wpe_bind, wpe_on_store. eapply wp_deref; [exact Hn1|]. apply wpe_modifies. apply HQ; [|exact Hgr1].
  eapply change_caches; [exact Hs1|apply Hsy|apply Hsy|]. cbn [with_inner mHash]. rewrite (genuine_hash ty m n p Hgen).
  intros Hs _ q Hq. cbn [with_fullBelow fullBelowCache]. rewrite elem_of_union, elem_of_singleton. intros [E|Hin'].
  - apply (db_full_sum _ q p); [done|done|done|]. eapply db_full_grown; [exact Hgr1|]. specialize (Hfull Hs).
    unfold full in Hfull. by rewrite Eb in Hfull.
  - by apply (sy_known _ _ _ _ _ _ Hs1 Hs).
Qed.

Lemma hunt_node_ok t fuel : forall d, mBacked t = backed -> (65 < d + fuel)%nat -> hunts (hunt_node fuel t filter) d.
Proof.
  induction fuel as [|fuel IH]; intros d Hb Hf w g l p n inner id h Hsy Hic Hp Hid Hh.
  { pose proof (ic_depth _ _ _ _ _ _ Hic). lia. }
  cbn [hunt_node].
  apply wpe_bind. unfold next_rand. apply wpe_bind, wpe_reads, wpe_bind, wpe_modifies, wpe_ret.
  set (w0 := with_draws S w). assert (Hsy0 : synced w0 g) by exact Hsy.
  assert (Hic0 : inner_cell w0 g l p n inner) by (by destruct Hic). pose proof (Hrand (draws w)) as Hr0.
  assert (Hf0 : 0 <= Z.rem (rand (draws w)) 256) by (apply Z.rem_nonneg; lia).
  apply wpe_bind. eapply wpe_mono.
  { apply (hunt_children_ok _ t l p id _ branches w0 g n inner true h); try done; [|congruence|by_decide].
    apply IH; [done|lia]. }
  intros [h1 r] w1 (g1 & Hsy1 & Hg1 & Hfi & Hall). cbn [fst snd] in *.
  destruct r as [[]|]; [|apply wpe_ret; by exists g1; split_and!..].
  destruct (inner_cell_grown w0 g w1 g1 l p n inner Hic0 Hsy1 Hg1) as (n1 & inner1 & Hic1).
  assert (Hfull : strict -> full (cells (store w1)) (db (store w1)) l p).
  { intros Hs. destruct (Hall eq_refl Hs) as [_ Hc]. apply (full_of_children w1 g1 l p n1 inner1); try done.
    intros i Hi. destruct (all_branches (Z.rem (rand (draws w)) 256) i Hf0 Hi) as (c & Hc' & <-). by apply Hc. }
  pose proof (mark_ok t w1 g1 l p n1 inner1 (fun w2 => synced w2 g1 /\ grown w1 g1 w2 g1) Hb Hsy1 Hic1 Hfull
    (fun w2 H1 H2 => conj H1 H2)) as Hmark.
  apply wpe_assoc, wpe_bind. eapply wpe_mono; [exact Hmark|]. intros _ w3 [Hsy3 Hg3]. apply wpe_ret. exists g1. split_and!; [done|by eapply grown_trans|done|]. intros _ Hs. eapply full_grown; [exact Hg3|by apply Hfull].
Qed.

(** What a call of [getMissingNodes] finds. *)
Lemma getMissingNodes_ok t w g max :
  mBacked t = backed -> synced w g -> g !! root t = Some [] ->
  wpe (getMissingNodes t [] [] max filter) w (fun '(t', ids, _) w' => exists g', synced w' g' /\ grown w g w' g' /\
    (t' = t \/ t' = clearSynching t) /\ (ids = [] -> t' = clearSynching t) /\
    (ids = [] -> strict -> full (cells (store w')) (db (store w')) (root t) [])).
Proof.
  intros Hb Hsy Hroot. unfold getMissingNodes.
  destruct (cell_cases w g (root t) [] Hsy Hroot) as (n & Hn & _ & [(_ & _ & ? & _)|(inner & Hic)]); [done|].
  apply wpe_bind, wpe_on_store. eapply wp_deref; [exact Hn|]. set (w0 := with_store _ w).
  assert (Hsy0 : synced w0 g) by exact Hsy. assert (Hic0 : inner_cell w0 g (root t) [] n inner) by (by destruct Hic).
  apply wpe_bind. eapply wpe_pure; [unfold isFullBelow, inner_of; rewrite (ic_inner _ _ _ _ _ _ Hic); reflexivity|].
  destruct (mFullBelow inner) eqn:Ef.
  { apply wpe_ret. exists g. split_and!; [done|apply grown_refl_at|auto|done|]. intros _ Hs.
    by apply (sy_flag _ _ _ _ _ _ Hsy0 Hs (root t) [] n inner); [..|apply Hic|]. }
  rewrite (ic_type _ _ _ _ _ _ Hic). cbn [negb]. apply wpe_bind. eapply wpe_mono.
  { apply (hunt_node_ok t depth_fuel 0 Hb ltac:(unfold depth_fuel; lia) w0 g (root t) [] n inner); try done.
    intros Hx. by destruct Hx. }
  intros [h r] w1 (g1 & Hsy1 & Hg1 & (_ & _ & Hfi) & Hfull). cbn [fst snd] in *. destruct r as [b|].
  - apply wpe_ret. exists g1. split_and!; [done|exact Hg1|by destruct (nodeIDs h); auto|by intros ->|].
    intros E Hs. apply Hfull; [|done]. destruct b; [done|]. by destruct Hfi.
  - apply wpe_ret. exists g1. split_and!; [done|exact Hg1|auto|intros E; by destruct Hfi|intros E; by destruct Hfi].
Qed.


(** ** Receiving nodes *)

Lemma tell_filter_ok id w g n p :
  synced w g -> genuine ty m n p -> (length p <= 64)%nat ->
  wpe (tell_filter filter id (sum p) n) w (fun _ w' => synced w' g /\ grown w g w' g /\
    cells (store w') = cells (store w) /\ (strict -> backed = true -> has (db (store w')) p)).
Proof.
  intros Hsy Hgen Hp. unfold tell_filter. destruct filter as [f|] eqn:Ef.
  - apply wpe_bind. eapply wpe_pure; [exact (genuine_blob ty m Hty n p Hgen)|]. by apply gotNode_ok.
  - apply wpe_ret. split_and!; [done|apply grown_refl|done|]. intros Hs Hb. destruct (Hs Hb); congruence.
Qed.

(** Telling the filter does not depend on the cells. *)
Definition set_cells (C : list SHAMapTreeNode) (w : Net) : Net :=
  with_store (fun s => {| cells := C; db := db s |}) w.

Lemma tell_filter_frame id h n w C (Q : unit -> Net -> Prop) :
  wpe (tell_filter filter id h n) w (fun _ w' => Q tt (set_cells C w')) ->
  wpe (tell_filter filter id h n) (set_cells C w) Q.
Proof.
  unfold tell_filter. destruct filter as [f|]; [|done].
  unfold wpe, mbind, N_bind, Eff_bind, pure_result. destruct (addRaw_node n snfPREFIX []) as [raw|]; [|done].
  destruct f; cbn [gotNode]; try done. unfold modifies. cbn -[with_nodeCache with_submitted].
  unfold mbind, N_bind, Eff_bind. by destruct (_ && _ && _).
Qed.

(** What a message may contain: any bytes that do not forge a node. *)
Definition message_ok (raw : Blob) : Prop :=
  Forall is_u8 raw /\ forall n x, raw_node raw 0 snfWIRE zero256 false = Ok n -> blob_of n = Ok x -> xs x.

Lemma fresh_blob n : fresh_node n -> exists x, blob_of n = Ok x.
Proof.
  unfold fresh_node. destruct (decide (mType n = tnINNER)) as [E|E].
  - rewrite E. intros (inner & Hi & _). eexists. by apply (blob_inner n inner).
  - intros Hf. assert (Hl : leafy (mType n)) by (unfold leafy; destruct (mType n); tauto).
    assert (Hi : exists item, mItem n = Some item) by (destruct (mType n); try done; destruct Hf as (item & ? & _); eauto).
    destruct Hi as [item Hi]. eexists. by apply (blob_leaf n item).
Qed.

Lemma message_genuine raw n p :
  message_ok raw -> raw_node raw 0 snfWIRE zero256 false = Ok n -> (length p <= 64)%nat -> mHash n = sum p ->
  genuine ty m n p /\ unhooked n.
Proof.
  intros [Hu Hxs'] Hraw Hp Hs. destruct (fresh_blob n) as [x Hx]; [by apply (received_hash raw n)|].
  apply (received_genuine ty m Hty Hm xs Hxs raw n x p); try done. by apply (Hxs' n).
Qed.

Definition carries_on (w : Net) (g : ghost) (w' : Net) : Prop := exists g', synced w' g' /\ grown w g w' g'.

Definition same_map (t t' : SHAMap) : Prop := root t' = root t /\ mBacked t' = mBacked t.

(** The object keeps its root. *)
Definition kept (t : SHAMap) (w : Net) (g : ghost) (r : SHAMapAddNode * SHAMap) (w' : Net) : Prop :=
  same_map t r.2 /\ carries_on w g w'.

Lemma carries_refl w g : synced w g -> carries_on w g w.
Proof. intros. exists g. split; [done|apply grown_refl]. Qed.

Lemma fresh_cell w g : synced w g -> g !! length (cells (store w)) = None.
Proof. intros Hsy. apply eq_None_not_Some. intros [q Hq]. apply (ghost_bound _ _ _ _ _ _ _ _ Hsy) in Hq. lia. Qed.

(** Hooking the new node, as one change of the cells. *)
Lemma hook_run w l n (inner : InnerData) i c :
  cells (store w) !! l = Some n -> mInner n = Some inner -> mChildren inner !!! Z.to_nat i = None ->
  on_store (hook l i c) w =
    (Ok c, set_cells (<[l := with_inner n (set_pointer inner i c)]> (cells (store w))) w).
Proof.
  intros Hn Hi Hc. unfold on_store, hook, mbind, M_bind, deref. rewrite Hn. unfold lift, canonicalizeChild, inner_of.
  rewrite Hi. cbn [mbind result_bind mret result_ret]. by rewrite Hc.
Qed.

Lemma add_new_node_ok t node raw w g l p n (inner : InnerData) i id :
  message_ok raw -> synced w g -> inner_cell w g l p n inner -> 0 <= i < 16 -> is_branch inner i = true ->
  mChildren inner !!! Z.to_nat i = None ->
  wpx (add_new_node t node raw filter l i (sum (p ++ [i])) id) w (kept t w g) (carries_on w g).
Proof.
  intros Hmsg Hsy Hic Hr Hbit Hnone. destruct (ic_branch _ _ _ _ _ _ Hic i Hbit) as [_ Hlt].
  assert (Hl : (length (p ++ [i]) <= 64)%nat) by (rewrite length_app; cbn; lia).
  unfold add_new_node. unfold wpx, mbind at 1, N_bind, Eff_bind, pure_result.
  destruct (raw_node raw 0 snfWIRE zero256 false) as [new|] eqn:Enew; [|by apply carries_refl].
  destruct (isInBounds new id); cbn [negb]; [|by split; [|apply carries_refl]].
  case_bool_decide as Eh; cbn [negb]; [|by split; [|apply carries_refl]].
  destruct (message_genuine raw new (p ++ [i]) Hmsg Enew Hl (eq_sym Eh)) as [Hgen Hun].
  apply wpx_wpe, wpe_bind, wpe_on_store. unfold wp, make_shared. set (c := length (cells (store w))).
  pose proof Hic as [Hg Hn Hin Hi _ _ _ _ _].
  destruct (append_cell _ _ _ _ _ _ new Hsy) as [Hsya Hga]. set (wa := with_store _ w).
  assert (Hsa : synced wa g) by exact Hsya. assert (Hgra : grown w g wa g) by exact Hga.
  assert (Hna : cells (store wa) !! l = Some n) by (by apply lookup_app_l_Some).
  assert (Hca : cells (store wa) !! c = Some new) by (cbn; by rewrite lookup_app_r, Nat.sub_diag).
  assert (Hcl : c <> l) by (intros E; apply lookup_lt_Some in Hn; subst c; lia).
  apply wpe_bind. unfold wpe at 1. rewrite (hook_run wa l n inner i c Hna Hi Hnone).
  set (C' := <[l := _]> _). apply wpe_bind, wpe_on_store. eapply wp_deref.
  { cbn [set_cells with_store store cells]. unfold C'. rewrite list_lookup_insert_ne by done. exact Hca. }
  change (with_store (fun _ => store (set_cells C' wa)) (set_cells C' wa)) with (set_cells C' wa).
  apply wpe_bind, tell_filter_frame. eapply wpe_mono; [by apply (tell_filter_ok node wa g new (p ++ [i]))|].
  intros _ wb (Hsb & Hgrb & Ecb & Hhas). apply wpe_ret. split; [done|].
  destruct (adopt_cell _ _ _ _ _ _ c new (p ++ [i]) Hsb) as [Hsc Hgrc]; [by rewrite Ecb|by apply fresh_cell|done|done|done|auto|].
  assert (Hgl : (<[c := p ++ [i]]> g) !! l = Some p) by (by rewrite lookup_insert_ne).
  destruct (hook_cell _ _ _ _ _ _ l p n inner i c Hsc Hgl) as [Hsd Hgrd]; try done; [by rewrite Ecb|apply lookup_insert_eq|].
  exists (<[c := p ++ [i]]> g). rewrite Ecb in Hsd, Hgrd. split; [exact Hsd|].
  eapply grown_trans; [exact Hgra|]. eapply grown_trans_at; [exact Hgrb|]. eapply grown_trans_at; [exact Hgrc|].
  rewrite Ecb. exact Hgrd.
Qed.


Lemma carries_trans w g w1 g1 w2 : grown w g w1 g1 -> carries_on w1 g1 w2 -> carries_on w g w2.
Proof. intros Hg (g2 & Hs & Hg2). exists g2. split; [done|by eapply grown_trans]. Qed.

Lemma kept_trans t w g w1 g1 r w2 : grown w g w1 g1 -> kept t w1 g1 r w2 -> kept t w g r w2.
Proof. intros Hg [? ?]. split; [done|by eapply carries_trans]. Qed.

Lemma wpx_weaken {A} (c : N A) w (Q Q' : A -> Net -> Prop) (E E' : Net -> Prop) :
  wpx c w Q E -> (forall a w', Q a w' -> Q' a w') -> (forall w', E w' -> E' w') -> wpx c w Q' E'.
Proof. unfold wpx. destruct (c w) as [[a|e] s']; auto. Qed.

Lemma addKnown_loop_ok t node raw fuel : mBacked t = backed -> message_ok raw -> is_uint256 (mNodeID node) ->
  forall w g l p id, synced w g -> g !! l = Some p -> id_at id (length p) ->
  wpx (addKnown_loop fuel t node raw filter l id) w (kept t w g) (carries_on w g).
Proof.
  intros Hb Hmsg Hnode. induction fuel as [|fuel IH]; intros w g l p id Hsy Hg Hid; [by apply carries_refl|].
  cbn [addKnown_loop]. destruct (cell_cases w g l p Hsy Hg) as (n & Hn & _ & Hcase).
  assert (Hdup : forall r, wpx (mret (r, t)) w (kept t w g) (carries_on w g)) by (by split; [|apply carries_refl]).
  apply wpx_bind, wpx_wpe, wpe_on_store. eapply wp_deref; [exact Hn|].
  rewrite with_store_id.
  destruct Hcase as [(Hin & _)|(inner & Hic)].
  { rewrite Hin. apply wpx_bind, wpx_wpe, wpe_ret. cbn [negb andb]. apply Hdup. }
  rewrite (ic_type _ _ _ _ _ _ Hic). apply wpx_bind, wpx_wpe.
  eapply wpe_pure; [unfold isFullBelow, inner_of; rewrite (ic_inner _ _ _ _ _ _ Hic); reflexivity|].
  destruct (_ && _); [|apply Hdup]. apply wpx_bind.
  destruct (selectBranch id (mNodeID node)) as [i|] eqn:Ei.
  2: { unfold wpx, on_store. cbn. rewrite with_store_id. by apply carries_refl. }
  pose proof (selectBranch_range id _ i Hnode Ei) as Hr. apply wpx_wpe, wpe_on_store, (wp_option _ _ i); [done|].
  rewrite with_store_id.
  apply wpx_bind, wpx_wpe. eapply wpe_pure; [unfold isEmptyBranch, inner_of; rewrite (ic_inner _ _ _ _ _ _ Hic); reflexivity|].
  destruct (is_branch inner i) eqn:Ebit; cbn [negb]; [|apply Hdup]. destruct (ic_branch _ _ _ _ _ _ Hic i Ebit) as [_ Hlt].
  apply wpx_bind, wpx_wpe. eapply wpe_pure; [unfold getChildHash, inner_of; rewrite (ic_inner _ _ _ _ _ _ Hic); reflexivity|].
  rewrite (ic_hash _ _ _ _ _ _ Hic i Hr Hlt). apply wpx_bind, wpx_wpe, wpe_reads. case_bool_decide; [apply Hdup|].
  apply wpx_bind, wpx_wpe. eapply wpe_mono; [by apply (descend_filter_ok t w g l p n inner id i)|].
  intros [d id1] w1 (g1 & Hsy1 & Hg1 & Hid1 & Hd & Hno). cbn [fst snd] in *. destruct d as [c|].
  - eapply wpx_weaken; [apply (IH w1 g1 c (p ++ [i]))|by intros; eapply kept_trans|by intros; eapply carries_trans].
    + done.
    + by apply Hd.
    + by rewrite length_app, Nat.add_1_r.
  - destruct (id_eqb id1 node); cbn [negb]; [|split; [done|]; by exists g1].
    destruct (Hno eq_refl) as [Hnone Hn1].
    eapply wpx_weaken; [apply (add_new_node_ok t node raw w1 g1 l p n inner i id1)|by intros; eapply kept_trans|by intros; eapply carries_trans];
      try done. destruct Hic. split; try done. eapply lookup_weaken; [done|apply Hg1].
Qed.

Lemma addKnownNode_ok t node raw w g :
  mBacked t = backed -> message_ok raw -> is_uint256 (mNodeID node) -> synced w g -> g !! root t = Some [] ->
  wpx (addKnownNode t node raw filter) w (kept t w g) (carries_on w g).
Proof.
  intros Hb Hmsg Hnode Hsy Hroot. unfold addKnownNode. destruct (negb (isSynching t)).
  - by split; [|apply carries_refl].
  - by apply (addKnown_loop_ok t node raw depth_fuel Hb Hmsg Hnode w g (root t) [] root_id).
Qed.

(** A root is there: nothing happens. *)
Lemma addRootNode_again t h raw format w g :
  synced w g -> g !! root t = Some [] -> addRootNode t h raw format filter w = (Ok (duplicate, t), w).
Proof.
  intros Hsy Hroot. destruct (cell_cases w g (root t) [] Hsy Hroot) as (n & Hn & Hgen & _).
  unfold addRootNode, mbind, N_bind, Eff_bind, on_store, deref. rewrite Hn, (genuine_hash ty m n [] Hgen).
  assert (Hnz : isZero (sum []) = false).
  { apply not_true_is_false. rewrite (node_sum_zero ty m xs Hxs) by (cbn; lia). by rewrite below_nil. }
  rewrite Hnz. cbn. by destruct w.
Qed.

(** The first root. *)
Lemma addRootNode_ok t h raw w (r : SHAMapAddNode) t' w' :
  message_ok raw -> synced w ∅ -> h = sum [] -> addRootNode t h raw snfWIRE filter w = (Ok (r, t'), w') -> r = useful ->
  mBacked t' = mBacked t /\ exists g, synced w' g /\ g !! root t' = Some [].
Proof.
  intros Hmsg Hsy -> Hrun Hnew.
  assert (H : wpx (addRootNode t (sum []) raw snfWIRE filter) w
    (fun r w' => r.1 <> useful \/ (mBacked r.2 = mBacked t /\ exists g, synced w' g /\ g !! root r.2 = Some [])) (fun _ => True)).
  { unfold addRootNode. apply wpx_bind. unfold wpx at 1, on_store, deref. destruct (cells (store w) !! root t) as [n0|]; [|done].
    rewrite with_store_id.
    destruct (negb _); [by left|]. apply wpx_bind. unfold wpx at 1, pure_result.
    destruct (raw_node raw 0 snfWIRE zero256 false) as [n|] eqn:En; [|done]. case_bool_decide as Eh; cbn [negb]; [|by left].
    destruct (message_genuine raw n [] Hmsg En ltac:(cbn; lia) Eh) as [Hgen Hun].
    apply wpx_wpe. unfold adopt_root. apply wpe_bind, wpe_on_store. unfold wp, make_shared.
    destruct (append_cell _ _ _ _ _ _ n Hsy) as [Hsya _]. set (wa := with_store _ w).
    assert (Hsa : synced wa ∅) by exact Hsya. rewrite Eh. apply wpe_bind.
    eapply wpe_mono; [by apply (tell_filter_ok root_id wa ∅ n []); [..|cbn; lia]|].
    intros _ wb (Hsb & _ & Ecb & Hhas). apply wpe_ret. right.
    destruct (adopt_cell _ _ _ _ _ _ (length (cells (store w))) n [] Hsb) as [Hsc _]; try done; [|cbn; lia|auto|].
    { rewrite Ecb. cbn. by rewrite lookup_app_r, Nat.sub_diag. }
    split; [by destruct (isLeaf n)|]. exists (<[length (cells (store w)) := []]> ∅). split; [exact Hsc|].
    destruct (isLeaf n); apply lookup_insert_eq. }
  unfold wpx in H. rewrite Hrun in H. cbn [snd] in H. destruct H as [|[? ?]]; [done|]. auto.
Qed.


(** ** Reading *)

(** A read of the map: whatever it returns satisfies [P], and it returns if [L]. *)
Definition answers_well {A} (c : M A) (w : Net) (g : ghost) (P : A -> Net -> ghost -> Prop) (L : Prop) : Prop :=
  exists r s g', c (store w) = (r, s) /\ synced (with_store (fun _ => s) w) g' /\
    grown w g (with_store (fun _ => s) w) g' /\
    (forall a, r = Ok a -> P a (with_store (fun _ => s) w) g') /\ (L -> exists a, r = Ok a).

Lemma bind_run {A B} (c : M A) (f : A -> M B) s r s' : c s = (r, s') ->
  @mbind M M_bind A B f c s = match r with Ok a => f a s' | Throw e => (Throw e, s') end.
Proof. unfold mbind, M_bind. by intros ->. Qed.

Lemma answers_bind {A B} (c : M A) (f : A -> M B) w g P (L : Prop) Q (L' : Prop) :
  answers_well c w g P L -> (L' -> L) ->
  (forall a w' g', synced w' g' -> grown w g w' g' -> P a w' g' -> answers_well (f a) w' g' Q L') ->
  answers_well (@mbind M M_bind A B f c) w g Q L'.
Proof.
  intros (r & s & g1 & Hc & Hs & Hg & HP & HL) HLL Hf. unfold answers_well. rewrite (bind_run c f _ r s Hc). destruct r as [a|e].
  - destruct (Hf a _ g1 Hs Hg (HP a eq_refl)) as (r2 & s2 & g2 & Hc2 & Hs2 & Hg2 & HQ & HL2).
    cbn [store with_store] in Hc2. exists r2, s2, g2. split_and!; [done|exact Hs2|by eapply grown_trans|done|done].
  - exists (Throw e), s, g1. split_and!; [done|done|done|done|]. intros HL'. by destruct (HL (HLL HL')).
Qed.

Lemma answers_result {A} (r : result A) w g (P : A -> Net -> ghost -> Prop) (L : Prop) :
  synced w g -> (forall a, r = Ok a -> P a w g) -> (L -> exists a, r = Ok a) ->
  answers_well (fun s => (r, s)) w g P L.
Proof.
  intros Hs HP HL. exists r, (store w), g. rewrite with_store_id. split_and!; [done|done|apply grown_refl|done|done].
Qed.

Lemma answers_step {A B} (c : M A) (f : A -> M B) a w g Q L :
  c (store w) = (Ok a, store w) -> answers_well (f a) w g Q L -> answers_well (@mbind M M_bind A B f c) w g Q L.
Proof. intros Hc. unfold answers_well. by rewrite (bind_run c f _ _ _ Hc). Qed.

(** The child can be reached. *)
Definition reachable (w : Net) (inner : InnerData) (p : path) (i : Z) : Prop :=
  is_Some (mChildren inner !!! Z.to_nat i) \/ (backed = true /\ has (db (store w)) (p ++ [i])).

Lemma fetch_has t w p s : mBacked t = true -> (length p <= 64)%nat -> has (db (store w)) p ->
  fetchNodeNT t (sum p) (store w) <> (Ok None, s).
Proof.
  intros Hb Hp Hh. destruct (stored_genuine ty m Hty Hm Hz p Hp) as (n & Hn & _).
  unfold fetchNodeNT, fetchNodeFromDB, db_node. rewrite Hb, Hh, Hn. by intros [=].
Qed.

Lemma descend_sync t w g l p n (inner : InnerData) i :
  mBacked t = backed -> synced w g -> inner_cell w g l p n inner -> 0 <= i < 16 -> is_branch inner i = true ->
  exists o s g', descend t l i (store w) = (Ok o, s) /\ synced (with_store (fun _ => s) w) g' /\
    grown w g (with_store (fun _ => s) w) g' /\
    match o with
    | Some c => below_at (with_store (fun _ => s) w) g' l i p c
    | None => cells s !! l = Some n /\ ~ reachable w inner p i
    end.
Proof.
  intros Hb Hsy Hic Hr Hbit. pose proof Hic as [Hg Hn Hin Hi Hgen _ Hh Hbr _]. destruct (Hbr i Hbit) as [_ Hlt].
  assert (Hl : (length (p ++ [i]) <= 64)%nat) by (rewrite length_app; cbn; lia).
  assert (Hrun : descend t l i (store w) =
    match mChildren inner !!! Z.to_nat i with
    | Some c => (Ok (Some c), store w)
    | None =>
        if negb (mBacked t) then (Ok None, store w)
        else match fetchNodeNT t (sum (p ++ [i])) (store w) with
             | (Ok (Some c), s) => (c ← hook l i c; mret (Some c)) s
             | (Ok None, s) => (Ok None, s)
             | (Throw e, s) => (Throw e, s)
             end
    end).
  { unfold descend, mbind, M_bind, deref. rewrite Hn. unfold lift, getChild, getChildHash, inner_of. rewrite Hi.
    cbn [mbind result_bind mret result_ret]. rewrite Hh by done. destruct (mChildren inner !!! Z.to_nat i); [done|].
    destruct (mBacked t); cbn [negb]; [|done]. by destruct (fetchNodeNT t _ _) as [[[]|] ?]. }
  rewrite Hrun. destruct (mChildren inner !!! Z.to_nat i) as [c|] eqn:Ec.
  - exists (Some c), (store w), g. rewrite with_store_id. split_and!; [done|done|apply grown_refl|].
    split; [|by exists n, inner]. destruct (ce_node _ _ _ _ (sy_cell _ _ _ _ _ _ Hsy l p Hg)) as (n0 & Hn0 & _ & Hch).
    rewrite Hn in Hn0. injection Hn0 as <-. by apply (Hch inner).
  - destruct (mBacked t) eqn:Eb; cbn [negb].
    2: { exists None, (store w), g. rewrite with_store_id. split_and!; [done|done|apply grown_refl|done|].
         unfold reachable. rewrite Ec. intros [[? [=]]|[? _]]. congruence. }
    pose proof (fetchNodeNT_ok t w g (p ++ [i]) ltac:(congruence) Hsy Hl) as Hf. unfold wp in Hf.
    destruct (fetchNodeNT t (sum (p ++ [i])) (store w)) as [[o|e] s] eqn:Ef; [|done].
    destruct Hf as (g1 & Hsy1 & Hg1 & Hpre & Ho). assert (Hn1 : cells s !! l = Some n) by (by eapply prefix_lookup_Some).
    destruct o as [c|].
    2: { exists None, s, g1. split_and!; [done|done|done|done|]. unfold reachable. rewrite Ec.
         intros [[? [=]]|[_ Hhas]]. by apply (fetch_has t w (p ++ [i]) s Eb Hl Hhas). }
    assert (Hgl : g1 !! l = Some p) by (eapply lookup_weaken; [exact Hg|apply Hg1]).
    destruct (hook_cell _ _ _ _ _ _ l p n inner i c Hsy1 Hgl Hn1 Hin Hi Ec Hr (Ho c eq_refl)) as [Hsy2 Hg2].
    pose proof (hook_run (with_store (fun _ => s) w) l n inner i c Hn1 Hi Ec) as Hhook. unfold on_store in Hhook.
    cbn [store with_store] in Hhook. destruct (hook l i c s) as [[c0|e] s2] eqn:Eh; [|done]. injection Hhook as -> Es.
    subst s2.
    exists (Some c), {| cells := <[l := with_inner n (set_pointer inner i c)]> (cells s); db := db s |}, g1.
    rewrite (bind_run _ _ _ _ _ Eh). split_and!; [done|exact Hsy2|by eapply grown_trans|].
    split; [by apply Ho|]. eexists _, _. cbn [with_store store cells].
    rewrite list_lookup_insert_eq by (by eapply lookup_lt_Some). split_and!; [done|done|]. cbn [set_pointer mChildren].
    apply list_lookup_total_insert_eq. destruct (genuine_inner_type n p inner Hgen Hin Hi). lia.
Qed.

Lemma descendThrow_sync t w g l p n (inner : InnerData) i :
  mBacked t = backed -> synced w g -> inner_cell w g l p n inner -> 0 <= i < 16 -> is_branch inner i = true ->
  answers_well (descendThrow t l i) w g (fun c w' g' => below_at w' g' l i p c) (reachable w inner p i).
Proof.
  intros Hb Hsy Hic Hr Hbit. destruct (descend_sync t w g l p n inner i Hb Hsy Hic Hr Hbit) as (o & s & g1 & Hd & Hsy1 & Hg1 & Ho).
  unfold answers_well, descendThrow. rewrite (bind_run _ _ _ _ _ Hd). destruct o as [c|]; cbn [or_missing].
  - exists (Ok c), s, g1. split_and!; [done|done|done|by intros a [= <-]|by exists c].
  - destruct Ho as [Hn Hno]. eexists (Throw _), s, g1. unfold mbind, M_bind, deref, lift. rewrite Hn.
    unfold isEmptyBranch, getChildHash, inner_of. rewrite (ic_inner _ _ _ _ _ _ Hic). cbn [mbind result_bind mret result_ret].
    rewrite Hbit. cbn [negb]. split_and!; [done|done|done|done|done].
Qed.

(** The answer of a lookup. *)
Definition leaf_found (k : uint256) (o : option loc) (w : Net) (g : ghost) : Prop :=
  match o with
  | None => m !! k = None
  | Some l => exists n v, cells (store w) !! l = Some n /\ m !! k = Some v /\ mItem n = Some {| mTag := k; mData := v |}
  end.

(** On the way to a key of a complete map every child can be reached. *)
Lemma full_reachable w g l p n (inner : InnerData) i :
  inner_cell w g l p n inner -> full (cells (store w)) (db (store w)) l p -> 0 <= i < 16 -> ~ void (p ++ [i]) ->
  (length p < 64)%nat -> reachable w inner p i.
Proof.
  unfold full, reachable. intros Hic Hf Hr Hv Hl. destruct backed.
  - right. split; [done|]. apply Hf; [by apply prefix_app_r|rewrite length_app; cbn; lia|done].
  - left. destruct Hf as [l p Hvp|l p n' Hn' Hin|l p n' inner' Hn' Hi' Hs _].
    + by destruct Hv; apply void_app.
    + rewrite (ic_cell _ _ _ _ _ _ Hic) in Hn'. injection Hn' as <-. by rewrite (ic_type _ _ _ _ _ _ Hic) in Hin.
    + rewrite (ic_cell _ _ _ _ _ _ Hic) in Hn'. injection Hn' as <-. rewrite (ic_inner _ _ _ _ _ _ Hic) in Hi'.
      injection Hi' as <-. by apply Hs.
Qed.

Lemma full_below w g w' g' l p n (inner : InnerData) i c :
  inner_cell w g l p n inner -> full (cells (store w)) (db (store w)) l p -> 0 <= i < 16 -> ~ void (p ++ [i]) ->
  grown w g w' g' -> below_at w' g' l i p c -> full (cells (store w')) (db (store w')) c (p ++ [i]).
Proof.
  intros Hic Hf Hr Hv Hgr [_ (n2 & inner2 & Hn2 & Hi2 & Hc2)]. unfold full in *. destruct backed.
  - eapply db_full_grown; [exact Hgr|]. intros q Hq. apply Hf. by trans (p ++ [i]); [apply prefix_app_r|].
  - pose proof (mem_full_grown _ _ _ _ _ _ _ _ Hgr Hf) as Hf'.
    destruct (gw_cells _ _ _ _ _ _ Hgr l n (ic_cell _ _ _ _ _ _ Hic)) as (n3 & Hn3 & (_ & _ & _ & Et & _)).
    rewrite Hn2 in Hn3. injection Hn3 as <-. pose proof (ic_type _ _ _ _ _ _ Hic) as Hin.
    destruct Hf' as [l p Hvp|l p n' Hn' Hin'|l p n' inner' Hn' Hi' Hs Hc].
    + by destruct Hv; apply void_app.
    + rewrite Hn2 in Hn'. injection Hn' as <-. unfold isInner in *. by rewrite Et, Hin in Hin'.
    + rewrite Hn2 in Hn'. injection Hn' as <-. rewrite Hi2 in Hi'. injection Hi' as <-. by apply Hc.
Qed.

Lemma walk_end k d n w g p k' v (L : Prop) :
  synced w g -> (d <= 64)%nat -> p = take d (nibbles k) -> cells (store w) !! n = Some v ->
  below p m = {[mTag k' := mData k']} -> mItem v = Some k' ->
  answers_well (fun s => (Ok (if bool_decide (mTag k' = k) then Some n else None), s)) w g (leaf_found k) L.
Proof.
  intros Hsy Hd -> Hn Ek Hi. apply answers_result; [done| |by eauto]. intros o [= <-].
  pose proof (below_own m k d Hd) as Hown. rewrite Ek in Hown. case_bool_decide as E; cbn [leaf_found].
  - exists v, (mData k'). rewrite <- Hown, <- E, lookup_singleton_eq. split_and!; [done|done|]. rewrite Hi. by destruct k'.
  - by rewrite <- Hown, lookup_singleton_ne.
Qed.

Lemma key_nonvoid k d : (d <= 64)%nat -> is_Some (m !! k) -> ~ void (take d (nibbles k)).
Proof. intros Hd [v Hv] E. pose proof (below_own m k d Hd) as Hown. by rewrite E, lookup_empty, Hv in Hown. Qed.

Lemma selectBranch_end id k : id_at id 64 -> is_uint256 k -> selectBranch id k = None.
Proof.
  intros [Hd _] [Hl _]. assert (E32 : k !! 32%nat = None) by (apply lookup_ge_None_2; lia).
  unfold selectBranch, depth_byte. rewrite Hd. change (Z.to_nat (Z.of_nat 64 / 2)) with 32%nat. by rewrite E32.
Qed.

Lemma walk_sync t k fuel : is_uint256 k -> mBacked t = backed -> forall w g l d id,
  synced w g -> g !! l = Some (take d (nibbles k)) -> id_at id d -> (d <= 64)%nat -> (65 <= d + fuel)%nat ->
  answers_well (walkToPointer_loop t fuel k l id) w g (leaf_found k)
    (strict /\ full (cells (store w)) (db (store w)) l (take d (nibbles k)) /\ is_Some (m !! k)).
Proof.
  intros Hk Hb. induction fuel as [|fuel IH]; intros w g l d id Hsy Hg Hid Hd Hf; [lia|].
  cbn [walkToPointer_loop]. set (p := take d (nibbles k)) in *.
  assert (Hlp : length p = d) by (by apply length_pre).
  destruct (cell_cases w g l p Hsy Hg) as (n & Hn & _ & Hcase).
  apply (answers_step _ _ n); [unfold deref; by rewrite Hn|].
  destruct Hcase as [(Hin & _ & _ & k' & v & Ek & Hi)|(inner & Hic)].
  { rewrite Hin. apply (answers_step _ _ {| mTag := k'; mData := v |}); [unfold lift, item_of; by rewrite Hi|].
    by apply (walk_end k d l w g p {| mTag := k'; mData := v |} n). }
  rewrite (ic_type _ _ _ _ _ _ Hic). destruct (decide (d = 64%nat)) as [->|Hd64].
  { rewrite selectBranch_end by done. apply answers_result; [done|done|]. intros (_ & _ & Hs).
    pose proof (ic_deep _ _ _ _ _ _ Hic (key_nonvoid k 64 Hd Hs)). lia. }
  assert (Hd' : (d < 64)%nat) by lia. pose proof (nib_range k d Hk Hd') as Hr. set (i := nib k d) in *.
  assert (Ep : p ++ [i] = take (S d) (nibbles k)) by (symmetry; by apply take_nibbles_S).
  apply (answers_step _ _ i); [by rewrite (selectBranch_nib id k d) by (done || apply Hid)|].
  apply (answers_step _ _ (negb (is_branch inner i)));
    [unfold lift, isEmptyBranch, inner_of; by rewrite (ic_inner _ _ _ _ _ _ Hic)|].
  destruct (is_branch inner i) eqn:Ebit; cbn [negb].
  2: { apply answers_result; [done| |by eauto]. intros o [= <-]. cbn [leaf_found].
       pose proof (ic_empty _ _ _ _ _ _ Hic _ Hr Ebit) as Hv. rewrite Ep in Hv.
       by rewrite <- (below_own m k (S d)), Hv, lookup_empty by lia. }
  assert (Hnv : is_Some (m !! k) -> ~ void (p ++ [i])) by (rewrite Ep; apply key_nonvoid; lia).
  eapply answers_bind; [by apply (descendThrow_sync t w g l p n inner i)|..].
  { intros (Hs & Hfull & Hkey). apply (full_reachable w g l p n inner); auto. lia. }
  intros c w1 g1 Hsy1 Hg1 Hat. destruct (position_child id d i Hid Hd') as (id' & Eid & Hid').
  apply (answers_step _ _ id'); [by rewrite Eid|].
  destruct (IH w1 g1 c (S d) id' Hsy1) as (r & s & g2 & Hrun & Hsy2 & Hg2 & HP & HL);
    [rewrite <- Ep; apply Hat|done|lia|lia|].
  exists r, s, g2. split_and!; [done|done|done|done|]. intros (Hs & Hfull & Hkey). apply HL. split_and!; [done| |done].
  rewrite <- Ep. apply (full_below w g w1 g1 l p n inner); auto.
Qed.

(** A lookup in the map being built. *)
Lemma peekItem_sync t k w g :
  is_uint256 k -> mBacked t = backed -> synced w g -> g !! root t = Some [] ->
  answers_well (peekItem t k) w g (fun o _ _ => o = (fun v => {| mTag := k; mData := v |}) <$> m !! k)
    (strict /\ full (cells (store w)) (db (store w)) (root t) [] /\ is_Some (m !! k)).
Proof.
  intros Hk Hb Hsy Hroot. unfold peekItem. eapply answers_bind.
  { apply (walk_sync t k depth_fuel Hk Hb w g (root t) 0 root_id); [done|done|apply root_id_at|lia|unfold depth_fuel; lia]. }
  { done. }
  intros o w1 g1 Hsy1 Hg1 Ho. destruct o as [l|]; cbn [peek_at leaf_found] in *.
  - destruct Ho as (n & v & Hn & Hv & Hi). apply (answers_step _ _ n); [unfold deref; by rewrite Hn|].
    apply answers_result; [done| |by eauto]. intros a [= <-]. by rewrite Hi, Hv.
  - apply answers_result; [done| |by eauto]. intros a [= <-]. by rewrite Ho.
Qed.


(** ** Any sequence of operations *)

Definition sop_ok (o : sync_op) : Prop :=
  match o with
  | syRoot raw => message_ok raw
  | syNode id raw => is_uint256 (mNodeID id) /\ message_ok raw
  | syPack _ data => xs data
  | syPeek k => is_uint256 k
  | syMissing _ | syExpire _ => True
  end.

Definition going (t : SHAMap) (w : Net) : Prop :=
  mBacked t = backed /\ exists g, synced w g /\ g !! root t = Some [].

Lemma table_filter K f : table_ok K -> table_ok (keep f K).
Proof. intros HK p d Hp [H _]%map_lookup_filter_Some. by apply HK. Qed.

Lemma going_after t w g t' w' : mBacked t = backed -> g !! root t = Some [] -> same_map t t' -> carries_on w g w' -> going t' w'.
Proof.
  intros Hb Hr [E1 E2] (g' & Hs & Hg). split; [congruence|]. exists g'. split; [done|]. rewrite E1.
  eapply lookup_weaken; [exact Hr|apply Hg].
Qed.

Lemma step_ok o t w : sop_ok o -> going t w ->
  going (sync_step (sum []) filter o (t, w)).1 (sync_step (sum []) filter o (t, w)).2.
Proof.
  intros Ho [Hb (g & Hsy & Hr)]. destruct o as [raw|id raw|max|h data|k|f]; cbn [sync_step sop_ok] in *.
  - rewrite (addRootNode_again t _ raw snfWIRE w g Hsy Hr). split; [done|by exists g].
  - destruct Ho as [Hid Hmsg]. pose proof (addKnownNode_ok t id raw w g Hb Hmsg Hid Hsy Hr) as H. unfold wpx in H.
    destruct (addKnownNode t id raw filter w) as [[[r t']|e] w']; cbn [fst snd].
    + destruct H as [H1 H2]. by eapply going_after.
    + by eapply (going_after t w g t).
  - pose proof (getMissingNodes_ok t w g max Hb Hsy Hr) as H. unfold wpe in H.
    destruct (getMissingNodes t [] [] max filter w) as [[[[t' ids] hs]|e] w']; [|done].
    destruct H as (g' & Hs' & Hg' & Ht & _). cbn [fst snd].
    apply (going_after t w g t' w'); [done|done|by destruct Ht as [-> | ->]|by exists g'].
  - split; [done|]. exists g. split; [|done]. eapply change_caches; [exact Hsy|apply Hsy| |apply Hsy].
    apply cache_insert_pack; [done|apply Hsy].
  - destruct (peekItem_sync t k w g Ho Hb Hsy Hr) as (r & s & g' & Hrun & Hs & Hg & _).
    unfold on_store. rewrite Hrun. cbn [fst snd]. apply (going_after t w g t); [done|done|done|by exists g'].
  - split; [done|]. exists g. split; [|done]. eapply change_caches; [exact Hsy|by apply table_filter, Hsy| |].
    + intros h d [H _]%map_lookup_filter_Some. by eapply (sy_pack _ _ _ _ _ _ Hsy).
    + intros Hs Hbk p Hp Hin. apply (sy_known _ _ _ _ _ _ Hsy Hs Hbk p Hp). by apply elem_of_filter in Hin as [_ ?].
Qed.

Lemma run_sync_ok ops : forall t w, Forall sop_ok ops -> going t w ->
  going (sync_run (sum []) filter ops (t, w)).1 (sync_run (sum []) filter ops (t, w)).2.
Proof.
  induction ops as [|o ops IH]; intros t w Hops Hgo; [done|]. apply Forall_cons in Hops as [Ho Hops]. cbn [sync_run fold_left].
  pose proof (step_ok o t w Ho Hgo) as H. destruct (sync_step (sum []) filter o (t, w)) as [t1 w1]. by apply IH.
Qed.

(** What the server has at the start agrees with [m]. *)
Record consistent (w : Net) : Prop := {
  co_db : table_ok (db (store w));
  co_cache : table_ok (nodeCache w);
  co_pack : forall h d, fetchPack w !! h = Some d -> xs d;
  co_full : strict -> backed = true -> forall p, (length p <= 64)%nat -> sum p ∈ fullBelowCache w -> db_full (db (store w)) p }.

Lemma consistent_synced w : consistent w -> synced w ∅.
Proof. intros []. split; try done; intros; by rewrite lookup_empty in *. Qed.

End Sync.

(** ** The theorems *)

Section Theorems.
Context `{SHA : SHA512} `{SRV : Server}.

(** A map that can be acquired, and a server whose master transaction cache files
    transactions under their hashes. *)
Definition acquirable (ty : TNType) (m : kmap) : Prop := leafy ty /\ map_ok ty m /\ m !! zero256 = None /\ m <> ∅.

Definition server_ok (xs : Blob -> Prop) : Prop :=
  (forall h b, known_transaction h = Some b ->
     sha512half (add32' pfx_transactionID [] ++ b) = h /\ xs (add32' pfx_transactionID [] ++ b)) /\
  (forall k, 0 <= rand k).

Context (ty : TNType) (m : kmap) (xs : Blob -> Prop) (filter : option SHAMapSyncFilter).
Context (t0 t : SHAMap) (raw : Blob) (w0 w : Net) (ops : list sync_op).

(** The map starts with its root: the first message that has the right hash. *)
Definition acquiring : Prop :=
  acquirable ty m /\ unforgeable ty m xs /\ server_ok xs /\ consistent ty m xs (mBacked t0) filter w0 /\
  message_ok xs raw /\ Forall (sop_ok xs) ops /\
  addRootNode t0 (canon_hash ty 0 m) raw snfWIRE filter w0 = (Ok (useful, t), w).

Lemma acquiring_going : acquiring ->
  going ty m xs (mBacked t0) filter (sync_run (canon_hash ty 0 m) filter ops (t, w)).1
    (sync_run (canon_hash ty 0 m) filter ops (t, w)).2.
Proof.
  intros ((Hty & Hm & Hz & Hne) & Hxs & (Hknown & Hrand) & Hco & Hmsg & Hops & Hroot).
  assert (Es : node_sum ty m [] = canon_hash ty 0 m) by (unfold node_sum; by rewrite below_nil).
  rewrite <- Es in *. apply run_sync_ok; try done.
  destruct (addRootNode_ok ty m xs Hty Hm Hne Hxs (mBacked t0) filter t0 (node_sum ty m []) raw w0 useful t w) as [Hb Hg]; try done.
  by apply consistent_synced.
Qed.
End Theorems.

(** C33: a peer cannot make the server believe in a wrong map.  The server acquires
    the map with a known root hash; peers send any nodes for any positions and any
    entries for the fetch pack, in any order, mixed with the server's own calls
    and the expiry of cache entries.  Provided the blobs in play do not collide
    with those of the map, a lookup that returns gives what the map with that
    hash has under the key, also long before everything has arrived. *)
Theorem sync_authentic `{SHA : SHA512} `{SRV : Server} ty m xs filter t0 t raw w0 w ops k o w' :
  acquiring ty m xs filter t0 t raw w0 w ops -> is_uint256 k ->
  let x := sync_run (canon_hash ty 0 m) filter ops (t, w) in
  on_store (peekItem x.1 k) x.2 = (Ok o, w') -> o = (fun v => {| mTag := k; mData := v |}) <$> m !! k.
Proof.
  intros Hacq Hk x Hrun. destruct (acquiring_going ty m xs filter t0 t raw w0 w ops Hacq) as [Hb (g & Hsy & Hr)]. fold x in Hb, Hsy, Hr.
  destruct Hacq as ((Hty & Hm & Hz & Hne) & Hxs & _).
  destruct (peekItem_sync ty m xs Hty Hm Hz Hxs (mBacked t0) filter x.1 k x.2 g Hk Hb Hsy Hr)
    as (r & s & g' & Hp & _ & _ & HP & _).
  unfold on_store in Hrun. rewrite Hp in Hrun. injection Hrun as -> _. by apply HP.
Qed.

(** C34: when the server thinks it has everything, it has.  In every state that a
    sequence of operations reaches, [getMissingNodes] returns; if it reports
    nothing missing, the map leaves the synching state, and from then on every key
    of the map is found with its data, no lookup of it throws.  A backed map must
    have a filter that stores what it is told. *)
Theorem sync_complete `{SHA : SHA512} `{SRV : Server} ty m xs filter t0 t raw w0 w ops max :
  acquiring ty m xs filter t0 t raw w0 w ops -> strict (mBacked t0) filter ->
  let x := sync_run (canon_hash ty 0 m) filter ops (t, w) in
  exists t' ids hs w', getMissingNodes x.1 [] [] max filter x.2 = (Ok (t', ids, hs), w') /\
    (ids = [] -> mState t' = smsModifying /\
       forall k v, m !! k = Some v ->
         exists w'', on_store (peekItem t' k) w' = (Ok (Some {| mTag := k; mData := v |}), w'')).
Proof.
  intros Hacq Hs x. destruct (acquiring_going ty m xs filter t0 t raw w0 w ops Hacq) as [Hb (g & Hsy & Hr)]. fold x in Hb, Hsy, Hr.
  destruct Hacq as ((Hty & Hm & Hz & Hne) & Hxs & (Hknown & Hrand) & _).
  pose proof (getMissingNodes_ok ty m xs Hty Hm Hz Hne Hxs (mBacked t0) filter Hknown Hrand x.1 x.2 g max Hb Hsy Hr) as H.
  unfold wpe in H. destruct (getMissingNodes x.1 [] [] max filter x.2) as [[[[t' ids] hs]|e] w'] eqn:Erun; [|done].
  destruct H as (g' & Hsy' & Hg' & Ht & Hclear & Hfull). exists t', ids, hs, w'. split; [done|]. intros ->.
  rewrite (Hclear eq_refl) in *. split; [done|]. intros k v Hv.
  assert (Hr' : g' !! root (clearSynching x.1) = Some []) by (eapply lookup_weaken; [exact Hr|apply Hg']).
  destruct (peekItem_sync ty m xs Hty Hm Hz Hxs (mBacked t0) filter (clearSynching x.1) k w' g' (map_ok_keys ty m Hm k v Hv) Hb Hsy' Hr')
    as (r & s & g2 & Hp & _ & _ & HP & HL).
  destruct HL as [a ->]; [split_and!; [done|by apply Hfull|by rewrite Hv]|].
  rewrite (HP a eq_refl), Hv in Hp. eexists. unfold on_store. rewrite Hp. done.
Qed.


(** ** Concrete runs *)

Section Check.
Context `{SHA : SHA512}.

(** The blob a message stands for. *)
Definition message_blob (raw : Blob) : option Blob :=
  match raw_node raw 0 snfWIRE zero256 false with
  | Ok n => match blob_of n with Ok x => Some x | Throw _ => None end
  | Throw _ => None
  end.

Definition among (raws : list Blob) (x : Blob) : Prop := x ∈ omap message_blob raws.

Lemma message_listed raws raw : raw ∈ raws -> Forall is_u8 raw -> message_ok (among raws) raw.
Proof.
  intros Hin Hu. split; [done|]. intros n x Hn Hx. apply list_elem_of_omap. exists raw. split; [done|].
  unfold message_blob. by rewrite Hn, Hx.
Qed.

Definition unforgeable_check (ty : TNType) (m : kmap) (raws : list Blob) : bool :=
  let bs := map (fun x => (sha512half x, x)) (omap message_blob raws ++ hashed_list ty m) in
  let table : gmap uint256 Blob := list_to_map bs in
  forallb (fun hx => bool_decide (table !! hx.1 = Some hx.2) && negb (isZero hx.1)) bs.

Lemma unforgeable_sound ty m raws : unforgeable_check ty m raws = true -> unforgeable ty m (among raws).
Proof.
  unfold unforgeable_check. set (table := list_to_map _). rewrite forallb_forall. intros H.
  assert (Hin : forall x, among raws x \/ hashed ty m x ->
    (table : gmap uint256 Blob) !! sha512half x = Some x /\ isZero (sha512half x) = false).
  { intros x Hx. specialize (H (sha512half x, x)). cbn [fst snd] in H.
    rewrite andb_true_iff, bool_decide_eq_true, negb_true_iff in H. apply H, (in_map (fun x => (sha512half x, x))), in_app_iff.
    destruct Hx as [Hx|Hx]; [left; by apply list_elem_of_In|right; by apply hashed_listed]. }
  split; [|intros x Hx; by apply Hin]. intros x y Hx Hy E.
  destruct (Hin x Hx) as [H1 _], (Hin y (or_intror Hy)) as [H2 _]. congruence.
Qed.
End Check.

(** A server that knows no transactions. *)
Definition quiet : Server := {| known_transaction := fun _ => None; is_transaction := fun _ => false; rand := fun k => Z.of_nat (7 * k) |}.

Definition sy_map : kmap := {[mTag ex_a := mData ex_a; mTag ex_b := mData ex_b]}.
Definition sy_hash : uint256 := canon_hash (SHA := Tiny) tnACCOUNT_STATE 0 sy_map.

(** The wire forms of the nodes: the root, the two inner nodes below it, the leaves. *)
Definition sy_leaf (item : SHAMapItem) : Blob := mData item ++ mTag item ++ [1].
Definition sy_inner (p : path) : Blob :=
  concat (child_hashes (SHA := Tiny) tnACCOUNT_STATE (length p) (below p sy_map)) ++ [2].
Definition sy_id (p : path) : SHAMapNodeID :=
  fold_left (fun id i => default id (getChildNodeID id i)) p root_id.

(** A root whose bitmap names branch 2 although it is empty: in the compressed form
    an entry for the position is followed by another one that resets the hash. *)
Definition sy_poisoned : Blob :=
  (node_sum (SHA := Tiny) tnACCOUNT_STATE sy_map [1] ++ [1]) ++ (replicate 32 9 ++ [2]) ++ (zero256 ++ [2]) ++ [3].

Definition sy_messages : list Blob :=
  [sy_inner []; sy_poisoned; sy_inner [1]; sy_inner [1; 1]; sy_leaf ex_a; sy_leaf ex_b; [9; 9; 9]].

Definition sy_ops : list sync_op :=
  [syNode (sy_id [1]) (sy_leaf ex_b); syNode (sy_id [1]) (sy_inner [1]); syMissing 10;
   syNode (sy_id [1; 1]) [9; 9; 9]; syNode (sy_id [1; 1]) (sy_inner [1; 1]); syPeek (mTag ex_a);
   syNode (sy_id [1; 1; 1]) (sy_leaf ex_a); syExpire (fun _ => false)].

Definition sy_rest : list sync_op := sy_ops ++ [syNode (sy_id [1; 1; 2]) (sy_leaf ex_b)].

Definition sy_net : Net :=
  {| store := {| cells := [makeInner (empty_node 1)]; db := ∅ |}; fullBelowCache := ∅; nodeCache := ∅; fetchPack := ∅;
     submitted := []; draws := 0 |}.
Definition sy_start : SHAMap := {| smSeq := 1; root := 0; mState := smsSynching; mBacked := true |}.

Definition sy_root (raw : Blob) : result (SHAMapAddNode * SHAMap) * Net :=
  addRootNode (SHA := Tiny) (SRV := quiet) sy_start sy_hash raw snfWIRE (Some AccountStateSF) sy_net.


Lemma sy_acquiring ops : Forall (fun o => match o with
    | syNode id raw => is_uint256 (mNodeID id) /\ raw ∈ sy_messages /\ Forall is_u8 raw
    | syPeek k => is_uint256 k
    | syMissing _ | syExpire _ => True
    | _ => False
    end) ops ->
  forall t w, sy_root (sy_inner []) = (Ok (useful, t), w) ->
  acquiring (SHA := Tiny) (SRV := quiet) tnACCOUNT_STATE sy_map (among (SHA := Tiny) sy_messages) (Some AccountStateSF)
    sy_start t (sy_inner []) sy_net w ops.
Proof.
  intros Hops t w Hroot. refine (conj _ (conj _ (conj _ (conj _ (conj _ (conj _ Hroot)))))).
  - refine (conj _ (conj _ (conj _ _))); [by right; right| |by_decide|by_decide].
    unfold sy_map. intros k v [[<- <-]|[_ [<- <-]%lookup_singleton_Some]]%lookup_insert_Some; (split; [by_decide|done]).
  - apply unforgeable_sound. vm_compute. reflexivity.
  - split; [done|]. intros k. cbn [rand quiet]. lia.
  - split; cbn [sy_net store db nodeCache fetchPack fullBelowCache].
    + intros p d _ H. rewrite lookup_empty in H. discriminate H.
    + intros p d _ H. rewrite lookup_empty in H. discriminate H.
    + intros h d H. rewrite lookup_empty in H. discriminate H.
    + intros _ _ p _ H. destruct (not_elem_of_empty _ H).
  - apply message_listed; by_decide.
  - eapply Forall_impl; [exact Hops|]. intros [raw|id raw|max|h data|k|f]; cbn [sop_ok]; intros H;
      [destruct H| |exact I|destruct H|exact H|exact I].
    destruct H as (Hid & Hin & Hu). split; [exact Hid|]. apply message_listed; assumption.
Qed.


Definition sy_t : SHAMap := match sy_root (sy_inner []) with (Ok (_, t), _) => t | _ => sy_start end.
Definition sy_w : Net := (sy_root (sy_inner [])).2.

Lemma sy_root_run : sy_root (sy_inner []) = (Ok (useful, sy_t), sy_w).
Proof. vm_compute. reflexivity. Qed.

Definition sy_after (ops : list sync_op) : SHAMap * Net :=
  sync_run (SHA := Tiny) (SRV := quiet) sy_hash (Some AccountStateSF) ops (sy_t, sy_w).

Lemma sy_rest_ok : Forall (fun o => match o with
    | syNode id raw => is_uint256 (mNodeID id) /\ raw ∈ sy_messages /\ Forall is_u8 raw
    | syPeek k => is_uint256 k
    | syMissing _ | syExpire _ => True
    | _ => False
    end) sy_rest.
Proof. repeat (apply Forall_cons; split; [first [exact I|by_decide]|]). apply Forall_nil, I. Qed.

Lemma sync_authentic_witness : exists w',
  on_store (peekItem (SHA := Tiny) (sy_after sy_ops).1 (mTag ex_a)) (sy_after sy_ops).2 = (Ok (Some ex_a), w') /\
  Some ex_a = (fun v => {| mTag := mTag ex_a; mData := v |}) <$> sy_map !! mTag ex_a.
Proof.
  exists (on_store (peekItem (SHA := Tiny) (sy_after sy_ops).1 (mTag ex_a)) (sy_after sy_ops).2).2.
  assert (E : on_store (peekItem (SHA := Tiny) (sy_after sy_ops).1 (mTag ex_a)) (sy_after sy_ops).2 =
    (Ok (Some ex_a), (on_store (peekItem (SHA := Tiny) (sy_after sy_ops).1 (mTag ex_a)) (sy_after sy_ops).2).2))
    by (vm_compute; reflexivity).
  split; [exact E|].
  refine (@sync_authentic Tiny quiet tnACCOUNT_STATE sy_map (among (SHA := Tiny) sy_messages) (Some AccountStateSF)
    sy_start sy_t (sy_inner []) sy_net sy_w sy_ops (mTag ex_a) (Some ex_a) _ _ _ E); [|by_decide].
  refine (sy_acquiring sy_ops _ sy_t sy_w sy_root_run). exact (proj1 (proj1 (Forall_app _ sy_ops _) sy_rest_ok)).
Defined.

Lemma sync_complete_witness : exists t' ids hs w',
  getMissingNodes (SHA := Tiny) (SRV := quiet) (sy_after sy_rest).1 [] [] 10 (Some AccountStateSF) (sy_after sy_rest).2 =
    (Ok (t', ids, hs), w') /\
  (ids = [] -> mState t' = smsModifying /\
     forall k v, sy_map !! k = Some v ->
       exists w'', on_store (peekItem (SHA := Tiny) t' k) w' = (Ok (Some {| mTag := k; mData := v |}), w'')).
Proof.
  refine (@sync_complete Tiny quiet tnACCOUNT_STATE sy_map (among (SHA := Tiny) sy_messages) (Some AccountStateSF)
    sy_start sy_t (sy_inner []) sy_net sy_w sy_rest 10 _ _).
  - exact (sy_acquiring sy_rest sy_rest_ok sy_t sy_w sy_root_run).
  - intros _. left. reflexivity.
Defined.

(** Before the last leaf has come, it is what is missing; afterwards nothing is. *)
Example missing_then_complete :
  (fun r => match r with (Ok (t', ids, hs), _) => Some (mState t', ids) | _ => None end)
    (getMissingNodes (SHA := Tiny) (SRV := quiet) (sy_after sy_ops).1 [] [] 10 (Some AccountStateSF) (sy_after sy_ops).2)
    = Some (smsSynching, [sy_id [1; 1; 2]]) /\
  (fun r => match r with (Ok (t', ids, hs), _) => Some (mState t', ids) | _ => None end)
    (getMissingNodes (SHA := Tiny) (SRV := quiet) (sy_after sy_rest).1 [] [] 10 (Some AccountStateSF) (sy_after sy_rest).2)
    = Some (smsModifying, []).
Proof. split; vm_compute; reflexivity. Qed.

(** A poisoned root is accepted with its genuine hash, an empty inner node is
    accepted below the branch it claims, and the acquisition ends.  An item then
    added below that branch is not put where every other server puts it: the hash
    of the map differs from the hash of the same items elsewhere. *)
Definition sy_new : SHAMapItem := {| mTag := ex_key 34 17; mData := [6] |}.

(** Acquire the map from the given root, add the item, and compare the hash. *)
Definition sy_extended (raw : Blob) (ops : list sync_op) : option (SHAMapAddNode * nat * bool) :=
  match sy_root raw with
  | (Ok (r, t), w) =>
      let '(t, w) := sync_run (SHA := Tiny) (SRV := quiet) sy_hash (Some AccountStateSF) ops (t, w) in
      match getMissingNodes (SHA := Tiny) (SRV := quiet) t [] [] 10 (Some AccountStateSF) w with
      | (Ok (t, ids, _), w) =>
          match addGiveItem (SHA := Tiny) t sy_new false false (store w) with
          | (Ok (_, t), s) =>
              match getHash t s with
              | (Ok h, _) => Some (r, length ids,
                  bool_decide (h = canon_hash (SHA := Tiny) tnACCOUNT_STATE 0 (<[mTag sy_new := mData sy_new]> sy_map)))
              | _ => None
              end
          | _ => None
          end
      | _ => None
      end
  | _ => None
  end.

Example poisoned_branch_accepted :
  sy_extended (sy_inner []) sy_rest = Some (useful, 0%nat, true) /\
  sy_extended sy_poisoned (syNode (sy_id [2]) [3] :: sy_rest) = Some (useful, 0%nat, false).
Proof. split; vm_compute; reflexivity. Qed.

End SyncLaws.
