(* ===== verification/LedgerEntrySet.v ===== *)
(** * LedgerEntrySet: the mutable view of a ledger

    [src/src/ripple_app/ledger/LedgerEntrySet.h/.cpp].  A transaction does not
    write to the ledger: it works on a [LedgerEntrySet], a table of the entries
    it has read, created, modified or deleted, and [TransactionEngine::txnWrite]
    writes the table back when the transaction succeeds.

    Entries are shared objects: [SLE::pointer]s handed out by the table alias the
    object it holds, and code mutates the object through them.  So the objects
    live in a heap, a pointer is an index into it, and the table maps a ledger
    index to a pointer.  [getEntry] copies an object when the table has been
    duplicated or its sequence number bumped since the object was last used.

    An entry has the fields of [LedgerFormats.cpp] under their names; a field
    that is not present reads as the default of its type, as [STObject]'s getters
    have it.  The ledger underneath is a finite map from indexes to entries with
    the fee settings.  [SHA512] is the digest from which indexes are made.

    Every field read or set here is in the format of its entry with the type it is
    read with, so the exceptions [Field not found] and [Wrong field type] of
    [STObject] do not arise.

    The metadata of a transaction ([calcRawMeta], [threadTx]) is in TxMeta.v.  Left
    out: [getJson], logging, and the copy of closed ledgers that [txnWrite] keeps in
    a database. *)
From Stdlib Require Import ZArith Lia.
From S2P Require Import Prelude BaseUint Serializer STAmount STAmountMath Book SHAMapNode Effects FeeTrack.
From stdpp Require Import base numbers list gmap strings.
Import Effects.
Local Open Scope Z_scope.

Module LedgerEntrySet.
Import BaseUint STAmount STAmountMath.

Abbreviation uint256 := (list Z).
Abbreviation Account := (Book.Account).
Abbreviation TER := (Book.TER).
Abbreviation SHA512 := (SHAMapNode.SHA512).
Abbreviation sha512half := (SHAMapNode.sha512half).

Definition tesSUCCESS : TER := 0.
Definition telFAILED_PROCESSING : TER := -395.
Definition tefBAD_LEDGER : TER := -193.
Definition tecFAILED_PROCESSING : TER := 105.
Definition tecDIR_FULL : TER := 121.

(** ** Entries *)

Inductive LedgerEntryType : Type :=
| ltACCOUNT_ROOT
| ltDIR_NODE
| ltRIPPLE_STATE
| ltOFFER
| ltAMENDMENTS
| ltFEE_SETTINGS.

#[export] Instance LedgerEntryType_eq_dec : EqDecision LedgerEntryType.
Proof. solve_decision. Defined.

Abbreviation SField := string.

Definition sfFlags : SField := "Flags".
Definition sfAccount : SField := "Account".
Definition sfSequence : SField := "Sequence".
Definition sfBalance : SField := "Balance".
Definition sfOwnerCount : SField := "OwnerCount".
Definition sfTransferRate : SField := "TransferRate".
Definition sfOwner : SField := "Owner".
Definition sfTakerPaysCurrency : SField := "TakerPaysCurrency".
Definition sfTakerPaysIssuer : SField := "TakerPaysIssuer".
Definition sfTakerGetsCurrency : SField := "TakerGetsCurrency".
Definition sfTakerGetsIssuer : SField := "TakerGetsIssuer".
Definition sfExchangeRate : SField := "ExchangeRate".
Definition sfIndexes : SField := "Indexes".
Definition sfRootIndex : SField := "RootIndex".
Definition sfIndexNext : SField := "IndexNext".
Definition sfIndexPrevious : SField := "IndexPrevious".
Definition sfTakerPays : SField := "TakerPays".
Definition sfTakerGets : SField := "TakerGets".
Definition sfBookDirectory : SField := "BookDirectory".
Definition sfBookNode : SField := "BookNode".
Definition sfOwnerNode : SField := "OwnerNode".
Definition sfExpiration : SField := "Expiration".
Definition sfLowLimit : SField := "LowLimit".
Definition sfHighLimit : SField := "HighLimit".
Definition sfLowNode : SField := "LowNode".
Definition sfHighNode : SField := "HighNode".
Definition sfLowQualityIn : SField := "LowQualityIn".
Definition sfLowQualityOut : SField := "LowQualityOut".
Definition sfHighQualityIn : SField := "HighQualityIn".
Definition sfHighQualityOut : SField := "HighQualityOut".
Definition sfPreviousTxnID : SField := "PreviousTxnID".
Definition sfPreviousTxnLgrSeq : SField := "PreviousTxnLgrSeq".
Definition sfAmendments : SField := "Amendments".
Definition sfBaseFee : SField := "BaseFee".
Definition sfReferenceFeeUnits : SField := "ReferenceFeeUnits".
Definition sfReserveBase : SField := "ReserveBase".
Definition sfReserveIncrement : SField := "ReserveIncrement".

Inductive STValue : Type :=
| STUInt32 (v : Z)
| STUInt64 (v : Z)
| STHash160 (v : uint160)
| STHash256 (v : uint256)
| STAccount (v : Account)
| STVector256 (v : list uint256)
| STAmt (v : STAmount).

Record SLE : Type := { mIndex : uint256; mType : LedgerEntryType; mFields : gmap SField STValue }.

(** A default-constructed [STAmount]. *)
Definition no_amount : STAmount := mk_native 0 false.

Definition isFieldPresent (f : SField) (sle : SLE) : bool :=
  match mFields sle !! f with Some _ => true | None => false end.
Definition getFieldU32 (f : SField) (sle : SLE) : Z :=
  match mFields sle !! f with Some (STUInt32 v) => v | _ => 0 end.
Definition getFieldU64 (f : SField) (sle : SLE) : Z :=
  match mFields sle !! f with Some (STUInt64 v) => v | _ => 0 end.
Definition getFieldH256 (f : SField) (sle : SLE) : uint256 :=
  match mFields sle !! f with Some (STHash256 v) => v | _ => SHAMapNode.zero256 end.
Definition getFieldAccount160 (f : SField) (sle : SLE) : Account :=
  match mFields sle !! f with Some (STAccount v) => v | _ => u160_zero end.
Definition getFieldV256 (f : SField) (sle : SLE) : list uint256 :=
  match mFields sle !! f with Some (STVector256 v) => v | _ => [] end.
Definition getFieldAmount (f : SField) (sle : SLE) : STAmount :=
  match mFields sle !! f with Some (STAmt v) => v | _ => no_amount end.
Definition isFlag (f : Z) (sle : SLE) : bool := Z.land (getFieldU32 sfFlags sle) f =? f.

Definition setField (f : SField) (v : STValue) (sle : SLE) : SLE :=
  {| mIndex := mIndex sle; mType := mType sle; mFields := <[f := v]> (mFields sle) |}.
Definition setFieldU32 (f : SField) (v : Z) : SLE -> SLE := setField f (STUInt32 v).
Definition setFieldU64 (f : SField) (v : Z) : SLE -> SLE := setField f (STUInt64 v).
Definition setFieldH160 (f : SField) (v : uint160) : SLE -> SLE := setField f (STHash160 v).
Definition setFieldH256 (f : SField) (v : uint256) : SLE -> SLE := setField f (STHash256 v).
Definition setFieldAccount (f : SField) (v : Account) : SLE -> SLE := setField f (STAccount v).
Definition setFieldV256 (f : SField) (v : list uint256) : SLE -> SLE := setField f (STVector256 v).
Definition setFieldAmount (f : SField) (v : STAmount) : SLE -> SLE := setField f (STAmt v).

(** The required fields of each format, which a new entry has with defaults. *)
Definition required (t : LedgerEntryType) : list (SField * STValue) :=
  (sfFlags, STUInt32 0) ::
  match t with
  | ltACCOUNT_ROOT =>
      [(sfAccount, STAccount u160_zero); (sfSequence, STUInt32 0); (sfBalance, STAmt no_amount);
       (sfOwnerCount, STUInt32 0); (sfPreviousTxnID, STHash256 SHAMapNode.zero256); (sfPreviousTxnLgrSeq, STUInt32 0)]
  | ltDIR_NODE => [(sfIndexes, STVector256 []); (sfRootIndex, STHash256 SHAMapNode.zero256)]
  | ltRIPPLE_STATE =>
      [(sfBalance, STAmt no_amount); (sfLowLimit, STAmt no_amount); (sfHighLimit, STAmt no_amount);
       (sfPreviousTxnID, STHash256 SHAMapNode.zero256); (sfPreviousTxnLgrSeq, STUInt32 0)]
  | ltOFFER =>
      [(sfAccount, STAccount u160_zero); (sfSequence, STUInt32 0); (sfTakerPays, STAmt no_amount);
       (sfTakerGets, STAmt no_amount); (sfBookDirectory, STHash256 SHAMapNode.zero256); (sfBookNode, STUInt64 0);
       (sfOwnerNode, STUInt64 0); (sfPreviousTxnID, STHash256 SHAMapNode.zero256); (sfPreviousTxnLgrSeq, STUInt32 0)]
  | ltAMENDMENTS => [(sfAmendments, STVector256 [])]
  | ltFEE_SETTINGS =>
      [(sfBaseFee, STUInt64 0); (sfReferenceFeeUnits, STUInt32 0); (sfReserveBase, STUInt32 0);
       (sfReserveIncrement, STUInt32 0)]
  end.

Definition new_SLE (letType : LedgerEntryType) (index : uint256) : SLE :=
  {| mIndex := index; mType := letType; mFields := list_to_map (required letType) |}.

(** ** The ledger and the table *)

Record Ledger : Type := {
  mAccountState : gmap uint256 SLE;
  mBaseFee : Z; mReferenceFeeUnits : Z; mReserveBase : Z; mReserveIncrement : Z }.

Inductive LedgerEntryAction : Type :=
| taaNONE
| taaCACHED
| taaMODIFY
| taaDELETE
| taaCREATE.

#[export] Instance LedgerEntryAction_eq_dec : EqDecision LedgerEntryAction.
Proof. solve_decision. Defined.

Abbreviation sleptr := nat.

Record LedgerEntrySetEntry : Type := { mEntry : sleptr; mAction : LedgerEntryAction; mEntrySeq : Z }.

Record LES : Type := {
  mLedger : Ledger;
  mEntries : gmap uint256 LedgerEntrySetEntry;
  mParams : Z;
  mSeq : Z;
  mImmutable : bool }.

(** The objects and the table the operations work on. *)
Record State : Type := { heap : list SLE; les : LES }.

Abbreviation M := (Eff State).

Definition tapOPEN_LEDGER : Z := 16.

Definition new_les (ledger : Ledger) (tep : Z) : LES :=
  {| mLedger := ledger; mEntries := ∅; mParams := tep; mSeq := 0; mImmutable := false |}.

Definition with_entries (l : LES) (es : gmap uint256 LedgerEntrySetEntry) : LES :=
  {| mLedger := mLedger l; mEntries := es; mParams := mParams l; mSeq := mSeq l; mImmutable := mImmutable l |}.

Definition init_les (ledger : Ledger) (params : Z) (l : LES) : LES :=
  {| mLedger := ledger; mEntries := ∅; mParams := params; mSeq := 0; mImmutable := mImmutable l |}.

Definition clear_les (l : LES) : LES := with_entries l ∅.

Definition duplicate (l : LES) : LES :=
  {| mLedger := mLedger l; mEntries := mEntries l; mParams := 0; mSeq := mSeq l + 1; mImmutable := false |}.

Definition bumpSeq (l : LES) : LES :=
  {| mLedger := mLedger l; mEntries := mEntries l; mParams := mParams l; mSeq := mSeq l + 1; mImmutable := mImmutable l |}.

(** [setTo] and [swapWith] keep the flag [mImmutable] of the object. *)
Definition setTo (this e : LES) : LES :=
  {| mLedger := mLedger e; mEntries := mEntries e; mParams := mParams e; mSeq := mSeq e; mImmutable := mImmutable this |}.

Definition swapWith (this e : LES) : LES * LES := (setTo this e, setTo e this).

(** *** The heap *)

Definition set_heap (h : list SLE) (s : State) : State := {| heap := h; les := les s |}.
Definition set_les (l : LES) (s : State) : State := {| heap := heap s; les := l |}.

Definition null_sle : exn := undefined "null SLE pointer".

Definition deref (p : sleptr) : M SLE := fun s =>
  match heap s !! p with
  | Some sle => (Ok sle, s)
  | None => (Throw null_sle, s)
  end.

(** A member call that mutates the entry. *)
Definition mutate (p : sleptr) (f : SLE -> SLE) : M unit :=
  sle ← deref p;
  modifies (fun s => set_heap (<[p := f sle]> (heap s)) s).

Definition make_sle (sle : SLE) : M sleptr := fun s =>
  (Ok (length (heap s)), set_heap (heap s ++ [sle]) s).

Definition put_entry (index : uint256) (e : LedgerEntrySetEntry) : M unit :=
  modifies (fun s => set_les (with_entries (les s) (<[index := e]> (mEntries (les s)))) s).

(** ** Entry operations *)

(** [getEntry]: the pointer and the action; a null pointer comes with [taaNONE]. *)
Definition getEntry (index : uint256) : M (option sleptr * LedgerEntryAction) :=
  l ← reads les;
  match mEntries l !! index with
  | None => mret (None, taaNONE)
  | Some e =>
      if negb (mEntrySeq e =? mSeq l) then
        sle ← deref (mEntry e);
        p ← make_sle sle;
        _ ← put_entry index {| mEntry := p; mAction := mAction e; mEntrySeq := mSeq l |};
        mret (Some p, mAction e)
      else mret (Some (mEntry e), mAction e)
  end.

Definition hasEntry (index : uint256) : M LedgerEntryAction :=
  l ← reads les;
  mret (match mEntries l !! index with None => taaNONE | Some e => mAction e end).

(** [entryCache (SLE::ref)]. *)
Definition cache_entry (p : sleptr) : M unit :=
  sle ← deref p;
  l ← reads les;
  match mEntries l !! mIndex sle with
  | None => put_entry (mIndex sle) {| mEntry := p; mAction := taaCACHED; mEntrySeq := mSeq l |}
  | Some e =>
      match mAction e with
      | taaCACHED => put_entry (mIndex sle) {| mEntry := p; mAction := taaCACHED; mEntrySeq := mSeq l |}
      | _ => raise (runtime_error "Cache after modify/delete/create")
      end
  end.

(** [entryCache (LedgerEntryType, uint256)]. *)
Definition entryCache (letType : LedgerEntryType) (index : uint256) : M (option sleptr) :=
  if negb (SHAMapNode.isZero index) then
    '(sleEntry, action) ← getEntry index;
    match sleEntry with
    | None =>
        l ← reads les;
        match mAccountState (mLedger l) !! index with
        | Some sle => p ← make_sle sle; _ ← cache_entry p; mret (Some p)
        | None => mret None
        end
    | Some p => mret (if decide (action = taaDELETE) then None else Some p)
    end
  else mret None.

(** [entryCreate (SLE::ref)]. *)
Definition create_entry (p : sleptr) : M unit :=
  sle ← deref p;
  l ← reads les;
  match mEntries l !! mIndex sle with
  | None => put_entry (mIndex sle) {| mEntry := p; mAction := taaCREATE; mEntrySeq := mSeq l |}
  | Some e =>
      match mAction e with
      | taaDELETE => put_entry (mIndex sle) {| mEntry := p; mAction := taaMODIFY; mEntrySeq := mSeq l |}
      | taaMODIFY => raise (runtime_error "Create after modify")
      | taaCREATE => raise (runtime_error "Create after create")
      | taaCACHED => raise (runtime_error "Create after cache")
      | taaNONE => raise (runtime_error "Unknown taa")
      end
  end.

(** [entryCreate (LedgerEntryType, uint256)]. *)
Definition entryCreate (letType : LedgerEntryType) (index : uint256) : M sleptr :=
  p ← make_sle (new_SLE letType index);
  _ ← create_entry p;
  mret p.

Definition entryModify (p : sleptr) : M unit :=
  sle ← deref p;
  l ← reads les;
  match mEntries l !! mIndex sle with
  | None => put_entry (mIndex sle) {| mEntry := p; mAction := taaMODIFY; mEntrySeq := mSeq l |}
  | Some e =>
      match mAction e with
      | taaCACHED | taaMODIFY => put_entry (mIndex sle) {| mEntry := p; mAction := taaMODIFY; mEntrySeq := mSeq l |}
      | taaCREATE => put_entry (mIndex sle) {| mEntry := p; mAction := taaCREATE; mEntrySeq := mSeq l |}
      | taaDELETE => raise (runtime_error "Modify after delete")
      | taaNONE => raise (runtime_error "Unknown taa")
      end
  end.

Definition entryDelete (p : sleptr) : M unit :=
  sle ← deref p;
  l ← reads les;
  match mEntries l !! mIndex sle with
  | None => put_entry (mIndex sle) {| mEntry := p; mAction := taaDELETE; mEntrySeq := mSeq l |}
  | Some e =>
      match mAction e with
      | taaCACHED | taaMODIFY => put_entry (mIndex sle) {| mEntry := p; mAction := taaDELETE; mEntrySeq := mSeq l |}
      | taaCREATE => modifies (fun s => set_les (with_entries (les s) (delete (mIndex sle) (mEntries (les s)))) s)
      | taaDELETE => mret tt
      | taaNONE => raise (runtime_error "Unknown taa")
      end
  end.

Definition hasChanges (l : LES) : bool :=
  existsb (fun '(_, e) => negb (bool_decide (mAction e = taaCACHED))) (map_to_list (mEntries l)).

(** ** Writing back *)

(** [Ledger::writeBack]: an entry the ledger does not have is written only with
    [lepCREATE]. *)
Definition writeBack (lepCREATE : bool) (entry : SLE) (m : gmap uint256 SLE) : gmap uint256 SLE :=
  match m !! mIndex entry with
  | None => if lepCREATE then <[mIndex entry := entry]> m else m
  | Some _ => <[mIndex entry := entry]> m
  end.

Definition write_entry (h : list SLE) (index : uint256) (e : LedgerEntrySetEntry) (m : gmap uint256 SLE)
    : gmap uint256 SLE :=
  match mAction e, h !! mEntry e with
  | taaCREATE, Some sleEntry => writeBack true sleEntry m
  | taaMODIFY, Some sleEntry => writeBack false sleEntry m
  | taaDELETE, _ => delete index m
  | _, _ => m
  end.

(** [TransactionEngine::txnWrite]: the state of the ledger afterwards. *)
Definition txnWrite (s : State) : gmap uint256 SLE :=
  map_fold (write_entry (heap s)) (mAccountState (mLedger (les s))) (mEntries (les s)).

(** ** Ledger indexes *)

Definition spaceAccount : Z := 97.
Definition spaceDirNode : Z := 100.
Definition spaceRipple : Z := 114.
Definition spaceOwnerDir : Z := 79.

Section Operations.
Context `{SHA : SHA512}.

Definition getAccountRootIndex (uAccountID : Account) : uint256 :=
  sha512half (snd (Serializer.add_uint uAccountID (snd (Serializer.add16 spaceAccount [])))).

Definition getOwnerDirIndex (uAccountID : Account) : uint256 :=
  sha512half (snd (Serializer.add_uint uAccountID (snd (Serializer.add16 spaceOwnerDir [])))).

Definition getDirNodeIndex (uDirRoot : uint256) (uNodeIndex : Z) : uint256 :=
  if negb (uNodeIndex =? 0) then
    sha512half (snd (Serializer.add64 uNodeIndex (SHAMapNode.add256 uDirRoot (snd (Serializer.add16 spaceDirNode [])))))
  else uDirRoot.

Definition getRippleStateIndex (uAID uBID : Account) (uCurrency : uint160) : uint256 :=
  let bAltB := BaseUint.ltb uAID uBID in
  let s := snd (Serializer.add_uint (if bAltB then uAID else uBID) (snd (Serializer.add16 spaceRipple []))) in
  let s := snd (Serializer.add_uint (if bAltB then uBID else uAID) s) in
  sha512half (snd (Serializer.add_uint uCurrency s)).

(** ** Directories

    A directory is a list of pages of up to 32 indexes.  Page 0 is the root; a
    page's number is part of its ledger index.  [sfIndexNext] links a page to the
    next (0: none); [sfIndexPrevious] links back, and the root's is the number of
    the last page. *)

Definition DIR_NODE_MAX : nat := 32.

(** The field of an entry behind a pointer. *)
Definition field {A} (get : SLE -> A) (p : sleptr) : M A := sle ← deref p; mret (get sle).

(** A pointer that the code dereferences without a test. *)
Definition non_null (o : option sleptr) : M sleptr :=
  match o with Some p => mret p | None => raise null_sle end.

(** The describers of owner directories and of book directories. *)
Definition ownerDirDescriber (owner : Account) (isNew : bool) (sle : SLE) : SLE := setFieldAccount sfOwner owner sle.

Definition qualityDirDescriber (uTakerPaysCurrency uTakerPaysIssuer uTakerGetsCurrency uTakerGetsIssuer : uint160)
    (uRate : Z) (isNew : bool) (sle : SLE) : SLE :=
  setFieldU64 sfExchangeRate uRate
    (setFieldH160 sfTakerGetsIssuer uTakerGetsIssuer
      (setFieldH160 sfTakerGetsCurrency uTakerGetsCurrency
        (setFieldH160 sfTakerPaysIssuer uTakerPaysIssuer
          (setFieldH160 sfTakerPaysCurrency uTakerPaysCurrency sle)))).

(** The end of [dirAdd]: append the entry to the page. *)
Definition dir_append (sleNode : sleptr) (svIndexes : list uint256) (uLedgerIndex : uint256) : M unit :=
  mutate sleNode (setFieldV256 sfIndexes (svIndexes ++ [uLedgerIndex])).

(** [dirAdd]: the result and the page number it stores in [uNodeDir]. *)
Definition dirAdd (uRootIndex uLedgerIndex : uint256) (fDescriber : bool -> SLE -> SLE) : M (TER * Z) :=
  o ← entryCache ltDIR_NODE uRootIndex;
  match o with
  | None =>
      sleRoot ← entryCreate ltDIR_NODE uRootIndex;
      _ ← mutate sleRoot (setFieldH256 sfRootIndex uRootIndex);
      _ ← mutate sleRoot (fDescriber true);
      _ ← dir_append sleRoot [] uLedgerIndex;
      mret (tesSUCCESS, 0)
  | Some sleRoot =>
      uNodeDir ← field (getFieldU64 sfIndexPrevious) sleRoot;
      sleNode ← (if negb (uNodeDir =? 0) then
                   o ← entryCache ltDIR_NODE (getDirNodeIndex uRootIndex uNodeDir); non_null o
                 else mret sleRoot);
      svIndexes ← field (getFieldV256 sfIndexes) sleNode;
      if negb (DIR_NODE_MAX =? length svIndexes)%nat then
        _ ← entryModify sleNode;
        _ ← dir_append sleNode svIndexes uLedgerIndex;
        mret (tesSUCCESS, uNodeDir)
      else
        let uNodeDir := u64 (uNodeDir + 1) in
        if uNodeDir =? 0 then mret (tecDIR_FULL, uNodeDir)
        else
          _ ← mutate sleNode (setFieldU64 sfIndexNext uNodeDir);
          _ ← entryModify sleNode;
          _ ← mutate sleRoot (setFieldU64 sfIndexPrevious uNodeDir);
          _ ← entryModify sleRoot;
          sleNode ← entryCreate ltDIR_NODE (getDirNodeIndex uRootIndex uNodeDir);
          _ ← mutate sleNode (setFieldH256 sfRootIndex uRootIndex);
          _ ← (if negb (uNodeDir =? 1) then mutate sleNode (setFieldU64 sfIndexPrevious (uNodeDir - 1)) else mret tt);
          _ ← mutate sleNode (fDescriber false);
          _ ← dir_append sleNode [] uLedgerIndex;
          mret (tesSUCCESS, uNodeDir)
  end.

(** What [dirDelete] leaves of a page: the first occurrence of the index is
    erased, or replaced by the last index of the page. *)
Definition remove_index (bStable : bool) (uLedgerIndex : uint256) (vuiIndexes : list uint256) : list uint256 :=
  if (1 <? length vuiIndexes)%nat then
    match list_find (fun x => x = uLedgerIndex) vuiIndexes with
    | None => vuiIndexes
    | Some (i, _) =>
        if bStable then delete i vuiIndexes
        else
          let moved := <[i := vuiIndexes !!! (length vuiIndexes - 1)%nat]> vuiIndexes in
          take (length vuiIndexes - 1) moved
    end
  else [].

(** [dirDelete] when the root page was emptied. *)
Definition emptied_root (bKeepRoot : bool) (uRootIndex : uint256) (sleNode : sleptr) (uNodePrevious uNodeNext : Z)
    : M TER :=
  if uNodePrevious =? 0 then _ ← entryDelete sleNode; mret tesSUCCESS
  else if bKeepRoot then mret tesSUCCESS
  else if negb (uNodePrevious =? uNodeNext) then mret tesSUCCESS
  else
    o ← entryCache ltDIR_NODE (getDirNodeIndex uRootIndex uNodeNext);
    sleLast ← non_null o;
    last ← field (getFieldV256 sfIndexes) sleLast;
    if decide (last = []) then _ ← entryDelete sleNode; _ ← entryDelete sleLast; mret tesSUCCESS
    else mret tesSUCCESS.

(** [dirDelete] when a page between the root and the last was emptied. *)
Definition emptied_middle (uRootIndex : uint256) (sleNode : sleptr) (uNodePrevious uNodeNext : Z) : M TER :=
  slePrevious ← entryCache ltDIR_NODE (getDirNodeIndex uRootIndex uNodePrevious);
  sleNext ← entryCache ltDIR_NODE (getDirNodeIndex uRootIndex uNodeNext);
  match slePrevious, sleNext with
  | Some slePrevious, Some sleNext =>
      _ ← mutate slePrevious (setFieldU64 sfIndexNext uNodeNext);
      _ ← entryModify slePrevious;
      _ ← mutate sleNext (setFieldU64 sfIndexPrevious uNodePrevious);
      _ ← entryModify sleNext;
      _ ← entryDelete sleNode;
      mret tesSUCCESS
  | _, _ => mret tefBAD_LEDGER
  end.

(** [dirDelete] when the last page was emptied. *)
Definition emptied_last (bKeepRoot : bool) (uRootIndex : uint256) (sleNode : sleptr) (uNodePrevious : Z) : M TER :=
  if bKeepRoot || negb (uNodePrevious =? 0) then mret tesSUCCESS
  else
    o ← entryCache ltDIR_NODE uRootIndex;
    sleRoot ← non_null o;
    first ← field (getFieldV256 sfIndexes) sleRoot;
    if decide (first = []) then _ ← entryDelete sleRoot; _ ← entryDelete sleNode; mret tesSUCCESS
    else mret tesSUCCESS.

(** [dirDelete] once the entry was found on page [uNodeCur]. *)
Definition dir_remove (bKeepRoot : bool) (uNodeCur : Z) (uRootIndex uLedgerIndex : uint256) (bStable : bool)
    (sleNode : sleptr) (vuiIndexes : list uint256) : M TER :=
  let rest := remove_index bStable uLedgerIndex vuiIndexes in
  _ ← mutate sleNode (setFieldV256 sfIndexes rest);
  _ ← entryModify sleNode;
  if decide (rest = []) then
    uNodePrevious ← field (getFieldU64 sfIndexPrevious) sleNode;
    uNodeNext ← field (getFieldU64 sfIndexNext) sleNode;
    if uNodeCur =? 0 then emptied_root bKeepRoot uRootIndex sleNode uNodePrevious uNodeNext
    else if negb (uNodeNext =? 0) then emptied_middle uRootIndex sleNode uNodePrevious uNodeNext
    else emptied_last bKeepRoot uRootIndex sleNode uNodePrevious
  else mret tesSUCCESS.

(** The recursion of a soft deletion ends at page 20. *)
Fixpoint dirDelete_from (fuel : nat) (bKeepRoot : bool) (uNodeDir : Z) (uRootIndex uLedgerIndex : uint256)
    (bStable bSoft : bool) : M TER :=
  let next :=
    match fuel with
    | S fuel =>
        if negb bSoft then mret tefBAD_LEDGER
        else if uNodeDir <? 20 then
          dirDelete_from fuel bKeepRoot (uNodeDir + 1) uRootIndex uLedgerIndex bStable true
        else mret tefBAD_LEDGER
    | O => mret tefBAD_LEDGER
    end in
  o ← entryCache ltDIR_NODE (getDirNodeIndex uRootIndex uNodeDir);
  match o with
  | None => next
  | Some sleNode =>
      vuiIndexes ← field (getFieldV256 sfIndexes) sleNode;
      if decide (uLedgerIndex ∈ vuiIndexes)
      then dir_remove bKeepRoot uNodeDir uRootIndex uLedgerIndex bStable sleNode vuiIndexes
      else next
  end.

Definition dirDelete (bKeepRoot : bool) (uNodeDir : Z) (uRootIndex uLedgerIndex : uint256) (bStable bSoft : bool)
    : M TER :=
  dirDelete_from 21 bKeepRoot uNodeDir uRootIndex uLedgerIndex bStable bSoft.

(** [dirNext]: whether there was an entry, and the new values of [sleNode],
    [uDirEntry] and [uEntryIndex]. *)
Fixpoint dirNext (fuel : nat) (uRootIndex : uint256) (sleNode : sleptr) (uDirEntry : nat) (uEntryIndex : uint256)
    : M (bool * sleptr * nat * uint256) :=
  match fuel with
  | O => raise (undefined "dirNext: no end")
  | S fuel =>
      vuiIndexes ← field (getFieldV256 sfIndexes) sleNode;
      match vuiIndexes !! uDirEntry with
      | Some entry => mret (true, sleNode, S uDirEntry, entry)
      | None =>
          uNodeNext ← field (getFieldU64 sfIndexNext) sleNode;
          if uNodeNext =? 0 then mret (false, sleNode, uDirEntry, SHAMapNode.zero256)
          else
            o ← entryCache ltDIR_NODE (getDirNodeIndex uRootIndex uNodeNext);
            match o with
            | None => mret (false, sleNode, 0%nat, uEntryIndex)
            | Some sleNext => dirNext fuel uRootIndex sleNext 0 uEntryIndex
            end
      end
  end.

Definition dirFirst (fuel : nat) (uRootIndex uEntryIndex : uint256) : M (bool * sleptr * nat * uint256) :=
  o ← entryCache ltDIR_NODE uRootIndex;
  sleNode ← non_null o;
  dirNext fuel uRootIndex sleNode 0 uEntryIndex.

Fixpoint dirCount_loop (fuel : nat) (uRootIndex : uint256) (uNodeDir uCount : Z) : M (TER * Z) :=
  match fuel with
  | O => raise (undefined "dirCount: no end")
  | S fuel =>
      o ← entryCache ltDIR_NODE (getDirNodeIndex uRootIndex uNodeDir);
      match o with
      | Some sleNode =>
          indexes ← field (getFieldV256 sfIndexes) sleNode;
          uNodeDir ← field (getFieldU64 sfIndexNext) sleNode;
          let uCount := u32 (uCount + Z.of_nat (length indexes)) in
          if negb (uNodeDir =? 0) then dirCount_loop fuel uRootIndex uNodeDir uCount else mret (tesSUCCESS, uCount)
      | None => if negb (uNodeDir =? 0) then mret (tefBAD_LEDGER, uCount) else mret (tesSUCCESS, uCount)
      end
  end.

Definition dirCount (fuel : nat) (uRootIndex : uint256) : M (TER * Z) := dirCount_loop fuel uRootIndex 0 0.

Definition dirIsEmpty (uRootIndex : uint256) : M bool :=
  o ← entryCache ltDIR_NODE (getDirNodeIndex uRootIndex 0);
  match o with
  | None => mret true
  | Some sleNode =>
      indexes ← field (getFieldV256 sfIndexes) sleNode;
      uNodeNext ← field (getFieldU64 sfIndexNext) sleNode;
      mret (if decide (indexes = []) then uNodeNext =? 0 else false)
  end.

End Operations.
End LedgerEntrySet.
