(* ===== verification/LedgerLaws.v ===== *)
(** * LedgerEntrySet: what the table stands for

    [view s] is the ledger as the transaction sees it: the ledger underneath,
    overlaid with the entries of the table.  [ok D s] is the invariant of the
    table: no two entries share an object, objects carry the index they are filed
    under, the actions agree with what the ledger has, and an entry that is only
    cached still equals the ledger's (except those in [D], which the code is in
    the middle of changing).  The rules below describe every entry operation by
    its effect on [view]; [txnWrite_view] says that writing the table back turns
    the ledger into [view]. *)
From Stdlib Require Import ZArith Lia.
From S2P Require Import Prelude BaseUint Serializer STAmount STAmountMath Book SHAMapNode Effects FeeTrack LedgerEntrySet.
From stdpp Require Import base numbers list gmap strings.
Import Effects LedgerEntrySet.
Local Open Scope Z_scope.

Module LedgerLaws.

Implicit Types (s : State) (i j : uint256) (e : LedgerEntrySetEntry) (x : SLE) (p : sleptr) (D : gset uint256).

Abbreviation ledger_of s := (mAccountState (mLedger (les s))).
Abbreviation entries s := (mEntries (les s)).

(** What entry [e] of the table shows. *)
Definition shows (h : list SLE) e : option SLE := if decide (mAction e = taaDELETE) then None else h !! mEntry e.

Definition overlay (h : list SLE) (o : option LedgerEntrySetEntry) (below : option SLE) : option SLE :=
  match o with Some e => shows h e | None => below end.

(** The ledger as the table shows it. *)
Definition table_view (h : list SLE) (l : LES) : gmap uint256 SLE :=
  merge (fun o below => overlay h o below) (mEntries l) (mAccountState (mLedger l)).
Definition view s : gmap uint256 SLE := table_view (heap s) (les s).

Lemma view_lookup s i : view s !! i = overlay (heap s) (entries s !! i) (ledger_of s !! i).
Proof. unfold view, table_view. rewrite lookup_merge. by destruct (entries s !! i), (ledger_of s !! i). Qed.

(** The state of the ledger underneath an entry. *)
Definition action_ok (a : LedgerEntryAction) (below : option SLE) : Prop :=
  match a with taaNONE => False | taaCREATE => below = None | _ => is_Some below end.

Record ok D s : Prop := {
  ok_ledger : forall i x, ledger_of s !! i = Some x -> mIndex x = i;
  ok_entry : forall i e, entries s !! i = Some e ->
    (exists x, heap s !! mEntry e = Some x /\ mIndex x = i) /\ mEntrySeq e <= mSeq (les s) /\
    action_ok (mAction e) (ledger_of s !! i);
  ok_clean : forall i e, entries s !! i = Some e -> mAction e = taaCACHED -> i ∉ D ->
    heap s !! mEntry e = ledger_of s !! i;
  ok_inj : forall i j e e', entries s !! i = Some e -> entries s !! j = Some e' -> mEntry e = mEntry e' -> i = j }.

(** [p] is the object of index [i] that the table hands out now. *)
Definition holds s p i x : Prop :=
  exists a, entries s !! i = Some {| mEntry := p; mAction := a; mEntrySeq := mSeq (les s) |} /\
    a <> taaDELETE /\ heap s !! p = Some x.

(** The entry of [i] is marked to be written back. *)
Definition touched s i : Prop := exists e, entries s !! i = Some e /\ mAction e <> taaCACHED.

(** The objects handed out since the sequence number was bumped were made since
    the heap had [N] objects. *)
Definition recent (N : nat) s : Prop :=
  forall i e, entries s !! i = Some e -> mEntrySeq e = mSeq (les s) -> (N <= mEntry e)%nat.

(** Older objects are not written to. *)
Definition frame s s' : Prop :=
  forall N, (N <= length (heap s))%nat -> recent N s ->
    recent N s' /\ (N <= length (heap s'))%nat /\ take N (heap s') = take N (heap s).

(** What an operation on index [i] may change: not the ledger underneath, nor the
    sequence number, nor other entries. *)
Record moves i s s' : Prop := {
  st_ledger : mLedger (les s') = mLedger (les s);
  st_seq : mSeq (les s') = mSeq (les s);
  st_params : mParams (les s') = mParams (les s);
  st_holds : forall p j x, j <> i -> holds s p j x -> holds s' p j x;
  st_touched : forall j, j <> i -> touched s j -> touched s' j }.

Record steps i s s' : Prop := { st_moves :> moves i s s'; st_frame : frame s s' }.

Lemma holds_view s p i x : holds s p i x -> view s !! i = Some x.
Proof. intros (a & Ha & Hd & Hx). rewrite view_lookup, Ha. cbn. unfold shows. cbn. by rewrite decide_False. Qed.

Lemma holds_index D s p i x : ok D s -> holds s p i x -> mIndex x = i.
Proof. intros Hok (a & Ha & _ & Hx). destruct (ok_entry _ _ Hok _ _ Ha) as ((y & Hy & Hi) & _). cbn in Hy. congruence. Qed.

Lemma holds_inj D s p i j x y : ok D s -> holds s p i x -> holds s p j y -> i = j.
Proof. intros Hok (a & Ha & _) (b & Hb & _). by eapply (ok_inj _ _ Hok _ _ _ _ Ha Hb). Qed.

Lemma ok_weaken D D' s : D ⊆ D' -> ok D s -> ok D' s.
Proof. intros HD [H1 H2 H3 H4]. split; auto. Qed.

Lemma frame_refl s : frame s s.
Proof. intros N HN Hr. done. Qed.

Lemma frame_trans s1 s2 s3 : frame s1 s2 -> frame s2 s3 -> frame s1 s3.
Proof.
  intros H1 H2 N HN Hr. destruct (H1 N HN Hr) as (Hr2 & HN2 & E2). destruct (H2 N HN2 Hr2) as (Hr3 & HN3 & E3).
  split_and!; [done|done|congruence].
Qed.

Lemma steps_refl i s : steps i s s.
Proof. by split. Qed.

(** ** The primitives *)

Lemma deref_ok p x s (Q : SLE -> State -> Prop) : heap s !! p = Some x -> Q x s -> wpe (deref p) s Q.
Proof. unfold wpe, deref. by intros ->. Qed.

Lemma field_ok {A} (get : SLE -> A) p x s (Q : A -> State -> Prop) :
  heap s !! p = Some x -> Q (get x) s -> wpe (field get p) s Q.
Proof. intros Hx HQ. unfold field. apply wpe_bind. eapply deref_ok; [done|]. by apply wpe_ret. Qed.

Lemma holds_field {A} (get : SLE -> A) p i x s (Q : A -> State -> Prop) :
  holds s p i x -> Q (get x) s -> wpe (field get p) s Q.
Proof. intros (a & _ & _ & Hx). by apply field_ok. Qed.

(** The state after a new object was made. *)
Abbreviation with_object x s := (set_heap (heap s ++ [x]) s).

Lemma make_ok D x s :
  ok D s -> ok D (with_object x s) /\ view (with_object x s) = view s /\ heap (with_object x s) !! length (heap s) = Some x /\
  forall i, steps i s (with_object x s).
Proof.
  intros [H1 H2 H3 H4]. assert (Hh : forall q y, heap s !! q = Some y -> heap (with_object x s) !! q = Some y).
  { intros q y Hq. cbn. by apply lookup_app_l_Some. }
  split_and!.
  - split; cbn; auto.
    + intros i e He. destruct (H2 i e He) as ((y & Hy & ?) & ? & ?). eauto 10.
    + intros i e He Ha Hn. rewrite <- (H3 i e He Ha Hn). destruct (H2 i e He) as ((y & Hy & ?) & _). rewrite Hy. by apply Hh.
  - apply map_eq. intros i. rewrite !view_lookup. cbn [les set_heap]. destruct (entries s !! i) as [e|] eqn:He; [|done].
    cbn. unfold shows. case_decide; [done|]. destruct (H2 i e He) as ((y & Hy & _) & _). rewrite Hy. by apply Hh.
  - cbn. by rewrite lookup_app_r, Nat.sub_diag by done.
  - intros i. split; [split; try done; intros p j y _ (a & Ha & Hd & Hy); exists a; split_and!; auto|].
    intros N HN Hr. split_and!; [done|cbn; rewrite length_app; lia|]. cbn. by rewrite take_app_le.
Qed.

(** The state after index [i] was given the entry [e]. *)
Abbreviation with_entry i e s := (set_les (with_entries (les s) (<[i := e]> (entries s))) s).

Lemma put_entry_view i e s : view (with_entry i e s) = partial_alter (fun _ => shows (heap s) e) i (view s).
Proof.
  apply map_eq. intros j. rewrite view_lookup. cbn [les set_les with_entries mEntries mLedger heap].
  destruct (decide (j = i)) as [->|Hne].
  - by rewrite lookup_insert_eq, lookup_partial_alter_eq.
  - by rewrite lookup_insert_ne, lookup_partial_alter_ne, view_lookup by done.
Qed.

Lemma put_entry_ok D D' i e x s :
  ok D s -> heap s !! mEntry e = Some x -> mIndex x = i -> mEntrySeq e <= mSeq (les s) ->
  action_ok (mAction e) (ledger_of s !! i) ->
  (forall j e', entries s !! j = Some e' -> mEntry e' = mEntry e -> j = i) ->
  (mAction e = taaCACHED -> i ∉ D' -> ledger_of s !! i = Some x) -> D ∖ {[i]} ⊆ D' ->
  ok D' (with_entry i e s) /\ moves i s (with_entry i e s).
Proof.
  intros [H1 H2 H3 H4] Hx Hi Hs Ha Hinj Hc HD. split.
  - split; cbn [les set_les with_entries mEntries mLedger mSeq heap]; auto.
    + intros j e' [[-> <-]|[Hne He]]%lookup_insert_Some; [|by auto]. eauto.
    + intros j e' [[<- <-]|[Hne He]]%lookup_insert_Some Hca Hn; [rewrite Hx; symmetry; auto|].
      apply H3; [done|done|]. intros Hj. apply Hn, HD. set_solver.
    + intros j k e1 e2 [[<- <-]|[Hne He]]%lookup_insert_Some [[<- <-]|[Hne' He']]%lookup_insert_Some E; [done| | |by eauto].
      * symmetry. eapply Hinj; [done|]. congruence.
      * eapply Hinj; eauto.
  - split; try done.
    + intros p j y Hne (a & Hj & ? & ?). exists a. cbn. by rewrite lookup_insert_ne by done.
    + intros j Hne (e' & He' & ?). exists e'. cbn. by rewrite lookup_insert_ne by done.
Qed.

(** The frame of giving [i] an entry. *)
Lemma put_entry_frame i e s :
  (forall N, (N <= length (heap s))%nat -> recent N s -> mEntrySeq e = mSeq (les s) -> (N <= mEntry e)%nat) ->
  frame s (with_entry i e s).
Proof. intros He N HN Hr. split_and!; [cbn|done|done]. intros j e'. cbn. intros [[<- <-]|[Hne Hj]]%lookup_insert_Some E; [by apply He|by eapply Hr]. Qed.

Lemma put_object_frame i e x s : mEntry e = length (heap s) -> frame s (with_entry i e (with_object x s)).
Proof.
  intros He N HN Hr. split_and!; [|cbn; rewrite length_app; lia|cbn; by rewrite take_app_le].
  intros j e'. cbn. intros [[<- <-]|[Hne Hj]]%lookup_insert_Some E; [lia|by eapply Hr].
Qed.

(** The state after the object behind [p] became [y]. *)
Abbreviation with_mutation p y s := (set_heap (<[p := y]> (heap s)) s).

Lemma with_mutation_holds D p i x y s :
  ok D s -> holds s p i x -> holds (with_mutation p y s) p i y /\ steps i s (with_mutation p y s).
Proof.
  intros Hok Hp. pose proof Hp as (a & Ha & Hd & Hx). split.
  - exists a. split_and!; try done. cbn. apply list_lookup_insert_eq. by eapply lookup_lt_Some.
  - split; [split; try done; intros q j z Hne Hq|].
    + pose proof Hq as (b & Hb & ? & Hz). exists b. split_and!; try done. cbn.
      rewrite list_lookup_insert_ne; [done|]. intros <-. apply Hne. by eapply (holds_inj D s p j i z x).
    + intros N HN Hr. split_and!; [done|cbn; by rewrite length_insert|]. cbn. rewrite take_insert_ge; [done|]. by apply (Hr _ _ Ha).
Qed.

Lemma with_mutation_ok D D' p i x y s :
  ok D s -> holds s p i x -> mIndex y = i -> D ⊆ D' -> touched s i \/ i ∈ D' ->
  ok D' (with_mutation p y s) /\ view (with_mutation p y s) = <[i := y]> (view s).
Proof.
  intros Hok Hp Hi HD Ht. pose proof Hp as (a & Ha & Hd & Hx). pose proof (lookup_lt_Some _ _ _ Hx) as Hlt.
  assert (Hother : forall j e, entries s !! j = Some e -> j <> i -> <[p := y]> (heap s) !! mEntry e = heap s !! mEntry e).
  { intros j e Hj Hne. apply list_lookup_insert_ne. intros E. apply Hne. by eapply (ok_inj _ _ Hok _ _ _ _ Hj Ha). }
  split.
  - split; cbn [les set_heap heap]; [apply Hok| | |apply Hok].
    + intros j e Hj. destruct (ok_entry _ _ Hok _ _ Hj) as (Hz & ? & ?). split_and!; try done.
      destruct (decide (j = i)) as [->|Hne]; [|by rewrite (Hother j)].
      assert (e = {| mEntry := p; mAction := a; mEntrySeq := mSeq (les s) |}) as -> by congruence.
      exists y. cbn. by rewrite list_lookup_insert_eq.
    + intros j e Hj Hca Hn. destruct (decide (j = i)) as [->|Hne].
      * destruct Ht as [(e' & He' & ?)|]; [congruence|done].
      * rewrite (Hother j) by done. apply (ok_clean _ _ Hok); auto.
  - apply map_eq. intros j. rewrite view_lookup. cbn [les set_heap heap]. destruct (decide (j = i)) as [->|Hne].
    + rewrite Ha, lookup_insert_eq. cbn. unfold shows. cbn. rewrite decide_False by done. by rewrite list_lookup_insert_eq.
    + rewrite lookup_insert_ne, view_lookup by done. destruct (entries s !! j) as [e|] eqn:Hj; [|done]. cbn. unfold shows.
      case_decide; [done|]. by apply (Hother j).
Qed.

(** ** The operations *)

Lemma mutate_ok D D' p i f x s (Q : unit -> State -> Prop) :
  ok D s -> holds s p i x -> mIndex (f x) = mIndex x -> D ⊆ D' -> touched s i \/ i ∈ D' ->
  (forall s', ok D' s' -> view s' = <[i := f x]> (view s) -> holds s' p i (f x) -> steps i s s' ->
     (touched s i -> touched s' i) -> Q tt s') ->
  wpe (mutate p f) s Q.
Proof.
  intros Hok Hp Hf HD Ht HQ. unfold mutate. apply wpe_bind.
  eapply deref_ok; [by destruct Hp as (? & _ & _ & ?)|]. apply wpe_modifies.
  destruct (with_mutation_holds D p i x (f x) s Hok Hp) as [Hh Hst].
  destruct (with_mutation_ok D D' p i x (f x) s Hok Hp) as [Hok' Hv]; [|done|done|]; [|by apply HQ].
  rewrite Hf. by eapply holds_index.
Qed.

Lemma entryModify_ok D p i x s (Q : unit -> State -> Prop) :
  ok D s -> holds s p i x ->
  (forall s', ok (D ∖ {[i]}) s' -> view s' = view s -> holds s' p i x -> touched s' i -> steps i s s' -> Q tt s') ->
  wpe (entryModify p) s Q.
Proof.
  intros Hok Hp HQ. pose proof Hp as (a & Ha & Hd & Hx). pose proof (holds_index _ _ _ _ _ Hok Hp) as Hi.
  unfold entryModify. apply wpe_bind. eapply deref_ok; [done|]. apply wpe_bind, wpe_reads. rewrite Hi, Ha. cbn [mAction].
  destruct (ok_entry _ _ Hok _ _ Ha) as (_ & _ & Hact). cbn [mAction] in Hact.
  assert (Hgo : forall b, b <> taaDELETE -> b <> taaCACHED -> action_ok b (ledger_of s !! i) ->
    wpe (put_entry i {| mEntry := p; mAction := b; mEntrySeq := mSeq (les s) |}) s Q).
  { intros b Hbd Hbc Hb. unfold put_entry. apply wpe_modifies.
    destruct (put_entry_ok D (D ∖ {[i]}) i {| mEntry := p; mAction := b; mEntrySeq := mSeq (les s) |} x s)
      as [Hok' Hst]; cbn; try done; [|apply HQ; try done].
    - intros j e' Hj E. by eapply (ok_inj _ _ Hok _ _ _ _ Hj Ha).
    - rewrite put_entry_view. unfold shows. cbn. rewrite decide_False, Hx by done.
      apply map_eq. intros j. destruct (decide (j = i)) as [->|]; [|by rewrite lookup_partial_alter_ne].
      rewrite lookup_partial_alter_eq. symmetry. by apply (holds_view s p).
    - exists b. split_and!; try done. cbn. by rewrite lookup_insert_eq.
    - exists {| mEntry := p; mAction := b; mEntrySeq := mSeq (les s) |}. cbn. by rewrite lookup_insert_eq.
    - split; [done|]. apply put_entry_frame. intros N HN Hr _. by apply (Hr _ _ Ha). }
  destruct a; try done; by apply Hgo.
Qed.

(** Reading changes nothing that can be seen, and pointers stay good. *)
Record keeps s s' : Prop := {
  kp_ledger : mLedger (les s') = mLedger (les s);
  kp_seq : mSeq (les s') = mSeq (les s);
  kp_params : mParams (les s') = mParams (les s);
  kp_view : view s' = view s;
  kp_holds : forall p j x, holds s p j x -> holds s' p j x;
  kp_touched : forall j, touched s j -> touched s' j;
  kp_frame : frame s s' }.

Lemma keeps_refl s : keeps s s.
Proof. by split. Qed.

Lemma keeps_trans s1 s2 s3 : keeps s1 s2 -> keeps s2 s3 -> keeps s1 s3.
Proof. intros [] []. split; [congruence..|by auto|by auto|by eapply frame_trans]. Qed.

(** A fresh object takes the place of the one filed under [i], or is filed there first. *)
Lemma refile_ok D i a x s :
  ok D s -> mIndex x = i -> action_ok a (ledger_of s !! i) -> (a = taaCACHED -> i ∉ D -> ledger_of s !! i = Some x) ->
  view s !! i = (if decide (a = taaDELETE) then None else Some x) ->
  (forall e, entries s !! i = Some e -> mAction e = a /\ mEntrySeq e <> mSeq (les s)) ->
  let p := length (heap s) in
  let s' := with_entry i {| mEntry := p; mAction := a; mEntrySeq := mSeq (les s) |} (with_object x s) in
  ok D s' /\ keeps s s' /\ (a <> taaDELETE -> holds s' p i x).
Proof.
  intros Hok Hi Ha Hc Hv He p s'. destruct (make_ok D x s Hok) as (Hok1 & Hv1 & Hp & Hst).
  destruct (put_entry_ok D D i {| mEntry := p; mAction := a; mEntrySeq := mSeq (les s) |} x (with_object x s))
    as [Hok2 Hst2]; cbn; try done; [|set_solver|].
  { intros j e' Hj E. destruct (ok_entry _ _ Hok _ _ Hj) as ((y & Hy & _) & _).
    apply lookup_lt_Some in Hy. unfold p in E. lia. }
  split_and!; [done| |].
  - split; try done.
    + change s' with (with_entry i {| mEntry := p; mAction := a; mEntrySeq := mSeq (les s) |} (with_object x s)).
      rewrite put_entry_view, Hv1. unfold shows. cbn [mAction mEntry heap set_heap]. apply map_eq. intros j.
      destruct (decide (j = i)) as [->|]; [|by rewrite lookup_partial_alter_ne].
      rewrite lookup_partial_alter_eq, Hv. case_decide; [done|]. exact Hp.
    + intros q j y Hq. destruct (decide (j = i)) as [->|Hne].
      * destruct Hq as (b & Hb & _). apply He in Hb as [_ []]. done.
      * by apply (st_holds _ _ _ Hst2 q j y Hne), (st_holds _ _ _ (Hst i)).
    + intros j (e & Hj & Hn). destruct (decide (j = i)) as [->|Hne].
      * destruct (He e Hj) as [<- _]. eexists. cbn. rewrite lookup_insert_eq. by split.
      * exists e. cbn. by rewrite lookup_insert_ne.
    + by apply put_object_frame.
  - intros Hd. exists a. split_and!; try done. cbn. by rewrite lookup_insert_eq.
Qed.

Lemma entryCache_ok D ty i s (Q : option sleptr -> State -> Prop) :
  ok D s -> SHAMapNode.isZero i = false ->
  (forall s', ok D s' -> keeps s s' -> view s !! i = None -> Q None s') ->
  (forall p x s', ok D s' -> keeps s s' -> view s !! i = Some x -> holds s' p i x -> Q (Some p) s') ->
  wpe (entryCache ty i) s Q.
Proof.
  intros Hok Hz Hnone Hsome. unfold entryCache. rewrite Hz. cbn [negb]. apply wpe_bind. unfold getEntry.
  apply wpe_bind, wpe_reads. pose proof (view_lookup s i) as Hv. destruct (entries s !! i) as [e|] eqn:He.
  - destruct (ok_entry _ _ Hok _ _ He) as ((x & Hx & Hi) & Hseq & Hact). cbn in Hv. unfold shows in Hv. rewrite Hx in Hv.
    destruct (Z.eqb_spec (mEntrySeq e) (mSeq (les s))) as [Es|Es]; cbn [negb].
    + apply wpe_ret, wpe_ret. destruct (decide (mAction e = taaDELETE)); [by apply Hnone; [|apply keeps_refl|]|].
      apply (Hsome (mEntry e) x); [done|apply keeps_refl|done|]. exists (mAction e). rewrite <- Es. by destruct e.
    + apply wpe_bind. eapply deref_ok; [done|]. apply wpe_bind. unfold make_sle, wpe at 1. apply wpe_bind, wpe_modifies.
      destruct (refile_ok D i (mAction e) x s) as (Hok' & Hk & Hh); try done.
      { intros Hca Hn. rewrite <- Hx. symmetry. by apply (ok_clean _ _ Hok). }
      { intros e' [= <-]%(eq_trans (eq_sym He)). done. }
      apply wpe_ret, wpe_ret. destruct (decide (mAction e = taaDELETE)); [by apply Hnone|].
      by apply (Hsome _ x); auto.
  - apply wpe_ret, wpe_bind, wpe_reads. cbn in Hv. destruct (ledger_of s !! i) as [x|] eqn:Hl;
      [|apply wpe_ret; apply Hnone; [done|apply keeps_refl|done]].
    apply wpe_bind. unfold make_sle, wpe at 1. apply wpe_bind. unfold cache_entry. apply wpe_bind.
    pose proof (ok_ledger _ _ Hok _ _ Hl) as Hi.
    destruct (make_ok D x s Hok) as (_ & _ & Hp & _). eapply deref_ok; [exact Hp|]. apply wpe_bind, wpe_reads.
    rewrite Hi. cbn [les set_heap]. rewrite He. unfold put_entry. apply wpe_modifies.
    destruct (refile_ok D i taaCACHED x s) as (Hok' & Hk & Hh); try done.
    { rewrite Hl. by eexists. }
    { intros e' E. by rewrite He in E. }
    apply wpe_ret, (Hsome _ x); auto.
Qed.

Lemma entryCreate_ok D ty i s (Q : sleptr -> State -> Prop) :
  ok D s -> view s !! i = None ->
  (forall p s', ok D s' -> view s' = <[i := new_SLE ty i]> (view s) -> holds s' p i (new_SLE ty i) -> touched s' i ->
     steps i s s' -> Q p s') ->
  wpe (entryCreate ty i) s Q.
Proof.
  intros Hok Hv HQ. unfold entryCreate. apply wpe_bind. unfold make_sle, wpe at 1. apply wpe_bind. unfold create_entry.
  destruct (make_ok D (new_SLE ty i) s Hok) as (Hok1 & Hv1 & Hp & Hst). set (s1 := with_object (new_SLE ty i) s) in *.
  apply wpe_bind. eapply deref_ok; [exact Hp|]. apply wpe_bind, wpe_reads. cbn [mIndex new_SLE].
  change (mEntries (les s1) !! i) with (entries s !! i).
  assert (Hgo : forall b, b <> taaDELETE -> b <> taaCACHED -> action_ok b (ledger_of s !! i) ->
    wpe (put_entry i {| mEntry := length (heap s); mAction := b; mEntrySeq := mSeq (les s1) |}) s1
      (fun _ s' => wpe (mret (length (heap s))) s' Q)).
  { intros b Hbd Hbc Hb. unfold put_entry. apply wpe_modifies, wpe_ret.
    destruct (put_entry_ok D D i {| mEntry := length (heap s); mAction := b; mEntrySeq := mSeq (les s1) |} (new_SLE ty i) s1)
      as [Hok2 Hst2]; cbn; try done; [|set_solver|apply HQ; try done].
    - intros j e' Hj E. destruct (ok_entry _ _ Hok _ _ Hj) as ((y & Hy & _) & _). apply lookup_lt_Some in Hy. lia.
    - etrans; [apply (put_entry_view i _ s1)|]. rewrite Hv1. unfold shows. cbn [mAction mEntry]. by rewrite decide_False, Hp by done.
    - exists b. split_and!; try done. cbn. by rewrite lookup_insert_eq.
    - eexists. cbn. by rewrite lookup_insert_eq.
    - split; [|by apply put_object_frame]. split; try done; intros;
        [by apply (st_holds _ _ _ Hst2), (st_holds _ _ _ (Hst i))|by apply (st_touched _ _ _ Hst2), (st_touched _ _ _ (Hst i))]. }
  rewrite view_lookup in Hv. destruct (entries s !! i) as [e|] eqn:He; [|by apply Hgo].
  destruct (ok_entry _ _ Hok _ _ He) as ((x & Hx & _) & _ & Hact). cbn in Hv. unfold shows in Hv. rewrite Hx in Hv.
  case_decide as Hd; [|done]. rewrite Hd in *. by apply Hgo.
Qed.

(** The state after the entry of [i] was dropped from the table. *)
Lemma drop_entry_ok D i s :
  ok D s -> ledger_of s !! i = None ->
  let s' := set_les (with_entries (les s) (delete i (entries s))) s in
  ok D s' /\ view s' = delete i (view s) /\ steps i s s'.
Proof.
  intros [H1 H2 H3 H4] Hl s'. split_and!.
  - split; cbn; auto; [intros j e [_ ?]%lookup_delete_Some; by auto|intros j e [_ ?]%lookup_delete_Some; by auto|].
    intros j k e e' [_ ?]%lookup_delete_Some [_ ?]%lookup_delete_Some. by eauto.
  - apply map_eq. intros j. rewrite view_lookup. cbn. destruct (decide (j = i)) as [->|].
    + by rewrite !lookup_delete_eq, Hl.
    + by rewrite !lookup_delete_ne, view_lookup.
  - split; [split; try done; [intros p j x Hne (a & ? & ?)|intros j Hne (e & ? & ?)]; [exists a|exists e]; cbn; by rewrite lookup_delete_ne|].
    intros N HN Hr. split_and!; [|done|done]. intros j e. cbn. intros [_ Hj]%lookup_delete_Some. by eapply Hr.
Qed.

Lemma entryDelete_ok D p i x s (Q : unit -> State -> Prop) :
  ok D s -> holds s p i x ->
  (forall s', ok (D ∖ {[i]}) s' -> view s' = delete i (view s) -> steps i s s' -> Q tt s') ->
  wpe (entryDelete p) s Q.
Proof.
  intros Hok Hp HQ. pose proof Hp as (a & Ha & Hd & Hx). pose proof (holds_index _ _ _ _ _ Hok Hp) as Hi.
  unfold entryDelete. apply wpe_bind. eapply deref_ok; [done|]. apply wpe_bind, wpe_reads. rewrite Hi, Ha. cbn [mAction].
  destruct (ok_entry _ _ Hok _ _ Ha) as (_ & _ & Hact). cbn [mAction] in Hact.
  assert (Hgo : is_Some (ledger_of s !! i) ->
    wpe (put_entry i {| mEntry := p; mAction := taaDELETE; mEntrySeq := mSeq (les s) |}) s Q).
  { intros Hl. unfold put_entry. apply wpe_modifies.
    destruct (put_entry_ok D (D ∖ {[i]}) i {| mEntry := p; mAction := taaDELETE; mEntrySeq := mSeq (les s) |} x s)
      as [Hok' Hst]; cbn; try done; [|apply HQ; try done].
    - intros j e' Hj E. by eapply (ok_inj _ _ Hok _ _ _ _ Hj Ha).
    - by rewrite put_entry_view.
    - split; [done|]. apply put_entry_frame. intros N HN Hr _. by apply (Hr _ _ Ha). }
  destruct a; try done; [by apply Hgo..|]. apply wpe_modifies.
  destruct (drop_entry_ok D i s Hok Hact) as ([H1 H2 H3 H4] & Hv & Hst). apply HQ; [|done|done].
  split; auto. intros j e Hj Hc Hn. apply (H3 j e Hj Hc). intros HD. apply Hn. apply elem_of_difference. split; [done|].
  intros ->%elem_of_singleton. cbn in Hj. by rewrite lookup_delete_eq in Hj.
Qed.

(** ** Common sequences *)

(** What an operation that may touch the entries of [P] leaves alone. *)
Record moved (P : uint256 -> Prop) s s' : Prop := {
  mv_ledger : mLedger (les s') = mLedger (les s);
  mv_seq : mSeq (les s') = mSeq (les s);
  mv_params : mParams (les s') = mParams (les s);
  mv_holds : forall p j x, ~ P j -> holds s p j x -> holds s' p j x;
  mv_touched : forall j, ~ P j -> touched s j -> touched s' j;
  mv_frame : frame s s' }.

Lemma moved_refl P s : moved P s s.
Proof. by split. Qed.
Lemma moved_trans P s1 s2 s3 : moved P s1 s2 -> moved P s2 s3 -> moved P s1 s3.
Proof. intros [] []. split; [congruence..|by auto|by auto|by eapply frame_trans]. Qed.
Lemma moved_mono (P P' : uint256 -> Prop) s s' : (forall j, P j -> P' j) -> moved P s s' -> moved P' s s'.
Proof. intros HP []. split; auto. Qed.
Lemma steps_moved (P : uint256 -> Prop) i s s' : P i -> steps i s s' -> moved P s s'.
Proof. intros Hi [[] ]. split; try done; intros; [apply st_holds0|apply st_touched0]; try done; by intros ->. Qed.
Lemma keeps_moved P s s' : keeps s s' -> moved P s s'.
Proof. intros []. split; auto. Qed.
Lemma steps_trans i s1 s2 s3 : steps i s1 s2 -> steps i s2 s3 -> steps i s1 s3.
Proof. intros [[] ] [[] ]. split; [split; [congruence..|by auto|by auto]|by eapply frame_trans]. Qed.

Lemma insert_alter (m : gmap uint256 SLE) i f x : m !! i = Some x -> <[i := f x]> m = alter f i m.
Proof. intros Hx. apply map_eq. intros j. destruct (decide (j = i)) as [->|]; [by rewrite lookup_insert_eq, lookup_alter_eq, Hx|by rewrite lookup_insert_ne, lookup_alter_ne]. Qed.

(** A change to an entry already marked, and a change followed by the mark. *)
Lemma edit_ok D p i f x s (Q : unit -> State -> Prop) :
  ok D s -> holds s p i x -> touched s i -> mIndex (f x) = mIndex x ->
  (forall s', ok D s' -> view s' = alter f i (view s) -> holds s' p i (f x) -> touched s' i -> steps i s s' -> Q tt s') ->
  wpe (mutate p f) s Q.
Proof.
  intros Hok Hh Ht Hf HQ. eapply (mutate_ok D D); [done|done|done|done|by left|]. intros s' Hok' Hv Hh' Hs Ht'. apply HQ; auto.
  rewrite Hv. apply (insert_alter _ i f). by eapply holds_view.
Qed.

Lemma save_ok {A} D p i f x s (c : M A) (Q : A -> State -> Prop) :
  ok D s -> holds s p i x -> mIndex (f x) = mIndex x -> i ∉ D ->
  (forall s', ok D s' -> view s' = alter f i (view s) -> holds s' p i (f x) -> steps i s s' -> wpe c s' Q) ->
  wpe (_ ← mutate p f; _ ← entryModify p; c) s Q.
Proof.
  intros Hok Hh Hf HiD HQ. apply wpe_bind. eapply (mutate_ok D (D ∪ {[i]})); [done|done|done|set_solver|right; set_solver|].
  intros s1 Hok1 Hv1 Hh1 Hs1 _. apply wpe_bind. eapply entryModify_ok; [done|done|]. intros s2 Hok2 Hv2 Hh2 _ Hs2.
  apply HQ; try done.
  - eapply ok_weaken, Hok2. set_solver.
  - rewrite Hv2, Hv1. apply (insert_alter _ i f). by eapply holds_view.
  - by eapply steps_trans.
Qed.

(** Reading an entry that is there. *)
Lemma read_entry D ty i x s (Q : option sleptr -> State -> Prop) :
  ok D s -> SHAMapNode.isZero i = false -> view s !! i = Some x ->
  (forall p s', ok D s' -> keeps s s' -> holds s' p i x -> Q (Some p) s') -> wpe (entryCache ty i) s Q.
Proof.
  intros Hok Hz Hx HQ. apply (entryCache_ok D); [done|done|congruence|].
  intros p y s' Hok' Hk Hy Hh. rewrite Hx in Hy. injection Hy as <-. by apply HQ.
Qed.

(** Changing an entry and marking it, at the end of a computation. *)
Lemma save_end D p i f x s (Q : unit -> State -> Prop) :
  ok D s -> holds s p i x -> mIndex (f x) = mIndex x -> i ∉ D ->
  (forall s', ok D s' -> view s' = <[i := f x]> (view s) -> holds s' p i (f x) -> steps i s s' -> Q tt s') ->
  wpe (_ ← mutate p f; entryModify p) s Q.
Proof.
  intros Hok Hh Hf HiD HQ. apply wpe_bind. eapply (mutate_ok D (D ∪ {[i]})); [done|done|done|set_solver|right; set_solver|].
  intros s1 Hok1 Hv1 Hh1 Hs1 _. eapply entryModify_ok; [done|done|]. intros s2 Hok2 Hv2 Hh2 _ Hs2.
  apply HQ; try done.
  - eapply ok_weaken, Hok2. set_solver.
  - by rewrite Hv2, Hv1.
  - by eapply steps_trans.
Qed.

(** ** Writing back *)

Lemma write_entry_lookup D s i e m j :
  ok D s -> entries s !! i = Some e -> m !! i = ledger_of s !! i ->
  (mAction e = taaCACHED -> i ∉ D) ->
  write_entry (heap s) i e m !! j = if decide (j = i) then shows (heap s) e else m !! j.
Proof.
  intros Hok He Hm Hc. destruct (ok_entry _ _ Hok _ _ He) as ((x & Hx & Hi) & _ & Ha).
  unfold write_entry, writeBack, shows. rewrite Hx, Hi, Hm. case_decide as Hj.
  - subst j. destruct (mAction e) eqn:E; cbn in Ha; try done.
    + rewrite Hm, <- Hx. symmetry. apply (ok_clean _ _ Hok _ _ He E). by apply Hc.
    + destruct Ha as [y ->]. by rewrite lookup_insert_eq.
    + by rewrite lookup_delete_eq.
    + rewrite Ha. by rewrite lookup_insert_eq.
  - destruct (mAction e) eqn:E; cbn in Ha; try done.
    + destruct Ha as [y ->]. by rewrite lookup_insert_ne.
    + by rewrite lookup_delete_ne.
    + rewrite Ha. by rewrite lookup_insert_ne.
Qed.

(** Writing the table back makes the ledger what the table showed. *)
Lemma txnWrite_view s : ok ∅ s -> txnWrite s = view s.
Proof.
  intros Hok. unfold txnWrite.
  assert (H : forall part, part ⊆ entries s -> forall j,
    map_fold (write_entry (heap s)) (ledger_of s) part !! j = overlay (heap s) (part !! j) (ledger_of s !! j)).
  { intros part. induction part as [|i e part Hi Hfold IH] using map_first_key_ind; intros Hsub j.
    - by rewrite map_fold_empty, lookup_empty.
    - rewrite map_fold_insert_first_key by done.
      assert (He : entries s !! i = Some e) by (eapply lookup_weaken; [apply lookup_insert_eq|done]).
      assert (Hsub' : part ⊆ entries s) by (etrans; [apply insert_subseteq|]; done).
      rewrite (write_entry_lookup ∅ s i e _ j Hok He); [|by rewrite IH, Hi|by set_solver].
      case_decide as E; [subst j; by rewrite lookup_insert_eq|]. by rewrite lookup_insert_ne, IH. }
  apply map_eq. intros j. by rewrite H, view_lookup.
Qed.

(** ** A transaction *)

(** What code does with single entries, through the pointers it is given. *)
Inductive op : Type :=
| opRead (ty : LedgerEntryType) (i : uint256)
| opCreate (ty : LedgerEntryType) (i : uint256) (f : SLE -> SLE)
| opModify (ty : LedgerEntryType) (i : uint256) (f : SLE -> SLE)
| opDelete (ty : LedgerEntryType) (i : uint256)
| opBump.

Definition exec (o : op) : M (option SLE) :=
  match o with
  | opRead ty i =>
      r ← entryCache ty i;
      match r with Some p => x ← deref p; mret (Some x) | None => mret None end
  | opCreate ty i f => p ← entryCreate ty i; _ ← mutate p f; x ← deref p; mret (Some x)
  | opModify ty i f =>
      r ← entryCache ty i;
      match r with Some p => _ ← mutate p f; _ ← entryModify p; x ← deref p; mret (Some x) | None => mret None end
  | opDelete ty i =>
      r ← entryCache ty i;
      match r with Some p => _ ← entryDelete p; mret None | None => mret None end
  | opBump => _ ← modifies (fun s => set_les (bumpSeq (les s)) s); mret None
  end.

Fixpoint run_ops (ops : list op) : M (list (option SLE)) :=
  match ops with
  | [] => mret []
  | o :: ops => a ← exec o; as_ ← run_ops ops; mret (a :: as_)
  end.

(** The same on a plain map: the map afterwards and the answer. *)
Definition spec (o : op) (m : gmap uint256 SLE) : gmap uint256 SLE * option SLE :=
  match o with
  | opRead _ i => (m, m !! i)
  | opCreate ty i f => (<[i := f (new_SLE ty i)]> m, Some (f (new_SLE ty i)))
  | opModify _ i f => (alter f i m, f <$> m !! i)
  | opDelete _ i => (delete i m, None)
  | opBump => (m, None)
  end.

Fixpoint spec_run (ops : list op) (m : gmap uint256 SLE) : gmap uint256 SLE * list (option SLE) :=
  match ops with
  | [] => (m, [])
  | o :: ops => let '(m, a) := spec o m in let '(m, as_) := spec_run ops m in (m, a :: as_)
  end.

(** Indexes are not zero, changes keep the index, and only absent entries are created. *)
Definition allowed (o : op) (m : gmap uint256 SLE) : Prop :=
  match o with
  | opRead _ i | opDelete _ i => SHAMapNode.isZero i = false
  | opCreate _ i f => m !! i = None /\ forall x, mIndex (f x) = mIndex x
  | opModify _ i f => SHAMapNode.isZero i = false /\ forall x, mIndex (f x) = mIndex x
  | opBump => True
  end.

Fixpoint allowed_all (ops : list op) (m : gmap uint256 SLE) : Prop :=
  match ops with
  | [] => True
  | o :: ops => allowed o m /\ allowed_all ops (spec o m).1
  end.

(** Every entry of a ledger is filed under its index. *)
Definition ledger_ok (l : Ledger) : Prop := map_Forall (fun i x => mIndex x = i) (mAccountState l).

(** What one operation does. *)
Definition refines o s a s' : Prop :=
  ok ∅ s' /\ spec o (view s) = (view s', a) /\ mLedger (les s') = mLedger (les s) /\ frame s s'.

Lemma bump_refines s : ok ∅ s -> refines opBump s None (set_les (bumpSeq (les s)) s).
Proof.
  intros [H1 H2 H3 H4]. split_and!; try done.
  - split; try done. intros i e Hi. destruct (H2 i e Hi) as (? & ? & ?). split_and!; try done. cbn. lia.
  - intros N HN Hr. split_and!; try done. intros i e Hi. cbn. intros E. destruct (H2 i e Hi) as (_ & ? & _). lia.
Qed.

Lemma op_exec_ok o s : ok ∅ s -> allowed o (view s) -> wpe (exec o) s (refines o s).
Proof.
  intros Hok. destruct o as [ty i|ty i f|ty i f|ty i|]; cbn [allowed exec].
  - intros Hz. apply wpe_bind, (entryCache_ok ∅); [done|done| |].
    + intros s' Hok' Hk Hv. apply wpe_ret. split_and!; [done| |apply Hk|apply Hk]. cbn. by rewrite (kp_view _ _ Hk), Hv.
    + intros p x s' Hok' Hk Hv Hp. apply wpe_bind. eapply deref_ok; [by destruct Hp as (? & _ & _ & ?)|]. apply wpe_ret.
      split_and!; [done| |apply Hk|apply Hk]. cbn. by rewrite (kp_view _ _ Hk), Hv.
  - intros [Hv Hf]. apply wpe_bind, (entryCreate_ok ∅); [done|done|]. intros p s1 Hok1 Hv1 Hp Ht Hs1.
    apply wpe_bind. eapply (mutate_ok ∅ ∅); [done|done|apply Hf|done|by left|]. intros s2 Hok2 Hv2 Hp2 Hs2 _.
    apply wpe_bind. eapply deref_ok; [by destruct Hp2 as (? & _ & _ & ?)|]. apply wpe_ret. split_and!; [done| | |].
    + cbn. by rewrite Hv2, Hv1, insert_insert_eq.
    + by rewrite (st_ledger _ _ _ Hs2), (st_ledger _ _ _ Hs1).
    + eapply frame_trans; [apply Hs1|apply Hs2].
  - intros [Hz Hf]. apply wpe_bind, (entryCache_ok ∅); [done|done| |].
    + intros s' Hok' Hk Hv. apply wpe_ret. split_and!; [done| |apply Hk|apply Hk]. cbn. rewrite (kp_view _ _ Hk), Hv. cbn. f_equal.
      apply map_eq. intros j. destruct (decide (j = i)) as [->|]; [by rewrite lookup_alter_eq, Hv|by rewrite lookup_alter_ne].
    + intros p x s1 Hok1 Hk Hv Hp. apply wpe_bind. eapply (mutate_ok ∅ {[i]}); [done|done|apply Hf|done|right; set_solver|].
      intros s2 Hok2 Hv2 Hp2 Hs2 _. apply wpe_bind. eapply entryModify_ok; [done|done|]. intros s3 Hok3 Hv3 Hp3 _ Hs3.
      apply wpe_bind. eapply deref_ok; [by destruct Hp3 as (? & _ & _ & ?)|]. apply wpe_ret. split_and!.
      * eapply ok_weaken, Hok3. set_solver.
      * cbn. rewrite Hv3, Hv2, (kp_view _ _ Hk), Hv. cbn. f_equal. apply map_eq. intros j.
        destruct (decide (j = i)) as [->|]; [by rewrite lookup_alter_eq, lookup_insert_eq, Hv|by rewrite lookup_alter_ne, lookup_insert_ne].
      * by rewrite (st_ledger _ _ _ Hs3), (st_ledger _ _ _ Hs2), (kp_ledger _ _ Hk).
      * eapply frame_trans; [apply Hk|]. eapply frame_trans; [apply Hs2|apply Hs3].
  - intros Hz. apply wpe_bind, (entryCache_ok ∅); [done|done| |].
    + intros s' Hok' Hk Hv. apply wpe_ret. split_and!; [done| |apply Hk|apply Hk]. cbn. by rewrite (kp_view _ _ Hk), delete_id.
    + intros p x s1 Hok1 Hk Hv Hp. apply wpe_bind. eapply entryDelete_ok; [done|done|]. intros s2 Hok2 Hv2 Hs2.
      apply wpe_ret. split_and!; [eapply ok_weaken, Hok2; set_solver| | |].
      * cbn. by rewrite Hv2, (kp_view _ _ Hk).
      * by rewrite (st_ledger _ _ _ Hs2), (kp_ledger _ _ Hk).
      * eapply frame_trans; [apply Hk|apply Hs2].
  - intros _. apply wpe_bind, wpe_modifies, wpe_ret. by apply bump_refines.
Qed.

Lemma run_ops_ok ops : forall s, ok ∅ s -> allowed_all ops (view s) ->
  wpe (run_ops ops) s (fun as_ s' =>
    ok ∅ s' /\ spec_run ops (view s) = (view s', as_) /\ mLedger (les s') = mLedger (les s) /\ frame s s').
Proof.
  induction ops as [|o ops IH]; intros s Hok Hall; cbn [run_ops spec_run].
  { apply wpe_ret. split_and!; try done. }
  destruct Hall as [Ho Hall]. apply wpe_bind. eapply wpe_mono; [by apply op_exec_ok|].
  intros a s1 (Hok1 & Hsp & Hl1 & Hf1). rewrite Hsp in Hall |- *. cbn [fst] in Hall. apply wpe_bind.
  eapply wpe_mono; [by apply IH|]. intros as_ s2 (Hok2 & Hsp2 & Hl2 & Hf2). apply wpe_ret. rewrite Hsp2.
  split_and!; [done|done|congruence|by eapply frame_trans].
Qed.

(** The state in which a transaction starts. *)
Definition fresh (l : Ledger) (tep : Z) : State := {| heap := []; les := new_les l tep |}.

Lemma fresh_ok l tep : ledger_ok l -> ok ∅ (fresh l tep) /\ view (fresh l tep) = mAccountState l.
Proof.
  intros Hl. split.
  - split; cbn.
    + intros i x Hx. by apply Hl.
    + intros i e He. by rewrite lookup_empty in He.
    + intros i e He. by rewrite lookup_empty in He.
    + intros i j e e' He. by rewrite lookup_empty in He.
  - apply map_eq. intros i. rewrite view_lookup. cbn. by rewrite lookup_empty.
Qed.

(** ** The claims *)

(** C13: a transaction's table is a ledger it can change.  Any sequence of reads,
    creations, changes through pointers, deletions and bumps of the sequence
    number, whose indexes are not zero and which creates only absent entries, runs
    through without an exception; every answer is what a plain map with the
    ledger's entries gives; and [txnWrite] of the table it leaves turns the ledger
    into exactly the map the sequence made, whatever combination of actions each
    entry went through. *)
Theorem les_refines l tep ops :
  ledger_ok l -> allowed_all ops (mAccountState l) ->
  exists answers s, run_ops ops (fresh l tep) = (Ok answers, s) /\
    spec_run ops (mAccountState l) = (txnWrite s, answers).
Proof.
  intros Hl Ha. destruct (fresh_ok l tep Hl) as [Hok Hv]. rewrite <- Hv in Ha |- *.
  destruct (proj1 (wpe_elim _ _ _) (run_ops_ok ops _ Hok Ha)) as (as_ & s & E & Hok' & Hsp & _).
  exists as_, s. split; [done|]. by rewrite txnWrite_view.
Qed.

(** The objects a table refers to. *)
Lemma table_view_take D h l N :
  ok D {| heap := take N h; les := l |} -> table_view h l = table_view (take N h) l.
Proof.
  intros Hok. apply map_eq. intros i. pose proof (view_lookup {| heap := h; les := l |} i) as E.
  pose proof (view_lookup {| heap := take N h; les := l |} i) as E'. unfold view in E, E'. cbn [heap les] in E, E'.
  rewrite E, E'. destruct (mEntries l !! i) as [e|] eqn:He; [|done]. cbn. unfold shows. case_decide; [done|].
  destruct (ok_entry _ _ Hok _ _ He) as ((x & Hx & _) & _). cbn in Hx. rewrite Hx. by apply lookup_take_Some in Hx as [? _].
Qed.

(** A table made from [l] by raising its sequence number. *)
Definition copy_of (l l' : LES) : Prop :=
  mLedger l' = mLedger l /\ mEntries l' = mEntries l /\ mSeq l' = mSeq l + 1.

Lemma copy_ok D l l' h : copy_of l l' -> ok D {| heap := h; les := l |} ->
  ok D {| heap := h; les := l' |} /\ recent (length h) {| heap := h; les := l' |} /\ table_view h l' = table_view h l.
Proof.
  intros (El & Ee & Es) [H1 H2 H3 H4]. split_and!.
  - split; cbn in *; rewrite ?El, ?Ee; auto. intros i e Hi. destruct (H2 i e Hi) as (? & ? & ?). split_and!; try done. lia.
  - intros i e. cbn. rewrite Ee. intros Hi E. destruct (H2 i e Hi) as (_ & ? & _). cbn in *. lia.
  - unfold table_view. by rewrite El, Ee.
Qed.

(** C20: a table kept aside is a snapshot.  While a transaction goes on with a
    duplicate of the table, or with the table itself after [bumpSeq], nothing it
    does through the entry operations shows in the table that was kept: the kept
    table still shows what it showed, although the two share objects until the
    other one copies them. *)
Theorem checkpoint_isolated h l l' ops :
  ok ∅ {| heap := h; les := l |} -> l' = duplicate l \/ l' = bumpSeq l ->
  allowed_all ops (table_view h l) ->
  exists answers s, run_ops ops {| heap := h; les := l' |} = (Ok answers, s) /\
    spec_run ops (table_view h l) = (view s, answers) /\ table_view (heap s) l = table_view h l.
Proof.
  intros Hok Hl' Ha. assert (Hc : copy_of l l') by (destruct Hl' as [-> | ->]; done).
  destruct (copy_ok ∅ l l' h Hc Hok) as (Hok' & Hr & Hv). rewrite <- Hv in Ha.
  destruct (proj1 (wpe_elim _ _ _) (run_ops_ok ops {| heap := h; les := l' |} Hok' Ha)) as (as_ & s & E & Hs & Hsp & _ & Hf).
  exists as_, s. split_and!; [done|by rewrite <- Hv|].
  destruct (Hf (length h) (le_n _) Hr) as (_ & _ & Et). cbn in Et. rewrite firstn_all in Et.
  rewrite (table_view_take ∅ _ l (length h)); rewrite Et; done.
Qed.

(** *** A run of the operations *)

Definition index_of (n : Z) : uint256 := replicate 31 0 ++ [n].
Definition sample_ledger : Ledger :=
  {| mAccountState := {[ index_of 1 := setFieldU32 sfSequence 7 (new_SLE ltACCOUNT_ROOT (index_of 1)) ]};
     mBaseFee := 10; mReferenceFeeUnits := 10; mReserveBase := 1000; mReserveIncrement := 100 |}.

(** Delete, create again, modify, and create and delete a second entry. *)
Definition sample_ops : list op :=
  [ opModify ltACCOUNT_ROOT (index_of 1) (setFieldU32 sfSequence 8); opDelete ltACCOUNT_ROOT (index_of 1);
    opRead ltACCOUNT_ROOT (index_of 1); opBump; opCreate ltOFFER (index_of 1) (setFieldU32 sfSequence 9);
    opModify ltOFFER (index_of 1) (setFieldU32 sfExpiration 5); opCreate ltOFFER (index_of 2) id; opBump;
    opDelete ltOFFER (index_of 2); opRead ltOFFER (index_of 1) ].

Lemma sample_allowed : allowed_all sample_ops (mAccountState sample_ledger).
Proof. cbn [sample_ops allowed_all allowed]. split_and!; intros; by vm_compute. Defined.

Lemma sample_ok : ledger_ok sample_ledger.
Proof. apply map_Forall_singleton. by vm_compute. Defined.

Lemma les_refines_witness :
  exists answers s, run_ops sample_ops (fresh sample_ledger 0) = (Ok answers, s) /\
    spec_run sample_ops (mAccountState sample_ledger) = (txnWrite s, answers).
Proof. exact (les_refines sample_ledger 0 sample_ops sample_ok sample_allowed). Defined.

(** The effect of the run: one entry, an offer where the account was. *)
Example sample_written :
  mType <$> txnWrite (state_of (run_ops sample_ops) (fresh sample_ledger 0)) = {[ index_of 1 := ltOFFER ]}.
Proof. vm_compute. reflexivity. Qed.

Lemma checkpoint_isolated_witness :
  exists answers s, run_ops sample_ops {| heap := []; les := duplicate (new_les sample_ledger 0) |} = (Ok answers, s) /\
    spec_run sample_ops (table_view [] (new_les sample_ledger 0)) = (view s, answers) /\
    table_view (heap s) (new_les sample_ledger 0) = table_view [] (new_les sample_ledger 0).
Proof.
  apply (checkpoint_isolated [] (new_les sample_ledger 0) (duplicate (new_les sample_ledger 0)) sample_ops).
  - exact (proj1 (fresh_ok sample_ledger 0 sample_ok)).
  - by left.
  - change (table_view [] (new_les sample_ledger 0)) with (view (fresh sample_ledger 0)).
    rewrite (proj2 (fresh_ok sample_ledger 0 sample_ok)). exact sample_allowed.
Defined.

(** The other direction does not hold: what is done to the table after [duplicate]
    shows in the duplicate, because the original goes on with the shared object. *)
Example duplicate_shares :
  let s1 := state_of (entryCache ltACCOUNT_ROOT (index_of 1)) (fresh sample_ledger 0) in
  let s2 := state_of (mutate 0%nat (setFieldU32 sfSequence 99)) s1 in
  let seen s := getFieldU32 sfSequence <$> table_view (heap s) (duplicate (les s1)) !! index_of 1 in
  result_of (entryCache ltACCOUNT_ROOT (index_of 1)) (fresh sample_ledger 0) = Ok (Some 0%nat) /\
  seen s1 = Some 7 /\ seen s2 = Some 99.
Proof. vm_compute. auto. Qed.

End LedgerLaws.
