(* ===== verification/Directory.v ===== *)
(** * Directories: what the pages stand for

    [LedgerEntrySet::dirAdd], [dirDelete], [dirFirst], [dirNext], [dirCount] and
    [dirIsEmpty] keep a directory as a chain of pages in the ledger.  [dir m root
    ps] says that the entries of [m] represent the directory with the pages [ps],
    a list of page numbers with the indexes each page has.  The theorems show that
    the operations act on [contents ps], the entries of the directory with the
    number of the page each is on, and that a page number handed out by [dirAdd]
    stays good for [dirDelete] whatever happens to other entries in between. *)
From Stdlib Require Import ZArith Lia.
From S2P Require Import Prelude BaseUint Serializer STAmount STAmountMath Book SHAMapNode Effects FeeTrack LedgerEntrySet LedgerLaws.
From stdpp Require Import base numbers list gmap strings.
Import Effects LedgerEntrySet LedgerLaws.
Local Open Scope Z_scope.

Module Directory.

Implicit Types (s : State) (x : SLE) (p : sleptr) (m : gmap uint256 SLE).

Abbreviation page := (Z * list uint256)%type.

Lemma uwrap_add w a b : uwrap w (uwrap w a + b) = uwrap w (a + b).
Proof. unfold uwrap. by rewrite Zplus_mod_idemp_l. Qed.

(** ** What [dirDelete] leaves of a page *)

Lemma list_find_first {A} `{EqDecision A} (i : A) (xs : list A) :
  i ∈ xs -> exists l k, list_find (fun y => y = i) xs = Some (length l, i) /\ xs = l ++ i :: k /\ i ∉ l.
Proof.
  intros Hi. destruct (list_find_elem_of (fun y => y = i) xs i Hi eq_refl) as [[n y] Hf].
  apply list_find_Some in Hf as (Hn & -> & Hb). exists (take n xs), (drop (S n) xs). split_and!.
  - rewrite length_take_le by (apply lookup_lt_Some in Hn; lia). apply list_find_Some. split_and!; try done.
  - by rewrite take_drop_middle.
  - intros (j & Hj)%list_elem_of_lookup_1. apply lookup_take_Some in Hj as [Hj Hlt]. by eapply Hb.
Qed.

(** The stable form removes the first occurrence. *)
Fixpoint remove_first {A} `{EqDecision A} (i : A) (xs : list A) : list A :=
  match xs with
  | [] => []
  | y :: xs => if decide (y = i) then xs else y :: remove_first i xs
  end.

Lemma remove_first_app {A} `{EqDecision A} (i : A) l k : i ∉ l -> remove_first i (l ++ i :: k) = l ++ k.
Proof.
  induction l as [|y l IH]; cbn; intros Hn; [by rewrite decide_True|].
  apply not_elem_of_cons in Hn as [? ?]. rewrite decide_False, IH by done. done.
Qed.

Lemma remove_index_stable i xs : i ∈ xs -> remove_index true i xs = remove_first i xs.
Proof.
  intros Hi. destruct (list_find_first i xs Hi) as (l & k & Hf & -> & Hl). unfold remove_index.
  rewrite remove_first_app by done. rewrite Hf, delete_middle. destruct (1 <? _)%nat eqn:E; [done|].
  apply Nat.ltb_ge in E. rewrite length_app in E. cbn in E. by destruct l, k; cbn in *; try lia.
Qed.

Lemma remove_index_perm st i xs : i ∈ xs -> xs ≡ₚ i :: remove_index st i xs.
Proof.
  intros Hi. destruct (list_find_first i xs Hi) as (l & k & Hf & -> & Hl). unfold remove_index. rewrite Hf.
  destruct (1 <? _)%nat eqn:E.
  - destruct st; [rewrite delete_middle; by rewrite Permutation_middle|].
    assert (length (l ++ i :: k) - 1 = length l + length k)%nat as Hlen by (rewrite length_app; cbn; lia). rewrite Hlen.
    rewrite (insert_app_r_alt l), Nat.sub_diag by lia. cbn [insert list_insert].
    destruct k as [|z k' _] using rev_ind.
    + rewrite Nat.add_0_r, take_app_length. symmetry. by apply Permutation_cons_append.
    + assert (Hz : (l ++ i :: k' ++ [z]) !!! (length l + length (k' ++ [z]))%nat = z).
      { apply list_lookup_total_correct. rewrite app_comm_cons, app_assoc. apply list_lookup_middle.
        rewrite !length_app. cbn. lia. }
      rewrite Hz. replace (l ++ z :: k' ++ [z]) with ((l ++ z :: k') ++ [z]) by by rewrite <- app_assoc.
      rewrite take_app_length' by (rewrite !length_app; cbn; lia).
      rewrite <- Permutation_middle. f_equiv. rewrite <- Permutation_cons_append. by rewrite <- Permutation_middle, Permutation_middle.
  - apply Nat.ltb_ge in E. rewrite length_app in E. cbn in E. destruct l, k; cbn in *; try lia. done.
Qed.

(** Reading a field of an entry whose fields were set. *)
Ltac fields :=
  unfold getFieldV256, getFieldU64, setFieldV256, setFieldU64, setFieldH256, setFieldAccount, setFieldH160, setField in *;
  cbn [mFields] in *; rewrite ?lookup_insert_eq; rewrite ?lookup_insert_ne by discriminate; rewrite ?lookup_insert_eq.

(** ** The representation *)

Section Dir.
Context `{SHA : SHA512} (root : uint256).
Abbreviation idx n := (getDirNodeIndex root n).

Definition page_number (n : Z) : Prop := 0 <= n < 18446744073709551616.

(** The indexes of the pages of a directory are digests: no two pages have the
    same, and none is the index zero. *)
Definition pages_apart : Prop :=
  (forall n n', page_number n -> page_number n' -> idx n = idx n' -> n = n') /\
  (forall n, page_number n -> SHAMapNode.isZero (idx n) = false).

Hypothesis Hapart : pages_apart.

(** The number of the [k]th page, 0 past the end. *)
Definition num (ps : list page) (k : nat) : Z := default 0 (fst <$> ps !! k).

(** What the fields of the [k]th page say: its entries, the number of the next
    page, and the number of the previous one; of the last one for the root. *)
Definition prev_of (ps : list page) (k : nat) : Z :=
  match k with O => num ps (length ps - 1) | S k => num ps k end.

Definition is_page (ps : list page) (k : nat) (xs : list uint256) x : Prop :=
  getFieldV256 sfIndexes x = xs /\ getFieldU64 sfIndexNext x = num ps (S k) /\ getFieldU64 sfIndexPrevious x = prev_of ps k.

Definition unused (ps : list page) (n : Z) : Prop := forall k, (k < length ps)%nat -> num ps k <> n.

Record dir m (ps : list page) : Prop := {
  d_page : forall k n xs, ps !! k = Some (n, xs) -> exists x, m !! idx n = Some x /\ is_page ps k xs x;
  d_only : forall n, page_number n -> unused ps n -> m !! idx n = None;
  d_root : num ps 0 = 0;
  d_sorted : forall k k', (k < k' < length ps)%nat -> num ps k < num ps k';
  d_range : forall k, num ps k < 18446744073709551616;
  d_small : forall k n xs, ps !! k = Some (n, xs) -> (length xs <= DIR_NODE_MAX)%nat }.

(** Outside of the directory, [m'] is [m]. *)
Definition outside m m' : Prop := forall i, (forall n, page_number n -> i <> idx n) -> m' !! i = m !! i.

Lemma num_lookup ps k n xs : ps !! k = Some (n, xs) -> num ps k = n.
Proof. unfold num. by intros ->. Qed.

Lemma num_past ps k : (length ps <= k)%nat -> num ps k = 0.
Proof. intros Hk. unfold num. by rewrite lookup_ge_None_2. Qed.

Lemma num_set ps k n xs xs' j : ps !! k = Some (n, xs) -> num (<[k := (n, xs')]> ps) j = num ps j.
Proof.
  intros Hk. unfold num. destruct (decide (j = k)) as [->|]; [|by rewrite list_lookup_insert_ne].
  rewrite Hk, list_lookup_insert_eq; [done|]. by eapply lookup_lt_Some.
Qed.

Lemma num_app_l ps qs k : (k < length ps)%nat -> num (ps ++ qs) k = num ps k.
Proof. intros Hk. unfold num. by rewrite lookup_app_l. Qed.

Lemma num_app_r ps n xs : num (ps ++ [(n, xs)]) (length ps) = n.
Proof. unfold num. by rewrite lookup_app_r, Nat.sub_diag. Qed.

Lemma num_pos m ps k : dir m ps -> (0 < k < length ps)%nat -> 0 < num ps k.
Proof. intros Hd Hk. rewrite <- (d_root _ _ Hd). by apply (d_sorted _ _ Hd). Qed.

Lemma num_page m ps k : dir m ps -> page_number (num ps k).
Proof.
  intros Hd. split; [|by apply (d_range _ _ Hd)]. destruct (decide (k < length ps)%nat); [|rewrite num_past; lia].
  destruct k; [by rewrite (d_root _ _ Hd)|]. pose proof (num_pos m ps (S k) Hd). lia.
Qed.

Lemma num_inj m ps k k' : dir m ps -> (k < length ps)%nat -> (k' < length ps)%nat -> num ps k = num ps k' -> k = k'.
Proof.
  intros Hd Hk Hk' E. destruct (Nat.lt_trichotomy k k') as [H|[H|H]]; [|done|];
    [pose proof (d_sorted _ _ Hd k k')|pose proof (d_sorted _ _ Hd k' k)]; lia.
Qed.

Lemma idx_inj m ps k k' n n' xs xs' :
  dir m ps -> ps !! k = Some (n, xs) -> ps !! k' = Some (n', xs') -> idx n = idx n' -> k = k'.
Proof.
  intros Hd Hk Hk' E. eapply (num_inj m ps); [done|by eapply lookup_lt_Some..|].
  rewrite (num_lookup _ _ _ _ Hk), (num_lookup _ _ _ _ Hk'). apply Hapart; [| |done].
  - rewrite <- (num_lookup _ _ _ _ Hk). by eapply num_page.
  - rewrite <- (num_lookup _ _ _ _ Hk'). by eapply num_page.
Qed.

Lemma idx_num m ps k n : dir m ps -> page_number n -> idx (num ps k) = idx n -> num ps k = n.
Proof. intros Hd Hn E. apply Hapart; [by eapply num_page|done|done]. Qed.

Lemma idx_fresh m ps k n n' xs : dir m ps -> ps !! k = Some (n, xs) -> page_number n' -> unused ps n' -> idx n <> idx n'.
Proof.
  intros Hd Hk Hn' Hf. rewrite <- (num_lookup _ _ _ _ Hk). intros E%(idx_num m); [|done|done].
  apply (Hf k); [by eapply lookup_lt_Some|done].
Qed.

(** ** What the operations do to the map *)

Lemma is_page_num ps ps' k xs x :
  (forall j, num ps' j = num ps j) -> length ps' = length ps -> is_page ps k xs x -> is_page ps' k xs x.
Proof. intros Hn Hl (H1 & H2 & H3). split_and!; [done|by rewrite Hn|]. unfold prev_of in *. rewrite Hl. by destruct k; rewrite Hn. Qed.

(** The entries of page [k] change. *)
Lemma dir_set m ps k n xs xs' x :
  dir m ps -> ps !! k = Some (n, xs) -> m !! idx n = Some x -> (length xs' <= DIR_NODE_MAX)%nat ->
  dir (<[idx n := setFieldV256 sfIndexes xs' x]> m) (<[k := (n, xs')]> ps).
Proof.
  intros Hd Hk Hx Hs. pose proof (lookup_lt_Some _ _ _ Hk) as Hlt. assert (Hnum := num_set ps k n xs xs').
  assert (Hlen : length (<[k := (n, xs')]> ps) = length ps) by by rewrite length_insert. split.
  - intros j n' ys Hj. destruct (decide (j = k)) as [->|Hne].
    + rewrite list_lookup_insert_eq in Hj by done. injection Hj as <- <-. eexists. rewrite lookup_insert_eq. split; [done|].
      destruct (d_page _ _ Hd k n xs Hk) as (y & Hy & Hp). rewrite Hx in Hy. injection Hy as ->.
      apply (is_page_num ps); auto. destruct Hp as (_ & ? & ?). split_and!; by fields.
    + rewrite list_lookup_insert_ne in Hj by done. rewrite lookup_insert_ne by (intros E; apply Hne; symmetry; by eapply idx_inj).
      destruct (d_page _ _ Hd j n' ys Hj) as (y & Hy & Hp). exists y. split; [done|]. apply (is_page_num ps); auto.
  - intros n' Hn' Hf. assert (Hf' : unused ps n') by (intros j; rewrite <- Hlen, <- (Hnum j) by done; apply Hf).
    rewrite lookup_insert_ne; [by apply (d_only _ _ Hd)|]. by eapply idx_fresh.
  - rewrite Hnum by done. apply Hd.
  - intros a b. rewrite !Hnum, Hlen by done. apply Hd.
  - intros a. rewrite Hnum by done. apply Hd.
  - intros a b ys [(-> & [= <- <-] & ?)|[? ?]]%list_lookup_insert_Some; [done|by eapply (d_small _ _ Hd)].
Qed.

(** There is no directory. *)
Lemma dir_none m : (forall n, page_number n -> m !! idx n = None) -> dir m [].
Proof. intros H. split; try done; [by auto|cbn; lia]. Qed.

(** Another map with the same pages. *)
Lemma dir_frame m m' ps : dir m ps -> (forall n, page_number n -> m' !! idx n = m !! idx n) -> dir m' ps.
Proof.
  intros Hd Hm. split; [|intros n Hn Hu; rewrite Hm by done; by apply (d_only _ _ Hd)|apply Hd..].
  intros k n xs Hk. rewrite Hm; [by apply (d_page _ _ Hd)|]. rewrite <- (num_lookup _ _ _ _ Hk). by eapply num_page.
Qed.

(** The entry of the first page of a new directory. *)
Lemma dir_new m ps y i : dir m [] -> is_page [(0, [i])] 0 [i] y -> ps = [(0, [i])] -> dir (<[root := y]> m) ps.
Proof.
  intros Hd Hy ->. assert (Hr : idx 0 = root) by done. rewrite <- Hr. split; cbn; try done.
  - intros [|k] n xs Hk; [|by destruct k]. injection Hk as <- <-. exists y. by rewrite lookup_insert_eq.
  - intros n Hn Hf. rewrite lookup_insert_ne; [apply (d_only _ _ Hd); [done|intros k; cbn; lia]|]. intros E. apply (Hf 0%nat); [cbn; lia|]. by apply Hapart.
  - intros k k' Hk. lia.
  - intros [|k]; [done|]. by destruct k.
  - intros [|k] n xs Hk; [|by destruct k]. injection Hk as <- <-. cbn. unfold DIR_NODE_MAX. lia.
Qed.

(** A page is added behind the last. *)
Definition link_next (n : Z) : SLE -> SLE := setFieldU64 sfIndexNext n.
Definition link_prev (n : Z) : SLE -> SLE := setFieldU64 sfIndexPrevious n.

Definition when (b : bool) (f : SLE -> SLE) : SLE -> SLE := if b then f else id.

Lemma is_page_link ps ps' k k' xs x (b c : bool) nx pv :
  is_page ps k xs x -> num ps' (S k') = (if b then nx else num ps (S k)) ->
  prev_of ps' k' = (if c then pv else prev_of ps k) ->
  is_page ps' k' xs (when c (link_prev pv) (when b (link_next nx) x)).
Proof.
  intros (H1 & H2 & H3) Hn Hp. unfold is_page. rewrite Hn, Hp, <- H2, <- H3, <- H1.
  destruct b, c; unfold when, link_next, link_prev, id; split_and!; by fields.
Qed.

Lemma page_alter m ps k n xs f k' m' :
  dir m ps -> ps !! k = Some (n, xs) -> (k' < length ps)%nat ->
  alter f (idx (num ps k')) m' !! idx n = when (bool_decide (k = k')) f <$> m' !! idx n.
Proof.
  intros Hd Hk Hk'. unfold when. case_bool_decide as E.
  - subst k'. by rewrite (num_lookup _ _ _ _ Hk), lookup_alter_eq.
  - rewrite option_fmap_id, lookup_alter_ne; [done|]. intros Hi. apply E. symmetry.
    eapply (num_inj m ps); [done|done|by eapply lookup_lt_Some|].
    rewrite (num_lookup _ _ _ _ Hk). eapply idx_num; [done| |done]. rewrite <- (num_lookup _ _ _ _ Hk). by eapply num_page.
Qed.

Lemma page_alter_fresh m ps k n f m' : dir m ps -> page_number n -> unused ps n -> (k < length ps)%nat ->
  alter f (idx (num ps k)) m' !! idx n = m' !! idx n.
Proof. intros Hd Hn Hf Hk. rewrite lookup_alter_ne; [done|]. intros E%(idx_num m); [|done|done]. by apply (Hf k). Qed.

Lemma dir_grow m ps n y i :
  dir m ps -> (0 < length ps)%nat -> num ps (length ps - 1) = n -> n + 1 < 18446744073709551616 ->
  is_page (ps ++ [(n + 1, [i])]) (length ps) [i] y ->
  dir (<[idx (n + 1) := y]> (alter (link_prev (n + 1)) (idx (num ps 0)) (alter (link_next (n + 1)) (idx n) m))) (ps ++ [(n + 1, [i])]).
Proof.
  intros Hd Hl Hn Hr Hy. set (ps' := ps ++ [(n + 1, [i])]) in *.
  assert (Hlen : length ps' = S (length ps)) by (unfold ps'; rewrite length_app; cbn; lia).
  assert (Hold : forall k, (k < length ps)%nat -> num ps' k = num ps k) by (intros; by apply num_app_l).
  assert (Hnew : num ps' (length ps) = n + 1) by apply num_app_r.
  assert (Hbelow : forall k, (k < length ps)%nat -> num ps k <= n).
  { intros k Hk. destruct (decide (k = (length ps - 1)%nat)) as [->|]; [lia|].
    rewrite <- Hn. apply Z.lt_le_incl, (d_sorted _ _ Hd). lia. }
  assert (Hpn : page_number (n + 1)) by (pose proof (num_page m ps (length ps - 1) Hd) as []; unfold page_number; lia).
  assert (Hfresh : unused ps (n + 1)) by (intros k Hk; specialize (Hbelow k Hk); lia).
  split.
  - intros k n' xs Hk. destruct (decide (k < length ps)%nat) as [Hlt|Hge].
    + unfold ps' in Hk. rewrite lookup_app_l in Hk by done. destruct (d_page _ _ Hd k n' xs Hk) as (x & Hx & Hp).
      rewrite lookup_insert_ne by (intros E; symmetry in E; revert E; by eapply idx_fresh). fold ps'.
      rewrite (page_alter m ps k n' xs), <- Hn, (page_alter m ps k n' xs), Hx by (done || lia). cbn.
      eexists. split; [done|]. rewrite Hn. eapply is_page_link; [done| |].
      * case_bool_decide; [by replace (S k) with (length ps) by lia|]. apply Hold. lia.
      * case_bool_decide; [subst k; cbn; by replace (length ps' - 1)%nat with (length ps) by lia|]. destruct k; [done|]. cbn. apply Hold. lia.
    + unfold ps' in Hk. rewrite lookup_app_r in Hk by lia. apply list_lookup_singleton_Some in Hk as [Hk [= <- <-]].
      exists y. rewrite lookup_insert_eq. replace k with (length ps) by lia. done.
  - intros n' Hn' Hf. assert (Hf' : unused ps n') by (intros k Hk; rewrite <- Hold by done; apply Hf; lia).
    rewrite lookup_insert_ne; [|intros E%Hapart; [|done|done]; apply (Hf (length ps)); [lia|congruence]].
    rewrite (page_alter_fresh m), <- Hn, (page_alter_fresh m) by (done || lia). by apply (d_only _ _ Hd).
  - rewrite Hold by done. apply Hd.
  - intros k k' [Hk Hk']. destruct (decide (k' < length ps)%nat); [rewrite !Hold by lia; apply Hd; lia|].
    replace k' with (length ps) by lia. rewrite Hnew, Hold by lia. specialize (Hbelow k). lia.
  - intros k. destruct (Nat.lt_trichotomy k (length ps)) as [H|[->|H]]; [rewrite Hold by done; apply Hd|lia|rewrite num_past; lia].
  - intros k n' xs Hk. unfold ps' in Hk. apply lookup_app_Some in Hk as [Hk|[_ Hk]]; [by eapply (d_small _ _ Hd)|].
    apply list_lookup_singleton_Some in Hk as [_ [= <- <-]]. cbn. unfold DIR_NODE_MAX. lia.
Qed.

(** A page between the root and the last goes. *)
Lemma num_delete ps k j : num (delete k ps) j = num ps (if decide (j < k)%nat then j else S j).
Proof. unfold num. case_decide; [by rewrite list_lookup_delete_lt|by rewrite list_lookup_delete_ge by lia]. Qed.

Lemma dir_cut m ps k n xs :
  dir m ps -> ps !! k = Some (n, xs) -> (0 < k)%nat -> (S k < length ps)%nat ->
  dir (delete (idx n) (alter (link_prev (num ps (k - 1))) (idx (num ps (S k)))
                        (alter (link_next (num ps (S k))) (idx (num ps (k - 1))) m))) (delete k ps).
Proof.
  intros Hd Hk H0 Hl. assert (Hlen : length (delete k ps) = (length ps - 1)%nat) by (rewrite length_delete by (rewrite Hk; done); done).
  set (at_ j := if decide (j < k)%nat then j else S j). assert (Hnum : forall j, num (delete k ps) j = num ps (at_ j)) by apply num_delete.
  assert (Hat : forall j, at_ j <> k) by (intros j; unfold at_; case_decide; lia).
  split.
  - intros j n' ys Hj. assert (Hj' : ps !! at_ j = Some (n', ys)).
    { unfold at_. case_decide; [by rewrite list_lookup_delete_lt in Hj|by rewrite list_lookup_delete_ge in Hj by lia]. }
    destruct (d_page _ _ Hd _ _ _ Hj') as (x & Hx & Hp).
    rewrite lookup_delete_ne by (intros E; apply (Hat j); symmetry; by eapply idx_inj).
    rewrite (page_alter m ps (at_ j) n' ys), (page_alter m ps (at_ j) n' ys), Hx by (done || lia). cbn.
    eexists. split; [done|]. eapply is_page_link; [done| |].
    + rewrite Hnum. unfold at_. repeat case_decide; case_bool_decide; try lia; f_equal; lia.
    + destruct j as [|j].
      * replace (at_ 0%nat) with 0%nat by (unfold at_; by rewrite decide_True). rewrite bool_decide_false by lia. cbn.
        rewrite Hnum, Hlen. f_equal. unfold at_. case_decide; lia.
      * cbn [prev_of]. rewrite Hnum. destruct (decide (S j < k)%nat).
        -- assert (at_ (S j) = S j /\ at_ j = j) as [-> ->] by (unfold at_; split; case_decide; lia). by rewrite bool_decide_false by lia.
        -- assert (at_ (S j) = S (S j)) as -> by (unfold at_; case_decide; lia). case_bool_decide; cbn; f_equal; unfold at_; case_decide; lia.
  - intros n' Hn' Hf. destruct (decide (n' = n)) as [->|Hne]; [by rewrite lookup_delete_eq|].
    assert (Hf' : unused ps n').
    { intros j Hj E. destruct (decide (j = k)) as [->|]; [by rewrite (num_lookup _ _ _ _ Hk) in E|].
      apply (Hf (if decide (j < k)%nat then j else (j - 1)%nat)); [case_decide; lia|]. rewrite Hnum, <- E. unfold at_.
      repeat case_decide; f_equal; lia. }
    rewrite lookup_delete_ne by by eapply idx_fresh. rewrite !(page_alter_fresh m) by (done || lia). by apply (d_only _ _ Hd).
  - rewrite Hnum. unfold at_. rewrite decide_True by lia. apply Hd.
  - intros a b Hab. rewrite !Hnum. apply (d_sorted _ _ Hd). unfold at_. repeat case_decide; lia.
  - intros a. rewrite Hnum. apply Hd.
  - intros a n' ys Ha. destruct (decide (a < k)%nat); [rewrite list_lookup_delete_lt in Ha by done|rewrite list_lookup_delete_ge in Ha by lia];
      by eapply (d_small _ _ Hd).
Qed.

(** ** Contents *)

Definition contents (ps : list page) : list (Z * uint256) := ps ≫= fun '(n, xs) => (n,.) <$> xs.

Lemma contents_app ps qs : contents (ps ++ qs) = contents ps ++ contents qs.
Proof. apply bind_app. Qed.

Lemma contents_one n xs : contents [(n, xs)] = (n,.) <$> xs.
Proof. unfold contents. cbn. by rewrite app_nil_r. Qed.

Lemma contents_elem ps n i : (n, i) ∈ contents ps <-> exists k xs, ps !! k = Some (n, xs) /\ i ∈ xs.
Proof.
  unfold contents. rewrite list_elem_of_bind. split.
  - intros ([n' xs] & (y & [= -> ->] & Hi)%list_elem_of_fmap & (k & Hk)%list_elem_of_lookup_1). eauto.
  - intros (k & xs & Hk & Hi). exists (n, xs). split; [apply list_elem_of_fmap; eauto|by eapply list_elem_of_lookup_2].
Qed.

Lemma contents_set ps k n xs xs' : ps !! k = Some (n, xs) ->
  contents ps = contents (take k ps) ++ ((n,.) <$> xs) ++ contents (drop (S k) ps) /\
  contents (<[k := (n, xs')]> ps) = contents (take k ps) ++ ((n,.) <$> xs') ++ contents (drop (S k) ps).
Proof.
  intros Hk. pose proof (lookup_lt_Some _ _ _ Hk). rewrite <- (take_drop_middle ps k (n, xs) Hk) at 1.
  rewrite insert_take_drop by done. rewrite !contents_app. change ((n, xs) :: drop (S k) ps) with ([(n, xs)] ++ drop (S k) ps).
  change ((n, xs') :: drop (S k) ps) with ([(n, xs')] ++ drop (S k) ps). by rewrite !contents_app, !contents_one.
Qed.

Lemma contents_delete ps k n : ps !! k = Some (n, []) -> contents (delete k ps) = contents ps.
Proof. intros Hk. rewrite (proj1 (contents_set ps k n [] [] Hk)), delete_take_drop, contents_app. done. Qed.

(** ** Steps of the operations *)

(** Entries that the caller is in the middle of changing are none of the pages. *)
Context (D : gset uint256) (HD : forall n, page_number n -> idx n ∉ D).

(** The indexes of the pages. *)
Definition in_dir (i : uint256) : Prop := exists n, page_number n /\ i = idx n.

Lemma step_page n s s' : page_number n -> steps (idx n) s s' -> moved in_dir s s'.
Proof. intros Hn. apply steps_moved. by exists n. Qed.

Ltac page_step := solve [eassumption | eapply step_page; [|eassumption]; (eassumption || (unfold page_number in *; lia)) |
  eapply (step_page 0); [done|eassumption]].

Lemma outside_refl m : outside m m.
Proof. done. Qed.
Lemma outside_trans m1 m2 m3 : outside m1 m2 -> outside m2 m3 -> outside m1 m3.
Proof. intros H1 H2 i Hi. by rewrite (H2 i Hi), (H1 i Hi). Qed.
Lemma outside_insert m n x : page_number n -> outside m (<[idx n := x]> m).
Proof. intros Hn i Hi. rewrite lookup_insert_ne; [done|]. intros E. by apply (Hi n). Qed.
Lemma outside_delete m n : page_number n -> outside m (delete (idx n) m).
Proof. intros Hn i Hi. rewrite lookup_delete_ne; [done|]. intros E. by apply (Hi n). Qed.
Lemma outside_alter m n f : page_number n -> outside m (alter f (idx n) m).
Proof. intros Hn i Hi. rewrite lookup_alter_ne; [done|]. intros E. by apply (Hi n). Qed.

Lemma read_page s ps k n xs (Q : option sleptr -> State -> Prop) :
  ok D s -> dir (view s) ps -> ps !! k = Some (n, xs) ->
  (forall p x s', ok D s' -> keeps s s' -> view s !! idx n = Some x -> is_page ps k xs x -> holds s' p (idx n) x -> Q (Some p) s') ->
  wpe (entryCache ltDIR_NODE (idx n)) s Q.
Proof.
  intros Hok Hd Hk HQ. destruct (d_page _ _ Hd k n xs Hk) as (x & Hx & Hp).
  apply (entryCache_ok D); [done| | |].
  - apply Hapart. rewrite <- (num_lookup _ _ _ _ Hk). by eapply num_page.
  - intros s' _ _ Hv. congruence.
  - intros p y s' Hok' Hkp Hv Hh. rewrite Hx in Hv. injection Hv as <-. by eapply HQ.
Qed.

Lemma read_no_page s ps n (Q : option sleptr -> State -> Prop) :
  ok D s -> dir (view s) ps -> page_number n -> unused ps n ->
  (forall s', ok D s' -> keeps s s' -> Q None s') -> wpe (entryCache ltDIR_NODE (idx n)) s Q.
Proof.
  intros Hok Hd Hn Hf HQ. apply (entryCache_ok D); [done|by apply Hapart|by auto|].
  intros p x s' _ _ Hv. by rewrite (d_only _ _ Hd n Hn Hf) in Hv.
Qed.

(** ** Adding *)

(** The describer sets fields of its own. *)
Definition describes (f : bool -> SLE -> SLE) : Prop := forall b x,
  mIndex (f b x) = mIndex x /\ getFieldU64 sfIndexNext (f b x) = getFieldU64 sfIndexNext x /\
  getFieldU64 sfIndexPrevious (f b x) = getFieldU64 sfIndexPrevious x.

(** What adding [i] does, where [r] is the result. *)
Definition added (ps : list page) (i : uint256) s (r : TER * Z) s' : Prop :=
  exists ps', r.1 = tesSUCCESS /\ ok D s' /\ moved in_dir s s' /\ outside (view s) (view s') /\ dir (view s') ps' /\
    contents ps' = contents ps ++ [(r.2, i)] /\ num ps' (length ps' - 1) <= num ps (length ps - 1) + 1.

Section Add.
Context (fDescriber : bool -> SLE -> SLE) (Hdesc : describes fDescriber).

(** The fields of a new page. *)
Lemma new_page_fields ps k b n i pv :
  num ps (S k) = 0 -> prev_of ps k = pv ->
  forall x, x = setFieldH256 sfRootIndex root (new_SLE ltDIR_NODE n) ->
  is_page ps k [i] (setFieldV256 sfIndexes [i] (fDescriber b (if decide (pv = 0) then x else link_prev pv x))).
Proof.
  intros Hn Hp x ->. unfold is_page. rewrite Hn, Hp.
  set (x := if decide (pv = 0) then _ else _). destruct (Hdesc b x) as (_ & H1 & H2).
  split_and!; [by fields|transitivity (getFieldU64 sfIndexNext (fDescriber b x)); [by fields|]|
    transitivity (getFieldU64 sfIndexPrevious (fDescriber b x)); [by fields|]]; rewrite ?H1, ?H2; unfold x, link_prev.
  - case_decide; by fields.
  - case_decide; by fields.
Qed.

Lemma dirAdd_new s i : ok D s -> dir (view s) [] -> wpe (dirAdd root i fDescriber) s (added [] i s).
Proof.
  intros Hok Hd. unfold dirAdd. apply wpe_bind. change root with (idx 0) at 1.
  eapply read_no_page; [done|done|done|intros k; cbn; lia|]. intros s1 Hok1 Hk1. cbn beta iota.
  assert (Hd1 : dir (view s1) []) by by rewrite (kp_view _ _ Hk1).
  apply wpe_bind. apply (entryCreate_ok D); [done|apply (d_only _ _ Hd1 0); [done|intros k; cbn; lia]|].
  intros p s2 Hok2 Hv2 Hh2 Ht2 Hs2. apply wpe_bind. eapply edit_ok; [done..|]. intros s3 Hok3 Hv3 Hh3 Ht3 Hs3.
  apply wpe_bind. eapply edit_ok; [done..|apply Hdesc|]. intros s4 Hok4 Hv4 Hh4 Ht4 Hs4. unfold dir_append.
  apply wpe_bind. eapply edit_ok; [done..|]. intros s5 Hok5 Hv5 Hh5 Ht5 Hs5. apply wpe_ret.
  pose proof (holds_view _ _ _ _ Hh5) as Hx.
  assert (Hv : view s5 = <[root := setFieldV256 sfIndexes ([] ++ [i]) (fDescriber true (setFieldH256 sfRootIndex root (new_SLE ltDIR_NODE root)))]> (view s)).
  { rewrite Hv5, Hv4, Hv3, Hv2, (kp_view _ _ Hk1), !alter_insert_eq. done. }
  exists [(0, [i])]. split_and!; try done.
  - eapply moved_trans; [by apply keeps_moved|]. do 3 (eapply moved_trans; [page_step|]). page_step.
  - rewrite Hv. by apply (outside_insert _ 0).
  - rewrite Hv. eapply dir_new; [done| |done]. by apply (new_page_fields _ _ true root i 0).
Qed.

(** The pages, the last one apart. *)
Lemma last_page m ps : dir m ps -> ps <> [] -> exists qs n xs, ps = qs ++ [(n, xs)] /\
  num ps (length ps - 1) = n /\ ps !! length qs = Some (n, xs) /\ (length ps - 1)%nat = length qs.
Proof.
  intros Hd Hne. destruct ps as [|[n xs] qs _] using rev_ind; [done|]. exists qs, n, xs.
  rewrite length_app. cbn. replace (length qs + 1 - 1)%nat with (length qs) by lia. split_and!; try done.
  - apply num_app_r.
  - by rewrite lookup_app_r, Nat.sub_diag.
Qed.

(** [dirAdd] reads the root, then the last page, which may be the root. *)
Lemma read_last s ps p0 x0 n xs k :
  ok D s -> dir (view s) ps -> ps !! k = Some (n, xs) -> (k = 0%nat <-> n = 0) ->
  holds s p0 root x0 ->
  wpe (if negb (n =? 0) then o ← entryCache ltDIR_NODE (idx n); non_null o else mret p0) s (fun p s' =>
    exists x, ok D s' /\ keeps s s' /\ view s !! idx n = Some x /\ is_page ps k xs x /\ holds s' p (idx n) x).
Proof.
  intros Hok Hd Hk Hz Hh0. destruct (Z.eqb_spec n 0) as [->|Hn]; cbn [negb].
  - apply wpe_ret. destruct (d_page _ _ Hd k 0 xs Hk) as (x & Hx & Hp). exists x.
    pose proof (holds_view _ _ _ _ Hh0) as Hx0. change (idx 0) with root in *. assert (x0 = x) as -> by congruence.
    split_and!; try done.
  - apply wpe_bind. eapply read_page; [done..|]. intros p x s' Hok' Hkp Hx Hp Hh. apply wpe_ret. eauto 10.
Qed.

Lemma dirAdd_room s ps qs n xs i p0 p x0 x :
  ok D s -> dir (view s) ps -> ps = qs ++ [(n, xs)] -> (length xs < DIR_NODE_MAX)%nat ->
  holds s p0 root x0 -> holds s p (idx n) x ->
  wpe (_ ← entryModify p; _ ← dir_append p xs i; mret (tesSUCCESS, n)) s (added ps i s).
Proof.
  intros Hok Hd Hps Hlen Hh0 Hh. apply wpe_bind. eapply entryModify_ok; [done..|]. intros s1 Hok1 Hv1 Hh1 Ht1 Hs1.
  unfold dir_append. apply wpe_bind. eapply (edit_ok D); [eapply ok_weaken, Hok1; set_solver|done..|].
  intros s2 Hok2 Hv2 Hh2 Ht2 Hs2. apply wpe_ret. rewrite Hv1 in Hv2. pose proof (holds_view _ _ _ _ Hh) as Hx.
  assert (Hk : ps !! length qs = Some (n, xs)) by (subst ps; by rewrite lookup_app_r, Nat.sub_diag).
  assert (Hn : page_number n) by (rewrite <- (num_lookup _ _ _ _ Hk); by eapply num_page).
  exists (<[length qs := (n, xs ++ [i])]> ps). split_and!; try done.
  - eapply moved_trans; page_step.
  - rewrite Hv2. by apply outside_alter.
  - rewrite Hv2, <- (insert_alter _ _ _ x) by done. eapply dir_set; [done..|]. rewrite length_app. cbn. lia.
  - destruct (contents_set ps (length qs) n xs (xs ++ [i]) Hk) as [-> ->].
    rewrite drop_ge, fmap_app by (subst ps; rewrite length_app; cbn; lia). unfold contents at 2 4. cbn. by rewrite !app_nil_r, app_assoc.
  - rewrite (num_set _ _ _ _ _ _ Hk), length_insert. lia.
Qed.

(** The page behind page [n]. *)
Definition page_base (n : Z) : SLE :=
  let x := setFieldH256 sfRootIndex root (new_SLE ltDIR_NODE (idx (n + 1))) in if decide (n = 0) then x else link_prev n x.
Definition new_page (n : Z) (i : uint256) : SLE := setFieldV256 sfIndexes ([] ++ [i]) (fDescriber false (page_base n)).

Lemma fill_page s n i :
  ok D s -> page_number (n + 1) -> view s !! idx (n + 1) = None ->
  wpe (sleNode ← entryCreate ltDIR_NODE (idx (n + 1));
       _ ← mutate sleNode (setFieldH256 sfRootIndex root);
       _ ← (if negb (n + 1 =? 1) then mutate sleNode (setFieldU64 sfIndexPrevious (n + 1 - 1)) else mret tt);
       _ ← mutate sleNode (fDescriber false);
       _ ← dir_append sleNode [] i;
       mret (tesSUCCESS, n + 1)) s (fun r s' =>
    r = (tesSUCCESS, n + 1) /\ ok D s' /\ moved in_dir s s' /\ view s' = <[idx (n + 1) := new_page n i]> (view s)).
Proof.
  intros Hok Hpn1 Hnone. apply wpe_bind, (entryCreate_ok D); [done|done|]. intros q s3 Hok3 Hv3 Hh3 Ht3 Hs3.
  apply wpe_bind. eapply edit_ok; [done..|]. intros s4 Hok4 Hv4 Hh4 Ht4 Hs4. apply wpe_bind.
  apply (wpe_mono _ _ (fun _ s5 => ok D s5 /\ holds s5 q (idx (n + 1)) (page_base n) /\ touched s5 (idx (n + 1)) /\ moved in_dir s4 s5 /\
    view s5 = <[idx (n + 1) := page_base n]> (view s))).
  { unfold page_base. replace (n + 1 - 1) with n by lia. destruct (Z.eqb_spec (n + 1) 1) as [E1|E1]; cbn [negb].
    - apply wpe_ret. rewrite decide_True by lia. split_and!; try done. by rewrite Hv4, Hv3, alter_insert_eq.
    - eapply edit_ok; [done..|]. intros s5 Hok5 Hv5 Hh5 Ht5 Hs5. rewrite decide_False by lia.
      split_and!; try done; [page_step|]. by rewrite Hv5, Hv4, Hv3, !alter_insert_eq. }
  intros _ s5 (Hok5 & Hh5 & Ht5 & Hs5 & Hv5). apply wpe_bind. eapply edit_ok; [done..|apply Hdesc|].
  intros s6 Hok6 Hv6 Hh6 Ht6 Hs6. unfold dir_append. apply wpe_bind. eapply edit_ok; [done..|].
  intros s7 Hok7 Hv7 Hh7 Ht7 Hs7. apply wpe_ret. split_and!; [done|done| |by rewrite Hv7, Hv6, Hv5, !alter_insert_eq].
  do 3 (eapply moved_trans; [page_step|]). eapply moved_trans; page_step.
Qed.

Lemma next_unused m ps n : dir m ps -> num ps (length ps - 1) = n -> unused ps (n + 1).
Proof.
  intros Hd Hn k Hk E. destruct (decide (k = (length ps - 1)%nat)) as [->|]; [lia|].
  pose proof (d_sorted _ _ Hd k (length ps - 1)). lia.
Qed.

Lemma dirAdd_full s ps n i p0 p x0 x :
  ok D s -> dir (view s) ps -> ps <> [] -> num ps (length ps - 1) = n -> n + 1 < 18446744073709551616 ->
  holds s p0 root x0 -> holds s p (idx n) x ->
  wpe (_ ← mutate p (setFieldU64 sfIndexNext (n + 1)); _ ← entryModify p;
       _ ← mutate p0 (setFieldU64 sfIndexPrevious (n + 1)); _ ← entryModify p0;
       sleNode ← entryCreate ltDIR_NODE (idx (n + 1));
       _ ← mutate sleNode (setFieldH256 sfRootIndex root);
       _ ← (if negb (n + 1 =? 1) then mutate sleNode (setFieldU64 sfIndexPrevious (n + 1 - 1)) else mret tt);
       _ ← mutate sleNode (fDescriber false);
       _ ← dir_append sleNode [] i;
       mret (tesSUCCESS, n + 1)) s (added ps i s).
Proof.
  intros Hok Hd Hne Hn Hr Hh0 Hh. assert (Hl : (0 < length ps)%nat) by (destruct ps; cbn in *; [done|lia]).
  assert (Hpn : page_number n) by (rewrite <- Hn; by eapply num_page).
  assert (Hpn1 : page_number (n + 1)) by (unfold page_number in *; lia).
  eapply save_ok; [done|done|done|by apply HD|]. intros s1 Hok1 Hv1 Hh1 Hs1.
  assert (exists y0, holds s1 p0 root y0) as [y0 Hy0].
  { destruct (decide (root = idx n)) as [E|E]; [|eexists; by apply (st_holds _ _ _ Hs1)]. rewrite <- E in Hh, Hh1.
    destruct Hh as (a & Ha & _), Hh0 as (b & Hb & _). assert (p = p0) as -> by congruence. by eexists. }
  eapply save_ok; [done|done|done|by apply (HD 0)|]. intros s2 Hok2 Hv2 Hh2 Hs2. rewrite Hv1 in Hv2.
  assert (Hps' : num (ps ++ [(n + 1, [i])]) (S (length ps)) = 0 /\ prev_of (ps ++ [(n + 1, [i])]) (length ps) = n).
  { split; [apply num_past; rewrite length_app; cbn; lia|]. destruct (length ps) as [|j] eqn:Ej; [lia|].
    cbn. rewrite num_app_l by lia. by replace j with (S j - 1)%nat by lia. }
  pose proof (dir_grow (view s) ps n (new_page n i) i Hd Hl Hn Hr (new_page_fields _ _ false _ i n (proj1 Hps') (proj2 Hps') _ eq_refl)) as Hd'.
  rewrite (d_root _ _ Hd) in Hd'. change (idx 0) with root in Hd'.
  eapply wpe_mono; [apply fill_page; [done|done|]|].
  { assert (Hu : unused ps (n + 1)) by by eapply next_unused. rewrite Hv2.
    etrans; [|by apply (d_only _ _ Hd (n + 1))].
    pose proof (page_alter_fresh (view s) ps 0 (n + 1)) as H0. rewrite (d_root _ _ Hd) in H0. change (idx 0) with root in H0.
    pose proof (page_alter_fresh (view s) ps (length ps - 1) (n + 1)) as H1. rewrite Hn in H1.
    rewrite H0, H1 by (done || lia). done. }
  intros r s3 (-> & Hok3 & Hs3 & Hv3). exists (ps ++ [(n + 1, [i])]). cbn [fst snd]. split_and!; try done.
  - eapply moved_trans; [page_step|]. eapply moved_trans; page_step.
  - rewrite Hv3. eapply outside_trans; [|by apply outside_insert]. rewrite Hv2.
    eapply outside_trans; [by apply (outside_alter _ n)|by apply (outside_alter _ 0)].
  - by rewrite Hv3, Hv2.
  - by rewrite contents_app, contents_one.
  - rewrite length_app. cbn. replace (length ps + 1 - 1)%nat with (length ps) by lia. rewrite num_app_r. lia.
Qed.

Lemma dirAdd_ok s ps i :
  ok D s -> dir (view s) ps -> num ps (length ps - 1) + 1 < 18446744073709551616 ->
  wpe (dirAdd root i fDescriber) s (added ps i s).
Proof.
  intros Hok Hd Hr. destruct (decide (ps = [])) as [->|Hne]; [by apply dirAdd_new|].
  destruct (last_page _ _ Hd Hne) as (qs & n & xs & Hps & Hn & Hk & Hl). rewrite Hn in Hr.
  assert (exists xs0, ps !! 0%nat = Some (0, xs0)) as [xs0 H0].
  { destruct ps as [|[n0 xs0] ps]; [done|]. pose proof (d_root _ _ Hd) as E. cbn in E. subst n0. by eexists. }
  unfold dirAdd. apply wpe_bind. change root with (idx 0) at 1. eapply read_page; [done..|].
  intros p0 x0 s1 Hok1 Hk1 Hx0 (_ & _ & Hp0) Hh0. cbn beta iota. change (idx 0) with root in Hh0.
  apply wpe_bind. eapply holds_field; [done|]. rewrite Hp0. cbn [prev_of]. rewrite Hn.
  assert (Hd1 : dir (view s1) ps) by by rewrite (kp_view _ _ Hk1).
  apply wpe_bind. eapply wpe_mono; [eapply (read_last s1 ps p0 x0 n xs (length qs)); try done|].
  { rewrite <- Hl. split; [intros E; rewrite <- Hn, E; apply Hd|]. intros ->.
    destruct (decide (length ps - 1 = 0)%nat); [done|]. pose proof (num_pos _ _ (length ps - 1) Hd). lia. }
  intros p s2 (x & Hok2 & Hk2 & Hx & (Hxs & _) & Hh). apply wpe_bind. eapply holds_field; [done|]. rewrite Hxs.
  assert (Hd2 : dir (view s2) ps) by by rewrite (kp_view _ _ Hk2).
  pose proof (kp_holds _ _ Hk2 _ _ _ Hh0) as Hh0'. pose proof (d_small _ _ Hd _ _ _ Hk) as Hsm.
  assert (Hback : forall r s', added ps i s2 r s' -> added ps i s r s').
  { intros r s' (ps' & ? & ? & Hm & Ho & ? & ? & ?). exists ps'. split_and!; try done.
    - eapply moved_trans; [by apply keeps_moved|]. eapply moved_trans; [by apply keeps_moved|done].
    - by rewrite <- (kp_view _ _ Hk1), <- (kp_view _ _ Hk2). }
  destruct (Nat.eqb_spec DIR_NODE_MAX (length xs)) as [E|E]; cbn [negb].
  - rewrite u64_id by (pose proof (num_page _ _ (length ps - 1) Hd) as []; lia).
    destruct (Z.eqb_spec (n + 1) 0); [pose proof (num_page _ _ (length ps - 1) Hd) as []; lia|].
    eapply wpe_mono; [by eapply dirAdd_full|done].
  - eapply wpe_mono; [eapply dirAdd_room; try done; lia|done].
Qed.

End Add.

(** ** Deleting *)

(** What deleting [i] from page [n] does. *)
Definition deleted (ps : list page) (n : Z) (i : uint256) (bStable : bool) s (r : TER) s' : Prop :=
  exists ps', r = tesSUCCESS /\ ok D s' /\ moved in_dir s s' /\ outside (view s) (view s') /\ dir (view s') ps' /\
    contents ps ≡ₚ (n, i) :: contents ps' /\ (bStable = true -> contents ps' = remove_first (n, i) (contents ps)) /\
    num ps' (length ps' - 1) <= num ps (length ps - 1).

(** The same once the entry is off its page: which pages go is free. *)
Definition tidied (ps : list page) s (r : TER) s' : Prop :=
  exists ps', r = tesSUCCESS /\ ok D s' /\ moved in_dir s s' /\ outside (view s) (view s') /\ dir (view s') ps' /\
    contents ps' = contents ps /\ num ps' (length ps' - 1) <= num ps (length ps - 1).

Lemma tidied_same s ps : ok D s -> dir (view s) ps -> wpe (mret tesSUCCESS) s (tidied ps s).
Proof. intros Hok Hd. apply wpe_ret. exists ps. by split_and!. Qed.

Lemma tidied_keeps s s' ps c : keeps s s' -> wpe c s' (tidied ps s') -> wpe c s' (tidied ps s).
Proof.
  intros Hk Hc. eapply wpe_mono; [done|]. intros r s'' (ps' & ? & ? & ? & Ho & ? & ? & ?). exists ps'. split_and!; try done.
  - eapply moved_trans; [by apply keeps_moved|done].
  - by rewrite <- (kp_view _ _ Hk).
Qed.

Lemma remove_first_skip {A} `{EqDecision A} (a : A) l r : a ∉ l -> remove_first a (l ++ r) = l ++ remove_first a r.
Proof.
  induction l as [|b l IH]; cbn; intros Hn; [done|]. apply not_elem_of_cons in Hn as [? ?].
  rewrite decide_False by done. by rewrite IH.
Qed.

Lemma remove_first_fmap (n : Z) (i : uint256) xs r : i ∈ xs ->
  remove_first (n, i) (((n,.) <$> xs) ++ r) = ((n,.) <$> remove_first i xs) ++ r.
Proof.
  intros Hi. induction xs as [|x xs IH]; [by apply elem_of_nil in Hi|]. cbn. destruct (decide (x = i)) as [->|Hne].
  - by rewrite decide_True.
  - rewrite decide_False by congruence. apply elem_of_cons in Hi as [->|Hi]; [done|]. cbn. by rewrite IH.
Qed.

(** Taking the entry off its page. *)
Lemma contents_remove m ps k n xs st i :
  dir m ps -> ps !! k = Some (n, xs) -> i ∈ xs ->
  let ps' := <[k := (n, remove_index st i xs)]> ps in
  contents ps ≡ₚ (n, i) :: contents ps' /\ (st = true -> contents ps' = remove_first (n, i) (contents ps)).
Proof.
  intros Hd Hk Hi ps'. destruct (contents_set ps k n xs (remove_index st i xs) Hk) as [-> E]. fold ps' in E. rewrite E. split.
  - rewrite (remove_index_perm st i xs Hi) at 1. cbn. by rewrite <- Permutation_middle.
  - intros ->. rewrite remove_index_stable by done. rewrite remove_first_skip, remove_first_fmap; [done|done|].
    intros (j & ys & Hj & _)%contents_elem. apply lookup_take_Some in Hj as [Hj Hlt].
    assert (j = k) by (eapply idx_inj; [done|exact Hj|exact Hk|done]). lia.
Qed.

(** Pages of a directory of one or two. *)
Lemma one_page m ps : dir m ps -> ps <> [] -> num ps (length ps - 1) = 0 -> length ps = 1%nat.
Proof. intros Hd Hne E. destruct (decide (1 < length ps)%nat); [pose proof (num_pos m ps (length ps - 1) Hd); lia|]. destruct ps; cbn in *; [done|lia]. Qed.

Lemma two_pages m ps : dir m ps -> num ps (length ps - 1) <> 0 -> num ps (length ps - 1) = num ps 1 -> length ps = 2%nat.
Proof.
  intros Hd Hnz E. destruct (decide (1 < length ps)%nat) as [H|H].
  - pose proof (num_inj m ps (length ps - 1) 1 Hd). lia.
  - exfalso. apply Hnz. rewrite E. apply num_past. lia.
Qed.

Lemma dir_gone1 m ps : dir m ps -> length ps = 1%nat -> dir (delete (idx 0) m) [].
Proof.
  intros Hd Hl. apply dir_none. intros n Hn. destruct (decide (n = 0)) as [->|Hne]; [by rewrite lookup_delete_eq|].
  rewrite lookup_delete_ne by (intros E%Hapart; done). apply (d_only _ _ Hd); [done|]. intros k Hk E.
  replace k with 0%nat in E by lia. rewrite (d_root _ _ Hd) in E. congruence.
Qed.

Lemma dir_gone2 m ps : dir m ps -> length ps = 2%nat -> dir (delete (idx (num ps 1)) (delete (idx 0) m)) [].
Proof.
  intros Hd Hl. apply dir_none. intros n Hn. destruct (decide (n = num ps 1)) as [->|H1]; [by rewrite lookup_delete_eq|].
  rewrite lookup_delete_ne by (intros E%(idx_num m); done). destruct (decide (n = 0)) as [->|H0]; [by rewrite lookup_delete_eq|].
  rewrite lookup_delete_ne by (intros E%Hapart; done). apply (d_only _ _ Hd); [done|]. intros k Hk E.
  destruct k as [|[|k]]; [rewrite (d_root _ _ Hd) in E; congruence|congruence|lia].
Qed.

(** Deleting the two pages of an empty directory. *)
Lemma delete_both s ps xs0 n xs p q x y :
  ok D s -> dir (view s) ps -> ps = [(0, xs0); (n, xs)] -> xs0 = [] -> xs = [] ->
  holds s p (idx 0) x -> holds s q (idx n) y ->
  wpe (_ ← entryDelete p; _ ← entryDelete q; mret tesSUCCESS) s (tidied ps s).
Proof.
  intros Hok Hd Hps -> -> Hp Hq. assert (Hn : num ps 1 = n) by by subst ps.
  assert (Hpn : page_number n) by (rewrite <- Hn; by eapply num_page).
  assert (Hne : idx n <> idx 0).
  { intros E%Hapart; [|done|done]. pose proof (num_pos (view s) ps 1 Hd). subst ps. cbn in *. lia. }
  apply wpe_bind. eapply entryDelete_ok; [done..|]. intros s1 Hok1 Hv1 Hs1. apply wpe_bind.
  eapply entryDelete_ok; [done|by apply (st_holds _ _ _ Hs1)|]. intros s2 Hok2 Hv2 Hs2. apply wpe_ret. exists [].
  split_and!; [done|eapply ok_weaken, Hok2; set_solver|eapply moved_trans; page_step| | |by subst ps|].
  - rewrite Hv2, Hv1. eapply outside_trans; by apply outside_delete.
  - rewrite Hv2, Hv1, <- Hn. by apply dir_gone2; [|subst ps].
  - pose proof (num_page _ _ (length ps - 1) Hd) as []. cbn. done.
Qed.

Lemma emptied_root_ok keep s ps p x :
  ok D s -> dir (view s) ps -> ps !! 0%nat = Some (0, []) -> holds s p (idx 0) x ->
  wpe (emptied_root keep root p (num ps (length ps - 1)) (num ps 1)) s (tidied ps s).
Proof.
  intros Hok Hd H0 Hp. unfold emptied_root. assert (Hne : ps <> []) by by destruct ps.
  destruct (Z.eqb_spec (num ps (length ps - 1)) 0) as [E|E].
  - pose proof (one_page _ _ Hd Hne E) as Hl. apply wpe_bind. eapply entryDelete_ok; [done..|]. intros s1 Hok1 Hv1 Hs1.
    apply wpe_ret. exists []. split_and!; [done|eapply ok_weaken, Hok1; set_solver|page_step| | | |].
    + rewrite Hv1. by apply outside_delete.
    + rewrite Hv1. by eapply dir_gone1.
    + destruct ps as [|? [|]]; cbn in *; try done. by injection H0 as ->.
    + rewrite E. done.
  - destruct keep; [by apply tidied_same|].
    destruct (Z.eqb_spec (num ps (length ps - 1)) (num ps 1)) as [E1|E1]; cbn [negb]; [|by apply tidied_same].
    pose proof (two_pages _ _ Hd E E1) as Hl. destruct ps as [|[n0 xs0] [|[n xs] [|]]]; cbn in Hl; try lia. injection H0 as -> ->.
    cbn [num length Nat.sub lookup list_lookup fmap option_fmap option_map fst default] in *.
    apply wpe_bind. change (num [(0, []); (n, xs)] 1) with n.
    eapply (read_page s [(0, []); (n, xs)] 1 n xs); [done..|]. intros q y s1 Hok1 Hk1 Hy (Hxs & _) Hq.
    apply wpe_bind, wpe_ret, wpe_bind. eapply holds_field; [done|]. rewrite Hxs.
    apply (tidied_keeps s s1); [done|]. pose proof (kp_holds _ _ Hk1 _ _ _ Hp) as Hp1. rewrite <- (kp_view _ _ Hk1) in Hd.
    case_decide; [by eapply delete_both|by apply tidied_same].
Qed.

Lemma emptied_last_ok keep s ps k n p x :
  ok D s -> dir (view s) ps -> ps !! S k = Some (n, []) -> (length ps = S (S k)) -> holds s p (idx n) x ->
  wpe (emptied_last keep root p (num ps k)) s (tidied ps s).
Proof.
  intros Hok Hd Hk Hl Hp. unfold emptied_last. destruct (keep || negb (num ps k =? 0)) eqn:E; [by apply tidied_same|].
  apply orb_false_iff in E as [_ E]. apply negb_false_iff, Z.eqb_eq in E.
  destruct k as [|k]; [|pose proof (num_pos _ _ (S k) Hd); lia].
  destruct ps as [|[n0 xs0] [|[n1 xs1] [|]]]; cbn in Hl; try lia. cbn in E, Hk. subst n0. injection Hk as -> ->.
  apply wpe_bind. eapply (read_page s [(0, xs0); (n, [])] 0 0 xs0); [done..|]. intros q y s1 Hok1 Hk1 Hy (Hxs & _) Hq.
  apply wpe_bind, wpe_ret, wpe_bind. eapply holds_field; [done|]. rewrite Hxs.
  apply (tidied_keeps s s1); [done|]. pose proof (kp_holds _ _ Hk1 _ _ _ Hp) as Hp1. rewrite <- (kp_view _ _ Hk1) in Hd.
  case_decide; [by eapply delete_both|by apply tidied_same].
Qed.

Lemma emptied_middle_ok s ps k n p x :
  ok D s -> dir (view s) ps -> ps !! S k = Some (n, []) -> (S (S k) < length ps)%nat -> holds s p (idx n) x ->
  wpe (emptied_middle root p (num ps k) (num ps (S (S k)))) s (tidied ps s).
Proof.
  intros Hok Hd Hk Hl Hp. unfold emptied_middle.
  destruct (lookup_lt_is_Some_2 ps k) as [[n1 xs1] H1]; [lia|]. destruct (lookup_lt_is_Some_2 ps (S (S k))) as [[n2 xs2] H2]; [lia|].
  pose proof (dir_cut _ _ _ _ _ Hd Hk) as Hcut. cbn [Nat.sub] in Hcut. rewrite Nat.sub_0_r in Hcut.
  assert (page_number (num ps k) /\ page_number (num ps (S k)) /\ page_number (num ps (S (S k)))) as (Hpn1 & Hpn2 & Hpn3) by (split_and!; by eapply num_page).
  rewrite (num_lookup _ _ _ _ H1), (num_lookup _ _ _ _ H2), (num_lookup _ _ _ _ Hk) in *.
  apply wpe_bind. eapply read_page; [done|done|exact H1|]. intros p1 x1 s1 Hok1 Hk1 Hx1 _ Hh1.
  assert (Hd1 : dir (view s1) ps) by by rewrite (kp_view _ _ Hk1).
  apply wpe_bind. eapply read_page; [done|done|exact H2|]. intros p2 x2 s2 Hok2 Hk2 Hx2 _ Hh2.
  apply (kp_holds _ _ Hk1) in Hp. apply (kp_holds _ _ Hk2) in Hp, Hh1.
  apply (tidied_keeps s s2); [by eapply keeps_trans|].
  rewrite <- (kp_view _ _ Hk1), <- (kp_view _ _ Hk2) in Hcut.
  eapply save_ok; [done|done|done|by apply HD|]. intros s3 Hok3 Hv3 Hh3 Hm3.
  assert (forall a b na nb xa xb, ps !! a = Some (na, xa) -> ps !! b = Some (nb, xb) -> a <> b -> idx na <> idx nb) as Hij
    by (intros ? ? ? ? ? ? Ha Hb Hab E; by apply Hab, (idx_inj _ _ _ _ _ _ _ _ Hd Ha Hb)).
  apply (st_holds _ _ _ Hm3) in Hh2; [|by eapply (Hij (S (S k)) k); [..|lia]]. apply (st_holds _ _ _ Hm3) in Hp; [|by eapply (Hij (S k) k); [..|lia]].
  eapply save_ok; [done|done|done|by apply HD|]. intros s4 Hok4 Hv4 Hh4 Hm4.
  apply (st_holds _ _ _ Hm4) in Hp; [|by eapply (Hij (S k) (S (S k))); [..|lia]].
  apply wpe_bind. eapply entryDelete_ok; [done..|]. intros s5 Hok5 Hv5 Hs5. apply wpe_ret. exists (delete (S k) ps).
  split_and!; [done|eapply ok_weaken, Hok5; set_solver| | | |by eapply contents_delete|].
  - eapply moved_trans; [page_step|]. eapply moved_trans; page_step.
  - rewrite Hv5, Hv4, Hv3. eapply outside_trans; [by apply (outside_alter _ n1)|].
    eapply outside_trans; [by apply (outside_alter _ n2)|]. by apply outside_delete.
  - rewrite Hv5, Hv4, Hv3. apply Hcut; lia.
  - rewrite num_delete, length_delete by (by rewrite Hk). rewrite decide_False by lia.
    replace (S (length ps - 1 - 1)) with (length ps - 1)%nat by lia. done.
Qed.

Lemma emptied_ok keep s ps k n p x :
  ok D s -> dir (view s) ps -> ps !! k = Some (n, []) -> holds s p (idx n) x -> is_page ps k [] x ->
  wpe (uNodePrevious ← field (getFieldU64 sfIndexPrevious) p;
       uNodeNext ← field (getFieldU64 sfIndexNext) p;
       if n =? 0 then emptied_root keep root p uNodePrevious uNodeNext
       else if negb (uNodeNext =? 0) then emptied_middle root p uNodePrevious uNodeNext
       else emptied_last keep root p uNodePrevious) s (tidied ps s).
Proof.
  intros Hok Hd Hk Hp (_ & Hnx & Hpv). apply wpe_bind. eapply holds_field; [done|]. apply wpe_bind. eapply holds_field; [done|].
  rewrite Hnx, Hpv. pose proof (lookup_lt_Some _ _ _ Hk) as Hlt. rewrite <- (num_lookup _ _ _ _ Hk). destruct k as [|k].
  - rewrite (d_root _ _ Hd), Z.eqb_refl. assert (n = 0) as -> by (rewrite <- (num_lookup _ _ _ _ Hk); apply Hd).
    by eapply emptied_root_ok.
  - destruct (Z.eqb_spec (num ps (S k)) 0); [pose proof (num_pos _ _ (S k) Hd); lia|].
    destruct (decide (S (S k) < length ps)%nat) as [Hl|Hl].
    + destruct (Z.eqb_spec (num ps (S (S k))) 0); [pose proof (num_pos _ _ (S (S k)) Hd); lia|]. by eapply emptied_middle_ok.
    + rewrite (num_past ps (S (S k))) by lia. cbn [negb Z.eqb]. eapply emptied_last_ok; [done..| |done]. lia.
Qed.

Lemma dir_remove_ok keep st s ps k n xs i p x :
  ok D s -> dir (view s) ps -> ps !! k = Some (n, xs) -> i ∈ xs -> holds s p (idx n) x -> is_page ps k xs x ->
  wpe (dir_remove keep n root i st p xs) s (deleted ps n i st s).
Proof.
  intros Hok Hd Hk Hi Hp Hpg. unfold dir_remove. set (rest := remove_index st i xs). set (ps1 := <[k := (n, rest)]> ps).
  assert (Hn : page_number n) by (rewrite <- (num_lookup _ _ _ _ Hk); by eapply num_page).
  destruct (contents_remove _ _ _ _ _ st i Hd Hk Hi) as [Hperm Hst]. fold rest ps1 in Hperm, Hst.
  assert (Hlen : (length rest <= DIR_NODE_MAX)%nat).
  { pose proof (Permutation_length (remove_index_perm st i xs Hi)) as E. cbn in E. fold rest in E.
    pose proof (d_small _ _ Hd _ _ _ Hk). lia. }
  eapply save_ok; [done|done|done|by apply HD|]. intros s1 Hok1 Hv1 Hh1 Hm1. pose proof (holds_view _ _ _ _ Hp) as Hx.
  rewrite <- (insert_alter _ _ _ x) in Hv1 by done.
  assert (Hd1 : dir (view s1) ps1) by (rewrite Hv1; by eapply dir_set).
  assert (Hk1 : ps1 !! k = Some (n, rest)) by (apply list_lookup_insert_eq; by eapply lookup_lt_Some).
  assert (Hl1 : num ps1 (length ps1 - 1) = num ps (length ps - 1)) by (unfold ps1; by rewrite (num_set _ _ _ _ _ _ Hk), length_insert).
  assert (Hgo : wpe (if decide (rest = []) then
      uNodePrevious ← field (getFieldU64 sfIndexPrevious) p; uNodeNext ← field (getFieldU64 sfIndexNext) p;
      if n =? 0 then emptied_root keep root p uNodePrevious uNodeNext
      else if negb (uNodeNext =? 0) then emptied_middle root p uNodePrevious uNodeNext
      else emptied_last keep root p uNodePrevious
    else mret tesSUCCESS) s1 (tidied ps1 s1)).
  { case_decide as E; [|by apply tidied_same]. rewrite E in Hk1. eapply emptied_ok; [done..|].
    destruct (d_page _ _ Hd1 _ _ _ Hk1) as (y & Hy & Hpy). pose proof (holds_view _ _ _ _ Hh1). congruence. }
  eapply wpe_mono; [exact Hgo|]. intros r s2 (ps2 & -> & Hok2 & Hm2 & Ho2 & Hd2 & Hc2 & Hl2). exists ps2. split_and!; try done.
  - eapply moved_trans; page_step.
  - eapply outside_trans; [|done]. rewrite Hv1. by apply outside_insert.
  - by rewrite Hc2.
  - intros Es. rewrite Hc2. by apply Hst.
  - lia.
Qed.

Lemma deleted_keeps s s' ps n i st c : keeps s s' -> wpe c s' (deleted ps n i st s') -> wpe c s' (deleted ps n i st s).
Proof.
  intros Hk Hc. eapply wpe_mono; [done|]. intros r s'' (ps' & ? & ? & ? & Ho & ? & ? & ? & ?). exists ps'. split_and!; try done.
  - eapply moved_trans; [by apply keeps_moved|done].
  - by rewrite <- (kp_view _ _ Hk).
Qed.

(** The first page [dirDelete] looks at; a soft deletion goes on to the next. *)
Lemma dirDelete_first fuel keep n i st soft : exists next,
  dirDelete_from fuel keep n root i st soft =
    (o ← entryCache ltDIR_NODE (idx n);
     match o with
     | None => next
     | Some sleNode =>
         vuiIndexes ← field (getFieldV256 sfIndexes) sleNode;
         if decide (i ∈ vuiIndexes) then dir_remove keep n root i st sleNode vuiIndexes else next
     end) /\ (soft = false -> next = mret tefBAD_LEDGER).
Proof. destruct fuel; eexists; (split; [reflexivity|]); by intros ->. Qed.

(** With the page number that [dirAdd] gave, whatever the other arguments. *)
Lemma dirDelete_ok keep st soft s ps n i :
  ok D s -> dir (view s) ps -> (n, i) ∈ contents ps ->
  wpe (dirDelete keep n root i st soft) s (deleted ps n i st s).
Proof.
  intros Hok Hd (k & xs & Hk & Hi)%contents_elem. unfold dirDelete.
  destruct (dirDelete_first 21 keep n i st soft) as (next & -> & _). apply wpe_bind.
  eapply read_page; [done..|]. intros p x s1 Hok1 Hk1 Hx Hpg Hp. apply wpe_bind. eapply holds_field; [done|].
  rewrite (proj1 Hpg), decide_True by done. apply (deleted_keeps s s1); [done|].
  eapply dir_remove_ok; [done|by rewrite (kp_view _ _ Hk1)|done..].
Qed.

(** An entry that is not on its page. *)
Lemma dirDelete_absent keep st s ps n i :
  ok D s -> dir (view s) ps -> page_number n -> (n, i) ∉ contents ps ->
  wpe (dirDelete keep n root i st false) s (fun r s' => r = tefBAD_LEDGER /\ ok D s' /\ keeps s s').
Proof.
  intros Hok Hd Hn Hni. unfold dirDelete.
  destruct (dirDelete_first 21 keep n i st false) as (next & -> & Hnext). rewrite (Hnext eq_refl). apply wpe_bind.
  destruct (decide (Exists (fun pg : page => pg.1 = n) ps)) as [He|He].
  - apply Exists_exists in He as ([n' xs] & (k & Hk)%list_elem_of_lookup_1 & Hn'). cbn in Hn'. subst n'.
    eapply read_page; [done..|]. intros p x s1 Hok1 Hk1 Hx Hpg Hp. apply wpe_bind. eapply holds_field; [done|].
    rewrite (proj1 Hpg), decide_False by (intros Hi; apply Hni, contents_elem; eauto). by apply wpe_ret.
  - eapply read_no_page; [done..| |].
    + intros k Hk E. apply He, Exists_exists. destruct (lookup_lt_is_Some_2 ps k Hk) as [[n' xs] Hl].
      exists (n', xs). split; [by eapply list_elem_of_lookup_2|]. by rewrite (num_lookup _ _ _ _ Hl) in E.
    + intros s1 Hok1 Hk1. by apply wpe_ret.
Qed.

(** ** Reading *)

(** What is left of the directory at entry [u] of page [k]. *)
Definition remaining (ps : list page) (k u : nat) : list uint256 :=
  match ps !! k with Some (_, xs) => drop u xs ++ (contents (drop (S k) ps)).*2 | None => [] end.

Lemma remaining_start ps k : remaining ps k 0 = (contents (drop k ps)).*2.
Proof.
  unfold remaining. destruct (ps !! k) as [[n xs]|] eqn:Hk.
  - rewrite drop_0, (drop_S ps (n, xs) k Hk). change ((n, xs) :: drop (S k) ps) with ([(n, xs)] ++ drop (S k) ps).
    rewrite contents_app, contents_one, fmap_app, <- list_fmap_compose. f_equal. symmetry. apply list_fmap_id.
  - rewrite drop_ge by by apply lookup_ge_None_1. done.
Qed.

(** The place an iterator is at: page [k], entry [u]. *)
Definition at_place (ps : list page) s p (k u : nat) : Prop :=
  exists n xs x, ps !! k = Some (n, xs) /\ holds s p (idx n) x /\ is_page ps k xs x /\ (u <= length xs)%nat.

Lemma dirNext_ok fuel : forall s ps k u e p,
  ok D s -> dir (view s) ps -> at_place ps s p k u -> (length ps <= k + fuel)%nat ->
  wpe (dirNext fuel root p u e) s (fun '(b, p', u', e') s' => ok D s' /\ keeps s s' /\
    match remaining ps k u with
    | [] => b = false
    | e0 :: rest => b = true /\ e' = e0 /\ exists k', at_place ps s' p' k' u' /\ remaining ps k' u' = rest
    end).
Proof.
  induction fuel as [|fuel IH]; intros s ps k u e p Hok Hd (n & xs & x & Hk & Hp & Hpg & Hu) Hf.
  { apply lookup_lt_Some in Hk. lia. }
  cbn [dirNext]. apply wpe_bind. eapply holds_field; [done|]. rewrite (proj1 Hpg). destruct (xs !! u) as [e0|] eqn:He.
  - apply wpe_ret. split_and!; [done|apply keeps_refl|].
    assert (Hrem : remaining ps k u = e0 :: remaining ps k (S u)) by (unfold remaining; rewrite Hk; by rewrite (drop_S _ _ _ He)).
    rewrite Hrem. split_and!; [done|done|]. exists k. split; [|done]. exists n, xs, x. split_and!; try done.
    apply lookup_lt_Some in He. lia.
  - assert (Hrem : remaining ps k u = remaining ps (S k) 0).
    { rewrite remaining_start. unfold remaining. rewrite Hk. by rewrite drop_ge by (by apply lookup_ge_None_1). }
    rewrite Hrem. apply wpe_bind. eapply holds_field; [done|]. rewrite (proj1 (proj2 Hpg)).
    destruct (Z.eqb_spec (num ps (S k)) 0) as [E|E].
    + apply wpe_ret. split_and!; [done|apply keeps_refl|]. destruct (decide (S k < length ps)%nat) as [Hl|Hl].
      * pose proof (num_pos _ _ (S k) Hd). lia.
      * unfold remaining. by rewrite lookup_ge_None_2 by lia.
    + destruct (ps !! S k) as [[n' xs']|] eqn:Hk'; [|rewrite num_past in E; [done|by apply lookup_ge_None_1]].
      rewrite (num_lookup _ _ _ _ Hk'). apply wpe_bind. eapply read_page; [done..|]. intros q y s1 Hok1 Hk1 Hy Hpg' Hq.
      eapply wpe_mono; [apply (IH s1 ps (S k) 0%nat); [done|by rewrite (kp_view _ _ Hk1)| |lia]|].
      { exists n', xs', y. split_and!; try done. lia. }
      intros [[[b p'] u'] e'] s2 (Hok2 & Hk2 & Hr). split_and!; [done|by eapply keeps_trans|done].
Qed.

(** How clients go through a directory. *)
Fixpoint walk_from (fuel steps_left : nat) (b : bool) (p : sleptr) (u : nat) (e : uint256) : M (list uint256) :=
  match steps_left with
  | O => raise (undefined "directory walk: no end")
  | S steps_left =>
      if b then
        '(b', p', u', e') ← dirNext fuel root p u e;
        rest ← walk_from fuel steps_left b' p' u' e';
        mret (e :: rest)
      else mret []
  end.

Definition dir_walk (fuel : nat) : M (list uint256) :=
  '(b, p, u, e) ← dirFirst fuel root SHAMapNode.zero256;
  walk_from fuel fuel b p u e.

Lemma walk_from_ok fuel steps_left : forall s ps k u e p b,
  ok D s -> dir (view s) ps -> (length ps <= fuel)%nat ->
  (b = true -> at_place ps s p k u) -> (length (remaining ps k u) + 1 < steps_left + (if b then 0 else 1))%nat ->
  wpe (walk_from fuel steps_left b p u e) s (fun es s' => ok D s' /\ keeps s s' /\
    es = if b then e :: remaining ps k u else []).
Proof.
  induction steps_left as [|sl IH]; intros s ps k u e p b Hok Hd Hf Hat Hl; [destruct b; lia|]. cbn [walk_from].
  destruct b; [|apply wpe_ret; split_and!; [done|apply keeps_refl|done]]. apply wpe_bind.
  eapply wpe_mono; [apply (dirNext_ok fuel s ps k u e p); [done|done|by apply Hat|lia]|].
  intros [[[b p'] u'] e'] s1 (Hok1 & Hk1 & Hr). cbn beta iota. apply wpe_bind.
  assert (Hd1 : dir (view s1) ps) by by rewrite (kp_view _ _ Hk1).
  destruct (remaining ps k u) as [|e0 rest] eqn:Hrem.
  - subst b. eapply wpe_mono; [apply (IH s1 ps (length ps) u'); try done|].
    { unfold remaining. rewrite lookup_ge_None_2 by lia. cbn in *. lia. }
    intros es s2 (Hok2 & Hk2 & ->). apply wpe_ret. split_and!; [done|by eapply keeps_trans|done].
  - destruct Hr as (-> & -> & k' & Hat' & Hrest). eapply wpe_mono; [apply (IH s1 ps k' u'); try done; [rewrite Hrest; cbn in Hl; lia]|].
    intros es s2 (Hok2 & Hk2 & ->). apply wpe_ret. split_and!; [done|by eapply keeps_trans|by rewrite Hrest].
Qed.

Lemma dir_walk_ok fuel s ps :
  ok D s -> dir (view s) ps -> ps <> [] -> (length ps + length (contents ps) + 1 < fuel)%nat ->
  wpe (dir_walk fuel) s (fun es s' => ok D s' /\ keeps s s' /\ es = (contents ps).*2).
Proof.
  intros Hok Hd Hne Hf. unfold dir_walk, dirFirst. apply wpe_bind, wpe_bind.
  destruct (ps !! 0%nat) as [[n xs]|] eqn:H0; [|by destruct ps]. change root with (idx 0) at 1.
  assert (n = 0) as -> by (rewrite <- (num_lookup _ _ _ _ H0); apply Hd).
  eapply read_page; [done..|]. intros p x s1 Hok1 Hk1 Hx Hpg Hp. apply wpe_bind, wpe_ret.
  assert (Hd1 : dir (view s1) ps) by by rewrite (kp_view _ _ Hk1).
  eapply wpe_mono; [apply (dirNext_ok fuel s1 ps 0 0); [done|done| |lia]|].
  { exists 0, xs, x. split_and!; try done. lia. }
  intros [[[b p'] u'] e'] s2 (Hok2 & Hk2 & Hr). cbn beta iota. rewrite remaining_start, drop_0 in Hr.
  assert (Hd2 : dir (view s2) ps) by by rewrite (kp_view _ _ Hk2).
  destruct ((contents ps).*2) as [|e0 rest] eqn:Hc; assert (Hlen := f_equal length Hc); rewrite length_fmap in Hlen.
  - subst b. eapply wpe_mono; [apply (walk_from_ok fuel fuel s2 ps (length ps) u'); try done; [lia|]|].
    { unfold remaining. rewrite lookup_ge_None_2 by lia. cbn in *. lia. }
    intros es s3 (Hok3 & Hk3 & ->). split_and!; [done|do 2 (eapply keeps_trans; [done|]); done|done].
  - destruct Hr as (-> & -> & k' & Hat' & Hrest).
    eapply wpe_mono; [apply (walk_from_ok fuel fuel s2 ps k' u'); try done; [lia|rewrite Hrest; cbn in Hlen; lia]|].
    intros es s3 (Hok3 & Hk3 & ->). split_and!; [done|do 2 (eapply keeps_trans; [done|]); done|by rewrite Hrest].
Qed.

Lemma dirCount_loop_ok fuel : forall s ps k acc,
  ok D s -> dir (view s) ps -> (k < length ps)%nat -> (length ps <= k + fuel)%nat ->
  wpe (dirCount_loop fuel root (num ps k) (u32 acc)) s (fun r s' =>
    ok D s' /\ keeps s s' /\ r = (tesSUCCESS, u32 (acc + Z.of_nat (length (contents (drop k ps)))))).
Proof.
  induction fuel as [|fuel IH]; intros s ps k acc Hok Hd Hk Hf; [lia|]. cbn [dirCount_loop].
  destruct (lookup_lt_is_Some_2 ps k Hk) as [[n xs] Hl]. rewrite (num_lookup _ _ _ _ Hl). apply wpe_bind.
  eapply read_page; [done..|]. intros p x s1 Hok1 Hk1 Hx (Hxs & Hnx & _) Hp.
  apply wpe_bind. eapply holds_field; [done|]. apply wpe_bind. eapply holds_field; [done|]. rewrite Hxs, Hnx.
  assert (Hd1 : dir (view s1) ps) by by rewrite (kp_view _ _ Hk1).
  assert (Hc : Z.of_nat (length (contents (drop k ps))) = Z.of_nat (length xs) + Z.of_nat (length (contents (drop (S k) ps)))).
  { rewrite (drop_S _ _ _ Hl). change ((n, xs) :: drop (S k) ps) with ([(n, xs)] ++ drop (S k) ps).
    rewrite contents_app, contents_one, length_app, length_fmap. lia. }
  rewrite uwrap_add, Hc, Z.add_assoc. destruct (Z.eqb_spec (num ps (S k)) 0) as [E|E]; cbn [negb].
  - apply wpe_ret. split_and!; [done|done|]. rewrite drop_ge; [by rewrite Z.add_0_r|].
    destruct (decide (S k < length ps)%nat); [pose proof (num_pos _ _ (S k) Hd); lia|lia].
  - destruct (decide (S k < length ps)%nat); [|by rewrite num_past in E by lia].
    eapply wpe_mono; [apply (IH s1 ps (S k)); try done; lia|].
    intros r s2 (Hok2 & Hk2 & ->). split_and!; [done|by eapply keeps_trans|done].
Qed.

Lemma dirCount_ok fuel s ps : ok D s -> dir (view s) ps -> (length ps < fuel)%nat ->
  wpe (dirCount fuel root) s (fun r s' => ok D s' /\ keeps s s' /\ r = (tesSUCCESS, u32 (Z.of_nat (length (contents ps))))).
Proof.
  intros Hok Hd Hf. unfold dirCount. destruct ps as [|pg ps].
  - destruct fuel; [lia|]. cbn [dirCount_loop]. apply wpe_bind. eapply read_no_page; [done|done|done|intros k; cbn; lia|].
    intros s1 Hok1 Hk1. by apply wpe_ret.
  - eapply wpe_mono; [rewrite <- (d_root _ _ Hd) at 1; apply (dirCount_loop_ok fuel s (pg :: ps) 0 0); try done; cbn in *; lia|].
    cbn beta. by rewrite drop_0.
Qed.

(** [dirIsEmpty] is right when it says yes. *)
Lemma dirIsEmpty_ok s ps : ok D s -> dir (view s) ps ->
  wpe (dirIsEmpty root) s (fun b s' => ok D s' /\ keeps s s' /\ b = bool_decide (contents ps = [] /\ (length ps <= 1)%nat)).
Proof.
  intros Hok Hd. unfold dirIsEmpty. apply wpe_bind. destruct (ps !! 0%nat) as [[n xs]|] eqn:H0.
  - assert (n = 0) as -> by (rewrite <- (num_lookup _ _ _ _ H0); apply Hd).
    eapply read_page; [done..|]. intros p x s1 Hok1 Hk1 Hx (Hxs & Hnx & _) Hp. apply wpe_bind. eapply holds_field; [done|].
    apply wpe_bind. eapply holds_field; [done|]. rewrite Hxs, Hnx. apply wpe_ret. split_and!; [done|done|].
    destruct ps as [|pg ps]; [done|]. injection H0 as ->. case_decide as E.
    + destruct ps as [|[n ys] ps]; [rewrite bool_decide_true; [done|split; [by rewrite E|cbn; lia]]|].
      rewrite bool_decide_false by (cbn; lia). apply Z.eqb_neq. pose proof (num_pos _ _ 1 Hd). cbn in *. lia.
    + rewrite bool_decide_false; [done|]. intros [Hn _]. apply E. change ((0, xs) :: ps) with ([(0, xs)] ++ ps) in Hn.
      rewrite contents_app, contents_one in Hn. apply app_eq_nil in Hn as [Hn _]. by eapply fmap_nil_inv.
  - destruct ps; [|done]. eapply read_no_page; [done|done|done|intros k; cbn; lia|]. intros s1 Hok1 Hk1. apply wpe_ret.
    split_and!; [done|done|]. rewrite bool_decide_true; [done|split; [done|cbn; lia]].
Qed.

End Dir.
(** ** The claims *)

(** What clients do with a directory: entries are added, which gives a page number,
    and deleted with a page number. *)
Inductive dop : Type :=
| DAdd (i : uint256)
| DDel (n : Z) (i : uint256) (bKeepRoot bStable : bool).

Section Runs.
Context `{SHA : SHA512} (root : uint256) (fDescriber : bool -> SLE -> SLE).

Definition exec_dop (o : dop) : M (TER * Z) :=
  match o with
  | DAdd i => dirAdd root i fDescriber
  | DDel n i bKeepRoot bStable => r ← dirDelete bKeepRoot n root i bStable false; mret (r, n)
  end.

Fixpoint run_dops (ops : list dop) : M (list (TER * Z)) :=
  match ops with
  | [] => mret []
  | o :: ops => r ← exec_dop o; rs ← run_dops ops; mret (r :: rs)
  end.

(** The directory as a list of entries with the numbers they were given: an entry
    is added at the end under some number; it is removed with that number, which
    leaves the others, in order if that is asked for; anything else is an error
    that changes nothing. *)
Inductive dir_step : dop -> TER * Z -> list (Z * uint256) -> list (Z * uint256) -> Prop :=
| ds_add i n c : dir_step (DAdd i) (tesSUCCESS, n) c (c ++ [(n, i)])
| ds_del n i keep st c c' : c ≡ₚ (n, i) :: c' -> (st = true -> c' = remove_first (n, i) c) ->
    dir_step (DDel n i keep st) (tesSUCCESS, n) c c'
| ds_bad n i keep st c : (n, i) ∉ c -> dir_step (DDel n i keep st) (tefBAD_LEDGER, n) c c.

Inductive dir_steps : list dop -> list (TER * Z) -> list (Z * uint256) -> list (Z * uint256) -> Prop :=
| dss_nil c : dir_steps [] [] c c
| dss_cons o ops r rs c1 c2 c3 : dir_step o r c1 c2 -> dir_steps ops rs c2 c3 -> dir_steps (o :: ops) (r :: rs) c1 c3.

Definition dop_ok (o : dop) : Prop := match o with DAdd _ => True | DDel n _ _ _ => page_number n end.

Lemma run_dops_ok ops : pages_apart root -> describes fDescriber -> forall s ps,
  ok ∅ s -> dir root (view s) ps -> num ps (length ps - 1) + Z.of_nat (length ops) < 18446744073709551616 ->
  Forall dop_ok ops ->
  wpe (run_dops ops) s (fun rs s' => exists ps', ok ∅ s' /\ moved (in_dir root) s s' /\ outside root (view s) (view s') /\
    dir root (view s') ps' /\ dir_steps ops rs (contents ps) (contents ps')).
Proof.
  intros Hapart Hdesc. induction ops as [|o ops IH]; intros s ps Hok Hd Hn Hall; cbn [run_dops].
  { apply wpe_ret. exists ps. split_and!; try done. constructor. }
  apply Forall_cons in Hall as [Ho Hall]. cbn [length] in Hn. apply wpe_bind.
  assert (Hstep : wpe (exec_dop o) s (fun r s' => exists ps', ok ∅ s' /\ moved (in_dir root) s s' /\ outside root (view s) (view s') /\
    dir root (view s') ps' /\ dir_step o r (contents ps) (contents ps') /\ num ps' (length ps' - 1) <= num ps (length ps - 1) + 1)).
  { destruct o as [i|n i keep st]; cbn [exec_dop].
    - eapply wpe_mono; [apply (dirAdd_ok root Hapart ∅ ltac:(set_solver) fDescriber Hdesc s ps i); [done|done|lia]|].
      intros [t n] s' (ps' & E & ? & ? & ? & ? & Hc & ?). cbn in E, Hc. subst t. exists ps'. rewrite Hc.
      split_and!; try done. constructor.
    - apply wpe_bind. destruct (decide ((n, i) ∈ contents ps)) as [Hi|Hi].
      + eapply wpe_mono; [by apply (dirDelete_ok root Hapart ∅ ltac:(set_solver) keep st false s ps n i)|].
        intros r s' (ps' & -> & ? & ? & ? & ? & ? & ? & ?). apply wpe_ret. exists ps'. split_and!; try done; [by constructor|lia].
      + eapply wpe_mono; [by apply (dirDelete_absent root Hapart ∅ keep st s ps n i)|].
        intros r s' (-> & ? & Hk). apply wpe_ret. exists ps. rewrite (kp_view _ _ Hk).
        split_and!; try done; [by apply keeps_moved|by constructor|lia]. }
  eapply wpe_mono; [exact Hstep|]. intros r s1 (ps1 & Hok1 & Hm1 & Ho1 & Hd1 & Hs1 & Hn1). apply wpe_bind.
  eapply wpe_mono; [apply (IH s1 ps1); [done|done|lia|done]|]. intros rs s2 (ps2 & Hok2 & Hm2 & Ho2 & Hd2 & Hs2).
  apply wpe_ret. exists ps2. split_and!; try done; [by eapply moved_trans|by eapply outside_trans|by econstructor].
Qed.

(** C14: a directory holds what was put into it.  Take any ledger view in which the
    root represents a directory (or in which none of its pages exists), and any
    sequence of additions and of deletions by page number.  The sequence runs
    through without an exception; the directory acts as a list of entries paired
    with the page numbers [dirAdd] returned; an entry is deleted with the number it
    was given, whatever was added and deleted in between and however the pages
    were merged or dropped, and stable deletions keep the order; a deletion of an
    entry that is not under that number answers [tefBAD_LEDGER] and changes
    nothing; nothing outside of the pages changes. *)
Theorem directory_refines ops s ps :
  pages_apart root -> describes fDescriber -> ok ∅ s -> dir root (view s) ps ->
  num ps (length ps - 1) + Z.of_nat (length ops) < 18446744073709551616 -> Forall dop_ok ops ->
  exists rs s' ps', run_dops ops s = (Ok rs, s') /\ ok ∅ s' /\ dir root (view s') ps' /\
    dir_steps ops rs (contents ps) (contents ps') /\ outside root (view s) (view s').
Proof.
  intros Hap Hde Hok Hd Hn Hall.
  destruct (proj1 (wpe_elim _ _ _) (run_dops_ok ops Hap Hde s ps Hok Hd Hn Hall)) as (rs & s' & E & ps' & ? & ? & ? & ? & ?).
  exists rs, s', ps'. by split_and!.
Qed.

(** reading a directory.  With fuel for its pages and entries, going through
    it with [dirFirst] and [dirNext] gives exactly its entries in order and ends;
    [dirCount] gives their number modulo 2^32; and [dirIsEmpty] says yes only if
    there is none.  None of them changes what the table shows. *)
Theorem directory_reads fuel s ps :
  pages_apart root -> ok ∅ s -> dir root (view s) ps -> (length ps + length (contents ps) + 1 < fuel)%nat ->
  (ps <> [] -> wpe (dir_walk root fuel) s (fun es s' => es = (contents ps).*2 /\ view s' = view s)) /\
  wpe (dirCount fuel root) s (fun r s' => r = (tesSUCCESS, u32 (Z.of_nat (length (contents ps)))) /\ view s' = view s) /\
  wpe (dirIsEmpty root) s (fun b s' => (b = true -> contents ps = []) /\ view s' = view s).
Proof.
  intros Hap Hok Hd Hf. split_and!.
  - intros Hne. eapply wpe_mono; [by apply dir_walk_ok|]. intros es s' (_ & Hk & ->). by split; [|apply Hk].
  - eapply wpe_mono; [apply dirCount_ok; try done; lia|]. intros r s' (_ & Hk & ->). by split; [|apply Hk].
  - eapply wpe_mono; [by apply dirIsEmpty_ok|]. intros b s' (_ & Hk & ->). split; [|apply Hk].
    by intros [? _]%bool_decide_eq_true_1.
Qed.

End Runs.

(** The describers the code passes. *)
Lemma ownerDir_describes owner : describes (ownerDirDescriber owner).
Proof. intros b x. unfold ownerDirDescriber. split_and!; by fields. Qed.

Lemma qualityDir_describes pc pi gc gi rate : describes (qualityDirDescriber pc pi gc gi rate).
Proof. intros b x. unfold qualityDirDescriber. split_and!; by fields. Qed.

(** *** A run with a digest that keeps the end of its input *)

Definition tail_hash (b : Serializer.Blob) : uint256 := 1 :: take 31 (map u8 (drop (length b - 31) b) ++ replicate 31 0).

Lemma tail_hash_key b : SHAMapNode.is_uint256 (tail_hash b).
Proof.
  split; [unfold tail_hash; cbn [length]; rewrite length_take, length_app, length_replicate; lia|].
  constructor; [done|]. apply Forall_take, Forall_app. split; [|by apply Forall_replicate].
  apply Forall_fmap, Forall_forall. intros z _. by apply uwrap_range.
Qed.

#[local] Instance Tail : SHA512 := {| SHAMapNode.sha512half := tail_hash; SHAMapNode.sha512half_key := tail_hash_key |}.

(** The index of a page under this digest. *)
Lemma tail_index r n : length r = 32%nat -> n <> 0 ->
  getDirNodeIndex r n = 1 :: map u8 (drop 9 r) ++ map u8 (Serializer.be_split 8 n).
Proof.
  intros Hr Hn. unfold getDirNodeIndex. destruct (Z.eqb_spec n 0); [done|]. cbn [negb]. rewrite Serializer.add64_split.
  cbn [snd]. change (snd (Serializer.add16 spaceDirNode [])) with [0; 100]. unfold SHAMapNode.add256.
  change (SHAMapNode.sha512half ?b) with (tail_hash b). unfold tail_hash. f_equal.
  pose proof (Serializer.length_be_split 8 n) as Hb. rewrite <- app_assoc.
  assert ((length ([0; 100]%Z ++ r ++ Serializer.be_split 8 n) - 31)%nat = 11%nat) as -> by (rewrite !length_app; cbn [length]; lia).
  rewrite drop_app_ge by (cbn; lia). cbn [length]. change (11 - 2)%nat with 9%nat. rewrite drop_app_le by lia. rewrite map_app.
  apply take_app_length'. rewrite length_app, !length_map, length_drop. lia.
Qed.

Lemma be_split_map n : map u8 (Serializer.be_split 8 n) = Serializer.be_split 8 n.
Proof. pose proof (Serializer.be_split_u8 8 n) as H. induction H as [|b bs Hb _ IH]; [done|]. cbn. rewrite IH. f_equal. by apply uwrap_id. Qed.

Lemma tail_apart r : length r = 32%nat -> take 24 r <> 1 :: map u8 (drop 9 r) -> SHAMapNode.isZero r = false -> pages_apart r.
Proof.
  intros Hr Hne Hz.
  assert (Hn0 : forall n, n <> 0 -> getDirNodeIndex r n <> r).
  { intros n Hn E. apply Hne. rewrite tail_index in E by done. apply (f_equal (take 24)) in E. rewrite <- E.
    cbn [take]. f_equal. apply take_app_length'. rewrite length_map, length_drop. lia. }
  split.
  - intros n n' Hn Hn' E. destruct (decide (n = 0)) as [->|Hnz], (decide (n' = 0)) as [->|Hnz']; [done| | |].
    + symmetry in E. by apply Hn0 in E.
    + by apply Hn0 in E.
    + rewrite !tail_index, !be_split_map in E by done. apply (f_equal (drop 1)), (app_inv_head (map u8 (drop 9 r))) in E.
      apply (f_equal (be_val 256)) in E. rewrite !Serializer.be_val_split in E. by rewrite !Z.mod_small in E by done.
  - intros n Hn. destruct (decide (n = 0)) as [->|Hnz]; [done|]. by rewrite tail_index.
Qed.

Definition sample_root : uint256 := index_of 5.

Lemma sample_apart : pages_apart sample_root.
Proof. by apply tail_apart. Qed.

Definition sample_owner : bool -> SLE -> SLE := ownerDirDescriber STAmount.u160_one.
Definition sample_state : State := fresh sample_ledger 0.

Lemma sample_dir : ok ∅ sample_state /\ dir sample_root (view sample_state) [].
Proof.
  destruct (fresh_ok sample_ledger 0 sample_ok) as [Hok Hv]. split; [exact Hok|]. apply dir_none. intros n Hn.
  unfold sample_state. rewrite Hv. apply lookup_singleton_ne. destruct (decide (n = 0)) as [->|Hz]; [by vm_compute|].
  rewrite tail_index by done. discriminate.
Qed.

(** Forty entries over two pages; some go again, one twice. *)
Definition sample_dops : list dop :=
  (DAdd ∘ index_of <$> seqZ 100 40) ++
  [DDel 0 (index_of 100) false true; DDel 1 (index_of 132) false false; DDel 0 (index_of 100) false true].

Lemma sample_dops_ok : Forall dop_ok sample_dops.
Proof. repeat constructor; by vm_compute. Qed.

Lemma directory_refines_witness :
  exists rs s' ps', run_dops sample_root sample_owner sample_dops sample_state = (Ok rs, s') /\ ok ∅ s' /\
    dir sample_root (view s') ps' /\ dir_steps sample_dops rs [] (contents ps') /\
    outside sample_root (view sample_state) (view s').
Proof.
  apply (directory_refines sample_root sample_owner sample_dops sample_state []).
  - exact sample_apart.
  - apply ownerDir_describes.
  - apply sample_dir.
  - apply sample_dir.
  - by vm_compute.
  - exact sample_dops_ok.
Defined.

(** Reading the directory that this run makes. *)
Example sample_walk :
  let s := state_of (run_dops sample_root sample_owner sample_dops) sample_state in
  result_of (dir_walk sample_root 50) s =
    Ok (index_of <$> (seqZ 101 31 ++ [139] ++ seqZ 133 6)) /\
  result_of (dirCount 50 sample_root) s = Ok (tesSUCCESS, 38).
Proof. vm_compute. auto. Qed.

(** A ledger that has a directory with one entry. *)
Definition one_entry : SLE := setFieldV256 sfIndexes [index_of 7] (new_SLE ltDIR_NODE sample_root).
Definition dir_ledger : Ledger :=
  {| mAccountState := <[sample_root := one_entry]> ∅; mBaseFee := 10; mReferenceFeeUnits := 10; mReserveBase := 1000;
     mReserveIncrement := 100 |}.

Lemma one_entry_dir : ok ∅ (fresh dir_ledger 0) /\ dir sample_root (view (fresh dir_ledger 0)) [(0, [index_of 7])].
Proof.
  assert (Hl : ledger_ok dir_ledger) by by apply map_Forall_insert_2; [|apply map_Forall_empty].
  destruct (fresh_ok dir_ledger 0 Hl) as [Hok ->]. split; [exact Hok|]. unfold dir_ledger, mAccountState.
  eapply dir_new; [exact sample_apart|by apply dir_none| |done]. split_and!; by vm_compute.
Qed.

Lemma directory_reads_witness :
  wpe (dir_walk sample_root 4) (fresh dir_ledger 0) (fun es s' => es = [index_of 7] /\ view s' = view (fresh dir_ledger 0)).
Proof.
  apply (directory_reads sample_root 4 (fresh dir_ledger 0) [(0, [index_of 7])]).
  - exact sample_apart.
  - apply one_entry_dir.
  - apply one_entry_dir.
  - cbn. lia.
  - done.
Defined.

(** The first page is emptied, then the last, then the one between: the first and
    the last stay, both empty, and [dirIsEmpty] takes the second page to have an
    entry. *)
Definition emptied_dops : list dop :=
  (DAdd ∘ index_of <$> seqZ 100 65) ++ ((fun i => DDel 0 (index_of i) false true) <$> seqZ 100 32) ++
  [DDel 2 (index_of 164) false true] ++ ((fun i => DDel 1 (index_of i) false true) <$> seqZ 132 32).

Example empty_but_not_empty :
  let s := state_of (run_dops sample_root sample_owner emptied_dops) sample_state in
  result_of (dirCount 50 sample_root) s = Ok (tesSUCCESS, 0) /\ result_of (dir_walk sample_root 50) s = Ok [] /\
  result_of (dirIsEmpty sample_root) s = Ok false.
Proof. vm_compute. auto. Qed.

End Directory.
