(* ===== verification/LedgerNext.v ===== *)
(** * Going through a ledger in order

    [Ledger::getNextLedgerIndex] (on top of [SHAMap::peekNextItem]) and
    [LedgerEntrySet::getNextLedgerIndex], which merges the ledger underneath with
    the entries of the table.  The theorem: the table's version gives the least
    index above a given one among the entries the transaction sees. *)
From Stdlib Require Import ZArith Lia.
From S2P Require Import Prelude BaseUint SHAMapNode Effects LedgerEntrySet LedgerLaws.
From stdpp Require Import base numbers list gmap strings.
Import Effects LedgerEntrySet LedgerLaws.
Local Open Scope Z_scope.

Module LedgerNext.

(** [Ledger::getNextLedgerIndex]: the least index above, zero if there is none. *)
Definition least (ks : list uint256) : uint256 :=
  match ks with
  | [] => SHAMapNode.zero256
  | i :: ks => fold_left (fun a b => if SHAMapNode.key_ltb b a then b else a) ks i
  end.

Definition ledger_next (m : gmap uint256 SLE) (uHash : uint256) : uint256 :=
  least (filter (fun i => SHAMapNode.key_ltb uHash i = true) (map fst (map_to_list m))).

Fixpoint skip_deleted (fuel : nat) (l : LES) (ledgerNext : uint256) : result uint256 :=
  match fuel with
  | O => Throw (undefined "getNextLedgerIndex: no end")
  | S fuel =>
      let ledgerNext := ledger_next (mAccountState (mLedger l)) ledgerNext in
      match mEntries l !! ledgerNext with
      | Some e => if decide (mAction e = taaDELETE) then skip_deleted fuel l ledgerNext else Ok ledgerNext
      | None => Ok ledgerNext
      end
  end.

(** [LedgerEntrySet::getNextLedgerIndex (uHash)]. *)
Definition getNextLedgerIndex (fuel : nat) (l : LES) (uHash : uint256) : result uint256 :=
  ledgerNext ← skip_deleted fuel l uHash;
  let live := filter (fun '(i, e) => SHAMapNode.key_ltb uHash i = true /\ mAction e <> taaDELETE) (map_to_list (mEntries l)) in
  mret match map fst live with
       | [] => ledgerNext
       | ks => let first := least ks in
               if negb (SHAMapNode.isZero ledgerNext) && SHAMapNode.key_ltb ledgerNext first then ledgerNext else first
       end.

(** [LedgerEntrySet::getNextLedgerIndex (uHash, uEnd)]. *)
Definition getNextLedgerIndex_to (fuel : nat) (l : LES) (uHash uEnd : uint256) : result uint256 :=
  next ← getNextLedgerIndex fuel l uHash;
  mret (if SHAMapNode.key_ltb uEnd next then SHAMapNode.zero256 else next).

(** ** Order *)

Abbreviation key := SHAMapNode.is_uint256.

Lemma ltb_val a b : key a -> key b -> SHAMapNode.key_ltb a b = (be_val 256 a <? be_val 256 b).
Proof.
  intros [La Ha] [Lb Hb]. unfold SHAMapNode.key_ltb.
  pose proof (BaseUint.mismatch_spec 256 a b ltac:(lia) ltac:(lia) Ha Hb) as M.
  destruct (BaseUint.mismatch a b) as [[x y]|]; [|subst b; symmetry; by apply Z.ltb_irrefl].
  destruct M as [[H1 H2]|[H1 H2]].
  - rewrite (proj2 (Z.ltb_lt x y)), (proj2 (Z.ltb_lt (be_val 256 a) _)) by lia. done.
  - rewrite (proj2 (Z.ltb_ge x y)), (proj2 (Z.ltb_ge (be_val 256 a) _)) by lia. done.
Qed.

Abbreviation below a b := (SHAMapNode.key_ltb a b = true).

Lemma below_val a b : key a -> key b -> below a b <-> be_val 256 a < be_val 256 b.
Proof. intros Ha Hb. rewrite ltb_val by done. apply Z.ltb_lt. Qed.

Lemma below_trans a b c : key a -> key b -> key c -> below a b -> below b c -> below a c.
Proof. intros Ha Hb Hc. rewrite !below_val by done. lia. Qed.

Lemma zero_key : key SHAMapNode.zero256.
Proof. by_decide. Qed.

Lemma not_below_zero a : key a -> ~ below a SHAMapNode.zero256.
Proof.
  intros Ha. rewrite below_val by (done || apply zero_key). change (be_val 256 SHAMapNode.zero256) with 0.
  pose proof (be_val_range 256 a ltac:(lia) (proj2 Ha)). lia.
Qed.

(** ** The least index above another *)

(** [r] is the least index above [h] with [P], or zero if there is none. *)
Definition next_in (P : uint256 -> Prop) (h r : uint256) : Prop :=
  (r = SHAMapNode.zero256 /\ forall k, P k -> ~ below h k) \/
  (P r /\ below h r /\ forall k, P k -> below h k -> ~ below k r).

Lemma least_spec i ks : Forall key (i :: ks) -> least (i :: ks) ∈ i :: ks /\ forall k, k ∈ i :: ks -> ~ below k (least (i :: ks)).
Proof.
  cbn [least]. revert i. induction ks as [|j ks IH]; intros i Hall; cbn [fold_left].
  - split; [set_solver|]. intros k Hk%list_elem_of_singleton. subst k. inversion Hall; subst. rewrite below_val by done. lia.
  - pose proof Hall as [Hi [Hj Hks]%Forall_cons]%Forall_cons.
    destruct (IH (if SHAMapNode.key_ltb j i then j else i)) as [H1 H2].
    { constructor; [by destruct (SHAMapNode.key_ltb j i)|done]. }
    destruct (SHAMapNode.key_ltb j i) eqn:E; (split; [set_solver|]); intros k Hk; set (r := fold_left _ _ _) in *.
    + destruct (decide (k = i)) as [->|]; [|apply H2; set_solver]. assert (Hr : key r) by (rewrite Forall_forall in Hall; apply Hall; set_solver).
      specialize (H2 j ltac:(set_solver)). rewrite below_val in H2, E |- * by done. lia.
    + destruct (decide (k = j)) as [->|]; [|apply H2; set_solver]. assert (Hr : key r) by (rewrite Forall_forall in Hall; apply Hall; set_solver).
      specialize (H2 i ltac:(set_solver)). rewrite below_val in H2 |- * by done. rewrite ltb_val in E by done. apply Z.ltb_ge in E. lia.
Qed.

Lemma least_next (P : uint256 -> Prop) h ks :
  Forall key ks -> (forall k, k ∈ ks <-> P k /\ below h k) -> next_in P h (least ks).
Proof.
  intros Hall Hks. destruct ks as [|i ks].
  - left. split; [done|]. intros k Hk Hb. by apply (elem_of_nil k), Hks.
  - right. destruct (least_spec i ks Hall) as [H1 H2]. apply Hks in H1 as [? ?]. split_and!; try done.
    intros k Hk Hb. apply H2, Hks. done.
Qed.

Lemma next_unique P h r r' : (forall k, P k -> key k) -> key h -> next_in P h r -> next_in P h r' -> r = r'.
Proof.
  intros HP Hh [[-> H1]|(H1 & H2 & H3)] [[-> H1']|(H1' & H2' & H3')]; [done|by apply H1 in H2'|by apply H1' in H2|].
  specialize (H3 r' H1' H2'). specialize (H3' r H1 H2). apply HP in H1, H1'. rewrite below_val in H3, H3' by done.
  apply (be_val_inj 256); [lia|by rewrite (proj1 H1), (proj1 H1')|apply H1|apply H1'|lia].
Qed.

(** *** The ledger *)

Definition keys_of (m : gmap uint256 SLE) : list uint256 := map fst (map_to_list m).

Lemma keys_of_elem m k : k ∈ keys_of m <-> is_Some (m !! k).
Proof.
  unfold keys_of. rewrite list_elem_of_fmap. split.
  - intros ([k' x] & -> & Hx%elem_of_map_to_list). by exists x.
  - intros [x Hx]. exists (k, x). split; [done|]. by apply elem_of_map_to_list.
Qed.

Lemma ledger_next_spec m h : (forall k, is_Some (m !! k) -> key k) -> next_in (fun k => is_Some (m !! k)) h (ledger_next m h).
Proof.
  intros Hk. unfold ledger_next. fold (keys_of m). apply least_next.
  - apply Forall_forall. intros k [_ Hin%keys_of_elem]%list_elem_of_filter. by apply Hk.
  - intros k. rewrite list_elem_of_filter, keys_of_elem. tauto.
Qed.

(** *** The table *)

Section Table.
Context (s : State) (Hok : ok ∅ s).
Context (Hkeys : forall k, is_Some (ledger_of s !! k) \/ is_Some (entries s !! k) -> key k).
Context (Hzero : ledger_of s !! SHAMapNode.zero256 = None).

Definition deleted_in k : Prop := exists e, entries s !! k = Some e /\ mAction e = taaDELETE.
Definition live_in k : Prop := exists e, entries s !! k = Some e /\ mAction e <> taaDELETE.

Lemma view_cases k : is_Some (view s !! k) <-> (is_Some (ledger_of s !! k) /\ ~ deleted_in k) \/ live_in k.
Proof.
  rewrite view_lookup. destruct (entries s !! k) as [e|] eqn:He; cbn.
  - destruct (ok_entry _ _ Hok _ _ He) as ((x & Hx & _) & _). unfold shows. rewrite Hx. case_decide as Hd.
    + split; [by intros []|]. intros [[_ Hn]|(e' & He' & Hn)]; [by destruct Hn; exists e|congruence].
    + split; [intros _; right; by exists e|by eexists].
  - split; [intros H; left; split; [done|]; intros (e & He' & _); congruence|]. intros [[? _]|(e & He' & _)]; [done|congruence].
Qed.

(** The ledger's indexes above [h]. *)
Definition above (h : uint256) : list uint256 := filter (fun k => below h k) (keys_of (ledger_of s)).

Lemma above_shrinks h r : key h -> is_Some (ledger_of s !! r) -> below h r -> (length (above r) < length (above h))%nat.
Proof.
  intros Hh Hr Hb. assert (Hkr : key r) by (apply Hkeys; by left).
  assert (Hsub : r :: above r ⊆+ above h).
  { apply NoDup_submseteq.
    - constructor; [|apply NoDup_filter; apply NoDup_fst_map_to_list]. intros [Hb' _]%list_elem_of_filter. rewrite below_val in Hb' by done. lia.
    - intros k [->|[Hb' Hk]%list_elem_of_filter]%elem_of_cons; apply list_elem_of_filter; [split; [done|by apply keys_of_elem]|].
      split; [|done]. eapply (below_trans h r k); try done. apply Hkeys. left. by apply keys_of_elem. }
  apply submseteq_length in Hsub. cbn in Hsub. lia.
Qed.

Lemma skip_deleted_ok fuel : forall h, key h -> (length (above h) < fuel)%nat ->
  exists r, skip_deleted fuel (les s) h = Ok r /\ next_in (fun k => is_Some (ledger_of s !! k) /\ ~ deleted_in k) h r.
Proof.
  induction fuel as [|fuel IH]; intros h Hh Hf; [lia|]. cbn [skip_deleted].
  pose proof (ledger_next_spec (ledger_of s) h ltac:(auto)) as Hn. set (r := ledger_next _ h) in *.
  assert (Hstop : ~ deleted_in r -> next_in (fun k => is_Some (ledger_of s !! k) /\ ~ deleted_in k) h r).
  { intros Hd. destruct Hn as [[E Hn]|(H1 & H2 & H3)]; [left; split; [done|]; intros k [Hk _]; by apply Hn|].
    right. split_and!; try done. intros k [Hk _]. by apply H3. }
  destruct (entries s !! r) as [e|] eqn:He.
  - case_decide as Hd; [|exists r; split; [done|apply Hstop; intros (e' & He' & ?); congruence]].
    destruct (ok_entry _ _ Hok _ _ He) as (_ & _ & Ha). rewrite Hd in Ha. cbn in Ha.
    destruct Hn as [[E _]|(H1 & H2 & H3)]; [rewrite E, Hzero in Ha; by destruct Ha|].
    assert (Hkr : key r) by (apply Hkeys; by left).
    destruct (IH r Hkr) as (r' & E & Hn'); [pose proof (above_shrinks h r Hh H1 H2); lia|].
    exists r'. split; [done|].
    assert (Hup : forall k, is_Some (ledger_of s !! k) /\ ~ deleted_in k -> below h k -> below r k).
    { intros k [Hk Hnd] Hb. specialize (H3 k Hk Hb). assert (key k) by (apply Hkeys; by left). rewrite below_val in H3 |- * by done.
      destruct (decide (be_val 256 k = be_val 256 r)) as [Ek|]; [|lia]. destruct Hnd. exists e.
      assert (k = r) as ->; [|done]. apply (be_val_inj 256); [lia|by rewrite (proj1 Hkr); apply H|apply H|apply Hkr|done]. }
    destruct Hn' as [[-> Hn']|(H1' & H2' & H3')].
    + left. split; [done|]. intros k Hk Hb. eapply Hn'; [done|by apply Hup].
    + right. split_and!; [apply H1'|apply H1'| |].
      * eapply (below_trans h r r'); try done. apply Hkeys. left. apply H1'.
      * intros k Hk Hb. apply H3'; [done|by apply Hup].
  - exists r. split; [done|]. apply Hstop. intros (e & He' & _). congruence.
Qed.

Definition live_above (h : uint256) : list uint256 :=
  map fst (filter (fun '(i, e) => below h i /\ mAction e <> taaDELETE) (map_to_list (entries s))).

Lemma live_above_elem h k : k ∈ live_above h <-> live_in k /\ below h k.
Proof.
  unfold live_above, live_in. rewrite list_elem_of_fmap. split.
  - intros ([k' e] & -> & [[Hb Ha] Hin%elem_of_map_to_list]%list_elem_of_filter). split; [by exists e|done].
  - intros [(e & He & Ha) Hb]. exists (k, e). split; [done|]. apply list_elem_of_filter. split; [done|]. by apply elem_of_map_to_list.
Qed.

Lemma live_next h : next_in live_in h (least (live_above h)).
Proof.
  apply least_next; [|apply live_above_elem]. apply Forall_forall. intros k [(e & He & _) _]%live_above_elem. apply Hkeys. right. by exists e.
Qed.

End Table.
(** The lesser of two. *)
Lemma next_merge (P Q : uint256 -> Prop) h a b :
  (forall k, P k \/ Q k -> key k) -> key h -> next_in P h a -> next_in Q h b -> b <> SHAMapNode.zero256 ->
  next_in (fun k => P k \/ Q k) h (if negb (SHAMapNode.isZero a) && SHAMapNode.key_ltb a b then a else b).
Proof.
  intros Hk Hh Ha [[-> _]|(Q1 & Q2 & Q3)] Hb; [done|].
  destruct Ha as [[-> P3]|(P1 & P2 & P3)].
  - cbn [negb andb]. right. split_and!; [by right|done|]. intros k [Hp|Hq] Hlt; [by apply P3 in Hlt|by apply Q3].
  - assert (Hka : key a) by (apply Hk; by left). assert (Hkb : key b) by (apply Hk; by right).
    assert (SHAMapNode.isZero a = false) as ->.
    { destruct (SHAMapNode.isZero a) eqn:Ez; [|done]. exfalso. apply (not_below_zero h Hh). replace SHAMapNode.zero256 with a; [done|].
      destruct Hka as [Hl _]. unfold SHAMapNode.isZero in Ez. rewrite forallb_forall in Ez. unfold SHAMapNode.zero256. rewrite <- Hl.
      symmetry. apply replicate_as_Forall. split; [done|]. apply Forall_forall. intros z Hz. symmetry. apply Z.eqb_eq, Ez. by apply list_elem_of_In. }
    cbn [negb andb]. destruct (SHAMapNode.key_ltb a b) eqn:E; right; (split_and!; [auto|done|]); intros k [Hp|Hq] Hlt Hkr.
    + by apply (P3 k).
    + apply (Q3 k Hq Hlt). eapply (below_trans k a b); try done. apply Hk. by right.
    + assert (key k) by (apply Hk; by left). specialize (P3 k Hp Hlt). rewrite below_val in P3, Hkr by done. rewrite ltb_val in E by done.
      apply Z.ltb_ge in E. lia.
    + by apply (Q3 k).
Qed.

Lemma next_ext (P Q : uint256 -> Prop) h r : (forall k, below h k -> P k <-> Q k) -> next_in P h r -> next_in Q h r.
Proof.
  intros HPQ [[-> H]|(H1 & H2 & H3)].
  - left. split; [done|]. intros k Hk Hb. apply (H k); [|done]. by apply HPQ.
  - right. split_and!; [by apply HPQ|done|]. intros k Hk Hb. apply H3; [by apply HPQ|done].
Qed.

(** going through the ledger in order.  With fuel for the ledger's entries,
    [getNextLedgerIndex] returns: its result is the least index above the given
    one among the entries the table shows, created ones included and deleted ones
    excluded, and zero when there is none; with an end it is zero past the end. *)
Theorem next_index fuel s h stop :
  ok ∅ s -> (forall k, is_Some (ledger_of s !! k) \/ is_Some (entries s !! k) -> key k) ->
  ledger_of s !! SHAMapNode.zero256 = None -> key h -> (size (ledger_of s) < fuel)%nat ->
  exists r, getNextLedgerIndex fuel (les s) h = Ok r /\ next_in (fun k => is_Some (view s !! k)) h r /\
    getNextLedgerIndex_to fuel (les s) h stop = Ok (if SHAMapNode.key_ltb stop r then SHAMapNode.zero256 else r).
Proof.
  intros Hok Hkeys Hzero Hh Hf.
  destruct (skip_deleted_ok s Hok Hkeys Hzero fuel h Hh) as (r & E & Hr).
  { eapply Nat.le_lt_trans; [apply length_filter|]. unfold keys_of. by rewrite length_map, length_map_to_list. }
  unfold getNextLedgerIndex_to, getNextLedgerIndex. rewrite E. cbn [mbind result_bind mret result_ret]. fold (live_above s h).
  eexists. split; [done|]. split; [|done]. pose proof (live_next s Hkeys h) as Hl.
  eapply (next_ext (fun k => (is_Some (ledger_of s !! k) /\ ~ deleted_in s k) \/ live_in s k)).
  { intros k _. symmetry. by apply view_cases. }
  destruct (live_above s h) as [|i ks] eqn:El.
  - eapply next_ext; [|exact Hr]. intros k Hb. split; [by left|]. intros [?|Hk]; [done|].
    exfalso. apply (elem_of_nil k). rewrite <- El. by apply live_above_elem.
  - apply next_merge; [|done|done|done|].
    + intros k [[? _]|(e & ? & _)]; apply Hkeys; [by left|right; by exists e].
    + intros Ez. destruct (least_spec i ks) as [Hin _].
      { rewrite <- El. apply Forall_forall. intros k [(e & He & _) _]%live_above_elem. apply Hkeys. right. by exists e. }
      rewrite Ez, <- El in Hin. apply live_above_elem in Hin as [_ Hb]. by eapply not_below_zero.
Qed.

Lemma next_index_witness :
  exists r, getNextLedgerIndex 2 (les (fresh sample_ledger 0)) SHAMapNode.zero256 = Ok r /\
    next_in (fun k => is_Some (view (fresh sample_ledger 0) !! k)) SHAMapNode.zero256 r /\
    getNextLedgerIndex_to 2 (les (fresh sample_ledger 0)) SHAMapNode.zero256 (index_of 9) = Ok (if SHAMapNode.key_ltb (index_of 9) r then SHAMapNode.zero256 else r).
Proof.
  apply (next_index 2 (fresh sample_ledger 0) SHAMapNode.zero256 (index_of 9)).
  - exact (proj1 (fresh_ok sample_ledger 0 sample_ok)).
  - intros k [[x Hx]|[e He]]; [|cbn in He; by rewrite lookup_empty in He]. change (ledger_of (fresh sample_ledger 0)) with (mAccountState sample_ledger) in Hx.
    unfold sample_ledger, mAccountState in Hx. apply lookup_singleton_Some in Hx as [<- _]. by_decide.
  - vm_compute. reflexivity.
  - exact zero_key.
  - vm_compute. lia.
Defined.

(** After the run of [LedgerLaws.sample_ops] the first entry is the offer. *)
Example next_after_run :
  getNextLedgerIndex 2 (les (state_of (run_ops sample_ops) (fresh sample_ledger 0))) SHAMapNode.zero256 = Ok (index_of 1).
Proof. vm_compute. reflexivity. Qed.

End LedgerNext.
