(* ===== verification/TrustLines.v ===== *)
(** * Accounts, trust lines and sending

    [src/src/ripple_app/ledger/LedgerEntrySet.cpp], from [ownerCountAdjust] on:
    owner counts, the deletion of offers, what an account holds, transfer rates
    and fees, and the functions that move money: [trustCreate], [trustDelete],
    [rippleCredit], [rippleSend] and [accountSend].

    A trust line is one [ltRIPPLE_STATE] entry between two accounts; the account
    with the smaller identifier is the low one, and the balance is in its terms.
    The line is listed in the owner directory of both.

    A pointer that the code dereferences without a test is [non_null]; arithmetic
    on amounts may throw ([pure_result]).  The fees of [Ledger] are those after
    [Ledger::updateFees]. *)
From Stdlib Require Import ZArith Lia.
From S2P Require Import Prelude BaseUint Serializer STAmount STAmountMath Book SHAMapNode Effects FeeTrack LedgerEntrySet.
From stdpp Require Import base numbers list gmap strings.
Import Effects LedgerEntrySet.
Local Open Scope Z_scope.

Module TrustLines.
Import STAmount STAmountMath.

Abbreviation is_bit_set := Book.is_bit_set.
Abbreviation QUALITY_ONE := Book.QUALITY_ONE.

Definition lsfRequireAuth : Z := 262144.     (* 0x00040000 *)
Definition lsfLowReserve : Z := 65536.       (* 0x00010000 *)
Definition lsfHighReserve : Z := 131072.     (* 0x00020000 *)
Definition lsfLowAuth : Z := 262144.         (* 0x00040000 *)
Definition lsfHighAuth : Z := 524288.        (* 0x00080000 *)
Definition lsfLowNoRipple : Z := 1048576.    (* 0x00100000 *)
Definition lsfHighNoRipple : Z := 2097152.   (* 0x00200000 *)

Definition ACCOUNT_ONE : Account := u160_one.

Definition setIssuer (uIssuer : uint160) (a : STAmount) : STAmount :=
  MkSTAmount (mCurrency a) uIssuer (mValue a) (mOffset a) (mIsNative a) (mIsNegative a).

(** [a != zero], [a > zero] and [a <= zero]. *)
Definition nonzero (a : STAmount) : bool := negb (is_zero a).
Definition positive (a : STAmount) : bool := 0 <? signum a.

(** [saBalance < uReserve] and [saBalance - uReserve] with a [std::uint64_t]. *)
Definition lt_u64 (a : STAmount) (v : Z) : result bool := sn ← getSNValue a; mret (sn <? i64 v).
Definition minus_u64 (a : STAmount) (v : Z) : result STAmount := sn ← getSNValue a; mret (mk_native_i64 (i64 (sn - i64 v))).

Section Operations.
Context `{SHA : SHA512} `{SSL : OpenSSL}.

(** The account root of [uAccountID]. *)
Definition account_root (uAccountID : Account) : M (option sleptr) :=
  entryCache ltACCOUNT_ROOT (getAccountRootIndex uAccountID).

(** ** Owner counts and offers *)

Definition ownerCountAdjust (uOwnerID : Account) (iAmount : Z) (sleAccountRoot : option sleptr) : M unit :=
  sleHold ← (match sleAccountRoot with Some p => mret (Some p) | None => account_root uOwnerID end);
  sleRoot ← non_null sleHold;
  uOwnerCount ← field (getFieldU32 sfOwnerCount) sleRoot;
  let uNew := if 0 <? i32 (iAmount + i32 uOwnerCount) then u32 (uOwnerCount + iAmount) else 0 in
  if negb (uOwnerCount =? uNew) then
    _ ← mutate sleRoot (setFieldU32 sfOwnerCount (u32 (uOwnerCount + iAmount)));
    entryModify sleRoot
  else mret tt.

(** [offerDelete (SLE::pointer)]. *)
Definition delete_offer (sleOffer : sleptr) : M TER :=
  offer ← deref sleOffer;
  let offerIndex := mIndex offer in
  let uOwnerID := getFieldAccount160 sfAccount offer in
  let bOwnerNode := isFieldPresent sfOwnerNode offer in
  let uOwnerNode := getFieldU64 sfOwnerNode offer in
  let uDirectory := getFieldH256 sfBookDirectory offer in
  let uBookNode := getFieldU64 sfBookNode offer in
  terResult ← dirDelete false uOwnerNode (getOwnerDirIndex uOwnerID) offerIndex false (negb bOwnerNode);
  terResult2 ← dirDelete false uBookNode uDirectory offerIndex true false;
  _ ← (if terResult =? tesSUCCESS then ownerCountAdjust uOwnerID (-1) None else mret tt);
  _ ← entryDelete sleOffer;
  mret (if terResult =? tesSUCCESS then terResult2 else terResult).

(** [offerDelete (uint256)]. *)
Definition offerDelete (uOfferIndex : uint256) : M TER :=
  o ← entryCache ltOFFER uOfferIndex;
  match o with
  | None => mret tesSUCCESS
  | Some sleOffer => delete_offer sleOffer
  end.

(** ** What an account holds *)

(** The test for a frozen line: the issuer requires authorization and the flag of
    the holder is set. *)
Definition frozen (uHolder uIssuer : Account) (issuer line : SLE) : bool :=
  isFlag lsfRequireAuth issuer && isFlag (if BaseUint.gtb uHolder uIssuer then lsfHighAuth else lsfLowAuth) line.

Definition rippleOwed (uToAccountID uFromAccountID : Account) (uCurrencyID : uint160) : M STAmount :=
  o ← entryCache ltRIPPLE_STATE (getRippleStateIndex uToAccountID uFromAccountID uCurrencyID);
  match o with
  | Some sleRippleState =>
      sleIssuer ← account_root uToAccountID;
      line ← deref sleRippleState;
      isFrozen ← (match sleIssuer with
                  | Some p => issuer ← deref p; mret (frozen uFromAccountID uToAccountID issuer line)
                  | None => mret false
                  end);
      if (isFrozen : bool) then mret no_amount
      else
        let saBalance := getFieldAmount sfBalance line in
        let saBalance := if BaseUint.ltb uToAccountID uFromAccountID then negate saBalance else saBalance in
        mret (setIssuer uToAccountID saBalance)
  | None => mret (clear_to uCurrencyID uToAccountID no_amount)
  end.

Definition rippleLimit (uToAccountID uFromAccountID : Account) (uCurrencyID : uint160) : M STAmount :=
  o ← entryCache ltRIPPLE_STATE (getRippleStateIndex uToAccountID uFromAccountID uCurrencyID);
  match o with
  | Some sleRippleState =>
      saLimit ← field (getFieldAmount (if BaseUint.ltb uToAccountID uFromAccountID then sfLowLimit else sfHighLimit)) sleRippleState;
      mret (setIssuer uToAccountID saLimit)
  | None => mret (clear_to uCurrencyID uToAccountID no_amount)
  end.

(** [rippleTransferRate (uIssuerID)]. *)
Definition issuer_rate (uIssuerID : Account) : M Z :=
  o ← account_root uIssuerID;
  match o with
  | Some p => sleAccount ← deref p;
      mret (if isFieldPresent sfTransferRate sleAccount then getFieldU32 sfTransferRate sleAccount else QUALITY_ONE)
  | None => mret QUALITY_ONE
  end.

Definition rippleTransferRate (uSenderID uReceiverID uIssuerID : Account) : M Z :=
  if BaseUint.eqb uSenderID uIssuerID || BaseUint.eqb uReceiverID uIssuerID then mret QUALITY_ONE
  else issuer_rate uIssuerID.

Definition rippleQualityIn (uToAccountID uFromAccountID : Account) (uCurrencyID : uint160) (sfLow sfHigh : SField) : M Z :=
  if BaseUint.eqb uToAccountID uFromAccountID then mret QUALITY_ONE
  else
    o ← entryCache ltRIPPLE_STATE (getRippleStateIndex uToAccountID uFromAccountID uCurrencyID);
    match o with
    | Some p =>
        line ← deref p;
        let sfField := if BaseUint.ltb uToAccountID uFromAccountID then sfLow else sfHigh in
        let uQuality := if isFieldPresent sfField line then getFieldU32 sfField line else QUALITY_ONE in
        mret (if uQuality =? 0 then 1 else uQuality)
    | None => mret QUALITY_ONE
    end.

Definition rippleHolds (uAccountID : Account) (uCurrencyID : uint160) (uIssuerID : Account) : M STAmount :=
  o ← entryCache ltRIPPLE_STATE (getRippleStateIndex uAccountID uIssuerID uCurrencyID);
  match o with
  | None => mret (clear_to uCurrencyID uIssuerID no_amount)
  | Some sleRippleState =>
      o ← account_root uIssuerID;
      match o with
      | None => mret no_amount
      | Some p =>
          issuer ← deref p;
          line ← deref sleRippleState;
          if frozen uAccountID uIssuerID issuer line then mret no_amount
          else
            let saBalance := getFieldAmount sfBalance line in
            mret (setIssuer uIssuerID (if BaseUint.gtb uAccountID uIssuerID then negate saBalance else saBalance))
      end
  end.

(** [Ledger::getReserve]; a division by zero is undefined. *)
Definition getReserve (increments : Z) (l : Ledger) : result Z :=
  match FeeTrack.scaleFeeBase (u64 (u64 (i32 increments) * mReserveIncrement l + mReserveBase l)) (mBaseFee l) (mReferenceFeeUnits l) with
  | Some v => Ok v
  | None => Throw (undefined "division by zero")
  end.

Definition accountHolds (uAccountID : Account) (uCurrencyID : uint160) (uIssuerID : Account) : M STAmount :=
  if BaseUint.isZero uCurrencyID then
    o ← account_root uAccountID;
    sleAccount ← non_null o;
    uOwnerCount ← field (getFieldU32 sfOwnerCount) sleAccount;
    l ← reads (fun s => mLedger (les s));
    uReserve ← pure_result (getReserve uOwnerCount l);
    saBalance ← field (getFieldAmount sfBalance) sleAccount;
    below ← pure_result (lt_u64 saBalance uReserve);
    if (below : bool) then mret (clear no_amount) else pure_result (minus_u64 saBalance uReserve)
  else rippleHolds uAccountID uCurrencyID uIssuerID.

Definition accountFunds (uAccountID : Account) (saDefault : STAmount) : M STAmount :=
  if negb (mIsNative saDefault) && BaseUint.eqb (mIssuer saDefault) uAccountID then mret saDefault
  else accountHolds uAccountID (mCurrency saDefault) (mIssuer saDefault).

Definition rippleTransferFee (uSenderID uReceiverID uIssuerID : Account) (saAmount : STAmount) : M STAmount :=
  let none := pure_result (mk_zero (mCurrency saAmount) (mIssuer saAmount)) in
  if negb (BaseUint.eqb uSenderID uIssuerID) && negb (BaseUint.eqb uReceiverID uIssuerID) then
    uTransitRate ← issuer_rate uIssuerID;
    if negb (QUALITY_ONE =? uTransitRate) then
      saTransitRate ← pure_result (mk_iou u160_one u160_one uTransitRate (-9) false);
      saTransferTotal ← pure_result (multiply saAmount saTransitRate (mCurrency saAmount) (mIssuer saAmount));
      pure_result (sub saTransferTotal saAmount)
    else none
  else none.

(** ** Trust lines *)

(** The fields of a new line, before the balance is set; [uQualityIn] and
    [uQualityOut] are set when they are not zero. *)
Definition new_line (bSetHigh bAuth bNoRipple : bool) (uLowNode uHighNode : Z) (saLimit saOther : STAmount)
    (uQualityIn uQualityOut : Z) (sle : SLE) : SLE :=
  let sle := setFieldU64 sfHighNode uHighNode (setFieldU64 sfLowNode uLowNode sle) in
  let sle := setFieldAmount (if negb bSetHigh then sfLowLimit else sfHighLimit) saLimit sle in
  let sle := setFieldAmount (if bSetHigh then sfLowLimit else sfHighLimit) saOther sle in
  let sle := if negb (uQualityIn =? 0) then setFieldU32 (if negb bSetHigh then sfLowQualityIn else sfHighQualityIn) uQualityIn sle else sle in
  let sle := if negb (uQualityOut =? 0) then setFieldU32 (if negb bSetHigh then sfLowQualityOut else sfHighQualityOut) uQualityOut sle else sle in
  let uFlags := if negb bSetHigh then lsfLowReserve else lsfHighReserve in
  let uFlags := if bAuth then Z.lor uFlags (if negb bSetHigh then lsfLowAuth else lsfHighAuth) else uFlags in
  let uFlags := if bNoRipple then Z.lor uFlags (if negb bSetHigh then lsfLowNoRipple else lsfHighNoRipple) else uFlags in
  setFieldU32 sfFlags uFlags sle.

Definition trustCreate (bSrcHigh : bool) (uSrcAccountID uDstAccountID : Account) (uIndex : uint256)
    (sleAccount : option sleptr) (bAuth bNoRipple : bool) (saBalance saLimit : STAmount) (uQualityIn uQualityOut : Z) : M TER :=
  let uLowAccountID := if negb bSrcHigh then uSrcAccountID else uDstAccountID in
  let uHighAccountID := if bSrcHigh then uSrcAccountID else uDstAccountID in
  sleRippleState ← entryCreate ltRIPPLE_STATE uIndex;
  index ← field mIndex sleRippleState;
  '(terResult, uLowNode) ← dirAdd (getOwnerDirIndex uLowAccountID) index (ownerDirDescriber uLowAccountID);
  if negb (terResult =? tesSUCCESS) then mret terResult
  else
    '(terResult, uHighNode) ← dirAdd (getOwnerDirIndex uHighAccountID) index (ownerDirDescriber uHighAccountID);
    if negb (terResult =? tesSUCCESS) then mret terResult
    else
      let bSetDst := BaseUint.eqb (mIssuer saLimit) uDstAccountID in
      let bSetHigh := xorb bSrcHigh bSetDst in
      saOther ← pure_result (mk_zero (mCurrency saBalance) (if bSetDst then uSrcAccountID else uDstAccountID));
      _ ← mutate sleRippleState (new_line bSetHigh bAuth bNoRipple uLowNode uHighNode saLimit saOther uQualityIn uQualityOut);
      _ ← ownerCountAdjust (if negb bSetDst then uSrcAccountID else uDstAccountID) 1 sleAccount;
      _ ← mutate sleRippleState (setFieldAmount sfBalance (if bSetHigh then opp saBalance else saBalance));
      mret terResult.

Definition trustDelete (sleRippleState : sleptr) (uLowAccountID uHighAccountID : Account) : M TER :=
  line ← deref sleRippleState;
  terResult ← dirDelete false (getFieldU64 sfLowNode line) (getOwnerDirIndex uLowAccountID) (mIndex line) false
                (negb (isFieldPresent sfLowNode line));
  terResult ← (if terResult =? tesSUCCESS then
                 dirDelete false (getFieldU64 sfHighNode line) (getOwnerDirIndex uHighAccountID) (mIndex line) false
                   (negb (isFieldPresent sfHighNode line))
               else mret terResult);
  _ ← entryDelete sleRippleState;
  mret terResult.

(** ** Sending *)

(** The condition under which the sender's reserve for the line is released. *)
Definition reserve_released (bSenderHigh : bool) (saBefore saBalance : STAmount) (line : SLE) : bool :=
  let uFlags := getFieldU32 sfFlags line in
  positive saBefore && negb (positive saBalance) &&
  is_bit_set uFlags (if negb bSenderHigh then lsfLowReserve else lsfHighReserve) &&
  negb (is_bit_set uFlags (if negb bSenderHigh then lsfLowNoRipple else lsfHighNoRipple)) &&
  negb (nonzero (getFieldAmount (if negb bSenderHigh then sfLowLimit else sfHighLimit) line)) &&
  (getFieldU32 (if negb bSenderHigh then sfLowQualityIn else sfHighQualityIn) line =? 0) &&
  (getFieldU32 (if negb bSenderHigh then sfLowQualityOut else sfHighQualityOut) line =? 0).

(** [uFlags & ~mask] on 32 bits. *)
Definition clear_flag (mask uFlags : Z) : Z := Z.land uFlags (u32 (Z.lnot mask)).

(** The part of [rippleCredit] for an existing line. *)
Definition credit_line (uSenderID uReceiverID : Account) (saAmount : STAmount) (sleRippleState : sleptr) : M TER :=
  let bSenderHigh := BaseUint.gtb uSenderID uReceiverID in
  line ← deref sleRippleState;
  let saBefore := if bSenderHigh then negate (getFieldAmount sfBalance line) else getFieldAmount sfBalance line in
  saBalance ← pure_result (sub saBefore saAmount);
  bDelete ← (if reserve_released bSenderHigh saBefore saBalance line then
               let uFlags := getFieldU32 sfFlags line in
               sleSender ← account_root uSenderID;
               _ ← ownerCountAdjust uSenderID (-1) sleSender;
               _ ← mutate sleRippleState
                     (setFieldU32 sfFlags (clear_flag (if negb bSenderHigh then lsfLowReserve else lsfHighReserve) uFlags));
               mret (negb (nonzero saBalance) && negb (is_bit_set uFlags (if bSenderHigh then lsfLowReserve else lsfHighReserve)))
             else mret false);
  _ ← mutate sleRippleState (setFieldAmount sfBalance (if bSenderHigh then negate saBalance else saBalance));
  if (bDelete : bool) then
    trustDelete sleRippleState (if bSenderHigh then uReceiverID else uSenderID) (if negb bSenderHigh then uReceiverID else uSenderID)
  else
    _ ← entryModify sleRippleState;
    mret tesSUCCESS.

Definition rippleCredit (uSenderID uReceiverID : Account) (saAmount : STAmount) : M TER :=
  let bSenderHigh := BaseUint.gtb uSenderID uReceiverID in
  let uIndex := getRippleStateIndex uSenderID uReceiverID (mCurrency saAmount) in
  o ← entryCache ltRIPPLE_STATE uIndex;
  match o with
  | None =>
      saReceiverLimit ← pure_result (mk_zero (mCurrency saAmount) uReceiverID);
      sleReceiver ← account_root uReceiverID;
      trustCreate bSenderHigh uSenderID uReceiverID uIndex sleReceiver false false (setIssuer ACCOUNT_ONE saAmount) saReceiverLimit 0 0
  | Some sleRippleState => credit_line uSenderID uReceiverID saAmount sleRippleState
  end.

(** [rippleSend]: the result and [saActual]. *)
Definition rippleSend (uSenderID uReceiverID : Account) (saAmount : STAmount) : M (TER * STAmount) :=
  let uIssuerID := mIssuer saAmount in
  if BaseUint.eqb uSenderID uIssuerID || BaseUint.eqb uReceiverID uIssuerID || BaseUint.eqb uIssuerID ACCOUNT_ONE then
    _ ← rippleCredit uSenderID uReceiverID saAmount;
    mret (tesSUCCESS, saAmount)
  else
    saTransitFee ← rippleTransferFee uSenderID uReceiverID uIssuerID saAmount;
    saActual ← (if negb (nonzero saTransitFee) then mret saAmount else pure_result (add saAmount saTransitFee));
    let saActual := setIssuer uIssuerID saActual in
    terResult ← rippleCredit uIssuerID uReceiverID saAmount;
    terResult ← (if terResult =? tesSUCCESS then rippleCredit uSenderID uIssuerID saActual else mret terResult);
    mret (terResult, saActual).

(** A null pointer for the account zero. *)
Definition account_or_none (uAccountID : Account) : M (option sleptr) :=
  if negb (BaseUint.isZero uAccountID) then account_root uAccountID else mret None.

(** The native branch of [accountSend]. *)
Definition send_native (uSenderID uReceiverID : Account) (saAmount : STAmount) : M TER :=
  sleSender ← account_or_none uSenderID;
  sleReceiver ← account_or_none uReceiverID;
  terResult ← (match sleSender with
               | None => mret tesSUCCESS
               | Some p =>
                   saBalance ← field (getFieldAmount sfBalance) p;
                   short ← pure_result (ltb saBalance saAmount);
                   if (short : bool) then
                     mParams ← reads (fun s => mParams (les s));
                     mret (if is_bit_set mParams tapOPEN_LEDGER then telFAILED_PROCESSING else tecFAILED_PROCESSING)
                   else
                     saNew ← pure_result (sub saBalance saAmount);
                     _ ← mutate p (setFieldAmount sfBalance saNew);
                     _ ← entryModify p;
                     mret tesSUCCESS
               end);
  match sleReceiver with
  | Some p =>
      if terResult =? tesSUCCESS then
        saBalance ← field (getFieldAmount sfBalance) p;
        saNew ← pure_result (add saBalance saAmount);
        _ ← mutate p (setFieldAmount sfBalance saNew);
        _ ← entryModify p;
        mret terResult
      else mret terResult
  | None => mret terResult
  end.

Definition accountSend (uSenderID uReceiverID : Account) (saAmount : STAmount) : M TER :=
  if negb (nonzero saAmount) || BaseUint.eqb uSenderID uReceiverID then mret tesSUCCESS
  else if mIsNative saAmount then send_native uSenderID uReceiverID saAmount
  else '(terResult, _) ← rippleSend uSenderID uReceiverID saAmount; mret terResult.

End Operations.
End TrustLines.
