(* ===== verification/TrustLaws.v ===== *)
(** * Sending: what happens to balances, lines, directories and counts

    Theorems about [LedgerEntrySet::accountSend], [rippleCredit], [trustCreate] and
    [trustDelete] on the ledger as the table shows it ([LedgerLaws.view]), with
    owner directories represented as in [Directory.dir]. *)
From Stdlib Require Import ZArith Lia.
From S2P Require Import Prelude BaseUint Serializer STAmount STAmountMath Book SHAMapNode Effects FeeTrack LedgerEntrySet LedgerLaws Directory TrustLines.
From stdpp Require Import base numbers list gmap strings.
Import Effects LedgerEntrySet LedgerLaws Directory TrustLines.
Local Open Scope Z_scope.

Module TrustLaws.
Import STAmount STAmountMath.

Implicit Types (s : State) (i j : uint256) (x y : SLE) (p : sleptr) (m : gmap uint256 SLE) (D : gset uint256).

(** ** Single entries *)

Lemma alter_some m i f x : m !! i = Some x -> alter f i m = <[i := f x]> m.
Proof. intros. by rewrite <- (insert_alter m i f x). Qed.

(** ** Native payments *)

Lemma canonical_ltb a b : canonical a -> mIsNative a = true -> unsigned_zero a -> canonical b -> mIsNative b = true -> unsigned_zero b ->
  ltb a b = Ok (drops a <? drops b).
Proof.
  intros Ca Na Ua Cb Nb Ub. unfold ltb, throwComparable.
  assert (Hc : isComparable a b = true) by (unfold isComparable; by rewrite Na, Nb). rewrite Hc. cbn [negb mbind result_bind mret result_ret].
  rewrite (compare_val a b) by done. assert (forall c, canonical c -> mIsNative c = true -> val c = drops c * 10 ^ 100) as Hv.
  { intros c (_ & _ & _ & Hcc) Nc. rewrite Nc in Hcc. unfold val, drops. destruct Hcc as [-> _]. change (0 + 100) with 100. by rewrite Z.mul_assoc. }
  rewrite !Hv by done. f_equal. rewrite <- Z.mul_sub_distr_r.
  destruct (Z.ltb_spec (drops a) (drops b)) as [H|H]; [apply Z.ltb_lt|apply Z.ltb_ge]; rewrite Z.sgn_mul; change (Z.sgn (10 ^ 100)) with 1; lia.
Qed.

Lemma native_ltb a b : Book.native_ok a -> Book.native_ok b -> ltb a b = Ok (drops a <? drops b).
Proof. intros (Ca & Na & _ & Ua) (Cb & Nb & _ & Ub). by apply canonical_ltb. Qed.

Section Native.
Context `{SHA : SHA512} `{SSL : OpenSSL}.

Abbreviation root_of a := (getAccountRootIndex a).
Abbreviation balance x := (getFieldAmount sfBalance x).

(** What a payment of [amt] from [a] to [b] does, given the account roots. *)
Definition paid (a b : Account) (amt : STAmount) x y s (r : TER) s' : Prop :=
  ok ∅ s' /\ moved (fun j => j = root_of a \/ j = root_of b) s s' /\
  if drops (balance x) <? drops amt then
    r = (if is_bit_set (mParams (les s)) tapOPEN_LEDGER then telFAILED_PROCESSING else tecFAILED_PROCESSING) /\ view s' = view s
  else
    r = tesSUCCESS /\ exists less more : STAmount,
      view s' = <[root_of b := setFieldAmount sfBalance more y]> (<[root_of a := setFieldAmount sfBalance less x]> (view s)) /\
      0 <= drops less /\ drops less = drops (balance x) - drops amt /\ drops more = drops (balance y) + drops amt.

Lemma debit_ok p i x amt s :
  ok ∅ s -> holds s p i x -> Book.native_ok (balance x) -> Book.native_ok amt ->
  wpe (saBalance ← field (getFieldAmount sfBalance) p;
       short ← pure_result (ltb saBalance amt);
       if (short : bool) then
         mParams ← reads (fun s => mParams (les s));
         mret (if is_bit_set mParams tapOPEN_LEDGER then telFAILED_PROCESSING else tecFAILED_PROCESSING)
       else
         saNew ← pure_result (sub saBalance amt);
         _ ← mutate p (setFieldAmount sfBalance saNew);
         _ ← entryModify p;
         mret tesSUCCESS) s (fun r s' =>
    if drops (balance x) <? drops amt then
      s' = s /\ r = (if is_bit_set (mParams (les s)) tapOPEN_LEDGER then telFAILED_PROCESSING else tecFAILED_PROCESSING)
    else r = tesSUCCESS /\ ok ∅ s' /\ steps i s s' /\
      exists less, view s' = <[i := setFieldAmount sfBalance less x]> (view s) /\ drops less = drops (balance x) - drops amt).
Proof.
  intros Hok Hh Hb Ha. apply wpe_bind. eapply holds_field; [done|]. apply wpe_bind.
  eapply wpe_pure; [by apply native_ltb|]. destruct (drops (balance x) <? drops amt).
  - apply wpe_bind, wpe_reads, wpe_ret. done.
  - destruct Hb as (Ca & Na & La & Ua), Ha as (Cb & Nb & Lb & Ub).
    destruct (native_sum _ _ Ca Cb Na Nb La Lb Ua Ub) as [_ (c & E & _ & _ & Hd)].
    apply wpe_bind. eapply wpe_pure; [exact E|]. eapply (save_ok ∅); [done|done|done|set_solver|].
    intros s1 Hok1 Hv1 Hh1 Hm1. apply wpe_ret. split_and!; try done. exists c. split; [|done].
    rewrite Hv1. apply alter_some. by eapply holds_view.
Qed.

(** C27: native payments conserve money.  Between two existing accounts with legal
    balances, [accountSend] of a positive native amount either finds the sender
    short, answers [telFAILED_PROCESSING] on an open ledger and
    [tecFAILED_PROCESSING] otherwise, and changes nothing; or takes exactly the
    amount from the sender, whose balance stays non-negative, and gives exactly the
    amount to the receiver, and changes no other field and no other entry. *)
Theorem native_payment a b amt x y s :
  ok ∅ s -> SHAMapNode.isZero (root_of a) = false -> SHAMapNode.isZero (root_of b) = false -> root_of a <> root_of b ->
  BaseUint.isZero a = false -> BaseUint.isZero b = false -> BaseUint.eqb a b = false ->
  view s !! root_of a = Some x -> view s !! root_of b = Some y ->
  Book.native_ok (balance x) -> Book.native_ok (balance y) -> Book.native_ok amt -> 0 < drops amt ->
  wpe (accountSend a b amt) s (paid a b amt x y s).
Proof.
  intros Hok Hza Hzb Hne Ha0 Hb0 Hab Hx Hy Hbx Hby Hamt Hpos. unfold accountSend.
  assert (nonzero amt = true) as ->.
  { unfold nonzero. rewrite is_zero_spec. unfold drops in Hpos. destruct (Z.eqb_spec (mValue amt) 0) as [E|]; [rewrite E in Hpos; lia|done]. }
  rewrite Hab, (proj1 (proj2 Hamt)). cbn [negb orb]. unfold send_native, account_or_none, account_root. rewrite Ha0, Hb0. cbn [negb].
  apply wpe_bind. eapply (read_entry ∅); [done..|]. intros p s1 Hok1 Hk1 Hp. rewrite <- (kp_view _ _ Hk1) in Hy.
  apply wpe_bind. eapply (read_entry ∅); [done..|]. intros q s2 Hok2 Hk2 Hq. apply (kp_holds _ _ Hk2) in Hp.
  pose proof (keeps_trans _ _ _ Hk1 Hk2) as Hk. apply wpe_bind. eapply wpe_mono; [by apply (debit_ok p (root_of a) x amt s2)|].
  intros r s3 Hr. unfold paid. destruct (Z.ltb_spec (drops (balance x)) (drops amt)) as [Hlt|Hge].
  - destruct Hr as [-> ->]. rewrite (kp_params _ _ Hk).
    destruct (is_bit_set (mParams (les s)) tapOPEN_LEDGER); cbn [Z.eqb tesSUCCESS]; apply wpe_ret; (split_and!; [done|by apply keeps_moved|done|by apply Hk]).
  - destruct Hr as (-> & Hok3 & Hm3 & less & Hv3 & Hd). cbn [Z.eqb tesSUCCESS].
    assert (Hq3 : holds s3 q (root_of b) y) by (by apply (st_holds _ _ _ Hm3)).
    apply wpe_bind. eapply holds_field; [done|]. destruct Hby as (Cb & Nb & Lb & Ub), Hamt as (Ct & Nt & Lt & Ut).
    destruct (native_sum _ _ Cb Ct Nb Nt Lb Lt Ub Ut) as [(c & E & _ & _ & Hc) _].
    apply wpe_bind. eapply wpe_pure; [exact E|]. eapply (save_ok ∅); [done|done|done|set_solver|].
    intros s4 Hok4 Hv4 Hh4 Hm4. apply wpe_ret. split_and!; [done| |done|].
    + eapply moved_trans; [by apply keeps_moved|]. eapply moved_trans; (eapply steps_moved; [|done]); auto.
    + exists less, c. split_and!; [|lia|done|done]. rewrite Hv4, <- (kp_view _ _ Hk), <- Hv3. apply alter_some. by eapply holds_view.
Qed.

End Native.
(** ** Owner counts *)

(** The account root after [ownerCountAdjust]. *)
Definition counted (d : Z) x : SLE :=
  let c := getFieldU32 sfOwnerCount x in
  let n := if 0 <? i32 (d + i32 c) then u32 (c + d) else 0 in
  if negb (c =? n) then setFieldU32 sfOwnerCount (u32 (c + d)) x else x.

Lemma counted_index d x : mIndex (counted d x) = mIndex x.
Proof. unfold counted. by destruct (negb _). Qed.

(** One up and one down. *)
Lemma counted_value d x : 0 <= getFieldU32 sfOwnerCount x < 2147483647 -> d = 1 \/ d = -1 ->
  getFieldU32 sfOwnerCount (counted d x) = Z.max 0 (getFieldU32 sfOwnerCount x + d).
Proof.
  intros Hc Hd. unfold counted. set (c := getFieldU32 sfOwnerCount x) in *.
  rewrite (swrap_id 32 c), (swrap_id 32 (d + c)) by (unfold in_s; lia).
  assert (Hget : forall v, getFieldU32 sfOwnerCount (setFieldU32 sfOwnerCount v x) = v).
  { intros v. unfold getFieldU32, setFieldU32, setField. cbn [mFields]. by rewrite lookup_insert_eq. }
  destruct (Z.ltb_spec 0 (d + c)).
  - rewrite u32_id by lia. destruct (Z.eqb_spec c (c + d)); cbn [negb]; [lia|]. rewrite Hget. lia.
  - destruct (Z.eqb_spec c 0) as [E|E]; cbn [negb]; [fold c; lia|]. rewrite Hget, u32_id; lia.
Qed.

Section Lines.
Context `{SHA : SHA512} `{SSL : OpenSSL}.

Lemma owner_count_ok D a d p i x s (Q : unit -> State -> Prop) :
  ok D s -> holds s p i x -> i ∉ D ->
  (forall s', ok D s' -> view s' = <[i := counted d x]> (view s) -> holds s' p i (counted d x) -> steps i s s' -> Q tt s') ->
  wpe (ownerCountAdjust a d (Some p)) s Q.
Proof.
  intros Hok Hh Hi HQ. unfold ownerCountAdjust. apply wpe_bind, wpe_ret, wpe_bind, wpe_ret, wpe_bind. eapply holds_field; [done|].
  unfold counted in HQ. set (c := getFieldU32 sfOwnerCount x) in *. set (n := if 0 <? i32 (d + i32 c) then _ else _) in *.
  destruct (negb (c =? n)).
  - by eapply (save_end D).
  - apply wpe_ret, HQ; [done| |done|apply steps_refl]. symmetry. apply insert_id. by eapply holds_view.
Qed.

(** ** Lines *)

Abbreviation owner_dir a := (getOwnerDirIndex a).

(** The indexes involved in a line between a low and a high account are digests
    of different things: the pages of the two directories, the line and the
    account roots do not collide, and none is zero. *)
Record apart (lo hi : Account) (line : uint256) : Prop := {
  ap_lo : pages_apart (owner_dir lo);
  ap_hi : pages_apart (owner_dir hi);
  ap_dirs : forall i, in_dir (owner_dir lo) i -> in_dir (owner_dir hi) i -> False;
  ap_off : forall i, i = line \/ i = getAccountRootIndex lo \/ i = getAccountRootIndex hi ->
    ~ in_dir (owner_dir lo) i /\ ~ in_dir (owner_dir hi) i /\ SHAMapNode.isZero i = false;
  ap_roots : getAccountRootIndex lo <> line /\ getAccountRootIndex hi <> line }.

(** The directories of both accounts are in the map. *)
Definition dirs lo hi m (pl ph : list page) : Prop := dir (owner_dir lo) m pl /\ dir (owner_dir hi) m ph.

(** [m'] is [m] but for the pages and the index [i]. *)
Definition same_but lo hi (is_changed : uint256 -> Prop) m m' : Prop :=
  forall j, ~ is_changed j -> ~ in_dir (owner_dir lo) j -> ~ in_dir (owner_dir hi) j -> m' !! j = m !! j.

Lemma dirs_frame lo hi m m' pl ph :
  dirs lo hi m pl ph -> (forall j, in_dir (owner_dir lo) j \/ in_dir (owner_dir hi) j -> m' !! j = m !! j) -> dirs lo hi m' pl ph.
Proof. intros [Hl Hh] Hm. split; (eapply dir_frame; [done|]); intros n Hn; apply Hm; [left|right]; by exists n. Qed.

(** Changes off the pages. *)
Lemma dirs_off lo hi m pl ph i :
  dirs lo hi m pl ph -> ~ in_dir (owner_dir lo) i -> ~ in_dir (owner_dir hi) i ->
  (forall x, dirs lo hi (<[i := x]> m) pl ph) /\ dirs lo hi (delete i m) pl ph /\ (forall f, dirs lo hi (alter f i m) pl ph).
Proof.
  intros Hd H1 H2. assert (Hne : forall j, in_dir (owner_dir lo) j \/ in_dir (owner_dir hi) j -> i <> j) by (intros j Hj ->; tauto).
  split_and!; intros; eapply dirs_frame; [done| |done| |done|]; intros j Hj%Hne;
    [by rewrite lookup_insert_ne|by rewrite lookup_delete_ne|by rewrite lookup_alter_ne].
Qed.

(** A directory operation on one leaves the other. *)
Lemma outside_dir a b m m' ps :
  (forall i, in_dir (owner_dir a) i -> in_dir (owner_dir b) i -> False) -> outside (owner_dir a) m m' ->
  dir (owner_dir b) m ps -> dir (owner_dir b) m' ps.
Proof.
  intros Hab Ho Hd. eapply dir_frame; [done|]. intros n Hn. apply Ho. intros n' Hn' E.
  apply (Hab (getDirNodeIndex (owner_dir b) n)); [by exists n'|by exists n].
Qed.

Lemma outside_at a m m' i : outside (owner_dir a) m m' -> ~ in_dir (owner_dir a) i -> m' !! i = m !! i.
Proof. intros Ho Hi. apply Ho. intros n Hn ->. apply Hi. by exists n. Qed.

(** *** Creating a line *)

(** The line [rippleCredit] makes for the receiver: [high] says that the receiver
    is the high account. *)
Definition line_of (high : bool) (nl nh : Z) (lim other bal : STAmount) (line : uint256) : SLE :=
  setFieldAmount sfBalance (if high then opp bal else bal)
    (new_line high false false nl nh lim other 0 0 (new_SLE ltRIPPLE_STATE line)).

Definition room (ps : list page) : Prop := num ps (length ps - 1) + 1 < 18446744073709551616.

Definition created lo hi rcv line (high : bool) (lim bal : STAmount) y (pl ph : list page) s (r : TER) s' : Prop :=
  r = tesSUCCESS /\ ok ∅ s' /\ exists nl nh other pl' ph',
    dirs lo hi (view s') pl' ph' /\ contents pl' = contents pl ++ [(nl, line)] /\ contents ph' = contents ph ++ [(nh, line)] /\
    view s' !! line = Some (line_of high nl nh lim other bal line) /\
    view s' !! getAccountRootIndex rcv = Some (counted 1 y) /\
    same_but lo hi (fun j => j = line \/ j = getAccountRootIndex rcv) (view s) (view s').

Lemma add_owner a b i s pa pb :
  pages_apart (owner_dir a) -> (forall j, in_dir (owner_dir a) j -> in_dir (owner_dir b) j -> False) ->
  ok ∅ s -> dir (owner_dir a) (view s) pa -> dir (owner_dir b) (view s) pb -> room pa ->
  wpe (dirAdd (owner_dir a) i (ownerDirDescriber a)) s (fun r s' =>
    r.1 = tesSUCCESS /\ ok ∅ s' /\ moved (in_dir (owner_dir a)) s s' /\ outside (owner_dir a) (view s) (view s') /\
    dir (owner_dir b) (view s') pb /\ exists pa', dir (owner_dir a) (view s') pa' /\ contents pa' = contents pa ++ [(r.2, i)]).
Proof.
  intros Hap Hab Hok Ha Hb Hr.
  eapply wpe_mono; [apply (dirAdd_ok (owner_dir a) Hap ∅ ltac:(set_solver) _ (ownerDir_describes a) s pa i); done|].
  intros r s' (pa' & ? & ? & ? & ? & ? & ? & _). split_and!; try done; [by eapply outside_dir|by exists pa'].
Qed.

Lemma mk_zero_ok cur iss : BaseUint.isZero cur = false -> mk_zero cur iss = Ok (MkSTAmount cur iss 0 (-100) false false).
Proof. intros Hc. unfold mk_zero, mk_iou, canonicalize. cbn [mCurrency mIssuer mValue mOffset mIsNative mIsNegative]. by rewrite Hc. Qed.

(** Entering the line in both directories. *)
Lemma list_both lo hi line s pl ph (f : TER -> Z -> Z -> M TER) (Q : TER -> State -> Prop) :
  apart lo hi line -> ok ∅ s -> dirs lo hi (view s) pl ph -> room pl -> room ph ->
  (forall nl nh pl' ph' s', ok ∅ s' -> moved (fun j => in_dir (owner_dir lo) j \/ in_dir (owner_dir hi) j) s s' ->
     same_but lo hi (fun _ => False) (view s) (view s') -> dirs lo hi (view s') pl' ph' ->
     contents pl' = contents pl ++ [(nl, line)] -> contents ph' = contents ph ++ [(nh, line)] -> wpe (f tesSUCCESS nl nh) s' Q) ->
  wpe ('(terResult, uLowNode) ← dirAdd (owner_dir lo) line (ownerDirDescriber lo);
       if negb (terResult =? tesSUCCESS) then mret terResult
       else '(terResult, uHighNode) ← dirAdd (owner_dir hi) line (ownerDirDescriber hi);
         if negb (terResult =? tesSUCCESS) then mret terResult else f terResult uLowNode uHighNode) s Q.
Proof.
  intros Hap Hok [Hdl Hdh] Hrl Hrh HQ.
  apply wpe_bind. eapply wpe_mono; [by apply (add_owner lo hi line s pl ph (ap_lo _ _ _ Hap) (ap_dirs _ _ _ Hap))|].
  intros [t nl] s2 (Et & Hok2 & Hm2 & Ho2 & Hdh2 & pl' & Hdl2 & Hcl). cbn in Et, Hcl. subst t. cbn [negb Z.eqb tesSUCCESS].
  apply wpe_bind. eapply wpe_mono; [eapply (add_owner hi lo line s2 ph pl' (ap_hi _ _ _ Hap)); try done|].
  { intros j Hj Hj'. by apply (ap_dirs _ _ _ Hap j). }
  intros [t nh] s3 (Et & Hok3 & Hm3 & Ho3 & Hdl3 & ph' & Hdh3 & Hch). cbn in Et, Hch. subst t. cbn [negb Z.eqb tesSUCCESS].
  apply (HQ nl nh pl' ph'); try done.
  - eapply moved_trans; (eapply moved_mono; [|done]); auto.
  - intros j _ Hjl Hjh. by rewrite (outside_at _ _ _ _ Ho3 Hjh), (outside_at _ _ _ _ Ho2 Hjl).
Qed.

Lemma trustCreate_ok (high : bool) src dst line py y bal lim s pl ph :
  let lo := if negb high then src else dst in
  let hi := if high then src else dst in
  apart lo hi line -> ok ∅ s -> dirs lo hi (view s) pl ph -> room pl -> room ph ->
  view s !! line = None -> holds s py (getAccountRootIndex dst) y ->
  BaseUint.eqb (mIssuer lim) dst = true -> BaseUint.isZero (mCurrency bal) = false ->
  wpe (trustCreate high src dst line (Some py) false false bal lim 0 0) s (created lo hi dst line (negb high) lim bal y pl ph s).
Proof.
  intros lo hi Hap Hok Hdirs Hrl Hrh Hline Hpy Hiss Hcur. unfold trustCreate. fold lo hi.
  destruct (ap_off _ _ _ Hap line (or_introl eq_refl)) as (Hll & Hlh & _).
  assert (Hroot : ~ in_dir (owner_dir lo) (getAccountRootIndex dst) /\ ~ in_dir (owner_dir hi) (getAccountRootIndex dst) /\ getAccountRootIndex dst <> line).
  { destruct (ap_off _ _ _ Hap (getAccountRootIndex dst)) as (? & ? & _); [subst lo hi; destruct high; auto|].
    pose proof (ap_roots _ _ _ Hap) as []. split_and!; try done. subst lo hi. by destruct high. }
  destruct Hroot as (Hrlo & Hrhi & Hrl').
  apply wpe_bind, (entryCreate_ok ∅); [done|done|]. intros p s1 Hok1 Hv1 Hh1 Ht1 Hs1.
  apply wpe_bind. eapply holds_field; [done|]. cbn [mIndex new_SLE]. apply (st_holds _ _ _ Hs1) in Hpy; [|done].
  eapply (list_both lo hi line s1 pl ph); [done|done|by rewrite Hv1; apply dirs_off|done|done|].
  intros nl nh pl' ph' s3 Hok3 Hm3 Hsame Hd3 Hcl Hch.
  apply (mv_holds _ _ _ Hm3) in Hpy; [|tauto]. apply (mv_holds _ _ _ Hm3) in Hh1; [|tauto]. apply (mv_touched _ _ _ Hm3) in Ht1; [|tauto].
  rewrite Hiss. rewrite xorb_true_r. apply wpe_bind. eapply wpe_pure; [by apply mk_zero_ok|].
  apply wpe_bind. eapply (edit_ok ∅); [done..|by destruct (negb high)|]. intros s4 Hok4 Hv4 Hh4 Ht4 Hs4.
  apply (st_holds _ _ _ Hs4) in Hpy; [|done]. apply wpe_bind. eapply (owner_count_ok ∅); [done|done|set_solver|].
  intros s5 Hok5 Hv5 Hpy5 Hs5. apply (st_holds _ _ _ Hs5) in Hh4; [|done]. apply (st_touched _ _ _ Hs5) in Ht4; [|done].
  apply wpe_bind. eapply (edit_ok ∅); [done..|]. intros s6 Hok6 Hv6 Hh6 Ht6 Hs6. apply wpe_ret.
  split_and!; [done|done|]. eexists nl, nh, _, pl', ph'.
  assert (Hv : view s6 = alter (setFieldAmount sfBalance (if negb high then opp bal else bal)) line (<[getAccountRootIndex dst := counted 1 y]>
     (alter (new_line (negb high) false false nl nh lim (MkSTAmount (mCurrency bal) src 0 (-100) false false) 0 0) line (view s3)))) by by rewrite Hv6, Hv5, Hv4.
  pose proof (holds_view _ _ _ _ Hh6) as Hx6. split_and!; [|done|done|exact Hx6| |].
  - rewrite Hv. do 3 (apply dirs_off; [|done..]). done.
  - rewrite Hv, lookup_alter_ne, lookup_insert_eq by done. done.
  - intros j Hj Hjl Hjh. rewrite Hv, lookup_alter_ne, lookup_insert_ne, lookup_alter_ne by (intros <-; apply Hj; auto).
    rewrite (Hsame j) by tauto. rewrite Hv1, lookup_insert_ne by (intros <-; apply Hj; auto). done.
Qed.

(** *** Deleting a line *)

(** The line is where its deletion hints say. *)
Definition listed line x (pl ph : list page) : Prop :=
  (getFieldU64 sfLowNode x, line) ∈ contents pl /\ (getFieldU64 sfHighNode x, line) ∈ contents ph.

Definition removed lo hi line x (pl ph : list page) m m' : Prop :=
  exists pl' ph', dirs lo hi m' pl' ph' /\ contents pl ≡ₚ (getFieldU64 sfLowNode x, line) :: contents pl' /\
    contents ph ≡ₚ (getFieldU64 sfHighNode x, line) :: contents ph' /\ m' !! line = None /\ same_but lo hi (eq line) m m'.

Lemma del_owner a b n i soft D s pa pb :
  pages_apart (owner_dir a) -> (forall j, in_dir (owner_dir a) j -> in_dir (owner_dir b) j -> False) ->
  (forall j, j ∈ D -> ~ in_dir (owner_dir a) j) ->
  ok D s -> dir (owner_dir a) (view s) pa -> dir (owner_dir b) (view s) pb -> (n, i) ∈ contents pa ->
  wpe (dirDelete false n (owner_dir a) i false soft) s (fun r s' =>
    r = tesSUCCESS /\ ok D s' /\ moved (in_dir (owner_dir a)) s s' /\ outside (owner_dir a) (view s) (view s') /\
    dir (owner_dir b) (view s') pb /\ exists pa', dir (owner_dir a) (view s') pa' /\ contents pa ≡ₚ (n, i) :: contents pa').
Proof.
  intros Hap Hab HD Hok Ha Hb Hi.
  assert (HD' : forall n', page_number n' -> getDirNodeIndex (owner_dir a) n' ∉ D) by (intros n' Hn' Hin; by apply (HD _ Hin); exists n').
  eapply wpe_mono; [by apply (dirDelete_ok (owner_dir a) Hap D HD' false false soft s pa n i)|].
  intros r s' (pa' & ? & ? & ? & ? & ? & ? & _ & _). split_and!; try done; [by eapply outside_dir|by exists pa'].
Qed.

Lemma trustDelete_ok lo hi line p x s pl ph :
  apart lo hi line -> ok {[line]} s -> holds s p line x -> dirs lo hi (view s) pl ph -> listed line x pl ph ->
  wpe (trustDelete p lo hi) s (fun r s' => r = tesSUCCESS /\ ok ∅ s' /\ removed lo hi line x pl ph (view s) (view s')).
Proof.
  intros Hap Hok Hh [Hdl Hdh] [Hl1 Hl2]. destruct (ap_off _ _ _ Hap line (or_introl eq_refl)) as (Hnl & Hnh & _).
  unfold trustDelete. apply wpe_bind. eapply deref_ok; [by destruct Hh as (? & _ & _ & ?)|].
  pose proof (holds_index _ _ _ _ _ Hok Hh) as ->.
  apply wpe_bind. eapply wpe_mono; [eapply (del_owner lo hi _ _ _ {[line]} s pl ph (ap_lo _ _ _ Hap) (ap_dirs _ _ _ Hap)); try done; set_solver|].
  intros r s1 (-> & Hok1 & Hm1 & Ho1 & Hdh1 & pl' & Hdl1 & Hcl). cbn [Z.eqb tesSUCCESS].
  apply (mv_holds _ _ _ Hm1) in Hh; [|done]. apply wpe_bind.
  eapply wpe_mono; [eapply (del_owner hi lo _ _ _ {[line]} s1 ph pl' (ap_hi _ _ _ Hap)); try done; [|set_solver]|].
  { intros j Hj Hj'. by apply (ap_dirs _ _ _ Hap j). }
  intros r s2 (-> & Hok2 & Hm2 & Ho2 & Hdl2 & ph' & Hdh2 & Hch). apply (mv_holds _ _ _ Hm2) in Hh; [|done].
  apply wpe_bind. eapply entryDelete_ok; [done..|]. intros s3 Hok3 Hv3 Hs3. apply wpe_ret.
  split_and!; [done|eapply ok_weaken, Hok3; set_solver|]. exists pl', ph'. rewrite Hv3. split_and!; [|done|done|apply lookup_delete_eq|].
  - by apply dirs_off.
  - intros j Hj Hjl Hjh. rewrite lookup_delete_ne by done. by rewrite (outside_at _ _ _ _ Ho2 Hjh), (outside_at _ _ _ _ Ho1 Hjl).
Qed.

(** *** Moving a balance *)

(** The balance of a line in the terms of one side. *)
Definition side (high : bool) (a : STAmount) : STAmount := if high then negate a else a.

(** The line after the credit: the reserve flag of the sender may go. *)
Definition credited_line (high released : bool) (after : STAmount) x : SLE :=
  let x := if released then setFieldU32 sfFlags (clear_flag (if negb high then lsfLowReserve else lsfHighReserve) (getFieldU32 sfFlags x)) x else x in
  setFieldAmount sfBalance (side high after) x.

Definition line_deleted (high released : bool) (after : STAmount) x : bool :=
  released && (negb (nonzero after) && negb (is_bit_set (getFieldU32 sfFlags x) (if high then lsfLowReserve else lsfHighReserve))).

(** What crediting over an existing line does, [y] being the account root of the
    sender. *)
Definition credited lo hi (src : Account) line (high : bool) (after : STAmount) x y (pl ph : list page) s (r : TER) s' : Prop :=
  let released := reserve_released high (side high (getFieldAmount sfBalance x)) after x in
  let m := if released then <[getAccountRootIndex src := counted (-1) y]> (view s) else view s in
  r = tesSUCCESS /\ ok ∅ s' /\
  if line_deleted high released after x then removed lo hi line x pl ph m (view s')
  else view s' = <[line := credited_line high released after x]> m.

Lemma credited_line_node high released after x f :
  f = sfLowNode \/ f = sfHighNode -> getFieldU64 f (credited_line high released after x) = getFieldU64 f x.
Proof.
  intros Hf. unfold credited_line, getFieldU64, setFieldAmount, setFieldU32, setField.
  destruct Hf as [-> | ->], released; cbn [mFields]; rewrite !lookup_insert_ne by discriminate; done.
Qed.

Lemma removed_shift lo hi line x x2 pl ph m m' :
  getFieldU64 sfLowNode x2 = getFieldU64 sfLowNode x -> getFieldU64 sfHighNode x2 = getFieldU64 sfHighNode x ->
  removed lo hi line x2 pl ph (<[line := x2]> m) m' -> removed lo hi line x pl ph m m'.
Proof.
  intros E1 E2 (pl' & ph' & Hd & Hl & Hh & Hn & Hs). exists pl', ph'. rewrite <- E1, <- E2. split_and!; try done.
  intros j Hj Hjl Hjh. rewrite Hs by done. by rewrite lookup_insert_ne.
Qed.

(** The end of [credit_line]: the balance is written and the line kept or deleted. *)
Lemma credit_end lo hi line high p x x1 after s pl ph (del : bool) m :
  apart lo hi line -> ok {[line]} s \/ ok ∅ s -> holds s p line x1 -> dirs lo hi m pl ph -> listed line x pl ph ->
  view s = <[line := x1]> m ->
  getFieldU64 sfLowNode (setFieldAmount sfBalance (side high after) x1) = getFieldU64 sfLowNode x ->
  getFieldU64 sfHighNode (setFieldAmount sfBalance (side high after) x1) = getFieldU64 sfHighNode x ->
  wpe (_ ← mutate p (setFieldAmount sfBalance (side high after));
       if del then trustDelete p lo hi else _ ← entryModify p; mret tesSUCCESS) s
    (fun r s' => r = tesSUCCESS /\ ok ∅ s' /\
       if del then removed lo hi line x pl ph m (view s') else view s' = <[line := setFieldAmount sfBalance (side high after) x1]> m).
Proof.
  intros Hap Hok Hh Hd Hl Hv E1 E2. assert (Hok' : ok {[line]} s) by (destruct Hok as [?|Hok]; [done|eapply ok_weaken, Hok; set_solver]).
  destruct (ap_off _ _ _ Hap line (or_introl eq_refl)) as (Hnl & Hnh & _).
  apply wpe_bind. eapply (mutate_ok {[line]} {[line]}); [done|done|done|done|right; set_solver|].
  intros s1 Hok1 Hv1 Hh1 Hs1 _. rewrite Hv, insert_insert_eq in Hv1. destruct del.
  - eapply wpe_mono; [eapply (trustDelete_ok lo hi line p _ s1 pl ph); try done|].
    + rewrite Hv1. by apply dirs_off.
    + destruct Hl as [Hl1 Hl2]. split; [by rewrite E1|by rewrite E2].
    + intros r s2 (-> & Hok2 & Hr). split_and!; try done. rewrite Hv1 in Hr. by eapply removed_shift.
  - apply wpe_bind. eapply entryModify_ok; [done..|]. intros s2 Hok2 Hv2 Hh2 _ Hs2. apply wpe_ret. split_and!; [done| |by rewrite Hv2].
    eapply ok_weaken, Hok2. set_solver.
Qed.

Lemma credit_line_ok src dst amt p x y after s pl ph :
  let high := BaseUint.gtb src dst in
  let lo := if high then dst else src in
  let hi := if negb high then dst else src in
  let line := getRippleStateIndex src dst (mCurrency amt) in
  apart lo hi line -> ok ∅ s -> holds s p line x -> view s !! getAccountRootIndex src = Some y ->
  dirs lo hi (view s) pl ph -> listed line x pl ph -> sub (side high (getFieldAmount sfBalance x)) amt = Ok after ->
  wpe (credit_line src dst amt p) s (credited lo hi src line high after x y pl ph s).
Proof.
  intros high lo hi line Hap Hok Hh Hy Hd Hl Hsub. unfold credit_line. fold high. fold lo hi.
  assert (Hroot : ~ in_dir (owner_dir lo) (getAccountRootIndex src) /\ ~ in_dir (owner_dir hi) (getAccountRootIndex src) /\
    SHAMapNode.isZero (getAccountRootIndex src) = false /\ getAccountRootIndex src <> line).
  { destruct (ap_off _ _ _ Hap (getAccountRootIndex src)) as (? & ? & ?); [subst lo hi; destruct high; auto|].
    pose proof (ap_roots _ _ _ Hap) as []. split_and!; try done. subst lo hi. by destruct high. }
  destruct Hroot as (Hrlo & Hrhi & Hrz & Hrl).
  apply wpe_bind. eapply deref_ok; [by destruct Hh as (? & _ & _ & ?)|]. apply wpe_bind.
  eapply wpe_pure; [exact Hsub|]. unfold credited. fold (side high (getFieldAmount sfBalance x)).
  destruct (reserve_released high (side high (getFieldAmount sfBalance x)) after x).
  - apply wpe_bind, wpe_bind. unfold account_root. eapply (read_entry ∅); [done..|]. intros q s1 Hok1 Hk1 Hq.
    apply (kp_holds _ _ Hk1) in Hh. apply wpe_bind. eapply (owner_count_ok ∅); [done|done|set_solver|].
    intros s2 Hok2 Hv2 Hq2 Hs2. apply (st_holds _ _ _ Hs2) in Hh; [|done]. rewrite (kp_view _ _ Hk1) in Hv2.
    apply wpe_bind. eapply (mutate_ok ∅ {[line]}); [done|done|done|set_solver|right; set_solver|].
    intros s3 Hok3 Hv3 Hh3 Hs3 _. apply wpe_ret. unfold line_deleted. cbn [andb]. rewrite Hv2 in Hv3.
    eapply credit_end; [done|by left|done|by apply dirs_off|done|done|..].
    + apply (credited_line_node high true after x); auto.
    + apply (credited_line_node high true after x); auto.
  - apply wpe_bind, wpe_ret. eapply (credit_end lo hi line high p x x after s pl ph false (view s)); [done|by right|done|done|done|..].
    + symmetry. apply insert_id. by eapply holds_view.
    + apply (credited_line_node high false after x); auto.
    + apply (credited_line_node high false after x); auto.
Qed.

Lemma credit_existing src dst amt x y after s pl ph :
  let high := BaseUint.gtb src dst in
  let lo := if high then dst else src in
  let hi := if negb high then dst else src in
  let line := getRippleStateIndex src dst (mCurrency amt) in
  apart lo hi line -> ok ∅ s -> view s !! line = Some x -> view s !! getAccountRootIndex src = Some y ->
  dirs lo hi (view s) pl ph -> listed line x pl ph -> sub (side high (getFieldAmount sfBalance x)) amt = Ok after ->
  wpe (rippleCredit src dst amt) s (credited lo hi src line high after x y pl ph s).
Proof.
  intros high lo hi line Hap Hok Hx Hy Hd Hl Hsub. unfold rippleCredit. fold line. apply wpe_bind.
  destruct (ap_off _ _ _ Hap line (or_introl eq_refl)) as (_ & _ & Hz).
  eapply (read_entry ∅); [done..|]. intros p s1 Hok1 Hk1 Hp.
  eapply wpe_mono; [apply (credit_line_ok src dst amt p x y after s1 pl ph); rewrite ?(kp_view _ _ Hk1); done|].
  intros r s' H. unfold credited in *. by rewrite (kp_view _ _ Hk1) in H.
Qed.

(** *** What a credit comes to *)

(** One account's half of a line: its limit, its qualities and its bits of the
    flags. *)
Record half : Type := {
  h_limit : STAmount; h_quality_in : Z; h_quality_out : Z; h_reserve : bool; h_no_ripple : bool }.

Definition half_of (high : bool) x : half :=
  let flags := getFieldU32 sfFlags x in
  if high then
    {| h_limit := getFieldAmount sfHighLimit x; h_quality_in := getFieldU32 sfHighQualityIn x; h_quality_out := getFieldU32 sfHighQualityOut x;
       h_reserve := Z.testbit flags 17; h_no_ripple := Z.testbit flags 21 |}
  else
    {| h_limit := getFieldAmount sfLowLimit x; h_quality_in := getFieldU32 sfLowQualityIn x; h_quality_out := getFieldU32 sfLowQualityOut x;
       h_reserve := Z.testbit flags 16; h_no_ripple := Z.testbit flags 20 |}.

(** An account has no more interest in a line: its balance went from positive to
    zero or below, it pays a reserve for the line, and its half is at the defaults. *)
Definition quits (before after : STAmount) (h : half) : Prop :=
  0 < signum before /\ signum after <= 0 /\ h_reserve h = true /\
  h_no_ripple h = false /\ mValue (h_limit h) = 0 /\ h_quality_in h = 0 /\ h_quality_out h = 0.

(** No one has: nothing is left on it and the other side pays no reserve. *)
Definition abandoned (after : STAmount) (other : half) : Prop := mValue after = 0 /\ h_reserve other = false.

(** One less in an owner count, if any. *)
Definition one_less y : SLE :=
  let c := getFieldU32 sfOwnerCount y in if decide (c = 0) then y else setFieldU32 sfOwnerCount (c - 1) y.

Lemma counted_less y : 0 <= getFieldU32 sfOwnerCount y < 2147483647 -> counted (-1) y = one_less y.
Proof.
  intros Hc. unfold counted, one_less. set (c := getFieldU32 sfOwnerCount y) in *. rewrite (swrap_id 32 c), (swrap_id 32 (-1 + c)) by (unfold in_s; lia).
  case_decide as E0; [by rewrite E0|]. rewrite u32_id by lia.
  destruct (Z.ltb_spec 0 (-1 + c)); (rewrite (proj2 (Z.eqb_neq _ _)) by lia); cbn [negb]; f_equal; lia.
Qed.

Lemma bit_set_testbit f n : 0 <= n -> is_bit_set f (2 ^ n) = Z.testbit f n.
Proof.
  intros Hn. unfold is_bit_set, Book.is_bit_set. destruct (Z.testbit f n) eqn:E.
  - destruct (Z.eqb_spec (Z.land f (2 ^ n)) 0) as [H|]; [|done]. apply (f_equal (fun z => Z.testbit z n)) in H.
    by rewrite Z.land_spec, E, Z.pow2_bits_true, Z.bits_0 in H.
  - assert (Z.land f (2 ^ n) = 0) as ->; [|done]. apply Z.bits_inj'. intros k Hk. rewrite Z.land_spec, Z.bits_0, Z.pow2_bits_eqb by done.
    destruct (Z.eqb_spec n k) as [<-|]; [by rewrite E|by rewrite andb_false_r].
Qed.

Lemma clear_flag_clearbit f n : 0 <= n < 32 -> clear_flag (2 ^ n) f = Z.clearbit (u32 f) n.
Proof.
  intros Hn. unfold clear_flag, u32. apply Z.bits_inj'. intros k Hk. rewrite Z.clearbit_eqb by lia.
  rewrite <- !Z.land_ones by lia. rewrite !Z.land_spec, Z.lnot_spec, Z.pow2_bits_eqb, Z.testbit_ones_nonneg by lia.
  destruct (Z.testbit f k), (Z.eqb_spec n k), (Z.ltb_spec k 32); done.
Qed.

Lemma half_reserve (high : bool) x :
  h_reserve (half_of high x) = is_bit_set (getFieldU32 sfFlags x) (if negb high then lsfLowReserve else lsfHighReserve).
Proof. destruct high; symmetry; [apply (bit_set_testbit _ 17)|apply (bit_set_testbit _ 16)]; lia. Qed.

Lemma half_no_ripple (high : bool) x :
  h_no_ripple (half_of high x) = is_bit_set (getFieldU32 sfFlags x) (if negb high then lsfLowNoRipple else lsfHighNoRipple).
Proof. destruct high; symmetry; [apply (bit_set_testbit _ 21)|apply (bit_set_testbit _ 20)]; lia. Qed.

Lemma released_quits high before after x : reserve_released high before after x = true <-> quits before after (half_of high x).
Proof.
  unfold reserve_released, quits, positive, nonzero. rewrite half_reserve, half_no_ripple, is_zero_spec, negb_involutive.
  rewrite !andb_true_iff, !negb_true_iff, Z.ltb_lt, Z.ltb_ge, !Z.eqb_eq. destruct high; cbn [half_of h_limit h_quality_in h_quality_out negb]; tauto.
Qed.

Lemma deleted_abandoned high after x : line_deleted high true after x = true <-> abandoned after (half_of (negb high) x).
Proof.
  unfold line_deleted, abandoned, nonzero. rewrite half_reserve, is_zero_spec, negb_involutive.
  rewrite !andb_true_iff, negb_true_iff, Z.eqb_eq. destruct high; cbn [negb]; tauto.
Qed.

(** The line with a new balance, and without one side's reserve bit. *)
Definition with_balance (high : bool) (after : STAmount) x : SLE := setFieldAmount sfBalance (side high after) x.
Definition without_reserve (high : bool) x : SLE :=
  setFieldU32 sfFlags (Z.clearbit (u32 (getFieldU32 sfFlags x)) (if high then 17 else 16)) x.

(** The three outcomes of a credit over an existing line: the sender stays on it;
    it leaves and the line remains; it leaves and the line goes. *)
Definition accounted lo hi (src : Account) line (high : bool) (after : STAmount) x y (pl ph : list page) s (r : TER) s' : Prop :=
  let leaves := quits (side high (getFieldAmount sfBalance x)) after (half_of high x) in
  let gone := abandoned after (half_of (negb high) x) in
  let m := <[getAccountRootIndex src := one_less y]> (view s) in
  r = tesSUCCESS /\ ok ∅ s' /\
  (~ leaves -> view s' = <[line := with_balance high after x]> (view s)) /\
  (leaves -> ~ gone -> view s' = <[line := with_balance high after (without_reserve high x)]> m) /\
  (leaves -> gone -> removed lo hi line x pl ph m (view s')).

Lemma credited_accounted lo hi src line high after x y pl ph s r s' :
  0 <= getFieldU32 sfOwnerCount y < 2147483647 ->
  credited lo hi src line high after x y pl ph s r s' -> accounted lo hi src line high after x y pl ph s r s'.
Proof.
  intros Hc (-> & Hok & H). unfold accounted. rewrite <- released_quits, <- deleted_abandoned, <- (counted_less y Hc).
  destruct (reserve_released high _ after x); [|split_and!; done].
  split_and!; [done|done|done|intros _ Hg|intros _ Hg; by rewrite Hg in H].
  apply not_true_is_false in Hg. rewrite Hg in H. rewrite H. unfold credited_line, with_balance, without_reserve.
  destruct high; cbn [negb]; [rewrite (clear_flag_clearbit _ 17) by lia|rewrite (clear_flag_clearbit _ 16) by lia]; done.
Qed.

(** C21: crediting over a trust line.  On a line between two accounts that is listed
    in both owner directories, [rippleCredit] takes the amount from the balance in
    the sender's terms and returns [tesSUCCESS].  The sender leaves the line exactly
    when its balance falls from positive to zero or below, its reserve bit is set,
    its NoRipple bit is not, and its own limit and qualities are zero: then its
    reserve bit is cleared and its owner count goes down by one.  The line is
    deleted, from the ledger and from both directories, exactly when the sender
    leaves, the balance is zero and the receiver's reserve bit is not set either.
    Nothing else changes. *)
Theorem credit_accounting src dst amt x y after s pl ph :
  let high := BaseUint.gtb src dst in
  let lo := if high then dst else src in
  let hi := if negb high then dst else src in
  let line := getRippleStateIndex src dst (mCurrency amt) in
  apart lo hi line -> ok ∅ s -> view s !! line = Some x -> view s !! getAccountRootIndex src = Some y ->
  0 <= getFieldU32 sfOwnerCount y < 2147483647 ->
  dirs lo hi (view s) pl ph -> listed line x pl ph -> sub (side high (getFieldAmount sfBalance x)) amt = Ok after ->
  wpe (rippleCredit src dst amt) s (accounted lo hi src line high after x y pl ph s).
Proof.
  intros high lo hi line Hap Hok Hx Hy Hc Hd Hl Hsub. eapply wpe_mono; [by apply (credit_existing src dst amt x y after s pl ph)|].
  intros r s'. by apply credited_accounted.
Qed.

(** *** There and back *)

Abbreviation wf_account := (BaseUint.wf BaseUint.W160).

Lemma compare_swap a b : wf_account a -> wf_account b -> a <> b ->
  BaseUint.compare b a = - BaseUint.compare a b /\ BaseUint.compare a b <> 0.
Proof.
  intros Ha Hb Hne. rewrite !(BaseUint.compare_spec BaseUint.W160) by done.
  rewrite (Z.compare_antisym (BaseUint.toZ a)). destruct (Z.compare_spec (BaseUint.toZ a) (BaseUint.toZ b)) as [E|E|E]; cbn; try lia.
  destruct Hne. by eapply (BaseUint.toZ_inj BaseUint.W160).
Qed.

Lemma gtb_swap a b : wf_account a -> wf_account b -> a <> b -> BaseUint.gtb b a = negb (BaseUint.gtb a b).
Proof.
  intros Ha Hb Hne. unfold BaseUint.gtb. destruct (compare_swap a b Ha Hb Hne) as [-> ?].
  destruct (Z.ltb_spec 0 (- BaseUint.compare a b)), (Z.ltb_spec 0 (BaseUint.compare a b)); try done; lia.
Qed.

Lemma line_swap a b cur : wf_account a -> wf_account b -> a <> b -> getRippleStateIndex b a cur = getRippleStateIndex a b cur.
Proof.
  intros Ha Hb Hne. unfold getRippleStateIndex.
  assert (BaseUint.ltb b a = negb (BaseUint.ltb a b)) as ->; [|by destruct (BaseUint.ltb a b)].
  unfold BaseUint.ltb. destruct (compare_swap a b Ha Hb Hne) as [-> ?].
  destruct (Z.ltb_spec (- BaseUint.compare a b) 0), (Z.ltb_spec (BaseUint.compare a b) 0); try done; lia.
Qed.

(** An issued amount that can be sent. *)
Definition sendable (a : STAmount) : Prop :=
  mIsNative a = false /\ mIsNegative a = false /\ 0 < mValue a < 9223372036854775808 /\
  BaseUint.isZero (mCurrency a) = false /\ wf_account (mCurrency a).

Lemma sub_self a iss : sendable a -> sub (setIssuer iss a) a = Ok (MkSTAmount (mCurrency a) iss 0 (-100) false false).
Proof.
  intros (Hn & Hneg & Hv & Hc & Hwf). unfold sub, throwComparable, isComparable, setIssuer. cbn [mIsNative mCurrency].
  rewrite Hn, (proj2 (BaseUint.eqb_spec BaseUint.W160 (mCurrency a) (mCurrency a) Hwf Hwf) eq_refl). cbn [negb mbind result_bind].
  rewrite !is_zero_spec. cbn [mValue]. destruct (Z.eqb_spec (mValue a) 0); [lia|]. unfold signed_value. cbn [mValue mOffset mIsNegative mIsNative].
  rewrite Hneg, i64_id by lia. unfold align.
  rewrite Z.sub_diag. change (Z.to_nat 0) with 0%nat. cbn [while]. rewrite Z.sub_diag. change (Z.to_nat 0) with 0%nat. cbn [while].
  rewrite Z.sub_diag. by apply mk_zero_ok.
Qed.

Lemma side_back (h : bool) a : mValue a <> 0 -> side h (if h then opp a else a) = a.
Proof.
  intros Hv. destruct h; [|done]. unfold side, opp, negate. destruct (Z.eqb_spec (mValue a) 0); [done|].
  rewrite is_zero_spec. cbn [with_value mValue]. destruct (Z.eqb_spec (mValue a) 0); [done|]. cbn [negb].
  destruct a as [c i v o nt g]. unfold with_value. cbn. by rewrite negb_involutive.
Qed.

(** The fields of a new line. *)
Lemma line_of_fields (h : bool) nl nh lim other bal line :
  let x := line_of h nl nh lim other bal line in
  getFieldU64 sfLowNode x = nl /\ getFieldU64 sfHighNode x = nh /\ getFieldAmount sfBalance x = (if h then opp bal else bal) /\
  getFieldU32 sfFlags x = (if negb h then lsfLowReserve else lsfHighReserve) /\
  getFieldAmount (if negb h then sfLowLimit else sfHighLimit) x = lim /\
  getFieldU32 (if negb h then sfLowQualityIn else sfHighQualityIn) x = 0 /\
  getFieldU32 (if negb h then sfLowQualityOut else sfHighQualityOut) x = 0.
Proof. destruct h; split_and!; reflexivity. Qed.

(** Sending the whole balance of such a line releases and deletes it. *)
Lemma new_line_goes (h : bool) nl nh lim other bal line after :
  0 < signum bal -> mValue after = 0 -> mValue lim = 0 ->
  let x := line_of h nl nh lim other bal line in
  reserve_released h bal after x = true /\ line_deleted h true after x = true.
Proof.
  intros Hb Ha Hl x. destruct (line_of_fields h nl nh lim other bal line) as (_ & _ & _ & Hf & Hlim & Hqi & Hqo). fold x in Hf, Hlim, Hqi, Hqo.
  unfold reserve_released, line_deleted, positive, nonzero. rewrite Hf, Hlim, Hqi, Hqo, !is_zero_spec, Ha, Hl.
  rewrite (proj2 (Z.ltb_lt 0 (signum bal))) by done. unfold signum. rewrite Ha. destruct h; done.
Qed.

Lemma counted_fields d x f : f <> sfOwnerCount -> mFields (counted d x) !! f = mFields x !! f.
Proof. intros Hf. unfold counted. destruct (negb _); [|done]. unfold setFieldU32, setField. cbn [mFields]. by rewrite lookup_insert_ne. Qed.

(** Crediting where there is no line makes one. *)
Lemma credit_creates src dst amt y s pl ph :
  let high := BaseUint.gtb src dst in
  let lo := if high then dst else src in
  let hi := if negb high then dst else src in
  let line := getRippleStateIndex src dst (mCurrency amt) in
  apart lo hi line -> ok ∅ s -> view s !! line = None -> view s !! getAccountRootIndex dst = Some y ->
  dirs lo hi (view s) pl ph -> room pl -> room ph -> BaseUint.isZero (mCurrency amt) = false -> BaseUint.eqb dst dst = true ->
  wpe (rippleCredit src dst amt) s
    (created lo hi dst line (negb high) (MkSTAmount (mCurrency amt) dst 0 (-100) false false) (setIssuer ACCOUNT_ONE amt) y pl ph s).
Proof.
  intros high lo hi line Hap Hok Hx Hy Hd Hrl Hrh Hc Hdst. unfold rippleCredit. fold line high.
  destruct (ap_off _ _ _ Hap line (or_introl eq_refl)) as (_ & _ & Hz).
  destruct (ap_off _ _ _ Hap (getAccountRootIndex dst)) as (_ & _ & Hzr); [subst lo hi; destruct high; auto|].
  apply wpe_bind, (entryCache_ok ∅); [done|done| |congruence]. intros s1 Hok1 Hk1 _. rewrite <- (kp_view _ _ Hk1) in Hx, Hy, Hd.
  apply wpe_bind. eapply wpe_pure; [by apply mk_zero_ok|]. apply wpe_bind. unfold account_root.
  eapply (read_entry ∅); [done..|]. intros q s2 Hok2 Hk2 Hq. rewrite <- (kp_view _ _ Hk2) in Hx, Hd.
  assert (El : lo = if negb high then src else dst) by (subst lo; by destruct high).
  assert (Eh : hi = if high then src else dst) by (subst hi; by destruct high). clearbody lo hi. subst lo hi.
  eapply wpe_mono; [by eapply (trustCreate_ok high src dst line q y _ _ s2 pl ph)|].
  intros r s' (-> & Hok' & H). split_and!; try done. by rewrite <- (kp_view _ _ Hk1), <- (kp_view _ _ Hk2).
Qed.

(** Sending back over the line that was made. *)
Lemma credit_back src dst amt nl nh other y s pl ph :
  let high := BaseUint.gtb src dst in
  let lo := if high then dst else src in
  let hi := if negb high then dst else src in
  let line := getRippleStateIndex src dst (mCurrency amt) in
  let x := line_of (negb high) nl nh (MkSTAmount (mCurrency amt) dst 0 (-100) false false) other (setIssuer ACCOUNT_ONE amt) line in
  wf_account src -> wf_account dst -> src <> dst -> sendable amt -> apart lo hi line ->
  ok ∅ s -> dirs lo hi (view s) pl ph -> view s !! line = Some x -> view s !! getAccountRootIndex dst = Some y ->
  (nl, line) ∈ contents pl -> (nh, line) ∈ contents ph ->
  wpe (rippleCredit dst src amt) s (fun r s' =>
    r = tesSUCCESS /\ ok ∅ s' /\ removed lo hi line x pl ph (<[getAccountRootIndex dst := counted (-1) y]> (view s)) (view s')).
Proof.
  intros high lo hi line x Hws Hwd Hne Hamt Hap Hok Hd Hx Hy Hnl Hnh. pose proof Hamt as (Hnn & Hneg & Hv & Hc & Hwc).
  set (lim := MkSTAmount (mCurrency amt) dst 0 (-100) false false) in *. set (bal := setIssuer ACCOUNT_ONE amt) in *.
  destruct (line_of_fields (negb high) nl nh lim other bal line) as (Enl & Enh & Hbal & _). fold x in Enl, Enh, Hbal.
  set (after := MkSTAmount (mCurrency amt) ACCOUNT_ONE 0 (-100) false false).
  assert (Hh : BaseUint.gtb dst src = negb high) by by apply gtb_swap.
  assert (Hside : side (negb high) (getFieldAmount sfBalance x) = bal) by (rewrite Hbal; apply side_back; cbn; lia).
  pose proof (credit_existing dst src amt x y after s pl ph) as H. cbv zeta in H. rewrite Hh, (line_swap src dst) in H by done. fold line in H.
  replace (if negb high then src else dst) with lo in H by (subst lo; by destruct high).
  replace (if negb (negb high) then src else dst) with hi in H by (subst hi; by destruct high).
  eapply wpe_mono; [apply H; try done|].
  - split; by rewrite ?Enl, ?Enh.
  - rewrite Hside. by apply sub_self.
  - intros r s' (-> & Hok' & Hr). rewrite Hside in Hr.
    destruct (new_line_goes (negb high) nl nh lim other bal line after) as [Hrel Hdel]; [|done|done|].
    + unfold signum, bal. cbn. rewrite Hneg. destruct (Z.eqb_spec (mValue amt) 0); lia.
    + fold x in Hrel, Hdel. rewrite Hrel, Hdel in Hr. done.
Qed.

(** C19: a payment over a new trust line can be sent back.  When there is no line
    between two accounts, [rippleCredit] of an issued amount makes one, which costs
    the receiver a reserve; sending the same amount back deletes it again.  After
    both, there is no line, the owner directories have the entries they had, the
    receiver's account root is as it was with the same owner count, and no other
    entry changed. *)
Theorem credit_roundtrip src dst amt y s pl ph :
  let high := BaseUint.gtb src dst in
  let lo := if high then dst else src in
  let hi := if negb high then dst else src in
  let line := getRippleStateIndex src dst (mCurrency amt) in
  wf_account src -> wf_account dst -> src <> dst -> sendable amt -> apart lo hi line ->
  ok ∅ s -> dirs lo hi (view s) pl ph -> room pl -> room ph ->
  view s !! line = None -> view s !! getAccountRootIndex dst = Some y -> 0 <= getFieldU32 sfOwnerCount y < 2147483646 ->
  wpe (_ ← rippleCredit src dst amt; rippleCredit dst src amt) s (fun r s' =>
    r = tesSUCCESS /\ ok ∅ s' /\ view s' !! line = None /\
    (exists pl' ph', dirs lo hi (view s') pl' ph' /\ contents pl' ≡ₚ contents pl /\ contents ph' ≡ₚ contents ph) /\
    (exists y', view s' !! getAccountRootIndex dst = Some y' /\ getFieldU32 sfOwnerCount y' = getFieldU32 sfOwnerCount y /\
       forall f, f <> sfOwnerCount -> mFields y' !! f = mFields y !! f) /\
    same_but lo hi (fun j => j = line \/ j = getAccountRootIndex dst) (view s) (view s')).
Proof.
  intros high lo hi line Hws Hwd Hne Hamt Hap Hok Hd Hrl Hrh Hline Hy Hcnt. pose proof Hamt as (Hnn & Hneg & Hv & Hc & Hwc).
  apply wpe_bind. eapply wpe_mono; [eapply (credit_creates src dst amt y s pl ph); try done; by apply (BaseUint.eqb_spec BaseUint.W160)|].
  fold high lo hi line. intros r s1 (-> & Hok1 & nl & nh & other & pl1 & ph1 & Hd1 & Hcl & Hch & Hx1 & Hy1 & Hs1).
  eapply wpe_mono; [eapply (credit_back src dst amt nl nh other (counted 1 y) s1 pl1 ph1); try done|].
  - rewrite Hcl. set_solver.
  - rewrite Hch. set_solver.
  - fold high lo hi line. intros r s2 (-> & Hok2 & pl2 & ph2 & Hd2 & Hcl2 & Hch2 & Hn2 & Hs2).
    destruct (line_of_fields (negb high) nl nh (MkSTAmount (mCurrency amt) dst 0 (-100) false false) other (setIssuer ACCOUNT_ONE amt) line)
      as (Enl & Enh & _). rewrite Enl, Hcl in Hcl2. rewrite Enh, Hch in Hch2.
    destruct (ap_off _ _ _ Hap (getAccountRootIndex dst)) as (Hrlo & Hrhi & _); [subst lo hi; destruct high; auto|].
    assert (Hrl' : line <> getAccountRootIndex dst) by (pose proof (ap_roots _ _ _ Hap) as []; subst lo hi; destruct high; congruence).
    split_and!; [done|done|done| | |].
    + exists pl2, ph2. split_and!; [done| |].
      * apply (Permutation_cons_inv (a := (nl, line))). rewrite <- Hcl2. symmetry. apply Permutation_cons_append.
      * apply (Permutation_cons_inv (a := (nh, line))). rewrite <- Hch2. symmetry. apply Permutation_cons_append.
    + exists (counted (-1) (counted 1 y)). split_and!.
      * rewrite (Hs2 (getAccountRootIndex dst)) by done. by rewrite lookup_insert_eq.
      * assert (E : getFieldU32 sfOwnerCount (counted 1 y) = getFieldU32 sfOwnerCount y + 1) by (rewrite counted_value by lia; lia).
        rewrite counted_value by lia. lia.
      * intros f Hf. by rewrite !counted_fields.
    + intros j Hj Hjl Hjh. rewrite (Hs2 j); [|by intros ->; apply Hj; left|done|done].
      rewrite lookup_insert_ne by (intros E; apply Hj; by right). by apply Hs1.
Qed.

End Lines.
(** ** Concrete payments *)

Section Samples.
#[local] Existing Instance Tail.
#[local] Existing Instance Z_bignum.

Definition alice : Account := BaseUint.of_u64 BaseUint.W160 7.
Definition bob : Account := BaseUint.of_u64 BaseUint.W160 8.
Definition usd : uint160 := BaseUint.of_u64 BaseUint.W160 840.
Definition ten_usd : STAmount := MkSTAmount usd alice 1000000000000000 (-14) false false.

Definition account (drops : Z) (a : Account) : SLE :=
  setFieldAmount sfBalance (mk_native drops false) (setFieldU32 sfOwnerCount 3 (new_SLE ltACCOUNT_ROOT (getAccountRootIndex a))).

Definition bank : Ledger :=
  {| mAccountState := <[getAccountRootIndex alice := account 1000 alice]> (<[getAccountRootIndex bob := account 50 bob]> ∅);
     mBaseFee := 10; mReferenceFeeUnits := 10; mReserveBase := 1000; mReserveIncrement := 100 |}.

Lemma bank_ok : ledger_ok bank.
Proof. apply map_Forall_insert_2; [by vm_compute|]. apply map_Forall_insert_2; [by vm_compute|]. apply map_Forall_empty. Defined.

Definition bank_state : State := fresh bank 0.

Lemma bank_view : ok ∅ bank_state /\ view bank_state = mAccountState bank.
Proof. exact (fresh_ok bank 0 bank_ok). Defined.

Lemma native_payment_witness :
  wpe (accountSend alice bob (mk_native 300 false)) bank_state (paid alice bob (mk_native 300 false) (account 1000 alice) (account 50 bob) bank_state).
Proof.
  apply (native_payment alice bob (mk_native 300 false) (account 1000 alice) (account 50 bob) bank_state (proj1 bank_view)).
  - vm_compute. reflexivity.
  - vm_compute. reflexivity.
  - intros E. vm_compute in E. discriminate E.
  - vm_compute. reflexivity.
  - vm_compute. reflexivity.
  - vm_compute. reflexivity.
  - vm_compute. reflexivity.
  - vm_compute. reflexivity.
  - by_decide.
  - by_decide.
  - by_decide.
  - vm_compute. reflexivity.
Defined.

(** An index off the pages of a directory under this digest. *)
Lemma off_pages r i : length r = 32%nat -> i <> r -> take 24 i <> 1 :: map u8 (drop 9 r) -> ~ in_dir r i.
Proof.
  intros Hr Hir Hne (n & Hn & ->). destruct (decide (n = 0)) as [->|Hz]; [done|]. apply Hne. rewrite tail_index by done.
  cbn [take]. f_equal. apply take_app_length'. rewrite length_map, length_drop. lia.
Qed.

Lemma dirs_apart r r' : length r = 32%nat -> length r' = 32%nat -> r <> r' ->
  take 24 r <> 1 :: map u8 (drop 9 r') -> take 24 r' <> 1 :: map u8 (drop 9 r) -> map u8 (drop 9 r) <> map u8 (drop 9 r') ->
  forall i, in_dir r i -> in_dir r' i -> False.
Proof.
  intros Hr Hr' Hne H1 H2 H3 i (n & Hn & ->) (n' & Hn' & E). destruct (decide (n = 0)) as [->|Hz].
  - apply (off_pages r' r); [done|done|done|]. by exists n'.
  - destruct (decide (n' = 0)) as [->|Hz'].
    + apply (off_pages r r'); [done|done|done|]. exists n. by split.
    + rewrite !tail_index in E by done. injection E as E. apply H3.
      apply (f_equal (take 23)) in E. rewrite !take_app_length' in E by (rewrite length_map, length_drop; lia). done.
Qed.

Definition line_ab : uint256 := getRippleStateIndex alice bob usd.

Lemma bank_apart : apart alice bob line_ab.
Proof.
  split.
  - apply tail_apart; by vm_compute.
  - apply tail_apart; by vm_compute.
  - apply dirs_apart; by vm_compute.
  - intros i Hi. repeat destruct Hi as [->|Hi]; [| |subst i]; (split_and!; [apply off_pages; by vm_compute|apply off_pages; by vm_compute|by vm_compute]).
  - split; by vm_compute.
Qed.

(** No page of a directory is in the bank. *)
Lemma bank_no_dir a : a = alice \/ a = bob -> dir (getOwnerDirIndex a) (view bank_state) [].
Proof.
  intros Ha. rewrite (proj2 bank_view). apply dir_none. intros n Hn.
  assert (Hoff : forall b, b = alice \/ b = bob -> getAccountRootIndex b <> getDirNodeIndex (getOwnerDirIndex a) n).
  { intros b Hb E. destruct Ha as [-> | ->], Hb as [-> | ->];
      (eapply off_pages; [|  | |exists n; split; [exact Hn|exact E]]; by vm_compute). }
  unfold bank, mAccountState. rewrite !lookup_insert_ne by (apply Hoff; auto). apply lookup_empty.
Qed.

Lemma credit_roundtrip_witness :
  wpe (_ ← rippleCredit alice bob ten_usd; rippleCredit bob alice ten_usd) bank_state (fun r s' =>
    r = tesSUCCESS /\ view s' !! line_ab = None).
Proof.
  eapply wpe_mono; [apply (credit_roundtrip alice bob ten_usd (account 50 bob) bank_state [] [])|].
  - by_decide.
  - by_decide.
  - intros E. vm_compute in E. discriminate E.
  - split_and!; [done|done|done|done|done|by_decide].
  - exact bank_apart.
  - exact (proj1 bank_view).
  - split; apply bank_no_dir; auto.
  - unfold room. cbn. lia.
  - unfold room. cbn. lia.
  - vm_compute. reflexivity.
  - vm_compute. reflexivity.
  - vm_compute. split; [discriminate|reflexivity].
  - intros r s' (? & _ & ? & _). by split.
Defined.

(** The bank with a line over which Bob holds ten of Alice's dollars. *)
Definition ab_line : SLE :=
  line_of true 0 0 (MkSTAmount usd bob 0 (-100) false false) (MkSTAmount usd alice 0 (-100) false false) (setIssuer ACCOUNT_ONE ten_usd) line_ab.
Definition ab_page (a : Account) : SLE := setFieldV256 sfIndexes [line_ab] (new_SLE ltDIR_NODE (getOwnerDirIndex a)).
Definition lent : Ledger :=
  {| mAccountState := <[line_ab := ab_line]> (<[getOwnerDirIndex bob := ab_page bob]> (<[getOwnerDirIndex alice := ab_page alice]> (mAccountState bank)));
     mBaseFee := 10; mReferenceFeeUnits := 10; mReserveBase := 1000; mReserveIncrement := 100 |}.

Lemma lent_view : ok ∅ (fresh lent 0) /\ view (fresh lent 0) = mAccountState lent.
Proof.
  apply fresh_ok. apply map_Forall_insert_2; [by vm_compute|]. apply map_Forall_insert_2; [by vm_compute|].
  apply map_Forall_insert_2; [by vm_compute|]. exact bank_ok.
Defined.

Lemma lent_dirs : dirs alice bob (view (fresh lent 0)) [(0, [line_ab])] [(0, [line_ab])].
Proof.
  rewrite (proj2 lent_view). destruct (ap_off _ _ _ bank_apart line_ab (or_introl eq_refl)) as (H1 & H2 & _).
  apply dirs_off; [|done..].
  assert (Ha : dir (getOwnerDirIndex alice) (<[getOwnerDirIndex alice := ab_page alice]> (mAccountState bank)) [(0, [line_ab])]).
  { eapply dir_new; [apply bank_apart|rewrite <- (proj2 bank_view); apply bank_no_dir; auto| |done]. split_and!; by vm_compute. }
  assert (Hoff : forall a b, a = alice /\ b = bob \/ a = bob /\ b = alice -> forall m x ps,
    dir (getOwnerDirIndex a) m ps -> dir (getOwnerDirIndex a) (<[getOwnerDirIndex b := x]> m) ps).
  { intros a b Hab m x ps Hd. eapply dir_frame; [done|]. intros n Hn. rewrite lookup_insert_ne; [done|]. intros E.
    eapply (off_pages (getOwnerDirIndex a) (getOwnerDirIndex b)); [| | |exists n; split; [exact Hn|exact E]]; destruct Hab as [[-> ->]|[-> ->]]; by vm_compute. }
  split; [apply Hoff; [by left|exact Ha]|].
  eapply dir_new; [apply bank_apart| | |done]; [apply Hoff; [by right|]|split_and!; by vm_compute].
  rewrite <- (proj2 bank_view). apply bank_no_dir; auto.
Qed.

Lemma credit_accounting_witness :
  wpe (rippleCredit bob alice ten_usd) (fresh lent 0)
    (accounted alice bob bob line_ab true (MkSTAmount usd ACCOUNT_ONE 0 (-100) false false) ab_line (account 50 bob)
       [(0, [line_ab])] [(0, [line_ab])] (fresh lent 0)).
Proof.
  apply (credit_accounting bob alice ten_usd ab_line (account 50 bob) (MkSTAmount usd ACCOUNT_ONE 0 (-100) false false) (fresh lent 0) [(0, [line_ab])] [(0, [line_ab])]).
  - exact bank_apart.
  - exact (proj1 lent_view).
  - vm_compute. reflexivity.
  - vm_compute. reflexivity.
  - vm_compute. split; congruence.
  - exact lent_dirs.
  - split; apply list_elem_of_singleton; vm_compute; reflexivity.
  - vm_compute. reflexivity.
Defined.

(** The direct branch of [rippleSend] drops the result of [rippleCredit]: when the
    receiver's owner directory is full the line cannot be entered, and the sender
    is told that the payment was made. *)
Definition full_page : SLE :=
  setFieldU64 sfIndexPrevious 18446744073709551615 (setFieldV256 sfIndexes [] (new_SLE ltDIR_NODE (getOwnerDirIndex bob))).
Definition last_index : uint256 := getDirNodeIndex (getOwnerDirIndex bob) 18446744073709551615.
Definition last_full_page : SLE := setFieldV256 sfIndexes (replicate 32 line_ab) (new_SLE ltDIR_NODE last_index).
Definition crowded : Ledger :=
  {| mAccountState := <[last_index := last_full_page]> (<[getOwnerDirIndex bob := full_page]> (mAccountState bank));
     mBaseFee := 10; mReferenceFeeUnits := 10; mReserveBase := 1000; mReserveIncrement := 100 |}.

Example direct_send_hides_failure :
  result_of (rippleCredit alice bob ten_usd) (fresh crowded 0) = Ok tecDIR_FULL /\
  result_of (accountSend alice bob ten_usd) (fresh crowded 0) = Ok tesSUCCESS.
Proof. vm_compute. auto. Qed.

(** [ownerCountAdjust] computes a count clamped at zero and then stores the sum. *)
Example count_not_clamped :
  getFieldU32 sfOwnerCount (counted (-2) (setFieldU32 sfOwnerCount 1 (account 0 bob))) = 4294967295.
Proof. vm_compute. reflexivity. Qed.

(** What a frozen holder has is the native zero, whatever the currency. *)
Example frozen_is_native :
  let issuer := setFieldU32 sfFlags lsfRequireAuth (account 0 alice) in
  let line := setFieldU32 sfFlags lsfHighAuth ab_line in
  let l := {| mAccountState := <[line_ab := line]> (<[getAccountRootIndex alice := issuer]> ∅);
              mBaseFee := 10; mReferenceFeeUnits := 10; mReserveBase := 1000; mReserveIncrement := 100 |} in
  mIsNative <$> result_of (accountHolds bob usd alice) (fresh l 0) = Ok true.
Proof. vm_compute. reflexivity. Qed.

End Samples.
End TrustLaws.
