(* ===== verification/TxMeta.v ===== *)
(** * Transaction metadata

    [LedgerEntrySet::getForMod], [threadTx], [threadOwners] and [calcRawMeta] of
    [src/src/ripple_app/ledger/LedgerEntrySet.cpp], [TransactionMetaSet] of
    [src/src/ripple_app/tx/TransactionMeta.cpp], and what they use of
    [SerializedLedger.cpp] and [FieldNames.cpp].  When a transaction is to be
    applied, [calcRawMeta] walks the table of entries in the order of their indexes
    and writes down which entries the transaction created, changed and deleted, with
    the fields before and after.  On the way it changes entries itself: an entry
    that keeps the thread of transactions that affected it gets the transaction's
    identifier, and so do the account roots of the owners of new and deleted
    entries, which may not have been in the table at all.

    The node of an affected entry is a record: the thread it had, and the inner
    objects [PreviousFields], [FinalFields] and [NewFields], when they are there,
    as maps of the fields present.  The bytes of the metadata are left out. *)
From Stdlib Require Import ZArith Lia.
From S2P Require Import Prelude BaseUint Serializer STAmount STAmountMath Book SHAMapNode Effects FeeTrack LedgerEntrySet.
From stdpp Require Import base numbers list gmap strings sorting.
Import Effects LedgerEntrySet.
Local Open Scope Z_scope.

Module TxMeta.
Import STAmount.

(** ** Quirks *)

Inductive HistoricalQuirk : Type :=
| QuirkNonzeroInflationFees
| QuirkLongPaymentPaths
| QuirkAsymmetricTrustlines
| QuirkUseLsfDisableMaster
| QuirkUseLsfPasswordSpent
| QuirkSameCurrencyOffer.

Definition gQuirks (q : HistoricalQuirk) : Z * Z :=
  match q with
  | QuirkNonzeroInflationFees => (0, 100000)
  | QuirkLongPaymentPaths => (87668, 87668)
  | QuirkAsymmetricTrustlines => (0, 900000)
  | QuirkUseLsfDisableMaster => (0, 100000)
  | QuirkUseLsfPasswordSpent => (0, 129706)
  | QuirkSameCurrencyOffer => (87668, 100000)
  end.

(** [gLedgerSeq] is 0 but while a dump of old ledgers is replayed. *)
Definition enactHistoricalQuirk (gLedgerSeq : Z) (q : HistoricalQuirk) : bool :=
  ((gQuirks q).1 <=? gLedgerSeq) && (gLedgerSeq <=? (gQuirks q).2).

(** ** Fields *)

Definition sfAccountTxnID : SField := "AccountTxnID".
Definition sfRegularKey : SField := "RegularKey".
Definition sfDomain : SField := "Domain".
Definition sfInflationDest : SField := "InflationDest".
Definition sfSetAuthKey : SField := "SetAuthKey".

(** The optional fields of each format. *)
Definition optional (t : LedgerEntryType) : list SField :=
  match t with
  | ltACCOUNT_ROOT => [sfAccountTxnID; sfRegularKey; sfTransferRate; sfDomain; sfInflationDest; sfSetAuthKey]
  | ltDIR_NODE =>
      [sfOwner; sfTakerPaysCurrency; sfTakerPaysIssuer; sfTakerGetsCurrency; sfTakerGetsIssuer; sfExchangeRate;
       sfIndexNext; sfIndexPrevious]
  | ltRIPPLE_STATE =>
      [sfLowNode; sfLowQualityIn; sfLowQualityOut; sfHighNode; sfHighQualityIn; sfHighQualityOut]
  | ltOFFER => [sfExpiration]
  | ltAMENDMENTS | ltFEE_SETTINGS => []
  end.

Definition format (t : LedgerEntryType) : list SField := map fst (required t) ++ optional t.

Definition sMD_Never : Z := 0.
Definition sMD_ChangeOrig : Z := 1.
Definition sMD_ChangeNew : Z := 2.
Definition sMD_DeleteFinal : Z := 4.
Definition sMD_Create : Z := 8.
Definition sMD_Always : Z := 16.
Definition sMD_Default : Z := Z.lor (Z.lor sMD_ChangeOrig sMD_ChangeNew) (Z.lor sMD_DeleteFinal sMD_Create).

Definition fieldMeta (f : SField) : Z :=
  if decide (f = sfIndexes) then sMD_Never
  else if decide (f = sfPreviousTxnID) then sMD_DeleteFinal
  else if decide (f = sfPreviousTxnLgrSeq) then sMD_DeleteFinal
  else if decide (f = sfRootIndex) then sMD_Always
  else sMD_Default.

Definition shouldMeta (f : SField) (c : Z) : bool := negb (Z.land (fieldMeta f) c =? 0).

#[export] Instance STAmount_eq_dec : EqDecision STAmount.
Proof. solve_decision. Defined.
#[export] Instance STValue_eq_dec : EqDecision STValue.
Proof. solve_decision. Defined.

(** [SerializedType::operator==] of two present fields, and [isDefault]. *)
Definition value_eqb (a b : STValue) : bool :=
  match a, b with
  | STAmt x, STAmt y => eqb x y
  | _, _ => bool_decide (a = b)
  end.

Definition isDefault (v : STValue) : bool :=
  match v with
  | STUInt32 v | STUInt64 v => v =? 0
  | STHash160 v | STAccount v => BaseUint.isZero v
  | STHash256 v => SHAMapNode.isZero v
  | STVector256 v => bool_decide (v = [])
  | STAmt a => (mValue a =? 0) && BaseUint.isZero (mIssuer a) && BaseUint.isZero (mCurrency a)
  end.

(** Fields that may be absent. *)
Definition field_eqb (a b : option STValue) : bool :=
  match a, b with
  | Some x, Some y => value_eqb x y
  | None, None => true
  | _, _ => false
  end.

(** [STObject::operator==]. *)
Definition sle_eqb (a b : SLE) : bool :=
  bool_decide (mType a = mType b) &&
  forallb (fun f => field_eqb (mFields a !! f) (mFields b !! f)) (elements (dom (mFields a) ∪ dom (mFields b))).

(** ** Threads and owners of an entry *)

Definition isThreadedType (sle : SLE) : bool := bool_decide (sfPreviousTxnID ∈ format (mType sle)).

Definition hasOneOwner (sle : SLE) : bool :=
  negb (bool_decide (mType sle = ltACCOUNT_ROOT)) && bool_decide (sfAccount ∈ format (mType sle)).
Definition hasTwoOwners (sle : SLE) : bool := bool_decide (mType sle = ltRIPPLE_STATE).

Definition getOwner (sle : SLE) : Account := getFieldAccount160 sfAccount sle.
Definition getFirstOwner (sle : SLE) : Account := mIssuer (getFieldAmount sfLowLimit sle).
Definition getSecondOwner (sle : SLE) : Account := mIssuer (getFieldAmount sfHighLimit sle).

(** [SerializedLedgerEntry::thread]: the entry afterwards and the thread it had;
    [None] when the transaction is there already. *)
Definition thread (txID : uint256) (ledgerSeq : Z) (sle : SLE) : option (SLE * (uint256 * Z)) :=
  let oldPrevTxID := getFieldH256 sfPreviousTxnID sle in
  if decide (oldPrevTxID = txID) then None
  else Some (setFieldU32 sfPreviousTxnLgrSeq ledgerSeq (setFieldH256 sfPreviousTxnID txID sle),
             (oldPrevTxID, getFieldU32 sfPreviousTxnLgrSeq sle)).

(** ** The affected nodes *)

Inductive Affected : Type :=
| sfModifiedNode
| sfDeletedNode
| sfCreatedNode.

Abbreviation Fields := (gmap SField STValue).

Record AffectedNode : Type := {
  aIndex : uint256;
  aKind : Affected;
  aType : LedgerEntryType;
  aThread : option (uint256 * Z);
  aPrevious : option Fields;
  aFinal : option Fields;
  aNew : option Fields }.

Definition new_affected (index : uint256) (kind : Affected) (ty : LedgerEntryType) : AffectedNode :=
  {| aIndex := index; aKind := kind; aType := ty; aThread := None; aPrevious := None; aFinal := None; aNew := None |}.

Definition retyped (kind : Affected) (ty : LedgerEntryType) (n : AffectedNode) : AffectedNode :=
  {| aIndex := aIndex n; aKind := kind; aType := ty; aThread := aThread n; aPrevious := aPrevious n; aFinal := aFinal n;
     aNew := aNew n |}.

(** The first node of that index is changed; a missing one is added at the end. *)
Fixpoint on_node (index : uint256) (f : AffectedNode -> AffectedNode) (otherwise : list AffectedNode)
    (mNodes : list AffectedNode) : list AffectedNode :=
  match mNodes with
  | [] => otherwise
  | n :: mNodes => if decide (aIndex n = index) then f n :: mNodes else n :: on_node index f otherwise mNodes
  end.

Definition setAffectedNode (index : uint256) (kind : Affected) (ty : LedgerEntryType) : list AffectedNode -> list AffectedNode :=
  on_node index (retyped kind ty) [new_affected index kind ty].

Definition isNodeAffected (index : uint256) (mNodes : list AffectedNode) : bool :=
  existsb (fun n => bool_decide (aIndex n = index)) mNodes.

(** [TransactionMetaSet::thread] of the node [getAffectedNode] finds or adds. *)
Definition thread_node (prev : uint256 * Z) (n : AffectedNode) : AffectedNode :=
  {| aIndex := aIndex n; aKind := aKind n; aType := aType n;
     aThread := match aThread n with None => Some prev | Some t => Some t end;
     aPrevious := aPrevious n; aFinal := aFinal n; aNew := aNew n |}.

Definition thread_affected (sle : SLE) (kind : Affected) (prev : uint256 * Z) (mNodes : list AffectedNode)
    : bool * list AffectedNode :=
  (match find (fun n => bool_decide (aIndex n = mIndex sle)) mNodes with
   | Some n => match aThread n with None => true | Some _ => false end
   | None => true
   end,
   on_node (mIndex sle) (thread_node prev) [thread_node prev (new_affected (mIndex sle) kind (mType sle))] mNodes).

Definition add_previous (o : Fields) (n : AffectedNode) : AffectedNode :=
  {| aIndex := aIndex n; aKind := aKind n; aType := aType n; aThread := aThread n; aPrevious := Some o; aFinal := aFinal n;
     aNew := aNew n |}.
Definition add_final (o : Fields) (n : AffectedNode) : AffectedNode :=
  {| aIndex := aIndex n; aKind := aKind n; aType := aType n; aThread := aThread n; aPrevious := aPrevious n;
     aFinal := Some o; aNew := aNew n |}.
Definition add_new (o : Fields) (n : AffectedNode) : AffectedNode :=
  {| aIndex := aIndex n; aKind := aKind n; aType := aType n; aThread := aThread n; aPrevious := aPrevious n;
     aFinal := aFinal n; aNew := Some o |}.

(** ** What is written down of an entry *)

(** The fields of the format selected by [keep], present or not, and their values. *)
Definition selected (keep : SField -> bool) (sle : SLE) : list SField := filter (fun f => keep f = true) (format (mType sle)).

Definition values (fs : list SField) (sle : SLE) : Fields := filter (fun '(f, _) => f ∈ fs) (mFields sle).

Definition changed_fields (origNode curNode : SLE) : list SField :=
  selected (fun f => shouldMeta f sMD_ChangeOrig && negb (field_eqb (mFields origNode !! f) (mFields curNode !! f))) origNode.

Definition default_field (sle : SLE) (f : SField) : bool :=
  match mFields sle !! f with Some v => isDefault v | None => true end.

Definition record_node (index : uint256) (add : Fields -> AffectedNode -> AffectedNode) (fs : list SField) (sle : SLE)
    (mNodes : list AffectedNode) : list AffectedNode :=
  if decide (fs = []) then mNodes else on_node index (add (values fs sle)) [] mNodes.

(** The order of [std::map] and of [addRaw]. *)
Definition index_le (a b : uint256) : Prop := SHAMapNode.key_ltb b a = false.
#[export] Instance index_le_dec : RelDecision index_le.
Proof. intros a b. unfold index_le. apply _. Defined.

Definition node_le (a b : AffectedNode) : Prop := index_le (aIndex a) (aIndex b).
#[export] Instance node_le_dec : RelDecision node_le.
Proof. intros a b. unfold node_le. apply _. Defined.

Definition sorted_nodes (ns : list AffectedNode) : list AffectedNode := merge_sort node_le ns.

Record TransactionMeta : Type := { mResult : TER; mIndexInLedger : Z; mAffected : list AffectedNode; mDelivered : option STAmount }.

(** ** Threading *)

Record MetaState : Type := { ms : State; mNodes : list AffectedNode; newMods : gmap uint256 sleptr }.

Abbreviation MM := (Eff MetaState).

Definition set_ms (s : State) (w : MetaState) : MetaState := {| ms := s; mNodes := mNodes w; newMods := newMods w |}.
Definition set_nodes (ns : list AffectedNode) (w : MetaState) : MetaState := {| ms := ms w; mNodes := ns; newMods := newMods w |}.
Definition set_mods (m : gmap uint256 sleptr) (w : MetaState) : MetaState := {| ms := ms w; mNodes := mNodes w; newMods := m |}.

(** A member call on the table of entries. *)
Definition on_table {A} (c : M A) : MM A := fun w => let '(r, s) := c (ms w) in (r, set_ms s w).

Definition on_nodes (f : list AffectedNode -> list AffectedNode) : MM unit := modifies (fun w => set_nodes (f (mNodes w)) w).

Section Threading.
Context `{SHA : SHA512} (gLedgerSeq : Z) (txID : uint256) (lgrSeq : Z).

Definition getForMod (node : uint256) : MM (option sleptr) :=
  l ← reads (fun w => les (ms w));
  match mEntries l !! node with
  | Some e =>
      if decide (mAction e = taaDELETE) then mret None
      else
        let action := if decide (mAction e = taaCACHED) then taaMODIFY else mAction e in
        p ← (if negb (mEntrySeq e =? mSeq l) then on_table (sle ← deref (mEntry e); make_sle sle) else mret (mEntry e));
        _ ← on_table (put_entry node {| mEntry := p; mAction := action; mEntrySeq := mSeq l |});
        mret (Some p)
  | None =>
      mods ← reads newMods;
      match mods !! node with
      | Some p => mret (Some p)
      | None =>
          match mAccountState (mLedger l) !! node with
          | Some sle =>
              ret ← on_table (make_sle sle);
              _ ← modifies (fun w => set_mods (<[node := ret]> (newMods w)) w);
              mret (Some ret)
          | None => mret None
          end
      end
  end.

(** [threadTx (SLE::ref)]. *)
Definition thread_entry (threadTo : sleptr) : MM bool :=
  sle ← on_table (deref threadTo);
  match thread txID lgrSeq sle with
  | None => mret false
  | Some (sle', (prevTxID, prevLgrID)) =>
      _ ← on_table (mutate threadTo (fun _ => sle'));
      if SHAMapNode.isZero prevTxID then mret true
      else
        ns ← reads mNodes;
        let '(res, ns) := thread_affected sle sfModifiedNode (prevTxID, prevLgrID) ns in
        _ ← modifies (set_nodes ns);
        mret res
  end.

(** [threadTx (RippleAddress)]. *)
Definition threadTx (threadTo : Account) : MM bool :=
  o ← getForMod (getAccountRootIndex threadTo);
  match o with
  | None => mret false
  | Some sle => thread_entry sle
  end.

Definition threadOwners (node : SLE) : MM bool :=
  if hasOneOwner node then threadTx (getOwner node)
  else if hasTwoOwners node then
    res ← threadTx (getFirstOwner node);
    if enactHistoricalQuirk gLedgerSeq QuirkAsymmetricTrustlines then
      (if (res : bool) then threadTx (getSecondOwner node) else mret false)
    else second ← threadTx (getSecondOwner node); mret (second && res)
  else mret false.

(** ** The walk *)

Definition deleted_node (index : uint256) (origNode : SLE) (cur : sleptr) : MM unit :=
  _ ← threadOwners origNode;
  curNode ← on_table (deref cur);
  _ ← on_nodes (record_node index add_previous (changed_fields origNode curNode) origNode);
  on_nodes (record_node index add_final (selected (fun f => shouldMeta f (Z.lor sMD_Always sMD_DeleteFinal)) curNode) curNode).

Definition modified_node (index : uint256) (origNode : SLE) (cur : sleptr) : MM unit :=
  before ← on_table (deref cur);
  _ ← (if isThreadedType before then thread_entry cur else mret false);
  curNode ← on_table (deref cur);
  _ ← on_nodes (record_node index add_previous (changed_fields origNode curNode) origNode);
  on_nodes (record_node index add_final (selected (fun f => shouldMeta f (Z.lor sMD_Always sMD_ChangeNew)) curNode) curNode).

Definition created_node (index : uint256) (cur : sleptr) : MM unit :=
  node ← on_table (deref cur);
  _ ← threadOwners node;
  before ← on_table (deref cur);
  _ ← (if isThreadedType before then thread_entry cur else mret false);
  curNode ← on_table (deref cur);
  on_nodes (record_node index add_new
    (selected (fun f => negb (default_field curNode f) && shouldMeta f (Z.lor sMD_Create sMD_Always)) curNode) curNode).

(** The body of the loop, for the entry filed under [index] at that time. *)
Definition meta_step (index : uint256) : MM unit :=
  l ← reads (fun w => les (ms w));
  match mEntries l !! index with
  | None => mret tt
  | Some e =>
      let origNode := mAccountState (mLedger l) !! index in
      match mAction e with
      | taaMODIFY =>
          match origNode with
          | None => raise null_sle
          | Some orig =>
              curNode ← on_table (deref (mEntry e));
              if sle_eqb curNode orig then mret tt
              else
                _ ← on_nodes (setAffectedNode index sfModifiedNode (mType curNode));
                modified_node index orig (mEntry e)
          end
      | taaDELETE =>
          match origNode with
          | None => raise null_sle
          | Some orig =>
              curNode ← on_table (deref (mEntry e));
              _ ← on_nodes (setAffectedNode index sfDeletedNode (mType curNode));
              deleted_node index orig (mEntry e)
          end
      | taaCREATE =>
          curNode ← on_table (deref (mEntry e));
          _ ← on_nodes (setAffectedNode index sfCreatedNode (mType curNode));
          created_node index (mEntry e)
      | _ => mret tt
      end
  end.

Fixpoint meta_loop (indexes : list uint256) : MM unit :=
  match indexes with
  | [] => mret tt
  | i :: indexes => _ ← meta_step i; meta_loop indexes
  end.

Fixpoint modify_all (mods : list (uint256 * sleptr)) : MM unit :=
  match mods with
  | [] => mret tt
  | (_, p) :: mods => _ ← on_table (entryModify p); modify_all mods
  end.

(** The walk over the entries, and the entries modified on the way: the nodes. *)
Definition meta_walk : MM (list AffectedNode) :=
  keys ← reads (fun w => merge_sort index_le (map fst (map_to_list (mEntries (les (ms w))))));
  _ ← meta_loop keys;
  mods ← reads (fun w => map_to_list (newMods w));
  _ ← modify_all mods;
  reads mNodes.

Definition calcRawMeta (delivered : option STAmount) (result : TER) (index : Z) : M TransactionMeta := fun s =>
  match meta_walk {| ms := s; mNodes := []; newMods := ∅ |} with
  | (Ok ns, w) => (Ok {| mResult := result; mIndexInLedger := index; mAffected := sorted_nodes ns; mDelivered := delivered |}, ms w)
  | (Throw e, w) => (Throw e, ms w)
  end.
End Threading.

End TxMeta.
