(* ===== verification/TxEngine.v ===== *)
(** * The transaction engine

    [src/src/ripple_app/transactors/Transactor.cpp] and
    [src/src/ripple_app/tx/TransactionEngine.cpp].  [applyTransaction] makes the
    transactor of the transaction's type and runs [Transactor::apply]: the checks
    every transaction goes through (signature, sequence number, fee, key), then, when
    the ledger is being closed, what the type does ([doApply]).  The result decides:
    [tes] codes write the table of entries back, [tec] codes claim the fee and
    nothing else, all others leave the ledger alone.

    The virtual functions of a transactor are a record of computations, [base] has
    the ones of the class [Transactor].  The state is the table with its heap
    ([State]), the rest of the ledger the engine writes to ([LedgerHeader]) and the
    members of transactor and engine.

    Not under [src], and so parameters ([Keys]): the account of a public key and the
    verification of a signature.  The digest a transaction is identified and signed
    by is a field of it.  The server's fee table and the configured fee are
    arguments ([Application]). *)
From Stdlib Require Import ZArith Lia.
From S2P Require Import Prelude BaseUint Serializer STAmount STAmountMath Book SHAMapNode Effects FeeTrack LedgerEntrySet TrustLines TxMeta.
From stdpp Require Import base numbers list gmap strings.
Import Effects LedgerEntrySet TxMeta.
Local Open Scope Z_scope.

Module TxEngine.
Import STAmount.

Abbreviation is_bit_set := Book.is_bit_set.

(** ** Result codes *)

Definition telLOCAL_ERROR : TER := -399.
Definition telBAD_PATH_COUNT : TER := -397.
Definition telINSUF_FEE_P : TER := -394.
Definition telNOT_TIME : TER := -392.
Definition temMALFORMED : TER := -299.
Definition temBAD_AMOUNT : TER := -298.
Definition temBAD_AUTH_MASTER : TER := -297.
Definition temBAD_CURRENCY : TER := -296.
Definition temBAD_FEE : TER := -295.
Definition temBAD_LIMIT : TER := -292.
Definition temBAD_TRANSFER_RATE : TER := -287.
Definition temBAD_SEND_STR_LIMIT : TER := -286.
Definition temBAD_SEND_STR_MAX : TER := -285.
Definition temBAD_SEND_STR_NO_DIRECT : TER := -284.
Definition temBAD_SEND_STR_PATHS : TER := -282.
Definition temBAD_SIGNATURE : TER := -281.
Definition temBAD_SRC_ACCOUNT : TER := -280.
Definition temBAD_SEQUENCE : TER := -279.
Definition temDST_IS_SRC : TER := -278.
Definition temDST_NEEDED : TER := -277.
Definition temINVALID : TER := -276.
Definition temINVALID_FLAG : TER := -275.
Definition temREDUNDANT : TER := -274.
Definition temREDUNDANT_SEND_MAX : TER := -273.
Definition temUNKNOWN : TER := -270.
Definition tefFAILURE : TER := -199.
Definition tefALREADY : TER := -198.
Definition tefBAD_AUTH : TER := -196.
Definition tefDST_TAG_NEEDED : TER := -190.
Definition tefEXCEPTION : TER := -189.
Definition tefINTERNAL : TER := -187.
Definition tefNO_AUTH_REQUIRED : TER := -186.
Definition tefPAST_SEQ : TER := -185.
Definition tefWRONG_PRIOR : TER := -184.
Definition tefMASTER_DISABLED : TER := -183.
Definition tefMAX_LEDGER : TER := -182.
Definition terRETRY : TER := -99.
Definition terINSUF_FEE_B : TER := -97.
Definition terNO_ACCOUNT : TER := -96.
Definition terNO_AUTH : TER := -95.
Definition terOWNERS : TER := -93.
Definition terPRE_SEQ : TER := -92.
Definition tecCLAIM : TER := 100.
Definition tecUNFUNDED_PAYMENT : TER := 104.
Definition tecINSUF_RESERVE_LINE : TER := 122.
Definition tecNO_DST : TER := 124.
Definition tecNO_DST_INSUF_STR : TER := 125.
Definition tecNO_LINE_INSUF_RESERVE : TER := 126.
Definition tecNO_LINE_REDUNDANT : TER := 127.
Definition tecPATH_DRY : TER := 128.
Definition tecMASTER_DISABLED : TER := 130.
Definition tecNO_REGULAR_KEY : TER := 131.
Definition tecOWNERS : TER := 132.

Definition isTerRetry (x : TER) : bool := (terRETRY <=? x) && (x <? tesSUCCESS).
Definition isTesSuccess (x : TER) : bool := x =? tesSUCCESS.
Definition isTecClaim (x : TER) : bool := tecCLAIM <=? x.

(** [TransactionEngineParams]. *)
Definition tapNO_CHECK_SIGN : Z := 1.
Definition tapRETRY : Z := 32.
Definition tapADMIN : Z := 1024.

Definition lsfPasswordSpent : Z := 65536.    (* 0x00010000 *)
Definition lsfRequireDestTag : Z := 131072.  (* 0x00020000 *)
Definition lsfDisableMaster : Z := 1048576.  (* 0x00100000 *)

(** ** Transactions *)

Definition sfFee : SField := "Fee".
Definition sfLastLedgerSequence : SField := "LastLedgerSequence".

(** The types that have a format; no transaction of another type can be built. *)
Inductive TxType : Type :=
| ttPAYMENT
| ttINFLATION
| ttACCOUNT_SET
| ttACCOUNT_MERGE
| ttREGULAR_KEY_SET
| ttOFFER_CREATE
| ttOFFER_CANCEL
| ttTRUST_SET
| ttAMENDMENT
| ttFEE.

Record STPathElement : Type := { peAccount : Account; peCurrency : uint160; peIssuer : Account }.
Abbreviation STPath := (list STPathElement).

(** The fields but for public key, signature and paths are in [txFields];
    [mSigGood] and [mSigBad] are what is known of the signature beforehand. *)
Record SerializedTransaction : Type := {
  getTransactionID : uint256;
  getSigningHash : uint256;
  getTxnType : TxType;
  txFields : gmap SField STValue;
  getSigningPubKey : list Z;
  getSignature : list Z;
  txPaths : option (list STPath);
  mSigGood : bool;
  mSigBad : bool }.

Definition txPresent (f : SField) (t : SerializedTransaction) : bool :=
  match txFields t !! f with Some _ => true | None => false end.
Definition txU32 (f : SField) (t : SerializedTransaction) : Z :=
  match txFields t !! f with Some (STUInt32 v) => v | _ => 0 end.
Definition txU64 (f : SField) (t : SerializedTransaction) : Z :=
  match txFields t !! f with Some (STUInt64 v) => v | _ => 0 end.
Definition txH256 (f : SField) (t : SerializedTransaction) : uint256 :=
  match txFields t !! f with Some (STHash256 v) => v | _ => SHAMapNode.zero256 end.
Definition txAccount (f : SField) (t : SerializedTransaction) : Account :=
  match txFields t !! f with Some (STAccount v) => v | _ => u160_zero end.
Definition txAmount (f : SField) (t : SerializedTransaction) : STAmount :=
  match txFields t !! f with Some (STAmt v) => v | _ => no_amount end.

Definition getSequence : SerializedTransaction -> Z := txU32 sfSequence.
Definition getTransactionFee : SerializedTransaction -> STAmount := txAmount sfFee.
Definition getSourceAccount : SerializedTransaction -> Account := txAccount sfAccount.
Definition getFlags : SerializedTransaction -> Z := txU32 sfFlags.

(** ** State *)

(** What a closing ledger has beside its entries.  A transaction of a closed ledger
    has metadata, one of an open ledger has none. *)
Record LedgerHeader : Type := {
  mLedgerSeq : Z;
  mParentCloseTime : Z;
  mTotCoins : Z;
  mFeePool : Z;
  mInflationSeq : Z;
  mInflationAllowed : bool;
  mTransactionMap : gmap uint256 (SerializedTransaction * option TransactionMeta) }.

Definition destroyCoins (fee : Z) (l : LedgerHeader) : LedgerHeader :=
  {| mLedgerSeq := mLedgerSeq l; mParentCloseTime := mParentCloseTime l; mTotCoins := u64 (mTotCoins l - fee);
     mFeePool := u64 (mFeePool l + fee); mInflationSeq := mInflationSeq l; mInflationAllowed := mInflationAllowed l;
     mTransactionMap := mTransactionMap l |}.

Definition inflateCoins (newCoins : Z) (l : LedgerHeader) : LedgerHeader :=
  {| mLedgerSeq := mLedgerSeq l; mParentCloseTime := mParentCloseTime l; mTotCoins := u64 (mTotCoins l + newCoins);
     mFeePool := mFeePool l; mInflationSeq := mInflationSeq l; mInflationAllowed := mInflationAllowed l;
     mTransactionMap := mTransactionMap l |}.

Definition incrementInflationSeq (l : LedgerHeader) : LedgerHeader :=
  {| mLedgerSeq := mLedgerSeq l; mParentCloseTime := mParentCloseTime l; mTotCoins := mTotCoins l; mFeePool := 0;
     mInflationSeq := u32 (mInflationSeq l + 1); mInflationAllowed := false; mTransactionMap := mTransactionMap l |}.

(** [addTransaction]: [None] when the map has the identifier. *)
Definition addTransaction (txn : SerializedTransaction) (md : option TransactionMeta) (l : LedgerHeader) : option LedgerHeader :=
  match mTransactionMap l !! getTransactionID txn with
  | Some _ => None
  | None => Some
      {| mLedgerSeq := mLedgerSeq l; mParentCloseTime := mParentCloseTime l; mTotCoins := mTotCoins l; mFeePool := mFeePool l;
         mInflationSeq := mInflationSeq l; mInflationAllowed := mInflationAllowed l;
     mTransactionMap := <[getTransactionID txn := (txn, md)]> (mTransactionMap l) |}
  end.

Definition hasTransaction (txID : uint256) (l : LedgerHeader) : bool :=
  match mTransactionMap l !! txID with Some _ => true | None => false end.

(** The members of a transactor. *)
Record Members : Type := {
  mTxnAccountID : Account;
  mFeeDue : STAmount;
  mPriorBalance : STAmount;
  mSourceBalance : STAmount;
  mTxnAccount : option sleptr;
  mHasAuthKey : bool;
  mSigMaster : bool }.

Definition no_members : Members :=
  {| mTxnAccountID := u160_zero; mFeeDue := no_amount; mPriorBalance := no_amount; mSourceBalance := no_amount;
     mTxnAccount := None; mHasAuthKey := false; mSigMaster := false |}.

(** What the server knows of amendments: the enabled ones, and whether it is
    blocked by one it does not support. *)
Record Amendments : Type := { mEnabled : gset uint256; m_amendmentBlocked : bool }.

(** Table, ledger, transactor, the delivered amount of the metadata, the engine's
    count of transactions, and the amendments. *)
Record TxState : Type := {
  tbl : State; lgr : LedgerHeader; mem : Members; delivered : option STAmount; mTxnSeq : Z; amendments : Amendments }.

Abbreviation T := (Eff TxState).

Definition set_tbl (s : State) (w : TxState) : TxState :=
  {| tbl := s; lgr := lgr w; mem := mem w; delivered := delivered w; mTxnSeq := mTxnSeq w;
     amendments := amendments w |}.
Definition set_lgr (l : LedgerHeader) (w : TxState) : TxState :=
  {| tbl := tbl w; lgr := l; mem := mem w; delivered := delivered w; mTxnSeq := mTxnSeq w;
     amendments := amendments w |}.
Definition set_mem (m : Members) (w : TxState) : TxState :=
  {| tbl := tbl w; lgr := lgr w; mem := m; delivered := delivered w; mTxnSeq := mTxnSeq w;
     amendments := amendments w |}.
Definition set_delivered (d : option STAmount) (w : TxState) : TxState :=
  {| tbl := tbl w; lgr := lgr w; mem := mem w; delivered := d; mTxnSeq := mTxnSeq w;
     amendments := amendments w |}.
Definition set_seq (n : Z) (w : TxState) : TxState :=
  {| tbl := tbl w; lgr := lgr w; mem := mem w; delivered := delivered w; mTxnSeq := n;
     amendments := amendments w |}.

Definition set_amendments (a : Amendments) (w : TxState) : TxState :=
  {| tbl := tbl w; lgr := lgr w; mem := mem w; delivered := delivered w; mTxnSeq := mTxnSeq w; amendments := a |}.

Definition lift {A} (c : M A) : T A := fun w => let '(r, s) := c (tbl w) in (r, set_tbl s w).
Definition ledger : T Ledger := reads (fun w => mLedger (les (tbl w))).

Definition with_account (o : option sleptr) (m : Members) : Members :=
  {| mTxnAccountID := mTxnAccountID m; mFeeDue := mFeeDue m; mPriorBalance := mPriorBalance m;
     mSourceBalance := mSourceBalance m; mTxnAccount := o; mHasAuthKey := mHasAuthKey m; mSigMaster := mSigMaster m |}.
Definition with_accountID (a : Account) (m : Members) : Members :=
  {| mTxnAccountID := a; mFeeDue := mFeeDue m; mPriorBalance := mPriorBalance m;
     mSourceBalance := mSourceBalance m; mTxnAccount := mTxnAccount m; mHasAuthKey := mHasAuthKey m; mSigMaster := mSigMaster m |}.
Definition with_feeDue (f : STAmount) (m : Members) : Members :=
  {| mTxnAccountID := mTxnAccountID m; mFeeDue := f; mPriorBalance := mPriorBalance m;
     mSourceBalance := mSourceBalance m; mTxnAccount := mTxnAccount m; mHasAuthKey := mHasAuthKey m; mSigMaster := mSigMaster m |}.
Definition with_balances (prior source : STAmount) (hasKey : bool) (m : Members) : Members :=
  {| mTxnAccountID := mTxnAccountID m; mFeeDue := mFeeDue m; mPriorBalance := prior;
     mSourceBalance := source; mTxnAccount := mTxnAccount m; mHasAuthKey := hasKey; mSigMaster := mSigMaster m |}.
Definition with_sigMaster (b : bool) (m : Members) : Members :=
  {| mTxnAccountID := mTxnAccountID m; mFeeDue := mFeeDue m; mPriorBalance := mPriorBalance m;
     mSourceBalance := mSourceBalance m; mTxnAccount := mTxnAccount m; mHasAuthKey := mHasAuthKey m; mSigMaster := b |}.

Definition change_members (f : Members -> Members) : T unit := modifies (fun w => set_mem (f (mem w)) w).

(** ** Parameters *)

(** Public keys and signatures. *)
Class Keys : Type := {
  account_of_key : list Z -> Account;
  verifySignature : list Z -> uint256 -> list Z -> bool }.

(** The server a transaction is applied by. *)
Class Application : Type := {
  FEE_DEFAULT : Z;
  getFeeTrack : FeeTrack.LoadFeeTrack;
  gLedgerSeq : Z;
  isSupported : uint256 -> bool }.

(** ** The base class *)

(** The virtual functions, with the transaction and the parameters of the engine
    bound. *)
Record Transactor : Type := {
  preCheck : T TER;
  precheckAgainstLedger : T TER;
  checkSeq : T TER;
  payFee : T TER;
  calculateBaseFee : T Z;
  checkSig : T TER;
  doApply : T TER;
  mustHaveValidAccount : bool }.

Section Base.
Context `{SHA : SHA512} `{K : Keys} `{App : Application}.
Context (mClosingLedger : bool) (mTxn : SerializedTransaction) (params : Z).

(** [mTxnAccount->...]: the account root, which must be there. *)
Definition txn_account : T sleptr :=
  o ← reads (fun w => mTxnAccount (mem w));
  match o with Some p => mret p | None => raise null_sle end.

Definition account_field {A} (get : SLE -> A) : T A := p ← txn_account; lift (field get p).
Definition set_account (f : SLE -> SLE) : T unit := p ← txn_account; lift (mutate p f).

Definition base_calculateBaseFee : T Z := mret FEE_DEFAULT.

Definition calculateFee (base_fee : T Z) : T unit :=
  fee ← base_fee;
  l ← ledger;
  match FeeTrack.scaleFeeLoad getFeeTrack fee (mBaseFee l) (mReferenceFeeUnits l) (is_bit_set params tapADMIN) with
  | None => raise (undefined "division by zero")
  | Some due => change_members (with_feeDue (mk_native due false))
  end.

(** [a < zero]. *)
Definition negative (a : STAmount) : bool := signum a <? 0.

Definition base_payFee : T TER :=
  let saPaid := getTransactionFee mTxn in
  if negb (isLegalNet saPaid) then mret temBAD_AMOUNT
  else
    mFeeDue ← reads (fun w => mFeeDue (mem w));
    short ← (if is_bit_set params tapOPEN_LEDGER then pure_result (ltb saPaid mFeeDue) else mret false);
    if (short : bool) then mret telINSUF_FEE_P
    else if negative saPaid || negb (mIsNative saPaid) then mret temBAD_FEE
    else if is_zero saPaid then mret tesSUCCESS
    else
      m ← reads mem;
      poor ← pure_result (ltb (mSourceBalance m) saPaid);
      if (poor : bool) then mret terINSUF_FEE_B
      else
        rest ← pure_result (sub (mSourceBalance m) saPaid);
        _ ← change_members (with_balances (mPriorBalance m) rest (mHasAuthKey m));
        _ ← set_account (setFieldAmount sfBalance rest);
        mret tesSUCCESS.

Definition base_checkSig : T TER :=
  m ← reads mem;
  let signer := account_of_key (getSigningPubKey mTxn) in
  if BaseUint.eqb signer (mTxnAccountID m) then
    _ ← change_members (with_sigMaster true);
    disabled ← account_field (isFlag lsfDisableMaster);
    mret (if (disabled : bool) then tefMASTER_DISABLED else tesSUCCESS)
  else if mHasAuthKey m then
    key ← account_field (getFieldAccount160 sfRegularKey);
    mret (if BaseUint.eqb signer key then tesSUCCESS else tefBAD_AUTH)
  else mret temBAD_AUTH_MASTER.

(** The largest sequence number of the account's transactions in the open ledger. *)
Fixpoint max_tx (account : Account) (txs : list (SerializedTransaction * option TransactionMeta)) (best : Z) : result Z :=
  match txs with
  | [] => mret best
  | (tx, None) :: txs =>
      max_tx account txs (if BaseUint.eqb account (getSourceAccount tx) && (getSequence tx >? best) then getSequence tx else best)
  | (_, Some _) :: _ => Throw (undefined "metadata read as a transaction")
  end.

Definition base_checkSeq : T TER :=
  let t_seq := getSequence mTxn in
  a_seq ← account_field (getFieldU32 sfSequence);
  m ← reads mem;
  l ← reads lgr;
  a_seq ← (if negb mClosingLedger then
             best ← pure_result (max_tx (mTxnAccountID m) (map snd (map_to_list (mTransactionMap l))) 0);
             mret (if u32 (best + 1) >? a_seq then u32 (best + 1) else a_seq)
           else mret a_seq);
  if negb (t_seq =? a_seq) then
    if a_seq <? t_seq then mret terPRE_SEQ
    else mret (if hasTransaction (getTransactionID mTxn) l then tefALREADY else tefPAST_SEQ)
  else
    prior ← account_field (getFieldH256 sfPreviousTxnID);
    last ← account_field (getFieldH256 sfAccountTxnID);
    if txPresent sfPreviousTxnID mTxn && negb (bool_decide (prior = txH256 sfPreviousTxnID mTxn)) then mret tefWRONG_PRIOR
    else if txPresent sfAccountTxnID mTxn && negb (bool_decide (last = txH256 sfAccountTxnID mTxn)) then mret tefWRONG_PRIOR
    else if txPresent sfLastLedgerSequence mTxn && (mLedgerSeq l >? txU32 sfLastLedgerSequence mTxn) then mret tefMAX_LEDGER
    else
      _ ← set_account (setFieldU32 sfSequence (u32 (t_seq + 1)));
      keeps ← account_field (isFieldPresent sfAccountTxnID);
      _ ← (if (keeps : bool) then set_account (setFieldH256 sfAccountTxnID (getTransactionID mTxn)) else mret tt);
      mret tesSUCCESS.

Definition base_preCheck : T TER :=
  let account := getSourceAccount mTxn in
  _ ← change_members (with_accountID account);
  if BaseUint.isZero account then mret temBAD_SRC_ACCOUNT
  else if negb (mSigGood mTxn) &&
          (mSigBad mTxn ||
           (negb (is_bit_set params tapNO_CHECK_SIGN) &&
            negb (verifySignature (getSigningPubKey mTxn) (getSigningHash mTxn) (getSignature mTxn))))
  then mret temINVALID
  else mret tesSUCCESS.

Definition base (apply : T TER) : Transactor :=
  {| preCheck := base_preCheck; precheckAgainstLedger := mret tesSUCCESS; checkSeq := base_checkSeq; payFee := base_payFee;
     calculateBaseFee := base_calculateBaseFee; checkSig := base_checkSig; doApply := apply; mustHaveValidAccount := true |}.

(** [if (terResult != tesSUCCESS) return terResult]. *)
Definition unless_failed (check : T TER) (rest : T TER) : T TER :=
  r ← check; if negb (r =? tesSUCCESS) then mret r else rest.

Definition apply (v : Transactor) : T TER :=
  unless_failed (preCheck v) (
  m ← reads mem;
  o ← lift (entryCache ltACCOUNT_ROOT (getAccountRootIndex (mTxnAccountID m)));
  _ ← change_members (with_account o);
  _ ← calculateFee (calculateBaseFee v);
  go ← (match o with
        | None => mret (negb (mustHaveValidAccount v))
        | Some p =>
            sle ← lift (deref p);
            let balance := getFieldAmount sfBalance sle in
            _ ← change_members (with_balances balance balance (isFieldPresent sfRegularKey sle));
            mret true
        end);
  if negb go then mret terNO_ACCOUNT
  else
    unless_failed (checkSeq v) (
    unless_failed (payFee v) (
    unless_failed (checkSig v) (
    unless_failed (precheckAgainstLedger v) (
    if negb mClosingLedger then mret tesSUCCESS
    else
      _ ← (match o with Some p => lift (entryModify p) | None => mret tt end);
      doApply v))))).

(** ** The engine *)

(** The state of the ledger is what [txnWrite] makes of it. *)
Definition write_back : T unit :=
  modifies (fun w =>
    let s := tbl w in
    let l := mLedger (les s) in
    let l' := {| mAccountState := txnWrite s; mBaseFee := mBaseFee l; mReferenceFeeUnits := mReferenceFeeUnits l;
                 mReserveBase := mReserveBase l; mReserveIncrement := mReserveIncrement l |} in
    set_tbl (set_les {| mLedger := l'; mEntries := mEntries (les s); LedgerEntrySet.mParams := LedgerEntrySet.mParams (les s);
                        mSeq := mSeq (les s); mImmutable := mImmutable (les s) |} s) w).

Definition clear_table : T unit := lift (modifies (fun s => set_les (clear_les (les s)) s)).

(** The branch that only claims the fee: the result and [didApply]. *)
Definition claim_fee (terResult : TER) : T (TER * bool) :=
  _ ← clear_table;
  o ← lift (entryCache ltACCOUNT_ROOT (getAccountRootIndex (getSourceAccount mTxn)));
  match o with
  | None => mret (terNO_ACCOUNT, false)
  | Some txnAcct =>
      let t_seq := getSequence mTxn in
      sle ← lift (deref txnAcct);
      let a_seq := getFieldU32 sfSequence sle in
      if a_seq <? t_seq then mret (terPRE_SEQ, false)
      else if a_seq >? t_seq then mret (tefPAST_SEQ, false)
      else
        let fee := getTransactionFee mTxn in
        let balance := getFieldAmount sfBalance sle in
        poor ← pure_result (ltb balance fee);
        if (poor : bool) then mret (terINSUF_FEE_B, false)
        else
          rest ← pure_result (sub balance fee);
          _ ← lift (mutate txnAcct (fun x => setFieldU32 sfSequence (u32 (t_seq + 1)) (setFieldAmount sfBalance rest x)));
          _ ← lift (entryModify txnAcct);
          mret (terResult, true)
  end.

(** Recording an applied transaction; [checkInvariants] always holds. *)
Definition record_transaction (terResult : TER) : T (TER * bool) :=
  d ← reads delivered;
  n ← reads mTxnSeq;
  seq ← reads (fun w => mLedgerSeq (lgr w));
  m ← lift (calcRawMeta gLedgerSeq (getTransactionID mTxn) seq d terResult n);
  _ ← modifies (set_seq (n + 1));
  l ← reads lgr;
  if is_bit_set params tapOPEN_LEDGER then
    match addTransaction mTxn None l with
    | None => mret (tefALREADY, false)
    | Some l => _ ← modifies (set_lgr l); _ ← write_back; mret (terResult, true)
    end
  else
    match addTransaction mTxn (Some m) l with
    | None => raise (runtime_error "Duplicate transaction applied to closed ledger")
    | Some l =>
        _ ← modifies (set_lgr l);
        fee ← pure_result (getNValue (getTransactionFee mTxn));
        _ ← modifies (fun w => set_lgr (destroyCoins fee (lgr w)) w);
        _ ← write_back;
        mret (terResult, true)
    end.

(** [makeTransactor] is the argument [transactor]. *)
Definition applyTransaction (transactor : option Transactor) : T (TER * bool) :=
  _ ← lift (modifies (fun s => set_les (init_les (mLedger (les s)) params (les s)) s));
  _ ← modifies (fun w => set_mem no_members (set_delivered None w));
  if SHAMapNode.isZero (getTransactionID mTxn) then mret (temINVALID, false)
  else
    match transactor with
    | None => mret (temUNKNOWN, false)
    | Some v =>
        terResult ← apply v;
        '(terResult, didApply) ←
          (if isTesSuccess terResult then mret (terResult, true)
           else if isTecClaim terResult && negb (is_bit_set params tapRETRY) then claim_fee terResult
           else mret (terResult, false));
        '(terResult, didApply) ←
          (if (didApply : bool) then record_transaction terResult else mret (terResult, false));
        _ ← clear_table;
        mret (terResult, didApply)
    end.
End Base.

End TxEngine.
