(* ===== verification/Transactors.v ===== *)
(** * The transactors

    [src/src/ripple_app/transactors]: what each type of transaction does to the
    table of entries, and which checks of [Transactor] it replaces.  Payments
    ([Payment.cpp]), account settings ([SetAccount.cpp]), regular keys
    ([SetRegularKey.cpp]), trust lines ([SetTrust.cpp]), cancelled offers
    ([CancelOffer.cpp]), merged accounts ([AccountMergeTransactor.cpp]), inflation
    ([InflationTransactor.cpp]), changes of fees and amendments ([Change.cpp]).

    Parameters: [rippleCalc], the payment through paths and order books, and
    [createOffer], the [doApply] of new offers ([Paths]); the rows the database
    answers to the query of the inflation transactor ([Votes]).

    [ttWALLET_ADD] has no format, so no such transaction exists and its transactor
    is not here. *)
From Stdlib Require Import ZArith Lia.
From S2P Require Import Prelude BaseUint Serializer STAmount STAmountMath Book SHAMapNode Effects FeeTrack LedgerEntrySet TrustLines TxMeta TxEngine.
From stdpp Require Import base numbers list gmap strings.
Import Effects LedgerEntrySet TrustLines TxMeta TxEngine.
Local Open Scope Z_scope.

Module Transactors.
Import STAmount.

Abbreviation is_bit_set := Book.is_bit_set.

(** ** Constants *)

Definition sfDestination : SField := "Destination".
Definition sfAmount : SField := "Amount".
Definition sfSendMax : SField := "SendMax".
Definition sfDestinationTag : SField := "DestinationTag".
Definition sfSetFlag : SField := "SetFlag".
Definition sfClearFlag : SField := "ClearFlag".
Definition sfOfferSequence : SField := "OfferSequence".
Definition sfLimitAmount : SField := "LimitAmount".
Definition sfQualityIn : SField := "QualityIn".
Definition sfQualityOut : SField := "QualityOut".
Definition sfInflateSeq : SField := "InflateSeq".
Definition sfAmendment : SField := "Amendment".

(** [~ mask] on 32 bits. *)
Definition all_but (mask : Z) : Z := u32 (Z.lnot mask).

Definition tfUniversal : Z := 2147483648.        (* 0x80000000 *)
Definition tfUniversalMask : Z := all_but tfUniversal.
Definition tfRequireDestTag : Z := 65536.        (* 0x00010000 *)
Definition tfOptionalDestTag : Z := 131072.      (* 0x00020000 *)
Definition tfRequireAuth : Z := 262144.          (* 0x00040000 *)
Definition tfOptionalAuth : Z := 524288.         (* 0x00080000 *)
Definition tfDisallowSTR : Z := 1048576.         (* 0x00100000 *)
Definition tfAllowSTR : Z := 2097152.            (* 0x00200000 *)
Definition tfAccountSetMask : Z :=
  all_but (Z.lor tfUniversal (Z.lor tfRequireDestTag (Z.lor tfOptionalDestTag
    (Z.lor tfRequireAuth (Z.lor tfOptionalAuth (Z.lor tfDisallowSTR tfAllowSTR)))))).
Definition asfRequireDest : Z := 1.
Definition asfRequireAuth : Z := 2.
Definition asfDisableMaster : Z := 4.
Definition tfNoRippleDirect : Z := 65536.        (* 0x00010000 *)
Definition tfPartialPayment : Z := 131072.       (* 0x00020000 *)
Definition tfLimitQuality : Z := 262144.         (* 0x00040000 *)
Definition tfPaymentMask : Z := all_but (Z.lor tfUniversal (Z.lor tfPartialPayment (Z.lor tfLimitQuality tfNoRippleDirect))).
Definition tfSetfAuth : Z := 65536.              (* 0x00010000 *)
Definition tfSetNoRipple : Z := 131072.          (* 0x00020000 *)
Definition tfClearNoRipple : Z := 262144.        (* 0x00040000 *)
Definition tfClearAuth : Z := 524288.            (* 0x00080000 *)
Definition tfTrustSetMask : Z :=
  all_but (Z.lor tfUniversal (Z.lor tfSetfAuth (Z.lor tfSetNoRipple (Z.lor tfClearNoRipple tfClearAuth)))).

Definition CURRENCY_BAD : uint160 := BaseUint.of_u64 BaseUint.W160 6004514363145191424. (* 0x5354520000000000 *)

Definition spaceOffer : Z := 111.
Definition spaceFee : Z := 101.
Definition spaceAmendment : Z := 102.

Definition makeFieldAbsent (f : SField) (sle : SLE) : SLE :=
  {| mIndex := mIndex sle; mType := mType sle; mFields := delete f (mFields sle) |}.
Definition setFlag (f : Z) (sle : SLE) : SLE := setFieldU32 sfFlags (Z.lor (getFieldU32 sfFlags sle) f) sle.
Definition clearFlag (f : Z) (sle : SLE) : SLE := setFieldU32 sfFlags (clear_flag f (getFieldU32 sfFlags sle)) sle.

(** [amount + v] with a [std::uint64_t]. *)
Definition plus_u64 (a : STAmount) (v : Z) : result STAmount := sn ← getSNValue a; mret (mk_native_i64 (i64 (sn + i64 v))).

(** ** Parameters *)

(** [RippleCalc::rippleCalc]: the result and the amounts sent and delivered. *)
Record PathRequest : Type := {
  saMaxAmountReq : STAmount; saDstAmountReq : STAmount; uDstAccountID : Account; uSrcAccountID : Account;
  spsPaths : list STPath; bPartialPayment : bool; bLimitQuality : bool; bNoRippleDirect : bool; bStandAlone : bool;
  bOpenLedger : bool }.

(** Both are called with what they read and work on the table of entries;
    [createOffer] is [doApply] of the transactor of new offers, which reads the
    members of the transactor and the header of the ledger. *)
Class Paths : Type := {
  rippleCalc : PathRequest -> M (TER * STAmount * STAmount);
  createOffer : SerializedTransaction -> Z -> Members -> LedgerHeader -> M TER }.

(** The rows of [topAccountsSQL]: destinations and votes, the most votes first;
    [None] when the query fails or has no row. *)
Class Votes : Type := { topAccounts : option (list (Account * Z)) }.

Section Transactors.
Context `{SHA : SHA512} `{SSL : OpenSSL} `{K : Keys} `{App : Application} `{P : Paths} `{V : Votes}.
Context (mClosingLedger : bool) (mTxn : SerializedTransaction) (params : Z).

Abbreviation account_id := (reads (fun w => mTxnAccountID (mem w))).
Abbreviation quirk := (enactHistoricalQuirk gLedgerSeq).

Definition getOfferIndex (uAccountID : Account) (uSequence : Z) : uint256 :=
  sha512half (snd (Serializer.add32 uSequence (snd (Serializer.add_uint uAccountID (snd (Serializer.add16 spaceOffer [])))))).
Definition getLedgerFeeIndex : uint256 := sha512half (snd (Serializer.add16 spaceFee [])).
Definition getLedgerAmendmentIndex : uint256 := sha512half (snd (Serializer.add16 spaceAmendment [])).

(** [Ledger::hasAccount]: in the ledger underneath the table. *)
Definition hasAccount (a : Account) : T bool :=
  l ← ledger; mret (match mAccountState l !! getAccountRootIndex a with Some _ => true | None => false end).

Definition reserve (increments : Z) : T Z := l ← ledger; pure_result (getReserve increments l).

(** ** Payments *)

(** The checks of [Payment.cpp] before the destination is looked up. *)
Definition payment_malformed (account : Account) (saMaxAmount : STAmount) : option TER :=
  let uTxFlags := getFlags mTxn in
  let bLimitQuality := is_bit_set uTxFlags tfLimitQuality in
  let bNoRippleDirect := is_bit_set uTxFlags tfNoRippleDirect in
  let bPaths := match txPaths mTxn with Some _ => true | None => false end in
  let bMax := txPresent sfSendMax mTxn in
  let uDstAccountID := txAccount sfDestination mTxn in
  let saDstAmount := txAmount sfAmount mTxn in
  let uSrcCurrency := mCurrency saMaxAmount in
  let uDstCurrency := mCurrency saDstAmount in
  let bSTRDirect := BaseUint.isZero uSrcCurrency && BaseUint.isZero uDstCurrency in
  if negb (isLegalNet saDstAmount) || negb (isLegalNet saMaxAmount) then Some temBAD_AMOUNT
  else if is_bit_set uTxFlags tfPaymentMask then Some temINVALID_FLAG
  else if BaseUint.isZero uDstAccountID then Some temDST_NEEDED
  else if bMax && negb (positive saMaxAmount) then Some temBAD_AMOUNT
  else if negb (positive saDstAmount) then Some temBAD_AMOUNT
  else if BaseUint.eqb CURRENCY_BAD uSrcCurrency || BaseUint.eqb CURRENCY_BAD uDstCurrency then Some temBAD_CURRENCY
  else if BaseUint.eqb account uDstAccountID && BaseUint.eqb uSrcCurrency uDstCurrency && negb bPaths then Some temREDUNDANT
  else if bMax && eqb saMaxAmount saDstAmount && BaseUint.eqb uSrcCurrency uDstCurrency then Some temREDUNDANT_SEND_MAX
  else if bSTRDirect && bMax then Some temBAD_SEND_STR_MAX
  else if bSTRDirect && bPaths then Some temBAD_SEND_STR_PATHS
  else if bSTRDirect && bLimitQuality then Some temBAD_SEND_STR_LIMIT
  else if bSTRDirect && bNoRippleDirect then Some temBAD_SEND_STR_NO_DIRECT
  else None.

(** The destination: its account root, new or marked, or the result. *)
Definition payment_destination : T (sleptr + TER) :=
  let uDstAccountID := txAccount sfDestination mTxn in
  let saDstAmount := txAmount sfAmount mTxn in
  let root := getAccountRootIndex uDstAccountID in
  o ← lift (entryCache ltACCOUNT_ROOT root);
  match o with
  | None =>
      if negb (mIsNative saDstAmount) then mret (inr tecNO_DST)
      else
        n ← pure_result (getNValue saDstAmount);
        uReserve ← reserve 0;
        if n <? uReserve then mret (inr tecNO_DST_INSUF_STR)
        else
          sleDst ← lift (entryCreate ltACCOUNT_ROOT root);
          _ ← lift (mutate sleDst (fun x => setFieldU32 sfSequence 1 (setFieldAccount sfAccount uDstAccountID x)));
          mret (inl sleDst)
  | Some sleDst =>
      flags ← lift (field (getFieldU32 sfFlags) sleDst);
      if is_bit_set flags lsfRequireDestTag && negb (txPresent sfDestinationTag mTxn) then mret (inr tefDST_TAG_NEEDED)
      else _ ← lift (entryModify sleDst); mret (inl sleDst)
  end.

(** [catch (std::exception const&)]; undefined behaviour is not caught. *)
Definition catching (c : T TER) (otherwise : TER) : T TER := fun w =>
  match c w with
  | (Ok r, w) => (Ok r, w)
  | (Throw (undefined what), w) => (Throw (undefined what), w)
  | (Throw _, w) => (Ok otherwise, w)
  end.

Definition MAX_PATH_SIZE : nat := 6.
Definition MAX_NUM_PATHS : nat := 6.

Definition too_many_paths (paths : list STPath) : bool :=
  (MAX_NUM_PATHS <? length paths)%nat ||
  (negb (quirk QuirkLongPaymentPaths) && existsb (fun path => MAX_PATH_SIZE <? length path)%nat paths).

Definition ripple_payment (saMaxAmount : STAmount) : T TER :=
  let saDstAmount := txAmount sfAmount mTxn in
  let uTxFlags := getFlags mTxn in
  let paths := match txPaths mTxn with Some ps => ps | None => [] end in
  account ← account_id;
  catching (
    '(terResult, saDstAmountAct) ←
      (if too_many_paths paths then mret (telBAD_PATH_COUNT, no_amount)
       else
         '(r, _, act) ← lift (rippleCalc
           {| saMaxAmountReq := saMaxAmount; saDstAmountReq := saDstAmount; uDstAccountID := txAccount sfDestination mTxn;
              uSrcAccountID := account; spsPaths := paths; bPartialPayment := false;
              bLimitQuality := is_bit_set uTxFlags tfLimitQuality; bNoRippleDirect := is_bit_set uTxFlags tfNoRippleDirect;
              bStandAlone := false; bOpenLedger := is_bit_set params tapOPEN_LEDGER |});
         mret (r, act));
    let terResult := if isTerRetry terResult then tecPATH_DRY else terResult in
    _ ← (if (tesSUCCESS =? terResult) && neqb saDstAmountAct saDstAmount
         then modifies (set_delivered (Some saDstAmountAct)) else mret tt);
    mret terResult) tefEXCEPTION.

Definition direct_payment (sleDst : sleptr) : T TER :=
  let saDstAmount := txAmount sfAmount mTxn in
  uOwnerCount ← account_field (getFieldU32 sfOwnerCount);
  uReserve ← reserve uOwnerCount;
  fee ← pure_result (getNValue (getTransactionFee mTxn));
  needed ← pure_result (plus_u64 saDstAmount (Z.max uReserve fee));
  m ← reads mem;
  poor ← pure_result (ltb (mPriorBalance m) needed);
  if (poor : bool) then mret tecUNFUNDED_PAYMENT
  else
    rest ← pure_result (sub (mSourceBalance m) saDstAmount);
    _ ← set_account (setFieldAmount sfBalance rest);
    balance ← lift (field (getFieldAmount sfBalance) sleDst);
    total ← pure_result (add balance saDstAmount);
    _ ← lift (mutate sleDst (setFieldAmount sfBalance total));
    flags ← lift (field (getFieldU32 sfFlags) sleDst);
    _ ← (if quirk QuirkUseLsfPasswordSpent && is_bit_set flags lsfPasswordSpent
         then lift (mutate sleDst (clearFlag lsfPasswordSpent)) else mret tt);
    mret tesSUCCESS.

Definition payment_apply : T TER :=
  let bPaths := match txPaths mTxn with Some _ => true | None => false end in
  let bMax := txPresent sfSendMax mTxn in
  let saDstAmount := txAmount sfAmount mTxn in
  account ← account_id;
  saMaxAmount ← (if bMax then mret (txAmount sfSendMax mTxn)
                 else if mIsNative saDstAmount then mret saDstAmount
                 else pure_result (mk_iou (mCurrency saDstAmount) account (mValue saDstAmount) (mOffset saDstAmount)
                                     (negative saDstAmount)));
  match payment_malformed account saMaxAmount with
  | Some r => mret r
  | None =>
      dst ← payment_destination;
      match dst with
      | inr r => mret r
      | inl sleDst =>
          if bPaths || bMax || negb (mIsNative saDstAmount) then ripple_payment saMaxAmount
          else direct_payment sleDst
      end
  end.

(** ** Account settings *)

(** An account field that is there but empty. *)
Definition account_is_set (a : Account) : bool := negb (bool_decide (a = [])).

Definition setaccount_flags (uTxFlags uSetFlag uClearFlag uFlagsIn : Z) (hasKey ownsNothing : bool) : TER * Z :=
  let bSetRequireDest := is_bit_set uTxFlags tfRequireDestTag || (uSetFlag =? asfRequireDest) in
  let bClearRequireDest := is_bit_set uTxFlags tfOptionalDestTag || (uClearFlag =? asfRequireDest) in
  let bSetRequireAuth := is_bit_set uTxFlags tfRequireAuth || (uSetFlag =? asfRequireAuth) in
  let bClearRequireAuth := is_bit_set uTxFlags tfOptionalAuth || (uClearFlag =? asfRequireAuth) in
  if is_bit_set uTxFlags tfAccountSetMask then (temINVALID_FLAG, uFlagsIn)
  else if bSetRequireAuth && bClearRequireAuth then (temINVALID_FLAG, uFlagsIn)
  else if bSetRequireAuth && negb (is_bit_set uFlagsIn lsfRequireAuth) && negb ownsNothing then
    (if is_bit_set params tapRETRY then terOWNERS else tecOWNERS, uFlagsIn)
  else
    let out := if bSetRequireAuth && negb (is_bit_set uFlagsIn lsfRequireAuth) then Z.lor uFlagsIn lsfRequireAuth else uFlagsIn in
    let out := if bClearRequireAuth && is_bit_set uFlagsIn lsfRequireAuth then clear_flag lsfRequireAuth out else out in
    if bSetRequireDest && bClearRequireDest then (temINVALID_FLAG, out)
    else
      let out := if bSetRequireDest && negb (is_bit_set uFlagsIn lsfRequireDestTag) then Z.lor out lsfRequireDestTag else out in
      let out := if bClearRequireDest && is_bit_set uFlagsIn lsfRequireDestTag then clear_flag lsfRequireDestTag out else out in
      if quirk QuirkUseLsfDisableMaster then
        if (uSetFlag =? asfDisableMaster) && (uClearFlag =? asfDisableMaster) then (temINVALID_FLAG, out)
        else if (uSetFlag =? asfDisableMaster) && negb (is_bit_set uFlagsIn lsfDisableMaster) && negb hasKey then
          (tecNO_REGULAR_KEY, out)
        else
          let out := if (uSetFlag =? asfDisableMaster) && negb (is_bit_set uFlagsIn lsfDisableMaster)
                     then Z.lor out lsfDisableMaster else out in
          let out := if (uClearFlag =? asfDisableMaster) && is_bit_set uFlagsIn lsfDisableMaster
                     then clear_flag lsfDisableMaster out else out in
          (tesSUCCESS, out)
      else (tesSUCCESS, out).

(** The three fields a transaction may set or remove. *)
Definition set_inflation_dest : T TER :=
  if txPresent sfInflationDest mTxn then
    let aInflationDest := txAccount sfInflationDest mTxn in
    if negb (account_is_set aInflationDest) then _ ← set_account (makeFieldAbsent sfInflationDest); mret tesSUCCESS
    else
      there ← hasAccount aInflationDest;
      if negb there then mret temDST_NEEDED
      else _ ← set_account (setFieldAccount sfInflationDest aInflationDest); mret tesSUCCESS
  else mret tesSUCCESS.

Definition set_auth_key : T unit :=
  if txPresent sfSetAuthKey mTxn then
    let authKey := txAccount sfSetAuthKey mTxn in
    if negb (account_is_set authKey) then set_account (makeFieldAbsent sfSetAuthKey)
    else set_account (setFieldAccount sfSetAuthKey authKey)
  else mret tt.

Definition set_transfer_rate : T TER :=
  if txPresent sfTransferRate mTxn then
    let uRate := txU32 sfTransferRate mTxn in
    if (uRate =? 0) || (uRate =? QUALITY_ONE) then _ ← set_account (makeFieldAbsent sfTransferRate); mret tesSUCCESS
    else if uRate >? QUALITY_ONE then _ ← set_account (setFieldU32 sfTransferRate uRate); mret tesSUCCESS
    else mret temBAD_TRANSFER_RATE
  else mret tesSUCCESS.

Definition setaccount_apply : T TER :=
  let uTxFlags := getFlags mTxn in
  let uSetFlag := txU32 sfSetFlag mTxn in
  let uClearFlag := txU32 sfClearFlag mTxn in
  uFlagsIn ← account_field (getFieldU32 sfFlags);
  hasKey ← account_field (isFieldPresent sfRegularKey);
  account ← account_id;
  ownsNothing ← (if (is_bit_set uTxFlags tfRequireAuth || (uSetFlag =? asfRequireAuth)) &&
                    negb (is_bit_set uTxFlags tfOptionalAuth || (uClearFlag =? asfRequireAuth)) &&
                    negb (is_bit_set uTxFlags tfAccountSetMask) && negb (is_bit_set uFlagsIn lsfRequireAuth)
                 then lift (dirIsEmpty (getOwnerDirIndex account)) else mret true);
  let '(r, uFlagsOut) := setaccount_flags uTxFlags uSetFlag uClearFlag uFlagsIn hasKey ownsNothing in
  if negb (r =? tesSUCCESS) then mret r
  else
    unless_failed set_inflation_dest (
    _ ← set_auth_key;
    unless_failed set_transfer_rate (
    _ ← (if negb (uFlagsIn =? uFlagsOut) then set_account (setFieldU32 sfFlags uFlagsOut) else mret tt);
    mret tesSUCCESS)).

(** ** Regular keys *)

Definition regularkey_baseFee : T Z :=
  o ← reads (fun w => mTxnAccount (mem w));
  account ← account_id;
  match o with
  | None => base_calculateBaseFee
  | Some p =>
      flags ← lift (field (getFieldU32 sfFlags) p);
      if quirk QuirkUseLsfPasswordSpent && negb (is_bit_set flags lsfPasswordSpent) &&
         BaseUint.eqb (account_of_key (getSigningPubKey mTxn)) account
      then mret 0
      else base_calculateBaseFee
  end.

Definition regularkey_apply : T TER :=
  if is_bit_set (getFlags mTxn) tfUniversalMask then mret temINVALID_FLAG
  else
    m ← reads mem;
    _ ← (if quirk QuirkUseLsfPasswordSpent && is_zero (mFeeDue m) then set_account (setFlag lsfPasswordSpent) else mret tt);
    if txPresent sfRegularKey mTxn then
      _ ← set_account (setFieldAccount sfRegularKey (txAccount sfRegularKey mTxn));
      mret tesSUCCESS
    else
      disabled ← account_field (isFlag lsfDisableMaster);
      if (disabled : bool) then mret tecMASTER_DISABLED
      else _ ← set_account (makeFieldAbsent sfRegularKey); mret tesSUCCESS.

(** ** Cancelled offers *)

Definition offercancel_apply : T TER :=
  let uOfferSequence := txU32 sfOfferSequence mTxn in
  uAccountSequenceNext ← account_field (getFieldU32 sfSequence);
  if is_bit_set (getFlags mTxn) tfUniversalMask then mret temINVALID_FLAG
  else if (uOfferSequence =? 0) || (u32 (uAccountSequenceNext - 1) <=? uOfferSequence) then mret temBAD_SEQUENCE
  else
    account ← account_id;
    o ← lift (entryCache ltOFFER (getOfferIndex account uOfferSequence));
    match o with
    | Some sleOffer => lift (delete_offer sleOffer)
    | None => mret tesSUCCESS
    end.

(** ** New offers *)

(** [ClassicOfferCreateTransactor] has the checks of the base class. *)
Definition offercreate_apply : T TER :=
  m ← reads mem;
  l ← reads lgr;
  lift (createOffer mTxn params m l).

(** ** Trust lines *)

Definition trustset_checkSig : T TER :=
  present ← account_field (isFieldPresent sfSetAuthKey);
  key ← account_field (getFieldAccount160 sfSetAuthKey);
  if present && BaseUint.eqb (account_of_key (getSigningPubKey mTxn)) key then mret tesSUCCESS
  else base_checkSig mTxn.

(** A quality set, cleared or left: the line afterwards. *)
Definition set_quality (present : bool) (uQuality : Z) (f : SField) (line : SLE) : SLE :=
  if negb present then line
  else if negb (uQuality =? 0) then setFieldU32 f uQuality line
  else makeFieldAbsent f line.

(** [QUALITY_ONE] counts as none. *)
Definition quality_of (f : SField) (line : SLE) : Z :=
  let q := getFieldU32 f line in if q =? QUALITY_ONE then 0 else q.

(** One side of a line keeps a reserve. *)
Definition reserve_set (low : bool) (uFlagsOut : Z) (saBalance : STAmount) (line : SLE) : bool :=
  negb (quality_of (if low then sfLowQualityIn else sfHighQualityIn) line =? 0) ||
  negb (quality_of (if low then sfLowQualityOut else sfHighQualityOut) line =? 0) ||
  is_bit_set uFlagsOut (if low then lsfLowNoRipple else lsfHighNoRipple) ||
  nonzero (getFieldAmount (if low then sfLowLimit else sfHighLimit) line) || positive saBalance.

(** The change of one side's reserve: the flags afterwards, and whether it was
    taken now. *)
Definition adjust_reserve (low isSet reserved : bool) (owner : Account) (root : sleptr) (uFlagsOut : Z) : T (Z * bool) :=
  let flag := if low then lsfLowReserve else lsfHighReserve in
  if isSet && negb reserved then
    _ ← lift (ownerCountAdjust owner 1 (Some root)); mret (Z.lor uFlagsOut flag, true)
  else if negb isSet && reserved then
    _ ← lift (ownerCountAdjust owner (-1) (Some root)); mret (clear_flag flag uFlagsOut, false)
  else mret (uFlagsOut, false).

(** The branch of [TrustSetTransactor::doApply] for a line that exists. *)
Definition change_line (bHigh : bool) (account dst : Account) (saLimitAllow : STAmount) (uQualityIn uQualityOut : Z)
    (uReserveCreate : Z) (sleDst sleRippleState : sleptr) : T TER :=
  let uTxFlags := getFlags mTxn in
  let bSetNoRipple := is_bit_set uTxFlags tfSetNoRipple in
  let bClearNoRipple := is_bit_set uTxFlags tfClearNoRipple in
  let uLowAccountID := if negb bHigh then account else dst in
  let uHighAccountID := if bHigh then account else dst in
  mTxnAccount ← txn_account;
  let sleLowAccount := if negb bHigh then mTxnAccount else sleDst in
  let sleHighAccount := if bHigh then mTxnAccount else sleDst in
  saLowBalance ← lift (field (getFieldAmount sfBalance) sleRippleState);
  let saHighBalance := opp saLowBalance in
  _ ← lift (mutate sleRippleState (fun line =>
        set_quality (txPresent sfQualityOut mTxn) uQualityOut (if negb bHigh then sfLowQualityOut else sfHighQualityOut)
        (set_quality (txPresent sfQualityIn mTxn) uQualityIn (if negb bHigh then sfLowQualityIn else sfHighQualityIn)
        (setFieldAmount (if negb bHigh then sfLowLimit else sfHighLimit) saLimitAllow line))));
  line ← lift (deref sleRippleState);
  let uFlagsIn := getFieldU32 sfFlags line in
  let noRipple := if bHigh then lsfHighNoRipple else lsfLowNoRipple in
  let uFlagsOut :=
    if bSetNoRipple && negb bClearNoRipple && negb (negative (if bHigh then saHighBalance else saLowBalance)) then Z.lor uFlagsIn noRipple
    else if bClearNoRipple && negb bSetNoRipple then clear_flag noRipple uFlagsIn
    else uFlagsIn in
  let bLowReserveSet := reserve_set true uFlagsOut saLowBalance line in
  let bHighReserveSet := reserve_set false uFlagsOut saHighBalance line in
  let bDefault := negb bLowReserveSet && negb bHighReserveSet in
  let auth := if bHigh then lsfHighAuth else lsfLowAuth in
  let uFlagsOut := if is_bit_set uTxFlags tfSetfAuth then Z.lor uFlagsOut auth else uFlagsOut in
  let uFlagsOut := if is_bit_set uTxFlags tfClearAuth then clear_flag auth uFlagsOut else uFlagsOut in
  '(uFlagsOut, lowTaken) ← adjust_reserve true bLowReserveSet (is_bit_set uFlagsIn lsfLowReserve) uLowAccountID sleLowAccount uFlagsOut;
  '(uFlagsOut, highTaken) ← adjust_reserve false bHighReserveSet (is_bit_set uFlagsIn lsfHighReserve) uHighAccountID sleHighAccount uFlagsOut;
  let bReserveIncrease := if bHigh then highTaken else lowTaken in
  _ ← (if negb (uFlagsIn =? uFlagsOut) then lift (mutate sleRippleState (setFieldU32 sfFlags uFlagsOut)) else mret tt);
  if bDefault || BaseUint.eqb CURRENCY_BAD (mCurrency saLimitAllow) then
    lift (trustDelete sleRippleState uLowAccountID uHighAccountID)
  else
    prior ← reads (fun w => mPriorBalance (mem w));
    n ← (if (bReserveIncrease : bool) then pure_result (getNValue prior) else mret uReserveCreate);
    if n <? uReserveCreate then mret tecINSUF_RESERVE_LINE
    else _ ← lift (entryModify sleRippleState); mret tesSUCCESS.

Definition trustset_apply : T TER :=
  let saLimitAmount := txAmount sfLimitAmount mTxn in
  let bQualityIn := txPresent sfQualityIn mTxn in
  let bQualityOut := txPresent sfQualityOut mTxn in
  let uCurrencyID := mCurrency saLimitAmount in
  let dst := mIssuer saLimitAmount in
  account ← account_id;
  let bHigh := BaseUint.gtb account dst in
  let uQualityIn := if bQualityIn then txU32 sfQualityIn mTxn else 0 in
  let uQualityOut := if bQualityOut then txU32 sfQualityOut mTxn else 0 in
  if negb (isLegalNet saLimitAmount) then mret temBAD_AMOUNT
  else
    let uQualityIn := if bQualityIn && (QUALITY_ONE =? uQualityIn) then 0 else uQualityIn in
    let uQualityOut := if bQualityOut && (QUALITY_ONE =? uQualityOut) then 0 else uQualityOut in
    let uTxFlags := getFlags mTxn in
    if is_bit_set uTxFlags tfTrustSetMask then mret temINVALID_FLAG
    else
      let bSetAuth := is_bit_set uTxFlags tfSetfAuth in
      let bClearAuth := is_bit_set uTxFlags tfClearAuth in
      flags ← account_field (getFieldU32 sfFlags);
      if bSetAuth && negb (is_bit_set flags lsfRequireAuth) then mret tefNO_AUTH_REQUIRED
      else if mIsNative saLimitAmount then mret temBAD_LIMIT
      else if negative saLimitAmount then mret temBAD_LIMIT
      else if BaseUint.isZero dst || BaseUint.eqb dst ACCOUNT_ONE then mret temDST_NEEDED
      else
        let index := getRippleStateIndex account dst uCurrencyID in
        if BaseUint.eqb account dst then
          o ← lift (entryCache ltRIPPLE_STATE index);
          match o with
          | Some selDelete => lift (trustDelete selDelete account dst)
          | None => mret temDST_IS_SRC
          end
        else
          o ← lift (entryCache ltACCOUNT_ROOT (getAccountRootIndex dst));
          match o with
          | None => mret tecNO_DST
          | Some sleDst =>
              uOwnerCount ← account_field (getFieldU32 sfOwnerCount);
              uReserveCreate ← (if uOwnerCount <? 2 then mret 0 else reserve (u32 (uOwnerCount + 1)));
              let saLimitAllow := setIssuer account saLimitAmount in
              o ← lift (entryCache ltRIPPLE_STATE index);
              match o with
              | Some sleRippleState =>
                  change_line bHigh account dst saLimitAllow uQualityIn uQualityOut uReserveCreate sleDst sleRippleState
              | None =>
                  if negb (nonzero saLimitAmount) && (uQualityIn =? 0) && (uQualityOut =? 0) && negb bSetAuth && negb bClearAuth
                  then mret tecNO_LINE_REDUNDANT
                  else
                    prior ← reads (fun w => mPriorBalance (mem w));
                    n ← pure_result (getNValue prior);
                    if n <? uReserveCreate then mret tecNO_LINE_INSUF_RESERVE
                    else if BaseUint.eqb CURRENCY_BAD uCurrencyID then mret temBAD_CURRENCY
                    else
                      saBalance ← pure_result (mk_zero uCurrencyID ACCOUNT_ONE);
                      mTxnAccount ← txn_account;
                      lift (trustCreate bHigh account dst index (Some mTxnAccount) bSetAuth
                        (is_bit_set uTxFlags tfSetNoRipple && negb (is_bit_set uTxFlags tfClearNoRipple))
                        saBalance saLimitAllow uQualityIn uQualityOut)
              end
          end.

(** ** Merged accounts *)

Definition merge_precheck : T TER :=
  m ← reads mem;
  if negb (mSigMaster m) then mret temBAD_AUTH_MASTER
  else if negb (txPresent sfDestination mTxn) then mret temDST_NEEDED
  else
    let uDestinationID := txAccount sfDestination mTxn in
    if BaseUint.eqb uDestinationID (mTxnAccountID m) then mret temDST_IS_SRC
    else
      there ← hasAccount uDestinationID;
      if negb there then mret tecNO_DST
      else
        o ← lift (entryCache ltACCOUNT_ROOT (getAccountRootIndex uDestinationID));
        sleDst ← lift (non_null o);
        flags ← lift (field (getFieldU32 sfFlags) sleDst);
        mret (if is_bit_set flags lsfRequireDestTag && negb (txPresent sfDestinationTag mTxn) then tefDST_TAG_NEEDED else tesSUCCESS).

(** [Ledger::visitAccountItems]: the entries the owner directory lists in the ledger
    underneath the table; one that is missing is dereferenced by the visitor. *)
Fixpoint visit_pages (fuel : nat) (state : gmap uint256 SLE) (root current : uint256) : result (list SLE) :=
  match fuel with
  | O => Throw (undefined "directory without end")
  | S fuel =>
      match state !! current with
      | None => mret []
      | Some ownerDir =>
          if negb (bool_decide (mType ownerDir = ltDIR_NODE)) then mret []
          else
            items ← mapM (fun i => match state !! i with Some x => Ok x | None => Throw null_sle end) (getFieldV256 sfIndexes ownerDir);
            let next := getFieldU64 sfIndexNext ownerDir in
            rest ← (if next =? 0 then mret [] else visit_pages fuel state root (getDirNodeIndex root next));
            mret (items ++ rest)
      end
  end.

(** The items of a type, the last one first. *)
Definition account_items (ty : LedgerEntryType) (account : Account) : T (list uint256) :=
  l ← ledger;
  let root := getOwnerDirIndex account in
  items ← pure_result (visit_pages (S (size (mAccountState l))) (mAccountState l) root root);
  mret (reverse (map mIndex (filter (fun x => mType x = ty) items))).

(** [RippleState] seen from an account. *)
Definition view_lowest (account : Account) (line : SLE) : bool := BaseUint.eqb (getFirstOwner line) account.
Definition line_balance (account : Account) (line : SLE) : STAmount :=
  let b := getFieldAmount sfBalance line in if view_lowest account line then b else negate b.
Definition line_peer (account : Account) (line : SLE) : Account :=
  if view_lowest account line then getSecondOwner line else getFirstOwner line.
Definition line_auth_peer (account : Account) (line : SLE) : bool :=
  is_bit_set (getFieldU32 sfFlags line) (if view_lowest account line then lsfHighAuth else lsfLowAuth).

Definition makeItem (o : option sleptr) : T SLE :=
  p ← lift (non_null o);
  line ← lift (deref p);
  if bool_decide (mType line = ltRIPPLE_STATE) then mret line else raise null_sle.

(** The balance of a line moves to the line of the destination. *)
Definition move_balance (account dest : Account) (line : SLE) : T TER :=
  let saLineBalance := line_balance account line in
  let iouIssuerId := line_peer account line in
  let uTrustLineIndex := getRippleStateIndex dest iouIssuerId (mCurrency saLineBalance) in
  o ← lift (entryCache ltRIPPLE_STATE uTrustLineIndex);
  match o with
  | None => mret terNO_AUTH
  | Some sleDestinationTrustLine =>
      destLine ← makeItem o;
      if line_auth_peer account line && negb (line_auth_peer dest destLine) then mret terNO_AUTH
      else
        _ ← lift (entryModify sleDestinationTrustLine);
        let bHigh := BaseUint.gtb dest iouIssuerId in
        let destBalance := getFieldAmount sfBalance destLine in
        finalBalance ← pure_result (if bHigh then sub destBalance saLineBalance else add destBalance saLineBalance);
        let limit := getFieldAmount (if bHigh then sfHighLimit else sfLowLimit) destLine in
        over ← pure_result (if bHigh then ltb finalBalance (opp limit) else gtb finalBalance limit);
        if (over : bool) then mret terNO_AUTH
        else _ ← lift (mutate sleDestinationTrustLine (setFieldAmount sfBalance finalBalance)); mret tesSUCCESS
  end.

Fixpoint merge_lines (account dest : Account) (lines : list uint256) : T TER :=
  match lines with
  | [] => mret tesSUCCESS
  | itemIndex :: lines =>
      o ← lift (entryCache ltRIPPLE_STATE itemIndex);
      line ← makeItem o;
      sleLine ← lift (non_null o);
      let saLineBalance := line_balance account line in
      if negative saLineBalance then mret temBAD_AMOUNT
      else
        unless_failed (if positive saLineBalance then move_balance account dest line else mret tesSUCCESS) (
        let a := getFirstOwner line in
        let b := getSecondOwner line in
        let uHighAccountID := if BaseUint.gtb a b then a else b in
        let uLowAccountID := if BaseUint.ltb a b then a else b in
        r ← lift (trustDelete sleLine uLowAccountID uHighAccountID);
        if negb (r =? tesSUCCESS) then mret tefINTERNAL else merge_lines account dest lines)
  end.

Fixpoint delete_offers (offers : list uint256) : T TER :=
  match offers with
  | [] => mret tesSUCCESS
  | offerIndex :: offers =>
      r ← lift (offerDelete offerIndex);
      if negb (r =? tesSUCCESS) then mret tefINTERNAL else delete_offers offers
  end.

Definition merge_apply : T TER :=
  let dest := txAccount sfDestination mTxn in
  o ← lift (entryCache ltACCOUNT_ROOT (getAccountRootIndex dest));
  account ← account_id;
  lines ← account_items ltRIPPLE_STATE account;
  unless_failed (merge_lines account dest lines) (
  sleDst ← lift (non_null o);
  _ ← lift (entryModify sleDst);
  m ← reads mem;
  let saMoveBalance := mSourceBalance m in
  let none := clear saMoveBalance in
  _ ← change_members (with_balances (mPriorBalance m) none (mHasAuthKey m));
  _ ← set_account (setFieldAmount sfBalance none);
  balance ← lift (field (getFieldAmount sfBalance) sleDst);
  total ← pure_result (add balance saMoveBalance);
  _ ← lift (mutate sleDst (setFieldAmount sfBalance total));
  offers ← account_items ltOFFER account;
  unless_failed (delete_offers offers) (
  p ← txn_account;
  _ ← lift (entryDelete p);
  mret tesSUCCESS)).

(** ** Inflation *)

Definition INFLATION_FREQUENCY : Z := 604800.
Definition INFLATION_RATE_TRILLIONTHS : Z := 190721000.
Definition TRILLION : Z := 1000000000000.
Definition INFLATION_WIN_MIN_PERCENT : Z := 15000000000.
Definition INFLATION_START_TIME : Z := 1403900503 - 946684800.

Definition inflation_payFee : T TER :=
  if is_zero (getTransactionFee mTxn) then mret tesSUCCESS
  else if quirk QuirkNonzeroInflationFees then base_payFee mTxn params
  else mret temBAD_FEE.

Definition inflation_precheck : T TER :=
  let seq := txU32 sfInflateSeq mTxn in
  l ← reads lgr;
  if negb (seq =? mInflationSeq l) then mret telNOT_TIME
  else
    let nextTime := u32 (INFLATION_START_TIME + u32 (seq * INFLATION_FREQUENCY)) in
    mret (if mParentCloseTime l <? nextTime then telNOT_TIME else tesSUCCESS).

(** The rows after the first: those over the minimum, up to the first that is not. *)
Fixpoint over_minimum (minBalance : Z) (rows : list (Account * Z)) : list (Account * Z) :=
  match rows with
  | [] => []
  | (a, votes) :: rows => if votes >? minBalance then (a, votes) :: over_minimum minBalance rows else []
  end.

Definition winners (totalCoins : Z) (rows : list (Account * Z)) : list (Account * Z) :=
  match rows with
  | [] => []
  | (a, votes) :: rows =>
      let minBalance := totalCoins * INFLATION_WIN_MIN_PERCENT / TRILLION in
      (a, votes) :: over_minimum (if votes <=? minBalance then 0 else minBalance) rows
  end.

Definition totalVoted (ws : list (Account * Z)) : Z := foldr (fun '(_, v) t => v + t) 0 ws.

Definition coinsToDole (totalCoins feePool : Z) : Z := totalCoins * INFLATION_RATE_TRILLIONTHS / TRILLION + feePool.

(** [coinsToDole * votes / totalVoted]; a division by zero throws. *)
Definition coins_doled (toDole votes total : Z) : result Z :=
  if total =? 0 then Throw (overflow_error "Division by zero.") else Ok (u64 (toDole * votes / total)).

Fixpoint dole (toDole total : Z) (ws : list (Account * Z)) : T unit :=
  match ws with
  | [] => mret tt
  | (a, votes) :: ws =>
      coinsDoled ← pure_result (coins_doled toDole votes total);
      o ← lift (entryCache ltACCOUNT_ROOT (getAccountRootIndex a));
      _ ← (match o with
           | None => mret tt
           | Some account =>
               _ ← lift (entryModify account);
               balance ← lift (field (getFieldAmount sfBalance) account);
               total ← pure_result (plus_u64 balance coinsDoled);
               _ ← lift (mutate account (setFieldAmount sfBalance total));
               modifies (fun w => set_lgr (inflateCoins coinsDoled (lgr w)) w)
           end);
      dole toDole total ws
  end.

Definition inflation_apply : T TER :=
  if negb mClosingLedger then mret tesSUCCESS
  else
    l ← reads lgr;
    let ws := winners (mTotCoins l) (match topAccounts with Some rows => rows | None => [] end) in
    _ ← dole (coinsToDole (mTotCoins l) (mFeePool l)) (totalVoted ws) ws;
    _ ← modifies (fun w => set_lgr (incrementInflationSeq (lgr w)) w);
    mret tesSUCCESS.

(** ** Changes *)

Definition change_checkSig : T TER :=
  if negb (BaseUint.isZero (getSourceAccount mTxn)) then mret temBAD_SRC_ACCOUNT
  else if negb (bool_decide (getSigningPubKey mTxn = [])) || negb (bool_decide (getSignature mTxn = [])) then mret temBAD_SIGNATURE
  else mret tesSUCCESS.

Definition change_checkSeq : T TER :=
  mret (if negb (getSequence mTxn =? 0) || txPresent sfPreviousTxnID mTxn then temBAD_SEQUENCE else tesSUCCESS).

Definition change_payFee : T TER := mret (if neqb (getTransactionFee mTxn) no_amount then temBAD_FEE else tesSUCCESS).

Definition change_preCheck : T TER :=
  let account := getSourceAccount mTxn in
  _ ← change_members (with_accountID account);
  if negb (BaseUint.isZero account) then mret temBAD_SRC_ACCOUNT
  else if is_bit_set params tapOPEN_LEDGER then mret temINVALID
  else mret tesSUCCESS.

(** [entryCache], or [entryCreate] when there is none. *)
Definition find_or_create (ty : LedgerEntryType) (index : uint256) : T sleptr :=
  o ← lift (entryCache ty index);
  match o with Some p => mret p | None => lift (entryCreate ty index) end.

Definition enable_amendment (a : uint256) : T unit :=
  modifies (fun w => set_amendments
    {| mEnabled := {[a]} ∪ mEnabled (amendments w);
       m_amendmentBlocked := m_amendmentBlocked (amendments w) || negb (isSupported a) |} w).

Definition applyAmendment : T TER :=
  let amendment := txH256 sfAmendment mTxn in
  amendmentObject ← find_or_create ltAMENDMENTS getLedgerAmendmentIndex;
  listed ← lift (field (getFieldV256 sfAmendments) amendmentObject);
  if bool_decide (amendment ∈ listed) then mret tefALREADY
  else
    _ ← lift (mutate amendmentObject (setFieldV256 sfAmendments (listed ++ [amendment])));
    _ ← lift (entryModify amendmentObject);
    _ ← enable_amendment amendment;
    mret tesSUCCESS.

Definition applyFee : T TER :=
  feeObject ← find_or_create ltFEE_SETTINGS getLedgerFeeIndex;
  _ ← lift (mutate feeObject (fun x =>
        setFieldU32 sfReserveIncrement (txU32 sfReserveIncrement mTxn)
        (setFieldU32 sfReserveBase (txU32 sfReserveBase mTxn)
        (setFieldU32 sfReferenceFeeUnits (txU32 sfReferenceFeeUnits mTxn)
        (setFieldU64 sfBaseFee (txU64 sfBaseFee mTxn) x)))));
  _ ← lift (entryModify feeObject);
  mret tesSUCCESS.

Definition change_apply : T TER :=
  match getTxnType mTxn with
  | ttAMENDMENT => applyAmendment
  | ttFEE => applyFee
  | _ => mret temUNKNOWN
  end.

(** ** The transactor of a transaction *)

Abbreviation base := (base mClosingLedger mTxn params).

Definition makeTransactor : option Transactor :=
  match getTxnType mTxn with
  | ttPAYMENT => Some (base payment_apply)
  | ttACCOUNT_SET => Some (base setaccount_apply)
  | ttREGULAR_KEY_SET =>
      let b := base regularkey_apply in
      Some {| preCheck := preCheck b; precheckAgainstLedger := precheckAgainstLedger b; checkSeq := checkSeq b; payFee := payFee b;
              calculateBaseFee := regularkey_baseFee; checkSig := checkSig b; doApply := doApply b; mustHaveValidAccount := true |}
  | ttTRUST_SET =>
      let b := base trustset_apply in
      Some {| preCheck := preCheck b; precheckAgainstLedger := precheckAgainstLedger b; checkSeq := checkSeq b; payFee := payFee b;
              calculateBaseFee := calculateBaseFee b; checkSig := trustset_checkSig; doApply := doApply b; mustHaveValidAccount := true |}
  | ttOFFER_CANCEL => Some (base offercancel_apply)
  | ttOFFER_CREATE => Some (base offercreate_apply)
  | ttACCOUNT_MERGE =>
      let b := base merge_apply in
      Some {| preCheck := preCheck b; precheckAgainstLedger := merge_precheck; checkSeq := checkSeq b; payFee := payFee b;
              calculateBaseFee := calculateBaseFee b; checkSig := checkSig b; doApply := doApply b; mustHaveValidAccount := true |}
  | ttINFLATION =>
      let b := base inflation_apply in
      Some {| preCheck := preCheck b; precheckAgainstLedger := inflation_precheck; checkSeq := checkSeq b; payFee := inflation_payFee;
              calculateBaseFee := calculateBaseFee b; checkSig := mret tesSUCCESS; doApply := doApply b; mustHaveValidAccount := true |}
  | ttAMENDMENT | ttFEE =>
      Some {| preCheck := change_preCheck; precheckAgainstLedger := mret tesSUCCESS; checkSeq := change_checkSeq; payFee := change_payFee;
              calculateBaseFee := base_calculateBaseFee; checkSig := change_checkSig; doApply := change_apply; mustHaveValidAccount := false |}
  end.

(** [TransactionEngine::applyTransaction]. *)
Definition engine : T (TER * bool) := applyTransaction mClosingLedger mTxn params makeTransactor.
End Transactors.
End Transactors.
