(* ===== verification/MetaLaws.v ===== *)
(** * Theorems about transaction metadata

    [calcRawMeta] of TxMeta.v always returns; it changes nothing of the entries a
    transaction leaves but the thread of transactions they keep
    ([calcRawMeta_ok]); and every entry of the ledger that differs afterwards is
    among the affected nodes ([meta_complete]), provided the account roots of the
    ledger have a thread.  One that has none, as the root of the first account of a
    new network, changes without being listed ([unlisted_thread]). *)
From Stdlib Require Import ZArith Lia.
From S2P Require Import Prelude BaseUint Serializer STAmount STAmountMath Book SHAMapNode Effects FeeTrack LedgerEntrySet LedgerLaws Directory TrustLaws TxMeta.
From stdpp Require Import base numbers list gmap strings sorting.
Import Effects LedgerEntrySet LedgerLaws TxMeta.
Local Open Scope Z_scope.

Module MetaLaws.
Import STAmount.

Implicit Types (s : State) (w : MetaState) (i j : uint256) (e : LedgerEntrySetEntry) (x y : SLE) (p : sleptr).

(** ** Entries up to their thread *)

Definition same_thread x y : Prop :=
  mIndex x = mIndex y /\ mType x = mType y /\
  forall f, f <> sfPreviousTxnID -> f <> sfPreviousTxnLgrSeq -> mFields x !! f = mFields y !! f.

#[export] Instance same_thread_equiv : Equivalence same_thread.
Proof.
  split.
  - done.
  - intros x y (? & ? & H). split_and!; [done|done|]. intros. symmetry. by apply H.
  - intros x y z (? & ? & H) (? & ? & H'). split_and!; [congruence|congruence|]. intros. etrans; [by apply H|by apply H'].
Qed.

Definition rethreaded (m m' : gmap uint256 SLE) : Prop := forall i, option_Forall2 same_thread (m !! i) (m' !! i).

#[export] Instance rethreaded_equiv : Equivalence rethreaded.
Proof.
  split.
  - intros m i. by apply option_Forall2_refl.
  - intros m m' H i. symmetry. apply H.
  - intros m1 m2 m3 H H' i. etrans; [apply H|apply H'].
Qed.

Lemma thread_same txID n x y t : thread txID n x = Some (y, t) -> same_thread x y.
Proof.
  unfold thread. destruct (decide _); [done|]. intros [= <- _]. split_and!; [done|done|]. intros f H1 H2.
  cbn. by rewrite !lookup_insert_ne by done.
Qed.

(** ** Equality of entries *)

Lemma mismatch_refl (l : list Z) : BaseUint.mismatch l l = None.
Proof. induction l as [|a l IH]; [done|]. cbn. by rewrite Z.eqb_refl. Qed.

Lemma value_eqb_refl v : value_eqb v v = true.
Proof.
  destruct v; cbn; try by apply bool_decide_true. unfold eqb, isComparable, BaseUint.eqb, BaseUint.compare.
  rewrite mismatch_refl, !Z.eqb_refl, Bool.eqb_reflx. by destruct (mIsNative _).
Qed.

Lemma sle_eqb_refl x : sle_eqb x x = true.
Proof.
  unfold sle_eqb. rewrite bool_decide_true by done. apply forallb_forall. intros f _. unfold field_eqb.
  destruct (mFields x !! f); [apply value_eqb_refl|done].
Qed.

Lemma sle_eqb_field x y f : sle_eqb x y = true -> field_eqb (mFields x !! f) (mFields y !! f) = true.
Proof.
  unfold sle_eqb. rewrite andb_true_iff, forallb_forall. intros [_ H].
  destruct (decide (f ∈ dom (mFields x) ∪ dom (mFields y))) as [Hin|Hn].
  - apply H, list_elem_of_In, elem_of_elements, Hin.
  - rewrite not_elem_of_union, !not_elem_of_dom in Hn. destruct Hn as [-> ->]. done.
Qed.

(** The last transaction of an entry. *)
Abbreviation last_tx x := (getFieldH256 sfPreviousTxnID x).

Lemma sle_eqb_last x y : sle_eqb x y = true -> last_tx x = last_tx y.
Proof.
  intros H. pose proof (sle_eqb_field x y sfPreviousTxnID H) as Hf. unfold getFieldH256.
  destruct (mFields x !! sfPreviousTxnID) as [v|], (mFields y !! sfPreviousTxnID) as [v'|]; try done.
  destruct v, v'; cbn in Hf; try done; by apply bool_decide_eq_true_1 in Hf as [= ->].
Qed.

(** ** Objects and the nodes of the metadata *)

(** Writing to the object behind [p], which no clean entry has. *)
Lemma mutation_any p x y s : ok ∅ s -> heap s !! p = Some x -> same_thread x y ->
  (forall i e, entries s !! i = Some e -> mEntry e = p -> mAction e <> taaCACHED) ->
  let s' := set_heap (<[p := y]> (heap s)) s in ok ∅ s' /\ rethreaded (view s) (view s').
Proof.
  intros Hok Hx Hxy Hc s'. pose proof (lookup_lt_Some _ _ _ Hx) as Hlt.
  assert (Hh : forall q z, heap s !! q = Some z -> exists z', heap s' !! q = Some z' /\ same_thread z z' /\ (q <> p -> z' = z)).
  { intros q z Hq. cbn. destruct (decide (q = p)) as [->|Hne].
    - exists y. rewrite list_lookup_insert_eq by done. split_and!; [done| |done]. congruence.
    - exists z. by rewrite list_lookup_insert_ne. }
  split.
  - split; cbn [les set_heap heap s']; [apply Hok| | |apply Hok].
    + intros i e He. destruct (ok_entry _ _ Hok _ _ He) as ((z & Hz & Hi) & ? & ?). split_and!; try done.
      destruct (Hh _ _ Hz) as (z' & Hz' & (Hi' & _) & _). exists z'. split; [done|congruence].
    + intros i e He Ha Hn. destruct (ok_entry _ _ Hok _ _ He) as ((z & Hz & _) & _).
      rewrite list_lookup_insert_ne by (intros E; by apply (Hc i e He)). by apply (ok_clean _ _ Hok).
  - intros i. rewrite !view_lookup. cbn [les set_heap heap s']. destruct (entries s !! i) as [e|] eqn:He; [|by apply option_Forall2_refl].
    cbn. unfold shows. case_decide; [by constructor|]. destruct (ok_entry _ _ Hok _ _ He) as ((z & Hz & _) & _).
    destruct (Hh _ _ Hz) as (z' & Hz' & Hs & _). cbn in Hz'. rewrite Hz, Hz'. by constructor.
Qed.

Definition listed w i : Prop := exists n, n ∈ mNodes w /\ aIndex n = i.

Lemma on_node_listed i f other ns : (forall n, aIndex (f n) = aIndex n) -> (forall n, n ∈ other -> aIndex n = i) ->
  forall j, (exists n, n ∈ ns /\ aIndex n = j) \/ (other <> [] /\ j = i) -> exists n, n ∈ on_node i f other ns /\ aIndex n = j.
Proof.
  intros Hf Ho j [(n & Hn & <-)|[Hne ->]].
  - induction ns as [|m ns IH]; [by apply not_elem_of_nil in Hn|]. cbn [on_node].
    apply elem_of_cons in Hn as [->|Hn]; destruct (decide (aIndex _ = i)).
    + exists (f m). split; [by left|done].
    + exists m. split; [by left|done].
    + exists n. split; [by right|done].
    + destruct (IH Hn) as (n' & ? & ?). exists n'. split; [by right|done].
  - induction ns as [|m ns IH]; cbn [on_node].
    + destruct other as [|o other]; [done|]. exists o. split; [by left|]. apply Ho. by left.
    + destruct (decide (aIndex m = i)) as [<-|].
      * exists (f m). split; [by left|done].
      * destruct IH as (n' & ? & ?). exists n'. split; [by right|done].
Qed.

(** ** The walk *)

Section Walk.
Context `{SHA : SHA512} (gLedgerSeq : Z) (txID : uint256) (lgrSeq : Z).

Abbreviation thread_entry := (thread_entry txID lgrSeq).
Abbreviation threadTx := (threadTx txID lgrSeq).
Abbreviation threadOwners := (threadOwners gLedgerSeq txID lgrSeq).
Abbreviation meta_step := (meta_step gLedgerSeq txID lgrSeq).
Abbreviation meta_loop := (meta_loop gLedgerSeq txID lgrSeq).

(** Entries modified for their thread only: objects of their own, not in the table. *)
Record mods_ok w : Prop := {
  mo_absent : forall i p, newMods w !! i = Some p -> entries (ms w) !! i = None;
  mo_object : forall i p, newMods w !! i = Some p ->
    exists x y, heap (ms w) !! p = Some x /\ ledger_of (ms w) !! i = Some y /\ same_thread y x;
  mo_apart : forall i p j e, newMods w !! i = Some p -> entries (ms w) !! j = Some e -> mEntry e <> p;
  mo_inj : forall i j p, newMods w !! i = Some p -> newMods w !! j = Some p -> i = j }.

(** What the walk keeps of the state [s0] it began in. *)
Record walk s0 w : Prop := {
  wk_ok : ok ∅ (ms w);
  wk_mods : mods_ok w;
  wk_view : rethreaded (view s0) (view (ms w));
  wk_ledger : mLedger (les (ms w)) = mLedger (les s0);
  wk_seq : mSeq (les (ms w)) = mSeq (les s0);
  wk_params : mParams (les (ms w)) = mParams (les s0);
  wk_dom : forall i, is_Some (entries (ms w) !! i) <-> is_Some (entries s0 !! i) }.

(** Account roots of the ledger have a thread. *)
Definition threads s0 : Prop := forall a x, ledger_of s0 !! getAccountRootIndex a = Some x -> SHAMapNode.isZero (last_tx x) = false.

(** An entry whose difference to the ledger, if any, is written down. *)
Definition settled w i : Prop :=
  listed w i \/
  match entries (ms w) !! i with
  | None => True
  | Some e => mAction e = taaCACHED \/
      (mAction e = taaMODIFY /\ exists x y, heap (ms w) !! mEntry e = Some x /\ ledger_of (ms w) !! i = Some y /\ sle_eqb x y = true)
  end.

(** Entries modified for their thread only are written down, or not changed. *)
Definition mods_settled w : Prop :=
  forall i p, newMods w !! i = Some p -> listed w i \/ heap (ms w) !! p = ledger_of (ms w) !! i.

(** The walk when it has dealt with the indexes of [S]. *)
Record walking s0 (S : list uint256) w : Prop := {
  wk :> walk s0 w;
  wk_roots : forall i p, newMods w !! i = Some p -> exists a, i = getAccountRootIndex a;
  wk_settled : threads s0 -> forall i, i ∈ S -> settled w i;
  wk_mods_settled : threads s0 -> mods_settled w }.

(** The object behind [p] may be written to. *)
Definition writable w p x : Prop :=
  heap (ms w) !! p = Some x /\ forall j e, entries (ms w) !! j = Some e -> mEntry e = p -> mAction e <> taaCACHED.

(** Nodes stay, and objects that may be written to remain so. *)
Definition onward w w' : Prop :=
  (forall i, listed w i -> listed w' i) /\
  (forall p x, writable w p x -> exists x', writable w' p x' /\ mIndex x' = mIndex x).

Lemma onward_refl w : onward w w.
Proof. split; [done|]. intros p x H. by exists x. Qed.
Lemma onward_trans w1 w2 w3 : onward w1 w2 -> onward w2 w3 -> onward w1 w3.
Proof.
  intros [H1 H2] [H1' H2']. split; [auto|]. intros p x H. destruct (H2 p x H) as (x' & H' & <-).
  destruct (H2' p x' H') as (x'' & ? & <-). by exists x''.
Qed.

Definition goes s0 S w w' : Prop := walking s0 S w' /\ onward w w'.

Lemma wpe_on_table {A} (c : M A) w (Q : A -> MetaState -> Prop) :
  wpe c (ms w) (fun a s => Q a (set_ms s w)) -> wpe (on_table c) w Q.
Proof. unfold wpe, on_table. destruct (c (ms w)) as [[a|x] s]; done. Qed.

Lemma walk_nodes s0 w ns : walk s0 w -> walk s0 (set_nodes ns w).
Proof. intros []. split; try done. by destruct wk_mods0; split. Qed.

Lemma set_ms_same w : set_ms (ms w) w = w.
Proof. by destruct w. Qed.

(** Nodes that are only changed or added leave the walk as it was. *)
Lemma walking_nodes s0 S w ns : walking s0 S w -> (forall i, listed w i -> listed (set_nodes ns w) i) ->
  goes s0 S w (set_nodes ns w).
Proof.
  intros [Hw Hr Hs Hm] Hl. split; [|by split; [|intros q x Hq; by exists x]]. split; [by apply walk_nodes|done| |].
  - intros Ht i Hi. destruct (Hs Ht i Hi) as [|]; [left; auto|by right].
  - intros Ht i q Hq. destruct (Hm Ht i q Hq) as [|]; [left; auto|by right].
Qed.

(** An object that may be written to gets a thread. *)
Lemma mutation_walk s0 w p x y : walk s0 w -> writable w p x -> same_thread x y ->
  walk s0 (set_ms (set_heap (<[p := y]> (heap (ms w))) (ms w)) w).
Proof.
  intros [Hok [M1 M2 M3 M4] Hv Hl Hs Hp Hd] [Hx Hc] Hxy. pose proof (lookup_lt_Some _ _ _ Hx) as Hlt.
  destruct (mutation_any p x y (ms w) Hok Hx Hxy Hc) as [Hok' Hv']. split; try done; [|by etrans].
  split; cbn; [done| |done|done]. intros i q Hq. destruct (M2 i q Hq) as (x1 & y1 & Hx1 & Hy1 & H1).
  destruct (decide (q = p)) as [->|Hne].
  - exists y, y1. rewrite list_lookup_insert_eq by done. split_and!; [done|done|]. etrans; [done|]. congruence.
  - exists x1, y1. by rewrite list_lookup_insert_ne.
Qed.

Lemma mutation_onward w p x y ns : writable w p x -> mIndex y = mIndex x ->
  (forall i, listed w i -> listed (set_nodes ns w) i) ->
  onward w (set_nodes ns (set_ms (set_heap (<[p := y]> (heap (ms w))) (ms w)) w)).
Proof.
  intros [Hx Hc] Hi Hl. split; [done|]. intros q z [Hq Hcq]. destruct (decide (q = p)) as [->|Hne].
  - exists y. split; [|congruence]. split; [|done]. cbn. apply list_lookup_insert_eq. by eapply lookup_lt_Some.
  - exists z. split; [|done]. split; [|done]. cbn. by rewrite list_lookup_insert_ne.
Qed.

(** The entry of an object is the one of its index. *)
Lemma writable_index s0 w p x j e : walk s0 w -> heap (ms w) !! p = Some x -> entries (ms w) !! j = Some e -> mEntry e = p -> mIndex x = j.
Proof. intros Hw Hx He Hp. destruct (ok_entry _ _ (wk_ok _ _ Hw) _ _ He) as ((z & Hz & <-) & _). congruence. Qed.

Lemma mods_index s0 w p x i : walk s0 w -> heap (ms w) !! p = Some x -> newMods w !! i = Some p -> mIndex x = i.
Proof.
  intros Hw Hx Hi. destruct (mo_object _ (wk_mods _ _ Hw) _ _ Hi) as (x' & y & Hx' & Hy & (Hxy & _)).
  pose proof (ok_ledger _ _ (wk_ok _ _ Hw) _ _ Hy). congruence.
Qed.

(** A new thread is written down, unless the entry had none; so what was settled
    remains so. *)
Lemma thread_settled s0 S w p x y ns :
  walking s0 S w -> writable w p x -> same_thread x y ->
  (listed w (mIndex x) \/ exists a, mIndex x = getAccountRootIndex a) ->
  (forall i, listed w i -> listed (set_nodes ns w) i) ->
  (SHAMapNode.isZero (last_tx x) = true \/ listed (set_nodes ns w) (mIndex x)) ->
  goes s0 S w (set_nodes ns (set_ms (set_heap (<[p := y]> (heap (ms w))) (ms w)) w)).
Proof.
  intros Hw Hp Hxy Hroot Hl Hz. pose proof (wk _ _ _ Hw) as Hk. pose proof Hp as [Hx _].
  split; [|apply (mutation_onward w p x); [done|by symmetry; apply Hxy|done]].
  pose proof (mutation_walk _ _ _ _ _ Hk Hp Hxy) as Hk'.
  set (w' := set_nodes ns (set_ms (set_heap (<[p := y]> (heap (ms w))) (ms w)) w)).
  assert (Hlist : threads s0 -> forall z, ledger_of s0 !! mIndex x = Some z -> last_tx x = last_tx z -> listed w' (mIndex x)).
  { intros Ht z Hz' E. destruct Hroot as [Hr|[a Ha]]; [by apply Hl|]. destruct Hz as [Hzero|]; [|done].
    rewrite Ha in Hz'. rewrite E, (Ht a z Hz') in Hzero. done. }
  split.
  - by apply walk_nodes.
  - apply Hw.
  - intros Ht i Hi. destruct (wk_settled _ _ _ Hw Ht i Hi) as [|Hs]; [left; by apply Hl|]. cbn in Hs.
    destruct (entries (ms w) !! i) as [e|] eqn:He; [|right; cbn; by rewrite He].
    destruct Hs as [Hc|(Ha & z & b & Hz1 & Hb & E)]; [right; cbn; rewrite He; by left|].
    destruct (decide (mEntry e = p)) as [Hep|Hne].
    + left. pose proof (writable_index s0 w p x i e Hk Hx He Hep) as <-. apply (Hlist Ht b); [by rewrite <- (wk_ledger _ _ Hk)|].
      assert (z = x) as -> by congruence. by apply sle_eqb_last.
    + right. cbn. rewrite He. right. split; [done|]. exists z, b. by rewrite list_lookup_insert_ne.
  - intros Ht i q Hq. destruct (wk_mods_settled _ _ _ Hw Ht i q Hq) as [|E]; [left; by apply Hl|].
    destruct (decide (q = p)) as [->|Hne]; [|right; cbn; by rewrite list_lookup_insert_ne].
    left. pose proof (mods_index s0 w p x i Hk Hx Hq) as <-. rewrite Hx in E. symmetry in E.
    apply (Hlist Ht x); [by rewrite <- (wk_ledger _ _ Hk)|done].
Qed.

Lemma goes_refl s0 S w : walking s0 S w -> goes s0 S w w.
Proof. intros Hw. split; [done|apply onward_refl]. Qed.

Lemma goes_then s0 S w1 w2 w3 : goes s0 S w1 w2 -> goes s0 S w2 w3 -> goes s0 S w1 w3.
Proof. intros [_ H] [H3 H']. split; [done|by eapply onward_trans]. Qed.

Lemma thread_entry_ok s0 S w p x :
  walking s0 S w -> writable w p x -> (listed w (mIndex x) \/ exists a, mIndex x = getAccountRootIndex a) ->
  wpe (thread_entry p) w (fun _ w' => goes s0 S w w').
Proof.
  intros Hw Hp Hroot. pose proof Hp as [Hx _]. unfold TxMeta.thread_entry. apply wpe_bind, wpe_on_table.
  eapply deref_ok; [done|]. rewrite set_ms_same. destruct (thread txID lgrSeq x) as [[y [prev n]]|] eqn:Et; [|by apply wpe_ret, goes_refl].
  pose proof (thread_same _ _ _ _ _ Et) as Hxy. assert (Hprev : prev = last_tx x).
  { unfold thread in Et. destruct (decide _); [done|]. by injection Et as _ <-. }
  apply wpe_bind, wpe_on_table. unfold mutate. apply wpe_bind. eapply deref_ok; [done|]. apply wpe_modifies.
  rewrite Hprev.
  destruct (SHAMapNode.isZero (last_tx x)) eqn:Hz.
  - apply wpe_ret. apply (thread_settled s0 S w p x y (mNodes w)); auto.
  - apply wpe_bind, wpe_reads. unfold thread_affected. cbn [mNodes set_ms]. apply wpe_bind, wpe_modifies, wpe_ret.
    apply (thread_settled s0 S w p x y); [done|done|done|done| |].
    + intros i Hi. apply (on_node_listed (mIndex x)); [done|by intros ? ->%list_elem_of_singleton|by left].
    + right. apply (on_node_listed (mIndex x)); [done|by intros ? ->%list_elem_of_singleton|by right].
Qed.

(** A new object: nothing points to it. *)
Lemma make_walk s0 S w x : walking s0 S w ->
  let w' := set_ms (set_heap (heap (ms w) ++ [x]) (ms w)) w in
  goes s0 S w w' /\ heap (ms w') !! length (heap (ms w)) = Some x /\
  (forall j e, entries (ms w) !! j = Some e -> mEntry e <> length (heap (ms w))) /\
  (forall j p, newMods w !! j = Some p -> p <> length (heap (ms w))).
Proof.
  intros [Hk Hr Hs Hm] w'. pose proof Hk as [Hok [M1 M2 M3 M4] Hv Hl Hq Hp Hd].
  destruct (make_ok ∅ x (ms w) Hok) as (Hok' & Hv' & Hx & _).
  assert (Hh : forall p z, heap (ms w) !! p = Some z -> heap (ms w') !! p = Some z) by (intros p z Hz; cbn; by apply lookup_app_l_Some).
  assert (He : forall j e, entries (ms w) !! j = Some e -> exists z, heap (ms w) !! mEntry e = Some z).
  { intros j e He. destruct (ok_entry _ _ Hok _ _ He) as ((z & Hz & _) & _). by exists z. }
  assert (Hn : forall j p, newMods w !! j = Some p -> exists z, heap (ms w) !! p = Some z).
  { intros j p Hj. destruct (M2 j p Hj) as (z & _ & Hz & _). by exists z. }
  split_and!; [|done| |].
  - split.
    + split; [|done| |].
      * split; try done; [|unfold w'; cbn [ms set_ms]; by rewrite Hv']. split; try done. intros j p Hj. destruct (M2 j p Hj) as (z & y & Hz & ?). exists z, y.
        by rewrite (Hh p z Hz).
      * intros Ht j Hj. destruct (Hs Ht j Hj) as [|H]; [by left|right]. cbn. destruct (entries (ms w) !! j) as [e|]; [|done].
        destruct H as [|(Ha & z & y & Hz & ?)]; [by left|right]. split; [done|]. exists z, y. split; [by apply Hh|done].
      * intros Ht j p Hj. destruct (Hm Ht j p Hj) as [|H]; [by left|right]. destruct (Hn j p Hj) as [z Hz].
        rewrite (Hh p z Hz), <- Hz. exact H.
    + split; [done|]. intros p z [Hz Hc]. exists z. split; [|done]. split; [by apply Hh|done].
  - intros j e Hj E. destruct (He j e Hj) as [z Hz]. rewrite E in Hz. apply lookup_lt_Some in Hz. lia.
  - intros j p Hj ->. destruct (Hn j _ Hj) as [z Hz]. apply lookup_lt_Some in Hz. lia.
Qed.

(** The entry of [i] is marked and filed under the object [p], which looks the same. *)
Lemma refile_walk s0 S w i e p x (a := if decide (mAction e = taaCACHED) then taaMODIFY else mAction e) :
  walking s0 S w -> entries (ms w) !! i = Some e -> mAction e <> taaDELETE ->
  heap (ms w) !! p = Some x -> heap (ms w) !! mEntry e = Some x -> mIndex x = i ->
  (forall j e', entries (ms w) !! j = Some e' -> mEntry e' = p -> j = i) ->
  (forall j q, newMods w !! j = Some q -> q <> p) ->
  let w' := set_ms (set_les (with_entries (les (ms w))
              (<[i := {| mEntry := p; mAction := a; mEntrySeq := mSeq (les (ms w)) |}]> (entries (ms w)))) (ms w)) w in
  goes s0 S w w' /\ writable w' p x.
Proof.
  intros [Hk Hr Hs Hm] He Hd Hx Hxe Hi Hinj Hfresh w'. pose proof Hk as [Hok [M1 M2 M3 M4] Hv Hl Hq Hp Hdom].
  destruct (ok_entry _ _ Hok _ _ He) as (_ & _ & Hact).
  assert (Ha : a <> taaCACHED /\ a <> taaDELETE /\ action_ok a (ledger_of (ms w) !! i)).
  { subst a. destruct (decide _) as [Hc|]; [|done]. by rewrite Hc in Hact. }
  destruct Ha as (Hac & Had & Hao). set (e' := {| mEntry := p; mAction := a; mEntrySeq := mSeq (les (ms w)) |}) in *.
  destruct (put_entry_ok ∅ ∅ i e' x (ms w)) as [Hok' _]; [done|done|done|cbn; lia|done|done|by intros|set_solver|].
  assert (Hview : view (ms w') = view (ms w)).
  { change (ms w') with (set_les (with_entries (les (ms w)) (<[i := e']> (entries (ms w)))) (ms w)). rewrite put_entry_view. apply map_eq. intros j.
    destruct (decide (j = i)) as [->|]; [|by rewrite lookup_partial_alter_ne]. rewrite lookup_partial_alter_eq, view_lookup, He. cbn.
    unfold shows, e'. cbn [mAction mEntry]. rewrite !decide_False by done. congruence. }
  split; [split|split].
  - split; [|done| |].
    + split; try done; [|by rewrite Hview|].
      * split; cbn; [|done| |done].
        -- intros j q Hj. pose proof (M1 j q Hj). rewrite lookup_insert_ne; [done|]. intros ->. congruence.
        -- intros j q k f Hj [[<- <-]|[_ Hf]]%lookup_insert_Some E; [by apply (Hfresh j q)|by apply (M3 j q k f)].
      * intros j. cbn. rewrite <- Hdom. destruct (decide (j = i)) as [->|]; [|by rewrite lookup_insert_ne].
        rewrite lookup_insert_eq, He. split; intros _; by eexists.
    + intros Ht j Hj. destruct (Hs Ht j Hj) as [|H]; [by left|right]. cbn. destruct (decide (j = i)) as [->|]; [|by rewrite lookup_insert_ne].
      rewrite lookup_insert_eq. cbn. rewrite He in H. right. destruct H as [Hc|(Hmo & z & y & Hz & Hy & E)].
      * subst a. rewrite decide_True by done. split; [done|]. exists x, x. split_and!; [done| |apply sle_eqb_refl].
        rewrite <- Hxe. symmetry. by apply (ok_clean _ _ Hok).
      * subst a. rewrite decide_False by congruence. split; [done|]. exists x, y. split_and!; [done|done|congruence].
    + intros Ht j q Hj. by apply (Hm Ht j q).
  - split; [done|]. intros q z [Hz Hc]. exists z. split; [|done]. split; [done|].
    intros j f. cbn. intros [[<- <-]|[_ Hf]]%lookup_insert_Some; [done|by apply (Hc j)].
  - done.
  - intros j f. cbn. intros [[<- <-]|[Hne Hf]]%lookup_insert_Some E; [done|]. exfalso. apply Hne. symmetry. by apply (Hinj j f).
Qed.

(** A copy of the ledger's entry becomes one of the entries modified for their thread. *)
Lemma new_mod_walk s0 S w a x (i := getAccountRootIndex a) :
  walking s0 S w -> entries (ms w) !! i = None -> newMods w !! i = None -> ledger_of (ms w) !! i = Some x ->
  let p := length (heap (ms w)) in
  let w' := set_mods (<[i := p]> (newMods w)) (set_ms (set_heap (heap (ms w) ++ [x]) (ms w)) w) in
  goes s0 S w w' /\ forall q, Some p = Some q -> exists y, writable w' q y /\ mIndex y = i.
Proof.
  intros Hw He Hn Hl p w'. destruct (make_walk s0 S w x Hw) as ([[[Hok [M1 M2 M3 M4] Hv Hle Hq Hp Hdom] Hr Hs Hm] [Ho1 Ho2]] & Hx & He1 & Hm1).
  split; [split|].
  - split; [| |done|].
    + split; try done. split; cbn [newMods w' set_mods].
      * intros j q [[<- <-]|[_ Hj]]%lookup_insert_Some; [done|by apply (M1 j q)].
      * intros j q [[<- <-]|[_ Hj]]%lookup_insert_Some; [by exists x, x|by apply (M2 j q)].
      * intros j q k e [[<- <-]|[_ Hj]]%lookup_insert_Some Hk; [by apply (He1 k e)|by apply (M3 j q k e)].
      * intros j k q [[<- <-]|[_ Hj]]%lookup_insert_Some [[<- E]|[_ Hk]]%lookup_insert_Some; [done| | |by apply (M4 j k q)].
        -- by destruct (Hm1 k p Hk).
        -- subst q. by destruct (Hm1 j p Hj).
    + cbn [newMods w' set_mods]. intros j q [[<- <-]|[_ Hj]]%lookup_insert_Some; [by exists a|by apply (Hr j q)].
    + intros Ht. unfold mods_settled. cbn [newMods w' set_mods]. intros j q [[<- <-]|[_ Hj]]%lookup_insert_Some; [right; etrans; [exact Hx|symmetry; exact Hl]|by apply (Hm Ht j q)].
  - by split.
  - intros q [= <-]. exists x. split; [|by apply (ok_ledger _ _ (wk_ok _ _ (wk _ _ _ Hw)) _ _ Hl)].
    split; [done|]. intros j e Hj E. by destruct (He1 j e Hj).
Qed.

(** The object an account root is changed through. *)
Lemma getForMod_ok s0 S w a :
  walking s0 S w ->
  wpe (getForMod (getAccountRootIndex a)) w (fun o w' => goes s0 S w w' /\
    forall p, o = Some p -> exists x, writable w' p x /\ mIndex x = getAccountRootIndex a).
Proof.
  intros Hw. pose proof (wk _ _ _ Hw) as Hk. set (i := getAccountRootIndex a). unfold getForMod.
  apply wpe_bind, wpe_reads. destruct (entries (ms w) !! i) as [e|] eqn:He.
  - destruct (decide (mAction e = taaDELETE)) as [|Hd]; [apply wpe_ret; by split; [apply goes_refl|]|].
    destruct (ok_entry _ _ (wk_ok _ _ Hk) _ _ He) as ((x & Hx & Hi) & _). apply wpe_bind.
    destruct (Z.eqb_spec (mEntrySeq e) (mSeq (les (ms w)))) as [Es|Es]; cbn [negb].
    + apply wpe_ret, wpe_bind, wpe_on_table, wpe_modifies, wpe_ret.
      destruct (refile_walk s0 S w i e (mEntry e) x) as [Hg Hp]; try done.
      { intros j e' Hj E. by apply (ok_inj _ _ (wk_ok _ _ Hk) _ _ _ _ Hj He). }
      { intros j q Hj E. by apply (mo_apart _ (wk_mods _ _ Hk) _ _ _ _ Hj He). }
      split; [done|]. intros p [= <-]. by exists x.
    + apply wpe_on_table, wpe_bind. eapply deref_ok; [done|]. unfold make_sle, wpe at 1. apply wpe_bind, wpe_on_table, wpe_modifies, wpe_ret.
      destruct (make_walk s0 S w x Hw) as (Hg1 & Hx1 & He1 & Hm1).
      destruct (refile_walk s0 S (set_ms (set_heap (heap (ms w) ++ [x]) (ms w)) w) i e (length (heap (ms w))) x) as [Hg Hp];
        [apply Hg1|done|done|done|cbn; by apply lookup_app_l_Some|done| |done|].
      { intros j e' Hj E. by destruct (He1 j e' Hj). }
      split; [by eapply goes_then|]. intros p [= <-]. by exists x.
  - apply wpe_bind, wpe_reads. destruct (newMods w !! i) as [p|] eqn:Hn.
    + apply wpe_ret. split; [by apply goes_refl|]. intros q [= <-].
      destruct (mo_object _ (wk_mods _ _ Hk) _ _ Hn) as (x & y & Hx & _). exists x. split; [|by eapply (mods_index s0)].
      split; [done|]. intros j e Hj E. by destruct (mo_apart _ (wk_mods _ _ Hk) _ _ _ _ Hn Hj).
    + destruct (ledger_of (ms w) !! i) as [x|] eqn:Hl; [|apply wpe_ret; by split; [apply goes_refl|]].
      apply wpe_bind, wpe_on_table. unfold make_sle, wpe at 1. apply wpe_bind, wpe_modifies, wpe_ret.
      exact (new_mod_walk s0 S w a x Hw He Hn Hl).
Qed.

Lemma threadTx_ok s0 S w a : walking s0 S w -> wpe (threadTx a) w (fun _ w' => goes s0 S w w').
Proof.
  intros Hw. unfold TxMeta.threadTx. apply wpe_bind. eapply wpe_mono; [by apply getForMod_ok|].
  intros [p|] w1 [Hg Hp]; [|by apply wpe_ret]. destruct (Hp p eq_refl) as (x & Hx & Hi).
  eapply wpe_mono; [apply (thread_entry_ok s0 S w1 p x); [apply Hg|done|right; by exists a]|].
  intros b w2 Hg2. by eapply goes_then.
Qed.

Lemma threadOwners_ok s0 S w x : walking s0 S w -> wpe (threadOwners x) w (fun _ w' => goes s0 S w w').
Proof.
  intros Hw. unfold TxMeta.threadOwners. destruct (hasOneOwner x); [by apply threadTx_ok|].
  destruct (hasTwoOwners x); [|by apply wpe_ret, goes_refl]. apply wpe_bind.
  eapply wpe_mono; [by apply threadTx_ok|]. intros r1 w1 Hg1.
  assert (Hnext : wpe (threadTx (getSecondOwner x)) w1 (fun _ w' => goes s0 S w w')).
  { eapply wpe_mono; [apply (threadTx_ok s0 S w1), Hg1|]. intros r2 w2 Hg2. exact (goes_then _ _ _ _ _ Hg1 Hg2). }
  destruct (enactHistoricalQuirk _ _); [destruct r1; [done|by apply wpe_ret]|].
  apply wpe_bind. eapply wpe_mono; [exact Hnext|]. intros r2 w2 Hg2. by apply wpe_ret.
Qed.

(** Changes to the nodes of the metadata. *)
Lemma on_nodes_ok s0 S w f (Q : unit -> MetaState -> Prop) :
  walking s0 S w -> (forall i, listed w i -> listed (set_nodes (f (mNodes w)) w) i) ->
  (forall w', goes s0 S w w' -> w' = set_nodes (f (mNodes w)) w -> Q tt w') -> wpe (on_nodes f) w Q.
Proof. intros Hw Hl HQ. apply wpe_modifies, HQ; [by apply walking_nodes|done]. Qed.

Lemma record_listed w i add fs x : (forall o n, aIndex (add o n) = aIndex n) ->
  forall j, listed w j -> listed (set_nodes (record_node i add fs x (mNodes w)) w) j.
Proof.
  intros Hadd j Hj. unfold record_node, listed. cbn. destruct (decide (fs = [])); [done|].
  apply on_node_listed; [done|by intros ? ?%not_elem_of_nil|by left].
Qed.

Lemma record_ok s0 S w i add fs x (Q : unit -> MetaState -> Prop) :
  walking s0 S w -> (forall o n, aIndex (add o n) = aIndex n) -> (forall w', goes s0 S w w' -> Q tt w') ->
  wpe (on_nodes (record_node i add fs x)) w Q.
Proof. intros Hw Hadd HQ. apply (on_nodes_ok s0 S); [done|by apply record_listed|]. intros w' Hg _. by apply HQ. Qed.

Lemma setAffected_ok s0 S w i k ty (Q : unit -> MetaState -> Prop) :
  walking s0 S w -> (forall w', goes s0 S w w' -> ms w' = ms w -> listed w' i -> Q tt w') ->
  wpe (on_nodes (setAffectedNode i k ty)) w Q.
Proof.
  intros Hw HQ.
  assert (Hl : forall j, listed w j \/ j = i -> listed (set_nodes (setAffectedNode i k ty (mNodes w)) w) j).
  { intros j Hj. apply on_node_listed; [done|by intros ? ->%list_elem_of_singleton|]. destruct Hj; [by left|by right]. }
  apply (on_nodes_ok s0 S); [done|auto|]. intros w' Hg ->. apply HQ; auto.
Qed.

(** A pointer the walk has noted. *)
Lemma writable_deref w p x (Q : SLE -> MetaState -> Prop) : writable w p x -> Q x w -> wpe (on_table (deref p)) w Q.
Proof. intros [Hx _] HQ. apply wpe_on_table. eapply deref_ok; [done|]. by rewrite set_ms_same. Qed.

Lemma goes_writable s0 S w w' p x : goes s0 S w w' -> writable w p x -> exists x', writable w' p x' /\ mIndex x' = mIndex x.
Proof. intros [_ [_ H]]. apply H. Qed.

(** The entry's own thread. *)
Lemma thread_self s0 S w p x :
  walking s0 S w -> writable w p x -> listed w (mIndex x) ->
  wpe (if isThreadedType x then thread_entry p else mret false) w (fun _ w' => goes s0 S w w').
Proof.
  intros Hw Hp Hl. destruct (isThreadedType x); [|by apply wpe_ret, goes_refl]. apply (thread_entry_ok s0 S w p x); auto.
Qed.

Lemma modified_ok s0 S w i orig p x :
  walking s0 S w -> writable w p x -> listed w (mIndex x) ->
  wpe (modified_node txID lgrSeq i orig p) w (fun _ w' => goes s0 S w w').
Proof.
  intros Hw Hp Hl. unfold modified_node. apply wpe_bind. eapply writable_deref; [done|]. apply wpe_bind.
  eapply wpe_mono; [by eapply thread_self|]. intros ? w1 Hg1. destruct (goes_writable _ _ _ _ _ _ Hg1 Hp) as (x1 & Hp1 & Hi1).
  apply wpe_bind. eapply writable_deref; [done|]. apply wpe_bind. apply (record_ok s0 S); [apply Hg1|done|]. intros w2 Hg2.
  apply (record_ok s0 S); [apply Hg2|done|]. intros w3 Hg3.
  exact (goes_then _ _ _ _ _ Hg1 (goes_then _ _ _ _ _ Hg2 Hg3)).
Qed.

Lemma deleted_ok s0 S w i orig p x :
  walking s0 S w -> writable w p x ->
  wpe (deleted_node gLedgerSeq txID lgrSeq i orig p) w (fun _ w' => goes s0 S w w').
Proof.
  intros Hw Hp. unfold deleted_node. apply wpe_bind. eapply wpe_mono; [by apply threadOwners_ok|]. intros ? w1 Hg1.
  destruct (goes_writable _ _ _ _ _ _ Hg1 Hp) as (x1 & Hp1 & Hi1).
  apply wpe_bind. eapply writable_deref; [done|]. apply wpe_bind. apply (record_ok s0 S); [apply Hg1|done|]. intros w2 Hg2.
  apply (record_ok s0 S); [apply Hg2|done|]. intros w3 Hg3.
  exact (goes_then _ _ _ _ _ Hg1 (goes_then _ _ _ _ _ Hg2 Hg3)).
Qed.

Lemma created_ok s0 S w i p x :
  walking s0 S w -> writable w p x -> listed w (mIndex x) ->
  wpe (created_node gLedgerSeq txID lgrSeq i p) w (fun _ w' => goes s0 S w w').
Proof.
  intros Hw Hp Hl. unfold created_node. apply wpe_bind. eapply writable_deref; [done|]. apply wpe_bind.
  eapply wpe_mono; [by apply threadOwners_ok|]. intros ? w1 Hg1. destruct (goes_writable _ _ _ _ _ _ Hg1 Hp) as (x1 & Hp1 & Hi1).
  apply wpe_bind. eapply writable_deref; [done|]. apply wpe_bind.
  eapply wpe_mono; [eapply thread_self; [apply Hg1|done|]|].
  { rewrite Hi1. by apply Hg1. }
  intros ? w2 Hg2. destruct (goes_writable _ _ _ _ _ _ Hg2 Hp1) as (x2 & Hp2 & Hi2). apply wpe_bind. eapply writable_deref; [done|].
  apply (record_ok s0 S); [apply Hg2|done|]. intros w3 Hg3.
  exact (goes_then _ _ _ _ _ Hg1 (goes_then _ _ _ _ _ Hg2 Hg3)).
Qed.

(** One turn of the loop settles its index. *)
Lemma settle_one s0 S w i : walking s0 S w -> (threads s0 -> settled w i) -> walking s0 (i :: S) w.
Proof.
  intros [Hk Hr Hs Hm] Hi. split; [done|done| |done]. intros Ht j [->|Hj]%elem_of_cons; [by apply Hi|by apply Hs].
Qed.

Lemma meta_step_ok s0 S w i : walking s0 S w -> wpe (meta_step i) w (fun _ w' => walking s0 (i :: S) w').
Proof.
  intros Hw. pose proof (wk _ _ _ Hw) as Hk. unfold TxMeta.meta_step. apply wpe_bind, wpe_reads.
  destruct (entries (ms w) !! i) as [e|] eqn:He; [|apply wpe_ret, settle_one; [done|]; intros _; right; by rewrite He].
  destruct (ok_entry _ _ (wk_ok _ _ Hk) _ _ He) as ((x & Hx & Hi) & _ & Ha).
  assert (Hp : mAction e <> taaCACHED -> writable w (mEntry e) x).
  { intros Hc. split; [done|]. intros j e' Hj E. assert (j = i) as -> by (by apply (ok_inj _ _ (wk_ok _ _ Hk) _ _ _ _ Hj He)). congruence. }
  assert (Hlist : forall w1 w2, goes s0 S w1 w2 -> listed w1 i -> walking s0 (i :: S) w2).
  { intros w1 w2 [Hw2 [Hl _]] H1. apply settle_one; [done|]. intros _. left. by apply Hl. }
  assert (Hwr : forall w', ms w' = ms w -> mAction e <> taaCACHED -> writable w' (mEntry e) x).
  { intros w' E Hc. unfold writable. rewrite E. by apply Hp. }
  destruct (mAction e) eqn:Eact; cbn in Ha.
  - done.
  - apply wpe_ret, settle_one; [done|]. intros _. right. rewrite He. by left.
  - destruct Ha as [orig Ho]. rewrite Ho. apply wpe_bind. eapply writable_deref; [by apply Hp|].
    destruct (sle_eqb x orig) eqn:E.
    + apply wpe_ret, settle_one; [done|]. intros _. right. rewrite He. right. split; [done|]. by exists x, orig.
    + apply wpe_bind, (setAffected_ok s0 S); [done|]. intros w1 Hg1 E1 Hl1.
      eapply wpe_mono; [apply (modified_ok s0 S w1 i orig _ x); [apply Hg1|by apply Hwr|by rewrite Hi]|]. intros ? w2 Hg2.
      exact (Hlist w1 w2 Hg2 Hl1).
  - destruct Ha as [orig Ho]. rewrite Ho. apply wpe_bind. eapply writable_deref; [by apply Hp|].
    apply wpe_bind, (setAffected_ok s0 S); [done|]. intros w1 Hg1 E1 Hl1.
    eapply wpe_mono; [apply (deleted_ok s0 S w1 i orig _ x); [apply Hg1|by apply Hwr]|]. intros ? w2 Hg2.
      exact (Hlist w1 w2 Hg2 Hl1).
  - apply wpe_bind. eapply writable_deref; [by apply Hp|].
    apply wpe_bind, (setAffected_ok s0 S); [done|]. intros w1 Hg1 E1 Hl1.
    eapply wpe_mono; [apply (created_ok s0 S w1 i _ x); [apply Hg1|by apply Hwr|by rewrite Hi]|]. intros ? w2 Hg2.
      exact (Hlist w1 w2 Hg2 Hl1).
Qed.

Lemma meta_loop_ok s0 l : forall S w, walking s0 S w -> wpe (meta_loop l) w (fun _ w' => walking s0 (rev_append l S) w').
Proof.
  induction l as [|i l IH]; intros S w Hw; cbn [TxMeta.meta_loop rev_append]; [by apply wpe_ret|]. apply wpe_bind.
  eapply wpe_mono; [by apply meta_step_ok|]. intros ? w' Hw'. by apply IH.
Qed.

(** ** The end of the walk *)

(** A copy of a ledger entry that was changed for its thread is filed. *)
Lemma entryModify_new p i x y s (Q : unit -> State -> Prop)
    (e := {| mEntry := p; mAction := taaMODIFY; mEntrySeq := mSeq (les s) |}) :
  ok ∅ s -> entries s !! i = None -> heap s !! p = Some x -> ledger_of s !! i = Some y -> same_thread y x ->
  (forall j e, entries s !! j = Some e -> mEntry e <> p) ->
  (forall s', s' = set_les (with_entries (les s) (<[i := e]> (entries s))) s -> ok ∅ s' -> rethreaded (view s) (view s') -> Q tt s') ->
  wpe (entryModify p) s Q.
Proof.
  intros Hok He Hx Hy Hxy Hap HQ. assert (Hi : mIndex x = i).
  { destruct Hxy as [<- _]. by apply (ok_ledger _ _ Hok). }
  unfold entryModify. apply wpe_bind. eapply deref_ok; [done|]. apply wpe_bind, wpe_reads. rewrite Hi, He. apply wpe_modifies.
  destruct (put_entry_ok ∅ ∅ i e x s) as [Hok' _]; [done|done|done|cbn; lia|by exists y| |done|set_solver|].
  { intros j e' Hj E. by destruct (Hap j e' Hj). }
  apply HQ; [done|done|]. intros j. rewrite put_entry_view. destruct (decide (j = i)) as [->|].
  - rewrite lookup_partial_alter_eq, view_lookup, He. cbn. rewrite Hy. unfold shows, e. cbn. rewrite Hx. by constructor.
  - rewrite lookup_partial_alter_ne by done. by apply option_Forall2_refl.
Qed.

Record mods_list l w : Prop := {
  ml_nodup : NoDup l.*1;
  ml_each : forall i p, (i, p) ∈ l -> entries (ms w) !! i = None /\
    (exists x y, heap (ms w) !! p = Some x /\ ledger_of (ms w) !! i = Some y /\ same_thread y x) /\
    forall j e, entries (ms w) !! j = Some e -> mEntry e <> p;
  ml_inj : forall i j p, (i, p) ∈ l -> (j, p) ∈ l -> i = j }.

(** What filing the entries of [l] does. *)
Record filed l w w' : Prop := {
  fl_ok : ok ∅ (ms w');
  fl_view : rethreaded (view (ms w)) (view (ms w'));
  fl_ledger : mLedger (les (ms w')) = mLedger (les (ms w));
  fl_seq : mSeq (les (ms w')) = mSeq (les (ms w));
  fl_params : mParams (les (ms w')) = mParams (les (ms w));
  fl_nodes : mNodes w' = mNodes w;
  fl_heap : heap (ms w') = heap (ms w);
  fl_in : forall i p, (i, p) ∈ l ->
    entries (ms w') !! i = Some {| mEntry := p; mAction := taaMODIFY; mEntrySeq := mSeq (les (ms w)) |};
  fl_out : forall i, i ∉ l.*1 -> entries (ms w') !! i = entries (ms w) !! i }.

Lemma modify_all_ok l : forall w, ok ∅ (ms w) -> mods_list l w -> wpe (modify_all l) w (fun _ w' => filed l w w').
Proof.
  induction l as [|[i p] l IH]; intros w Hok [Hn Hl Hi]; cbn [modify_all].
  - apply wpe_ret. split; try done. intros i p []%not_elem_of_nil.
  - apply NoDup_cons in Hn as [Hil Hn]. destruct (Hl i p) as (He & (x & y & Hx & Hy & Hxy) & Hap); [by left|].
    apply wpe_bind, wpe_on_table. eapply (entryModify_new p i x y); [done..|]. intros s' -> Hok' Hv'.
    assert (Hother : forall j, j <> i -> entries (ms w) !! j = <[i := {| mEntry := p; mAction := taaMODIFY; mEntrySeq := mSeq (les (ms w)) |}]> (entries (ms w)) !! j)
      by (intros j Hj; by rewrite lookup_insert_ne).
    eapply wpe_mono; [apply IH; [exact Hok'|]|].
    + split; [done| |].
      * intros j q Hj. destruct (Hl j q) as (He' & Hx' & Hap'); [by right|].
        assert (Hji : i <> j). { intros ->. apply Hil. apply list_elem_of_fmap. by exists (j, q). }
        split_and!; [cbn; by rewrite lookup_insert_ne|done|]. intros k e. cbn. intros [[<- <-]|[_ Hk]]%lookup_insert_Some; [|by apply (Hap' k e)].
        cbn. intros ->. apply Hji. apply (Hi i j q); [by left|by right].
      * intros j k q Hj Hk. apply (Hi j k q); by right.
    + intros ? w' []. split; try done; [by etrans| |].
      * intros j q [[= -> ->]|Hj]%elem_of_cons; [|by apply fl_in0]. rewrite fl_out0 by done. cbn. by rewrite lookup_insert_eq.
      * intros j [Hj1 Hj2]%not_elem_of_cons. rewrite fl_out0 by done. cbn. by rewrite lookup_insert_ne.
Qed.

Lemma walk_mods_list s0 w : walk s0 w -> mods_list (map_to_list (newMods w)) w.
Proof.
  intros [_ [M1 M2 M3 M4] _ _ _ _ _]. split; [apply NoDup_fst_map_to_list| |].
  - intros i p Hi%elem_of_map_to_list. split_and!; [by apply (M1 i p)|by apply (M2 i p)|]. intros j e Hj. by apply (M3 i p j e).
  - intros i j p Hi%elem_of_map_to_list Hj%elem_of_map_to_list. by apply (M4 i j p).
Qed.

(** An entry that looks as it did in the ledger. *)
Definition unchanged (o o' : option SLE) : Prop :=
  match o, o' with
  | None, None => True
  | Some x, Some y => sle_eqb y x = true
  | _, _ => False
  end.

Lemma unchanged_refl o : unchanged o o.
Proof. destruct o; [apply sle_eqb_refl|done]. Qed.

Lemma filed_complete s0 S w w' : threads s0 -> walking s0 S w -> (forall i, is_Some (entries s0 !! i) -> i ∈ S) ->
  filed (map_to_list (newMods w)) w w' -> forall i, listed w' i \/ unchanged (ledger_of s0 !! i) (view (ms w') !! i).
Proof.
  intros Ht Hw HS Hf i. assert (Hl : listed w i -> listed w' i) by (unfold listed; by rewrite (fl_nodes _ _ _ Hf)).
  pose proof (wk _ _ _ Hw) as Hk. rewrite view_lookup, (fl_ledger _ _ _ Hf), <- (wk_ledger _ _ Hk).
  destruct (newMods w !! i) as [p|] eqn:Hn.
  - rewrite (fl_in _ _ _ Hf i p) by by apply elem_of_map_to_list. destruct (wk_mods_settled _ _ _ Hw Ht i p Hn) as [|E]; [left; auto|right].
    cbn. unfold shows. cbn. rewrite (fl_heap _ _ _ Hf), E. apply unchanged_refl.
  - rewrite (fl_out _ _ _ Hf i).
    2: { intros ([j q] & -> & Hj%elem_of_map_to_list)%list_elem_of_fmap. cbn in Hn. congruence. }
    destruct (entries (ms w) !! i) as [e|] eqn:He; [|right; apply unchanged_refl]. cbn. unfold shows. rewrite (fl_heap _ _ _ Hf).
    destruct (wk_settled _ _ _ Hw Ht i) as [|H]; [apply HS, (wk_dom _ _ Hk); by exists e|left; auto|]. rewrite He in H. right.
    destruct H as [Hc|(Ha & x & y & Hx & Hy & E)].
    + rewrite decide_False by congruence. rewrite (ok_clean _ _ (wk_ok _ _ Hk) i e He Hc) by set_solver. apply unchanged_refl.
    + rewrite decide_False by congruence. by rewrite Hx, Hy.
Qed.

Lemma walk_start s0 : ok ∅ s0 -> walking s0 [] {| ms := s0; mNodes := []; newMods := ∅ |}.
Proof.
  intros Hok. assert (Hno : forall i p, (∅ : gmap uint256 sleptr) !! i = Some p -> False) by (intros i p; by rewrite lookup_empty).
  split; [split; try done|by intros i p ?%Hno| |].
  - intros _ i []%not_elem_of_nil.
  - by intros _ i p ?%Hno.
Qed.

(** [calcRawMeta] returns; it changes the threads of entries at most, and each entry
    that differs from the ledger is listed. *)
Lemma calcRawMeta_ok s0 d r n : ok ∅ s0 ->
  wpe (calcRawMeta gLedgerSeq txID lgrSeq d r n) s0 (fun m s' =>
    ok ∅ s' /\ rethreaded (view s0) (view s') /\ mLedger (les s') = mLedger (les s0) /\
    mSeq (les s') = mSeq (les s0) /\ mParams (les s') = mParams (les s0) /\
    mResult m = r /\ mIndexInLedger m = n /\ mDelivered m = d /\
    (threads s0 -> forall i, (exists a, a ∈ mAffected m /\ aIndex a = i) \/ unchanged (ledger_of s0 !! i) (view s' !! i))).
Proof.
  intros Hok.
  set (keys := merge_sort index_le (map fst (map_to_list (mEntries (les s0))))).
  assert (Hc : wpe (meta_walk gLedgerSeq txID lgrSeq) {| ms := s0; mNodes := []; newMods := ∅ |} (fun ns w' =>
    ns = mNodes w' /\ exists w, walking s0 (rev_append keys []) w /\ filed (map_to_list (newMods w)) w w')).
  { apply wpe_bind, wpe_reads, wpe_bind. eapply wpe_mono; [apply (meta_loop_ok s0 keys [] _ (walk_start s0 Hok))|]. intros ? w Hw. cbn beta in Hw.
    apply wpe_bind, wpe_reads, wpe_bind. eapply wpe_mono; [apply modify_all_ok; [apply Hw|apply (walk_mods_list s0), Hw]|].
    intros ? w' Hw'. apply wpe_reads. split; [done|]. by exists w. }
  unfold calcRawMeta, wpe. unfold wpe in Hc. destruct (meta_walk _ _ _ _) as [[ns|ex] w']; [|done].
  destruct Hc as (-> & w & Hw & Hf). pose proof (wk _ _ _ Hw) as Hk. cbn [mResult mIndexInLedger mDelivered mAffected]. split_and!; try done.
  - apply Hf.
  - etrans; [apply Hk|apply Hf].
  - rewrite (fl_ledger _ _ _ Hf). apply Hk.
  - rewrite (fl_seq _ _ _ Hf). apply Hk.
  - rewrite (fl_params _ _ _ Hf). apply Hk.
  - intros Ht i. destruct (filed_complete s0 _ w w' Ht Hw) with (i := i) as [(a & Ha & Hi)|]; [|done|left|by right].
    + intros j [e Hj]. rewrite rev_append_rev, app_nil_r, <- Permutation_rev. subst keys.
      rewrite merge_sort_Permutation. apply list_elem_of_fmap. exists (j, e). split; [done|]. by apply elem_of_map_to_list.
    + exists a. split; [|done]. unfold sorted_nodes. by rewrite merge_sort_Permutation.
Qed.
End Walk.

(** C35: the metadata of a transaction is complete.  Whatever a transaction left in
    its table, [calcRawMeta] returns; the entries it leaves differ from those it
    found in their thread of transactions only, and every entry that will differ
    from the ledger when the table is written back, in any field, is among the
    affected nodes: the new and the deleted ones, the changed ones, and the account
    roots that only got a new thread.  The account roots of the ledger must have a
    thread already. *)
Theorem meta_complete `{SHA : SHA512} (gLedgerSeq : Z) (txID : uint256) (lgrSeq : Z) (s : State)
    (d : option STAmount) (r : TER) (n : Z) :
  ok ∅ s -> threads s ->
  wpe (calcRawMeta gLedgerSeq txID lgrSeq d r n) s (fun m s' =>
    mLedger (les s') = mLedger (les s) /\ rethreaded (view s) (view s') /\ txnWrite s' = view s' /\
    forall i, (exists a, a ∈ mAffected m /\ aIndex a = i) \/ unchanged (ledger_of s !! i) (txnWrite s' !! i)).
Proof.
  intros Hok Ht. eapply wpe_mono; [by apply calcRawMeta_ok|]. intros m s' (Hok' & Hv & Hl & _ & _ & _ & _ & _ & Hc).
  pose proof (txnWrite_view s' Hok') as Hw. split_and!; [done|done|done|]. intros i. rewrite Hw. by apply Hc.
Qed.

(** *** A new trust line between two accounts *)

Section Samples.
#[local] Existing Instance Directory.Tail.
Import TrustLaws.

Definition threaded_account (a : Account) : SLE := setFieldH256 sfPreviousTxnID (index_of 77) (account 1000 a).

Definition threaded_bank : Ledger :=
  {| mAccountState := <[getAccountRootIndex alice := threaded_account alice]> (<[getAccountRootIndex bob := threaded_account bob]> ∅);
     mBaseFee := 10; mReferenceFeeUnits := 10; mReserveBase := 1000; mReserveIncrement := 100 |}.

Definition new_trust : list op :=
  [ opCreate ltRIPPLE_STATE (index_of 5) (fun x =>
      setFieldAmount sfLowLimit (MkSTAmount usd alice 0 (-100) false false)
        (setFieldAmount sfHighLimit (MkSTAmount usd bob 0 (-100) false false) x)) ].

Definition trusted (l : Ledger) : State := state_of (run_ops new_trust) (fresh l 0).

Lemma threaded_ok : ledger_ok threaded_bank.
Proof. apply map_Forall_insert_2; [by vm_compute|]. apply map_Forall_insert_2; [by vm_compute|]. apply map_Forall_empty. Defined.

Lemma trusted_ok : ok ∅ (trusted threaded_bank).
Proof.
  destruct (fresh_ok threaded_bank 0 threaded_ok) as [Hok Hv].
  assert (Ha : allowed_all new_trust (view (fresh threaded_bank 0))).
  { rewrite Hv. split; [|done]. split; [by vm_compute|done]. }
  pose proof (run_ops_ok new_trust _ Hok Ha) as H. unfold wpe in H. unfold trusted, state_of.
  destruct (run_ops new_trust (fresh threaded_bank 0)) as [[r|e] s]; [apply H|done].
Defined.

Lemma trusted_threads : threads (trusted threaded_bank).
Proof.
  intros a x. change (ledger_of (trusted threaded_bank)) with (mAccountState threaded_bank). cbn [mAccountState threaded_bank].
  intros [[_ <-]|[_ [[_ <-]|[_ Hx]]%lookup_insert_Some]]%lookup_insert_Some; [reflexivity|reflexivity|by rewrite lookup_empty in Hx].
Defined.

Lemma meta_complete_witness :
  wpe (calcRawMeta 0 (index_of 99) 12 None tesSUCCESS 0) (trusted threaded_bank) (fun m s' =>
    mLedger (les s') = mLedger (les (trusted threaded_bank)) /\ rethreaded (view (trusted threaded_bank)) (view s') /\
    txnWrite s' = view s' /\
    forall i, (exists a, a ∈ mAffected m /\ aIndex a = i) \/ unchanged (ledger_of (trusted threaded_bank) !! i) (txnWrite s' !! i)).
Proof. exact (meta_complete 0 (index_of 99) 12 (trusted threaded_bank) None tesSUCCESS 0 trusted_ok trusted_threads). Defined.

(** The line and both accounts are listed. *)
Example trust_listed :
  (fun m => map (fun a => (aKind a, aType a)) (mAffected m)) <$> result_of (calcRawMeta 0 (index_of 99) 12 None tesSUCCESS 0) (trusted threaded_bank) =
    Ok [(sfCreatedNode, ltRIPPLE_STATE); (sfModifiedNode, ltACCOUNT_ROOT); (sfModifiedNode, ltACCOUNT_ROOT)].
Proof. vm_compute. reflexivity. Qed.

(** Where the accounts have no thread they get one, and are not listed. *)
Example unlisted_thread :
  let s := state_of (calcRawMeta 0 (index_of 99) 12 None tesSUCCESS 0) (trusted bank) in
  (fun m => map aKind (mAffected m)) <$> result_of (calcRawMeta 0 (index_of 99) 12 None tesSUCCESS 0) (trusted bank) = Ok [sfCreatedNode] /\
  getFieldH256 sfPreviousTxnID <$> txnWrite s !! getAccountRootIndex alice = Some (index_of 99).
Proof. vm_compute. auto. Qed.

(** A server that replays nothing enacts the quirks of the first ledgers. *)
Example quirks_live :
  map (enactHistoricalQuirk 0)
    [QuirkNonzeroInflationFees; QuirkAsymmetricTrustlines; QuirkUseLsfDisableMaster; QuirkUseLsfPasswordSpent] = [true; true; true; true].
Proof. reflexivity. Qed.
End Samples.
End MetaLaws.
