(* ===== verification/EngineFrame.v ===== *)
(** * What the engine leaves alone

    A computation [Fixes] a part of the state when that part is the same afterwards,
    also when the computation throws.  The instances below carry the fact through
    the monad, through every operation on the table of entries and on trust lines,
    and through every function of every transactor: none of them changes the ledger
    underneath the table, nor the transactions it has.  Only [write_back] does, and
    the engine calls it last.  From this follows that a transaction is applied as a
    whole or not at all.

    What the engine assumes of the parameters of the transactors (payments through
    paths, [doApply] of new offers) is the class [PathsFix]. *)
From Stdlib Require Import ZArith Lia.
From S2P Require Import Prelude BaseUint Serializer STAmount STAmountMath Book SHAMapNode Effects FeeTrack LedgerEntrySet LedgerLaws Directory TrustLines TrustLaws TxMeta TxEngine Transactors.
From stdpp Require Import base numbers list gmap strings.
Import Effects LedgerEntrySet LedgerLaws TrustLines TxMeta TxEngine Transactors.
Local Open Scope Z_scope.

Module EngineFrame.
Import STAmount.

(** ** The interface *)

Class Fixes {S A B : Type} (f : S -> B) (c : Eff S A) : Prop := fixes : forall s, f (c s).2 = f s.

Section Rules.
Context {S B : Type} (f : S -> B).

#[export] Instance fixes_ret {A} (a : A) : Fixes f (mret a).
Proof. done. Qed.
#[export] Instance fixes_bind {A C} (c : Eff S A) (k : A -> Eff S C) : Fixes f c -> (forall a, Fixes f (k a)) -> Fixes f (c ≫= k).
Proof. intros Hc Hk s. unfold mbind, Eff_bind. specialize (Hc s). destruct (c s) as [[a|e] s']; [|done]. by rewrite Hk. Qed.
#[export] Instance fixes_raise {A} e : Fixes f (raise (A := A) e).
Proof. done. Qed.
#[export] Instance fixes_pure {A} (r : result A) : Fixes f (pure_result r).
Proof. done. Qed.
#[export] Instance fixes_reads {A} (g : S -> A) : Fixes f (reads g).
Proof. done. Qed.
End Rules.

#[export] Hint Extern 2 (Fixes _ (match ?x with _ => _ end)) => destruct x : typeclass_instances.
#[export] Hint Extern 1 (Fixes _ (let _ := _ in _)) => cbv zeta : typeclass_instances.
#[export] Hint Extern 3 (Fixes _ (modifies _)) => (intros []; reflexivity) : typeclass_instances.

#[export] Typeclasses Opaque deref make_sle mutate put_entry getEntry cache_entry entryCache create_entry entryCreate entryModify entryDelete field non_null
  dir_append dirAdd emptied_root emptied_middle emptied_last dir_remove dirDelete_from dirDelete dirIsEmpty account_root ownerCountAdjust delete_offer
  offerDelete trustCreate trustDelete on_table on_nodes getForMod thread_entry threadTx threadOwners deleted_node modified_node created_node meta_step
  meta_loop modify_all meta_walk calcRawMeta
  lift ledger txn_account account_field set_account change_members base_calculateBaseFee calculateFee base_payFee base_checkSig base_checkSeq
  base_preCheck unless_failed base apply clear_table claim_fee preCheck precheckAgainstLedger checkSeq payFee calculateBaseFee checkSig doApply
  hasAccount reserve payment_destination catching ripple_payment direct_payment payment_apply set_inflation_dest set_auth_key set_transfer_rate
  setaccount_apply regularkey_baseFee regularkey_apply offercancel_apply offercreate_apply trustset_checkSig adjust_reserve change_line trustset_apply merge_precheck
  account_items makeItem move_balance merge_lines delete_offers merge_apply inflation_payFee inflation_precheck dole inflation_apply change_checkSig
  change_checkSeq change_payFee change_preCheck find_or_create enable_amendment applyAmendment applyFee change_apply.

Ltac fixes_of f := unfold f; apply _.

(** ** The table *)

(** The ledger underneath the table. *)
Abbreviation under := (fun s : State => mLedger (les s)).

#[export] Instance deref_fixes p : Fixes under (deref p).
Proof. intros s. unfold deref. by destruct (heap s !! p). Qed.
#[export] Instance make_sle_fixes x : Fixes under (make_sle x).
Proof. done. Qed.
#[export] Instance mutate_fixes p f : Fixes under (mutate p f).
Proof. fixes_of mutate. Qed.
#[export] Instance put_entry_fixes i e : Fixes under (put_entry i e).
Proof. done. Qed.
#[export] Instance getEntry_fixes i : Fixes under (getEntry i).
Proof. fixes_of getEntry. Qed.
#[export] Instance cache_entry_fixes p : Fixes under (cache_entry p).
Proof. fixes_of cache_entry. Qed.
#[export] Instance entryCache_fixes ty i : Fixes under (entryCache ty i).
Proof. fixes_of entryCache. Qed.
#[export] Instance create_entry_fixes p : Fixes under (create_entry p).
Proof. fixes_of create_entry. Qed.
#[export] Instance entryCreate_fixes ty i : Fixes under (entryCreate ty i).
Proof. fixes_of entryCreate. Qed.
#[export] Instance entryModify_fixes p : Fixes under (entryModify p).
Proof. fixes_of entryModify. Qed.
#[export] Instance entryDelete_fixes p : Fixes under (entryDelete p).
Proof. fixes_of entryDelete. Qed.
#[export] Instance field_fixes {A} (get : SLE -> A) p : Fixes under (field get p).
Proof. fixes_of @field. Qed.
#[export] Instance non_null_fixes o : Fixes under (non_null o).
Proof. fixes_of non_null. Qed.

Section Directories.
Context `{SHA : SHA512}.

#[export] Instance dir_append_fixes p l i : Fixes under (dir_append p l i).
Proof. fixes_of dir_append. Qed.
#[export] Instance dirAdd_fixes root i d : Fixes under (dirAdd root i d).
Proof. fixes_of @dirAdd. Qed.
#[export] Instance emptied_root_fixes k root p a b : Fixes under (emptied_root k root p a b).
Proof. fixes_of @emptied_root. Qed.
#[export] Instance emptied_middle_fixes root p a b : Fixes under (emptied_middle root p a b).
Proof. fixes_of @emptied_middle. Qed.
#[export] Instance emptied_last_fixes k root p a : Fixes under (emptied_last k root p a).
Proof. fixes_of @emptied_last. Qed.
#[export] Instance dir_remove_fixes k n root i b p l : Fixes under (dir_remove k n root i b p l).
Proof. fixes_of @dir_remove. Qed.
#[export] Instance dirDelete_from_fixes fuel k n root i b soft : Fixes under (dirDelete_from fuel k n root i b soft).
Proof. revert n soft. induction fuel; intros n soft; cbn [dirDelete_from]; apply _. Qed.
#[export] Instance dirDelete_fixes k n root i b soft : Fixes under (dirDelete k n root i b soft).
Proof. fixes_of @dirDelete. Qed.
#[export] Instance dirIsEmpty_fixes root : Fixes under (dirIsEmpty root).
Proof. fixes_of @dirIsEmpty. Qed.
End Directories.

Section Lines.
Context `{SHA : SHA512} `{SSL : OpenSSL}.

#[export] Instance account_root_fixes a : Fixes under (account_root a).
Proof. fixes_of @account_root. Qed.
#[export] Instance ownerCountAdjust_fixes a d o : Fixes under (ownerCountAdjust a d o).
Proof. fixes_of @ownerCountAdjust. Qed.
#[export] Instance delete_offer_fixes p : Fixes under (delete_offer p).
Proof. fixes_of @delete_offer. Qed.
#[export] Instance offerDelete_fixes i : Fixes under (offerDelete i).
Proof. fixes_of @offerDelete. Qed.
#[export] Instance trustCreate_fixes h a b i o auth nr bal lim qi qo : Fixes under (trustCreate h a b i o auth nr bal lim qi qo).
Proof. fixes_of @trustCreate. Qed.
#[export] Instance trustDelete_fixes p a b : Fixes under (trustDelete p a b).
Proof. fixes_of @trustDelete. Qed.
End Lines.

(** ** Metadata *)

Abbreviation under_meta := (fun w : MetaState => mLedger (les (ms w))).

#[export] Instance on_table_fixes {A} (c : M A) : Fixes under c -> Fixes under_meta (on_table c).
Proof. intros Hc w. unfold on_table. specialize (Hc (ms w)). by destruct (c (ms w)) as [r s]. Qed.

Section Metadata.
Context `{SHA : SHA512} (gLedgerSeq : Z) (txID : uint256) (lgrSeq : Z).

#[export] Instance on_nodes_fixes f : Fixes under_meta (on_nodes f).
Proof. fixes_of @on_nodes. Qed.
#[export] Instance getForMod_fixes i : Fixes under_meta (getForMod i).
Proof. fixes_of @getForMod. Qed.
#[export] Instance thread_entry_fixes p : Fixes under_meta (thread_entry txID lgrSeq p).
Proof. fixes_of @thread_entry. Qed.
#[export] Instance threadTx_fixes a : Fixes under_meta (threadTx txID lgrSeq a).
Proof. fixes_of @threadTx. Qed.
#[export] Instance threadOwners_fixes x : Fixes under_meta (threadOwners gLedgerSeq txID lgrSeq x).
Proof. fixes_of @threadOwners. Qed.
#[export] Instance deleted_node_fixes i x p : Fixes under_meta (deleted_node gLedgerSeq txID lgrSeq i x p).
Proof. fixes_of @deleted_node. Qed.
#[export] Instance modified_node_fixes i x p : Fixes under_meta (modified_node txID lgrSeq i x p).
Proof. fixes_of @modified_node. Qed.
#[export] Instance created_node_fixes i p : Fixes under_meta (created_node gLedgerSeq txID lgrSeq i p).
Proof. fixes_of @created_node. Qed.
#[export] Instance meta_step_fixes i : Fixes under_meta (meta_step gLedgerSeq txID lgrSeq i).
Proof. fixes_of @meta_step. Qed.
#[export] Instance meta_loop_fixes l : Fixes under_meta (meta_loop gLedgerSeq txID lgrSeq l).
Proof. induction l; cbn [meta_loop]; apply _. Qed.
#[export] Instance modify_all_fixes l : Fixes under_meta (modify_all l).
Proof. induction l as [|[i p] l IH]; cbn [modify_all]; apply _. Qed.
#[export] Instance meta_walk_fixes : Fixes under_meta (meta_walk gLedgerSeq txID lgrSeq).
Proof. fixes_of @meta_walk. Qed.
#[export] Instance calcRawMeta_fixes d r n : Fixes under (calcRawMeta gLedgerSeq txID lgrSeq d r n).
Proof.
  intros s. unfold calcRawMeta. pose proof (meta_walk_fixes {| ms := s; mNodes := []; newMods := ∅ |}) as H.
  by destruct (meta_walk _ _ _ _) as [[ns|e] w].
Qed.
End Metadata.

(** ** The base class *)

(** What a transaction that is not applied must leave: the entries of the ledger and
    its transactions. *)
Abbreviation recorded := (fun w : TxState => (mLedger (les (tbl w)), mTransactionMap (lgr w))).

(** A part of the state that the ledger and its header determine: what is recorded,
    or the header itself. *)
Class Part {B : Type} (f : TxState -> B) : Prop :=
  part : forall w w', mLedger (les (tbl w)) = mLedger (les (tbl w')) -> lgr w = lgr w' -> f w = f w'.

#[export] Instance recorded_part : Part recorded.
Proof. intros w w' Hl Hh. by rewrite Hl, Hh. Qed.
#[export] Instance header_part : Part lgr.
Proof. by intros w w' _ Hh. Qed.

#[export] Hint Extern 4 (Fixes _ (modifies _)) => (intros []; apply part; reflexivity) : typeclass_instances.

#[export] Instance lift_fixes {A B} (f : TxState -> B) (c : M A) : Part f -> Fixes under c -> Fixes f (lift c).
Proof.
  intros Hf Hc w. unfold lift. specialize (Hc (tbl w)). destruct (c (tbl w)) as [r s]. cbn in *. by apply part.
Qed.

(** Every virtual function of a transactor. *)
Class VirtualFixes {B : Type} (f : TxState -> B) (v : Transactor) : Prop := {
  preCheck_fixes :: Fixes f (preCheck v);
  precheckAgainstLedger_fixes :: Fixes f (precheckAgainstLedger v);
  checkSeq_fixes :: Fixes f (checkSeq v);
  payFee_fixes :: Fixes f (payFee v);
  calculateBaseFee_fixes :: Fixes f (calculateBaseFee v);
  checkSig_fixes :: Fixes f (checkSig v);
  doApply_fixes :: Fixes f (doApply v) }.

Abbreviation TransactorFixes := (VirtualFixes recorded).

Section Base.
Context `{SHA : SHA512} `{K : Keys} `{App : Application} {B : Type} (f : TxState -> B) `{PT : !Part f}.
Context (closing : bool) (tx : SerializedTransaction) (params : Z).

#[export] Instance ledger_fixes : Fixes f ledger.
Proof. done. Qed.
#[export] Instance txn_account_fixes : Fixes f txn_account.
Proof. fixes_of txn_account. Qed.
#[export] Instance account_field_fixes {A} (get : SLE -> A) : Fixes f (account_field get).
Proof. fixes_of @account_field. Qed.
#[export] Instance set_account_fixes g : Fixes f (set_account g).
Proof. fixes_of @set_account. Qed.
#[export] Instance change_members_fixes g : Fixes f (change_members g).
Proof. fixes_of @change_members. Qed.
#[export] Instance base_calculateBaseFee_fixes : Fixes f base_calculateBaseFee.
Proof. done. Qed.
#[export] Instance calculateFee_fixes c : Fixes f c -> Fixes f (calculateFee params c).
Proof. intros Hc. fixes_of @calculateFee. Qed.
#[export] Instance base_payFee_fixes : Fixes f (base_payFee tx params).
Proof. fixes_of @base_payFee. Qed.
#[export] Instance base_checkSig_fixes : Fixes f (base_checkSig tx).
Proof. fixes_of @base_checkSig. Qed.
#[export] Instance base_checkSeq_fixes : Fixes f (base_checkSeq closing tx).
Proof. fixes_of @base_checkSeq. Qed.
#[export] Instance base_preCheck_fixes : Fixes f (base_preCheck tx params).
Proof. fixes_of @base_preCheck. Qed.
#[export] Instance unless_failed_fixes c d : Fixes f c -> Fixes f d -> Fixes f (unless_failed c d).
Proof. intros Hc Hd. fixes_of unless_failed. Qed.
#[export] Instance base_fixes d : Fixes f d -> VirtualFixes f (base closing tx params d).
Proof. intros Hd. split; cbn; apply _. Qed.
#[export] Instance apply_fixes v : VirtualFixes f v -> Fixes f (apply closing params v).
Proof. intros Hv. fixes_of @apply. Qed.
#[export] Instance clear_table_fixes : Fixes f clear_table.
Proof. fixes_of clear_table. Qed.
#[export] Instance claim_fee_fixes r : Fixes f (claim_fee tx r).
Proof. fixes_of @claim_fee. Qed.
End Base.

(** ** The transactors *)

(** The law of the parameters. *)
Class PathsFix `{P : Paths} : Prop := {
  rippleCalc_fixes :: forall r, Fixes under (rippleCalc r);
  createOffer_fixes :: forall tx params m l, Fixes under (createOffer tx params m l) }.

Section Transactors.
Context `{SHA : SHA512} `{K : Keys} `{App : Application} `{P : Paths} `{V : Votes} `{PF : !PathsFix} {B : Type} (f : TxState -> B) `{PT : !Part f}.
Context (closing : bool) (tx : SerializedTransaction) (params : Z).

#[export] Instance hasAccount_fixes a : Fixes f (hasAccount a).
Proof. fixes_of @hasAccount. Qed.
#[export] Instance reserve_fixes n : Fixes f (reserve n).
Proof. fixes_of @reserve. Qed.
#[export] Instance payment_destination_fixes : Fixes f (payment_destination tx).
Proof. fixes_of @payment_destination. Qed.
#[export] Instance catching_fixes c r : Fixes f c -> Fixes f (catching c r).
Proof. intros Hc w. unfold catching. specialize (Hc w). by destruct (c w) as [[a|[]] w']. Qed.
#[export] Instance ripple_payment_fixes a : Fixes f (ripple_payment tx params a).
Proof. fixes_of @ripple_payment. Qed.
#[export] Instance direct_payment_fixes p : Fixes f (direct_payment tx p).
Proof. fixes_of @direct_payment. Qed.
#[export] Instance payment_apply_fixes : Fixes f (payment_apply tx params).
Proof. fixes_of @payment_apply. Qed.
#[export] Instance set_inflation_dest_fixes : Fixes f (set_inflation_dest tx).
Proof. fixes_of @set_inflation_dest. Qed.
#[export] Instance set_auth_key_fixes : Fixes f (set_auth_key tx).
Proof. fixes_of @set_auth_key. Qed.
#[export] Instance set_transfer_rate_fixes : Fixes f (set_transfer_rate tx).
Proof. fixes_of @set_transfer_rate. Qed.
#[export] Instance setaccount_apply_fixes : Fixes f (setaccount_apply tx params).
Proof. fixes_of @setaccount_apply. Qed.
#[export] Instance regularkey_baseFee_fixes : Fixes f (regularkey_baseFee tx).
Proof. fixes_of @regularkey_baseFee. Qed.
#[export] Instance regularkey_apply_fixes : Fixes f (regularkey_apply tx).
Proof. fixes_of @regularkey_apply. Qed.
#[export] Instance offercancel_apply_fixes : Fixes f (offercancel_apply tx).
Proof. fixes_of @offercancel_apply. Qed.
#[export] Instance offercreate_apply_fixes : Fixes f (offercreate_apply tx params).
Proof. fixes_of @offercreate_apply. Qed.
#[export] Instance trustset_checkSig_fixes : Fixes f (trustset_checkSig tx).
Proof. fixes_of @trustset_checkSig. Qed.
#[export] Instance adjust_reserve_fixes l b r a p g : Fixes f (adjust_reserve l b r a p g).
Proof. fixes_of @adjust_reserve. Qed.
#[export] Instance change_line_fixes h a b lim qi qo res p q : Fixes f (change_line tx h a b lim qi qo res p q).
Proof. fixes_of @change_line. Qed.
#[export] Instance trustset_apply_fixes : Fixes f (trustset_apply tx).
Proof. fixes_of @trustset_apply. Qed.
#[export] Instance merge_precheck_fixes : Fixes f (merge_precheck tx).
Proof. fixes_of @merge_precheck. Qed.
#[export] Instance account_items_fixes ty a : Fixes f (account_items ty a).
Proof. fixes_of @account_items. Qed.
#[export] Instance makeItem_fixes o : Fixes f (makeItem o).
Proof. fixes_of @makeItem. Qed.
#[export] Instance move_balance_fixes a b l : Fixes f (move_balance a b l).
Proof. fixes_of @move_balance. Qed.
#[export] Instance merge_lines_fixes a b l : Fixes f (merge_lines a b l).
Proof. induction l; cbn [merge_lines]; apply _. Qed.
#[export] Instance delete_offers_fixes l : Fixes f (delete_offers l).
Proof. induction l; cbn [delete_offers]; apply _. Qed.
#[export] Instance merge_apply_fixes : Fixes f (merge_apply tx).
Proof. fixes_of @merge_apply. Qed.
#[export] Instance inflation_payFee_fixes : Fixes f (inflation_payFee tx params).
Proof. fixes_of @inflation_payFee. Qed.
#[export] Instance inflation_precheck_fixes : Fixes f (inflation_precheck tx).
Proof. fixes_of @inflation_precheck. Qed.
#[export] Instance change_checkSig_fixes : Fixes f (change_checkSig tx).
Proof. fixes_of @change_checkSig. Qed.
#[export] Instance change_checkSeq_fixes : Fixes f (change_checkSeq tx).
Proof. fixes_of @change_checkSeq. Qed.
#[export] Instance change_payFee_fixes : Fixes f (change_payFee tx).
Proof. fixes_of @change_payFee. Qed.
#[export] Instance change_preCheck_fixes : Fixes f (change_preCheck tx params).
Proof. fixes_of @change_preCheck. Qed.
#[export] Instance find_or_create_fixes ty i : Fixes f (find_or_create ty i).
Proof. fixes_of @find_or_create. Qed.
#[export] Instance enable_amendment_fixes a : Fixes f (enable_amendment a).
Proof. fixes_of @enable_amendment. Qed.
#[export] Instance applyAmendment_fixes : Fixes f (applyAmendment tx).
Proof. fixes_of @applyAmendment. Qed.
#[export] Instance applyFee_fixes : Fixes f (applyFee tx).
Proof. fixes_of @applyFee. Qed.
#[export] Instance change_apply_fixes : Fixes f (change_apply tx).
Proof. fixes_of @change_apply. Qed.

End Transactors.

Section Make.
Context `{SHA : SHA512} `{K : Keys} `{App : Application} `{P : Paths} `{V : Votes} `{PF : !PathsFix}.
Context (closing : bool) (tx : SerializedTransaction) (params : Z).

#[export] Instance dole_fixes n total l : Fixes recorded (dole n total l).
Proof. induction l as [|[a v] l IH]; cbn [dole]; apply _. Qed.
#[export] Instance inflation_apply_fixes : Fixes recorded (inflation_apply closing).
Proof. fixes_of @inflation_apply. Qed.

Lemma makeTransactor_fixes v : makeTransactor closing tx params = Some v -> TransactorFixes v.
Proof. unfold makeTransactor. destruct (getTxnType tx); intros [= <-]; try apply _; split; cbn; apply _. Qed.
End Make.

(** ** The header of the ledger *)

(** The header is left alone by a run that ends in a [tec] code. *)
Definition TecFixes (c : T TER) : Prop :=
  forall w, match c w with (Ok r, w') => isTecClaim r = true -> lgr w' = lgr w | (Throw _, _) => True end.

Lemma tec_fixes (c : T TER) : Fixes lgr c -> TecFixes c.
Proof. intros Hc w. specialize (Hc w). by destruct (c w) as [[r|e] w']. Qed.

Lemma tec_bind {A} (c : T A) (k : A -> T TER) : Fixes lgr c -> (forall a, TecFixes (k a)) -> TecFixes (c ≫= k).
Proof.
  intros Hc Hk w. unfold mbind, Eff_bind. specialize (Hc w). destruct (c w) as [[a|e] w1]; [|done]. specialize (Hk a w1).
  destruct (k a w1) as [[r|e] w2]; [|done]. intros Ht. by rewrite Hk.
Qed.

Lemma tec_never (c : T TER) : (forall w r w', c w = (Ok r, w') -> isTecClaim r = false) -> TecFixes c.
Proof. intros Hc w. destruct (c w) as [[r|e] w'] eqn:E; [|done]. apply Hc in E. congruence. Qed.

Section Header.
Context `{SHA : SHA512} `{K : Keys} `{App : Application} `{P : Paths} `{V : Votes} `{PF : !PathsFix}.
Context (closing : bool) (tx : SerializedTransaction) (params : Z).

(** Inflation changes the header and then succeeds. *)
Lemma inflation_apply_tec : TecFixes (inflation_apply closing).
Proof.
  apply tec_never. intros w r w'. unfold inflation_apply, mbind, Eff_bind, reads, modifies. destruct closing; cbn [negb]; [|by intros [= <- _]].
  destruct (dole _ _ _ w) as [[u|e] w1]; [|done]. by intros [= <- _].
Qed.

Lemma apply_tec v : Fixes lgr (preCheck v) -> Fixes lgr (calculateBaseFee v) -> Fixes lgr (checkSeq v) -> Fixes lgr (payFee v) ->
  Fixes lgr (checkSig v) -> Fixes lgr (precheckAgainstLedger v) -> TecFixes (doApply v) -> TecFixes (apply closing params v).
Proof.
  intros. assert (Hun : forall c d : T TER, Fixes lgr c -> TecFixes d -> TecFixes (unless_failed c d)).
  { intros c d Hc Hd. unfold unless_failed. apply tec_bind; [done|]. intros r. by case_match; [apply tec_fixes, _|]. }
  unfold apply. apply Hun; [done|]. do 4 (apply tec_bind; [apply _|intros ?]). apply tec_bind; [apply _|]. intros go. case_match; [apply tec_fixes, _|].
  do 4 (apply Hun; [done|]). case_match; [apply tec_fixes, _|]. by apply tec_bind; [apply _|].
Qed.

Lemma makeTransactor_tec v : makeTransactor closing tx params = Some v -> TecFixes (apply closing params v).
Proof.
  unfold makeTransactor. destruct (getTxnType tx); intros [= <-]; apply apply_tec; cbn; try apply _; try (apply tec_fixes, _).
  apply inflation_apply_tec.
Qed.
End Header.

(** ** All or nothing *)

(** What a call of the engine may leave, by its outcome. *)
Definition outcome (tx : SerializedTransaction) (w : TxState) (r : result (TER * bool)) (w' : TxState) : Prop :=
  match r with
  | Ok (_, true) =>
      mTransactionMap (lgr w) !! getTransactionID tx = None /\
      exists md, mTransactionMap (lgr w') = <[getTransactionID tx := (tx, md)]> (mTransactionMap (lgr w))
  | Ok (_, false) => recorded w' = recorded w
  | Throw _ =>
      mLedger (les (tbl w')) = mLedger (les (tbl w)) /\
      (mTransactionMap (lgr w') = mTransactionMap (lgr w) \/
       mTransactionMap (lgr w) !! getTransactionID tx = None /\
       exists md, mTransactionMap (lgr w') = <[getTransactionID tx := (tx, md)]> (mTransactionMap (lgr w)))
  end.

Lemma outcome_from tx w0 w r w' : recorded w = recorded w0 -> outcome tx w r w' -> outcome tx w0 r w'.
Proof. intros [= Hl Hm]. unfold outcome. destruct r as [[r []]|e]; rewrite ?Hl, ?Hm; [done|congruence|done]. Qed.

(** All runs of a computation end so. *)
Definition ends (tx : SerializedTransaction) (c : T (TER * bool)) : Prop := forall w, outcome tx w (c w).1 (c w).2.

(** A computation that changes nothing recorded, and then another. *)
Lemma ends_bind {A} tx (c : T A) (k : A -> T (TER * bool)) : Fixes recorded c -> (forall a, ends tx (k a)) -> ends tx (c ≫= k).
Proof.
  intros Hc Hk w. specialize (Hc w). unfold mbind, Eff_bind. destruct (c w) as [[a|e] w1]; [|injection Hc as Hl Hm; split; [done|by left]].
  eapply outcome_from; [exact Hc|]. apply Hk.
Qed.

Lemma ends_false tx r : ends tx (mret (r, false)).
Proof. done. Qed.

(** Clearing the table afterwards. *)
Lemma ends_clear tx (c : T (TER * bool)) : ends tx c -> ends tx ('(r, b) ← c; _ ← clear_table; mret (r, b)).
Proof.
  intros Hc w. specialize (Hc w). unfold mbind, Eff_bind. by destruct (c w) as [[[r []]|e] w1].
Qed.

(** What a computation can return. *)
Definition returns_only {S A} (P : A -> Prop) (c : Eff S A) : Prop := forall s a s', c s = (Ok a, s') -> P a.

Lemma returns_bind {S A B} (P : B -> Prop) (c : Eff S A) (k : A -> Eff S B) : (forall a, returns_only P (k a)) -> returns_only P (c ≫= k).
Proof. intros Hk s b s'. unfold mbind, Eff_bind. destruct (c s) as [[a|e] s1]; [apply Hk|done]. Qed.

Lemma returns_ret {S A} (P : A -> Prop) (a : A) : P a -> returns_only (S := S) P (mret a).
Proof. by intros H s b s' [= <- _]. Qed.

(** The result of an applied transaction is the one that was found; one that could
    not be applied after all has no [tec] code. *)
Definition as_found (r : TER) (rb : TER * bool) : Prop := if rb.2 then rb.1 = r else isTecClaim rb.1 = false.

Section Atomic.
Context `{SHA : SHA512} `{K : Keys} `{App : Application}.
Context (closing : bool) (tx : SerializedTransaction) (params : Z).

Lemma claim_result r : returns_only (as_found r) (claim_fee tx r).
Proof.
  unfold claim_fee. do 2 (apply returns_bind; intros ?). case_match; [|by apply returns_ret]. apply returns_bind. intros x.
  destruct (_ <? _); [by apply returns_ret|]. destruct (_ >? _); [by apply returns_ret|]. apply returns_bind. intros []; [by apply returns_ret|].
  do 3 (apply returns_bind; intros ?). by apply returns_ret.
Qed.

Lemma record_result r : returns_only (as_found r) (record_transaction tx params r).
Proof.
  unfold record_transaction. do 6 (apply returns_bind; intros ?). case_match; case_match; try (by apply returns_ret); [..|done];
    repeat (apply returns_bind; intros ?); by apply returns_ret.
Qed.

Lemma record_ends r : ends tx (record_transaction tx params r).
Proof.
  unfold record_transaction. do 5 (apply ends_bind; [apply _|intros ?]). intros w.
  unfold mbind, Eff_bind, reads, addTransaction.
  destruct (is_bit_set params tapOPEN_LEDGER), (mTransactionMap (lgr w) !! getTransactionID tx) eqn:E; try done; cbn.
  - split; [done|]. by eexists.
  - split; [done|by left].
  - destruct (getNValue _); (split; [done|]); [by eexists|]. right. split; [done|]. by eexists.
Qed.

Lemma applyTransaction_ends (o : option Transactor) :
  (forall v, o = Some v -> TransactorFixes v) -> ends tx (applyTransaction closing tx params o).
Proof.
  intros Ho. unfold applyTransaction. do 2 (apply ends_bind; [apply _|intros _]).
  destruct (SHAMapNode.isZero _); [apply ends_false|]. destruct o as [v|]; [|apply ends_false].
  specialize (Ho v eq_refl). apply ends_bind; [apply _|]. intros r. apply ends_bind; [apply _|]. intros [r' b].
  apply ends_clear. destruct b; [apply record_ends|apply ends_false].
Qed.
End Atomic.

(** C7: a transaction is applied as a whole or not at all, whatever its type and
    whatever state the engine is in.  When the engine reports that it was not
    applied, the entries of the ledger and the transactions it has are what they
    were; when anything throws, the entries are, and at most the transaction itself
    was written down.  When the engine reports that it was applied, the ledger did
    not have a transaction of that identifier, and now has it beside the others.  The
    payment through paths and [doApply] of new offers, which are parameters, must
    write to the table only and not to the ledger underneath. *)
Theorem engine_atomic `{SHA : SHA512} `{K : Keys} `{App : Application} `{P : Paths} `{V : Votes}
    (closing : bool) (tx : SerializedTransaction) (params : Z) (w : TxState) :
  PathsFix -> outcome tx w (result_of (engine closing tx params) w) (state_of (engine closing tx params) w).
Proof.
  intros PF. unfold engine. apply (applyTransaction_ends closing tx params). intros v. apply makeTransactor_fixes.
Qed.

(** ** A small town *)

Section Samples.
#[local] Existing Instance Directory.Tail.

Definition alice : Account := TrustLaws.alice.
Definition bob : Account := TrustLaws.bob.
Definition carol : Account := BaseUint.of_u64 BaseUint.W160 9.

(** The key of an account is its number; a signature is good when it says so. *)
Definition town_keys : Keys :=
  {| account_of_key := fun k => match k with [n] => BaseUint.of_u64 BaseUint.W160 n | _ => u160_zero end;
     verifySignature := fun _ _ sig => bool_decide (sig = [1]) |}.
#[local] Existing Instance town_keys.

Definition town_app : Application :=
  {| FEE_DEFAULT := 10; getFeeTrack := FeeTrack.new_track; gLedgerSeq := 0; isSupported := fun _ => true |}.
#[local] Existing Instance town_app.

(** No payment finds a path, and nobody makes offers. *)
Definition town_paths : Paths :=
  {| rippleCalc := fun _ => mret (tecPATH_DRY, no_amount, no_amount);
     createOffer := fun _ _ _ _ => mret temUNKNOWN |}.
#[local] Existing Instance town_paths.

Definition town_votes : Votes := {| topAccounts := None |}.
#[local] Existing Instance town_votes.

Lemma town_paths_fix : PathsFix.
Proof. split; intros; apply fixes_ret. Defined.

Definition town_root (a : Account) (seq coins : Z) : SLE :=
  setFieldU32 sfSequence seq (setFieldAmount sfBalance (mk_native coins false) (setFieldAccount sfAccount a (new_SLE ltACCOUNT_ROOT (getAccountRootIndex a)))).

Definition town : Ledger :=
  {| mAccountState := <[getAccountRootIndex alice := town_root alice 5 1000000]> (<[getAccountRootIndex bob := town_root bob 1 2000]> ∅);
     mBaseFee := 10; mReferenceFeeUnits := 10; mReserveBase := 1000; mReserveIncrement := 100 |}.

Definition town_state : TxState :=
  {| tbl := fresh town 0;
     lgr := {| mLedgerSeq := 9; mParentCloseTime := 1000000000; mTotCoins := 1002000; mFeePool := 0; mInflationSeq := 0; mInflationAllowed := true; mTransactionMap := ∅ |};
     mem := no_members; delivered := None; mTxnSeq := 0; amendments := {| mEnabled := ∅; m_amendmentBlocked := false |} |}.

(** The transaction number [id], signed with the key of number [key]. *)
Definition town_tx (ty : TxType) (id key : Z) (src : Account) (seq fee : Z) (fields : list (SField * STValue)) : SerializedTransaction :=
  {| getTransactionID := index_of id; getSigningHash := index_of id; getTxnType := ty;
     txFields := list_to_map ([(sfAccount, STAccount src); (sfSequence, STUInt32 seq); (sfFee, STAmt (mk_native fee false))] ++ fields);
     getSigningPubKey := [key]; getSignature := [1]; txPaths := None; mSigGood := false; mSigBad := false |}.

Definition payment (id key : Z) (src dst : Account) (seq fee amount : Z) : SerializedTransaction :=
  town_tx ttPAYMENT id key src seq fee [(sfDestination, STAccount dst); (sfAmount, STAmt (mk_native amount false))].

(** A payment out of order: nothing is recorded. *)
Lemma engine_atomic_witness :
  result_of (engine true (payment 100 7 alice bob 6 10 500) 0) town_state = Ok (terPRE_SEQ, false) /\
  outcome (payment 100 7 alice bob 6 10 500) town_state (Ok (terPRE_SEQ, false)) (state_of (engine true (payment 100 7 alice bob 6 10 500) 0) town_state).
Proof.
  assert (E : result_of (engine true (payment 100 7 alice bob 6 10 500) 0) town_state = Ok (terPRE_SEQ, false)) by (vm_compute; reflexivity).
  split; [exact E|]. rewrite <- E. apply (engine_atomic true (payment 100 7 alice bob 6 10 500) 0 town_state town_paths_fix).
Defined.
End Samples.

End EngineFrame.
