(* ===== verification/OpenLedger.v ===== *)
(** * Transactions of an open ledger

    While a ledger is open, transactions are only checked and listed: the engine
    runs the common checks on copies of the entries, writes the transaction down, and
    the entries of the ledger stay as they were until the ledger closes.  The table
    of such a run is [idle]: it has entries that were read, and none that is marked
    to be written. *)
From Stdlib Require Import ZArith Lia.
From S2P Require Import Prelude BaseUint Serializer STAmount STAmountMath Book SHAMapNode Effects FeeTrack LedgerEntrySet LedgerLaws Directory TrustLines TxMeta TxEngine Transactors EngineFrame.
From stdpp Require Import base numbers list gmap strings.
Import Effects LedgerEntrySet LedgerLaws TrustLines TxMeta TxEngine Transactors EngineFrame.
Local Open Scope Z_scope.

Module OpenLedger.
Import STAmount.

(** ** Invariants *)

(** A computation that keeps [I], also when it throws. *)
Class Keeps {S A : Type} (I : S -> Prop) (c : Eff S A) : Prop := keeps_inv : forall s, I s -> I (c s).2.

Section Rules.
Context {S : Type} (I : S -> Prop).

#[export] Instance keeps_ret {A} (a : A) : Keeps I (mret a).
Proof. by intros s H. Qed.
#[export] Instance keeps_bind {A C} (c : Eff S A) (k : A -> Eff S C) : Keeps I c -> (forall a, Keeps I (k a)) -> Keeps I (c ≫= k).
Proof. intros Hc Hk s H. unfold mbind, Eff_bind. specialize (Hc s H). destruct (c s) as [[a|e] s']; [by apply Hk|done]. Qed.
#[export] Instance keeps_raise {A} e : Keeps I (raise (A := A) e).
Proof. by intros s H. Qed.
#[export] Instance keeps_pure {A} (r : result A) : Keeps I (pure_result r).
Proof. by intros s H. Qed.
#[export] Instance keeps_reads {A} (g : S -> A) : Keeps I (reads g).
Proof. by intros s H. Qed.
End Rules.

#[export] Hint Extern 2 (Keeps _ (match ?x with _ => _ end)) => destruct x : typeclass_instances.
#[export] Hint Extern 1 (Keeps _ (let _ := _ in _)) => cbv zeta : typeclass_instances.
#[export] Hint Extern 3 (Keeps _ (modifies _)) => (intros [] H; exact H) : typeclass_instances.

Ltac keeps_of f := unfold f; apply _.

(** ** Idle tables *)

(** Every entry was only read. *)
Definition idle (s : State) : Prop := map_Forall (fun _ e => mAction e = taaCACHED) (mEntries (les s)).

#[export] Instance deref_idle p : Keeps idle (deref p).
Proof. intros s H. unfold deref. by destruct (heap s !! p). Qed.
#[export] Instance make_sle_idle x : Keeps idle (make_sle x).
Proof. by intros s H. Qed.
#[export] Instance mutate_idle p f : Keeps idle (mutate p f).
Proof. keeps_of mutate. Qed.
#[export] Instance field_idle {A} (get : SLE -> A) p : Keeps idle (field get p).
Proof. keeps_of @field. Qed.
#[export] Instance non_null_idle o : Keeps idle (non_null o).
Proof. keeps_of non_null. Qed.

Lemma put_cached_idle i p n : Keeps idle (put_entry i {| mEntry := p; mAction := taaCACHED; mEntrySeq := n |}).
Proof. intros s H. by apply map_Forall_insert_2. Qed.
#[export] Existing Instance put_cached_idle.

#[export] Instance cache_entry_idle p : Keeps idle (cache_entry p).
Proof. unfold cache_entry. apply _. Qed.

#[export] Instance getEntry_idle i : Keeps idle (getEntry i).
Proof.
  intros s H. unfold getEntry, mbind, Eff_bind, reads. destruct (mEntries (les s) !! i) as [e|] eqn:He; [|done].
  assert (Hc : mAction e = taaCACHED) by exact (H i e He). destruct (negb _); [|done]. rewrite Hc.
  refine (keeps_inv (c := sle ← deref (mEntry e); p ← make_sle sle; _ ← put_entry i {| mEntry := p; mAction := taaCACHED; mEntrySeq := mSeq (les s) |}; mret (Some p, taaCACHED)) s H).
Qed.

#[export] Instance entryCache_idle ty i : Keeps idle (entryCache ty i).
Proof. keeps_of entryCache. Qed.

(** An idle table writes nothing back. *)
Lemma idle_write s : idle s -> txnWrite s = mAccountState (mLedger (les s)).
Proof.
  unfold idle, txnWrite. generalize (mEntries (les s)). intros es. induction es as [|i e es Hi Hf IH] using map_first_key_ind; intros H; [done|].
  rewrite map_fold_insert_first_key by done. apply map_Forall_insert in H as [He H]; [|done]. rewrite IH by done. unfold write_entry. by rewrite He.
Qed.

(** Its metadata is empty, and nothing is threaded. *)
Section Metadata.
Context `{SHA : SHA512} (gLedgerSeq : Z) (txID : uint256) (lgrSeq : Z).

Lemma meta_loop_idle l w : idle (ms w) -> meta_loop gLedgerSeq txID lgrSeq l w = (Ok tt, w).
Proof.
  intros H. induction l as [|i l IH]; [done|]. cbn [meta_loop]. unfold mbind at 1, Eff_bind.
  assert (E : meta_step gLedgerSeq txID lgrSeq i w = (Ok tt, w)); [|by rewrite E].
  unfold meta_step, mbind, Eff_bind, reads. destruct (mEntries (les (ms w)) !! i) as [e|] eqn:He; [|done]. by rewrite (H i e He).
Qed.

Lemma calcRawMeta_idle d r n s : idle s -> (calcRawMeta gLedgerSeq txID lgrSeq d r n s).2 = s.
Proof.
  intros H. unfold calcRawMeta, meta_walk, mbind, Eff_bind, reads. by rewrite meta_loop_idle.
Qed.
End Metadata.

(** ** The checks *)

Abbreviation idle_tx := (fun w : TxState => idle (tbl w)).

#[export] Instance lift_idle {A} (c : M A) : Keeps idle c -> Keeps idle_tx (lift c).
Proof. intros Hc w H. unfold lift. specialize (Hc (tbl w) H). by destruct (c (tbl w)) as [r s]. Qed.

Section Checks.
Context `{SHA : SHA512} `{K : Keys} `{App : Application}.
Context (tx : SerializedTransaction) (params : Z).

#[export] Instance ledger_idle : Keeps idle_tx ledger.
Proof. keeps_of ledger. Qed.
#[export] Instance txn_account_idle : Keeps idle_tx txn_account.
Proof. keeps_of txn_account. Qed.
#[export] Instance account_field_idle {A} (get : SLE -> A) : Keeps idle_tx (account_field get).
Proof. keeps_of @account_field. Qed.
#[export] Instance set_account_idle f : Keeps idle_tx (set_account f).
Proof. keeps_of @set_account. Qed.
#[export] Instance change_members_idle f : Keeps idle_tx (change_members f).
Proof. keeps_of @change_members. Qed.
#[export] Instance calculateFee_idle c : Keeps idle_tx c -> Keeps idle_tx (calculateFee params c).
Proof. intros Hc. keeps_of @calculateFee. Qed.
#[export] Instance base_calculateBaseFee_idle : Keeps idle_tx base_calculateBaseFee.
Proof. keeps_of @base_calculateBaseFee. Qed.
#[export] Instance base_payFee_idle : Keeps idle_tx (base_payFee tx params).
Proof. keeps_of @base_payFee. Qed.
#[export] Instance base_checkSig_idle : Keeps idle_tx (base_checkSig tx).
Proof. keeps_of @base_checkSig. Qed.
#[export] Instance base_checkSeq_idle : Keeps idle_tx (base_checkSeq false tx).
Proof. keeps_of @base_checkSeq. Qed.
#[export] Instance base_preCheck_idle : Keeps idle_tx (base_preCheck tx params).
Proof. keeps_of @base_preCheck. Qed.
#[export] Instance unless_failed_idle c d : Keeps idle_tx c -> Keeps idle_tx d -> Keeps idle_tx (unless_failed c d).
Proof. intros Hc Hd. keeps_of unless_failed. Qed.
#[export] Instance regularkey_baseFee_idle : Keeps idle_tx (regularkey_baseFee tx).
Proof. keeps_of @regularkey_baseFee. Qed.
#[export] Instance trustset_checkSig_idle : Keeps idle_tx (trustset_checkSig tx).
Proof. keeps_of @trustset_checkSig. Qed.
#[export] Instance hasAccount_idle a : Keeps idle_tx (hasAccount a).
Proof. keeps_of @hasAccount. Qed.
#[export] Instance merge_precheck_idle : Keeps idle_tx (merge_precheck tx).
Proof. keeps_of @merge_precheck. Qed.
#[export] Instance inflation_payFee_idle : Keeps idle_tx (inflation_payFee tx params).
Proof. keeps_of @inflation_payFee. Qed.
#[export] Instance inflation_precheck_idle : Keeps idle_tx (inflation_precheck tx).
Proof. keeps_of @inflation_precheck. Qed.
#[export] Instance change_checkSig_idle : Keeps idle_tx (change_checkSig tx).
Proof. keeps_of @change_checkSig. Qed.
#[export] Instance change_checkSeq_idle : Keeps idle_tx (change_checkSeq tx).
Proof. keeps_of @change_checkSeq. Qed.
#[export] Instance change_payFee_idle : Keeps idle_tx (change_payFee tx).
Proof. keeps_of @change_payFee. Qed.
#[export] Instance change_preCheck_idle : Keeps idle_tx (change_preCheck tx params).
Proof. keeps_of @change_preCheck. Qed.

(** A transactor whose checks do so. *)
Class ChecksIdle (v : Transactor) : Prop := {
  preCheck_idle :: Keeps idle_tx (preCheck v);
  precheckAgainstLedger_idle :: Keeps idle_tx (precheckAgainstLedger v);
  checkSeq_idle :: Keeps idle_tx (checkSeq v);
  payFee_idle :: Keeps idle_tx (payFee v);
  calculateBaseFee_idle :: Keeps idle_tx (calculateBaseFee v);
  checkSig_idle :: Keeps idle_tx (checkSig v) }.

#[export] Instance apply_idle v : ChecksIdle v -> Keeps idle_tx (apply false params v).
Proof. intros Hv. unfold apply. cbn [negb]. apply _. Qed.

Lemma makeTransactor_idle `{P : Paths} `{V : Votes} v : makeTransactor false tx params = Some v -> ChecksIdle v.
Proof. unfold makeTransactor. destruct (getTxnType tx); intros [= <-]; split; cbn; apply _. Qed.

(** Nor do they touch the header: coins are doled out when a ledger closes. *)
Lemma makeTransactor_header `{P : Paths} `{V : Votes} `{PF : !PathsFix} v : makeTransactor false tx params = Some v -> VirtualFixes lgr v.
Proof.
  unfold makeTransactor. destruct (getTxnType tx); intros [= <-]; split; cbn; apply _.
Qed.

(** Recording in an open ledger. *)
Lemma record_open r w : is_bit_set params tapOPEN_LEDGER = true ->
  match record_transaction tx params r w with
  | (Ok (r', b), w') =>
      (idle_tx w -> mAccountState (mLedger (les (tbl w'))) = mAccountState (mLedger (les (tbl w)))) /\
      (if b then r' = r /\ addTransaction tx None (lgr w) = Some (lgr w') else lgr w' = lgr w)
  | (Throw _, w') => True
  end.
Proof.
  intros Hp. unfold record_transaction, lift, mbind, Eff_bind, reads.
  pose proof (calcRawMeta_idle gLedgerSeq (getTransactionID tx) (mLedgerSeq (lgr w)) (delivered w) r (mTxnSeq w) (tbl w)) as Hm.
  destruct (calcRawMeta _ _ _ _ _ _ _) as [[md|e] s]; [|done]. cbn in Hm. rewrite Hp. unfold addTransaction. cbn [set_seq set_tbl modifies lgr].
  destruct (mTransactionMap (lgr w) !! getTransactionID tx) as [q|]; cbn; (split; [intros Hi; rewrite Hm by done|done]); [done|]. by rewrite idle_write.
Qed.

(** The state after [applyTransaction] prepared the table. *)
Lemma begun_idle w : idle_tx (set_mem no_members (set_delivered None (set_tbl (set_les (init_les (mLedger (les (tbl w))) params (les (tbl w))) (tbl w)) w))).
Proof. apply map_Forall_empty. Qed.
End Checks.


Section Samples.
#[local] Existing Instance Directory.Tail.
#[local] Existing Instance town_keys.
#[local] Existing Instance town_app.
#[local] Existing Instance town_paths.
#[local] Existing Instance town_votes.

Definition listed_payment : SerializedTransaction := payment 100 7 alice bob 5 10 500.

End Samples.

End OpenLedger.
