(* ===== verification/Supply.v ===== *)
(** * The native coins of a ledger

    The sum of the balances of all account roots, how changes of single entries
    change it, what makes a ledger legal, and the arithmetic of legal balances. *)
From Stdlib Require Import ZArith Lia.
From S2P Require Import Prelude BaseUint Serializer STAmount STAmountMath Book SHAMapNode Effects FeeTrack LedgerEntrySet LedgerLaws Directory TrustLines TrustLaws TxMeta MetaLaws.
From stdpp Require Import base numbers list gmap strings.
Import Effects LedgerEntrySet LedgerLaws TrustLines TxMeta MetaLaws.
Local Open Scope Z_scope.

Module Supply.
Import STAmount.

Implicit Types (i j : uint256) (x y : SLE) (m : gmap uint256 SLE).

Abbreviation balance x := (getFieldAmount sfBalance x).
Abbreviation sequence x := (getFieldU32 sfSequence x).

(** ** The sum *)

Definition value x : Z := if decide (mType x = ltACCOUNT_ROOT) then drops (balance x) else 0.

Definition coins m : Z := map_fold (fun _ x n => value x + n) 0 m.

Lemma coins_new m i x : m !! i = None -> coins (<[i := x]> m) = value x + coins m.
Proof. intros Hi. unfold coins. rewrite map_fold_insert_L; [done| |done]. intros. lia. Qed.

Lemma coins_insert m i x y : m !! i = Some x -> coins (<[i := y]> m) = coins m - value x + value y.
Proof.
  intros Hi. rewrite <- (insert_delete_eq m i y), coins_new by apply lookup_delete_eq.
  rewrite <- (insert_delete_id m i x Hi) at 2. rewrite coins_new by apply lookup_delete_eq. lia.
Qed.

Lemma coins_nonneg m : (forall j y, m !! j = Some y -> 0 <= value y) -> 0 <= coins m.
Proof.
  induction m as [|j y m Hj _ IH] using map_first_key_ind; intros Hm; [done|].
  rewrite coins_new by done. pose proof (Hm j y (lookup_insert_eq _ _ _)). assert (0 <= coins m); [|lia].
  apply IH. intros k z Hk. apply (Hm k z). rewrite lookup_insert_ne; [done|]. congruence.
Qed.

Lemma coins_at_least m i x : (forall j y, m !! j = Some y -> 0 <= value y) -> m !! i = Some x -> 0 <= value x <= coins m.
Proof.
  intros Hm Hi. split; [by eapply Hm|]. rewrite <- (insert_delete_id m i x Hi), coins_new by apply lookup_delete_eq.
  assert (0 <= coins (delete i m)); [|lia]. apply coins_nonneg. intros j y [_ ?]%lookup_delete_Some. by eapply Hm.
Qed.

(** ** Entries up to their thread *)

Lemma same_thread_field {A} (get : option STValue -> A) f x y :
  f <> sfPreviousTxnID -> f <> sfPreviousTxnLgrSeq -> same_thread x y -> get (mFields x !! f) = get (mFields y !! f).
Proof. intros H1 H2 (_ & _ & H). by rewrite H. Qed.

Lemma same_thread_balance x y : same_thread x y -> balance x = balance y.
Proof. by apply (same_thread_field (fun o => match o with Some (STAmt v) => v | _ => no_amount end)). Qed.

Lemma same_thread_sequence x y : same_thread x y -> sequence x = sequence y.
Proof. by apply (same_thread_field (fun o => match o with Some (STUInt32 v) => v | _ => 0 end)). Qed.

Lemma same_thread_count x y : same_thread x y -> getFieldU32 sfOwnerCount x = getFieldU32 sfOwnerCount y.
Proof. by apply (same_thread_field (fun o => match o with Some (STUInt32 v) => v | _ => 0 end)). Qed.

Lemma same_thread_value x y : same_thread x y -> value x = value y.
Proof. intros H. unfold value. rewrite (same_thread_balance x y H). by destruct H as (_ & -> & _). Qed.

Lemma rethreaded_coins m m' : rethreaded m m' -> coins m = coins m'.
Proof.
  revert m'. induction m as [|i x m Hi _ IH] using map_first_key_ind; intros m' H.
  - assert (m' = ∅) as ->; [|done]. apply map_empty. intros i. specialize (H i). rewrite lookup_empty in H. by inversion H.
  - pose proof (H i) as Hx. rewrite lookup_insert_eq in Hx. inversion Hx as [? y Hxy Ey|]; subst.
    rewrite coins_new, <- (insert_delete_id m' i y), coins_new by (done || apply lookup_delete_eq).
    rewrite (same_thread_value x y Hxy), (IH (delete i m')); [done|]. intros j. destruct (decide (j = i)) as [->|Hne].
    + rewrite Hi, lookup_delete_eq. constructor.
    + rewrite lookup_delete_ne by done. specialize (H j). by rewrite lookup_insert_ne in H.
Qed.

(** ** Legal ledgers *)

(** A balance as it exists on the network. *)
Definition legal_balance (a : STAmount) : Prop := Book.native_ok a /\ 0 <= drops a.

(** A reserve the code can compute and compare. *)
Definition reserve_ok (l : Ledger) (n : Z) : Prop := exists v, getReserve n l = Ok v /\ 0 <= v <= cMaxNativeN.

Abbreviation owner_count x := (getFieldU32 sfOwnerCount x).

Section Legal.
Context `{SHA : SHA512} (l : Ledger).

Record legal_root x : Prop := {
  lr_balance : legal_balance (balance x);
  lr_reserve : reserve_ok l (owner_count x) }.

(** Where an account root is looked for there is none but account roots, and all
    of them are legal. *)
Record legal m : Prop := {
  lg_typed : forall a x, m !! getAccountRootIndex a = Some x -> mType x = ltACCOUNT_ROOT;
  lg_root : forall i x, m !! i = Some x -> mType x = ltACCOUNT_ROOT -> legal_root x }.

Lemma legal_value m i x : legal m -> m !! i = Some x -> 0 <= value x.
Proof. intros Hl Hi. unfold value. case_decide as Ht; [|done]. apply (lg_root _ Hl i x Hi Ht). Qed.

Lemma legal_at m a x : legal m -> m !! getAccountRootIndex a = Some x ->
  mType x = ltACCOUNT_ROOT /\ legal_root x /\ value x = drops (balance x) /\ drops (balance x) <= coins m.
Proof.
  intros Hl Hx. pose proof (lg_typed _ Hl a x Hx) as Ht. pose proof (lg_root _ Hl _ x Hx Ht) as Hr.
  destruct (coins_at_least m (getAccountRootIndex a) x) as [_ Hc]; [intros j y; by apply legal_value|done|].
  unfold value in *. rewrite decide_True in * by done. done.
Qed.

Lemma legal_rethreaded m m' : rethreaded m m' -> legal m -> legal m'.
Proof.
  intros H Hl. assert (Hx : forall i y, m' !! i = Some y -> exists x, m !! i = Some x /\ same_thread x y).
  { intros i y Hy. specialize (H i). rewrite Hy in H. inversion H as [x ? Hs Ex|]; subst. by exists x. }
  split.
  - intros a y Hy. destruct (Hx _ _ Hy) as (x & Hm & _ & <- & _). by eapply lg_typed.
  - intros i y Hy Ht. destruct (Hx _ _ Hy) as (x & Hm & Hs). destruct (lg_root _ Hl i x Hm) as [Hb Hc]; [by rewrite (proj1 (proj2 Hs))|].
    split; [by rewrite <- (same_thread_balance x y Hs)|by rewrite <- (same_thread_count x y Hs)].
Qed.

Lemma legal_insert m i y : legal m -> mType y = ltACCOUNT_ROOT -> legal_root y -> legal (<[i := y]> m).
Proof.
  intros Hl Ht Hr. split.
  - intros a z [[Hi <-]|[_ Hz]]%lookup_insert_Some; [done|by eapply lg_typed].
  - intros j z [[_ <-]|[_ Hz]]%lookup_insert_Some Hz'; [done|by eapply lg_root].
Qed.
End Legal.

(** ** Arithmetic of balances *)

Lemma legal_drops a : legal_balance a -> drops a = mValue a /\ mValue a <= cMaxNativeN.
Proof.
  intros ((Hc & Hn & Hl & Hu) & Hd). unfold isLegalNet in Hl. rewrite Hn in Hl. cbn in Hl. split; [|by apply Z.leb_le].
  unfold drops in *. destruct (mIsNegative a) eqn:En; [|lia]. destruct Hc as (_ & _ & _ & Hr). rewrite Hn in Hr. lia.
Qed.

Lemma legal_of_drops a : canonical a -> mIsNative a = true -> unsigned_zero a -> 0 <= drops a <= cMaxNativeN -> legal_balance a.
Proof.
  intros Hc Hn Hu Hd. split; [|lia]. split_and!; try done. unfold isLegalNet. rewrite Hn. cbn. apply Z.leb_le.
  destruct Hc as (_ & _ & _ & Hr). rewrite Hn in Hr. unfold drops in Hd. destruct (mIsNegative a); lia.
Qed.

Lemma sub_native a b c : mIsNative a = true -> mIsNative b = true -> sub a b = Ok c -> mIsNative c = true.
Proof.
  intros Ha Hb. unfold sub, createFromInt64, set_i64, mk_native_field, mbind, result_bind. rewrite Hb.
  destruct (throwComparable a b), (is_zero b), (getSNValue a), (getSNValue b); intros [= <-]; try done; by case_match.
Qed.

Lemma add_native a b c : canonical a -> mIsNative a = true -> add a b = Ok c -> mIsNative c = true.
Proof.
  intros (_ & _ & Hc & _) Ha. rewrite Ha in Hc. unfold add, mk_iou, canonicalize, mk_native_i64, set_i64, mbind, result_bind.
  rewrite Ha, <- Hc. destruct (throwComparable a b), (is_zero b), (is_zero a), (getSNValue a), (getSNValue b); repeat case_match; by intros [= <-].
Qed.

Lemma legal_sub a b : legal_balance a -> legal_balance b -> drops b <= drops a ->
  exists c, sub a b = Ok c /\ legal_balance c /\ drops c = drops a - drops b.
Proof.
  intros Ha Hb Hle. pose proof (legal_drops a Ha) as [Ea Da]. pose proof (proj2 Hb) as Hb0.
  destruct Ha as ((Ca & Na & La & Ua) & _), Hb as ((Cb & Nb & Lb & Ub) & _).
  destruct (native_sum a b Ca Cb Na Nb La Lb Ua Ub) as [_ (c & E & Cc & Uc & Dc)]. exists c. split_and!; [done| |done].
  apply legal_of_drops; [done|exact (sub_native a b c Na Nb E)|done|lia].
Qed.

Lemma legal_add a b : legal_balance a -> legal_balance b -> drops a + drops b <= cMaxNativeN ->
  exists c, add a b = Ok c /\ legal_balance c /\ drops c = drops a + drops b.
Proof.
  intros Ha Hb Hle. pose proof (proj2 Ha) as Ha0. pose proof (proj2 Hb) as Hb0.
  destruct Ha as ((Ca & Na & La & Ua) & _), Hb as ((Cb & Nb & Lb & Ub) & _).
  destruct (native_sum a b Ca Cb Na Nb La Lb Ua Ub) as [(c & E & Cc & Uc & Dc) _]. exists c. split_and!; [done| |done].
  apply legal_of_drops; [done|exact (add_native a b c Ca Na E)|done|lia].
Qed.

Lemma legal_ltb a b : legal_balance a -> legal_balance b -> ltb a b = Ok (drops a <? drops b).
Proof. intros [Ha _] [Hb _]. by apply TrustLaws.native_ltb. Qed.

End Supply.
