(* ===== verification/EngineLaws.v ===== *)
(** * What the engine guarantees

    Transactions of a closing ledger, run by the engine one after the other: native
    payments between accounts, account settings and regular keys.  Each of them
    returns; the balances of all accounts add up to the coins the ledger says there
    are, before and after; sequence numbers only grow, so nothing is applied twice.

    What the engine needs of [doApply] is the class [Lawful]: run from the state
    the common checks leave ([ready]) it returns, and if it succeeds it leaves a
    table that can be written back ([closes]).  The engine's theorems are proved
    against the class, and each of the three transactors is an instance. *)
From Stdlib Require Import ZArith Lia.
From S2P Require Import Prelude BaseUint Serializer STAmount STAmountMath Book SHAMapNode Effects FeeTrack LedgerEntrySet LedgerLaws Directory TrustLines TrustLaws TxMeta MetaLaws TxEngine Transactors EngineFrame Supply.
From stdpp Require Import base numbers list gmap strings.
Import Effects LedgerEntrySet LedgerLaws TrustLines TxMeta MetaLaws TxEngine Transactors EngineFrame Supply.
Local Open Scope Z_scope.

Module EngineLaws.
Import STAmount.

Implicit Types (s : State) (w : TxState) (i j : uint256) (x y : SLE) (p : sleptr) (m : gmap uint256 SLE) (tx : SerializedTransaction).

Abbreviation entries_of w := (mAccountState (mLedger (les (tbl w)))).
Abbreviation root_of a := (getAccountRootIndex a).
Abbreviation wf_account a := (BaseUint.wf BaseUint.W160 a).

(** What is assumed of the digests: the index of an account is not zero, and no two
    accounts share one. *)
Class DistinctRoots `{SHA : SHA512} : Prop := {
  root_nonzero : forall a, SHAMapNode.isZero (root_of a) = false;
  root_inj : forall a b, wf_account a -> wf_account b -> root_of a = root_of b -> a = b }.

(** ** Computations on the table *)

Lemma wpe_lift {A} (c : M A) w (Q : A -> TxState -> Prop) :
  wpe c (tbl w) (fun a s => Q a (set_tbl s w)) -> wpe (lift c) w Q.
Proof. unfold wpe, lift. by destruct (c (tbl w)) as [[a|e] s]. Qed.

(** A table with no entries shows the ledger. *)
Lemma empty_ok s : mEntries (les s) = ∅ -> ledger_ok (mLedger (les s)) -> ok ∅ s /\ view s = mAccountState (mLedger (les s)).
Proof.
  intros He Hl. split.
  - split; [intros i x Hx; by apply Hl|..]; intros i; rewrite He; intros *; rewrite lookup_empty; done.
  - apply map_eq. intros i. by rewrite view_lookup, He, lookup_empty.
Qed.

(** Reading any entry. *)
Lemma entryCache_any D ty i s (Q : option sleptr -> State -> Prop) :
  ok D s -> (forall o s', ok D s' -> keeps s s' -> (forall p, o = Some p -> exists x, holds s' p i x) -> Q o s') -> wpe (entryCache ty i) s Q.
Proof.
  intros Hok HQ. destruct (SHAMapNode.isZero i) eqn:Hz.
  - unfold entryCache. rewrite Hz. apply wpe_ret, HQ; [done|apply keeps_refl|done].
  - apply (entryCache_ok D); [done|done| |].
    + intros s' Hok' Hk _. by apply HQ.
    + intros p x s' Hok' Hk _ Hh. apply HQ; [done|done|]. intros q [= <-]. by exists x.
Qed.

Section Engine.
Context `{SHA : SHA512} `{K : Keys} `{App : Application} `{P : Paths} `{V : Votes} `{DR : !DistinctRoots}.

(** ** Sequence numbers *)

(** Accounts stay, with their sequence numbers. *)
Definition same_sequences m m' : Prop :=
  forall i x, m !! i = Some x -> mType x = ltACCOUNT_ROOT ->
    exists x', m' !! i = Some x' /\ mType x' = ltACCOUNT_ROOT /\ sequence x' = sequence x.

(** Accounts stay; the sequence number of the sender was that of the transaction and
    is the next one now, the others are the same. *)
Definition sequenced tx m m' : Prop :=
  (exists x, m !! root_of (getSourceAccount tx) = Some x /\ sequence x = getSequence tx) /\
  forall i x, m !! i = Some x -> mType x = ltACCOUNT_ROOT ->
    exists x', m' !! i = Some x' /\ mType x' = ltACCOUNT_ROOT /\
      sequence x' = if decide (i = root_of (getSourceAccount tx)) then u32 (getSequence tx + 1) else sequence x.

Lemma same_sequences_refl m : same_sequences m m.
Proof. intros i x Hx Ht. by exists x. Qed.

Lemma same_sequences_trans m1 m2 m3 : same_sequences m1 m2 -> same_sequences m2 m3 -> same_sequences m1 m3.
Proof.
  intros H H' i x Hx Ht. destruct (H i x Hx Ht) as (y & Hy & Hty & <-). destruct (H' i y Hy Hty) as (z & Hz & Htz & <-). by exists z.
Qed.

Lemma sequenced_then tx m1 m2 m3 : sequenced tx m1 m2 -> same_sequences m2 m3 -> sequenced tx m1 m3.
Proof.
  intros [Hs H] H'. split; [done|]. intros i x Hx Ht. destruct (H i x Hx Ht) as (y & Hy & Hty & <-).
  destruct (H' i y Hy Hty) as (z & Hz & Htz & <-). by exists z.
Qed.

Lemma rethreaded_sequences m m' : rethreaded m m' -> same_sequences m m'.
Proof.
  intros H i x Hx Ht. specialize (H i). rewrite Hx in H. inversion H as [? y Hs Ey|]; subst. exists y.
  split_and!; [done|by rewrite <- (proj1 (proj2 Hs))|by rewrite (same_thread_sequence x y Hs)].
Qed.

Lemma insert_sequences m i x y : m !! i = Some x -> mType y = mType x -> sequence y = sequence x -> same_sequences m (<[i := y]> m).
Proof.
  intros Hx Ht Hs j z Hz Htz. destruct (decide (j = i)) as [->|Hne]; [|exists z; by rewrite lookup_insert_ne].
  rewrite Hx in Hz. injection Hz as <-. exists y. rewrite lookup_insert_eq. by rewrite Ht.
Qed.

Lemma new_sequences m i y : m !! i = None -> same_sequences m (<[i := y]> m).
Proof. intros Hi j z Hz Htz. exists z. rewrite lookup_insert_ne; [done|]. congruence. Qed.

Lemma sequenced_insert tx m x y : m !! root_of (getSourceAccount tx) = Some x -> mType y = ltACCOUNT_ROOT -> sequence x = getSequence tx ->
  sequence y = u32 (getSequence tx + 1) -> sequenced tx m (<[root_of (getSourceAccount tx) := y]> m).
Proof.
  intros Hx Ht Hs Hy. split; [by exists x|]. intros j z Hz Htz. case_decide as E.
  - subst j. exists y. by rewrite lookup_insert_eq.
  - exists z. by rewrite lookup_insert_ne.
Qed.

(** ** Claiming the fee *)

Abbreviation src_root tx := (root_of (getSourceAccount tx)).
Abbreviation fee_of tx := (drops (getTransactionFee tx)).

(** The fields of an account root that was charged. *)
Definition charged_root tx (rest : STAmount) x : SLE := setFieldU32 sfSequence (u32 (getSequence tx + 1)) (setFieldAmount sfBalance rest x).

(** The table that takes the fee and the sequence number from the sender in the
    entries [m], and nothing else. *)
Definition charged tx m s : Prop :=
  ok ∅ s /\ exists x rest, m !! root_of (getSourceAccount tx) = Some x /\ sequence x = getSequence tx /\
    view s = <[root_of (getSourceAccount tx) := charged_root tx rest x]> m /\
    legal_balance rest /\ drops rest = drops (balance x) - fee_of tx.

Lemma claim_ok tx r l w : ledger_ok (mLedger (les (tbl w))) -> legal l (entries_of w) -> legal_balance (getTransactionFee tx) ->
  wpe (claim_fee tx r) w (fun rb w' => lgr w' = lgr w /\ mLedger (les (tbl w')) = mLedger (les (tbl w)) /\
    (rb.2 = true -> rb.1 = r /\ charged tx (entries_of w) (tbl w')) /\
    (rb.2 = false -> forall x, entries_of w !! src_root tx = Some x -> sequence x = getSequence tx -> drops (balance x) < fee_of tx)).
Proof.
  intros Hl Hg Hf. unfold claim_fee. apply wpe_bind. unfold clear_table. apply wpe_lift, wpe_modifies.
  set (w1 := set_tbl _ w). destruct (empty_ok (tbl w1) eq_refl Hl) as [Hok Hv]. change (mAccountState (mLedger (les (tbl w1)))) with (entries_of w) in Hv.
  apply wpe_bind, wpe_lift. apply (entryCache_ok ∅); [done|apply root_nonzero|intros s Hok1 Hk Hno; apply wpe_ret; cbn; rewrite (kp_ledger _ _ Hk); rewrite Hv in Hno; split_and!; [done|done|done|congruence]|].
  intros p x s Hok1 Hk Hx Hh. rewrite Hv in Hx. pose proof (kp_ledger _ _ Hk) as Hled. cbn in Hled. apply wpe_bind, wpe_lift.
  eapply deref_ok; [by destruct Hh as (? & _ & _ & ?)|]. cbn [set_tbl tbl].
  destruct (Z.ltb_spec (sequence x) (getSequence tx)); [apply wpe_ret; cbn; split_and!; [done|done|done|]; intros _ z Hz; rewrite Hx in Hz; injection Hz as <-; lia|]. rewrite Z.gtb_ltb.
  destruct (Z.ltb_spec (getSequence tx) (sequence x)); [apply wpe_ret; cbn; split_and!; [done|done|done|]; intros _ z Hz; rewrite Hx in Hz; injection Hz as <-; lia|].
  destruct (legal_at l _ _ x Hg Hx) as (Ht & [Hb _] & _ & _). apply wpe_bind. eapply wpe_pure; [by apply legal_ltb|].
  destruct (Z.ltb_spec (drops (balance x)) (fee_of tx)); [apply wpe_ret; cbn; split_and!; [done|done|done|]; intros _ z Hz _; rewrite Hx in Hz; injection Hz as <-; done|].
  destruct (legal_sub (balance x) (getTransactionFee tx) Hb Hf) as (rest & Er & Hr & Hd); [done|]. apply wpe_bind. eapply wpe_pure; [done|].
  apply wpe_bind, wpe_lift. eapply (mutate_ok ∅ {[root_of (getSourceAccount tx)]}); [done|done|done|set_solver|right; set_solver|].
  intros s1 Hok2 Hv2 Hh2 Hs2 _. apply wpe_bind, wpe_lift. eapply entryModify_ok; [done|done|]. intros s2 Hok3 Hv3 Hh3 _ Hs3. apply wpe_ret. cbn.
  assert (mLedger (les s2) = mLedger (les (tbl w))) as -> by (rewrite (st_ledger _ _ _ Hs3); cbn; by rewrite (st_ledger _ _ _ Hs2)).
  split_and!; [done|done| |done]. intros _. split; [done|]. split.
  - eapply ok_weaken, Hok3. set_solver.
  - exists x, rest. split_and!; [done|lia| |done|done]. rewrite Hv3. cbn [set_tbl tbl]. rewrite Hv2. cbn [set_tbl tbl]. by rewrite (kp_view _ _ Hk), Hv.
Qed.


(** ** Recording *)

(** The fees of a ledger do not depend on its entries. *)
Definition same_fees (l l' : Ledger) : Prop :=
  mBaseFee l' = mBaseFee l /\ mReferenceFeeUnits l' = mReferenceFeeUnits l /\ mReserveBase l' = mReserveBase l /\
  mReserveIncrement l' = mReserveIncrement l.

Lemma reserve_fees l l' n : same_fees l l' -> reserve_ok l n -> reserve_ok l' n.
Proof. intros (H1 & H2 & H3 & H4). unfold reserve_ok, getReserve. by rewrite H1, H2, H3, H4. Qed.

Lemma legal_fees l l' m : same_fees l l' -> legal l m -> legal l' m.
Proof.
  intros Hf [Ht Hr]. split; [done|]. intros i x Hx Htx. destruct (Hr i x Hx Htx). split; [done|by eapply reserve_fees].
Qed.

Lemma view_index D s i x : ok D s -> view s !! i = Some x -> mIndex x = i.
Proof.
  intros Hok. rewrite view_lookup. destruct (entries s !! i) as [e|] eqn:He; cbn; [|apply (ok_ledger _ _ Hok)].
  unfold shows. case_decide; [done|]. destruct (ok_entry _ _ Hok i e He) as ((y & Hy & Hi) & _). congruence.
Qed.

(** The ledger after a transaction was recorded in a closed ledger. *)
Record in_ledger tx (r : TER) w w' : Prop := {
  il_entries : rethreaded (view (tbl w)) (entries_of w');
  il_index : ledger_ok (mLedger (les (tbl w')));
  il_fees : same_fees (mLedger (les (tbl w))) (mLedger (les (tbl w')));
  il_coins : mTotCoins (lgr w') = u64 (mTotCoins (lgr w) - mValue (getTransactionFee tx));
  il_map : exists md, mTransactionMap (lgr w') = <[getTransactionID tx := (tx, Some md)]> (mTransactionMap (lgr w)) /\ mResult md = r;
  il_header : exists md l, mResult md = r /\ addTransaction tx (Some md) (lgr w) = Some l /\ lgr w' = destroyCoins (mValue (getTransactionFee tx)) l }.

Lemma record_closed tx params r w : ok ∅ (tbl w) -> is_bit_set params tapOPEN_LEDGER = false ->
  mTransactionMap (lgr w) !! getTransactionID tx = None -> mIsNative (getTransactionFee tx) = true ->
  wpe (record_transaction tx params r) w (fun rb w' => rb = (r, true) /\ in_ledger tx r w w').
Proof.
  intros Hok Hp Hn Hf. unfold record_transaction. apply wpe_bind, wpe_reads, wpe_bind, wpe_reads, wpe_bind, wpe_reads, wpe_bind, wpe_lift.
  eapply wpe_mono; [by apply calcRawMeta_ok|]. intros md s' (Hok' & Hv & Hl & _ & _ & Hr & _).
  apply wpe_bind, wpe_modifies, wpe_bind, wpe_reads. cbn [set_seq set_tbl lgr]. rewrite Hp. unfold addTransaction. rewrite Hn.
  apply wpe_bind, wpe_modifies, wpe_bind. eapply wpe_pure; [unfold getNValue; by rewrite Hf|].
  apply wpe_bind, wpe_modifies, wpe_bind, wpe_modifies, wpe_ret. split; [done|].
  split; cbn; rewrite ?Hl, ?(txnWrite_view s' Hok'); [done| |done|done|by exists md|].
  - intros i x. by apply (view_index ∅).
  - eexists md, _. unfold addTransaction. rewrite Hn. split_and!; [done|done|]. reflexivity.
Qed.


(** ** The account of the sender *)

Lemma set_tbl_same w : set_tbl (tbl w) w = w.
Proof. by destruct w. Qed.

(** The transactor has the account root [x] of index [i] in hand, behind [p]. *)
Record owns D w p i x : Prop := {
  ow_ok : ok D (tbl w);
  ow_holds : holds (tbl w) p i x;
  ow_account : mTxnAccount (mem w) = Some p }.

Lemma account_field_ok {A} (get : SLE -> A) D w p i x (Q : A -> TxState -> Prop) :
  owns D w p i x -> Q (get x) w -> wpe (account_field get) w Q.
Proof.
  intros [Hok Hh Ha] HQ. unfold account_field, txn_account. apply wpe_bind, wpe_bind, wpe_reads. rewrite Ha. apply wpe_ret, wpe_lift.
  eapply holds_field; [done|]. by rewrite set_tbl_same.
Qed.

Lemma set_account_ok f D w p i x (Q : unit -> TxState -> Prop) :
  owns D w p i x -> mIndex (f x) = mIndex x -> touched (tbl w) i \/ i ∈ D ->
  (forall s', owns D (set_tbl s' w) p i (f x) -> view s' = <[i := f x]> (view (tbl w)) -> steps i (tbl w) s' ->
     (touched (tbl w) i -> touched s' i) -> Q tt (set_tbl s' w)) ->
  wpe (set_account f) w Q.
Proof.
  intros [Hok Hh Ha] Hf Ht HQ. unfold set_account, txn_account. apply wpe_bind, wpe_bind, wpe_reads. rewrite Ha. apply wpe_ret, wpe_lift.
  eapply (mutate_ok D D); [done|done|done|done|done|]. intros s' Hok' Hv Hh' Hs Ht'. by apply HQ.
Qed.

(** ** What every transaction goes through *)

(** The digits of a transaction's fee. *)
Definition proper_fee tx : Prop := canonical (getTransactionFee tx) /\ unsigned_zero (getTransactionFee tx).

Lemma fee_legal tx : proper_fee tx -> isLegalNet (getTransactionFee tx) = true -> mIsNative (getTransactionFee tx) = true ->
  negative (getTransactionFee tx) = false -> legal_balance (getTransactionFee tx).
Proof.
  intros [Hc Hu] Hl Hn Hneg. split; [done|]. unfold negative, signum in Hneg. destruct Hc as (_ & _ & _ & Hr). rewrite Hn in Hr.
  unfold drops. destruct (Z.eqb_spec (mValue (getTransactionFee tx)) 0) as [->|]; [lia|]. destruct (mIsNegative _); [done|lia].
Qed.

(** The state [doApply] starts from: the account root in hand is marked, has paid the
    fee and has the next sequence number. *)
Record ready tx w p x : Prop := {
  rd_owns : owns ∅ w p (src_root tx) x;
  rd_touched : touched (tbl w) (src_root tx);
  rd_id : mTxnAccountID (mem w) = getSourceAccount tx;
  rd_source : mSourceBalance (mem w) = balance x;
  rd_prior : legal_balance (mPriorBalance (mem w)) /\ drops (mPriorBalance (mem w)) = drops (balance x) + fee_of tx;
  rd_fee : legal_balance (getTransactionFee tx);
  rd_legal : legal (mLedger (les (tbl w))) (view (tbl w));
  rd_base : reserve_ok (mLedger (les (tbl w))) 0;
  rd_bound : coins (view (tbl w)) <= cMaxNativeN }.

(** What a [doApply] that succeeds leaves. *)
Record closes w w' : Prop := {
  cl_ok : ok ∅ (tbl w');
  cl_legal : legal (mLedger (les (tbl w))) (view (tbl w'));
  cl_coins : coins (view (tbl w')) = coins (view (tbl w));
  cl_sequences : same_sequences (view (tbl w)) (view (tbl w')) }.

(** The interface between the engine and a type of transaction. *)
Class Lawful tx (d : T TER) : Prop :=
  lawful : forall w p x, ready tx w p x -> wpe d w (fun r w' => lgr w' = lgr w /\ (r = tesSUCCESS -> closes w w')).

(** A function that only reads. *)
Class Quiet {A} (c : T A) : Prop :=
  quiet : forall w, (forall p, mTxnAccount (mem w) = Some p -> is_Some (heap (tbl w) !! p)) -> wpe c w (fun _ w' => w' = w).

(** A transactor that replaces [calculateBaseFee] and [doApply] of the base class at
    most. *)
Definition ordinary_transactor tx params v (d : T TER) (f : T Z) : Prop :=
  let b := base true tx params d in
  v = {| preCheck := preCheck b; precheckAgainstLedger := precheckAgainstLedger b; checkSeq := checkSeq b; payFee := payFee b;
         calculateBaseFee := f; checkSig := checkSig b; doApply := doApply b; mustHaveValidAccount := true |}.


(** A result that neither applies the transaction nor claims its fee. *)
Definition refusal (r : TER) : Prop := r <> tesSUCCESS /\ isTecClaim r = false.

Lemma unless_failed_ok (c d : T TER) w (Qc Q : TER -> TxState -> Prop) :
  wpe c w Qc -> (forall r w', Qc r w' -> r <> tesSUCCESS -> Q r w') -> (forall w', Qc tesSUCCESS w' -> wpe d w' Q) ->
  wpe (unless_failed c d) w Q.
Proof.
  intros Hc Hf Hs. unfold unless_failed. apply wpe_bind. eapply wpe_mono; [exact Hc|]. intros r w' Hr. cbn beta.
  destruct (Z.eqb_spec r tesSUCCESS) as [->|Hne]; cbn [negb]; [by apply Hs|]. apply wpe_ret. by apply Hf.
Qed.

Lemma preCheck_ok tx params w :
  wpe (base_preCheck tx params) w (fun r w' => w' = set_mem (with_accountID (getSourceAccount tx) (mem w)) w /\ (r = tesSUCCESS \/ refusal r)).
Proof.
  unfold base_preCheck. apply wpe_bind. unfold change_members. apply wpe_modifies.
  destruct (BaseUint.isZero _); [apply wpe_ret; split; [done|by right]|].
  destruct (negb _ && _); apply wpe_ret; (split; [done|]); [by right|by left].
Qed.

Lemma load_fee_some t fee base units admin : base <> 0 -> exists due, FeeTrack.scaleFeeLoad t fee base units admin = Some due.
Proof.
  intros Hb. unfold FeeTrack.scaleFeeLoad, FeeTrack.mulDiv. rewrite (proj2 (Z.eqb_neq _ _) Hb).
  change (FeeTrack.lftNormalFee =? 0) with false. cbn match. destruct (_ <? fee); cbn [mbind option_bind]; destruct (_ <? _); by eexists.
Qed.

Lemma calculateFee_ok (f : T Z) params w (Q : unit -> TxState -> Prop) : Quiet f -> mBaseFee (mLedger (les (tbl w))) <> 0 ->
  (forall p, mTxnAccount (mem w) = Some p -> is_Some (heap (tbl w) !! p)) ->
  (forall due, Q tt (set_mem (with_feeDue due (mem w)) w)) -> wpe (calculateFee params f) w Q.
Proof.
  intros Hf Hb Hp HQ. unfold calculateFee. apply wpe_bind. eapply wpe_mono; [by apply (quiet (c := f))|]. intros fee w' ->.
  apply wpe_bind, wpe_reads. destruct (load_fee_some getFeeTrack fee _ (mReferenceFeeUnits (mLedger (les (tbl w)))) (is_bit_set params tapADMIN) Hb) as [due ->].
  apply HQ.
Qed.

(** An account root with another balance, sequence number or last transaction. *)
Definition like x y : Prop := mIndex y = mIndex x /\ mType y = mType x /\ owner_count y = owner_count x.

Lemma like_set f v x : f <> sfOwnerCount -> like x (setField f v x).
Proof. intros Hf. split_and!; [done|done|]. unfold getFieldU32. cbn. by rewrite lookup_insert_ne. Qed.

Lemma like_trans x y z : like x y -> like y z -> like x z.
Proof. intros (? & ? & ?) (? & ? & ?). split_and!; congruence. Qed.

Lemma checkSeq_ok tx w p i x : owns {[i]} w p i x ->
  wpe (base_checkSeq true tx) w (fun r w' => lgr w' = lgr w /\ (r = tesSUCCESS \/ refusal r) /\
    (r = tesSUCCESS -> sequence x = getSequence tx /\ exists s' y, w' = set_tbl s' w /\ owns {[i]} w' p i y /\
       view s' = <[i := y]> (view (tbl w)) /\ steps i (tbl w) s' /\ like x y /\ balance y = balance x /\ sequence y = u32 (getSequence tx + 1))).
Proof.
  intros Ho. assert (Hno : forall r, refusal r -> wpe (mret r) w (fun r w' => lgr w' = lgr w /\ (r = tesSUCCESS \/ refusal r) /\
    (r = tesSUCCESS -> sequence x = getSequence tx /\ exists s' y, w' = set_tbl s' w /\ owns {[i]} w' p i y /\
       view s' = <[i := y]> (view (tbl w)) /\ steps i (tbl w) s' /\ like x y /\ balance y = balance x /\ sequence y = u32 (getSequence tx + 1)))).
  { intros r Hr. apply wpe_ret. split_and!; [done|by right|]. intros ->. by destruct Hr. }
  unfold base_checkSeq. apply wpe_bind. eapply account_field_ok; [done|]. apply wpe_bind, wpe_reads, wpe_bind, wpe_reads, wpe_bind, wpe_ret.
  destruct (Z.eqb_spec (getSequence tx) (sequence x)) as [Es|Es]; cbn [negb].
  2: { destruct (_ <? _); [by apply Hno|]. destruct (hasTransaction _ _); by apply Hno. }
  apply wpe_bind. eapply account_field_ok; [done|]. apply wpe_bind. eapply account_field_ok; [done|].
  do 3 (destruct (_ && _); [by apply Hno|]).
  apply wpe_bind. eapply set_account_ok; [done|done|right; set_solver|]. intros s1 Ho1 Hv1 Hs1 _. apply wpe_bind.
  eapply account_field_ok; [done|]. apply wpe_bind. destruct (isFieldPresent sfAccountTxnID _).
  - eapply set_account_ok; [done|done|right; set_solver|]. intros s2 Ho2 Hv2 Hs2 _. apply wpe_ret. split_and!; [done|by left|]. intros _.
    split; [done|]. eexists s2, _. split; [done|]. split; [exact Ho2|]. cbn [set_tbl tbl] in *. split_and!; [|by eapply steps_trans|by eapply like_trans; apply like_set|..].
    + by rewrite Hv2, Hv1, insert_insert_eq.
    + unfold getFieldAmount. cbn. by rewrite !lookup_insert_ne by done.
    + unfold getFieldU32. cbn. by rewrite lookup_insert_ne, lookup_insert_eq by done.
  - apply wpe_ret, wpe_ret. split_and!; [done|by left|]. intros _. split; [done|]. eexists s1, _. split; [done|]. split; [exact Ho1|].
    cbn [set_tbl tbl] in *. split_and!; [done|done|by apply like_set|..]; unfold getFieldAmount, getFieldU32; cbn; by rewrite ?lookup_insert_ne, ?lookup_insert_eq by done.
Qed.


Lemma payFee_ok tx params w p i x : owns {[i]} w p i x -> mSourceBalance (mem w) = balance x -> legal_balance (balance x) -> proper_fee tx ->
  is_bit_set params tapOPEN_LEDGER = false ->
  wpe (base_payFee tx params) w (fun r w' => lgr w' = lgr w /\ (r = tesSUCCESS \/ refusal r) /\
    (r = tesSUCCESS -> legal_balance (getTransactionFee tx) /\ exists y, owns {[i]} w' p i y /\ view (tbl w') = <[i := y]> (view (tbl w)) /\
       steps i (tbl w) (tbl w') /\ like x y /\ sequence y = sequence x /\ legal_balance (balance y) /\
       drops (balance y) = drops (balance x) - fee_of tx /\ mSourceBalance (mem w') = balance y /\
       mPriorBalance (mem w') = mPriorBalance (mem w) /\ mTxnAccountID (mem w') = mTxnAccountID (mem w))).
Proof.
  intros Ho Hsrc Hb Hf Hp. unfold base_payFee. destruct (isLegalNet (getTransactionFee tx)) eqn:Hl; cbn [negb]; [|apply wpe_ret; by split_and!; [|right|]].
  apply wpe_bind, wpe_reads, wpe_bind. rewrite Hp. apply wpe_ret. cbn match.
  destruct (negative (getTransactionFee tx)) eqn:Hneg; [apply wpe_ret; by split_and!; [|right|]|].
  destruct (mIsNative (getTransactionFee tx)) eqn:Hn; cbn [negb orb]; [|apply wpe_ret; by split_and!; [|right|]].
  pose proof (fee_legal tx Hf Hl Hn Hneg) as Hfee. destruct (is_zero (getTransactionFee tx)) eqn:Hz.
  - apply wpe_ret. split_and!; [done|by left|]. intros _. split; [done|]. exists x.
    assert (fee_of tx = 0) as -> by (rewrite is_zero_spec in Hz; apply Z.eqb_eq in Hz; unfold drops; rewrite Hz; lia).
    split_and!; try done; [|lia]. symmetry. apply insert_id. by eapply holds_view, ow_holds.
  - apply wpe_bind, wpe_reads, wpe_bind. rewrite Hsrc. eapply wpe_pure; [by apply legal_ltb|].
    destruct (Z.ltb_spec (drops (balance x)) (fee_of tx)); [apply wpe_ret; by split_and!; [|right|]|].
    destruct (legal_sub _ _ Hb Hfee) as (rest & Er & Hr & Hd); [done|]. apply wpe_bind. eapply wpe_pure; [done|].
    apply wpe_bind. unfold change_members. apply wpe_modifies, wpe_bind.
    eapply (set_account_ok _ {[i]}); [split; [apply Ho|apply Ho|exact (ow_account _ _ _ _ _ Ho)]|done|right; set_solver|].
    intros s' Ho' Hv' Hs' _. apply wpe_ret. split_and!; [done|by left|]. intros _. split; [done|].
    eexists. split; [exact Ho'|]. cbn [set_tbl tbl set_mem mem with_balances mSourceBalance mPriorBalance mTxnAccountID] in *.
    assert (balance (setFieldAmount sfBalance rest x) = rest) as E by (unfold getFieldAmount; cbn; by rewrite lookup_insert_eq).
    rewrite E. split_and!; [done|done|by apply like_set|unfold getFieldU32; cbn; by rewrite lookup_insert_ne|done..].
Qed.

(** The parts of the state the checks after the fee may not change. *)
Definition same_part w w' : Prop :=
  tbl w' = tbl w /\ lgr w' = lgr w /\ mTxnAccount (mem w') = mTxnAccount (mem w) /\ mTxnAccountID (mem w') = mTxnAccountID (mem w) /\
  mSourceBalance (mem w') = mSourceBalance (mem w) /\ mPriorBalance (mem w') = mPriorBalance (mem w).

Lemma checkSig_ok tx D w p i x : owns D w p i x ->
  wpe (base_checkSig tx) w (fun r w' => same_part w w' /\ (r = tesSUCCESS \/ refusal r)).
Proof.
  intros Ho. unfold base_checkSig. apply wpe_bind, wpe_reads. destruct (BaseUint.eqb _ _).
  - apply wpe_bind. unfold change_members. apply wpe_modifies, wpe_bind.
    eapply (account_field_ok _ D); [split; [apply Ho|apply Ho|exact (ow_account _ _ _ _ _ Ho)]|]. apply wpe_ret. split; [done|].
    destruct (isFlag _ _); [by right|by left].
  - destruct (mHasAuthKey _); [|apply wpe_ret; split; [done|by right]]. apply wpe_bind. eapply account_field_ok; [done|]. apply wpe_ret.
    split; [done|]. destruct (BaseUint.eqb _ _); [by left|by right].
Qed.


(** A ledger transactions can be applied to. *)
Record open_books (l : Ledger) : Prop := {
  ob_index : ledger_ok l;
  ob_legal : legal l (mAccountState l);
  ob_base : reserve_ok l 0;
  ob_fee : mBaseFee l <> 0;
  ob_bound : coins (mAccountState l) <= cMaxNativeN }.

(** The state before [doApply], from the ledger of [w]. *)
Definition started tx w w1 : Prop :=
  lgr w1 = lgr w /\ mLedger (les (tbl w1)) = mLedger (les (tbl w)) /\
  exists p x y, ready tx w1 p y /\ entries_of w !! src_root tx = Some x /\ view (tbl w1) = <[src_root tx := y]> (entries_of w) /\
    like x y /\ sequence x = getSequence tx /\ sequence y = u32 (getSequence tx + 1) /\ drops (balance y) = drops (balance x) - fee_of tx.

(** What an account root with a smaller balance does to the ledger. *)
Lemma charge_legal l m a x y : legal l m -> m !! root_of a = Some x -> like x y -> legal_balance (balance y) ->
  legal l (<[root_of a := y]> m) /\ coins (<[root_of a := y]> m) = coins m - drops (balance x) + drops (balance y).
Proof.
  intros Hg Hx (_ & Ht & Hc) Hb. destruct (legal_at l m a x Hg Hx) as (Htx & [Hbx Hrx] & Hvx & _). split.
  - apply legal_insert; [done|congruence|]. split; [done|by rewrite Hc].
  - rewrite (coins_insert m (root_of a) x y Hx), Hvx. unfold value. by rewrite decide_True by congruence.
Qed.

Lemma modify_ok D w p i x (Q : unit -> TxState -> Prop) : owns D w p i x ->
  (forall s', owns (D ∖ {[i]}) (set_tbl s' w) p i x -> view s' = view (tbl w) -> touched s' i -> steps i (tbl w) s' -> Q tt (set_tbl s' w)) ->
  wpe (lift (entryModify p)) w Q.
Proof. intros [Hok Hh Ha] HQ. apply wpe_lift. eapply entryModify_ok; [done|done|]. intros s' Hok' Hv Hh' Ht Hs. by apply HQ. Qed.

Lemma owns_part D w w' p i x : same_part w w' -> owns D w p i x -> owns D w' p i x.
Proof. intros (Ht & _ & Ha & _) [Ho Hh Hm]. split; [by rewrite Ht|by rewrite Ht|by rewrite Ha]. Qed.

(** The account root once sequence number and fee are taken. *)
Definition billed tx w x w' y : Prop :=
  lgr w' = lgr w /\ view (tbl w') = <[src_root tx := y]> (view (tbl w)) /\ mLedger (les (tbl w')) = mLedger (les (tbl w)) /\
  like x y /\ sequence x = getSequence tx /\ sequence y = u32 (getSequence tx + 1) /\ legal_balance (balance y) /\
  drops (balance y) = drops (balance x) - fee_of tx /\ mSourceBalance (mem w') = balance y /\
  mPriorBalance (mem w') = mPriorBalance (mem w) /\ mTxnAccountID (mem w') = mTxnAccountID (mem w).

Lemma checks_ok tx params k w p x (Q : TER -> TxState -> Prop) :
  owns {[src_root tx]} w p (src_root tx) x -> mSourceBalance (mem w) = balance x -> legal_balance (balance x) -> proper_fee tx ->
  is_bit_set params tapOPEN_LEDGER = false ->
  (forall r w', refusal r -> lgr w' = lgr w -> Q r w') ->
  (forall w' y, legal_balance (getTransactionFee tx) -> owns {[src_root tx]} w' p (src_root tx) y -> billed tx w x w' y -> wpe k w' Q) ->
  wpe (unless_failed (base_checkSeq true tx) (unless_failed (base_payFee tx params) (unless_failed (base_checkSig tx) k))) w Q.
Proof.
  intros Ho Hsrc Hbx Hfee Hp Hno Hyes.
  eapply unless_failed_ok; [by apply checkSeq_ok|intros r w' (Hlg & [->|Hr] & _) Hne; [done|by apply Hno]|].
  intros w3 (Hlg3 & _ & H3). destruct (H3 eq_refl) as (Hseq & s3 & y3 & -> & Ho3 & Hv3 & Hs3 & Hlike3 & Hb3 & Hq3).
  eapply unless_failed_ok; [eapply payFee_ok; [exact Ho3|by rewrite Hb3|by rewrite Hb3|done|done]|intros r w' (Hlg & [->|Hr] & _) Hne; [done|by apply Hno]|].
  intros w4 (Hlg4 & _ & H4). destruct (H4 eq_refl) as (Hlf & y & Ho4 & Hv4 & Hs4 & Hlike4 & Hq4 & Hb4 & Hd4 & Hsrc4 & Hpr4 & Hid4).
  assert (Hlg : forall w', lgr w' = lgr w4 -> lgr w' = lgr w) by (intros w' ->; by rewrite Hlg4).
  eapply unless_failed_ok; [by eapply checkSig_ok|intros r w' [(_ & Hl & _) [->|Hr]] Hne; [done|by apply Hno, Hlg]|].
  intros w5 [Hsp _]. pose proof Hsp as (Ht5 & Hlg5 & Ha5 & Hid5 & Hsrc5 & Hpr5). apply (Hyes w5 y); [done|by eapply owns_part|].
  cbn [set_tbl tbl mem] in *. unfold billed. rewrite Ht5, Hv4, Hv3, insert_insert_eq, (st_ledger _ _ _ Hs4), Hsrc5, Hpr5, Hid5. cbn [set_tbl tbl].
  split_and!; [by apply Hlg|done|apply Hs3|by eapply like_trans|done|congruence|done|congruence|done|done|done].
Qed.

Lemma apply_ok tx params v d f w : mEntries (les (tbl w)) = ∅ -> open_books (mLedger (les (tbl w))) -> proper_fee tx ->
  is_bit_set params tapOPEN_LEDGER = false -> ordinary_transactor tx params v d f -> Lawful tx d -> Quiet f ->
  wpe (apply true params v) w (fun r w' => lgr w' = lgr w /\
    (refusal r \/ (legal_balance (getTransactionFee tx) /\ (r = tesSUCCESS -> exists w1, started tx w w1 /\ closes w1 w')))).
Proof.
  intros He [Hl Hg Hr0 Hbf Hbd] Hfee Hp -> Hd Hf. destruct (empty_ok (tbl w) He Hl) as [Hok Hv].
  unfold apply. cbn [preCheck precheckAgainstLedger checkSeq payFee calculateBaseFee checkSig doApply mustHaveValidAccount base].
  eapply unless_failed_ok; [apply preCheck_ok|intros r w' [-> [->|Hr]] Hne; [done|split; [done|by left]]|]. intros w1 [-> _].
  set (w1 := set_mem _ w). apply wpe_bind, wpe_reads, wpe_bind, wpe_lift. change (mTxnAccountID (mem w1)) with (getSourceAccount tx).
  apply (entryCache_ok ∅); [done|apply root_nonzero| |].
  - intros s Hok1 Hk _. apply wpe_bind. unfold change_members. apply wpe_modifies, wpe_bind.
    eapply calculateFee_ok; [done|cbn; by rewrite (kp_ledger _ _ Hk)|done|]. intros due. apply wpe_bind, wpe_ret. cbn match. apply wpe_ret. split; [done|by left].
  - intros p x s Hok1 Hk Hx Hh. change (view (tbl w1)) with (view (tbl w)) in Hx. rewrite Hv in Hx. destruct (legal_at _ _ _ x Hg Hx) as (Htx & [Hbx _] & _ & _).
    pose proof (kp_ledger _ _ Hk) as Hled. pose proof (kp_view _ _ Hk) as Hvs. cbn [w1 set_mem tbl] in Hled, Hvs. rewrite Hv in Hvs.
    apply wpe_bind. unfold change_members. apply wpe_modifies, wpe_bind. cbn [set_mem set_tbl mem with_account]. pose proof Hh as (act & _ & _ & Hhp).
    eapply calculateFee_ok; [done|cbn; by rewrite Hled|intros q [= <-]; by exists x|]. intros due. apply wpe_bind, wpe_bind, wpe_lift. eapply deref_ok; [exact Hhp|].
    apply wpe_bind, wpe_modifies, wpe_ret. cbn [negb].
    eapply (checks_ok tx params); [split; [eapply ok_weaken, Hok1; set_solver|done|done]|done|done|done|done|intros r w' Hr Hlg; split; [done|by left]|].
    intros w5 y Hlf Ho5 (Hlg5 & Hv5 & Hl5 & Hlike & Hqx & Hqy & Hby & Hdy & Hsrc5 & Hpr5 & Hid5). cbn [set_tbl set_mem tbl mem with_balances mPriorBalance] in *. rewrite Hvs in Hv5. rewrite Hled in Hl5.
    eapply unless_failed_ok; [by apply (wpe_ret tesSUCCESS w5 (fun r w' => r = tesSUCCESS /\ w' = w5))|by intros r w' [-> _]|]. intros w' [_ ->].
    apply wpe_bind. eapply modify_ok; [done|]. intros s6 Ho6 Hv6 Htch6 Hs6. rewrite Hv5 in Hv6. pose proof (st_ledger _ _ _ Hs6) as Hled6. rewrite Hl5 in Hled6.
    destruct (charge_legal _ _ _ x y Hg Hx Hlike Hby) as [Hg6 Hc6].
    assert (Hready : ready tx (set_tbl s6 w5) p y).
    { replace ({[src_root tx]} ∖ {[src_root tx]}) with (∅ : gset uint256) in Ho6 by set_solver.
      split; cbn [set_tbl tbl mem]; rewrite ?Hled6, ?Hv6; try done; [rewrite Hpr5; split; [done|lia]|]. destruct Hlf as [_ ?]. rewrite Hc6. lia. }
    eapply wpe_mono; [by eapply lawful|]. intros r w' [Hlg Hcl]. split; [by rewrite Hlg|]. right. split; [done|].
    intros ->. exists (set_tbl s6 w5). split; [|by apply Hcl]. split; [done|]. split; [done|]. by exists p, x, y.
Qed.

(** ** One transaction *)

(** The transaction's sequence number is behind its account's. *)
Definition spent tx m : Prop :=
  exists x, m !! src_root tx = Some x /\ mType x = ltACCOUNT_ROOT /\ getSequence tx < sequence x.

(** The invariant: the books are in order, the balances add up to the coins the
    ledger says there are, and what the ledger has recorded cannot come again. *)
Record sound w : Prop := {
  sd_books : open_books (mLedger (les (tbl w)));
  sd_total : coins (entries_of w) = mTotCoins (lgr w);
  sd_past : forall id t md, mTransactionMap (lgr w) !! id = Some (t, md) -> spent t (entries_of w) }.

(** The identifier of a transaction names it alone. *)
Definition named tx w : Prop := forall t md, mTransactionMap (lgr w) !! getTransactionID tx = Some (t, md) -> t = tx.

Definition proper_sequence tx : Prop := 0 <= getSequence tx < 4294967295.

(** What an applied transaction did. *)
Record applied tx (r : TER) w w' : Prop := {
  ap_sequence : sequenced tx (entries_of w) (entries_of w');
  ap_coins : mTotCoins (lgr w') = mTotCoins (lgr w) - fee_of tx;
  ap_fee : 0 <= fee_of tx;
  ap_map : exists md, mTransactionMap (lgr w') = <[getTransactionID tx := (tx, Some md)]> (mTransactionMap (lgr w)) /\ mResult md = r }.

(** A table to be written back. *)
Definition due tx w w2 : Prop :=
  ok ∅ (tbl w2) /\ lgr w2 = lgr w /\ mLedger (les (tbl w2)) = mLedger (les (tbl w)) /\ legal_balance (getTransactionFee tx) /\
  legal (mLedger (les (tbl w))) (view (tbl w2)) /\ coins (view (tbl w2)) = coins (entries_of w) - fee_of tx /\
  sequenced tx (entries_of w) (view (tbl w2)).

Lemma spent_sequenced tx t m m' : proper_sequence tx -> sequenced tx m m' -> spent t m -> spent t m'.
Proof.
  intros Hq [(x & Hx & Hs) H] (y & Hy & Hty & Hl). destruct (H _ y Hy Hty) as (z & Hz & Htz & Ez). exists z. split_and!; [done|done|].
  rewrite Ez. case_decide as E; [|done]. rewrite E in Hy. rewrite Hx in Hy. injection Hy as <-. rewrite u32_id; unfold proper_sequence in Hq; lia.
Qed.

Lemma sequenced_spends tx l m m' : legal l m -> proper_sequence tx -> sequenced tx m m' -> spent tx m'.
Proof.
  intros Hg Hq [(x & Hx & Hs) H]. destruct (H _ x Hx (lg_typed _ _ Hg _ _ Hx)) as (z & Hz & Htz & Ez). exists z. split_and!; [done|done|].
  rewrite Ez, decide_True, u32_id by (done || unfold proper_sequence in Hq; lia). lia.
Qed.

(** Such a transaction is not in the ledger yet. *)
Lemma due_new tx w w2 : sound w -> named tx w -> due tx w w2 -> mTransactionMap (lgr w2) !! getTransactionID tx = None.
Proof.
  intros Hs Hn (_ & -> & _ & _ & _ & _ & [(x & Hx & Hq) _]). destruct (mTransactionMap (lgr w) !! getTransactionID tx) as [[t md]|] eqn:E; [|done].
  destruct (sd_past _ Hs _ _ _ E) as (y & Hy & _ & Hl). rewrite (Hn t md E) in Hy, Hl. rewrite Hx in Hy. injection Hy as <-. lia.
Qed.

Lemma due_recorded tx r w w2 w' : sound w -> proper_sequence tx -> due tx w w2 -> in_ledger tx r w2 w' -> sound w' /\ applied tx r w w'.
Proof.
  intros [[Hl Hg Hr0 Hbf Hbd] Ht Hpast] Hq (Hok & Hlg & Hled & [Hfee Hf0] & Hg2 & Hc & Hsq) [He Hi Hfs Hco Hm]. rewrite Hlg in Hco, Hm. rewrite Hled in Hfs.
  pose proof (rethreaded_coins _ _ He) as Hc'. pose proof (legal_rethreaded _ _ _ He Hg2) as Hg'.
  assert (H0 : 0 <= coins (entries_of w')) by (apply coins_nonneg; intros j y; by eapply legal_value).
  destruct (legal_drops (getTransactionFee tx)) as [Ed _]; [done|]. unfold cMaxNativeN in Hbd. rewrite <- Ed, u64_id in Hco by lia.
  pose proof (sequenced_then _ _ _ _ Hsq (rethreaded_sequences _ _ He)) as Hsq'. split; [split|by split].
  - split; [done|by eapply legal_fees|by eapply reserve_fees|by destruct Hfs as (-> & _)|unfold cMaxNativeN; lia].
  - lia.
  - destruct Hm as (md & -> & _). intros id t md' [[<- [= <- <-]]|[Hne Hid]]%lookup_insert_Some; [exact (sequenced_spends _ _ _ _ Hg Hq Hsq')|].
    eapply spent_sequenced; [done|done|by eapply Hpast].
Qed.


(** A transaction whose [doApply] succeeded, and one whose fee is claimed. *)
Lemma started_due tx w w1 w2 : sound w -> legal_balance (getTransactionFee tx) -> started tx w w1 -> closes w1 w2 ->
  lgr w2 = lgr w -> mLedger (les (tbl w2)) = mLedger (les (tbl w)) -> due tx w w2.
Proof.
  intros [[_ Hg _ _ _] _ _] Hf (_ & Hled & p & x & y & Hrd & Hx & Hv & Hlike & Hqx & Hqy & Hd) [Hok Hg2 Hc Hs] Hlg2 Hled2.
  destruct (legal_at _ _ _ x Hg Hx) as (Htx & _). pose proof Hlike as (_ & Hty & _).
  destruct (charge_legal _ _ _ x y Hg Hx Hlike) as [_ Hcy].
  { apply (lg_root _ _ (rd_legal _ _ _ _ Hrd) (src_root tx)); [by rewrite Hv, lookup_insert_eq|congruence]. }
  rewrite Hv, Hcy, Hd in Hc. rewrite Hled in Hg2. unfold due. split_and!; [done|done|done|done|done|lia|].
  eapply sequenced_then; [|exact Hs]. rewrite Hv. apply (sequenced_insert tx _ x); [done|congruence|done|done].
Qed.

Lemma charged_due tx w w2 : sound w -> legal_balance (getTransactionFee tx) -> charged tx (entries_of w) (tbl w2) ->
  lgr w2 = lgr w -> mLedger (les (tbl w2)) = mLedger (les (tbl w)) -> due tx w w2.
Proof.
  intros [[_ Hg _ _ _] _ _] Hf (Hok & x & rest & Hx & Hq & Hv & Hr & Hd) Hlg2 Hled2. destruct (legal_at _ _ _ x Hg Hx) as (Htx & _).
  assert (Hlike : like x (charged_root tx rest x)) by (unfold charged_root; eapply like_trans; by apply like_set).
  assert (Hb : balance (charged_root tx rest x) = rest) by (unfold getFieldAmount; cbn; by rewrite lookup_insert_ne, lookup_insert_eq by done).
  destruct (charge_legal _ _ _ x (charged_root tx rest x) Hg Hx Hlike) as [Hg2 Hc2]; [by rewrite Hb|]. rewrite Hb in Hc2.
  unfold due. rewrite Hv. split_and!; [done|done|done|done|done|lia|].
  apply (sequenced_insert tx _ x); [done|done|done|]. unfold getFieldU32. cbn. by rewrite lookup_insert_eq.
Qed.

(** What one call of the engine leaves. *)
Definition step_of tx w (rb : TER * bool) w' : Prop :=
  sound w' /\ if rb.2 then applied tx rb.1 w w' else entries_of w' = entries_of w /\ lgr w' = lgr w.

Lemma cleared_step tx w rb w' : step_of tx w rb w' -> step_of tx w rb (set_tbl (set_les (clear_les (les (tbl w'))) (tbl w')) w').
Proof.
  intros [[Hb Ht Hp] Ha]. split; [by split|]. destruct rb.2; [|done]. by destruct Ha as [[] ? ? ?].
Qed.

Lemma recorded_step tx params r w w2 : sound w -> proper_sequence tx -> named tx w -> is_bit_set params tapOPEN_LEDGER = false -> due tx w w2 ->
  wpe (record_transaction tx params r) w2 (step_of tx w).
Proof.
  intros Hs Hq Hn Hp Hd. pose proof (due_new tx w w2 Hs Hn Hd) as Hnew. pose proof Hd as (Hok & _ & _ & [(_ & Hnat & _) _] & _).
  eapply wpe_mono; [by apply record_closed|]. intros rb w' [-> Hil]. by apply (due_recorded tx r w w2 w').
Qed.

Lemma refused_step tx r w w' : sound w -> lgr w' = lgr w -> mLedger (les (tbl w')) = mLedger (les (tbl w)) -> step_of tx w (r, false) w'.
Proof. intros [Hb Ht Hp] Hlg Hl. unfold step_of. cbn. rewrite Hl. split; [split; rewrite ?Hl, ?Hlg; done|done]. Qed.

Lemma applyTransaction_ok tx params v d f w : sound w -> named tx w -> proper_fee tx -> proper_sequence tx ->
  is_bit_set params tapOPEN_LEDGER = false -> ordinary_transactor tx params v d f -> Lawful tx d -> Quiet f -> TransactorFixes v ->
  wpe (applyTransaction true tx params (Some v)) w (step_of tx w).
Proof.
  intros Hs Hn Hf Hq Hp Hv Hd Hqf Hfx. unfold applyTransaction. apply wpe_bind, wpe_lift, wpe_modifies, wpe_bind, wpe_modifies.
  set (w0 := set_mem _ _). assert (Hs0 : sound w0) by (destruct Hs; by split). assert (Hn0 : named tx w0) by done.
  assert (Hback : forall rb w', step_of tx w0 rb w' -> step_of tx w rb w').
  { intros [r []] w' [H1 H2]; (split; [exact H1|]); [by destruct H2 as [[] ? ? ?]|exact H2]. }
  destruct (SHAMapNode.isZero _); [apply wpe_ret, Hback, refused_step; done|]. apply wpe_bind.
  destruct (proj1 (wpe_elim _ _ _) (apply_ok tx params v d f w0 eq_refl (sd_books _ Hs0) Hf Hp Hv Hd Hqf)) as (r & w1 & Erun & Hlg & Hcase).
  pose proof (apply_fixes recorded true params v Hfx w0) as Hfix. rewrite Erun in Hfix. injection Hfix as Hled _.
  unfold wpe at 1. rewrite Erun. apply wpe_bind.
  assert (Hfinal : forall rb w', step_of tx w0 rb w' -> wpe ('(r, b) ← mret rb; _ ← clear_table; mret (r, b)) w' (step_of tx w)).
  { intros [r' b] w' H. apply wpe_bind, wpe_ret, wpe_bind. unfold clear_table. apply wpe_lift, wpe_modifies, wpe_ret, Hback. by apply cleared_step. }
  assert (Hnot : forall r', wpe (mret (r', false)) w1 (fun '(r, b) w' => wpe ('(r, b) ← (if (b : bool) then record_transaction tx params r else mret (r, false)); _ ← clear_table; mret (r, b)) w' (step_of tx w))).
  { intros r'. apply wpe_ret. by apply (Hfinal (r', false)), refused_step. }
  assert (Hrec : forall r' w2, due tx w0 w2 -> wpe ('(r, b) ← record_transaction tx params r'; _ ← clear_table; mret (r, b)) w2 (step_of tx w)).
  { intros r' w2 Hdue. apply wpe_bind. eapply wpe_mono; [by apply (recorded_step tx params r' w0)|]. intros rb w' Hst. by apply (Hfinal rb w') in Hst. }
  unfold isTesSuccess. destruct (Z.eqb_spec r tesSUCCESS) as [->|Hne].
  - apply wpe_ret. apply Hrec. destruct Hcase as [[[] _]|[Hlf Hst]]; [done|]. destruct (Hst eq_refl) as (w2 & Hst2 & Hcl). by apply (started_due tx w0 w2 w1).
  - destruct (isTecClaim r && negb (is_bit_set params tapRETRY)) eqn:Hc; [|apply Hnot]. apply andb_prop in Hc as [Hc _].
    destruct Hcase as [[_ Hr]|[Hlf _]]; [congruence|]. pose proof (sd_books _ Hs0) as [Hl Hg _ _ _].
    eapply wpe_mono; [apply (claim_ok tx r (mLedger (les (tbl w0))) w1); [by rewrite Hled|by rewrite Hled|done]|].
    intros [r' b] w2 (Hlg2 & Hled2 & Hch & _). cbn in Hch. rewrite Hled in Hch, Hled2. destruct b.
    + destruct (Hch eq_refl) as [-> Hcd]. apply Hrec. apply charged_due; [done|done|done|by rewrite Hlg2|exact Hled2].
    + apply (Hfinal (r', false)), refused_step; [done|by rewrite Hlg2|exact Hled2].
Qed.


(** ** Native payments *)

Abbreviation amount_of tx := (txAmount sfAmount tx).
Abbreviation destination tx := (txAccount sfDestination tx).

(** A payment of native coins, without paths or a maximum. *)
Record direct tx : Prop := {
  dp_type : getTxnType tx = ttPAYMENT;
  dp_paths : txPaths tx = None;
  dp_max : txPresent sfSendMax tx = false;
  dp_native : mIsNative (amount_of tx) = true;
  dp_amount : canonical (amount_of tx) /\ unsigned_zero (amount_of tx);
  dp_source : wf_account (getSourceAccount tx);
  dp_destination : wf_account (destination tx) }.

Lemma malformed_failed tx a max r : payment_malformed tx a max = Some r -> r <> tesSUCCESS.
Proof. unfold payment_malformed. intros H ->. repeat (case_match; [discriminate H|]). discriminate H. Qed.

(** What the checks of the payment leave to know. *)
Lemma direct_checked tx : direct tx -> payment_malformed tx (getSourceAccount tx) (amount_of tx) = None ->
  legal_balance (amount_of tx) /\ root_of (destination tx) <> src_root tx.
Proof.
  intros [_ Hp Hm Hn [Hc Hu] Hs Hd] H. unfold payment_malformed in H. rewrite Hp, Hm in H. cbn [andb negb orb] in H.
  destruct (isLegalNet (amount_of tx)) eqn:Hl; [|discriminate H]. cbn [negb orb] in H. destruct (is_bit_set _ tfPaymentMask); [discriminate H|].
  destruct (BaseUint.isZero (destination tx)); [discriminate H|]. destruct (positive (amount_of tx)) eqn:Hpos; [|discriminate H].
  cbn [negb] in H. destruct (_ || _); [discriminate H|]. split.
  - split; [done|]. unfold positive, signum in Hpos. destruct Hc as (_ & _ & _ & Hr). rewrite Hn in Hr. unfold drops.
    destruct (mValue (amount_of tx) =? 0); [done|]. destruct (mIsNegative _); [done|lia].
  - intros E. apply root_inj in E; [|done|done]. rewrite E in H. unfold BaseUint.eqb, BaseUint.compare in H. by rewrite !mismatch_refl in H.
Qed.

Lemma plus_ok a v : legal_balance a -> 0 <= v <= cMaxNativeN ->
  exists n, plus_u64 a v = Ok n /\ canonical n /\ mIsNative n = true /\ unsigned_zero n /\ drops n = drops a + v.
Proof.
  intros Ha Hv. destruct (legal_drops a Ha) as [Ed Hmax]. destruct Ha as ((Hc & Hn & _ & Hu) & H0). unfold cMaxNativeN in *.
  unfold plus_u64. rewrite getSNValue_drops; [|done|unfold cMaxNative; lia]. cbn [mbind result_bind mret result_ret]. rewrite (i64_id v), i64_id by lia.
  destruct (mk_native_i64_spec (drops a + v)) as [-> _]; [unfold cMaxNative; lia|].
  destruct (mk_native_i64_canonical (drops a + v)) as (? & ? & ?); [unfold cMaxNative; lia|]. by eexists.
Qed.

(** A state with the account roots of sender and receiver in hand and marked. *)
Record paying tx w w' p x q y : Prop := {
  pg_lgr : lgr w' = lgr w;
  pg_mem : mem w' = mem w;
  pg_ledger : mLedger (les (tbl w')) = mLedger (les (tbl w));
  pg_owns : owns ∅ w' p (src_root tx) x;
  pg_holds : holds (tbl w') q (root_of (destination tx)) y;
  pg_touched : touched (tbl w') (src_root tx) /\ touched (tbl w') (root_of (destination tx));
  pg_legal : legal (mLedger (les (tbl w))) (view (tbl w'));
  pg_coins : coins (view (tbl w')) = coins (view (tbl w));
  pg_sequences : same_sequences (view (tbl w)) (view (tbl w')) }.

Definition new_account (a : Account) : SLE :=
  setFieldU32 sfSequence 1 (setFieldAccount sfAccount a (new_SLE ltACCOUNT_ROOT (root_of a))).

Lemma new_account_fields a : balance (new_account a) = no_amount /\ owner_count (new_account a) = 0 /\ value (new_account a) = 0.
Proof.
  assert (E : balance (new_account a) = no_amount) by (unfold getFieldAmount; cbn; by rewrite !lookup_insert_ne by done).
  split_and!; [done| |].
  - unfold getFieldU32. cbn. by rewrite !lookup_insert_ne by done.
  - unfold value. by rewrite E, decide_True by done.
Qed.

Lemma destination_ok tx w p x : ready tx w p x -> direct tx -> legal_balance (amount_of tx) -> root_of (destination tx) <> src_root tx ->
  wpe (payment_destination tx) w (fun d w' => match d with
    | inr r => lgr w' = lgr w /\ r <> tesSUCCESS
    | inl q => exists y, paying tx w w' p x q y
    end).
Proof.
  intros Hrd Hdp Hamt Hne. pose proof (rd_owns _ _ _ _ Hrd) as [Hok Hh Ha]. pose proof (rd_legal _ _ _ _ Hrd) as Hg. pose proof (rd_touched _ _ _ _ Hrd) as Ht.
  unfold payment_destination. apply wpe_bind, wpe_lift. apply (entryCache_ok ∅); [done|apply root_nonzero| |].
  - intros s1 Hok1 Hk1 Hnone. rewrite (dp_native _ Hdp). cbn [negb]. apply wpe_bind. eapply wpe_pure; [unfold getNValue; by rewrite (dp_native _ Hdp)|].
    apply wpe_bind. unfold reserve, ledger. apply wpe_bind, wpe_reads. destruct (rd_base _ _ _ _ Hrd) as (v & Ev & Hv). cbn [set_tbl tbl].
    rewrite (kp_ledger _ _ Hk1). eapply wpe_pure; [exact Ev|]. destruct (_ <? v); [by apply wpe_ret|].
    apply wpe_bind, wpe_lift. eapply (entryCreate_ok ∅); [done|cbn; by rewrite (kp_view _ _ Hk1)|]. intros q s2 Hok2 Hv2 Hh2 Ht2 Hs2.
    apply wpe_bind, wpe_lift. eapply (edit_ok ∅); [done|done|done|done|]. intros s3 Hok3 Hv3 Hh3 Ht3 Hs3. apply wpe_ret. exists (new_account (destination tx)).
    cbn [set_tbl tbl] in *. rewrite (kp_view _ _ Hk1) in Hv2. rewrite Hv2, <- (insert_alter _ _ _ (new_SLE ltACCOUNT_ROOT (root_of (destination tx)))), insert_insert_eq in Hv3
      by apply lookup_insert_eq. fold (new_account (destination tx)) in Hv3, Hh3. destruct (new_account_fields (destination tx)) as (Eb & Eo & Ev0).
    split; cbn [set_tbl tbl lgr mem]; rewrite ?Hv3; try done.
    + by rewrite (st_ledger _ _ _ Hs3), (st_ledger _ _ _ Hs2), (kp_ledger _ _ Hk1).
    + split; [done| |done]. apply (st_holds _ _ _ Hs3); [done|]. apply (st_holds _ _ _ Hs2); [done|]. by apply (kp_holds _ _ Hk1).
    + split; [|done]. apply (st_touched _ _ _ Hs3); [done|]. apply (st_touched _ _ _ Hs2); [done|]. by apply (kp_touched _ _ Hk1).
    + apply legal_insert; [done|done|]. split; [rewrite Eb; split; [by_decide|done]|rewrite Eo; apply Hrd].
    + rewrite coins_new by done. rewrite Ev0. lia.
    + by apply new_sequences.
  - intros q y s1 Hok1 Hk1 Hy Hq. apply wpe_bind, wpe_lift. eapply holds_field; [done|]. destruct (_ && _); [by apply wpe_ret|].
    apply wpe_bind, wpe_lift. eapply (entryModify_ok ∅); [done|done|]. intros s2 Hok2 Hv2 Hh2 Ht2 Hs2. apply wpe_ret. exists y.
    cbn [set_tbl tbl] in *. rewrite (kp_view _ _ Hk1) in Hv2. split; cbn [set_tbl tbl lgr mem]; rewrite ?Hv2; try done.
    + by rewrite (st_ledger _ _ _ Hs2), (kp_ledger _ _ Hk1).
    + split; [eapply ok_weaken, Hok2; set_solver| |done]. apply (st_holds _ _ _ Hs2); [done|]. by apply (kp_holds _ _ Hk1).
    + split; [|done]. apply (st_touched _ _ _ Hs2); [done|]. by apply (kp_touched _ _ Hk1).
    + apply same_sequences_refl.
Qed.


(** Another balance in an account root. *)
Lemma set_balance_fields (b : STAmount) x : balance (setFieldAmount sfBalance b x) = b /\ sequence (setFieldAmount sfBalance b x) = sequence x /\ like x (setFieldAmount sfBalance b x).
Proof. split_and!; [..|by apply like_set]; unfold getFieldAmount, getFieldU32; cbn; by rewrite ?lookup_insert_eq, ?lookup_insert_ne by done. Qed.

Lemma clear_flag_fields f x : balance (clearFlag f x) = balance x /\ sequence (clearFlag f x) = sequence x /\ like x (clearFlag f x).
Proof. split_and!; [..|by apply like_set]; unfold getFieldAmount, getFieldU32; cbn; by rewrite ?lookup_insert_ne by done. Qed.

(** Writing an account root that is like the one there. *)
Lemma like_closes l m a x y : legal l m -> m !! root_of a = Some x -> like x y -> sequence y = sequence x -> legal_balance (balance y) ->
  legal l (<[root_of a := y]> m) /\ coins (<[root_of a := y]> m) = coins m - drops (balance x) + drops (balance y) /\
  same_sequences m (<[root_of a := y]> m).
Proof.
  intros Hg Hx Hl Hs Hb. destruct (charge_legal l m a x y Hg Hx Hl Hb) as [H1 H2]. split_and!; [done|done|].
  by apply (insert_sequences m _ x); [|apply Hl|].
Qed.

Lemma direct_payment_ok tx w w1 p x q y : ready tx w p x -> direct tx -> legal_balance (amount_of tx) -> root_of (destination tx) <> src_root tx ->
  paying tx w w1 p x q y -> wpe (direct_payment tx q) w1 (fun r w' => lgr w' = lgr w /\ (r = tesSUCCESS -> closes w w')).
Proof.
  intros Hrd Hdp Hamt Hne [Hlg Hmem Hled Ho Hq [Ht1 Ht2] Hg Hc Hs]. pose proof (rd_bound _ _ _ _ Hrd) as Hbd. pose proof (rd_prior _ _ _ _ Hrd) as [Hpr Hpd].
  pose proof (rd_fee _ _ _ _ Hrd) as Hfee. pose proof (rd_source _ _ _ _ Hrd) as Hsrc. pose proof (holds_view _ _ _ _ (ow_holds _ _ _ _ _ Ho)) as Hx. pose proof (holds_view _ _ _ _ Hq) as Hy.
  destruct (legal_at _ _ _ x Hg Hx) as (Htx & [Hbx (v & Ev & Hv)] & _ & _). unfold direct_payment. apply wpe_bind. eapply account_field_ok; [done|].
  apply wpe_bind. unfold reserve, ledger. apply wpe_bind, wpe_reads. rewrite Hled. eapply wpe_pure; [exact Ev|].
  apply wpe_bind. eapply wpe_pure; [unfold getNValue; by rewrite (proj1 (proj2 (proj1 Hfee)))|].
  destruct (legal_drops _ Hfee) as [Efee Hfmax]. pose proof (proj2 Hfee) as Hf0.
  destruct (plus_ok (amount_of tx) (v `max` mValue (getTransactionFee tx)) Hamt) as (n & En & Cn & Nn & Un & Dn); [lia|]. apply wpe_bind. eapply wpe_pure; [exact En|].
  apply wpe_bind, wpe_reads, wpe_bind. rewrite Hmem. pose proof Hpr as ((Cp & Np & _ & Up) & _). eapply wpe_pure; [by apply TrustLaws.canonical_ltb|].
  destruct (Z.ltb_spec (drops (mPriorBalance (mem w))) (drops n)) as [|Hge]; [by apply wpe_ret|]. rewrite Hsrc.
  destruct (legal_sub (balance x) (amount_of tx) Hbx Hamt) as (rest & Er & Hrl & Hrd'); [lia|]. apply wpe_bind. eapply wpe_pure; [exact Er|].
  apply wpe_bind. eapply set_account_ok; [done|done|by left|]. intros s2 Ho2 Hv2 Hs2 Ht2'. destruct (set_balance_fields rest x) as (Eb1 & Es1 & Hl1).
  destruct (like_closes _ _ _ x _ Hg Hx Hl1 Es1) as (Hg2 & Hc2 & Hsq2); [by rewrite Eb1|]. rewrite <- Hv2 in Hg2, Hc2, Hsq2.
  assert (Hq2 : holds s2 q (root_of (destination tx)) y) by by apply (st_holds _ _ _ Hs2). pose proof (holds_view _ _ _ _ Hq2) as Hy2.
  assert (Htq2 : touched s2 (root_of (destination tx))) by by apply (st_touched _ _ _ Hs2).
  destruct (legal_at _ _ _ y Hg2 Hy2) as (Hty & [Hby _] & _ & Hyc). rewrite Eb1 in Hc2.
  apply wpe_bind, wpe_lift. eapply holds_field; [exact Hq2|]. destruct (legal_add (balance y) (amount_of tx) Hby Hamt) as (total & Et & Htl & Htd).
  { rewrite Hc2 in Hyc. lia. }
  apply wpe_bind. eapply wpe_pure; [exact Et|]. apply wpe_bind, wpe_lift. eapply (edit_ok ∅); [apply Ho2|exact Hq2|exact Htq2|done|].
  intros s3 Hok3 Hv3 Hh3 Ht3 Hs3. cbn [set_tbl tbl] in *. rewrite <- (insert_alter _ _ _ y Hy2) in Hv3. destruct (set_balance_fields total y) as (Eb2 & Es2 & Hl2).
  destruct (like_closes _ _ _ y _ Hg2 Hy2 Hl2 Es2) as (Hg3 & Hc3 & Hsq3); [by rewrite Eb2|]. rewrite <- Hv3 in Hg3, Hc3, Hsq3. rewrite Eb2 in Hc3.
  apply wpe_bind, wpe_lift. eapply holds_field; [exact Hh3|]. apply wpe_bind. destruct (_ && _).
  - apply wpe_lift. eapply (edit_ok ∅); [exact Hok3|exact Hh3|exact Ht3|done|]. intros s4 Hok4 Hv4 Hh4 Ht4 Hs4. apply wpe_ret. split; [done|]. intros _.
    cbn [set_tbl tbl] in *. rewrite <- (insert_alter _ _ _ _ (holds_view _ _ _ _ Hh3)) in Hv4.
    destruct (clear_flag_fields lsfPasswordSpent (setFieldAmount sfBalance total y)) as (Eb3 & Es3 & Hl3).
    destruct (like_closes _ _ _ _ _ Hg3 (holds_view _ _ _ _ Hh3) Hl3 Es3) as (Hg4 & Hc4 & Hsq4); [by rewrite Eb3, Eb2|]. rewrite <- Hv4 in Hg4, Hc4, Hsq4. rewrite Eb3, Eb2 in Hc4.
    split; cbn [set_tbl tbl]; [done|done|lia|]. eapply same_sequences_trans; [exact Hs|]. eapply same_sequences_trans; [exact Hsq2|]. by eapply same_sequences_trans.
  - apply wpe_ret, wpe_ret. split; [done|]. intros _. split; cbn [set_tbl tbl]; [done|done|lia|].
    eapply same_sequences_trans; [exact Hs|]. by eapply same_sequences_trans.
Qed.


Lemma payment_lawful tx params : direct tx -> Lawful tx (payment_apply tx params).
Proof.
  intros Hdp w p x Hrd. pose proof Hdp as [_ Hpa Hm Hn _ _ _]. unfold payment_apply. rewrite Hm, Hn, Hpa. apply wpe_bind, wpe_reads, wpe_bind, wpe_ret.
  rewrite (rd_id _ _ _ _ Hrd). destruct (payment_malformed tx _ _) as [r|] eqn:E.
  - apply wpe_ret. split; [done|]. intros ->. by apply malformed_failed in E.
  - destruct (direct_checked tx Hdp E) as [Hamt Hne]. apply wpe_bind. eapply wpe_mono; [by apply destination_ok|]. intros [q|r] w1 H.
    + destruct H as (y & Hpg). cbn [orb negb]. by eapply direct_payment_ok.
    + destruct H as [Hlg Hr]. by apply wpe_ret.
Qed.

(** ** Account settings and regular keys *)

(** An account root keeps its place, its balance and its sequence number. *)
Definition harmless (f : SLE -> SLE) : Prop := forall x, like x (f x) /\ balance (f x) = balance x /\ sequence (f x) = sequence x.

Lemma harmless_set f v : f <> sfOwnerCount -> f <> sfBalance -> f <> sfSequence -> harmless (setField f v).
Proof.
  intros H1 H2 H3 x. split; [by apply like_set|]. unfold getFieldAmount, getFieldU32. cbn. by rewrite !lookup_insert_ne by done.
Qed.

Lemma harmless_absent f : f <> sfOwnerCount -> f <> sfBalance -> f <> sfSequence -> harmless (makeFieldAbsent f).
Proof. intros H1 H2 H3 x. unfold like, getFieldAmount, getFieldU32. cbn. by rewrite !lookup_delete_ne by done. Qed.

Lemma harmless_flag f : harmless (setFlag f).
Proof. intros x. by apply (harmless_set sfFlags (STUInt32 (Z.lor (getFieldU32 sfFlags x) f))). Qed.

(** The account root may have been changed in this way since [doApply] started. *)
Definition settings tx w w' : Prop :=
  lgr w' = lgr w /\ mem w' = mem w /\ mLedger (les (tbl w')) = mLedger (les (tbl w)) /\
  exists p x, owns ∅ w' p (src_root tx) x /\ touched (tbl w') (src_root tx) /\ legal_balance (balance x) /\
    legal (mLedger (les (tbl w))) (view (tbl w')) /\ coins (view (tbl w')) = coins (view (tbl w)) /\ same_sequences (view (tbl w)) (view (tbl w')).

Lemma ready_settings tx w p x : ready tx w p x -> settings tx w w.
Proof.
  intros Hrd. split_and!; [done..|]. exists p, x. pose proof (rd_owns _ _ _ _ Hrd) as Ho. pose proof (rd_legal _ _ _ _ Hrd) as Hg.
  destruct (legal_at _ _ _ x Hg (holds_view _ _ _ _ (ow_holds _ _ _ _ _ Ho))) as (_ & [Hb _] & _ & _).
  split_and!; [done|apply Hrd|done|done|done|apply same_sequences_refl].
Qed.

Lemma settings_close tx w w' : settings tx w w' -> closes w w'.
Proof. intros (_ & _ & _ & p & x & Ho & _ & _ & Hg & Hc & Hs). split; [apply Ho|done..]. Qed.

Lemma settings_set tx f w w' (Q : unit -> TxState -> Prop) : settings tx w w' -> harmless f -> (forall w2, settings tx w w2 -> Q tt w2) -> wpe (set_account f) w' Q.
Proof.
  intros (Hlg & Hm & Hl & p & x & Ho & Ht & Hb & Hg & Hc & Hs) Hf HQ. destruct (Hf x) as (Hlike & Hbf & Hsf).
  eapply set_account_ok; [done|apply Hlike|by left|]. intros s2 Ho2 Hv2 Hs2 Ht2. apply HQ. pose proof (holds_view _ _ _ _ (ow_holds _ _ _ _ _ Ho)) as Hx.
  destruct (like_closes _ _ _ x (f x) Hg Hx Hlike Hsf) as (Hg2 & Hc2 & Hsq2); [by rewrite Hbf|]. rewrite <- Hv2 in Hg2, Hc2, Hsq2. rewrite Hbf in Hc2.
  split_and!; [done|done|cbn; by rewrite (st_ledger _ _ _ Hs2)|]. exists p, (f x). cbn [set_tbl tbl].
  split_and!; [done|auto|by rewrite Hbf|done|lia|by eapply same_sequences_trans].
Qed.

Lemma settings_field {A} tx (get : SLE -> A) w w' (Q : A -> TxState -> Prop) : settings tx w w' -> (forall a, Q a w') -> wpe (account_field get) w' Q.
Proof. intros (_ & _ & _ & p & x & Ho & _) HQ. eapply account_field_ok; [done|]. apply HQ. Qed.

(** Reading the table. *)
Lemma settings_keeps tx w w' s : settings tx w w' -> ok ∅ s -> keeps (tbl w') s -> settings tx w (set_tbl s w').
Proof.
  intros (Hlg & Hm & Hl & p & x & Ho & Ht & Hb & Hg & Hc & Hs) Hok Hk. split_and!; [done|done|cbn; by rewrite (kp_ledger _ _ Hk)|]. exists p, x. cbn [set_tbl tbl].
  rewrite (kp_view _ _ Hk). split_and!; [|by apply (kp_touched _ _ Hk)|done..]. split; [done|apply (kp_holds _ _ Hk), Ho|apply Ho].
Qed.


(** A computation that changes settings only. *)
Definition sets tx {A} (c : T A) : Prop := forall w w', settings tx w w' -> wpe c w' (fun _ w2 => settings tx w w2).

Lemma sets_lawful tx (d : T TER) : sets tx d -> Lawful tx d.
Proof.
  intros Hd w p x Hrd. eapply wpe_mono; [apply (Hd w w); by eapply ready_settings|]. intros r w' Hs. split; [apply Hs|]. intros _. by apply settings_close in Hs.
Qed.

Lemma sets_ret tx {A} (a : A) : sets tx (mret a).
Proof. intros w w' H. by apply wpe_ret. Qed.
Lemma sets_bind tx {A B} (c : T A) (k : A -> T B) : sets tx c -> (forall a, sets tx (k a)) -> sets tx (c ≫= k).
Proof. intros Hc Hk w w' H. apply wpe_bind. eapply wpe_mono; [by apply Hc|]. intros a w2 H2. by apply Hk. Qed.
Lemma sets_reads tx {A} (f : TxState -> A) : sets tx (reads f).
Proof. intros w w' H. by apply wpe_reads. Qed.
Lemma sets_field tx {A} (get : SLE -> A) : sets tx (account_field get).
Proof. intros w w' H. by eapply settings_field. Qed.
Lemma sets_set tx f : harmless f -> sets tx (set_account f).
Proof. intros Hf w w' H. by eapply settings_set. Qed.
Lemma sets_unless tx (c d : T TER) : sets tx c -> sets tx d -> sets tx (unless_failed c d).
Proof. intros Hc Hd. unfold unless_failed. apply sets_bind; [done|]. intros r. destruct (negb _); [apply sets_ret|done]. Qed.

Lemma sets_dirIsEmpty tx root : sets tx (lift (dirIsEmpty root)).
Proof.
  intros w w' H. apply wpe_lift. unfold dirIsEmpty. apply wpe_bind. pose proof H as (_ & _ & _ & p & x & Ho & _).
  apply (entryCache_any ∅); [apply Ho|]. intros o s Hok Hk Hh. destruct o as [q|].
  - destruct (Hh q eq_refl) as [y Hy]. apply wpe_bind. eapply holds_field; [done|]. apply wpe_bind. eapply holds_field; [done|]. apply wpe_ret. by apply settings_keeps.
  - apply wpe_ret. by apply settings_keeps.
Qed.

Ltac sets_step :=
  match goal with
  | |- sets _ (unless_failed _ _) => apply sets_unless
  | |- sets _ (mbind _ _) => apply sets_bind; [|intros ?]
  | |- sets _ (mret _) => apply sets_ret
  | |- sets _ (reads _) => apply sets_reads
  | |- sets _ ledger => apply sets_reads
  | |- sets _ (account_field _) => apply sets_field
  | |- sets _ (lift (dirIsEmpty _)) => apply sets_dirIsEmpty
  | |- sets _ (set_account (makeFieldAbsent _)) => by apply sets_set, harmless_absent
  | |- sets _ (set_account (setFlag _)) => apply sets_set, harmless_flag
  | |- sets _ (set_account _) => by apply sets_set, harmless_set
  | |- sets _ (let _ := _ in _) => cbv zeta
  | |- sets _ (match ?x with _ => _ end) => destruct x
  end.

Lemma setaccount_lawful tx params : Lawful tx (setaccount_apply tx params).
Proof. apply sets_lawful. unfold setaccount_apply, set_inflation_dest, set_auth_key, set_transfer_rate, hasAccount. repeat sets_step. Qed.

Lemma regularkey_lawful tx : Lawful tx (regularkey_apply tx).
Proof. apply sets_lawful. unfold regularkey_apply. repeat sets_step. Qed.

Lemma baseFee_quiet : Quiet base_calculateBaseFee.
Proof. intros w _. by apply wpe_ret. Qed.

Lemma regularkey_baseFee_quiet tx : Quiet (regularkey_baseFee tx).
Proof.
  intros w Hp. unfold regularkey_baseFee. apply wpe_bind, wpe_reads, wpe_bind, wpe_reads. destruct (mTxnAccount (mem w)) as [p|]; [|by apply wpe_ret].
  destruct (Hp p eq_refl) as [x Hx]. apply wpe_bind, wpe_lift. eapply field_ok; [done|]. rewrite set_tbl_same. by destruct (_ && _); apply wpe_ret.
Qed.

(** ** Histories *)

(** The transactions of this file. *)
Record ordinary tx : Prop := {
  od_type : direct tx \/ getTxnType tx = ttACCOUNT_SET \/ getTxnType tx = ttREGULAR_KEY_SET;
  od_fee : proper_fee tx;
  od_sequence : proper_sequence tx }.

Lemma engine_step `{PF : !PathsFix} tx params w : sound w -> named tx w -> ordinary tx -> is_bit_set params tapOPEN_LEDGER = false ->
  wpe (engine true tx params) w (step_of tx w).
Proof.
  intros Hs Hn [Hty Hf Hq] Hp. unfold engine, makeTransactor.
  assert (Hfx : forall v, makeTransactor true tx params = Some v -> TransactorFixes v) by apply makeTransactor_fixes. unfold makeTransactor in Hfx.
  destruct Hty as [Hd|[Hty|Hty]]; [pose proof (dp_type _ Hd) as Hty|..]; rewrite Hty in *.
  - eapply applyTransaction_ok; [done|done|done|done|done|reflexivity|by apply payment_lawful|apply baseFee_quiet|by apply Hfx].
  - eapply applyTransaction_ok; [done|done|done|done|done|reflexivity|apply setaccount_lawful|apply baseFee_quiet|by apply Hfx].
  - eapply applyTransaction_ok; [done|done|done|done|done|reflexivity|apply regularkey_lawful|apply regularkey_baseFee_quiet|by apply Hfx].
Qed.


(** Transactions applied one after the other: the results. *)
Fixpoint apply_all (params : Z) (txs : list SerializedTransaction) : T (list (TER * bool)) :=
  match txs with
  | [] => mret []
  | tx :: txs => r ← engine true tx params; rs ← apply_all params txs; mret (r :: rs)
  end.

(** The fees of those that were applied. *)
Fixpoint fees_paid (txs : list SerializedTransaction) (rs : list (TER * bool)) : Z :=
  match txs, rs with
  | tx :: txs, (_, b) :: rs => (if (b : bool) then fee_of tx else 0) + fees_paid txs rs
  | _, _ => 0
  end.

(** Identifiers name transactions, in the ledger and in the history. *)
Definition ids_ok w (txs : list SerializedTransaction) : Prop :=
  Forall (fun t => named t w) txs /\ forall t t', t ∈ txs -> t' ∈ txs -> getTransactionID t = getTransactionID t' -> t = t'.

Lemma named_step tx t w rb w' : step_of tx w rb w' -> named t w -> (getTransactionID t = getTransactionID tx -> t = tx) -> named t w'.
Proof.
  intros [_ Ha] Hn He u md. destruct rb as [r []]; cbn in Ha.
  - destruct (ap_map _ _ _ _ Ha) as (md' & -> & _). intros [[Hid [= <- <-]]|[_ Hu]]%lookup_insert_Some; [by rewrite He|by eapply Hn].
  - destruct Ha as [_ ->]. apply Hn.
Qed.

Lemma spent_step tx t w rb w' : proper_sequence tx -> step_of tx w rb w' -> spent t (entries_of w) -> spent t (entries_of w').
Proof.
  intros Hq [_ Ha]. destruct rb as [r []]; cbn in Ha; [|by destruct Ha as [-> _]]. by eapply spent_sequenced, ap_sequence.
Qed.

Lemma apply_all_ok `{PF : !PathsFix} params txs : forall w, sound w -> ids_ok w txs -> Forall ordinary txs -> is_bit_set params tapOPEN_LEDGER = false ->
  wpe (apply_all params txs) w (fun rs w' => sound w' /\ mTotCoins (lgr w') = mTotCoins (lgr w) - fees_paid txs rs /\
    (forall t, spent t (entries_of w) -> spent t (entries_of w')) /\
    (forall t, (forall t', t' ∈ txs -> getTransactionID t = getTransactionID t' -> t = t') -> named t w -> named t w')).
Proof.
  induction txs as [|tx txs IH]; intros w Hs [Hn He] Hod Hp; [apply wpe_ret; split_and!; [done|cbn; lia|done|done]|].
  apply Forall_cons in Hn as [Hn1 Hn], Hod as [Hod1 Hod]. cbn [apply_all]. apply wpe_bind. eapply wpe_mono; [by apply engine_step|].
  intros rb w1 Hst. pose proof Hst as [Hs1 Ha]. apply wpe_bind. eapply wpe_mono; [apply IH; [done| |done|done]|].
  { split; [|intros t t' Ht Ht'; apply He; by apply list_elem_of_further]. apply Forall_forall. intros t Ht. rewrite Forall_forall in Hn.
    eapply named_step; [done|by apply Hn|]. intros E. apply He; [by apply list_elem_of_further|apply list_elem_of_here|done]. }
  intros rs w2 (Hs2 & Hc2 & Hsp2 & Hn2). apply wpe_ret. split_and!; [done| | |].
  - cbn [fees_paid]. destruct rb as [r []]; cbn in Ha; [|destruct Ha as [_ Hlg]; rewrite Hc2, Hlg; lia]. pose proof (ap_coins _ _ _ _ Ha). lia.
  - intros t Ht. eapply Hsp2, spent_step; [apply Hod1|done|done].
  - intros t Ht Hnt. apply Hn2; [intros t' Ht'; apply Ht; by apply list_elem_of_further|]. eapply named_step; [done|done|]. apply Ht, list_elem_of_here.
Qed.
End Engine.

End EngineLaws.
