(* ===== verification/EngineClaims.v ===== *)
(** * What the engine guarantees: the claims

    Conservation of native coins, no replay, what a claimed fee costs; then the
    engine at work on a small ledger, where keys, digests and the server are
    concrete. *)
From Stdlib Require Import ZArith Lia.
From S2P Require Import Prelude BaseUint Serializer STAmount STAmountMath Book SHAMapNode Effects FeeTrack LedgerEntrySet LedgerLaws Directory TrustLines TrustLaws TxMeta MetaLaws TxEngine Transactors EngineFrame Supply EngineLaws.
From stdpp Require Import base numbers list gmap strings.
Import Effects LedgerEntrySet LedgerLaws TrustLines TxMeta MetaLaws TxEngine Transactors EngineFrame Supply EngineLaws.
Local Open Scope Z_scope.

Module EngineClaims.
Import STAmount.

Abbreviation entries_of w := (mAccountState (mLedger (les (tbl w)))).
Abbreviation src_root tx := (getAccountRootIndex (getSourceAccount tx)).
Abbreviation fee_of tx := (drops (getTransactionFee tx)).

(** C4: no coin is made or lost.  Native payments (to new accounts too), account
    settings and regular keys, applied one after the other to a closing ledger, in
    any order and of any accounts, valid or not: every call of the engine returns,
    and when all are done the balances of all account roots still add up to the
    coins the ledger says there are, which are fewer by exactly the fees of the
    transactions that were applied, those that only had their fee claimed
    included. *)
Theorem coins_conserved `{SHA : SHA512} `{K : Keys} `{App : Application} `{P : Paths} `{V : Votes}
    (params : Z) (txs : list SerializedTransaction) (w : TxState) :
  DistinctRoots -> PathsFix -> sound w -> ids_ok w txs -> Forall ordinary txs -> is_bit_set params tapOPEN_LEDGER = false ->
  wpe (apply_all params txs) w (fun rs w' =>
    coins (entries_of w') = mTotCoins (lgr w') /\ mTotCoins (lgr w') = mTotCoins (lgr w) - fees_paid txs rs).
Proof.
  intros DR PF Hs Hi Ho Hp. eapply wpe_mono; [by apply apply_all_ok|]. intros rs w' (Hs' & Hc & _). split; [apply Hs'|done].
Qed.

(** C8: a transaction is not applied twice.  Once the engine has applied a native
    payment, account setting or regular key, it does not apply it again, whatever
    transactions of these types come between: the sequence number of its account is
    past it.  (An account that is merged and made again starts at the beginning,
    [merged_replay].) *)
Theorem no_replay `{SHA : SHA512} `{K : Keys} `{App : Application} `{P : Paths} `{V : Votes}
    (params : Z) (tx : SerializedTransaction) (txs : list SerializedTransaction) (w : TxState) :
  DistinctRoots -> PathsFix -> sound w -> ids_ok w (tx :: txs) -> Forall ordinary (tx :: txs) -> is_bit_set params tapOPEN_LEDGER = false ->
  wpe (first ← engine true tx params; _ ← apply_all params txs; again ← engine true tx params; mret (first.2, again.2)) w (fun applied _ =>
    applied.1 = true -> applied.2 = false).
Proof.
  intros DR PF Hs [[Hn1 Hn]%Forall_cons He] [Ho1 Ho]%Forall_cons Hp. apply wpe_bind. eapply wpe_mono; [by apply engine_step|].
  intros rb w1 Hst. pose proof Hst as [Hs1 Ha].
  assert (Hn1' : named tx w1) by (by eapply named_step). assert (Hids : ids_ok w1 txs).
  { split; [|intros t t' Ht Ht'; apply He; by apply list_elem_of_further]. apply Forall_forall. intros t Ht. rewrite Forall_forall in Hn.
    eapply named_step; [done|by apply Hn|]. intros E. apply He; [by apply list_elem_of_further|apply list_elem_of_here|done]. }
  apply wpe_bind. eapply wpe_mono; [by apply apply_all_ok|]. intros rs w2 (Hs2 & _ & Hsp & Hn2). apply wpe_bind. eapply wpe_mono.
  { apply engine_step; [done| |done|done]. apply Hn2; [|done]. intros t' Ht'. apply He; [apply list_elem_of_here|by apply list_elem_of_further]. }
  intros rb2 w3 [_ Ha3]. apply wpe_ret. cbn. intros E. rewrite E in Ha. destruct (rb2.2) eqn:E2; [|done]. exfalso.
  destruct (Hsp tx) as (y & Hy & _ & Hlt).
  - eapply sequenced_spends; [apply (ob_legal _ (sd_books _ Hs))|apply Ho1|apply Ha].
  - destruct (ap_sequence _ _ _ _ Ha3) as [(x & Hx & Hq) _]. rewrite Hx in Hy. injection Hy as <-. lia.
Qed.

(** The state in which [Transactor::apply] starts. *)
Definition begin_tx (params : Z) (w : TxState) : TxState :=
  set_mem no_members (set_delivered None (set_tbl (set_les (init_les (mLedger (les (tbl w))) params (les (tbl w))) (tbl w)) w)).

(** The transaction [tx] with the result [r] cost its fee and nothing else: the sender
    had the sequence number and the coins, its balance is smaller by the fee and its
    sequence number is the next; the other entries differ in their thread of
    transactions only; the header has the transaction with its result, the coins of
    the fee are destroyed, and the rest of the header is what it was. *)
Definition fee_only (tx : SerializedTransaction) `{SHA : SHA512} (r : TER) (w w' : TxState) : Prop :=
  (exists x rest, entries_of w !! src_root tx = Some x /\ sequence x = getSequence tx /\ 0 <= drops rest /\
     drops rest = drops (balance x) - fee_of tx /\
     rethreaded (<[src_root tx := charged_root tx rest x]> (entries_of w)) (entries_of w')) /\
  exists md l, mResult md = r /\ addTransaction tx (Some md) (lgr w) = Some l /\ lgr w' = destroyCoins (fee_of tx) l.

Section Claimed.
Context `{SHA : SHA512} `{K : Keys} `{App : Application} `{DR : !DistinctRoots} (closing : bool) (tx : SerializedTransaction) (params : Z) (w : TxState).
Hypothesis Hbooks : open_books (mLedger (les (tbl w))).
Hypothesis Hfee : legal_balance (getTransactionFee tx).
Hypothesis Hclosed : is_bit_set params tapOPEN_LEDGER = false.

(** What a claimed fee comes to, from a state with the ledger and the header of [w]. *)
Lemma claimed_only r w1 w2 w3 rb : mLedger (les (tbl w1)) = mLedger (les (tbl w)) -> lgr w1 = lgr w ->
  claim_fee tx r w1 = (Ok (r, true), w2) -> record_transaction tx params r w2 = (Ok (rb, true), w3) -> rb = r /\ fee_only tx r w w3.
Proof.
  intros Hl Hh Hc Hr. pose proof Hbooks as [Hix Hg _ _ _]. destruct (legal_drops _ Hfee) as [Ed _].
  assert (Hnat : mIsNative (getTransactionFee tx) = true) by apply Hfee.
  assert (Hcl : wpe (claim_fee tx r) w1 (fun rb w' => rb.2 = true -> lgr w' = lgr w /\ charged tx (entries_of w) (tbl w'))).
  { eapply wpe_mono; [apply (claim_ok tx r (mLedger (les (tbl w)))); [by rewrite Hl|by rewrite Hl|done]|].
    intros rb' w' (Hlg & _ & Hyes & _) Hb. destruct (Hyes Hb) as [_ Hch]. rewrite Hl in Hch. by rewrite Hlg. }
  unfold wpe in Hcl. rewrite Hc in Hcl. destruct (Hcl eq_refl) as [Hlg2 (Hok & x & rest & Hx & Hq & Hv & Hrl & Hd)].
  pose proof (record_ends tx params r w2) as Hend. rewrite Hr in Hend. destruct Hend as [Hnew _].
  pose proof (record_closed tx params r w2 Hok Hclosed Hnew Hnat) as Hrec. unfold wpe in Hrec. rewrite Hr in Hrec.
  destruct Hrec as [[= ->] [He _ _ _ _ (md & l & Hmr & Hadd & Hhd)]]. split; [done|]. rewrite Hlg2 in Hadd. rewrite Hv in He. split.
  - exists x, rest. split_and!; try done. apply Hrl.
  - exists md, l. by rewrite Ed.
Qed.

Context (v : Transactor) `{Hfx : !TransactorFixes v}.

(** A transactor that fails is charged when it can be. *)
Lemma claim_happens r w1 x : is_bit_set params tapRETRY = false ->
  SHAMapNode.isZero (getTransactionID tx) = false -> hasTransaction (getTransactionID tx) (lgr w) = false ->
  entries_of w !! src_root tx = Some x -> sequence x = getSequence tx -> fee_of tx <= drops (balance x) ->
  apply closing params v (begin_tx params w) = (Ok r, w1) -> isTecClaim r = true ->
  wpe (applyTransaction closing tx params (Some v)) w (fun rb w' => rb = (r, true)).
Proof.
  intros Hre Hz Hnew Hx Hq Hle Hrun Hc. pose proof Hbooks as [Hl Hg _ _ _].
  unfold applyTransaction. apply wpe_bind, wpe_lift, wpe_modifies, wpe_bind, wpe_modifies. rewrite Hz. apply wpe_bind. fold (begin_tx params w).
  pose proof (apply_fixes recorded closing params v Hfx (begin_tx params w)) as Hfix. rewrite Hrun in Hfix. injection Hfix as Hled Hmap.
  unfold wpe at 1. rewrite Hrun. apply wpe_bind. assert (isTesSuccess r = false) as -> by (unfold isTesSuccess, isTecClaim, tecCLAIM, tesSUCCESS in *; lia).
  rewrite Hc, Hre. cbn [andb negb]. eapply wpe_mono; [apply (claim_ok tx r (mLedger (les (tbl w))) w1); [by rewrite Hled|by rewrite Hled|done]|].
  intros [r' b] w2 (Hlg2 & Hled2 & Hyes & Hno). cbn in Hyes, Hno. rewrite Hled in Hyes, Hno. destruct b; [|specialize (Hno eq_refl x Hx Hq); lia].
  destruct (Hyes eq_refl) as [-> (Hok & _)]. apply wpe_bind. eapply wpe_mono; [apply record_closed; [done|done| |apply Hfee]|].
  { rewrite Hlg2, Hmap. cbn. unfold hasTransaction in Hnew. by destruct (mTransactionMap (lgr w) !! _). }
  intros rb w3 [-> _]. apply wpe_bind. unfold clear_table. by apply wpe_lift, wpe_modifies, wpe_ret.
Qed.

(** How a run can end in a [tec] code. *)
Lemma tec_ends r b w' : TecFixes (apply closing params v) -> applyTransaction closing tx params (Some v) w = (Ok (r, b), w') -> isTecClaim r = true ->
  if b then fee_only tx r w w' else is_bit_set params tapRETRY = true /\ entries_of w' = entries_of w /\ lgr w' = lgr w.
Proof.
  intros Htec E Hr. unfold applyTransaction, mbind, Eff_bind, modifies, lift at 1 in E. fold (begin_tx params w) in E.
  destruct (SHAMapNode.isZero _); [by injection E as <- <- <-|]. pose proof (Htec (begin_tx params w)) as Hh1.
  pose proof (apply_fixes recorded closing params v Hfx (begin_tx params w)) as Hf1. destruct (apply closing params v _) as [[r1|e] w1]; [|done].
  injection Hf1 as Hl1 _. destruct (isTesSuccess r1) eqn:Ht; [|destruct (isTecClaim r1) eqn:Hc; cbn [andb] in E].
  - apply Z.eqb_eq in Ht as ->. cbn in E. pose proof (record_result tx params tesSUCCESS w1) as Hrr.
    destruct (record_transaction tx params tesSUCCESS w1) as [[[r2 b2]|e] w2]; [|done]. injection E as -> -> _.
    specialize (Hrr _ _ eq_refl). destruct b; cbn in Hrr; [by subst r|congruence].
  - specialize (Hh1 eq_refl). destruct (is_bit_set params tapRETRY); cbn [negb] in E; [injection E as <- <- <-; cbn; by rewrite Hl1, Hh1|].
    pose proof (claim_result tx r1 w1) as Hcr. destruct (claim_fee tx r1 w1) as [[[r2 b2]|e] w2] eqn:Ecl; [|done]. specialize (Hcr _ _ eq_refl).
    destruct b2; cbn in Hcr, E; [subst r2|injection E as <- <- <-; congruence].
    pose proof (record_result tx params r1 w2) as Hrr. destruct (record_transaction tx params r1 w2) as [[[r3 b3]|e] w3] eqn:Erec; [|done].
    injection E as -> -> <-. specialize (Hrr _ _ eq_refl). destruct b; cbn in Hrr; [subst r|congruence].
    by apply (claimed_only r1 w1 w2 w3 r1).
  - injection E as <- <- <-. congruence.
Qed.
End Claimed.

(** C9: a transaction whose result is a [tec] code costs its fee and nothing else, in a
    ledger that is not open.  Whatever type of transaction it is and whatever it did
    before it failed: when the engine applies it with a [tec] code, the sender's
    balance is smaller by exactly the fee and its sequence number is the next one,
    the coins of the fee are destroyed, the transaction is listed, and nothing else
    in the ledger or its header changes, but for the threads of transactions in the
    entries.  It is not applied with a [tec] code only when the caller asked for a
    retry ([tapRETRY]), and then nothing is recorded; and when the caller did not, a
    transactor that returns a [tec] code is charged whenever the sender has the
    sequence number and the balance for it. *)
Theorem fee_claimed `{SHA : SHA512} `{K : Keys} `{App : Application} `{P : Paths} `{V : Votes}
    (closing : bool) (tx : SerializedTransaction) (params : Z) (w : TxState) :
  DistinctRoots -> PathsFix -> open_books (mLedger (les (tbl w))) -> legal_balance (getTransactionFee tx) -> is_bit_set params tapOPEN_LEDGER = false ->
  (forall r w', engine closing tx params w = (Ok (r, true), w') -> isTecClaim r = true -> fee_only tx r w w') /\
  (forall r w', engine closing tx params w = (Ok (r, false), w') -> isTecClaim r = true ->
     is_bit_set params tapRETRY = true /\ entries_of w' = entries_of w /\ lgr w' = lgr w) /\
  (forall v r w1 x, makeTransactor closing tx params = Some v -> apply closing params v (begin_tx params w) = (Ok r, w1) -> isTecClaim r = true ->
     is_bit_set params tapRETRY = false -> SHAMapNode.isZero (getTransactionID tx) = false -> hasTransaction (getTransactionID tx) (lgr w) = false ->
     entries_of w !! src_root tx = Some x -> sequence x = getSequence tx -> fee_of tx <= drops (balance x) ->
     result_of (engine closing tx params) w = Ok (r, true)).
Proof.
  intros DR PF Hb Hf Hp.
  assert (Hends : forall r b w', engine closing tx params w = (Ok (r, b), w') -> isTecClaim r = true ->
    if b then fee_only tx r w w' else is_bit_set params tapRETRY = true /\ entries_of w' = entries_of w /\ lgr w' = lgr w).
  { intros r b w' E Hr. unfold engine in E. destruct (makeTransactor closing tx params) as [v|] eqn:Ev.
    - pose proof (makeTransactor_fixes closing tx params v Ev). eapply tec_ends; eauto. by eapply makeTransactor_tec.
    - unfold applyTransaction, mbind, Eff_bind, modifies, lift at 1 in E. destruct (SHAMapNode.isZero _); by injection E as <- <- <-. }
  split_and!; [intros r w' E; exact (Hends r true w' E)|intros r w' E; exact (Hends r false w' E)|].
  intros v r w1 x Ev Hrun Hr Hre Hz Hnew Hx Hq Hle. pose proof (makeTransactor_fixes closing tx params v Ev).
  unfold engine, result_of. rewrite Ev. pose proof (claim_happens closing tx params w Hb Hf Hp v r w1 x Hre Hz Hnew Hx Hq Hle Hrun Hr) as H'.
  unfold wpe in H'. destruct (applyTransaction _ _ _ _ _) as [[rb|e] w']; [|done]. cbn. by rewrite H'.
Qed.

(** ** The town at work *)

Section Samples.
#[local] Existing Instance Directory.Tail.
#[local] Existing Instance town_keys.
#[local] Existing Instance town_app.
#[local] Existing Instance town_paths.
#[local] Existing Instance town_votes.

Lemma map_u8_id (l : list Z) : Forall is_u8 l -> map u8 l = l.
Proof. induction 1 as [|b l Hb _ IH]; [done|]. cbn. rewrite IH. f_equal. by apply uwrap_id. Qed.

(** The digest of the samples tells accounts apart. *)
Lemma town_distinct : DistinctRoots.
Proof.
  split; [intros a; reflexivity|]. intros a b [La Ha] [Lb Hb] E. unfold getAccountRootIndex in E. cbn [SHAMapNode.sha512half Directory.Tail] in E.
  assert (Hroot : forall c, BaseUint.wf BaseUint.W160 c -> Directory.tail_hash (snd (Serializer.add_uint c (snd (Serializer.add16 spaceAccount [])))) =
    1 :: ([0; 97] ++ BaseUint.to_bytes c) ++ replicate 9 0).
  { intros c [Lc Hc]. unfold Directory.tail_hash, Serializer.add_uint. cbn [snd]. change (snd (Serializer.add16 spaceAccount [])) with [0; 97].
    pose proof (BaseUint.length_to_bytes c) as Hl. rewrite Lc in Hl. change (4 * BaseUint.W160)%nat with 20%nat in Hl.
    assert ((length ([0; 97]%Z ++ BaseUint.to_bytes c) - 31)%nat = 0%nat) as -> by (rewrite length_app; cbn [length]; lia). rewrite drop_0, map_u8_id.
    - f_equal. rewrite take_app, take_ge by (rewrite length_app; cbn [length]; lia). rewrite length_app, Hl. reflexivity.
    - apply Forall_app. split; [by repeat constructor|by apply BaseUint.to_bytes_u8]. }
  rewrite !Hroot in E by done. injection E as E. apply app_inj_2 in E as [E _]; [|done].
  rewrite <- (BaseUint.of_to_bytes a Ha), <- (BaseUint.of_to_bytes b Hb). by rewrite E.
Defined.

Lemma town_root_legal a seq n : 0 <= n <= cMaxNativeN -> legal_root town (town_root a seq n).
Proof.
  intros Hn. split.
  - assert (getFieldAmount sfBalance (town_root a seq n) = mk_native n false) as ->.
    { unfold getFieldAmount, town_root. cbn. by rewrite lookup_insert_ne, lookup_insert_eq by done. }
    unfold mk_native. apply legal_of_drops; [split_and!; [apply wf_u160_zero..|done|cbn; unfold cMaxNativeN, cMaxNative in *; lia]|done|intros; cbn; by case_match|].
    unfold drops. cbn. destruct (n =? 0); lia.
  - assert (getFieldU32 sfOwnerCount (town_root a seq n) = 0) as ->.
    { unfold getFieldU32, town_root. cbn. by rewrite !lookup_insert_ne by done. }
    exists 1000. split; [reflexivity|]. unfold cMaxNativeN. lia.
Qed.

Lemma town_sound : sound town_state.
Proof.
  split; [split|reflexivity|intros id t md; cbn; by rewrite lookup_empty].
  - apply map_Forall_insert_2; [reflexivity|]. apply map_Forall_insert_2; [reflexivity|]. apply map_Forall_empty.
  - assert (Hx : forall i x, mAccountState town !! i = Some x -> legal_root town x /\ mType x = ltACCOUNT_ROOT).
    { intros i x. cbn [mAccountState town]. intros [[_ <-]|[_ [[_ <-]|[_ H]]%lookup_insert_Some]]%lookup_insert_Some; [..|by rewrite lookup_empty in H];
        (split; [apply town_root_legal; unfold cMaxNativeN; lia|done]). }
    split; [intros a x Hax|intros i x Hix _]; [exact (proj2 (Hx _ x Hax))|exact (proj1 (Hx i x Hix))].
  - exists 1000. split; [reflexivity|]. unfold cMaxNativeN. lia.
  - discriminate.
  - vm_compute. discriminate.
Defined.

(** Alice pays bob, makes an account for carol, bob tries to pay what he does not have,
    alice's first payment comes again, somebody else signs for her, she asks for
    destination tags, gives bob her key, and bob pays with it. *)
Definition town_history : list SerializedTransaction :=
  [payment 100 7 alice bob 5 10 500; payment 101 7 alice carol 6 10 1500; payment 102 8 bob alice 1 10 999999;
   payment 100 7 alice bob 5 10 500; payment 103 9 alice bob 7 10 1;
   town_tx ttACCOUNT_SET 104 7 alice 7 20 [(sfSetFlag, STUInt32 1)];
   town_tx ttREGULAR_KEY_SET 105 7 alice 8 10 [(sfRegularKey, STAccount bob)]; payment 106 8 alice carol 9 10 5].

Lemma town_direct id key src dst seq fee n : BaseUint.wf BaseUint.W160 src -> BaseUint.wf BaseUint.W160 dst -> 0 < n <= cMaxNativeN ->
  direct (payment id key src dst seq fee n).
Proof.
  intros Hs Hd Hn. split; try done. change (txAmount sfAmount (payment id key src dst seq fee n)) with (mk_native n false). unfold mk_native. split.
  - split_and!; [apply wf_u160_zero..|done|]. cbn. unfold cMaxNativeN, cMaxNative in *. lia.
  - intros _. cbn. by case_match.
Qed.

Lemma town_fields ty id key src seq fee fields :
  getSequence (town_tx ty id key src seq fee fields) = seq /\ getTransactionFee (town_tx ty id key src seq fee fields) = mk_native fee false.
Proof.
  unfold getSequence, getTransactionFee, txU32, txAmount. cbn. split; [by rewrite lookup_insert_ne, lookup_insert_eq by done|].
  by rewrite !lookup_insert_ne, lookup_insert_eq by done.
Qed.

Lemma town_ordinary ty id key src seq fee fields : 0 <= fee <= cMaxNativeN -> 0 <= seq < 4294967295 ->
  direct (town_tx ty id key src seq fee fields) \/ ty = ttACCOUNT_SET \/ ty = ttREGULAR_KEY_SET -> ordinary (town_tx ty id key src seq fee fields).
Proof.
  intros Hf Hs Hty. destruct (town_fields ty id key src seq fee fields) as [Eq Ef]. split; [done| |unfold proper_sequence; by rewrite Eq].
  unfold proper_fee. rewrite Ef. unfold mk_native. split; [|intros _; cbn; by case_match].
  split_and!; [apply wf_u160_zero..|done|]. cbn. unfold cMaxNativeN, cMaxNative in *. lia.
Qed.

Lemma town_payment id key src dst seq fee n : BaseUint.wf BaseUint.W160 src -> BaseUint.wf BaseUint.W160 dst -> 0 < n <= cMaxNativeN ->
  0 <= fee <= cMaxNativeN -> 0 <= seq < 4294967295 -> ordinary (payment id key src dst seq fee n).
Proof. intros. apply town_ordinary; [done|done|]. left. by apply town_direct. Qed.

Lemma town_history_ordinary : Forall ordinary town_history.
Proof.
  repeat (apply Forall_cons_2; [|]); [..|apply Forall_nil_2]; try (apply town_payment; [by_decide|by_decide|unfold cMaxNativeN; lia..]).
  all: apply town_ordinary; [unfold cMaxNativeN; lia|lia|auto].
Defined.

Lemma town_ids : ids_ok town_state town_history.
Proof.
  split; [apply Forall_forall; intros t _ u md; cbn; by rewrite lookup_empty|].
  intros t t' Ht%list_elem_of_In Ht'%list_elem_of_In E. cbn [town_history In] in Ht, Ht'.
  repeat (destruct Ht as [<-|Ht]); try done; repeat (destruct Ht' as [<-|Ht']); try done; (reflexivity || (vm_compute in E; discriminate E)).
Defined.

Lemma coins_conserved_witness :
  result_of (apply_all 0 town_history) town_state =
    Ok [(tesSUCCESS, true); (tesSUCCESS, true); (tecUNFUNDED_PAYMENT, true); (tefALREADY, false); (temBAD_AUTH_MASTER, false);
        (tesSUCCESS, true); (tesSUCCESS, true); (tesSUCCESS, true)] /\
  wpe (apply_all 0 town_history) town_state (fun rs w' =>
    coins (entries_of w') = mTotCoins (lgr w') /\ mTotCoins (lgr w') = 1002000 - fees_paid town_history rs).
Proof.
  split; [vm_compute; reflexivity|].
  exact (coins_conserved 0 town_history town_state town_distinct town_paths_fix town_sound town_ids town_history_ordinary eq_refl).
Defined.

Lemma no_replay_witness :
  wpe (first ← engine true (payment 100 7 alice bob 5 10 500) 0; _ ← apply_all 0 (tail town_history);
       again ← engine true (payment 100 7 alice bob 5 10 500) 0; mret (first.2, again.2)) town_state (fun applied _ =>
    applied.1 = true -> applied.2 = false).
Proof.
  exact (no_replay 0 (payment 100 7 alice bob 5 10 500) (tail town_history) town_state town_distinct town_paths_fix town_sound town_ids town_history_ordinary eq_refl).
Defined.

(** Bob's payment in this history. *)
Definition unfunded : SerializedTransaction := payment 102 8 bob alice 1 10 999999.
Definition unfunded_end : TxState := state_of (apply true 0 (base true unfunded 0 (payment_apply unfunded 0))) (begin_tx 0 town_state).

Lemma unfunded_run : apply true 0 (base true unfunded 0 (payment_apply unfunded 0)) (begin_tx 0 town_state) = (Ok tecUNFUNDED_PAYMENT, unfunded_end).
Proof. vm_compute. reflexivity. Defined.

Lemma fee_claimed_witness :
  result_of (engine true unfunded 0) town_state = Ok (tecUNFUNDED_PAYMENT, true) /\
  fee_only unfunded tecUNFUNDED_PAYMENT town_state (state_of (engine true unfunded 0) town_state) /\
  result_of (engine true unfunded tapRETRY) town_state = Ok (tecUNFUNDED_PAYMENT, false).
Proof.
  assert (Hf : legal_balance (getTransactionFee unfunded)) by (split; [by_decide|by vm_compute]).
  destruct (fee_claimed true unfunded 0 town_state town_distinct town_paths_fix (sd_books _ town_sound) Hf eq_refl) as (Hyes & _ & Hdo).
  assert (E : result_of (engine true unfunded 0) town_state = Ok (tecUNFUNDED_PAYMENT, true)).
  { apply (Hdo _ tecUNFUNDED_PAYMENT unfunded_end (town_root bob 1 2000) eq_refl unfunded_run); try (vm_compute; reflexivity). vm_compute. discriminate. }
  split; [exact E|]. split; [|vm_compute; reflexivity]. apply Hyes; [|reflexivity]. unfold result_of in E. unfold state_of.
  destruct (engine true unfunded 0 town_state) as [r0 w0]. cbn in E. by subst r0.
Defined.

(** *** What the claims leave out *)

Definition coins_of (a : Account) (w : TxState) : option Z := (fun x => drops (balance x)) <$> entries_of w !! getAccountRootIndex a.

(** The next ledger starts without transactions. *)
Definition next_ledger (w : TxState) : TxState :=
  set_lgr {| mLedgerSeq := mLedgerSeq (lgr w) + 1; mParentCloseTime := mParentCloseTime (lgr w); mTotCoins := mTotCoins (lgr w); mFeePool := mFeePool (lgr w);
             mInflationSeq := mInflationSeq (lgr w); mInflationAllowed := mInflationAllowed (lgr w); mTransactionMap := ∅ |} w.

Definition merge_into (id key : Z) (src dst : Account) (seq : Z) : SerializedTransaction :=
  town_tx ttACCOUNT_MERGE id key src seq 10 [(sfDestination, STAccount dst)].

(** A merged account that is made again starts at sequence number 1: bob's first
    payment is applied again in the next ledger. *)
Lemma merged_replay :
  let old := payment 200 8 bob alice 1 10 5 in
  let txs := [payment 201 7 alice bob 5 10 5000; old; merge_into 202 8 bob alice 2; payment 203 7 alice bob 6 10 3000] in
  result_of (apply_all 0 txs) town_state = Ok (replicate 4 (tesSUCCESS, true)) /\
  result_of (engine true old 0) (next_ledger (state_of (apply_all 0 txs) town_state)) = Ok (tesSUCCESS, true).
Proof. split; vm_compute; reflexivity. Qed.

(** The signature of an inflation transaction is not checked against its account, and
    while [QuirkNonzeroInflationFees] is enacted its fee may be anything: carol's
    key costs alice 900000. *)
Lemma inflation_charges_anyone :
  let tx := town_tx ttINFLATION 300 9 alice 5 900000 [(sfInflateSeq, STUInt32 0)] in
  result_of (engine true tx 0) town_state = Ok (tesSUCCESS, true) /\ coins_of alice (state_of (engine true tx 0) town_state) = Some 100000.
Proof. split; vm_compute; reflexivity. Qed.

(** A fee in an issued currency is [temBAD_FEE] in a closing ledger, and an exception
    in an open one. *)
Lemma issued_fee_throws :
  let tx := town_tx ttPAYMENT 400 8 bob 1 0 [(sfDestination, STAccount alice); (sfAmount, STAmt (mk_native 5 false))] in
  let tx := {| getTransactionID := index_of 400; getSigningHash := index_of 400; getTxnType := ttPAYMENT;
               txFields := <[sfFee := STAmt TrustLaws.ten_usd]> (txFields tx); getSigningPubKey := [8]; getSignature := [1]; txPaths := None;
               mSigGood := false; mSigBad := false |} in
  result_of (engine true tx 0) town_state = Ok (temBAD_FEE, false) /\
  result_of (engine false tx tapOPEN_LEDGER) town_state = Throw (runtime_error "amounts are not comparable").
Proof. split; vm_compute; reflexivity. Qed.

(** A merge into an account that does not exist is claimed its fee in the open ledger,
    which changes the balance there. *)
Lemma open_merge_claims :
  let tx := merge_into 500 8 bob carol 1 in
  result_of (engine false tx tapOPEN_LEDGER) town_state = Ok (tecNO_DST, true) /\
  coins_of bob (state_of (engine false tx tapOPEN_LEDGER) town_state) = Some 1990.
Proof. split; vm_compute; reflexivity. Qed.
End Samples.

End EngineClaims.
