(* ===== verification/OrderedMap.v ===== *)
(** * Ordered maps

    [std::map] with a comparison of its own: the elements in the order of their
    keys.  Two keys are the same when neither comes before the other.  [insert] keeps
    the element that is there, [assign] ([operator []]) replaces it.

    The laws hold where the comparison is a strict total order, which for the keys
    of this program is so on the well-formed ones ([OrderOn]). *)
From Stdlib Require Import ZArith Lia Sorted.
From S2P Require Import Prelude.
From stdpp Require Import base numbers list.

Module OrderedMap.

Section Map.
Context {K V : Type} (ltb : K -> K -> bool).

Abbreviation omap := (list (K * V)).

Fixpoint find (k : K) (m : omap) : option V :=
  match m with
  | [] => None
  | (k', v) :: m => if ltb k' k then find k m else if ltb k k' then None else Some v
  end.

Fixpoint insert (k : K) (v : V) (m : omap) : omap :=
  match m with
  | [] => [(k, v)]
  | (k', v') :: m' => if ltb k' k then (k', v') :: insert k v m' else if ltb k k' then (k, v) :: m else m
  end.

Fixpoint assign (k : K) (v : V) (m : omap) : omap :=
  match m with
  | [] => [(k, v)]
  | (k', v') :: m' => if ltb k' k then (k', v') :: assign k v m' else if ltb k k' then (k, v) :: m else (k', v) :: m'
  end.

Fixpoint erase (k : K) (m : omap) : omap :=
  match m with
  | [] => []
  | (k', v') :: m' => if ltb k' k then (k', v') :: erase k m' else if ltb k k' then m else m'
  end.
End Map.

(** A strict total order on the keys that satisfy [P]. *)
Class OrderOn {K : Type} (P : K -> Prop) (ltb : K -> K -> bool) : Prop := {
  ltb_irrefl : forall a, P a -> ltb a a = false;
  ltb_trans : forall a b c, P a -> P b -> P c -> ltb a b = true -> ltb b c = true -> ltb a c = true;
  ltb_total : forall a b, P a -> P b -> ltb a b = false -> ltb b a = false -> a = b }.

#[export] Instance Zltb_order : OrderOn (fun _ => True) Z.ltb.
Proof. split; intros; rewrite ?Z.ltb_lt, ?Z.ltb_ge in *; try apply Z.ltb_irrefl; lia. Qed.

Section Laws.
Context {K V : Type} (P : K -> Prop) (ltb : K -> K -> bool) `{O : !OrderOn P ltb}.
Implicit Types (m : list (K * V)) (k : K) (v : V).

Definition before (x y : K * V) : Prop := ltb x.1 y.1 = true.

(** In order, and all keys good. *)
Definition ordered m : Prop := StronglySorted before m /\ Forall (fun x => P x.1) m.

Lemma ordered_nil : ordered [].
Proof. split; constructor. Qed.

Lemma ordered_cons x m : ordered (x :: m) <-> P x.1 /\ Forall (before x) m /\ ordered m.
Proof.
  unfold ordered. split.
  - intros [[Hs Hb]%StronglySorted_inv [Hx Hp]%Forall_cons]. done.
  - intros (Hx & Hb & Hs & Hp). split; by constructor.
Qed.

Lemma ltb_asym k k' : P k -> P k' -> ltb k k' = true -> ltb k' k = false.
Proof.
  intros Hk Hk' E. destruct (ltb k' k) eqn:E'; [|done]. assert (E2 : ltb k k = true) by (by apply (ltb_trans k k' k)). by rewrite ltb_irrefl in E2.
Qed.

(** The three ways two keys compare. *)
Inductive compared (k k' : K) : bool -> bool -> Prop :=
| is_after : k <> k' -> ltb k' k = true -> compared k k' true false
| is_before : k <> k' -> ltb k k' = true -> compared k k' false true
| is_same : k = k' -> compared k k' false false.

Lemma compare_keys k k' : P k -> P k' -> compared k k' (ltb k' k) (ltb k k').
Proof.
  intros Hk Hk'. destruct (ltb k' k) eqn:E1; [|destruct (ltb k k') eqn:E2].
  - rewrite ltb_asym by done. constructor; [|done]. intros ->. by rewrite ltb_irrefl in E1.
  - constructor; [|done]. intros ->. by rewrite ltb_irrefl in E2.
  - constructor. by apply ltb_total.
Qed.

Lemma find_head k x m : ordered (x :: m) -> P k -> ltb k x.1 = true -> find ltb k m = None.
Proof.
  intros (Hx & Hb & [_ Hp])%ordered_cons Hk Hlt. destruct m as [|[k' v'] m]; [done|]. cbn.
  apply Forall_cons in Hb as [Hb _], Hp as [Hp _]. unfold before in Hb. cbn in Hb, Hp.
  assert (E : ltb k k' = true) by (by apply (ltb_trans k x.1 k')). by rewrite ltb_asym, E.
Qed.

Lemma find_elem k v m : ordered m -> P k -> find ltb k m = Some v <-> (k, v) ∈ m.
Proof.
  induction m as [|[k' v'] m IH]; intros Hm Hk; [by split; [|intros ?%not_elem_of_nil]|].
  pose proof Hm as (Hp & Hb & Hm')%ordered_cons. cbn in Hp. cbn [find]. rewrite elem_of_cons.
  destruct (compare_keys k k' Hk Hp) as [Hne E|Hne E|<-].
  - rewrite IH by done. naive_solver.
  - split; [done|]. intros [[= -> ->]|Hin]; [done|]. rewrite <- IH in Hin by done. by rewrite (find_head k (k', v') m Hm Hk E) in Hin.
  - split; [intros [= ->]; by left|]. intros [[= ->]|Hin]; [done|]. exfalso. rewrite Forall_forall in Hb. specialize (Hb _ Hin).
    unfold before in Hb. cbn in Hb. by rewrite ltb_irrefl in Hb.
Qed.

Lemma find_elem_key k m : ordered m -> P k -> find ltb k m = None <-> k ∉ map fst m.
Proof.
  intros Hm Hk. split.
  - intros E Hin. apply list_elem_of_fmap in Hin as ([k' v] & -> & Hin). apply find_elem in Hin; [|done|done]. cbn in *. by rewrite E in Hin.
  - intros Hn. destruct (find ltb k m) as [v|] eqn:E; [|done]. apply find_elem in E; [|done|done]. destruct Hn. by apply (list_elem_of_fmap_2 fst) in E.
Qed.

Lemma ordered_lookup m i j x y : ordered m -> (i < j)%nat -> m !! i = Some x -> m !! j = Some y -> ltb x.1 y.1 = true.
Proof.
  revert i j. induction m as [|z m IH]; intros i j Hm Hij Hi Hj; [done|]. apply ordered_cons in Hm as (_ & Hb & Hm).
  destruct j as [|j]; [lia|]. cbn in Hj. destruct i as [|i].
  - injection Hi as ->. rewrite Forall_forall in Hb. by eapply Hb, list_elem_of_lookup_2.
  - eapply (IH i j); [done|lia|done|done].
Qed.

(** *** Keys of the results *)

Lemma insert_elem k v m x : x ∈ insert ltb k v m -> x = (k, v) \/ x ∈ m.
Proof.
  induction m as [|[k' v'] m IH]; cbn; [by intros ?%list_elem_of_singleton; left|].
  repeat case_match; rewrite ?elem_of_cons; naive_solver.
Qed.

Lemma assign_elem k v m x : x ∈ assign ltb k v m -> x.1 = k \/ exists v', (x.1, v') ∈ m.
Proof.
  induction m as [|[k' v'] m IH]; cbn [assign]; [by intros ->%list_elem_of_singleton; left|].
  destruct (ltb k' k); [|destruct (ltb k k')]; rewrite ?elem_of_cons.
  - intros [->|[->|[w Hw]]%IH]; [right; exists v'; apply list_elem_of_here|by left|]. right. exists w. by apply list_elem_of_further.
  - intros [->|Hx]; [by left|]. right. exists x.2. rewrite <- surjective_pairing. by apply elem_of_cons.
  - intros [->|Hx]; right; [exists v'; apply list_elem_of_here|]. exists x.2. rewrite <- surjective_pairing. by apply list_elem_of_further.
Qed.

Lemma erase_elem k m x : x ∈ erase ltb k m -> x ∈ m.
Proof. induction m as [|[k' v'] m IH]; cbn; [done|]. repeat case_match; rewrite ?elem_of_cons; naive_solver. Qed.

Lemma insert_ordered k v m : P k -> ordered m -> ordered (insert ltb k v m).
Proof.
  intros Hk. induction m as [|[k' v'] m IH]; intros Hm; [by apply ordered_cons; split_and!; [|constructor|]|].
  pose proof Hm as (Hp & Hb & Hm')%ordered_cons. cbn in Hp. cbn [insert]. destruct (compare_keys k k' Hk Hp) as [Hne E|Hne E|<-]; [| |done].
  - apply ordered_cons. split_and!; [done| |by apply IH]. apply Forall_forall. intros x [->|Hx]%insert_elem; [done|]. by rewrite Forall_forall in Hb; apply Hb.
  - apply ordered_cons. split_and!; [done| |done]. constructor; [done|]. rewrite Forall_forall in Hb |- *. intros x Hx. specialize (Hb x Hx).
    unfold before in *. cbn in *. destruct Hm' as [_ Hall]. rewrite Forall_forall in Hall. eapply ltb_trans; [done| |by apply Hall|done|done]. done.
Qed.

Lemma assign_ordered k v m : P k -> ordered m -> ordered (assign ltb k v m).
Proof.
  intros Hk. induction m as [|[k' v'] m IH]; intros Hm; [by apply ordered_cons; split_and!; [|constructor|]|].
  pose proof Hm as (Hp & Hb & Hm')%ordered_cons. cbn in Hp. cbn [assign]. destruct (compare_keys k k' Hk Hp) as [Hne E|Hne E|<-].
  - apply ordered_cons. split_and!; [done| |by apply IH]. apply Forall_forall. intros x [Ex|[w Hw]]%assign_elem; unfold before; [by rewrite Ex|].
    rewrite Forall_forall in Hb. apply (Hb _ Hw).
  - pose proof (insert_ordered k v _ Hk Hm) as Hi. cbn [insert] in Hi. by rewrite ltb_asym, E in Hi.
  - by apply ordered_cons.
Qed.

Lemma erase_ordered k m : P k -> ordered m -> ordered (erase ltb k m).
Proof.
  intros Hk. induction m as [|[k' v'] m IH]; intros Hm; [done|].
  pose proof Hm as (Hp & Hb & Hm')%ordered_cons. cbn in Hp. cbn [erase]. destruct (compare_keys k k' Hk Hp) as [Hne E|Hne E|<-]; [|done|done].
  apply ordered_cons. split_and!; [done| |by apply IH]. rewrite Forall_forall in Hb |- *. intros x Hx%erase_elem. by apply Hb.
Qed.

(** *** Looking up *)

Context `{EqDecision K}.

Lemma find_insert k k0 v m : P k -> P k0 -> ordered m ->
  find ltb k (insert ltb k0 v m) = if decide (k = k0) then Some (default v (find ltb k0 m)) else find ltb k m.
Proof.
  intros Hk Hk0. induction m as [|[k' v'] m IH]; intros Hm.
  - cbn. destruct (compare_keys k k0 Hk Hk0); by case_decide.
  - pose proof Hm as (Hp & Hb & Hm')%ordered_cons. cbn in Hp. cbn [insert find].
    destruct (compare_keys k0 k' Hk0 Hp) as [Hne E|Hne E|<-]; cbn [find].
    + destruct (compare_keys k k' Hk Hp) as [Hne' E'|Hne' E'|<-]; [by apply IH|rewrite decide_False by (intros ->; by rewrite ltb_asym in E'); done|by rewrite decide_False].
    + destruct (compare_keys k k0 Hk Hk0) as [Hn' E'|Hn' E'|<-]; [by rewrite decide_False| |by rewrite decide_True].
      rewrite decide_False by done. assert (ltb k k' = true) as E2 by (by eapply (ltb_trans k k0 k')).
      by rewrite ltb_asym, E2.
    + destruct (compare_keys k k0 Hk Hk0); [by rewrite decide_False|by rewrite decide_False|by rewrite decide_True].
Qed.

Lemma find_assign k k0 v m : P k -> P k0 -> ordered m ->
  find ltb k (assign ltb k0 v m) = if decide (k = k0) then Some v else find ltb k m.
Proof.
  intros Hk Hk0. induction m as [|[k' v'] m IH]; intros Hm.
  - cbn. destruct (compare_keys k k0 Hk Hk0); by case_decide.
  - pose proof Hm as (Hp & Hb & Hm')%ordered_cons. cbn in Hp. cbn [assign find].
    destruct (compare_keys k0 k' Hk0 Hp) as [Hne E|Hne E|<-]; cbn [find].
    + destruct (compare_keys k k' Hk Hp) as [Hne' E'|Hne' E'|<-]; [by apply IH|rewrite decide_False by (intros ->; by rewrite ltb_asym in E'); done|by rewrite decide_False].
    + pose proof (find_insert k k0 v _ Hk Hk0 Hm) as Hi. cbn [insert find] in Hi. rewrite (find_head k0 (k', v') m) in Hi by done.
      rewrite ltb_asym, E in Hi by done. exact Hi.
    + destruct (compare_keys k k0 Hk Hk0); [by rewrite decide_False|by rewrite decide_False|by rewrite decide_True].
Qed.

Lemma find_erase k k0 m : P k -> P k0 -> ordered m ->
  find ltb k (erase ltb k0 m) = if decide (k = k0) then None else find ltb k m.
Proof.
  intros Hk Hk0. induction m as [|[k' v'] m IH]; intros Hm; [by case_decide|].
  pose proof Hm as (Hp & Hb & Hm')%ordered_cons. cbn in Hp. cbn [erase find].
  destruct (compare_keys k0 k' Hk0 Hp) as [Hne E|Hne E|<-]; cbn [find].
  - destruct (compare_keys k k' Hk Hp) as [Hne' E'|Hne' E'|<-]; [by apply IH|by case_decide|by rewrite decide_False].
  - case_decide; [subst k|done]. destruct (compare_keys k0 k' Hk Hp); [by rewrite (find_head k0 (k', v') m)|done|done].
  - destruct (compare_keys k k0 Hk Hk0) as [Hn' E'|Hn' E'|<-]; [by rewrite decide_False| |].
    + rewrite decide_False by done. by apply (find_head k (k0, v') m).
    + rewrite decide_True by done. destruct (find ltb k m) as [v|] eqn:E; [|done]. apply find_elem in E; [|done|done].
      rewrite Forall_forall in Hb. specialize (Hb _ E). unfold before in Hb. cbn in Hb. by rewrite ltb_irrefl in Hb.
Qed.

Lemma ordered_key k v m : ordered m -> (k, v) ∈ m -> P k.
Proof. intros [_ Hp] Hin. rewrite Forall_forall in Hp. apply (Hp _ Hin). Qed.

Lemma elem_assign k k0 v v0 m : P k0 -> ordered m -> (k, v) ∈ assign ltb k0 v0 m <-> k = k0 /\ v = v0 \/ k <> k0 /\ (k, v) ∈ m.
Proof.
  intros Hk0 Hm. pose proof (assign_ordered k0 v0 m Hk0 Hm) as Ha. split.
  - intros Hin. pose proof (ordered_key _ _ _ Ha Hin) as Hk. apply find_elem in Hin; [|done|done]. rewrite find_assign in Hin by done.
    case_decide; [left; by simplify_eq|right]. split; [done|]. by apply find_elem.
  - intros [[-> ->]|[Hne Hin]].
    + apply find_elem; [done|done|]. by rewrite find_assign, decide_True.
    + pose proof (ordered_key _ _ _ Hm Hin) as Hk. apply find_elem; [done|done|]. rewrite find_assign, decide_False by done. by apply find_elem.
Qed.

Lemma elem_erase k k0 v m : P k0 -> ordered m -> (k, v) ∈ erase ltb k0 m <-> k <> k0 /\ (k, v) ∈ m.
Proof.
  intros Hk0 Hm. pose proof (erase_ordered k0 m Hk0 Hm) as Ha. split.
  - intros Hin. pose proof (ordered_key _ _ _ Ha Hin) as Hk. apply find_elem in Hin; [|done|done]. rewrite find_erase in Hin by done.
    case_decide; [done|]. split; [done|]. by apply find_elem.
  - intros [Hne Hin]. pose proof (ordered_key _ _ _ Hm Hin) as Hk. apply find_elem; [done|done|]. rewrite find_erase, decide_False by done.
    by apply find_elem.
Qed.

Lemma elem_unique k v v' m : ordered m -> (k, v) ∈ m -> (k, v') ∈ m -> v = v'.
Proof.
  intros Hm H1 H2. pose proof (ordered_key _ _ _ Hm H1) as Hk. apply find_elem in H1, H2; [|done..]. rewrite H1 in H2. by injection H2.
Qed.

(** A map is what looking up finds. *)
Lemma ordered_ext m m' : ordered m -> ordered m' -> (forall k, P k -> find ltb k m = find ltb k m') -> m = m'.
Proof.
  revert m'. induction m as [|[k v] m IH]; intros [|[k' v'] m'] Hm Hm' Hf.
  - done.
  - apply ordered_cons in Hm' as [Hp _]. specialize (Hf k' Hp). cbn in Hf. by rewrite ltb_irrefl in Hf.
  - apply ordered_cons in Hm as [Hp _]. specialize (Hf k Hp). cbn in Hf. by rewrite ltb_irrefl in Hf.
  - pose proof Hm as (Hp & Hb & Ho)%ordered_cons. pose proof Hm' as (Hp' & Hb' & Ho')%ordered_cons. cbn in Hp, Hp'.
    assert (k = k') as <-.
    { pose proof (Hf k Hp) as H1. pose proof (Hf k' Hp') as H2. cbn [find] in H1, H2. rewrite ltb_irrefl in H1, H2 by done.
      by destruct (compare_keys k k' Hp Hp'). }
    pose proof (Hf k Hp) as H1. cbn [find] in H1. rewrite ltb_irrefl in H1 by done. injection H1 as ->. f_equal. apply IH; [done|done|].
    intros j Hj. specialize (Hf j Hj). cbn [find] in Hf. destruct (compare_keys j k Hj Hp) as [Hne E|Hne E|Hne].
    + done.
    + by rewrite (find_head j (k, v') m), (find_head j (k, v') m').
    + subst j. assert (Hnot : forall l : list (K * V), Forall (before (k, v')) l -> ordered l -> find ltb k l = None).
      { intros l Hl Hol. apply find_elem_key; [done|done|]. intros ([? w] & -> & Hin)%list_elem_of_fmap. rewrite Forall_forall in Hl.
        specialize (Hl _ Hin). unfold before in Hl. cbn in *. by rewrite ltb_irrefl in Hl. }
      by rewrite !Hnot.
Qed.
End Laws.

End OrderedMap.
