(* ===== verification/HashRouter.v ===== *)
(** * The hash router

    [src/src/ripple_app/misc/HashRouter.cpp] and [IHashRouter.h]: what the server
    knows of the hashes it has met (of transactions, proposals, validations): the
    peers a hash came from, and flags, such as that the signature is good.  A hash
    is forgotten some time after it was first met; one list of hashes, the oldest,
    is dropped whenever a hash is added and that list is old enough.

    The clock is an argument, in seconds since the start.  The hash table is a finite
    map, the table of expiration times an [OrderedMap].  The mutex makes calls follow
    one another: a history is a list of calls ([run]).

    Theorem: a flag that was set stays set until the hold time is over
    ([router_remembers]). *)
From Stdlib Require Import ZArith Lia Sorted.
From S2P Require Import Prelude SHAMapNode OrderedMap.
From stdpp Require Import base numbers list gmap.
Local Open Scope Z_scope.

Module HashRouter.

Abbreviation uint256 := (list Z).
Abbreviation PeerShortID := Z (only parsing).

Definition SF_RELAYED : Z := 1.
Definition SF_BAD : Z := 2.
Definition SF_SIGGOOD : Z := 4.
Definition SF_SAVED : Z := 8.
Definition SF_RETRY : Z := 16.
Definition SF_TRUSTED : Z := 32.
Definition getDefaultHoldTime : Z := 300.

(** ** Entries *)

Record Entry : Type := { mFlags : Z; mPeers : gset PeerShortID }.

Definition new_entry : Entry := {| mFlags := 0; mPeers := ∅ |}.
Definition addPeer (peer : PeerShortID) (e : Entry) : Entry :=
  if negb (peer =? 0) then {| mFlags := mFlags e; mPeers := {[peer]} ∪ mPeers e |} else e.
Definition hasPeer (peer : PeerShortID) (e : Entry) : bool := bool_decide (peer ∈ mPeers e).
Definition hasFlag (mask : Z) (e : Entry) : bool := negb (Z.land (mFlags e) mask =? 0).
Definition entry_setFlag (flagsToSet : Z) (e : Entry) : Entry := {| mFlags := Z.lor (mFlags e) flagsToSet; mPeers := mPeers e |}.
Definition clearFlag (flagsToClear : Z) (e : Entry) : Entry := {| mFlags := Z.land (mFlags e) (Z.lnot flagsToClear); mPeers := mPeers e |}.
(** [Entry::swapSet]: the entry, and the peers it had. *)
Definition entry_swapSet (other : gset PeerShortID) (e : Entry) : Entry * gset PeerShortID :=
  ({| mFlags := mFlags e; mPeers := other |}, mPeers e).

(** ** The table *)

Record HashRouter : Type := {
  mSuppressionMap : gmap uint256 Entry;
  mSuppressionTimes : list (Z * list uint256);
  mHoldTime : Z }.

Definition new_router (holdTime : Z) : HashRouter := {| mSuppressionMap := ∅; mSuppressionTimes := []; mHoldTime := holdTime |}.

(** The hashes of the oldest list are dropped when it is old enough. *)
Definition expire (expireTime : Z) (r : HashRouter) : HashRouter :=
  match mSuppressionTimes r with
  | (first, hashes) :: times =>
      if first <=? expireTime then
        {| mSuppressionMap := foldl (fun m h => delete h m) (mSuppressionMap r) hashes; mSuppressionTimes := times; mHoldTime := mHoldTime r |}
      else r
  | [] => r
  end.

(** [mSuppressionTimes[now].push_back (index)] *)
Definition note_time (now : Z) (index : uint256) (times : list (Z * list uint256)) : list (Z * list uint256) :=
  OrderedMap.assign Z.ltb now (default [] (OrderedMap.find Z.ltb now times) ++ [index]) times.

(** [findCreateEntry]: [created], and the router, which has an entry for the hash. *)
Definition findCreateEntry (now : Z) (index : uint256) (r : HashRouter) : bool * HashRouter :=
  match mSuppressionMap r !! index with
  | Some _ => (false, r)
  | None =>
      let r := expire (i32 (now - mHoldTime r)) r in
      (true, {| mSuppressionMap := <[index := new_entry]> (mSuppressionMap r);
                mSuppressionTimes := note_time now index (mSuppressionTimes r); mHoldTime := mHoldTime r |})
  end.

(** The entry a reference to it would read, and writing through the reference. *)
Definition entry_at (index : uint256) (r : HashRouter) : Entry := default new_entry (mSuppressionMap r !! index).
Definition set_entry (index : uint256) (e : Entry) (r : HashRouter) : HashRouter :=
  {| mSuppressionMap := <[index := e]> (mSuppressionMap r); mSuppressionTimes := mSuppressionTimes r; mHoldTime := mHoldTime r |}.

Definition addSuppression (now : Z) (index : uint256) (r : HashRouter) : bool * HashRouter := findCreateEntry now index r.

Definition getEntry (now : Z) (index : uint256) (r : HashRouter) : Entry * HashRouter :=
  let '(_, r) := findCreateEntry now index r in (entry_at index r, r).

Definition addSuppressionPeer (now : Z) (index : uint256) (peer : PeerShortID) (r : HashRouter) : bool * HashRouter :=
  let '(created, r) := findCreateEntry now index r in
  (created, set_entry index (addPeer peer (entry_at index r)) r).

(** The overload that also gives the flags. *)
Definition addSuppressionPeer_flags (now : Z) (index : uint256) (peer : PeerShortID) (r : HashRouter) : bool * Z * HashRouter :=
  let '(created, r) := findCreateEntry now index r in
  let s := addPeer peer (entry_at index r) in
  (created, mFlags s, set_entry index s r).

Definition getFlags (now : Z) (index : uint256) (r : HashRouter) : Z * HashRouter :=
  let '(_, r) := findCreateEntry now index r in (mFlags (entry_at index r), r).

Definition addSuppressionFlags (now : Z) (index : uint256) (flag : Z) (r : HashRouter) : bool * HashRouter :=
  let '(created, r) := findCreateEntry now index r in
  (created, set_entry index (entry_setFlag flag (entry_at index r)) r).

(** Whether the flags were changed. *)
Definition setFlag (now : Z) (index : uint256) (flag : Z) (r : HashRouter) : bool * HashRouter :=
  let '(_, r) := findCreateEntry now index r in
  let s := entry_at index r in
  if Z.land (mFlags s) flag =? flag then (false, r)
  else (true, set_entry index (entry_setFlag flag s) r).

(** [swapSet]: the answer, the set of peers the caller has afterwards, the router. *)
Definition swapSet (now : Z) (index : uint256) (peers : gset PeerShortID) (flag : Z) (r : HashRouter) : bool * gset PeerShortID * HashRouter :=
  let '(_, r) := findCreateEntry now index r in
  let s := entry_at index r in
  if Z.land (mFlags s) flag =? flag then (false, peers, r)
  else
    let '(s, peers) := entry_swapSet peers s in
    (true, peers, set_entry index (entry_setFlag flag s) r).

(** ** Histories *)

Inductive Call : Type :=
| cAdd
| cPeer (peer : PeerShortID)
| cPeerFlags (peer : PeerShortID)
| cGetFlags
| cFlags (flag : Z)
| cSetFlag (flag : Z)
| cSwap (peers : gset PeerShortID) (flag : Z).

(** A call at a time, about a hash. *)
Definition step (c : Z * uint256 * Call) (r : HashRouter) : HashRouter :=
  let '(now, index, call) := c in
  match call with
  | cAdd => (addSuppression now index r).2
  | cPeer peer => (addSuppressionPeer now index peer r).2
  | cPeerFlags peer => (addSuppressionPeer_flags now index peer r).2
  | cGetFlags => (getFlags now index r).2
  | cFlags flag => (addSuppressionFlags now index flag r).2
  | cSetFlag flag => (setFlag now index flag r).2
  | cSwap peers flag => (swapSet now index peers flag r).2
  end.

Definition run (cs : list (Z * uint256 * Call)) (r : HashRouter) : HashRouter := foldl (fun r c => step c r) r cs.

(** ** The invariant *)

#[local] Existing Instance OrderedMap.Zltb_order.

(** The hash [h] was first met at time [t]. *)
Definition born (r : HashRouter) (h : uint256) (t : Z) : Prop := exists l, (t, l) ∈ mSuppressionTimes r /\ h ∈ l.

(** Every hash of the table has one time. *)
Record routed (r : HashRouter) : Prop := {
  rt_order : OrderedMap.ordered (fun _ => True) Z.ltb (mSuppressionTimes r);
  rt_known : forall h t, born r h t -> is_Some (mSuppressionMap r !! h);
  rt_timed : forall h, is_Some (mSuppressionMap r !! h) -> exists t, born r h t;
  rt_once : forall h t t', born r h t -> born r h t' -> t = t' }.

Lemma new_router_routed hold : routed (new_router hold).
Proof.
  split; [apply OrderedMap.ordered_nil|..]; cbn.
  - intros h t (l & Hl & _). by apply not_elem_of_nil in Hl.
  - intros h [e He]. by rewrite lookup_empty in He.
  - intros h t t' (l & Hl & _). by apply not_elem_of_nil in Hl.
Qed.

Lemma foldl_delete (hs : list uint256) (m : gmap uint256 Entry) (h : uint256) : foldl (fun m h => delete h m) m hs !! h = if decide (h ∈ hs) then None else m !! h.
Proof.
  revert m. induction hs as [|k hs IH]; intros m; cbn; [by rewrite decide_False by apply not_elem_of_nil|]. rewrite IH.
  destruct (decide (h ∈ hs)) as [Hin|Hn]; [by rewrite decide_True by (by apply list_elem_of_further)|].
  destruct (decide (h = k)) as [->|Hne]; [by rewrite lookup_delete_eq, decide_True by apply list_elem_of_here|].
  rewrite lookup_delete_ne by done. rewrite decide_False; [done|]. rewrite elem_of_cons. naive_solver.
Qed.

(** What expiring leaves: the hashes of another age. *)
Lemma expire_spec old r : routed r -> routed (expire old r) /\ mHoldTime (expire old r) = mHoldTime r /\
  (forall h t, born (expire old r) h t -> born r h t) /\
  (forall h e, mSuppressionMap (expire old r) !! h = Some e -> mSuppressionMap r !! h = Some e) /\
  (forall h t, born r h t -> old < t -> born (expire old r) h t /\ mSuppressionMap (expire old r) !! h = mSuppressionMap r !! h).
Proof.
  intros Hr. unfold expire. destruct (mSuppressionTimes r) as [|[first hs] times] eqn:Et; [by split_and!|].
  destruct (Z.leb_spec first old) as [Hle|Hlt]; [|by split_and!]. destruct Hr as [Ho Hk Ht H1]. rewrite Et in Ho.
  apply OrderedMap.ordered_cons in Ho as (_ & Hb & Ho).
  assert (Hsub : forall h t, born {| mSuppressionMap := foldl (fun m h => delete h m) (mSuppressionMap r) hs; mSuppressionTimes := times; mHoldTime := mHoldTime r |} h t -> born r h t).
  { intros h t (l & Hl & Hh). exists l. split; [|done]. rewrite Et. by apply list_elem_of_further. }
  assert (Hfirst : forall h, h ∈ hs -> born r h first) by (intros h Hh; exists hs; split; [rewrite Et; apply list_elem_of_here|done]).
  assert (Hrest : forall h t, born {| mSuppressionMap := foldl (fun m h => delete h m) (mSuppressionMap r) hs; mSuppressionTimes := times; mHoldTime := mHoldTime r |} h t -> h ∉ hs).
  { intros h t Hbn Hh. assert (t = first) as -> by (eapply H1; [by apply Hsub|by apply Hfirst]). destruct Hbn as (l & Hl & _).
    rewrite Forall_forall in Hb. specialize (Hb _ Hl). unfold OrderedMap.before in Hb. cbn in Hb. lia. }
  split_and!; cbn; [split; cbn| | | |]; try done.
  - intros h t Hbn. rewrite foldl_delete, decide_False by (by eapply Hrest). eapply Hk, Hsub, Hbn.
  - intros h. rewrite foldl_delete. case_decide as Hh; [by intros [? ?]|]. intros (t & l & Hl & Hin)%Ht. exists t, l. split; [|done].
    rewrite Et in Hl. apply elem_of_cons in Hl as [[= -> ->]|Hl]; [by destruct Hh|done].
  - intros h t t' Hb1 Hb2. eapply H1; by apply Hsub.
  - intros h e. rewrite foldl_delete. by case_decide.
  - intros h t (l & Hl & Hin) Hold. rewrite Et in Hl. apply elem_of_cons in Hl as [[= -> ->]|Hl]; [lia|].
    assert (Hbn : born {| mSuppressionMap := foldl (fun m h => delete h m) (mSuppressionMap r) hs; mSuppressionTimes := times; mHoldTime := mHoldTime r |} h t) by (by exists l).
    split; [done|]. rewrite foldl_delete, decide_False by (by eapply Hrest). done.
Qed.
Lemma note_time_born now i times t h : OrderedMap.ordered (fun _ => True) Z.ltb times ->
  (exists l, (t, l) ∈ note_time now i times /\ h ∈ l) <-> (exists l, (t, l) ∈ times /\ h ∈ l) \/ t = now /\ h = i.
Proof.
  intros Ho. unfold note_time. set (l0 := default [] _).
  assert (Hf : forall (m : list (Z * list uint256)) l, OrderedMap.ordered (fun _ => True) Z.ltb m -> (t, l) ∈ m <-> OrderedMap.find Z.ltb t m = Some l).
  { intros m l Hm. symmetry. by apply (OrderedMap.find_elem (fun _ => True) Z.ltb). }
  assert (Ha : OrderedMap.ordered (fun _ => True) Z.ltb (OrderedMap.assign Z.ltb now (l0 ++ [i]) times)).
  { by apply (OrderedMap.assign_ordered (fun _ => True) Z.ltb). }
  setoid_rewrite (Hf _ _ Ha). setoid_rewrite (Hf _ _ Ho). rewrite (OrderedMap.find_assign (fun _ => True) Z.ltb) by done.
  case_decide as E; [subst t|naive_solver]. unfold l0. destruct (OrderedMap.find Z.ltb now times) as [l|]; cbn; split.
  - intros (l' & [= <-] & [Hin| ->%list_elem_of_singleton]%elem_of_app); [left; by exists l|by right].
  - intros [(l' & [= <-] & Hin)|[_ ->]]; (eexists; split; [done|]); apply elem_of_app; [by left|right; by apply list_elem_of_singleton].
  - intros (l' & [= <-] & ->%list_elem_of_singleton). by right.
  - intros [(l' & [=] & _)|[_ ->]]. eexists. split; [done|]. by apply list_elem_of_singleton.
Qed.

Lemma findCreateEntry_spec now i r : routed r ->
  routed (findCreateEntry now i r).2 /\ mHoldTime (findCreateEntry now i r).2 = mHoldTime r /\ is_Some (mSuppressionMap (findCreateEntry now i r).2 !! i) /\
  (forall h t e, born r h t -> mSuppressionMap r !! h = Some e -> i32 (now - mHoldTime r) < t ->
     born (findCreateEntry now i r).2 h t /\ mSuppressionMap (findCreateEntry now i r).2 !! h = Some e) /\
  (mSuppressionMap r !! i = None -> born (findCreateEntry now i r).2 i now /\ mSuppressionMap (findCreateEntry now i r).2 !! i = Some new_entry).
Proof.
  intros Hr. unfold findCreateEntry. destruct (mSuppressionMap r !! i) as [e|] eqn:Ei; [by split_and!|]. cbn [snd mHoldTime mSuppressionMap].
  destruct (expire_spec (i32 (now - mHoldTime r)) r Hr) as (Hr' & -> & Hback & Hsame & Hkeep). set (r1 := expire _ r) in *.
  assert (Hi1 : mSuppressionMap r1 !! i = None) by (destruct (mSuppressionMap r1 !! i) eqn:E; [by rewrite (Hsame _ _ E) in Ei|done]).
  pose proof Hr' as [Ho Hk Ht H1]. set (r2 := {| mSuppressionMap := _ |}).
  assert (Hborn : forall h t, born r2 h t <-> born r1 h t \/ t = now /\ h = i) by (intros h t; by apply note_time_born).
  assert (Hno : forall t, ~ born r1 i t) by (intros t Hb; destruct (Hk _ _ Hb) as [e E]; by rewrite E in Hi1).
  split_and!; [split| | | |].
  - by apply (OrderedMap.assign_ordered (fun _ => True) Z.ltb).
  - intros h t [Hb|[-> ->]]%Hborn; cbn; [|by rewrite lookup_insert_eq]. destruct (decide (h = i)) as [->|]; [by rewrite lookup_insert_eq|].
    rewrite lookup_insert_ne by done. by eapply Hk.
  - intros h. cbn. destruct (decide (h = i)) as [->|]; [exists now; apply Hborn; by right|]. rewrite lookup_insert_ne by done.
    intros [t Hb]%Ht. exists t. apply Hborn. by left.
  - intros h t t' [Hb|[-> ->]]%Hborn [Hb'|[-> Hh]]%Hborn; [by eapply H1|by subst h; apply Hno in Hb|by apply Hno in Hb'|done].
  - done.
  - cbn. by rewrite lookup_insert_eq.
  - intros h t e Hb He Hold. destruct (Hkeep h t Hb Hold) as [Hb1 He1]. split; [apply Hborn; by left|]. cbn.
    rewrite lookup_insert_ne by (intros <-; by rewrite He in Ei). by rewrite He1.
  - intros _. split; [apply Hborn; by right|]. cbn. by rewrite lookup_insert_eq.
Qed.

(** Flags are never taken back. *)
Definition grows (e e' : Entry) : Prop := Z.land (mFlags e) (mFlags e') = mFlags e.

#[export] Instance grows_preorder : PreOrder grows.
Proof. split; [intros e; apply Z.land_diag|]. intros a b c H1 H2. unfold grows in *. by rewrite <- H1, <- Z.land_assoc, H2. Qed.

Lemma entry_setFlag_grows f e : grows e (entry_setFlag f e).
Proof. apply Z.bits_inj'. intros n _. cbn. rewrite Z.land_spec, Z.lor_spec. by destruct (Z.testbit _ n). Qed.

Lemma addPeer_grows p e : grows e (addPeer p e).
Proof. unfold addPeer. destruct (negb _); apply Z.land_diag. Qed.

Definition remembers (r r' : HashRouter) (now : Z) : Prop :=
  routed r' /\ mHoldTime r' = mHoldTime r /\
  forall h t e, born r h t -> mSuppressionMap r !! h = Some e -> i32 (now - mHoldTime r) < t ->
    born r' h t /\ exists e', mSuppressionMap r' !! h = Some e' /\ grows e e'.

(** Finding an entry, and writing one with more flags. *)
Lemma findCreateEntry_remembers now i r : routed r -> remembers r (findCreateEntry now i r).2 now.
Proof.
  intros Hr. destruct (findCreateEntry_spec now i r Hr) as (Hr' & Hh & _ & Hk & _). split_and!; [done|done|].
  intros h t e Hb He Hold. destruct (Hk h t e Hb He Hold). split; [done|]. exists e. by split.
Qed.

Lemma set_entry_remembers now i r r' e : remembers r r' now -> is_Some (mSuppressionMap r' !! i) -> grows (entry_at i r') e -> remembers r (set_entry i e r') now.
Proof.
  intros (Hr' & Hh & Hk) [e0 Hi] Hg. unfold entry_at in Hg. rewrite Hi in Hg. cbn in Hg. destruct Hr' as [Ho Hkn Ht H1]. split_and!; [split|done|]; cbn.
  - done.
  - intros h t Hb. destruct (decide (h = i)) as [->|]; [by rewrite lookup_insert_eq|]. rewrite lookup_insert_ne by done. by eapply Hkn.
  - intros h. destruct (decide (h = i)) as [->|]; [intros _; by apply Ht|]. rewrite lookup_insert_ne by done. apply Ht.
  - done.
  - intros h t e1 Hb He Hold. destruct (Hk h t e1 Hb He Hold) as (Hb' & e' & He' & Hgr). split; [done|].
    destruct (decide (h = i)) as [->|]; [|exists e'; by rewrite lookup_insert_ne]. exists e. rewrite lookup_insert_eq. split; [done|].
    rewrite Hi in He'. injection He' as <-. by etrans.
Qed.

Lemma step_remembers c r : routed r -> remembers r (step c r) c.1.1.
Proof.
  intros Hr. destruct c as [[now i] call]. cbn [fst]. pose proof (findCreateEntry_remembers now i r Hr) as Hf.
  destruct (findCreateEntry_spec now i r Hr) as (_ & _ & Hi & _). pose proof (set_entry_remembers now i r) as Hset.
  destruct call; cbn [step]; unfold addSuppression, addSuppressionPeer, addSuppressionPeer_flags, getFlags, addSuppressionFlags, setFlag, swapSet;
    destruct (findCreateEntry now i r) as [c r1]; cbn [snd] in *; try (destruct (_ =? _); cbn [snd]); try done;
    apply Hset; try done; try first [apply addPeer_grows|apply entry_setFlag_grows].
  etrans; [|apply entry_setFlag_grows]. apply Z.land_diag.
Qed.

Lemma run_remembers cs r h t e : routed r -> born r h t -> mSuppressionMap r !! h = Some e -> 0 <= mHoldTime r -> 0 <= t -> t + mHoldTime r <= 2147483647 ->
  Forall (fun c => 0 <= c.1.1 < t + mHoldTime r) cs ->
  routed (run cs r) /\ born (run cs r) h t /\ mHoldTime (run cs r) = mHoldTime r /\ exists e', mSuppressionMap (run cs r) !! h = Some e' /\ grows e e'.
Proof.
  unfold run. revert r e. induction cs as [|c cs IH]; intros r e Hr Hb He Hh Hz Hm Hc; [by split_and!; [..|exists e]|]. cbn [foldl].
  apply Forall_cons in Hc as [Hc Hcs]. destruct (step_remembers c r Hr) as (Hr' & Eh & Hk). destruct (Hk h t e Hb He) as (Hb' & e' & He' & Hg).
  { rewrite swrap_id by (unfold in_s; change (2 ^ (32 - 1)) with 2147483648; lia). lia. }
  rewrite <- Eh in *. destruct (IH (step c r) e') as (H1 & H2 & H3 & e2 & H4 & H5); [done..|]. split_and!; [done|done|done|]. exists e2. split; [done|]. by etrans.
Qed.

(** C39: a flag that was set stays set until the hold time is over.  After [setFlag] set
    flags on a hash that was not known, it says that they are set at every later call
    before [mHoldTime] seconds have passed, whatever calls about whatever hashes come
    between; the table and its expiration times stay consistent. *)
Theorem router_remembers (r : HashRouter) (h : uint256) (flag t now : Z) (cs : list (Z * uint256 * Call)) :
  routed r -> mSuppressionMap r !! h = None -> flag <> 0 -> 0 <= mHoldTime r -> 0 <= t -> t + mHoldTime r <= 2147483647 ->
  Forall (fun c => 0 <= c.1.1 < t + mHoldTime r) cs -> 0 <= now < t + mHoldTime r ->
  (setFlag t h flag r).1 = true /\
  (setFlag now h flag (run cs (setFlag t h flag r).2)).1 = false /\ routed (run cs (setFlag t h flag r).2).
Proof.
  intros Hr Hnew Hf Hh Hz Hm Hc Hn. destruct (findCreateEntry_spec t h r Hr) as (_ & Eh & Hi & _ & Hfresh). destruct (Hfresh Hnew) as [Hb He].
  pose proof (set_entry_remembers t h r _ (entry_setFlag flag new_entry) (findCreateEntry_remembers t h r Hr) Hi) as Hset.
  unfold setFlag at 1 3 4. destruct (findCreateEntry t h r) as [c r1]. cbn [snd] in *. unfold entry_at in *. rewrite He in *. cbn [default new_entry mFlags] in *.
  rewrite Z.land_0_l. destruct (Z.eqb_spec 0 flag) as [|_]; [congruence|]. cbn [fst snd]. split; [done|].
  destruct (Hset (entry_setFlag_grows _ _)) as (Hr2 & Eh2 & _). rewrite <- Eh2 in *.
  destruct (run_remembers cs (set_entry h (entry_setFlag flag new_entry) r1) h t (entry_setFlag flag new_entry)) as (H1 & H2 & H3 & e2 & H4 & H5); try done.
  { cbn. by rewrite lookup_insert_eq. }
  change (id new_entry) with new_entry. split; [|done]. unfold setFlag, findCreateEntry, entry_at. rewrite H4. cbn. rewrite H4. cbn. unfold grows in H5. cbn in H5. rewrite Z.land_comm in H5.
  rewrite Z.lor_0_l in H5. by rewrite H5, Z.eqb_refl.
Qed.

(** A flagged hash, other hashes five minutes long, the flag is still there. *)
Lemma router_remembers_witness :
  (setFlag 299 [7] SF_SIGGOOD (run [(100, [8], cAdd); (200, [7], cPeer 3); (299, [9], cFlags SF_BAD)] (setFlag 0 [7] SF_SIGGOOD (new_router getDefaultHoldTime)).2)).1 = false.
Proof.
  assert (Hc : Forall (fun c : Z * uint256 * Call => 0 <= c.1.1 < 0 + 300) [(100, [8], cAdd); (200, [7], cPeer 3); (299, [9], cFlags SF_BAD)]).
  { repeat (apply Forall_cons; split; [cbn; lia|]). constructor. }
  apply (router_remembers (new_router getDefaultHoldTime) [7] SF_SIGGOOD 0 299 _ (new_router_routed _) eq_refl); try exact Hc; vm_compute; try split; congruence.
Defined.

End HashRouter.
