(* ===== verification/CanonicalTXSet.v ===== *)
(** * The canonical order of transactions

    [src/src/ripple_app/misc/CanonicalTXSet.h] and [.cpp]: a set of transactions that
    iterates by account, sequence number and identifier.  Accounts are mixed with
    the hash of the set, so that nobody can choose an account to come first.

    The map is an [OrderedMap]; a [uint256] is the list of its bytes, an account the
    list of its words.  [canonical_order] states what the class promises. *)
From Stdlib Require Import ZArith Lia Sorted.
From S2P Require Import Prelude BaseUint STAmount SHAMapNode LedgerEntrySet LedgerNext TxMeta TxEngine EngineFrame OrderedMap.
From stdpp Require Import base numbers list gmap strings.
Import LedgerEntrySet TxEngine.
Local Open Scope Z_scope.

Module CanonicalTXSet.

Abbreviation key_ltb := SHAMapNode.key_ltb.

(** ** Keys *)

Record Key : Type := { mAccount : uint256; mTXid : uint256; mSeq : Z }.

#[export] Instance Key_eq_dec : EqDecision Key.
Proof. solve_decision. Defined.

Definition Key_lt (a b : Key) : bool :=
  if key_ltb (mAccount a) (mAccount b) then true
  else if key_ltb (mAccount b) (mAccount a) then false
  else if mSeq a <? mSeq b then true
  else if mSeq a >? mSeq b then false
  else key_ltb (mTXid a) (mTXid b).

Definition Key_gt (a b : Key) : bool :=
  if key_ltb (mAccount b) (mAccount a) then true
  else if key_ltb (mAccount a) (mAccount b) then false
  else if mSeq a >? mSeq b then true
  else if mSeq a <? mSeq b then false
  else key_ltb (mTXid b) (mTXid a).

Definition Key_le (a b : Key) : bool :=
  if key_ltb (mAccount a) (mAccount b) then true
  else if key_ltb (mAccount b) (mAccount a) then false
  else if mSeq a <? mSeq b then true
  else if mSeq a >? mSeq b then false
  else negb (key_ltb (mTXid b) (mTXid a)).

Definition Key_ge (a b : Key) : bool :=
  if key_ltb (mAccount b) (mAccount a) then true
  else if key_ltb (mAccount a) (mAccount b) then false
  else if mSeq a >? mSeq b then true
  else if mSeq a <? mSeq b then false
  else negb (key_ltb (mTXid a) (mTXid b)).

Definition Key_eq (a b : Key) : bool := bool_decide (mTXid a = mTXid b).
Definition Key_ne (a b : Key) : bool := bool_decide (mTXid a <> mTXid b).
Definition getTXID (k : Key) : uint256 := mTXid k.

(** ** The set *)

Record CanonicalTXSet : Type := { mSetHash : uint256; mMap : list (Key * SerializedTransaction) }.

Definition new_set (lastClosedLedgerHash : uint256) : CanonicalTXSet := {| mSetHash := lastClosedLedgerHash; mMap := [] |}.

(** [to256]: the bytes of the account first, then zeros. *)
Definition to256 (a : STAmount.uint160) : uint256 := BaseUint.to_bytes a ++ replicate 12 0.
Definition xor256 (a b : uint256) : uint256 := zip_with Z.lxor a b.

Definition getKey (txn : SerializedTransaction) (s : CanonicalTXSet) : Key :=
  {| mAccount := xor256 (mSetHash s) (to256 (getSourceAccount txn)); mTXid := getTransactionID txn; mSeq := getSequence txn |}.

Definition push_back (txn : SerializedTransaction) (s : CanonicalTXSet) : CanonicalTXSet :=
  {| mSetHash := mSetHash s; mMap := OrderedMap.insert Key_lt (getKey txn s) txn (mMap s) |}.

Definition erase (txn : SerializedTransaction) (s : CanonicalTXSet) : CanonicalTXSet :=
  {| mSetHash := mSetHash s; mMap := OrderedMap.erase Key_lt (getKey txn s) (mMap s) |}.

(** [erase (iterator)]: the set, and the number of the element after the erased one. *)
Definition erase_at (it : nat) (s : CanonicalTXSet) : CanonicalTXSet * nat :=
  ({| mSetHash := mSetHash s; mMap := delete it (mMap s) |}, it).

Definition find (txn : SerializedTransaction) (s : CanonicalTXSet) : option SerializedTransaction :=
  OrderedMap.find Key_lt (getKey txn s) (mMap s).

Definition reset (newLastClosedLedgerHash : uint256) (s : CanonicalTXSet) : CanonicalTXSet := new_set newLastClosedLedgerHash.
Definition set_size (s : CanonicalTXSet) : nat := length (mMap s).
Definition is_empty (s : CanonicalTXSet) : bool := match mMap s with [] => true | _ => false end.

(** The transactions in the order of iteration. *)
Definition items (s : CanonicalTXSet) : list SerializedTransaction := map snd (mMap s).

(** ** The order *)

Abbreviation good256 := SHAMapNode.is_uint256.

#[export] Instance key_ltb_order : OrderedMap.OrderOn good256 key_ltb.
Proof.
  split.
  - intros a Ha. rewrite LedgerNext.ltb_val by done. apply Z.ltb_irrefl.
  - intros a b c. apply LedgerNext.below_trans.
  - intros a b Ha Hb. rewrite !LedgerNext.ltb_val, !Z.ltb_ge by done. intros H1 H2.
    apply (be_val_inj 256 a b); [lia|by destruct Ha as [-> _], Hb as [-> _]|apply Ha|apply Hb|lia].
Qed.

Definition good_key (k : Key) : Prop := good256 (mAccount k) /\ good256 (mTXid k).

(** The number of a key, in the order of its three parts. *)
Lemma Key_lt_spec a b : good_key a -> good_key b -> Key_lt a b = true <->
  (key_ltb (mAccount a) (mAccount b) = true \/ mAccount a = mAccount b /\ (mSeq a < mSeq b \/ mSeq a = mSeq b /\ key_ltb (mTXid a) (mTXid b) = true)).
Proof.
  intros [Ha _] [Hb _]. unfold Key_lt.
  destruct (OrderedMap.compare_keys good256 key_ltb (mAccount a) (mAccount b) Ha Hb) as [Hne E|Hne E|E]; [naive_solver|naive_solver|].
  destruct (Z.ltb_spec (mSeq a) (mSeq b)); [naive_solver|]. rewrite Z.gtb_ltb. destruct (Z.ltb_spec (mSeq b) (mSeq a)); [naive_solver lia|].
  naive_solver lia.
Qed.
#[export] Instance Key_order : OrderedMap.OrderOn good_key Key_lt.
Proof.
  split.
  - intros a Ha. apply not_true_iff_false. rewrite Key_lt_spec by done. destruct Ha as [H1 H2]. rewrite !OrderedMap.ltb_irrefl by done. naive_solver lia.
  - intros a b c Ha Hb Hc. rewrite !Key_lt_spec by done. destruct Ha as [A1 A2], Hb as [B1 B2], Hc as [C1 C2].
    intros [H1|(E1 & [H1|[F1 H1]])] [H2|(E2 & [H2|[F2 H2]])]; try (left; congruence || by eapply (OrderedMap.ltb_trans (mAccount a) (mAccount b))).
    all: right; split; [congruence|]; try (left; lia). right. split; [lia|]. by apply (OrderedMap.ltb_trans _ (mTXid b)).
  - intros a b Ha Hb H1%not_true_iff_false H2%not_true_iff_false. rewrite Key_lt_spec in H1, H2 by done.
    destruct a as [aa ai an], b as [ba bi bn], Ha as [A1 A2], Hb as [B1 B2]. cbn in *.
    destruct (OrderedMap.compare_keys good256 key_ltb aa ba A1 B1) as [Hne E|Hne E|<-]; [destruct H2; by left|destruct H1; by left|].
    assert (an = bn) as <-.
    { assert (~ an < bn) by (intros ?; apply H1; right; split; [done|by left]). assert (~ bn < an) by (intros ?; apply H2; right; split; [done|by left]). lia. }
    destruct (OrderedMap.compare_keys good256 key_ltb ai bi A2 B2) as [Hne E|Hne E|<-]; [|..|done].
    + destruct H2. right. split; [done|by right].
    + destruct H1. right. split; [done|by right].
Qed.

(** The other comparisons of keys agree with [<]. *)
Lemma Key_operators a b : good_key a -> good_key b ->
  Key_gt a b = Key_lt b a /\ Key_le a b = negb (Key_lt b a) /\ Key_ge a b = negb (Key_lt a b).
Proof.
  intros [Ha _] [Hb _]. unfold Key_gt, Key_le, Key_ge, Key_lt. rewrite !Z.gtb_ltb.
  destruct (OrderedMap.compare_keys good256 key_ltb (mAccount a) (mAccount b) Ha Hb); [done|done|].
  destruct (Z.ltb_spec (mSeq a) (mSeq b)), (Z.ltb_spec (mSeq b) (mSeq a)); try done. lia.
Qed.

(** ** Salted accounts *)

Definition good_tx (t : SerializedTransaction) : Prop := BaseUint.wf BaseUint.W160 (getSourceAccount t) /\ good256 (getTransactionID t).

Lemma in_u_lxor w a b : 0 <= w -> in_u w a -> in_u w b -> in_u w (Z.lxor a b).
Proof.
  unfold in_u. intros Hw Ha Hb. assert (0 <= Z.lxor a b) by (apply Z.lxor_nonneg; lia). split; [done|].
  destruct (decide (Z.lxor a b = 0)) as [->|]; [lia|]. apply Z.log2_lt_pow2; [lia|].
  pose proof (Z.log2_lxor a b ltac:(lia) ltac:(lia)) as Hl. eapply Z.le_lt_trans; [exact Hl|].
  assert (H1 : forall x, 0 <= x < 2 ^ w -> x = 0 \/ Z.log2 x < w) by (intros x Hx; destruct (decide (x = 0)); [by left|right; apply Z.log2_lt_pow2; lia]).
  assert (0 < w) by (destruct (decide (w = 0)) as [->|]; [|lia]; change (2 ^ 0) with 1 in *; assert (a = 0) as -> by lia; assert (b = 0) as -> by lia; done).
  assert (H2 : forall x, 0 <= x < 2 ^ w -> Z.log2 x < w) by (intros x Hx; destruct (H1 x Hx) as [->|]; [done|done]).
  apply Z.max_lub_lt; by apply H2.
Qed.

Lemma to256_good a : BaseUint.wf BaseUint.W160 a -> good256 (to256 a).
Proof.
  intros [La Ha]. split.
  - unfold to256. rewrite length_app, BaseUint.length_to_bytes, La. done.
  - apply Forall_app. split; [by apply BaseUint.to_bytes_u8|by repeat constructor].
Qed.

Lemma xor256_good a b : good256 a -> good256 b -> good256 (xor256 a b).
Proof.
  intros [La Ha] [Lb Hb]. unfold xor256. split; [rewrite length_zip_with; lia|]. apply Forall_zip_with_fst with (P := is_u8); [done|].
  eapply Forall_impl; [exact Hb|]. intros y Hy x Hx. by apply in_u_lxor.
Qed.

Lemma xor256_inj s a b : length a = length b -> (length a <= length s)%nat -> xor256 s a = xor256 s b -> a = b.
Proof.
  unfold xor256. revert s b. induction a as [|x a IH]; intros [|z s] [|y b] Hl Hs E; try done; try (cbn [length] in Hs, Hl; lia).
  injection E as E1 E2. f_equal; [|apply (IH s b); [by injection Hl|by cbn [length] in Hs; lia|exact E2]].
  apply (f_equal (Z.lxor z)) in E1. by rewrite <- !Z.lxor_assoc, Z.lxor_nilpotent, !Z.lxor_0_l in E1.
Qed.

Definition salted (salt : uint256) (t : SerializedTransaction) : Key := getKey t (new_set salt).

Lemma salted_good salt t : good256 salt -> good_tx t -> good_key (salted salt t).
Proof. intros Hs [Ha Hi]. split; [by apply xor256_good, to256_good|done]. Qed.

(** The salt keeps accounts apart. *)
Lemma salted_account salt t t' : good256 salt -> good_tx t -> good_tx t' ->
  mAccount (salted salt t) = mAccount (salted salt t') <-> getSourceAccount t = getSourceAccount t'.
Proof.
  intros [Ls _] [Ha _] [Hb _]. split; [|cbn; by intros ->]. cbn. intros E.
  destruct (to256_good _ Ha) as [La _], (to256_good _ Hb) as [Lb _]. apply xor256_inj in E; [|lia|lia].
  unfold to256 in E. apply app_inj_2 in E as [E _]; [|done]. rewrite <- (BaseUint.of_to_bytes _ (proj2 Ha)), <- (BaseUint.of_to_bytes _ (proj2 Hb)). by rewrite E.
Qed.

(** ** Sets *)

Abbreviation ordered := (OrderedMap.ordered good_key Key_lt).

(** Every element is under its own key. *)
Record well_kept (s : CanonicalTXSet) : Prop := {
  wk_salt : good256 (mSetHash s);
  wk_order : ordered (mMap s);
  wk_keys : forall k t, (k, t) ∈ mMap s -> k = salted (mSetHash s) t /\ good_tx t }.

Lemma new_set_kept salt : good256 salt -> well_kept (new_set salt).
Proof. intros Hs. split; [done|apply OrderedMap.ordered_nil|]. by intros k t ?%not_elem_of_nil. Qed.

Lemma push_back_kept t s : well_kept s -> good_tx t -> well_kept (push_back t s).
Proof.
  intros [Hs Ho Hk] Ht. split; [done|by apply (OrderedMap.insert_ordered good_key Key_lt); [apply salted_good|]|].
  intros k t' [[= -> ->]|Hin]%OrderedMap.insert_elem; [done|by apply Hk].
Qed.

Lemma erase_kept t s : well_kept s -> good_tx t -> well_kept (erase t s).
Proof.
  intros [Hs Ho Hk] Ht. split; [done|by apply (OrderedMap.erase_ordered good_key Key_lt); [apply salted_good|]|].
  intros k t' Hin%OrderedMap.erase_elem. by apply Hk.
Qed.

Lemma items_find t s : well_kept s -> good_tx t -> t ∈ items s <-> OrderedMap.find Key_lt (salted (mSetHash s) t) (mMap s) = Some t.
Proof.
  intros [Hs Ho Hk] Ht. rewrite (OrderedMap.find_elem good_key Key_lt) by (done || by apply salted_good). unfold items. split.
  - intros ([k t'] & -> & Hin)%list_elem_of_fmap. destruct (Hk _ _ Hin) as [-> _]. done.
  - intros Hin. by apply (list_elem_of_fmap_2 snd) in Hin.
Qed.

Lemma items_good t s : well_kept s -> t ∈ items s -> good_tx t.
Proof. intros [_ _ Hk] ([k t'] & -> & Hin)%list_elem_of_fmap. by apply (Hk k t'). Qed.

(** Identifiers name transactions. *)
Definition same_id (ts : list SerializedTransaction) : Prop :=
  forall t t', t ∈ ts -> t' ∈ ts -> getTransactionID t = getTransactionID t' -> t = t'.

Lemma salted_id salt t t' : salted salt t = salted salt t' -> getTransactionID t = getTransactionID t'.
Proof. intros E. by injection E. Qed.

Lemma items_push t t' s : well_kept s -> good_tx t -> good_tx t' -> same_id (t :: items s) ->
  t' ∈ items (push_back t s) <-> t' = t \/ t' ∈ items s.
Proof.
  intros Hs Ht Ht' Hid. pose proof Hs as [Hsalt Ho Hk]. rewrite (items_find t' (push_back t s)), (items_find t' s) by (done || by apply push_back_kept). cbn [push_back mMap mSetHash].
  rewrite (OrderedMap.find_insert good_key Key_lt) by (done || by apply salted_good). case_decide as E; [|split; [by right|intros [->|?]; [by destruct E|done]]].
  change (getKey t s) with (salted (mSetHash s) t) in *.
  assert (Hold : forall u, OrderedMap.find Key_lt (salted (mSetHash s) t) (mMap s) = Some u -> u = t).
  { intros u Hu. apply (OrderedMap.find_elem good_key Key_lt) in Hu; [|done|by apply salted_good]. destruct (Hk _ _ Hu) as [Eu _]. symmetry. apply Hid.
    - apply list_elem_of_here.
    - apply list_elem_of_further. by apply (list_elem_of_fmap_2 snd) in Hu.
    - by apply salted_id in Eu. }
  rewrite E. destruct (OrderedMap.find Key_lt (salted (mSetHash s) t) (mMap s)) as [u|]; cbn; [rewrite (Hold u eq_refl)|]; naive_solver.
Qed.

Lemma items_erase t t' s : well_kept s -> good_tx t -> good_tx t' -> same_id (t :: items s) -> t' ∈ items (erase t s) <-> t' <> t /\ t' ∈ items s.
Proof.
  intros Hs Ht Ht' Hid. pose proof Hs as [Hsalt Ho Hk]. rewrite (items_find t' (erase t s)), (items_find t' s) by (done || by apply erase_kept). cbn [erase mMap mSetHash].
  rewrite (OrderedMap.find_erase good_key Key_lt) by (done || by apply salted_good). case_decide as E; [|split; [intros H; split; [by intros ->|done]|by intros [_ ?]]].
  split; [done|]. intros [Hne Hin]. destruct Hne. symmetry. apply Hid; [apply list_elem_of_here|apply list_elem_of_further; by apply items_find|].
  symmetry. by apply (salted_id (mSetHash s)).
Qed.

(** The transactions of a list, pushed one after the other. *)
Definition collect (salt : uint256) (txs : list SerializedTransaction) : CanonicalTXSet :=
  foldl (fun s t => push_back t s) (new_set salt) txs.

Lemma collect_spec salt txs : good256 salt -> Forall good_tx txs -> same_id txs ->
  well_kept (collect salt txs) /\ mSetHash (collect salt txs) = salt /\ forall t, t ∈ items (collect salt txs) <-> t ∈ txs.
Proof.
  intros Hs. unfold collect. induction txs as [|t txs IH] using rev_ind; intros Hg Hid.
  { split_and!; [by apply new_set_kept|done|]. intros t. cbn. done. }
  apply Forall_app in Hg as [Hg [Ht _]%Forall_cons]. destruct IH as (Hk & Hh & Hi); [done|intros u u' Hu Hu'; apply Hid; set_solver|].
  rewrite foldl_app. cbn [foldl]. split_and!; [by apply push_back_kept|done|]. intros t'.
  assert (Hsame : same_id (t :: items (foldl (λ s t, push_back t s) (new_set salt) txs))).
  { intros u u' Hu Hu'. apply Hid; revert Hu Hu'; rewrite !elem_of_cons, !Hi; set_solver. }
  rewrite elem_of_app, list_elem_of_singleton, <- Hi. destruct (decide (good_tx t')) as [Hg'|Hn].
  - rewrite items_push by done. naive_solver.
  - assert (t' ∉ txs) by (intros Hin; apply Hn; by rewrite Forall_forall in Hg; apply Hg). split.
    + intros Hin. destruct Hn. by apply (items_good _ (push_back t (foldl (λ s t, push_back t s) (new_set salt) txs))); [apply push_back_kept|].
    + rewrite Hi. intros [Hin|Et]; [done|]. by subst t'.
Qed.

Lemma items_lookup s i t : well_kept s -> items s !! i = Some t -> mMap s !! i = Some (salted (mSetHash s) t, t) /\ good_tx t.
Proof.
  intros [_ _ Hk] Hi. unfold items in Hi. change (map snd (mMap s)) with (snd <$> mMap s) in Hi. apply list_lookup_fmap_Some in Hi as ([k t'] & -> & Hi).
  cbn. destruct (Hk k t') as [<- Hg]; [by eapply list_elem_of_lookup_2|]. done.
Qed.

(** Two elements compare as their positions. *)
Lemma items_before s i j t t' : well_kept s -> (i < j)%nat -> items s !! i = Some t -> items s !! j = Some t' ->
  Key_lt (salted (mSetHash s) t) (salted (mSetHash s) t') = true.
Proof.
  intros Hs Hij [Hi _]%items_lookup [Hj _]%items_lookup; [|done|done].
  apply (OrderedMap.ordered_lookup good_key Key_lt (mMap s) i j _ _ (wk_order _ Hs) Hij Hi Hj).
Qed.

(** Where two elements are of the same account, so are those between them. *)
Lemma items_runs s i j t t' : well_kept s -> (i < j)%nat -> items s !! i = Some t -> items s !! j = Some t' -> getSourceAccount t = getSourceAccount t' ->
  getSequence t <= getSequence t' /\ forall l u, (i < l < j)%nat -> items s !! l = Some u -> getSourceAccount u = getSourceAccount t.
Proof.
  intros Hs Hij Hi Hj Ha. pose proof (wk_salt _ Hs) as Hsalt. pose proof (proj2 (items_lookup _ _ _ Hs Hi)) as Gt. pose proof (proj2 (items_lookup _ _ _ Hs Hj)) as Gt'.
  assert (Hacc : mAccount (salted (mSetHash s) t) = mAccount (salted (mSetHash s) t')) by (by apply salted_account).
  assert (Hirr : forall k, good256 k -> key_ltb k k <> true) by (intros k Hk; by rewrite OrderedMap.ltb_irrefl).
  split.
  - pose proof (items_before s i j t t' Hs Hij Hi Hj) as Hlt. apply Key_lt_spec in Hlt; [|by apply salted_good..]. rewrite Hacc in Hlt.
    destruct Hlt as [Hlt|(_ & [Hlt|[Hlt _]])]; [by apply Hirr in Hlt; [|apply salted_good]|cbn in Hlt; lia..].
  - intros l u Hl Hu. pose proof (proj2 (items_lookup _ _ _ Hs Hu)) as Gu. apply (salted_account (mSetHash s)); [done|done|done|].
    pose proof (items_before s i l t u Hs (proj1 Hl) Hi Hu) as H1. pose proof (items_before s l j u t' Hs (proj2 Hl) Hu Hj) as H2.
    apply Key_lt_spec in H1, H2; [|by apply salted_good..]. rewrite <- Hacc in H2.
    destruct H1 as [H1|[H1 _]], H2 as [H2|[H2 _]]; try congruence.
    destruct (Hirr (mAccount (salted (mSetHash s) t))); [by apply salted_good|]. eapply (OrderedMap.ltb_trans _ (mAccount (salted (mSetHash s) u))); try done; by apply salted_good.
Qed.

(** C11: the canonical set does what its name says.  Whatever transactions are put in,
    each is in it once; iterating meets the transactions of an account one after the
    other and in the order of their sequence numbers, whatever the salt; and the order
    does not depend on the order they were put in, so that servers that agree on the
    set agree on the order. *)
Theorem canonical_order (salt : uint256) (txs : list SerializedTransaction) :
  good256 salt -> Forall good_tx txs -> same_id txs ->
  (forall t, t ∈ items (collect salt txs) <-> t ∈ txs) /\ NoDup (items (collect salt txs)) /\
  (forall i j t t', (i < j)%nat -> items (collect salt txs) !! i = Some t -> items (collect salt txs) !! j = Some t' ->
    getSourceAccount t = getSourceAccount t' ->
    getSequence t <= getSequence t' /\
    forall l u, (i < l < j)%nat -> items (collect salt txs) !! l = Some u -> getSourceAccount u = getSourceAccount t) /\
  (forall txs', txs' ≡ₚ txs -> collect salt txs' = collect salt txs).
Proof.
  intros Hs Hg Hid. destruct (collect_spec salt txs Hs Hg Hid) as (Hk & Hh & Hi). split_and!; [done| | |].
  - apply NoDup_alt. intros i j t E1 E2. assert (Hno : forall i j, (i < j)%nat -> items (collect salt txs) !! i = Some t -> items (collect salt txs) !! j = Some t -> False).
    { intros a b Hab Ha Hb. pose proof (items_before _ _ _ _ _ Hk Hab Ha Hb) as Hlt. destruct (items_lookup _ _ _ Hk Ha) as [_ Gt].
      rewrite (OrderedMap.ltb_irrefl (P := good_key)) in Hlt; [done|]. apply salted_good; [apply Hk|done]. }
    destruct (Nat.lt_trichotomy i j) as [Hl|[|Hl]]; [by destruct (Hno i j)|done|by destruct (Hno j i)].
  - intros i j t t' Hij E1 E2 Ha. by apply (items_runs _ i j t t').
  - intros txs' Hp. destruct (collect_spec salt txs') as (Hk' & Hh' & Hi'); [done|by rewrite Hp|intros t t'; rewrite !Hp; apply Hid|].
    assert (Hmap : mMap (collect salt txs') = mMap (collect salt txs)).
    { apply (OrderedMap.ordered_ext good_key Key_lt); [apply Hk'|apply Hk|]. intros k Gk. apply option_eq. intros t.
      rewrite !(OrderedMap.find_elem good_key Key_lt) by (done || apply Hk || apply Hk').
      assert (Hel : forall s, well_kept s -> mSetHash s = salt -> (k, t) ∈ mMap s <-> t ∈ items s /\ k = salted salt t).
      { intros s Hks Hsh. split.
        - intros Hin. destruct (wk_keys _ Hks _ _ Hin) as [Ek _]. rewrite Hsh in Ek. split; [by apply (list_elem_of_fmap_2 snd) in Hin|done].
        - intros [([k' u] & -> & Hin)%list_elem_of_fmap ->]. destruct (wk_keys _ Hks _ _ Hin) as [-> _]. by rewrite Hsh in Hin. }
      rewrite !Hel, Hi, Hi', Hp by done. done. }
    destruct (collect salt txs'), (collect salt txs). cbn in *. by subst.
Qed.

(** Two payments of alice and one of bob, alice's in the wrong order. *)
Definition sample_txs : list SerializedTransaction :=
  [EngineFrame.payment 100 7 EngineFrame.alice EngineFrame.bob 6 10 500; EngineFrame.payment 101 8 EngineFrame.bob EngineFrame.alice 1 10 5;
   EngineFrame.payment 102 7 EngineFrame.alice EngineFrame.bob 5 10 500].

Lemma sample_txs_good : Forall good_tx sample_txs.
Proof. repeat (apply Forall_cons; split; [by_decide|]). constructor. Defined.

Lemma sample_txs_ids : same_id sample_txs.
Proof.
  intros t t'. unfold sample_txs. rewrite !elem_of_cons. intros [->|[->|[->|[]%not_elem_of_nil]]] [->|[->|[->|[]%not_elem_of_nil]]] E;
    try reflexivity; exfalso; vm_compute in E; discriminate.
Defined.

Lemma canonical_order_witness :
  map getSequence (items (collect SHAMapNode.zero256 sample_txs)) = [5; 6; 1] /\ NoDup (items (collect SHAMapNode.zero256 sample_txs)).
Proof.
  split; [vm_compute; reflexivity|]. apply (canonical_order SHAMapNode.zero256 sample_txs SHAMapNode.zero256_key sample_txs_good sample_txs_ids).
Defined.

End CanonicalTXSet.
