(* ===== verification/CloseLedger.v ===== *)
(** * Closing a ledger

    [LedgerConsensus::applyTransactions] and [applyTransaction]
    ([src/src/ripple_app/consensus/LedgerConsensus.cpp]): the transactions of the
    agreed set are applied to the closing ledger, first in the order of their
    identifiers, then, as long as that helps, in passes over the canonical order of
    those that may be tried again.

    The state is the engine's, with the hash router, the cache of transactions and the
    number of times the clock was read.  A transaction object is shared by all who
    point to it, and the engine marks on it what it learns of its signature
    ([checked]): [touch] writes a marked object back wherever it is.

    Not modelled and so parameters ([Node]): the clock, the database of transactions
    and the decoding of a transaction from its bytes.  The cache is a table without a
    limit to its size.  An [assert] that fails is
    undefined behaviour here, like everything else that no handler catches. *)
From Stdlib Require Import ZArith Lia.
From S2P Require Import Prelude BaseUint STAmount STAmountMath Book SHAMapNode Effects FeeTrack LedgerEntrySet TrustLines TxMeta TxEngine Transactors OrderedMap HashRouter CanonicalTXSet.
From stdpp Require Import base numbers list gmap strings.
Import Effects LedgerEntrySet TxEngine Transactors.
Local Open Scope Z_scope.

Module CloseLedger.

(** ** Transactions as the server keeps them *)

Inductive TransStatus : Type := NEW | INVALID | INCLUDED | CONFLICTED | COMMITTED | HELD | REMOVED | OBSOLETE | INCOMPLETE.

Record Transaction : Type := { mSerializedTransaction : SerializedTransaction; mInLedger : Z; mStatus : TransStatus; mResult : TER }.

Definition temUNCERTAIN : TER := -271.

Definition new_Transaction (sit : SerializedTransaction) : Transaction :=
  {| mSerializedTransaction := sit; mInLedger := 0; mStatus := NEW; mResult := temUNCERTAIN |}.
Definition setResult (terResult : TER) (t : Transaction) : Transaction :=
  {| mSerializedTransaction := mSerializedTransaction t; mInLedger := mInLedger t; mStatus := mStatus t; mResult := terResult |}.

(** The clock at its [n]th reading, [Transaction::load], and the constructor of a
    transaction from the data of an item. *)
Class Node : Type := {
  getElapsedSeconds : nat -> Z;
  load : uint256 -> option Transaction;
  SerializedTransaction_of : list Z -> result SerializedTransaction }.

(** ** State *)

Record Server : Type := {
  eng : TxState;
  router : HashRouter.HashRouter;
  mCache : gmap uint256 Transaction;
  readings : nat }.

Abbreviation C := (Eff Server).

Definition set_eng (w : TxState) (s : Server) : Server := {| eng := w; router := router s; mCache := mCache s; readings := readings s |}.
Definition set_router (r : HashRouter.HashRouter) (s : Server) : Server := {| eng := eng s; router := r; mCache := mCache s; readings := readings s |}.
Definition set_cache (c : gmap uint256 Transaction) (s : Server) : Server := {| eng := eng s; router := router s; mCache := c; readings := readings s |}.
Definition tick (s : Server) : Server := {| eng := eng s; router := router s; mCache := mCache s; readings := S (readings s) |}.

Definition on_engine {A} (c : T A) : C A := fun s => let '(r, w) := c (eng s) in (r, set_eng w s).

(** [try ... catch (...)]. *)
Definition try_catch {A} (c : C A) (handler : C A) : C A := fun s =>
  match c s with
  | (Ok a, s) => (Ok a, s)
  | (Throw (undefined what), s) => (Throw (undefined what), s)
  | (Throw _, s) => handler s
  end.

Definition assert (b : bool) : C unit := if b then mret tt else raise (undefined "assertion").

Section Closing.
Context `{SHA : SHA512} `{K : Keys} `{App : Application} `{P : Paths} `{V : Votes} `{N : Node}.

(** A call of the hash router, which reads the clock. *)
Definition routing {A} (f : Z -> HashRouter.HashRouter -> A * HashRouter.HashRouter) : C A := fun s =>
  let '(a, r) := f (getElapsedSeconds (readings s)) (router s) in (Ok a, tick (set_router r s)).

(** ** The cache of transactions *)

(** [TransactionMaster::fetch (txnID, true)]. *)
Definition fetch (txnID : uint256) : C (option Transaction) :=
  c ← reads mCache;
  match c !! txnID with
  | Some txn => mret (Some txn)
  | None =>
      match load txnID with
      | None => mret None
      | Some txn => _ ← modifies (set_cache (<[txnID := txn]> c)); mret (Some txn)
      end
  end.

(** [TransactionMaster::canonicalize]: the new transaction replaces the old one. *)
Definition canonicalize (txn : Transaction) : C bool :=
  let tid := getTransactionID (mSerializedTransaction txn) in
  if SHAMapNode.isZero tid then mret false
  else
    c ← reads mCache;
    _ ← modifies (set_cache (<[tid := txn]> c));
    mret (match c !! tid with Some _ => true | None => false end).

(** What the server tells of a transaction that had no effect. *)
Definition remember_result (txn : SerializedTransaction) (result : TER) : C unit :=
  trans ← fetch (getTransactionID txn);
  if match trans with Some t => negb (mInLedger t =? 0) | None => false end then mret tt
  else _ ← canonicalize (setResult result (new_Transaction txn)); mret tt.

(** ** One transaction *)

Inductive ApplytransactionResult : Type := resultSuccess | resultFail | resultRetry.

Definition tapNONE : Z := 0.

Definition isTelLocal (x : TER) : bool := (telLOCAL_ERROR <=? x) && (x <? temMALFORMED).
Definition isTemMalformed (x : TER) : bool := (temMALFORMED <=? x) && (x <? tefFAILURE).
Definition isTefFailure (x : TER) : bool := (tefFAILURE <=? x) && (x <? terRETRY).

Definition with_marks (good bad : bool) (t : SerializedTransaction) : SerializedTransaction :=
  {| getTransactionID := getTransactionID t; getSigningHash := getSigningHash t; getTxnType := getTxnType t; txFields := txFields t;
     getSigningPubKey := getSigningPubKey t; getSignature := getSignature t; txPaths := txPaths t; mSigGood := good; mSigBad := bad |}.

(** What [Transactor::preCheck] leaves on the transaction; changes are not signed. *)
Definition checked (params : Z) (t : SerializedTransaction) : SerializedTransaction :=
  if SHAMapNode.isZero (getTransactionID t) then t
  else
    match getTxnType t with
    | ttAMENDMENT | ttFEE => t
    | _ =>
        if BaseUint.isZero (getSourceAccount t) || mSigGood t then t
        else if mSigBad t || (negb (is_bit_set params tapNO_CHECK_SIGN) && negb (verifySignature (getSigningPubKey t) (getSigningHash t) (getSignature t)))
        then with_marks (mSigGood t) true t
        else with_marks true (mSigBad t) t
    end.

Definition engine_params (openLedger retryAssured knownGood : bool) : Z :=
  let parms := if openLedger then tapOPEN_LEDGER else tapNONE in
  let parms := if retryAssured then Z.lor parms tapRETRY else parms in
  if knownGood then Z.lor parms tapNO_CHECK_SIGN else parms.

(** The result, and the transaction with its marks. *)
Definition applyTransaction (mClosingLedger : bool) (txn : SerializedTransaction) (openLedger retryAssured : bool) : C (ApplytransactionResult * SerializedTransaction) :=
  changed ← routing (fun now => HashRouter.setFlag now (getTransactionID txn) HashRouter.SF_SIGGOOD);
  let parms := engine_params openLedger retryAssured changed in
  let txn' := checked parms txn in
  res ← try_catch
    ('(result, didApply) ← on_engine (engine mClosingLedger txn parms);
     let fatalError := isTefFailure result || isTemMalformed result || isTelLocal result in
     if (didApply : bool) then mret resultSuccess
     else
       _ ← (if fatalError || (negb retryAssured && negb openLedger) then remember_result txn' result else mret tt);
       if fatalError then mret resultFail
       else
         has ← reads (fun s => hasTransaction (getTransactionID txn) (lgr (eng s)));
         _ ← assert (openLedger || negb has);
         mret resultRetry)
    (mret resultFail);
  mret (res, txn').

(** ** The set *)

(** The transactions to be applied, and the two sets the caller gets. *)
Record Sets : Type := {
  txns : list (uint256 * SerializedTransaction);
  retriableTransactions : CanonicalTXSet.CanonicalTXSet;
  failedTransactions : gset uint256 }.

Abbreviation key_ltb := SHAMapNode.key_ltb.

(** The transaction object of [hash] has been marked. *)
Definition touch (hash : uint256) (txn : SerializedTransaction) (s : Sets) : Sets :=
  let r := retriableTransactions s in
  let k := CanonicalTXSet.getKey txn r in
  {| txns := OrderedMap.assign key_ltb hash txn (txns s);
     retriableTransactions :=
       match OrderedMap.find CanonicalTXSet.Key_lt k (CanonicalTXSet.mMap r) with
       | Some _ => {| CanonicalTXSet.mSetHash := CanonicalTXSet.mSetHash r;
                      CanonicalTXSet.mMap := OrderedMap.assign CanonicalTXSet.Key_lt k txn (CanonicalTXSet.mMap r) |}
       | None => r
       end;
     failedTransactions := failedTransactions s |}.

Definition push_retriable (txn : SerializedTransaction) (s : Sets) : Sets :=
  {| txns := txns s; retriableTransactions := CanonicalTXSet.push_back txn (retriableTransactions s); failedTransactions := failedTransactions s |}.
Definition erase_retriable (txn : SerializedTransaction) (s : Sets) : Sets :=
  {| txns := txns s; retriableTransactions := CanonicalTXSet.erase txn (retriableTransactions s); failedTransactions := failedTransactions s |}.
Definition fail (hash : uint256) (s : Sets) : Sets :=
  {| txns := txns s; retriableTransactions := retriableTransactions s; failedTransactions := {[hash]} ∪ failedTransactions s |}.
Definition erase_txn (hash : uint256) (s : Sets) : Sets :=
  {| txns := OrderedMap.erase key_ltb hash (txns s); retriableTransactions := retriableTransactions s; failedTransactions := failedTransactions s |}.

(** [txns.at] throws when the map has no such transaction. *)
Definition at_hash (hash : uint256) (s : Sets) : C SerializedTransaction :=
  match OrderedMap.find key_ltb hash (txns s) with
  | Some txn => mret txn
  | None => raise (runtime_error "map::at")
  end.

(** The candidates: the items of the set, in the order of their tags, that the ledger
    does not have. *)
Fixpoint candidates (checkLedger : LedgerHeader) (set : list SHAMapNode.SHAMapItem) (m : list (uint256 * SerializedTransaction))
    : C (list (uint256 * SerializedTransaction)) :=
  match set with
  | [] => mret m
  | item :: set =>
      m ← (if negb (hasTransaction (SHAMapNode.mTag item) checkLedger) then
             txn ← pure_result (SerializedTransaction_of (SHAMapNode.mData item));
             mret (OrderedMap.assign key_ltb (SHAMapNode.mTag item) txn m)
           else mret m);
      candidates checkLedger set m
  end.

Section Ledger.
Context (mClosingLedger openLgr : bool).

(** The first attempt. *)
Definition attempt (hash : uint256) (s : Sets) : C Sets :=
  try_catch
    (txn ← at_hash hash s;
     '(tx_res, txn) ← applyTransaction mClosingLedger txn openLgr true;
     let s := touch hash txn s in
     mret match tx_res with
          | resultRetry => push_retriable txn s
          | resultFail => erase_txn hash (fail hash s)
          | resultSuccess => erase_txn hash s
          end)
    (mret s).

(** One more attempt, with the number of changes so far. *)
Definition retry (certainRetry : bool) (hash : uint256) (sc : Sets * Z) : C (Sets * Z) :=
  let '(s, changes) := sc in
  match OrderedMap.find key_ltb hash (txns s) with
  | None => mret (s, changes)
  | Some txn =>
      let abandoned := (erase_txn hash (erase_retriable txn (fail hash s)), changes) in
      try_catch
        ('(tx_res, txn) ← applyTransaction mClosingLedger txn openLgr certainRetry;
         let s := touch hash txn s in
         mret match tx_res with
              | resultSuccess => (erase_txn hash (erase_retriable txn s), changes + 1)
              | resultFail => (erase_txn hash (erase_retriable txn (fail hash s)), changes)
              | resultRetry => (s, changes)
              end)
        (mret abandoned)
  end.

Fixpoint for_each {A} (body : uint256 -> A -> C A) (order : list uint256) (a : A) : C A :=
  match order with
  | [] => mret a
  | hash :: order => a ← body hash a; for_each body order a
  end.

Definition LEDGER_TOTAL_PASSES : nat := 3.
Definition LEDGER_RETRY_PASSES : nat := 2.

(** The passes from number [pass] on, [n] at most. *)
Fixpoint passes (n pass : nat) (certainRetry : bool) (applyOrder : list uint256) (s : Sets) : C Sets :=
  match n with
  | O => mret s
  | S n =>
      '(s, changes) ← for_each (retry certainRetry) applyOrder (s, 0);
      if (changes =? 0) && negb certainRetry then mret s
      else
        let certainRetry := if (changes =? 0) || (LEDGER_RETRY_PASSES <=? pass)%nat then false else certainRetry in
        passes n (S pass) certainRetry applyOrder s
  end.
End Ledger.

(** [applyTransactions]: the sets, and the order the passes used.  The engine is new. *)
Definition applyTransactions (set : list SHAMapNode.SHAMapItem) (checkLedger : LedgerHeader) (retriable : CanonicalTXSet.CanonicalTXSet)
    (failed : gset uint256) (openLgr : bool) (applyOrder : list uint256) : C (Sets * list uint256) :=
  let closing := negb openLgr in
  _ ← on_engine (modifies (set_seq 0));
  m ← candidates checkLedger set [];
  let explicitApplyOrder := match applyOrder with [] => false | _ => true end in
  let s := {| txns := m; retriableTransactions := retriable; failedTransactions := failed |} in
  s ← for_each (attempt closing openLgr) (if explicitApplyOrder then applyOrder else map fst m) s;
  let applyOrder := if explicitApplyOrder then applyOrder else map getTransactionID (CanonicalTXSet.items (retriableTransactions s)) in
  s ← passes closing openLgr LEDGER_TOTAL_PASSES 0 true applyOrder s;
  mret (s, applyOrder).

(** The overload with no order. *)
Definition applyTransactions_unordered (set : list SHAMapNode.SHAMapItem) (checkLedger : LedgerHeader) (retriable : CanonicalTXSet.CanonicalTXSet)
    (failed : gset uint256) (openLgr : bool) : C Sets :=
  '(s, _) ← applyTransactions set checkLedger retriable failed openLgr []; mret s.
End Closing.

End CloseLedger.
