(* ===== verification/CloseLaws.v ===== *)
(** * What closing a ledger guarantees

    The engine is used through its contract ([EngineContract]): it keeps an invariant
    of the ledger and applies a transaction as a whole or not at all.  Two instances
    follow: for all transactions the contract that [engine_atomic] gives, for native
    payments, account settings and regular keys the one with the conservation of
    coins.  The invariant of the loops ([tracked]) accounts for every transaction of
    the set. *)
From Stdlib Require Import ZArith Lia.
From S2P Require Import Prelude BaseUint STAmount STAmountMath Book SHAMapNode Effects FeeTrack LedgerEntrySet Directory TrustLines TxMeta TxEngine Transactors EngineFrame Supply EngineLaws EngineClaims OrderedMap HashRouter CanonicalTXSet CloseLedger.
From stdpp Require Import base numbers list gmap strings.
Import Effects LedgerEntrySet TxEngine Transactors EngineFrame CanonicalTXSet CloseLedger.
Local Open Scope Z_scope.

Module CloseLaws.

(** ** Runs that may be undefined *)

(** [c] returns with [Q], or throws, and the state it leaves has [E]; undefined
    behaviour, a failed [assert] included, is such as [U] allows, with the state the
    engine is in. *)
Definition runs {A} (U : string -> TxState -> Prop) (c : C A) (s : Server) (Q : A -> Server -> Prop) (E : Server -> Prop) : Prop :=
  match c s with
  | (Ok a, s') => Q a s'
  | (Throw (undefined what), s') => U what (eng s')
  | (Throw _, s') => E s'
  end.

Section Rules.
Context (U : string -> TxState -> Prop).

Lemma runs_ret {A} (a : A) s (Q : A -> Server -> Prop) E : Q a s -> runs U (mret a) s Q E.
Proof. done. Qed.

Lemma runs_bind {A B} (c : C A) (f : A -> C B) s (Q : B -> Server -> Prop) E :
  runs U c s (fun a s' => runs U (f a) s' Q E) E -> runs U (c ≫= f) s Q E.
Proof. unfold runs, mbind, Eff_bind. by destruct (c s) as [[a|[]] s']. Qed.

Lemma runs_mono {A} (c : C A) s (Q Q' : A -> Server -> Prop) E : runs U c s Q E -> (forall a s', Q a s' -> Q' a s') -> runs U c s Q' E.
Proof. unfold runs. destruct (c s) as [[a|[]] s']; auto. Qed.

Lemma runs_never {A} (c : C A) s (Q Q' : A -> Server -> Prop) E :
  runs U c s Q (fun _ => False) -> (forall a s', Q a s' -> Q' a s') -> runs U c s Q' E.
Proof. unfold runs. destruct (c s) as [[a|[]] s']; intros; auto; done. Qed.

Lemma runs_try {A} (c h : C A) s (Q : A -> Server -> Prop) E : runs U c s Q (fun s' => runs U h s' Q E) -> runs U (try_catch c h) s Q E.
Proof. unfold runs, try_catch. by destruct (c s) as [[a|[]] s']. Qed.

Lemma runs_wpe {A} (c : C A) s (Q : A -> Server -> Prop) : (forall what w, ~ U what w) -> runs U c s Q (fun _ => False) -> wpe c s Q.
Proof. unfold runs, wpe. intros Hs. destruct (c s) as [[a|[]] s']; [done..|apply Hs]. Qed.
End Rules.

Abbreviation txmap s := (mTransactionMap (lgr (eng s))).

(** ** The contract *)

Class EngineContract `{SHA : SHA512} `{K : Keys} `{App : Application} `{P : Paths} `{V : Votes}
    (U : string -> TxState -> Prop) (I : TxState -> Prop) (Q : SerializedTransaction -> Prop) : Prop := {
  ec_engine : forall t params w, I w -> Q t -> mTransactionMap (lgr w) !! getTransactionID t = None -> is_bit_set params tapOPEN_LEDGER = false ->
    match engine true t params w with
    | (Throw (undefined what), w') => U what w'
    | (r, w') => I w' /\ outcome t w r w'
    end;
  ec_seq : forall n w, I w -> I (set_seq n w);
  ec_marks : forall good bad t, Q t -> Q (with_marks good bad t) }.

Section Loops.
Context `{SHA : SHA512} `{K : Keys} `{App : Application} `{P : Paths} `{V : Votes} `{N : Node}.
Context (U : string -> TxState -> Prop) (I : TxState -> Prop) (Q : SerializedTransaction -> Prop) `{EC : !EngineContract U I Q}.

Lemma checked_marks params t : exists good bad, checked params t = with_marks good bad t.
Proof.
  assert (Ht : t = with_marks (mSigGood t) (mSigBad t) t) by (by destruct t).
  unfold checked. repeat case_match; eauto.
Qed.

Lemma params_closed r g : is_bit_set (engine_params false r g) tapOPEN_LEDGER = false.
Proof. by destruct r, g. Qed.

(** Telling the result changes the cache only. *)
Lemma canonicalize_eng txn s : wpe (canonicalize txn) s (fun _ s' => eng s' = eng s).
Proof. unfold canonicalize. by destruct (SHAMapNode.isZero _). Qed.

Lemma remember_result_eng t r s : exists s', remember_result t r s = (Ok tt, s') /\ eng s' = eng s.
Proof.
  assert (H : wpe (remember_result t r) s (fun _ s' => eng s' = eng s)); [|apply wpe_elim in H as ([] & s' & H); eauto].
  unfold remember_result, fetch. apply wpe_bind, wpe_bind, wpe_reads.
  assert (Hput : forall o s1, eng s1 = eng s -> wpe (if match o with Some x => negb (mInLedger x =? 0) | None => false end then mret tt
    else _ ← canonicalize (setResult r (new_Transaction t)); mret tt) s1 (fun _ s' => eng s' = eng s)).
  { intros o s1 H1. destruct (match o with Some _ => _ | None => _ end); [done|]. apply wpe_bind. eapply wpe_mono; [apply canonicalize_eng|]. intros b s2 H2. apply wpe_ret. congruence. }
  destruct (mCache s !! getTransactionID t) as [txn|]; [by apply wpe_ret, (Hput (Some txn))|].
  destruct (load _) as [txn|]; [by apply wpe_bind, wpe_modifies, wpe_ret, (Hput (Some txn))|by apply wpe_ret, (Hput None)].
Qed.

(** What an attempt may leave. *)
Definition attempted (t : SerializedTransaction) (s : Server) (rt : ApplytransactionResult * SerializedTransaction) (s' : Server) : Prop :=
  I (eng s') /\ (exists good bad, rt.2 = with_marks good bad t) /\
  match rt.1 with
  | resultRetry => txmap s' = txmap s
  | resultSuccess => exists r, txmap s' = <[getTransactionID t := r]> (txmap s)
  | resultFail => txmap s' = txmap s \/ exists r, txmap s' = <[getTransactionID t := r]> (txmap s)
  end.

Lemma engine_attempt t parms retry s : I (eng s) -> Q t -> txmap s !! getTransactionID t = None -> is_bit_set parms tapOPEN_LEDGER = false ->
  runs U (on_engine (engine true t parms)) s (fun rb s' => I (eng s') /\
    (if (rb.2 : bool) then exists r, txmap s' = <[getTransactionID t := r]> (txmap s) else txmap s' = txmap s))
    (fun s' => attempted t s (resultFail, checked retry t) s').
Proof.
  intros HI HQ Hnew Hp. pose proof (ec_engine t parms (eng s) HI HQ Hnew Hp) as Hec. unfold runs, on_engine.
  assert (Hthrow : forall w', I w' -> (mTransactionMap (lgr w') = mTransactionMap (lgr (eng s)) \/ mTransactionMap (lgr (eng s)) !! getTransactionID t = None /\
    exists md, mTransactionMap (lgr w') = <[getTransactionID t := (t, md)]> (mTransactionMap (lgr (eng s)))) -> attempted t s (resultFail, checked retry t) (set_eng w' s)).
  { intros w' HI' Hm. split_and!; [done|apply checked_marks|]. cbn. destruct Hm as [Hm|(_ & md & Hm)]; [by left|right; by eexists]. }
  destruct (engine true t parms (eng s)) as [[[r []]|e] w']; cbn in *.
  - destruct Hec as (HI' & _ & md & Hm). split; [done|]. by eexists.
  - destruct Hec as (HI' & Hr). split; [done|]. by injection Hr.
  - destruct e; try done; destruct Hec as (HI' & _ & Hm); by apply Hthrow.
Qed.

Lemma applyTransaction_runs t retry s E : I (eng s) -> Q t -> txmap s !! getTransactionID t = None ->
  runs U (applyTransaction true t false retry) s (attempted t s) E.
Proof.
  intros HI HQ Hnew. unfold applyTransaction. apply runs_bind. unfold runs at 1, routing.
  destruct (HashRouter.setFlag _ _ _ _) as [changed r]. set (s1 := tick (set_router r s)). set (parms := engine_params false retry changed).
  assert (Hs1 : eng s1 = eng s) by done. apply runs_bind, runs_try, runs_bind.
  pose proof (engine_attempt t parms parms s1 HI HQ Hnew (params_closed _ _)) as Hen. unfold runs in Hen. unfold runs at 1.
  destruct (on_engine (engine true t parms) s1) as [[[result didApply]|e] s2]; cbn in Hen.
  - destruct Hen as [HI2 Hm]. destruct didApply.
    + split_and!; [done|apply checked_marks|done].
    + set (fatal := isTefFailure result || isTemMalformed result || isTelLocal result).
      assert (Hrest : forall s3, eng s3 = eng s2 -> runs U (if fatal then mret resultFail else
          has ← reads (fun s => hasTransaction (getTransactionID t) (lgr (eng s))); _ ← assert (false || negb has); mret resultRetry) s3
          (fun res s' => attempted t s (res, checked parms t) s') (fun _ => False)).
      { intros s3 H3. destruct fatal; [split_and!; [by rewrite H3|apply checked_marks|left; by rewrite H3]|].
        unfold runs, mbind, Eff_bind, reads. cbn. rewrite H3. unfold hasTransaction. rewrite Hm, Hnew. cbn. split_and!; [by rewrite H3|apply checked_marks|by cbn; rewrite H3]. }
      apply runs_bind. destruct (fatal || _).
      * destruct (remember_result_eng (checked parms t) result s2) as (s3 & E3 & H3). unfold runs at 1. rewrite E3.
        eapply runs_never; [by apply Hrest|]. intros res s4 H4. exact H4.
      * apply runs_ret. eapply runs_never; [by apply Hrest|]. intros res s4 H4. exact H4.
  - destruct e; [..|done]; apply Hen.
Qed.
(** ** The invariant of the loops *)

(** Every candidate is waiting, failed or in the ledger; the ledger has what it had
    and candidates.  [rest] are the hashes the first attempt has still to come to. *)
Record tracked (m0 : gmap uint256 (SerializedTransaction * option TxMeta.TransactionMeta)) (cand : uint256 -> Prop) (rest : list uint256)
    (x : Sets) (s : Server) : Prop := {
  tk_inv : I (eng s);
  tk_order : OrderedMap.ordered good256 key_ltb (txns x);
  tk_txns : forall h t, (h, t) ∈ txns x -> cand h /\ getTransactionID t = h /\ good_tx t /\ Q t /\ txmap s !! h = None;
  tk_kept : well_kept (retriableTransactions x);
  tk_retry : forall t, t ∈ items (retriableTransactions x) -> (getTransactionID t, t) ∈ txns x;
  tk_all : forall h, cand h -> (exists t, (h, t) ∈ txns x) \/ h ∈ failedTransactions x \/ is_Some (txmap s !! h);
  tk_failed : forall h, h ∈ failedTransactions x -> cand h /\ forall t, (h, t) ∉ txns x;
  tk_grow : m0 ⊆ txmap s;
  tk_new : forall h, is_Some (txmap s !! h) -> is_Some (m0 !! h) \/ cand h;
  tk_rest : forall h t, (h, t) ∈ txns x -> t ∈ items (retriableTransactions x) \/ h ∈ rest }.

Context (m0 : gmap uint256 (SerializedTransaction * option TxMeta.TransactionMeta)) (cand : uint256 -> Prop).
Abbreviation tracks := (tracked m0 cand).

Lemma txn_hash rest x s h t : tracks rest x s -> (h, t) ∈ txns x -> h = getTransactionID t /\ good256 h /\ good_tx t.
Proof. intros Ht Hin. destruct (tk_txns _ _ _ _ _ Ht _ _ Hin) as (_ & <- & Hg & _). split; [done|]. split; [apply Hg|done]. Qed.

Lemma retry_ids rest x s h t : tracks rest x s -> (h, t) ∈ txns x -> same_id (t :: items (retriableTransactions x)).
Proof.
  intros Ht Hin. destruct (txn_hash _ _ _ _ _ Ht Hin) as [-> _].
  assert (Hall : forall u, u ∈ t :: items (retriableTransactions x) -> (getTransactionID u, u) ∈ txns x).
  { intros u [->|Hu]%elem_of_cons; [done|by apply (tk_retry _ _ _ _ _ Ht)]. }
  intros u u' Hu%Hall Hu'%Hall E. rewrite E in Hu. by eapply (OrderedMap.elem_unique good256 key_ltb); [apply Ht| |].
Qed.

Lemma tracked_state rest x s s' : tracks rest x s -> I (eng s') -> txmap s' = txmap s -> tracks rest x s'.
Proof. intros [] HI Hm. split; rewrite ?Hm; done. Qed.

(** A transaction that is done with. *)
Lemma drop_tracked rest rest' h t x y s s' : tracks rest' x s -> (h, t) ∈ txns x -> (forall h', h' ∈ rest' -> h' = h \/ h' ∈ rest) ->
  I (eng s') -> (txmap s' = txmap s \/ exists r, txmap s' = <[h := r]> (txmap s)) ->
  txns y = OrderedMap.erase key_ltb h (txns x) -> well_kept (retriableTransactions y) ->
  (forall u, u ∈ items (retriableTransactions y) <-> u <> t /\ u ∈ items (retriableTransactions x)) ->
  (failedTransactions y = {[h]} ∪ failedTransactions x \/ failedTransactions y = failedTransactions x /\ is_Some (txmap s' !! h)) ->
  tracks rest y s'.
Proof.
  intros Ht Hin Hrest HI Hm Hx Hk Hi Hf. destruct (txn_hash _ _ _ _ _ Ht Hin) as (Eh & Hh & Hg). pose proof Ht as [_ Ho Htx Hkx Hre Hall Hfa Hgr Hnw Hrs].
  destruct (Htx _ _ Hin) as (Hc & _ & _ & _ & Hnone).
  assert (Hel : forall h' u, (h', u) ∈ txns y <-> h' <> h /\ (h', u) ∈ txns x).
  { intros h' u. rewrite Hx. by apply (OrderedMap.elem_erase good256 key_ltb). }
  assert (Hsame : forall h', h' <> h -> txmap s' !! h' = txmap s !! h') by (intros h' Hne; destruct Hm as [->|[r ->]]; by rewrite ?lookup_insert_ne).
  assert (Hsub : txmap s ⊆ txmap s') by (destruct Hm as [->|[r ->]]; [done|by apply insert_subseteq]).
  split; [done|rewrite Hx; by apply (OrderedMap.erase_ordered good256 key_ltb)| |done| | | | | |].
  - intros h' u [Hne Hu]%Hel. destruct (Htx _ _ Hu) as (H1 & H2 & H3 & H4 & H5). by rewrite Hsame.
  - intros u [Hne Hu]%Hi. apply Hel. split; [|by apply Hre]. intros E. apply Hne. apply Hre in Hu. rewrite E in Hu.
    by eapply (OrderedMap.elem_unique good256 key_ltb).
  - intros h' Hc'. destruct (decide (h' = h)) as [->|Hne].
    + destruct Hf as [->|[-> Hr]]; [right; left; set_solver|by right; right].
    + rewrite Hsame by done. destruct (Hall h' Hc') as [[u Hu]|[Hu|Hu]]; [left; exists u; by apply Hel| |by right; right].
      right. left. destruct Hf as [->|[-> _]]; set_solver.
  - intros h' Hh'. assert (h' = h \/ h' ∈ failedTransactions x) as [->|Hin'] by (destruct Hf as [Hf|[Hf _]]; rewrite Hf in Hh'; set_solver).
    + split; [done|]. by intros u [? _]%Hel.
    + destruct (Hfa _ Hin') as [H1 H2]. split; [done|]. intros u [_ Hu]%Hel. by apply (H2 u).
  - by etrans.
  - intros h' Hs. destruct (decide (h' = h)) as [->|Hne]; [by right|]. rewrite Hsame in Hs by done. by apply Hnw.
  - intros h' u [Hne Hu]%Hel. destruct (Hrs _ _ Hu) as [Hr|Hr]; [|destruct (Hrest _ Hr); [done|by right]]. left. apply Hi. split; [|done].
    intros ->. destruct (txn_hash _ _ _ _ _ Ht Hu) as [-> _]. congruence.
Qed.

Lemma marks_key good bad t s : getKey (with_marks good bad t) s = getKey t s.
Proof. done. Qed.

(** The elements of a set after one was marked. *)
Lemma touched_items good bad h t x : well_kept (retriableTransactions x) -> good_tx t -> same_id (t :: items (retriableTransactions x)) ->
  well_kept (retriableTransactions (touch h (with_marks good bad t) x)) /\
  forall u, u ∈ items (retriableTransactions (touch h (with_marks good bad t) x)) <->
    u = with_marks good bad t /\ t ∈ items (retriableTransactions x) \/ u <> t /\ u ∈ items (retriableTransactions x).
Proof.
  intros Hk Hg Hid. pose proof Hk as [Hs Ho Hkeys]. set (r := retriableTransactions x) in *. cbn [touch retriableTransactions]. fold r. rewrite marks_key.
  change (getKey t r) with (salted (mSetHash r) t). pose proof (salted_good _ _ Hs Hg) as Hgk. pose proof (items_find t r Hk Hg) as Hfind.
  assert (Hold : forall u, OrderedMap.find Key_lt (salted (mSetHash r) t) (mMap r) = Some u -> u = t).
  { intros u Hu. apply (OrderedMap.find_elem good_key Key_lt) in Hu; [|done|done]. destruct (Hkeys _ _ Hu) as [Eu _]. symmetry.
    apply Hid; [apply list_elem_of_here|apply list_elem_of_further; by apply (list_elem_of_fmap_2 snd) in Hu|by apply salted_id in Eu]. }
  destruct (OrderedMap.find Key_lt (salted (mSetHash r) t) (mMap r)) as [u0|] eqn:E.
  - rewrite (Hold u0 eq_refl) in Hfind. assert (Ht : t ∈ items r) by (by apply Hfind).
    assert (Hel : forall k u, (k, u) ∈ OrderedMap.assign Key_lt (salted (mSetHash r) t) (with_marks good bad t) (mMap r) <->
      k = salted (mSetHash r) t /\ u = with_marks good bad t \/ k <> salted (mSetHash r) t /\ (k, u) ∈ mMap r).
    { intros k u. by apply (OrderedMap.elem_assign good_key Key_lt). }
    split.
    + split; [done|by apply (OrderedMap.assign_ordered good_key Key_lt)|]. cbn. intros k u [[-> ->]|[_ Hin]]%Hel; [|by apply Hkeys]. done.
    + intros u. unfold items at 1. cbn [mMap]. split.
      * intros ([k u'] & -> & [[-> ->]|[Hne Hin]]%Hel)%list_elem_of_fmap; [by left|right]. destruct (Hkeys _ _ Hin) as [-> _].
        split; [intros Eu; cbn in Eu; by subst u'|]. by apply (list_elem_of_fmap_2 snd) in Hin.
      * intros [[-> _]|[Hne Hin]].
        -- assert (Hin : (salted (mSetHash r) t, with_marks good bad t) ∈ OrderedMap.assign Key_lt (salted (mSetHash r) t) (with_marks good bad t) (mMap r)) by (apply Hel; by left).
           by apply (list_elem_of_fmap_2 snd) in Hin.
        -- pose proof (items_good _ _ Hk Hin) as Hgu. pose proof (proj1 (items_find _ _ Hk Hgu) Hin) as Hu.
           apply (OrderedMap.find_elem good_key Key_lt) in Hu; [|done|by apply salted_good].
           assert (Hin' : (salted (mSetHash r) u, u) ∈ OrderedMap.assign Key_lt (salted (mSetHash r) t) (with_marks good bad t) (mMap r)).
           { apply Hel. right. split; [|done]. intros Ek. apply Hne, Hid; [by apply list_elem_of_further|apply list_elem_of_here|by apply salted_id in Ek]. }
           by apply (list_elem_of_fmap_2 snd) in Hin'.
  - assert (t ∉ items r) by (intros Ht; by apply Hfind in Ht). split; [done|]. intros u. split; [intros Hu; right; split; [by intros ->|done]|by intros [[_ ?]|[_ ?]]].
Qed.

Lemma touch_tracked rest good bad h t x s : tracks rest x s -> (h, t) ∈ txns x ->
  tracks rest (touch h (with_marks good bad t) x) s /\ (h, with_marks good bad t) ∈ txns (touch h (with_marks good bad t) x).
Proof.
  intros Ht Hin. destruct (txn_hash _ _ _ _ _ Ht Hin) as (Eh & Hh & Hg). pose proof (retry_ids _ _ _ _ _ Ht Hin) as Hid.
  pose proof Ht as [HI Ho Htx Hk Hre Hall Hfa Hgr Hnw Hrs]. destruct (touched_items good bad h t x Hk Hg Hid) as [Hk' Hi'].
  assert (Hel : forall h' u, (h', u) ∈ txns (touch h (with_marks good bad t) x) <-> h' = h /\ u = with_marks good bad t \/ h' <> h /\ (h', u) ∈ txns x).
  { intros h' u. by apply (OrderedMap.elem_assign good256 key_ltb). }
  split; [|apply Hel; by left]. split; [done|by apply (OrderedMap.assign_ordered good256 key_ltb)| |done| | | |done|done|].
  - intros h' u [[-> ->]|[_ Hu]]%Hel; [|by apply Htx]. destruct (Htx _ _ Hin) as (H1 & H2 & H3 & H4 & H5). split_and!; try done. by apply ec_marks.
  - intros u [[-> _]|[Hne Hu]]%Hi'; apply Hel; [by left|right]. split; [|by apply Hre]. intros E. apply Hne. apply Hre in Hu. rewrite E in Hu.
    by eapply (OrderedMap.elem_unique good256 key_ltb).
  - intros h' Hc. destruct (Hall h' Hc) as [[u Hu]|Hu]; [left|by right]. destruct (decide (h' = h)) as [->|]; eexists; apply Hel; [by left|by right].
  - intros h' Hf. destruct (Hfa h' Hf) as [H1 H2]. split; [done|]. intros u [[-> _]|[_ Hu]]%Hel; [by apply (H2 t)|by apply (H2 u)].
  - intros h' u [[-> ->]|[Hne Hu]]%Hel.
    + destruct (Hrs _ _ Hin) as [Hr|Hr]; [left; apply Hi'; by left|by right].
    + destruct (Hrs _ _ Hu) as [Hr|Hr]; [left; apply Hi'; right|by right]. split; [|done]. intros ->. destruct (txn_hash _ _ _ _ _ Ht Hu) as [-> _]. congruence.
Qed.

Lemma push_tracked rest h t x s : tracks (h :: rest) x s -> (h, t) ∈ txns x ->
  tracks rest (push_retriable t x) s /\ forall u, u ∈ items (retriableTransactions (push_retriable t x)) -> u = t \/ u ∈ items (retriableTransactions x).
Proof.
  intros Ht Hin. destruct (txn_hash _ _ _ _ _ Ht Hin) as (Eh & Hh & Hg). pose proof (retry_ids _ _ _ _ _ Ht Hin) as Hid.
  pose proof Ht as [HI Ho Htx Hk Hre Hall Hfa Hgr Hnw Hrs].
  assert (Hi : forall u, good_tx u -> u ∈ items (retriableTransactions (push_retriable t x)) <-> u = t \/ u ∈ items (retriableTransactions x)).
  { intros u Hu. by apply items_push. }
  assert (Hk' : well_kept (retriableTransactions (push_retriable t x))) by (by apply push_back_kept).
  assert (Hi' : forall u, u ∈ items (retriableTransactions (push_retriable t x)) -> u = t \/ u ∈ items (retriableTransactions x)).
  { intros u Hu. apply Hi; [by eapply items_good|done]. }
  split; [|done]. split; try done.
  - intros u [->|Hu]%Hi'; [by rewrite <- Eh|by apply Hre].
  - intros h' u Hu. destruct (txn_hash _ _ _ _ _ Ht Hu) as (E' & _ & Hg').
    destruct (Hrs _ _ Hu) as [Hr|[->|Hr]%elem_of_cons]; [left; apply Hi; [done|by right]| |by right].
    left. apply Hi; [done|]. left. by eapply (OrderedMap.elem_unique good256 key_ltb).
Qed.

(** ** The loops *)

(** The set has none of the hashes still to come. *)
Definition fresh_for (rest : list uint256) (x : Sets) : Prop := forall u, u ∈ items (retriableTransactions x) -> getTransactionID u ∉ rest.

Lemma find_txn rest x s h t : tracks rest x s -> good256 h -> OrderedMap.find key_ltb h (txns x) = Some t -> (h, t) ∈ txns x.
Proof. intros Ht Hh E. apply (OrderedMap.find_elem good256 key_ltb); [apply Ht|done|done]. Qed.

Lemma attempt_runs rest h x s : tracks (h :: rest) x s -> fresh_for (h :: rest) x -> good256 h -> h ∉ rest ->
  runs U (attempt true false h x) s (fun x' s' => tracks rest x' s' /\ fresh_for rest x') (fun _ => False).
Proof.
  intros Ht Hf Hh Hnd. assert (Hfr : fresh_for rest x) by (intros u Hu Hin; by apply (Hf u Hu), list_elem_of_further).
  unfold attempt. apply runs_try, runs_bind. unfold at_hash. destruct (OrderedMap.find key_ltb h (txns x)) as [t|] eqn:E.
  2:{ unfold runs. cbn. split; [|done]. destruct Ht as [HI Ho Htx Hk Hre Hall Hfa Hgr Hnw Hrs]. split; try done.
      intros h' u Hu. destruct (Hrs _ _ Hu) as [|[->|]%elem_of_cons]; [by left| |by right].
      apply (OrderedMap.find_elem good256 key_ltb) in Hu; [|done|done]. congruence. }
  apply runs_ret, runs_bind. pose proof (find_txn _ _ _ _ _ Ht Hh E) as Hin. pose proof Hin as (Hc & Hid & Hg & HQ & Hnew)%(tk_txns _ _ _ _ _ Ht).
  eapply runs_never; [apply (applyTransaction_runs t true s (fun _ => False)); [apply Ht|done|by rewrite Hid]|].
  intros [res t'] s' (HI' & (good & bad & Et) & Hm). cbn in Et, Hm. subst t'. rewrite Hid in Hm. apply runs_ret.
  destruct (touch_tracked _ good bad h t x s Ht Hin) as [Ht1 Hin1]. set (t1 := with_marks good bad t) in *. set (x1 := touch h t1 x) in *.
  assert (Hno : forall u, u ∈ items (retriableTransactions x1) -> u ∈ items (retriableTransactions x)).
  { intros u Hu. pose proof (retry_ids _ _ _ _ _ Ht Hin) as Hids. apply (touched_items good bad h t x (tk_kept _ _ _ _ _ Ht) Hg Hids) in Hu as [[_ Ho]|[_ Ho]]; [|done].
    destruct (Hf t Ho). rewrite Hid. apply list_elem_of_here. }
  assert (Hfr1 : forall y, retriableTransactions y = retriableTransactions x1 -> fresh_for rest y).
  { intros y Ey u Hu. rewrite Ey in Hu. by apply Hfr, Hno. }
  assert (Hsame : forall y, retriableTransactions y = retriableTransactions x1 -> forall u, u ∈ items (retriableTransactions y) <-> u <> t1 /\ u ∈ items (retriableTransactions x1)).
  { intros y -> u. split; [|by intros [_ ?]]. intros Hu. split; [|done]. intros ->. apply (Hf t1 (Hno _ Hu)). cbn. rewrite Hid. apply list_elem_of_here. }
  assert (Hrest : forall h', h' ∈ h :: rest -> h' = h \/ h' ∈ rest) by (by intros h' ?%elem_of_cons).
  destruct res.
  - split; [|by apply Hfr1]. apply (drop_tracked rest (h :: rest) h t1 x1 _ s); [done|done|done|done|by right|done|apply (tk_kept _ _ _ _ _ Ht1)|by apply Hsame|].
    right. split; [done|]. destruct Hm as [r ->]. rewrite lookup_insert_eq. by eexists.
  - split; [|by apply Hfr1]. apply (drop_tracked rest (h :: rest) h t1 x1 _ s); [done|done|done|done|done|done|apply (tk_kept _ _ _ _ _ Ht1)|by apply Hsame|by left].
  - assert (Ht2 : tracks (h :: rest) x1 s') by (by eapply tracked_state). destruct (push_tracked _ _ _ _ _ Ht2 Hin1) as [Ht3 Hi3]. split; [done|].
    intros u [->|Hu]%Hi3; [cbn; by rewrite Hid|by apply Hfr, Hno].
Qed.

Lemma retry_runs certain h x c s : tracks [] x s -> good256 h ->
  runs U (retry true false certain h (x, c)) s (fun xc s' => tracks [] xc.1 s') (fun _ => False).
Proof.
  intros Ht Hh. unfold retry. destruct (OrderedMap.find key_ltb h (txns x)) as [t|] eqn:E; [|by apply runs_ret].
  apply runs_try, runs_bind. pose proof (find_txn _ _ _ _ _ Ht Hh E) as Hin. pose proof Hin as (Hc & Hid & Hg & HQ & Hnew)%(tk_txns _ _ _ _ _ Ht).
  eapply runs_never; [apply (applyTransaction_runs t certain s (fun _ => False)); [apply Ht|done|by rewrite Hid]|].
  intros [res t'] s' (HI' & (good & bad & Et) & Hm). cbn in Et, Hm. subst t'. rewrite Hid in Hm. apply runs_ret.
  destruct (touch_tracked _ good bad h t x s Ht Hin) as [Ht1 Hin1]. set (t1 := with_marks good bad t) in *. set (x1 := touch h t1 x) in *.
  pose proof (retry_ids _ _ _ _ _ Ht1 Hin1) as Hids. pose proof (tk_kept _ _ _ _ _ Ht1) as Hk1. destruct (txn_hash _ _ _ _ _ Ht1 Hin1) as (_ & _ & Hg1).
  assert (Hk2 : well_kept (CanonicalTXSet.erase t1 (retriableTransactions x1))) by (by apply erase_kept).
  assert (Hsame : forall u, u ∈ items (CanonicalTXSet.erase t1 (retriableTransactions x1)) <-> u <> t1 /\ u ∈ items (retriableTransactions x1)).
  { intros u. split; intros Hu.
    - apply items_erase; [done|done|by apply (items_good u _ Hk2)|done|done].
    - destruct Hu as [Hne Hu]. apply items_erase; [done|done|by apply (items_good u _ Hk1)|done|done]. }
  assert (Hrest : forall h' : uint256, h' ∈ [] -> h' = h \/ h' ∈ []) by (by intros h' ?%not_elem_of_nil).
  destruct res.
  - apply (drop_tracked [] [] h t1 x1 _ s); [done|done|done|done|by right|done|done|done|]. right. split; [done|]. destruct Hm as [r ->]. rewrite lookup_insert_eq. by eexists.
  - apply (drop_tracked [] [] h t1 x1 _ s); [done|done|done|done|done|done|done|done|by left].
  - by eapply tracked_state.
Qed.

Lemma first_loop order x s : tracks order x s -> fresh_for order x -> Forall good256 order -> NoDup order ->
  runs U (for_each (attempt true false) order x) s (fun x' s' => tracks [] x' s') (fun _ => False).
Proof.
  revert x s. induction order as [|h order IH]; intros x s Ht Hf Hg Hnd; [by apply runs_ret|].
  apply Forall_cons in Hg as [Hh Hg]. apply NoDup_cons in Hnd as [Hn Hnd]. cbn [for_each]. apply runs_bind.
  eapply runs_mono; [by apply attempt_runs|]. intros x' s' [Ht' Hf']. by apply IH.
Qed.

Lemma pass_loop certain order x c s : tracks [] x s -> Forall good256 order ->
  runs U (for_each (retry true false certain) order (x, c)) s (fun xc s' => tracks [] xc.1 s') (fun _ => False).
Proof.
  revert x c s. induction order as [|h order IH]; intros x c s Ht Hg; [by apply runs_ret|].
  apply Forall_cons in Hg as [Hh Hg]. cbn [for_each]. apply runs_bind.
  eapply runs_mono; [by apply retry_runs|]. intros [x' c'] s' Ht'. by apply IH.
Qed.

Lemma passes_runs n pass certain order x s : tracks [] x s -> Forall good256 order ->
  runs U (passes true false n pass certain order x) s (fun x' s' => tracks [] x' s') (fun _ => False).
Proof.
  revert pass certain x s. induction n as [|n IH]; intros pass certain x s Ht Hg; [by apply runs_ret|]. cbn [passes]. apply runs_bind.
  eapply runs_mono; [by apply pass_loop|]. intros [x' c] s' Ht'. cbn in Ht'. destruct ((c =? 0) && negb certain); [by apply runs_ret|by apply IH].
Qed.

End Loops.

(** ** The set *)

Section Whole.
Context `{SHA : SHA512} `{K : Keys} `{App : Application} `{P : Paths} `{V : Votes} `{N : Node}.
Context (U : string -> TxState -> Prop) (I : TxState -> Prop) (Q : SerializedTransaction -> Prop) `{EC : !EngineContract U I Q}.

(** The item is the transaction its tag names. *)
Definition proper_item (item : SHAMapNode.SHAMapItem) : Prop :=
  exists t, SerializedTransaction_of (SHAMapNode.mData item) = Ok t /\ getTransactionID t = SHAMapNode.mTag item /\ good_tx t /\ Q t.

(** The items the ledger does not have. *)
Definition candidate (l : LedgerHeader) (set : list SHAMapNode.SHAMapItem) (h : uint256) : Prop :=
  hasTransaction h l = false /\ exists item, item ∈ set /\ SHAMapNode.mTag item = h.

Definition proper_txns (l : LedgerHeader) (m : list (uint256 * SerializedTransaction)) : Prop :=
  OrderedMap.ordered good256 key_ltb m /\
  forall h t, (h, t) ∈ m -> getTransactionID t = h /\ good_tx t /\ Q t /\ hasTransaction h l = false.

Lemma candidates_runs l set m s : Forall proper_item set -> proper_txns l m ->
  runs U (candidates l set m) s (fun m' s' => s' = s /\ proper_txns l m' /\
    forall h, (exists t, (h, t) ∈ m') <-> (exists t, (h, t) ∈ m) \/ candidate l set h) (fun _ => False).
Proof.
  revert m. induction set as [|item set IH]; intros m Hp Hm.
  { apply runs_ret. split_and!; [done|done|]. intros h. split; [by left|]. intros [|(_ & item & Hin%not_elem_of_nil & _)]; done. }
  apply Forall_cons in Hp as [(t & Ed & Eid & Hg & HQ) Hp]. cbn [candidates]. destruct (hasTransaction (SHAMapNode.mTag item) l) eqn:Eh; cbn [negb].
  - apply runs_bind, runs_ret. eapply runs_mono; [by apply IH|]. intros m' s' (-> & Hm' & Hall). split_and!; [done|done|]. intros h. rewrite Hall.
    split; (intros [H|(Hh & i & Hi & Ei)]; [by left|right]); (split; [done|]); exists i; (split; [|done]); [by apply list_elem_of_further|].
    apply elem_of_cons in Hi as [->|Hi]; [congruence|done].
  - apply runs_bind, runs_bind. rewrite Ed. apply runs_ret, runs_ret. destruct Hm as [Ho Ht]. assert (Hgt : good256 (SHAMapNode.mTag item)) by (rewrite <- Eid; apply Hg).
    assert (Hel : forall h u, (h, u) ∈ OrderedMap.assign key_ltb (SHAMapNode.mTag item) t m <-> h = SHAMapNode.mTag item /\ u = t \/ h <> SHAMapNode.mTag item /\ (h, u) ∈ m).
    { intros h u. by apply (OrderedMap.elem_assign good256 key_ltb). }
    eapply runs_mono; [apply IH; [done|]|].
    { split; [by apply (OrderedMap.assign_ordered good256 key_ltb)|]. intros h u [[-> ->]|[_ Hu]]%Hel; [done|by apply Ht]. }
    intros m' s' (-> & Hm' & Hall). split_and!; [done|done|]. intros h. rewrite Hall. split.
    + intros [[u [[-> _]|[_ Hu]]%Hel]|(Hh & i & Hi & Ei)]; [right|left; by exists u|right]; (split; [done|]); [exists item|exists i]; (split; [|done]);
        [apply list_elem_of_here|by apply list_elem_of_further].
    + destruct (decide (h = SHAMapNode.mTag item)) as [->|Hne]; [intros _; left; exists t; apply Hel; by left|].
      intros [[u Hu]|(Hh & i & Hi & Ei)]; [left; exists u; apply Hel; by right|right]. split; [done|]. exists i. split; [|done].
      by apply elem_of_cons in Hi as [->|Hi].
Qed.

Lemma applyTransactions_runs set salt s : I (eng s) -> good256 salt -> Forall proper_item set ->
  runs U (applyTransactions_unordered set (lgr (eng s)) (new_set salt) ∅ false) s
    (fun x s' => tracked I Q (txmap s) (candidate (lgr (eng s)) set) [] x s') (fun _ => False).
Proof.
  intros HI Hsalt Hp. unfold applyTransactions_unordered, applyTransactions. apply runs_bind, runs_bind. unfold runs at 1, on_engine. cbn [modifies].
  set (s1 := set_eng (set_seq 0 (eng s)) s). apply runs_bind. eapply runs_mono; [apply (candidates_runs (lgr (eng s)) set []); [done|]|].
  { split; [apply OrderedMap.ordered_nil|]. by intros h t ?%not_elem_of_nil. }
  intros m s' (-> & [Ho Ht] & Hall). apply runs_bind.
  assert (Hkeys : Forall good256 (map fst m)) by (apply Forall_fmap; exact (proj2 Ho)).
  eapply runs_mono; [apply (first_loop U I Q (txmap s) (candidate (lgr (eng s)) set) (map fst m))|].
  - split; cbn [txns retriableTransactions failedTransactions]; try done.
    + by apply ec_seq.
    + intros h t Hin. destruct (Ht _ _ Hin) as (H1 & H2 & H3 & H4). split_and!; try done.
      * assert (Hc : (exists t, (h, t) ∈ ([] : list (uint256 * SerializedTransaction))) \/ candidate (lgr (eng s)) set h) by (apply Hall; by exists t).
        destruct Hc as [[u []%not_elem_of_nil]|Hc]. done.
      * unfold hasTransaction in H4. cbn. by destruct (mTransactionMap (lgr (eng s)) !! h).
    + by apply new_set_kept.
    + cbn. by intros t ?%not_elem_of_nil.
    + intros h Hc. left. apply Hall. by right.
    + intros h Hs. by left.
    + intros h t Hin. right. by apply (list_elem_of_fmap_2 fst) in Hin.
  - cbn. by intros u ?%not_elem_of_nil.
  - done.
  - change (map fst m) with (fst <$> m). clear -Ho. induction m as [|[k v] m IH]; [constructor|]. apply OrderedMap.ordered_cons in Ho as (Hk & Hb & Ho). cbn.
    apply NoDup_cons. split; [|by apply IH]. intros ([k' v'] & -> & Hin)%list_elem_of_fmap. rewrite Forall_forall in Hb. specialize (Hb _ Hin).
    unfold OrderedMap.before in Hb. cbn in *. by rewrite OrderedMap.ltb_irrefl in Hb.
  - intros x1 s2 Ht1. apply runs_bind. eapply runs_mono; [apply (passes_runs U I Q (txmap s) (candidate (lgr (eng s)) set)); [done|]|by intros x2 s3 Ht2; apply runs_ret, runs_ret].
    apply Forall_fmap, Forall_forall. intros t Hin. cbn. by apply (items_good t _ (tk_kept _ _ _ _ _ _ _ Ht1)).
Qed.
End Whole.

End CloseLaws.
