(* ===== verification/CloseClaims.v ===== *)
(** * Closing a ledger: the claims

    What [LedgerConsensus::applyTransactions] promises of every set of transactions,
    and what it promises of the coins; then the loops at work on the small town. *)
From Stdlib Require Import ZArith Lia.
From S2P Require Import Prelude BaseUint STAmount STAmountMath Book SHAMapNode Effects FeeTrack LedgerEntrySet LedgerLaws Directory TrustLines TxMeta TxEngine Transactors EngineFrame Supply EngineLaws EngineClaims OrderedMap HashRouter CanonicalTXSet CloseLedger CloseLaws.
From stdpp Require Import base numbers list gmap strings.
Import Effects LedgerEntrySet TxEngine Transactors EngineFrame Supply EngineLaws CanonicalTXSet CloseLedger CloseLaws.
Local Open Scope Z_scope.

Module CloseClaims.
Import STAmount.

Abbreviation fee_of tx := (drops (getTransactionFee tx)).
Abbreviation entries_of w := (mAccountState (mLedger (les (tbl w)))).

Section Contracts.
Context `{SHA : SHA512} `{K : Keys} `{App : Application} `{P : Paths} `{V : Votes} `{PF : !PathsFix}.

Lemma engine_outcome t params w : outcome t w (engine true t params w).1 (engine true t params w).2.
Proof. apply (applyTransaction_ends true t params). intros v. apply makeTransactor_fixes. Qed.

(** The undefined behaviour of the engine itself, on a transaction that has [Q]: what
    it was, and the state it left the engine in. *)
Definition engine_undefined (closing : bool) (Q : SerializedTransaction -> Prop) (what : string) (w' : TxState) : Prop :=
  exists t params w, Q t /\ engine closing t params w = (Throw (undefined what), w').

(** Any transactions, nothing but all-or-nothing. *)
Lemma any_contract (Q : SerializedTransaction -> Prop) : (forall good bad t, Q t -> Q (with_marks good bad t)) ->
  EngineContract (engine_undefined true Q) (fun _ => True) Q.
Proof.
  intros HQ. split; [|done|done]. intros t params w _ Ht _ _. pose proof (engine_outcome t params w) as H.
  destruct (engine true t params w) as [[rb|[]] w'] eqn:E; try exact (conj Logic.I H). by exists t, params, w.
Qed.

(** The fees of recorded transactions. *)
Definition fees (m : gmap uint256 (SerializedTransaction * option TxMeta.TransactionMeta)) : Z :=
  map_fold (fun _ x acc => fee_of x.1 + acc) 0 m.

Lemma fees_insert h x m : m !! h = None -> fees (<[h := x]> m) = fee_of x.1 + fees m.
Proof. intros Hh. unfold fees. rewrite map_fold_insert_L; [done| |done]. intros. lia. Qed.

Context `{DR : !DistinctRoots}.

(** A sound ledger whose coins and recorded fees make [total]. *)
Definition balanced (total : Z) (w : TxState) : Prop := sound w /\ mTotCoins (lgr w) + fees (mTransactionMap (lgr w)) = total.

Lemma ordinary_contract total : EngineContract (fun _ _ => False) (balanced total) ordinary.
Proof.
  split.
  - intros t params w [Hs Hb] Ho Hnew Hp. pose proof (engine_outcome t params w) as Hout.
    assert (Hn : named t w) by (intros u md; by rewrite Hnew).
    pose proof (engine_step t params w Hs Hn Ho Hp) as Hst. unfold wpe in Hst.
    destruct (engine true t params w) as [[[r b]|e] w']; [|done]. split; [|done]. destruct Hst as [Hs' Ha]. split; [done|]. cbn in Ha. destruct b.
    + destruct (ap_map _ _ _ _ Ha) as (md & -> & _). pose proof (ap_coins _ _ _ _ Ha) as ->. rewrite fees_insert by done. cbn. lia.
    + by destruct Ha as [_ ->].
  - intros n w [Hs Hb]. split; [by destruct Hs|done].
  - intros good bad t [H1 H2 H3]. split; [|done|done]. destruct H1 as [Hd|Ht]; [left|by right]. by destruct Hd.
Qed.
End Contracts.
(** ** The claims *)

(** Every transaction of the set is in the ledger, failed, or left for later; what is
    left for later is neither failed nor in the ledger; the ledger keeps what it had,
    and what is new in it is of the set. *)
Definition accounted (set : list SHAMapNode.SHAMapItem) (s : Server) (x : Sets) (s' : Server) : Prop :=
  (forall item, item ∈ set -> hasTransaction (SHAMapNode.mTag item) (lgr (eng s')) = true \/ SHAMapNode.mTag item ∈ failedTransactions x \/
     exists t, t ∈ items (retriableTransactions x) /\ getTransactionID t = SHAMapNode.mTag item) /\
  (forall t, t ∈ items (retriableTransactions x) -> (getTransactionID t ∉ failedTransactions x) /\ hasTransaction (getTransactionID t) (lgr (eng s')) = false) /\
  txmap s ⊆ txmap s' /\
  (forall h, hasTransaction h (lgr (eng s')) = true -> hasTransaction h (lgr (eng s)) = true \/ exists item, item ∈ set /\ SHAMapNode.mTag item = h).

Lemma hasTransaction_true h l : hasTransaction h l = true <-> is_Some (mTransactionMap l !! h).
Proof. unfold hasTransaction. destruct (mTransactionMap l !! h); split; [eauto|done|done|by intros [? ?]]. Qed.

Lemma tracked_accounted I Q set s x s' : tracked I Q (txmap s) (candidate (lgr (eng s)) set) [] x s' -> accounted set s x s'.
Proof.
  intros [_ Ho Htx Hk Hre Hall Hfa Hgr Hnw Hrs]. split_and!; [| |done|].
  - intros item Hin. destruct (hasTransaction (SHAMapNode.mTag item) (lgr (eng s))) eqn:Eh.
    + left. apply hasTransaction_true in Eh as [r Er]. apply hasTransaction_true. exists r. by eapply lookup_weaken.
    + destruct (Hall (SHAMapNode.mTag item)) as [[t Ht]|[Hf|Hs]]; [split; [done|by exists item]| |by right; left|left; by apply hasTransaction_true].
      right. right. exists t. destruct (Hrs _ _ Ht) as [Hr|[]%not_elem_of_nil]. split; [done|]. by apply (Htx _ _ Ht).
  - intros t Ht. pose proof (Hre _ Ht) as Hin. destruct (Htx _ _ Hin) as (_ & _ & _ & _ & Hn). split.
    + intros Hf. by apply (proj2 (Hfa _ Hf) t).
    + unfold hasTransaction. by rewrite Hn.
  - intros h Hh%hasTransaction_true. destruct (Hnw h Hh) as [H|[_ H]]; [left; by apply hasTransaction_true|by right].
Qed.

(** A transaction of the set, perhaps with marks. *)
Definition of_set `{N : Node} (set : list SHAMapNode.SHAMapItem) (t : SerializedTransaction) : Prop :=
  exists item t0 good bad, item ∈ set /\ SerializedTransaction_of (SHAMapNode.mData item) = Ok t0 /\ t = with_marks good bad t0.

Lemma proper_of_set `{N : Node} set : Forall (proper_item (fun _ => True)) set -> Forall (proper_item (of_set set)) set.
Proof.
  intros Hp. apply Forall_forall. intros item Hin. rewrite Forall_forall in Hp. destruct (Hp _ Hin) as (t & Ht & Hid & Hg & _).
  exists t. split_and!; try done. exists item, t, (mSigGood t), (mSigBad t). split_and!; try done. by destruct t.
Qed.

(** C6: when a ledger is closed, every transaction of the agreed set is accounted for.
    Whatever the transactions are and whatever state the ledger is in,
    [applyTransactions] returns, every exception on the way having been caught, and
    its [assert] does not fail; the one way out is undefined behaviour of the engine
    itself: then the engine, run on a transaction of the set, has just ended in it.
    When it returns, every transaction of the set is in the ledger, among the failed
    ones, or among those left for the next ledger; the ones left are neither failed
    nor in the ledger; the ledger has lost no transaction, and has got none that is
    not of the set. *)
Theorem closing_accounted `{SHA : SHA512} `{K : Keys} `{App : Application} `{P : Paths} `{V : Votes} `{N : Node}
    (set : list SHAMapNode.SHAMapItem) (salt : uint256) (s : Server) :
  PathsFix -> good256 salt -> Forall (proper_item (fun _ => True)) set ->
  match applyTransactions_unordered set (lgr (eng s)) (new_set salt) ∅ false s with
  | (Ok x, s') => accounted set s x s'
  | (Throw (undefined what), s') => engine_undefined true (of_set set) what (eng s')
  | (Throw _, _) => False
  end.
Proof.
  intros PF Hsalt Hp. assert (Hm : forall good bad t, of_set set t -> of_set set (with_marks good bad t)).
  { intros good bad t (item & t0 & g & b & Hin & Ht & ->). by exists item, t0, good, bad. }
  pose proof (applyTransactions_runs (EC := any_contract (of_set set) Hm) (engine_undefined true (of_set set)) (fun _ => True) (of_set set)
    set salt s Logic.I Hsalt (proper_of_set set Hp)) as H. unfold runs in H.
  destruct (applyTransactions_unordered _ _ _ _ _ s) as [[x|[]] s']; [by eapply tracked_accounted|done..].
Qed.

(** C5: closing a ledger makes and loses no coin.  When the set has native payments,
    account settings and regular keys, in any number and whether they can be applied or
    not, [applyTransactions] returns; the balances of all account roots add up to the
    coins of the new ledger, which are fewer by exactly the fees of the transactions the
    ledger has now and did not have before, and every transaction is accounted for. *)
Theorem closing_conserves `{SHA : SHA512} `{K : Keys} `{App : Application} `{P : Paths} `{V : Votes} `{N : Node}
    (set : list SHAMapNode.SHAMapItem) (salt : uint256) (s : Server) :
  DistinctRoots -> PathsFix -> sound (eng s) -> good256 salt -> Forall (proper_item ordinary) set ->
  wpe (applyTransactions_unordered set (lgr (eng s)) (new_set salt) ∅ false) s (fun x s' =>
    coins (entries_of (eng s')) = mTotCoins (lgr (eng s')) /\
    mTotCoins (lgr (eng s')) + fees (txmap s') = mTotCoins (lgr (eng s)) + fees (txmap s) /\
    accounted set s x s').
Proof.
  intros DR PF Hs Hsalt Hp. set (total := mTotCoins (lgr (eng s)) + fees (txmap s)).
  pose proof (applyTransactions_runs (EC := ordinary_contract total) (fun _ _ => False) (balanced total) ordinary set salt s (conj Hs eq_refl) Hsalt Hp) as H.
  eapply wpe_mono; [apply (runs_wpe (fun _ _ => False)); [by intros ? ? []|exact H]|]. intros x s' Ht. destruct (tk_inv _ _ _ _ _ _ _ Ht) as [Hs' Hb].
  split_and!; [apply (sd_total _ Hs')|done|by eapply tracked_accounted].
Qed.

(** ** The town closes its ledger *)

Section Samples.
#[local] Existing Instance Directory.Tail.
#[local] Existing Instance town_keys.
#[local] Existing Instance town_app.
#[local] Existing Instance town_paths.
#[local] Existing Instance town_votes.

Definition account (n : Z) : Account := BaseUint.of_u64 BaseUint.W160 n.

(** Alice makes account 6, which makes account 5, and so on: each payment needs the
    one after it in the order of identifiers.  Bob tries to pay what he does not have. *)
Definition chain : list SerializedTransaction :=
  [payment 101 3 (account 3) (account 2) 1 10 20000; payment 102 4 (account 4) (account 3) 1 10 50000;
   payment 103 5 (account 5) (account 4) 1 10 100000; payment 104 6 (account 6) (account 5) 1 10 200000;
   payment 105 7 alice (account 6) 5 10 400000; payment 106 8 bob alice 1 10 5000].

(** A server that decodes a transaction from its number in a list. *)
Definition town_node (txs : list SerializedTransaction) : Node :=
  {| getElapsedSeconds := fun _ => 0; load := fun _ => None;
     SerializedTransaction_of := fun d =>
       match d with
       | [n] => match txs !! Z.to_nat n with Some t => Ok t | None => Throw (runtime_error "Transaction length invalid") end
       | _ => Throw (runtime_error "Transaction length invalid")
       end |}.

Definition town_set (txs : list SerializedTransaction) : list SHAMapNode.SHAMapItem :=
  imap (fun i t => {| SHAMapNode.mTag := getTransactionID t; SHAMapNode.mData := [Z.of_nat i] |}) txs.

Definition town_server : Server := {| eng := town_state; router := HashRouter.new_router HashRouter.getDefaultHoldTime; mCache := ∅; readings := 0 |}.

Definition close (txs : list SerializedTransaction) : C Sets :=
  applyTransactions_unordered (N := town_node txs) (town_set txs) (lgr (eng town_server)) (new_set SHAMapNode.zero256) ∅ false.

Lemma town_proper (Q : SerializedTransaction -> Prop) txs : Forall good_tx txs -> Forall Q txs -> Forall (proper_item (N := town_node txs) Q) (town_set txs).
Proof.
  intros Hg HQ. apply Forall_forall. intros item (i & t & -> & Hi)%elem_of_lookup_imap_1. exists t. cbn. rewrite Nat2Z.id, Hi.
  split_and!; [done|done|..]; by eapply Forall_lookup_1.
Qed.

Lemma chain_good : Forall good_tx chain.
Proof. repeat (apply Forall_cons; split; [by_decide|]). constructor. Defined.

Lemma chain_ordinary : Forall ordinary chain.
Proof.
  repeat (apply Forall_cons_2; [|]); [..|apply Forall_nil_2]; apply EngineClaims.town_payment;
    first [by_decide|unfold cMaxNativeN; lia].
Defined.

Lemma closing_accounted_witness :
  match close chain town_server with
  | (Ok x, s') => accounted (town_set chain) town_server x s'
  | _ => False
  end.
Proof.
  assert (Hp : Forall (proper_item (N := town_node chain) (fun _ => True)) (town_set chain)) by (apply town_proper; [exact chain_good|by apply Forall_true]).
  pose proof (closing_accounted (N := town_node chain) (town_set chain) SHAMapNode.zero256 town_server town_paths_fix SHAMapNode.zero256_key Hp) as H.
  assert (Hok : exists x, result_of (close chain) town_server = Ok x) by (vm_compute; by eexists).
  unfold close, result_of in *. destruct (applyTransactions_unordered _ _ _ _ _ town_server) as [[x|e] s']; [exact H|by destruct Hok].
Defined.

Lemma closing_conserves_witness :
  wpe (close chain) town_server (fun x s' =>
    coins (entries_of (eng s')) = mTotCoins (lgr (eng s')) /\
    mTotCoins (lgr (eng s')) + fees (txmap s') = mTotCoins (lgr (eng town_server)) + fees (txmap town_server) /\
    accounted (town_set chain) town_server x s').
Proof.
  assert (Hp : Forall (proper_item (N := town_node chain) ordinary) (town_set chain)) by (apply town_proper; [exact chain_good|exact chain_ordinary]).
  pose proof (closing_conserves (N := town_node chain) (town_set chain) SHAMapNode.zero256 town_server
    EngineClaims.town_distinct town_paths_fix EngineClaims.town_sound SHAMapNode.zero256_key Hp) as H.
  unfold close. exact H.
Defined.

(** The identifiers of what is left for later, of what failed, and whether the
    ledger has a transaction. *)
Definition left_over (txs : list SerializedTransaction) : result (list uint256 * list uint256) :=
  (fun x => (map getTransactionID (items (retriableTransactions x)), elements (failedTransactions x))) <$> result_of (close txs) town_server.
Definition closed_with (t : SerializedTransaction) (txs : list SerializedTransaction) : bool :=
  hasTransaction (getTransactionID t) (lgr (eng (state_of (close txs) town_server))).

(** Three passes that each change something leave no pass that is final: the payment of
    account 3, which could be applied now, is left for later, and bob keeps his fee. *)
Lemma no_final_pass :
  left_over chain = Ok ([LedgerLaws.index_of 101; LedgerLaws.index_of 106], []) /\ map (fun t => closed_with t chain) chain = [false; true; true; true; true; false] /\
  result_of (engine true (payment 101 3 (account 3) (account 2) 1 10 20000) 0) (eng (state_of (close chain) town_server)) = Ok (tesSUCCESS, true) /\
  result_of (engine true (payment 106 8 bob alice 1 10 5000) 0) (eng (state_of (close chain) town_server)) = Ok (tecUNFUNDED_PAYMENT, true).
Proof. split_and!; vm_compute; reflexivity. Qed.

(** With a chain of two there is a final pass, and bob is charged. *)
Lemma final_pass_charges :
  left_over (drop 3 chain) = Ok ([], []) /\ map (fun t => closed_with t (drop 3 chain)) (drop 3 chain) = [true; true; true].
Proof. split; vm_compute; reflexivity. Qed.

(** Somebody else's signature.  A server that has not met the transaction does not
    check it: the hash router answers that the flag was changed, which is taken for
    that the signature is known to be good. *)
Definition forged : SerializedTransaction :=
  {| getTransactionID := LedgerLaws.index_of 107; getSigningHash := LedgerLaws.index_of 107; getTxnType := ttPAYMENT;
     txFields := txFields (payment 107 7 alice bob 5 10 500); getSigningPubKey := [7]; getSignature := [0]; txPaths := None;
     mSigGood := false; mSigBad := false |}.

(** A server that knows the hash, and has the signature for good. *)
Definition knowing_server : Server :=
  set_router (HashRouter.setFlag 0 (LedgerLaws.index_of 107) HashRouter.SF_SIGGOOD (HashRouter.new_router HashRouter.getDefaultHoldTime)).2 town_server.

Lemma forged_applied :
  result_of (engine true forged 0) town_state = Ok (temINVALID, false) /\
  left_over [forged] = Ok ([], []) /\ closed_with forged [forged] = true /\
  (fun x => elements (failedTransactions x)) <$> result_of (close [forged]) knowing_server = Ok [LedgerLaws.index_of 107].
Proof. split_and!; vm_compute; reflexivity. Qed.
End Samples.


End CloseClaims.
