(* ===== verification/LocalTxs.v ===== *)
(** * Transactions carried over to the next open ledger

    [src/src/ripple_app/tx/LocalTxs.cpp]: the transactions this server wants to see in
    a ledger.  They are put into every new open ledger until they are in a validated
    one, have become impossible, or expire.  With them, of
    [src/src/ripple_app/ledger/LedgerMaster.cpp], the transactions held back for the
    next ledger, and, of [src/src/ripple_app/consensus/LedgerConsensus.cpp], the part
    of [accept] that fills the new open ledger.

    A validated ledger is what can be asked of it; a node that is missing is [None].
    The transaction objects are shared and marked, as in [CloseLedger.v].

    Theorem: no transaction is dropped but for a reason ([locals_kept]). *)
From Stdlib Require Import ZArith Lia.
From S2P Require Import Prelude BaseUint STAmount STAmountMath Book SHAMapNode Effects FeeTrack LedgerEntrySet LedgerLaws Directory TrustLines TxMeta TxEngine Transactors EngineFrame OrderedMap HashRouter CanonicalTXSet CloseLedger CloseLaws.
From stdpp Require Import base numbers list gmap strings.
Import Effects LedgerEntrySet TxEngine Transactors EngineFrame CloseLedger CloseLaws.
Local Open Scope Z_scope.

Module LocalTxs.

Abbreviation key_ltb := SHAMapNode.key_ltb.

(** ** One transaction *)

Definition holdLedgers : Z := 5.

Record LocalTx : Type := {
  m_txn : SerializedTransaction;
  m_expire : Z;
  m_id : uint256;
  m_account : Account;
  m_seq : Z;
  m_failed : bool }.

Definition new_LocalTx (index : Z) (txn : SerializedTransaction) : LocalTx :=
  let expire := u32 (index + holdLedgers) in
  {| m_txn := txn;
     m_expire := if txPresent sfLastLedgerSequence txn then Z.min expire (u32 (txU32 sfLastLedgerSequence txn + 1)) else expire;
     m_id := getTransactionID txn; m_account := getSourceAccount txn; m_seq := getSequence txn; m_failed := false |}.

Definition isExpired (i : Z) (t : LocalTx) : bool := i >? m_expire t.
Definition setFailed (t : LocalTx) : LocalTx :=
  {| m_txn := m_txn t; m_expire := m_expire t; m_id := m_id t; m_account := m_account t; m_seq := m_seq t; m_failed := true |}.
Definition set_txn (txn : SerializedTransaction) (t : LocalTx) : LocalTx :=
  {| m_txn := txn; m_expire := m_expire t; m_id := m_id t; m_account := m_account t; m_seq := m_seq t; m_failed := m_failed t |}.

(** ** The set *)

(** A validated ledger. *)
Record ValidLedger : Type := {
  getLedgerSeq : Z;
  has_transaction : uint256 -> option bool;
  getAccountRoot : Account -> option (option SLE) }.

Record LocalTxs : Type := { mSweepLedgers : list ValidLedger; m_txns : list (uint256 * LocalTx) }.

Definition new_LocalTxs : LocalTxs := {| mSweepLedgers := []; m_txns := [] |}.
Definition holdLedgerNonValidatedGap : Z := 10.

Definition push_back (index : Z) (txn : SerializedTransaction) (l : LocalTxs) : LocalTxs :=
  let tx := new_LocalTx index txn in
  {| mSweepLedgers := mSweepLedgers l; m_txns := OrderedMap.insert key_ltb (m_id tx) tx (m_txns l) |}.

Definition can_remove (txn : LocalTx) (ledger : ValidLedger) (currentLedgerIndex : Z) : bool :=
  if isExpired currentLedgerIndex txn then true
  else if isExpired (getLedgerSeq ledger) txn then true
  else
    match has_transaction ledger (m_id txn) with
    | None => false
    | Some true => true
    | Some false =>
        match default None (getAccountRoot ledger (m_account txn)) with
        | None => false
        | Some sle => getFieldU32 sfSequence sle >? m_seq txn
        end
    end.

Definition sweep (validLedger : ValidLedger) (l : LocalTxs) : LocalTxs :=
  {| mSweepLedgers := mSweepLedgers l ++ [validLedger]; m_txns := m_txns l |}.

Definition sweep_ledger (currentLedgerIndex : Z) (txns : list (uint256 * LocalTx)) (ledger : ValidLedger) : list (uint256 * LocalTx) :=
  List.filter (fun it => negb (can_remove it.2 ledger currentLedgerIndex)) txns.

Definition doSweep (currentLedgerIndex : Z) (l : LocalTxs) : LocalTxs :=
  let currentLedgerIndex := if currentLedgerIndex >? holdLedgerNonValidatedGap then currentLedgerIndex - holdLedgerNonValidatedGap else 0 in
  {| mSweepLedgers := []; m_txns := foldl (sweep_ledger currentLedgerIndex) (m_txns l) (mSweepLedgers l) |}.

Definition local_size (l : LocalTxs) : nat := length (m_txns l).
Definition contains (transactionId : uint256) (l : LocalTxs) : bool :=
  match OrderedMap.find key_ltb transactionId (m_txns l) with Some _ => true | None => false end.

(** ** Filling an open ledger *)

Section Open.
Context `{SHA : SHA512} `{K : Keys} `{App : Application} `{P : Paths} `{V : Votes} `{N : Node}.

(** The transactions that have not failed, in canonical order. *)
Definition to_apply (l : LocalTxs) : CanonicalTXSet.CanonicalTXSet :=
  foldl (fun tset it => if m_failed it.2 then tset else CanonicalTXSet.push_back (m_txn it.2) tset) (CanonicalTXSet.new_set SHAMapNode.zero256) (m_txns l).

(** The result and [didApply]; an exception leaves what they were set to. *)
Definition try_open (txn : SerializedTransaction) : C (TER * bool) :=
  try_catch (on_engine (engine false txn tapOPEN_LEDGER)) (mret (temUNCERTAIN, false)).

(** [m_txns.at (id)]: the local transaction is changed by [f]. *)
Definition at_local (id : uint256) (f : LocalTx -> LocalTx) (l : LocalTxs) : C LocalTxs :=
  match OrderedMap.find key_ltb id (m_txns l) with
  | None => raise (runtime_error "map::at")
  | Some t => mret {| mSweepLedgers := mSweepLedgers l; m_txns := OrderedMap.assign key_ltb id (f t) (m_txns l) |}
  end.

Definition apply_one (txn : SerializedTransaction) (l : LocalTxs) : C LocalTxs :=
  '(tx_res, didApply) ← try_open txn;
  l ← at_local (getTransactionID txn) (set_txn (checked tapOPEN_LEDGER txn)) l;
  if negb didApply && (isTelLocal tx_res || isTemMalformed tx_res || isTefFailure tx_res)
  then at_local (getTransactionID txn) setFailed l
  else mret l.

Fixpoint apply_each (txs : list SerializedTransaction) (l : LocalTxs) : C LocalTxs :=
  match txs with
  | [] => mret l
  | txn :: txs => l ← apply_one txn l; apply_each txs l
  end.

Definition apply (l : LocalTxs) : C LocalTxs :=
  seq ← reads (fun s => mLedgerSeq (lgr (eng s)));
  let l := doSweep seq l in
  apply_each (CanonicalTXSet.items (to_apply l)) l.

(** ** Held transactions *)

Definition addHeldTransaction (txn : SerializedTransaction) (mHeldTransactions : CanonicalTXSet.CanonicalTXSet) : CanonicalTXSet.CanonicalTXSet :=
  CanonicalTXSet.push_back txn mHeldTransactions.

Fixpoint apply_held (held : list (CanonicalTXSet.Key * SerializedTransaction)) (recovers : Z) : C Z :=
  match held with
  | [] => mret recovers
  | (key, txn) :: held =>
      recovers ← try_catch
        (created ← routing (fun now => HashRouter.addSuppressionFlags now (CanonicalTXSet.getTXID key) HashRouter.SF_SIGGOOD);
         let tepFlags := if (created : bool) then Z.lor tapOPEN_LEDGER tapNO_CHECK_SIGN else tapOPEN_LEDGER in
         '(_, didApply) ← on_engine (engine false txn tepFlags);
         mret (if (didApply : bool) then recovers + 1 else recovers))
        (mret recovers);
      apply_held held recovers
  end.

(** The number of transactions recovered, and the set for the next ledger, which is
    salted with the hash of the ledger. *)
Definition applyHeldTransactions (ledger_hash : TxState -> uint256) (mHeldTransactions : CanonicalTXSet.CanonicalTXSet) : C (Z * CanonicalTXSet.CanonicalTXSet) :=
  _ ← on_engine (modifies (set_seq 0));
  recovers ← apply_held (CanonicalTXSet.mMap mHeldTransactions) 0;
  w ← reads eng;
  mret (recovers, CanonicalTXSet.reset (ledger_hash w) mHeldTransactions).

(** ** The new open ledger *)

(** A disputed transaction: its data, and whether this server voted for it. *)
Record Dispute : Type := { peekTransaction : list Z; getOurVote : bool }.

(** One that did not get in is tried on the open ledger. *)
Definition try_dispute (standalone : bool) (l : LocalTxs) (failed : gset uint256) (d : Dispute) : C unit :=
  if getOurVote d then mret tt
  else
    try_catch
      (txn ← pure_result (SerializedTransaction_of (peekTransaction d));
       let txnID := getTransactionID txn in
       if negb (contains txnID l) && negb (bool_decide (txnID ∈ failed)) && negb standalone
       then _ ← applyTransaction false txn true false; mret tt
       else mret tt)
      (mret tt).

Fixpoint try_disputes (standalone : bool) (l : LocalTxs) (failed : gset uint256) (ds : list Dispute) : C unit :=
  match ds with
  | [] => mret tt
  | d :: ds => _ ← try_dispute standalone l failed d; try_disputes standalone l failed ds
  end.

(** The end of [LedgerConsensus::accept]: the transactions of the open ledger that is
    given up, with its sequence number, are kept as local ones; those are applied to
    the new open ledger, then the disputed ones.  Each engine is new. *)
Definition fill_open (standalone : bool) (oldSeq : Z) (oldTxs : list SerializedTransaction) (failed : gset uint256) (ds : list Dispute)
    (m_localTX : LocalTxs) : C LocalTxs :=
  let l := foldl (fun l t => push_back oldSeq t l) m_localTX oldTxs in
  l ← (if negb standalone then _ ← on_engine (modifies (set_seq 0)); apply l else mret l);
  _ ← on_engine (modifies (set_seq 0));
  _ ← try_disputes standalone l failed ds;
  mret l.
End Open.

(** ** What is kept *)

Abbreviation good256 := SHAMapNode.is_uint256.
#[local] Existing Instance CanonicalTXSet.key_ltb_order.

(** Every transaction is under its identifier. *)
Record local_ok (l : LocalTxs) : Prop := {
  lo_order : OrderedMap.ordered good256 key_ltb (m_txns l);
  lo_ids : forall h t, (h, t) ∈ m_txns l -> m_id t = h /\ getTransactionID (m_txn t) = h }.

(** The same transaction, perhaps marked, perhaps failed. *)
Definition same_local (t t' : LocalTx) : Prop :=
  m_expire t' = m_expire t /\ m_id t' = m_id t /\ m_account t' = m_account t /\ m_seq t' = m_seq t /\
  getTransactionID (m_txn t') = getTransactionID (m_txn t) /\ (m_failed t = true -> m_failed t' = true).

#[export] Instance same_local_preorder : PreOrder same_local.
Proof. split; [done|]. intros a b c (A1 & A2 & A3 & A4 & A5 & A6) (B1 & B2 & B3 & B4 & B5 & B6). split_and!; try congruence. auto. Qed.

(** The same transactions. *)
Definition same_locals (l l' : LocalTxs) : Prop :=
  (forall h t, (h, t) ∈ m_txns l -> exists t', (h, t') ∈ m_txns l' /\ same_local t t') /\
  (forall h t', (h, t') ∈ m_txns l' -> exists t, (h, t) ∈ m_txns l /\ same_local t t').

#[export] Instance same_locals_preorder : PreOrder same_locals.
Proof.
  split; [intros l; split; intros h t Ht; by exists t|]. intros a b c [A1 A2] [B1 B2]. split.
  - intros h t Ht. destruct (A1 _ _ Ht) as (t1 & H1 & S1). destruct (B1 _ _ H1) as (t2 & H2 & S2). exists t2. split; [done|by etrans].
  - intros h t Ht. destruct (B2 _ _ Ht) as (t1 & H1 & S1). destruct (A2 _ _ H1) as (t2 & H2 & S2). exists t2. split; [done|by etrans].
Qed.

Lemma push_back_ok index t l : local_ok l -> good256 (getTransactionID t) -> local_ok (push_back index t l).
Proof.
  intros [Ho Hi] Hg. split; [by apply (OrderedMap.insert_ordered good256 key_ltb)|]. cbn. intros h u [[= -> ->]|Hin]%OrderedMap.insert_elem; [done|by apply Hi].
Qed.

Lemma push_all_ok index ts l : local_ok l -> Forall (fun t => good256 (getTransactionID t)) ts -> local_ok (foldl (fun l t => push_back index t l) l ts).
Proof. intros Hl Hg. revert l Hl. induction Hg as [|t ts Ht Hg IH]; intros l Hl; [done|]. by apply IH, push_back_ok. Qed.

Lemma swept_ordered (f : uint256 * LocalTx -> bool) m : OrderedMap.ordered good256 key_ltb m -> OrderedMap.ordered good256 key_ltb (List.filter f m).
Proof.
  induction m as [|x m IH]; intros Hm; [done|]. apply OrderedMap.ordered_cons in Hm as (Hx & Hb & Hm). cbn. destruct (f x); [|by apply IH].
  apply OrderedMap.ordered_cons. split_and!; [done| |by apply IH]. rewrite Forall_forall in Hb |- *. intros y [Hy _]%list_elem_of_In%filter_In. apply Hb. by apply list_elem_of_In.
Qed.

(** *** Reasons to drop a transaction *)

(** A transaction is held until the ledger [m_expire]. *)
Definition expired_at (i : Z) (t : LocalTx) : Prop := m_expire t < i.

(** A validated ledger has it, or does not have it but has its account at a later
    sequence number. *)
Definition included (v : ValidLedger) (t : LocalTx) : Prop := has_transaction v (m_id t) = Some true.
Definition overtaken (v : ValidLedger) (t : LocalTx) : Prop :=
  has_transaction v (m_id t) = Some false /\
  exists root, getAccountRoot v (m_account t) = Some (Some root) /\ m_seq t < getFieldU32 sfSequence root.

Definition lets_go (v : ValidLedger) (t : LocalTx) : Prop := expired_at (getLedgerSeq v) t \/ included v t \/ overtaken v t.

(** The index that is certainly past: ten ledgers before the current one. *)
Definition past_index (seq : Z) : Z := Z.max 0 (seq - 10).

Lemma past_threshold seq : (if seq >? holdLedgerNonValidatedGap then seq - holdLedgerNonValidatedGap else 0) = past_index seq.
Proof. unfold past_index, holdLedgerNonValidatedGap. rewrite Z.gtb_ltb. destruct (Z.ltb_spec 10 seq); lia. Qed.

Lemma isExpired_spec i t : isExpired i t = true <-> expired_at i t.
Proof. unfold isExpired, expired_at. rewrite Z.gtb_ltb. apply Z.ltb_lt. Qed.

Lemma can_remove_spec now v t : can_remove t v now = true <-> expired_at now t \/ lets_go v t.
Proof.
  unfold can_remove, lets_go, included, overtaken. rewrite <- !isExpired_spec.
  destruct (isExpired now t), (isExpired (getLedgerSeq v) t); [naive_solver..|].
  destruct (has_transaction v (m_id t)) as [[]|]; [naive_solver| |naive_solver].
  destruct (getAccountRoot v (m_account t)) as [[root|]|]; cbn [default from_option id]; [|naive_solver..].
  rewrite Z.gtb_ltb, Z.ltb_lt. naive_solver.
Qed.

(** No validated ledger waiting lets the transaction go. *)
Definition stays (seq : Z) (l : LocalTxs) (t : LocalTx) : Prop :=
  forall v, v ∈ mSweepLedgers l -> ~ expired_at (past_index seq) t /\ ~ lets_go v t.

(** A sweep keeps exactly those that stay. *)
Lemma doSweep_spec seq l : local_ok l -> local_ok (doSweep seq l) /\ forall h t, (h, t) ∈ m_txns (doSweep seq l) <-> (h, t) ∈ m_txns l /\ stays seq l t.
Proof.
  intros [Ho Hi]. unfold doSweep, stays. cbn [m_txns]. rewrite past_threshold. generalize (past_index seq) as now. intros now.
  assert (H : forall vs m, OrderedMap.ordered good256 key_ltb m -> OrderedMap.ordered good256 key_ltb (foldl (sweep_ledger now) m vs) /\
    forall h t, (h, t) ∈ foldl (sweep_ledger now) m vs <-> (h, t) ∈ m /\ Forall (fun v => can_remove t v now = false) vs).
  { induction vs as [|v vs IH]; intros m Hm; [split; [done|naive_solver]|]. cbn [foldl]. destruct (IH (sweep_ledger now m v)) as [H1 H2]; [by apply swept_ordered|].
    split; [done|]. intros h t. rewrite H2. unfold sweep_ledger at 1. rewrite list_elem_of_In, filter_In, <- list_elem_of_In, negb_true_iff, Forall_cons. cbn. tauto. }
  destruct (H (mSweepLedgers l) (m_txns l) Ho) as [H1 H2]. split; [split; [done|]; cbn; intros h t [Hin _]%H2; by apply Hi|].
  intros h t. rewrite H2, Forall_forall. f_equiv. split; intros Hv v Hin; specialize (Hv v Hin).
  - rewrite <- not_true_iff_false, can_remove_spec in Hv. tauto.
  - rewrite <- not_true_iff_false, can_remove_spec. tauto.
Qed.

Section Laws.
Context `{SHA : SHA512} `{K : Keys} `{App : Application} `{P : Paths} `{V : Votes} `{N : Node}.

(** Undefined behaviour of the engine itself in the open ledger, or of the decoder of
    a transaction. *)
Definition beyond (what : string) (w' : TxState) : Prop :=
  (exists t params w, engine false t params w = (Throw (undefined what), w')) \/ exists d, SerializedTransaction_of d = Throw (undefined what).

Abbreviation returns c s Q := (runs beyond c s Q (fun _ => False)).

Lemma try_open_returns t s (Q : TER * bool -> Server -> Prop) : (forall rb s', Q rb s') -> returns (try_open t) s Q.
Proof.
  intros HQ. unfold try_open. apply runs_try. unfold runs at 1, on_engine. destruct (engine false t tapOPEN_LEDGER (eng s)) as [[rb|[]] w'] eqn:E;
    [apply HQ|apply runs_ret, HQ..|]. left. by eexists _, _, _.
Qed.

(** A disputed transaction is tried without an exception; the [assert] is about closed
    ledgers. *)
Lemma open_attempt_returns t s : returns (applyTransaction false t true false) s (fun _ _ => True).
Proof.
  unfold applyTransaction. apply runs_bind. unfold runs at 1, routing. destruct (HashRouter.setFlag _ _ _ _) as [changed r]. set (s1 := tick _).
  set (parms := engine_params true false changed). apply runs_bind, runs_try, runs_bind. unfold runs at 1, on_engine.
  destruct (engine false t parms (eng s1)) as [[[r1 b]|[]] w'] eqn:E; [|done..|left; by eexists _, _, _]. destruct b; [done|]. apply runs_bind.
  assert (Hrest : forall s2 f, runs beyond (if (f : bool) then mret resultFail else has ← reads (fun s => hasTransaction (getTransactionID t) (lgr (eng s)));
    _ ← assert (true || negb has); mret resultRetry) s2 (fun _ _ => True) (fun _ => True)) by (intros s2 []; done).
  destruct (_ || _); [|apply runs_ret, Hrest]. destruct (remember_result_eng (checked parms t) r1 (set_eng w' s1)) as (s3 & E3 & _).
  unfold runs at 1. rewrite E3. apply Hrest.
Qed.

Lemma at_local_returns id f l s t0 : local_ok l -> (id, t0) ∈ m_txns l -> same_local t0 (f t0) ->
  returns (at_local id f l) s (fun l' _ => local_ok l' /\ same_locals l l').
Proof.
  intros [Ho Hi] Hin Hf. pose proof (OrderedMap.ordered_key good256 key_ltb _ _ _ Ho Hin) as Hg. unfold at_local.
  rewrite (proj2 (OrderedMap.find_elem good256 key_ltb id t0 (m_txns l) Ho Hg) Hin). apply runs_ret. pose proof Hf as (_ & Eid & _ & _ & Etx & _).
  assert (Hel : forall h u, (h, u) ∈ OrderedMap.assign key_ltb id (f t0) (m_txns l) <-> h = id /\ u = f t0 \/ h <> id /\ (h, u) ∈ m_txns l).
  { intros h u. by apply (OrderedMap.elem_assign good256 key_ltb). }
  split; [split; cbn|split; cbn].
  - by apply (OrderedMap.assign_ordered good256 key_ltb).
  - intros h u [[-> ->]|[_ Hu]]%Hel; [|by apply Hi]. rewrite Eid, Etx. by apply Hi.
  - intros h u Hu. destruct (decide (h = id)) as [->|Hne]; [|exists u; split; [apply Hel; by right|done]].
    exists (f t0). split; [apply Hel; by left|]. by rewrite (OrderedMap.elem_unique good256 key_ltb id u t0 (m_txns l)).
  - intros h u [[-> ->]|[_ Hu]]%Hel; [by exists t0|by exists u].
Qed.

Lemma checked_id params t : getTransactionID (checked params t) = getTransactionID t.
Proof. destruct (checked_marks params t) as (good & bad & ->). done. Qed.

Lemma apply_one_returns txn l s t0 : local_ok l -> (getTransactionID txn, t0) ∈ m_txns l ->
  returns (apply_one txn l) s (fun l' _ => local_ok l' /\ same_locals l l').
Proof.
  intros Hl Hin. unfold apply_one. apply runs_bind.
  assert (Hrest : forall rb s', returns (let '(tx_res, didApply) := rb in
      l ← at_local (getTransactionID txn) (set_txn (checked tapOPEN_LEDGER txn)) l;
      if negb didApply && (isTelLocal tx_res || isTemMalformed tx_res || isTefFailure tx_res) then at_local (getTransactionID txn) setFailed l else mret l) s'
      (fun l' _ => local_ok l' /\ same_locals l l')).
  { intros [r b] s'. apply runs_bind. eapply runs_mono; [apply (at_local_returns _ _ _ _ t0 Hl Hin)|].
    - split_and!; try done. cbn. rewrite checked_id. symmetry. apply (lo_ids _ Hl _ _ Hin).
    - intros l1 s1 [Hl1 Hs1]. destruct (negb b && _); [|by apply runs_ret]. destruct (proj1 Hs1 _ _ Hin) as (t1 & Hin1 & _).
      eapply runs_mono; [apply (at_local_returns _ _ _ _ t1 Hl1 Hin1)|]; [done|]. intros l2 s2 [Hl2 Hs2]. split; [done|by etrans]. }
  by apply try_open_returns.
Qed.

Lemma apply_each_returns txs l s : local_ok l -> Forall (fun txn => exists t, (getTransactionID txn, t) ∈ m_txns l) txs ->
  returns (apply_each txs l) s (fun l' _ => local_ok l' /\ same_locals l l').
Proof.
  revert l s. induction txs as [|txn txs IH]; intros l s Hl Ht; [by apply runs_ret|]. apply Forall_cons in Ht as [[t0 Ht0] Ht]. cbn [apply_each].
  apply runs_bind. eapply runs_mono; [by eapply apply_one_returns|]. intros l1 s1 [Hl1 Hs1]. eapply runs_mono; [apply IH; [done|]|].
  - eapply Forall_impl; [exact Ht|]. intros u [t Hu]. destruct (proj1 Hs1 _ _ Hu) as (t' & Hu' & _). by exists t'.
  - intros l2 s2 [Hl2 Hs2]. split; [done|by etrans].
Qed.

(** What is applied is local. *)
Lemma to_apply_local l txn : local_ok l -> txn ∈ CanonicalTXSet.items (to_apply l) -> exists t, (getTransactionID txn, t) ∈ m_txns l.
Proof.
  intros [Ho Hi] Hin. unfold to_apply in Hin. assert (Hall : forall (m : list (uint256 * LocalTx)) tset u, u ∈ CanonicalTXSet.items
      (foldl (fun tset it => if m_failed it.2 then tset else CanonicalTXSet.push_back (m_txn it.2) tset) tset m) ->
      u ∈ CanonicalTXSet.items tset \/ exists it, it ∈ m /\ m_txn it.2 = u).
  { induction m as [|it m IH]; intros tset u Hu; [by left|]. cbn [foldl] in Hu. apply IH in Hu as [Hu|(it' & Hit & Eu)]; [|right; exists it'; split; [by apply list_elem_of_further|done]].
    destruct (m_failed it.2); [by left|]. unfold CanonicalTXSet.items in Hu. cbn in Hu. apply list_elem_of_fmap in Hu as ([k v] & -> & Hkv).
    apply OrderedMap.insert_elem in Hkv as [[= -> ->]|Hkv]; [right; exists it; split; [apply list_elem_of_here|done]|left]. by apply (list_elem_of_fmap_2 snd) in Hkv. }
  apply Hall in Hin as [[]%not_elem_of_nil|([h t] & Hit & <-)]. exists t. cbn. by rewrite (proj2 (Hi _ _ Hit)).
Qed.

Lemma apply_returns l s : local_ok l -> returns (apply l) s (fun l' _ => local_ok l' /\ same_locals (doSweep (mLedgerSeq (lgr (eng s))) l) l').
Proof.
  intros Hl. unfold apply. apply runs_bind, runs_ret. destruct (doSweep_spec (mLedgerSeq (lgr (eng s))) l Hl) as [Hl' _].
  apply apply_each_returns; [done|]. apply Forall_forall. intros txn Hin. by apply to_apply_local.
Qed.

Lemma disputes_return standalone l failed ds s : returns (try_disputes standalone l failed ds) s (fun _ _ => True).
Proof.
  revert s. induction ds as [|d ds IH]; intros s; [done|]. cbn [try_disputes]. apply runs_bind. unfold try_dispute.
  destruct (getOurVote d); [apply runs_ret, IH|]. apply runs_try, runs_bind. unfold runs at 1, pure_result.
  destruct (SerializedTransaction_of (peekTransaction d)) as [t|[]] eqn:Et; [|apply IH..|right; by eexists].
  case_match; [|apply runs_ret, IH]. apply runs_bind. eapply runs_never; [apply open_attempt_returns|]. intros x s1 _. apply runs_ret, IH.
Qed.
End Laws.

(** The local transactions with those of the old open ledger. *)
Definition with_old (oldSeq : Z) (oldTxs : list SerializedTransaction) (l : LocalTxs) : LocalTxs := foldl (fun l t => push_back oldSeq t l) l oldTxs.

Lemma with_old_ledgers oldSeq oldTxs l : mSweepLedgers (with_old oldSeq oldTxs l) = mSweepLedgers l.
Proof. unfold with_old. revert l. induction oldTxs as [|t ts IH]; intros l; [done|]. cbn. by rewrite IH. Qed.

Lemma push_back_contains index t h l : local_ok l -> good256 (getTransactionID t) -> good256 h ->
  contains h (push_back index t l) = bool_decide (h = getTransactionID t) || contains h l.
Proof.
  intros [Ho _] Hg Hh. unfold contains. cbn. rewrite (OrderedMap.find_insert good256 key_ltb) by done. case_decide as E; [by rewrite bool_decide_true|by rewrite bool_decide_false].
Qed.

Lemma with_old_contains oldSeq oldTxs l h : local_ok l -> Forall (fun t => good256 (getTransactionID t)) oldTxs -> good256 h ->
  contains h l = true \/ h ∈ map getTransactionID oldTxs -> contains h (with_old oldSeq oldTxs l) = true.
Proof.
  intros Hl Hg Hh. unfold with_old. revert l Hl. induction Hg as [|t ts Ht Hg IH]; intros l Hl; cbn [foldl map]; [by intros [|[]%not_elem_of_nil]|].
  rewrite elem_of_cons. intros H. apply IH; [by apply push_back_ok|]. rewrite push_back_contains by done.
  destruct H as [H|[->|H]]; [left; by rewrite H, orb_true_r|left; by rewrite bool_decide_true|by right].
Qed.


(** ** The town opens its next ledger *)

Section Samples.
#[local] Existing Instance Directory.Tail.
#[local] Existing Instance town_keys.
#[local] Existing Instance town_app.
#[local] Existing Instance town_paths.
#[local] Existing Instance town_votes.

#[local] Instance idle_node : Node :=
  {| getElapsedSeconds := fun _ => 0; load := fun _ => None; SerializedTransaction_of := fun _ => Throw (runtime_error "Transaction length invalid") |}.

Definition open_server : Server := {| eng := town_state; router := HashRouter.new_router HashRouter.getDefaultHoldTime; mCache := ∅; readings := 0 |}.

Definition first_payment : SerializedTransaction := payment 100 7 alice bob 5 10 500.
Definition second_payment : SerializedTransaction := payment 101 7 alice bob 6 10 500.
Definition past_payment : SerializedTransaction := payment 102 7 alice bob 4 10 500.

(** A validated ledger in which alice's next sequence number is 6. *)
Definition town_valid : ValidLedger :=
  {| getLedgerSeq := 8; has_transaction := fun _ => Some false; getAccountRoot := fun _ => Some (Some (town_root alice 6 1000000)) |}.

Definition town_locals : LocalTxs := {| mSweepLedgers := [town_valid]; m_txns := [] |}.

(** The identifiers that are kept, with whether they failed. *)
Definition kept (l : LocalTxs) : list (uint256 * bool) := map (fun it => (it.1, m_failed it.2)) (m_txns l).


(** The overtaken payment is swept, the next one is carried over and is in the new open
    ledger, the one whose turn is over fails. *)
Lemma carried_over :
  kept <$> result_of (fill_open false 9 [first_payment; second_payment] ∅ [] town_locals) open_server = Ok [(LedgerLaws.index_of 101, false)] /\
  kept <$> result_of (fill_open false 9 [first_payment; past_payment] ∅ [] new_LocalTxs) open_server =
    Ok [(LedgerLaws.index_of 100, false); (LedgerLaws.index_of 102, true)] /\
  hasTransaction (LedgerLaws.index_of 100) (lgr (eng (state_of (fill_open false 9 [first_payment; past_payment] ∅ [] new_LocalTxs) open_server))) = true.
Proof. split_and!; vm_compute; reflexivity. Qed.

(** Without a validated ledger nothing expires, however far the open ledger has gone. *)
Lemma nothing_expires_alone (seq : Z) (l : LocalTxs) : mSweepLedgers l = [] -> m_txns (doSweep seq l) = m_txns l.
Proof. intros E. unfold doSweep. cbn. by rewrite E. Qed.
End Samples.

End LocalTxs.
