(* ===== verification/FeeVote.v ===== *)
(** * Voting on fees

    [src/src/ripple_app/misc/FeeVoteImpl.cpp]: what this server asks for in its
    validations, and which fee change it proposes for the ledger after a flag ledger,
    from the validations of the trusted servers.

    A validation is its fields, the ones that are absent being [None].  The proposal is
    the fields of the transaction; its identifier and its bytes are left out.

    Theorem: the value chosen is the one with most votes between what is set and what
    this server wants ([fee_vote_choice]). *)
From Stdlib Require Import ZArith Lia.
From S2P Require Import Prelude BaseUint STAmount STAmountMath Book SHAMapNode Effects FeeTrack LedgerEntrySet LedgerLaws Directory TrustLines TxMeta TxEngine Transactors EngineFrame OrderedMap.
From stdpp Require Import base numbers list gmap strings.
Import Effects LedgerEntrySet TrustLines TxEngine Transactors.
Local Open Scope Z_scope.

Module FeeVote.

(** ** A value that is voted on *)

Record VotableInteger : Type := { mCurrent : Z; mTarget : Z; mVoteMap : list (Z * Z) }.

(** [++mVoteMap[vote]]. *)
Definition count_vote (vote : Z) (m : list (Z * Z)) : list (Z * Z) :=
  OrderedMap.assign Z.ltb vote (i32 (default 0 (OrderedMap.find Z.ltb vote m) + 1)) m.

Definition new_votable (current target : Z) : VotableInteger := {| mCurrent := current; mTarget := target; mVoteMap := count_vote target [] |}.
Definition mayVote (v : VotableInteger) : bool := negb (mCurrent v =? mTarget v).
Definition addVote (vote : Z) (v : VotableInteger) : VotableInteger :=
  {| mCurrent := mCurrent v; mTarget := mTarget v; mVoteMap := count_vote vote (mVoteMap v) |}.
Definition noVote (v : VotableInteger) : VotableInteger := addVote (mCurrent v) v.

(** The loop over the votes: the best value so far, and its weight. *)
Fixpoint best_vote (low high : Z) (votes : list (Z * Z)) (ourVote weight : Z) : Z :=
  match votes with
  | [] => ourVote
  | (value, n) :: votes =>
      if (value <=? high) && (value >=? low) && (n >? weight) then best_vote low high votes value n
      else best_vote low high votes ourVote weight
  end.

Definition getVotes (v : VotableInteger) : Z :=
  best_vote (Z.min (mTarget v) (mCurrent v)) (Z.max (mTarget v) (mCurrent v)) (mVoteMap v) (mCurrent v) 0.

(** ** The server *)

Record FeeVoteImpl : Type := { mTargetBaseFee : Z; mTargetReserveBase : Z; mTargetReserveIncrement : Z }.

Record Validation : Type := {
  isTrusted : bool;
  v_BaseFee : option Z;
  v_ReserveBase : option Z;
  v_ReserveIncrement : option Z }.

(** The fields this server puts into its validation. *)
Definition doValidation (f : FeeVoteImpl) (lastClosedLedger : Ledger) (baseValidation : Validation) : result Validation :=
  reserve ← getReserve 0 lastClosedLedger;
  mret {| isTrusted := isTrusted baseValidation;
          v_BaseFee := if negb (mBaseFee lastClosedLedger =? mTargetBaseFee f) then Some (mTargetBaseFee f) else v_BaseFee baseValidation;
          v_ReserveBase := if negb (reserve =? mTargetReserveBase f) then Some (mTargetReserveBase f) else v_ReserveBase baseValidation;
          v_ReserveIncrement := if negb (mReserveIncrement lastClosedLedger =? mTargetReserveIncrement f) then Some (mTargetReserveIncrement f)
                                else v_ReserveIncrement baseValidation |}.

Definition count_field (field : Validation -> option Z) (set : list Validation) (v : VotableInteger) : VotableInteger :=
  foldl (fun v val => if isTrusted val then match field val with Some vote => addVote vote v | None => noVote v end else v) v set.

(** [doVoting]: the fields of the transaction that is added to the position, if any.  The
    sequence number of the ledger is given apart; only a flag ledger is voted on. *)
Definition doVoting (f : FeeVoteImpl) (ledgerSeq : Z) (lastClosedLedger : Ledger) (set : list Validation) : result (option (gmap SField STValue)) :=
  if negb (ledgerSeq mod 256 =? 0) then Throw (undefined "assertion") else
  reserve ← getReserve 0 lastClosedLedger;
  let baseFee := getVotes (count_field v_BaseFee set (new_votable (mBaseFee lastClosedLedger) (mTargetBaseFee f))) in
  let baseReserve := getVotes (count_field v_ReserveBase set (new_votable (u32 reserve) (mTargetReserveBase f))) in
  let incReserve := getVotes (count_field v_ReserveIncrement set (new_votable (u32 (mReserveIncrement lastClosedLedger)) (mTargetReserveIncrement f))) in
  mret (if negb (baseFee =? mBaseFee lastClosedLedger) || negb (baseReserve =? reserve) || negb (incReserve =? mReserveIncrement lastClosedLedger)
        then Some (list_to_map [(sfAccount, STAccount STAmount.u160_zero); (sfBaseFee, STUInt64 baseFee); (sfReferenceFeeUnits, STUInt32 10);
                                (sfReserveBase, STUInt32 baseReserve); (sfReserveIncrement, STUInt32 incReserve)])
        else None).

(** ** The choice *)

#[local] Existing Instance OrderedMap.Zltb_order.
Abbreviation ordered := (OrderedMap.ordered (fun _ : Z => True) Z.ltb).

(** The map counts the votes. *)
Definition counts (m : list (Z * Z)) (votes : list Z) : Prop :=
  ordered m /\ forall v n, (v, n) ∈ m <-> v ∈ votes /\ n = cnt v votes.

Lemma counts_nil : counts [] [].
Proof. split; [apply OrderedMap.ordered_nil|]. intros v n. split; [by intros ?%not_elem_of_nil|by intros [?%not_elem_of_nil _]]. Qed.

Lemma counts_vote vote m votes : counts m votes -> Z.of_nat (length votes) < 2147483647 -> counts (count_vote vote m) (vote :: votes).
Proof.
  intros [Ho Hc] Hl. unfold count_vote. split; [by apply (OrderedMap.assign_ordered (fun _ => True) Z.ltb)|].
  assert (Hd : default 0 (OrderedMap.find Z.ltb vote m) = cnt vote votes).
  { destruct (OrderedMap.find Z.ltb vote m) as [n|] eqn:E; cbn.
    - apply (OrderedMap.find_elem (fun _ => True) Z.ltb) in E; [|done|done]. by apply Hc in E as [_ ->].
    - symmetry. apply cnt_zero. intros Hin. assert ((vote, cnt vote votes) ∈ m) as Hm by (by apply Hc).
      apply (OrderedMap.find_elem (fun _ => True) Z.ltb) in Hm; [congruence|done|done]. }
  pose proof (cnt_length vote votes) as Hb. pose proof (cnt_nonneg vote votes) as H0. rewrite Hd, swrap_id by (unfold in_s; change (2 ^ (32 - 1)) with 2147483648; lia).
  intros v n. rewrite (OrderedMap.elem_assign (fun _ => True) Z.ltb) by done. rewrite Hc, elem_of_cons, cnt_cons. case_decide as E; naive_solver lia.
Qed.

(** The loop finds the heaviest value, the least of several. *)
Lemma best_vote_spec low high m our w : ordered m -> (forall v n, (v, n) ∈ m -> our < v \/ w = 0) -> 0 <= w ->
  let r := best_vote low high m our w in
  (r = our /\ forall v n, (v, n) ∈ m -> low <= v <= high -> n <= w) \/
  exists n, (r, n) ∈ m /\ low <= r <= high /\ w < n /\ forall v k, (v, k) ∈ m -> low <= v <= high -> k < n \/ k = n /\ r <= v.
Proof.
  revert our w. induction m as [|[v n] m IH]; intros our w Ho Hlt Hw; cbn [best_vote]; [left; split; [done|]; by intros v n ?%not_elem_of_nil|].
  apply OrderedMap.ordered_cons in Ho as (_ & Hb & Ho). rewrite Forall_forall in Hb.
  assert (Hafter : forall u k, (u, k) ∈ m -> v < u) by (intros u k Hin; specialize (Hb _ Hin); unfold OrderedMap.before in Hb; cbn in Hb; lia).
  destruct ((v <=? high) && (v >=? low) && (n >? w)) eqn:E.
  - bool_cases. destruct (IH v n Ho) as [[Hr Hall]|(k & Hin & Hrange & Hk & Hall)]; [intros u k Hin; left; by eapply Hafter|lia| |].
    + right. exists n. rewrite Hr. split_and!; [apply list_elem_of_here|lia|lia|lia|]. intros u k [[= -> ->]|Hin]%elem_of_cons Hu; [lia|].
      specialize (Hall _ _ Hin Hu). pose proof (Hafter _ _ Hin). lia.
    + right. exists k. split_and!; [by apply list_elem_of_further|lia|lia|lia|]. intros u j [[= -> ->]|Hu]%elem_of_cons Hr; [lia|by apply Hall].
  - destruct (IH our w Ho) as [[Hr Hall]|(k & Hin & Hrange & Hk & Hall)]; [intros u k Hin; apply (Hlt u k); by apply list_elem_of_further|done| |].
    + left. split; [done|]. intros u k [[= -> ->]|Hin]%elem_of_cons Hu; [|by apply (Hall u)]. bool_cases; lia.
    + right. exists k. split_and!; [by apply list_elem_of_further|lia|lia|done|]. intros u j [[= -> ->]|Hu]%elem_of_cons Hr; [|by apply Hall].
      left. bool_cases; lia.
Qed.

(** What the trusted servers ask for; a validation that does not say is for what is set. *)
Definition ballots (field : Validation -> option Z) (current : Z) (set : list Validation) : list Z :=
  map (fun val => default current (field val)) (List.filter isTrusted set).

Lemma count_field_counts field set v votes : counts (mVoteMap v) votes -> Z.of_nat (length votes + length set) < 2147483647 ->
  mCurrent (count_field field set v) = mCurrent v /\ mTarget (count_field field set v) = mTarget v /\
  counts (mVoteMap (count_field field set v)) (reverse (ballots field (mCurrent v) set) ++ votes).
Proof.
  unfold count_field, ballots. revert v votes. induction set as [|val set IH]; intros v votes Hc Hl; [done|]. cbn [foldl List.filter length] in *.
  destruct (isTrusted val); [|apply IH; [done|lia]].
  assert (Hadd : forall vote, counts (mVoteMap (addVote vote v)) (vote :: votes)) by (intros vote; apply counts_vote; [done|lia]).
  assert (Hnext : (match field val with Some vote => addVote vote v | None => noVote v end) = addVote (default (mCurrent v) (field val)) v) by (by destruct (field val)).
  rewrite Hnext. destruct (IH (addVote (default (mCurrent v) (field val)) v) (default (mCurrent v) (field val) :: votes)) as (H1 & H2 & H3); [apply Hadd|cbn [length]; lia|].
  split_and!; [done|done|]. cbn [map]. rewrite reverse_cons, <- app_assoc. exact H3.
Qed.

(** C38: the fee change a server proposes is what most want of what it can accept.  For
    each of the three settings, the value chosen lies between the one that is set and the
    one this server is configured for; no value between the two has more votes of trusted
    servers, its own vote and those that do not say counted; of several with the same
    votes it is the least. *)
Theorem fee_vote_choice (field : Validation -> option Z) (current target : Z) (set : list Validation) :
  Z.of_nat (length set) < 2147483646 ->
  let all := target :: ballots field current set in
  let r := getVotes (count_field field set (new_votable current target)) in
  Z.min target current <= r <= Z.max target current /\ 0 < cnt r all /\
  forall v, Z.min target current <= v <= Z.max target current -> cnt v all < cnt r all \/ cnt v all = cnt r all /\ r <= v.
Proof.
  intros Hl all r. assert (Hc0 : counts (mVoteMap (new_votable current target)) [target]) by (apply counts_vote; [apply counts_nil|cbn; lia]).
  destruct (count_field_counts field set (new_votable current target) [target] Hc0) as (E1 & E2 & Ho & Hc); [cbn [length]; lia|]. cbn [mCurrent mTarget new_votable] in E1, E2, Hc.
  assert (Hcnt : forall v, cnt v (reverse (ballots field current set) ++ [target]) = cnt v all).
  { intros v. unfold all. rewrite cnt_app, cnt_cons, cnt_cons, cnt_nil. rewrite (cnt_perm v _ (ballots field current set)) by apply reverse_Permutation. lia. }
  assert (Hel : forall v n, (v, n) ∈ mVoteMap (count_field field set (new_votable current target)) <-> 0 < n /\ n = cnt v all).
  { intros v n. rewrite Hc, <- cnt_pos, Hcnt. naive_solver lia. }
  subst r. unfold getVotes. rewrite E1, E2. set (m := mVoteMap (count_field _ _ _)) in *.
  destruct (best_vote_spec (Z.min target current) (Z.max target current) m current 0 Ho) as [[_ Hall]|(n & Hin & Hr & _ & Hall)]; [by right|lia| |].
  - exfalso. assert (Ht : 0 < cnt target all) by (apply cnt_pos, list_elem_of_here). assert ((target, cnt target all) ∈ m) as Hin by (by apply Hel).
    specialize (Hall _ _ Hin ltac:(lia)). lia.
  - set (r := best_vote _ _ _ _ _) in *. apply Hel in Hin as [Hn ->]. split_and!; [lia|lia|done|]. intros v Hv.
    destruct (decide (0 < cnt v all)) as [Hp|Hp]; [apply (Hall v); [by apply Hel|done]|left; lia].
Qed.

(** ** The town votes *)

Section Samples.
#[local] Existing Instance Directory.Tail.
#[local] Existing Instance EngineFrame.town_keys.
#[local] Existing Instance EngineFrame.town_app.
#[local] Existing Instance EngineFrame.town_paths.
#[local] Existing Instance EngineFrame.town_votes.

Definition asks (fee : option Z) : Validation := {| isTrusted := true; v_BaseFee := fee; v_ReserveBase := None; v_ReserveIncrement := None |}.

(** Of five servers two are for 20, one for 30, one for 99, one does not say; this
    server would like 40. *)
Definition five : list Validation := [asks (Some 20); asks (Some 99); asks None; asks (Some 20); asks (Some 30)].

Lemma fee_vote_choice_witness :
  getVotes (count_field v_BaseFee five (new_votable 10 40)) = 20 /\ cnt 10 (40 :: ballots v_BaseFee 10 five) < 2.
Proof.
  assert (E : getVotes (count_field v_BaseFee five (new_votable 10 40)) = 20) by reflexivity. split; [exact E|].
  pose proof (fee_vote_choice v_BaseFee 10 40 five ltac:(cbn; lia)) as (_ & _ & H). rewrite E in H. specialize (H 10 ltac:(lia)).
  change (cnt 20 (40 :: ballots v_BaseFee 10 five)) with 2 in H. lia.
Defined.

Definition town_fees : FeeVoteImpl := {| mTargetBaseFee := 40; mTargetReserveBase := 1000; mTargetReserveIncrement := 100 |}.

Definition fee_tx (fields : gmap SField STValue) : SerializedTransaction :=
  {| getTransactionID := LedgerLaws.index_of 200; getSigningHash := LedgerLaws.index_of 200; getTxnType := ttFEE; txFields := fields;
     getSigningPubKey := []; getSignature := []; txPaths := None; mSigGood := false; mSigBad := false |}.

(** The proposal, and what the engine makes of it. *)
Definition voted_fee : option Z :=
  match doVoting town_fees 512 EngineFrame.town five with
  | Ok (Some fields) =>
      x ← mAccountState (mLedger (les (tbl (state_of (engine true (fee_tx fields) 0) EngineFrame.town_state)))) !! getLedgerFeeIndex;
      Some (getFieldU64 sfBaseFee x)
  | _ => None
  end.

Lemma vote_takes_effect : voted_fee = Some 20.
Proof. vm_compute. reflexivity. Qed.

(** The reserve that is voted on is scaled by the base fee, the reserve that is set is
    not: once the base fee is twice the reference units, a server that has exactly the
    reserve it is configured for asks for it in every validation and proposes a change
    to what is set already. *)
Definition doubled : Ledger :=
  {| mAccountState := ∅; mBaseFee := 20; mReferenceFeeUnits := 10; mReserveBase := 1000; mReserveIncrement := 100 |}.

Lemma reserve_scaled :
  let f := {| mTargetBaseFee := 20; mTargetReserveBase := 1000; mTargetReserveIncrement := 100 |} in
  v_ReserveBase <$> doValidation f doubled (asks None) = Ok (Some 1000) /\
  (fun o => o ≫= fun m : gmap SField STValue => m !! sfReserveBase) <$> doVoting f 512 doubled [] = Ok (Some (STUInt32 1000)).
Proof. split; vm_compute; reflexivity. Qed.
End Samples.

End FeeVote.
