(* ===== verification/AmendmentTable.v ===== *)
(** * Voting on amendments

    [src/src/ripple_app/misc/AmendmentTable.h] and [AmendmentTableImpl.cpp]: what the
    server knows of amendments, the majorities it sees in the validations of trusted
    servers, and which amendments it would vote to enable.

    The table is a finite map; times are 32-bit seconds.  The table [Features] of the
    wallet database is part of the state: a [SELECT] finds a row, an [UPDATE] changes
    rows that are there.  [reportValidations] meets the votes in the order of
    [map_to_list], which does not matter to any amendment ([report_state]).

    Theorem: an amendment is only voted for after it has held a majority
    ([enable_sound]). *)
From Stdlib Require Import ZArith Lia Sorted.
From S2P Require Import Prelude BaseUint SHAMapNode LedgerEntrySet OrderedMap.
From stdpp Require Import base numbers list gmap strings.
Local Open Scope Z_scope.

Module AmendmentTable.

Abbreviation uint256 := (list Z).

(** ** Amendments *)

Record AmendmentState : Type := {
  mVetoed : bool;
  mEnabled : bool;
  mSupported : bool;
  mDefault : bool;
  m_firstMajority : Z;
  m_lastMajority : Z;
  mFriendlyName : list Z }.

Definition new_AmendmentState : AmendmentState :=
  {| mVetoed := false; mEnabled := false; mSupported := false; mDefault := false; m_firstMajority := 0; m_lastMajority := 0; mFriendlyName := [] |}.

Definition with_flags (vetoed enabled supported : bool) (s : AmendmentState) : AmendmentState :=
  {| mVetoed := vetoed; mEnabled := enabled; mSupported := supported; mDefault := mDefault s;
     m_firstMajority := m_firstMajority s; m_lastMajority := m_lastMajority s; mFriendlyName := mFriendlyName s |}.
Definition set_vetoed (b : bool) (s : AmendmentState) : AmendmentState := with_flags b (mEnabled s) (mSupported s) s.
Definition set_enabled (b : bool) (s : AmendmentState) : AmendmentState := with_flags (mVetoed s) b (mSupported s) s.
Definition set_supported (b : bool) (s : AmendmentState) : AmendmentState := with_flags (mVetoed s) (mEnabled s) b s.
Definition set_majority (first last : Z) (s : AmendmentState) : AmendmentState :=
  {| mVetoed := mVetoed s; mEnabled := mEnabled s; mSupported := mSupported s; mDefault := mDefault s;
     m_firstMajority := first; m_lastMajority := last; mFriendlyName := mFriendlyName s |}.
Definition setFriendlyName (n : list Z) (s : AmendmentState) : AmendmentState :=
  {| mVetoed := mVetoed s; mEnabled := mEnabled s; mSupported := mSupported s; mDefault := mDefault s;
     m_firstMajority := m_firstMajority s; m_lastMajority := m_lastMajority s; mFriendlyName := n |}.

(** The votes of one window. *)
Record AmendmentSet : Type := { mCloseTime : Z; mTrustedValidations : Z; mVotes : gmap uint256 Z }.

Definition new_AmendmentSet (ct : Z) : AmendmentSet := {| mCloseTime := ct; mTrustedValidations := 0; mVotes := ∅ |}.
Definition addVoter (s : AmendmentSet) : AmendmentSet :=
  {| mCloseTime := mCloseTime s; mTrustedValidations := i32 (mTrustedValidations s + 1); mVotes := mVotes s |}.
Definition addVote (amendment : uint256) (s : AmendmentSet) : AmendmentSet :=
  {| mCloseTime := mCloseTime s; mTrustedValidations := mTrustedValidations s;
     mVotes := <[amendment := i32 (default 0 (mVotes s !! amendment) + 1)]> (mVotes s) |}.

(** ** The table *)

Record AmendmentTable : Type := {
  m_amendmentMap : gmap uint256 AmendmentState;
  m_majorityTime : Z;
  mMajorityFraction : Z;
  m_firstReport : Z;
  m_lastReport : Z;
  Features : gmap uint256 (Z * Z) }.

Definition new_AmendmentTable (majorityTime majorityFraction : Z) (features : gmap uint256 (Z * Z)) : AmendmentTable :=
  {| m_amendmentMap := ∅; m_majorityTime := majorityTime; mMajorityFraction := majorityFraction; m_firstReport := 0; m_lastReport := 0; Features := features |}.

Definition set_map (m : gmap uint256 AmendmentState) (t : AmendmentTable) : AmendmentTable :=
  {| m_amendmentMap := m; m_majorityTime := m_majorityTime t; mMajorityFraction := mMajorityFraction t;
     m_firstReport := m_firstReport t; m_lastReport := m_lastReport t; Features := Features t |}.

(** What a new entry starts with: its row of the database. *)
Definition stored (a : uint256) (t : AmendmentTable) : AmendmentState :=
  match Features t !! a with
  | Some (first, last) => set_majority (u32 first) (u32 last) new_AmendmentState
  | None => new_AmendmentState
  end.

(** [getCreate (amendment, true)]: the table has an entry afterwards, and this is it. *)
Definition getCreate (a : uint256) (t : AmendmentTable) : AmendmentState * AmendmentTable :=
  match m_amendmentMap t !! a with
  | Some s => (s, t)
  | None => (stored a t, set_map (<[a := stored a t]> (m_amendmentMap t)) t)
  end.

Definition put (a : uint256) (s : AmendmentState) (t : AmendmentTable) : AmendmentTable := set_map (<[a := s]> (m_amendmentMap t)) t.

(** [None] where the assertion fails. *)
Definition addKnown (amendmentID : list Z) (friendlyName : option (list Z)) (veto : bool) (t : AmendmentTable) : option AmendmentTable :=
  let hash := fst (BaseUint.SetHex 32 amendmentID false) in
  if SHAMapNode.isZero hash then None
  else
    let '(f, t) := getCreate hash t in
    let f := match friendlyName with Some n => setFriendlyName n f | None => f end in
    Some (put hash (set_supported true (set_vetoed veto f)) t).

Definition veto (a : uint256) (t : AmendmentTable) : bool * AmendmentTable :=
  let '(s, t) := getCreate a t in
  if mVetoed s then (false, t) else (true, put a (set_vetoed true s) t).

Definition unVeto (a : uint256) (t : AmendmentTable) : bool * AmendmentTable :=
  match m_amendmentMap t !! a with
  | None => (false, t)
  | Some s => if negb (mVetoed s) then (false, t) else (true, put a (set_vetoed false s) t)
  end.

Definition enable (a : uint256) (t : AmendmentTable) : bool * AmendmentTable :=
  let '(s, t) := getCreate a t in
  if mEnabled s then (false, t) else (true, put a (set_enabled true s) t).

Definition disable (a : uint256) (t : AmendmentTable) : bool * AmendmentTable :=
  match m_amendmentMap t !! a with
  | None => (false, t)
  | Some s => if negb (mEnabled s) then (false, t) else (true, put a (set_enabled false s) t)
  end.

Definition isEnabled (a : uint256) (t : AmendmentTable) : bool :=
  match m_amendmentMap t !! a with Some s => mEnabled s | None => false end.
Definition isSupported (a : uint256) (t : AmendmentTable) : bool :=
  match m_amendmentMap t !! a with Some s => mSupported s | None => false end.

(** The amendments whose state satisfies [p]. *)
Definition amendments_with (p : AmendmentState -> bool) (t : AmendmentTable) : gset uint256 :=
  dom (filter (fun e => p e.2 = true) (m_amendmentMap t)).

Definition getVetoed : AmendmentTable -> gset uint256 := amendments_with mVetoed.
Definition getEnabled : AmendmentTable -> gset uint256 := amendments_with mEnabled.

Definition shouldEnable (t : AmendmentTable) (fs : AmendmentState) : bool :=
  if mVetoed fs || mEnabled fs || negb (mSupported fs) || negb (m_lastMajority fs =? m_lastReport t) then false
  else u32 (m_lastMajority fs - m_firstMajority fs) >? m_majorityTime t.

Definition getToEnable (t : AmendmentTable) : gset uint256 :=
  if negb (m_lastReport t =? 0) then amendments_with (shouldEnable t) t else ∅.

Definition getDesired : AmendmentTable -> gset uint256 :=
  amendments_with (fun s => mSupported s && negb (mEnabled s) && negb (mVetoed s)).

(** *** Reports *)

(** What a count of votes does to an amendment, and whether that is a change. *)
Definition count_majority (threshold closeTime votes : Z) (s : AmendmentState) : AmendmentState * bool :=
  if threshold <=? votes then
    (set_majority (if m_firstMajority s =? 0 then closeTime else m_firstMajority s) closeTime s, m_firstMajority s =? 0)
  else if negb (m_firstMajority s =? 0) then (set_majority 0 0 s, true)
  else (s, false).

Definition report_one (threshold closeTime : Z) (acc : gmap uint256 AmendmentState * list uint256) (e : uint256 * Z)
    : gmap uint256 AmendmentState * list uint256 :=
  let '(m, changed) := acc in
  let '(s, c) := count_majority threshold closeTime e.2 (default new_AmendmentState (m !! e.1)) in
  (<[e.1 := s]> m, if c then changed ++ [e.1] else changed).

(** The two [UPDATE]s of an amendment; [operator []] makes an entry when there is none. *)
Definition save_one (acc : gmap uint256 AmendmentState * gmap uint256 (Z * Z)) (hash : uint256)
    : gmap uint256 AmendmentState * gmap uint256 (Z * Z) :=
  let '(m, db) := acc in
  let fState := default new_AmendmentState (m !! hash) in
  (<[hash := fState]> m, match db !! hash with Some _ => <[hash := (m_firstMajority fState, m_lastMajority fState)]> db | None => db end).

Definition majority_threshold (set : AmendmentSet) (t : AmendmentTable) : Z := Z.quot (i32 (mTrustedValidations set * mMajorityFraction t)) 256.

(** The vector of changed amendments starts with a zero for every vote: it is resized,
    not reserved. *)
Definition reportValidations (set : AmendmentSet) (t : AmendmentTable) : AmendmentTable :=
  if mTrustedValidations set =? 0 then t
  else
    let firstReport := if m_firstReport t =? 0 then mCloseTime set else m_firstReport t in
    let changed := replicate (size (mVotes set)) SHAMapNode.zero256 in
    let '(m, changed) := foldl (report_one (majority_threshold set t) (mCloseTime set)) (m_amendmentMap t, changed) (map_to_list (mVotes set)) in
    let '(m, db) := foldl save_one (m, Features t) changed in
    {| m_amendmentMap := m; m_majorityTime := m_majorityTime t; mMajorityFraction := mMajorityFraction t;
       m_firstReport := firstReport; m_lastReport := mCloseTime set; Features := db |}.

Definition setEnabled (amendments : list uint256) (t : AmendmentTable) : AmendmentTable :=
  set_map (foldl (fun m a => <[a := set_enabled true (default new_AmendmentState (m !! a))]> m) (set_enabled false <$> m_amendmentMap t) amendments) t.

Definition setSupported (amendments : list uint256) (t : AmendmentTable) : AmendmentTable :=
  set_map (foldl (fun m a => <[a := set_supported true (default new_AmendmentState (m !! a))]> m) (set_supported false <$> m_amendmentMap t) amendments) t.

(** *** Validations *)

Record Validation : Type := { isTrusted : bool; v_Amendments : option (list uint256) }.

(** The amendments in the order of their hashes; nothing when there is none. *)
Definition sort256 (l : list uint256) : list uint256 := map fst (foldr (fun a m => OrderedMap.insert SHAMapNode.key_ltb a tt m) [] l).

Definition doValidation (t : AmendmentTable) (baseValidation : Validation) : Validation :=
  let lAmendments := getDesired t in
  if decide (lAmendments = ∅) then baseValidation
  else {| isTrusted := isTrusted baseValidation; v_Amendments := Some (sort256 (elements lAmendments)) |}.

(** The loop over the validations. *)
Definition collect (parentCloseTime : Z) (valSet : list Validation) : AmendmentSet :=
  foldl (fun set val =>
    if isTrusted val then foldl (fun set a => addVote a set) (addVoter set) (default [] (v_Amendments val)) else set)
    (new_AmendmentSet parentCloseTime) valSet.

(** [doVoting]: the amendments this server would propose to enable.  Proposing them is
    compiled out ([RIPPLE_PROPOSE_AMENDMENTS]).  [None] where the assertion fails. *)
Definition doVoting (ledgerSeq parentCloseTime : Z) (valSet : list Validation) (t : AmendmentTable) : option (gset uint256 * AmendmentTable) :=
  if negb (ledgerSeq mod 256 =? 0) then None
  else let t := reportValidations (collect parentCloseTime valSet) t in Some (getToEnable t, t).

(** ** What a report does *)

Definition state_at (a : uint256) (t : AmendmentTable) : AmendmentState := default new_AmendmentState (m_amendmentMap t !! a).

Lemma report_fold threshold closeTime l m changed a : NoDup (map fst l) ->
  (foldl (report_one threshold closeTime) (m, changed) l).1 !! a =
    match list_to_map (M := gmap uint256 Z) l !! a with
    | Some n => Some (count_majority threshold closeTime n (default new_AmendmentState (m !! a))).1
    | None => m !! a
    end.
Proof.
  revert m changed. induction l as [|[b n] l IH]; intros m changed Hnd; [done|]. cbn [map fst] in Hnd. apply NoDup_cons in Hnd as [Hb Hnd].
  cbn [foldl list_to_map foldr]. unfold report_one at 2. cbn [fst snd]. destruct (count_majority threshold closeTime n (default new_AmendmentState (m !! b))) as [s c] eqn:E.
  rewrite IH by done. cbn. destruct (decide (a = b)) as [->|Hne].
  - rewrite (lookup_insert_eq (list_to_map l)), not_elem_of_list_to_map_1 by done. by rewrite lookup_insert_eq, E.
  - by rewrite !lookup_insert_ne by done.
Qed.

Lemma save_fold hs m db a : default new_AmendmentState ((foldl save_one (m, db) hs).1 !! a) = default new_AmendmentState (m !! a).
Proof.
  revert m db. induction hs as [|h hs IH]; intros m db; [done|]. cbn [foldl]. unfold save_one at 2. rewrite IH.
  destruct (decide (a = h)) as [->|Hne]; [by rewrite lookup_insert_eq|by rewrite lookup_insert_ne].
Qed.

Lemma save_rows hs m : (foldl save_one (m, ∅) hs).2 = ∅.
Proof. revert m. induction hs as [|h hs IH]; intros m; [done|]. cbn [foldl]. unfold save_one at 2. rewrite lookup_empty. apply IH. Qed.

(** Every amendment is counted by itself. *)
Lemma report_state set t a : mTrustedValidations set <> 0 ->
  state_at a (reportValidations set t) =
    match mVotes set !! a with
    | Some n => (count_majority (majority_threshold set t) (mCloseTime set) n (state_at a t)).1
    | None => state_at a t
    end.
Proof.
  intros Hn. unfold reportValidations. destruct (Z.eqb_spec (mTrustedValidations set) 0) as [|_]; [done|].
  pose proof (report_fold (majority_threshold set t) (mCloseTime set) (map_to_list (mVotes set)) (m_amendmentMap t) (replicate (size (mVotes set)) SHAMapNode.zero256) a) as Hr.
  rewrite list_to_map_to_list in Hr. specialize (Hr (NoDup_fst_map_to_list _)).
  destruct (foldl (report_one _ _) _ _) as [m changed]. cbn [fst] in Hr. pose proof (save_fold changed m (Features t) a) as Hs.
  destruct (foldl save_one _ _) as [m' db]. unfold state_at. cbn [m_amendmentMap]. cbn [fst] in Hs. rewrite Hs, Hr. by destruct (mVotes set !! a).
Qed.

Lemma report_fields set t : mTrustedValidations set <> 0 -> Features t = ∅ ->
  m_lastReport (reportValidations set t) = mCloseTime set /\ m_majorityTime (reportValidations set t) = m_majorityTime t /\
  mMajorityFraction (reportValidations set t) = mMajorityFraction t /\ Features (reportValidations set t) = ∅.
Proof.
  intros Hn Hf. unfold reportValidations. destruct (Z.eqb_spec (mTrustedValidations set) 0) as [|_]; [done|]. rewrite Hf.
  destruct (foldl (report_one _ _) _ _) as [m changed]. pose proof (save_rows changed m) as Hs. by destruct (foldl save_one _ _) as [m' db].
Qed.

(** ** What the loop over the validations counts *)

(** What the trusted servers ask for. *)
Definition ballots (valSet : list Validation) : list uint256 := concat (map (fun val => default [] (v_Amendments val)) (List.filter isTrusted valSet)).

Definition tallied (bs : list uint256) (set : AmendmentSet) : Prop :=
  forall a, mVotes set !! a = if decide (a ∈ bs) then Some (cnt a bs) else None.

Lemma tallied_vote a bs set : tallied bs set -> Z.of_nat (length bs) < 2147483647 -> tallied (a :: bs) (addVote a set).
Proof.
  intros Ht Hl b. cbn. rewrite cnt_cons. destruct (decide (a = b)) as [<-|Hne].
  - rewrite lookup_insert_eq, decide_True by apply list_elem_of_here. f_equal. rewrite Ht.
    assert (E : default 0 (if decide (a ∈ bs) then Some (cnt a bs) else None) = cnt a bs) by (case_decide as Ha; [done|]; cbn; symmetry; by apply cnt_zero).
    rewrite E. pose proof (cnt_length a bs). pose proof (cnt_nonneg a bs). rewrite swrap_id by (unfold in_s; change (2 ^ (32 - 1)) with 2147483648; lia). lia.
  - rewrite lookup_insert_ne, Ht by done. destruct (decide (b ∈ bs)) as [Hb|Hb]; [rewrite decide_True by (by apply list_elem_of_further); f_equal; lia|].
    rewrite decide_False; [done|]. intros [->|?]%elem_of_cons; by auto.
Qed.

Lemma tallied_votes l bs set : tallied bs set -> Z.of_nat (length l + length bs) < 2147483647 ->
  let set' := foldl (fun set a => addVote a set) set l in
  tallied (reverse l ++ bs) set' /\ mTrustedValidations set' = mTrustedValidations set /\ mCloseTime set' = mCloseTime set.
Proof.
  revert bs set. induction l as [|a l IH]; intros bs set Ht Hl; [done|]. cbn [foldl length] in *. rewrite reverse_cons, <- app_assoc.
  apply (IH (a :: bs) (addVote a set)); [apply tallied_vote; [done|lia]|cbn [length]; lia].
Qed.

Lemma tallied_perm bs bs' set : bs ≡ₚ bs' -> tallied bs set -> tallied bs' set.
Proof. intros E Ht a. rewrite Ht, (cnt_perm a _ _ E). by rewrite (decide_ext (a ∈ bs) (a ∈ bs')) by (by rewrite E). Qed.

(** Every trusted validation is a voter, and every amendment it names is a vote. *)
Lemma collect_counts ct valSet : Z.of_nat (length valSet) < 2147483647 -> Z.of_nat (length (ballots valSet)) < 2147483647 ->
  mCloseTime (collect ct valSet) = ct /\ mTrustedValidations (collect ct valSet) = Z.of_nat (length (List.filter isTrusted valSet)) /\
  tallied (ballots valSet) (collect ct valSet).
Proof.
  unfold collect. induction valSet as [|val l IH] using rev_ind; intros Hl Hb.
  { split_and!; try done. }
  unfold ballots in *. rewrite foldl_app, List.filter_app, map_app, concat_app, length_app in *. cbn [foldl List.filter] in *. cbn [length] in Hl.
  destruct IH as (I1 & I2 & I3); [lia|lia|]. set (set := foldl _ _ l) in *. assert (Hf : (length (List.filter isTrusted l) <= length l)%nat) by apply List.filter_length_le.
  destruct (isTrusted val); cbn [map concat length] in *; [|rewrite !app_nil_r; split_and!; [done|lia|done]]. rewrite app_nil_r in *.
  destruct (tallied_votes (default [] (v_Amendments val)) _ (addVoter set) I3) as (V1 & V2 & V3); [lia|]. split_and!; [by rewrite V3| |].
  - rewrite V2. cbn [addVoter mTrustedValidations]. rewrite I2, swrap_id by (unfold in_s; change (2 ^ (32 - 1)) with 2147483648; lia). lia.
  - eapply tallied_perm; [|exact V1]. rewrite reverse_Permutation. apply Permutation_app_comm.
Qed.

(** ** Histories *)

Inductive Op : Type :=
| oKnown (amendmentID : list Z) (friendlyName : option (list Z)) (vetoed : bool)
| oVeto (a : uint256)
| oUnVeto (a : uint256)
| oEnable (a : uint256)
| oDisable (a : uint256)
| oSetEnabled (l : list uint256)
| oSetSupported (l : list uint256)
| oLook (a : uint256)
| oReport (set : AmendmentSet).

(** [oLook] is [getJson (amendment)], which makes an entry. *)
Definition exec (o : Op) (t : AmendmentTable) : AmendmentTable :=
  match o with
  | oKnown i n v => default t (addKnown i n v t)
  | oVeto a => (veto a t).2
  | oUnVeto a => (unVeto a t).2
  | oEnable a => (enable a t).2
  | oDisable a => (disable a t).2
  | oSetEnabled l => setEnabled l t
  | oSetSupported l => setSupported l t
  | oLook a => (getCreate a t).2
  | oReport set => reportValidations set t
  end.

Definition run (ops : list Op) (t : AmendmentTable) : AmendmentTable := foldl (fun t o => exec o t) t ops.

(** The reports that are counted. *)
Definition reports (ops : list Op) : list AmendmentSet :=
  omap (fun o => match o with oReport set => if mTrustedValidations set =? 0 then None else Some set | _ => None end) ops.

(** The same majorities. *)
Definition same_majority (s s' : AmendmentState) : Prop := m_firstMajority s' = m_firstMajority s /\ m_lastMajority s' = m_lastMajority s.

Definition flags_only (t t' : AmendmentTable) : Prop :=
  m_lastReport t' = m_lastReport t /\ m_majorityTime t' = m_majorityTime t /\ mMajorityFraction t' = mMajorityFraction t /\ Features t' = Features t /\
  forall a, same_majority (state_at a t) (state_at a t').

Lemma put_flags a s t : same_majority (state_at a t) s -> flags_only t (put a s t).
Proof.
  intros Hs. split_and!; try done. intros b. unfold state_at. cbn. destruct (decide (b = a)) as [->|Hne]; [by rewrite lookup_insert_eq|by rewrite lookup_insert_ne].
Qed.

Lemma flags_trans t1 t2 t3 : flags_only t1 t2 -> flags_only t2 t3 -> flags_only t1 t3.
Proof.
  intros (A1 & A2 & A3 & A4 & A5) (B1 & B2 & B3 & B4 & B5). split_and!; try congruence. intros a. destruct (A5 a), (B5 a). split; congruence.
Qed.

Lemma getCreate_flags a t : Features t = ∅ -> flags_only t (getCreate a t).2 /\ state_at a (getCreate a t).2 = (getCreate a t).1 /\ state_at a t = (getCreate a t).1.
Proof.
  intros Hf. unfold getCreate, stored. rewrite Hf, lookup_empty. unfold state_at. destruct (m_amendmentMap t !! a) as [s|] eqn:E; cbn.
  - by rewrite E.
  - split_and!; [|by rewrite lookup_insert_eq|done]. apply (put_flags a new_AmendmentState t). unfold state_at. by rewrite E.
Qed.

Lemma set_all_flags (f g : AmendmentState -> AmendmentState) l t : (forall s, same_majority s (f s)) -> (forall s, same_majority s (g s)) ->
  flags_only t (set_map (foldl (fun (m : gmap uint256 AmendmentState) a => <[a := f (default new_AmendmentState (m !! a))]> m) (g <$> m_amendmentMap t) l) t).
Proof.
  intros Hf Hg. split_and!; try done. intros a. unfold state_at. cbn.
  assert (H : forall m : gmap uint256 AmendmentState, same_majority (default new_AmendmentState (m_amendmentMap t !! a)) (default new_AmendmentState (m !! a)) ->
    same_majority (default new_AmendmentState (m_amendmentMap t !! a)) (default new_AmendmentState (foldl (fun (m : gmap uint256 AmendmentState) a => <[a := f (default new_AmendmentState (m !! a))]> m) m l !! a))).
  { induction l as [|b l IH]; intros m Hm; [done|]. cbn [foldl]. apply IH. destruct (decide (a = b)) as [->|Hne]; [|by rewrite lookup_insert_ne].
    rewrite lookup_insert_eq. cbn. destruct Hm, (Hf (default new_AmendmentState (m !! b))). split; congruence. }
  apply H. rewrite lookup_fmap. destruct (m_amendmentMap t !! a); [apply Hg|done].
Qed.

Lemma exec_flags o t : Features t = ∅ -> (forall set, o = oReport set -> mTrustedValidations set = 0) -> flags_only t (exec o t).
Proof.
  intros Hf Hr. assert (Hrefl : flags_only t t) by done.
  assert (Hput : forall a s, same_majority (getCreate a t).1 s -> flags_only t (put a s (getCreate a t).2)).
  { intros a s Hs. destruct (getCreate_flags a t Hf) as (H1 & H2 & H3). eapply flags_trans; [exact H1|]. apply put_flags. by rewrite H2. }
  destruct o as [i n v|a|a|a|a|l|l|a|set]; cbn [exec].
  - unfold addKnown. destruct (SHAMapNode.isZero _); [done|]. set (h := fst _) in *. specialize (Hput h). destruct (getCreate h t) as [s t']. cbn. apply Hput. by destruct n.
  - unfold veto. pose proof (proj1 (getCreate_flags a t Hf)) as Hg. specialize (Hput a). destruct (getCreate a t) as [s t']. destruct (mVetoed s); [done|by apply Hput].
  - unfold unVeto. destruct (m_amendmentMap t !! a) as [s|] eqn:E; [|done]. destruct (negb (mVetoed s)); [done|]. apply put_flags. unfold state_at. by rewrite E.
  - unfold enable. pose proof (proj1 (getCreate_flags a t Hf)) as Hg. specialize (Hput a). destruct (getCreate a t) as [s t']. destruct (mEnabled s); [done|by apply Hput].
  - unfold disable. destruct (m_amendmentMap t !! a) as [s|] eqn:E; [|done]. destruct (negb (mEnabled s)); [done|]. apply put_flags. unfold state_at. by rewrite E.
  - by apply set_all_flags.
  - by apply set_all_flags.
  - by apply getCreate_flags.
  - unfold reportValidations. by rewrite (Hr set eq_refl).
Qed.

(** ** What the table has seen *)

(** A report in which [a] gets a majority. *)
Definition majority (t : AmendmentTable) (a : uint256) (r : AmendmentSet) : Prop :=
  exists n, mVotes r !! a = Some n /\ majority_threshold r t <= n.

(** The reports from [r0] on: every one that has votes for [a] gives it a majority. *)
Definition lasting (t : AmendmentTable) (a : uint256) (r0 : AmendmentSet) (mid : list AmendmentSet) : Prop :=
  majority t a r0 /\ forall r, r ∈ mid -> mVotes r !! a <> None -> majority t a r.

(** What the state of [a] says about the reports [rs]. *)
Definition held (t : AmendmentTable) (a : uint256) (rs : list AmendmentSet) (s : AmendmentState) : Prop :=
  m_firstMajority s = 0 /\ m_lastMajority s = 0 \/
  exists pre r0 mid rl, rs = pre ++ r0 :: mid /\ lasting t a r0 mid /\ rl ∈ r0 :: mid /\ majority t a rl /\
    0 < mCloseTime r0 /\ m_firstMajority s = mCloseTime r0 /\ m_lastMajority s = mCloseTime rl.

Lemma held_flags t a rs s s' : same_majority s s' -> held t a rs s -> held t a rs s'.
Proof. intros [E1 E2]. unfold held. by rewrite E1, E2. Qed.

Lemma lasting_snoc t a r0 mid r : lasting t a r0 mid -> (mVotes r !! a <> None -> majority t a r) -> lasting t a r0 (mid ++ [r]).
Proof. intros [H0 Hm] Hr. split; [done|]. intros x [Hx| ->%list_elem_of_singleton]%elem_of_app; [by apply Hm|exact Hr]. Qed.

Lemma held_silent t a rs s r : mVotes r !! a = None -> held t a rs s -> held t a (rs ++ [r]) s.
Proof.
  intros Hr [H0|(pre & r0 & mid & rl & -> & Hl & Hin & Hrest)]; [by left|]. right. exists pre, r0, (mid ++ [r]), rl.
  split_and!; [by rewrite <- app_assoc|apply lasting_snoc; [done|by rewrite Hr]| |apply Hrest..].
  rewrite app_comm_cons. apply elem_of_app. by left.
Qed.

Lemma held_count t t' a rs s r n : mMajorityFraction t' = mMajorityFraction t -> 0 < mCloseTime r -> mVotes r !! a = Some n -> held t a rs s ->
  held t a (rs ++ [r]) (count_majority (majority_threshold r t') (mCloseTime r) n s).1.
Proof.
  intros Hf Hct Hn Hh. assert (Ht : majority_threshold r t' = majority_threshold r t) by (unfold majority_threshold; by rewrite Hf). rewrite Ht. unfold count_majority.
  destruct (Z.leb_spec (majority_threshold r t) n) as [Hm|Hm]; cbn [fst].
  - assert (Hmaj : majority t a r) by (by exists n). right. destruct (Z.eqb_spec (m_firstMajority s) 0) as [H0|H0]; cbn.
    + exists rs, r, [], r. split_and!; try done; [|apply list_elem_of_here]. split; [done|]. by intros x ?%not_elem_of_nil.
    + destruct Hh as [[? _]|(pre & r0 & mid & rl & -> & Hl & Hin & _ & H1 & H2 & _)]; [done|]. exists pre, r0, (mid ++ [r]), r.
      split_and!; try done; [by rewrite <- app_assoc|by apply lasting_snoc|]. rewrite app_comm_cons. apply elem_of_app. right. apply list_elem_of_here.
  - left. destruct (Z.eqb_spec (m_firstMajority s) 0) as [H0|H0]; cbn; [|done].
    destruct Hh as [?|(pre & r0 & mid & rl & _ & _ & _ & _ & H1 & H2 & _)]; [done|lia].
Qed.

Definition seen (t0 : AmendmentTable) (rs : list AmendmentSet) (t : AmendmentTable) : Prop :=
  m_lastReport t = default 0 (mCloseTime <$> last rs) /\ m_majorityTime t = m_majorityTime t0 /\ mMajorityFraction t = mMajorityFraction t0 /\
  Features t = ∅ /\ forall a, held t0 a rs (state_at a t).

Lemma seen_flags t0 rs t t' : flags_only t t' -> seen t0 rs t -> seen t0 rs t'.
Proof.
  intros (F1 & F2 & F3 & F4 & F5) (S1 & S2 & S3 & S4 & S5). split_and!; try congruence. intros a. eapply held_flags; [apply F5|apply S5].
Qed.

Lemma seen_report t0 rs t r : mTrustedValidations r <> 0 -> 0 < mCloseTime r -> seen t0 rs t -> seen t0 (rs ++ [r]) (reportValidations r t).
Proof.
  intros Hn Hct (S1 & S2 & S3 & S4 & S5). destruct (report_fields r t Hn S4) as (R1 & R2 & R3 & R4). split_and!; [by rewrite last_snoc|congruence|congruence|done|].
  intros a. rewrite report_state by done. destruct (mVotes r !! a) as [n|] eqn:E; [by apply held_count|by apply held_silent].
Qed.

Lemma run_seen t0 ops : m_amendmentMap t0 = ∅ -> m_lastReport t0 = 0 -> Features t0 = ∅ -> Forall (fun r => 0 < mCloseTime r) (reports ops) ->
  seen t0 (reports ops) (run ops t0).
Proof.
  intros Hm Hr Hf. induction ops as [|o ops IH] using rev_ind; intros Hpos.
  - split_and!; try done. intros a. left. unfold state_at, run. cbn. by rewrite Hm, lookup_empty.
  - unfold reports, run in *. rewrite omap_app in *. rewrite foldl_app. apply Forall_app in Hpos as [Hpos Ho]. specialize (IH Hpos). cbn [foldl omap list_omap] in *.
    set (t := foldl _ t0 ops) in *. set (rs := omap _ ops) in *.
    assert (Hflag : (forall set, o = oReport set -> mTrustedValidations set = 0) -> seen t0 (rs ++ []) (exec o t)).
    { intros H. rewrite app_nil_r. eapply seen_flags; [|exact IH]. apply exec_flags; [apply IH|done]. }
    destruct o; try (by apply Hflag). cbn in *. destruct (Z.eqb_spec (mTrustedValidations set) 0) as [E|E]; [apply Hflag; by intros ? [= <-]|].
    apply seen_report; [done|by inversion Ho|done].
Qed.

(** Reports whose close times increase. *)
Lemma times_last (l : list AmendmentSet) x y : StronglySorted Z.lt (map mCloseTime l) -> last l = Some x -> y ∈ l -> mCloseTime y < mCloseTime x \/ y = x.
Proof.
  induction l as [|z l IH] using rev_ind; [done|]. rewrite last_snoc, map_app. cbn [map]. intros Hs [= ->] [Hy| ->%list_elem_of_singleton]%elem_of_app; [left|by right].
  clear IH. induction l as [|w l IH]; [by apply not_elem_of_nil in Hy|]. cbn [map app] in Hs. inversion Hs as [|? ? Hs' Hall]; subst.
  apply elem_of_cons in Hy as [->|Hy]; [|by apply IH]. rewrite List.Forall_app in Hall. destruct Hall as [_ Hall]. by inversion Hall.
Qed.

Lemma to_enable a t : a ∈ getToEnable t ->
  m_lastReport t <> 0 /\ mSupported (state_at a t) = true /\ mVetoed (state_at a t) = false /\ mEnabled (state_at a t) = false /\
  m_lastMajority (state_at a t) = m_lastReport t /\ m_majorityTime t < u32 (m_lastMajority (state_at a t) - m_firstMajority (state_at a t)).
Proof.
  unfold getToEnable, amendments_with. destruct (Z.eqb_spec (m_lastReport t) 0) as [|Hr]; cbn [negb]; [set_solver|].
  rewrite elem_of_dom. intros [s Hs]. apply map_lookup_filter_Some in Hs as [Hs Hp]. unfold state_at. rewrite Hs. cbn in Hp |- *. unfold shouldEnable in Hp.
  destruct (mVetoed s), (mEnabled s), (mSupported s), (Z.eqb_spec (m_lastMajority s) (m_lastReport t)); cbn in Hp; try done.
  apply Z.gtb_lt in Hp. done.
Qed.

(** C37: an amendment is only voted for after it has held a majority.  Whatever vetoes,
    look-ups and reports a new table sees, with close times that increase, an amendment
    it would enable is supported, neither vetoed nor enabled, and there is a report that
    gave it a majority more than the required time before the last one, which gives it a
    majority too; every report between the two that has votes for it gives it one. *)
Theorem enable_sound (majorityTime majorityFraction : Z) (ops : list Op) (a : uint256) :
  let t0 := new_AmendmentTable majorityTime majorityFraction ∅ in
  let t := run ops t0 in
  Forall (fun r => 0 < mCloseTime r < 2 ^ 32) (reports ops) ->
  StronglySorted Z.lt (map mCloseTime (reports ops)) -> a ∈ getToEnable t ->
  isSupported a t = true /\ (a ∉ getVetoed t) /\ isEnabled a t = false /\
  exists pre r0 mid rl, reports ops = pre ++ r0 :: mid /\ last (r0 :: mid) = Some rl /\
    lasting t0 a r0 mid /\ majority t0 a rl /\ majorityTime < mCloseTime rl - mCloseTime r0.
Proof.
  intros t0 t Hct Hs Ha. destruct (to_enable a t Ha) as (Hr & Hsup & Hv & He & Hlast & Htime).
  destruct (run_seen t0 ops eq_refl eq_refl eq_refl) as (S1 & S2 & _ & _ & S5); [eapply List.Forall_impl; [|exact Hct]; intros r [? _]; done|].
  fold t in S1, S2, S5. split_and!.
  - revert Hsup. unfold isSupported, state_at. by destruct (m_amendmentMap t !! a).
  - unfold getVetoed, amendments_with. rewrite elem_of_dom. intros [s [H1 H2]%map_lookup_filter_Some]. unfold state_at in Hv. rewrite H1 in Hv. cbn in *. congruence.
  - revert He. unfold isEnabled, state_at. by destruct (m_amendmentMap t !! a).
  - destruct (S5 a) as [[_ H0]|(pre & r0 & mid & rl & E & Hl & Hin & Hm & H1 & H2 & H3)]; [lia|].
    destruct (last (reports ops)) as [x|] eqn:Ex; [|cbn in S1; lia]. cbn in S1. exists pre, r0, mid, rl.
    assert (Hin' : forall y, y ∈ r0 :: mid -> y ∈ reports ops) by (intros y Hy; rewrite E; apply elem_of_app; by right).
    assert (Hx : mCloseTime x = mCloseTime rl) by congruence. destruct (times_last _ x rl Hs Ex (Hin' _ Hin)) as [|<-]; [lia|].
    assert (Hle : mCloseTime r0 <= mCloseTime rl) by (destruct (times_last _ rl r0 Hs Ex (Hin' _ (list_elem_of_here _ _))) as [|<-]; lia).
    pose proof (proj1 (List.Forall_forall _ _) Hct rl ltac:(by apply list_elem_of_In, Hin')) as Hb. cbn beta in Hb. rewrite H2, H3, S2, uwrap_id in Htime by (unfold in_u; lia).
    split_and!; try done. by rewrite E, last_app_cons in Ex.
Qed.

(** ** Three reports *)

Definition bill : uint256 := replicate 32 7.
Definition yes : Validation := {| isTrusted := true; v_Amendments := Some [bill] |}.
Definition no : Validation := {| isTrusted := true; v_Amendments := None |}.
Definition town_table : AmendmentTable := new_AmendmentTable 100 204 ∅.

Definition support : list Op := [oSetSupported [bill]; oReport (collect 1000 [yes; yes; yes; yes; no])].
Definition later : Op := oReport (collect 1200 [yes; yes; yes; no; yes]).

Lemma enable_sound_witness :
  bill ∈ getToEnable (run (support ++ [later]) town_table) /\ isEnabled bill (run (support ++ [later]) town_table) = false.
Proof.
  assert (H : bill ∈ getToEnable (run (support ++ [later]) town_table)) by (apply (bool_decide_unpack _); vm_compute; exact I). split; [exact H|].
  refine (proj1 (proj2 (proj2 (enable_sound 100 204 (support ++ [later]) bill _ _ H)))).
  - repeat constructor.
  - repeat constructor.
Defined.

(** A report in which nobody votes for the amendment leaves its majority as it is; one in
    which one server does ends it. *)
Lemma majority_gap :
  getToEnable (run (support ++ [oReport (collect 1100 [no; no; no; no; no]); later]) town_table) = {[bill]} /\
  getToEnable (run (support ++ [oReport (collect 1100 [no; no; yes; no; no]); later]) town_table) = ∅.
Proof. split; vm_compute; reflexivity. Qed.

(** Three of five servers are a majority: four fifths of five are rounded down. *)
Lemma three_of_five : majority town_table bill (collect 1000 [yes; yes; yes; no; no]).
Proof. exists 3. by vm_compute. Qed.

(** The first report makes an entry for the amendment zero, for which nobody voted. *)
Lemma zero_entry :
  m_amendmentMap (run support town_table) !! SHAMapNode.zero256 = Some new_AmendmentState /\ SHAMapNode.zero256 ∉ ballots [yes; yes; yes; yes; no].
Proof. split; [by vm_compute|]. apply (bool_decide_unpack _). by vm_compute. Qed.

End AmendmentTable.
